(* ===== verification/_CoqProject ===== *)
-Q . S2P
Prelude.v
Paging.v
Json.v
Codec.v
JsonText.v
StateBarrier.v
StateUpdate.v
StateStore.v
StateService.v
WfTypes.v
WfDag.v
WfBus.v
WfTick.v
WfSweep.v
WfStart.v
WfSystem.v
ConfigClient.v
QueueStore.v
QueueJournal.v
QueueLife.v
QueueOps.v
QueueAdapter.v
QueueFunctions.v
QueueSubscribers.v
QueueRuntime.v
QueueControl.v
QueueService.v
SessionTypes.v
SessionLog.v
SessionLife.v
SessionStore.v
SessionFs.v
SessionEvents.v
SessionService.v
SessionRead.v
SessionRun.v
SessionFsLaws.v
SessionTree.v
SessionPages.v
SessionBatch.v
SessionServe.v
SessionEffects.v
SessionCount.v
SessionExamples.v
SessionBridge.v
SessionResync.v
SessionConfig.v
GateTypes.v
GatePolicy.v
GateConfig.v
GateBus.v
GateHandlers.v
GateService.v
GateInbox.v
GateProperties.v
GateStores.v
GateSessions.v
GateExamples.v
