(* ===== verification/Prelude.v ===== *)
(** * Workers: a verified model of the iii state, workflow, queue, session and approval workers

    The repository holds about a hundred independent workers that talk over the bus of the iii
    engine.  This development covers five that carry state other workers rely on, and the way
    the second and the fifth use the first.

    - The state worker (state/src) is a key-value store: values under (scope, key), change
      events, compare-and-set, fan-in barriers, scopes a worker can claim for itself, and a
      background writer that keeps one file per scope.
    - The workflow worker (workflow/src) runs graphs of agents.  [workflow::start] validates a
      definition and stores a run; [workflow::tick] polls the sessions of the running nodes,
      expands fan-outs, fires the ready nodes and finalizes the run; [workflow::sweep], from a
      cron, times out nodes, fires them again within a budget, and deletes old runs;
      [workflow::stop], [wake], [status], [node-result] and the [stamp-reply] hook complete it.
      Everything it remembers is in the state worker, under five scopes.
    - The queue worker (queue/src) keeps durable jobs.  A store of waiting, in-flight and dead
      jobs writes every change to a journal, folded into snapshots; on it the builtin adapter
      fans topics out to subscribers and feeds the consumers of named function queues; a
      runtime invokes the functions, one group at a time in a fifo queue, and keeps the
      consumers in step with the configuration.
    - The session worker (session-manager/src) keeps conversations.  A session is a tree of
      entries with an active leaf; its transcript is the path from the root to the leaf.  Each
      session is one file of records, replayed on first access; handlers hold the lock of their
      session, readers hold none.  Transcripts are read page by page, with runs of function
      calls folded; attachments are stored beside the sessions, and a fork copies a path.  Several
      instances share one store by calling the main instance over the bus.
    - The approval gate (approval-gate/src) stands between an agent and the functions it calls.
      A hook before each call decides by the mode of the session, its lists of trusted functions
      and the configured rules: the call passes, is refused, or is held and put into an inbox a
      human decides from; a hook behind each call turns a refused file access into a question.
      A decision is delivered to the harness and the record leaves the inbox.  Everything it
      remembers is in the state worker, under four scopes.

    ** Files

    - [Prelude]: results, strings as byte strings with the Rust operations the code uses, key
      order of B-tree maps, the lemmas and hints all files share.
    - [Paging]: a client that follows cursors, and when it sees the whole list.
    - [Json]: [serde_json::Value] with its map order, numbers at their width, and codecs
      ([to_value]/[from_value]) for derived [Serialize]/[Deserialize].  The text printer and
      JSON pointers of serde_json are the class [SerdeText].
    - [Codec]: what derived serializations share: readers of members and their lemmas.
    - [JsonText]: the text of files: what [serde_json] writes and reads is the class
      [SerdeFile] with its laws, the reader's limit of nesting among them; [SampleFile] is an
      instance; what UTF-8 a file must be.
    - [StateBarrier] (barrier.rs): Module [Barrier].
    - [StateUpdate] (update_ops.rs): Modules [F64] (binary64 by its bits) and [Update], the
      operations of [state::update].
    - [StateStore] (store.rs): Modules [FileNames], [Disk], [Kv], [Flush] and
      [StoreProperties].  The disk is a map of file names; [Flush.step] is the step relation
      in which mutations interleave with the writer and every write may fail at every stage.
    - [StateService] (functions.rs, adapters.rs, structs.rs, on_changed.rs, json_budget.rs):
      the trait [StateAdapter] as a class with its laws, discharged by the store; Modules
      [Claims] (namespaces) and [Service] (the [state::*] functions).
    - [WfTypes] (types.rs, ids.rs, config.rs): definitions, run records, checkpoints, ids,
      configuration and their codecs.
    - [WfDag] (dag.rs): Module [Dag], the pure graph functions.
    - [WfBus] (state.rs, error.rs): the class [StateBus] is what the worker expects of the
      state worker, and [service_bus_laws] proves that the handlers of [StateService] give it.
      Handlers are programs of a small error monad over a [World] (what is stored, the calls
      that reached their target, a counter).  An [Env] decides, for every interaction, whether
      a call is answered, lost before it took effect or lost after, and gives replies, clock
      readings and random ids.  Module [Store] is state.rs; [wp] and its rules carry the
      proofs about programs.
    - [WfTick] (reconcile.rs, functions/tick.rs, functions/mod.rs, events.rs): Modules
      [Events], [Reconcile], [Tick], then [TickRules] and [TickProperties].
    - [WfSweep] (timeout.rs, functions/sweep.rs, stop.rs, wake.rs, status.rs, node_result.rs,
      stamp_reply.rs): Modules [Timeout], [Sweep], [Stop], [Wake], [Status], [StampReply].
    - [WfStart] (functions/start.rs): Module [Start].
    - [WfSystem]: the worker as a whole; [exec] delivers one event, histories are sequences of
      events under any environments.
    - [ConfigClient] (crates/config-client/src/initialization.rs, queue/src/configuration.rs):
      Module [Client], how a worker installs and reads its configuration entry.
    - [QueueStore] (queue/src/store.rs, the data): Modules [Queue] and [QueueRules].
    - [QueueJournal] (store.rs, the files): Module [Journal].  A directory is a map from file
      names to text.
    - [QueueLife] (store.rs, over time): Module [Ops] is one operation of a store, [Life] the
      step relation of a file store, in which operations, failed writes, the stages of the
      compactor, crashes and starts interleave; [Promise] is the abstract store it refines.
    - [QueueOps]: what one operation does, on every branch.
    - [QueueAdapter] (adapters/builtin.rs): Module [StoreInterface], the trait [QueueStore] with
      the laws an adapter relies on, discharged by the store; Module [Topics].
    - [QueueFunctions] (adapters/builtin.rs, adapter.rs): Modules [Settings], [Envelopes] and
      [FunctionQueues], whose consumers are modelled between their await points.
    - [QueueSubscribers] (subscribers.rs, on_message.rs): Modules [Specs] and [Subscribers].
    - [QueueRuntime] (runtime.rs, delivery): Modules [Messages], [Delivery] over the trait
      [Invoker], and [Groups], the fifo dispatcher as a step relation.
    - [QueueControl] (config.rs, configuration.rs, runtime.rs): Modules [QueueSettings] and
      [Control], over a bus and adapters whose every call may fail.
    - [QueueService] (functions.rs, runtime.rs): Modules [Enqueue] and [TopicFunctions].
    - [SessionTypes] (session-manager/src/types.rs, error.rs): Module [Types], the messages,
      entries, metadata and attachments with their codecs.
    - [SessionLog] (store/fs.rs, one session): Module [Log], the records of a session file, its
      replay, appends that repair a line cut short, snapshots, the decision of [commit_append].
    - [SessionLife] (store/fs.rs, over time): Module [Life], the step relation of one session
      in which replays, writes that stop at any byte, rewrites and crashes interleave.
    - [SessionStore] (store/mod.rs): Module [Contract], the trait as operations with what each
      promises; the class [SessionStore] with its laws; Module [Prog], the programs handlers
      are; Module [ModelStore], the contract as a store with faults, and the simulation of every
      lawful store by it.
    - [SessionFs], [SessionFsLaws] (store/fs.rs, the whole store): Modules [FileNames] and
      [FsStore], over a tree of files in which any call may fail; the proof that it is lawful.
    - [SessionEvents] (events.rs): Module [Events].
    - [SessionService] (service.rs, functions/): Module [Service], every handler that writes.
    - [SessionRead] (service.rs, pagination.rs): Modules [Pagination] and [Readers].
    - [SessionRun]: Module [Run], the weakest preconditions of a handler that holds some
      sessions and sees anything of others; Module [System], the worker: handlers that begin when their
      lock is free and interleave call by call; an invariant of sessions by rule induction.
    - [SessionTree]: transcripts as trees, the walk up a path, and each handler on trees.
    - [SessionPages], [SessionBatch], [SessionEffects], [SessionCount]: what the readers, the
      batches and forks, the other handlers and the message count do.
    - [SessionServe] (functions/mod.rs): Module [Serve], the requests, their locks and handlers.
    - [SessionExamples]: runs and interleavings that can be evaluated, and a small conversation.
    - [SessionBridge] (store/bridge.rs, functions/store_protocol.rs): Modules [Protocol] and
      [Bridge], a store that is called over a link which loses calls or carries them out late.
    - [SessionResync] (resync.rs): Module [Resync], what observers are told after a change of store.
    - [SessionConfig] (config.rs, configuration.rs, runtime.rs): Modules [SessionSettings],
      [Reload] and [Reloads].
    - [GateTypes] (approval-gate/src/types.rs, error.rs): Module [GateWire].
    - [GatePolicy] (decision.rs, permissions/, redact.rs, denial.rs): Modules [Globs],
      [Permissions], [Redact] and [Denial].  The crate regex is the class [Regex], with what its
      documentation says of the expressions globs become as [RegexLaws]; [SampleRegex] is an
      instance.
    - [GateConfig] (config.rs, configuration.rs): Modules [GateSettings] and [GateReload], on
      [ConfigClient].
    - [GateBus] (state.rs, harness.rs, session.rs, events.rs): Module [GateProg], handlers as
      programs of calls; [GateState], what a call may do to the store, lost and late calls among
      it; [GateWorld], a handler alone ([run]), under any answers ([trace]), and interleaved with
      others ([step]).
    - [GateHandlers] (pending.rs, settings.rs, filesystem_access.rs, filesystem_access_state.rs,
      shell_config.rs, functions/): one program per operation and per registered function.
    - [GateService]: the calls of [GateBus] answered by the handlers of [StateService].
    - [GateInbox], [GateProperties], [GateStores], [GateSessions], [GateExamples]: the inbox under
      interleaving; decisions; purges and pages; settings and re-asks; runs and witnesses.

    ** What the theorems show

    - Store: in every reachable state of store and writer, once nothing is pending a restart
      reads every named scope back whose values the file's text can represent, and loses the
      scopes that are nested too deep; the shutdown flush gets there; one write is atomic; scope
      names and file names correspond; the store is a map, and compare-and-set writes iff it matches.
    - Barrier: exactly one [Allow] over every sequence of events, with the whole payload.
    - Service: one owner per scope, exact rollback of a claim that cannot be persisted, claimed
      scopes out of reach of the public functions, tenants confined to their scopes.
    - Graph: the cycle check, the closure of the output node, the status of a run and the
      frontier are exactly what their specifications say; expansion freezes snapshots and
      respects the caps.
    - Tick: a tick writes only rows of its run, a redelivered tick does nothing, settled nodes
      keep their outcome; the untrusted input of a node stays inside its fence; generate calls
      are denied.
    - Sweep and others: what a sweep does to a node before and after its deadline, the calls of the
      harness included; the retry budget; deletion that can be interrupted
      anywhere; a stopped run ends cancelled; a wake targets a live run; the caller's identity
      cannot be forged.
    - Start: an accepted definition can be scheduled and its nodes run only after what they
      read; a started run is stored, well formed and queued; starting is idempotent; callers
      do not share idempotency rows; the static fan-out check is sound.
    - System: an invariant of the store after every history of events; ended runs stay as they
      ended until a sweep finds their retention over; every effective tick makes progress.

    - Update operations: arithmetic is exact on all JSON integers, refused operations are
      skipped and reported, nested operations are local, [state::update] is one step.
    - Queue store: no operation loses or doubles a job; a file store is what it promised after
      any run of failed writes, compactions and crashes in which the payloads can be read back and
      the revisions are not used up ([Promise.recorded]), so accepted jobs survive; replay gives
      the memory; every start of such a store succeeds, and one payload that is nested too deep
      makes it fail.
    - Topics and function queues: the routes are the subscriptions and those retained; a message
      reaches every route; in-flight jobs are with a consumer, on a delivery, or cut off by an
      abort; a call arrives as it was published; a stop gives deliveries back in order.
    - Subscribers: every subscription serves a registered observer, and every observer has one.
    - Runtime: a fifo group is worked on one at a time and in order; a message is settled in
      place within its budget, as its last attempt went; a settlement does what the adapter's
      trait promises; a message can fall into the gap of an idle group.
    - Control: defining a queue and applying a configuration commit or put back, with a log of
      everything that was written to the configuration, answered or not.
    - Session files: what is in memory is what a restart reads; an append that was answered
      stays, while the records can be read back and no character is cut in two; where a cut
      inside a character makes a file unreadable.  The file store keeps the contract of the trait
      (an attachment that replaces another one may be replaced in part); the names of files can be
      read back; what a session named [..] does.
    - Sessions: in every interleaving of handlers with failing calls transcripts stay trees, each
      handler runs as it would alone, none panics; retries of an append and of an expected update
      take effect once; attachments in use stay; a batch extends the transcript; a fork is a copy;
      the message count is exact when no call fails; a reader beside an append can fail.
    - Pages: following cursors shows every entry, session and block once and in order.
    - Events: an envelope loses nothing, and an event of a bridge reaches everyone once.
    - Bridge, resync, configuration: a bridged store keeps the contract while calls are answered in
      time; a replay leaves a view of the store; reloads converge on the stored value, and between
      the two writes of a reload the new limits are in force over the old store.
    - Policy: globs and rules mean what their specifications say; what an excerpt shows.
    - Inbox: in every interleaving, whatever calls are lost, a call is announced as resolved at
      most once per record written for it, and the request handlers announce what they take, while
      the watch need not; how a follow-up of a call is lost beside its decision, for every inbox
      and call; no call is held that the inbox does not show; a decision reaches the harness before
      the record goes, and a call that is not pending is not decided; purges remove exactly what
      they are about; pages list every record once.
    - Gate: a call passes exactly by mode, lists or rules, whatever fails; the dry run agrees with
      it; settings that were stored refine a mode and two sets; watches that run one after another
      ask for a call at most as often as allowed.
    - Composition: the state worker's handlers over its builtin store do what the gate relies on.

    ** Bounds and fuel

    Loops that are not structural have fuel that is proved to be enough: [Dag.validate_acyclic]
    (the number of nodes), [Dag.required_set] (the number of edges), the depth walk of
    [Start.caller_workflow_depth] ([MAX_WORKFLOW_DEPTH + 1] rounds, after which the code stops
    too), the restarts of an engine within one attempt ([Delivery.ROUNDS]: one more than
    [MAX_RESTART_REDELIVERIES]) and the attempts of a fifo message (one more than are left).
    The wait for a function has no bound in the code; its fuel is an argument, and what depends
    on it assumes that the function is registered within it ([comes_back]).  The walk up a transcript has the
    number of stored entries as fuel, since every round visits another ([ActivePath.walk_result]), and so has the walk that marks a path
    committed ([LifeRules.mark_fuel_enough]); the expansion of a seed file has the length of the
    text ([ConfigProperties.expand_fuel_enough]).  Integers are [Z] with their ranges as predicates ([num_ok], [cp_ok]); additions that
    could wrap are written with the wrap-around of a release build ([succ_u64], [sub_i64]), and
    the saturating ones as such.

    ** What is not modelled

    The Redis adapter of the state worker; the RabbitMQ, Redis and memory adapters of the queue
    worker, its boot and the supervision of a broker connection; the semaphores that bound how
    many messages are worked on at once; the feed of engine changes, which only says when to
    look again; telemetry and logging; dispatch timeouts (a call that times out is a lost call);
    the engine, the harness and the router (their answers are the environment's); the locks of
    the workflow worker, except that a handler runs to its end before the next one of its run,
    as its lock ensures; the order of the three terminal callbacks, which the code runs
    concurrently and the model one after the other; the array form serde also accepts for
    structs; the text of serde's own errors.  Of the session worker: the ranking of mentions and
    its registration; a file name too long for the file system is a write that fails.  Of the
    approval gate: the registration of its functions and hooks, the schema of its configuration,
    and how the harness delivers hooks (a hook is a request to the gate, its time limit a lost
    answer); other workers are assumed to leave the gate's scopes of the state worker alone.  The workflow worker is not modelled on top of the
    queue worker: the ticks it enqueues are messages of its environment.  All other workers of
    the repository are outside this development. *)

From Stdlib Require Import Ascii ZArith Lia.
From stdpp Require Export gmap strings list sorting pretty.

(** ** Results *)

(** Rust's [Result<A, E>]. *)
Inductive result (A E : Type) : Type :=
| Ok (a : A)
| Err (e : E).
Arguments Ok {A E} a.
Arguments Err {A E} e.

Definition is_ok {A E} (r : result A E) : bool :=
  match r with Ok _ => true | Err _ => false end.

(** ** Notations *)

Declare Scope workers_scope.
Delimit Scope workers_scope with W.

Notation "x ←! r ; k" :=
  (match r with Ok x => k | Err e => Err e end)
  (at level 20, r at level 100, k at level 200, right associativity, only parsing) : workers_scope.

(** The double quote character: string literals of the code that contain one
    are spelled with it. *)
Definition dq : string := String "034"%char EmptyString.

(** The newline character. *)
Definition nl : string := String "010"%char EmptyString.

(** ** Strings (Rust [str], as byte strings) *)

Fixpoint strip_prefix (p s : string) : option string :=
  match p, s with
  | EmptyString, _ => Some s
  | String c p', String d s' => if decide (c = d) then strip_prefix p' s' else None
  | String _ _, EmptyString => None
  end.

Definition starts_with (p s : string) : bool :=
  match strip_prefix p s with Some _ => true | None => false end.

Fixpoint contains_char (c : ascii) (s : string) : bool :=
  match s with
  | EmptyString => false
  | String d s' => if decide (c = d) then true else contains_char c s'
  end.

(** [s.split(c)]: never empty. *)
Fixpoint split_char (c : ascii) (s : string) : list string :=
  match s with
  | EmptyString => [""]
  | String d s' =>
      if decide (c = d) then "" :: split_char c s'
      else match split_char c s' with
           | [] => [String d ""]
           | w :: ws => String d w :: ws
           end
  end.

(** [s.split(c).next()]: the part before the first [c]. *)
Fixpoint before_char (c : ascii) (s : string) : string :=
  match s with
  | EmptyString => ""
  | String d s' => if decide (c = d) then "" else String d (before_char c s')
  end.

(** [s.splitn(2, c)]: the part before the first [c] and, if there is one, the rest. *)
Fixpoint splitn2 (c : ascii) (s : string) : string * option string :=
  match s with
  | EmptyString => ("", None)
  | String d s' =>
      if decide (c = d) then ("", Some s')
      else let '(a, b) := splitn2 c s' in (String d a, b)
  end.

(** [s.replace(c, r)] for a character pattern. *)
Fixpoint replace_char (c : ascii) (r s : string) : string :=
  match s with
  | EmptyString => ""
  | String d s' =>
      if decide (c = d) then r +:+ replace_char c r s' else String d (replace_char c r s')
  end.

(** [l.join(sep)]. *)
Fixpoint join (sep : string) (l : list string) : string :=
  match l with
  | [] => ""
  | [x] => x
  | x :: l' => x +:+ sep +:+ join sep l'
  end.

(** [str::strip_suffix] and [str::ends_with]. *)
Fixpoint strip_suffix (suf s : string) : option string :=
  if decide (s = suf) then Some ""
  else match s with
       | EmptyString => None
       | String c s' => String c <$> strip_suffix suf s'
       end.

Definition ends_with (suf s : string) : bool := match strip_suffix suf s with Some _ => true | None => false end.

(** [str::find] and [str::rfind]: what is before and after the first or the last occurrence. *)
Fixpoint find_sub (part s : string) : option (string * string) :=
  match strip_prefix part s with
  | Some r => Some ("", r)
  | None => match s with EmptyString => None | String c s' => (λ p : string * string, (String c p.1, p.2)) <$> find_sub part s' end
  end.

Fixpoint rfind_sub (part s : string) : option (string * string) :=
  match s with
  | EmptyString => pair "" <$> strip_prefix part s
  | String c s' =>
      match rfind_sub part s' with
      | Some (a, b) => Some (String c a, b)
      | None => pair "" <$> strip_prefix part s
      end
  end.

Definition is_empty (s : string) : bool :=
  match s with EmptyString => true | _ => false end.

(** *** [str::trim]: strips Unicode [White_Space] at both ends, on the UTF-8 bytes. *)

Definition ascii_code (c : ascii) : Z := Z.of_N (N_of_ascii c).

Definition ascii_white (c : ascii) : bool :=
  (((9 <=? ascii_code c) && (ascii_code c <=? 13)) || (ascii_code c =? 32))%Z.

(** The two- and three-byte encodings of the non-ASCII white-space code points:
    U+0085, U+00A0; U+1680, U+2000..U+200A, U+2028, U+2029, U+202F, U+205F, U+3000. *)
Definition white2 (a b : ascii) : bool :=
  ((ascii_code a =? 0xC2) && ((ascii_code b =? 0x85) || (ascii_code b =? 0xA0)))%Z.

Definition white3 (a b c : ascii) : bool :=
  let '(x, y, z) := (ascii_code a, ascii_code b, ascii_code c) in
  (((x =? 0xE1) && (y =? 0x9A) && (z =? 0x80))
  || ((x =? 0xE2) && (y =? 0x80)
      && (((0x80 <=? z) && (z <=? 0x8A)) || (z =? 0xA8) || (z =? 0xA9) || (z =? 0xAF)))
  || ((x =? 0xE2) && (y =? 0x81) && (z =? 0x9F))
  || ((x =? 0xE3) && (y =? 0x80) && (z =? 0x80)))%Z.

Fixpoint trim_start (s : string) : string :=
  match s with
  | EmptyString => ""
  | String a s1 =>
      if ascii_white a then trim_start s1
      else match s1 with
           | EmptyString => s
           | String b s2 =>
               if white2 a b then trim_start s2
               else match s2 with
                    | EmptyString => s
                    | String c s3 => if white3 a b c then trim_start s3 else s
                    end
           end
  end.

(** The mirror image of [trim_start], run on the reversed bytes. *)
Fixpoint trim_start_rev (s : string) : string :=
  match s with
  | EmptyString => ""
  | String a s1 =>
      if ascii_white a then trim_start_rev s1
      else match s1 with
           | EmptyString => s
           | String b s2 =>
               if white2 b a then trim_start_rev s2
               else match s2 with
                    | EmptyString => s
                    | String c s3 => if white3 c b a then trim_start_rev s3 else s
                    end
           end
  end.

Definition trim_end (s : string) : string := String.rev (trim_start_rev (String.rev s)).

Definition trim (s : string) : string := trim_end (trim_start s).

(** *** Decimal numbers *)

(** [format!("{}", n)] on an unsigned integer. *)
Definition show_nat (n : nat) : string := pretty n.

Definition digit_value (c : ascii) : option Z :=
  let d := (ascii_code c - 48)%Z in
  if ((0 <=? d) && (d <=? 9))%Z then Some d else None.

Fixpoint parse_digits (acc : Z) (s : string) : option Z :=
  match s with
  | EmptyString => Some acc
  | String c s' =>
      match digit_value c with
      | Some d => parse_digits (acc * 10 + d)%Z s'
      | None => None
      end
  end.

(** [s.parse::<usize>()] on a 64-bit target: an optional plus sign, at least one
    digit, no overflow. *)
Definition parse_usize (s : string) : option Z :=
  let body := match s with String "+" s' => s' | _ => s end in
  match body with
  | EmptyString => None
  | _ => match parse_digits 0 body with
         | Some z => if (z <? 2 ^ 64)%Z then Some z else None
         | None => None
         end
  end.

(** ** Ordered maps (Rust [BTreeMap<String, V>])

    A [BTreeMap] is a [gmap string V]; its iteration order is the byte-wise
    lexicographic order of the keys. *)

Definition key_le {V} (p q : string * V) : Prop := String.le p.1 q.1.

#[export] Instance key_le_dec {V} : RelDecision (@key_le V).
Proof. intros p q. unfold key_le. apply _. Defined.

Definition btree_iter {V} (m : gmap string V) : list (string * V) :=
  merge_sort key_le (map_to_list m).

Definition btree_keys {V} (m : gmap string V) : list string := (btree_iter m).*1.
Definition btree_values {V} (m : gmap string V) : list V := (btree_iter m).*2.

(** [vec.sort()] on strings. *)
Definition sort_strings (l : list string) : list string := merge_sort String.le l.

(** [BTreeSet<String>] in iteration order. *)
Definition btree_set_iter (s : gset string) : list string := sort_strings (elements s).

(** ** Automation *)

Create HintDb workers.

(** Splits on the first [match] scrutinee of the goal or of a hypothesis, with its equation. *)
Ltac case_all := repeat (case_match; simplify_eq/=).

(** Closes goals left by a case split: congruence, arithmetic, or the hints of the library. *)
Ltac finish := try solve [ done | lia | congruence | eauto with workers ].

(** ** Lemmas: strings *)

Lemma append_cons (c : ascii) (a b : string) : String c a +:+ b = String c (a +:+ b).
Proof. done. Qed.

Lemma append_nil_l (a : string) : "" +:+ a = a.
Proof. done. Qed.

Lemma append_assoc (a b c : string) : a +:+ (b +:+ c) = (a +:+ b) +:+ c.
Proof. induction a as [|x a IH]; [done|]. by rewrite !append_cons, IH. Qed.

Lemma append_nil_r (a : string) : a +:+ "" = a.
Proof. induction a as [|x a IH]; [done|]. by rewrite !append_cons, IH. Qed.

Lemma strip_prefix_spec (p s r : string) : strip_prefix p s = Some r <-> s = p +:+ r.
Proof.
  revert s. induction p as [|c p IH]; intros [|d s];
    rewrite ?append_nil_l, ?append_cons; simpl; try (split; congruence).
  case_decide; subst; [rewrite IH|]; split; congruence.
Qed.

Lemma strip_prefix_app (p r : string) : strip_prefix p (p +:+ r) = Some r.
Proof. by apply strip_prefix_spec. Qed.

Lemma length_append (a b : string) : String.length (a +:+ b) = String.length a + String.length b.
Proof. induction a as [|c a IH]; [done|]. rewrite append_cons. simpl. by rewrite IH. Qed.

(** Two ways to cut a text: one start continues the other. *)
Lemma append_cut (a b c d : string) : a +:+ b = c +:+ d -> String.length a <= String.length c ->
  exists m, c = a +:+ m /\ b = m +:+ d.
Proof.
  revert c. induction a as [|x a IH]; intros c He Hl; [by exists c|].
  destruct c as [|y c]; [simpl in Hl; lia|]. rewrite !append_cons in He. injection He as -> He. simpl in Hl.
  destruct (IH c He) as (m & -> & ->); [lia|]. by exists m.
Qed.

Lemma strip_suffix_spec (suf s a : string) : strip_suffix suf s = Some a <-> s = a +:+ suf.
Proof.
  revert a. induction s as [|c s IH]; intros a; cbn [strip_suffix].
  - case_decide as Hs; [subst|].
    + split; [by intros [= <-]|]. intros Ha. by destruct a.
    + split; [done|]. intros Ha. destruct a; [|done]. exfalso. apply Hs. exact Ha.
  - case_decide as Hs.
    + rewrite Hs. split; [by intros [= <-]|]. intros Ha. apply (f_equal String.length) in Ha. rewrite length_append in Ha.
      destruct a; [done|]. simpl in Ha. lia.
    + rewrite fmap_Some. split.
      * intros (b & Hb%IH & ->). by rewrite Hb, append_cons.
      * intros Ha. destruct a as [|d a]; [exfalso; apply Hs; exact Ha|]. rewrite append_cons in Ha. injection Ha as -> Ha. exists a. split; [by apply IH|done].
Qed.

Lemma strip_suffix_app (p a : string) : strip_suffix p (a +:+ p) = Some a.
Proof. by apply strip_suffix_spec. Qed.

Lemma ends_with_spec (suf s : string) : ends_with suf s = true <-> exists a, s = a +:+ suf.
Proof.
  unfold ends_with. destruct (strip_suffix suf s) as [a|] eqn:Hs.
  - apply strip_suffix_spec in Hs. naive_solver.
  - split; [done|]. intros [a Ha%strip_suffix_spec]. congruence.
Qed.

Lemma find_sub_some (part s a b : string) : find_sub part s = Some (a, b) -> s = a +:+ part +:+ b.
Proof.
  revert a b. induction s as [|c s IH]; intros a b; cbn [find_sub]; destruct (strip_prefix part _) as [r|] eqn:Hp.
  - apply strip_prefix_spec in Hp. intros [= <- <-]. by rewrite append_nil_l.
  - done.
  - apply strip_prefix_spec in Hp. intros [= <- <-]. by rewrite append_nil_l.
  - intros ([a' b'] & Hf & [= -> ->])%fmap_Some. by rewrite append_cons, <-(IH _ _ Hf).
Qed.

(** The first occurrence comes no later than any other; there is one when there is any. *)
Lemma find_sub_first (part s a b : string) : s = a +:+ part +:+ b ->
  exists a' b', find_sub part s = Some (a', b') /\ String.length a' <= String.length a.
Proof.
  revert a. induction s as [|c s IH]; intros a Hs; cbn [find_sub].
  - destruct a; [|done]. rewrite append_nil_l in Hs. rewrite (proj2 (strip_prefix_spec part "" b) Hs). exists "", b. split; [done|simpl; lia].
  - destruct (strip_prefix part _) as [r|] eqn:Hp; [exists "", r; split; [done|simpl; lia]|].
    destruct a as [|d a]; [rewrite append_nil_l in Hs; apply strip_prefix_spec in Hs; congruence|].
    rewrite append_cons in Hs. injection Hs as -> Hs. destruct (IH a Hs) as (a' & b' & Hf & Hl).
    exists (String d a'), b'. rewrite Hf. split; [done|simpl; lia].
Qed.

Lemma contains_char_app (c : ascii) (a b : string) :
  contains_char c (a +:+ b) = contains_char c a || contains_char c b.
Proof. induction a as [|x a IH]; [done|]. rewrite append_cons. simpl. by case_decide. Qed.

Lemma before_char_no (c : ascii) (s : string) : contains_char c (before_char c s) = false.
Proof. induction s as [|x s IH]; simpl; [done|]. case_decide; simpl; [done|]. by case_decide. Qed.

Lemma before_char_id (c : ascii) (s : string) : contains_char c s = false -> before_char c s = s.
Proof.
  induction s as [|x s IH]; simpl; [done|]. case_decide; [done|]. intros Hs. by rewrite IH.
Qed.

Lemma before_char_app (c : ascii) (a b : string) :
  contains_char c a = false -> before_char c (a +:+ String c b) = a.
Proof.
  induction a as [|x a IH]; rewrite ?append_nil_l, ?append_cons; simpl.
  - by rewrite decide_True.
  - case_decide; [done|]. intros Hs. by rewrite IH.
Qed.

(** Two strings split at a separator their left parts do not hold have equal parts. *)
Lemma sep_app_inj (c : ascii) (a1 a2 b1 b2 : string) :
  contains_char c a1 = false -> contains_char c a2 = false ->
  a1 +:+ String c b1 = a2 +:+ String c b2 -> a1 = a2 /\ b1 = b2.
Proof.
  intros H1 H2 He.
  assert (a1 = a2) as ->.
  { by rewrite <-(before_char_app c a1 b1), He, before_char_app. }
  apply (inj (String.append a2)) in He. by simplify_eq.
Qed.

Lemma sep_app_ne (c : ascii) (a1 a2 b : string) :
  contains_char c a1 = false -> a1 <> a2 +:+ String c b.
Proof.
  intros H ->. rewrite contains_char_app in H. simpl in H.
  rewrite decide_True in H by done. by rewrite orb_true_r in H.
Qed.

Lemma split_char_nonempty (c : ascii) (s : string) : split_char c s <> [].
Proof. induction s as [|x s IH]; simpl; [done|]. case_decide; [done|]. by case_match. Qed.

Lemma split_char_head (c : ascii) (s : string) : head (split_char c s) = Some (before_char c s).
Proof.
  induction s as [|x s IH]; simpl; [done|]. case_decide; [done|].
  pose proof (split_char_nonempty c s) as Hne. destruct (split_char c s); simpl in *; naive_solver.
Qed.

Lemma splitn2_fst (c : ascii) (s : string) : (splitn2 c s).1 = before_char c s.
Proof.
  induction s as [|x s IH]; simpl; [done|]. case_decide; [done|].
  destruct (splitn2 c s); simpl in *. by rewrite IH.
Qed.

Lemma replace_char_removes (c : ascii) (r s : string) :
  contains_char c r = false -> contains_char c (replace_char c r s) = false.
Proof.
  intros Hr. induction s as [|x s IH]; simpl; [done|]. case_decide as Hd.
  - by rewrite contains_char_app, Hr, IH.
  - simpl. by rewrite decide_False.
Qed.

Lemma replace_char_keeps (c d : ascii) (r s : string) :
  contains_char d r = false -> contains_char d s = false ->
  contains_char d (replace_char c r s) = false.
Proof.
  intros Hr. induction s as [|x s IH]; simpl; [done|]. case_decide as Hd; [done|]. intros Hs.
  case_decide; simpl.
  - by rewrite contains_char_app, Hr, IH.
  - rewrite decide_False by done. by apply IH.
Qed.

(** ** Lemmas: decimal numbers *)

Definition is_digit (c : ascii) : bool := match digit_value c with Some _ => true | None => false end.

Lemma pretty_N_char_value (x : N) :
  (x < 10)%N -> digit_value (pretty_N_char x) = Some (Z.of_N x).
Proof.
  intros H. assert (x = 0 \/ x = 1 \/ x = 2 \/ x = 3 \/ x = 4 \/ x = 5 \/ x = 6 \/ x = 7
                    \/ x = 8 \/ x = 9)%N as Hx by lia.
  by repeat (destruct Hx as [->|Hx]; [reflexivity|]); subst.
Qed.

Lemma parse_pretty_go (x : N) :
  exists k : nat, forall (acc : Z) (s : string),
    parse_digits acc (pretty_N_go x s) = parse_digits (acc * 10 ^ Z.of_nat k + Z.of_N x)%Z s.
Proof.
  induction (N.lt_wf_0 x) as [x _ IH].
  destruct (decide (x = 0)%N) as [->|Hx].
  - exists 0%nat. intros acc s. rewrite pretty_N_go_0. f_equal; lia.
  - destruct (IH (x / 10)%N) as [k Hk]; [apply N.div_lt; lia|].
    exists (S k). intros acc s. rewrite pretty_N_go_step, Hk by lia. simpl.
    rewrite pretty_N_char_value by (apply N.mod_lt; lia). f_equal.
    rewrite Nat2Z.inj_succ, Z.pow_succ_r by lia.
    rewrite N2Z.inj_div, N2Z.inj_mod. pose proof (Z.div_mod (Z.of_N x) 10). simpl Z.of_N. lia.
Qed.

Lemma pretty_go_nonempty (x : N) (s : string) : s <> "" -> pretty_N_go x s <> "".
Proof.
  revert s. induction (N.lt_wf_0 x) as [x _ IH]. intros s Hs.
  destruct (decide (x = 0)%N) as [->|Hx]; [by rewrite pretty_N_go_0|].
  rewrite pretty_N_go_step by lia. apply IH; [apply N.div_lt; lia|done].
Qed.

Lemma pretty_go_no_char (c : ascii) (x : N) (s : string) :
  is_digit c = false -> contains_char c s = false -> contains_char c (pretty_N_go x s) = false.
Proof.
  intros Hc. revert s. induction (N.lt_wf_0 x) as [x _ IH]. intros s Hs.
  destruct (decide (x = 0)%N) as [->|Hx]; [by rewrite pretty_N_go_0|].
  rewrite pretty_N_go_step by lia. apply IH; [apply N.div_lt; lia|]. simpl.
  rewrite decide_False; [done|]. intros ->. unfold is_digit in Hc.
  by rewrite pretty_N_char_value in Hc by (apply N.mod_lt; lia).
Qed.

Lemma show_nat_no_char (c : ascii) (n : nat) :
  is_digit c = false -> contains_char c (show_nat n) = false.
Proof.
  intros Hc. unfold show_nat, pretty, pretty_nat, pretty, pretty_N.
  case_decide; [|by apply pretty_go_no_char].
  simpl. rewrite decide_False; [done|]. intros ->. done.
Qed.

Lemma show_nat_inj (n m : nat) : show_nat n = show_nat m -> n = m.
Proof. apply (inj pretty). Qed.

Lemma parse_digits_plus (acc : Z) (s : string) : parse_digits acc (String "+" s) = None.
Proof. done. Qed.

Lemma parse_usize_show (n : nat) :
  (Z.of_nat n < 2 ^ 64)%Z -> parse_usize (show_nat n) = Some (Z.of_nat n).
Proof.
  intros Hn. unfold show_nat, pretty, pretty_nat, pretty, pretty_N.
  case_decide as H0.
  { assert (n = 0)%nat as -> by lia. done. }
  destruct (parse_pretty_go (N.of_nat n)) as [k Hk]. specialize (Hk 0%Z "").
  rewrite nat_N_Z in Hk. simpl in Hk.
  assert (pretty_N_go (N.of_nat n) "" <> "") as Hne.
  { rewrite pretty_N_go_step by lia. by apply pretty_go_nonempty. }
  unfold parse_usize. destruct (pretty_N_go (N.of_nat n) "") as [|c s] eqn:Hs; [done|].
  assert (c <> "+"%char) as Hc.
  { intros ->. by rewrite parse_digits_plus in Hk. }
  assert (match String c s with String "+" s' => s' | _ => String c s end = String c s) as ->.
  { destruct c as [[] [] [] [] [] [] [] []]; done. }
  rewrite Hk. case_match eqn:Hlt; [done|]. apply Z.ltb_ge in Hlt. lia.
Qed.

(** ** Lemmas: ordered maps *)

#[export] Instance key_le_total {V} : Total (@key_le V).
Proof. intros p q. apply (total String.le). Qed.

#[export] Instance key_le_trans {V} : Transitive (@key_le V).
Proof. intros p q r. apply (transitivity (R := String.le)). Qed.

Section BTree.
Context {V : Type}.
Implicit Types (m : gmap string V).

Lemma btree_iter_perm m : btree_iter m ≡ₚ map_to_list m.
Proof. apply merge_sort_Permutation. Qed.

Lemma elem_of_btree_iter m k v : (k, v) ∈ btree_iter m <-> m !! k = Some v.
Proof. by rewrite btree_iter_perm, elem_of_map_to_list. Qed.

Lemma elem_of_btree_keys m k : k ∈ btree_keys m <-> is_Some (m !! k).
Proof.
  unfold btree_keys. rewrite list_elem_of_fmap. split.
  - intros [[k' v] [-> Hv]]. apply elem_of_btree_iter in Hv. by exists v.
  - intros [v Hv]. exists (k, v). by rewrite elem_of_btree_iter.
Qed.

Lemma elem_of_btree_values m v : v ∈ btree_values m <-> exists k, m !! k = Some v.
Proof.
  unfold btree_values. rewrite list_elem_of_fmap. split.
  - intros [[k v'] [-> Hv]]. exists k. by apply elem_of_btree_iter.
  - intros [k Hv]. exists (k, v). by rewrite elem_of_btree_iter.
Qed.

Lemma NoDup_btree_keys m : NoDup (btree_keys m).
Proof. unfold btree_keys. rewrite btree_iter_perm. apply NoDup_fst_map_to_list. Qed.

Lemma btree_iter_sorted m : StronglySorted key_le (btree_iter m).
Proof. apply StronglySorted_merge_sort; apply _. Qed.

Lemma list_to_map_btree_iter m : (list_to_map (btree_iter m) : gmap string V) = m.
Proof.
  rewrite (list_to_map_proper _ (map_to_list m)).
  - apply list_to_map_to_list.
  - apply NoDup_btree_keys.
  - apply btree_iter_perm.
Qed.

Lemma btree_iter_length m : length (btree_iter m) = size m.
Proof. by rewrite btree_iter_perm, length_map_to_list. Qed.

End BTree.

Lemma elem_of_btree_set_iter (s : gset string) k : k ∈ btree_set_iter s <-> k ∈ s.
Proof. unfold btree_set_iter, sort_strings. by rewrite merge_sort_Permutation, elem_of_elements. Qed.

Lemma NoDup_btree_set_iter (s : gset string) : NoDup (btree_set_iter s).
Proof. unfold btree_set_iter, sort_strings. rewrite merge_sort_Permutation. apply NoDup_elements. Qed.

(** ** Lemmas: filtered lists *)

Lemma filter_all {A} (P : A -> Prop) `{forall x, Decision (P x)} (l : list A) :
  Forall P l -> filter P l = l.
Proof. induction 1 as [|x l Hx Hl IH]; [done|]. by rewrite filter_cons_True, IH. Qed.

Lemma filter_none {A} (P : A -> Prop) `{forall x, Decision (P x)} (l : list A) :
  Forall (λ x, ~ P x) l -> filter P l = [].
Proof. induction 1 as [|x l Hx Hl IH]; [done|]. by rewrite filter_cons_False. Qed.

Lemma StronglySorted_filter {A} (R : relation A) (P : A -> Prop) `{forall x, Decision (P x)} (l : list A) :
  StronglySorted R l -> StronglySorted R (filter P l).
Proof.
  induction 1 as [|x l Hl IH Hx]; [constructor|]. rewrite filter_cons. case_decide; [|done].
  constructor; [done|]. apply Forall_forall. intros y [_ Hy]%list_elem_of_filter. by apply (proj1 (Forall_forall _ _) Hx).
Qed.

Lemma NoDup_filter_fmap {A B} (g : A -> B) (P : A -> Prop) `{forall x, Decision (P x)} (l : list A) : NoDup (g <$> l) -> NoDup (g <$> filter P l).
Proof.
  induction l as [|x l IH]; [done|]. rewrite fmap_cons, NoDup_cons, filter_cons. intros [Hn Hl]. case_decide; [|auto]. rewrite fmap_cons. constructor; [|auto].
  intros (y & ? & [_ Hy]%list_elem_of_filter)%list_elem_of_fmap. apply Hn, list_elem_of_fmap. eauto.
Qed.

#[export] Hint Resolve before_char_no NoDup_btree_keys NoDup_btree_set_iter : workers.
