(* ===== verification/Paging.v ===== *)
(** * Following pages

    A client that asks for page after page until there is no next cursor, and when the pages
    joined together are the whole list: the first page starts at the front, and the cursor of an
    item leads to the page behind it. *)

From Stdlib Require Import Lia.
From S2P Require Import Prelude.

Module Paging.

(** A client that asks for page after page. *)
Fixpoint walk {A C} (fetch : option C -> option (list A * option C)) (n : nat) (c : option C) : option (list A) :=
  match n with
  | O => None
  | S n' =>
      match fetch c with
      | Some (p, None) => Some p
      | Some (p, Some c') => (p ++.) <$> walk fetch n' (Some c')
      | None => None
      end
  end.

Section Walk.
Context {A B C : Type} (xs : list A) (f : A -> B) (cur : A -> C) (limit : nat) (fetch : option C -> option (list B * option C)).
Context (Hlimit : 0 < limit).

(** The page from [start] on. *)
Definition page_from (start : nat) : list B * option C :=
  let p := take limit (drop start xs) in (f <$> p, if start + limit <? length xs then cur <$> last p else None).

Context (Hfirst : fetch None = Some (page_from 0)).
Context (Hnext : forall i x, xs !! i = Some x -> fetch (Some (cur x)) = Some (page_from (S i))).

Lemma walk_from n c start : fetch c = Some (page_from start) -> length xs - start < n -> walk fetch n c = Some (f <$> drop start xs).
Proof.
  revert c start. induction n as [|n IH]; intros c start Hc Hn; [lia|]. cbn [walk]. rewrite Hc. unfold page_from.
  destruct (Nat.ltb_spec (start + limit) (length xs)) as [Hlt|Hge].
  - destruct (last (take limit (drop start xs))) as [x|] eqn:Hl.
    + cbn [fmap option_fmap option_map]. assert (xs !! (start + limit - 1) = Some x) as Hx.
      { rewrite last_lookup, length_take, length_drop, Nat.min_l in Hl by lia.
        rewrite lookup_take_lt, lookup_drop in Hl by lia. rewrite <-Hl. f_equal. lia. }
      rewrite (IH _ (start + limit)); [|rewrite (Hnext _ _ Hx); do 2 f_equal; lia|lia].
      cbn. f_equal. rewrite <-fmap_app. f_equal. by rewrite <-drop_drop, take_drop.
    + apply last_None in Hl. apply (f_equal length) in Hl. rewrite length_take, length_drop in Hl. cbn in Hl. lia.
  - by rewrite take_ge by (rewrite length_drop; lia).
Qed.

(** The pages joined together are the whole list. *)
Lemma walk_all : walk fetch (S (length xs)) None = Some (f <$> xs).
Proof. rewrite (walk_from _ _ 0); [by rewrite drop_0|done|lia]. Qed.

End Walk.
End Paging.
