(* ===== verification/Json.v ===== *)
(** * JSON values

    The data every worker exchanges: [serde_json::Value] as an inductive type, the
    ordered object maps ([serde_json::Map] without [preserve_order] is a [BTreeMap],
    so object members are kept sorted by key), the accessors the workers call on
    values, and the codec class that stands for the [Serialize]/[Deserialize] pair a
    type derives.  What the workers use of [serde_json] as a library and not as data
    (the text printers and JSON pointers) is the class [SerdeText]: a parameter. *)

From Stdlib Require Import Ascii ZArith Lia.
From S2P Require Import Prelude.

(** ** Data *)

(** [serde_json::Number]: a [u64], a negative [i64], or a finite [f64] by its bits. *)
Inductive Number : Type :=
| PosInt (n : Z)
| NegInt (n : Z)
| Float (bits : Z).

#[export] Instance Number_eq_dec : EqDecision Number.
Proof. solve_decision. Defined.

Inductive Value : Type :=
| Null
| Bool (b : bool)
| Num (n : Number)
| Str (s : string)
| Arr (l : list Value)
| Obj (fields : list (string * Value)).

Abbreviation Fields := (list (string * Value)).

(** ** Object maps *)

Fixpoint obj_get (k : string) (m : Fields) : option Value :=
  match m with
  | [] => None
  | (k', v) :: m' => if decide (k = k') then Some v else obj_get k m'
  end.

Definition obj_has (k : string) (m : Fields) : bool :=
  match obj_get k m with Some _ => true | None => false end.

(** [Map::insert]: replaces the member or adds it at its sorted place. *)
Fixpoint obj_insert (k : string) (v : Value) (m : Fields) : Fields :=
  match m with
  | [] => [(k, v)]
  | (k', v') :: m' =>
      if decide (k = k') then (k, v) :: m'
      else if String.leb k k' then (k, v) :: m
      else (k', v') :: obj_insert k v m'
  end.

(** [Map::remove]. *)
Definition obj_remove (k : string) (m : Fields) : Fields :=
  filter (λ p : string * Value, p.1 ≠ k) m.

Definition obj_keys (m : Fields) : list string := m.*1.
Definition obj_values (m : Fields) : list Value := m.*2.

(** [json!({ .. })]: an object from a list of members with distinct keys. *)
Definition obj_of_list (l : Fields) : Fields :=
  foldr (λ p m, obj_insert p.1 p.2 m) [] l.

Definition json_obj (l : Fields) : Value := Obj (obj_of_list l).

(** The representation invariant of [Map]: strictly increasing keys. *)
Definition key_lt (a b : string) : Prop := String.le a b /\ a <> b.
Definition obj_sorted (m : Fields) : Prop := StronglySorted key_lt (obj_keys m).

(** ** Accessors of [Value] *)

Definition is_null (v : Value) : bool := match v with Null => true | _ => false end.
Definition is_string (v : Value) : bool := match v with Str _ => true | _ => false end.
Definition is_object (v : Value) : bool := match v with Obj _ => true | _ => false end.

Definition as_str (v : Value) : option string := match v with Str s => Some s | _ => None end.
Definition as_bool (v : Value) : option bool := match v with Bool b => Some b | _ => None end.
Definition as_array (v : Value) : option (list Value) := match v with Arr l => Some l | _ => None end.
Definition as_object (v : Value) : option Fields := match v with Obj m => Some m | _ => None end.
Definition as_u64 (v : Value) : option Z := match v with Num (PosInt n) => Some n | _ => None end.

(** [v.get(k)] with a string index. *)
Definition vget (k : string) (v : Value) : option Value :=
  match v with Obj m => obj_get k m | _ => None end.

(** [v[k] = x] on an object value. *)
Definition vset (k : string) (x v : Value) : Value :=
  match v with Obj m => Obj (obj_insert k x m) | _ => v end.

(** ** Equality ([PartialEq] of [Value]): structural, with the two float zeros equal. *)

Definition float_zero (bits : Z) : bool := ((bits =? 0) || (bits =? 2 ^ 63))%Z.

Definition number_eqb (a b : Number) : bool :=
  match a, b with
  | PosInt x, PosInt y => (x =? y)%Z
  | NegInt x, NegInt y => (x =? y)%Z
  | Float x, Float y => (x =? y)%Z || (float_zero x && float_zero y)
  | _, _ => false
  end.

Fixpoint value_eqb (a b : Value) {struct a} : bool :=
  match a, b with
  | Null, Null => true
  | Bool x, Bool y => eqb x y
  | Num x, Num y => number_eqb x y
  | Str x, Str y => bool_decide (x = y)
  | Arr xs, Arr ys =>
      (fix go (xs ys : list Value) : bool :=
         match xs, ys with
         | [], [] => true
         | x :: xs', y :: ys' => value_eqb x y && go xs' ys'
         | _, _ => false
         end) xs ys
  | Obj xs, Obj ys =>
      (fix go (xs ys : Fields) : bool :=
         match xs, ys with
         | [], [] => true
         | (k, x) :: xs', (k', y) :: ys' => bool_decide (k = k') && value_eqb x y && go xs' ys'
         | _, _ => false
         end) xs ys
  | _, _ => false
  end.

(** ** Library text functions *)

(** [serde_json::to_string], [to_string_pretty], [Display] and [Value::pointer]. *)
Class SerdeText : Type := {
  to_string : Value -> string;
  to_string_pretty : Value -> string;
  pointer : string -> Value -> option Value;
}.

(** ** Codecs *)

(** The [Serialize]/[Deserialize] pair of a type; [None] is a deserialization error. *)
Class Codec (A : Type) : Type := {
  to_value : A -> Value;
  from_value : Value -> option A;
}.

(** [x] survives a write and a read. *)
Definition codec_ok {A} `{Codec A} (x : A) : Prop := from_value (to_value x) = Some x.

Definition u64_max : Z := (2 ^ 64 - 1)%Z.
Definition u32_max : Z := (2 ^ 32 - 1)%Z.
Definition i64_min : Z := (- 2 ^ 63)%Z.
Definition i64_max : Z := (2 ^ 63 - 1)%Z.

Definition enc_u (n : Z) : Value := Num (PosInt n).
Definition enc_i64 (z : Z) : Value := Num (if (0 <=? z)%Z then PosInt z else NegInt z).

(** The bounds stand for the integer type that is read: [u32], [u64], [i64]. *)
Definition dec_u (max : Z) (v : Value) : option Z :=
  match v with
  | Num (PosInt n) => if ((0 <=? n) && (n <=? max))%Z then Some n else None
  | _ => None
  end.

Definition dec_i64 (v : Value) : option Z :=
  match v with
  | Num (PosInt n) => if ((0 <=? n) && (n <=? i64_max))%Z then Some n else None
  | Num (NegInt n) => if ((i64_min <=? n) && (n <? 0))%Z then Some n else None
  | _ => None
  end.

(** [Option<T>]: [null] reads as [None]. *)
Definition dec_opt {A} (d : Value -> option A) (v : Value) : option (option A) :=
  match v with Null => Some None | _ => Some <$> d v end.

Definition enc_opt {A} (e : A -> Value) (o : option A) : Value :=
  match o with Some x => e x | None => Null end.

(** A [skip_serializing_if = "Option::is_none"] member. *)
Definition opt_field {A} (k : string) (e : A -> Value) (o : option A) : Fields :=
  match o with Some x => [(k, e x)] | None => [] end.

(** A member that must be there. *)
Definition req {A} (k : string) (d : Value -> option A) (m : Fields) : option A :=
  match obj_get k m with Some v => d v | None => None end.

(** A [#[serde(default)]] member. *)
Definition dflt {A} (k : string) (d : Value -> option A) (a : A) (m : Fields) : option A :=
  match obj_get k m with Some v => d v | None => Some a end.

Definition enc_str_list (l : list string) : Value := Arr (Str <$> l).
Definition dec_list {A} (d : Value -> option A) (v : Value) : option (list A) :=
  match v with Arr l => mapM d l | _ => None end.

(** [BTreeMap<String, T>]: an object, members in key order. *)
Definition enc_map {A} (e : A -> Value) (m : gmap string A) : Value :=
  Obj ((λ p, (p.1, e p.2)) <$> btree_iter m).
Definition dec_map {A} (d : Value -> option A) (v : Value) : option (gmap string A) :=
  match v with
  | Obj l => list_to_map <$> mapM (λ p : string * Value, pair p.1 <$> d p.2) l
  | _ => None
  end.

(** [deny_unknown_fields]. *)
Definition only_keys (allowed : list string) (m : Fields) : bool :=
  forallb (λ k, bool_decide (k ∈ allowed)) (obj_keys m).

(** ** Lemmas *)

Section Maps.
Implicit Types (m l : Fields) (k : string) (v : Value).

Lemma obj_get_insert_eq k v m : obj_get k (obj_insert k v m) = Some v.
Proof.
  induction m as [|[k' v'] m IH]; simpl; [by rewrite decide_True|].
  case_decide as Hk; simpl; [by rewrite decide_True|].
  case_match; simpl; [by rewrite decide_True|]. by rewrite decide_False.
Qed.

Lemma obj_get_insert_ne k k' v m : k <> k' -> obj_get k (obj_insert k' v m) = obj_get k m.
Proof.
  intros Hne. induction m as [|[k2 v2] m IH]; simpl; [by rewrite decide_False|].
  case_decide as Hk; simpl; subst.
  - by rewrite !decide_False.
  - case_match; simpl; [by rewrite (decide_False (P := k = k'))|]. by rewrite IH.
Qed.

Lemma obj_get_insert k k' v m :
  obj_get k (obj_insert k' v m) = if decide (k = k') then Some v else obj_get k m.
Proof. case_decide; subst; [apply obj_get_insert_eq | by apply obj_get_insert_ne]. Qed.

Lemma obj_get_remove_eq k m : obj_get k (obj_remove k m) = None.
Proof.
  induction m as [|[k' v] m IH]; [done|]. unfold obj_remove. rewrite filter_cons.
  case_decide as Hd; simpl in *; [|done]. rewrite decide_False by congruence. done.
Qed.

Lemma obj_get_remove_ne k k' m : k <> k' -> obj_get k (obj_remove k' m) = obj_get k m.
Proof.
  intros Hne. induction m as [|[k2 v] m IH]; [done|]. unfold obj_remove. rewrite filter_cons.
  case_decide as Hd; simpl in *; [case_decide; done|].
  rewrite decide_False; [done|]. naive_solver.
Qed.

Lemma obj_get_of_list k l : obj_get k (obj_of_list l) = obj_get k l.
Proof. induction l as [|[k' v] l IH]; simpl; [done|]. rewrite obj_get_insert. by rewrite IH. Qed.

Lemma obj_get_app k l1 l2 :
  obj_get k (l1 ++ l2) = match obj_get k l1 with Some v => Some v | None => obj_get k l2 end.
Proof. induction l1 as [|[k' v] l1 IH]; simpl; [done|]. by case_decide. Qed.

Lemma obj_get_opt_field {A} k k' (e : A -> Value) o :
  obj_get k (opt_field k' e o) = if decide (k = k') then e <$> o else None.
Proof. destruct o; simpl; case_decide; done. Qed.

Lemma obj_get_elem k v m : obj_get k m = Some v -> (k, v) ∈ m.
Proof.
  induction m as [|[k' v'] m IH]; simpl; [done|].
  case_decide; intros; simplify_eq; [by left | right; auto].
Qed.

Lemma obj_get_is_Some k m : is_Some (obj_get k m) <-> k ∈ obj_keys m.
Proof.
  induction m as [|[k' v] m IH]; simpl; [split; [by intros [? ?] | by intros ?%elem_of_nil]|].
  rewrite elem_of_cons, <-IH. case_decide as Hk.
  - split; [by left | by eexists].
  - split; [by right | by intros [?|?]].
Qed.

Lemma obj_keys_insert k v m k' : k' ∈ obj_keys (obj_insert k v m) <-> k' = k \/ k' ∈ obj_keys m.
Proof.
  rewrite <-!obj_get_is_Some, obj_get_insert. case_decide as Hk.
  - split; [by left | by eexists].
  - split; [by right | by intros [?|?]].
Qed.

Lemma obj_keys_of_list l k : k ∈ obj_keys (obj_of_list l) <-> k ∈ obj_keys l.
Proof. by rewrite <-!obj_get_is_Some, obj_get_of_list. Qed.

Lemma only_keys_spec allowed m : only_keys allowed m = true <-> forall k, k ∈ obj_keys m -> k ∈ allowed.
Proof.
  unfold only_keys. rewrite forallb_forall.
  setoid_rewrite <-list_elem_of_In. setoid_rewrite bool_decide_eq_true. done.
Qed.

Lemma obj_keys_insert_sorted k v m : obj_sorted m -> obj_sorted (obj_insert k v m).
Proof.
  unfold obj_sorted. induction m as [|[k' v'] m IH]; simpl; intros Hs; [by repeat constructor|].
  apply StronglySorted_inv in Hs as [Hs Hf].
  case_decide as Hk; subst; simpl; [by constructor|].
  destruct (String.leb k k') eqn:Hle; simpl.
  - assert (key_lt k k') as Hlt by (split; [by apply Is_true_true|done]).
    constructor; [by constructor|]. constructor; [done|].
    eapply Forall_impl; [exact Hf|]. intros x [Hx1 Hx2]. destruct Hlt as [Hl1 Hl2]. split.
    + by etrans.
    + intros ->. apply Hx2. by apply (anti_symm String.le).
  - assert (key_lt k' k) as Hlt.
    { split; [|done]. destruct (total String.le k k') as [Ht|Ht]; [|done].
      apply Is_true_true in Ht. congruence. }
    constructor; [by apply IH|]. apply Forall_forall. intros x Hx.
    apply obj_keys_insert in Hx as [->|Hx]; [done|].
    rewrite Forall_forall in Hf. by apply Hf.
Qed.

Lemma obj_sorted_of_list l : obj_sorted (obj_of_list l).
Proof. induction l as [|[k v] l IH]; [constructor|]. by apply obj_keys_insert_sorted. Qed.

Lemma obj_sorted_NoDup m : obj_sorted m -> NoDup (obj_keys m).
Proof.
  unfold obj_sorted. induction 1 as [|k l Hs IH Hf]; [constructor|]. constructor; [|done].
  intros Hk. rewrite Forall_forall in Hf. by destruct (Hf k Hk).
Qed.

Lemma obj_insert_length k v m :
  obj_sorted m -> length (obj_insert k v m) = if obj_has k m then length m else S (length m).
Proof.
  intros Hs. pose proof (obj_sorted_NoDup _ (obj_keys_insert_sorted k v m Hs)) as Hn'.
  pose proof (obj_sorted_NoDup _ Hs) as Hn.
  rewrite <-(length_fmap fst (obj_insert k v m)), <-(length_fmap fst m).
  assert (obj_keys (obj_insert k v m) ≡ₚ if obj_has k m then obj_keys m else k :: obj_keys m) as Hp.
  { unfold obj_has. destruct (obj_get k m) as [x|] eqn:Hk.
    - apply NoDup_Permutation; [done|done|]. intros y. rewrite obj_keys_insert.
      split; [intros [->|?]; [|done]|by right]. apply obj_get_is_Some. by eexists.
    - apply NoDup_Permutation; [done| |].
      + constructor; [|done]. rewrite <-obj_get_is_Some, Hk. by intros [? ?].
      + intros y. by rewrite obj_keys_insert, elem_of_cons. }
  unfold obj_keys in Hp. rewrite Hp. by destruct (obj_has k m).
Qed.

End Maps.

Lemma dec_enc_u max n : (0 <= n <= max)%Z -> dec_u max (enc_u n) = Some n.
Proof. intros H. simpl. by rewrite !(proj2 (Z.leb_le _ _)) by lia. Qed.

Lemma dec_u_range max v n : dec_u max v = Some n -> (0 <= n <= max)%Z.
Proof.
  unfold dec_u. destruct v as [| |[]| | |]; try done. destruct (Z.leb_spec 0 n0), (Z.leb_spec n0 max); try done.
  intros [= <-]. lia.
Qed.

Lemma dec_enc_i64 z : (i64_min <= z <= i64_max)%Z -> dec_i64 (enc_i64 z) = Some z.
Proof.
  intros H. unfold dec_i64, enc_i64. destruct (Z.leb_spec 0 z) as [Hz|Hz].
  - rewrite !(proj2 (Z.leb_le _ _)) by lia. done.
  - rewrite (proj2 (Z.leb_le _ _)), (proj2 (Z.ltb_lt _ _)) by lia. done.
Qed.

Lemma dec_i64_range v z : dec_i64 v = Some z -> (i64_min <= z <= i64_max)%Z.
Proof.
  unfold dec_i64, i64_min, i64_max. destruct v as [| |[]| | |]; try done.
  - destruct (Z.leb_spec 0 n), (Z.leb_spec n (2 ^ 63 - 1)); try done. intros [= <-]. lia.
  - destruct (Z.leb_spec (- 2 ^ 63) n), (Z.ltb_spec n 0); try done. intros [= <-]. lia.
Qed.

Lemma dec_enc_opt {A} (e : A -> Value) d o :
  (forall x, o = Some x -> e x <> Null /\ d (e x) = Some x) ->
  dec_opt d (enc_opt e o) = Some o.
Proof.
  destruct o as [x|]; [|done]. intros H. destruct (H x eq_refl) as [Hn Hd]. simpl.
  unfold dec_opt. destruct (e x) eqn:He; try done; by rewrite Hd.
Qed.

Lemma mapM_enc {A} (e : A -> Value) d (l : list A) :
  Forall (λ x, d (e x) = Some x) l -> mapM d (e <$> l) = Some l.
Proof. intros H. rewrite mapM_Some, Forall2_fmap_l. by apply Forall_Forall2_diag. Qed.

Lemma dec_enc_str_list l : dec_list as_str (enc_str_list l) = Some l.
Proof. apply mapM_enc. by apply Forall_forall. Qed.

Lemma dec_enc_map {A} (e : A -> Value) d (m : gmap string A) :
  map_Forall (λ _ x, d (e x) = Some x) m -> dec_map d (enc_map e m) = Some m.
Proof.
  intros Hm. unfold dec_map, enc_map.
  assert (mapM (λ p : string * Value, pair p.1 <$> d p.2)
            ((λ p : string * A, (p.1, e p.2)) <$> btree_iter m) = Some (btree_iter m)) as ->.
  { rewrite mapM_Some, Forall2_fmap_l. apply Forall_Forall2_diag, Forall_forall.
    intros [k x] Hk. apply elem_of_btree_iter in Hk. simpl. by rewrite (Hm k x Hk). }
  simpl. by rewrite list_to_map_btree_iter.
Qed.

Create Rewrite HintDb json.
#[export] Hint Rewrite obj_get_of_list obj_get_app @obj_get_opt_field : json.

(** ** Values are countable *)

Section ValueInd.
Context (P : Value -> Prop).
Context (HNull : P Null) (HBool : forall b, P (Bool b)) (HNum : forall n, P (Num n))
        (HStr : forall s, P (Str s)) (HArr : forall l, Forall P l -> P (Arr l))
        (HObj : forall m, Forall (λ p, P p.2) m -> P (Obj m)).

(** Induction through arrays and objects. *)
Fixpoint Value_nested_ind (v : Value) : P v :=
  match v with
  | Null => HNull
  | Bool b => HBool b
  | Num n => HNum n
  | Str s => HStr s
  | Arr l => HArr l ((fix go l : Forall P l :=
               match l with [] => Forall_nil_2 _ | x :: l' => Forall_cons_2 _ _ _ (Value_nested_ind x) (go l') end) l)
  | Obj m => HObj m ((fix go m : Forall (λ p, P p.2) m :=
               match m with [] => Forall_nil_2 _ | p :: m' => Forall_cons_2 _ _ _ (Value_nested_ind p.2) (go m') end) m)
  end.
End ValueInd.

#[export] Instance Number_countable : Countable Number.
Proof.
  refine (inj_countable'
    (λ n, match n with PosInt z => inl (inl z) | NegInt z => inl (inr z) | Float z => inr z end)
    (λ x : Z + Z + Z, match x with inl (inl z) => PosInt z | inl (inr z) => NegInt z | inr z => Float z end) _).
  by intros [].
Defined.

Abbreviation leaf := (option bool + Number + string)%type.

Fixpoint to_tree (v : Value) : gen_tree leaf :=
  match v with
  | Null => GenLeaf (inl (inl None))
  | Bool b => GenLeaf (inl (inl (Some b)))
  | Num n => GenLeaf (inl (inr n))
  | Str s => GenLeaf (inr s)
  | Arr l => GenNode 0 (map to_tree l)
  | Obj m => GenNode 1 (map (λ p, GenNode 2 [GenLeaf (inr p.1); to_tree p.2]) m)
  end.

Fixpoint of_tree (t : gen_tree leaf) : option Value :=
  match t with
  | GenLeaf (inl (inl None)) => Some Null
  | GenLeaf (inl (inl (Some b))) => Some (Bool b)
  | GenLeaf (inl (inr n)) => Some (Num n)
  | GenLeaf (inr s) => Some (Str s)
  | GenNode 0 ts => Arr <$> (fix go ts := match ts with
                               | [] => Some []
                               | t :: ts' => match of_tree t, go ts' with
                                             | Some v, Some l => Some (v :: l)
                                             | _, _ => None
                                             end
                               end) ts
  | GenNode 1 ts => Obj <$> (fix go ts := match ts with
                               | [] => Some []
                               | GenNode 2 [GenLeaf (inr k); t] :: ts' =>
                                   match of_tree t, go ts' with
                                   | Some v, Some l => Some ((k, v) :: l)
                                   | _, _ => None
                                   end
                               | _ => None
                               end) ts
  | _ => None
  end.

Lemma of_to_tree v : of_tree (to_tree v) = Some v.
Proof.
  induction v as [| | | |l Hl|m Hm] using Value_nested_ind; try done; simpl.
  - match goal with |- Arr <$> ?g _ = _ => assert (g (map to_tree l) = Some l) as ->; [|done] end.
    induction Hl as [|x l Hx Hl IH]; [done|]. simpl. by rewrite Hx, IH.
  - match goal with |- Obj <$> ?g ?t = _ => assert (g t = Some m) as ->; [|done] end.
    induction Hm as [|[k x] m Hx Hm IH]; [done|]. simpl in *. by rewrite Hx, IH.
Qed.

#[export] Instance Value_eq_dec : EqDecision Value.
Proof. refine (inj_eq_dec to_tree). intros x y Hxy. apply (f_equal of_tree) in Hxy. rewrite !of_to_tree in Hxy. by simplify_eq. Defined.

#[export] Instance Value_countable : Countable Value.
Proof. exact (inj_countable to_tree of_tree of_to_tree). Defined.

(** ** A concrete [SerdeText], for examples

    A compact printer (without escapes) and a pointer that walks objects. *)

Module SampleText.

Fixpoint show (v : Value) : string :=
  match v with
  | Null => "null"
  | Bool true => "true"
  | Bool false => "false"
  | Num (PosInt n) => pretty n
  | Num (NegInt n) => pretty n
  | Num (Float b) => "f" +:+ pretty b
  | Str s => dq +:+ s +:+ dq
  | Arr l => "[" +:+ join "," (map show l) +:+ "]"
  | Obj m => "{" +:+ join "," (map (λ p, dq +:+ p.1 +:+ dq +:+ ":" +:+ show p.2) m) +:+ "}"
  end.

Fixpoint walk (segs : list string) (v : Value) : option Value :=
  match segs with
  | [] => Some v
  | s :: segs' => match vget s v with Some v' => walk segs' v' | None => None end
  end.

Definition point (p : string) (v : Value) : option Value :=
  match p with
  | EmptyString => Some v
  | String "/" rest => walk (split_char "/" rest) v
  | _ => None
  end.

Definition text : SerdeText := {| to_string := show; to_string_pretty := show; pointer := point |}.

End SampleText.
