(* ===== verification/Codec.v ===== *)
(** * Codecs of derived structs and enums

    What the derived [Serialize]/[Deserialize] of the workers' types share: readers of the
    members of an object ([strict] for [deny_unknown_fields], [opt] for an [Option]), the names
    of unit variants, and the lemmas and tactics that read a written struct back member by
    member. *)

From Stdlib Require Import Ascii ZArith Lia.
From S2P Require Import Prelude Json.

(** A unit variant: its name, or an object with the name and [null]. *)
Definition dec_variant {A} (names : string -> option A) (v : Value) : option A :=
  match v with
  | Str s => names s
  | Obj [(s, Null)] => names s
  | _ => None
  end.

(** The members of a struct, when the value is an object with no other member. *)
Definition strict (allowed : list string) (v : Value) : option Fields :=
  match v with Obj m => if only_keys allowed m then Some m else None | _ => None end.

(** An [Option] member, with or without [#[serde(default)]]. *)
Definition opt {A} (k : string) (d : Value -> option A) (m : Fields) : option (option A) :=
  dflt k (dec_opt d) None m.

Definition in_range (lo hi z : Z) : Prop := (lo <= z <= hi)%Z.

(** ** Lemmas *)

Section Reading.
Implicit Types (l : Fields) (k : string).

Definition keys_in (allowed : list string) l : Prop := forall k, k ∈ obj_keys l -> k ∈ allowed.

Lemma keys_in_nil allowed : keys_in allowed [].
Proof. intros k Hk. by apply elem_of_nil in Hk. Qed.

Lemma keys_in_cons allowed k v l : k ∈ allowed -> keys_in allowed l -> keys_in allowed ((k, v) :: l).
Proof. intros Hk Hl k' [->|Hk']%elem_of_cons; [done|by apply Hl]. Qed.

Lemma keys_in_app allowed l1 l2 : keys_in allowed l1 -> keys_in allowed l2 -> keys_in allowed (l1 ++ l2).
Proof. intros H1 H2 k. unfold obj_keys. rewrite fmap_app, elem_of_app. intros [Hk|Hk]; [exact (H1 k Hk)|exact (H2 k Hk)]. Qed.

Lemma keys_in_opt {A} allowed k (e : A -> Value) o : k ∈ allowed -> keys_in allowed (opt_field k e o).
Proof. intros Hk. destruct o; [apply keys_in_cons; [done|]|]; apply keys_in_nil. Qed.

Lemma strict_obj allowed l : keys_in allowed l -> strict allowed (json_obj l) = Some (obj_of_list l).
Proof.
  intros Hk. unfold strict, json_obj. rewrite (proj2 (only_keys_spec _ _)); [done|].
  intros k Hi. apply Hk. by apply obj_keys_of_list.
Qed.

Lemma req_obj {A} k (d : Value -> option A) v x l :
  obj_get k l = Some v -> d v = Some x -> req k d (obj_of_list l) = Some x.
Proof. intros Hg Hd. unfold req. by rewrite obj_get_of_list, Hg. Qed.

Lemma dflt_obj {A} k (d : Value -> option A) v x y l :
  obj_get k l = Some v -> d v = Some x -> dflt k d y (obj_of_list l) = Some x.
Proof. intros Hg Hd. unfold dflt. by rewrite obj_get_of_list, Hg. Qed.

Lemma opt_obj {A} k (e : A -> Value) (d : Value -> option A) o l :
  obj_get k l = e <$> o -> (forall x, o = Some x -> e x <> Null /\ d (e x) = Some x) ->
  opt k d (obj_of_list l) = Some o.
Proof.
  intros Hg Hd. unfold opt, dflt. rewrite obj_get_of_list, Hg. destruct o as [x|]; simpl; [|done].
  apply (dec_enc_opt e d (Some x) Hd).
Qed.

End Reading.

(** The keys of a written struct are among those its reader allows. *)
Ltac keys_in_tac :=
  repeat first [ apply keys_in_nil | apply keys_in_app
               | apply keys_in_cons; [set_solver|] | apply keys_in_opt; set_solver ].

(** Finds a member in a written struct. *)
Ltac field_tac :=
  rewrite ?obj_get_app, ?obj_get_opt_field; cbn [obj_get app];
  repeat match goal with
    | |- context [decide (?a = ?b)] =>
        first [ rewrite (decide_True (P := a = b)) by reflexivity
              | rewrite (decide_False (P := a = b)) by discriminate ]
    end; cbv beta iota;
  first [reflexivity | match goal with |- context [_ <$> ?o] => destruct o; reflexivity end].

(** Reads one member of a written struct back, as the field [x] it was written from. *)
Ltac get_req k x := erewrite (req_obj k _ _ x); [| field_tac |]; cbn [mbind option_bind].
Ltac get_dflt k x := erewrite (dflt_obj k _ _ x); [| field_tac |]; cbn [mbind option_bind].
Ltac get_opt k e o := rewrite (opt_obj k e _ o); [| field_tac |]; cbn [mbind option_bind].

Ltac codec_tac := rewrite ?strict_obj by keys_in_tac; cbn [mbind option_bind as_object json_obj].
