(* ===== verification/JsonText.v ===== *)
(** * The text of files

    What [serde_json] writes into a file and reads back is the class [SerdeFile] with its laws,
    among them the limit of nesting of the default reader; [SampleFile] is an instance of them.
    [utf8_ok] is what [read_to_string] asks of a file. *)

From Stdlib Require Import Ascii ZArith Lia.
From S2P Require Import Prelude Json Codec.

(** ** The text of a file *)

(** [serde_json::from_slice], as far as the syntax goes: a value, an error at the end of the
    text, or another error. *)
Inductive ReadResult : Type :=
| Parsed (v : Value)
| CutShort
| Unreadable.

(** [serde_json::to_vec] and [from_slice]. *)
Class SerdeFile : Type := {
  file_text : Value -> string;
  read_text : string -> ReadResult;
}.

Definition newline : ascii := "010"%char.

(** The levels of arrays and objects in a value. *)
Fixpoint nesting (v : Value) : nat :=
  match v with
  | Arr l => S (max_list (map nesting l))
  | Obj m => S (max_list (map (λ p, nesting p.2) m))
  | _ => 0
  end.

(** The values whose text reads back as they are: objects in key order, integers in range, no
    [f64], whose last digit the default reader may round, and at most [n] levels. *)
Fixpoint fits (n : nat) (v : Value) : Prop :=
  match v, n with
  | Null, _ | Bool _, _ | Str _, _ => True
  | Num (PosInt z), _ => in_range 0 u64_max z
  | Num (NegInt z), _ => in_range i64_min (-1) z
  | Num (Float _), _ => False
  | Arr l, S k => foldr and True (map (fits k) l)
  | Obj m, S k => obj_sorted m /\ foldr and True (map (λ p, fits k p.2) m)
  | _, O => False
  end.

(** The default recursion limit of the reader: 127 levels are read, 128 are an error. *)
Definition READ_LEVELS : nat := 127.

(** *** UTF-8

    [str::from_utf8]: every byte sequence is one of the well-formed ones. *)
Definition between (lo hi : Z) (c : ascii) : bool := ((lo <=? ascii_code c) && (ascii_code c <=? hi))%Z.
Definition trail : ascii -> bool := between 0x80 0xBF.

Definition lead3 (a b : ascii) : bool :=
  ((between 0xE0 0xE0 a && between 0xA0 0xBF b) || (between 0xED 0xED a && between 0x80 0x9F b)
  || ((between 0xE1 0xEC a || between 0xEE 0xEF a) && trail b)).
Definition lead4 (a b : ascii) : bool :=
  ((between 0xF0 0xF0 a && between 0x90 0xBF b) || (between 0xF1 0xF3 a && trail b)
  || (between 0xF4 0xF4 a && between 0x80 0x8F b)).

Fixpoint utf8_ok (s : string) : bool :=
  match s with
  | EmptyString => true
  | String a s1 =>
      if (ascii_code a <? 0x80)%Z then utf8_ok s1
      else match s1 with
           | EmptyString => false
           | String b s2 =>
               if between 0xC2 0xDF a && trail b then utf8_ok s2
               else match s2 with
                    | EmptyString => false
                    | String c s3 =>
                        if lead3 a b && trail c then utf8_ok s3
                        else match s3 with
                             | EmptyString => false
                             | String d s4 => if lead4 a b && trail c && trail d then utf8_ok s4 else false
                             end
                    end
           end
  end.

(** [s.chars().count()] and [s.chars().take(n)]: a character starts at every byte that does not
    continue one. *)
Fixpoint char_count (s : string) : nat :=
  match s with
  | "" => 0
  | String c s' => if trail c then char_count s' else S (char_count s')
  end.
Fixpoint take_chars (n : nat) (s : string) : string :=
  match s with
  | "" => ""
  | String c s' =>
      if trail c then String c (take_chars n s')
      else match n with O => "" | S n' => String c (take_chars n' s') end
  end.

(** The strings of a [Value] are Rust strings. *)
Fixpoint utf8_value (v : Value) : bool :=
  match v with
  | Str s => utf8_ok s
  | Arr l => forallb utf8_value l
  | Obj m => forallb (λ p, utf8_ok p.1 && utf8_value p.2) m
  | _ => true
  end.

(** The compact printer writes one line, the reader reads it back up to its recursion limit,
    and a proper start of the text of an object is an unfinished object. *)
Class SerdeFileLaws `{SerdeFile} : Prop := {
  file_text_some : forall v, file_text v <> "";
  file_text_control : forall v c, (ascii_code c < 32)%Z -> contains_char c (file_text v) = false;
  file_text_object : forall m, exists s, file_text (Obj m) = String "{" s;
  file_text_utf8 : forall v, utf8_value v = true -> utf8_ok (file_text v) = true;
  file_text_read : forall v, fits READ_LEVELS v -> read_text (file_text v) = Parsed v;
  file_text_deep : forall v, READ_LEVELS < nesting v -> read_text (file_text v) = Unreadable;
  file_text_cut : forall m a b, fits READ_LEVELS (Obj m) ->
    file_text (Obj m) = a +:+ b -> a <> "" -> b <> "" -> read_text a = CutShort;
}.

Lemma file_text_line `{SerdeFileLaws} v : contains_char newline (file_text v) = false.
Proof. by apply file_text_control. Qed.

(** A text of whole characters followed by another is UTF-8 when the other is. *)
Lemma utf8_ok_app a b : utf8_ok a = true -> utf8_ok (a +:+ b) = utf8_ok b.
Proof.
  remember (String.length a) as n eqn:Hn. revert a Hn.
  induction (lt_wf n) as [n _ IH]. intros [|c1 s1] ->; [done|]. intros Ha. rewrite append_cons.
  cbn [utf8_ok] in *. destruct (ascii_code c1 <? 128)%Z; [apply (IH (String.length s1)); simpl; auto with lia|].
  destruct s1 as [|c2 s2]; [done|]. rewrite append_cons.
  destruct (between 194 223 c1 && trail c2); [apply (IH (String.length s2)); simpl; auto with lia|].
  destruct s2 as [|c3 s3]; [done|]. rewrite append_cons.
  destruct (lead3 c1 c2 && trail c3); [apply (IH (String.length s3)); simpl; auto with lia|].
  destruct s3 as [|c4 s4]; [done|]. rewrite append_cons.
  destruct (lead4 c1 c2 && trail c3 && trail c4); [apply (IH (String.length s4)); simpl; auto with lia|done].
Qed.

(** *** Values that fit *)

Lemma fits_arr n l : Forall (fits n) l -> fits (S n) (Arr l).
Proof. induction 1; simpl in *; [done|]. by split. Qed.

Lemma fits_members n m : obj_sorted m -> Forall (λ p, fits n p.2) m -> fits (S n) (Obj m).
Proof. intros Hs Hm. split; [done|]. induction Hm; simpl in *; [done|]. split; [done|]. apply IHHm. by inversion Hs. Qed.

Lemma Forall_obj_insert (Q : string * Value -> Prop) k v m : Q (k, v) -> Forall Q m -> Forall Q (obj_insert k v m).
Proof.
  intros Hk. induction 1 as [|[k' v'] m Hx Hm IH]; simpl; [by constructor|].
  case_decide; [by constructor|]. destruct (String.leb k k'); by repeat constructor.
Qed.

Lemma fits_obj n l : Forall (λ p, fits n p.2) l -> fits (S n) (json_obj l).
Proof.
  intros Hl. apply fits_members; [apply obj_sorted_of_list|].
  induction Hl as [|[k v] l Hv Hl IH]; simpl; [done|]. by apply Forall_obj_insert.
Qed.

Lemma btree_keys_sorted {A} (m : gmap string A) : StronglySorted key_lt (btree_keys m).
Proof.
  pose proof (btree_iter_sorted m) as Hs. pose proof (NoDup_btree_keys m) as Hn. unfold btree_keys in *.
  induction Hs as [|p l Hs IH Hp]; [constructor|]. rewrite fmap_cons in *. apply NoDup_cons in Hn as [Hp1 Hn].
  constructor; [by apply IH|]. apply Forall_fmap. rewrite Forall_forall in *. intros q Hq. split; [by apply Hp|].
  simpl. intros Heq. apply Hp1. rewrite Heq. by apply list_elem_of_fmap_2.
Qed.

Lemma fits_enc_map {A} n (e : A -> Value) (m : gmap string A) :
  map_Forall (λ _ x, fits n (e x)) m -> fits (S n) (enc_map e m).
Proof.
  intros Hm. apply fits_members.
  - unfold obj_sorted, obj_keys. rewrite <-list_fmap_compose.
    change (StronglySorted key_lt (btree_keys m)). apply btree_keys_sorted.
  - apply Forall_fmap, Forall_forall. intros [k x] Hx%elem_of_btree_iter. by apply (Hm k x).
Qed.

Lemma fits_u n z : in_range 0 u64_max z -> fits n (enc_u z).
Proof. by destruct n. Qed.

Lemma fits_str n s : fits n (Str s).
Proof. by destruct n. Qed.

Lemma fits_bool n b : fits n (Bool b).
Proof. by destruct n. Qed.

(** ** A concrete text, for examples *)

Module SampleFile.

(** A value as the binary digits of its code, in braces, after a character that is not ASCII. *)
Fixpoint show_bits (p : positive) : string :=
  match p with xH => "" | xO q => String "0" (show_bits q) | xI q => String "1" (show_bits q) end.

Fixpoint read_bits (s : string) : positive :=
  match s with
  | EmptyString => xH
  | String c rest => if Ascii.eqb c "0" then xO (read_bits rest) else xI (read_bits rest)
  end.

(** A character of two bytes. *)
Definition accent : string := String "195" (String "169" "").

Definition show (v : Value) : string := "{" +:+ accent +:+ show_bits (encode v) +:+ "}".

Definition read (s : string) : ReadResult :=
  match strip_prefix "{" s with
  | None => Unreadable
  | Some rest =>
      if contains_char "}" rest then
        match strip_prefix accent rest with
        | Some bits =>
            match decode (read_bits (before_char "}" bits)) with
            | Some v => if nesting v <=? READ_LEVELS then Parsed v else Unreadable
            | None => Unreadable
            end
        | None => Unreadable
        end
      else CutShort
  end.

#[export] Instance text : SerdeFile := {| file_text := show; read_text := read |}.

Lemma read_show_bits p : read_bits (show_bits p) = p.
Proof. induction p as [p IH|p IH|]; simpl; by rewrite ?IH. Qed.

Lemma show_bits_no c p : c <> "0"%char -> c <> "1"%char -> contains_char c (show_bits p) = false.
Proof. intros H0 H1. induction p as [p IH|p IH|]; simpl; [| |done]; by rewrite decide_False. Qed.

Lemma show_bits_utf8 p : utf8_ok (show_bits p) = true.
Proof. by induction p. Qed.

Lemma fits_nesting n v : fits n v -> nesting v <= n.
Proof.
  revert n. induction v as [| |x| |l IH|m IH] using Value_nested_ind; intros n Hf; simpl; try lia.
  - destruct n as [|k]; simpl in Hf; [done|]. apply le_n_S. induction IH as [|x l Hx Hl IHl]; simpl in *; [lia|].
    destruct Hf as [Hfx Hfl]. apply Nat.max_lub; [by apply Hx|by apply IHl].
  - destruct n as [|k]; simpl in Hf; [done|]. destruct Hf as [_ Hf]. apply le_n_S.
    induction IH as [|x m Hx Hm IHm]; simpl in *; [lia|]. destruct Hf as [Hfx Hfm]. apply Nat.max_lub; [by apply Hx|by apply IHm].
Qed.

Lemma read_show v : read (show v) = if nesting v <=? READ_LEVELS then Parsed v else Unreadable.
Proof.
  unfold read, show. rewrite strip_prefix_app, !contains_char_app. simpl (contains_char _ "}"). rewrite !orb_true_r.
  rewrite strip_prefix_app, before_char_app by by apply show_bits_no. by rewrite read_show_bits, decode_encode.
Qed.

Lemma cut_no_brace a b s : contains_char "}" s = false -> s +:+ "}" = a +:+ b -> b <> "" -> contains_char "}" a = false.
Proof.
  revert a. induction s as [|c s IH]; intros a Hs Hab Hb.
  - destruct a as [|x a]; [done|]. change ("" +:+ "}") with "}" in Hab. rewrite append_cons in Hab. injection Hab as _ Hab.
    by destruct a, b.
  - destruct a as [|x a]; [done|]. rewrite !append_cons in Hab. injection Hab as <- Hab. simpl in *.
    case_decide; [done|]. by apply (IH a).
Qed.

#[export] Instance laws : SerdeFileLaws.
Proof.
  split.
  - done.
  - intros v c Hc. change (contains_char c ("{" +:+ accent +:+ show_bits (encode v) +:+ "}") = false).
    rewrite !contains_char_app, show_bits_no by by intros ->. cbn [accent contains_char].
    by repeat (rewrite decide_False by by intros ->).
  - intros m. eexists. reflexivity.
  - intros v _. change (utf8_ok ("{" +:+ accent +:+ show_bits (encode v) +:+ "}") = true).
    rewrite utf8_ok_app, utf8_ok_app by done. by rewrite utf8_ok_app by apply show_bits_utf8.
  - intros v Hv%fits_nesting. cbn [read_text text file_text]. rewrite read_show. by rewrite (proj2 (Nat.leb_le _ _) Hv).
  - intros v Hv. cbn [read_text text file_text]. rewrite read_show. by rewrite (proj2 (Nat.leb_gt _ _) Hv).
  - intros m a b _ Hab Ha Hb. cbn [read_text text file_text] in *. unfold show in Hab.
    destruct a as [|c a]; [done|]. change ("{" +:+ ?s) with (String "{" s) in Hab. rewrite append_cons in Hab.
    injection Hab as <- Hab. unfold read. change (String "{" a) with ("{" +:+ a). rewrite strip_prefix_app.
    change (accent +:+ ?s +:+ "}") with ((accent +:+ s) +:+ "}") in Hab.
    rewrite (cut_no_brace a b (accent +:+ show_bits (encode (Obj m)))); [done| |done|done].
    rewrite contains_char_app. by rewrite show_bits_no.
Qed.

End SampleFile.
