(* ===== verification/StateBarrier.v ===== *)
(** * Fan-in barriers (state/src/barrier.rs)

    A barrier records arrivals under one state key and answers [Allow] exactly once, on
    the arrival that completes it.  [arrive] is the pure decision function of the code;
    [run] applies it to a sequence of events the way the store does, through the stored
    JSON value.  The theorems: the stored value is read back exactly; over every sequence of
    events [Allow] is answered at most once, and exactly once as soon as enough distinct
    keys have arrived; the payload carries every arrival; redelivery does not count. *)

From Stdlib Require Import Ascii ZArith Lia.
From S2P Require Import Prelude Json.

Module Barrier.

Definition BARRIER_SCOPE : string := "state_barrier".
Definition MAX_BARRIER_ARRIVALS : Z := 10000.

Inductive Expect : Type :=
| Count (n : Z)
| Keys (keys : list string).

Record BarrierConfig : Type := {
  bc_id : string;
  bc_expect : Expect;
  bc_key_from : option string;
  bc_carry : option string;
}.

Inductive Decision : Type :=
| Allow (payload : option Value) (reason : string)
| Skip (reason : string).

Record BarrierState : Type := {
  arrived : Fields;
  complete : bool;
}.

Definition barrier_default : BarrierState := {| arrived := []; complete := false |}.

(** [#[derive(Serialize, Deserialize)]] of [BarrierState], both fields with a default. *)
#[global] Instance BarrierState_codec : Codec BarrierState := {|
  to_value st := json_obj [("arrived", Obj (arrived st)); ("complete", Bool (complete st))];
  from_value v :=
    match v with
    | Obj m =>
        a ← dflt "arrived" as_object [] m;
        c ← dflt "complete" as_bool false m;
        Some {| arrived := a; complete := c |}
    | _ => None
    end;
|}.

Definition is_allow (d : Decision) : bool := match d with Allow _ _ => true | Skip _ => false end.

(** [Expect::total]. *)
Definition expect_total (e : Expect) : result nat string :=
  let too_many := "`expect` cannot exceed " +:+ pretty MAX_BARRIER_ARRIVALS +:+ " arrivals" in
  let total :=
    match e with
    | Count n => if (MAX_BARRIER_ARRIVALS <? n)%Z then Err too_many else Ok (Z.to_nat n)
    | Keys keys =>
        if (MAX_BARRIER_ARRIVALS <? Z.of_nat (length keys))%Z then Err too_many
        else Ok (length keys)
    end in
  match total with
  | Err e => Err e
  | Ok 0 => Err "`expect` must contain at least one arrival"
  | Ok n => Ok n
  end.

(** [Expect::accepts]. *)
Definition expect_accepts (e : Expect) (key : string) : bool :=
  match e with
  | Count _ => true
  | Keys keys => existsb (λ k, bool_decide (k = key)) keys
  end.

Definition DEFAULT_KEY_FROM : string := "/key".

Definition key_pointer (cfg : BarrierConfig) : string := default DEFAULT_KEY_FROM (bc_key_from cfg).

(** The first key that occurs earlier in the list. *)
Fixpoint first_duplicate (seen : gset string) (keys : list string) : option string :=
  match keys with
  | [] => None
  | k :: ks => if bool_decide (k ∈ seen) then Some k else first_duplicate ({[k]} ∪ seen) ks
  end.

Section Barrier.
Context `{SerdeText}.
(** [{:?}] of a list of strings, used in one diagnostic. *)
Context (debug_strings : list string -> string).

Definition arrive (current : option Value) (cfg : BarrierConfig) (event : Value)
  : result (BarrierState * Decision) string :=
  let name := "barrier `" +:+ bc_id cfg +:+ "`" in
  match expect_total (bc_expect cfg) with
  | Err e => Err (name +:+ ": " +:+ e)
  | Ok total =>
  match (match bc_expect cfg with Keys keys => first_duplicate ∅ keys | Count _ => None end) with
  | Some duplicate => Err (name +:+ ": duplicate expected arrival key `" +:+ duplicate +:+ "`")
  | None =>
  match (match current with
         | None | Some Null => Some barrier_default
         | Some v => from_value v
         end) with
  | None => Err (name +:+ " state is unreadable")
  | Some state =>
  match (match pointer (key_pointer cfg) event with
         | Some (Str s) => Some s
         | Some Null | None => None
         | Some other => Some (to_string other)
         end) with
  | None => Err (name +:+ ": no arrival key at `" +:+ key_pointer cfg +:+ "` in the event — set `key_from` to a pointer that resolves, or arrivals cannot be told apart")
  | Some key =>
  if complete state then Ok (state, Skip (name +:+ " already complete"))
  else if negb (expect_accepts (bc_expect cfg) key) then
    Ok (state, Skip (name +:+ ": `" +:+ key +:+ "` is not one of the expected arrivals — check the producer's key against `expect`"))
  else
    let carried := match bc_carry cfg with
                   | Some p => default Null (pointer p event)
                   | None => event
                   end in
    let first_time := negb (obj_has key (arrived state)) in
    let arr := obj_insert key carried (arrived state) in
    let n := length arr in
    if (total <=? n)%nat then
      Ok ({| arrived := arr; complete := true |},
          Allow (Some (json_obj [("results", Obj arr)]))
                (name +:+ " complete (" +:+ show_nat total +:+ "/" +:+ show_nat total +:+ ")"))
    else
      let reason :=
        if first_time then
          let waiting_on := match bc_expect cfg with
                            | Count _ => show_nat (total - n) +:+ " more"
                            | Keys keys => debug_strings (filter (λ k, obj_has k arr = false) keys)
                            end in
          name +:+ ": " +:+ show_nat n +:+ "/" +:+ show_nat total +:+ " arrived, waiting on " +:+ waiting_on
        else name +:+ ": `" +:+ key +:+ "` already counted, still " +:+ show_nat n +:+ "/" +:+ show_nat total
      in Ok ({| arrived := arr; complete := false |}, Skip reason)
  end end end end.

(** A sequence of events against one stored key: the value is read back, the arrival
    applied and the new state written; an error leaves the value alone. *)
Fixpoint run (cfg : BarrierConfig) (stored : option Value) (events : list Value)
  : option Value * list (result Decision string) :=
  match events with
  | [] => (stored, [])
  | e :: es =>
      match arrive stored cfg e with
      | Err msg => let '(v, ds) := run cfg stored es in (v, Err msg :: ds)
      | Ok (st, d) => let '(v, ds) := run cfg (Some (to_value st)) es in (v, Ok d :: ds)
      end
  end.

(** The key an event arrives under. *)
Definition event_key (cfg : BarrierConfig) (event : Value) : option string :=
  match pointer (key_pointer cfg) event with
  | Some (Str s) => Some s
  | Some Null | None => None
  | Some other => Some (to_string other)
  end.

Definition carried_of (cfg : BarrierConfig) (event : Value) : Value :=
  match bc_carry cfg with Some p => default Null (pointer p event) | None => event end.

(** The distinct accepted keys of a sequence of events. *)
Definition accepted_keys (cfg : BarrierConfig) (events : list Value) : gset string :=
  list_to_set (filter (λ k, expect_accepts (bc_expect cfg) k = true) (omap (event_key cfg) events)).

Definition allowed (d : result Decision string) : bool :=
  match d with Ok d' => is_allow d' | Err _ => false end.

Definition allows (ds : list (result Decision string)) : nat :=
  length (filter (λ d, allowed d = true) ds).

(** What has arrived after a sequence of accepted events, the last value of a key winning. *)
Definition add_arrival (cfg : BarrierConfig) (m : Fields) (e : Value) : Fields :=
  match event_key cfg e with
  | Some k => if expect_accepts (bc_expect cfg) k then obj_insert k (carried_of cfg e) m else m
  | None => m
  end.

Definition arrivals (cfg : BarrierConfig) (init : Fields) (events : list Value) : Fields :=
  foldl (add_arrival cfg) init events.

(** *** One arrival *)

Lemma barrier_state_roundtrip (st : BarrierState) : from_value (to_value st) = Some st.
Proof. by destruct st as [a []]. Qed.

Definition valid_config (cfg : BarrierConfig) (total : nat) : Prop :=
  expect_total (bc_expect cfg) = Ok total /\
  match bc_expect cfg with Keys keys => first_duplicate ∅ keys = None | Count _ => True end.

(** A stored value is absent, null or an encoded state. *)
Definition stores (v : option Value) (st : BarrierState) : Prop :=
  ((v = None \/ v = Some Null) /\ st = barrier_default) \/ v = Some (to_value st).

Lemma stores_read v st :
  stores v st ->
  (match v with None | Some Null => Some barrier_default | Some v' => from_value v' end) = Some st.
Proof. intros [[[-> | ->] ->] | ->]; [done|done|apply barrier_state_roundtrip]. Qed.

Inductive arrival_outcome (cfg : BarrierConfig) (total : nat) (st : BarrierState) (e : Value)
  : result (BarrierState * Decision) string -> Prop :=
| arrival_error msg : event_key cfg e = None -> arrival_outcome cfg total st e (Err msg)
| arrival_late k r : event_key cfg e = Some k -> complete st = true ->
    arrival_outcome cfg total st e (Ok (st, Skip r))
| arrival_foreign k r : event_key cfg e = Some k -> complete st = false ->
    expect_accepts (bc_expect cfg) k = false -> arrival_outcome cfg total st e (Ok (st, Skip r))
| arrival_completes k r arr : event_key cfg e = Some k -> complete st = false ->
    expect_accepts (bc_expect cfg) k = true -> arr = obj_insert k (carried_of cfg e) (arrived st) ->
    total <= length arr ->
    arrival_outcome cfg total st e
      (Ok ({| arrived := arr; complete := true |}, Allow (Some (json_obj [("results", Obj arr)])) r))
| arrival_counts k r arr : event_key cfg e = Some k -> complete st = false ->
    expect_accepts (bc_expect cfg) k = true -> arr = obj_insert k (carried_of cfg e) (arrived st) ->
    length arr < total ->
    arrival_outcome cfg total st e (Ok ({| arrived := arr; complete := false |}, Skip r)).

Lemma arrive_outcome cfg total v st e :
  valid_config cfg total -> stores v st ->
  arrival_outcome cfg total st e (arrive v cfg e).
Proof.
  intros [Ht Hd] Hv. unfold arrive. rewrite Ht.
  assert ((match bc_expect cfg with Keys keys => first_duplicate ∅ keys | Count _ => None end) = None)
    as -> by (destruct (bc_expect cfg); done).
  rewrite (stores_read _ _ Hv). fold (event_key cfg e). destruct (event_key cfg e) as [k|] eqn:Hk; [|by constructor].
  destruct (complete st) eqn:Hc; [by econstructor|].
  destruct (expect_accepts (bc_expect cfg) k) eqn:Ha; simpl; [|by econstructor].
  destruct (Nat.leb_spec total (length (obj_insert k (carried_of cfg e) (arrived st)))) as [Hn|Hn];
    unfold carried_of in *; [apply Nat.leb_le in Hn as Hb | apply Nat.leb_gt in Hn as Hb];
    rewrite Hb; by econstructor.
Qed.

(** *** Sequences of arrivals *)

Lemma arrivals_keys cfg m es k :
  k ∈ obj_keys (arrivals cfg m es) <-> k ∈ obj_keys m \/ k ∈ accepted_keys cfg es.
Proof.
  revert m. induction es as [|e es IH]; intros m; unfold accepted_keys in *; simpl; [set_solver|].
  rewrite IH. unfold add_arrival. destruct (event_key cfg e) as [k'|]; simpl; [|done].
  rewrite filter_cons. destruct (expect_accepts (bc_expect cfg) k'); simpl.
  - rewrite obj_keys_insert. set_solver.
  - set_solver.
Qed.

Lemma arrivals_sorted cfg m es : obj_sorted m -> obj_sorted (arrivals cfg m es).
Proof.
  revert m. induction es as [|e es IH]; intros m Hm; simpl; [done|]. apply IH. unfold add_arrival.
  repeat case_match; try done. by apply obj_keys_insert_sorted.
Qed.

Lemma sorted_length_keys (m : Fields) :
  obj_sorted m -> length m = size (list_to_set (obj_keys m) : gset string).
Proof.
  intros Hm. rewrite size_list_to_set by by apply obj_sorted_NoDup.
  unfold obj_keys. by rewrite length_fmap.
Qed.

Lemma arrivals_length cfg m es :
  obj_sorted m ->
  length (arrivals cfg m es) = size (list_to_set (obj_keys m) ∪ accepted_keys cfg es : gset string).
Proof.
  intros Hm. rewrite sorted_length_keys by by apply arrivals_sorted. f_equal.
  apply set_eq. intros k. rewrite elem_of_list_to_set, arrivals_keys. set_solver.
Qed.

Lemma allows_cons d ds : allows (d :: ds) = (if allowed d then 1 else 0) + allows ds.
Proof. unfold allows. rewrite filter_cons. by destruct (allowed d). Qed.

Lemma run_complete_allows cfg total v st es :
  valid_config cfg total -> stores v st -> complete st = true -> allows (run cfg v es).2 = 0.
Proof.
  intros Hc. revert v. induction es as [|e es IH]; intros v Hv Hst; cbn [run]; [done|].
  destruct (arrive_outcome cfg total v st e Hc Hv) as [msg Hk| | | |]; try congruence.
  - specialize (IH v Hv Hst). by destruct (run cfg v es).
  - specialize (IH (Some (to_value st)) (or_intror eq_refl) Hst).
    by destruct (run cfg (Some (to_value st)) es).
Qed.

Lemma run_allows cfg total v st es :
  valid_config cfg total -> stores v st -> complete st = false -> obj_sorted (arrived st) ->
  length (arrived st) < total ->
  allows (run cfg v es).2 = if decide (total <= length (arrivals cfg (arrived st) es)) then 1 else 0.
Proof.
  intros Hc. revert v st. induction es as [|e es IH]; intros v st Hv Hst Hs Hlt; cbn [run].
  { simpl. rewrite decide_False by lia. done. }
  change (arrivals cfg (arrived st) (e :: es)) with (arrivals cfg (add_arrival cfg (arrived st) e) es).
  unfold add_arrival.
  destruct (arrive_outcome cfg total v st e Hc Hv) as [msg Hk|k r Hk Hct|k r Hk _ Ha|k r arr Hk _ Ha Harr Hle|k r arr Hk _ Ha Harr Hle];
    rewrite Hk; try congruence; rewrite ?Ha.
  - specialize (IH v st Hv Hst Hs Hlt). destruct (run cfg v es). simpl in *. by rewrite allows_cons.
  - specialize (IH (Some (to_value st)) st (or_intror eq_refl) Hst Hs Hlt).
    destruct (run cfg (Some (to_value st)) es). simpl in *. by rewrite allows_cons.
  - set (st' := {| arrived := arr; complete := true |}).
    pose proof (run_complete_allows cfg total (Some (to_value st')) st' es Hc (or_intror eq_refl) eq_refl) as H0.
    destruct (run cfg (Some (to_value st')) es) as [v' ds]. simpl in *.
    rewrite allows_cons. simpl. rewrite H0, decide_True; [done|].
    rewrite <-Harr, arrivals_length by (subst; by apply obj_keys_insert_sorted).
    transitivity (size (list_to_set (obj_keys arr) : gset string)).
    + rewrite <-sorted_length_keys; [done|]. subst. by apply obj_keys_insert_sorted.
    + apply subseteq_size. set_solver.
  - set (st' := {| arrived := arr; complete := false |}).
    specialize (IH (Some (to_value st')) st' (or_intror eq_refl) eq_refl).
    rewrite <-Harr. destruct (run cfg (Some (to_value st')) es) as [v' ds]. simpl.
    rewrite allows_cons. apply IH; [|done].
    simpl. subst. by apply obj_keys_insert_sorted.
Qed.

Lemma run_app cfg v es1 es2 :
  (run cfg v (es1 ++ es2)).2 = (run cfg v es1).2 ++ (run cfg (run cfg v es1).1 es2).2.
Proof.
  revert v. induction es1 as [|e es1 IH]; intros v; [done|]. cbn [run app].
  destruct (arrive v cfg e) as [[st d]|msg].
  - specialize (IH (Some (to_value st))). destruct (run cfg _ (es1 ++ es2)), (run cfg _ es1).
    simpl in *. by rewrite IH.
  - specialize (IH v). destruct (run cfg _ (es1 ++ es2)), (run cfg _ es1).
    simpl in *. by rewrite IH.
Qed.

(** As long as nothing was allowed the stored state holds the arrivals so far. *)
Lemma run_pending_state cfg total v st es :
  valid_config cfg total -> stores v st -> complete st = false -> allows (run cfg v es).2 = 0 ->
  exists st', stores (run cfg v es).1 st' /\ complete st' = false
              /\ arrived st' = arrivals cfg (arrived st) es.
Proof.
  intros Hc. revert v st. induction es as [|e es IH]; intros v st Hv Hst; cbn [run].
  { intros _. by exists st. }
  change (arrivals cfg (arrived st) (e :: es)) with (arrivals cfg (add_arrival cfg (arrived st) e) es).
  unfold add_arrival.
  destruct (arrive_outcome cfg total v st e Hc Hv) as [msg Hk|k r Hk Hct|k r Hk _ Ha|k r arr Hk _ Ha Harr Hle|k r arr Hk _ Ha Harr Hle];
    rewrite Hk; try congruence; rewrite ?Ha.
  - specialize (IH v st Hv Hst). destruct (run cfg v es). simpl in *. by rewrite allows_cons.
  - specialize (IH (Some (to_value st)) st (or_intror eq_refl) Hst).
    destruct (run cfg (Some (to_value st)) es). simpl in *. by rewrite allows_cons.
  - destruct (run cfg _ es). simpl. by rewrite allows_cons.
  - set (st' := {| arrived := arr; complete := false |}).
    specialize (IH (Some (to_value st')) st' (or_intror eq_refl) eq_refl).
    destruct (run cfg (Some (to_value st')) es) as [v' ds]. simpl in *. rewrite allows_cons.
    by rewrite <-Harr.
Qed.

Lemma first_duplicate_None seen keys :
  first_duplicate seen keys = None -> NoDup keys /\ Forall (λ k, k ∉ seen) keys.
Proof.
  revert seen. induction keys as [|k keys IH]; intros seen; simpl; [by repeat constructor|].
  case_bool_decide as Hk; [done|]. intros [Hn Hf]%IH. split.
  - constructor; [|done]. rewrite Forall_forall in Hf. intros Hin. apply (Hf k Hin). set_solver.
  - constructor; [done|]. eapply Forall_impl; [exact Hf|]. set_solver.
Qed.

Lemma valid_total_pos cfg total : valid_config cfg total -> 0 < total.
Proof.
  intros [Ht _]. unfold expect_total in Ht. destruct (bc_expect cfg); case_match; simplify_eq; case_all; lia.
Qed.

Lemma valid_keys_total cfg total keys :
  valid_config cfg total -> bc_expect cfg = Keys keys -> total = length keys /\ NoDup keys.
Proof.
  intros [Ht Hd] He. rewrite He in *. apply first_duplicate_None in Hd as [Hn _]. split; [|done].
  unfold expect_total in Ht. destruct (MAX_BARRIER_ARRIVALS <? Z.of_nat (length keys))%Z; [done|].
  destruct (length keys); by simplify_eq.
Qed.

Lemma accepts_keys keys k : expect_accepts (Keys keys) k = true <-> k ∈ keys.
Proof.
  simpl. rewrite existsb_exists. setoid_rewrite bool_decide_eq_true.
  setoid_rewrite <-list_elem_of_In. naive_solver.
Qed.

Lemma run_allows_init cfg total events :
  valid_config cfg total ->
  allows (run cfg None events).2
  = if decide (total <= size (accepted_keys cfg events)) then 1 else 0.
Proof.
  intros Hc. rewrite (run_allows cfg total None barrier_default); try done.
  - rewrite arrivals_length by constructor. simpl. by rewrite (left_id_L ∅ (∪)).
  - by left; split; [left|].
  - constructor.
  - by apply valid_total_pos in Hc.
Qed.

(** *** Properties *)

(** C39: over any sequence of events, starting from an absent key, a barrier answers [Allow]
    exactly once if at least [total] distinct expected keys have arrived, and never
    otherwise: redelivered, foreign and late arrivals do not count. *)
Theorem barrier_allows_exactly_once cfg total events :
  valid_config cfg total ->
  allows (run cfg None events).2
  = if decide (total <= size (accepted_keys cfg events)) then 1 else 0.
Proof. apply run_allows_init. Qed.

(** The [Allow] answer carries every arrival: its payload is the object of all accepted
    keys so far with the last value of each, and for a named set every expected key is in it. *)
Theorem barrier_payload_complete cfg total es e p r :
  valid_config cfg total ->
  last (run cfg None (es ++ [e])).2 = Some (Ok (Allow p r)) ->
  p = Some (json_obj [("results", Obj (arrivals cfg [] (es ++ [e])))]) /\
  forall keys k, bc_expect cfg = Keys keys -> k ∈ keys ->
    is_Some (obj_get k (arrivals cfg [] (es ++ [e]))).
Proof.
  intros Hc Hl. pose proof (run_allows_init cfg total (es ++ [e]) Hc) as Hone.
  rewrite run_app in Hl, Hone.
  assert (allows (run cfg None es).2 = 0) as H0.
  { cbn [run] in Hone, Hl. destruct (arrive _ cfg e) as [[st d]|msg]; simpl in Hl, Hone;
      rewrite last_snoc in Hl; simplify_eq. unfold allows in *. rewrite filter_app, length_app, filter_cons_True in Hone by done.
    simpl in Hone. case_match; lia. }
  destruct (run_pending_state cfg total None barrier_default es Hc) as (st & Hst & Hinc & Harr); try done.
  { by left; split; [left|]. }
  cbn [run] in Hl. pose proof (arrive_outcome cfg total _ st e Hc Hst) as Ho.
  assert (arrivals cfg [] (es ++ [e]) = add_arrival cfg (arrived st) e) as Hadd.
  { unfold arrivals. rewrite foldl_app. simpl. by rewrite Harr. }
  destruct Ho as [msg Hk|k r' Hk Hct|k r' Hk _ Ha|k r' arr Hk _ Ha Heq Hle|k r' arr Hk _ Ha Heq Hle];
    simpl in Hl; rewrite last_snoc in Hl; simplify_eq.
  unfold add_arrival in Hadd. rewrite Hk, Ha in Hadd. rewrite Hadd. split; [done|].
  intros keys k' He Hin. rewrite <-Hadd, obj_get_is_Some, arrivals_keys. right.
  destruct (valid_keys_total _ _ _ Hc He) as [-> Hnd].
  rewrite <-Hadd, arrivals_length in Hle by constructor. simpl in Hle.
  assert (accepted_keys cfg (es ++ [e]) ⊆ list_to_set keys) as Hsub.
  { intros x. unfold accepted_keys. rewrite !elem_of_list_to_set, list_elem_of_filter, He.
    by intros [?%accepts_keys _]. }
  assert (list_to_set keys = accepted_keys cfg (es ++ [e])) as <-; [|by apply elem_of_list_to_set].
  symmetry. apply set_subseteq_size_eq; [done|].
  rewrite size_list_to_set by done.
  by rewrite (left_id_L ∅ (∪)) in Hle.
Qed.

End Barrier.

(** *** Examples *)

Module Examples.
Definition cfg : BarrierConfig :=
  {| bc_id := "join"; bc_expect := Keys ["a"; "b"]; bc_key_from := None; bc_carry := Some "/v" |}.
Definition ev (k : string) (n : Z) : Value := json_obj [("key", Str k); ("v", Num (PosInt n))].
Definition dbg (l : list string) : string := join "," l.
Definition es : list Value := [ev "a" 1; ev "a" 2; ev "c" 9].
End Examples.

Lemma barrier_allows_exactly_once_witness :
  valid_config Examples.cfg 2 /\
  allows (run (H := SampleText.text) Examples.dbg Examples.cfg None
            (Examples.es ++ [Examples.ev "b" 3; Examples.ev "a" 4])).2 = 1.
Proof.
  assert (valid_config Examples.cfg 2) as Hv by (split; reflexivity).
  split; [exact Hv|].
  exact (eq_trans
    (barrier_allows_exactly_once (H := SampleText.text) Examples.dbg Examples.cfg 2
       (Examples.es ++ [Examples.ev "b" 3; Examples.ev "a" 4]) Hv)
    ltac:(vm_compute; reflexivity)).
Defined.

Lemma barrier_payload_complete_witness :
  valid_config Examples.cfg 2 /\
  exists p r, last (run (H := SampleText.text) Examples.dbg Examples.cfg None
                      (Examples.es ++ [Examples.ev "b" 3])).2 = Some (Ok (Allow p r)) /\
  p = Some (json_obj [("results", Obj [("a", Num (PosInt 2)); ("b", Num (PosInt 3))])]).
Proof.
  assert (valid_config Examples.cfg 2) as Hv by (split; reflexivity).
  split; [exact Hv|]. do 2 eexists. split; [vm_compute; reflexivity|].
  refine (proj1 (barrier_payload_complete (H := SampleText.text) Examples.dbg Examples.cfg 2
                   Examples.es (Examples.ev "b" 3) _ _ Hv _)).
  vm_compute. reflexivity.
Defined.

End Barrier.
