(* ===== verification/StateUpdate.v ===== *)
(** * Update operations of the state worker (state/src/update_ops.rs)

    [state::update] applies an ordered list of operations to one stored value: set, merge,
    increment, decrement, append, remove.  Module [F64] is the arithmetic of [f64] the numeric
    operations use, on bit patterns, by the IEEE 754 functions of the Standard Library; Module
    [Update] is the file; Module [UpdateProperties] shows that the arithmetic is exact
    wherever the result is a JSON integer, that an operation that is refused changes nothing
    and is reported under its index, and what an accepted operation at a path leaves alone. *)

From Stdlib Require Import Ascii ZArith Lia SpecFloat.
From S2P Require Import Prelude Json.

(** ** Binary64 by its bits *)

Module F64.

Definition prec : Z := 53.
Definition emax : Z := 1024.

Definition of_bits (b : Z) : spec_float :=
  let s := Z.testbit b 63 in
  let ex := Z.land (Z.shiftr b 52) 2047 in
  let m := Z.land b (2 ^ 52 - 1) in
  if (ex =? 2047)%Z then (if (m =? 0)%Z then S754_infinity s else S754_nan)
  else if (ex =? 0)%Z then
    match m with Zpos p => S754_finite s p (-1074) | _ => S754_zero s end
  else match (m + 2 ^ 52)%Z with Zpos p => S754_finite s p (ex - 1075) | _ => S754_nan end.

Definition sign_bit (s : bool) : Z := if s then (2 ^ 63)%Z else 0%Z.

(** The bits of a finite number; [None] for an infinity or a NaN. *)
Definition to_bits (x : spec_float) : option Z :=
  match x with
  | S754_zero s => Some (sign_bit s)
  | S754_finite s m e =>
      if (Zpos m <? 2 ^ 52)%Z then Some (sign_bit s + Zpos m)%Z
      else Some (sign_bit s + Z.shiftl (e + 1075) 52 + (Zpos m - 2 ^ 52))%Z
  | _ => None
  end.

(** [z as f64]: rounded to the nearest, ties to even. *)
Definition of_int (z : Z) : spec_float := binary_normalize prec emax z 0 false.

Definition add (x y : spec_float) : spec_float := SFadd prec emax x y.
Definition sub (x y : spec_float) : spec_float := SFsub prec emax x y.

End F64.

(** ** The operations *)

Module Update.

(** [iii_helpers::stream::MergePath] and [UpdateOp], as the match of [apply_update_ops] has them. *)
Inductive MergePath : Type :=
| Single (s : string)
| Segments (l : list string).

Inductive UpdateOp : Type :=
| OpSet (path : string) (value : option Value)
| OpMerge (path : option MergePath) (value : Value)
| OpIncrement (path : string) (by_ : Z)
| OpDecrement (path : string) (by_ : Z)
| OpAppend (path : option MergePath) (value : Value)
| OpRemove (path : string).

Record UpdateOpError : Type := mk_err {
  op_index : nat;
  code : string;
  message : string;
  doc_url : option string;
}.

Definition MAX_PATH_DEPTH : nat := 32.
Definition MAX_SEGMENT_BYTES : nat := 256.
Definition MAX_VALUE_DEPTH : nat := 16.
Definition MAX_VALUE_KEYS : nat := 1024.

Definition PROTO_POLLUTION_KEYS : list string := ["__proto__"; "constructor"; "prototype"].

Definition ERR_PATH_TOO_DEEP : string := "merge.path.too_deep".
Definition ERR_SEGMENT_TOO_LONG : string := "merge.path.segment_too_long".
Definition ERR_EMPTY_SEGMENT : string := "merge.path.empty_segment".
Definition ERR_PATH_PROTO : string := "merge.path.proto_polluted".
Definition ERR_VALUE_TOO_DEEP : string := "merge.value.too_deep".
Definition ERR_VALUE_TOO_MANY_KEYS : string := "merge.value.too_many_keys".
Definition ERR_VALUE_PROTO : string := "merge.value.proto_polluted".
Definition ERR_VALUE_NOT_OBJECT : string := "merge.value.not_an_object".
Definition ERR_SET_TARGET_NOT_OBJECT : string := "set.target_not_object".
Definition ERR_APPEND_TARGET_NOT_OBJECT : string := "append.target_not_object".
Definition ERR_APPEND_TYPE_MISMATCH : string := "append.type_mismatch".
Definition ERR_INCREMENT_TARGET_NOT_OBJECT : string := "increment.target_not_object".
Definition ERR_INCREMENT_NOT_NUMBER : string := "increment.not_number".
Definition ERR_DECREMENT_TARGET_NOT_OBJECT : string := "decrement.target_not_object".
Definition ERR_DECREMENT_NOT_NUMBER : string := "decrement.not_number".
Definition ERR_REMOVE_TARGET_NOT_OBJECT : string := "remove.target_not_object".

Definition DOC_URL_BASE : string := "https://workers.iii.dev/workers/iii-state#error-codes".

Definition err (i : nat) (c m : string) : UpdateOpError := mk_err i c m (Some DOC_URL_BASE).

Definition merge_path_segments (path : option MergePath) : list string :=
  match path with
  | None => []
  | Some (Single s) => if is_empty s then [] else [s]
  | Some (Segments v) => v
  end.

Definition field_path_segments (path : string) : list string := if is_empty path then [] else [path].

Definition path_error_code (op_name reason : string) : string :=
  if bool_decide (op_name = "merge") && bool_decide (reason = "too_deep") then ERR_PATH_TOO_DEEP
  else if bool_decide (op_name = "merge") && bool_decide (reason = "segment_too_long") then ERR_SEGMENT_TOO_LONG
  else if bool_decide (op_name = "merge") && bool_decide (reason = "empty_segment") then ERR_EMPTY_SEGMENT
  else if bool_decide (op_name = "merge") && bool_decide (reason = "proto_polluted") then ERR_PATH_PROTO
  else op_name +:+ ".path." +:+ reason.

(** The loop over the segments: the first one that is refused. *)
Fixpoint check_segments (op_name : string) (i : nat) (segments : list string) : option UpdateOpError :=
  match segments with
  | [] => None
  | seg :: rest =>
      if is_empty seg then Some (err i (path_error_code op_name "empty_segment") "Path contains an empty segment")
      else if MAX_SEGMENT_BYTES <? String.length seg then
        Some (err i (path_error_code op_name "segment_too_long")
          ("Path segment of " +:+ show_nat (String.length seg) +:+ " bytes exceeds maximum of " +:+ show_nat MAX_SEGMENT_BYTES))
      else if bool_decide (seg ∈ PROTO_POLLUTION_KEYS) then
        Some (err i (path_error_code op_name "proto_polluted")
          ("Path segment '" +:+ seg +:+ "' is not allowed (prototype pollution)."))
      else check_segments op_name i rest
  end.

(** The error a path is refused with, if it is. *)
Definition validate_op_path (op_name : string) (i : nat) (segments : list string) : option UpdateOpError :=
  if MAX_PATH_DEPTH <? length segments then
    Some (err i (path_error_code op_name "too_deep")
      ("Path depth " +:+ show_nat (length segments) +:+ " exceeds maximum of " +:+ show_nat MAX_PATH_DEPTH))
  else check_segments op_name i segments.

Definition validate_merge_path (i : nat) (segments : list string) : option UpdateOpError :=
  validate_op_path "merge" i segments.

Fixpoint json_depth (v : Value) : nat :=
  match v with
  | Obj m => 1 + foldr Nat.max 0 (map (λ p, json_depth p.2) m)
  | Arr l => 1 + foldr Nat.max 0 (map json_depth l)
  | _ => 0
  end.

Definition validate_merge_value (i : nat) (value : Value) : option UpdateOpError :=
  match value with
  | Obj m =>
      if MAX_VALUE_KEYS <? length m then
        Some (err i ERR_VALUE_TOO_MANY_KEYS ("Merge value has " +:+ show_nat (length m)
          +:+ " top-level keys, exceeds maximum of " +:+ show_nat MAX_VALUE_KEYS))
      else match find (λ k, bool_decide (k ∈ PROTO_POLLUTION_KEYS)) (obj_keys m) with
      | Some k => Some (err i ERR_VALUE_PROTO ("Merge value top-level key " +:+ dq +:+ k +:+ dq
          +:+ " is a prototype-pollution sink"))
      | None =>
          let depth := json_depth value in
          if MAX_VALUE_DEPTH <? depth then
            Some (err i ERR_VALUE_TOO_DEEP ("Merge value JSON nesting depth " +:+ show_nat depth
              +:+ " exceeds maximum of " +:+ show_nat MAX_VALUE_DEPTH))
          else None
      end
  | _ => Some (err i ERR_VALUE_NOT_OBJECT "Merge value must be a JSON object")
  end.

(** The members of a value that is replaced by an empty object when it is not one. *)
Definition members (v : Value) : Fields := match v with Obj m => m | _ => [] end.

(** [walk_or_create]: what the caller does with the borrowed map of the target is [k]; every
    value on the way that is missing or not an object becomes an object. *)
Fixpoint walk_or_create {R : Type} (segments : list string) (k : Fields -> R * Fields) (current : Value) : R * Value :=
  let m := members current in
  match segments with
  | [] => let '(r, m1) := k m in (r, Obj m1)
  | seg :: rest =>
      let '(r, entry) := walk_or_create rest k (default (Obj []) (obj_get seg m)) in
      (r, Obj (obj_insert seg entry m))
  end.

Definition json_type_name (v : Value) : string :=
  match v with
  | Null => "null"
  | Bool _ => "boolean"
  | Num _ => "number"
  | Str _ => "string"
  | Arr _ => "array"
  | Obj _ => "object"
  end.

Definition path_label (path : string) : string := if is_empty path then "root" else path.

Definition path_label_segments (segments : list string) : string :=
  match segments with [] => "root" | _ => "[" +:+ join ", " segments +:+ "]" end.

(** *** Numbers *)

Definition as_i64 (v : Value) : option Z :=
  match v with
  | Num (PosInt n) => if (n <=? i64_max)%Z then Some n else None
  | Num (NegInt n) => Some n
  | _ => None
  end.

(** [Number::from] on an [i64]. *)
Definition num_i64 (z : Z) : Value := enc_i64 z.

Definition checked_i64 (z : Z) : option Z := if ((i64_min <=? z) && (z <=? i64_max))%Z then Some z else None.
Definition checked_u64 (z : Z) : option Z := if ((0 <=? z) && (z <=? u64_max))%Z then Some z else None.

(** [increment_number] adds and [decrement_number] subtracts; [op] and [fop] are the addition
    or the subtraction on integers and on [f64]. *)
Definition step_number (op : Z -> Z -> Z) (fop : spec_float -> spec_float -> spec_float) (v : Value) (by_ : Z)
  : option Value :=
  match match as_i64 v with Some num => checked_i64 (op num by_) | None => None end with
  | Some sum => Some (num_i64 sum)
  | None =>
      match as_u64 v with
      | Some num => (λ n, Num (PosInt n)) <$> checked_u64 (op num by_)
      | None =>
          match v with
          | Num (Float b) => (λ b, Num (Float b)) <$> F64.to_bits (fop (F64.of_bits b) (F64.of_int by_))
          | _ => None
          end
      end
  end.

Definition increment_number (v : Value) (by_ : Z) : option Value := step_number Z.add F64.add v by_.
Definition decrement_number (v : Value) (by_ : Z) : option Value := step_number Z.sub F64.sub v by_.

(** [-by] as an [i64], or as a [u64] when [by] is the least [i64]. *)
Definition missing_decrement_value (by_ : Z) : Value :=
  match checked_i64 (- by_) with Some n => num_i64 n | None => Num (PosInt (Z.abs by_)) end.

(** *** Appending *)

Definition initial_append_value (v : Value) : Value := if is_string v then v else Arr [v].

(** The new target, or the error. *)
Definition append_to_target (target value : Value) (path : string) (i : nat) : result Value UpdateOpError :=
  match target with
  | Arr items => Ok (Arr (items ++ [value]))
  | Str existing =>
      match as_str value with
      | Some chunk => Ok (Str (existing +:+ chunk))
      | None => Err (err i ERR_APPEND_TYPE_MISMATCH
          ("Expected string append value at path '" +:+ path_label path +:+ "', got " +:+ json_type_name value +:+ "."))
      end
  | Null => Ok (initial_append_value value)
  | _ => Err (err i ERR_APPEND_TYPE_MISMATCH
      ("Cannot append at path '" +:+ path_label path +:+ "': target is " +:+ json_type_name target
        +:+ ", expected array, string, null, or missing field."))
  end.

(** What happens to the member [leaf] of the borrowed map: an existing one is appended to, a
    missing one becomes [fresh]. *)
Definition append_leaf (leaf : string) (value fresh : Value) (i : nat) (m : Fields) : option UpdateOpError * Fields :=
  match obj_get leaf m with
  | Some existing =>
      match append_to_target existing value leaf i with
      | Ok v => (None, obj_insert leaf v m)
      | Err e => (Some e, m)
      end
  | None => (None, obj_insert leaf fresh m)
  end.

(** *** The operations *)

(** The state of the loop: [current] and [using_missing_default]. *)
Record Cursor : Type := mk_cur { current : Value; missing : bool }.

Definition not_object (verb c : string) (i : nat) (path : string) (v : Value) : UpdateOpError :=
  err i c ("Cannot " +:+ verb +:+ " at path '" +:+ path +:+ "': target is " +:+ json_type_name v +:+ ", expected object.").

Definition not_number (c : string) (i : nat) (path : string) (v : Value) : UpdateOpError :=
  err i c ("Expected number at path '" +:+ path_label path +:+ "', got " +:+ json_type_name v +:+ ".").

Definition op_set (i : nat) (path : string) (value : option Value) (c : Cursor) : option UpdateOpError * Cursor :=
  match validate_op_path "set" i (field_path_segments path) with
  | Some e => (Some e, c)
  | None =>
      if is_empty path then (None, mk_cur (default Null value) false)
      else match current c with
           | Obj m => (None, mk_cur (Obj (obj_insert path (default Null value) m)) false)
           | v => (Some (not_object "set" ERR_SET_TARGET_NOT_OBJECT i (path_label path) v), c)
           end
  end.

(** [for (k, v) in new_map { target.insert(k, v) }]. *)
Definition merge_members (new_map m : Fields) : Fields := foldl (λ acc p, obj_insert p.1 p.2 acc) m new_map.

Definition op_merge (i : nat) (path : option MergePath) (value : Value) (c : Cursor) : option UpdateOpError * Cursor :=
  let segments := merge_path_segments path in
  match validate_merge_path i segments with
  | Some e => (Some e, c)
  | None =>
      match validate_merge_value i value with
      | Some e => (Some e, c)
      | None =>
          match value with
          | Obj new_map =>
              match segments with
              | [] => match current c with
                      | Obj existing => (None, mk_cur (Obj (merge_members new_map existing)) false)
                      | _ => (None, c)
                      end
              | _ => (None, mk_cur (walk_or_create segments (λ m, (tt, merge_members new_map m)) (current c)).2 false)
              end
          | _ => (None, c)
          end
      end
  end.

(** [Increment] and [Decrement] differ in their names, in the arithmetic and in the value a
    missing target starts from. *)
Definition op_number (name verb not_obj not_num : string) (start : Z -> Value) (num : Value -> Z -> option Value)
    (i : nat) (path : string) (by_ : Z) (c : Cursor) : option UpdateOpError * Cursor :=
  match validate_op_path name i (field_path_segments path) with
  | Some e => (Some e, c)
  | None =>
      if is_empty path then
        if missing c then (None, mk_cur (start by_) false)
        else match num (current c) by_ with
             | Some updated => (None, mk_cur updated false)
             | None => (Some (not_number not_num i path (current c)), c)
             end
      else match current c with
           | Obj m =>
               match obj_get path m with
               | Some existing =>
                   match num existing by_ with
                   | Some updated => (None, mk_cur (Obj (obj_insert path updated m)) false)
                   | None => (Some (not_number not_num i path existing), c)
                   end
               | None => (None, mk_cur (Obj (obj_insert path (start by_) m)) false)
               end
           | v => (Some (not_object verb not_obj i (path_label path) v), c)
           end
  end.

Definition op_increment : nat -> string -> Z -> Cursor -> option UpdateOpError * Cursor :=
  op_number "increment" "increment" ERR_INCREMENT_TARGET_NOT_OBJECT ERR_INCREMENT_NOT_NUMBER num_i64 increment_number.

Definition op_decrement : nat -> string -> Z -> Cursor -> option UpdateOpError * Cursor :=
  op_number "decrement" "decrement" ERR_DECREMENT_TARGET_NOT_OBJECT ERR_DECREMENT_NOT_NUMBER missing_decrement_value
    decrement_number.

Definition op_append (i : nat) (path : option MergePath) (value : Value) (c : Cursor) : option UpdateOpError * Cursor :=
  let segments := merge_path_segments path in
  match validate_op_path "append" i segments with
  | Some e => (Some e, c)
  | None =>
      match segments with
      | [] =>
          let target := if missing c then Null else current c in
          match append_to_target target value "root" i with
          | Ok v => (None, mk_cur v false)
          | Err e => (Some e, mk_cur target (missing c))
          end
      | [leaf_key] =>
          match current c with
          | Obj m =>
              let '(e, m1) := append_leaf leaf_key value (initial_append_value value) i m in
              (e, mk_cur (Obj m1) false)
          | v => (Some (not_object "append" ERR_APPEND_TARGET_NOT_OBJECT i (path_label_segments segments) v), c)
          end
      | first :: _ =>
          match current c with
          | Obj _ =>
              let leaf_key := List.last segments first in
              let '(e, v) := walk_or_create (removelast segments)
                               (append_leaf leaf_key value (Arr [value]) i) (current c) in
              (e, mk_cur v false)
          | v => (Some (not_object "append" ERR_APPEND_TARGET_NOT_OBJECT i (path_label_segments segments) v), c)
          end
      end
  end.

Definition op_remove (i : nat) (path : string) (c : Cursor) : option UpdateOpError * Cursor :=
  match validate_op_path "remove" i (field_path_segments path) with
  | Some e => (Some e, c)
  | None =>
      if is_empty path then (None, mk_cur Null false)
      else match current c with
           | Obj m => (None, mk_cur (Obj (obj_remove path m)) false)
           | v => (Some (not_object "remove" ERR_REMOVE_TARGET_NOT_OBJECT i (path_label path) v), c)
           end
  end.

(** One turn of the loop: the error it pushes, if any, and the cursor. *)
Definition apply_op (i : nat) (op : UpdateOp) (c : Cursor) : option UpdateOpError * Cursor :=
  match op with
  | OpSet path value => op_set i path value c
  | OpMerge path value => op_merge i path value c
  | OpIncrement path by_ => op_increment i path by_ c
  | OpDecrement path by_ => op_decrement i path by_ c
  | OpAppend path value => op_append i path value c
  | OpRemove path => op_remove i path c
  end.

Fixpoint apply_ops (i : nat) (ops : list UpdateOp) (c : Cursor) (errors : list UpdateOpError)
  : Cursor * list UpdateOpError :=
  match ops with
  | [] => (c, errors)
  | op :: rest =>
      let '(e, c1) := apply_op i op c in
      apply_ops (S i) rest c1 (errors ++ match e with Some e => [e] | None => [] end)
  end.

Definition start_cursor (old : option Value) : Cursor :=
  mk_cur (default (Obj []) old) (match old with None => true | Some _ => false end).

Definition apply_update_ops (old_value : option Value) (ops : list UpdateOp) : Value * list UpdateOpError :=
  let '(c, errors) := apply_ops 0 ops (start_cursor old_value) [] in (current c, errors).

End Update.

(** ** Properties *)

Module UpdateProperties.
Import Update.

(** *** Arithmetic *)

Lemma enc_i64_PosInt z : (0 <= z)%Z -> enc_i64 z = Num (PosInt z).
Proof. intros Hz. unfold enc_i64. by rewrite (proj2 (Z.leb_le 0 z)). Qed.

Lemma enc_i64_NegInt z : (z < 0)%Z -> enc_i64 z = Num (NegInt z).
Proof. intros Hz. unfold enc_i64. by rewrite (proj2 (Z.leb_gt 0 z)). Qed.

(** The JSON integers: what a [u64] or an [i64] can hold. *)
Definition json_int (z : Z) : Prop := (i64_min <= z <= u64_max)%Z.

#[export] Instance json_int_dec z : Decision (json_int z).
Proof. unfold json_int. apply _. Defined.

Lemma step_number_exact op fop n by_ :
  json_int n -> (i64_min <= by_ <= i64_max)%Z ->
  (op n by_ = n + by_ \/ op n by_ = n - by_)%Z ->
  step_number op fop (enc_i64 n) by_ = if decide (json_int (op n by_)) then Some (enc_i64 (op n by_)) else None.
Proof.
  unfold json_int, i64_min, i64_max, u64_max. intros Hn Hb Hop.
  unfold step_number, checked_i64, checked_u64, num_i64, i64_min, i64_max, u64_max.
  destruct (Z.le_gt_cases 0 n) as [H0|H0].
  - rewrite (enc_i64_PosInt n) by done. cbn [as_i64 as_u64]. unfold i64_max.
    destruct (Z.leb_spec n (2 ^ 63 - 1)) as [H1|H1].
    + destruct (Z.leb_spec (- 2 ^ 63) (op n by_)), (Z.leb_spec (op n by_) (2 ^ 63 - 1)); cbn [andb].
      1: by rewrite decide_True by lia.
      1: rewrite (proj2 (Z.leb_le 0 _)), (proj2 (Z.leb_le _ (2 ^ 64 - 1))), decide_True, enc_i64_PosInt by lia; done.
      all: lia.
    + destruct (Z.leb_spec 0 (op n by_)), (Z.leb_spec (op n by_) (2 ^ 64 - 1)); cbn [andb]; try lia.
      * by rewrite decide_True, enc_i64_PosInt by lia.
      * by rewrite decide_False by lia.
  - rewrite (enc_i64_NegInt n) by done. cbn [as_i64 as_u64].
    destruct (Z.leb_spec (- 2 ^ 63) (op n by_)), (Z.leb_spec (op n by_) (2 ^ 63 - 1)); cbn [andb]; try lia.
    + by rewrite decide_True by lia.
    + by rewrite decide_False by lia.
Qed.

(** [increment] and [decrement] compute the exact sum or difference of JSON integers
    whenever that is a JSON integer (between the least [i64] and the greatest [u64], whichever
    of the two types held the operand) and refuse otherwise, and they start a missing number at
    exactly [by] and [-by]; so an accepted increment is undone by the same decrement. *)
Theorem integer_updates_exact n by_ :
  json_int n -> (i64_min <= by_ <= i64_max)%Z ->
  increment_number (enc_i64 n) by_ = (if decide (json_int (n + by_)) then Some (enc_i64 (n + by_)) else None) /\
  decrement_number (enc_i64 n) by_ = (if decide (json_int (n - by_)) then Some (enc_i64 (n - by_)) else None) /\
  missing_decrement_value by_ = enc_i64 (- by_) /\
  (forall v, increment_number (enc_i64 n) by_ = Some v -> decrement_number v by_ = Some (enc_i64 n)).
Proof.
  intros Hn Hb.
  assert (increment_number (enc_i64 n) by_ = if decide (json_int (n + by_)) then Some (enc_i64 (n + by_)) else None)
    as Hinc by (apply step_number_exact; auto).
  split_and!; [done|apply step_number_exact; auto| |].
  - unfold missing_decrement_value, checked_i64, num_i64. unfold i64_min, i64_max in *.
    destruct (Z.leb_spec (- 2 ^ 63) (- by_)), (Z.leb_spec (- by_) (2 ^ 63 - 1)); cbn [andb]; try lia; [done|].
    rewrite enc_i64_PosInt by lia. do 2 f_equal. lia.
  - intros v. rewrite Hinc. case_decide as Hs; [|done]. intros [= <-].
    unfold decrement_number. rewrite step_number_exact by auto.
    replace (n + by_ - by_)%Z with n by lia. by rewrite decide_True.
Qed.

Lemma integer_updates_exact_witness :
  json_int u64_max /\ increment_number (enc_i64 i64_max) 1 = Some (enc_i64 (i64_max + 1)) /\
  increment_number (enc_i64 u64_max) 1 = None.
Proof.
  assert (json_int u64_max /\ json_int i64_max) as [H1 H2] by (vm_compute; split; split; discriminate).
  assert (i64_min <= 1 <= i64_max)%Z as Hb by (vm_compute; split; discriminate).
  split; [exact H1|]. split.
  - destruct (integer_updates_exact i64_max 1 H2 Hb) as [He _]. rewrite He. reflexivity.
  - destruct (integer_updates_exact u64_max 1 H1 Hb) as [He _]. rewrite He. reflexivity.
Defined.

(** *** Well-formed values: the members of every object are in key order, as [Map] keeps them *)

Fixpoint json_wf (v : Value) : Prop :=
  match v with
  | Arr l => foldr and True (map json_wf l)
  | Obj m => obj_sorted m /\ foldr and True (map (λ p, json_wf p.2) m)
  | _ => True
  end.

Lemma foldr_and {A} (P : A -> Prop) l : foldr and True (map P l) <-> Forall P l.
Proof. induction l as [|x l IH]; simpl; [by split|]. by rewrite Forall_cons, IH. Qed.

Lemma json_wf_arr l : json_wf (Arr l) <-> Forall json_wf l.
Proof. apply foldr_and. Qed.

Lemma json_wf_obj m : json_wf (Obj m) <-> obj_sorted m /\ Forall (λ p, json_wf p.2) m.
Proof. cbn [json_wf]. by rewrite (foldr_and (λ p : string * Value, json_wf p.2)). Qed.

Definition op_wf (op : UpdateOp) : Prop :=
  match op with
  | OpSet _ v => json_wf (default Null v)
  | OpMerge _ v | OpAppend _ v => json_wf v
  | _ => True
  end.

Lemma json_wf_get m k v : json_wf (Obj m) -> obj_get k m = Some v -> json_wf v.
Proof.
  rewrite json_wf_obj, Forall_forall. intros [_ Hf] Hg. apply obj_get_elem in Hg. by apply (Hf (k, v)).
Qed.

Lemma elem_obj_insert k v m p : p ∈ obj_insert k v m -> p = (k, v) \/ p ∈ m.
Proof.
  induction m as [|[k' v'] m IH]; simpl; [intros ->%list_elem_of_singleton; by left|].
  repeat case_match; rewrite ?elem_of_cons; intros Hp; rewrite ?elem_of_cons in Hp; naive_solver.
Qed.

Lemma json_wf_insert k v m : json_wf v -> json_wf (Obj m) -> json_wf (Obj (obj_insert k v m)).
Proof.
  rewrite !json_wf_obj, !Forall_forall. intros Hv [Hs Hf]. split; [by apply obj_keys_insert_sorted|].
  intros p [->|Hp]%elem_obj_insert; [done|]. by apply Hf.
Qed.

Lemma json_wf_remove k m : json_wf (Obj m) -> json_wf (Obj (obj_remove k m)).
Proof.
  rewrite !json_wf_obj. intros [Hs Hf]. split.
  - unfold obj_sorted, obj_keys, obj_remove in *. induction m as [|[k' v] m IH]; [constructor|].
    rewrite fmap_cons in Hs. apply StronglySorted_inv in Hs as [Hs Hh]. apply Forall_cons in Hf as [_ Hf].
    rewrite filter_cons. case_decide; [|by apply IH]. rewrite fmap_cons. constructor; [by apply IH|].
    rewrite Forall_fmap, Forall_forall in *. intros p [_ Hp]%list_elem_of_filter. by apply Hh.
  - unfold obj_remove. rewrite Forall_forall in *. intros p [_ Hp]%list_elem_of_filter. by apply Hf.
Qed.

Lemma json_wf_members v : json_wf v -> json_wf (Obj (members v)).
Proof. destruct v; try done; intros _; apply json_wf_obj; split; constructor. Qed.

Lemma json_wf_merge nm m : json_wf (Obj nm) -> json_wf (Obj m) -> json_wf (Obj (merge_members nm m)).
Proof.
  intros [_ Hf]%json_wf_obj. revert m. induction Hf as [|[k v] nm Hv Hf IH]; intros m Hm; [done|].
  simpl. apply IH. by apply json_wf_insert.
Qed.

Lemma json_wf_append target value path i v :
  json_wf target -> json_wf value -> append_to_target target value path i = Ok v -> json_wf v.
Proof.
  intros Ht Hv. destruct target; simpl; try done.
  - intros [= <-]. unfold initial_append_value. case_match; [done|]. by split.
  - by destruct (as_str value); intros [= <-].
  - intros [= <-]. apply json_wf_arr, Forall_app. split; [by apply json_wf_arr|]. by constructor.
Qed.

Lemma json_wf_initial v : json_wf v -> json_wf (initial_append_value v).
Proof. intros Hv. unfold initial_append_value. case_match; [done|]. by split. Qed.

Lemma json_wf_append_leaf leaf value fresh i m :
  json_wf value -> json_wf fresh -> json_wf (Obj m) -> json_wf (Obj (append_leaf leaf value fresh i m).2).
Proof.
  intros Hv Hf Hm. unfold append_leaf. destruct (obj_get leaf m) as [x|] eqn:Hg; [|by apply json_wf_insert].
  destruct (append_to_target x value leaf i) as [y|] eqn:Ha; [|done]. apply json_wf_insert; [|done].
  refine (json_wf_append _ _ _ _ _ _ Hv Ha). by eapply json_wf_get.
Qed.

Lemma json_wf_walk {R} segs (k : Fields -> R * Fields) v :
  (forall m, json_wf (Obj m) -> json_wf (Obj (k m).2)) -> json_wf v -> json_wf (walk_or_create segs k v).2.
Proof.
  intros Hk. revert v. induction segs as [|s segs IH]; intros v Hv; cbn [walk_or_create].
  - pose proof (Hk (members v) (json_wf_members v Hv)). by destruct (k (members v)).
  - assert (json_wf (default (Obj []) (obj_get s (members v)))) as Hd.
    { destruct (obj_get s (members v)) eqn:Hg; [|apply json_wf_obj; split; constructor].
      eapply json_wf_get; [by apply json_wf_members|done]. }
    specialize (IH _ Hd). destruct (walk_or_create segs k _) as [r e]. simpl in *.
    apply json_wf_insert; [done|]. by apply json_wf_members.
Qed.

Lemma step_number_num op fop v b x : step_number op fop v b = Some x -> exists n, x = Num n.
Proof.
  unfold step_number. destruct (match as_i64 v with Some _ => _ | None => _ end) as [s|];
    [intros [= <-]; eexists; reflexivity|].
  destruct (as_u64 v) as [n|].
  - destruct (checked_u64 _); intros [= <-]. by eexists.
  - destruct v as [| |[| |b0]| | |]; try done. destruct (F64.to_bits _); intros [= <-]. by eexists.
Qed.

(** *** One operation *)

(** The cursor of the loop: well formed, and the default value as long as it is marked so. *)
Definition cur_ok (c : Cursor) : Prop := json_wf (current c) /\ (missing c = true -> current c = Obj []).

Lemma start_cursor_ok old : json_wf (default (Obj []) old) -> cur_ok (start_cursor old).
Proof. intros Hv. split; [done|]. by destruct old. Qed.

Lemma op_number_ok name verb e1 e2 start num i path b c :
  (forall z, json_wf (start z)) -> (forall v z x, num v z = Some x -> json_wf x) -> cur_ok c ->
  cur_ok (op_number name verb e1 e2 start num i path b c).2.
Proof.
  intros Hst Hnum Hc. unfold op_number. destruct (validate_op_path _ _ _); [done|].
  destruct (is_empty path).
  { destruct (missing c); [split; [apply Hst|done]|]. destruct (num (current c) b) eqn:Hn; [|done].
    split; [|done]. exact (Hnum _ _ _ Hn). }
  destruct (current c) as [| | | | |m] eqn:Hcc; try done.
  assert (json_wf (Obj m)) as Hm by (rewrite <-Hcc; apply Hc).
  destruct (obj_get path m) as [x|] eqn:Hg.
  - destruct (num x b) eqn:Hn; [|done]. split; [|done]. apply json_wf_insert; [exact (Hnum _ _ _ Hn)|done].
  - split; [|done]. by apply json_wf_insert.
Qed.

Lemma op_append_ok i path v c : json_wf v -> cur_ok c -> cur_ok (op_append i path v c).2.
Proof.
  intros Hv Hc. unfold op_append. destruct (validate_op_path _ _ _); [done|].
  destruct (merge_path_segments path) as [|s1 [|s2 segs]].
  - destruct (missing c) eqn:Hmc.
    + split; [|done]. cbn [append_to_target]. by apply json_wf_initial.
    + destruct (append_to_target (current c) v "root" i) as [x|e] eqn:Ha; (split; [|done]).
      * exact (json_wf_append _ _ _ _ _ (proj1 Hc) Hv Ha).
      * apply Hc.
  - destruct (current c) as [| | | | |m] eqn:Hcc; try done.
    assert (json_wf (Obj m)) as Hm by (rewrite <-Hcc; apply Hc).
    pose proof (json_wf_append_leaf s1 v (initial_append_value v) i m Hv (json_wf_initial v Hv) Hm) as Hl.
    destruct (append_leaf _ _ _ _ _). by split.
  - destruct (current c) as [| | | | |m] eqn:Hcc; try done.
    assert (json_wf (Obj m)) as Hm by (rewrite <-Hcc; apply Hc).
    pose proof (json_wf_walk (removelast (s1 :: s2 :: segs))
      (append_leaf (List.last (s1 :: s2 :: segs) s1) v (Arr [v]) i) (Obj m)) as Hw.
    destruct (walk_or_create _ _ _) as [e x]. split; [|done]. simpl in *. apply Hw; [|done].
    intros m' Hm'. apply json_wf_append_leaf; [done|by split|done].
Qed.

Lemma apply_op_ok i op c : op_wf op -> cur_ok c -> cur_ok (apply_op i op c).2.
Proof.
  intros Ho Hc. assert (forall m, current c = Obj m -> json_wf (Obj m)) as Hm by (intros m <-; apply Hc).
  destruct op as [path v|path v|path b|path b|path v|path]; cbn [apply_op].
  - unfold op_set. destruct (validate_op_path _ _ _); [done|]. destruct (is_empty path); [by split|].
    destruct (current c) as [| | | | |m]; try done. split; [|done]. apply json_wf_insert; [done|by apply Hm].
  - unfold op_merge. destruct (validate_merge_path _ _); [done|]. destruct (validate_merge_value _ _); [done|].
    destruct v as [| | | | |nm]; try done. destruct (merge_path_segments path) as [|s segs].
    + destruct (current c) as [| | | | |m]; try done. split; [|done]. apply json_wf_merge; [done|by apply Hm].
    + split; [|done]. apply json_wf_walk; [|apply Hc]. intros m Hm'. by apply json_wf_merge.
  - apply op_number_ok; [done| |done]. intros x z y [n ->]%step_number_num. done.
  - apply op_number_ok; [| |done].
    + intros z. unfold missing_decrement_value. by case_match.
    + intros x z y [n ->]%step_number_num. done.
  - by apply op_append_ok.
  - unfold op_remove. destruct (validate_op_path _ _ _); [done|]. destruct (is_empty path); [by split|].
    destruct (current c) as [| | | | |m]; try done. split; [|done]. apply json_wf_remove. by apply Hm.
Qed.

Lemma obj_insert_id k v m : obj_sorted m -> obj_get k m = Some v -> obj_insert k v m = m.
Proof.
  unfold obj_sorted. induction m as [|[k' v'] m IH]; simpl; intros Hs Hg; [done|].
  apply StronglySorted_inv in Hs as [Hs Hf]. case_decide as Hk; [by simplify_eq|].
  rewrite IH by done. destruct (String.leb k k') eqn:Hle; [|done]. exfalso.
  rewrite Forall_forall in Hf. destruct (Hf k) as [Hlt Hne]; [apply obj_get_is_Some; by eexists|].
  apply Hne. apply (anti_symm String.le); [done|]. by apply Is_true_true.
Qed.

(** A refused append at the end of a walk has walked through objects that were there. *)
Lemma walk_refused segs leaf value fresh i m e v :
  json_wf (Obj m) -> walk_or_create segs (append_leaf leaf value fresh i) (Obj m) = (Some e, v) ->
  v = Obj m /\ m <> [].
Proof.
  revert m v. induction segs as [|s segs IH]; intros m v Hm; cbn [walk_or_create members].
  - unfold append_leaf. destruct (obj_get leaf m) as [x|] eqn:Hg; [|done].
    destruct (append_to_target x value leaf i); [done|]. intros [= _ <-]. split; [done|]. by intros ->.
  - destruct (obj_get s m) as [x|] eqn:Hg; simpl.
    + destruct x as [| | | | |m'].
      6: { destruct (walk_or_create segs _ (Obj m')) as [r y] eqn:Hw. intros [= -> <-].
           apply IH in Hw as [-> _]; [|by eapply json_wf_get]. split; [|by intros ->].
           f_equal. apply obj_insert_id; [|done]. apply json_wf_obj in Hm. apply Hm. }
      all: destruct (walk_or_create segs _ _) as [r y] eqn:Hw; intros [= -> <-]; exfalso;
        enough (walk_or_create segs (append_leaf leaf value fresh i) (Obj []) = (Some e, y)) as Hw';
        [apply IH in Hw' as [_ ?]; [done|apply json_wf_obj; split; constructor]|];
        rewrite <-Hw; destruct segs; done.
    + destruct (walk_or_create segs _ (Obj [])) as [r y] eqn:Hw. intros [= -> <-].
      apply IH in Hw as [_ ?]; [done|]. apply json_wf_obj; split; constructor.
Qed.

(** An operation that reports an error leaves the cursor as it was. *)
Lemma apply_op_refused i op c e c' : cur_ok c -> apply_op i op c = (Some e, c') -> c' = c.
Proof.
  intros [Hv Hm]. destruct c as [v md]. simpl in Hv, Hm.
  destruct op as [path x|path x|path b|path b|path x|path]; cbn [apply_op].
  - unfold op_set. repeat case_match; congruence.
  - unfold op_merge. repeat case_match; congruence.
  - unfold op_increment, op_number. repeat case_match; congruence.
  - unfold op_decrement, op_number. repeat case_match; congruence.
  - unfold op_append. simpl. destruct (validate_op_path _ _ _); [congruence|].
    destruct (merge_path_segments path) as [|s1 [|s2 segs]].
    + destruct md; [done|]. destruct (append_to_target v x "root" i); congruence.
    + destruct v as [| | | | |m]; try congruence. unfold append_leaf.
      destruct (obj_get s1 m) as [y|] eqn:Hg; [|done]. destruct (append_to_target y x s1 i); [done|].
      intros [= _ <-]. destruct md; [|done]. specialize (Hm eq_refl) as [= ->]. done.
    + destruct v as [| | | | |m]; try congruence.
      destruct (walk_or_create _ _ _) as [r y] eqn:Hw. intros [= -> <-].
      apply walk_refused in Hw as [-> Hne]; [|done]. destruct md; [|done]. specialize (Hm eq_refl) as [= ->]. done.
  - unfold op_remove. repeat case_match; congruence.
Qed.

(** *** The place of an operation in the list only names its error *)

Definition at_index (j : nat) (e : UpdateOpError) : UpdateOpError := mk_err j (code e) (message e) (doc_url e).

Lemma validate_op_path_index i j name segs :
  validate_op_path name j segs = at_index j <$> validate_op_path name i segs.
Proof.
  unfold validate_op_path. destruct (MAX_PATH_DEPTH <? length segs); [done|].
  induction segs as [|s segs IH]; [done|]. cbn [check_segments]. by repeat (case_match; [done|]).
Qed.

Lemma validate_merge_value_index i j v : validate_merge_value j v = at_index j <$> validate_merge_value i v.
Proof. unfold validate_merge_value. by repeat case_match. Qed.

Lemma append_to_target_index i j t v path :
  append_to_target t v path j =
  match append_to_target t v path i with Ok x => Ok x | Err e => Err (at_index j e) end.
Proof. unfold append_to_target. by repeat case_match. Qed.

Lemma append_leaf_index i j leaf v fresh m :
  append_leaf leaf v fresh j m = (at_index j <$> (append_leaf leaf v fresh i m).1, (append_leaf leaf v fresh i m).2).
Proof.
  unfold append_leaf. destruct (obj_get leaf m); [|done]. rewrite (append_to_target_index i).
  by destruct (append_to_target _ _ _ i).
Qed.

Lemma walk_map {R S} (f : R -> S) segs (k : Fields -> R * Fields) (k' : Fields -> S * Fields) v :
  (forall m, k' m = (f (k m).1, (k m).2)) ->
  walk_or_create segs k' v = (f (walk_or_create segs k v).1, (walk_or_create segs k v).2).
Proof.
  intros Hk. revert v. induction segs as [|s segs IH]; intros v; cbn [walk_or_create].
  - rewrite Hk. by destruct (k (members v)).
  - rewrite IH. by destruct (walk_or_create segs k _).
Qed.

Lemma apply_op_index i j op c :
  apply_op j op c = (at_index j <$> (apply_op i op c).1, (apply_op i op c).2).
Proof.
  destruct op as [path x|path x|path b|path b|path x|path]; cbn [apply_op].
  - unfold op_set. rewrite (validate_op_path_index i). by repeat (case_match; simplify_eq/=).
  - unfold op_merge, validate_merge_path. rewrite (validate_op_path_index i), (validate_merge_value_index i).
    by repeat (case_match; simplify_eq/=).
  - unfold op_increment, op_number. rewrite (validate_op_path_index i). by repeat (case_match; simplify_eq/=).
  - unfold op_decrement, op_number. rewrite (validate_op_path_index i). by repeat (case_match; simplify_eq/=).
  - unfold op_append. rewrite (validate_op_path_index i). destruct (validate_op_path _ i _); [done|]. simpl.
    destruct (merge_path_segments path) as [|s1 [|s2 segs]].
    + rewrite (append_to_target_index i). by destruct (append_to_target _ _ _ i).
    + destruct (current c); try done. rewrite (append_leaf_index i). by destruct (append_leaf _ _ _ i _).
    + destruct (current c); try done.
      rewrite (walk_map (fmap (at_index j)) _ (append_leaf (List.last (s1 :: s2 :: segs) s1) x (Arr [x]) i))
        by (intros m; apply append_leaf_index).
      by destruct (walk_or_create _ _ _).
  - unfold op_remove. rewrite (validate_op_path_index i). by repeat (case_match; simplify_eq/=).
Qed.

Lemma apply_op_error_index i op c e : (apply_op i op c).1 = Some e -> op_index e = i.
Proof. rewrite (apply_op_index i i). destruct (apply_op i op c).1; simpl; intros [= <-]; done. Qed.

Lemma apply_ops_errors i ops c es : apply_ops i ops c es = ((apply_ops i ops c []).1, es ++ (apply_ops i ops c []).2).
Proof.
  revert i c es. induction ops as [|op ops IH]; intros i c es; simpl; [by rewrite app_nil_r|].
  destruct (apply_op i op c) as [e c1]. rewrite IH. rewrite (IH (S i) c1 (match e with Some e0 => [e0] | None => [] end)).
  simpl. by rewrite app_assoc.
Qed.

(** The operations whose index is not among [bad]. *)
Fixpoint accepted (bad : list nat) (i : nat) (ops : list UpdateOp) : list UpdateOp :=
  match ops with
  | [] => []
  | op :: rest => if decide (i ∈ bad) then accepted bad (S i) rest else op :: accepted bad (S i) rest
  end.

Lemma accepted_irrelevant bad bad' i ops :
  (forall j, i <= j -> j ∈ bad <-> j ∈ bad') -> accepted bad i ops = accepted bad' i ops.
Proof.
  revert i. induction ops as [|op ops IH]; intros i Hb; simpl; [done|].
  rewrite (IH (S i)) by (intros j Hj; apply Hb; lia).
  repeat case_decide; try done; exfalso; by apply Hb in H || by apply Hb in H0.
Qed.

Lemma errors_bounded i ops c e : e ∈ (apply_ops i ops c []).2 -> i <= op_index e < i + length ops.
Proof.
  revert i c. induction ops as [|op ops IH]; intros i c; simpl; [by intros ?%elem_of_nil|].
  pose proof (apply_op_error_index i op c) as Hi. destruct (apply_op i op c) as [o c1]. simpl in Hi.
  rewrite apply_ops_errors. simpl. rewrite elem_of_app. intros [Ho|Ho].
  - destruct o as [e'|]; [|by apply elem_of_nil in Ho]. apply list_elem_of_singleton in Ho as ->.
    rewrite (Hi e' eq_refl). lia.
  - apply IH in Ho. lia.
Qed.

Lemma accepted_run i j ops c :
  Forall op_wf ops -> cur_ok c ->
  let '(c', es) := apply_ops i ops c [] in
  StronglySorted lt (op_index <$> es) /\ apply_ops j (accepted (op_index <$> es) i ops) c [] = (c', []) /\ cur_ok c'.
Proof.
  intros Hw. revert i j c. induction Hw as [|op ops Ho Hw IH]; intros i j c Hc; simpl; [split; [constructor|by split]|].
  pose proof (apply_op_ok i op c Ho Hc) as Hc1. pose proof (apply_op_error_index i op c) as Hi.
  pose proof (apply_op_refused i op c) as Hr. pose proof (apply_op_index i j op c) as Hj.
  destruct (apply_op i op c) as [o c1]. simpl in *. rewrite apply_ops_errors.
  pose proof (errors_bounded (S i) ops c1) as Hb.
  destruct o as [e|]; simpl.
  - specialize (IH (S i) j c1 Hc1). specialize (Hi e eq_refl). specialize (Hr e c1 Hc eq_refl). subst c1.
    destruct (apply_ops (S i) ops c []) as [c' es]. simpl in *. rewrite decide_True by (rewrite Hi; by left).
    destruct IH as (Hs & Hrun & Hok). split_and!; [|rewrite <-Hrun; f_equal; apply accepted_irrelevant|done].
    + constructor; [done|]. rewrite Forall_fmap, Forall_forall. intros e' He'. simpl. specialize (Hb e' He'). lia.
    + intros k Hk. rewrite elem_of_cons. split; [intros [->|?]; [lia|done]|by right].
  - specialize (IH (S i) (S j) c1 Hc1). destruct (apply_ops (S i) ops c1 []) as [c' es]. simpl in *.
    destruct IH as (Hs & Hrun & Hok). rewrite decide_False.
    + simpl. rewrite Hj. simpl. rewrite Hrun. by split_and!.
    + intros (e & He & Hin)%list_elem_of_fmap. specialize (Hb e Hin). lia.
Qed.

(** A refused operation is skipped: every error names the operation it refused, at most
    one each and in their order, and the outcome is exactly that of the operations that were
    not refused, which on their own all succeed; the value stays well formed. *)
Theorem refused_updates_skipped old ops v es :
  json_wf (default (Obj []) old) -> Forall op_wf ops -> apply_update_ops old ops = (v, es) ->
  StronglySorted lt (op_index <$> es) /\ Forall (λ e, op_index e < length ops) es /\
  apply_update_ops old (accepted (op_index <$> es) 0 ops) = (v, []) /\ json_wf v.
Proof.
  intros Hv Hw Happ. unfold apply_update_ops in *.
  pose proof (accepted_run 0 0 ops (start_cursor old) Hw (start_cursor_ok old Hv)) as Hrun.
  pose proof (errors_bounded 0 ops (start_cursor old)) as Hb.
  destruct (apply_ops 0 ops (start_cursor old) []) as [c es']. injection Happ as <- <-. simpl in Hb.
  destruct Hrun as (Hs & Hr & Hok). rewrite Hr. split_and!; [done| |done|apply Hok].
  apply Forall_forall. intros e He. apply Hb in He. lia.
Qed.

Definition sample_ops : list UpdateOp :=
  [OpSet "name" (Some (Str "x")); OpIncrement "name" 1; OpAppend (Some (Segments ["a"; "b"])) Null;
   OpSet "__proto__" None; OpIncrement "hits" 2].

Lemma refused_updates_skipped_witness :
  op_index <$> (apply_update_ops None sample_ops).2 = [1; 3] /\
  apply_update_ops None (accepted [1; 3] 0 sample_ops) = ((apply_update_ops None sample_ops).1, []).
Proof.
  assert (op_index <$> (apply_update_ops None sample_ops).2 = [1; 3]) as He by (vm_compute; reflexivity).
  split; [exact He|]. destruct (apply_update_ops None sample_ops) as [v es] eqn:Ha. cbn [fst snd] in *.
  destruct (refused_updates_skipped None sample_ops v es) as (_ & _ & Hr & _).
  - split; [constructor|exact I].
  - repeat constructor.
  - exact Ha.
  - rewrite He in Hr. exact Hr.
Defined.

(** *** Paths *)

Fixpoint path_get (segs : list string) (v : Value) : option Value :=
  match segs with
  | [] => Some v
  | s :: rest => match vget s v with Some x => path_get rest x | None => None end
  end.

(** [q] leaves [segs] at a segment they have in common the place of. *)
Definition diverges (q segs : list string) : Prop :=
  exists p a b r t, q = p ++ a :: r /\ segs = p ++ b :: t /\ a <> b.

Lemma vget_members s v : vget s v = obj_get s (members v).
Proof. by destruct v. Qed.

Lemma path_get_app p q v : path_get (p ++ q) v = x ← path_get p v; path_get q x.
Proof.
  revert v. induction p as [|s p IH]; intros v; simpl; [done|]. destruct (vget s v); [apply IH|done].
Qed.

Lemma path_get_snoc segs k v : path_get (segs ++ [k]) v = x ← path_get segs v; vget k x.
Proof. rewrite path_get_app. destruct (path_get segs v); simpl; [by destruct (vget k _)|done]. Qed.

Section Walk.
Context {R : Type} (k : Fields -> R * Fields).

(** The map that is borrowed at the end of a walk. *)
Definition target (segs : list string) (v : Value) : Fields := members (default Null (path_get segs v)).

Lemma walk_value segs v : (walk_or_create segs k v).1 = (k (target segs v)).1 /\
  path_get segs (walk_or_create segs k v).2 = Some (Obj (k (target segs v)).2).
Proof.
  unfold target. revert v. induction segs as [|s segs IH]; intros v; cbn [walk_or_create path_get].
  - simpl. by destruct (k (members v)).
  - rewrite vget_members. destruct (obj_get s (members v)) as [x|]; simpl.
    + destruct (IH x) as [H1 H2]. destruct (walk_or_create segs k x) as [r e]. simpl in *.
      by rewrite obj_get_insert_eq.
    + assert (forall u, members u = [] -> members (default Null (path_get segs u)) = []) as Hm.
      { intros u Hu. destruct segs; simpl; [done|]. by rewrite vget_members, Hu. }
      destruct (IH (Obj [])) as [H1 H2]. rewrite (Hm (Obj []) eq_refl) in *.
      destruct (walk_or_create segs k (Obj [])) as [r e]. simpl in *. by rewrite obj_get_insert_eq.
Qed.

Lemma walk_frame segs q v : diverges q segs -> path_get q (walk_or_create segs k v).2 = path_get q v.
Proof.
  intros (p & a & b & r & t & -> & -> & Hne). revert v. induction p as [|s p IH]; intros v; simpl.
  - destruct (walk_or_create t k _) as [r' e]. simpl. by rewrite obj_get_insert_ne, vget_members.
  - specialize (IH (default (Obj []) (obj_get s (members v)))).
    destruct (walk_or_create (p ++ b :: t) k _) as [r' e]. simpl in *.
    rewrite obj_get_insert_eq, vget_members, IH. destruct (obj_get s (members v)); simpl; [done|].
    destruct p; reflexivity.
Qed.
End Walk.

Lemma merge_members_get nm m x : NoDup (obj_keys nm) ->
  obj_get x (merge_members nm m) = match obj_get x nm with Some v => Some v | None => obj_get x m end.
Proof.
  revert m. induction nm as [|[k v] nm IH]; intros m Hn; simpl; [done|]. apply NoDup_cons in Hn as [Hk Hn].
  rewrite IH by done. rewrite obj_get_insert. case_decide as Hx; [subst|done].
  destruct (obj_get k nm) eqn:Hg; [|done]. destruct Hk. apply obj_get_is_Some. by eexists.
Qed.

Lemma last_last_default (segs : list string) d d' : segs <> [] -> List.last segs d = List.last segs d'.
Proof. induction segs as [|s [|s' segs] IH]; [done|done|]. intros _. by apply IH. Qed.

Lemma removelast_last (segs : list string) d : segs <> [] -> segs = removelast segs ++ [List.last segs d].
Proof. apply app_removelast_last. Qed.

Lemma diverges_removelast q segs d :
  segs <> [] -> diverges q segs ->
  diverges q (removelast segs) \/ exists a r, q = removelast segs ++ a :: r /\ a <> List.last segs d.
Proof.
  intros Hn (p & a & b & r & t & -> & He & Hab). rewrite (removelast_last segs d Hn) in He.
  destruct t as [|z t' _] using rev_ind.
  - apply app_inj_tail in He as [-> ->]. right. by exists a, r.
  - rewrite app_comm_cons, app_assoc in He. apply app_inj_tail in He as [-> _].
    left. by exists p, a, b, r, t'.
Qed.

Lemma append_leaf_value leaf x fresh i m : (append_leaf leaf x fresh i m).1 = None ->
  match obj_get leaf m with
  | Some t => exists y, append_to_target t x leaf i = Ok y /\ obj_get leaf (append_leaf leaf x fresh i m).2 = Some y
  | None => obj_get leaf (append_leaf leaf x fresh i m).2 = Some fresh
  end.
Proof.
  unfold append_leaf. destruct (obj_get leaf m) as [t|]; simpl.
  - destruct (append_to_target t x leaf i) as [y|]; [|done]. intros _. exists y. simpl. by rewrite obj_get_insert_eq.
  - by rewrite obj_get_insert_eq.
Qed.

Lemma append_leaf_frame leaf x fresh i m a : a <> leaf -> obj_get a (append_leaf leaf x fresh i m).2 = obj_get a m.
Proof.
  intros Ha. unfold append_leaf. destruct (obj_get leaf m) as [t|]; simpl; [|by rewrite obj_get_insert_ne].
  destruct (append_to_target t x leaf i); simpl; [by rewrite obj_get_insert_ne|done].
Qed.

(** An accepted operation at a path touches what the path names and nothing else.  A merge
    leaves, under its path, exactly the merged members over those that were there; an append
    leaves the old leaf with the value appended, or, where there was none, a fresh leaf; and
    in both cases every path that branches off anywhere along the way reads as before. *)
Theorem nested_updates_local i path c c' q :
  let segs := merge_path_segments path in
  segs <> [] ->
  (forall nm, json_wf (Obj nm) -> apply_op i (OpMerge path (Obj nm)) c = (None, c') ->
     (forall k, path_get (segs ++ [k]) (current c') =
        match obj_get k nm with Some x => Some x | None => path_get (segs ++ [k]) (current c) end) /\
     (diverges q segs -> path_get q (current c') = path_get q (current c))) /\
  (forall x, apply_op i (OpAppend path x) c = (None, c') ->
     match path_get segs (current c) with
     | Some t => exists y, append_to_target t x (List.last segs "") i = Ok y /\ path_get segs (current c') = Some y
     | None => path_get segs (current c') = Some (if decide (length segs = 1) then initial_append_value x else Arr [x])
     end /\
     (diverges q segs -> path_get q (current c') = path_get q (current c))).
Proof.
  intros segs Hne. split.
  - intros nm Hnm. cbn [apply_op]. unfold op_merge. fold segs.
    destruct (validate_merge_path i segs); [done|]. destruct (validate_merge_value i (Obj nm)); [done|].
    destruct segs as [|s0 segs0]; [done|]. remember (s0 :: segs0) as segs eqn:Hsegs. clear Hsegs.
    intros [= <-]. cbn [current]. split; [|by apply walk_frame].
    intros k. pose proof (walk_value (λ m, (tt, merge_members nm m)) segs (current c)) as [_ Hw].
    rewrite !path_get_snoc, Hw. simpl. apply json_wf_obj in Hnm as [Hs _].
    rewrite merge_members_get by (by apply obj_sorted_NoDup). unfold target.
    destruct (obj_get k nm); [done|]. destruct (path_get segs (current c)); simpl; [by rewrite vget_members|done].
  - intros x. cbn [apply_op]. unfold op_append. fold segs. destruct (validate_op_path _ i segs); [done|].
    assert (exists fresh, fresh = (if decide (length segs = 1) then initial_append_value x else Arr [x])) as [fresh Hf]
      by (by eexists).
    intros Happ.
    assert (walk_or_create (removelast segs) (append_leaf (List.last segs "") x fresh i) (current c) = (None, current c'))
      as Hw.
    { destruct segs as [|s0 [|s1 rest]]; [done| |].
      - destruct (current c) as [| | | | |m]; try done. cbn [removelast List.last walk_or_create members].
        rewrite decide_True in Hf by done. subst fresh. destruct (append_leaf _ _ _ _ _) as [e m1].
        by injection Happ as -> <-.
      - destruct (current c) as [| | | | |m]; try done. rewrite decide_False in Hf by done. subst fresh.
        rewrite (last_last_default _ s0 "") in Happ by done.
        destruct (walk_or_create _ _ _) as [e v]. by injection Happ as -> <-. }
    rewrite <-Hf. clear Happ Hf. pose proof (removelast_last segs "" Hne) as Hsp.
    set (leaf := List.last segs "") in *. set (ps := removelast segs) in *.
    destruct (walk_value (append_leaf leaf x fresh i) ps (current c)) as [He Hv].
    rewrite Hw in He, Hv. cbn [fst snd] in He, Hv. split.
    + rewrite Hsp, !path_get_snoc, Hv. symmetry in He. apply append_leaf_value in He.
      assert ((x0 ← path_get ps (current c); vget leaf x0) = obj_get leaf (target ps (current c))) as ->.
      { unfold target. destruct (path_get ps (current c)); simpl; [apply vget_members|done]. }
      simpl. destruct (obj_get leaf (target ps (current c))); [|done].
      destruct He as (y & Hy & Hg). exists y. by split.
    + intros Hd. destruct (diverges_removelast q segs "" Hne Hd) as [Hp|(a & r & -> & Ha)].
      * pose proof (walk_frame (append_leaf leaf x fresh i) ps q (current c) Hp) as Hfr. by rewrite Hw in Hfr.
      * fold ps. rewrite !path_get_app, Hv. simpl. rewrite append_leaf_frame by done.
        unfold target. destruct (path_get ps (current c)); simpl; [by rewrite vget_members|done].
Qed.

Lemma nested_updates_local_witness :
  let c := mk_cur (json_obj [("a", json_obj [("b", Arr [Bool true]); ("z", Str "keep")])]) false in
  exists c', apply_op 0 (OpAppend (Some (Segments ["a"; "b"])) Null) c = (None, c') /\
    path_get ["a"; "b"] (current c') = Some (Arr [Bool true; Null]) /\
    path_get ["a"; "z"] (current c') = path_get ["a"; "z"] (current c).
Proof.
  intros c. exists (apply_op 0 (OpAppend (Some (Segments ["a"; "b"])) Null) c).2.
  split; [vm_compute; reflexivity|].
  destruct (nested_updates_local 0 (Some (Segments ["a"; "b"])) c
    (apply_op 0 (OpAppend (Some (Segments ["a"; "b"])) Null) c).2 ["a"; "z"]) as [_ Happ]; [discriminate|].
  destruct (Happ Null) as [Hv Hq]; [vm_compute; reflexivity|]. split.
  - destruct Hv as (y & Hy & Hg). vm_compute in Hy. injection Hy as <-. exact Hg.
  - apply Hq. exists ["a"], "z", "b", [], []. split_and!; [reflexivity|reflexivity|discriminate].
Defined.

End UpdateProperties.
