(* ===== verification/StateStore.v ===== *)
(** * The state worker's key-value store (state/src/store.rs)

    [KvStore] keeps every scope in memory as an insertion-ordered map and, when it is
    file-backed, records the scopes that changed in a dirty map which a flush drains to
    one file per scope.  The model has the store's operations on a record [KvStore],
    the file names ([encode_index] and back), the directory they live in with its
    failures, and the flush as a step relation in which mutations interleave with the
    writer.  The theorems: scope names survive the file-name encoding and never leave
    the directory; a write that fails or is cut short leaves the previous file in
    place; and in every reachable state in which no work is pending the directory
    holds exactly the non-empty scopes, so that a restart reads back every scope that has a name and
    whose values the file's text can represent; a scope that is nested too deep is lost. *)

From Stdlib Require Import Ascii ZArith Lia.
From S2P Require Import Prelude Json Codec JsonText StateBarrier StateUpdate.

(** ** [IndexMap<String, Arc<Value>>]: a list of pairs in insertion order *)

Abbreviation Scope := (list (string * Value)).

(** [IndexMap::insert]: keeps the position of a key that is there, else appends;
    returns the displaced value. *)
Fixpoint im_insert (k : string) (v : Value) (m : Scope) : Scope :=
  match m with
  | [] => [(k, v)]
  | (k', v') :: m' => if decide (k = k') then (k', v) :: m' else (k', v') :: im_insert k v m'
  end.

(** [IndexMap::shift_remove]: the other entries keep their order. *)
Definition im_remove (k : string) (m : Scope) : Scope := obj_remove k m.

(** ** File names *)

Module FileNames.

Definition KEY_FILE_EXTENSION : string := "bin".

Definition hex_digit (n : Z) : ascii :=
  ascii_of_N (Z.to_N (if (n <? 10)%Z then 48 + n else 55 + n)%Z).

(** The bytes [encode_index] keeps: ASCII letters, digits, '-', '_' and '.'. *)
Definition plain_byte (b : Z) : bool :=
  (((65 <=? b) && (b <=? 90)) || ((97 <=? b) && (b <=? 122)) || ((48 <=? b) && (b <=? 57))
   || (b =? 45) || (b =? 95) || (b =? 46))%Z.

(** [format!("%{:02X}", byte)]. *)
Definition percent_byte (b : Z) : string :=
  String "%" (String (hex_digit (b / 16)) (String (hex_digit (b mod 16)) "")).

Fixpoint encode_index (index : string) : string :=
  match index with
  | EmptyString => ""
  | String c s =>
      let b := ascii_code c in
      if plain_byte b then String c (encode_index s) else percent_byte b +:+ encode_index s
  end.

(** [char::to_digit(16)]. *)
Definition to_digit16 (c : ascii) : option Z :=
  let b := ascii_code c in
  if ((48 <=? b) && (b <=? 57))%Z then Some (b - 48)%Z
  else if ((65 <=? b) && (b <=? 70))%Z then Some (b - 55)%Z
  else if ((97 <=? b) && (b <=? 102))%Z then Some (b - 87)%Z
  else None.

Fixpoint decode_bytes (s : string) : option string :=
  match s with
  | EmptyString => Some ""
  | String c s1 =>
      if decide (c = "%"%char) then
        match s1 with
        | String h (String l s2) =>
            match to_digit16 h, to_digit16 l with
            | Some hi, Some lo =>
                String (ascii_of_N (Z.to_N (Z.lor (Z.shiftl hi 4) lo))) <$> decode_bytes s2
            | _, _ => None
            end
        | _ => None
        end
      else String c <$> decode_bytes s1
  end.

(** [String::from_utf8] succeeds: the well-formed byte sequences of the Unicode standard. *)
Definition cont_byte (c : ascii) : bool := ((0x80 <=? ascii_code c) && (ascii_code c <=? 0xBF))%Z.

Definition second_of_3 (a b : ascii) : bool :=
  let x := ascii_code a in let y := ascii_code b in
  if (x =? 0xE0)%Z then ((0xA0 <=? y) && (y <=? 0xBF))%Z
  else if (x =? 0xED)%Z then ((0x80 <=? y) && (y <=? 0x9F))%Z
  else cont_byte b.

Definition second_of_4 (a b : ascii) : bool :=
  let x := ascii_code a in let y := ascii_code b in
  if (x =? 0xF0)%Z then ((0x90 <=? y) && (y <=? 0xBF))%Z
  else if (x =? 0xF4)%Z then ((0x80 <=? y) && (y <=? 0x8F))%Z
  else cont_byte b.

Fixpoint utf8_valid (s : string) : bool :=
  match s with
  | EmptyString => true
  | String a s1 =>
      let x := ascii_code a in
      if (x <? 0x80)%Z then utf8_valid s1
      else match s1 with
           | EmptyString => false
           | String b s2 =>
               if ((0xC2 <=? x) && (x <=? 0xDF))%Z then cont_byte b && utf8_valid s2
               else match s2 with
                    | EmptyString => false
                    | String c s3 =>
                        if ((0xE0 <=? x) && (x <=? 0xEF))%Z
                        then second_of_3 a b && cont_byte c && utf8_valid s3
                        else match s3 with
                             | EmptyString => false
                             | String d s4 =>
                                 if ((0xF0 <=? x) && (x <=? 0xF4))%Z
                                 then second_of_4 a b && cont_byte c && cont_byte d && utf8_valid s4
                                 else false
                             end
                    end
           end
  end.

Definition decode_index (encoded : string) : option string :=
  match decode_bytes encoded with
  | Some bytes => if utf8_valid bytes then Some bytes else None
  | None => None
  end.

Definition index_file_name (index : string) : string :=
  encode_index index +:+ "." +:+ KEY_FILE_EXTENSION.

(** The text before and after the last [c], if there is one. *)
Fixpoint rsplit_char (c : ascii) (s : string) : option (string * string) :=
  match s with
  | EmptyString => None
  | String d s' =>
      match rsplit_char c s' with
      | Some (a, b) => Some (String d a, b)
      | None => if decide (c = d) then Some ("", s') else None
      end
  end.

(** [Path::extension] of a file name: a name that starts with its only dot has none. *)
Definition path_extension (name : string) : option string :=
  if decide (name = "..") then None
  else match rsplit_char "." name with
       | None => None
       | Some (before, after) => if decide (before = "") then None else Some after
       end.

Definition index_from_path (name : string) : option string :=
  match strip_suffix ("." +:+ KEY_FILE_EXTENSION) name with
  | Some stem => decode_index stem
  | None => None
  end.

(** *** Lemmas *)

Lemma percent_byte_decode (c : ascii) (s : string) :
  plain_byte (ascii_code c) = false ->
  decode_bytes (percent_byte (ascii_code c) +:+ s) = String c <$> decode_bytes s.
Proof.
  destruct c as [[] [] [] [] [] [] [] []]; intros Hc;
    first [ discriminate Hc | clear Hc; unfold percent_byte; rewrite !append_cons, append_nil_l;
            reflexivity ].
Qed.

Lemma plain_byte_not_percent (c : ascii) : plain_byte (ascii_code c) = true -> c <> "%"%char.
Proof. by intros Hc ->. Qed.

Lemma decode_encode_bytes (s : string) : decode_bytes (encode_index s) = Some s.
Proof.
  induction s as [|c s IH]; [done|]. simpl encode_index.
  destruct (plain_byte (ascii_code c)) eqn:Hc.
  - simpl. rewrite decide_False by by apply plain_byte_not_percent. by rewrite IH.
  - by rewrite percent_byte_decode, IH.
Qed.

Lemma percent_byte_plain (b : Z) (c : ascii) :
  c <> "%"%char -> plain_byte (ascii_code c) = false ->
  forall x : ascii, b = ascii_code x -> contains_char c (percent_byte b) = false.
Proof.
  intros Hc Hp x ->. unfold percent_byte. simpl. rewrite decide_False by done.
  assert (forall d : ascii, plain_byte (ascii_code d) = true -> c <> d) as Hd by (intros d ? ->; congruence).
  rewrite !decide_False; [done| |]; apply Hd;
    destruct x as [[] [] [] [] [] [] [] []]; reflexivity.
Qed.

Lemma encode_index_no_char (c : ascii) (s : string) :
  c <> "%"%char -> plain_byte (ascii_code c) = false -> contains_char c (encode_index s) = false.
Proof.
  intros Hc Hp. induction s as [|x s IH]; [done|]. simpl. destruct (plain_byte (ascii_code x)) eqn:Hx.
  - simpl. rewrite decide_False; [done|]. intros ->. congruence.
  - rewrite contains_char_app, IH, orb_false_r. by eapply percent_byte_plain.
Qed.

Lemma rsplit_char_app (c : ascii) (a b : string) :
  contains_char c b = false -> rsplit_char c (a +:+ String c b) = Some (a, b).
Proof.
  intros Hb. assert (rsplit_char c b = None) as Hn.
  { induction b as [|d b IH]; [done|]. simpl in *. case_decide; [done|]. by rewrite IH. }
  induction a as [|d a IH].
  - rewrite append_nil_l. simpl. rewrite Hn. by rewrite decide_True.
  - rewrite append_cons. simpl. by rewrite IH.
Qed.

Lemma index_from_file_name (i : string) :
  utf8_valid i = true -> index_from_path (index_file_name i) = Some i.
Proof.
  intros Hi. unfold index_from_path, index_file_name. rewrite strip_suffix_app.
  unfold decode_index. by rewrite decode_encode_bytes, Hi.
Qed.

Lemma encode_index_nonempty (i : string) : i <> "" -> encode_index i <> "".
Proof. destruct i as [|c s]; [done|]. simpl. by destruct (plain_byte (ascii_code c)). Qed.

Lemma index_file_extension (i : string) :
  i <> "" -> path_extension (index_file_name i) = Some KEY_FILE_EXTENSION.
Proof.
  intros Hi. unfold path_extension, index_file_name.
  change ("." +:+ KEY_FILE_EXTENSION) with (String "." "bin").
  rewrite rsplit_char_app by done. rewrite decide_False.
  - by rewrite decide_False by by apply encode_index_nonempty.
  - intros He. apply (f_equal String.length) in He. rewrite length_append in He. simpl in He. lia.
Qed.

Lemma temp_file_extension (i : string) :
  path_extension (index_file_name i +:+ ".tmp") = Some "tmp".
Proof.
  unfold path_extension. change ".tmp" with (String "." "tmp").
  rewrite rsplit_char_app by done. rewrite !decide_False; [done| |].
  - unfold index_file_name. intros He. apply (f_equal String.length) in He.
    rewrite !length_append in He. simpl in He. lia.
  - intros He. apply (f_equal String.length) in He. rewrite length_append in He. simpl in He. lia.
Qed.

Lemma index_file_name_inj (i j : string) : index_file_name i = index_file_name j -> i = j.
Proof.
  unfold index_file_name. intros He.
  assert (Some (encode_index i) = Some (encode_index j)) as [= He'].
  { by rewrite <-(strip_suffix_app ("." +:+ KEY_FILE_EXTENSION) (encode_index i)), He, strip_suffix_app. }
  pose proof (decode_encode_bytes i) as Hi. rewrite He', decode_encode_bytes in Hi. by simplify_eq.
Qed.

Lemma temp_file_name_ne (i j : string) : index_file_name i +:+ ".tmp" <> index_file_name j.
Proof.
  intros He. pose proof (temp_file_extension i) as Ht. rewrite He in Ht.
  destruct (decide (j = "")) as [->|Hj]; [done|]. by rewrite index_file_extension in Ht.
Qed.

End FileNames.

(** ** The storage directory *)

Module Disk.
Import FileNames.

(** What the text of a file keeps: values with at most 126 levels, one less than the reader takes,
    since the scope is a level itself, and no [f64]. *)
Definition legible (s : Scope) : Prop := Forall (λ p, fits (pred READ_LEVELS) p.2) s.

Definition levels (s : Scope) : nat := S (max_list (nesting ∘ snd <$> s)).

(** The file format ([serde_json] text in an [rkyv] archive): what is read is a map, a legible map
    is read as it was written, and one that is too deep is not read at all. *)
Class ScopeFile : Type := {
  enc_scope : Scope -> string;
  dec_scope : string -> option Scope;
  dec_enc_scope : forall s, NoDup s.*1 -> legible s -> dec_scope (enc_scope s) = Some s;
  dec_enc_deep : forall s, READ_LEVELS < levels s -> dec_scope (enc_scope s) = None;
  dec_scope_map : forall t s, dec_scope t = Some s -> NoDup s.*1;
}.

(** Regular files by name. *)
Abbreviation Dir := (gmap string string).

(** What one disk operation does: it succeeds, or it stops at a stage, by an error
    or by a crash. *)
Inductive io_outcome : Type :=
| IoOk
| IoFailCreate                        (* create_dir_all or File::create *)
| IoFailWrite (partial : string)      (* serialization, write or flush: a partial temp file *)
| IoFailRename                        (* rename or remove_file *).

Section Files.
Context `{ScopeFile}.

Definition temp_name (index : string) : string := index_file_name index +:+ ".tmp".

Definition persist_index_to_disk (io : io_outcome) (dir : Dir) (index : string) (value : Scope)
  : bool * Dir :=
  let path := index_file_name index in
  match io with
  | IoFailCreate => (false, dir)
  | IoFailWrite partial => (false, <[temp_name index := partial]> dir)
  | IoFailRename => (false, <[temp_name index := enc_scope value]> dir)
  | IoOk => (true, <[path := enc_scope value]> (delete (temp_name index) dir))
  end.

(** [remove_file]; a file that is not there is a success. *)
Definition delete_index_from_disk (io : io_outcome) (dir : Dir) (index : string) : bool * Dir :=
  match io with
  | IoOk => (true, delete (index_file_name index) dir)
  | _ => (false, dir)
  end.

(** One directory entry as [load_store_from_dir] sees it. *)
Definition load_entry (readable : string -> bool) (e : string * string) : option (string * Scope) :=
  let '(name, bytes) := e in
  if bool_decide (path_extension name = Some KEY_FILE_EXTENSION) then
    match index_from_path name with
    | None => None
    | Some index =>
        if readable name then
          match dec_scope bytes with Some value => Some (index, value) | None => None end
        else None
    end
  else None.

Definition load_store_from_dir (readable : string -> bool) (dir : Dir) : gmap string Scope :=
  foldl (λ store e, match load_entry readable e with
                    | Some (index, value) => <[index := value]> store
                    | None => store
                    end) ∅ (map_to_list dir).

(** The scope a restart would read for [index]. *)
Definition on_disk (dir : Dir) (index : string) : option Scope :=
  match dir !! index_file_name index with Some bytes => dec_scope bytes | None => None end.

(** Every [.bin] file of the directory is the file of a scope with a valid, non-empty name. *)
Definition canonical (dir : Dir) : Prop :=
  forall name bytes, dir !! name = Some bytes -> path_extension name = Some KEY_FILE_EXTENSION ->
    exists i, name = index_file_name i /\ i <> "" /\ utf8_valid i = true.

(** *** Lemmas *)

Lemma persist_other io dir i j v :
  i <> j -> (persist_index_to_disk io dir i v).2 !! index_file_name j = dir !! index_file_name j.
Proof.
  intros Hne. destruct io; simpl; rewrite ?lookup_insert_ne; try done;
    try (apply temp_file_name_ne).
  - by rewrite lookup_delete_ne by apply temp_file_name_ne.
  - intros He. by apply index_file_name_inj in He.
Qed.

Lemma persist_self io dir i v :
  (persist_index_to_disk io dir i v).2 !! index_file_name i
  = if (persist_index_to_disk io dir i v).1 then Some (enc_scope v) else dir !! index_file_name i.
Proof.
  destruct io; simpl; rewrite ?lookup_insert_ne by apply temp_file_name_ne; try done. apply lookup_insert_eq.
Qed.

Lemma delete_other io dir i j :
  i <> j -> (delete_index_from_disk io dir i).2 !! index_file_name j = dir !! index_file_name j.
Proof.
  intros Hne. destruct io; simpl; try done.
  rewrite lookup_delete_ne; [done|]. intros He. by apply index_file_name_inj in He.
Qed.

Lemma delete_self io dir i :
  (delete_index_from_disk io dir i).2 !! index_file_name i
  = if (delete_index_from_disk io dir i).1 then None else dir !! index_file_name i.
Proof. destruct io; simpl; try done. by rewrite lookup_delete_eq. Qed.

Lemma canonical_persist io dir i v :
  utf8_valid i = true -> canonical dir -> canonical (persist_index_to_disk io dir i v).2.
Proof.
  intros Hu Hc name bytes Hl Hext.
  assert (temp_name i <> name) as Ht.
  { intros <-. unfold temp_name in Hext. by rewrite temp_file_extension in Hext. }
  destruct io; simpl in Hl; rewrite ?lookup_insert_ne in Hl by done; try by eapply Hc.
  destruct (decide (index_file_name i = name)) as [<-|Hne]; [exists i; split_and!; [done| |done]; by intros ->|].
  rewrite lookup_insert_ne, lookup_delete_ne in Hl by done. by eapply Hc.
Qed.

Lemma canonical_delete io dir i : canonical dir -> canonical (delete_index_from_disk io dir i).2.
Proof.
  intros Hc name bytes Hl Hext. destruct io; simpl in Hl; try by eapply Hc.
  apply lookup_delete_Some in Hl as [_ Hl]. by eapply Hc.
Qed.

#[local] Arguments load_entry : simpl never.

(** [load_store_from_dir] as a map built from the readable entries. *)
Lemma load_store_list readable dir :
  load_store_from_dir readable dir = list_to_map (reverse (omap (load_entry readable) (map_to_list dir))).
Proof.
  unfold load_store_from_dir.
  induction (map_to_list dir) as [|e l IH] using rev_ind; [done|].
  rewrite foldl_app, omap_app, reverse_app, IH. simpl.
  destruct (load_entry readable e) as [[i s]|]; done.
Qed.

Lemma load_entry_Some readable name bytes i s :
  load_entry readable (name, bytes) = Some (i, s) ->
  path_extension name = Some KEY_FILE_EXTENSION /\ index_from_path name = Some i /\ dec_scope bytes = Some s.
Proof. unfold load_entry. intros Hl. case_bool_decide; case_all; done. Qed.

Lemma load_entries_NoDup readable dir :
  canonical dir -> NoDup (reverse (omap (load_entry readable) (map_to_list dir))).*1.
Proof.
  intros Hc. rewrite reverse_Permutation.
  assert (forall e, e ∈ map_to_list dir -> dir !! e.1 = Some e.2) as Hin.
  { intros [n b] He. by apply elem_of_map_to_list. }
  pose proof (NoDup_fst_map_to_list dir) as Hnd.
  induction (map_to_list dir) as [|[n b] l IH]; simpl; [constructor|].
  simpl in Hnd. apply NoDup_cons in Hnd as [Hn Hnd].
  assert (NoDup (omap (load_entry readable) l).*1) as Hl.
  { apply IH; [|done]. intros e He. apply Hin. by right. }
  destruct (load_entry readable (n, b)) as [[i s]|] eqn:He; simpl; [|done].
  constructor; [|done]. intros ([i' s'] & -> & Hs)%list_elem_of_fmap.
  apply list_elem_of_omap in Hs as ([n' b'] & Hn' & He').
  apply load_entry_Some in He as (Hext & Hidx & _). apply load_entry_Some in He' as (Hext' & Hidx' & _).
  simpl in Hidx.
  destruct (Hc n b) as (j & -> & _ & Hu); [by apply (Hin (n, b)); left|done|].
  destruct (Hc n' b') as (j' & -> & _ & Hu'); [by apply (Hin (n', b')); right|done|].
  rewrite index_from_file_name in Hidx, Hidx' by done. simplify_eq.
  apply Hn. apply list_elem_of_fmap. eexists (_, b'). by split; [|exact Hn'].
Qed.

(** A restart reads each scope's own file. *)
Lemma load_store_lookup dir i :
  canonical dir -> i <> "" -> utf8_valid i = true ->
  load_store_from_dir (λ _, true) dir !! i = on_disk dir i.
Proof.
  intros Hc Hi Hu. rewrite load_store_list. apply option_eq. intros s.
  rewrite <-elem_of_list_to_map by by apply load_entries_NoDup.
  rewrite elem_of_reverse, list_elem_of_omap. unfold on_disk. split.
  - intros ([n b] & Hn%elem_of_map_to_list & He).
    apply load_entry_Some in He as (Hext & Hidx & Hs).
    destruct (Hc n b) as (j & -> & _ & Hu'); [done..|].
    rewrite index_from_file_name in Hidx by done. simplify_eq. by rewrite Hn.
  - intros Hs. destruct (dir !! index_file_name i) as [b|] eqn:Hb; [|done].
    exists (index_file_name i, b). split; [by apply elem_of_map_to_list|].
    unfold load_entry. rewrite bool_decide_eq_true_2 by by apply index_file_extension.
    by rewrite index_from_file_name, Hs by done.
Qed.

(** Nothing is read under a name that no scope file has. *)
Lemma load_store_foreign dir i :
  canonical dir -> (i = "" \/ utf8_valid i = false) -> load_store_from_dir (λ _, true) dir !! i = None.
Proof.
  intros Hc Hi. rewrite load_store_list. apply not_elem_of_list_to_map.
  intros ([i' s] & -> & Hs)%list_elem_of_fmap. rewrite elem_of_reverse in Hs.
  apply list_elem_of_omap in Hs as ([n b] & Hn%elem_of_map_to_list & He).
  apply load_entry_Some in He as (Hext & Hidx & _). simpl in *.
  destruct (Hc n b) as (j & -> & Hj & Hu); [done..|].
  rewrite index_from_file_name in Hidx by done. simplify_eq. destruct Hi; congruence.
Qed.

End Files.
End Disk.

(** ** The store *)

Module Kv.
Import FileNames Disk.

Inductive DirtyOp : Type := Upsert | Delete.

Definition DEFAULT_SAVE_INTERVAL_MS : Z := 5000.
Definition MIN_SAVE_INTERVAL_MS : Z := 100.

(** [file_backed] is [file_store_dir.is_some()]; [save_interval] is the cadence of the
    running save loop, if there is one. *)
Record KvStore : Type := mk_kv {
  store : gmap string Scope;
  file_backed : bool;
  dirty : gmap string DirtyOp;
  default_interval : Z;
  save_interval : option Z;
}.

Definition set_mem (s : gmap string Scope) (kv : KvStore) : KvStore :=
  mk_kv s (file_backed kv) (dirty kv) (default_interval kv) (save_interval kv).

Definition set_dirty (d : gmap string DirtyOp) (kv : KvStore) : KvStore :=
  mk_kv (store kv) (file_backed kv) d (default_interval kv) (save_interval kv).

(** The cadence of a configuration: positive, else the fallback, and never below the floor. *)
Definition configured_interval (config : option Value) (fallback : Z) : Z :=
  let n := match config with
           | Some cfg => match vget "save_interval_ms" cfg with
                         | Some v => match as_u64 v with
                                     | Some n => if (0 <? n)%Z then n else fallback
                                     | None => fallback
                                     end
                         | None => fallback
                         end
           | None => fallback
           end in
  Z.max n MIN_SAVE_INTERVAL_MS.

Definition store_method (config : option Value) : string :=
  match config with
  | Some cfg => match vget "store_method" cfg with
                | Some (Str s) => s
                | _ => "file_based"
                end
  | None => "file_based"
  end.

(** [KvStore::new]: [on_disk_now] is what the storage directory loads to. *)
Definition new (config : option Value) (on_disk_now : gmap string Scope) : KvStore :=
  let interval := configured_interval config DEFAULT_SAVE_INTERVAL_MS in
  let fb := bool_decide (store_method config = "file_based") in
  {| store := if fb then on_disk_now else ∅; file_backed := fb; dirty := ∅;
     default_interval := interval; save_interval := if fb then Some interval else None |}.

(** [KvStore::reconfigure]: respawns the save loop. *)
Definition reconfigure (config : Value) (kv : KvStore) : KvStore :=
  if file_backed kv then
    mk_kv (store kv) (file_backed kv) (dirty kv) (default_interval kv)
      (Some (configured_interval (Some config) (default_interval kv)))
  else kv.

(** The second critical section of a mutation: record the changed scope. *)
Definition mark (index : string) (op : DirtyOp) (kv : KvStore) : KvStore :=
  if file_backed kv then set_dirty (<[index := op]> (dirty kv)) kv else kv.

Definition scope_of (kv : KvStore) (index : string) : Scope := default [] (store kv !! index).

Definition get (kv : KvStore) (index key : string) : option Value :=
  match store kv !! index with Some scope => obj_get key scope | None => None end.

(** First critical section of [set]: returns the displaced value. *)
Definition set_store (index key : string) (data : Value) (kv : KvStore) : option Value * KvStore :=
  (get kv index key, set_mem (<[index := im_insert key data (scope_of kv index)]> (store kv)) kv).

(** [KvStore::set]: [(old_value, new_value)] and the store. *)
Definition set (index key : string) (data : Value) (kv : KvStore) : (option Value * Value) * KvStore :=
  let '(old, kv1) := set_store index key data kv in
  ((old, data), mark index Upsert kv1).

(** First critical section of [remove_shared]: the removed value, and the dirty mark to make. *)
Definition remove_store (index key : string) (kv : KvStore)
  : option Value * option DirtyOp * KvStore :=
  match store kv !! index with
  | Some index_map =>
      let removed := obj_get key index_map in
      let rest := im_remove key index_map in
      let dirty_op := match removed with
                      | Some _ => Some (match rest with [] => Delete | _ => Upsert end)
                      | None => None
                      end in
      (removed, dirty_op, set_mem (<[index := rest]> (store kv)) kv)
  | None => (None, None, kv)
  end.

Definition remove_shared (index key : string) (kv : KvStore) : option Value * KvStore :=
  let '(removed, dirty_op, kv1) := remove_store index key kv in
  match removed, dirty_op with
  | Some _, Some op => (removed, mark index op kv1)
  | _, _ => (removed, kv1)
  end.

Definition delete (index key : string) (kv : KvStore) : option Value * KvStore :=
  remove_shared index key kv.

(** [adapters::cas_matches]. *)
Definition cas_matches (expected current : option Value) : bool :=
  match expected, current with
  | (None | Some Null), (None | Some Null) => true
  | Some want, Some got => value_eqb want got
  | _, _ => false
  end.

Inductive CompareAndSetOutcome : Type :=
| Swapped (old_value : option Value)
| NotSwapped (current : Value).

Definition compare_and_set (index key : string) (expected : option Value) (value : Value) (kv : KvStore)
  : CompareAndSetOutcome * KvStore :=
  let current := get kv index key in
  if negb (cas_matches expected current) then (NotSwapped (default Null current), kv)
  else
    let kv1 := set_mem (<[index := im_insert key value (scope_of kv index)]> (store kv)) kv in
    (Swapped current, mark index Upsert kv1).

Section WithText.
Context `{SerdeText} (debug_strings : list string -> string).

(** [KvStore::barrier_arrive]: an arrival that changes nothing is not written. *)
Definition barrier_arrive (index key : string) (cfg : Barrier.BarrierConfig) (event : Value) (kv : KvStore)
  : result Barrier.Decision string * KvStore :=
  let current := get kv index key in
  match Barrier.arrive debug_strings current cfg event with
  | Err e => (Err e, kv)
  | Ok (next, decision) =>
      let encoded := to_value next in
      let unchanged :=
        match current with
        | None | Some Null =>
            match Barrier.arrived next with [] => negb (Barrier.complete next) | _ => false end
        | Some current => value_eqb current encoded
        end in
      if unchanged then (Ok decision, kv)
      else
        let kv1 := set_mem (<[index := im_insert key encoded (scope_of kv index)]> (store kv)) kv in
        (Ok decision, mark index Upsert kv1)
  end.
End WithText.

(** [StreamUpdateResult]. *)
Record StreamUpdateResult : Type := mk_update {
  upd_old : option Value;
  upd_new : Value;
  upd_errors : Datatypes.list Update.UpdateOpError;
}.

(** First critical section of [update]: the whole read-modify-write. *)
Definition update_store (index key : string) (ops : Datatypes.list Update.UpdateOp) (kv : KvStore)
  : StreamUpdateResult * KvStore :=
  let current := get kv index key in
  let '(updated_value, errors) := Update.apply_update_ops current ops in
  (mk_update current updated_value errors,
   set_mem (<[index := im_insert key updated_value (scope_of kv index)]> (store kv)) kv).

(** [KvStore::update]: the scope is marked even when no operation was accepted. *)
Definition update (index key : string) (ops : Datatypes.list Update.UpdateOp) (kv : KvStore)
  : StreamUpdateResult * KvStore :=
  let '(r, kv1) := update_store index key ops kv in (r, mark index Upsert kv1).

Definition list (kv : KvStore) (index : string) : list Value :=
  match store kv !! index with Some scope => scope.*2 | None => [] end.

Definition list_keys (kv : KvStore) (index : string) : Datatypes.list string :=
  match store kv !! index with Some topic => topic.*1 | None => [] end.

(** Keys of a hash map: in no particular order. *)
Definition list_groups (kv : KvStore) : Datatypes.list string := (map_to_list (store kv)).*1.

(** *** Lemmas *)

Lemma im_get_insert k k' v m :
  obj_get k (im_insert k' v m) = if decide (k = k') then Some v else obj_get k m.
Proof.
  induction m as [|[k2 v2] m IH]; simpl; [done|].
  destruct (decide (k' = k2)) as [->|H1]; simpl.
  - by destruct (decide (k = k2)).
  - rewrite IH. destruct (decide (k = k2)) as [->|]; [|done]. by rewrite decide_False.
Qed.

Lemma im_keys_insert k v m :
  (im_insert k v m).*1 = if decide (k ∈ m.*1) then m.*1 else m.*1 ++ [k].
Proof.
  induction m as [|[k' v'] m IH]; [done|]. cbn [im_insert].
  destruct (decide (k = k')) as [->|Hk]; rewrite !fmap_cons; cbn [fst].
  - rewrite decide_True; [done|]. by left.
  - rewrite IH. destruct (decide (k ∈ m.*1)) as [Hm|Hm].
    + rewrite decide_True; [done|]. by right.
    + rewrite decide_False; [done|]. by intros [?|?]%elem_of_cons.
Qed.

Lemma im_insert_nonempty k v m : im_insert k v m <> [].
Proof. destruct m as [|[k' v'] m]; simpl; [done|]. by case_decide. Qed.

Lemma get_mark kv i op a b : get (mark i op kv) a b = get kv a b.
Proof. unfold mark. by destruct (file_backed kv). Qed.

Lemma store_mark kv i op : store (mark i op kv) = store kv.
Proof. unfold mark. by destruct (file_backed kv). Qed.

Lemma get_insert kv i k v a b :
  get (set_mem (<[i := im_insert k v (scope_of kv i)]> (store kv)) kv) a b
  = if decide (a = i /\ b = k) then Some v else get kv a b.
Proof.
  unfold get, scope_of. simpl. destruct (decide (i = a)) as [->|Hi].
  - rewrite lookup_insert_eq, im_get_insert.
    destruct (store kv !! a) as [s|]; simpl; do 2 case_decide; naive_solver.
  - rewrite lookup_insert_ne by done. rewrite decide_False; [done|]. naive_solver.
Qed.

(** Every read-modify-write (compare-and-set, barrier, update) changes the map as a [set] of the
    value it computed does. *)
Lemma update_store_inserts i k ops kv :
  (update_store i k ops kv).2 = (set_store i k (upd_new (update_store i k ops kv).1) kv).2.
Proof. unfold update_store. by destruct (Update.apply_update_ops _ ops). Qed.

Lemma get_update kv i k ops a b :
  get (update i k ops kv).2 a b =
  if decide (a = i /\ b = k) then Some (upd_new (update i k ops kv).1) else get kv a b.
Proof.
  unfold update, update_store. destruct (Update.apply_update_ops (get kv i k) ops) as [v es]. cbn [fst snd upd_new].
  by rewrite get_mark, get_insert.
Qed.

Lemma get_remove kv i k a b :
  get (remove_store i k kv).2 a b = if decide (a = i /\ b = k) then None else get kv a b.
Proof.
  unfold remove_store, get. destruct (store kv !! i) as [m|] eqn:Hi; simpl.
  - destruct (decide (i = a)) as [->|Hne].
    + rewrite lookup_insert_eq, Hi. unfold im_remove. destruct (decide (b = k)) as [->|Hb].
      * by rewrite decide_True, obj_get_remove_eq.
      * rewrite decide_False, obj_get_remove_ne by naive_solver. done.
    + rewrite lookup_insert_ne by done. rewrite decide_False; [done|]. naive_solver.
  - destruct (decide (a = i /\ b = k)) as [[-> ->]|]; [by rewrite Hi|done].
Qed.

End Kv.

(** ** Flushing *)

Module Flush.
Import FileNames Disk Kv.

Section Machine.
Context `{ScopeFile}.

(** What the writer does with the snapshot of one scope: an absent or empty scope has no file. *)
Definition flush_write (io : io_outcome) (dir : Dir) (index : string) (snapshot : option Scope)
  : bool * Dir :=
  match snapshot with
  | Some ((_ :: _) as value) => persist_index_to_disk io dir index value
  | _ => delete_index_from_disk io dir index
  end.

(** [requeue]: re-marks a scope after a failed write, never on top of a newer mark. *)
Definition requeue (d : gmap string DirtyOp) (index : string) (op : DirtyOp) : gmap string DirtyOp :=
  match d !! index with Some _ => d | None => <[index := op]> d end.

(** [flush_dirty_blocking] run without interference: drains the dirty map and writes every
    scope of the batch; returns the number of failures. *)
Fixpoint flush_batch (io : string -> io_outcome) (mem : gmap string Scope)
    (batch : Datatypes.list (string * DirtyOp)) (d : gmap string DirtyOp) (dir : Dir)
  : nat * gmap string DirtyOp * Dir :=
  match batch with
  | [] => (0, d, dir)
  | (index, op) :: rest =>
      let '(ok, dir1) := flush_write (io index) dir index (mem !! index) in
      let d1 := if ok then d else requeue d index op in
      let '(failed, d2, dir2) := flush_batch io mem rest d1 dir1 in
      ((if ok then failed else S failed), d2, dir2)
  end.

Definition flush_dirty_blocking (io : string -> io_outcome) (kv : KvStore) (dir : Dir)
  : nat * KvStore * Dir :=
  let '(failed, d, dir1) := flush_batch io (store kv) (map_to_list (dirty kv)) ∅ dir in
  (failed, set_dirty d kv, dir1).

(** *** The interleaved system *)

(** [marking]: mutations that have changed the map and not yet taken the dirty lock.
    [batch], [inflight]: the state of the one writer that holds the flush lock. *)
Record Sys : Type := mk_sys {
  kv : KvStore;
  marking : Datatypes.list (string * DirtyOp);
  batch : Datatypes.list (string * DirtyOp);
  inflight : option (string * DirtyOp * option Scope);
  dir : Dir;
}.

Definition with_kv (k : KvStore) (s : Sys) : Sys := mk_sys k (marking s) (batch s) (inflight s) (dir s).

Inductive step : Sys -> Sys -> Prop :=
| step_insert s i k v :
    utf8_valid i = true ->
    step s (mk_sys (set_store i k v (kv s)).2 (marking s ++ [(i, Upsert)]) (batch s) (inflight s) (dir s))
| step_remove s i k op :
    (remove_store i k (kv s)).1.2 = Some op ->
    step s (mk_sys (remove_store i k (kv s)).2 (marking s ++ [(i, op)]) (batch s) (inflight s) (dir s))
| step_remove_absent s i k :
    (remove_store i k (kv s)).1.2 = None ->
    step s (with_kv (remove_store i k (kv s)).2 s)
| step_mark s i op l1 l2 :
    marking s = l1 ++ (i, op) :: l2 ->
    step s (mk_sys (mark i op (kv s)) (l1 ++ l2) (batch s) (inflight s) (dir s))
| step_drain s b :
    batch s = [] -> inflight s = None -> b ≡ₚ map_to_list (dirty (kv s)) ->
    step s (mk_sys (set_dirty ∅ (kv s)) (marking s) b None (dir s))
| step_snapshot s i op rest :
    batch s = (i, op) :: rest -> inflight s = None ->
    step s (mk_sys (kv s) (marking s) rest (Some (i, op, store (kv s) !! i)) (dir s))
| step_write s i op snap io ok d :
    inflight s = Some (i, op, snap) -> flush_write io (dir s) i snap = (ok, d) ->
    step s (mk_sys (if ok then kv s else set_dirty (requeue (dirty (kv s)) i op) (kv s))
              (marking s) (batch s) None d).

Definition steps : Sys -> Sys -> Prop := rtc step.

(** No mutation and no flush under way, nothing dirty. *)
Definition quiescent (s : Sys) : Prop :=
  dirty (kv s) = ∅ /\ marking s = [] /\ batch s = [] /\ inflight s = None.

(** The scope as far as persistence is concerned: an empty scope is an absent one. *)
Definition view (o : option Scope) : option Scope :=
  match o with Some (_ :: _) => o | _ => None end.

(** A file-backed store just loaded from a directory. *)
Definition initial (s : Sys) : Prop :=
  canonical (dir s) /\ (forall i, on_disk (dir s) i <> Some []) /\
  file_backed (kv s) = true /\ store (kv s) = load_store_from_dir (λ _, true) (dir s) /\ quiescent s.

Definition pending (s : Sys) (i : string) : Prop :=
  is_Some (dirty (kv s) !! i) \/ i ∈ (marking s).*1 \/ i ∈ (batch s).*1.

(** The file of a scope stands for it: it reads as the scope, or it is the text of the scope. *)
Definition stands (d : Dir) (i : string) (o : option Scope) : Prop :=
  on_disk d i = view o \/ d !! index_file_name i = enc_scope <$> view o.

Definition settled (s : Sys) (i : string) : Prop :=
  match inflight s with
  | Some (j, _, snap) =>
      if decide (j = i) then view snap = view (store (kv s) !! i)
      else stands (dir s) i (store (kv s) !! i)
  | None => stands (dir s) i (store (kv s) !! i)
  end.

Definition good_name (i : string) : Prop := i <> "" /\ utf8_valid i = true.

Record inv (s : Sys) : Prop := {
  inv_dir : canonical (dir s);
  inv_file : file_backed (kv s) = true;
  inv_names : forall i, is_Some (store (kv s) !! i) -> utf8_valid i = true;
  inv_flight : forall i op v, inflight s = Some (i, op, Some v) -> utf8_valid i = true;
  inv_scopes : forall i, good_name i -> pending s i \/ settled s i;
}.

(** *** Lemmas *)

Lemma requeue_self d i op : is_Some (requeue d i op !! i).
Proof. unfold requeue. destruct (d !! i) eqn:Hd; [by eexists|]. rewrite lookup_insert_eq. by eexists. Qed.

Lemma requeue_mono d i j op : is_Some (d !! j) -> is_Some (requeue d i op !! j).
Proof.
  intros Hj. unfold requeue. destruct (d !! i) eqn:Hd; [done|].
  destruct (decide (i = j)) as [->|]; [rewrite lookup_insert_eq; by eexists|]. by rewrite lookup_insert_ne.
Qed.

Lemma flush_write_other io d i j snap :
  i <> j -> (flush_write io d i snap).2 !! index_file_name j = d !! index_file_name j.
Proof.
  intros Hne. unfold flush_write. destruct snap as [[|p l]|];
    [by apply delete_other|by apply persist_other|by apply delete_other].
Qed.

Lemma flush_write_self io d i snap :
  (flush_write io d i snap).1 = true -> (flush_write io d i snap).2 !! index_file_name i = enc_scope <$> view snap.
Proof.
  unfold flush_write. destruct snap as [[|p l]|]; intros Hok.
  - by rewrite delete_self, Hok.
  - by rewrite persist_self, Hok.
  - by rewrite delete_self, Hok.
Qed.

Lemma flush_write_canonical io d i snap :
  (forall v, snap = Some v -> utf8_valid i = true) -> canonical d -> canonical (flush_write io d i snap).2.
Proof.
  intros Hn Hc. unfold flush_write. destruct snap as [[|p l]|]; try by apply canonical_delete.
  apply canonical_persist; [by eapply Hn|done].
Qed.

Lemma im_remove_absent k m : obj_get k m = None -> im_remove k m = m.
Proof.
  unfold im_remove, obj_remove. induction m as [|[k' v] m IH]; simpl; [done|].
  case_decide as Hk; [done|]. intros Hm. rewrite filter_cons_True by (simpl; congruence). by rewrite IH.
Qed.

(** A removal only touches its own scope, and without a mark it changes no view. *)
Lemma remove_store_other i k kv0 j : i <> j -> store (remove_store i k kv0).2 !! j = store kv0 !! j.
Proof.
  intros Hne. unfold remove_store. destruct (store kv0 !! i); simpl; [|done]. by rewrite lookup_insert_ne.
Qed.

Lemma remove_store_absent i k kv0 j :
  (remove_store i k kv0).1.2 = None -> store (remove_store i k kv0).2 !! j = store kv0 !! j.
Proof.
  intros Hn. destruct (decide (i = j)) as [->|Hne]; [|by apply remove_store_other].
  unfold remove_store in *. destruct (store kv0 !! j) as [m|] eqn:Hj; simpl in *; [|done].
  rewrite lookup_insert_eq. destruct (obj_get k m) eqn:Hk; [done|]. by rewrite im_remove_absent.
Qed.

Lemma remove_store_frame i k kv0 :
  file_backed (remove_store i k kv0).2 = file_backed kv0 /\ dirty (remove_store i k kv0).2 = dirty kv0.
Proof. unfold remove_store. by destruct (store kv0 !! i). Qed.

Lemma remove_store_dom i k kv0 j :
  is_Some (store (remove_store i k kv0).2 !! j) -> is_Some (store kv0 !! j).
Proof.
  destruct (decide (i = j)) as [->|Hne]; [|by rewrite remove_store_other].
  unfold remove_store. destruct (store kv0 !! j) eqn:Hj; simpl; [by eexists|]. by rewrite Hj.
Qed.

(** Every scope is a map. *)
Definition maps (kv0 : KvStore) : Prop := forall i m, store kv0 !! i = Some m -> NoDup m.*1.

Lemma im_insert_keys k v m x : x ∈ (im_insert k v m).*1 <-> x = k \/ x ∈ m.*1.
Proof.
  induction m as [|[k' v'] m IH]; simpl; [by rewrite list_elem_of_singleton, elem_of_nil; naive_solver|].
  case_decide; subst; rewrite !fmap_cons, !elem_of_cons; simpl; [tauto|]. rewrite IH. tauto.
Qed.

Lemma im_insert_map k v m : NoDup m.*1 -> NoDup (im_insert k v m).*1.
Proof.
  induction m as [|[k' v'] m IH]; simpl; [intros _; by apply NoDup_singleton|]. rewrite NoDup_cons. intros [Hn Hm].
  case_decide as Hk; rewrite fmap_cons, NoDup_cons; simpl; [by subst|]. split; [|by apply IH]. rewrite im_insert_keys. naive_solver.
Qed.

Lemma insert_maps i k v kv0 : maps kv0 -> maps (set_store i k v kv0).2.
Proof.
  intros Hm j m. unfold set_store. simpl. rewrite lookup_insert. case_decide as Hd; [|apply Hm]. intros [= <-].
  apply im_insert_map. unfold scope_of. destruct (store kv0 !! i) as [m|] eqn:Hi; simpl; [by eapply Hm|constructor].
Qed.

Lemma remove_maps i k kv0 : maps kv0 -> maps (remove_store i k kv0).2.
Proof.
  intros Hm j m. unfold remove_store. destruct (store kv0 !! i) as [m0|] eqn:Hi; simpl; [|apply Hm]. rewrite lookup_insert.
  case_decide as Hd; [|apply Hm]. intros [= <-]. apply NoDup_filter_fmap. by eapply Hm.
Qed.

Lemma elem_fst {A B} (a : A) (b : B) l : (a, b) ∈ l -> a ∈ l.*1.
Proof. intros Hin. apply list_elem_of_fmap. by exists (a, b). Qed.

Lemma step_inv s s' : inv s -> step s s' -> inv s'.
Proof.
  intros [Hd Hf Hn Hfl Hs] Hstep.
  destruct Hstep as [s i k v Hi|s i k op Hop|s i k Hop|s i op l1 l2 Hm|s b Hb Hfi Hp|s i op rest Hb Hfi|s i op snap io ok d Hfi Hw];
    simpl in *.
  - (* insert *)
    split; simpl; try done.
    + intros j. destruct (decide (i = j)) as [->|Hne]; [done|]. rewrite lookup_insert_ne by done. apply Hn.
    + intros j Hg. destruct (decide (i = j)) as [->|Hne].
      { left. right. left. simpl. rewrite fmap_app, elem_of_app. right. by left. }
      destruct (Hs j Hg) as [[?|[?|?]]|Hset].
      * left. by left.
      * left. right. left. simpl. rewrite fmap_app, elem_of_app. by left.
      * left. by right; right.
      * right. unfold settled in *. simpl. by rewrite lookup_insert_ne.
  - (* remove *)
    destruct (remove_store_frame i k (kv s)) as [Hff Hdd].
    split; simpl; try done; [congruence| |].
    + intros j Hj. by apply Hn, (remove_store_dom i k).
    + intros j Hg. destruct (decide (i = j)) as [->|Hne].
      { left. right. left. simpl. rewrite fmap_app, elem_of_app. right. by left. }
      unfold pending, settled in *. simpl. rewrite Hdd, remove_store_other by done.
      rewrite fmap_app, elem_of_app. destruct (Hs j Hg) as [[?|[?|?]]|?]; tauto.
  - (* remove, nothing there *)
    destruct (remove_store_frame i k (kv s)) as [Hff Hdd].
    split; simpl; try done; [congruence| |].
    + intros j Hj. by apply Hn, (remove_store_dom i k).
    + intros j Hg. unfold pending, settled in *. simpl. rewrite Hdd, remove_store_absent by done. by apply Hs.
  - (* mark *)
    split; simpl; try done.
    + unfold mark. by rewrite Hf.
    + intros j. rewrite store_mark. apply Hn.
    + intros j Hg. unfold pending, settled in *. simpl. rewrite store_mark.
      unfold mark. rewrite Hf. simpl. specialize (Hs j Hg). rewrite Hm in Hs.
      rewrite fmap_app, elem_of_app in *. rewrite fmap_cons, elem_of_cons in Hs. simpl in Hs.
      destruct (decide (i = j)) as [->|Hne]; [left; left; rewrite lookup_insert_eq; by eexists|].
      rewrite lookup_insert_ne by done. naive_solver.
  - (* drain *)
    split; simpl; try done.
    intros j Hg. specialize (Hs j Hg). unfold pending, settled in *. simpl in *. rewrite Hb, Hfi in *.
    rewrite Hp. simpl in Hs. destruct Hs as [[[op Hop]|[?|Hnil]]|?].
    + left. right. right. apply elem_of_map_to_list in Hop. by apply elem_fst in Hop.
    + left. right. by left.
    + by apply elem_of_nil in Hnil.
    + by right.
  - (* snapshot *)
    split; simpl; try done.
    + intros j op' v [= -> -> Hv]. apply Hn. by eexists.
    + intros j Hg. specialize (Hs j Hg). unfold pending, settled in *. simpl. rewrite Hb, Hfi in Hs.
      rewrite fmap_cons, elem_of_cons in Hs. simpl in Hs.
      destruct (decide (i = j)) as [->|Hne]; [by right|]. naive_solver.
  - (* write *)
    assert (canonical d) as Hc.
    { replace d with (flush_write io (dir s) i snap).2 by by rewrite Hw.
      apply flush_write_canonical; [|done]. intros v ->. by eapply Hfl. }
    split; simpl; try done; [by destruct ok|by destruct ok|].
    intros j Hg. specialize (Hs j Hg). unfold pending, settled in *. simpl. rewrite Hfi in Hs.
    destruct (decide (i = j)) as [->|Hne].
    + destruct ok; simpl.
      * destruct Hs as [?|Hv]; [by left|]. right.
        pose proof (flush_write_self io (dir s) j snap) as Hself. rewrite Hw in Hself. right. rewrite <-Hv. by apply Hself.
      * left. left. apply requeue_self.
    + assert (d !! index_file_name j = dir s !! index_file_name j) as Hdj.
      { pose proof (flush_write_other io (dir s) i j snap Hne) as Ho. by rewrite Hw in Ho. }
      unfold stands, on_disk in *. rewrite Hdj. destruct ok; simpl; [done|].
      destruct Hs as [[?|?]|?]; [left; left; by apply requeue_mono|left; by right|by right].
Qed.

Lemma initial_inv s : initial s -> inv s.
Proof.
  intros (Hc & Hne & Hf & Hst & Hq & Hm & Hb & Hi). split; try done.
  - intros i [v Hv]. rewrite Hst in Hv.
    destruct (utf8_valid i) eqn:Hu; [done|]. rewrite load_store_foreign in Hv; [done|done|by right].
  - intros i op v. by rewrite Hi.
  - intros i [H1 H2]. right. unfold settled, stands. rewrite Hi, Hst, load_store_lookup by done. left.
    specialize (Hne i). by destruct (on_disk (dir s) i) as [[|p l]|].
Qed.

Lemma steps_inv s s' : inv s -> steps s s' -> inv s'.
Proof. intros Hi Hs. induction Hs; [done|]. by eapply IHHs, step_inv. Qed.

Lemma step_maps s s' : maps (kv s) -> step s s' -> maps (kv s').
Proof.
  intros Hm Hstep. destruct Hstep; simpl; try done; [by apply insert_maps|by apply remove_maps|by apply remove_maps| |by destruct ok].
  intros j. rewrite store_mark. apply Hm.
Qed.

Lemma initial_maps s : initial s -> maps (kv s).
Proof.
  intros (_ & _ & _ & Hst & _) i m Hi. rewrite Hst, load_store_list in Hi. apply elem_of_list_to_map_2 in Hi.
  rewrite elem_of_reverse, list_elem_of_omap in Hi. destruct Hi as ([n b] & _ & He). apply load_entry_Some in He as (_ & _ & Hs).
  by eapply dec_scope_map.
Qed.

Lemma steps_maps s0 s : initial s0 -> steps s0 s -> maps (kv s).
Proof. intros Hi Hs. assert (maps (kv s0)) as Hm by by apply initial_maps. clear Hi. induction Hs; eauto using step_maps. Qed.

(** The uninterrupted flush is a run of the writer's steps. *)
Lemma flush_batch_steps io k0 m b d0 :
  forall d dr, flush_batch io (store k0) b d dr = d0 ->
  steps (mk_sys (set_dirty d k0) m b None dr)
        (mk_sys (set_dirty d0.1.2 k0) m [] None d0.2).
Proof.
  revert d0. induction b as [|[i op] rest IH]; intros d0 d dr Hb; simpl in Hb.
  { subst. apply rtc_refl. }
  destruct (flush_write (io i) dr i (store k0 !! i)) as [ok dr1] eqn:Hw.
  destruct (flush_batch io (store k0) rest (if ok then d else requeue d i op) dr1) as [[f d2] dr2] eqn:Hr.
  subst d0. simpl. eapply rtc_l; [by eapply step_snapshot|].
  eapply rtc_l; [eapply step_write; [done|exact Hw]|]. simpl.
  specialize (IH _ _ _ Hr). simpl in IH. by destruct ok.
Qed.

Lemma flush_steps io k0 m dr failed k1 dr1 :
  flush_dirty_blocking io k0 dr = (failed, k1, dr1) ->
  steps (mk_sys k0 m [] None dr) (mk_sys k1 m [] None dr1).
Proof.
  unfold flush_dirty_blocking.
  destruct (flush_batch io (store k0) (map_to_list (dirty k0)) ∅ dr) as [[f d] dr2] eqn:Hb.
  intros [= <- <- <-]. eapply rtc_l; [by eapply step_drain|].
  pose proof (flush_batch_steps io k0 m _ _ _ _ Hb) as Hs. exact Hs.
Qed.

(** The dirty map after a flush holds exactly the scopes whose write failed. *)
Lemma flush_batch_no_failure io m b d dr :
  (forall i, i ∈ b.*1 -> io i = IoOk) ->
  (flush_batch io m b d dr).1 = (0, d).
Proof.
  revert d dr. induction b as [|[i op] rest IH]; intros d dr Hio; [done|]. simpl.
  assert ((flush_write (io i) dr i (m !! i)).1 = true) as Hok.
  { rewrite Hio by by left. unfold flush_write. by destruct (m !! i) as [[|? ?]|]. }
  destruct (flush_write (io i) dr i (m !! i)) as [ok dr1]. simpl in Hok. subst ok.
  specialize (IH d dr1). destruct (flush_batch io m rest d dr1) as [[f d2] dr2]. simpl in *.
  apply IH. intros j Hj. apply Hio. by right.
Qed.

(** What a quiescent directory restarts to. *)
Lemma quiescent_load s i :
  inv s -> maps (kv s) -> quiescent s -> i <> "" -> (forall m, store (kv s) !! i = Some m -> legible m) ->
  load_store_from_dir (λ _, true) (dir s) !! i = view (store (kv s) !! i).
Proof.
  intros Hinv Hk (Hq & Hm & Hb & Hi) Hne Hl. destruct (utf8_valid i) eqn:Hu.
  - rewrite load_store_lookup by (done || apply Hinv).
    destruct (inv_scopes s Hinv i (conj Hne Hu)) as [[[op Hp]|[Hp|Hp]]|Hset].
    + by rewrite Hq in Hp.
    + rewrite Hm in Hp. by apply elem_of_nil in Hp.
    + rewrite Hb in Hp. by apply elem_of_nil in Hp.
    + unfold settled in Hset. rewrite Hi in Hset. destruct Hset as [Hs|Hs]; [done|]. unfold on_disk. rewrite Hs.
      destruct (store (kv s) !! i) as [[|x m]|] eqn:Hst; simpl; [done| |done]. apply dec_enc_scope; [by eapply Hk|by apply Hl].
  - rewrite load_store_foreign; [|apply Hinv|by right].
    destruct (store (kv s) !! i) eqn:Hst; [|done]. rewrite (inv_names s Hinv i) in Hu; [done|by eexists].
Qed.

End Machine.
End Flush.

(** ** Properties *)

Module StoreProperties.
Import FileNames Disk Kv Flush.

(** The file name of a scope determines the scope, [index_from_path] reads it back for
    every valid UTF-8 name, and no name can leave the storage directory. *)
Theorem scope_file_name_roundtrip (i : string) :
  utf8_valid i = true ->
  index_from_path (index_file_name i) = Some i /\
  contains_char "/" (index_file_name i) = false /\
  (forall j, index_file_name j = index_file_name i -> j = i).
Proof.
  intros Hi. split; [by apply index_from_file_name|]. split; [|intros j; apply index_file_name_inj].
  unfold index_file_name. by rewrite contains_char_app, encode_index_no_char.
Qed.

Lemma scope_file_name_roundtrip_witness :
  utf8_valid "a/b é" = true /\ index_file_name "a/b é" = "a%2Fb%20%C3%A9.bin" /\
  index_from_path (index_file_name "a/b é") = Some "a/b é".
Proof.
  split; [vm_compute; reflexivity|]. split; [vm_compute; reflexivity|].
  refine (proj1 (scope_file_name_roundtrip "a/b é" _)). vm_compute. reflexivity.
Defined.

Section Persistence.
Context `{ScopeFile}.

(** Writing one scope is atomic: if it succeeds a restart reads the new scope, which is legible, and
    if it fails or is cut short at any stage a restart reads what it read before; the other scopes
    are read as before in every case. *)
Theorem persist_is_atomic io d i v :
  canonical d -> i <> "" -> utf8_valid i = true -> NoDup v.*1 -> legible v ->
  let '(ok, d') := persist_index_to_disk io d i v in
  (load_store_from_dir (λ _, true) d' !! i
   = if ok then Some v else load_store_from_dir (λ _, true) d !! i) /\
  (forall j, j <> i -> load_store_from_dir (λ _, true) d' !! j = load_store_from_dir (λ _, true) d !! j).
Proof.
  intros Hc Hi Hu Hk Hl. pose proof (canonical_persist io d i v Hu Hc) as Hc'.
  pose proof (persist_self io d i v) as Hself. pose proof (persist_other io d i) as Hother.
  destruct (persist_index_to_disk io d i v) as [ok d'] eqn:Hp. simpl in *. split.
  - rewrite !load_store_lookup by done. unfold on_disk. rewrite Hself. destruct ok; [by apply dec_enc_scope|done].
  - intros j Hj. destruct (decide (j <> "" /\ utf8_valid j = true)) as [[Hj1 Hj2]|Hbad].
    + rewrite !load_store_lookup by done. unfold on_disk. specialize (Hother j v). rewrite Hp in Hother. simpl in Hother. by rewrite Hother.
    + assert (j = "" \/ utf8_valid j = false) as Hb.
      { destruct (decide (j = "")); [by left|]. right. destruct (utf8_valid j); [|done]. naive_solver. }
      by rewrite !load_store_foreign.
Qed.

(** C13: in every state the interleaved system reaches (mutations of any scope between any two
    steps of the writer, writes that fail at any stage), once no mutation, flush or retry is
    pending, a restart reads back every scope that has a name that is not empty and holds values
    the text of a file keeps (no [f64], at most 126 levels), and an emptied scope is gone. *)
Theorem flushed_store_survives_restart s0 s i :
  initial s0 -> steps s0 s -> quiescent s -> i <> "" -> (forall m, store (kv s) !! i = Some m -> legible m) ->
  load_store_from_dir (λ _, true) (dir s) !! i = view (store (kv s) !! i).
Proof. intros Hi Hs Hq. apply quiescent_load; [|by eapply steps_maps|done]. by eapply steps_inv; [apply initial_inv|]. Qed.

(** The shutdown flush on a working disk is enough: from every reachable state with no
    mutation and no other writer under way it reports no failure, leaves nothing dirty, and a
    restart reads every scope back that has a name and is legible. *)
Theorem shutdown_flush_persists_all s0 s io :
  initial s0 -> steps s0 s -> marking s = [] -> batch s = [] -> inflight s = None ->
  (forall i, io i = IoOk) ->
  exists k' d', flush_dirty_blocking io (kv s) (dir s) = (0, k', d') /\ dirty k' = ∅ /\
    store k' = store (kv s) /\
    forall i, i <> "" -> (forall m, store (kv s) !! i = Some m -> legible m) ->
      load_store_from_dir (λ _, true) d' !! i = view (store (kv s) !! i).
Proof.
  intros Hi Hs Hm Hb Hf Hio.
  destruct (flush_dirty_blocking io (kv s) (dir s)) as [[failed k'] d'] eqn:Hfl.
  assert (failed = 0 /\ dirty k' = ∅ /\ store k' = store (kv s)) as (-> & Hd & Hst).
  { unfold flush_dirty_blocking in Hfl.
    pose proof (flush_batch_no_failure io (store (kv s)) (map_to_list (dirty (kv s))) ∅ (dir s)) as Hn.
    destruct (flush_batch _ _ _ _ _) as [[f d] dr]. simpl in Hn.
    assert ((f, d) = (0, ∅)) as [= -> ->] by by apply Hn.
    by injection Hfl as <- <- <-. }
  exists k', d'. split; [done|]. split; [done|]. split; [done|]. intros i Hne Hl.
  assert (s = mk_sys (kv s) [] [] None (dir s)) as Hseq by (destruct s; simpl in *; by subst).
  pose proof (flush_steps io (kv s) [] (dir s) 0 k' d' Hfl) as Hsteps.
  rewrite <-Hst in *. assert (steps s0 (mk_sys k' [] [] None d')) as Hall by (etrans; [exact Hs|]; by rewrite Hseq).
  apply (quiescent_load (mk_sys k' [] [] None d')); [|by eapply steps_maps|done..].
  by eapply steps_inv; [apply initial_inv|].
Qed.

(** The scope with the empty name is accepted and served, but its file [.bin] has no
    extension for [Path::extension], so a restart never reads it back. *)
Theorem empty_scope_is_not_restored d k v kv0 :
  canonical d ->
  let kv1 := (Kv.set "" k v kv0).2 in
  let d' := (persist_index_to_disk IoOk d "" (scope_of kv1 "")).2 in
  get kv1 "" k = Some v /\ load_store_from_dir (λ _, true) d' !! "" = None.
Proof.
  intros Hc. cbv zeta. split.
  - unfold Kv.set, set_store. simpl. rewrite get_mark, get_insert. by rewrite decide_True.
  - apply load_store_foreign; [|by left]. intros name bytes Hl Hext. simpl in Hl.
    destruct (decide (index_file_name "" = name)) as [<-|Hne]; [done|].
    rewrite lookup_insert_ne in Hl by done.
    apply lookup_delete_Some in Hl as [_ Hl]. by eapply Hc.
Qed.

(** A scope that holds a value of more than 126 levels is served and written, but a restart does
    not read its file: the scope is gone, with all its other keys. *)
Theorem deep_scope_is_not_restored d i m : canonical d -> i <> "" -> utf8_valid i = true -> READ_LEVELS < levels m ->
  load_store_from_dir (λ _, true) (persist_index_to_disk IoOk d i m).2 !! i = None.
Proof.
  intros Hc Hi Hu Hd. rewrite load_store_lookup by (done || by apply canonical_persist). unfold on_disk. rewrite persist_self. simpl.
  by apply dec_enc_deep.
Qed.

End Persistence.

(** The store is a map from (scope, key) to values: [set], [delete] and [compare_and_set]
    change exactly their own key, [set] and [delete] report the value they displaced, and a
    [compare_and_set] writes iff the stored value matches and otherwise changes nothing and
    reports it. *)
Theorem kv_refines_map kv0 i k v expected a b :
  get (Kv.set i k v kv0).2 a b = (if decide (a = i /\ b = k) then Some v else get kv0 a b) /\
  (Kv.set i k v kv0).1 = (get kv0 i k, v) /\
  get (Kv.delete i k kv0).2 a b = (if decide (a = i /\ b = k) then None else get kv0 a b) /\
  (Kv.delete i k kv0).1 = get kv0 i k /\
  match compare_and_set i k expected v kv0 with
  | (Swapped old, kv1) =>
      cas_matches expected (get kv0 i k) = true /\ old = get kv0 i k /\
      get kv1 a b = if decide (a = i /\ b = k) then Some v else get kv0 a b
  | (NotSwapped cur, kv1) =>
      cas_matches expected (get kv0 i k) = false /\ cur = default Null (get kv0 i k) /\ kv1 = kv0
  end.
Proof.
  split_and!.
  - unfold Kv.set, set_store. simpl. by rewrite get_mark, get_insert.
  - done.
  - unfold Kv.delete, remove_shared. pose proof (get_remove kv0 i k a b) as Hr.
    destruct (remove_store i k kv0) as [[[r|] [op|]] kv1]; simpl in *; rewrite ?get_mark; done.
  - unfold Kv.delete, remove_shared, remove_store, get.
    destruct (store kv0 !! i) as [m|]; simpl; [|done]. by destruct (obj_get k m).
  - unfold compare_and_set. destruct (cas_matches expected (get kv0 i k)) eqn:Hc; simpl; [|done].
    split_and!; [done..|]. by rewrite get_mark, get_insert.
Qed.

(** Removing the last key of a scope empties it but leaves it in the map: [list_groups]
    goes on naming a scope that holds no value. *)
Lemma list_groups_names_empty_scopes kv0 i k v :
  store kv0 !! i = None ->
  let kv1 := (Kv.delete i k (Kv.set i k v kv0).2).2 in
  Kv.list kv1 i = [] /\ i ∈ list_groups kv1.
Proof.
  intros Hi. cbv zeta.
  assert (store (Kv.delete i k (Kv.set i k v kv0).2).2 = <[i := []]> (store kv0)) as Hs.
  { unfold Kv.delete, remove_shared, remove_store, Kv.set, set_store, scope_of. simpl.
    rewrite Hi, store_mark. simpl. rewrite lookup_insert_eq. simpl. rewrite decide_True by done. simpl.
    rewrite store_mark. simpl. unfold im_remove, obj_remove. rewrite filter_cons_False by naive_solver.
    by rewrite insert_insert_eq. }
  unfold Kv.list, list_groups. rewrite Hs, lookup_insert_eq. split; [done|].
  apply list_elem_of_fmap. exists (i, []). split; [done|]. by rewrite elem_of_map_to_list, lookup_insert_eq.
Qed.

(** *** Witnesses *)

(** A file format: the decimal spelling of the scope's code number. *)
Definition sample_enc (s : Scope) : string := pretty (Npos (encode s)).
Definition sample_dec (t : string) : option Scope :=
  match parse_digits 0 t with
  | Some (Zpos p) =>
      match decode p with
      | Some s => if decide (NoDup s.*1) then if levels s <=? READ_LEVELS then Some s else None else None
      | None => None
      end
  | _ => None
  end.

Lemma sample_dec_enc s : sample_dec (sample_enc s) = if decide (NoDup s.*1) then if levels s <=? READ_LEVELS then Some s else None else None.
Proof.
  unfold sample_dec, sample_enc, pretty, pretty_N. rewrite decide_False by done.
  destruct (parse_pretty_go (N.pos (encode s))) as [k Hk]. rewrite (Hk 0%Z ""). simpl.
  by rewrite (decode_encode (A := Scope)).
Qed.

Lemma legible_levels s : legible s -> levels s <= READ_LEVELS.
Proof.
  intros Hl. unfold levels. change READ_LEVELS with (S (pred READ_LEVELS)). apply le_n_S. induction Hl as [|p s Hp _ IH]; simpl; [lia|].
  apply Nat.max_lub; [by apply SampleFile.fits_nesting|done].
Qed.

Lemma sample_kept s : NoDup s.*1 -> legible s -> sample_dec (sample_enc s) = Some s.
Proof. intros Hk Hl%legible_levels. rewrite sample_dec_enc, decide_True by done. by rewrite (proj2 (Nat.leb_le _ _)). Qed.

Lemma sample_deep s : READ_LEVELS < levels s -> sample_dec (sample_enc s) = None.
Proof. intros Hd. rewrite sample_dec_enc. case_decide; [|done]. by rewrite (proj2 (Nat.leb_gt _ _)). Qed.

Lemma sample_map t s : sample_dec t = Some s -> NoDup s.*1.
Proof. unfold sample_dec. intros Hs. by repeat (case_match; simplify_eq). Qed.

Definition sample_file : ScopeFile :=
  {| enc_scope := sample_enc; dec_scope := sample_dec; dec_enc_scope := sample_kept; dec_enc_deep := sample_deep; dec_scope_map := sample_map |}.

Definition sample0 : Sys := mk_sys (new None ∅) [] [] None ∅.
Definition sample_kv : KvStore := (Kv.set "runs" "r1" (Str "x") (new None ∅)).2.
Definition sample1 : Sys := mk_sys sample_kv [] [] None ∅.
Definition sample2 : Sys :=
  mk_sys (flush_dirty_blocking (H := sample_file) (λ _, IoOk) sample_kv ∅).1.2 [] [] None
         (flush_dirty_blocking (H := sample_file) (λ _, IoOk) sample_kv ∅).2.

Lemma sample_initial : initial (H := sample_file) sample0.
Proof.
  split_and!; try done.
Qed.

Lemma sample_steps1 : steps (H := sample_file) sample0 sample1.
Proof.
  eapply rtc_l; [by apply (step_insert (H := sample_file) _ "runs" "r1" (Str "x"))|].
  eapply rtc_l; [by apply (step_mark (H := sample_file) _ "runs" Upsert [] [])|]. apply rtc_refl.
Qed.

Lemma sample_steps2 : steps (H := sample_file) sample0 sample2.
Proof.
  etrans; [exact sample_steps1|]. unfold sample1, sample2.
  destruct (flush_dirty_blocking (H := sample_file) (λ _, IoOk) sample_kv ∅) as [[f k] d] eqn:Hf.
  by eapply flush_steps.
Qed.

Lemma persist_is_atomic_witness :
  canonical ∅ /\
  load_store_from_dir (H := sample_file) (λ _, true)
    (persist_index_to_disk (H := sample_file) (IoFailWrite "half") ∅ "runs" [("r1", Null)]).2 !! "runs" = None.
Proof.
  assert (canonical ∅) as Hc by done. split; [exact Hc|].
  refine (proj1 (persist_is_atomic (H := sample_file) (IoFailWrite "half") ∅ "runs" [("r1", Null)] Hc _ _ _ _)).
  - discriminate.
  - reflexivity.
  - apply NoDup_singleton.
  - by apply Forall_singleton.
Defined.

Lemma sample_legible m : store (kv sample2) !! "runs" = Some m -> legible m.
Proof.
  assert (store (kv sample2) !! "runs" = Some [("r1", Str "x")]) as -> by (vm_compute; reflexivity). intros [= <-]. by apply Forall_singleton.
Qed.

Lemma flushed_store_survives_restart_witness :
  initial (H := sample_file) sample0 /\ steps (H := sample_file) sample0 sample2 /\ quiescent sample2 /\
  load_store_from_dir (H := sample_file) (λ _, true) (dir sample2) !! "runs" = Some [("r1", Str "x")].
Proof.
  assert (quiescent sample2) as Hq by (vm_compute; split_and!; reflexivity).
  split; [exact sample_initial|]. split; [exact sample_steps2|]. split; [exact Hq|].
  exact (flushed_store_survives_restart (H := sample_file) sample0 sample2 "runs"
           sample_initial sample_steps2 Hq ltac:(discriminate) sample_legible).
Defined.

Lemma shutdown_flush_persists_all_witness :
  dirty (kv sample1) !! "runs" = Some Upsert /\
  exists k' d', flush_dirty_blocking (H := sample_file) (λ _, IoOk) (kv sample1) (dir sample1) = (0, k', d').
Proof.
  split; [vm_compute; reflexivity|].
  destruct (shutdown_flush_persists_all (H := sample_file) sample0 sample1 (λ _, IoOk)
              sample_initial sample_steps1 eq_refl eq_refl eq_refl (λ _, eq_refl)) as (k' & d' & Hf & _).
  exists k', d'. exact Hf.
Defined.

Lemma empty_scope_is_not_restored_witness :
  canonical ∅ /\ get (Kv.set "" "k" (Bool true) (new None ∅)).2 "" "k" = Some (Bool true).
Proof.
  assert (canonical ∅) as Hc by done. split; [exact Hc|].
  exact (proj1 (empty_scope_is_not_restored (H := sample_file) ∅ "k" (Bool true) (new None ∅) Hc)).
Defined.

Lemma list_groups_names_empty_scopes_witness :
  store (new None ∅) !! "runs" = None /\
  Kv.list (Kv.delete "runs" "r1" (Kv.set "runs" "r1" Null (new None ∅)).2).2 "runs" = [].
Proof.
  split; [reflexivity|].
  exact (proj1 (list_groups_names_empty_scopes (new None ∅) "runs" "r1" Null eq_refl)).
Defined.

End StoreProperties.
