(* ===== verification/StateService.v ===== *)
(** * The state worker's functions (state/src/functions.rs, structs.rs, on_changed.rs, adapters.rs)

    The [state::*] handlers over a storage adapter.  The adapter is the trait
    [StateAdapter] as a class; [KvStoreAdapter] is its instance over [KvStore], and
    [AdapterLaws] is what a client may rely on.  Around the adapter the service keeps the
    registry of private namespaces: scopes a worker has claimed are out of reach of the
    public functions.  The theorems: the registry never gives one scope to two owners, a
    claim that cannot be persisted is rolled back exactly, public calls never read,
    change, list or announce a reserved scope, and a tenant's accessors stay inside its
    own scopes. *)

From Stdlib Require Import Ascii ZArith Lia.
From S2P Require Import Prelude Json StateBarrier StateUpdate StateStore.

(** ** The adapter *)

Module Adapter.

(** [anyhow::Error] and [Error::Handler]: their text. *)
Abbreviation Error := string.

(** The trait [StateAdapter], as operations on the adapter's state. *)
Class StateAdapter (S : Type) : Type := {
  a_set : string -> string -> Value -> S -> result (option Value * Value) Error * S;
  a_get : string -> string -> S -> result (option Value) Error * S;
  a_delete : string -> string -> S -> result unit Error * S;
  a_update : string -> string -> list Update.UpdateOp -> S -> result Kv.StreamUpdateResult Error * S;
  a_cas : string -> string -> option Value -> Value -> S -> result Kv.CompareAndSetOutcome Error * S;
  a_barrier : string -> string -> Barrier.BarrierConfig -> Value -> S -> result Barrier.Decision Error * S;
  a_list : string -> S -> result (list Value) Error * S;
  a_list_keys : string -> S -> result (list string) Error * S;
  a_list_groups : S -> result (list string) Error * S;
  a_flush : S -> result unit Error * S;
}.

Section KvInstance.
Context `{SerdeText} (debug_strings : list string -> string).
Context (flush_kv : Kv.KvStore -> result unit Error * Kv.KvStore).

(** [KvStoreAdapter]: only barriers and flushes can fail.  [flush_kv] is the flush against
    the directory of the process ([Flush.flush_dirty_blocking]). *)
Definition KvStoreAdapter : StateAdapter Kv.KvStore := {|
  a_set scope key value kv := let '(r, kv1) := Kv.set scope key value kv in (Ok r, kv1);
  a_get scope key kv := (Ok (Kv.get kv scope key), kv);
  a_delete scope key kv := (Ok tt, (Kv.remove_shared scope key kv).2);
  a_update scope key ops kv := let '(r, kv1) := Kv.update scope key ops kv in (Ok r, kv1);
  a_cas scope key expected value kv :=
    let '(r, kv1) := Kv.compare_and_set scope key expected value kv in (Ok r, kv1);
  a_barrier scope key cfg event kv := Kv.barrier_arrive debug_strings scope key cfg event kv;
  a_list scope kv := (Ok (Kv.list kv scope), kv);
  a_list_keys scope kv := (Ok (Kv.list_keys kv scope), kv);
  a_list_groups kv := (Ok (Kv.list_groups kv), kv);
  a_flush kv := flush_kv kv;
|}.
End KvInstance.

(** What a client of an adapter relies on: reads do not change the state and, when they
    answer, answer the stored value; a successful write is the only change; a failed
    operation changes nothing. *)
Class AdapterLaws (S : Type) `{StateAdapter S} (view : S -> string -> string -> option Value) : Prop := {
  law_get : forall sc k s, (a_get sc k s).2 = s /\
    (forall o, (a_get sc k s).1 = Ok o -> o = view s sc k);
  law_set : forall sc k v s a b,
    match a_set sc k v s with
    | (Ok (old, new), s') => old = view s sc k /\ new = v /\
        view s' a b = (if decide (a = sc /\ b = k) then Some v else view s a b)
    | (Err _, s') => s' = s
    end;
  law_delete : forall sc k s a b,
    match a_delete sc k s with
    | (Ok _, s') => view s' a b = (if decide (a = sc /\ b = k) then None else view s a b)
    | (Err _, s') => s' = s
    end;
  law_update : forall sc k ops s a b,
    match a_update sc k ops s with
    | (Ok r, s') => Kv.upd_old r = view s sc k /\
        (Kv.upd_new r, Kv.upd_errors r) = Update.apply_update_ops (view s sc k) ops /\
        view s' a b = (if decide (a = sc /\ b = k) then Some (Kv.upd_new r) else view s a b)
    | (Err _, s') => s' = s
    end;
  law_cas : forall sc k e v s a b,
    match a_cas sc k e v s with
    | (Ok (Kv.Swapped old), s') => old = view s sc k /\ Kv.cas_matches e (view s sc k) = true /\
        view s' a b = (if decide (a = sc /\ b = k) then Some v else view s a b)
    | (Ok (Kv.NotSwapped _), s') => Kv.cas_matches e (view s sc k) = false /\ s' = s
    | (Err _, s') => s' = s
    end;
  law_list : forall sc s, (a_list sc s).2 = s;
  law_list_keys : forall sc s, (a_list_keys sc s).2 = s;
  law_list_groups : forall s, (a_list_groups s).2 = s;
  law_flush : forall s a b, view (a_flush s).2 a b = view s a b;
}.

(** [KvStore] keeps the promises of the interface, for every flush that leaves the map alone. *)
Lemma KvStoreAdapter_laws `{SerdeText} debug flush_kv :
  (forall kv, Kv.store (flush_kv kv).2 = Kv.store kv) ->
  AdapterLaws (H := KvStoreAdapter debug flush_kv) Kv.KvStore Kv.get.
Proof.
  intros Hflush. split; simpl.
  - intros sc k kv. split; [done|]. by intros o [= <-].
  - intros sc k v kv a b. unfold Kv.set, Kv.set_store. split_and!; [done..|].
    by rewrite Kv.get_mark, Kv.get_insert.
  - intros sc k kv a b. unfold Kv.remove_shared. pose proof (Kv.get_remove kv sc k a b) as Hr.
    destruct (Kv.remove_store sc k kv) as [[[r|] [op|]] kv1]; simpl in *; rewrite ?Kv.get_mark; done.
  - intros sc k ops kv a b. pose proof (Kv.get_update kv sc k ops a b) as Hu. unfold Kv.update, Kv.update_store in *.
    destruct (Update.apply_update_ops (Kv.get kv sc k) ops) as [v es]. cbn [fst snd Kv.upd_old Kv.upd_new Kv.upd_errors] in *.
    by split_and!.
  - intros sc k e v kv a b. unfold Kv.compare_and_set.
    destruct (Kv.cas_matches e (Kv.get kv sc k)) eqn:Hc; simpl; [|done].
    split_and!; [done..|]. by rewrite Kv.get_mark, Kv.get_insert.
  - done.
  - done.
  - done.
  - intros kv a b. unfold Kv.get. by rewrite Hflush.
Qed.

End Adapter.

(** ** Private namespaces *)

Module Claims.

Definition CLAIMS_SCOPE : string := "__state_private_namespaces".

Record PrivateNamespace : Type := {
  functions_prefix : string;
  scopes : list string;
}.

Record Claims : Type := mk_claims {
  namespaces : list PrivateNamespace;
  reserved : gset string;
}.

Definition no_claims : Claims := mk_claims [] ∅.

Inductive ClaimOutcome : Type :=
| Claimed (fresh : list string) (namespace_is_new : bool)
| AlreadyOwned
| Conflict (reason : string).

Definition is_builtin_reserved_scope (scope : string) : bool :=
  bool_decide (scope = CLAIMS_SCOPE) || bool_decide (scope = Barrier.BARRIER_SCOPE).

Definition is_reserved (c : Claims) (scope : string) : bool :=
  is_builtin_reserved_scope scope || bool_decide (scope ∈ reserved c).

Definition owned_scopes (c : Claims) (prefix : string) : gset string :=
  list_to_set (n ← filter (λ n, functions_prefix n = prefix) (namespaces c); scopes n).

(** The namespace that lists [scope], if one does. *)
Definition owner (c : Claims) (scope : string) : string :=
  match list_find (λ n, scope ∈ scopes n) (namespaces c) with
  | Some (_, n) => functions_prefix n
  | None => ""
  end.

(** The loop of [claim]: the scopes that are not reserved yet, or the first conflict. *)
Fixpoint fresh_scopes (c : Claims) (prefix : string) (req : list string) : result (list string) string :=
  match req with
  | [] => Ok []
  | scope :: rest =>
      if decide (scope ∈ reserved c) then
        if decide (owner c scope = prefix) then fresh_scopes c prefix rest
        else Err ("scope `" +:+ scope +:+ "` is already claimed by namespace `" +:+ owner c scope +:+ "`")
      else match fresh_scopes c prefix rest with
           | Ok fresh => Ok (scope :: fresh)
           | Err e => Err e
           end
  end.

(** [existing.scopes.extend(fresh)] on the first namespace with the prefix, else a new one. *)
Fixpoint extend_namespace (prefix : string) (fresh : list string) (ns : list PrivateNamespace)
  : list PrivateNamespace * bool :=
  match ns with
  | [] => ([{| functions_prefix := prefix; scopes := fresh |}], true)
  | n :: ns' =>
      if decide (functions_prefix n = prefix)
      then ({| functions_prefix := functions_prefix n; scopes := scopes n ++ fresh |} :: ns', false)
      else let '(ns1, is_new) := extend_namespace prefix fresh ns' in (n :: ns1, is_new)
  end.

Definition claim (prefix : string) (req : list string) (c : Claims) : ClaimOutcome * Claims :=
  match find is_builtin_reserved_scope req with
  | Some scope => (Conflict ("scope `" +:+ scope +:+ "` is reserved by the state worker"), c)
  | None =>
      match fresh_scopes c prefix req with
      | Err reason => (Conflict reason, c)
      | Ok [] => (AlreadyOwned, c)
      | Ok fresh =>
          let '(ns, is_new) := extend_namespace prefix fresh (namespaces c) in
          (Claimed fresh is_new, mk_claims ns (list_to_set fresh ∪ reserved c))
      end
  end.

(** [namespace.scopes.retain(|s| !scopes.contains(s))] on the first namespace with the prefix. *)
Fixpoint retract_namespace (prefix : string) (gone : list string) (ns : list PrivateNamespace)
  : list PrivateNamespace :=
  match ns with
  | [] => []
  | n :: ns' =>
      if decide (functions_prefix n = prefix)
      then {| functions_prefix := functions_prefix n; scopes := filter (λ s, s ∉ gone) (scopes n) |} :: ns'
      else n :: retract_namespace prefix gone ns'
  end.

Definition release (prefix : string) (gone : list string) (c : Claims) : Claims :=
  let ns := retract_namespace prefix gone (namespaces c) in
  mk_claims (filter (λ n, functions_prefix n <> prefix \/ scopes n <> []) ns)
            (reserved c ∖ list_to_set gone).

(** [c.is_ascii_alphanumeric() || c == '_' || c == '-'] for every character. *)
Definition prefix_char (c : ascii) : bool :=
  let b := ascii_code c in
  (((65 <=? b) && (b <=? 90)) || ((97 <=? b) && (b <=? 122)) || ((48 <=? b) && (b <=? 57))
   || (b =? 95) || (b =? 45))%Z.

Fixpoint all_chars (p : ascii -> bool) (s : string) : bool :=
  match s with EmptyString => true | String c s' => p c && all_chars p s' end.

Definition valid_prefix (prefix : string) : bool :=
  negb (is_empty prefix) && all_chars prefix_char prefix.

Definition internal_ids (prefix : string) : string * string * string :=
  (prefix +:+ "::state::get", prefix +:+ "::state::list", prefix +:+ "::state::compare-and-set").

(** *** The registry invariant *)

(** Prefixes are distinct, no namespace is empty, a scope is reserved iff a namespace lists
    it, and no two namespaces list the same scope. *)
Record wf (c : Claims) : Prop := {
  wf_prefixes : NoDup (functions_prefix <$> namespaces c);
  wf_nonempty : Forall (λ n, scopes n <> []) (namespaces c);
  wf_reserved : forall s, s ∈ reserved c <-> exists n, n ∈ namespaces c /\ s ∈ scopes n;
  wf_disjoint : forall n m s, n ∈ namespaces c -> m ∈ namespaces c -> s ∈ scopes n -> s ∈ scopes m -> n = m;
}.

(** *** Lemmas *)

Lemma wf_no_claims : wf no_claims.
Proof.
  split; simpl; [constructor|constructor| |].
  - intros s. split; [set_solver|]. intros (n & Hn & _). by apply elem_of_nil in Hn.
  - intros n m s Hn. by apply elem_of_nil in Hn.
Qed.

Lemma fresh_scopes_fresh c prefix req fresh s :
  fresh_scopes c prefix req = Ok fresh -> s ∈ fresh -> s ∉ reserved c.
Proof.
  revert fresh. induction req as [|x req IH]; intros fresh; simpl; [intros [= <-] Hs; by apply elem_of_nil in Hs|].
  case_decide as Hx; [case_decide; [apply IH|done]|].
  destruct (fresh_scopes c prefix req) as [f|]; [|done]. intros [= <-] [->|Hs]%elem_of_cons; [done|]. by eapply IH.
Qed.

Lemma fresh_scopes_owned c prefix req fresh s :
  fresh_scopes c prefix req = Ok fresh -> s ∈ req -> s ∈ fresh \/ (s ∈ reserved c /\ owner c s = prefix).
Proof.
  revert fresh. induction req as [|x req IH]; intros fresh; simpl; [intros _ Hs; by apply elem_of_nil in Hs|].
  case_decide as Hx; [case_decide as Ho; [|done]|].
  - intros Hf [->|Hs]%elem_of_cons; [by right|]. by apply IH.
  - destruct (fresh_scopes c prefix req) as [f|]; [|done]. intros [= <-] [->|Hs]%elem_of_cons; [left; by left|].
    destruct (IH f eq_refl Hs); [left; by right|by right].
Qed.

Lemma extend_namespace_elem prefix fresh ns n :
  NoDup (functions_prefix <$> ns) ->
  n ∈ (extend_namespace prefix fresh ns).1 ->
  (n ∈ ns /\ functions_prefix n <> prefix) \/
  (functions_prefix n = prefix /\
   ((exists m, m ∈ ns /\ functions_prefix m = prefix /\ scopes n = (scopes m ++ fresh)) \/
    (prefix ∉ (functions_prefix <$> ns) /\ scopes n = fresh))).
Proof.
  induction ns as [|m ns IH]; simpl; intros Hnd Hn.
  { apply list_elem_of_singleton in Hn as ->. right. split; [done|]. right. split; [|done]. apply not_elem_of_nil. }
  apply NoDup_cons in Hnd as [Hm Hnd]. case_decide as Hd; simpl in Hn.
  - apply elem_of_cons in Hn as [->|Hn].
    + right. simpl. split; [done|]. left. exists m. split; [by left|]. by split.
    + left. split; [by right|]. intros Hp. apply Hm. rewrite Hd, <-Hp. by apply list_elem_of_fmap_2.
  - destruct (extend_namespace prefix fresh ns) as [ns1 b] eqn:He. simpl in *.
    apply elem_of_cons in Hn as [->|Hn]; [left; split; [by left|done]|].
    destruct (IH Hnd Hn) as [[? ?]|(Hp & [(m' & ? & ? & ?)|[? ?]])].
    + left. split; [by right|done].
    + right. split; [done|]. left. exists m'. split; [by right|]. by split.
    + right. split; [done|]. right. split; [|done]. by intros [?|?]%elem_of_cons.
Qed.

Lemma extend_namespace_prefixes prefix fresh ns :
  (functions_prefix <$> (extend_namespace prefix fresh ns).1)
  = if decide (prefix ∈ functions_prefix <$> ns) then functions_prefix <$> ns
    else ((functions_prefix <$> ns) ++ [prefix]).
Proof.
  induction ns as [|m ns IH]; [done|]. cbn [extend_namespace].
  destruct (decide (functions_prefix m = prefix)) as [Hd|Hd].
  - cbn [fst]. rewrite !fmap_cons. cbn [functions_prefix]. rewrite decide_True; [done|]. rewrite Hd. by left.
  - destruct (extend_namespace prefix fresh ns) as [ns1 b]. cbn [fst] in *. rewrite !fmap_cons, IH.
    destruct (decide (prefix ∈ functions_prefix <$> ns)) as [Hi|Hi].
    + rewrite decide_True; [done|]. by right.
    + rewrite decide_False; [done|]. by intros [?|?]%elem_of_cons.
Qed.

(** A namespace of the registry is still there, possibly with the fresh scopes added, and
    the claimant's namespace holds them. *)
Lemma extend_namespace_keeps prefix fresh ns m :
  m ∈ ns -> exists n, n ∈ (extend_namespace prefix fresh ns).1 /\ functions_prefix n = functions_prefix m
                      /\ forall s, s ∈ scopes m -> s ∈ scopes n.
Proof.
  induction ns as [|x ns IH]; [intros Hm; by apply elem_of_nil in Hm|]. simpl.
  intros Hm. case_decide as Hd.
  - apply elem_of_cons in Hm as [->|Hm].
    + eexists. split; [by left|]. split; [done|]. intros s Hs. apply elem_of_app. by left.
    + exists m. split; [by right|]. done.
  - destruct (extend_namespace prefix fresh ns) as [ns1 b]. simpl in *.
    apply elem_of_cons in Hm as [->|Hm]; [exists x; split; [by left|done]|].
    destruct (IH Hm) as (n & ? & ? & ?). exists n. split; [by right|done].
Qed.

Lemma extend_namespace_has prefix fresh ns :
  exists n, n ∈ (extend_namespace prefix fresh ns).1 /\ functions_prefix n = prefix
            /\ forall s, s ∈ fresh -> s ∈ scopes n.
Proof.
  induction ns as [|x ns IH]; simpl.
  { eexists. split; [by left|]. done. }
  case_decide as Hd; simpl.
  - eexists. split; [by left|]. split; [done|]. intros s Hs. apply elem_of_app. by right.
  - destruct (extend_namespace prefix fresh ns) as [ns1 b]. simpl in *.
    destruct IH as (n & ? & ? & ?). exists n. split; [by right|done].
Qed.

Lemma prefix_unique c n m :
  wf c -> n ∈ namespaces c -> m ∈ namespaces c -> functions_prefix n = functions_prefix m -> n = m.
Proof.
  intros Hw Hn Hm He. apply list_elem_of_lookup in Hn as [i Hi], Hm as [j Hj].
  assert (i = j) as ->; [|congruence].
  apply (NoDup_lookup _ _ _ (functions_prefix n) (wf_prefixes _ Hw)).
  - by rewrite list_lookup_fmap, Hi.
  - by rewrite list_lookup_fmap, Hj, He.
Qed.

Lemma fresh_nonempty_extend prefix fresh ns :
  fresh <> [] -> Forall (λ n, scopes n <> []) ns -> Forall (λ n, scopes n <> []) (extend_namespace prefix fresh ns).1.
Proof.
  intros Hf. induction 1 as [|n ns Hn Hns IH]; simpl; [by repeat constructor|].
  case_decide; simpl; [|destruct (extend_namespace prefix fresh ns); by constructor].
  constructor; [|done]. simpl. destruct (scopes n); done.
Qed.

Lemma claim_wf prefix req c : wf c -> wf (claim prefix req c).2.
Proof.
  intros Hw. unfold claim. destruct (find _ req); [done|].
  destruct (fresh_scopes c prefix req) as [[|f fs]|] eqn:Hf; [done| |done].
  assert (f :: fs <> []) as Hnil by done. remember (f :: fs) as fresh eqn:Hfr. clear Hfr f fs.
  assert (forall s, s ∈ fresh -> s ∉ reserved c) as Hfresh by (intros s; by eapply fresh_scopes_fresh).
  pose proof (extend_namespace_prefixes prefix fresh (namespaces c)) as Hp.
  pose proof (extend_namespace_elem prefix fresh (namespaces c)) as He.
  pose proof (extend_namespace_keeps prefix fresh (namespaces c)) as Hk.
  pose proof (extend_namespace_has prefix fresh (namespaces c)) as Hh.
  pose proof (fresh_nonempty_extend prefix fresh (namespaces c) Hnil (wf_nonempty _ Hw)) as Hne.
  destruct (extend_namespace prefix fresh (namespaces c)) as [ns is_new]. simpl in *.
  assert (forall n s, n ∈ ns -> s ∈ scopes n ->
            (functions_prefix n = prefix /\ s ∈ fresh) \/
            (s ∉ fresh /\ exists m, m ∈ namespaces c /\ s ∈ scopes m /\ functions_prefix m = functions_prefix n)) as Horig.
  { intros n s Hn Hs. destruct (decide (s ∈ fresh)) as [Hsf|Hsf].
    - left. split; [|done]. destruct (He n (wf_prefixes _ Hw) Hn) as [[Hn' Hpn]|[Hpn _]]; [|done].
      destruct (Hfresh s Hsf). apply (wf_reserved _ Hw). by exists n.
    - right. split; [done|]. destruct (He n (wf_prefixes _ Hw) Hn) as [[Hn' Hpn]|[Hpn [(m & Hm & Hmp & Hms)|[_ Hsc]]]].
      + by exists n.
      + rewrite Hms in Hs. apply elem_of_app in Hs as [Hs|Hs]; [|done]. exists m. split_and!; [done..|congruence].
      + congruence. }
  split; simpl.
  - rewrite Hp. case_decide as Hin; [apply Hw|]. apply NoDup_app. split; [apply Hw|]. split.
    + by intros x Hx ->%list_elem_of_singleton.
    + apply NoDup_singleton.
  - done.
  - intros s. rewrite elem_of_union, elem_of_list_to_set. split.
    + intros [Hs|(m & Hm & Hs)%(wf_reserved _ Hw)].
      * destruct Hh as (n & Hn & _ & Hin). exists n. split; [done|]. by apply Hin.
      * destruct (Hk m Hm) as (n & Hn & _ & Hin). exists n. split; [done|]. by apply Hin.
    + intros (n & Hn & Hs). destruct (Horig n s Hn Hs) as [[_ ?]|(_ & m & Hm & Hms & _)]; [by left|].
      right. apply (wf_reserved _ Hw). by exists m.
  - assert (NoDup (functions_prefix <$> ns)) as Hnd.
    { rewrite Hp. case_decide; [apply Hw|]. apply NoDup_app. split; [apply Hw|]. split.
      + by intros x Hx ->%list_elem_of_singleton.
      + apply NoDup_singleton. }
    intros n m s Hn Hm Hsn Hsm.
    assert (functions_prefix n = functions_prefix m) as Hpp.
    { destruct (Horig n s Hn Hsn) as [[Hn1 Hn2]|(Hn1 & n' & Hn' & Hsn' & Hpn)];
      destruct (Horig m s Hm Hsm) as [[Hm1 Hm2]|(Hm1 & m' & Hm' & Hsm' & Hpm)]; try done; [congruence|].
      rewrite <-Hpn, <-Hpm. f_equal. by eapply (wf_disjoint _ Hw). }
    apply list_elem_of_lookup in Hn as [i Hi], Hm as [j Hj].
    assert (i = j) as ->; [|congruence].
    apply (NoDup_lookup _ _ _ (functions_prefix n) Hnd).
    + by rewrite list_lookup_fmap, Hi.
    + by rewrite list_lookup_fmap, Hj, Hpp.
Qed.

Lemma retract_extend prefix fresh ns :
  Forall (λ n, forall s, s ∈ scopes n -> s ∉ fresh) ns -> Forall (λ n, scopes n <> []) ns ->
  filter (λ n, functions_prefix n <> prefix \/ scopes n <> [])
    (retract_namespace prefix fresh (extend_namespace prefix fresh ns).1) = ns.
Proof.
  induction ns as [|n ns IH]; intros Hd Hne; simpl.
  { rewrite decide_True by done. simpl.
    assert (filter (λ s, s ∉ fresh) fresh = []) as ->.
    { apply filter_none, Forall_forall. naive_solver. }
    apply filter_none. constructor; [simpl; naive_solver|constructor]. }
  apply Forall_cons in Hd as [Hd Hds], Hne as [Hn Hns]. case_decide as Hp; simpl.
  - rewrite decide_True by done.
    assert (filter (λ s, s ∉ fresh) (scopes n ++ fresh) = scopes n) as ->.
    { rewrite filter_app, (filter_none _ fresh), app_nil_r by (apply Forall_forall; naive_solver).
      by apply filter_all, Forall_forall. }
    rewrite filter_cons_True by (by right). f_equal; [by destruct n|].
    apply filter_all. eapply Forall_impl; [exact Hns|]. by right.
  - destruct (extend_namespace prefix fresh ns) as [ns1 b]. simpl in *. rewrite decide_False by done.
    rewrite filter_cons_True by (by left). by rewrite IH.
Qed.

Lemma wf_scopes_reserved c n s : wf c -> n ∈ namespaces c -> s ∈ scopes n -> s ∈ reserved c.
Proof. intros Hw Hn Hs. apply (wf_reserved _ Hw). by exists n. Qed.

Lemma release_claim prefix req c fresh b c' :
  wf c -> claim prefix req c = (Claimed fresh b, c') -> release prefix fresh c' = c.
Proof.
  intros Hw. unfold claim. destruct (find _ req); [done|].
  destruct (fresh_scopes c prefix req) as [[|f fs]|] eqn:Hf; [done| |done].
  pose proof (retract_extend prefix (f :: fs) (namespaces c)) as Hr.
  destruct (extend_namespace prefix (f :: fs) (namespaces c)) as [ns is_new]. intros [= <- <- <-].
  unfold release. cbn [namespaces reserved fst] in *. rewrite Hr.
  - destruct c as [ns0 R]. cbn [namespaces reserved] in *. f_equal.
    assert (forall s, s ∈ f :: fs -> s ∉ R) as Hd by (intros s Hs; exact (fresh_scopes_fresh _ _ _ _ s Hf Hs)).
    clear -Hd. set_solver.
  - apply Forall_forall. intros n Hn s Hs Hsf. eapply fresh_scopes_fresh in Hsf; [|done].
    by eapply Hsf, wf_scopes_reserved.
  - apply Hw.
Qed.

Lemma elem_of_owned_scopes c prefix s :
  s ∈ owned_scopes c prefix <-> exists n, n ∈ namespaces c /\ functions_prefix n = prefix /\ s ∈ scopes n.
Proof.
  unfold owned_scopes. rewrite elem_of_list_to_set, list_elem_of_bind. setoid_rewrite list_elem_of_filter. naive_solver.
Qed.

(** The owner of a scope is unique. *)
Lemma owned_scopes_disjoint c p q s :
  wf c -> s ∈ owned_scopes c p -> s ∈ owned_scopes c q -> p = q.
Proof.
  intros Hw (n & Hn & <- & Hs)%elem_of_owned_scopes (m & Hm & <- & Hs')%elem_of_owned_scopes.
  f_equal. by eapply (wf_disjoint _ Hw).
Qed.

Lemma owned_scope_reserved c p s : wf c -> s ∈ owned_scopes c p -> is_reserved c s = true.
Proof.
  intros Hw (n & Hn & _ & Hs)%elem_of_owned_scopes. unfold is_reserved.
  rewrite (bool_decide_eq_true_2 (s ∈ reserved c)); [by rewrite orb_true_r|]. by eapply wf_scopes_reserved.
Qed.

(** After a claim that is not a conflict the claimant owns every scope it asked for. *)
Lemma claim_owns prefix req c o c' s :
  wf c -> claim prefix req c = (o, c') -> (forall r, o <> Conflict r) -> s ∈ req -> s ∈ owned_scopes c' prefix.
Proof.
  intros Hw. unfold claim. destruct (find _ req); [intros [= <- <-] Hc; by destruct (Hc _ eq_refl)|].
  destruct (fresh_scopes c prefix req) as [fresh|] eqn:Hf; [|intros [= <- <-] Hc; by destruct (Hc _ eq_refl)].
  assert (forall x, x ∈ reserved c -> owner c x = prefix ->
            exists n, n ∈ namespaces c /\ functions_prefix n = prefix /\ x ∈ scopes n) as Hown.
  { intros x Hx Ho. unfold owner in Ho. destruct (list_find _ _) as [[i n]|] eqn:Hl.
    - apply list_find_Some in Hl as (Hi & Hs & _). exists n. split; [by eapply list_elem_of_lookup_2|done].
    - apply list_find_None in Hl. apply (wf_reserved _ Hw) in Hx as (n & Hn & Hs).
      rewrite Forall_forall in Hl. by destruct (Hl n Hn). }
  destruct fresh as [|f fs].
  - intros [= <- <-] _ Hs. destruct (fresh_scopes_owned _ _ _ _ _ Hf Hs) as [Hn|[Hr Ho]]; [by apply elem_of_nil in Hn|].
    by apply elem_of_owned_scopes, Hown.
  - pose proof (extend_namespace_has prefix (f :: fs) (namespaces c)) as (n & Hn & Hp & Hin).
    pose proof (extend_namespace_keeps prefix (f :: fs) (namespaces c)) as Hk.
    destruct (extend_namespace prefix (f :: fs) (namespaces c)) as [ns b]. intros [= <- <-] _ Hs.
    apply elem_of_owned_scopes. simpl in *. destruct (fresh_scopes_owned _ _ _ _ _ Hf Hs) as [Hsf|[Hr Ho]].
    + exists n. split_and!; [done..|]. by apply Hin.
    + destruct (Hown s Hr Ho) as (m & Hm & Hmp & Hms). destruct (Hk m Hm) as (n' & ? & ? & Hin').
      exists n'. split_and!; [done|congruence|]. by apply Hin'.
Qed.

End Claims.

(** ** The handlers *)

Module Service.
Import Adapter Claims.

Record StateConfig : Type := {
  max_value_bytes : option Z;
  events_enabled : option bool;
}.

Inductive StateEventType : Type := Created | Updated | Deleted.

Record StateEventData : Type := {
  message_type : string;
  event_type : StateEventType;
  ev_scope : string;
  ev_key : string;
  old_value : option Value;
  new_value : Value;
}.

(** The context of the handlers: the adapter's state, the configuration, the claim registry,
    whether anyone observes [state::on-changed], the events called so far and the accessor
    ids registered so far. *)
Record StateCtx (S : Type) : Type := mk_ctx {
  adapter : S;
  config : StateConfig;
  private : Claims;
  observed : bool;
  emitted : list Value;
  registered : list string;
}.
Arguments mk_ctx {S}.
Arguments adapter {S}.
Arguments config {S}.
Arguments private {S}.
Arguments observed {S}.
Arguments emitted {S}.
Arguments registered {S}.

(** [on_changed::event_json]. *)
Definition event_json (e : StateEventData) : Value :=
  let kind := match event_type e with
              | Created => "state:created"
              | Updated => "state:updated"
              | Deleted => "state:deleted"
              end in
  json_obj [("type", Str (message_type e)); ("event_type", Str kind); ("scope", Str (ev_scope e));
            ("key", Str (ev_key e)); ("old_value", default Null (old_value e)); ("new_value", new_value e)].

Section Handlers.
Context {S : Type} `{StateAdapter S} `{SerdeText}.
Abbreviation Ctx := (StateCtx S).

Definition with_adapter (a : S) (c : Ctx) : Ctx :=
  mk_ctx a (config c) (private c) (observed c) (emitted c) (registered c).
Definition with_private (p : Claims) (c : Ctx) : Ctx :=
  mk_ctx (adapter c) (config c) p (observed c) (emitted c) (registered c).
Definition with_emitted (e : list Value) (c : Ctx) : Ctx :=
  mk_ctx (adapter c) (config c) (private c) (observed c) e (registered c).
Definition with_registered (r : list string) (c : Ctx) : Ctx :=
  mk_ctx (adapter c) (config c) (private c) (observed c) (emitted c) r.

Definition reject_reserved_scope (c : Ctx) (scope : string) : result unit Error :=
  if is_reserved (private c) scope
  then Err ("RESERVED_SCOPE: `" +:+ scope +:+ "` is private worker bookkeeping") else Ok tt.

Definition require_owned_scope (owned : gset string) (prefix scope : string) : result unit Error :=
  if decide (scope ∈ owned) then Ok tt
  else Err ("INVALID_SCOPE: `" +:+ scope +:+ "` is not private state of namespace `" +:+ prefix +:+ "`").

(** [StateCtx::emit_change] with [emit_lazy]. *)
Definition emit_change (kind : StateEventType) (scope key : string) (old : option Value) (new : Value) (c : Ctx) : Ctx :=
  if is_reserved (private c) scope then c
  else
    let enabled := default true (events_enabled (config c)) in
    if negb enabled || negb (observed c) then c
    else with_emitted (emitted c ++ [event_json {| message_type := "state"; event_type := kind; ev_scope := scope;
                                                   ev_key := key; old_value := old; new_value := new |}]) c.

(** [json_budget::size_within]: the encoded length, if it is within the limit. *)
Definition size_within (v : Value) (limit : Z) : option Z :=
  let used := Z.of_nat (String.length (to_string v)) in
  if (used <=? limit)%Z then Some used else None.

Definition created_or_updated (old : option Value) : StateEventType :=
  match old with None => Created | Some _ => Updated end.

(** [state::set]. *)
Definition state_set (scope key : string) (value : Value) (c : Ctx) : result (option Value * Value) Error * Ctx :=
  match reject_reserved_scope c scope with
  | Err e => (Err e, c)
  | Ok _ =>
      let too_large := match max_value_bytes (config c) with
                       | Some limit => match size_within value limit with
                                       | None => Some ("VALUE_TOO_LARGE: value exceeds the configured max_value_bytes limit of " +:+ pretty limit)
                                       | Some _ => None
                                       end
                       | None => None
                       end in
      match too_large with
      | Some e => (Err e, c)
      | None =>
          match a_set scope key value (adapter c) with
          | (Err e, a) => (Err ("SET_ERROR: Failed to set value: " +:+ e), with_adapter a c)
          | (Ok (old, new), a) =>
              (Ok (old, new), emit_change (created_or_updated old) scope key old new (with_adapter a c))
          end
      end
  end.

Record CompareAndSetResult : Type := { swapped : bool; current : option Value }.

(** [state::compare-and-set]. *)
Definition state_compare_and_set (scope key : string) (expected : option Value) (value : Value) (c : Ctx)
  : result CompareAndSetResult Error * Ctx :=
  match reject_reserved_scope c scope with
  | Err e => (Err e, c)
  | Ok _ =>
      match a_cas scope key expected value (adapter c) with
      | (Err e, a) => (Err ("CAS_ERROR: " +:+ e), with_adapter a c)
      | (Ok (Kv.Swapped old), a) =>
          (Ok {| swapped := true; current := None |},
           emit_change (created_or_updated old) scope key old value (with_adapter a c))
      | (Ok (Kv.NotSwapped cur), a) => (Ok {| swapped := false; current := Some cur |}, with_adapter a c)
      end
  end.

(** [state::barrier]. *)
Definition state_barrier (cfg : option Barrier.BarrierConfig) (event : Value) (c : Ctx)
  : result Barrier.Decision Error * Ctx :=
  match cfg with
  | None => (Err "BARRIER_CONFIG: state::barrier needs `condition_config` { id, expect, key_from?, carry? } — on a harness::observe observer it goes in `conditions: [{ function_id, config }]`", c)
  | Some cfg =>
      match a_barrier Barrier.BARRIER_SCOPE (Barrier.bc_id cfg) cfg event (adapter c) with
      | (Err e, a) => (Err ("BARRIER_ERROR: " +:+ e), with_adapter a c)
      | (Ok d, a) => (Ok d, with_adapter a c)
      end
  end.

(** [state::get]. *)
Definition state_get (scope key : string) (c : Ctx) : result (option Value) Error * Ctx :=
  match reject_reserved_scope c scope with
  | Err e => (Err e, c)
  | Ok _ =>
      match a_get scope key (adapter c) with
      | (Err e, a) => (Err ("GET_ERROR: Failed to get value: " +:+ e), with_adapter a c)
      | (Ok o, a) => (Ok o, with_adapter a c)
      end
  end.

(** [state::delete]: reads the value first; the event fires even when nothing was there. *)
Definition state_delete (scope key : string) (c : Ctx) : result (option Value) Error * Ctx :=
  match reject_reserved_scope c scope with
  | Err e => (Err e, c)
  | Ok _ =>
      match a_get scope key (adapter c) with
      | (Err e, a) => (Err ("GET_ERROR: Failed to get value before delete: " +:+ e), with_adapter a c)
      | (Ok old, a) =>
          match a_delete scope key a with
          | (Err e, a1) => (Err ("DELETE_ERROR: Failed to delete value: " +:+ e), with_adapter a1 c)
          | (Ok _, a1) => (Ok old, emit_change Deleted scope key old Null (with_adapter a1 c))
          end
      end
  end.

(** [state::update]. *)
Definition state_update (scope key : string) (ops : list Update.UpdateOp) (c : Ctx)
  : result Kv.StreamUpdateResult Error * Ctx :=
  match reject_reserved_scope c scope with
  | Err e => (Err e, c)
  | Ok _ =>
      match a_update scope key ops (adapter c) with
      | (Err e, a) => (Err ("UPDATE_ERROR: Failed to update value: " +:+ e), with_adapter a c)
      | (Ok r, a) =>
          (Ok r, emit_change (created_or_updated (Kv.upd_old r)) scope key (Kv.upd_old r) (Kv.upd_new r) (with_adapter a c))
      end
  end.

(** [state::list]. *)
Definition state_list (scope : string) (c : Ctx) : result (list Value) Error * Ctx :=
  match reject_reserved_scope c scope with
  | Err e => (Err e, c)
  | Ok _ =>
      match a_list scope (adapter c) with
      | (Err e, a) => (Err ("LIST_ERROR: Failed to list values: " +:+ e), with_adapter a c)
      | (Ok l, a) => (Ok l, with_adapter a c)
      end
  end.

(** [state::list_keys]. *)
Definition state_list_keys (scope : string) (c : Ctx) : result (list string) Error * Ctx :=
  match reject_reserved_scope c scope with
  | Err e => (Err e, c)
  | Ok _ =>
      match a_list_keys scope (adapter c) with
      | (Err e, a) => (Err ("LIST_KEYS_ERROR: Failed to list keys: " +:+ e), with_adapter a c)
      | (Ok l, a) => (Ok l, with_adapter a c)
      end
  end.

(** [state::list_groups]: without the reserved scopes, without duplicates, sorted. *)
Definition state_list_groups (c : Ctx) : result (list string) Error * Ctx :=
  match a_list_groups (adapter c) with
  | (Err e, a) => (Err ("LIST_GROUPS_ERROR: Failed to list groups: " +:+ e), with_adapter a c)
  | (Ok groups, a) =>
      (Ok (sort_strings (remove_dups (filter (λ s, is_reserved (private c) s = false) groups))), with_adapter a c)
  end.

(** *** The accessors of a private namespace *)

Definition private_get (prefix scope key : string) (c : Ctx) : result (option Value) Error * Ctx :=
  match require_owned_scope (owned_scopes (private c) prefix) prefix scope with
  | Err e => (Err e, c)
  | Ok _ => match a_get scope key (adapter c) with
            | (Err e, a) => (Err ("GET_ERROR: " +:+ e), with_adapter a c)
            | (Ok o, a) => (Ok o, with_adapter a c)
            end
  end.

Definition private_list (prefix scope : string) (c : Ctx) : result (list Value) Error * Ctx :=
  match require_owned_scope (owned_scopes (private c) prefix) prefix scope with
  | Err e => (Err e, c)
  | Ok _ => match a_list scope (adapter c) with
            | (Err e, a) => (Err ("LIST_ERROR: " +:+ e), with_adapter a c)
            | (Ok l, a) => (Ok l, with_adapter a c)
            end
  end.

(** The outcome and whether the requested flush is acknowledged. *)
Definition private_compare_and_set (prefix scope key : string) (expected : option Value) (value : Value)
    (durable : bool) (c : Ctx) : result (CompareAndSetResult * bool) Error * Ctx :=
  match require_owned_scope (owned_scopes (private c) prefix) prefix scope with
  | Err e => (Err e, c)
  | Ok _ =>
      match a_cas scope key expected value (adapter c) with
      | (Err _, a) => (Err "CAS_ERROR: private state update failed", with_adapter a c)
      | (Ok outcome, a) =>
          let '(flushed, a1) := if durable then a_flush a else (Ok tt, a) in
          match flushed with
          | Err _ => (Err "FLUSH_ERROR: private state could not be persisted", with_adapter a1 c)
          | Ok _ =>
              (Ok (match outcome with
                   | Kv.Swapped _ => {| swapped := true; current := None |}
                   | Kv.NotSwapped cur => {| swapped := false; current := Some cur |}
                   end, durable), with_adapter a1 c)
          end
      end
  end.

(** *** Claiming a namespace *)

(** [current_invocation()]: whether it is an observer activation, and the calling worker. *)
Record Invocation : Type := { activation : bool; caller_worker : option string }.

Definition caller_worker_id (ctx : option Invocation) (stamped : option string) (engine_observes : option bool)
  : option string :=
  if match ctx with Some i => activation i | None => false end then None
  else match (match ctx with Some i => caller_worker i | None => None end) with
       | Some id => Some id
       | None => if bool_decide (engine_observes = Some false) then stamped else None
       end.

(** [caller_worker_name] on the answer of [engine::workers::list]. *)
Definition caller_worker_name (workers : result Value Error) (id : string) : result string Error :=
  match workers with
  | Err e => Err ("CALLER_LOOKUP_ERROR: " +:+ e)
  | Ok v =>
      let ws := match vget "workers" v with Some (Arr l) => l | _ => [] end in
      let found := find (λ w, match vget "id" w with Some (Str s) => bool_decide (s = id) | _ => false end) ws in
      match found with
      | Some w => match vget "name" w with
                  | Some (Str name) => Ok name
                  | _ => Err ("UNKNOWN_CALLER: worker id `" +:+ id +:+ "` is not registered")
                  end
      | None => Err ("UNKNOWN_CALLER: worker id `" +:+ id +:+ "` is not registered")
      end
  end.

Definition persist_claim (prefix : string) (scs : list string) (c : Ctx) : result unit Error * Ctx :=
  match a_set CLAIMS_SCOPE prefix (json_obj [("functions_prefix", Str prefix); ("scopes", enc_str_list scs)]) (adapter c) with
  | (Err e, a) => (Err ("CLAIM_PERSIST_ERROR: " +:+ e), with_adapter a c)
  | (Ok _, a) => (Ok tt, with_adapter a c)
  end.

(** [(claimed, namespace_is_new, owned scopes sorted)]; a reservation that cannot be
    persisted is released. *)
Definition claim_and_persist (prefix : string) (requested : list string) (c : Ctx)
  : result (bool * bool * list string) Error * Ctx :=
  match claim prefix requested (private c) with
  | (Conflict reason, p) => (Err ("SCOPE_CONFLICT: " +:+ reason), with_private p c)
  | (outcome, p) =>
      let '(fresh, is_new) := match outcome with Claimed f b => (f, b) | _ => ([], false) end in
      let c1 := with_private p c in
      let claimed := negb (match fresh with [] => true | _ => false end) in
      let scs := sort_strings (elements (owned_scopes p prefix)) in
      if claimed then
        match persist_claim prefix scs c1 with
        | (Err e, c2) => (Err e, with_private (release prefix fresh (private c2)) c2)
        | (Ok _, c2) => (Ok (claimed, is_new, scs), c2)
        end
      else (Ok (claimed, is_new, scs), c1)
  end.

(** [register_private_namespace_functions]: three more function ids. *)
Definition register_private (prefix : string) (c : Ctx) : Ctx :=
  let '(g, l, s) := internal_ids prefix in with_registered (registered c ++ [g; l; s]) c.

Record ClaimNamespaceResult : Type := { claimed : bool; claim_scopes : list string; functions : list string }.

(** [state::claim-namespace]. *)
Definition claim_namespace (inv : option Invocation) (engine_observes : option bool) (workers : result Value Error)
    (prefix : string) (req : list string) (stamped : option string) (c : Ctx)
  : result ClaimNamespaceResult Error * Ctx :=
  if negb (valid_prefix prefix) then
    (Err "INVALID_PREFIX: functions_prefix must be non-empty [A-Za-z0-9_-]", c)
  else if existsb is_empty req then (Err "INVALID_SCOPE: scopes must be non-empty", c)
  else match find is_builtin_reserved_scope req with
  | Some scope => (Err ("RESERVED_SCOPE: `" +:+ scope +:+ "` is state worker bookkeeping"), c)
  | None =>
  match caller_worker_id inv stamped engine_observes with
  | None => (Err "UNKNOWN_CALLER: the engine did not identify the caller", c)
  | Some id =>
  match caller_worker_name workers id with
  | Err e => (Err e, c)
  | Ok caller =>
  if negb (bool_decide (caller = prefix)) then
    (Err ("FORBIDDEN: worker `" +:+ caller +:+ "` may only claim namespace `" +:+ caller +:+ "`, not `" +:+ prefix +:+ "`"), c)
  else
  match claim_and_persist prefix req c with
  | (Err e, c1) => (Err e, c1)
  | (Ok (cl, is_new, scs), c1) =>
      let c2 := if cl && is_new then register_private prefix c1 else c1 in
      let '(g, l, s) := internal_ids prefix in
      (Ok {| claimed := cl; claim_scopes := scs; functions := [g; l; s] |}, c2)
  end end end end.

(** [PrivateNamespace::deserialize]. *)
Definition dec_namespace (v : Value) : option PrivateNamespace :=
  match v with
  | Obj m =>
      p ← req "functions_prefix" as_str m;
      s ← req "scopes" (dec_list as_str) m;
      Some {| functions_prefix := p; scopes := s |}
  | _ => None
  end.

(** One stored claim at boot: an unreadable or conflicting one is skipped. *)
Definition restore_one (c : Ctx) (v : Value) : Ctx :=
  match dec_namespace v with
  | None => c
  | Some n =>
      match claim (functions_prefix n) (scopes n) (private c) with
      | (Conflict _, p) => with_private p c
      | (_, p) => register_private (functions_prefix n) (with_private p c)
      end
  end.

Definition restore_persisted_claims (c : Ctx) : result unit Error * Ctx :=
  match a_list CLAIMS_SCOPE (adapter c) with
  | (Err e, a) => (Err ("could not read persisted private-namespace claims: " +:+ e), with_adapter a c)
  | (Ok stored, a) => (Ok tt, foldl restore_one (with_adapter a c) stored)
  end.

End Handlers.
End Service.

(** ** Properties *)

Module ServiceProperties.
Import Adapter Claims Service.

Section Any.
Context {S : Type} `{StateAdapter S} `{SerdeText}.
Abbreviation Ctx := (StateCtx S).

Lemma persist_claim_private prefix scs (c : Ctx) : private (persist_claim prefix scs c).2 = private c
  /\ registered (persist_claim prefix scs c).2 = registered c.
Proof. unfold persist_claim. by destruct (a_set _ _ _ _) as [[]]. Qed.

Lemma claim_conflict_unchanged prefix req c r p : claim prefix req c = (Conflict r, p) -> p = c.
Proof.
  unfold claim. destruct (find _ req); [by intros [= _ <-]|].
  destruct (fresh_scopes c prefix req) as [[|f fs]|]; [done| |by intros [= _ <-]].
  by destruct (extend_namespace _ _ _).
Qed.

Lemma claim_owned_unchanged prefix req c p : claim prefix req c = (AlreadyOwned, p) -> p = c.
Proof.
  unfold claim. destruct (find _ req); [done|].
  destruct (fresh_scopes c prefix req) as [[|f fs]|]; [by intros [= <-]| |done].
  by destruct (extend_namespace _ _ _).
Qed.

Lemma claim_claimed_nonempty prefix req c f b p : claim prefix req c = (Claimed f b, p) -> f <> [].
Proof.
  unfold claim. destruct (find _ req); [done|].
  destruct (fresh_scopes c prefix req) as [[|g fs]|]; [done| |done].
  destruct (extend_namespace _ _ _). by intros [= <- _ _].
Qed.

(** The outcome of [claim_and_persist]: an error leaves the registry as it was, a success
    leaves it as [claim] made it. *)
Lemma claim_and_persist_cases prefix req (c : Ctx) :
  wf (private c) ->
  match claim_and_persist prefix req c with
  | (Err _, c') => private c' = private c /\ registered c' = registered c
  | (Ok (_, _, scs), c') =>
      private c' = (claim prefix req (private c)).2 /\ registered c' = registered c /\
      (forall r, (claim prefix req (private c)).1 <> Conflict r) /\
      scs = sort_strings (elements (owned_scopes (private c') prefix))
  end.
Proof.
  intros Hw. unfold claim_and_persist. destruct (claim prefix req (private c)) as [o p] eqn:Hc.
  destruct o as [fresh b| |r].
  - pose proof (claim_claimed_nonempty _ _ _ _ _ _ Hc) as Hne.
    destruct fresh as [|f fs]; [done|]. cbn [negb].
    set (scs := sort_strings (elements (owned_scopes p prefix))).
    destruct (persist_claim_private prefix scs (with_private p c)) as [Hp Hr].
    destruct (persist_claim prefix scs (with_private p c)) as [[[]|e] c2]; simpl in *.
    + rewrite Hp. by split_and!.
    + split; [|done]. rewrite Hp. by eapply release_claim.
  - apply claim_owned_unchanged in Hc as ->. cbn [negb]. by split_and!.
  - apply claim_conflict_unchanged in Hc as ->. done.
Qed.

Lemma restore_one_wf (c : Ctx) v : wf (private c) -> wf (private (restore_one c v)).
Proof.
  intros Hw. unfold restore_one. destruct (dec_namespace v) as [n|]; [|done].
  pose proof (claim_wf (functions_prefix n) (scopes n) _ Hw) as Hc.
  by destruct (claim (functions_prefix n) (scopes n) (private c)) as [[]].
Qed.

(** Over every adapter, a [state::claim-namespace] call keeps the registry well formed (one
    owner per scope); an error, a refused caller and a failed write included, leaves the
    registry and the registered accessors exactly as they were; a success was made by the
    worker the namespace is named after, and it then owns, and reserves, every scope it
    asked for. *)
Theorem claim_namespace_spec inv obs workers prefix reqd stamped (c : Ctx) :
  wf (private c) ->
  wf (private (claim_namespace inv obs workers prefix reqd stamped c).2) /\
  match claim_namespace inv obs workers prefix reqd stamped c with
  | (Err _, c') => private c' = private c /\ registered c' = registered c
  | (Ok _, c') =>
      (exists id, caller_worker_id inv stamped obs = Some id /\ caller_worker_name workers id = Ok prefix) /\
      forall s, s ∈ reqd -> s ∈ owned_scopes (private c') prefix /\ is_reserved (private c') s = true
  end.
Proof.
  intros Hw. unfold claim_namespace.
  destruct (valid_prefix prefix); cbn [negb]; [|done].
  destruct (existsb is_empty reqd); [done|]. destruct (find _ reqd); [done|].
  destruct (caller_worker_id inv stamped obs) as [id|] eqn:Hid; [|done].
  destruct (caller_worker_name workers id) as [caller|e] eqn:Hcw; [|done].
  case_bool_decide as Hcp; cbn [negb]; [subst caller|done].
  pose proof (claim_and_persist_cases prefix reqd c Hw) as Hcase.
  destruct (claim_and_persist prefix reqd c) as [[[[cl is_new] scs]|e] c1]; simpl in *.
  - destruct Hcase as (Hp & _ & Hnc & _). destruct (claim prefix reqd (private c)) as [o p] eqn:Hc. simpl in *.
    assert (private (if cl && is_new then register_private prefix c1 else c1) = p) as ->
      by (by destruct (cl && is_new)).
    assert (wf p) as Hwp by (replace p with (claim prefix reqd (private c)).2 by (by rewrite Hc); by apply claim_wf).
    split; [done|]. split; [by exists id|]. intros s Hs.
    assert (s ∈ owned_scopes p prefix) as Ho by exact (claim_owns _ _ _ _ _ _ Hw Hc Hnc Hs). split; [done|].
    by eapply owned_scope_reserved.
  - destruct Hcase as [Hp Hr]. rewrite Hp. by split_and!.
Qed.

(** Restoring the persisted claims at boot, unreadable and conflicting entries included,
    builds a registry in which every scope has one owner. *)
Theorem restored_registry_wf (c : Ctx) p q s :
  private c = no_claims ->
  let c' := (restore_persisted_claims c).2 in
  wf (private c') /\ (s ∈ owned_scopes (private c') p -> s ∈ owned_scopes (private c') q -> p = q).
Proof.
  intros Hc. cbv zeta.
  assert (wf (private (restore_persisted_claims c).2)) as Hw; [|split; [done|by apply owned_scopes_disjoint]].
  unfold restore_persisted_claims. destruct (a_list _ _) as [[stored|e] a]; simpl; rewrite ?Hc.
  - assert (wf (private (with_adapter a c))) as Hw by (simpl; rewrite Hc; apply wf_no_claims).
    revert Hw. generalize (with_adapter a c). induction stored as [|v stored IH]; intros c0 Hw; [done|].
    simpl. apply IH. by apply restore_one_wf.
  - apply wf_no_claims.
Qed.

(** A reserved scope (the worker's own bookkeeping or a claimed one) is out of reach of the
    public functions: reading, writing, swapping, deleting and listing it fail and change
    nothing, no change of it is announced, and [state::list_groups] never names it. *)
Theorem reserved_scopes_out_of_reach (c : Ctx) scope key v e ops kind old :
  is_reserved (private c) scope = true ->
  (exists m, state_get scope key c = (Err m, c)) /\
  (exists m, state_set scope key v c = (Err m, c)) /\
  (exists m, state_compare_and_set scope key e v c = (Err m, c)) /\
  (exists m, state_delete scope key c = (Err m, c)) /\
  (exists m, state_update scope key ops c = (Err m, c)) /\
  (exists m, state_list scope c = (Err m, c)) /\
  (exists m, state_list_keys scope c = (Err m, c)) /\
  emit_change kind scope key old v c = c /\
  (forall gs, (state_list_groups c).1 = Ok gs -> scope ∉ gs).
Proof.
  intros Hr. unfold state_get, state_set, state_compare_and_set, state_delete, state_update, state_list,
    state_list_keys, reject_reserved_scope, emit_change, state_list_groups. rewrite Hr.
  split_and!; try by eexists.
  destruct (a_list_groups (adapter c)) as [[gs|m] a]; simpl; [|done]. intros gs' [= <-].
  unfold sort_strings. rewrite merge_sort_Permutation, elem_of_remove_dups, list_elem_of_filter. by intros [? _]; congruence.
Qed.

End Any.

Section Lawful.
Context {S : Type} `{StateAdapter S} `{SerdeText} {view : S -> string -> string -> option Value}.
Context {Laws : AdapterLaws S view}.
Abbreviation Ctx := (StateCtx S).

(** A tenant's accessors stay inside its namespace: whatever scope it names, a private
    compare-and-set (durable or not, successful or not) leaves every value outside its own
    scopes as it was, announces nothing and leaves the registry alone. *)
Theorem private_accessors_confined prefix scope key e v durable (c : Ctx) a b :
  a ∉ owned_scopes (private c) prefix ->
  let c' := (private_compare_and_set prefix scope key e v durable c).2 in
  view (adapter c') a b = view (adapter c) a b /\ emitted c' = emitted c /\ private c' = private c.
Proof.
  intros Ha. cbv zeta. unfold private_compare_and_set, require_owned_scope.
  case_decide as Hs; [|done]. pose proof (law_cas (view := view) scope key e v (adapter c) a b) as Hcas.
  assert (~ (a = scope /\ b = key)) as Hne by naive_solver.
  destruct (a_cas scope key e v (adapter c)) as [[o|m] s1]; simpl; [|by subst].
  assert (view s1 a b = view (adapter c) a b) as Hv.
  { destruct o; [destruct Hcas as (_ & _ & ->); by rewrite decide_False|by destruct Hcas as [_ ->]]. }
  destruct durable; simpl; [|done].
  pose proof (law_flush (view := view) s1 a b) as Hf. destruct (a_flush s1) as [[[]|m] s2]; simpl in *; by rewrite Hf.
Qed.

(** [state::update] is one atomic step: what it stores is the outcome of its operations on the
    value that was there, no other value changes, it reports the old value, the new one and the
    errors of the refused operations, and it announces exactly one event when someone observes;
    a failed one changes nothing. *)
Theorem state_update_atomic scope key ops (c : Ctx) a b :
  match state_update scope key ops c with
  | (Ok r, c1) =>
      let old := view (adapter c) scope key in
      Kv.upd_old r = old /\ (Kv.upd_new r, Kv.upd_errors r) = Update.apply_update_ops old ops /\
      view (adapter c1) a b = (if decide (a = scope /\ b = key) then Some (Kv.upd_new r) else view (adapter c) a b) /\
      private c1 = private c /\
      emitted c1 = emitted c ++
        (if default true (events_enabled (config c)) && observed c
         then [event_json {| message_type := "state"; event_type := created_or_updated old; ev_scope := scope;
                             ev_key := key; old_value := old; new_value := Kv.upd_new r |}] else [])
  | (Err _, c1) => c1 = c
  end.
Proof.
  unfold state_update, reject_reserved_scope. destruct (is_reserved (private c) scope) eqn:Hr; [done|].
  pose proof (law_update (view := view) scope key ops (adapter c) a b) as Hu.
  destruct (a_update scope key ops (adapter c)) as [[r|m] s1]; [|by rewrite Hu; destruct c].
  destruct Hu as (Ho & Hn & Hv). rewrite Ho. unfold emit_change. cbn [with_adapter private config observed emitted adapter].
  rewrite Hr. destruct (default true (events_enabled (config c))), (observed c); simpl; by rewrite ?app_nil_r.
Qed.

(** Read after write through the public functions: a successful [state::set] is what
    [state::get] then answers at that key and at no other, it reports the value it replaced,
    and it announces exactly one created or updated event when someone observes and events
    are on. *)
Theorem state_set_get scope key v (c c1 : Ctx) old new a b o :
  state_set scope key v c = (Ok (old, new), c1) ->
  (state_get a b c1).1 = Ok o ->
  new = v /\ old = view (adapter c) scope key /\
  o = (if decide (a = scope /\ b = key) then Some v else view (adapter c) a b) /\
  emitted c1 = emitted c ++
    (if default true (events_enabled (config c)) && observed c
     then [event_json {| message_type := "state"; event_type := created_or_updated old; ev_scope := scope;
                         ev_key := key; old_value := old; new_value := v |}] else []).
Proof.
  unfold state_set, reject_reserved_scope. destruct (is_reserved (private c) scope) eqn:Hr; [done|].
  destruct (match max_value_bytes (config c) with Some _ => _ | None => _ end); [done|].
  pose proof (law_set (view := view) scope key v (adapter c)) as Hset.
  destruct (a_set scope key v (adapter c)) as [[[old' new']|m] s1] eqn:Hs; [|done].
  intros [= <- <- <-]. destruct (Hset a b) as (-> & -> & Hv). intros Hg.
  split; [done|]. split; [done|].
  assert (adapter (emit_change (created_or_updated (view (adapter c) scope key)) scope key
            (view (adapter c) scope key) v (with_adapter s1 c)) = s1) as Ha.
  { unfold emit_change. by repeat case_match. }
  split.
  - unfold state_get, reject_reserved_scope in Hg. rewrite Ha in Hg.
    destruct (is_reserved _ a); [done|].
    destruct (law_get (view := view) a b s1) as [_ Hget].
    destruct (a_get a b s1) as [[o'|m] s2]; simpl in *; [|done].
    injection Hg as <-. by rewrite <-Hv, <-(Hget o').
  - unfold emit_change. simpl. rewrite Hr.
    destruct (default true (events_enabled (config c))), (observed c); simpl; by rewrite ?app_nil_r.
Qed.

End Lawful.

(** *** Concrete instances *)

(** A key-value store kept in memory only: its flush has nothing to write. *)
Definition memory : StateAdapter Kv.KvStore :=
  KvStoreAdapter (H := SampleText.text) (join ", ") (λ kv, (Ok tt, kv)).

Lemma memory_laws : AdapterLaws (H := memory) Kv.KvStore Kv.get.
Proof. by apply KvStoreAdapter_laws. Qed.

Definition empty_kv : Kv.KvStore := Kv.new None ∅.

(** A service in which the workflow worker owns one scope. *)
Definition sample_ctx : StateCtx Kv.KvStore :=
  mk_ctx empty_kv {| max_value_bytes := None; events_enabled := None |}
    (claim "workflow" ["workflow:runs"] no_claims).2 true [] [].

Lemma sample_ctx_wf : wf (private sample_ctx).
Proof. apply claim_wf, wf_no_claims. Qed.

Definition sample_workers : Value :=
  json_obj [("workers", Arr [json_obj [("id", Str "w-1"); ("name", Str "kanban")]])].

Definition sample_claim : result ClaimNamespaceResult Error * StateCtx Kv.KvStore :=
  claim_namespace (H := memory) (Some {| activation := false; caller_worker := Some "w-1" |}) None
    (Ok sample_workers) "kanban" ["kanban:cards"] None sample_ctx.

Lemma claim_namespace_spec_witness :
  sample_claim.1 = Ok {| claimed := true; claim_scopes := ["kanban:cards"];
    functions := ["kanban::state::get"; "kanban::state::list"; "kanban::state::compare-and-set"] |} /\
  "kanban:cards" ∈ owned_scopes (private sample_claim.2) "kanban".
Proof.
  assert (sample_claim.1 = Ok {| claimed := true; claim_scopes := ["kanban:cards"];
    functions := ["kanban::state::get"; "kanban::state::list"; "kanban::state::compare-and-set"] |}) as He
    by (vm_compute; reflexivity).
  split; [exact He|].
  destruct (claim_namespace_spec (H := memory) (Some {| activation := false; caller_worker := Some "w-1" |}) None
    (Ok sample_workers) "kanban" ["kanban:cards"] None sample_ctx sample_ctx_wf) as [_ Hs].
  fold sample_claim in Hs. destruct sample_claim as [r c']. simpl in He. subst r.
  destruct Hs as [_ Hs]. apply Hs. by left.
Defined.

Definition view_notes (c : StateCtx Kv.KvStore) : option Value := Kv.get (adapter c) "notes" "k".

Definition boot_ctx : StateCtx Kv.KvStore :=
  mk_ctx (Kv.set CLAIMS_SCOPE "kanban" (json_obj [("functions_prefix", Str "kanban");
            ("scopes", enc_str_list ["kanban:cards"])]) empty_kv).2
    {| max_value_bytes := None; events_enabled := None |} no_claims true [] [].

Lemma restored_registry_wf_witness :
  "kanban:cards" ∈ owned_scopes (private (restore_persisted_claims (H := memory) boot_ctx).2) "kanban" /\
  wf (private (restore_persisted_claims (H := memory) boot_ctx).2).
Proof.
  split; [apply elem_of_owned_scopes; eexists; vm_compute; split; [left|split; [done|left]]|].
  apply (restored_registry_wf (H := memory) boot_ctx "kanban" "kanban" "kanban:cards" eq_refl).
Defined.

Lemma reserved_scopes_out_of_reach_witness :
  exists m, state_get (H := memory) "workflow:runs" "r1" sample_ctx = (Err m, sample_ctx).
Proof.
  destruct (reserved_scopes_out_of_reach (H := memory) (H0 := SampleText.text) sample_ctx "workflow:runs" "r1"
    Null None [] Created None eq_refl) as [Hg _].
  exact Hg.
Defined.

Lemma private_accessors_confined_witness :
  Kv.get (adapter (private_compare_and_set (H := memory) "workflow" "workflow:runs" "r1" None Null true sample_ctx).2)
    "kanban:cards" "c1" = None.
Proof.
  destruct (private_accessors_confined (H := memory) (Laws := memory_laws) "workflow" "workflow:runs" "r1"
    None Null true sample_ctx "kanban:cards" "c1") as [Hv _].
  - intros (n & Hn & _ & Hs)%elem_of_owned_scopes. vm_compute in Hn. apply list_elem_of_singleton in Hn as ->.
    by apply list_elem_of_singleton in Hs.
  - rewrite Hv. reflexivity.
Defined.

Lemma state_update_atomic_witness :
  exists r c1, state_update (H := memory) "notes" "k" [Update.OpIncrement "hits" 1] sample_ctx = (Ok r, c1) /\
    Kv.upd_new r = json_obj [("hits", Num (PosInt 1))] /\ view_notes c1 = Some (Kv.upd_new r).
Proof.
  pose proof (state_update_atomic (H := memory) (Laws := memory_laws) "notes" "k"
    [Update.OpIncrement "hits" 1] sample_ctx "notes" "k") as Hu.
  destruct (state_update (H := memory) "notes" "k" [Update.OpIncrement "hits" 1] sample_ctx) as [[r|m] c1] eqn:He.
  - exists r, c1. destruct Hu as (_ & Hn & Hv & _). split; [reflexivity|]. split; [|exact Hv].
    transitivity (Kv.upd_new r, Kv.upd_errors r).1; [reflexivity|]. rewrite Hn. vm_compute. reflexivity.
  - exfalso. vm_compute in He. discriminate He.
Defined.

Lemma state_set_get_witness :
  let c1 := (state_set (H := memory) (H0 := SampleText.text) "notes" "k" (Bool true) sample_ctx).2 in
  (state_get (H := memory) "notes" "k" c1).1 = Ok (Some (Bool true)) /\ length (emitted c1) = 1.
Proof.
  split; [reflexivity|].
  destruct (state_set_get (H := memory) (H0 := SampleText.text) (Laws := memory_laws) "notes" "k" (Bool true)
    sample_ctx (state_set (H := memory) (H0 := SampleText.text) "notes" "k" (Bool true) sample_ctx).2
    None (Bool true) "notes" "k" (Some (Bool true)) eq_refl eq_refl) as (_ & _ & _ & He).
  rewrite He. reflexivity.
Defined.

End ServiceProperties.
