(* ===== verification/WfTypes.v ===== *)
(** * The workflow worker's data (workflow/src/types.rs, ids.rs)

    The definition of a workflow (a DAG of agents), the record of a run with its node
    checkpoints, the keys under which both are stored, and the serde codecs the worker
    stores them with.  The codecs follow the derive attributes: snake-case variant names,
    skipped [None] members, defaults, [deny_unknown_fields], the untagged [InputFrom].
    Structs are read from JSON objects, the form [serde_json::to_value] writes. *)

From Stdlib Require Import Ascii ZArith Lia.
From S2P Require Import Prelude Json.
From S2P Require Export Codec.

(** ** Ids *)

Module Ids.

(** [node_uid]: the node id, or [node#i] for a fanned item. *)
Definition node_uid (node_id : string) (item : option nat) : string :=
  match item with
  | None => node_id
  | Some i => node_id +:+ "#" +:+ show_nat i
  end.

(** The argument of [new_run_id] is the random part. *)
Definition new_run_id (uuid : string) : string := "r_" +:+ uuid.

Definition child_session_id (run_id uid : string) : string := "wf_" +:+ run_id +:+ "_" +:+ uid.
Definition node_result_key (run_id uid : string) : string := run_id +:+ "/" +:+ uid.
Definition def_key (run_id : string) : string := run_id.

(** Ids of nodes that [validate_def] accepts hold no ['#']: items and nodes never collide. *)
Lemma node_uid_inj a b i j :
  contains_char "#" a = false -> contains_char "#" b = false ->
  node_uid a i = node_uid b j -> a = b /\ i = j.
Proof.
  intros Ha Hb. destruct i as [i|], j as [j|]; simpl.
  - intros He. apply sep_app_inj in He as [-> He]; [|done..].
    apply show_nat_inj in He as ->. done.
  - intros <-. rewrite contains_char_app, orb_false_iff in Hb. by destruct Hb.
  - intros ->. rewrite contains_char_app, orb_false_iff in Ha. by destruct Ha.
  - by intros ->.
Qed.

Lemma node_uid_item_inj a i j : node_uid a (Some i) = node_uid a (Some j) -> i = j.
Proof.
  simpl. intros He. apply (inj (String.append a)), (inj (String.append "#")) in He. by apply show_nat_inj.
Qed.

(** The node id of a uid. *)
Lemma before_hash_uid a i : contains_char "#" a = false -> before_char "#" (node_uid a i) = a.
Proof. intros Ha. destruct i; simpl; [|by apply before_char_id].
  rewrite (append_cons "#"), append_nil_l. by rewrite before_char_app. Qed.

Lemma node_result_key_inj r1 r2 u1 u2 :
  contains_char "/" r1 = false -> contains_char "/" r2 = false ->
  node_result_key r1 u1 = node_result_key r2 u2 -> r1 = r2 /\ u1 = u2.
Proof. intros H1 H2 He. by apply sep_app_inj in He. Qed.

End Ids.

(** ** Definitions and records *)

Inductive RunStatus : Type := Running | AwaitingNodes | Completed | RFailed | RCancelled.

Definition is_terminal (s : RunStatus) : bool :=
  match s with Completed | RFailed | RCancelled => true | _ => false end.

Inductive NodeState : Type := Pending | NRunning | Done | Failed | Cancelled.

#[export] Instance RunStatus_eq_dec : EqDecision RunStatus.
Proof. solve_decision. Defined.
#[export] Instance NodeState_eq_dec : EqDecision NodeState.
Proof. solve_decision. Defined.

Inductive InputFrom : Type :=
| One (s : string)
| Many (l : list string).

Definition is_literal (f : InputFrom) (lit : string) : bool :=
  match f with One s => bool_decide (s = lit) | Many _ => false end.

Definition sources (f : InputFrom) : list string :=
  match f with One s => [s] | Many v => v end.

Record InputSpec : Type := mk_input { in_from : InputFrom; in_template : option string }.

Record AgentSpec : Type := mk_agent {
  model : string;
  provider : option string;
  system_prompt : option string;
  functions : option Value;
  output_contract : option Value;
}.

Record FanoutSpec : Type := mk_fanout { over : string }.

Record NodeDef : Type := mk_node {
  agent : AgentSpec;
  input : InputSpec;
  depends_on : list string;
  fanout : option FanoutSpec;
}.

Record OutputRef : Type := mk_output { out_from : string }.

Record WorkflowDef : Type := mk_def {
  version : Z;
  nodes : gmap string NodeDef;
  output : OutputRef;
  default_functions : option Value;
}.

Record NotifySpec : Type := mk_notify { notify_function : string; notify_queue : option string }.

Record ReplySpec : Type := mk_reply {
  reply_session : option string;
  reply_model : option string;
  reply_provider : option string;
  reply_template : option string;
  reply_functions : option Value;
}.

Record NodeCheckpoint : Type := mk_cp {
  state : NodeState;
  session_id : option string;
  turn_id : option string;
  result_ref : option string;
  cp_error : option string;
  pending_at : option Z;
  pending_timeout_ms : option Z;
  retries : Z;
}.

Record WorkflowRunRecord : Type := mk_run {
  run_id : string;
  step : Z;
  status : RunStatus;
  abort : bool;
  def_ref : string;
  run_input : Value;
  run_nodes : gmap string NodeCheckpoint;
  fanout_src : gmap string (list Value);
  run_result : option Value;
  run_error : option string;
  notify : option NotifySpec;
  reply_to : option ReplySpec;
  caller_session_id : option string;
  created_at : Z;
  updated_at : Z;
}.

(** *** Updates of a record's fields *)

Definition set_step n r := mk_run (run_id r) n (status r) (abort r) (def_ref r) (run_input r) (run_nodes r)
  (fanout_src r) (run_result r) (run_error r) (notify r) (reply_to r) (caller_session_id r) (created_at r) (updated_at r).
Definition set_status s r := mk_run (run_id r) (step r) s (abort r) (def_ref r) (run_input r) (run_nodes r)
  (fanout_src r) (run_result r) (run_error r) (notify r) (reply_to r) (caller_session_id r) (created_at r) (updated_at r).
Definition set_abort a r := mk_run (run_id r) (step r) (status r) a (def_ref r) (run_input r) (run_nodes r)
  (fanout_src r) (run_result r) (run_error r) (notify r) (reply_to r) (caller_session_id r) (created_at r) (updated_at r).
Definition set_nodes ns r := mk_run (run_id r) (step r) (status r) (abort r) (def_ref r) (run_input r) ns
  (fanout_src r) (run_result r) (run_error r) (notify r) (reply_to r) (caller_session_id r) (created_at r) (updated_at r).
Definition set_fanout f r := mk_run (run_id r) (step r) (status r) (abort r) (def_ref r) (run_input r) (run_nodes r)
  f (run_result r) (run_error r) (notify r) (reply_to r) (caller_session_id r) (created_at r) (updated_at r).
Definition set_result v r := mk_run (run_id r) (step r) (status r) (abort r) (def_ref r) (run_input r) (run_nodes r)
  (fanout_src r) v (run_error r) (notify r) (reply_to r) (caller_session_id r) (created_at r) (updated_at r).
Definition set_error e r := mk_run (run_id r) (step r) (status r) (abort r) (def_ref r) (run_input r) (run_nodes r)
  (fanout_src r) (run_result r) e (notify r) (reply_to r) (caller_session_id r) (created_at r) (updated_at r).
Definition set_updated t r := mk_run (run_id r) (step r) (status r) (abort r) (def_ref r) (run_input r) (run_nodes r)
  (fanout_src r) (run_result r) (run_error r) (notify r) (reply_to r) (caller_session_id r) (created_at r) t.

Definition with_cp (uid : string) (cp : NodeCheckpoint) (r : WorkflowRunRecord) : WorkflowRunRecord :=
  set_nodes (<[uid := cp]> (run_nodes r)) r.

Definition set_state s c := mk_cp s (session_id c) (turn_id c) (result_ref c) (cp_error c) (pending_at c) (pending_timeout_ms c) (retries c).
Definition set_session s c := mk_cp (state c) s (turn_id c) (result_ref c) (cp_error c) (pending_at c) (pending_timeout_ms c) (retries c).
Definition set_turn t c := mk_cp (state c) (session_id c) t (result_ref c) (cp_error c) (pending_at c) (pending_timeout_ms c) (retries c).
Definition set_result_ref k c := mk_cp (state c) (session_id c) (turn_id c) k (cp_error c) (pending_at c) (pending_timeout_ms c) (retries c).
Definition set_cp_error e c := mk_cp (state c) (session_id c) (turn_id c) (result_ref c) e (pending_at c) (pending_timeout_ms c) (retries c).
Definition set_pending_at p c := mk_cp (state c) (session_id c) (turn_id c) (result_ref c) (cp_error c) p (pending_timeout_ms c) (retries c).
Definition set_pending_timeout p c := mk_cp (state c) (session_id c) (turn_id c) (result_ref c) (cp_error c) (pending_at c) p (retries c).
Definition set_retries n c := mk_cp (state c) (session_id c) (turn_id c) (result_ref c) (cp_error c) (pending_at c) (pending_timeout_ms c) n.

(** ** Codecs *)

Definition run_status_name (s : RunStatus) : string :=
  match s with
  | Running => "running" | AwaitingNodes => "awaiting_nodes" | Completed => "completed"
  | RFailed => "failed" | RCancelled => "cancelled"
  end.

Definition run_status_of (s : string) : option RunStatus :=
  if decide (s = "running") then Some Running
  else if decide (s = "awaiting_nodes") then Some AwaitingNodes
  else if decide (s = "completed") then Some Completed
  else if decide (s = "failed") then Some RFailed
  else if decide (s = "cancelled") then Some RCancelled
  else None.

Definition node_state_name (s : NodeState) : string :=
  match s with
  | Pending => "pending" | NRunning => "running" | Done => "done" | Failed => "failed" | Cancelled => "cancelled"
  end.

Definition node_state_of (s : string) : option NodeState :=
  if decide (s = "pending") then Some Pending
  else if decide (s = "running") then Some NRunning
  else if decide (s = "done") then Some Done
  else if decide (s = "failed") then Some Failed
  else if decide (s = "cancelled") then Some Cancelled
  else None.

#[export] Instance RunStatus_codec : Codec RunStatus :=
  {| to_value s := Str (run_status_name s); from_value := dec_variant run_status_of |}.
#[export] Instance NodeState_codec : Codec NodeState :=
  {| to_value s := Str (node_state_name s); from_value := dec_variant node_state_of |}.

#[export] Instance OutputRef_codec : Codec OutputRef := {|
  to_value o := json_obj [("from", Str (out_from o))];
  from_value v := m ← strict ["from"] v; f ← req "from" as_str m; Some (mk_output f);
|}.

#[export] Instance FanoutSpec_codec : Codec FanoutSpec := {|
  to_value o := json_obj [("over", Str (over o))];
  from_value v := m ← strict ["over"] v; f ← req "over" as_str m; Some (mk_fanout f);
|}.

#[export] Instance InputFrom_codec : Codec InputFrom := {|
  to_value f := match f with One s => Str s | Many l => enc_str_list l end;
  from_value v := match as_str v with
                  | Some s => Some (One s)
                  | None => Many <$> dec_list as_str v
                  end;
|}.

#[export] Instance InputSpec_codec : Codec InputSpec := {|
  to_value i := json_obj ([("from", to_value (in_from i))] ++ opt_field "template" Str (in_template i));
  from_value v :=
    m ← strict ["from"; "template"] v;
    f ← req "from" from_value m; t ← opt "template" as_str m; Some (mk_input f t);
|}.

#[export] Instance AgentSpec_codec : Codec AgentSpec := {|
  to_value a := json_obj ([("model", Str (model a))] ++ opt_field "provider" Str (provider a)
    ++ opt_field "system_prompt" Str (system_prompt a) ++ opt_field "functions" id (functions a)
    ++ opt_field "output" id (output_contract a));
  from_value v :=
    m ← strict ["model"; "provider"; "system_prompt"; "functions"; "output"] v;
    md ← req "model" as_str m; p ← opt "provider" as_str m; s ← opt "system_prompt" as_str m;
    f ← opt "functions" Some m; o ← opt "output" Some m; Some (mk_agent md p s f o);
|}.

#[export] Instance NodeDef_codec : Codec NodeDef := {|
  to_value n := json_obj ([("agent", to_value (agent n)); ("input", to_value (input n));
    ("depends_on", enc_str_list (depends_on n))] ++ opt_field "fanout" to_value (fanout n));
  from_value v :=
    m ← strict ["agent"; "input"; "depends_on"; "fanout"] v;
    a ← req "agent" from_value m; i ← req "input" from_value m;
    d ← dflt "depends_on" (dec_list as_str) [] m; f ← opt "fanout" from_value m; Some (mk_node a i d f);
|}.

#[export] Instance WorkflowDef_codec : Codec WorkflowDef := {|
  to_value d := json_obj ([("version", enc_u (version d)); ("nodes", enc_map to_value (nodes d));
    ("output", to_value (output d))] ++ opt_field "default_functions" id (default_functions d));
  from_value v :=
    m ← strict ["version"; "nodes"; "output"; "default_functions"] v;
    ve ← dflt "version" (dec_u u32_max) 1%Z m; n ← req "nodes" (dec_map from_value) m;
    o ← req "output" from_value m; f ← opt "default_functions" Some m; Some (mk_def ve n o f);
|}.

#[export] Instance NotifySpec_codec : Codec NotifySpec := {|
  to_value n := json_obj ([("function_id", Str (notify_function n))] ++ opt_field "queue" Str (notify_queue n));
  from_value v :=
    m ← strict ["function_id"; "queue"] v;
    f ← req "function_id" as_str m; q ← opt "queue" as_str m; Some (mk_notify f q);
|}.

#[export] Instance ReplySpec_codec : Codec ReplySpec := {|
  to_value r := json_obj (opt_field "session_id" Str (reply_session r) ++ opt_field "model" Str (reply_model r)
    ++ opt_field "provider" Str (reply_provider r) ++ opt_field "template" Str (reply_template r)
    ++ opt_field "functions" id (reply_functions r));
  from_value v :=
    m ← strict ["session_id"; "model"; "provider"; "template"; "functions"] v;
    s ← opt "session_id" as_str m; md ← opt "model" as_str m; p ← opt "provider" as_str m;
    t ← opt "template" as_str m; f ← opt "functions" Some m; Some (mk_reply s md p t f);
|}.

#[export] Instance NodeCheckpoint_codec : Codec NodeCheckpoint := {|
  to_value c := json_obj ([("state", to_value (state c))] ++ opt_field "session_id" Str (session_id c)
    ++ opt_field "turn_id" Str (turn_id c) ++ opt_field "result_ref" Str (result_ref c)
    ++ opt_field "result_error" Str (cp_error c) ++ opt_field "pending_at" enc_i64 (pending_at c)
    ++ opt_field "pending_timeout_ms" enc_u (pending_timeout_ms c) ++ [("retries", enc_u (retries c))]);
  from_value v :=
    m ← as_object v;
    st ← req "state" from_value m; s ← opt "session_id" as_str m; t ← opt "turn_id" as_str m;
    r ← opt "result_ref" as_str m; e ← opt "result_error" as_str m; p ← opt "pending_at" dec_i64 m;
    pt ← opt "pending_timeout_ms" (dec_u u64_max) m; n ← dflt "retries" (dec_u u32_max) 0%Z m;
    Some (mk_cp st s t r e p pt n);
|}.

#[export] Instance WorkflowRunRecord_codec : Codec WorkflowRunRecord := {|
  to_value r := json_obj ([("run_id", Str (run_id r)); ("step", enc_u (step r)); ("status", to_value (status r));
    ("abort", Bool (abort r)); ("def_ref", Str (def_ref r)); ("input", run_input r);
    ("nodes", enc_map to_value (run_nodes r)); ("fanout_src", enc_map Arr (fanout_src r))]
    ++ opt_field "result" id (run_result r) ++ opt_field "result_error" Str (run_error r)
    ++ opt_field "notify" to_value (notify r) ++ opt_field "reply_to" to_value (reply_to r)
    ++ opt_field "caller_session_id" Str (caller_session_id r)
    ++ [("created_at", enc_i64 (created_at r)); ("updated_at", enc_i64 (updated_at r))]);
  from_value v :=
    m ← as_object v;
    id ← req "run_id" as_str m; n ← req "step" (dec_u u64_max) m; st ← req "status" from_value m;
    a ← dflt "abort" as_bool false m; d ← req "def_ref" as_str m; i ← req "input" Some m;
    ns ← dflt "nodes" (dec_map from_value) ∅ m; fs ← dflt "fanout_src" (dec_map as_array) ∅ m;
    r ← opt "result" Some m; e ← opt "result_error" as_str m; nt ← opt "notify" from_value m;
    rt ← opt "reply_to" from_value m; cs ← opt "caller_session_id" as_str m;
    c ← req "created_at" dec_i64 m; u ← req "updated_at" dec_i64 m;
    Some (mk_run id n st a d i ns fs r e nt rt cs c u);
|}.

(** ** Configuration (config.rs) *)

Record WorkerConfig : Type := mk_config {
  default_pending_timeout_ms : Z;
  sweep_expression : string;
  dispatch_timeout_ms : Z;
  max_node_retries : Z;
  inject_guidance : bool;
}.

Definition default_config : WorkerConfig := mk_config 1800000 "0 * * * * *" 30000 1 true.

(** [from_json] and [to_json]. *)
#[export] Instance WorkerConfig_codec : Codec WorkerConfig := {|
  to_value c := json_obj [("default_pending_timeout_ms", enc_u (default_pending_timeout_ms c));
    ("sweep_expression", Str (sweep_expression c)); ("dispatch_timeout_ms", enc_u (dispatch_timeout_ms c));
    ("max_node_retries", enc_u (max_node_retries c)); ("inject_guidance", Bool (inject_guidance c))];
  from_value v :=
    m ← strict ["default_pending_timeout_ms"; "sweep_expression"; "dispatch_timeout_ms"; "max_node_retries"; "inject_guidance"] v;
    p ← dflt "default_pending_timeout_ms" (dec_u u64_max) (default_pending_timeout_ms default_config) m;
    s ← dflt "sweep_expression" as_str (sweep_expression default_config) m;
    d ← dflt "dispatch_timeout_ms" (dec_u u64_max) (dispatch_timeout_ms default_config) m;
    r ← dflt "max_node_retries" (dec_u u32_max) (max_node_retries default_config) m;
    g ← dflt "inject_guidance" as_bool (inject_guidance default_config) m;
    Some (mk_config p s d r g);
|}.

(** ** Round trips *)

(** The shape [serde] can tell from an absent member: not [Some(Value::Null)]. *)
Definition not_null (o : option Value) : Prop := o <> Some Null.

Record agent_ok (a : AgentSpec) : Prop := {
  agent_functions_ok : not_null (functions a);
  agent_output_ok : not_null (output_contract a);
}.

Record def_ok (d : WorkflowDef) : Prop := {
  def_version_ok : in_range 0 u32_max (version d);
  def_nodes_ok : map_Forall (λ _ n, agent_ok (agent n)) (nodes d);
  def_functions_ok : not_null (default_functions d);
}.

Record cp_ok (c : NodeCheckpoint) : Prop := {
  cp_pending_ok : forall z, pending_at c = Some z -> in_range i64_min i64_max z;
  cp_timeout_ok : forall z, pending_timeout_ms c = Some z -> in_range 0 u64_max z;
  cp_retries_ok : in_range 0 u32_max (retries c);
}.

(** The integers of a record are in their range. *)
Record num_ok (r : WorkflowRunRecord) : Prop := {
  num_step : in_range 0 u64_max (step r);
  num_nodes : map_Forall (λ _, cp_ok) (run_nodes r);
  num_created : in_range i64_min i64_max (created_at r);
  num_updated : in_range i64_min i64_max (updated_at r);
}.

Record run_ok (r : WorkflowRunRecord) : Prop := {
  run_num_ok : num_ok r;
  run_result_ok : not_null (run_result r);
  run_reply_ok : forall p, reply_to r = Some p -> not_null (reply_functions p);
}.

(** What an optional [Value] reads back as. *)
Definition denull (o : option Value) : option Value :=
  match o with Some Null => None | _ => o end.

Definition canon_reply (p : ReplySpec) : ReplySpec :=
  mk_reply (reply_session p) (reply_model p) (reply_provider p) (reply_template p) (denull (reply_functions p)).

(** What a record reads back as: an explicit [null] result is an absent one. *)
Definition canon (r : WorkflowRunRecord) : WorkflowRunRecord :=
  mk_run (run_id r) (step r) (status r) (abort r) (def_ref r) (run_input r) (run_nodes r) (fanout_src r)
    (denull (run_result r)) (run_error r) (notify r) (canon_reply <$> reply_to r) (caller_session_id r)
    (created_at r) (updated_at r).

Lemma denull_id o : not_null o -> denull o = o.
Proof. unfold not_null. destruct o as [[]|]; done. Qed.

Lemma canon_id r : run_ok r -> canon r = r.
Proof.
  intros [_ Hr Hp]. destruct r as [? ? ? ? ? ? ? ? res ? ? rep ? ? ?]. unfold canon. simpl in *.
  rewrite denull_id by done. f_equal. destruct rep as [p|]; [|done]. simpl. f_equal.
  destruct p. unfold canon_reply. simpl. f_equal. by apply denull_id, (Hp _ eq_refl).
Qed.

Lemma opt_denull k o l : obj_get k l = id <$> o -> opt k Some (obj_of_list l) = Some (denull o).
Proof. intros Hg. unfold opt, dflt. rewrite obj_get_of_list, Hg. by destruct o as [[]|]. Qed.

Lemma opt_str (o : option string) x : o = Some x -> Str x <> Null /\ as_str (Str x) = Some x.
Proof. done. Qed.

Lemma opt_value (o : option Value) x : not_null o -> o = Some x -> id x <> Null /\ Some (id x) = Some x.
Proof. intros Hn ->. split; [|done]. intros Hx. apply Hn. by rewrite <-Hx. Qed.

Lemma run_status_ok (s : RunStatus) : codec_ok s.
Proof. by destruct s. Qed.

Lemma node_state_ok (s : NodeState) : codec_ok s.
Proof. by destruct s. Qed.

Lemma output_ref_ok (o : OutputRef) : codec_ok o.
Proof. unfold codec_ok. cbn [to_value from_value OutputRef_codec]. codec_tac. get_req "from" (out_from o); [by destruct o|done]. Qed.

Lemma fanout_spec_ok (o : FanoutSpec) : codec_ok o.
Proof. unfold codec_ok. cbn [to_value from_value FanoutSpec_codec]. codec_tac. get_req "over" (over o); [by destruct o|done]. Qed.

Lemma input_from_ok (f : InputFrom) : codec_ok f.
Proof.
  destruct f as [s|l]; [done|]. unfold codec_ok. cbn [to_value from_value InputFrom_codec].
  change (as_str (enc_str_list l)) with (@None string). cbv iota. by rewrite dec_enc_str_list.
Qed.

Lemma input_spec_ok (i : InputSpec) : codec_ok i.
Proof.
  unfold codec_ok. cbn [to_value from_value InputSpec_codec]. codec_tac.
  get_req "from" (in_from i); [|apply input_from_ok]. get_opt "template" Str (in_template i); [by destruct i|apply opt_str].
Qed.

Lemma agent_spec_ok (a : AgentSpec) : agent_ok a -> codec_ok a.
Proof.
  intros [Hf Ho]. unfold codec_ok. cbn [to_value from_value AgentSpec_codec]. codec_tac.
  get_req "model" (model a); [|done]. get_opt "provider" Str (provider a); [|apply opt_str].
  get_opt "system_prompt" Str (system_prompt a); [|apply opt_str].
  get_opt "functions" (@id Value) (functions a); [|intros x; exact (opt_value _ x Hf)].
  get_opt "output" (@id Value) (output_contract a); [by destruct a|intros x; exact (opt_value _ x Ho)].
Qed.

Lemma node_def_ok (n : NodeDef) : agent_ok (agent n) -> codec_ok n.
Proof.
  intros Ha. unfold codec_ok. cbn [to_value from_value NodeDef_codec]. codec_tac.
  get_req "agent" (agent n); [|by apply agent_spec_ok]. get_req "input" (input n); [|apply input_spec_ok].
  get_dflt "depends_on" (depends_on n); [|apply dec_enc_str_list].
  get_opt "fanout" (@to_value FanoutSpec _) (fanout n); [by destruct n|]. intros x _. split; [done|apply fanout_spec_ok].
Qed.

Lemma workflow_def_ok (d : WorkflowDef) : def_ok d -> codec_ok d.
Proof.
  intros [Hv Hn Hf]. unfold codec_ok. cbn [to_value from_value WorkflowDef_codec]. codec_tac.
  get_dflt "version" (version d); [|apply dec_enc_u, Hv].
  get_req "nodes" (nodes d); [|apply dec_enc_map; intros k n Hk; apply node_def_ok; exact (Hn k n Hk)].
  get_req "output" (output d); [|apply output_ref_ok].
  get_opt "default_functions" (@id Value) (default_functions d); [by destruct d|intros x; exact (opt_value _ x Hf)].
Qed.

Lemma notify_ok (n : NotifySpec) : codec_ok n.
Proof.
  unfold codec_ok. cbn [to_value from_value NotifySpec_codec]. codec_tac.
  get_req "function_id" (notify_function n); [|done]. get_opt "queue" Str (notify_queue n); [by destruct n|apply opt_str].
Qed.

Lemma reply_canon (p : ReplySpec) : from_value (to_value p) = Some (canon_reply p).
Proof.
  cbn [to_value from_value ReplySpec_codec]. codec_tac.
  get_opt "session_id" Str (reply_session p); [|apply opt_str]. get_opt "model" Str (reply_model p); [|apply opt_str].
  get_opt "provider" Str (reply_provider p); [|apply opt_str]. get_opt "template" Str (reply_template p); [|apply opt_str].
  rewrite (opt_denull "functions" (reply_functions p)) by field_tac. done.
Qed.

Lemma checkpoint_ok (c : NodeCheckpoint) : cp_ok c -> codec_ok c.
Proof.
  intros [Hp Ht Hr]. unfold codec_ok. cbn [to_value from_value NodeCheckpoint_codec]. codec_tac.
  get_req "state" (state c); [|apply node_state_ok]. get_opt "session_id" Str (session_id c); [|apply opt_str].
  get_opt "turn_id" Str (turn_id c); [|apply opt_str]. get_opt "result_ref" Str (result_ref c); [|apply opt_str].
  get_opt "result_error" Str (cp_error c); [|apply opt_str].
  get_opt "pending_at" enc_i64 (pending_at c); [|intros z Hz; split; [done|apply dec_enc_i64, Hp, Hz]].
  get_opt "pending_timeout_ms" enc_u (pending_timeout_ms c); [|intros z Hz; split; [done|apply dec_enc_u, Ht, Hz]].
  get_dflt "retries" (retries c); [by destruct c|apply dec_enc_u, Hr].
Qed.

Lemma opt_reply (o : option ReplySpec) l :
  obj_get "reply_to" l = to_value <$> o -> opt "reply_to" from_value (obj_of_list l) = Some (canon_reply <$> o).
Proof.
  intros Hg. unfold opt, dflt. rewrite obj_get_of_list, Hg. destruct o as [p|]; [|done]. cbn [fmap option_fmap option_map].
  unfold dec_opt. destruct (to_value p) eqn:Hv; try done. rewrite <-Hv. by rewrite reply_canon.
Qed.

Lemma run_record_canon (r : WorkflowRunRecord) : num_ok r -> from_value (to_value r) = Some (canon r).
Proof.
  intros [Hs Hn Hc Hu]. cbn [to_value from_value WorkflowRunRecord_codec]. codec_tac.
  get_req "run_id" (run_id r); [|done]. get_req "step" (step r); [|apply dec_enc_u, Hs].
  get_req "status" (status r); [|apply run_status_ok].
  get_dflt "abort" (abort r); [|done]. get_req "def_ref" (def_ref r); [|done]. get_req "input" (run_input r); [|done].
  get_dflt "nodes" (run_nodes r); [|apply dec_enc_map; intros k c Hk; apply checkpoint_ok; exact (Hn k c Hk)].
  get_dflt "fanout_src" (fanout_src r); [|apply dec_enc_map; by intros k c Hk].
  rewrite (opt_denull "result" (run_result r)) by field_tac. cbn [mbind option_bind].
  get_opt "result_error" Str (run_error r); [|apply opt_str].
  get_opt "notify" (@to_value NotifySpec _) (notify r); [|intros x _; split; [done|apply notify_ok]].
  rewrite (opt_reply (reply_to r)) by field_tac. cbn [mbind option_bind].
  get_opt "caller_session_id" Str (caller_session_id r); [|apply opt_str].
  get_req "created_at" (created_at r); [|apply dec_enc_i64, Hc].
  get_req "updated_at" (updated_at r); [done|apply dec_enc_i64, Hu].
Qed.

Lemma run_record_ok (r : WorkflowRunRecord) : run_ok r -> codec_ok r.
Proof. intros Hr. unfold codec_ok. rewrite run_record_canon by apply Hr. by rewrite canon_id. Qed.

(** *** What is read is in range *)

Lemma dec_opt_Some {A} (d : Value -> option A) v o x : dec_opt d v = Some o -> o = Some x -> d v = Some x.
Proof. intros Hd ->. unfold dec_opt in Hd. destruct v; try done; destruct (d _); simplify_eq/=; done. Qed.

Lemma opt_Some {A} k (d : Value -> option A) m o x : opt k d m = Some o -> o = Some x -> exists v, d v = Some x.
Proof.
  unfold opt, dflt. destruct (obj_get k m) as [v|]; [|intros [= <-]; done]. intros Hd Ho. exists v. by eapply dec_opt_Some.
Qed.

Lemma dflt_Some {A} k (d : Value -> option A) y m x : dflt k d y m = Some x -> x = y \/ exists v, d v = Some x.
Proof. unfold dflt. destruct (obj_get k m) as [v|]; [right; by exists v|]. intros [= <-]. by left. Qed.

Lemma req_Some {A} k (d : Value -> option A) m x : req k d m = Some x -> exists v, d v = Some x.
Proof. unfold req. destruct (obj_get k m) as [v|]; [|done]. by exists v. Qed.

Lemma bind_Some_inv {A B} (o : option A) (f : A -> option B) y : (o ≫= f) = Some y -> exists x, o = Some x /\ f x = Some y.
Proof. destruct o as [x|]; [|done]. intros Hf. by exists x. Qed.

(** Opens a chain of member reads. *)
Ltac open_reads H :=
  repeat (apply bind_Some_inv in H; let x := fresh "f" in let Hx := fresh "Hf" in destruct H as (x & Hx & H)).

Lemma checkpoint_num v (c : NodeCheckpoint) : from_value v = Some c -> cp_ok c.
Proof.
  cbn [from_value NodeCheckpoint_codec]. intros Hd. open_reads Hd. injection Hd as <-. split; cbn.
  - intros z Hz. eapply opt_Some in Hz as [u Hu]; [|eassumption]. by eapply dec_i64_range.
  - intros z Hz. eapply opt_Some in Hz as [u Hu]; [|eassumption]. by eapply dec_u_range.
  - match goal with Hx : dflt "retries" _ _ _ = Some _ |- _ => apply dflt_Some in Hx as [->|[u Hu]] end; [done|].
    by eapply dec_u_range.
Qed.

Lemma dec_map_all {A} (d : Value -> option A) v m (P : A -> Prop) :
  (forall u x, d u = Some x -> P x) -> dec_map d v = Some m -> map_Forall (λ _, P) m.
Proof.
  intros HP. unfold dec_map. destruct v as [| | | | |l]; try done. intros Hm.
  destruct (mapM _ l) as [ps|] eqn:Hps; [|done]. injection Hm as <-. intros k x Hk.
  apply elem_of_list_to_map_2 in Hk. apply mapM_Some_1 in Hps.
  apply list_elem_of_lookup in Hk as [i Hi]. destruct (Forall2_lookup_r _ _ _ _ _ Hps Hi) as ([k' u] & _ & Hu).
  simpl in Hu. destruct (d u) eqn:Hd; simplify_eq/=. by eapply HP.
Qed.

Lemma run_record_num v (r : WorkflowRunRecord) : from_value v = Some r -> num_ok r.
Proof.
  cbn [from_value WorkflowRunRecord_codec]. intros Hd. open_reads Hd. injection Hd as <-. split; cbn.
  - match goal with Hx : req "step" _ _ = Some _ |- _ => apply req_Some in Hx as [u Hu] end. by eapply dec_u_range.
  - match goal with Hx : dflt "nodes" _ _ _ = Some _ |- _ => apply dflt_Some in Hx as [->|[u Hu]] end.
    + apply map_Forall_empty.
    + eapply dec_map_all; [|exact Hu]. intros x y. apply checkpoint_num.
  - match goal with Hx : req "created_at" _ _ = Some _ |- _ => apply req_Some in Hx as [u Hu] end. by eapply dec_i64_range.
  - match goal with Hx : req "updated_at" _ _ = Some _ |- _ => apply req_Some in Hx as [u Hu] end. by eapply dec_i64_range.
Qed.

Record config_ok (c : WorkerConfig) : Prop := {
  config_pending_ok : in_range 0 u64_max (default_pending_timeout_ms c);
  config_dispatch_ok : in_range 0 u64_max (dispatch_timeout_ms c);
  config_retries_ok : in_range 0 u32_max (max_node_retries c);
}.

Lemma worker_config_ok (c : WorkerConfig) : config_ok c -> codec_ok c.
Proof.
  intros [Hp Hd Hr]. unfold codec_ok. cbn [to_value from_value WorkerConfig_codec]. codec_tac.
  get_dflt "default_pending_timeout_ms" (default_pending_timeout_ms c); [|apply dec_enc_u, Hp].
  get_dflt "sweep_expression" (sweep_expression c); [|done].
  get_dflt "dispatch_timeout_ms" (dispatch_timeout_ms c); [|apply dec_enc_u, Hd].
  get_dflt "max_node_retries" (max_node_retries c); [|apply dec_enc_u, Hr].
  get_dflt "inject_guidance" (inject_guidance c); [|done]. by destruct c.
Qed.

Lemma worker_config_read v (c : WorkerConfig) : from_value v = Some c -> config_ok c.
Proof.
  cbn [from_value WorkerConfig_codec]. intros Hd. open_reads Hd. injection Hd as <-. split; cbn.
  - match goal with Hx : dflt "default_pending_timeout_ms" _ _ _ = Some _ |- _ => apply dflt_Some in Hx as [->|[u Hu]] end; [done|].
    by eapply dec_u_range.
  - match goal with Hx : dflt "dispatch_timeout_ms" _ _ _ = Some _ |- _ => apply dflt_Some in Hx as [->|[u Hu]] end; [done|].
    by eapply dec_u_range.
  - match goal with Hx : dflt "max_node_retries" _ _ _ = Some _ |- _ => apply dflt_Some in Hx as [->|[u Hu]] end; [done|].
    by eapply dec_u_range.
Qed.

(** A definition that was read is one that can be stored and read back. *)
Lemma opt_not_null k m (o : option Value) : opt k Some m = Some o -> not_null o.
Proof.
  unfold opt, dflt, dec_opt, not_null. destruct (obj_get k m) as [v|]; [|by intros [= <-]]. destruct v; simpl; by intros [= <-].
Qed.

Lemma agent_read v (a : AgentSpec) : from_value v = Some a -> agent_ok a.
Proof.
  cbn [from_value AgentSpec_codec]. intros Hd. open_reads Hd. injection Hd as <-. split; cbn; by eapply opt_not_null.
Qed.

Lemma node_read v (n : NodeDef) : from_value v = Some n -> agent_ok (agent n).
Proof.
  cbn [from_value NodeDef_codec]. intros Hd. open_reads Hd. injection Hd as <-. cbn.
  match goal with Hx : req "agent" _ _ = Some _ |- _ => apply req_Some in Hx as [u Hu] end. by eapply agent_read.
Qed.

Lemma workflow_def_read v (d : WorkflowDef) : from_value v = Some d -> def_ok d.
Proof.
  cbn [from_value WorkflowDef_codec]. intros Hd. open_reads Hd. injection Hd as <-. split; cbn.
  - match goal with Hx : dflt "version" _ _ _ = Some _ |- _ => apply dflt_Some in Hx as [->|[u Hu]] end; [done|].
    by eapply dec_u_range.
  - match goal with Hx : req "nodes" _ _ = Some _ |- _ => apply req_Some in Hx as [u Hu] end.
    apply (dec_map_all _ _ _ (λ n, agent_ok (agent n))) in Hu; [exact Hu|]. intros x y. apply node_read.
  - by eapply opt_not_null.
Qed.

#[export] Hint Resolve run_record_ok workflow_def_ok : workers.

Module TypesProperties.
Import Ids.

(** What the worker stores it reads back: every definition and every run record, with all
    node checkpoints, survives [to_value] and [from_value], as long as integers are in their
    range and no optional member is an explicit [null]; so does every configuration whose
    numbers fit their types, and an empty object reads as the documented defaults. *)
Theorem stored_records_read_back (d : WorkflowDef) (r : WorkflowRunRecord) (c : WorkerConfig) :
  def_ok d -> run_ok r -> config_ok c ->
  from_value (to_value d) = Some d /\ from_value (to_value r) = Some r /\
  from_value (to_value c) = Some c /\ from_value (Obj []) = Some default_config.
Proof. intros Hd Hr Hc. split_and!; [by apply workflow_def_ok|by apply run_record_ok|by apply worker_config_ok|done]. Qed.

(** The ids the worker derives never collide: the session id and the result key of a node
    determine the run, the node and the fanned item, for runs named by [new_run_id] and node
    ids without ['#']. *)
Theorem derived_ids_unambiguous x y a b i j :
  contains_char "_" x = false -> contains_char "_" y = false ->
  contains_char "/" x = false -> contains_char "/" y = false ->
  contains_char "#" a = false -> contains_char "#" b = false ->
  (child_session_id (new_run_id x) (node_uid a i) = child_session_id (new_run_id y) (node_uid b j) ->
   x = y /\ a = b /\ i = j) /\
  (node_result_key (new_run_id x) (node_uid a i) = node_result_key (new_run_id y) (node_uid b j) ->
   x = y /\ a = b /\ i = j).
Proof.
  intros Hx Hy Hx' Hy' Ha Hb. split.
  - unfold child_session_id, new_run_id. intros He.
    apply (inj (String.append "wf_")) in He. rewrite <-!append_assoc in He.
    apply (inj (String.append "r_")) in He. apply sep_app_inj in He as [-> He]; [|done..].
    by apply node_uid_inj in He as [-> ->].
  - intros He. apply node_result_key_inj in He as [He1 He2].
    + apply (inj (String.append "r_")) in He1 as ->. by apply node_uid_inj in He2 as [-> ->].
    + unfold new_run_id. by rewrite contains_char_app, Hx'.
    + unfold new_run_id. by rewrite contains_char_app, Hy'.
Qed.

Definition sample_def : WorkflowDef :=
  mk_def 1 (<["plan" := mk_node (mk_agent "m" None None None None) (mk_input (One "run_input") None) [] None]>
           (<["read" := mk_node (mk_agent "m" None None None None) (mk_input (One "fanout_item") None) ["plan"]
                          (Some (mk_fanout "node:plan.docs"))]> ∅)) (mk_output "node:read") None.

Definition sample_run : WorkflowRunRecord :=
  mk_run "r_1" 3 AwaitingNodes false "r_1" Null
    (<["plan" := mk_cp Done (Some "wf_r_1_plan") (Some "t1") (Some "r_1/plan") None (Some 7%Z) (Some 9%Z) 0]> ∅)
    (<["read" := [Str "a"; Str "b"]]> ∅) None None None None None 5 (-6).

Lemma sample_def_ok : def_ok sample_def.
Proof.
  split; [done| |done]. intros k n Hk. cbn [nodes sample_def] in Hk.
  apply lookup_insert_Some in Hk as [[_ <-]|[_ Hk]]; [done|].
  apply lookup_insert_Some in Hk as [[_ <-]|[_ Hk]]; [done|]. done.
Qed.

Lemma sample_run_ok : run_ok sample_run.
Proof.
  split; [|done..]. split; try done. intros k c Hk. cbn [run_nodes sample_run] in Hk. apply lookup_insert_Some in Hk as [[_ <-]|[_ Hk]]; [|done].
  split; [by intros z [= <-]..|done].
Qed.

Lemma sample_config_ok : config_ok default_config.
Proof. by split. Qed.

Lemma stored_records_read_back_witness :
  from_value (to_value sample_def) = Some sample_def /\ from_value (to_value sample_run) = Some sample_run /\
  from_value (to_value default_config) = Some default_config /\ from_value (Obj []) = Some default_config.
Proof. exact (stored_records_read_back sample_def sample_run default_config sample_def_ok sample_run_ok sample_config_ok). Defined.

Lemma derived_ids_unambiguous_witness :
  child_session_id (new_run_id "1f") (node_uid "read" (Some 1)) = "wf_r_1f_read#1" /\
  child_session_id (new_run_id "1f") (node_uid "read" (Some 1))
    <> child_session_id (new_run_id "1f") (node_uid "read" (Some 12)).
Proof.
  split; [reflexivity|]. intros He.
  destruct (derived_ids_unambiguous "1f" "1f" "read" "read" (Some 1) (Some 12)
    eq_refl eq_refl eq_refl eq_refl eq_refl eq_refl) as [Hs _].
  destruct (Hs He) as (_ & _ & [=]).
Defined.

End TypesProperties.
