(* ===== verification/WfDag.v ===== *)
(** * The DAG of a workflow run (workflow/src/dag.rs)

    Everything that is computed from a definition and a run record without I/O: resolving a
    fan-out's array, expanding it, the readiness of nodes, the gathering of inputs, the
    status of the run, the cycle check and the set of nodes the output needs.  The loops
    that are not structural (the depth-first search and the closure) run on fuel, computed
    from the definition and shown to be enough. *)

From Stdlib Require Import Ascii ZArith Lia.
From S2P Require Import Prelude Json WfTypes.

Module Dag.
Import Ids.

Definition MAX_FANOUT_ITEMS : Z := 10000.
Definition MAX_TOTAL_NODES : Z := 50000.

Definition pending_checkpoint : NodeCheckpoint := mk_cp Pending None None None None None None 0.

(** [i as u32] on an index. *)
Definition as_u32 (i : nat) : nat := Z.to_nat (Z.of_nat i mod 2 ^ 32).

Definition item_uid (node_id : string) (i : nat) : string := node_uid node_id (Some (as_u32 i)).

Definition fanned_uids (r : WorkflowRunRecord) (node_id : string) : list string :=
  match fanout_src r !! node_id with
  | None => []
  | Some items => item_uid node_id <$> seq 0 (length items)
  end.

Definition json_type_name (v : Value) : string :=
  match v with
  | Null => "null" | Bool _ => "boolean" | Num _ => "number" | Str _ => "string" | Arr _ => "array" | Obj _ => "object"
  end.

(** The loop of [resolve_over_path] over the remaining segments. *)
Fixpoint walk_segments (node_id : string) (segs : list string) (cur : Value) : result Value string :=
  match segs with
  | [] => Ok cur
  | seg :: rest =>
      match cur with
      | Obj m =>
          match obj_get seg m with
          | Some v => walk_segments node_id rest v
          | None => Err ("path segment '" +:+ seg +:+ "' missing; node '" +:+ node_id +:+ "' produced keys: {"
                         +:+ join ", " (sort_strings (obj_keys m)) +:+ "}")
          end
      | other => Err ("path segment '" +:+ seg +:+ "' cannot be resolved: parent value is "
                      +:+ json_type_name other +:+ " (not an object)")
      end
  end.

(** Splits a dotted path into the node id and the segments to walk. *)
Definition over_segments (path : string) : string * list string :=
  let '(node_id, rest) := splitn2 "." path in
  let segments := filter (λ s, s <> "") (split_char "." (default "" rest)) in
  (node_id, match segments with
            | s :: tl => if decide (s = "result") then tl else segments
            | [] => []
            end).

Definition resolve_over_path (over : string) (results : gmap string Value) : result (list Value) string :=
  match strip_prefix "node:" over with
  | None => Err ("path must start with " +:+ dq +:+ "node:" +:+ dq)
  | Some path =>
      let '(node_id, segs) := over_segments path in
      match results !! node_id with
      | None => Err ("node '" +:+ node_id +:+ "' has no result in scope")
      | Some root =>
          match walk_segments node_id segs root with
          | Err e => Err e
          | Ok (Arr arr) => Ok arr
          | Ok other => Err ("value at path is " +:+ json_type_name other +:+ " (not an array)")
          end
      end
  end.

(** [Some(NodeState::Failed) | Some(NodeState::Cancelled)]. *)
Definition uid_state (r : WorkflowRunRecord) (uid : string) : option NodeState := state <$> run_nodes r !! uid.

Definition failed_state (s : option NodeState) : bool :=
  match s with Some Failed | Some Cancelled => true | _ => false end.

Definition is_fanout (def : WorkflowDef) (node_id : string) : bool :=
  match nodes def !! node_id with
  | Some n => match fanout n with Some _ => true | None => false end
  | None => false
  end.

(** One dependency of [deps_done]. *)
Definition dep_done (def : WorkflowDef) (r : WorkflowRunRecord) (dep_id : string) : bool :=
  if is_fanout def dep_id then
    if failed_state (uid_state r dep_id) then false
    else match fanout_src r !! dep_id with
         | None => false
         | Some items =>
             forallb (λ i, bool_decide (uid_state r (item_uid dep_id i) = Some Done)) (seq 0 (length items))
         end
  else bool_decide (uid_state r dep_id = Some Done).

Definition deps_done (def : WorkflowDef) (r : WorkflowRunRecord) (node_id : string) : bool :=
  match nodes def !! node_id with
  | None => false
  | Some n => forallb (dep_done def r) (depends_on n)
  end.

(** A fan-out that can never expand: a base-id [Failed] checkpoint with the reason. *)
Definition fail_expansion (node_id reason : string) (r : WorkflowRunRecord) : WorkflowRunRecord :=
  with_cp node_id (set_cp_error (Some reason) (set_state Failed pending_checkpoint))
    (set_fanout (<[node_id := []]> (fanout_src r)) r).

(** [entry(uid).or_insert_with(pending_checkpoint)] for every item. *)
Definition materialize (node_id : string) (n : nat) (ns : gmap string NodeCheckpoint) : gmap string NodeCheckpoint :=
  foldl (λ ns i, match ns !! item_uid node_id i with
                 | Some _ => ns
                 | None => <[item_uid node_id i := pending_checkpoint]> ns
                 end) ns (seq 0 n).

(** The loop body of [expand_ready_fanouts] once the dependencies are done. *)
Definition expand_one (node_id over : string) (results : gmap string Value) (r : WorkflowRunRecord) : WorkflowRunRecord :=
  let label := "fanout '" +:+ node_id +:+ "' over '" +:+ over +:+ "': " in
  match resolve_over_path over results with
  | Err detail => fail_expansion node_id (label +:+ detail) r
  | Ok items =>
      let n := length items in
      if (MAX_FANOUT_ITEMS <? Z.of_nat n)%Z then
        fail_expansion node_id (label +:+ "array has " +:+ show_nat n +:+ " items, exceeds the cap of "
                                +:+ pretty MAX_FANOUT_ITEMS) r
      else if (MAX_TOTAL_NODES <? Z.of_nat (size (run_nodes r) + n))%Z then
        fail_expansion node_id (label +:+ "expanding " +:+ show_nat n +:+ " items would exceed the run-wide cap of "
                                +:+ pretty MAX_TOTAL_NODES +:+ " materialized nodes") r
      else set_nodes (materialize node_id n (run_nodes r)) (set_fanout (<[node_id := items]> (fanout_src r)) r)
  end.

Fixpoint expand_candidates (def : WorkflowDef) (results : gmap string Value) (cs : list (string * string))
    (r : WorkflowRunRecord) : list string * WorkflowRunRecord :=
  match cs with
  | [] => ([], r)
  | (node_id, over) :: cs' =>
      if deps_done def r node_id then
        let '(ids, r') := expand_candidates def results cs' (expand_one node_id over results r) in (node_id :: ids, r')
      else expand_candidates def results cs' r
  end.

(** The fan-out nodes that have not been expanded, in key order. *)
Definition fanout_candidates (def : WorkflowDef) (r : WorkflowRunRecord) : list (string * string) :=
  omap (λ p : string * NodeDef,
          match fanout p.2, fanout_src r !! p.1 with
          | Some f, None => Some (p.1, over f)
          | _, _ => None
          end) (btree_iter (nodes def)).

Definition expand_ready_fanouts (def : WorkflowDef) (results : gmap string Value) (r : WorkflowRunRecord)
  : list string * WorkflowRunRecord :=
  expand_candidates def results (fanout_candidates def r) r.

(** The ready uids one node of the definition contributes. *)
Definition node_frontier (def : WorkflowDef) (r : WorkflowRunRecord) (p : string * NodeDef) : list string :=
  let '(node_id, n) := p in
  match fanout n with
  | Some _ =>
      match fanout_src r !! node_id with
      | Some items =>
          filter (λ uid, uid_state r uid = Some Pending /\ deps_done def r node_id = true)
                 (item_uid node_id <$> seq 0 (length items))
      | None => []
      end
  | None =>
      match run_nodes r !! node_id with
      | None => if deps_done def r node_id then [node_id] else []
      | Some _ => []
      end
  end.

Definition ready_frontier (def : WorkflowDef) (r : WorkflowRunRecord) : list string :=
  btree_iter (nodes def) ≫= node_frontier def r.

Definition gather_one (def : WorkflowDef) (r : WorkflowRunRecord) (from : string) (results : gmap string Value) : Value :=
  match strip_prefix "node:" from with
  | Some dep =>
      if is_fanout def dep then
        Arr ((λ i, default Null (results !! item_uid dep i)) <$> seq 0 (length (fanned_uids r dep)))
      else default Null (results !! dep)
  | None => run_input r
  end.

Definition gather_input (def : WorkflowDef) (r : WorkflowRunRecord) (node_id : string) (results : gmap string Value) : Value :=
  match nodes def !! node_id with
  | None => run_input r
  | Some n =>
      match in_from (input n) with
      | One from => gather_one def r from results
      | Many srcs =>
          Obj (foldl (λ obj src, match strip_prefix "node:" src with
                                 | Some dep => obj_insert (before_char "." dep) (gather_one def r src results) obj
                                 | None => obj
                                 end) [] srcs)
      end
  end.

(** The inner loop of [quiescence]: [None] is a failed uid. *)
Fixpoint scan_uids (r : WorkflowRunRecord) (uids : list string) (all_done : bool) : option bool :=
  match uids with
  | [] => Some all_done
  | uid :: rest =>
      match uid_state r uid with
      | Some Failed | Some Cancelled => None
      | Some Done => scan_uids r rest all_done
      | _ => scan_uids r rest false
      end
  end.

Fixpoint scan_required (def : WorkflowDef) (r : WorkflowRunRecord) (req : list string) (all_done : bool) : RunStatus :=
  match req with
  | [] => if all_done then Completed else AwaitingNodes
  | node_id :: rest =>
      let fan := is_fanout def node_id in
      let uids := if fan then fanned_uids r node_id else [node_id] in
      if fan && negb (bool_decide (is_Some (fanout_src r !! node_id))) then scan_required def r rest false
      else if fan && failed_state (uid_state r node_id) then RFailed
      else match scan_uids r uids all_done with
           | None => RFailed
           | Some d => scan_required def r rest d
           end
  end.

(** *** The closure of the output node *)

Definition deps_of (def : WorkflowDef) (n : string) : list string :=
  match nodes def !! n with Some d => depends_on d | None => [] end.

Definition output_node (def : WorkflowDef) : string :=
  default (out_from (output def)) (strip_prefix "node:" (out_from (output def))).

(** The worklist loop; [seen] and [req] of the code hold the same ids.  [None]: out of fuel. *)
Fixpoint close (def : WorkflowDef) (fuel : nat) (stack : list string) (seen : gset string) : option (gset string) :=
  match fuel with
  | 0 => None
  | S fuel =>
      match stack with
      | [] => Some seen
      | n :: stack =>
          if decide (n ∈ seen) then close def fuel stack seen
          else close def fuel (reverse (deps_of def n) ++ stack) ({[n]} ∪ seen)
      end
  end.

Definition edge_count (def : WorkflowDef) : nat :=
  sum_list ((λ p, length (depends_on p.2)) <$> map_to_list (nodes def)).

Definition required_set (def : WorkflowDef) : gset string :=
  default ∅ (close def (2 + edge_count def) [output_node def] ∅).

Definition quiescence (def : WorkflowDef) (r : WorkflowRunRecord) : RunStatus :=
  if abort r then RCancelled else scan_required def r (btree_set_iter (required_set def)) true.

(** *** The cycle check *)

Inductive Color : Type := OnStack | Finished.
Abbreviation Colors := (gmap string Color).
Abbreviation Visit := (option (result Colors string)).

(** The loop over the dependencies of [node]. *)
Fixpoint visit_deps (def : WorkflowDef) (visit : string -> Colors -> Visit) (node : string) (ds : list string)
    (color : Colors) : Visit :=
  match ds with
  | [] => Some (Ok color)
  | dep :: ds' =>
      match nodes def !! dep with
      | None => Some (Err ("node " +:+ node +:+ " depends on unknown node " +:+ dep))
      | Some _ =>
          match visit dep color with
          | Some (Ok color') => visit_deps def visit node ds' color'
          | other => other
          end
      end
  end.

(** Depth-first search; [None]: out of fuel. *)
Fixpoint visit (def : WorkflowDef) (fuel : nat) (node : string) (color : Colors) : Visit :=
  match fuel with
  | 0 => None
  | S fuel =>
      match color !! node with
      | Some Finished => Some (Ok color)
      | Some OnStack => Some (Err ("cycle through node " +:+ node))
      | None =>
          match visit_deps def (visit def fuel) node (deps_of def node) (<[node := OnStack]> color) with
          | Some (Ok color') => Some (Ok (<[node := Finished]> color'))
          | other => other
          end
      end
  end.

Fixpoint visit_all (def : WorkflowDef) (fuel : nat) (ks : list string) (color : Colors) : Visit :=
  match ks with
  | [] => Some (Ok color)
  | k :: ks' =>
      match visit def fuel k color with
      | Some (Ok color') => visit_all def fuel ks' color'
      | other => other
      end
  end.

Definition validate_acyclic (def : WorkflowDef) : result unit string :=
  match visit_all def (S (size (nodes def))) (btree_keys (nodes def)) ∅ with
  | Some (Ok _) => Ok tt
  | Some (Err e) => Err e
  | None => Err "out of fuel"
  end.

(** ** Specification *)

Definition edge (def : WorkflowDef) (a b : string) : Prop := b ∈ deps_of def a.
Definition closed (def : WorkflowDef) : Prop := forall a b, edge def a b -> is_Some (nodes def !! b).
Definition acyclic (def : WorkflowDef) : Prop := forall x, ~ tc (edge def) x x.

(** From [x] on, every dependency is known and every path ends. *)
Inductive good (def : WorkflowDef) (x : string) : Prop :=
| good_intro : (forall y, edge def x y -> is_Some (nodes def !! y)) ->
               (forall y, edge def x y -> good def y) -> good def x.

(** A node of the output's closure has failed. *)
Definition node_failed (def : WorkflowDef) (r : WorkflowRunRecord) (n : string) : bool :=
  if is_fanout def n then
    match fanout_src r !! n with
    | None => false
    | Some items => failed_state (uid_state r n)
                    || existsb (λ i, failed_state (uid_state r (item_uid n i))) (seq 0 (length items))
    end
  else failed_state (uid_state r n).

(** Node ids as [validate_def] accepts them, and snapshots within the cap. *)
Definition ids_ok (def : WorkflowDef) : Prop :=
  forall n d, nodes def !! n = Some d -> contains_char "#" n = false.
Definition src_ok (r : WorkflowRunRecord) : Prop :=
  forall n items, fanout_src r !! n = Some items -> (Z.of_nat (length items) <= MAX_FANOUT_ITEMS)%Z.

(** ** Lemmas *)

(** Discharges the premises of a hypothesis one by one. *)
Ltac specialize_with H :=
  match type of H with
  | ?P -> ?Q => let HP := fresh in assert (P) as HP; [| specialize (H HP); clear HP; specialize_with H]
  | _ => idtac
  end.

Lemma as_u32_small i : (Z.of_nat i <= MAX_FANOUT_ITEMS)%Z -> as_u32 i = i.
Proof. unfold as_u32, MAX_FANOUT_ITEMS. intros Hi. rewrite Z.mod_small by lia. lia. Qed.

Lemma item_uid_inj a b i j :
  contains_char "#" a = false -> contains_char "#" b = false ->
  (Z.of_nat i <= MAX_FANOUT_ITEMS)%Z -> (Z.of_nat j <= MAX_FANOUT_ITEMS)%Z ->
  item_uid a i = item_uid b j -> a = b /\ i = j.
Proof.
  intros Ha Hb Hi Hj He. unfold item_uid in He. apply node_uid_inj in He as [-> He]; [|done..].
  split; [done|]. injection He. by rewrite !as_u32_small.
Qed.

Lemma good_acyclic def x : good def x -> ~ tc (edge def) x x.
Proof.
  induction 1 as [x _ _ IH]. intros Hc.
  assert (exists y, edge def x y /\ rtc (edge def) y x) as (y & Hxy & Hyx).
  { inversion Hc as [? ? He|? y ? He Ht]; subst; [by exists x|]. exists y. split; [done|by apply tc_rtc]. }
  apply (IH y Hxy). eapply tc_rtc_l; [exact Hyx|by apply tc_once].
Qed.

(** *** The cycle check *)

Definition bad (def : WorkflowDef) : Prop :=
  (exists x, tc (edge def) x x) \/ (exists x y, edge def x y /\ nodes def !! y = None).

Definition whites (def : WorkflowDef) (color : Colors) : gset string := dom (nodes def) ∖ dom color.

(** What a visit may assume of the colors: finished nodes are good, and every node on the
    stack reaches the visited one. *)
Record visit_pre (def : WorkflowDef) (node : string) (color : Colors) : Prop := {
  pre_known : is_Some (nodes def !! node);
  pre_good : forall x, color !! x = Some Finished -> good def x;
  pre_path : forall g, color !! g = Some OnStack -> tc (edge def) g node;
}.

(** What it gives back: the node is finished, finished nodes stay so and are good, and the
    stack is as it was. *)
Record visit_post (def : WorkflowDef) (color color' : Colors) : Prop := {
  post_good : forall x, color' !! x = Some Finished -> good def x;
  post_stack : forall x, color' !! x = Some OnStack <-> color !! x = Some OnStack;
  post_mono : forall x, color !! x = Some Finished -> color' !! x = Some Finished;
}.

Lemma post_dom def color color' : visit_post def color color' -> dom color ⊆ dom color'.
Proof.
  intros [_ Hs Hm] x Hx. apply elem_of_dom in Hx as [[] Hx]; apply elem_of_dom.
  - exists OnStack. by apply Hs.
  - exists Finished. by apply Hm.
Qed.

Lemma post_trans def c1 c2 c3 : visit_post def c1 c2 -> visit_post def c2 c3 -> visit_post def c1 c3.
Proof. intros [_ H1 H2] [H3 H4 H5]. split; [done|intros x; by rewrite H4|auto]. Qed.

Definition visit_ok (def : WorkflowDef) (node : string) (color : Colors) (v : Visit) : Prop :=
  match v with
  | None => False
  | Some (Err _) => bad def
  | Some (Ok color') => visit_post def color color' /\ color' !! node = Some Finished
  end.

Lemma visit_deps_ok def (v : string -> Colors -> Visit) node ds color n :
  (forall dep c, visit_pre def dep c -> size (whites def c) < n -> visit_ok def dep c (v dep c)) ->
  (forall x, color !! x = Some Finished -> good def x) ->
  (forall g dep, color !! g = Some OnStack -> dep ∈ ds -> tc (edge def) g dep) ->
  (forall dep, dep ∈ ds -> edge def node dep) ->
  size (whites def color) < n ->
  match visit_deps def v node ds color with
  | None => False
  | Some (Err _) => bad def
  | Some (Ok color') => visit_post def color color' /\
      forall dep, dep ∈ ds -> is_Some (nodes def !! dep) /\ color' !! dep = Some Finished
  end.
Proof.
  intros Hv. revert color. induction ds as [|dep ds IH]; intros color Hg Hp He Hn; simpl.
  { split; [by split|]. by intros dep ?%elem_of_nil. }
  destruct (nodes def !! dep) as [d|] eqn:Hd.
  2: { right. exists node, dep. split; [apply He; by left|done]. }
  assert (visit_ok def dep color (v dep color)) as Hok.
  { apply Hv; [|done]. split; [by exists d|done|]. intros g Hg'. apply Hp; [done|by left]. }
  destruct (v dep color) as [[c1|e]|]; simpl in Hok; [|done|done]. destruct Hok as [Hpost Hfin].
  assert (size (whites def c1) < n) as Hn1.
  { eapply Nat.le_lt_trans; [|exact Hn]. apply subseteq_size.
    pose proof (post_dom _ _ _ Hpost). unfold whites. set_solver. }
  specialize (IH c1 (post_good _ _ _ Hpost)). destruct (visit_deps def v node ds c1) as [[c2|e]|].
  1: destruct IH as [Hpost2 Hds]; [| | done | split; [by eapply post_trans|]].
  3: { intros x [->|Hx]%elem_of_cons; [|by apply Hds]. split; [by exists d|]. by apply Hpost2. }
  3, 4: apply IH; [| |done].
  all: intros; first [apply He; by right | apply Hp; [by apply Hpost|by right]].
Qed.


Lemma visit_spec def fuel node color :
  visit_pre def node color -> size (whites def color) < fuel -> visit_ok def node color (visit def fuel node color).
Proof.
  revert node color. induction fuel as [|fuel IH]; intros node color [Hk Hg Hp] Hn; [lia|]. simpl.
  destruct (color !! node) as [[]|] eqn:Hc.
  - left. exists node. by apply Hp.
  - split; [by split|done].
  - assert (size (whites def (<[node:=OnStack]> color)) < fuel) as Hw.
    { assert (whites def (<[node:=OnStack]> color) ⊂ whites def color) as Hlt; [|apply subset_size in Hlt; lia].
      unfold whites. apply elem_of_dom in Hk. apply not_elem_of_dom in Hc. set_solver. }
    pose proof (visit_deps_ok def (visit def fuel) node (deps_of def node) (<[node:=OnStack]> color) fuel IH) as Hd.
    destruct (visit_deps def (visit def fuel) node (deps_of def node) (<[node:=OnStack]> color)) as [[c'|e]|];
      (specialize_with Hd;
       [ intros x Hx; destruct (decide (x = node)) as [->|]; simplify_map_eq; by apply Hg
       | intros g dep Hgc Hdep; destruct (decide (g = node)) as [->|]; [by apply tc_once|];
         rewrite lookup_insert_ne in Hgc by done; eapply tc_r; [by apply Hp|done]
       | done | done | ]); [|done|done].
    destruct Hd as [Hpost Hds].
    assert (good def node) as Hgood by (split; intros y Hy; [by apply Hds|by eapply post_good, Hds]).
    split; [|by simplify_map_eq]. split.
    + intros x. destruct (decide (x = node)) as [->|]; simplify_map_eq; [done|]. apply Hpost.
    + intros x. destruct (decide (x = node)) as [->|Hne]; [by rewrite lookup_insert_eq, Hc|].
      rewrite lookup_insert_ne by done. rewrite (post_stack _ _ _ Hpost x). by rewrite lookup_insert_ne.
    + intros x Hx. destruct (decide (x = node)) as [->|Hne]; [by simplify_map_eq|].
      rewrite lookup_insert_ne by done. apply Hpost. by rewrite lookup_insert_ne.
Qed.

Lemma visit_all_spec def fuel ks color :
  (forall k, k ∈ ks -> is_Some (nodes def !! k)) ->
  (forall x, color !! x = Some Finished -> good def x) -> (forall x, color !! x <> Some OnStack) ->
  size (nodes def) < fuel ->
  match visit_all def fuel ks color with
  | None => False
  | Some (Err _) => bad def
  | Some (Ok _) => forall k, k ∈ ks -> good def k
  end.
Proof.
  revert color. induction ks as [|k ks IH]; intros color Hk Hg Hs Hn; simpl; [by intros k ?%elem_of_nil|].
  assert (visit_ok def k color (visit def fuel k color)) as Hok.
  { apply visit_spec.
    - split; [apply Hk; by left|done|]. intros g Hgs. by destruct (Hs g).
    - eapply Nat.le_lt_trans; [|exact Hn]. rewrite <-size_dom. apply subseteq_size. unfold whites. set_solver. }
  destruct (visit def fuel k color) as [[c1|e]|]; simpl in Hok; [|done|done]. destruct Hok as [Hpost Hfin].
  specialize (IH c1). specialize_with IH.
  - intros y Hy. apply Hk. by right.
  - apply Hpost.
  - intros y Hy. apply (post_stack _ _ _ Hpost) in Hy. by destruct (Hs y).
  - exact Hn.
  - destruct (visit_all def fuel ks c1) as [[c2|e]|]; [|done|done].
    intros x [->|Hx]%elem_of_cons; [by eapply post_good|by apply IH].
Qed.

Lemma validate_acyclic_cases def :
  match validate_acyclic def with
  | Ok _ => forall k, is_Some (nodes def !! k) -> good def k
  | Err _ => bad def
  end.
Proof.
  unfold validate_acyclic.
  pose proof (visit_all_spec def (S (size (nodes def))) (btree_keys (nodes def)) ∅) as Hv.
  specialize_with Hv.
  - intros k Hk. by apply elem_of_btree_keys.
  - intros x Hx. by rewrite lookup_empty in Hx.
  - intros x Hx. by rewrite lookup_empty in Hx.
  - lia.
  - destruct (visit_all _ _ _ _) as [[c|e]|]; [|done|done].
    intros k Hk. by apply Hv, elem_of_btree_keys.
Qed.

Lemma bad_not_ok def : bad def -> closed def -> acyclic def -> False.
Proof.
  intros [[x Hx]|(x & y & He & Hy)] Hc Ha; [by eapply Ha|]. destruct (Hc x y He) as [d Hd]. congruence.
Qed.

Lemma edge_known def a b : edge def a b -> is_Some (nodes def !! a).
Proof. unfold edge, deps_of. destruct (nodes def !! a); [done|]. by intros ?%elem_of_nil. Qed.


(** *** The closure *)

(** The dependencies of the nodes that have not been seen. *)
Definition open_edges (l : list (string * NodeDef)) (seen : gset string) : nat :=
  sum_list ((λ p, if decide (p.1 ∈ seen) then 0 else length (depends_on p.2)) <$> l).

Lemma open_edges_cons n d l seen :
  open_edges ((n, d) :: l) seen = (if decide (n ∈ seen) then 0 else length (depends_on d)) + open_edges l seen.
Proof. done. Qed.

Lemma open_edges_mono l seen seen' : seen ⊆ seen' -> open_edges l seen' <= open_edges l seen.
Proof.
  intros Hs. induction l as [|[n d] l IH]; [done|]. rewrite !open_edges_cons.
  destruct (decide (n ∈ seen)), (decide (n ∈ seen')); [lia|set_solver|lia|lia].
Qed.

Lemma open_edges_add l seen n d :
  (n, d) ∈ l -> n ∉ seen -> length (depends_on d) + open_edges l ({[n]} ∪ seen) <= open_edges l seen.
Proof.
  intros Hl Hn. induction l as [|[m e] l IH]; [by apply elem_of_nil in Hl|].
  rewrite !open_edges_cons. apply elem_of_cons in Hl as [[= <- <-]|Hl].
  - rewrite (decide_True (P := n ∈ {[n]} ∪ seen)) by set_solver. rewrite (decide_False (P := n ∈ seen)) by done.
    assert (seen ⊆ {[n]} ∪ seen) as Hs by set_solver. pose proof (open_edges_mono l _ _ Hs). lia.
  - specialize (IH Hl). destruct (decide (m ∈ seen)), (decide (m ∈ {[n]} ∪ seen)); [lia|set_solver|lia|lia].
Qed.

Lemma open_edges_empty l : open_edges l ∅ = sum_list ((λ p, length (depends_on p.2)) <$> l).
Proof.
  induction l as [|[n d] l IH]; [done|]. rewrite open_edges_cons, IH, decide_False by set_solver. done.
Qed.

Lemma open_edges_deps def seen n :
  n ∉ seen ->
  length (deps_of def n) + open_edges (map_to_list (nodes def)) ({[n]} ∪ seen) <= open_edges (map_to_list (nodes def)) seen.
Proof.
  intros Hn. unfold deps_of. destruct (nodes def !! n) as [d|] eqn:Hd.
  - apply open_edges_add; [by apply elem_of_map_to_list|done].
  - simpl. apply open_edges_mono. set_solver.
Qed.

Lemma close_spec def fuel stack seen :
  length stack + open_edges (map_to_list (nodes def)) seen < fuel ->
  (forall x y, x ∈ seen -> edge def x y -> y ∈ seen \/ y ∈ stack) ->
  exists out, close def fuel stack seen = Some out /\ seen ⊆ out /\ (forall x, x ∈ stack -> x ∈ out) /\
    (forall x y, x ∈ out -> edge def x y -> y ∈ out) /\
    (forall x, x ∈ out -> x ∈ seen \/ exists s, s ∈ stack /\ rtc (edge def) s x).
Proof.
  revert stack seen. induction fuel as [|fuel IH]; intros stack seen Hf Hc; [lia|]. simpl.
  destruct stack as [|n stack].
  { exists seen. split_and!; [done..| | |].
    - by intros x ?%elem_of_nil.
    - intros x y Hx He. destruct (Hc x y Hx He) as [?|?%elem_of_nil]; done.
    - by left. }
  simpl in Hf. destruct (decide (n ∈ seen)) as [Hn|Hn].
  - destruct (IH stack seen) as (out & -> & Hs & Hst & Hcl & Hr); [lia| |].
    { intros x y Hx He. destruct (Hc x y Hx He) as [?|[->|?]%elem_of_cons]; auto. }
    exists out. split_and!; [done..| |done|].
    + intros x [->|Hx]%elem_of_cons; auto.
    + intros x Hx. destruct (Hr x Hx) as [?|(s & ? & ?)]; [by left|]. right. exists s. by split; [right|].
  - pose proof (open_edges_deps def seen n Hn) as Ho.
    destruct (IH (reverse (deps_of def n) ++ stack) ({[n]} ∪ seen)) as (out & -> & Hs & Hst & Hcl & Hr).
    { rewrite length_app, length_reverse. lia. }
    { intros x y Hx He. apply elem_of_union in Hx as [->%elem_of_singleton|Hx].
      - right. apply elem_of_app. left. by apply elem_of_reverse.
      - destruct (Hc x y Hx He) as [?|[->|?]%elem_of_cons]; [left; set_solver..|]. right. apply elem_of_app. by right. }
    exists out. split_and!; [done|set_solver| |done|].
    + intros x [->|Hx]%elem_of_cons; [set_solver|]. apply Hst, elem_of_app. by right.
    + intros x Hx. destruct (Hr x Hx) as [[->%elem_of_singleton|?]%elem_of_union|(s & Hs' & Hrt)].
      * right. exists n. split; [by left|done].
      * by left.
      * rewrite elem_of_app, elem_of_reverse in Hs'. destruct Hs' as [Hs'|Hs'].
        -- right. exists n. split; [by left|]. eapply rtc_l; [exact Hs'|exact Hrt].
        -- right. exists s. by split; [right|].
Qed.

Lemma required_set_spec def x : x ∈ required_set def <-> rtc (edge def) (output_node def) x.
Proof.
  unfold required_set. destruct (close_spec def (2 + edge_count def) [output_node def] ∅) as (out & Ho & _ & Hst & Hcl & Hr).
  - rewrite open_edges_empty. unfold edge_count. simpl. lia.
  - set_solver.
  - rewrite Ho. simpl. split.
    + intros Hx. destruct (Hr x Hx) as [?|(s & ->%list_elem_of_singleton & ?)]; [set_solver|done].
    + assert (output_node def ∈ out) as Hin by (apply Hst; by left). intros Hrt.
      revert Hin. clear -Hcl Hrt. induction Hrt as [|a b c Hab Hbc IH]; [done|].
      intros Ha. apply IH. exact (Hcl a b Ha Hab).
Qed.

Lemma required_edge def a b : a ∈ required_set def -> edge def a b -> b ∈ required_set def.
Proof. rewrite !required_set_spec. intros Ha Hab. by eapply rtc_r. Qed.

(** *** Quiescence *)

Lemma scan_uids_spec r uids all_done :
  scan_uids r uids all_done =
  if existsb (λ u, failed_state (uid_state r u)) uids then None
  else Some (all_done && forallb (λ u, bool_decide (uid_state r u = Some Done)) uids).
Proof.
  revert all_done. induction uids as [|u uids IH]; intros d; simpl; [by rewrite andb_true_r|].
  destruct (uid_state r u) as [[]|]; simpl; rewrite ?IH; try done;
    rewrite ?andb_false_l, ?andb_false_r; try done.
Qed.

Lemma existsb_map {A B} (f : A -> B) p l : existsb p (f <$> l) = existsb (λ x, p (f x)) l.
Proof. induction l as [|x l IH]; [done|]. rewrite fmap_cons. cbn [existsb]. by rewrite IH. Qed.

Lemma forallb_map {A B} (f : A -> B) p l : forallb p (f <$> l) = forallb (λ x, p (f x)) l.
Proof. induction l as [|x l IH]; [done|]. rewrite fmap_cons. cbn [forallb]. by rewrite IH. Qed.

Lemma scan_required_spec def r req all_done :
  scan_required def r req all_done =
  if existsb (node_failed def r) req then RFailed
  else if all_done && forallb (dep_done def r) req then Completed else AwaitingNodes.
Proof.
  revert all_done. induction req as [|n req IH]; intros d; cbn [scan_required existsb forallb]; [by rewrite andb_true_r|].
  rewrite scan_uids_spec. unfold node_failed at 1, dep_done at 1, fanned_uids.
  destruct (is_fanout def n); cbn [andb].
  - destruct (fanout_src r !! n) as [items|] eqn:Hs.
    + rewrite bool_decide_eq_true_2 by done. cbn [negb]. rewrite existsb_map, forallb_map.
      destruct (failed_state (uid_state r n)); cbn [orb]; [done|].
      destruct (existsb _ (seq 0 (length items))); cbn [orb]; [done|]. by rewrite IH, andb_assoc.
    + rewrite bool_decide_eq_false_2 by (by intros [? ?]). cbn [negb orb]. rewrite IH.
      by destruct d, (failed_state (uid_state r n)).
  - cbn [existsb forallb]. rewrite orb_false_r, andb_true_r.
    destruct (failed_state (uid_state r n)); cbn [orb]; [done|]. by rewrite IH, andb_assoc.
Qed.


Lemma quiescence_spec def r :
  quiescence def r =
  if abort r then RCancelled
  else if existsb (node_failed def r) (btree_set_iter (required_set def)) then RFailed
  else if forallb (dep_done def r) (btree_set_iter (required_set def)) then Completed else AwaitingNodes.
Proof. unfold quiescence. destruct (abort r); [done|]. apply scan_required_spec. Qed.

Lemma existsb_elem {A} (p : A -> bool) l : existsb p l = true <-> exists x, x ∈ l /\ p x = true.
Proof. rewrite existsb_exists. by setoid_rewrite <-list_elem_of_In. Qed.

Lemma forallb_elem {A} (p : A -> bool) l : forallb p l = true <-> forall x, x ∈ l -> p x = true.
Proof. rewrite forallb_forall. by setoid_rewrite <-list_elem_of_In. Qed.

Lemma deps_done_spec def r n :
  deps_done def r n = true <-> is_Some (nodes def !! n) /\ forall d, edge def n d -> dep_done def r d = true.
Proof.
  unfold deps_done, edge, deps_of. destruct (nodes def !! n) as [nd|].
  - rewrite forallb_elem. split; [by split|by intros [_ ?]].
  - split; [done|]. by intros [[? [=]] _].
Qed.

(** *** The frontier *)

Lemma elem_of_node_frontier def r n nd uid :
  uid ∈ node_frontier def r (n, nd) <->
  deps_done def r n = true /\
  match fanout nd with
  | None => uid = n /\ run_nodes r !! n = None
  | Some _ => exists items i, fanout_src r !! n = Some items /\ i < length items /\ uid = item_uid n i
                              /\ uid_state r uid = Some Pending
  end.
Proof.
  simpl. destruct (fanout nd) as [f|].
  - destruct (fanout_src r !! n) as [items|].
    + rewrite list_elem_of_filter, list_elem_of_fmap. split.
      * intros ([Hp Hd] & i & -> & Hi%elem_of_seq). split; [done|]. exists items, i. split_and!; [done|lia|done..].
      * intros (Hd & items' & i & [= <-] & Hi & -> & Hp). split; [done|]. exists i. split; [done|]. apply elem_of_seq. lia.
    + split; [by intros ?%elem_of_nil|]. by intros (_ & ? & ? & [=] & _).
  - destruct (run_nodes r !! n) as [c|].
    + split; [by intros ?%elem_of_nil|]. by intros (_ & _ & [=]).
    + destruct (deps_done def r n).
      * rewrite list_elem_of_singleton. naive_solver.
      * split; [by intros ?%elem_of_nil|]. by intros [[=] _].
Qed.

Lemma elem_of_ready_frontier def r uid :
  uid ∈ ready_frontier def r <-> exists n nd, nodes def !! n = Some nd /\ uid ∈ node_frontier def r (n, nd).
Proof.
  unfold ready_frontier. rewrite list_elem_of_bind. split.
  - intros ([n nd] & Hu & Hn%elem_of_btree_iter). by exists n, nd.
  - intros (n & nd & Hn & Hu). exists (n, nd). split; [done|]. by apply elem_of_btree_iter.
Qed.

(** The node id of a frontier uid. *)
Lemma frontier_base def r n nd uid :
  ids_ok def -> nodes def !! n = Some nd -> uid ∈ node_frontier def r (n, nd) -> before_char "#" uid = n.
Proof.
  intros Hi Hn Hu. specialize (Hi n nd Hn). apply elem_of_node_frontier in Hu as [_ Hu]. destruct (fanout nd).
  - destruct Hu as (items & i & _ & _ & -> & _). by apply before_hash_uid.
  - destruct Hu as [-> _]. by apply before_char_id.
Qed.

Lemma NoDup_item_uids r n items :
  src_ok r -> fanout_src r !! n = Some items -> NoDup (item_uid n <$> seq 0 (length items)).
Proof.
  intros Hs Hn. specialize (Hs n items Hn). apply NoDup_fmap_2_strong; [|apply NoDup_seq].
  intros i j Hi%elem_of_seq Hj%elem_of_seq He. unfold item_uid in He. apply node_uid_item_inj in He.
  by rewrite !as_u32_small in He by lia.
Qed.

Lemma NoDup_ready_frontier def r : ids_ok def -> src_ok r -> NoDup (ready_frontier def r).
Proof.
  intros Hi Hs. unfold ready_frontier. apply NoDup_bind.
  - intros [a nda] [b ndb] uid Ha%elem_of_btree_iter Hb%elem_of_btree_iter Hua Hub.
    pose proof (frontier_base _ _ _ _ _ Hi Ha Hua) as Hx. pose proof (frontier_base _ _ _ _ _ Hi Hb Hub) as Hy.
    simplify_eq. congruence.
  - intros [n nd] Hn%elem_of_btree_iter. simpl. destruct (fanout nd).
    + destruct (fanout_src r !! n) as [items|] eqn:Hn'; [|constructor]. by apply NoDup_filter, (NoDup_item_uids r).
    + destruct (run_nodes r !! n); [constructor|]. destruct (deps_done def r n); [apply NoDup_singleton|constructor].
  - apply (NoDup_fmap_1 fst), NoDup_btree_keys.
Qed.

(** *** Expansion *)

Lemma materialize_step node_id ns n :
  materialize node_id (S n) ns =
  match materialize node_id n ns !! item_uid node_id n with
  | Some _ => materialize node_id n ns
  | None => <[item_uid node_id n := pending_checkpoint]> (materialize node_id n ns)
  end.
Proof. unfold materialize. by rewrite seq_S, foldl_app. Qed.

Lemma decide_iff_if {A} (P Q : Prop) `{Decision P} `{Decision Q} (x y : A) :
  (P <-> Q) -> (if decide P then x else y) = (if decide Q then x else y).
Proof. intros HPQ. destruct (decide P), (decide Q); tauto. Qed.

Lemma materialize_lookup node_id n ns k :
  materialize node_id n ns !! k =
  match ns !! k with
  | Some c => Some c
  | None => if decide (k ∈ item_uid node_id <$> seq 0 n) then Some pending_checkpoint else None
  end.
Proof.
  revert k. induction n as [|n IH]; intros k.
  { change (materialize node_id 0 ns) with ns. by destruct (ns !! k). }
  rewrite materialize_step, seq_S, fmap_app, (IH (item_uid node_id n)). change (item_uid node_id <$> [0 + n]) with [item_uid node_id n].
  destruct (ns !! item_uid node_id n) as [c|] eqn:Hi;
    [|destruct (decide (item_uid node_id n ∈ item_uid node_id <$> seq 0 n)) as [Hin|Hin]].
  - rewrite IH. destruct (ns !! k) eqn:Hk; [done|]. apply decide_iff_if.
    rewrite elem_of_app, list_elem_of_singleton. split; [by left|]. intros [?| ->]; [done|congruence].
  - rewrite IH. destruct (ns !! k) eqn:Hk; [done|]. apply decide_iff_if.
    rewrite elem_of_app, list_elem_of_singleton. split; [by left|]. by intros [?| ->].
  - destruct (decide (k = item_uid node_id n)) as [->|Hne].
    + rewrite lookup_insert_eq, Hi, decide_True; [done|]. rewrite elem_of_app, list_elem_of_singleton. by right.
    + rewrite lookup_insert_ne, IH by done. destruct (ns !! k) eqn:Hk; [done|]. apply decide_iff_if.
      rewrite elem_of_app, list_elem_of_singleton. split; [by left|]. by intros [?|?].
Qed.

Lemma materialize_size node_id n ns : size (materialize node_id n ns) <= size ns + n.
Proof.
  induction n as [|n IH]; [unfold materialize; simpl; lia|]. rewrite materialize_step.
  destruct (materialize node_id n ns !! item_uid node_id n) eqn:Hm; [lia|]. rewrite map_size_insert_None by done. lia.
Qed.


(** What one expansion does to the record, whatever its outcome. *)
Record expanded (n : string) (r r' : WorkflowRunRecord) : Prop := {
  ex_fields : r' = set_nodes (run_nodes r') (set_fanout (fanout_src r') r);
  ex_src : exists items, fanout_src r' = <[n := items]> (fanout_src r)
                         /\ (Z.of_nat (length items) <= MAX_FANOUT_ITEMS)%Z
                         /\ forall i, i < length items -> is_Some (run_nodes r' !! item_uid n i);
  ex_keep : forall k c, k <> n -> run_nodes r !! k = Some c -> run_nodes r' !! k = Some c;
  ex_new : forall k c, run_nodes r' !! k = Some c ->
             run_nodes r !! k = Some c \/ (state c = Failed /\ k = n) \/ (c = pending_checkpoint /\ exists i, k = item_uid n i);
  ex_size : (Z.of_nat (size (run_nodes r')) <= Z.max (Z.of_nat (size (run_nodes r))) MAX_TOTAL_NODES + 1)%Z;
}.

Lemma fail_expansion_expanded n reason r : expanded n r (fail_expansion n reason r).
Proof.
  split; try done; cbn [fail_expansion with_cp set_nodes set_fanout run_nodes fanout_src].
  - exists []. split; [done|]. split; [done|]. intros i Hi. simpl in Hi. lia.
  - intros k c Hne Hk. by rewrite lookup_insert_ne.
  - intros k c [[<- <-]|[_ ?]]%lookup_insert_Some; [right; by left|by left].
  - assert (size (<[n:=set_cp_error (Some reason) (set_state Failed pending_checkpoint)]> (run_nodes r))
              <= S (size (run_nodes r))) as Hs; [|unfold MAX_TOTAL_NODES; lia].
    rewrite map_size_insert. destruct (run_nodes r !! n); simpl; lia.
Qed.

Lemma expand_one_expanded n over results r : expanded n r (expand_one n over results r).
Proof.
  unfold expand_one. destruct (resolve_over_path over results) as [items|e]; [|apply fail_expansion_expanded].
  destruct (Z.ltb_spec MAX_FANOUT_ITEMS (Z.of_nat (length items))) as [|Hi]; [apply fail_expansion_expanded|].
  destruct (Z.ltb_spec MAX_TOTAL_NODES (Z.of_nat (size (run_nodes r) + length items))) as [|Ht];
    [apply fail_expansion_expanded|].
  split; try done; cbn [set_nodes set_fanout run_nodes fanout_src].
  - exists items. split_and!; [done..|]. intros i Hl. rewrite materialize_lookup.
    destruct (run_nodes r !! item_uid n i); [done|]. rewrite decide_True; [done|].
    apply list_elem_of_fmap_2, elem_of_seq. lia.
  - intros k c Hne Hk. by rewrite materialize_lookup, Hk.
  - intros k c. rewrite materialize_lookup. destruct (run_nodes r !! k) as [c0|]; [by left|].
    destruct (decide (k ∈ item_uid n <$> seq 0 (length items))) as [Hin|]; [|done]. intros [= <-]. right; right.
    apply list_elem_of_fmap in Hin as (i & -> & _). split; [done|]. by exists i.
  - pose proof (materialize_size n (length items) (run_nodes r)). lia.
Qed.

(** The record stays well formed: snapshots within the cap, every item of a snapshot has a
    checkpoint, a node that is not fanned out is never left pending, and a fan-out that has
    not been expanded has no checkpoint of its own. *)
Record rec_ok (def : WorkflowDef) (r : WorkflowRunRecord) : Prop := {
  ok_src : src_ok r;
  ok_items : forall n items i, fanout_src r !! n = Some items -> i < length items -> is_Some (run_nodes r !! item_uid n i);
  ok_normal : forall n nd, nodes def !! n = Some nd -> fanout nd = None -> uid_state r n <> Some Pending;
  ok_base : forall n, is_fanout def n = true -> fanout_src r !! n = None -> run_nodes r !! n = None;
}.

Lemma item_uid_hash n i : contains_char "#" (item_uid n i) = true.
Proof. unfold item_uid, node_uid. rewrite contains_char_app, (append_cons "#"). simpl. by rewrite orb_true_r. Qed.

Lemma lookup_keeps n r r' k :
  expanded n r r' -> is_Some (run_nodes r !! k) -> is_Some (run_nodes r' !! k) \/ k = n.
Proof.
  intros He [c Hc]. destruct (decide (k = n)) as [->|Hne]; [by right|]. left. exists c. by eapply ex_keep.
Qed.

Lemma expanded_rec_ok def n r r' :
  ids_ok def -> is_fanout def n = true -> rec_ok def r -> expanded n r r' -> rec_ok def r'.
Proof.
  intros Hids Hf [Hs Hi Hn Hb] He. destruct (ex_src _ _ _ He) as (items & Hsrc & Hcap & Hmat).
  pose proof Hf as Hf0. unfold is_fanout in Hf. destruct (nodes def !! n) as [nd|] eqn:Hnd; [|done].
  pose proof (Hids n nd Hnd) as Hhash. split.
  - intros k its. rewrite Hsrc. intros [[<- <-]|[_ Hk]]%lookup_insert_Some; [done|by eapply Hs].
  - intros k its i. rewrite Hsrc. intros [[<- <-]|[Hne Hk]]%lookup_insert_Some Hl; [by apply Hmat|].
    destruct (lookup_keeps n r r' (item_uid k i) He) as [?|Heq]; [by eapply Hi|done|].
    pose proof (item_uid_hash k i) as Hh. rewrite Heq in Hh. congruence.
  - intros k kd Hk Hkf. unfold uid_state.
    assert (k <> n) as Hne by (intros ->; rewrite Hnd in Hk; injection Hk as <-; by rewrite Hkf in Hf).
    destruct (run_nodes r !! k) as [c|] eqn:Hc.
    + rewrite (ex_keep _ _ _ He k c Hne Hc). specialize (Hn k kd Hk Hkf). unfold uid_state in Hn. by rewrite Hc in Hn.
    + destruct (run_nodes r' !! k) as [c|] eqn:Hc'; [|done].
      destruct (ex_new _ _ _ He k c Hc') as [?|[[_ ?]|(_ & i & ->)]]; [congruence|done|].
      pose proof (Hids _ _ Hk) as Hh. by rewrite item_uid_hash in Hh.
  - intros k Hkf. rewrite Hsrc. intros [Hks Hne]%lookup_insert_None. specialize (Hb k Hkf Hks).
    destruct (run_nodes r' !! k) as [c|] eqn:Hc; [|done].
    destruct (ex_new _ _ _ He k c Hc) as [?|[[_ ?]|(_ & i & ->)]]; [congruence..|].
    unfold is_fanout in Hkf. destruct (nodes def !! item_uid n i) as [kd|] eqn:Hkd; [|done].
    pose proof (Hids _ _ Hkd) as Hh. by rewrite item_uid_hash in Hh.
Qed.


(** What a whole pass does: [ids] are the fan-outs it expanded. *)
Record pass (ids : list string) (r r' : WorkflowRunRecord) : Prop := {
  pa_fields : r' = set_nodes (run_nodes r') (set_fanout (fanout_src r') r);
  pa_frozen : forall k, k ∉ ids -> fanout_src r' !! k = fanout_src r !! k;
  pa_done : forall k, k ∈ ids -> is_Some (fanout_src r' !! k);
  pa_keep : forall k c, k ∉ ids -> run_nodes r !! k = Some c -> run_nodes r' !! k = Some c;
  pa_new : forall k c, run_nodes r' !! k = Some c ->
             run_nodes r !! k = Some c \/ (state c = Failed /\ k ∈ ids) \/
             (c = pending_checkpoint /\ exists n i, n ∈ ids /\ k = item_uid n i);
  pa_size : (Z.of_nat (size (run_nodes r'))
             <= Z.max (Z.of_nat (size (run_nodes r))) MAX_TOTAL_NODES + Z.of_nat (length ids))%Z;
}.

Lemma pass_nil r : pass [] r r.
Proof.
  split; try done.
  - by destruct r.
  - by intros k ?%elem_of_nil.
  - by left.
  - simpl. lia.
Qed.

Lemma pass_cons n ids r r1 r2 : expanded n r r1 -> pass ids r1 r2 -> pass (n :: ids) r r2.
Proof.
  intros He Hp. destruct (ex_src _ _ _ He) as (items & Hsrc & _ & _). split.
  - rewrite (pa_fields _ _ _ Hp) at 1. rewrite (ex_fields _ _ _ He) at 1. done.
  - intros k [Hn Hk]%not_elem_of_cons. rewrite (pa_frozen _ _ _ Hp) by done. by rewrite Hsrc, lookup_insert_ne.
  - intros k Hk. destruct (decide (k ∈ ids)) as [|Hki]; [by eapply pa_done|].
    apply elem_of_cons in Hk as [->|]; [|done]. rewrite (pa_frozen _ _ _ Hp) by done. by rewrite Hsrc, lookup_insert_eq.
  - intros k c [Hn Hk]%not_elem_of_cons Hc. apply (pa_keep _ _ _ Hp); [done|]. by eapply ex_keep.
  - intros k c Hc. destruct (pa_new _ _ _ Hp k c Hc) as [Hc1|[[? ?]|(-> & m & i & ? & ->)]].
    + destruct (ex_new _ _ _ He k c Hc1) as [?|[[? ->]|(-> & i & ->)]]; [by left|right; left; by split; [|left]|].
      right; right. split; [done|]. exists n, i. by split; [left|].
    + right; left. by split; [|right].
    + right; right. split; [done|]. exists m, i. by split; [right|].
  - pose proof (pa_size _ _ _ Hp). pose proof (ex_size _ _ _ He). simpl length. lia.
Qed.

Lemma expand_candidates_pass def results cs r :
  let '(ids, r') := expand_candidates def results cs r in
  pass ids r r' /\ (forall k, k ∈ ids -> k ∈ cs.*1) /\
  (ids = [] -> r' = r /\ forall k, k ∈ cs.*1 -> deps_done def r k = false) /\
  (ids_ok def -> (forall k, k ∈ cs.*1 -> is_fanout def k = true) -> rec_ok def r -> rec_ok def r').
Proof.
  revert r. induction cs as [|[n ov] cs IH]; intros r; simpl.
  { split_and!; [apply pass_nil|done| |done]. intros _. split; [done|]. by intros k ?%elem_of_nil. }
  destruct (deps_done def r n) eqn:Hd.
  - pose proof (expand_one_expanded n ov results r) as He. specialize (IH (expand_one n ov results r)).
    destruct (expand_candidates def results cs (expand_one n ov results r)) as [ids r'].
    destruct IH as (Hp & Hin & _ & Hok). split_and!; [by eapply pass_cons| |done|].
    + intros k [->|Hk]%elem_of_cons; [by left|right; by apply Hin].
    + intros Hi Hf Hr. apply Hok; [done| |].
      * intros k Hk. apply Hf. by right.
      * eapply expanded_rec_ok; [done|apply Hf; by left|done..].
  - specialize (IH r). destruct (expand_candidates def results cs r) as [ids r'].
    destruct IH as (Hp & Hin & Hnil & Hok). split_and!; [done| | |].
    + intros k Hk. right. by apply Hin.
    + intros ->. destruct (Hnil eq_refl) as [-> Hk]. split; [done|]. intros k [->|?]%elem_of_cons; [done|by apply Hk].
    + intros Hi Hf Hr. apply Hok; [done| |done]. intros k Hk. apply Hf. by right.
Qed.

Lemma elem_of_candidates def r n :
  n ∈ (fanout_candidates def r).*1 <-> is_fanout def n = true /\ fanout_src r !! n = None.
Proof.
  unfold fanout_candidates, is_fanout. rewrite list_elem_of_fmap. split.
  - intros ([m ov] & -> & ([k nd] & Hk%elem_of_btree_iter & Ho)%list_elem_of_omap). simpl in *.
    destruct (fanout nd) eqn:Hf, (fanout_src r !! k) eqn:Hs; simplify_eq. by rewrite Hk, Hf.
  - intros [Hf Hs]. destruct (nodes def !! n) as [nd|] eqn:Hn; [|done]. destruct (fanout nd) as [f|] eqn:Hfn; [|done].
    exists (n, over f). split; [done|]. apply list_elem_of_omap. exists (n, nd). split; [by apply elem_of_btree_iter|].
    simpl. by rewrite Hfn, Hs.
Qed.

(** The unexpanded fan-outs. *)
Definition unexpanded (def : WorkflowDef) (r : WorkflowRunRecord) : gset string :=
  list_to_set (fanout_candidates def r).*1.

Lemma expand_pass def results r ids r' :
  expand_ready_fanouts def results r = (ids, r') ->
  pass ids r r' /\ (forall k, k ∈ ids -> is_fanout def k = true /\ fanout_src r !! k = None) /\
  (ids = [] -> r' = r /\ forall k, is_fanout def k = true -> fanout_src r !! k = None -> deps_done def r k = false) /\
  (ids_ok def -> rec_ok def r -> rec_ok def r').
Proof.
  unfold expand_ready_fanouts. intros He. pose proof (expand_candidates_pass def results (fanout_candidates def r) r) as Hp.
  rewrite He in Hp. destruct Hp as (Hp & Hin & Hnil & Hok). split_and!; [done| | |].
  - intros k Hk. by apply elem_of_candidates, Hin.
  - intros Hi. destruct (Hnil Hi) as [-> Hd]. split; [done|]. intros k Hk Hs. by apply Hd, elem_of_candidates.
  - intros Hi Hr. apply Hok; [done| |done]. intros k Hk%elem_of_candidates. apply Hk.
Qed.

Lemma unexpanded_decreases def ids r r' :
  pass ids r r' -> (forall k, k ∈ ids -> is_fanout def k = true /\ fanout_src r !! k = None) -> ids <> [] ->
  size (unexpanded def r') < size (unexpanded def r).
Proof.
  intros Hp Hin Hne. apply subset_size. split.
  - intros k. unfold unexpanded. rewrite !elem_of_list_to_set, !elem_of_candidates. intros [Hf Hs]. split; [done|].
    destruct (decide (k ∈ ids)) as [Hk|Hk]; [by apply Hin|]. by rewrite <-(pa_frozen _ _ _ Hp k Hk).
  - destruct ids as [|n ids]; [done|]. intros Hsub.
    destruct (Hin n) as [Hf Hs]; [by left|]. destruct (pa_done _ _ _ Hp n) as [items Hi]; [by left|].
    specialize (Hsub n). unfold unexpanded in Hsub. rewrite !elem_of_list_to_set, !elem_of_candidates in Hsub.
    destruct Hsub as [_ Hs']; [done|]. congruence.
Qed.


(** *** Progress *)

(** Below a node that is not done there is one whose dependencies all are. *)
Lemma minimal_undone def r x :
  good def x -> x ∈ required_set def -> dep_done def r x = false ->
  exists y, y ∈ required_set def /\ dep_done def r y = false /\ rtc (edge def) x y
            /\ forall z, edge def y z -> dep_done def r z = true.
Proof.
  induction 1 as [x _ _ IH]. intros Hx Hd.
  destruct (decide (Forall (λ z, dep_done def r z = true) (deps_of def x))) as [Hall|Hall].
  - exists x. split_and!; [done|done|done|]. intros z Hz. rewrite Forall_forall in Hall. by apply Hall.
  - apply not_Forall_Exists in Hall; [|solve_decision]. apply Exists_exists in Hall as (z & Hz & Hzd).
    apply not_true_is_false in Hzd. destruct (IH z Hz) as (y & Hy & Hyd & Hr & Hall); [by eapply required_edge|done|].
    exists y. split_and!; [done|done|by eapply rtc_l|done].
Qed.

Lemma rtc_known def x y : closed def -> is_Some (nodes def !! x) -> rtc (edge def) x y -> is_Some (nodes def !! y).
Proof. intros Hc Hx Hr. revert Hx. induction Hr as [|a b c Hab _ IH]; [done|]. intros _. apply IH. by eapply Hc. Qed.

Lemma item_states r n (items : list Value) :
  forallb (λ i, bool_decide (uid_state r (item_uid n i) = Some Done)) (seq 0 (length items)) = false ->
  exists i, i < length items /\ uid_state r (item_uid n i) <> Some Done.
Proof.
  intros Hf. destruct (decide (Forall (λ i, uid_state r (item_uid n i) = Some Done) (seq 0 (length items)))) as [Ha|Ha].
  - rewrite (proj2 (forallb_elem _ _)) in Hf; [done|]. intros i Hi. rewrite Forall_forall in Ha.
    by apply bool_decide_eq_true, Ha.
  - apply not_Forall_Exists in Ha; [|solve_decision]. apply Exists_exists in Ha as (i & Hi%elem_of_seq & Hn).
    exists i. split; [lia|done].
Qed.

Lemma awaiting_spec def r :
  quiescence def r = AwaitingNodes ->
  (exists x, x ∈ required_set def /\ dep_done def r x = false) /\
  (forall x, x ∈ required_set def -> node_failed def r x = false).
Proof.
  rewrite quiescence_spec. destruct (abort r); [done|].
  destruct (existsb _ _) eqn:Hex; [done|]. destruct (forallb _ _) eqn:Hall; [done|]. intros _. split.
  - destruct (decide (Forall (λ x, dep_done def r x = true) (btree_set_iter (required_set def)))) as [Ha|Ha].
    + rewrite (proj2 (forallb_elem _ _)) in Hall; [done|]. by apply Forall_forall.
    + apply not_Forall_Exists in Ha; [|solve_decision]. apply Exists_exists in Ha as (x & Hx%elem_of_btree_set_iter & Hn).
      exists x. split; [done|]. by apply not_true_is_false.
  - intros x Hx. apply not_true_is_false. intros Hf. enough (false = true) by done. rewrite <-Hex.
    apply existsb_elem. exists x. split; [by apply elem_of_btree_set_iter|done].
Qed.

(** A node whose dependencies are done, that is itself not done and not failed, is ready,
    running, or a fan-out that waits for its expansion. *)
Lemma undone_node def r n :
  rec_ok def r -> deps_done def r n = true -> dep_done def r n = false -> node_failed def r n = false ->
  (exists uid, uid ∈ ready_frontier def r) \/ (exists uid, uid_state r uid = Some NRunning) \/
  (is_fanout def n = true /\ fanout_src r !! n = None).
Proof.
  intros Hok Hd Hn Hf. pose proof Hd as Hk. apply deps_done_spec in Hk as [[nd Hnd] _].
  unfold dep_done, node_failed in *. destruct (is_fanout def n) eqn:Hfan.
  - destruct (fanout_src r !! n) as [items|] eqn:Hs; [|by right; right].
    destruct (failed_state (uid_state r n)); [done|]. cbn [orb] in Hf.
    apply item_states in Hn as (i & Hi & Hst). destruct (ok_items _ _ Hok n items i Hs Hi) as [c Hc].
    assert (failed_state (uid_state r (item_uid n i)) = false) as Hnf.
    { apply not_true_is_false. intros Hfs. enough (false = true) by done. rewrite <-Hf. apply existsb_elem.
      exists i. split; [apply elem_of_seq; lia|done]. }
    destruct (uid_state r (item_uid n i)) as [[]|] eqn:Hu; try done.
    + left. exists (item_uid n i). apply elem_of_ready_frontier. exists n, nd. split; [done|].
      apply elem_of_node_frontier. split; [done|]. unfold is_fanout in Hfan. rewrite Hnd in Hfan.
      destruct (fanout nd); [|done]. by exists items, i.
    + right; left. by exists (item_uid n i).
    + unfold uid_state in Hu. by rewrite Hc in Hu.
  - apply bool_decide_eq_false in Hn. unfold is_fanout in Hfan. rewrite Hnd in Hfan.
    destruct (fanout nd) eqn:Hfn; [done|]. pose proof (ok_normal _ _ Hok n nd Hnd Hfn) as Hp.
    destruct (uid_state r n) as [[]|] eqn:Hu; try done.
    + right; left. by exists n.
    + left. exists n. apply elem_of_ready_frontier. exists n, nd. split; [done|].
      apply elem_of_node_frontier. rewrite Hfn. split; [done|]. split; [done|].
      unfold uid_state in Hu. by destruct (run_nodes r !! n).
Qed.

Lemma awaiting_progress def r :
  validate_acyclic def = Ok tt -> is_Some (nodes def !! output_node def) -> rec_ok def r ->
  quiescence def r = AwaitingNodes ->
  (exists uid, uid ∈ ready_frontier def r) \/ (exists uid, uid_state r uid = Some NRunning) \/
  (exists n, is_fanout def n = true /\ fanout_src r !! n = None /\ deps_done def r n = true).
Proof.
  intros Hv Ho Hok Hq. pose proof (validate_acyclic_cases def) as Hg. rewrite Hv in Hg.
  assert (closed def) as Hcl.
  { intros a b Hab. pose proof (edge_known _ _ _ Hab) as Ha. destruct (Hg a Ha) as [Hk _]. by apply Hk. }
  apply awaiting_spec in Hq as [(x & Hx & Hxd) Hnf].
  assert (forall z, z ∈ required_set def -> is_Some (nodes def !! z)) as Hknown.
  { intros z Hz%required_set_spec. by eapply rtc_known. }
  destruct (minimal_undone def r x) as (y & Hy & Hyd & _ & Hdeps); [by apply Hg, Hknown|done|done|].
  assert (deps_done def r y = true) as Hdd by (apply deps_done_spec; split; [by apply Hknown|done]).
  destruct (undone_node def r y Hok Hdd Hyd (Hnf y Hy)) as [?|[?|[? ?]]]; [by left|by right; left|].
  right; right. by exists y.
Qed.


(** The cycle check, against the graph of the definition. *)
Lemma validate_acyclic_spec def : validate_acyclic def = Ok tt <-> closed def /\ acyclic def.
Proof.
  pose proof (validate_acyclic_cases def) as Hc. destruct (validate_acyclic def) as [[]|e].
  - split; [|done]. intros _. split.
    + intros a b Hab. destruct (Hc a (edge_known _ _ _ Hab)) as [Hk _]. by apply Hk.
    + intros x Hx. assert (exists y, edge def x y) as [y Hxy] by (inversion Hx; eauto).
      by eapply good_acyclic; [apply Hc; eapply edge_known|].
  - split; [done|]. intros [Hcl Ha]. by destruct (bad_not_ok def).
Qed.

End Dag.

(** ** Properties *)

Module DagProperties.
Import Ids Dag.

(** C40: the cycle check is exact and always answers: [validate_acyclic] accepts a definition
    iff every dependency names a node of it and no node depends on itself, directly or
    through others. *)
Theorem cycle_check_exact (def : WorkflowDef) :
  validate_acyclic def = Ok tt <-> closed def /\ acyclic def.
Proof. apply validate_acyclic_spec. Qed.

(** [required_set] always ends and is exactly the output node and everything it depends
    on, directly or through others. *)
Theorem required_set_is_closure (def : WorkflowDef) (x : string) :
  x ∈ required_set def <-> rtc (edge def) (output_node def) x.
Proof. apply required_set_spec. Qed.

(** The status of a run is decided by the nodes the output needs and by nothing else:
    cancelled iff aborted; otherwise failed iff one of them failed, completed iff all of
    them are done, awaiting in every other case. *)
Theorem quiescence_exact (def : WorkflowDef) (r : WorkflowRunRecord) :
  (quiescence def r = RCancelled <-> abort r = true) /\
  (quiescence def r = RFailed <->
     abort r = false /\ exists n, rtc (edge def) (output_node def) n /\ node_failed def r n = true) /\
  (quiescence def r = Completed <->
     abort r = false /\ forall n, rtc (edge def) (output_node def) n ->
       dep_done def r n = true /\ node_failed def r n = false).
Proof.
  rewrite quiescence_spec. setoid_rewrite <-required_set_spec. setoid_rewrite <-elem_of_btree_set_iter.
  destruct (abort r); [naive_solver|].
  destruct (existsb _ _) eqn:Hex.
  - apply existsb_elem in Hex as (x & Hx & Hf). split_and!; [done|split; [|done]; intros _; split; [done|by exists x]|].
    split; [done|]. intros [_ Ha]. destruct (Ha x Hx). congruence.
  - assert (forall n, n ∈ btree_set_iter (required_set def) -> node_failed def r n = false) as Hnf.
    { intros n Hn. apply not_true_is_false. intros Hf. rewrite (proj2 (existsb_elem _ _)) in Hex; [done|]. by exists n. }
    destruct (forallb _ _) eqn:Hall.
    + rewrite forallb_elem in Hall. split_and!; [done|split; [done|]|].
      * intros (_ & n & Hn & Hf). rewrite Hnf in Hf; done.
      * split; [|done]. intros _. split; [done|]. intros n Hn. by auto.
    + split_and!; [done|split; [done|]|split; [done|]].
      * intros (_ & n & Hn & Hf). rewrite Hnf in Hf; done.
      * intros [_ Ha]. rewrite (proj2 (forallb_elem _ _)) in Hall; [done|]. intros n Hn. by apply Ha.
Qed.

(** The ready frontier is exact: it names, without repetition, the nodes that were never
    started and the pending items of expanded fan-outs, whose dependencies are all done. *)
Theorem ready_frontier_exact (def : WorkflowDef) (r : WorkflowRunRecord) :
  ids_ok def -> src_ok r ->
  NoDup (ready_frontier def r) /\
  forall uid, uid ∈ ready_frontier def r <->
    exists n nd, nodes def !! n = Some nd /\ (forall d, d ∈ depends_on nd -> dep_done def r d = true) /\
      match fanout nd with
      | None => uid = n /\ run_nodes r !! n = None
      | Some _ => exists items i, fanout_src r !! n = Some items /\ i < length items /\
                    uid = node_uid n (Some i) /\ uid_state r uid = Some Pending
      end.
Proof.
  intros Hi Hs. split; [by apply NoDup_ready_frontier|]. intros uid. rewrite elem_of_ready_frontier.
  assert (forall n nd, nodes def !! n = Some nd ->
    (deps_done def r n = true <-> forall d, d ∈ depends_on nd -> dep_done def r d = true)) as Hdd.
  { intros n nd Hn. rewrite deps_done_spec. unfold edge, deps_of. rewrite Hn. naive_solver. }
  assert (forall n items i, fanout_src r !! n = Some items -> i < length items -> item_uid n i = node_uid n (Some i)) as Hu.
  { intros n items i Hn Hl. specialize (Hs n items Hn). unfold item_uid. rewrite as_u32_small; [done|lia]. }
  split; intros (n & nd & Hn & Hrest); exists n, nd; (split; [done|]).
  - apply elem_of_node_frontier in Hrest as [Hd Hf]. split; [by apply (Hdd n nd Hn)|]. destruct (fanout nd); [|done].
    destruct Hf as (items & i & Hs' & Hl & -> & Hp). exists items, i. rewrite (Hu n items i Hs' Hl) in *. done.
  - apply elem_of_node_frontier. destruct Hrest as [Hd Hf]. split; [by apply (Hdd n nd Hn)|]. destruct (fanout nd); [|done].
    destruct Hf as (items & i & Hs' & Hl & -> & Hp). exists items, i. by rewrite (Hu n items i Hs' Hl).
Qed.

(** Expanding is safe: a snapshot once taken is frozen, existing checkpoints stay as they
    are, a new checkpoint is a pending item of a fan-out expanded in this pass or the failure
    of one, snapshots stay within [MAX_FANOUT_ITEMS] and the run within [MAX_TOTAL_NODES]
    plus one per expansion, and nothing else of the record changes. *)
Theorem expansion_safe def results r ids r' :
  ids_ok def -> rec_ok def r -> expand_ready_fanouts def results r = (ids, r') ->
  (forall n items, fanout_src r !! n = Some items -> fanout_src r' !! n = Some items) /\
  (forall n, n ∈ ids -> fanout_src r !! n = None /\ is_Some (fanout_src r' !! n)) /\
  (forall uid c, uid ∉ ids -> run_nodes r !! uid = Some c -> run_nodes r' !! uid = Some c) /\
  (forall uid c, run_nodes r' !! uid = Some c -> run_nodes r !! uid = Some c \/ state c = Failed \/ c = pending_checkpoint) /\
  rec_ok def r' /\
  (Z.of_nat (size (run_nodes r')) <=
     Z.max (Z.of_nat (size (run_nodes r))) MAX_TOTAL_NODES + Z.of_nat (length ids))%Z /\
  r' = set_nodes (run_nodes r') (set_fanout (fanout_src r') r).
Proof.
  intros Hi Hok He. apply expand_pass in He as (Hp & Hin & _ & Hrec). split_and!.
  - intros n items Hn. rewrite (pa_frozen _ _ _ Hp n); [done|]. intros Hni. destruct (Hin n Hni). congruence.
  - intros n Hn. split; [by apply Hin|by eapply pa_done].
  - apply Hp.
  - intros uid c Hc. destruct (pa_new _ _ _ Hp uid c Hc) as [?|[[? _]|[? _]]]; auto.
  - by apply Hrec.
  - apply Hp.
  - apply Hp.
Qed.

(** *** Concrete instances *)

Definition fan_run : WorkflowRunRecord :=
  mk_run "r_1" 3 AwaitingNodes false "r_1" Null
    (<["plan" := mk_cp Done (Some "wf_r_1_plan") (Some "t1") (Some "r_1/plan") None (Some 7%Z) None 0]> ∅)
    ∅ None None None None None 5 6.

Definition fan_results : gmap string Value :=
  <["plan" := json_obj [("docs", Arr [Str "a"; Str "b"])]]> ∅.

Lemma sample_ids_ok : ids_ok TypesProperties.sample_def.
Proof.
  intros n d Hn. apply elem_of_map_to_list in Hn. vm_compute in Hn.
  apply elem_of_cons in Hn as [[= -> _]|Hn]; [reflexivity|]. apply list_elem_of_singleton in Hn as [= -> _]. reflexivity.
Qed.

Lemma fan_run_ok : rec_ok TypesProperties.sample_def fan_run.
Proof.
  split.
  - intros n items Hn. cbn [fanout_src fan_run] in Hn. by rewrite lookup_empty in Hn.
  - intros n items i Hn. cbn [fanout_src fan_run] in Hn. by rewrite lookup_empty in Hn.
  - intros n nd _ _. unfold uid_state. cbn [run_nodes fan_run]. destruct (decide (n = "plan")) as [->|Hne].
    + by rewrite lookup_insert_eq.
    + by rewrite lookup_insert_ne.
  - intros n Hf _. cbn [run_nodes fan_run]. rewrite lookup_insert_ne; [done|]. by intros <-.
Qed.

Lemma expansion_safe_witness :
  exists r', expand_ready_fanouts TypesProperties.sample_def fan_results fan_run = (["read"], r') /\
    rec_ok TypesProperties.sample_def r' /\ fanout_src r' !! "read" = Some [Str "a"; Str "b"].
Proof.
  eexists. split; [vm_compute; reflexivity|]. split; [|vm_compute; reflexivity].
  refine (proj1 (proj2 (proj2 (proj2 (proj2 (expansion_safe TypesProperties.sample_def fan_results fan_run ["read"] _
    sample_ids_ok fan_run_ok _)))))).
  vm_compute. reflexivity.
Defined.

Lemma ready_frontier_exact_witness :
  "plan" ∉ ready_frontier TypesProperties.sample_def fan_run /\ NoDup (ready_frontier TypesProperties.sample_def fan_run).
Proof.
  split; [vm_compute; apply not_elem_of_nil|].
  apply (ready_frontier_exact TypesProperties.sample_def fan_run sample_ids_ok).
  intros n items Hn. cbn [fanout_src fan_run] in Hn. by rewrite lookup_empty in Hn.
Defined.

End DagProperties.
