(* ===== verification/WfBus.v ===== *)
(** * The workflow worker's view of the bus (workflow/src/state.rs, error.rs, config.rs)

    A handler of the workflow worker talks to the rest of the system by calls: [state::*] to
    the state worker, [harness::*] to the agent harness, queued calls to itself.  [StateBus]
    is what it expects of the state worker; the handlers of the state service keep that
    promise ([service_bus_laws]).  Everything else is an oracle: whether a call is lost
    before or after it took effect, what it answers, the clock and the random ids.  Handlers
    are functions from a world to a result and a world, in a small error monad; a handler
    holds its run's lock from start to end, so handlers of one run follow each other. *)

From Stdlib Require Import Ascii ZArith Lia.
From S2P Require Import Prelude Json StateStore StateService WfTypes.

(** ** What the worker expects of the state worker *)

Class StateBus (St : Type) : Type := {
  sb_get : string -> string -> St -> result Value string * St;
  sb_set : string -> string -> Value -> St -> result unit string * St;
  sb_delete : string -> string -> St -> result unit string * St;
  sb_list : string -> St -> result Value string * St;
}.

(** A read answers the stored value, [null] if there is none, and changes nothing; a write
    that succeeds changes its own key and no other; one that fails changes nothing. *)
Class StateBusLaws (St : Type) `{StateBus St} (view : St -> string -> string -> option Value) : Prop := {
  sb_get_law : forall sc k s,
    match sb_get sc k s with (Ok v, s') => s' = s /\ v = default Null (view s sc k) | (Err _, s') => s' = s end;
  sb_set_law : forall sc k v s a b,
    match sb_set sc k v s with
    | (Ok _, s') => view s' a b = (if decide (a = sc /\ b = k) then Some v else view s a b)
    | (Err _, s') => s' = s
    end;
  sb_delete_law : forall sc k s a b,
    match sb_delete sc k s with
    | (Ok _, s') => view s' a b = (if decide (a = sc /\ b = k) then None else view s a b)
    | (Err _, s') => s' = s
    end;
  sb_list_law : forall sc s, (sb_list sc s).2 = s;
}.

Section Service.
Import Adapter Service.
Context {S : Type} `{StateAdapter S} `{SerdeText} {view : S -> string -> string -> option Value}.
Context {Laws : AdapterLaws S view}.

Definition drop_ok {A} (r : result A string) : result unit string :=
  match r with Ok _ => Ok tt | Err e => Err e end.

(** The state worker's public functions, as the bus delivers their answers. *)
Definition service_bus : StateBus (StateCtx S) := {|
  sb_get sc k c := match state_get sc k c with (Ok o, c1) => (Ok (default Null o), c1) | (Err e, c1) => (Err e, c1) end;
  sb_set sc k v c := let '(r, c1) := state_set sc k v c in (drop_ok r, c1);
  sb_delete sc k c := let '(r, c1) := state_delete sc k c in (drop_ok r, c1);
  sb_list sc c := match state_list sc c with (Ok l, c1) => (Ok (Arr l), c1) | (Err e, c1) => (Err e, c1) end;
|}.

Lemma with_adapter_same (c : StateCtx S) : with_adapter (adapter c) c = c.
Proof. by destruct c. Qed.

Lemma emit_change_adapter kind sc k old new (c : StateCtx S) : adapter (emit_change kind sc k old new c) = adapter c.
Proof. unfold emit_change. by repeat case_match. Qed.

(** The state service, over every lawful adapter, keeps what the workflow worker expects. *)
Lemma service_bus_laws : StateBusLaws (H := service_bus) (StateCtx S) (λ c, view (adapter c)).
Proof.
  split; cbn [sb_get sb_set sb_delete sb_list service_bus].
  - intros sc k c. unfold state_get. destruct (reject_reserved_scope c sc); [|done].
    pose proof (law_get (view := view) sc k (adapter c)) as [Hs Hv].
    destruct (a_get sc k (adapter c)) as [[o|e] s1]; cbn [fst snd] in *; subst s1; rewrite with_adapter_same; [|done].
    split; [done|]. by rewrite (Hv o).
  - intros sc k v c a b. unfold state_set. destruct (reject_reserved_scope c sc); [|done].
    destruct (match max_value_bytes (config c) with Some _ => _ | None => _ end); [done|].
    pose proof (law_set (view := view) sc k v (adapter c) a b) as Hs.
    destruct (a_set sc k v (adapter c)) as [[[old new]|e] a1]; cbn [drop_ok].
    + rewrite emit_change_adapter. cbn [adapter with_adapter]. by destruct Hs as (_ & _ & ->).
    + subst a1. apply with_adapter_same.
  - intros sc k c a b. unfold state_delete. destruct (reject_reserved_scope c sc); [|done].
    pose proof (law_get (view := view) sc k (adapter c)) as [Hg _].
    destruct (a_get sc k (adapter c)) as [[o|e] a1]; cbn [fst snd] in *; subst a1; [|apply with_adapter_same].
    pose proof (law_delete (view := view) sc k (adapter c) a b) as Hd.
    destruct (a_delete sc k (adapter c)) as [[u|e] a2]; cbn [drop_ok].
    + rewrite emit_change_adapter. by cbn [adapter with_adapter].
    + subst a2. apply with_adapter_same.
  - intros sc c. unfold state_list. destruct (reject_reserved_scope c sc); [|done].
    pose proof (law_list (view := view) sc (adapter c)) as Hs.
    destruct (a_list sc (adapter c)) as [[l|e] s1]; cbn [snd] in *; subst s1; apply with_adapter_same.
Qed.
End Service.

(** ** The world and the monad *)

Inductive WorkflowError : Type :=
| InvalidDef (msg : string)
| StateError (msg : string)
| CallError (msg : string)
| SerdeError.

Inductive CallAction : Type := Sync | Void | Enqueue (queue : string).

Record Call : Type := mk_call { c_function : string; c_payload : Value; c_action : CallAction }.

(** A call is answered, lost before it took effect, or lost after. *)
Inductive Fault : Type := Answered | Lost (e : string) | Late (e : string).

(** What the outside decides, by the number of the interaction. *)
Record Env : Type := {
  fault : nat -> Fault;
  reply : nat -> Value;
  clock : nat -> Z;
  uuid : nat -> string;
  observed : bool;
  cfg : WorkerConfig;
}.

(** The state worker's state, the calls that reached their target, the interactions so far. *)
Record World (St : Type) : Type := mk_world { st : St; calls : list Call; index : nat }.
Arguments mk_world {St}.
Arguments st {St}.
Arguments calls {St}.
Arguments index {St}.

Section Monad.
Context {St : Type}.
Abbreviation World := (World St).

Definition Prog (A : Type) : Type := World -> result A WorkflowError * World.

Definition ret {A} (a : A) : Prog A := λ w, (Ok a, w).
Definition throw {A} (e : WorkflowError) : Prog A := λ w, (Err e, w).
Definition bind {A B} (m : Prog A) (k : A -> Prog B) : Prog B :=
  λ w, match m w with (Ok a, w1) => k a w1 | (Err e, w1) => (Err e, w1) end.

(** The outcome of [m] as a value: [match m { Ok.. | Err.. }] and [let _ = m]. *)
Definition attempt {A} (m : Prog A) : Prog (result A WorkflowError) := λ w, let '(r, w1) := m w in (Ok r, w1).
Definition ignore {A} (m : Prog A) : Prog unit := λ w, let '(_, w1) := m w in (Ok tt, w1).

Definition lift {A} (r : result A WorkflowError) : Prog A := λ w, (r, w).

Definition tick_index (w : World) : World := mk_world (st w) (calls w) (S (index w)).
End Monad.
Arguments Prog St A : clear implicits.

Notation "'let!' x := m 'in' k" := (bind m (λ x, k)) (at level 10, x binder, m at level 100, k at level 200).
Notation "'do!' m 'in' k" := (bind m (λ _, k)) (at level 10, m at level 100, k at level 200).

Section Calls.
Context {St : Type} `{StateBus St} (env : Env).
Abbreviation World := (World St).
Abbreviation M := (Prog St).

Definition now_ms : M Z := λ w, (Ok (clock env (index w)), tick_index w).

(** A [state::*] call; [label] begins the error's text. *)
Definition state_call {A} (label : string) (op : St -> result A string * St) : M A := λ w,
  let fail (e : string) : result A WorkflowError := Err (StateError (label +:+ ": " +:+ e)) in
  match fault env (index w) with
  | Lost e => (fail e, tick_index w)
  | Late e => (fail e, tick_index (mk_world (op (st w)).2 (calls w) (index w)))
  | Answered =>
      match op (st w) with
      | (Ok a, s1) => (Ok a, tick_index (mk_world s1 (calls w) (index w)))
      | (Err e, s1) => (fail e, tick_index (mk_world s1 (calls w) (index w)))
      end
  end.

(** Any other call. *)
Definition bus_call (c : Call) : M Value := λ w,
  match fault env (index w) with
  | Lost e => (Err (CallError e), tick_index w)
  | Late e => (Err (CallError e), tick_index (mk_world (st w) (calls w ++ [c]) (index w)))
  | Answered => (Ok (reply env (index w)), tick_index (mk_world (st w) (calls w ++ [c]) (index w)))
  end.

Definition state_get (scope key : string) : M Value :=
  state_call ("state::get " +:+ scope +:+ "/" +:+ key) (sb_get scope key).
Definition state_set (scope key : string) (v : Value) : M unit :=
  state_call ("state::set " +:+ scope +:+ "/" +:+ key) (sb_set scope key v).
Definition state_delete (scope key : string) : M unit :=
  state_call ("state::delete " +:+ scope +:+ "/" +:+ key) (sb_delete scope key).
Definition state_list (scope : string) : M Value := state_call ("state::list " +:+ scope) (sb_list scope).
End Calls.

(** ** The records in the state worker *)

Module Store.
Import Ids.

Definition SCOPE_RUN : string := "workflow_run".
Definition SCOPE_DEF : string := "workflow_def".
Definition SCOPE_RESULT : string := "workflow_node_result".
Definition SCOPE_INDEX : string := "workflow_session_index".
Definition SCOPE_IDEM : string := "workflow_idem".

(** The three shapes [state::list] may answer with. *)
Definition parse_record_list (v : Value) : list WorkflowRunRecord :=
  let items := match v with
               | Arr l => l
               | Obj m => match obj_get "values" m with
                          | Some (Arr l) => l
                          | _ => match obj_get "items" m with
                                 | Some (Arr l) => l
                                 | _ => obj_values m
                                 end
                          end
               | _ => []
               end in
  omap from_value items.

Section Functions.
Context {St : Type} `{StateBus St} (env : Env).
Abbreviation M := (Prog St).

(** [from_value(v)?] of a value that is not null. *)
Definition decode {A} `{Codec A} (v : Value) : result (option A) WorkflowError :=
  if is_null v then Ok None
  else match from_value v with Some a => Ok (Some a) | None => Err SerdeError end.

Definition get_run (run_id : string) : M (option WorkflowRunRecord) :=
  let! v := state_get env SCOPE_RUN run_id in lift (decode v).

Definition put_run (r : WorkflowRunRecord) : M unit := state_set env SCOPE_RUN (run_id r) (to_value r).

Definition list_runs : M (list WorkflowRunRecord) :=
  let! v := state_list env SCOPE_RUN in ret (parse_record_list v).

(** The children of one checkpoint: its result, then the index row of its session. *)
Definition delete_node (c : NodeCheckpoint) : M unit :=
  do! (match result_ref c with Some key => state_delete env SCOPE_RESULT key | None => ret tt end) in
  match session_id c with Some sid => state_delete env SCOPE_INDEX sid | None => ret tt end.

Fixpoint delete_nodes (cs : list NodeCheckpoint) : M unit :=
  match cs with
  | [] => ret tt
  | c :: cs' => do! delete_node c in delete_nodes cs'
  end.

(** The record is deleted last, once every child is gone. *)
Definition delete_run (r : WorkflowRunRecord) : M unit :=
  do! delete_nodes (btree_values (run_nodes r)) in
  do! state_delete env SCOPE_DEF (def_key (run_id r)) in
  state_delete env SCOPE_RUN (run_id r).

Definition put_def (run_id : string) (def : WorkflowDef) : M unit :=
  state_set env SCOPE_DEF (def_key run_id) (to_value def).

Definition get_def (run_id : string) : M (option WorkflowDef) :=
  let! v := state_get env SCOPE_DEF (def_key run_id) in lift (decode v).

Definition put_node_result (run_id uid : string) (v : Value) : M unit :=
  state_set env SCOPE_RESULT (node_result_key run_id uid) v.

Definition get_node_result (run_id uid : string) : M (option Value) :=
  let! v := state_get env SCOPE_RESULT (node_result_key run_id uid) in
  ret (if is_null v then None else Some v).

Definition corrupt_error : string :=
  "Done checkpoint has a result_ref but the stored result is missing (state corruption)".

(** Marks a checkpoint whose stored result is missing. *)
Definition mark_corrupt (r : WorkflowRunRecord) (uid : string) : WorkflowRunRecord :=
  match run_nodes r !! uid with
  | Some c => with_cp uid (set_cp_error (Some corrupt_error) (set_state Failed c)) r
  | None => r
  end.

(** The first loop of [load_done_results]: the results found and the uids without one. *)
Fixpoint fetch_results (run_id : string) (cs : list (string * NodeCheckpoint)) (out : gmap string Value)
    (corrupt : list string) : M (gmap string Value * list string) :=
  match cs with
  | [] => ret (out, corrupt)
  | (uid, c) :: cs' =>
      match state c, result_ref c with
      | Done, Some _ =>
          let! o := get_node_result run_id uid in
          match o with
          | Some v => fetch_results run_id cs' (<[uid := v]> out) corrupt
          | None => fetch_results run_id cs' out (corrupt ++ [uid])
          end
      | _, _ => fetch_results run_id cs' out corrupt
      end
  end.

(** The results of the done nodes, and the record with the corrupt ones failed. *)
Definition load_done_results (r : WorkflowRunRecord) : M (gmap string Value * WorkflowRunRecord) :=
  let! p := fetch_results (run_id r) (btree_iter (run_nodes r)) ∅ [] in
  ret (p.1, foldl mark_corrupt r p.2).

Definition put_session_index (sid run_id : string) : M unit := state_set env SCOPE_INDEX sid (Str run_id).

(** A stored string; [label] names it in the error. *)
Definition string_row `{SerdeText} (label : string) (v : Value) : result (option string) WorkflowError :=
  match v with
  | Null => Ok None
  | Str s => Ok (Some s)
  | _ => Err (StateError (label +:+ " not a string: " +:+ to_string v))
  end.

Definition run_id_for_session `{SerdeText} (sid : string) : M (option string) :=
  let! v := state_get env SCOPE_INDEX sid in lift (string_row "session index" v).

Definition get_idem `{SerdeText} (key : string) : M (option string) :=
  let! v := state_get env SCOPE_IDEM key in lift (string_row "idem value" v).

Definition put_idem (key run_id : string) : M unit := state_set env SCOPE_IDEM key (Str run_id).

(** [start::enqueue_tick]. *)
Definition enqueue_tick (run_id : string) (step : Z) : M unit :=
  do! bus_call env (mk_call "workflow::tick" (json_obj [("run_id", Str run_id); ("step", enc_u step)]) (Enqueue "default"))
  in ret tt.

End Functions.
End Store.

(** ** Reasoning about handlers *)

(** [Q] holds of the outcome and the world after [m], started in [w]. *)
Definition wp {St A} (m : Prog St A) (Q : result A WorkflowError -> World St -> Prop) (w : World St) : Prop :=
  Q (m w).1 (m w).2.

Section Rules.
Context {St : Type} `{StateBus St} {view : St -> string -> string -> option Value}.
Context {Laws : StateBusLaws St view} (env : Env).
Abbreviation World := (World St).
Implicit Types (w : World).

(** What is stored, as the worker sees it. *)
Definition stored w : string -> string -> option Value := view (st w).

Definition same w w' : Prop := forall a b, stored w' a b = stored w a b.

Definition put sc k (o : option Value) w w' : Prop :=
  forall a b, stored w' a b = if decide (a = sc /\ b = k) then o else stored w a b.

Lemma wp_ret {A} (a : A) Q w : Q (Ok a) w -> wp (ret a) Q w.
Proof. done. Qed.

Lemma wp_throw {A} e Q w : Q (Err e) w -> wp (throw (A := A) e) Q w.
Proof. done. Qed.

Lemma wp_lift {A} (r : result A WorkflowError) Q w : Q r w -> wp (lift r) Q w.
Proof. done. Qed.

Lemma wp_bind {A B} (m : Prog St A) (k : A -> Prog St B) Q w :
  wp m (λ r w1, match r with Ok a => wp (k a) Q w1 | Err e => Q (Err e) w1 end) w -> wp (bind m k) Q w.
Proof. unfold wp, bind. by destruct (m w) as [[a|e] w1]. Qed.

Lemma bind_ok {A B} (m : Prog St A) (k : A -> Prog St B) w b w' :
  bind m k w = (Ok b, w') -> exists a w1, m w = (Ok a, w1) /\ k a w1 = (Ok b, w').
Proof. unfold bind. destruct (m w) as [[a|e] w1]; [|done]. by exists a, w1. Qed.

(** What is known of a program, of a run of it. *)
Lemma wp_run {A} (m : Prog St A) (Q : _ -> _ -> Prop) w res w' : wp m Q w -> m w = (res, w') -> Q res w'.
Proof. unfold wp. intros HQ Hm. by rewrite Hm in HQ. Qed.

Lemma wp_attempt {A} (m : Prog St A) Q w : wp m (λ r w1, Q (Ok r) w1) w -> wp (attempt m) Q w.
Proof. unfold wp, attempt. by destruct (m w). Qed.

Lemma wp_ignore {A} (m : Prog St A) Q w : wp m (λ _ w1, Q (Ok tt) w1) w -> wp (ignore m) Q w.
Proof. unfold wp, ignore. by destruct (m w). Qed.

Lemma wp_mono {A} (m : Prog St A) (Q Q' : _ -> _ -> Prop) w :
  wp m Q w -> (forall r w', Q r w' -> Q' r w') -> wp m Q' w.
Proof. unfold wp. auto. Qed.

Lemma wp_now Q w :
  (forall i w', same w w' -> calls w' = calls w -> Q (Ok (clock env i)) w') -> wp (now_ms env) Q w.
Proof. intros HQ. by apply HQ. Qed.

(** Any other call leaves what is stored alone and reaches its target at most once. *)
Lemma wp_bus_call c Q w :
  (forall r w', same w w' -> (calls w' = calls w \/ calls w' = calls w ++ [c]) ->
     (is_ok r = true -> calls w' = calls w ++ [c]) -> Q r w') -> wp (bus_call env c) Q w.
Proof. intros HQ. unfold wp, bus_call. destruct (fault env (index w)); apply HQ; try done; simpl; auto. Qed.

Lemma wp_state_get sc k Q w :
  (forall w', same w w' -> calls w' = calls w -> Q (Ok (default Null (stored w sc k))) w') ->
  (forall e w', same w w' -> calls w' = calls w -> Q (Err e) w') -> wp (state_get env sc k) Q w.
Proof.
  intros HOk HErr. unfold wp, state_get, state_call. pose proof (sb_get_law sc k (st w)) as Hl.
  destruct (fault env (index w)) as [|e|e]; [|by apply HErr|];
    destruct (sb_get sc k (st w)) as [[v|e0] s1]; simpl.
  - destruct Hl as [-> ->]. by apply HOk.
  - subst. by apply HErr.
  - destruct Hl as [-> _]. by apply HErr.
  - subst. by apply HErr.
Qed.

Lemma wp_state_list sc Q w :
  (forall r w', same w w' -> calls w' = calls w -> Q r w') -> wp (state_list env sc) Q w.
Proof.
  intros HQ. unfold wp, state_list, state_call. pose proof (sb_list_law sc (st w)) as Hl.
  destruct (fault env (index w)), (sb_list sc (st w)) as [[v|e0] s1]; simpl in *; subst; apply HQ; done.
Qed.

(** A write that answers has happened; one that fails may have. *)
Lemma wp_state_set sc k v Q w :
  (forall w', put sc k (Some v) w w' -> calls w' = calls w -> Q (Ok tt) w') ->
  (forall e w', same w w' \/ put sc k (Some v) w w' -> calls w' = calls w -> Q (Err e) w') ->
  wp (state_set env sc k v) Q w.
Proof.
  intros HOk HErr. unfold wp, state_set, state_call. pose proof (sb_set_law sc k v (st w)) as Hl.
  destruct (fault env (index w)) as [|e|e]; [|apply HErr; [by left|done]|];
    destruct (sb_set sc k v (st w)) as [[[]|e0] s1]; simpl.
  - by apply HOk.
  - specialize (Hl "" ""). subst. apply HErr; [by left|done].
  - apply HErr; [by right|done].
  - specialize (Hl "" ""). subst. apply HErr; [by left|done].
Qed.

Lemma wp_state_delete sc k Q w :
  (forall w', put sc k None w w' -> calls w' = calls w -> Q (Ok tt) w') ->
  (forall e w', same w w' \/ put sc k None w w' -> calls w' = calls w -> Q (Err e) w') ->
  wp (state_delete env sc k) Q w.
Proof.
  intros HOk HErr. unfold wp, state_delete, state_call. pose proof (sb_delete_law sc k (st w)) as Hl.
  destruct (fault env (index w)) as [|e|e]; [|apply HErr; [by left|done]|];
    destruct (sb_delete sc k (st w)) as [[[]|e0] s1]; simpl.
  - by apply HOk.
  - specialize (Hl "" ""). subst. apply HErr; [by left|done].
  - apply HErr; [by right|done].
  - specialize (Hl "" ""). subst. apply HErr; [by left|done].
Qed.

(** Nothing that was stored disappears. *)
Definition grows w w' : Prop := forall a b, is_Some (stored w a b) -> is_Some (stored w' a b).

Lemma same_grows w w' : same w w' -> grows w w'.
Proof. intros Hs a b. by rewrite Hs. Qed.

Lemma put_grows sc k v w w' : put sc k (Some v) w w' -> grows w w'.
Proof. intros Hp a b Hs. rewrite Hp. by destruct (decide _). Qed.

Lemma grows_trans w1 w2 w3 : grows w1 w2 -> grows w2 w3 -> grows w1 w3.
Proof. intros H1 H2 a b Hs. by apply H2, H1. Qed.

(** *** Frames: what a program may write *)

Definition frame (W : string -> string -> Prop) w w' : Prop := forall a b, ~ W a b -> stored w' a b = stored w a b.
Definition framed {A} (W : string -> string -> Prop) (m : Prog St A) : Prop := forall w, frame W w (m w).2.

Lemma framed_wp {A} W (m : Prog St A) : framed W m <-> forall w, wp m (λ _ w', frame W w w') w.
Proof. done. Qed.

Lemma frame_refl W w : frame W w w.
Proof. by intros a b. Qed.

Lemma frame_trans W w1 w2 w3 : frame W w1 w2 -> frame W w2 w3 -> frame W w1 w3.
Proof. intros H1 H2 a b Hn. by rewrite H2, H1. Qed.

Lemma same_frame W w w' : same w w' -> frame W w w'.
Proof. by intros Hs a b _. Qed.

Lemma put_frame (W : string -> string -> Prop) sc k o w w' : W sc k -> put sc k o w w' -> frame W w w'.
Proof. intros HW Hp a b Hn. rewrite Hp. rewrite decide_False; [done|]. by intros [-> ->]. Qed.

Lemma framed_mono {A} (W W' : string -> string -> Prop) (m : Prog St A) :
  (forall a b, W a b -> W' a b) -> framed W m -> framed W' m.
Proof. intros Hw Hm w a b Hn. apply Hm. auto. Qed.

Lemma framed_ret {A} W (a : A) : framed W (ret a).
Proof. intros w. apply frame_refl. Qed.

Lemma framed_throw {A} W e : framed W (throw (A := A) e).
Proof. intros w. apply frame_refl. Qed.

Lemma framed_lift {A} W (r : result A WorkflowError) : framed W (lift r).
Proof. intros w. apply frame_refl. Qed.

Lemma framed_bind {A B} W (m : Prog St A) (k : A -> Prog St B) :
  framed W m -> (forall a, framed W (k a)) -> framed W (bind m k).
Proof.
  intros Hm Hk w. unfold bind. specialize (Hm w). destruct (m w) as [[a|e] w1]; [|done].
  eapply frame_trans; [exact Hm|]. apply Hk.
Qed.

Lemma framed_attempt {A} W (m : Prog St A) : framed W m -> framed W (attempt m).
Proof. intros Hm w. specialize (Hm w). unfold attempt. by destruct (m w). Qed.

Lemma framed_ignore {A} W (m : Prog St A) : framed W m -> framed W (ignore m).
Proof. intros Hm w. specialize (Hm w). unfold ignore. by destruct (m w). Qed.

Lemma framed_now W : framed W (now_ms env).
Proof. intros w. by apply same_frame. Qed.

Lemma framed_bus_call W c : framed W (bus_call env c).
Proof. apply framed_wp. intros w. apply wp_bus_call. intros. by apply same_frame. Qed.

Lemma framed_get W sc k : framed W (state_get env sc k).
Proof. apply framed_wp. intros w. apply wp_state_get; intros; by apply same_frame. Qed.

Lemma framed_list W sc : framed W (state_list env sc).
Proof. apply framed_wp. intros w. apply wp_state_list; intros; by apply same_frame. Qed.

Lemma framed_set (W : string -> string -> Prop) sc k v : W sc k -> framed W (state_set env sc k v).
Proof.
  intros HW. apply framed_wp. intros w.
  apply wp_state_set; [|intros e w' [?|?] _; [by apply same_frame|]]; intros; by eapply put_frame.
Qed.

Lemma framed_delete (W : string -> string -> Prop) sc k : W sc k -> framed W (state_delete env sc k).
Proof.
  intros HW. apply framed_wp. intros w.
  apply wp_state_delete; [|intros e w' [?|?] _; [by apply same_frame|]]; intros; by eapply put_frame.
Qed.

Lemma same_refl w : same w w.
Proof. by intros a b. Qed.

Lemma same_trans w1 w2 w3 : same w1 w2 -> same w2 w3 -> same w1 w3.
Proof. intros H1 H2 a b. by rewrite H2, H1. Qed.

(** Nothing is written. *)
Lemma framed_none {A} (m : Prog St A) w : framed (λ _ _, False) m -> same w (m w).2.
Proof. intros Hm a b. apply Hm. tauto. Qed.

End Rules.

Create HintDb framed.
#[export] Hint Resolve framed_ret framed_throw framed_lift framed_now framed_bus_call framed_get framed_list
  framed_set framed_delete framed_attempt framed_ignore : framed.

(** Follows the structure of a program; leaves the keys written and the calls of programs
    whose frame is a lemma to the hints. *)
Ltac framed_tac :=
  repeat first
    [ progress (eauto with framed)
    | apply framed_bind; [|intros ?]
    | match goal with |- framed _ (match ?x with _ => _ end) => destruct x end
    | progress cbv beta zeta ].

(** ** Rules for the stored records *)

Module StoreRules.
Import Ids Store.

Section Rules.
Context {St : Type} `{StateBus St} {view : St -> string -> string -> option Value}.
Context {Laws : StateBusLaws St view} (env : Env).
Implicit Types (w : World St).
Abbreviation stored := (stored (view := view)).
Abbreviation same := (same (view := view)).
Abbreviation put := (put (view := view)).
Abbreviation framed := (framed (view := view)).

Lemma wp_get_run id Q w :
  (forall o w', decode (default Null (stored w SCOPE_RUN id)) = Ok o -> same w w' -> calls w' = calls w -> Q (Ok o) w') ->
  (forall e w', same w w' -> calls w' = calls w -> Q (Err e) w') -> wp (get_run env id) Q w.
Proof.
  intros HOk HErr. apply wp_bind, (wp_state_get (view := view)); [|done].
  intros w' Hs Hc. apply wp_lift. destruct (decode _) as [o|e] eqn:Hd; [by apply HOk|by apply HErr].
Qed.

Lemma wp_get_def id Q w :
  (forall o w', decode (default Null (stored w SCOPE_DEF id)) = Ok o -> same w w' -> calls w' = calls w -> Q (Ok o) w') ->
  (forall e w', same w w' -> calls w' = calls w -> Q (Err e) w') -> wp (get_def env id) Q w.
Proof.
  intros HOk HErr. apply wp_bind, (wp_state_get (view := view)); [|done].
  intros w' Hs Hc. apply wp_lift. destruct (decode _) as [o|e] eqn:Hd; [by apply HOk|by apply HErr].
Qed.

Lemma framed_get_run W id : framed W (get_run env id).
Proof. unfold get_run. framed_tac. Qed.
Lemma framed_get_def W id : framed W (get_def env id).
Proof. unfold get_def. framed_tac. Qed.
Lemma framed_list_runs W : framed W (list_runs env).
Proof. unfold list_runs. framed_tac. Qed.
Lemma framed_get_node_result W id uid : framed W (get_node_result env id uid).
Proof. unfold get_node_result. framed_tac. Qed.
Lemma framed_put_run (W : string -> string -> Prop) r : W SCOPE_RUN (run_id r) -> framed W (put_run env r).
Proof. apply framed_set. Qed.
Lemma framed_put_node_result (W : string -> string -> Prop) id uid v :
  W SCOPE_RESULT (node_result_key id uid) -> framed W (put_node_result env id uid v).
Proof. apply framed_set. Qed.
Lemma framed_put_session_index (W : string -> string -> Prop) sid id : W SCOPE_INDEX sid -> framed W (put_session_index env sid id).
Proof. apply framed_set. Qed.
Lemma framed_enqueue_tick W id n : framed W (enqueue_tick (St := St) env id n).
Proof. unfold enqueue_tick. framed_tac. Qed.

(** *** Loading the results of done nodes *)

Definition needs_result (c : NodeCheckpoint) : bool :=
  match state c, result_ref c with Done, Some _ => true | _, _ => false end.

(** [fetch_results] with the stored values given by a function. *)
Fixpoint pure_fetch (rd : string -> Value) (cs : list (string * NodeCheckpoint)) (out : gmap string Value)
    (corrupt : list string) : gmap string Value * list string :=
  match cs with
  | [] => (out, corrupt)
  | (uid, c) :: cs' =>
      if needs_result c then
        if is_null (rd uid) then pure_fetch rd cs' out (corrupt ++ [uid])
        else pure_fetch rd cs' (<[uid := rd uid]> out) corrupt
      else pure_fetch rd cs' out corrupt
  end.

Definition read_result w (id uid : string) : Value := default Null (stored w SCOPE_RESULT (node_result_key id uid)).

Lemma wp_fetch_results id cs out corrupt Q w :
  (forall w', same w w' -> calls w' = calls w -> Q (Ok (pure_fetch (read_result w id) cs out corrupt)) w') ->
  (forall e w', same w w' -> calls w' = calls w -> Q (Err e) w') -> wp (fetch_results env id cs out corrupt) Q w.
Proof.
  revert out corrupt w. induction cs as [|[uid c] cs IH]; intros out corrupt w HOk HErr; simpl.
  { apply wp_ret, HOk; [apply same_refl|done]. }
  simpl in HOk. unfold needs_result in HOk.
  destruct (state c), (result_ref c); try by apply IH.
  apply wp_bind. apply wp_bind, (wp_state_get (view := view)); [|done].
  intros w1 Hs1 Hc1. apply wp_ret.
  assert (forall u, read_result w1 id u = read_result w id u) as Hr by (intros u; unfold read_result; by rewrite (Hs1 _ _)).
  assert (forall cs out corrupt, pure_fetch (read_result w1 id) cs out corrupt = pure_fetch (read_result w id) cs out corrupt) as Hp.
  { intros l. induction l as [|[u d] l IHl]; intros o k; simpl; [done|]. rewrite Hr. by repeat case_match. }
  fold (read_result w id uid). destruct (is_null (read_result w id uid)).
  all: apply IH; [intros w2 Hs2 Hc2; rewrite Hp; apply HOk|intros e w2 Hs2 Hc2; apply HErr];
    first [by eapply same_trans | congruence].
Qed.

Lemma pure_fetch_out rd cs out corrupt uid :
  NoDup cs.*1 ->
  (pure_fetch rd cs out corrupt).1 !! uid =
  match list_find (λ p, p.1 = uid) cs with
  | Some (_, (_, c)) => if needs_result c && negb (is_null (rd uid)) then Some (rd uid) else out !! uid
  | None => out !! uid
  end.
Proof.
  revert out corrupt. induction cs as [|[u c] cs IH]; intros out corrupt; simpl; [done|].
  intros [Hu Hnd]%NoDup_cons. destruct (decide (u = uid)) as [->|Hne].
  - assert (list_find (λ p : string * NodeCheckpoint, p.1 = uid) cs = None) as Hf.
    { apply list_find_None, Forall_forall. intros [u' c'] Hin. simpl. intros ->. apply Hu.
      apply list_elem_of_fmap. by exists (uid, c'). }
    destruct (needs_result c), (is_null (rd uid)); simpl; rewrite IH by done; rewrite Hf; by simplify_map_eq.
  - destruct (needs_result c), (is_null (rd u)); simpl; rewrite IH by done;
      destruct (list_find (λ p, p.1 = uid) cs) as [[i [u' c']]|]; simpl; by simplify_map_eq.
Qed.

Lemma pure_fetch_corrupt rd cs out corrupt uid :
  uid ∈ (pure_fetch rd cs out corrupt).2 <->
  uid ∈ corrupt \/ exists c, (uid, c) ∈ cs /\ needs_result c = true /\ is_null (rd uid) = true.
Proof.
  revert out corrupt. induction cs as [|[u c] cs IH]; intros out corrupt; simpl.
  { split; [by left|]. intros [?|(c & ?%elem_of_nil & _)]; done. }
  setoid_rewrite elem_of_cons.
  destruct (needs_result c) eqn:Hn, (is_null (rd u)) eqn:Hz; rewrite IH, ?elem_of_app, ?list_elem_of_singleton.
  - split.
    + intros [[?| ->]|(d & ? & ?)]; [by left|right; exists c; by split; [left|]|right; exists d; by split; [right|]].
    + intros [?|(d & [[= -> ->]|?] & ?)]; [by left; left|by left; right|right; by exists d].
  - split.
    + intros [?|(d & ? & ?)]; [by left|right; exists d; by split; [right|]].
    + intros [?|(d & [[= -> ->]|?] & Hd & Hzz)]; [by left|congruence|right; by exists d].
  - split.
    + intros [?|(d & ? & ?)]; [by left|right; exists d; by split; [right|]].
    + intros [?|(d & [[= -> ->]|?] & Hd & Hzz)]; [by left|congruence|right; by exists d].
  - split.
    + intros [?|(d & ? & ?)]; [by left|right; exists d; by split; [right|]].
    + intros [?|(d & [[= -> ->]|?] & Hd & Hzz)]; [by left|congruence|right; by exists d].
Qed.

Definition mark (c : NodeCheckpoint) : NodeCheckpoint := set_cp_error (Some corrupt_error) (set_state Failed c).

Lemma marked_nodes r uids uid :
  run_nodes (foldl mark_corrupt r uids) !! uid =
  if decide (uid ∈ uids) then mark <$> run_nodes r !! uid else run_nodes r !! uid.
Proof.
  revert r. induction uids as [|u uids IH]; intros r; simpl.
  { done. }
  rewrite IH. assert (run_nodes (mark_corrupt r u) !! uid = if decide (uid = u) then mark <$> run_nodes r !! uid else run_nodes r !! uid) as Hm.
  { unfold mark_corrupt. destruct (run_nodes r !! u) as [c|] eqn:Hu; cbn [with_cp set_nodes run_nodes].
    - destruct (decide (uid = u)) as [->|]; [by rewrite lookup_insert_eq, Hu|by rewrite lookup_insert_ne].
    - destruct (decide (uid = u)) as [->|]; [by rewrite Hu|done]. }
  rewrite Hm. destruct (decide (uid ∈ uids)) as [Hi|Hi], (decide (uid = u)) as [->|Hne].
  - rewrite decide_True by (by left). by destruct (run_nodes r !! u).
  - by rewrite decide_True by (by right).
  - by rewrite decide_True by (by left).
  - rewrite decide_False; [done|]. by intros [?|?]%elem_of_cons.
Qed.

Lemma mark_corrupt_fields r uids :
  foldl mark_corrupt r uids = set_nodes (run_nodes (foldl mark_corrupt r uids)) r.
Proof.
  revert r. induction uids as [|u uids IH]; intros r; simpl; [by destruct r|].
  rewrite IH at 1. unfold mark_corrupt. by destruct (run_nodes r !! u).
Qed.

(** The done nodes with a result worth the name are loaded; the others are failed; nothing
    else of the record changes. *)
Record loaded w (r r' : WorkflowRunRecord) (results : gmap string Value) : Prop := {
  ld_fields : r' = set_nodes (run_nodes r') r;
  ld_results : forall uid, results !! uid =
    match run_nodes r !! uid with
    | Some c => if needs_result c && negb (is_null (read_result w (run_id r) uid))
                then Some (read_result w (run_id r) uid) else None
    | None => None
    end;
  ld_nodes : forall uid, run_nodes r' !! uid =
    match run_nodes r !! uid with
    | Some c => Some (if needs_result c && is_null (read_result w (run_id r) uid) then mark c else c)
    | None => None
    end;
}.

Lemma find_btree_iter {V} (m : gmap string V) k :
  list_find (λ p, p.1 = k) (btree_iter m) = None /\ m !! k = None \/
  exists i v, list_find (λ p, p.1 = k) (btree_iter m) = Some (i, (k, v)) /\ m !! k = Some v.
Proof.
  destruct (list_find _ _) as [[i [k' v]]|] eqn:Hf.
  - right. apply list_find_Some in Hf as (Hi & Hk & _). simpl in Hk. subst k'. exists i, v. split; [done|].
    apply elem_of_btree_iter. by eapply list_elem_of_lookup_2.
  - left. split; [done|]. apply list_find_None in Hf. destruct (m !! k) as [v|] eqn:Hm; [|done].
    rewrite Forall_forall in Hf. by destruct (Hf (k, v)); [apply elem_of_btree_iter|].
Qed.

Lemma wp_load_done_results r Q w :
  (forall results r' w', loaded w r r' results -> same w w' -> calls w' = calls w -> Q (Ok (results, r')) w') ->
  (forall e w', same w w' -> calls w' = calls w -> Q (Err e) w') -> wp (load_done_results env r) Q w.
Proof.
  intros HOk HErr. apply wp_bind, wp_fetch_results; [|done]. intros w' Hs Hc. apply wp_ret, HOk; [|done|done].
  split; [apply mark_corrupt_fields| |].
  - intros uid. rewrite pure_fetch_out by apply NoDup_btree_keys.
    destruct (find_btree_iter (run_nodes r) uid) as [[-> ->]|(i & c & -> & ->)]; [done|].
    by destruct (_ && _).
  - intros uid. rewrite marked_nodes.
    destruct (run_nodes r !! uid) as [c|] eqn:Hc'; [|by destruct (decide _)].
    destruct (decide (uid ∈ _)) as [Hin|Hin]; rewrite pure_fetch_corrupt in Hin.
    + destruct Hin as [?%elem_of_nil|(d & Hd%elem_of_btree_iter & Hn & Hz)]; [done|]. simplify_eq. by rewrite Hn, Hz.
    + destruct (needs_result c) eqn:Hn, (is_null (read_result w (run_id r) uid)) eqn:Hz; try done.
      destruct Hin. right. exists c. by split; [apply elem_of_btree_iter|].
Qed.

Lemma framed_load_done_results W r : framed W (load_done_results env r).
Proof. apply framed_wp. intros w. apply wp_load_done_results; intros; by apply same_frame. Qed.

End Rules.
End StoreRules.

#[export] Hint Resolve StoreRules.framed_get_run StoreRules.framed_get_def StoreRules.framed_list_runs
  StoreRules.framed_get_node_result StoreRules.framed_put_run StoreRules.framed_put_node_result
  StoreRules.framed_put_session_index StoreRules.framed_enqueue_tick StoreRules.framed_load_done_results : framed.
