(* ===== verification/WfSweep.v ===== *)
(** * The other handlers of a run (workflow/src/timeout.rs, functions/sweep.rs, stop.rs,
    wake.rs, status.rs, node_result.rs, stamp_reply.rs)

    [workflow::sweep] runs from a cron tick: it polls every run that is not terminal, times
    out the nodes past their deadline (a fresh attempt while the budget lasts, then a failure)
    and deletes the terminal runs past their retention; [SweepProperties] says what becomes of
    every node, the calls of the harness included.  [workflow::stop] marks a run aborted,
    [workflow::wake] enqueues a tick when a node's session finishes, [workflow::status] and
    [workflow::node-result] read.  [workflow::stamp-reply] rewrites the arguments of a
    [workflow::start] call made by an agent, so that the caller's identity is the true one. *)

From Stdlib Require Import Ascii ZArith Lia.
From S2P Require Import Prelude Json StateStore StateService WfTypes WfDag WfBus WfTick.

(** [a - b] on [i64], as compiled for release, and [a.saturating_sub(b)]. *)
Definition sub_i64 (a b : Z) : Z := ((a - b - i64_min) mod 2 ^ 64 + i64_min)%Z.
Definition saturating_sub_i64 (a b : Z) : Z := Z.max i64_min (Z.min i64_max (a - b)).

(** ** Timeouts (timeout.rs) *)

Module Timeout.

Inductive TimeoutAction : Type :=
| StillWaiting
| Refire (attempt : Z)
| FailOut.

Definition timeout_action (c : NodeCheckpoint) (default_timeout_ms max_retries now : Z) : TimeoutAction :=
  match state c with
  | NRunning =>
      let timeout := default default_timeout_ms (pending_timeout_ms c) in
      let since := default now (pending_at c) in
      let expired := (timeout <=? Z.max (saturating_sub_i64 now since) 0)%Z in
      if negb expired then StillWaiting
      else if (retries c <? max_retries)%Z then Refire (retries c + 1)
      else FailOut
  | _ => StillWaiting
  end.

End Timeout.

(** ** The sweep (functions/sweep.rs) *)

Module Sweep.
Import Ids Store Events Reconcile Tick Timeout.

Definition TERMINAL_RETENTION_MS : Z := 24 * 60 * 60 * 1000.

Section Sweep.
Context {St : Type} `{StateBus St} `{SerdeText} (env : Env).
Abbreviation M := (Prog St).

(** Stops the session of a timed-out attempt. *)
Definition stop_attempt (c : NodeCheckpoint) : M unit :=
  match session_id c with Some sid => harness_stop_session env sid | None => ret tt end.

(** The loop over the uids the record had when it began; [unwrap] of a missing one panics. *)
Fixpoint sweep_nodes (def : WorkflowDef) (results : gmap string Value) (now : Z) (uids : list string)
    (r : WorkflowRunRecord) : M WorkflowRunRecord :=
  match uids with
  | [] => ret r
  | uid :: rest =>
      match run_nodes r !! uid with
      | None => throw (StateError "called `Option::unwrap()` on a `None` value")
      | Some c =>
          match timeout_action c (default_pending_timeout_ms (cfg env)) (max_node_retries (cfg env)) now with
          | StillWaiting => sweep_nodes def results now rest r
          | Refire attempt =>
              do! stop_attempt c in
              let! r1 := fire_node env def uid results (update_cp uid (set_retries attempt) r) in
              sweep_nodes def results now rest r1
          | FailOut =>
              do! stop_attempt c in
              sweep_nodes def results now rest
                (update_cp uid (λ c, set_cp_error (Some "node_timeout") (set_state Failed c)) r)
          end
      end
  end.

Definition sweep_one_run (id : string) (now : Z) : M bool :=
  let! found := get_run env id in
  match found with
  | None => ret false
  | Some r =>
      if is_terminal (status r) then ret false
      else
        let! d := get_def env (run_id r) in
        match d with
        | None => ret false
        | Some def =>
            let! r1 := reconcile_run env r in
            let! p := load_done_results env r1 in
            let '(results, r2) := p in
            let! r3 := sweep_nodes def results now (btree_keys (run_nodes r2)) r2 in
            do! put_run env r3 in
            do! ignore (enqueue_tick env (run_id r3) (succ_u64 (step r3))) in
            ret true
        end
  end.

(** The first loop: a run that fails is skipped. *)
Fixpoint sweep_runs (now : Z) (runs : list WorkflowRunRecord) (swept : Z) : M Z :=
  match runs with
  | [] => ret swept
  | r :: rest =>
      if is_terminal (status r) then sweep_runs now rest swept
      else
        let! res := attempt (sweep_one_run (run_id r) now) in
        sweep_runs now rest (match res with Ok true => succ_u64 swept | _ => swept end)
  end.

(** The second loop: terminal runs past their retention. *)
Definition reapable (cutoff : Z) (r : WorkflowRunRecord) : bool :=
  is_terminal (status r) && (updated_at r <? cutoff)%Z.

Fixpoint reap_runs (cutoff : Z) (runs : list WorkflowRunRecord) (swept : Z) : M Z :=
  match runs with
  | [] => ret swept
  | r :: rest =>
      if reapable cutoff r then
        let! res := attempt (delete_run env r) in
        reap_runs cutoff rest (match res with Ok _ => succ_u64 swept | Err _ => swept end)
      else reap_runs cutoff rest swept
  end.

(** [workflow::sweep]; the answer is the number of runs touched. *)
Definition handle : M Z :=
  let! runs := list_runs env in
  let! now := now_ms env in
  let! swept := sweep_runs now runs 0 in
  reap_runs (sub_i64 now TERMINAL_RETENTION_MS) runs swept.

End Sweep.
End Sweep.

(** ** Stopping and waking (functions/stop.rs, wake.rs) *)

Module Stop.
Import Store Events.

Definition should_stop (s : RunStatus) : bool := negb (is_terminal s).

Section Stop.
Context {St : Type} `{StateBus St} (env : Env).

(** [workflow::stop]; the answer is [stopping]. *)
Definition handle (id : string) : Prog St bool :=
  let! found := get_run env id in
  match found with
  | None => ret false
  | Some r =>
      if negb (should_stop (status r)) then ret false
      else
        let! now := now_ms env in
        let r := set_updated now (set_abort true r) in
        do! put_run env r in
        do! enqueue_tick env id (succ_u64 (step r)) in
        do! cascade_stop_running env r in
        ret true
  end.
End Stop.
End Stop.

Module Wake.
Import Store.

Definition is_workflow_session (sid : string) : bool := starts_with "wf_" sid.

Section Wake.
Context {St : Type} `{StateBus St} `{SerdeText} (env : Env).

(** [workflow::wake]; the answer is [woke]. *)
Definition handle (sid : string) : Prog St bool :=
  if negb (is_workflow_session sid) then ret false
  else
    let! indexed := run_id_for_session env sid in
    match indexed with
    | None => ret false
    | Some id =>
        let! found := get_run env id in
        match found with
        | None => ret false
        | Some r =>
            if is_terminal (status r) then ret false
            else do! enqueue_tick env id (succ_u64 (step r)) in ret true
        end
    end.
End Wake.
End Wake.

(** ** Reading (functions/status.rs, node_result.rs) *)

Module Status.
Import Store.

Record StatusResponse : Type := mk_status {
  rs_run_id : string;
  rs_status : RunStatus;
  rs_nodes : gmap string NodeState;
  rs_node_errors : gmap string string;
  rs_node_results : gmap string string;
  rs_result : option Value;
  rs_result_error : option string;
}.

Definition status_of (r : WorkflowRunRecord) : StatusResponse :=
  mk_status (run_id r) (status r) (state <$> run_nodes r) (omap cp_error (run_nodes r))
    (omap result_ref (run_nodes r)) (run_result r) (run_error r).

Section Status.
Context {St : Type} `{StateBus St} (env : Env).

(** [workflow::status] and [workflow::node-result]. *)
Definition handle (id : string) : Prog St (option StatusResponse) :=
  let! found := get_run env id in ret (status_of <$> found).

Definition node_result (id uid : string) : Prog St (option Value) := get_node_result env id uid.
End Status.
End Status.

(** ** Stamping the caller's identity (functions/stamp_reply.rs) *)

Module StampReply.

Record StampCall : Type := mk_stamp_call { sc_id : option string; sc_arguments : Value }.

Record StampReplyEvent : Type := mk_stamp_event {
  se_session_id : option string;
  se_turn_id : option string;
  se_model : option string;
  se_provider : option string;
  se_call : option StampCall;
  se_functions : option Value;
}.

(** The decision is always [continue]; the mutated arguments, if there is an identity. *)
Record StampReplyResponse : Type := mk_stamp { sr_decision : string; sr_arguments : option Value }.

Definition cont (mutations : option Value) : StampReplyResponse := mk_stamp "continue" mutations.

(** [o.filter(|s| !s.is_empty())]. *)
Definition non_empty (o : option string) : option string :=
  s ← o; if is_empty s then None else Some s.

Definition opt_insert (k : string) (o : option Value) (m : list (string * Value)) : list (string * Value) :=
  match o with Some v => obj_insert k v m | None => m end.

Definition decide (event : StampReplyEvent) : StampReplyResponse :=
  match non_empty (se_session_id event) with
  | None => cont None
  | Some sid =>
      match default Null (sc_arguments <$> se_call event) with
      | Obj m =>
          let obj := obj_insert "caller_session_id" (Str sid) m in
          let obj :=
            match obj_get "reply_to" obj with
            | None => obj
            | Some given =>
                let template := vget "template" given in
                let reply := obj_insert "session_id" (Str sid) [] in
                let reply := opt_insert "model" (Str <$> non_empty (se_model event)) reply in
                let reply := opt_insert "provider" (Str <$> non_empty (se_provider event)) reply in
                let reply := opt_insert "functions" (se_functions event) reply in
                let reply := opt_insert "template" template reply in
                obj_insert "reply_to" (Obj reply) obj
            end in
          cont (Some (Obj obj))
      | _ => cont None
      end
  end.

End StampReply.

(** ** Rules *)

Module SweepRules.
Import Ids Dag Store StoreRules Events Reconcile Tick TickRules Timeout Sweep.

Section Rules.
Context {St : Type} `{StateBus St} {view : St -> string -> string -> option Value}.
Context {Laws : StateBusLaws St view} `{SerdeText} (env : Env).
Implicit Types (w : World St).
Abbreviation stored := (stored (view := view)).
Abbreviation same := (same (view := view)).
Abbreviation put := (put (view := view)).
Abbreviation eff := (eff (view := view)).

Definition action (now : Z) (c : NodeCheckpoint) : TimeoutAction :=
  timeout_action c (default_pending_timeout_ms (cfg env)) (max_node_retries (cfg env)) now.

(** What the sweep may make of a checkpoint. *)
Definition swept_cp (now : Z) (r : WorkflowRunRecord) (uid : string) (c c1 : NodeCheckpoint) : Prop :=
  match action now c with
  | StillWaiting => c1 = c
  | Refire a => (abort r = true /\ c1 = set_retries a c) \/
      abort r = false /\ exists turn i, c1 = mk_cp NRunning (Some (attempt_session (run_id r) uid a)) turn None None (Some (clock env i))
                            (pending_timeout_ms c) a
  | FailOut => c1 = set_cp_error (Some "node_timeout") (set_state Failed c)
  end.

Record swept_on (now : Z) (uids : list string) (r r1 : WorkflowRunRecord) : Prop := {
  so_fields : r1 = set_nodes (run_nodes r1) r;
  so_other : forall u, u ∉ uids -> run_nodes r1 !! u = run_nodes r !! u;
  so_nodes : forall u c, u ∈ uids -> run_nodes r !! u = Some c ->
    exists c1, run_nodes r1 !! u = Some c1 /\ swept_cp now r u c c1;
}.

Lemma swept_on_nil now r : swept_on now [] r r.
Proof. split; [by destruct r|done|]. by intros u c ?%elem_of_nil. Qed.

Lemma swept_on_cons now uid uids r c c1 r2 :
  uid ∉ uids -> run_nodes r !! uid = Some c -> swept_cp now r uid c c1 ->
  swept_on now uids (with_cp uid c1 r) r2 -> swept_on now (uid :: uids) r r2.
Proof.
  intros Hu Hc Hs [Hf Ho Hn]. split.
  - rewrite Hf at 1. done.
  - intros u [Hne Hi]%not_elem_of_cons. rewrite (Ho u Hi). cbn [with_cp set_nodes run_nodes]. by rewrite lookup_insert_ne.
  - intros u d [->|Hin]%elem_of_cons Hd.
    + rewrite (Ho uid Hu). cbn [with_cp set_nodes run_nodes]. rewrite lookup_insert_eq. exists c1. by simplify_eq.
    + assert (u <> uid) as Hne by (by intros ->). apply (Hn u d Hin). cbn [with_cp set_nodes run_nodes].
      by rewrite lookup_insert_ne.
Qed.

Lemma with_cp_same uid c r : run_nodes r !! uid = Some c -> with_cp uid c r = r.
Proof. intros Hc. unfold with_cp, set_nodes. rewrite (insert_id _ _ _ Hc). by destruct r. Qed.

Lemma update_cp_some uid f r c : run_nodes r !! uid = Some c -> update_cp uid f r = with_cp uid (f c) r.
Proof. intros Hc. unfold update_cp. by rewrite Hc. Qed.

Lemma quiet_stop_attempt c : quiet (view := view) (stop_attempt env c).
Proof. unfold stop_attempt. destruct (session_id c); [apply quiet_ignore_call|apply quiet_ret]. Qed.

Lemma with_cp_twice uid c d r : with_cp uid d (with_cp uid c r) = with_cp uid d r.
Proof. unfold with_cp, set_nodes. cbn. by rewrite insert_insert_eq. Qed.

Lemma wp_sweep_nodes def results now uids r w :
  NoDup uids -> (forall u, u ∈ uids -> is_Some (run_nodes r !! u)) ->
  wp (sweep_nodes env def results now uids r)
     (λ res w', eff (run_id r) w w' /\ match res with Ok r1 => swept_on now uids r r1 | Err _ => True end) w.
Proof.
  revert r w. induction uids as [|uid uids IH]; intros r w Hnd Hin; cbn [sweep_nodes].
  { apply wp_ret. split; [apply eff_refl|apply swept_on_nil]. }
  apply NoDup_cons in Hnd as [Hu Hnd]. destruct (Hin uid) as [c Hc]; [by left|]. rewrite Hc.
  assert (forall c1 w1, eff (run_id r) w w1 -> swept_cp now r uid c c1 ->
    wp (sweep_nodes env def results now uids (with_cp uid c1 r))
       (λ res w', eff (run_id r) w w' /\ match res with Ok r1 => swept_on now (uid :: uids) r r1 | Err _ => True end) w1) as Hgo.
  { intros c1 w1 He Hs. eapply wp_mono.
    - apply (IH (with_cp uid c1 r)); [done|]. intros u Hi. cbn [with_cp set_nodes run_nodes].
      rewrite lookup_insert_ne; [apply Hin; by right|]. by intros ->.
    - intros res w2 [He2 Hr]. split; [by eapply eff_trans|]. destruct res; [|done]. by eapply swept_on_cons. }
  unfold swept_cp, action in Hgo. destruct (timeout_action c _ _ now) as [|a|].
  - pose proof (Hgo c w (eff_refl _ _) eq_refl) as Hw. by rewrite (with_cp_same _ _ _ Hc) in Hw.
  - apply wp_bind, (wp_quiet (view := view)); [apply quiet_stop_attempt|]. intros [] w1 Hs1.
    rewrite (update_cp_some _ _ _ _ Hc). apply wp_bind. eapply wp_mono; [apply (wp_fire_node (view := view))|].
    cbn [with_cp set_nodes run_id abort]. intros [r1|e] w2 [He Hr].
    2: { split; [|done]. by eapply eff_trans; [apply eff_same|]. }
    destruct Hr as [[Ha ->]|(Hab0 & turn & i & ->)].
    + apply Hgo; [by eapply eff_trans; [apply eff_same|]|]. left. by split.
    + unfold running_cp, attempts. cbn [with_cp set_nodes run_id run_nodes].
      rewrite lookup_insert_eq. cbn [mbind option_bind]. rewrite with_cp_twice.
      apply Hgo; [by eapply eff_trans; [apply eff_same|]|]. right. by split; [|exists turn, i].
  - apply wp_bind, (wp_quiet (view := view)); [apply quiet_stop_attempt|]. intros [] w1 Hs1.
    rewrite (update_cp_some _ _ _ _ Hc). apply Hgo; [by apply eff_same|done].
Qed.

(** The calls that are made on the way. *)
Definition reaches w w' (P : list Call -> Prop) : Prop := exists l, calls w' = calls w ++ l /\ P l.

Lemma reaches_same w w' (P : list Call -> Prop) : calls w' = calls w -> P [] -> reaches w w' P.
Proof. intros Hc HP. exists []. by rewrite app_nil_r. Qed.

Lemma reaches_trans w w1 w' (P Q R : list Call -> Prop) :
  (forall l1 l2, P l1 -> Q l2 -> R (l1 ++ l2)) -> reaches w w1 P -> reaches w1 w' Q -> reaches w w' R.
Proof. intros HR (l1 & H1 & HP) (l2 & H2 & HQ). exists (l1 ++ l2). rewrite H2, H1, app_assoc. auto. Qed.

(** A node is sent to the harness, in the session of an attempt. *)
Definition sends (def : WorkflowDef) (r : WorkflowRunRecord) (uid : string) (a : Z) (l : list Call) : Prop :=
  exists n opening, nodes def !! before_char "#" uid = Some n /\
    mk_call "harness::send" (send_payload def r n uid (attempt_session (run_id r) uid a) opening) Sync ∈ l.

Lemma sends_app def r uid a l1 l2 : sends def r uid a l1 \/ sends def r uid a l2 -> sends def r uid a (l1 ++ l2).
Proof. intros [(n & o & Hn & Ho)|(n & o & Hn & Ho)]; exists n, o; (split; [done|]); apply elem_of_app; auto. Qed.

Lemma fire_node_sends def uid results r w :
  wp (fire_node env def uid results r)
     (λ res w', reaches w w' (λ l, is_ok res = true -> abort r = false -> sends def r uid (attempts r uid) l)) w.
Proof.
  unfold fire_node. destruct (abort r); [by apply wp_ret, reaches_same|].
  destruct (nodes def !! before_char "#" uid) as [n|] eqn:Hn; [|by apply wp_throw, reaches_same].
  apply wp_bind, (wp_state_set (view := view)); [|by intros e w1 _ Hc; apply reaches_same]. intros w1 _ Hc1.
  apply wp_bind, (wp_bus_call (view := view)). intros [resp|e] w2 _ Hc2 Hok.
  2: { destruct Hc2 as [Hc2|Hc2]; rewrite Hc1 in Hc2; [by apply reaches_same|by eexists]. }
  apply wp_bind, (wp_now (view := view)). intros i w3 _ Hc3. apply wp_ret. eexists. rewrite Hc3, Hok, Hc1 by done. split; [reflexivity|].
  intros _ _. eexists n, _. split; [done|]. by apply list_elem_of_singleton.
Qed.

Lemma stop_attempt_reaches c w w' : stop_attempt env c w = (Ok tt, w') -> reaches w w' (λ _, True).
Proof.
  unfold stop_attempt. destruct (session_id c); [|intros [= <-]; by apply reaches_same].
  unfold harness_stop_session, ignore, bus_call. destruct (fault env (index w)); intros [= <-]; cbn; first [by apply reaches_same|by eexists].
Qed.

Lemma sweep_nodes_sends def results now uids r w res w' : NoDup uids ->
  sweep_nodes env def results now uids r w = (Ok res, w') ->
  reaches w w' (λ l, forall u c a, u ∈ uids -> run_nodes r !! u = Some c -> action now c = Refire a -> abort r = false -> sends def r u a l).
Proof.
  revert r w. induction uids as [|uid uids IH]; intros r w Hnd; cbn [sweep_nodes].
  { intros [= _ <-]. apply reaches_same; [done|]. by intros u c a ?%elem_of_nil. }
  apply NoDup_cons in Hnd as [Hu Hnd]. destruct (run_nodes r !! uid) as [c|] eqn:Hc; [|done].
  assert (forall c1 w1 (P : list Call -> Prop), reaches w w1 P ->
    (forall l a, P l -> action now c = Refire a -> abort r = false -> sends def r uid a l) ->
    sweep_nodes env def results now uids (with_cp uid c1 r) w1 = (Ok res, w') ->
    reaches w w' (λ l, forall u c a, u ∈ uid :: uids -> run_nodes r !! u = Some c -> action now c = Refire a -> abort r = false -> sends def r u a l)) as Hgo.
  { intros c1 w1 P H1 HP H2. eapply reaches_trans; [|exact H1|apply (IH _ _ Hnd H2)]. cbn beta. intros l1 l2 Hl1 Hl2 u d a [->|Hin]%elem_of_cons Hd Ha Hab; apply sends_app.
    - left. rewrite Hc in Hd. injection Hd as ->. by apply HP.
    - right. apply (Hl2 u d a Hin); [|done|done]. cbn [with_cp set_nodes run_nodes]. rewrite lookup_insert_ne; [done|]. by intros ->. }
  unfold action in Hgo. destruct (timeout_action c _ _ now) as [|a|] eqn:Hact.
  - intros He. rewrite <-(with_cp_same _ _ _ Hc) in He. by eapply (Hgo c w (λ _, True)); [by apply reaches_same| |].
  - intros ([] & w1 & H1 & (r1 & w2 & H2 & H3)%bind_ok)%bind_ok. rewrite (update_cp_some _ _ _ _ Hc) in H2.
    pose proof (wp_run _ _ _ _ _ (wp_fire_node (view := view) _ _ _ _ _ _) H2) as [_ Hr1].
    pose proof (wp_run _ _ _ _ _ (fire_node_sends _ _ _ _ _) H2) as Hsend. cbn [is_ok with_cp set_nodes abort] in Hsend.
    set (r' := with_cp uid _ r) in *.
    assert (reaches w w2 (λ l, abort r = false -> sends def r' uid (attempts r' uid) l)) as Hall.
    { eapply reaches_trans; [|exact (stop_attempt_reaches _ _ _ H1)|exact Hsend]. intros l1 l2 _ Hl2 Hab. apply sends_app. right. by apply Hl2. }
    assert (exists c1, r1 = with_cp uid c1 r) as [c1 ->].
    { destruct Hr1 as [[_ ->]|(Hab0 & turn & i & ->)]; [by eexists|]. unfold r'. rewrite with_cp_twice. by eexists. }
    eapply (Hgo c1 w2); [exact Hall| |exact H3]. intros l a' Hl [= <-] Hab. specialize (Hl Hab).
    unfold sends, attempts, r' in Hl. cbn [with_cp set_nodes run_nodes run_id] in Hl. rewrite lookup_insert_eq in Hl. exact Hl.
  - intros ([] & w1 & H1 & H2)%bind_ok. rewrite (update_cp_some _ _ _ _ Hc) in H2.
    by eapply (Hgo _ w1 (λ _, True)); [by apply stop_attempt_reaches in H1| |exact H2].
Qed.

(** One effective sweep of run [id], from the stored record [r] to the record [rF]. *)
Record swept_run (id : string) (now : Z) w w' (def : WorkflowDef) (r rF : WorkflowRunRecord) : Prop := {
  sw_record : decode (default Null (stored w SCOPE_RUN id)) = Ok (Some r);
  sw_def : decode (default Null (stored w SCOPE_DEF (run_id r))) = Ok (Some def);
  sw_live : is_terminal (status r) = false;
  sw_path : exists w1 r1 results r2,
    eff (run_id r) w w1 /\ reconciled (view := view) w1 r r1 /\ loaded (view := view) w1 r1 r2 results /\
    swept_on now (btree_keys (run_nodes r2)) r2 rF /\ stores (view := view) rF w1 w' /\ run_id rF = run_id r;
}.

Lemma wp_sweep_one_run id now w :
  wp (sweep_one_run env id now)
     (λ res w', match res with
                | Ok true => exists def r rF, swept_run id now w w' def r rF
                | Ok false => same w w'
                | Err _ => same w w' \/ (exists r, decode (default Null (stored w SCOPE_RUN id)) = Ok (Some r) /\ eff (run_id r) w w')
                           \/ exists def r rF, swept_run id now w w' def r rF
                end) w.
Proof.
  unfold sweep_one_run. apply wp_bind, (wp_get_run (view := view)); [|by left]. intros [r|] w1 Hr Hs1 _; [|by apply wp_ret].
  destruct (is_terminal (status r)) eqn:Ht; [by apply wp_ret|].
  apply wp_bind, (wp_get_def (view := view)).
  2: { intros e w2 Hs2 _. left. by eapply same_trans. }
  intros [def|] w2 Hd Hs2 _; [|apply wp_ret; by eapply same_trans].
  assert (eff (run_id r) w w2) as He2 by (apply eff_same; by eapply same_trans). rewrite (Hs1 _ _) in Hd.
  apply wp_bind. eapply wp_mono; [apply (wp_reconcile_run (view := view))|]. intros [r1|e] w3 [He3 Hrc].
  2: { right; left. exists r. split; [done|]. by eapply eff_trans. }
  assert (run_id r1 = run_id r) as Hid1 by (rewrite (rc_fields _ _ _ Hrc); done).
  assert (eff (run_id r) w w3) as He by (by eapply eff_trans). clear He2 He3.
  apply wp_bind, (wp_load_done_results (view := view)).
  2: { intros e w4 Hs4 _. right; left. exists r. split; [done|]. by eapply eff_trans; [|apply eff_same]. }
  intros results r2 w4 Hld Hs4 _. cbn [fst snd].
  assert (run_id r2 = run_id r) as Hid2 by (rewrite (ld_fields _ _ _ _ Hld); done).
  apply wp_bind. eapply wp_mono.
  { apply wp_sweep_nodes; [apply NoDup_btree_keys|]. intros u Hu. by apply elem_of_btree_keys. }
  rewrite Hid2. intros [r3|e] w5 [He5 Hsw].
  2: { right; left. exists r. split; [done|]. eapply eff_trans; [exact He|]. by eapply eff_trans; [apply eff_same|]. }
  assert (run_id r3 = run_id r) as Hid3 by (rewrite (so_fields _ _ _ _ Hsw); done).
  assert (forall w6 w', put SCOPE_RUN (run_id r3) (Some (to_value r3)) w5 w6 -> same w6 w' ->
            exists def r rF, swept_run id now w w' def r rF) as Hdone.
  { intros w6 w' Hp Hs. exists def, r, r3. split; [done..|]. exists w3, r1, results, r2. split_and!; [done..| |done].
    exists w5. split; [rewrite Hid3; by eapply eff_trans; [apply eff_same|]|]. intros a b. by rewrite Hs, Hp. }
  apply wp_bind, (wp_put_run (view := view)).
  - intros w6 Hp. apply wp_bind, wp_ignore, wp_bind, (wp_bus_call (view := view)).
    intros [v|e] w7 Hs7 _ _; apply wp_ret; by eapply Hdone.
  - intros e w6 [Hs6|Hp]; [|right; right; by eapply Hdone; [|apply same_refl]].
    right; left. exists r. split; [done|]. eapply eff_trans; [exact He|].
    eapply eff_trans; [by apply eff_same|]. by eapply eff_trans; [|apply eff_same].
Qed.

(** An effective sweep, step by step: the record [r] is polled to [r1] and its results are loaded,
    which gives [rp]; [rF] is stored. *)
Record swept_steps (id : string) (now : Z) w w' (def : WorkflowDef) (r r1 rp rF : WorkflowRunRecord) : Prop := {
  ss_run : swept_run id now w w' def r rF;
  ss_polled : exists wb wc results, let wa := (get_def env (run_id r) (get_run env id w).2).2 in same w wa /\ reconcile_run env r wa = (Ok r1, wb) /\
    load_done_results env r1 wb = (Ok (results, rp), wc) /\ reconciled (view := view) wb r r1 /\ loaded (view := view) wb r1 rp results /\
    reaches wc w' (λ l, forall u c a, run_nodes rp !! u = Some c -> action now c = Refire a -> abort rp = false -> sends def rp u a l);
  ss_nodes : swept_on now (btree_keys (run_nodes rp)) rp rF;
}.

Lemma sweep_in_steps id now w w' : sweep_one_run env id now w = (Ok true, w') ->
  exists def r r1 rp rF, swept_steps id now w w' def r r1 rp rF.
Proof.
  intros (found & wa & Hg & He)%bind_ok.
  pose proof (wp_run _ _ _ _ _ (wp_get_run (view := view) env id (λ res w1, res = Ok found -> decode (default Null (stored w SCOPE_RUN id)) = Ok found /\ same w w1 /\ calls w1 = calls w) w
    ltac:(intros o w1 H1 H2 H3 [= ->]; done) ltac:(done)) Hg eq_refl) as (Hdec & Hsa & Hca).
  destruct found as [r|]; [|done]. destruct (is_terminal (status r)) eqn:Ht; [done|].
  apply bind_ok in He as (d & wd & Hd & He).
  pose proof (wp_run _ _ _ _ _ (wp_get_def (view := view) env (run_id r) (λ res w1, res = Ok d -> decode (default Null (stored wa SCOPE_DEF (run_id r))) = Ok d /\ same wa w1 /\ calls w1 = calls wa) wa
    ltac:(intros o w1 H1 H2 H3 [= ->]; done) ltac:(done)) Hd eq_refl) as (Hdd & Hsd & Hcd).
  rewrite (Hsa _ _) in Hdd. destruct d as [def|]; [|done].
  apply bind_ok in He as (r1 & wb & Hrec & He). pose proof (wp_run _ _ _ _ _ (wp_reconcile_run (view := view) env r wd) Hrec) as [Heff Hrc].
  apply bind_ok in He as ([results rp] & wc & Hload & He).
  pose proof (wp_run _ _ _ _ _ (wp_load_done_results (view := view) env r1 (λ res w1, res = Ok (results, rp) -> loaded (view := view) wb r1 rp results /\ same wb w1 /\ calls w1 = calls wb) wb
    ltac:(intros o r' w1 H1 H2 H3 [= <- <-]; done) ltac:(done)) Hload eq_refl) as (Hld & Hsc & Hcc).
  apply bind_ok in He as (rF & we & Hsw & He).
  assert (forall u, u ∈ btree_keys (run_nodes rp) -> is_Some (run_nodes rp !! u)) as Hin by (intros u; by rewrite elem_of_btree_keys).
  pose proof (wp_run _ _ _ _ _ (wp_sweep_nodes def results now _ rp wc (NoDup_btree_keys _) Hin) Hsw) as [Heffe Hon].
  pose proof (sweep_nodes_sends def results now _ rp wc rF we (NoDup_btree_keys _) Hsw) as Hsends.
  apply bind_ok in He as ([] & wf & Hput & He).
  pose proof (wp_run _ _ _ _ _ (wp_state_set (view := view) env SCOPE_RUN (run_id rF) (to_value rF) (λ res w1, res = Ok tt -> put SCOPE_RUN (run_id rF) (Some (to_value rF)) we w1 /\ calls w1 = calls we) we
    ltac:(intros w1 H1 H2 _; done) ltac:(done)) Hput eq_refl) as (Hp & Hcf).
  apply bind_ok in He as ([] & wg & Htick & [= <-]).
  assert (same wf wg /\ reaches wf wg (λ _, True)) as [Hsg Hcg].
  { unfold enqueue_tick, ignore, bind, bus_call in Htick. destruct (fault env (index wf)); injection Htick as <-; (split; [by intros a b|]);
      first [by apply reaches_same|by eexists]. }
  assert (run_id r1 = run_id r) as Hid1 by (by rewrite (rc_fields _ _ _ Hrc)).
  assert (run_id rp = run_id r) as Hidp by (by rewrite (ld_fields _ _ _ _ Hld)).
  assert (run_id rF = run_id r) as HidF by (by rewrite (so_fields _ _ _ _ Hon)).
  exists def, r, r1, rp, rF. split; [|exists wb, wc, results; rewrite Hg; cbn [snd]; rewrite Hd; cbn [snd]; cbv zeta; split_and!; [by eapply same_trans|done..|]|done].
  - split; [done..|]. exists wb, r1, results, rp. split_and!; [|done..| |done].
    + eapply eff_trans; [|exact Heff]. apply eff_same. by eapply same_trans.
    + exists we. split; [|intros a b; by rewrite Hsg, Hp]. rewrite HidF. eapply eff_trans; [by apply eff_same|]. by rewrite <-Hidp.
  - destruct Hsends as (l & Hl & HP). destruct Hcg as (l2 & Hl2 & _). exists (l ++ l2). rewrite Hl2, Hcf, Hl, app_assoc. split; [done|].
    intros u c a Hu Ha Hab. apply sends_app. left. apply (HP u c a); [|done..]. apply elem_of_btree_keys. by rewrite Hu.
Qed.

(** *** Deleting a run *)

(** Rows may only disappear, and only those in [W]. *)
Definition shrinks (W : string -> string -> Prop) w w' : Prop :=
  forall a b, stored w' a b = stored w a b \/ (W a b /\ stored w' a b = None).

Lemma shrinks_refl W w : shrinks W w w.
Proof. intros a b. by left. Qed.

Lemma shrinks_trans W w1 w2 w3 : shrinks W w1 w2 -> shrinks W w2 w3 -> shrinks W w1 w3.
Proof. intros H1 H2 a b. destruct (H2 a b) as [->|?]; [apply H1|by right]. Qed.

Lemma shrinks_gone W w w' a b : shrinks W w w' -> stored w a b = None -> stored w' a b = None.
Proof. intros Hs Hn. by destruct (Hs a b) as [->|[_ ?]]. Qed.

Lemma shrinks_mono (W W' : string -> string -> Prop) w w' :
  (forall a b, W a b -> W' a b) -> shrinks W w w' -> shrinks W' w w'.
Proof. intros HW Hs a b. destruct (Hs a b) as [?|[? ?]]; [by left|right; auto]. Qed.

Lemma shrinks_same W w w' : same w w' -> shrinks W w w'.
Proof. intros Hs a b. by left. Qed.

Lemma shrinks_put (W : string -> string -> Prop) sc k w w' : W sc k -> put sc k None w w' -> shrinks W w w'.
Proof. intros HW Hp a b. rewrite Hp. destruct (decide _) as [[-> ->]|]; [by right|by left]. Qed.

(** The rows of a checkpoint. *)
Definition cp_keys (c : NodeCheckpoint) (a b : string) : Prop :=
  (a = SCOPE_RESULT /\ result_ref c = Some b) \/ (a = SCOPE_INDEX /\ session_id c = Some b).

Lemma wp_state_delete_shrinks (W : string -> string -> Prop) sc k (Q : _ -> _ -> Prop) w :
  W sc k ->
  (forall w', shrinks W w w' -> stored w' sc k = None -> put sc k None w w' -> Q (Ok tt) w') ->
  (forall e w', same w w' \/ put sc k None w w' -> shrinks W w w' -> Q (Err e) w') ->
  wp (state_delete env sc k) Q w.
Proof.
  intros HW HOk HErr. apply (wp_state_delete (view := view)).
  - intros w' Hp _. apply HOk; [by eapply shrinks_put| |done]. rewrite Hp. by rewrite decide_True.
  - intros e w' [Hs|Hp] _; apply HErr; [by left|by apply shrinks_same|by right|by eapply shrinks_put].
Qed.

Lemma wp_delete_node c w :
  wp (delete_node env c)
     (λ res w', shrinks (cp_keys c) w w' /\
        match res with Ok _ => forall a b, cp_keys c a b -> stored w' a b = None | Err _ => True end) w.
Proof.
  unfold delete_node. apply wp_bind.
  apply (wp_mono _ (λ res w', shrinks (cp_keys c) w w' /\
    match res with Ok _ => forall k, result_ref c = Some k -> stored w' SCOPE_RESULT k = None | Err _ => True end)).
  { destruct (result_ref c) as [k|] eqn:Hk; [|apply wp_ret; split; [apply shrinks_refl|done]].
    apply (wp_state_delete_shrinks (cp_keys c)); [by left| |done].
    intros w' Hs Hn _. split; [done|]. by intros k' [= <-]. }
  intros [[]|e] w1 [Hs1 Hr]; [|done].
  destruct (session_id c) as [s|] eqn:Hc.
  - apply (wp_state_delete_shrinks (cp_keys c)); [by right| |].
    + intros w' Hs Hn _. split; [by eapply shrinks_trans|]. intros a b [[-> Ha]|[-> Hb]].
      * eapply shrinks_gone; [exact Hs|]. by apply Hr.
      * congruence.
    + intros e w' _ Hs. split; [by eapply shrinks_trans|done].
  - apply wp_ret. split; [done|]. intros a b [[-> Ha]|[-> Hb]]; [by apply Hr|congruence].
Qed.

Definition child_keys (cs : list NodeCheckpoint) (a b : string) : Prop := exists c, c ∈ cs /\ cp_keys c a b.

Lemma wp_delete_nodes cs w :
  wp (delete_nodes env cs)
     (λ res w', shrinks (child_keys cs) w w' /\
        match res with Ok _ => forall a b, child_keys cs a b -> stored w' a b = None | Err _ => True end) w.
Proof.
  revert w. induction cs as [|c cs IH]; intros w; cbn [delete_nodes].
  { apply wp_ret. split; [apply shrinks_refl|]. by intros a b (c & ?%elem_of_nil & _). }
  assert (forall a b, cp_keys c a b -> child_keys (c :: cs) a b) as Hh by (intros a b Hk; exists c; by split; [left|]).
  assert (forall a b, child_keys cs a b -> child_keys (c :: cs) a b) as Ht.
  { intros a b (d & Hd & Hk). exists d. by split; [right|]. }
  apply wp_bind. eapply wp_mono; [apply wp_delete_node|]. intros [[]|e] w1 [Hs1 Hg1].
  2: { split; [|done]. exact (shrinks_mono _ _ _ _ Hh Hs1). }
  eapply wp_mono; [apply IH|]. intros res w2 [Hs2 Hg2]. split.
  - exact (shrinks_trans _ _ _ _ (shrinks_mono _ _ _ _ Hh Hs1) (shrinks_mono _ _ _ _ Ht Hs2)).
  - destruct res as [[]|]; [|done]. intros a b (d & [->|Hd]%elem_of_cons & Hk); [|apply Hg2; by exists d].
    eapply shrinks_gone; [exact Hs2|]. by apply Hg1.
Qed.

(** The rows of a run: those of its checkpoints, its definition and its record. *)
Definition run_children (r : WorkflowRunRecord) (a b : string) : Prop :=
  (exists uid c, run_nodes r !! uid = Some c /\ cp_keys c a b) \/ (a = SCOPE_DEF /\ b = run_id r).
Definition run_keys (r : WorkflowRunRecord) (a b : string) : Prop :=
  run_children r a b \/ (a = SCOPE_RUN /\ b = run_id r).

Lemma children_of_run r a b :
  child_keys (btree_values (run_nodes r)) a b <-> exists uid c, run_nodes r !! uid = Some c /\ cp_keys c a b.
Proof.
  split.
  - intros (c & [uid Hc]%elem_of_btree_values & Hk). by exists uid, c.
  - intros (uid & c & Hc & Hk). exists c. split; [|done]. apply elem_of_btree_values. by exists uid.
Qed.

Lemma child_keys_not_run r a b : run_children r a b -> a <> SCOPE_RUN.
Proof. intros [(uid & c & _ & [[-> _]|[-> _]])|[-> _]]; done. Qed.

Lemma wp_delete_run r w :
  wp (delete_run env r)
     (λ res w', shrinks (run_keys r) w w' /\
        ((is_ok res = false /\ stored w' SCOPE_RUN (run_id r) = stored w SCOPE_RUN (run_id r)) \/
         (forall a b, run_keys r a b -> stored w' a b = None))) w.
Proof.
  unfold delete_run. apply wp_bind. eapply wp_mono; [apply wp_delete_nodes|]. intros res w1 [Hs1 Hg1].
  assert (shrinks (run_children r) w w1) as Hc1.
  { eapply shrinks_mono; [|exact Hs1]. intros a b Hk. left. by apply children_of_run. }
  assert (forall w2, shrinks (run_children r) w w2 -> shrinks (run_keys r) w w2 /\
            stored w2 SCOPE_RUN (run_id r) = stored w SCOPE_RUN (run_id r)) as Hup.
  { intros w2 Hs. split; [eapply shrinks_mono; [|exact Hs]; by left|].
    destruct (Hs SCOPE_RUN (run_id r)) as [?|[Hk _]]; [done|]. by apply child_keys_not_run in Hk. }
  destruct res as [[]|e]; [|destruct (Hup w1 Hc1); by split; [|left]].
  apply wp_bind, (wp_state_delete_shrinks (run_children r)); [by right| |].
  2: { intros e w2 _ Hs2. destruct (Hup w2) as [? ?]; [by eapply shrinks_trans|]. by split; [|left]. }
  intros w2 Hs2 Hd2 _. assert (shrinks (run_children r) w w2) as Hc2 by (by eapply shrinks_trans).
  assert (forall a b, run_children r a b -> stored w2 a b = None) as Hg2.
  { intros a b [Hk|[-> ->]]; [|done]. eapply shrinks_gone; [exact Hs2|]. by apply Hg1, children_of_run. }
  destruct (Hup w2 Hc2) as [Hk2 Hr2].
  apply (wp_state_delete_shrinks (run_keys r)); [by right| |].
  - intros w3 Hs3 Hn3 _. split; [by eapply shrinks_trans|]. right. intros a b [Hk|[-> ->]]; [|done].
    eapply shrinks_gone; [exact Hs3|by apply Hg2].
  - intros e w3 Hw3 Hs3. split; [by eapply shrinks_trans|]. destruct Hw3 as [Hs|Hp].
    + left. split; [done|]. by rewrite (Hs _ _).
    + right. intros a b [Hk|[-> ->]]; [eapply shrinks_gone; [exact Hs3|by apply Hg2]|]. rewrite Hp. by rewrite decide_True.
Qed.

(** *** Stopping *)

Definition stopped (now : Z) (r : WorkflowRunRecord) : WorkflowRunRecord := set_updated now (set_abort true r).

Lemma wp_stop id w :
  wp (Stop.handle env id)
     (λ res w', (res <> Ok true /\ same w w') \/
        exists r i, decode (default Null (stored w SCOPE_RUN id)) = Ok (Some r) /\ is_terminal (status r) = false /\
          put SCOPE_RUN (run_id r) (Some (to_value (stopped (clock env i) r))) w w') w.
Proof.
  unfold Stop.handle. apply wp_bind, (wp_get_run (view := view)); [|by left]. intros [r|] w1 Hr Hs1 _; [|by apply wp_ret; left].
  unfold Stop.should_stop. rewrite negb_involutive. destruct (is_terminal (status r)) eqn:Ht; [by apply wp_ret; left|].
  apply wp_bind, (wp_now (view := view)). intros i w2 Hs2 _. fold (stopped (clock env i) r).
  assert (forall w3 w', put SCOPE_RUN (run_id r) (Some (to_value (stopped (clock env i) r))) w2 w3 -> same w3 w' ->
    exists r i, decode (default Null (stored w SCOPE_RUN id)) = Ok (Some r) /\ is_terminal (status r) = false /\
          put SCOPE_RUN (run_id r) (Some (to_value (stopped (clock env i) r))) w w') as Hdone.
  { intros w3 w' Hp Hs. exists r, i. split_and!; [done..|]. intros a b. by rewrite Hs, Hp, (Hs2 a b), (Hs1 a b). }
  apply wp_bind, (wp_put_run (view := view)).
  2: { intros e w3 [Hs3|Hp]; [left; split; [done|]; intros a b; by rewrite Hs3, Hs2, Hs1|].
       right. eapply Hdone; [exact Hp|apply same_refl]. }
  intros w3 Hp. apply wp_bind, wp_bind, (wp_bus_call (view := view)). intros [v|e] w4 Hs4 _ _.
  2: { right. by eapply Hdone. }
  apply wp_ret. apply wp_bind, (wp_quiet (view := view)); [apply quiet_cascade|]. intros [] w5 Hs5.
  apply wp_ret. right. eapply Hdone; [exact Hp|by eapply same_trans].
Qed.

(** *** Reading *)

Lemma reads_wake sid w : same w (Wake.handle env sid w).2.
Proof.
  apply framed_none. unfold Wake.handle, run_id_for_session, Store.get_run, enqueue_tick. framed_tac.
Qed.

Lemma reads_status id w : same w (Status.handle env id w).2.
Proof. apply framed_none. unfold Status.handle. framed_tac. Qed.

Lemma reads_node_result id uid w : same w (Status.node_result env id uid w).2.
Proof. apply framed_none. unfold Status.node_result. framed_tac. Qed.

(** *** What holds of the record along a sweep *)

Definition cfg_ok : Prop := in_range 0 u32_max (max_node_retries (cfg env)).

Lemma action_refire now c a : action now c = Refire a -> state c = NRunning /\ a = (retries c + 1)%Z /\ (retries c < max_node_retries (cfg env))%Z.
Proof.
  unfold action, timeout_action. destruct (state c); try done. destruct (negb _); [done|].
  destruct (Z.ltb_spec (retries c) (max_node_retries (cfg env))); by intros [= <-].
Qed.

Lemma action_failout now c : action now c = FailOut -> state c = NRunning /\ (max_node_retries (cfg env) <= retries c)%Z.
Proof.
  unfold action, timeout_action. destruct (state c); try done. destruct (negb _); [done|].
  by destruct (Z.ltb_spec (retries c) (max_node_retries (cfg env))).
Qed.

Lemma swept_cp_idle now r uid c c1 : swept_cp now r uid c c1 -> state c <> NRunning -> c1 = c.
Proof.
  unfold swept_cp. intros Hs Hn. destruct (action now c) as [|a|] eqn:Ha; [done| |].
  - by apply action_refire in Ha as [? _].
  - by apply action_failout in Ha as [? _].
Qed.

Lemma swept_cp_state now r uid c c1 :
  swept_cp now r uid c c1 -> state c1 = state c \/ (state c = NRunning /\ state c1 = Failed).
Proof.
  unfold swept_cp. destruct (action now c) as [|a|] eqn:Ha.
  - intros ->. by left.
  - apply action_refire in Ha as [Hc _]. intros [[_ ->]|(_ & t & i & ->)]; left; [done|by rewrite Hc].
  - apply action_failout in Ha as [Hc _]. intros ->. by right.
Qed.

Lemma swept_cp_retries now r uid c c1 :
  swept_cp now r uid c c1 ->
  retries c1 = retries c \/ (retries c1 = (retries c + 1)%Z /\ (retries c < max_node_retries (cfg env))%Z).
Proof.
  unfold swept_cp. destruct (action now c) as [|a|] eqn:Ha; [intros ->; by left| |intros ->; by left].
  apply action_refire in Ha as (_ & -> & Hlt). intros [[_ ->]|(_ & t & i & ->)]; by right.
Qed.

Lemma swept_cp_ok now r uid c c1 : clock_ok env -> cfg_ok -> swept_cp now r uid c c1 -> cp_ok c -> cp_ok c1.
Proof.
  intros Hck Hcfg Hs [Hp Ht Hr]. pose proof (swept_cp_retries _ _ _ _ _ Hs) as Hret.
  assert (in_range 0 u32_max (retries c1)) as Hr1.
  { unfold cfg_ok, in_range in *. destruct Hret as [->|[-> ?]]; lia. }
  unfold swept_cp in Hs. destruct (action now c) as [|a|]; [by subst| |by subst].
  destruct Hs as [[_ ->]|(_ & t & i & ->)]; split; try done. intros z [= <-]. apply Hck.
Qed.

Lemma swept_lookup now r2 rF u :
  swept_on now (btree_keys (run_nodes r2)) r2 rF ->
  match run_nodes r2 !! u with
  | Some c => exists c1, run_nodes rF !! u = Some c1 /\ swept_cp now r2 u c c1
  | None => run_nodes rF !! u = None
  end.
Proof.
  intros Hs. destruct (run_nodes r2 !! u) as [c|] eqn:Hc.
  - apply (so_nodes _ _ _ _ Hs); [|done]. apply elem_of_btree_keys. by rewrite Hc.
  - rewrite (so_other _ _ _ _ Hs); [done|]. rewrite elem_of_btree_keys, Hc. apply is_Some_None.
Qed.

Lemma swept_rec_ok def now r2 rF : swept_on now (btree_keys (run_nodes r2)) r2 rF -> rec_ok def r2 -> rec_ok def rF.
Proof.
  intros Hs. apply rec_ok_transfer; [by rewrite (so_fields _ _ _ _ Hs)| |].
  - intros u. pose proof (swept_lookup now r2 rF u Hs) as Hu. destruct (run_nodes r2 !! u).
    + destruct Hu as (c1 & -> & _). by split; eexists.
    + by rewrite Hu.
  - intros u. unfold uid_state. pose proof (swept_lookup now r2 rF u Hs) as Hu. destruct (run_nodes r2 !! u) as [c|].
    + destruct Hu as (c1 & -> & Hcp). simpl. intros [= Hp]. f_equal.
      destruct (swept_cp_state _ _ _ _ _ Hcp) as [<-|[_ ?]]; congruence.
    + by rewrite Hu.
Qed.

Lemma swept_run_num id now w w' def r rF : clock_ok env -> cfg_ok -> swept_run id now w w' def r rF -> num_ok rF.
Proof.
  intros Hck Hcfg [Hdec _ _ (w1 & r1 & results & r2 & _ & Hrc & Hld & Hsw & _ & _)].
  apply decode_Some in Hdec as [_ Hdec]. apply run_record_num in Hdec.
  apply (reconciled_num _ _ _ Hrc) in Hdec. apply (loaded_num _ _ _ _ Hld) in Hdec as [Hs Hn Hc Hu].
  rewrite (so_fields _ _ _ _ Hsw). split; try done. cbn [set_nodes run_nodes]. intros u c1 Hc1.
  pose proof (swept_lookup now r2 rF u Hsw) as Hl. destruct (run_nodes r2 !! u) as [c|] eqn:Hcu; [|congruence].
  destruct Hl as (c2 & Hc2 & Hcp). simplify_eq. eapply swept_cp_ok; [done|done|exact Hcp|]. by eapply Hn.
Qed.

Lemma swept_run_rec_ok id now w w' def r rF : swept_run id now w w' def r rF -> forall d, rec_ok d r -> rec_ok d rF.
Proof.
  intros [_ _ _ (w1 & r1 & results & r2 & _ & Hrc & Hld & Hsw & _ & _)] d Hr.
  eapply swept_rec_ok; [exact Hsw|]. eapply loaded_rec_ok; [exact Hld|]. by eapply reconciled_rec_ok.
Qed.

(** A node that still runs once it was polled is as it was. *)
Lemma running_untouched wb r r1 rp results uid c : reconciled (view := view) wb r r1 -> loaded (view := view) wb r1 rp results ->
  run_nodes rp !! uid = Some c -> state c = NRunning -> run_nodes r !! uid = Some c.
Proof.
  intros Hrc Hld Hc Hs. pose proof (ld_nodes _ _ _ _ Hld uid) as H2. pose proof (rc_nodes _ _ _ Hrc uid) as H1.
  destruct (run_nodes r1 !! uid) as [c1|] eqn:Hc1; [|congruence]. rewrite Hc in H2. injection H2 as H2.
  destruct (run_nodes r !! uid) as [c0|] eqn:Hc0; [|congruence].
  destruct H1 as (c2 & [= <-] & Hp & _). destruct (_ && _); [by subst c|]. subst c. by destruct Hp.
Qed.

(** The nodes of the swept record, from those of the stored one. *)
Lemma swept_run_node id now w w' def r rF uid c :
  swept_run id now w w' def r rF -> run_nodes r !! uid = Some c ->
  exists w1 c1 c2 c3, grows (view := view) w w1 /\ grows (view := view) w1 w' /\ polled (view := view) w1 (run_id r) uid c c1
    /\ (state c <> NRunning -> c1 = c) /\ (c2 = c1 \/ (state c1 = Done /\ c2 = mark c1)) /\
    swept_cp now r uid c2 c3 /\ run_nodes rF !! uid = Some c3.
Proof.
  intros [_ _ _ (w1 & r1 & results & r2 & [_ He] & Hrc & Hld & Hsw & (w2 & [_ He2] & Hp) & _)] Hc.
  pose proof (rc_nodes _ _ _ Hrc uid) as H1. rewrite Hc in H1. destruct H1 as (c1 & Hc1 & Hpl & Hidle).
  pose proof (ld_nodes _ _ _ _ Hld uid) as H2. rewrite Hc1 in H2.
  set (c2 := if needs_result c1 && is_null (read_result (view := view) w1 (run_id r1) uid) then mark c1 else c1) in *.
  pose proof (swept_lookup now r2 rF uid Hsw) as H3. rewrite H2 in H3. destruct H3 as (c3 & Hc3 & Hcp).
  exists w1, c1, c2, c3. split_and!; [done| |done|done| | |done].
  - eapply grows_trans; [exact He2|]. by eapply put_grows.
  - unfold c2. destruct (_ && _) eqn:Hm; [right|by left]. split; [|done].
    apply andb_true_iff in Hm as [Hm _]. unfold needs_result in Hm. by destruct (state c1).
  - assert (r2 = set_nodes (run_nodes r2) r) as Hf by (rewrite (ld_fields _ _ _ _ Hld) at 1; by rewrite (rc_fields _ _ _ Hrc) at 1).
    unfold swept_cp in *. rewrite Hf in Hcp. cbn [set_nodes abort run_id] in Hcp. exact Hcp.
Qed.

Lemma swept_run_new id now w w' def r rF uid c3 :
  swept_run id now w w' def r rF -> run_nodes rF !! uid = Some c3 -> is_Some (run_nodes r !! uid).
Proof.
  intros [_ _ _ (w1 & r1 & results & r2 & _ & Hrc & Hld & Hsw & _ & _)] Hc.
  apply (reconciled_dom _ _ _ uid Hrc), (loaded_dom _ _ _ _ uid Hld).
  pose proof (swept_lookup now r2 rF uid Hsw) as H3. destruct (run_nodes r2 !! uid); [by eexists|congruence].
Qed.

Lemma swept_run_res_ok id now w w' def r rF : swept_run id now w w' def r rF -> res_ok (view := view) w r -> res_ok (view := view) w' rF.
Proof.
  intros Hsw Hr uid c3 Hc3 Hd. destruct (swept_run_new _ _ _ _ _ _ _ _ _ Hsw Hc3) as [c Hc].
  destruct (swept_run_node _ _ _ _ _ _ _ _ _ Hsw Hc) as (w1 & c1 & c2 & c3' & Hg1 & Hg2 & Hp & _ & H2 & H3 & Hl).
  rewrite Hl in Hc3. injection Hc3 as ->.
  assert (run_id rF = run_id r) as -> by (destruct Hsw as [_ _ _ (? & ? & ? & ? & ? & ? & ? & ? & ? & ?)]; done).
  assert (state c2 = Done) as Hd2 by (destruct (swept_cp_state _ _ _ _ _ H3) as [<-|[_ ?]]; congruence).
  assert (c3 = c2) as -> by (eapply swept_cp_idle; [exact H3|by rewrite Hd2]).
  destruct H2 as [->|[_ ->]]; [|done].
  destruct Hp as [|Hst|e|]; try done.
  - destruct (Hr uid c Hc Hd) as [Hk Hs]. split; [done|]. by apply Hg2, Hg1.
  - split; [done|]. by apply Hg2.
Qed.

End Rules.
End SweepRules.

(** ** Properties *)

Module SweepProperties.
Import Ids Dag Store StoreRules Events Reconcile Tick TickRules Timeout Sweep SweepRules.

Section Any.
Context {St : Type} `{StateBus St} {view : St -> string -> string -> option Value}.
Context {Laws : StateBusLaws St view} `{SerdeText} (env : Env).
Implicit Types (w : World St).
Abbreviation stored := (stored (view := view)).
Abbreviation same := (same (view := view)).
Abbreviation keyed := (keyed (view := view)).
Abbreviation run_of := (TickProperties.run_of (view := view)).

Lemma put_read (r : WorkflowRunRecord) w w' :
  num_ok r -> put (view := view) SCOPE_RUN (run_id r) (Some (to_value r)) w w' ->
  stored w' SCOPE_RUN (run_id r) = Some (to_value r) /\ run_of w' (run_id r) = Some (canon r).
Proof.
  intros Hn Hp. assert (stored w' SCOPE_RUN (run_id r) = Some (to_value r)) as Hs by (rewrite Hp; by rewrite decide_True).
  split; [done|]. apply TickProperties.run_of_decode, decode_stored. exists (to_value r).
  split_and!; [done|done|by apply run_record_canon].
Qed.

Lemma swept_stored id now w w' def r rF :
  clock_ok env -> cfg_ok env -> keyed w -> swept_run (view := view) env id now w w' def r rF ->
  run_id r = id /\ run_id rF = id /\ stored w' SCOPE_RUN id = Some (to_value rF) /\ run_of w' id = Some (canon rF).
Proof.
  intros Hck Hcfg Hk Hsw. pose proof (swept_run_num env id now w w' def r rF Hck Hcfg Hsw) as Hn.
  destruct Hsw as [Hdec _ _ (w1 & r1 & results & r2 & _ & _ & _ & _ & (w2 & _ & Hp) & Hid)].
  apply decode_stored in Hdec as (v & Hv & _ & Hf). pose proof (Hk id v r Hv Hf) as Hr.
  assert (run_id rF = id) as HidF by congruence. destruct (put_read rF w2 w' Hn Hp) as [Hs Ho]. rewrite HidF in *. done.
Qed.

Lemma swept_frame id now w w' def r rF :
  keyed w -> swept_run (view := view) env id now w w' def r rF ->
  frame (view := view) (own_keys id) w w' /\ grows (view := view) w w'.
Proof.
  intros Hk [Hdec _ _ (w1 & r1 & results & r2 & [He Hg] & _ & _ & _ & (w2 & [He2 Hg2] & Hp) & Hid)].
  apply decode_stored in Hdec as (v & Hv & _ & Hf). pose proof (Hk id v r Hv Hf) as Hr. rewrite Hid, Hr in *. split.
  - intros a b Hn. assert (~ aux_keys id a b) as Hna by (intros Ha; apply Hn; by right).
    rewrite Hp, decide_False by (intros [-> ->]; apply Hn; by left). by rewrite He2, He.
  - intros a b Hab. apply (put_grows _ _ _ _ _ Hp). by apply Hg2, Hg.
Qed.

(** The node has run at least as long as it may. *)
Definition overdue (now : Z) (c : NodeCheckpoint) : Prop :=
  (default (default_pending_timeout_ms (cfg env)) (pending_timeout_ms c) <= Z.max (now - default now (pending_at c)) 0)%Z.

(** After the epoch the saturating subtraction is exact. *)
Lemma action_overdue now c :
  (0 <= now <= i64_max)%Z -> (forall t, pending_at c = Some t -> 0 <= t <= i64_max)%Z -> state c = NRunning ->
  (overdue now c /\ action env now c <> StillWaiting) \/ (~ overdue now c /\ action env now c = StillWaiting).
Proof.
  intros Hnow Hp Hs. unfold action, timeout_action, overdue. rewrite Hs.
  assert (saturating_sub_i64 now (default now (pending_at c)) = now - default now (pending_at c))%Z as ->.
  { unfold saturating_sub_i64, i64_min, i64_max in *. destruct (pending_at c) as [t|]; unfold from_option, id.
    - specialize (Hp t eq_refl). lia.
    - lia. }
  destruct (Z.leb_spec (default (default_pending_timeout_ms (cfg env)) (pending_timeout_ms c))
              (Z.max (now - default now (pending_at c)) 0)) as [Hle|Hlt]; cbn [negb].
  - left. split; [done|]. by destruct (_ <? _)%Z.
  - right. split; [lia|done].
Qed.

(** What the deadline of a node makes of its checkpoint [c], in a run of which [l] are the calls that
    are made for it. *)
Record deadline_enforced (def : WorkflowDef) (r : WorkflowRunRecord) (uid : string) (now : Z) (l : list Call) (c c' : NodeCheckpoint) : Prop := {
  de_idle : state c <> NRunning -> c' = c;
  de_early : state c = NRunning -> ~ overdue now c -> c' = c;
  de_refired : state c = NRunning -> overdue now c -> (retries c < max_node_retries (cfg env))%Z -> abort r = false ->
    (exists turn i, c' = mk_cp NRunning (Some (attempt_session (run_id r) uid (retries c + 1))) turn None None (Some (clock env i))
                           (pending_timeout_ms c) (retries c + 1)) /\
    sends def r uid (retries c + 1) l;
  de_stopping : state c = NRunning -> overdue now c -> (retries c < max_node_retries (cfg env))%Z -> abort r = true ->
    c' = set_retries (retries c + 1) c;
  de_failed : state c = NRunning -> overdue now c -> (max_node_retries (cfg env) <= retries c)%Z ->
    c' = set_cp_error (Some "node_timeout") (set_state Failed c);
}.

Lemma swept_deadline def r uid now l c c' :
  (0 <= now <= i64_max)%Z -> (forall t, pending_at c = Some t -> 0 <= t <= i64_max)%Z -> swept_cp env now r uid c c' ->
  (forall a, action env now c = Refire a -> abort r = false -> sends def r uid a l) -> deadline_enforced def r uid now l c c'.
Proof.
  intros Hnow Hp Hs Hl. split.
  - by eapply swept_cp_idle.
  - intros Hr Hov. destruct (action_overdue now c Hnow Hp Hr) as [[? _]|[_ Ha]]; [done|]. unfold swept_cp in Hs. by rewrite Ha in Hs.
  - intros Hr Hov Hlt Hab. destruct (action_overdue now c Hnow Hp Hr) as [[_ Ha]|[? _]]; [|done]. unfold swept_cp in Hs.
    destruct (action env now c) as [|a|] eqn:Hac; [done| |apply action_failout in Hac; lia]. pose proof Hac as Hac'. apply action_refire in Hac as (_ & -> & _).
    destruct Hs as [[? _]|[_ Hs]]; [congruence|]. split; [done|]. by apply Hl.
  - intros Hr Hov Hlt Hab. destruct (action_overdue now c Hnow Hp Hr) as [[_ Ha]|[? _]]; [|done]. unfold swept_cp in Hs.
    destruct (action env now c) as [|a|] eqn:Hac; [done| |apply action_failout in Hac; lia]. apply action_refire in Hac as (_ & -> & _).
    destruct Hs as [[_ Hs]|[? _]]; [done|congruence].
  - intros Hr Hov Hge. destruct (action_overdue now c Hnow Hp Hr) as [[_ Ha]|[? _]]; [|done]. unfold swept_cp in Hs.
    destruct (action env now c) as [|a|] eqn:Hac; [done|apply action_refire in Hac; lia|done].
Qed.

(** C36: a sweep that takes effect enforces the deadlines of a run.  It polls the harness for the nodes that run and
    loads the results of those that are done; of each node as it is then, one that does not run,
    and one within its deadline, stays as it is; an overdue one with attempts left is sent to the
    harness again, in the session of its next attempt and with a new deadline (in a run that is
    being stopped the attempt is only counted); an overdue one without is failed.  The status
    and the step of the run do not change, and no node comes or goes. *)
Theorem sweep_enforces_deadlines id now w w1 r :
  clock_ok env -> cfg_ok env -> keyed w -> (0 <= now <= i64_max)%Z -> run_of w id = Some r ->
  (forall uid c t, run_nodes r !! uid = Some c -> pending_at c = Some t -> 0 <= t)%Z ->
  sweep_one_run env id now w = (Ok true, w1) ->
  let wa := (get_def env id (get_run env id w).2).2 in
  exists def r1 wb results rp wc l r',
    same w wa /\ reconcile_run env r wa = (Ok r1, wb) /\ load_done_results env r1 wb = (Ok (results, rp), wc) /\
    calls w1 = calls wc ++ l /\
    run_of w1 id = Some r' /\ status r' = status r /\ step r' = step r /\ abort r' = abort r /\
    forall uid, match run_nodes rp !! uid with
                | Some c => exists c', run_nodes r' !! uid = Some c' /\ deadline_enforced def r uid now l c c'
                | None => run_nodes r' !! uid = None
                end.
Proof.
  intros Hck Hcfg Hk Hnow Hr Hpos He. destruct (sweep_in_steps (view := view) env id now w w1 He) as (def & r0 & r1 & rp & rF & [Hsw Hp Hon]).
  pose proof (sw_record _ _ _ _ _ _ _ _ Hsw) as Hr0. apply TickProperties.run_of_decode in Hr0. assert (r0 = r) as -> by congruence.
  destruct Hp as (wb & wc & results & Hsa & Hrec & Hload & Hrc & Hld & l & Hl & Hsends).
  pose proof (swept_stored id now w w1 def r rF Hck Hcfg Hk Hsw) as (Hid & _ & _ & Hread). rewrite Hid in Hsa, Hrec.
  assert (num_ok r) as Hnum by (apply TickProperties.run_of_decode, decode_Some in Hr as [_ Hr]; by apply run_record_num in Hr).
  assert (rp = set_nodes (run_nodes rp) r) as Hfp by (rewrite (ld_fields _ _ _ _ Hld) at 1; by rewrite (rc_fields _ _ _ Hrc) at 1).
  assert (rF = set_nodes (run_nodes rF) r) as HfF by (rewrite (so_fields _ _ _ _ _ Hon) at 1; by rewrite Hfp at 1).
  exists def, r1, wb, results, rp, wc, l, (canon rF). split_and!; [done|done|done|done|done|by rewrite HfF..|].
  intros uid. change (run_nodes (canon rF)) with (run_nodes rF). pose proof (swept_lookup env now rp rF uid Hon) as Hu.
  destruct (run_nodes rp !! uid) as [c|] eqn:Hc; [|done]. destruct Hu as (c' & Hc' & Hcp). exists c'. split; [done|].
  rewrite Hfp in Hcp. destruct (decide (state c = NRunning)) as [Hrun|Hidle].
  - assert (run_nodes r !! uid = Some c) as Hrc0 by by eapply running_untouched.
    apply swept_deadline; [done| |done|].
    + intros t Ht. split; [by eapply Hpos|]. destruct (num_nodes _ Hnum uid c Hrc0) as [Hp1 _ _]. apply (Hp1 t Ht).
    + intros a Ha Hab. rewrite Hfp in Hsends. by apply (Hsends uid c a Hc).
  - split; try done. intros _. by eapply swept_cp_idle.
Qed.

(** Deleting a run leaves no orphans, wherever it is interrupted: only rows of the run
    disappear, and either its record is still there, so that the next sweep finds it, or every
    row its record names is gone with it; a deletion that succeeds is of the second kind. *)
Theorem deletion_leaves_no_orphans (r : WorkflowRunRecord) w :
  shrinks (view := view) (run_keys r) w (delete_run env r w).2 /\
  ((is_ok (delete_run env r w).1 = false /\
    stored (delete_run env r w).2 SCOPE_RUN (run_id r) = stored w SCOPE_RUN (run_id r)) \/
   (forall a b, run_keys r a b -> stored (delete_run env r w).2 a b = None)).
Proof. exact (wp_delete_run (view := view) env r w). Qed.

Lemma abort_decides def r : abort r = true -> tick_decide def r = Finalize RCancelled.
Proof. unfold tick_decide. by intros ->. Qed.

(** A stopped run ends: once [workflow::stop] has answered, the next tick that takes
    effect, whatever the nodes did meanwhile, leaves the run cancelled with no node running. *)
Theorem stopped_run_ends_cancelled env' id n w w1 w2 :
  clock_ok env -> clock_ok env' -> keyed w ->
  Stop.handle env id w = (Ok true, w1) -> Tick.handle env' id n w1 = (Ok false, w2) ->
  exists r, run_of w2 id = Some r /\ status r = RCancelled /\ forall uid, uid_state r uid <> Some NRunning.
Proof.
  intros Hck Hck' Hk He1 He2. pose proof (wp_stop (view := view) env id w) as Hw. unfold wp in Hw. rewrite He1 in Hw.
  cbn [fst snd] in Hw. destruct Hw as [[? _]|(r & i & Hdec & _ & Hp)]; [done|].
  apply decode_stored in Hdec as (v & Hv & _ & Hf). pose proof (Hk id v r Hv Hf) as Hid.
  assert (num_ok (stopped (clock env i) r)) as Hn.
  { apply run_record_num in Hf as [Hs Hno Hc Hu]. split; first [done | apply Hck]. }
  change (run_id r) with (run_id (stopped (clock env i) r)) in Hp, Hid.
  destruct (put_read _ _ _ Hn Hp) as [Hsto Hread]. rewrite Hid in Hsto, Hread, Hp.
  assert (keyed w1) as Hk1.
  { intros k v' r' Hv' Hr'. rewrite Hp in Hv'. destruct (decide _) as [[_ ->]|]; [|by eapply Hk].
    apply (inj Some) in Hv'. subst v'. rewrite (run_record_canon _ Hn) in Hr'. by injection Hr' as <-. }
  pose proof (TickProperties.handle_cases env' id n w1 Hk1) as Hc. rewrite He2 in Hc.
  destruct Hc as [_ [[? _]|(def & r0 & rF & Hst)]]; [done|].
  pose proof (stepped_stored env' id n w1 w2 def r0 rF Hck' Hk1 Hst) as (_ & _ & _ & Hdec2).
  destruct Hst as [Hrec _ _ (w3 & r1 & results & r2 & ids & r3 & _ & Hrc & Hld & Hex & Ha & _ & _)].
  apply TickProperties.run_of_decode in Hrec, Hdec2. assert (r0 = canon (stopped (clock env i) r)) as -> by congruence.
  assert (abort r3 = true) as Hab.
  { apply expand_pass in Hex as [Hpa _]. rewrite (pa_fields _ _ _ Hpa), (ld_fields _ _ _ _ Hld), (rc_fields _ _ _ Hrc). done. }
  exists (canon rF). split; [done|]. destruct (acted_status env' _ _ _ _ Ha) as [[_ Hrun]|Haw].
  - split; [|exact Hrun]. unfold acted in Ha. rewrite (abort_decides def r3 Hab) in Ha. by destruct Ha as [j ->].
  - unfold acted in Ha. rewrite (abort_decides def r3 Hab) in Ha. by destruct Ha as [j ->].
Qed.

(** A wake is never wasted on the wrong run: it stores nothing, and when it answers that
    it woke a run, that run is the one its session is indexed under, is stored and not
    terminal, and the one call made is a tick that the run will not take for stale. *)
Theorem wake_targets_live_run sid w w1 :
  Wake.handle env sid w = (Ok true, w1) ->
  same w w1 /\ exists id r, stored w SCOPE_INDEX sid = Some (Str id) /\ run_of w id = Some r /\
    is_terminal (status r) = false /\
    calls w1 = calls w ++ [mk_call "workflow::tick" (json_obj [("run_id", Str id); ("step", enc_u (succ_u64 (step r)))]) (Enqueue "default")] /\
    ((step r < u64_max)%Z -> tick_is_stale (succ_u64 (step r)) (step r) (is_terminal (status r)) = false).
Proof.
  intros He. pose proof (reads_wake (view := view) env sid w) as Hs. rewrite He in Hs. split; [done|].
  cut (wp (Wake.handle env sid) (λ res w', res = Ok true -> exists id r, stored w SCOPE_INDEX sid = Some (Str id) /\
    run_of w id = Some r /\ is_terminal (status r) = false /\
    calls w' = calls w ++ [mk_call "workflow::tick" (json_obj [("run_id", Str id); ("step", enc_u (succ_u64 (step r)))]) (Enqueue "default")] /\
    ((step r < u64_max)%Z -> tick_is_stale (succ_u64 (step r)) (step r) (is_terminal (status r)) = false)) w).
  { unfold wp. rewrite He. intros Hw. by apply Hw. }
  unfold Wake.handle. destruct (negb _); [by apply wp_ret|].
  apply wp_bind, wp_bind, (wp_state_get (view := view)); [|done]. intros w2 Hs2 Hc2. apply wp_lift.
  destruct (string_row _ _) as [[id|]|e] eqn:Hrow; [|by apply wp_ret|done].
  assert (stored w SCOPE_INDEX sid = Some (Str id)) as Hidx.
  { destruct (stored w SCOPE_INDEX sid) as [v|]; [|done]. by destruct v; simplify_eq/=. }
  apply wp_bind, (wp_get_run (view := view)); [|done]. intros [r|] w3 Hr Hs3 Hc3; [|by apply wp_ret].
  rewrite (Hs2 _ _) in Hr. destruct (is_terminal (status r)) eqn:Ht; [by apply wp_ret|].
  apply wp_bind, wp_bind, (wp_bus_call (view := view)). intros [v|e] w4 _ _ Hc4; [|done].
  apply wp_ret, wp_ret. intros _. exists id, r. split_and!; [done|by apply TickProperties.run_of_decode|done| |].
  - rewrite (Hc4 eq_refl). by rewrite Hc3, Hc2.
  - intros Hlt. apply decode_Some in Hr as [_ Hr]. apply run_record_num in Hr as [[Hst _] _ _ _].
    unfold tick_is_stale, succ_u64, u64_max in *. rewrite Z.mod_small by lia. rewrite Ht, orb_false_r. apply Z.ltb_ge. lia.
Qed.

End Any.

Lemma obj_get_opt_insert k k' o m :
  obj_get k (StampReply.opt_insert k' o m) = if decide (k = k') then match o with Some v => Some v | None => obj_get k m end else obj_get k m.
Proof.
  unfold StampReply.opt_insert. destruct o as [v|]; [rewrite obj_get_insert|]; by destruct (decide (k = k')).
Qed.

(** The caller of a workflow cannot be forged: when the hook knows the calling session and
    the call has an argument object, the arguments it hands on name that session as the caller;
    a reply target, where the agent asked for one, has the session, model, provider and policy
    of the envelope and none of the agent's, only the agent's template; every other argument is
    as the agent gave it. *)
Theorem caller_identity_stamped (e : StampReply.StampReplyEvent) sid cid m :
  StampReply.se_session_id e = Some sid -> sid <> EmptyString ->
  StampReply.se_call e = Some (StampReply.mk_stamp_call cid (Obj m)) ->
  exists m', StampReply.decide e = StampReply.mk_stamp "continue" (Some (Obj m')) /\
    obj_get "caller_session_id" m' = Some (Str sid) /\
    (forall k, k <> "caller_session_id" -> k <> "reply_to" -> obj_get k m' = obj_get k m) /\
    match obj_get "reply_to" m with
    | None => obj_get "reply_to" m' = None
    | Some given => exists rep, obj_get "reply_to" m' = Some (Obj rep) /\
        obj_get "session_id" rep = Some (Str sid) /\
        obj_get "model" rep = Str <$> StampReply.non_empty (StampReply.se_model e) /\
        obj_get "provider" rep = Str <$> StampReply.non_empty (StampReply.se_provider e) /\
        obj_get "functions" rep = StampReply.se_functions e /\
        obj_get "template" rep = vget "template" given /\
        forall k, k ∉ ["session_id"; "model"; "provider"; "functions"; "template"] -> obj_get k rep = None
    end.
Proof.
  intros Hs Hne Hc. unfold StampReply.decide, StampReply.cont. rewrite Hs, Hc.
  assert (StampReply.non_empty (Some sid) = Some sid) as ->.
  { cbn. destruct (is_empty sid) eqn:Hz; [|done]. by destruct sid. }
  change (default Null (StampReply.sc_arguments <$> Some (StampReply.mk_stamp_call cid (Obj m)))) with (Obj m).
  cbv beta iota zeta. rewrite (obj_get_insert_ne "reply_to" "caller_session_id") by done. eexists. split; [reflexivity|].
  destruct (obj_get "reply_to" m) as [given|] eqn:Hr.
  - split_and!.
    + by rewrite obj_get_insert_ne, obj_get_insert_eq.
    + intros k H1 H2. by rewrite !obj_get_insert_ne.
    + rewrite obj_get_insert_eq. eexists. split; [reflexivity|]. rewrite !obj_get_opt_insert, !obj_get_insert.
      cbn [decide]. repeat (rewrite decide_False by done || rewrite decide_True by done). simpl.
      split_and!; try by repeat case_match.
      intros k Hk. rewrite !not_elem_of_cons in Hk. rewrite !obj_get_opt_insert, !decide_False by tauto.
      simpl. by rewrite decide_False by tauto.
  - split_and!; [by rewrite obj_get_insert_eq|intros k H1 _; by rewrite obj_get_insert_ne|].
    by rewrite obj_get_insert_ne.
Qed.

(** *** Concrete instances *)

Abbreviation Ctx := (Service.StateCtx Kv.KvStore).
#[local] Instance text : SerdeText := SampleText.text.
#[local] Instance bus : StateBus Ctx := service_bus (H := ServiceProperties.memory).
Abbreviation see := TickProperties.see.
#[local] Instance bus_laws : StateBusLaws Ctx see := service_bus_laws (Laws := ServiceProperties.memory_laws).
Abbreviation env0 := TickProperties.env0.

(** A run whose node [plan] has been running since time 100, in a session that is indexed. *)
Definition sid0 : string := attempt_session "r_1" "plan" 0.
Definition cp0 : NodeCheckpoint := mk_cp NRunning (Some sid0) None None None (Some 100%Z) None 0.
Definition waiting : WorkflowRunRecord := set_status AwaitingNodes (with_cp "plan" cp0 TickProperties.run0).

Definition ww : World Ctx :=
  let kv1 := (Kv.set SCOPE_DEF "r_1" (to_value TypesProperties.sample_def) ServiceProperties.empty_kv).2 in
  let kv2 := (Kv.set SCOPE_RUN "r_1" (to_value waiting) kv1).2 in
  let kv3 := (Kv.set SCOPE_INDEX sid0 (Str "r_1") kv2).2 in
  mk_world (Service.with_adapter kv3 ServiceProperties.sample_ctx) [] 0.

Lemma ww_runs k : stored (view := see) ww SCOPE_RUN k = if decide (k = "r_1") then Some (to_value waiting) else None.
Proof.
  unfold stored, see. cbn [st ww Service.with_adapter Service.adapter]. unfold Kv.get.
  destruct (decide (k = "r_1")) as [->|Hne]; [vm_compute; reflexivity|].
  match goal with |- match ?m !! _ with _ => _ end = _ =>
    assert (m !! SCOPE_RUN = Some [("r_1", to_value waiting)]) as -> by (vm_compute; reflexivity) end.
  simpl. by rewrite decide_False.
Qed.

Lemma ww_read : from_value (to_value waiting) = Some waiting.
Proof. vm_compute. reflexivity. Qed.

Lemma ww_keyed : keyed (view := see) ww.
Proof.
  intros k v r Hv Hr. rewrite ww_runs in Hv. destruct (decide (k = "r_1")) as [->|]; [|done].
  apply (inj Some) in Hv. subst v. rewrite ww_read in Hr. by injection Hr as <-.
Qed.

Definition ws : World Ctx := (sweep_one_run env0 "r_1" 5000 ww).2.

(** The node is overdue and is sent again; the answer of the harness to the poll says nothing. *)
Lemma sweep_enforces_deadlines_witness :
  exists r' c', TickProperties.run_of (view := see) ws "r_1" = Some r' /\ run_nodes r' !! "plan" = Some c' /\
    state c' = NRunning /\ retries c' = 1%Z /\ session_id c' = Some (attempt_session "r_1" "plan" 1).
Proof.
  destruct (sweep_enforces_deadlines (view := see) env0 "r_1" 5000 ww ws waiting)
    as (def & r1 & wb & results & rp & wc & l & r' & _ & Hrec & Hload & _ & Hr & _ & _ & _ & Hn).
  - exact TickProperties.env0_clock.
  - split; vm_compute; discriminate.
  - exact ww_keyed.
  - split; vm_compute; discriminate.
  - vm_compute. reflexivity.
  - intros uid c t Hc Ht. cbn [waiting with_cp set_status set_nodes run_nodes TickProperties.run0] in Hc.
    apply lookup_insert_Some in Hc as [[_ <-]|[_ Hc]]; [|by rewrite lookup_empty in Hc].
    injection Ht as <-. lia.
  - assert ((sweep_one_run env0 "r_1" 5000 ww).1 = Ok true) as He by (vm_compute; reflexivity).
    unfold ws. rewrite <-He. by destruct (sweep_one_run env0 "r_1" 5000 ww).
  - specialize (Hn "plan").
    assert (run_nodes rp !! "plan" = Some cp0) as Hp.
    { vm_compute in Hrec. injection Hrec as <- <-. vm_compute in Hload. injection Hload as _ <- _. vm_compute. reflexivity. }
    rewrite Hp in Hn. destruct Hn as (c' & Hc' & Hd). exists r', c'. split; [exact Hr|]. split; [exact Hc'|].
    destruct (de_refired _ _ _ _ _ _ _ _ Hd) as [(turn & i & ->) _];
      [reflexivity|vm_compute; discriminate|vm_compute; reflexivity|reflexivity|]. split; [reflexivity|]. split; reflexivity.
Defined.

Lemma deletion_leaves_no_orphans_witness :
  (delete_run env0 waiting ww).1 = Ok tt /\
  stored (view := see) (delete_run env0 waiting ww).2 SCOPE_RUN "r_1" = None /\
  stored (view := see) (delete_run env0 waiting ww).2 SCOPE_INDEX sid0 = None.
Proof.
  destruct (deletion_leaves_no_orphans (view := see) env0 waiting ww) as [_ [[He _]|Hgone]].
  - vm_compute in He. discriminate He.
  - split; [vm_compute; reflexivity|]. split; apply Hgone; [by right|].
    left; left. exists "plan", cp0. split; [vm_compute; reflexivity|by right].
Defined.

Definition wstop : World Ctx := (Stop.handle env0 "r_1" ww).2.
Definition wdone : World Ctx := (Tick.handle env0 "r_1" 1 wstop).2.

Lemma stopped_run_ends_cancelled_witness :
  exists r, TickProperties.run_of (view := see) wdone "r_1" = Some r /\ status r = RCancelled.
Proof.
  destruct (stopped_run_ends_cancelled (view := see) env0 env0 "r_1" 1 ww wstop wdone) as (r & Hr & Hs & _).
  - exact TickProperties.env0_clock.
  - exact TickProperties.env0_clock.
  - exact ww_keyed.
  - vm_compute. reflexivity.
  - vm_compute. reflexivity.
  - exists r. split; [exact Hr|exact Hs].
Defined.

Lemma wake_targets_live_run_witness :
  exists id, stored (view := see) ww SCOPE_INDEX sid0 = Some (Str id).
Proof.
  destruct (wake_targets_live_run (view := see) env0 sid0 ww (Wake.handle env0 sid0 ww).2) as (_ & id & r & Hi & _).
  - vm_compute. reflexivity.
  - exists id. exact Hi.
Defined.

Lemma caller_identity_stamped_witness :
  exists m', StampReply.decide (StampReply.mk_stamp_event (Some "s_me") None None None
      (Some (StampReply.mk_stamp_call None (json_obj [("reply_to", json_obj [("session_id", Str "s_other")])]))) None)
    = StampReply.mk_stamp "continue" (Some (Obj m')) /\ obj_get "caller_session_id" m' = Some (Str "s_me").
Proof.
  destruct (caller_identity_stamped (StampReply.mk_stamp_event (Some "s_me") None None None
      (Some (StampReply.mk_stamp_call None (json_obj [("reply_to", json_obj [("session_id", Str "s_other")])]))) None)
      "s_me" None [("reply_to", json_obj [("session_id", Str "s_other")])]) as (m' & Hd & Hc & _).
  - reflexivity.
  - discriminate.
  - vm_compute. reflexivity.
  - exists m'. split; [exact Hd|exact Hc].
Defined.

End SweepProperties.
