(* ===== verification/WfStart.v ===== *)
(** * Starting a run (workflow/src/functions/start.rs)

    [workflow::start] parses an untrusted definition (one error lists every problem of its
    shape), folds the nodes a node reads into its dependencies, validates the graph, answers a
    repeated idempotency key with the run it started, checks the models against the router's
    catalog, bounds the nesting of workflows, stores the definition and the record, and
    enqueues the first tick. *)

From Stdlib Require Import Ascii ZArith Lia.
From S2P Require Import Prelude Json StateStore StateService WfTypes WfDag WfBus WfTick.

Module Start.
Import Ids Dag Store.

Definition MAX_NODES : Z := 10000.
Definition MAX_IDEM_KEY_LEN : Z := 1024.
Definition SUPPORTED_DEF_VERSION : Z := 1.
Definition MAX_WORKFLOW_DEPTH : Z := 8.

(** A string between double quotes. *)
Definition quoted (s : string) : string := dq +:+ s +:+ dq.

(** ** The request *)

Record StartRequest : Type := mk_start {
  definition : WorkflowDef;
  sr_input : Value;
  idempotency_key : option string;
  sr_notify : option NotifySpec;
  sr_reply_to : option ReplySpec;
  sr_caller : option string;
}.

Definition SHAPE_HINT : string :=
  "Expected shape: {" +:+ quoted "definition" +:+ ":{" +:+ quoted "nodes" +:+ ":{" +:+ quoted "<id>" +:+ ":{"
  +:+ quoted "agent" +:+ ":{" +:+ quoted "model" +:+ ":" +:+ quoted "<id from router::models::list>" +:+ "},"
  +:+ quoted "input" +:+ ":{" +:+ quoted "from" +:+ ":" +:+ quoted "run_input" +:+ "}}},"
  +:+ quoted "output" +:+ ":{" +:+ quoted "from" +:+ ":" +:+ quoted "node:<id>" +:+ "}}}. `version` defaults to 1. "
  +:+ "Each node is {agent, input, depends_on?, fanout?}; a pure source node may omit `input` (defaults to run_input). "
  +:+ "Full field docs are inline in this function's request schema.".

Definition ALLOWED_DEF_KEYS : list string := ["version"; "nodes"; "output"; "default_functions"].
Definition ALLOWED_NODE_KEYS : list string := ["agent"; "input"; "depends_on"; "fanout"].
Definition ALLOWED_AGENT_KEYS : list string := ["model"; "provider"; "system_prompt"; "functions"; "output"].

(** A member that is there and not null. *)
Definition has_member (k : string) (m : Fields) : bool :=
  match obj_get k m with Some v => negb (is_null v) | None => false end.

(** The source-node [input] default. *)
Definition normalize_node (node : Value) : Value :=
  match node with
  | Obj n =>
      let has_deps := match v ← obj_get "depends_on" n; as_array v with Some (_ :: _) => true | _ => false end in
      if negb (has_member "input" n) && negb has_deps && negb (has_member "fanout" n)
      then Obj (obj_insert "input" (json_obj [("from", Str "run_input")]) n)
      else node
  | _ => node
  end.

Definition normalize_request (v : Value) : Value :=
  match v with
  | Obj obj =>
      let obj := if obj_has "definition" obj then obj
                 else match obj_get "workflow" obj with
                      | Some wf => obj_insert "definition" wf (obj_remove "workflow" obj)
                      | None => obj
                      end in
      match obj_get "definition" obj with
      | Some (Obj d) =>
          match obj_get "nodes" d with
          | Some (Obj ns) =>
              let ns := (λ p : string * Value, (p.1, normalize_node p.2)) <$> ns in
              Obj (obj_insert "definition" (Obj (obj_insert "nodes" (Obj ns) d)) obj)
          | _ => Obj obj
          end
      | _ => Obj obj
      end
  | _ => v
  end.

Definition json_type (v : Value) : string :=
  match v with
  | Null => "null" | Bool _ => "a boolean" | Num _ => "a number" | Str _ => "a string" | Arr _ => "an array"
  | Obj _ => "an object"
  end.

(** The keys that are not allowed, each with the hint its place calls for. *)
Definition unknown_keys (allowed elsewhere : list string) (m : Fields) (before : string -> string) (hint : string -> string)
  : list string :=
  omap (λ k, if decide (k ∈ allowed) then None
             else Some (before k +:+ (if decide (k ∈ elsewhere) then hint k else EmptyString))) (obj_keys m).

Definition collect_node_problems (id : string) (node : Value) : list string :=
  match node with
  | Obj n =>
      unknown_keys ALLOWED_NODE_KEYS ALLOWED_AGENT_KEYS n
        (λ k, "node `" +:+ id +:+ "`: unknown field `" +:+ k +:+ "`") (λ k, " — `" +:+ k +:+ "` goes inside `agent`")
      ++ match obj_get "agent" n with
         | None => ["node `" +:+ id +:+ "`: missing `agent` — {" +:+ quoted "model" +:+ ":"
                    +:+ quoted "<id from router::models::list>" +:+ "}"]
         | Some (Obj agent) =>
             unknown_keys ALLOWED_AGENT_KEYS ALLOWED_NODE_KEYS agent
               (λ k, "node `" +:+ id +:+ "`.agent: unknown field `" +:+ k +:+ "`")
               (λ k, " — `" +:+ k +:+ "` is a NODE-level field, not under `agent`")
             ++ (match m ← obj_get "model" agent; as_str m with
                 | Some s => if is_empty (trim s)
                             then ["node `" +:+ id +:+ "`.agent: missing `model` — an id from router::models::list"] else []
                 | None => ["node `" +:+ id +:+ "`.agent: missing `model` — an id from router::models::list"]
                 end)
         | Some other => ["node `" +:+ id +:+ "`.agent must be an object, not " +:+ json_type other]
         end
      ++ (if has_member "input" n then []
          else ["node `" +:+ id +:+ "`: missing `input` — where it reads from, e.g. {" +:+ quoted "from" +:+ ":"
                +:+ quoted "node:<dep>" +:+ "} (join) or {" +:+ quoted "from" +:+ ":" +:+ quoted "fanout_item"
                +:+ "} (fanout child)"])
  | _ => ["node `" +:+ id +:+ "` must be an object {agent, input, depends_on?, fanout?}, not " +:+ json_type node]
  end.

Definition collect_def_problems (v : Value) : list string :=
  match vget "definition" v with
  | None => ["missing `definition` — wrap the whole DAG (nodes, output) in a top-level `definition` object"]
  | Some (Obj def) =>
      (match obj_get "version" def with
       | Some ver => if decide (as_u64 ver = Some SUPPORTED_DEF_VERSION) then []
                     else ["`definition.version` must be " +:+ pretty SUPPORTED_DEF_VERSION +:+ " (or omit it to default)"]
       | None => []
       end)
      ++ unknown_keys ALLOWED_DEF_KEYS ALLOWED_NODE_KEYS def
           (λ k, "unknown field `" +:+ k +:+ "` at the definition level")
           (λ k, " — `" +:+ k +:+ "` is a NODE-level field; move it inside a node under `nodes`")
      ++ match obj_get "nodes" def with
         | None => ["missing `nodes` — an OBJECT keyed by node id: {" +:+ quoted "<id>" +:+ ": {agent, input, ...}}"]
         | Some (Obj []) => ["`nodes` is empty — add at least one node"]
         | Some (Obj ns) => concat ((λ p : string * Value, collect_node_problems p.1 p.2) <$> ns)
         | Some other => ["`nodes` must be an OBJECT keyed by node id, not " +:+ json_type other]
         end
      ++ match obj_get "output" def with
         | None => ["missing `output` — {" +:+ quoted "from" +:+ ":" +:+ quoted "node:<id>"
                    +:+ "}: which node's result the run returns"]
         | Some _ => []
         end
  | Some def => ["`definition` must be an object, not " +:+ json_type def]
  end.

Definition format_problems (problems : list string) : string :=
  let n := length problems in
  "workflow::start: the `definition` has " +:+ show_nat n +:+ " problem"
  +:+ (if decide (n = 1) then EmptyString else "s") +:+ ":"
  +:+ foldr (λ pr acc, nl +:+ "  - " +:+ pr +:+ acc) EmptyString problems +:+ nl +:+ SHAPE_HINT.

(** Why a request is not parsed: the problems of its shape, or serde's own error. *)
Inductive RequestError : Type := Problems (msg : string) | Serde.

(** The typed parse; [workflow] is an alias of [definition], and serde refuses both at once. *)
Definition start_request_raw (v : Value) : option StartRequest :=
  m ← as_object v;
  if obj_has "definition" m && obj_has "workflow" m then None
  else
    d ← (match obj_get "definition" m with Some d => from_value d | None => v ← obj_get "workflow" m; from_value v end);
    let i := default Null (obj_get "input" m) in
    k ← opt "idempotency_key" as_str m; n ← opt "notify" from_value m; r ← opt "reply_to" from_value m;
    c ← opt "caller_session_id" as_str m; Some (mk_start d i k n r c).

(** [StartRequest::deserialize]. *)
Definition start_request (v : Value) : result StartRequest RequestError :=
  let v := normalize_request v in
  match collect_def_problems v with
  | [] => match start_request_raw v with Some r => Ok r | None => Err Serde end
  | problems => Err (Problems (format_problems problems))
  end.

(** ** Reads and dependencies *)

(** The node a [node:<id>.<path>] source reads. *)
Definition ref_of (src : string) : option string := before_char "." <$> strip_prefix "node:" src.

(** The nodes a node reads: through its input, then through its fan-out. *)
Definition node_refs (n : NodeDef) : list string :=
  omap ref_of (sources (in_from (input n))) ++ option_list (f ← fanout n; ref_of (over f)).

Definition push_dep (deps : list string) (r : string) : list string := if decide (r ∈ deps) then deps else deps ++ [r].

Definition add_reads (n : NodeDef) : NodeDef :=
  mk_node (agent n) (input n) (foldl push_dep (depends_on n) (node_refs n)) (fanout n).

Definition add_read_dependencies (def : WorkflowDef) : WorkflowDef :=
  mk_def (version def) (add_reads <$> nodes def) (output def) (default_functions def).

(** ** Static checks of a fan-out *)

Definition DYNAMIC_KEYS : list string :=
  ["additionalProperties"; "patternProperties"; "$ref"; "$dynamicRef"; "anyOf"; "oneOf"; "allOf"].

Definition schema_is_dynamic (schema : Value) : bool :=
  existsb (λ k, match vget k schema with Some _ => true | None => false end) DYNAMIC_KEYS.

Definition proven_nonarray_type (schema : Value) : option string :=
  if schema_is_dynamic schema then None
  else match vget "type" schema with
       | Some (Str t) => if decide (t = "array") then None else Some t
       | Some (Arr types) =>
           let names := omap as_str types in
           if decide (names = []) then None
           else if decide ("array" ∈ names) then None
           else Some (join "|" names)
       | _ => None
       end.

(** The walk of [fanout_over_proven_nonarray] into the declared schema. *)
Fixpoint walk_schema (segs : list string) (cur : Value) : option Value :=
  match segs with
  | [] => Some cur
  | seg :: rest =>
      if schema_is_dynamic cur then None
      else props ← vget "properties" cur; sub ← vget seg props; walk_schema rest sub
  end.

Definition json_output (o : Value) : bool := bool_decide ((t ← vget "type" o; as_str t) = Some "json").

Definition fanout_over_proven_nonarray (def : WorkflowDef) (ov : string) : option string :=
  path ← strip_prefix "node:" ov;
  let '(node_id, walk) := over_segments path in
  dep ← nodes def !! node_id;
  out ← output_contract (agent dep);
  if negb (json_output out) then None
  else
    schema ← vget "schema" out;
    if negb (is_object schema) then None
    else leaf ← walk_schema walk schema; proven_nonarray_type leaf.

(** ** Validation *)

(** The first item with a problem. *)
Fixpoint check_all {A} (f : A -> option string) (l : list A) : result unit WorkflowError :=
  match l with
  | [] => Ok tt
  | x :: l' => match f x with Some msg => Err (InvalidDef msg) | None => check_all f l' end
  end.

Definition then_ok (a b : result unit WorkflowError) : result unit WorkflowError :=
  match a with Ok _ => b | Err e => Err e end.

Definition reject (b : bool) (msg : string) : result unit WorkflowError := if b then Err (InvalidDef msg) else Ok tt.

Section Validate.
Context `{SerdeText}.

Definition check_id (id : string) : option string :=
  if contains_char "#" id || contains_char "." id || contains_char "/" id
  then Some ("node id '" +:+ id +:+ "' must not contain '#', '.', or '/'") else None.

Definition check_model (p : string * NodeDef) : option string :=
  if is_empty (trim (model (agent p.2))) then Some ("node '" +:+ p.1 +:+ "': agent.model must not be empty") else None.

Definition check_functions (p : string * NodeDef) : option string :=
  match functions (agent p.2) with
  | None | Some Null | Some (Obj _) | Some (Str _) => None
  | Some (Arr items) =>
      (λ bad, "node '" +:+ p.1 +:+ "': agent.functions must be an array of function-id strings; found a non-string element ("
              +:+ to_string bad +:+ ")") <$> List.find (λ v, negb (is_string v)) items
  | Some other =>
      Some ("node '" +:+ p.1 +:+ "': agent.functions must be an allow-list array (e.g. [" +:+ quoted "web::fetch"
            +:+ "]), a string, or a FunctionPolicy object; got " +:+ to_string other)
  end.

Definition check_schema (p : string * NodeDef) : option string :=
  match output_contract (agent p.2) with
  | Some out =>
      if json_output out then
        match vget "schema" out with
        | Some (Obj schema) =>
            let has_type := match t ← obj_get "type" schema; as_str t with
                            | Some t => negb (is_empty (trim t))
                            | None => false
                            end in
            if has_type then None
            else Some ("node '" +:+ p.1 +:+ "': agent.output is type " +:+ quoted "json" +:+ " but its schema has no top-level "
                       +:+ quoted "type" +:+ " — an empty/typeless schema is rejected by the provider ("
                       +:+ quoted "input_schema.type: Field required" +:+ "). Use a real JSON Schema, e.g. {"
                       +:+ quoted "type" +:+ ":" +:+ quoted "object" +:+ "," +:+ quoted "properties" +:+ ":{...}}.")
        | _ => None
        end
      else None
  | None => None
  end.

(** The nodes another node reads; the order in which the hash set is walked is not fixed. *)
Definition must_have_json_output (def : WorkflowDef) : gset string :=
  list_to_set (n ← btree_values (nodes def); option_list (f ← fanout n; ref_of (over f)) ++ omap ref_of (sources (in_from (input n)))).

Definition check_json (def : WorkflowDef) (dep_id : string) : option string :=
  match nodes def !! dep_id with
  | None => Some ("node '" +:+ dep_id +:+ "' referenced but not defined")
  | Some dep =>
      if match output_contract (agent dep) with Some o => json_output o | None => false end then None
      else Some ("node '" +:+ dep_id +:+ "' is consumed by a fanout or node input but does not declare agent.output.type == "
                 +:+ quoted "json")
  end.

Definition check_fanout (def : WorkflowDef) (p : string * NodeDef) : option string :=
  f ← fanout p.2;
  leaf_type ← fanout_over_proven_nonarray def (over f);
  let dep := default (over f) (before_char "." <$> strip_prefix "node:" (over f)) in
  Some ("node '" +:+ p.1 +:+ "': fanout.over = " +:+ quoted (over f) +:+ " resolves to a " +:+ leaf_type +:+ " in node '" +:+ dep
        +:+ "'s declared output schema, but a fanout iterates an ARRAY. Point `over` at a field that node '" +:+ dep
        +:+ "'s agent.output schema declares as {" +:+ quoted "type" +:+ ":" +:+ quoted "array"
        +:+ "}. (To run several agents over ONE value — e.g. several critics over one draft — fan out over a list of lenses"
        +:+ " and pass the value as a separate input; don't fan out over the value itself.)").

Definition check_join (p : string * NodeDef) : option string :=
  match in_from (input p.2) with
  | Many srcs =>
      (λ src, "node '" +:+ p.1 +:+ "': input.from array entries must be node references like " +:+ quoted "node:<id>"
              +:+ "; got " +:+ quoted src) <$> List.find (λ s, negb (starts_with "node:" s)) srcs
  | One _ => None
  end.

(** A source with a dotted path. *)
Definition dotted (src : string) : bool :=
  match strip_prefix "node:" src with Some rest => contains_char "." rest | None => false end.

Definition check_bare (p : string * NodeDef) : option string :=
  (λ src, "node '" +:+ p.1 +:+ "': input.from = " +:+ quoted src +:+ " must reference a whole node result as "
          +:+ quoted ("node:" +:+ default EmptyString (ref_of src))
          +:+ " — a dotted path is only valid on fanout.over, and here it silently resolves to null at runtime. Drop the path suffix.")
    <$> List.find dotted (sources (in_from (input p.2))).

Definition check_consumed (p : string * NodeDef) : option string :=
  (λ dep,
     let reads := match in_from (input p.2) with One s => quoted s | Many v => "[" +:+ join ", " v +:+ "]" end in
     let fan := match fanout p.2 with Some f => ", fanout.over = " +:+ quoted (over f) | None => EmptyString end in
     "node '" +:+ p.1 +:+ "' depends_on '" +:+ dep +:+ "' but never consumes it (input.from = " +:+ reads +:+ fan
     +:+ "). A declared dependency whose output is not read is silently dropped; read it via input.from (use an array like ["
     +:+ quoted ("node:" +:+ dep) +:+ ", …] to join several deps) or remove it from depends_on.")
    <$> List.find (λ dep, bool_decide (dep ∉ node_refs p.2)) (depends_on p.2).

Definition lift_cycle (r : result unit string) : result unit WorkflowError :=
  match r with Ok _ => Ok tt | Err e => Err (InvalidDef e) end.

Definition validate_def (def : WorkflowDef) : result unit WorkflowError :=
  let count := Z.of_nat (size (nodes def)) in
  let out_id := default (out_from (output def)) (strip_prefix "node:" (out_from (output def))) in
  let ns := btree_iter (nodes def) in
  then_ok (reject (negb (version def =? SUPPORTED_DEF_VERSION)%Z)
             ("unsupported definition version " +:+ pretty (version def) +:+ " (expected " +:+ pretty SUPPORTED_DEF_VERSION +:+ ")"))
  (then_ok (reject (MAX_NODES <? count)%Z
              ("definition has " +:+ pretty count +:+ " nodes (max " +:+ pretty MAX_NODES +:+ ")"))
  (then_ok (check_all check_id (btree_keys (nodes def)))
  (then_ok (reject (match nodes def !! out_id with Some _ => false | None => true end)
              ("output.from references unknown node '" +:+ out_id +:+ "'"))
  (then_ok (check_all check_model ns)
  (then_ok (check_all check_functions ns)
  (then_ok (check_all check_schema ns)
  (then_ok (check_all (check_json def) (elements (must_have_json_output def)))
  (then_ok (check_all (check_fanout def) ns)
  (then_ok (check_all check_join ns)
  (then_ok (check_all check_bare ns)
  (then_ok (check_all check_consumed ns)
           (lift_cycle (validate_acyclic def))))))))))))).

End Validate.

(** ** Models *)

(** [provider.as_deref().map(str::trim).filter(|p| !p.is_empty())]. *)
Definition pinned (n : NodeDef) : option string :=
  p ← provider (agent n); let p := trim p in if is_empty p then None else Some p.

(** What [unknown_models] adds for a node. *)
Definition unknown_model (registered : gset (string * string)) (n : NodeDef) : option string :=
  let ids : gset string := set_map snd registered in
  let m := trim (model (agent n)) in
  if is_empty m then None
  else match pinned n with
       | Some p => if decide ((p, m) ∈ registered) then None else Some (m +:+ " (provider " +:+ p +:+ ")")
       | None => if decide (m ∈ ids) then None else Some m
       end.

Definition unknown_models (def : WorkflowDef) (registered : gset (string * string)) : list string :=
  btree_set_iter (list_to_set (omap (unknown_model registered) (btree_values (nodes def)))).

(** [{:?}] of a string: quotes, backslashes and control characters are escaped; the bytes of
    printable characters are kept. *)
Definition hex_digit (n : Z) : string :=
  String (ascii_of_N (Z.to_N (if (n <? 10)%Z then 48 + n else 87 + n)%Z)) EmptyString.
Definition hex (n : Z) : string := (if (16 <=? n)%Z then hex_digit (n / 16) else EmptyString) +:+ hex_digit (n mod 16)%Z.

Fixpoint debug_chars (s : string) : string :=
  match s with
  | EmptyString => EmptyString
  | String c s' =>
      let code := ascii_code c in
      (if decide (code = 34)%Z then Tick.backslash +:+ dq
       else if decide (code = 92)%Z then Tick.backslash +:+ Tick.backslash
       else if decide (code = 10)%Z then Tick.backslash +:+ "n"
       else if decide (code = 13)%Z then Tick.backslash +:+ "r"
       else if decide (code = 9)%Z then Tick.backslash +:+ "t"
       else if decide (code = 0)%Z then Tick.backslash +:+ "0"
       else if ((code <? 32) || (code =? 127))%Z then Tick.backslash +:+ "u{" +:+ hex code +:+ "}"
       else String c EmptyString) +:+ debug_chars s'
  end.

Definition debug_list (l : list string) : string := "[" +:+ join ", " ((λ s, quoted (debug_chars s)) <$> l) +:+ "]".

(** A [(provider, id)] pair of the catalog. *)
Definition catalog_pair (m : Value) : option (string * string) :=
  i ← vget "id" m; id ← as_str i; p ← vget "provider" m; provider ← as_str p; Some (provider, id).

Definition catalog_of (resp : Value) : option (gset (string * string)) :=
  ms ← vget "models" resp; l ← as_array ms;
  let set : gset (string * string) := list_to_set (omap catalog_pair l) in
  if decide (set = ∅) then None else Some set.

(** ** The handler *)

Definition scoped_idem_key (key : string) (caller_session_id : option string) : string :=
  default "_anon" caller_session_id +:+ "|" +:+ key.

Section Handler.
Context {St : Type} `{StateBus St} `{SerdeText} (env : Env).
Abbreviation M := (Prog St).

Definition fetch_registered_models : M (option (gset (string * string))) :=
  let! resp := attempt (bus_call env (mk_call "router::models::list" (Obj []) Sync)) in
  ret (match resp with Ok v => catalog_of v | Err _ => None end).

Definition validate_models (def : WorkflowDef) : M unit :=
  let! registered := fetch_registered_models in
  match registered with
  | None => ret tt
  | Some registered =>
      match unknown_models def registered with
      | [] => ret tt
      | unknown =>
          let available := btree_set_iter (set_map snd registered) in
          throw (InvalidDef ("unknown model(s) " +:+ debug_list unknown +:+ ": not registered on this engine. Available: "
                             +:+ join ", " available +:+ ". Discover with router::models::list."))
      end
  end.

(** The loop of [caller_workflow_depth]: it ends after [MAX_WORKFLOW_DEPTH + 1] rounds. *)
Fixpoint depth_loop (fuel : nat) (depth : Z) (cur : option string) : M Z :=
  match fuel, cur with
  | S fuel, Some sid =>
      let! parent := run_id_for_session env sid in
      match parent with
      | Some parent_run =>
          let depth := (depth + 1)%Z in
          if (MAX_WORKFLOW_DEPTH <? depth)%Z then ret depth
          else let! r := get_run env parent_run in depth_loop fuel depth (r ← r; caller_session_id r)
      | None => ret depth
      end
  | _, _ => ret depth
  end.

Definition caller_workflow_depth (caller : option string) : M Z :=
  depth_loop (Z.to_nat (MAX_WORKFLOW_DEPTH + 1)) 0 caller.

(** [new_run_id()], from the random source. *)
Definition fresh_run_id : M string := λ w, (Ok (new_run_id (uuid env (index w))), tick_index w).

Definition caller_of (req : StartRequest) : option string :=
  match sr_caller req with Some c => Some c | None => r ← sr_reply_to req; reply_session r end.

Definition initial_record (req : StartRequest) (run_id : string) (now : Z) : WorkflowRunRecord :=
  mk_run run_id 0 Running false run_id (sr_input req) ∅ ∅ None None (sr_notify req) (sr_reply_to req) (caller_of req) now now.

(** The idempotency short-circuit: the run a repeated key started. *)
Definition lookup_idem (req : StartRequest) : M (option string) :=
  match idempotency_key req with
  | None => ret None
  | Some key =>
      let len := Z.of_nat (String.length key) in
      if (MAX_IDEM_KEY_LEN <? len)%Z
      then throw (InvalidDef ("idempotency_key too long: " +:+ pretty len +:+ " bytes (max " +:+ pretty MAX_IDEM_KEY_LEN +:+ ")"))
      else get_idem env (scoped_idem_key key (caller_of req))
  end.

(** The text of an error ([Display] of [WorkflowError]). *)
Definition show_error (e : WorkflowError) : string :=
  match e with
  | InvalidDef m => "invalid workflow definition: " +:+ m
  | StateError m => "state error: " +:+ m
  | CallError m => "call error: " +:+ m
  | SerdeError => "serde error"
  end.

(** The record is stored: remember the key and enqueue the first tick, or mark the run failed. *)
Definition launch (req : StartRequest) (r : WorkflowRunRecord) : M string :=
  do! (match idempotency_key req with
       | Some key => put_idem env (scoped_idem_key key (caller_session_id r)) (run_id r)
       | None => ret tt
       end) in
  let! queued := attempt (enqueue_tick env (run_id r) 0) in
  match queued with
  | Ok _ => ret (run_id r)
  | Err e =>
      let! now := now_ms env in
      do! ignore (put_run env (set_updated now (set_error (Some ("failed to enqueue initial tick: " +:+ show_error e))
                                 (set_status RFailed r)))) in
      throw e
  end.

(** Stores the record of a run that may begin, and launches it. *)
Definition begin_run (req : StartRequest) (id : string) : M string :=
  let! now := now_ms env in
  let r := initial_record req id now in
  do! put_run env r in
  launch req r.

(** [workflow::start]; the answer is the run id. *)
Definition handle (req : StartRequest) : M string :=
  let def := add_read_dependencies (definition req) in
  do! lift (validate_def def) in
  let! existing := lookup_idem req in
  match existing with
  | Some id => ret id
  | None =>
      do! validate_models def in
      let! id := fresh_run_id in
      do! put_def env id def in
      let! depth := caller_workflow_depth (caller_of req) in
      if (MAX_WORKFLOW_DEPTH <? depth)%Z
      then throw (InvalidDef ("sub-workflow nesting depth " +:+ pretty depth +:+ " exceeds the cap of "
                              +:+ pretty MAX_WORKFLOW_DEPTH))
      else begin_run req id
  end.

End Handler.
End Start.

(** ** Rules *)

Module StartRules.
Import Ids Dag Store StoreRules TickRules Start.

Lemma check_all_ok {A} (f : A -> option string) l : check_all f l = Ok tt <-> forall x, x ∈ l -> f x = None.
Proof.
  induction l as [|x l IH]; simpl; [split; [by intros _ x ?%elem_of_nil|done]|].
  destruct (f x) eqn:Hx.
  - split; [done|]. intros Hall. by rewrite Hall in Hx by left.
  - rewrite IH. split; [|intros Hall y Hy; apply Hall; by right]. by intros Hall y [->|Hy]%elem_of_cons; [|apply Hall].
Qed.

Lemma then_ok_ok a b : then_ok a b = Ok tt <-> a = Ok tt /\ b = Ok tt.
Proof. destruct a as [[]|]; simpl; naive_solver. Qed.

Lemma reject_ok b msg : reject b msg = Ok tt <-> b = false.
Proof. by destruct b. Qed.

Lemma find_none {A} (f : A -> bool) l : List.find f l = None -> forall x, x ∈ l -> f x = false.
Proof. intros Hf x Hx. eapply List.find_none; [exact Hf|]. by apply list_elem_of_In. Qed.

(** *** Reads and dependencies *)

Lemma push_deps_spec refs deps :
  exists extra, foldl push_dep deps refs = deps ++ extra /\ forall d, d ∈ foldl push_dep deps refs <-> d ∈ deps \/ d ∈ refs.
Proof.
  revert deps. induction refs as [|r refs IH]; intros deps; simpl.
  - exists []. rewrite app_nil_r. split; [done|]. intros d. rewrite elem_of_nil. tauto.
  - destruct (IH (push_dep deps r)) as (extra & He & Hd). setoid_rewrite Hd. setoid_rewrite elem_of_cons.
    unfold push_dep in *. destruct (decide (r ∈ deps)) as [Hin|Hni].
    + exists extra. split; [done|]. intros d. split; [tauto|]. intros [?|[->|?]]; tauto.
    + exists (r :: extra). rewrite He, <-app_assoc. split; [done|]. intros d. rewrite elem_of_app, list_elem_of_singleton. tauto.
Qed.

Lemma push_deps_id refs deps : (forall r, r ∈ refs -> r ∈ deps) -> foldl push_dep deps refs = deps.
Proof.
  induction refs as [|r refs IH]; simpl; [done|]. intros Hall. unfold push_dep.
  rewrite decide_True by (apply Hall; by left). apply IH. intros x Hx. apply Hall. by right.
Qed.

Lemma add_reads_spec n :
  node_refs (add_reads n) = node_refs n /\
  (exists extra, depends_on (add_reads n) = depends_on n ++ extra) /\
  forall d, d ∈ depends_on (add_reads n) <-> d ∈ depends_on n \/ d ∈ node_refs n.
Proof.
  split; [done|]. destruct (push_deps_spec (node_refs n) (depends_on n)) as (extra & He & Hd).
  split; [by exists extra|exact Hd].
Qed.

Lemma add_reads_idem n : add_reads (add_reads n) = add_reads n.
Proof.
  destruct (add_reads_spec n) as (Hr & _ & Hd). unfold add_reads at 1. rewrite Hr.
  rewrite push_deps_id; [by destruct n|]. intros r Hin. apply Hd. by right.
Qed.

Lemma add_read_dependencies_idem def : add_read_dependencies (add_read_dependencies def) = add_read_dependencies def.
Proof.
  unfold add_read_dependencies at 1. cbn [nodes version output default_functions add_read_dependencies].
  rewrite <-map_fmap_compose. unfold add_read_dependencies. f_equal. apply map_fmap_ext. intros k n _. apply add_reads_idem.
Qed.

Lemma add_read_dependencies_node def id n' :
  nodes (add_read_dependencies def) !! id = Some n' -> exists n, nodes def !! id = Some n /\ n' = add_reads n.
Proof.
  cbn [add_read_dependencies nodes]. rewrite lookup_fmap. destruct (nodes def !! id) as [n|]; [|done].
  intros [= <-]. by exists n.
Qed.

Lemma add_read_dependencies_ok def : def_ok def -> def_ok (add_read_dependencies def).
Proof.
  intros [Hv Hn Hf]. split; [done| |done]. intros id n' Hn'.
  apply add_read_dependencies_node in Hn' as (n & Hi & ->). exact (Hn id n Hi).
Qed.

(** *** What validation gives *)

Section Valid.
Context `{SerdeText}.

Record valid (def : WorkflowDef) : Prop := {
  va_version : version def = SUPPORTED_DEF_VERSION;
  va_count : (Z.of_nat (size (nodes def)) <= MAX_NODES)%Z;
  va_ids : forall id n, nodes def !! id = Some n ->
    contains_char "#" id = false /\ contains_char "." id = false /\ contains_char "/" id = false;
  va_output : is_Some (nodes def !! output_node def);
  va_model : forall id n, nodes def !! id = Some n -> trim (model (agent n)) <> EmptyString;
  va_reads : forall id n ref, nodes def !! id = Some n -> ref ∈ node_refs n ->
    exists dep out, nodes def !! ref = Some dep /\ output_contract (agent dep) = Some out /\ json_output out = true;
  va_fanout : forall id n f, nodes def !! id = Some n -> fanout n = Some f -> fanout_over_proven_nonarray def (over f) = None;
  va_join : forall id n srcs src, nodes def !! id = Some n -> in_from (input n) = Many srcs -> src ∈ srcs ->
    starts_with "node:" src = true;
  va_bare : forall id n src, nodes def !! id = Some n -> src ∈ sources (in_from (input n)) -> dotted src = false;
  va_consumed : forall id n d, nodes def !! id = Some n -> d ∈ depends_on n -> d ∈ node_refs n;
  va_acyclic : validate_acyclic def = Ok tt;
}.

Lemma elem_must_have def ref :
  ref ∈ must_have_json_output def <-> exists id n, nodes def !! id = Some n /\ ref ∈ node_refs n.
Proof.
  unfold must_have_json_output, node_refs. rewrite elem_of_list_to_set, list_elem_of_bind. split.
  - intros (n & Hr & [id Hn]%elem_of_btree_values). exists id, n. split; [done|]. rewrite elem_of_app in *. tauto.
  - intros (id & n & Hn & Hr). exists n. rewrite elem_of_app in *. split; [tauto|]. apply elem_of_btree_values. by exists id.
Qed.

Lemma validate_def_valid def : validate_def def = Ok tt -> valid def.
Proof.
  unfold validate_def. rewrite !then_ok_ok, !check_all_ok, !reject_ok.
  intros (Hv & Hc & Hid & Ho & Hm & Hfn & Hsc & Hj & Hf & Hjn & Hb & Hcs & Ha).
  assert (forall (f : string * NodeDef -> option string), (forall p, p ∈ btree_iter (nodes def) -> f p = None) ->
            forall id n, nodes def !! id = Some n -> f (id, n) = None) as Hat.
  { intros f Hall id n Hn. apply Hall. by apply elem_of_btree_iter. }
  split.
  - apply negb_false_iff in Hv. by apply Z.eqb_eq in Hv.
  - by apply Z.ltb_ge in Hc.
  - intros id n Hn. assert (id ∈ btree_keys (nodes def)) as Hk by (apply elem_of_btree_keys; by rewrite Hn).
    specialize (Hid id Hk). unfold check_id in Hid.
    destruct (contains_char "#" id), (contains_char "." id), (contains_char "/" id); done.
  - fold (output_node def) in Ho. by destruct (nodes def !! output_node def).
  - intros id n Hn. pose proof (Hat _ Hm id n Hn) as Hx. unfold check_model in Hx. cbn [snd] in Hx.
    intros He. by rewrite He in Hx.
  - intros id n ref Hn Hr. assert (ref ∈ elements (must_have_json_output def)) as Hin.
    { apply elem_of_elements, elem_must_have. by exists id, n. }
    specialize (Hj ref Hin). unfold check_json in Hj. destruct (nodes def !! ref) as [dep|]; [|done].
    destruct (output_contract (agent dep)) as [out|] eqn:Hout; [|done]. exists dep, out. by destruct (json_output out).
  - intros id n f Hn Hfo. pose proof (Hat _ Hf id n Hn) as Hx. unfold check_fanout in Hx. cbn [snd] in Hx. rewrite Hfo in Hx.
    cbn [mbind option_bind] in Hx. by destruct (fanout_over_proven_nonarray def (over f)).
  - intros id n srcs src Hn Hi Hin. pose proof (Hat _ Hjn id n Hn) as Hx. unfold check_join in Hx. cbn [snd] in Hx. rewrite Hi in Hx.
    apply fmap_None in Hx. pose proof (find_none _ _ Hx src Hin) as Hs. by apply negb_false_iff in Hs.
  - intros id n src Hn Hin. pose proof (Hat _ Hb id n Hn) as Hx. unfold check_bare in Hx. cbn [snd] in Hx.
    apply fmap_None in Hx. exact (find_none _ _ Hx src Hin).
  - intros id n d Hn Hin. pose proof (Hat _ Hcs id n Hn) as Hx. unfold check_consumed in Hx. cbn [snd] in Hx.
    apply fmap_None in Hx. pose proof (find_none _ _ Hx d Hin) as Hs. apply bool_decide_eq_false in Hs.
    by destruct (decide (d ∈ node_refs n)).
  - destruct (validate_acyclic def) as [[]|]; done.
Qed.
End Valid.

(** *** The handler *)

Section Rules.
Context {St : Type} `{StateBus St} {view : St -> string -> string -> option Value}.
Context {Laws : StateBusLaws St view} `{SerdeText} (env : Env).
Implicit Types (w : World St).
Abbreviation stored := (stored (view := view)).
Abbreviation same := (same (view := view)).
Abbreviation put := (put (view := view)).

Lemma valid_ids_ok def : valid def -> ids_ok def.
Proof. intros Hv id n Hn. apply (va_ids _ Hv id n Hn). Qed.

Lemma string_row_some label v s : string_row label v = Ok (Some s) -> v = Str s.
Proof. destruct v; simpl; try done. by intros [= ->]. Qed.

Lemma string_row_none label v : string_row label v = Ok None -> v = Null.
Proof. by destruct v. Qed.

(** At least [n] runs in the ancestry of a session, as the store has it. *)
Inductive lineage w : option string -> nat -> Prop :=
| lineage_any cur : lineage w cur 0
| lineage_run sid id r n :
    stored w SCOPE_INDEX sid = Some (Str id) ->
    decode (default Null (stored w SCOPE_RUN id)) = Ok (Some r) -> lineage w (caller_session_id r) n ->
    lineage w (Some sid) (S n)
| lineage_gone sid id : stored w SCOPE_INDEX sid = Some (Str id) -> lineage w (Some sid) 1.

Lemma lineage_ext w w' cur n :
  (forall a b, a = SCOPE_INDEX \/ a = SCOPE_RUN -> stored w' a b = stored w a b) -> lineage w' cur n -> lineage w cur n.
Proof.
  intros Hs. induction 1 as [|? ? ? ? Hi Hr ? IH|? ? Hi]; [constructor| |].
  - rewrite (Hs _ _) in Hi by (by left). rewrite (Hs _ _) in Hr by (by right). by eapply lineage_run.
  - rewrite (Hs _ _) in Hi by (by left). by eapply lineage_gone.
Qed.

Lemma lineage_same w w' cur n : same w w' -> lineage w' cur n -> lineage w cur n.
Proof. intros Hs. apply lineage_ext. intros a b _. apply Hs. Qed.

Lemma wp_string_row sc k label (Q : _ -> _ -> Prop) w :
  (forall s w', stored w sc k = Some (Str s) -> same w w' -> calls w' = calls w -> Q (Ok (Some s)) w') ->
  (forall w', (stored w sc k = None \/ stored w sc k = Some Null) -> same w w' -> calls w' = calls w -> Q (Ok None) w') ->
  (forall e w', same w w' -> calls w' = calls w -> Q (Err e) w') ->
  wp (let! v := state_get env sc k in lift (string_row label v)) Q w.
Proof.
  intros HS HN HE. apply wp_bind, (wp_state_get (view := view)); [|done]. intros w' Hs Hc. apply wp_lift.
  destruct (string_row label _) as [[s|]|e] eqn:Hr; [| |by apply HE].
  - apply string_row_some in Hr. apply HS; [|done|done]. destruct (stored w sc k); [simpl in Hr; by f_equal|done].
  - apply string_row_none in Hr. apply HN; [|done|done]. destruct (stored w sc k); [right; simpl in Hr; by f_equal|by left].
Qed.

(** The loop counts the ancestry, up to one more than the cap; its fuel is enough. *)
Lemma wp_depth_loop fuel depth cur w :
  (depth + Z.of_nat fuel = MAX_WORKFLOW_DEPTH + 1)%Z ->
  wp (depth_loop env fuel depth cur)
     (λ res w', same w w' /\ calls w' = calls w /\
        match res with
        | Ok d => exists k, d = (depth + Z.of_nat k)%Z /\ k <= fuel /\ lineage w cur k /\
                    (k < fuel -> forall n, lineage w cur n -> n <= k)
        | Err _ => True
        end) w.
Proof.
  revert depth cur w. induction fuel as [|fuel IH]; intros depth cur w Hf; cbn [depth_loop].
  { apply wp_ret. split_and!; [apply same_refl|done|]. exists 0. split_and!; [lia|lia|constructor|lia]. }
  destruct cur as [sid|].
  2: { apply wp_ret. split_and!; [apply same_refl|done|]. exists 0. split_and!; [lia|lia|constructor|].
       intros _ n Hn. by inversion Hn. }
  apply wp_bind, wp_string_row; [|intros w1 Hi Hs1 Hc1|intros e w1 Hs1 Hc1; by split_and!].
  2: { apply wp_ret. split_and!; [done|done|]. exists 0. split_and!; [lia|lia|constructor|].
       intros _ n Hn. inversion Hn; subst; [done|..]; destruct Hi; congruence. }
  intros id w1 Hi Hs1 Hc1. destruct (Z.ltb_spec MAX_WORKFLOW_DEPTH (depth + 1)) as [Hlt|Hle].
  - apply wp_ret. split_and!; [done|done|]. exists 1. split_and!; [lia|lia|by eapply lineage_gone|lia].
  - apply wp_bind, (wp_get_run (view := view)); [|intros e w2 Hs2 Hc2; split_and!; [by eapply same_trans|congruence|done]].
    intros o w2 Ho Hs2 Hc2. rewrite (Hs1 _ _) in Ho. eapply wp_mono; [apply IH; lia|].
    intros res w3 (Hs3 & Hc3 & Hres). assert (same w w3) as Hs by (intros a b; by rewrite Hs3, Hs2, Hs1).
    split_and!; [done|congruence|]. destruct res as [d|]; [|done]. destruct Hres as (k & -> & Hk & Hlin & Hmax).
    assert (same w w2) as Hs02 by exact (same_trans _ _ _ Hs1 Hs2).
    apply (lineage_same w w2 _ _ Hs02) in Hlin. exists (S k). split_and!; [lia|lia| |].
    + destruct o as [r|]; [exact (lineage_run _ _ _ _ _ Hi Ho Hlin)|]. simpl in Hlin. inversion Hlin; subst. by eapply lineage_gone.
    + intros Hlt n Hn. inversion Hn as [|? id' r n' Hi' Hr' Hn'|]; subst; [lia| |lia].
      assert (id' = id) as -> by congruence. assert (o = Some r) as -> by congruence.
      assert (n' <= k); [|lia]. apply Hmax; [lia|].
      apply (lineage_same w2 w); [|exact Hn']. intros a b. by rewrite Hs02.
Qed.

Lemma wp_depth cur w :
  wp (caller_workflow_depth env cur)
     (λ res w', same w w' /\ calls w' = calls w /\
        match res with
        | Ok d => lineage w cur (Z.to_nat d) /\
                  ((d <= MAX_WORKFLOW_DEPTH)%Z -> forall n, lineage w cur n -> (Z.of_nat n <= MAX_WORKFLOW_DEPTH)%Z)
        | Err _ => True
        end) w.
Proof.
  eapply wp_mono; [apply wp_depth_loop; done|]. intros res w' (Hs & Hc & Hres). split_and!; [done|done|].
  destruct res as [d|]; [|done]. destruct Hres as (k & -> & Hk & Hlin & Hmax).
  rewrite Z.add_0_l, Nat2Z.id. split; [done|]. intros Hle n Hn.
  assert (n <= k); [|lia]. apply Hmax; [|done]. unfold MAX_WORKFLOW_DEPTH in *. lia.
Qed.

Lemma wp_validate_models def w (Q : _ -> _ -> Prop) :
  (forall w', same w w' -> Q (Ok tt) w') -> (forall e w', same w w' -> Q (Err e) w') -> wp (validate_models env def) Q w.
Proof.
  intros HOk HErr. apply wp_bind, wp_bind, wp_attempt, (wp_bus_call (view := view)). intros res w1 Hs1 _ _. apply wp_ret.
  destruct (match res with Ok v => _ | Err _ => _ end) as [reg|]; [|by apply HOk].
  destruct (unknown_models def reg); [by apply HOk|by apply HErr].
Qed.

(** *** What a start may store *)

Definition stored_def (req : StartRequest) : WorkflowDef := add_read_dependencies (definition req).

Definition idem_row (req : StartRequest) (b : string) : Prop :=
  exists key, idempotency_key req = Some key /\ b = scoped_idem_key key (caller_of req).

Definition failed_start (now : Z) (msg : string) (r : WorkflowRunRecord) : WorkflowRunRecord :=
  set_updated now (set_error (Some msg) (set_status RFailed r)).

Definition first_tick (id : string) : Call :=
  mk_call "workflow::tick" (json_obj [("run_id", Str id); ("step", enc_u 0)]) (Enqueue "default").

Lemma wp_launch req r w :
  caller_session_id r = caller_of req ->
  wp (launch env req r)
     (λ res w', (forall a b, ~ (a = SCOPE_RUN /\ b = run_id r) -> ~ (a = SCOPE_IDEM /\ idem_row req b) -> stored w' a b = stored w a b)
        /\ match res with
           | Ok id => id = run_id r /\ stored w' SCOPE_RUN (run_id r) = stored w SCOPE_RUN (run_id r) /\
               (forall b, idem_row req b -> stored w' SCOPE_IDEM b = Some (Str id)) /\ first_tick id ∈ calls w'
           | Err _ => stored w' SCOPE_RUN (run_id r) = stored w SCOPE_RUN (run_id r) \/
               exists i msg, stored w' SCOPE_RUN (run_id r) = Some (to_value (failed_start (clock env i) msg r))
           end) w.
Proof.
  intros Hcall. unfold launch. apply wp_bind.
  apply (wp_mono _ (λ res w1, (forall a b, ~ (a = SCOPE_IDEM /\ idem_row req b) -> stored w1 a b = stored w a b) /\
    match res with Ok _ => forall b, idem_row req b -> stored w1 SCOPE_IDEM b = Some (Str (run_id r)) | Err _ => True end)).
  { rewrite Hcall. destruct (idempotency_key req) as [key|] eqn:Hk.
    - assert (idem_row req (scoped_idem_key key (caller_of req))) as Hrow by (by exists key).
      assert (forall w1, put SCOPE_IDEM (scoped_idem_key key (caller_of req)) (Some (Str (run_id r))) w w1 ->
                forall a b, ~ (a = SCOPE_IDEM /\ idem_row req b) -> stored w1 a b = stored w a b) as Hfr.
      { intros w1 Hp a b Hn. rewrite Hp, decide_False; [done|]. intros [-> ->]. by apply Hn. }
      apply (wp_state_set (view := view)).
      + intros w1 Hp _. split; [by apply Hfr|]. intros b (key' & Hk' & ->). rewrite Hk in Hk'. injection Hk' as <-.
        rewrite Hp. by rewrite decide_True.
      + intros e w1 [Hs|Hp] _; (split; [|done]); [by intros a b _|by apply Hfr].
    - apply wp_ret. split; [done|]. intros b (key & Hk' & _). congruence. }
  intros [[]|e] w1 [Hf1 Hi1].
  2: { split; [intros a b _ Hn; by apply Hf1|]. left. apply Hf1. by intros [? _]. }
  assert (stored w1 SCOPE_RUN (run_id r) = stored w SCOPE_RUN (run_id r)) as Hr1 by (apply Hf1; by intros [? _]).
  apply wp_bind, wp_attempt, wp_bind, (wp_bus_call (view := view)). intros [v|e] w2 Hs2 _ Hc2.
  - apply wp_ret, wp_ret. split; [intros a b _ Hn; by rewrite Hs2, Hf1|]. split_and!; [done|by rewrite (Hs2 _ _)| |].
    + intros b Hb. by rewrite (Hs2 _ _), Hi1.
    + rewrite (Hc2 eq_refl). apply elem_of_app. right. by apply list_elem_of_singleton.
  - apply wp_bind, (wp_now (view := view)). intros i w3 Hs3 _.
    apply wp_bind, wp_ignore, (wp_state_set (view := view)); [intros w4 Hp _|intros e' w4 [Hs4|Hp] _]; apply wp_throw; (split;
      [intros a b Hn Hni; first [rewrite Hp, decide_False by (by intros [-> ->]; apply Hn)|rewrite Hs4]; by rewrite (Hs3 a b), (Hs2 a b), Hf1|]).
    1,3: right; eexists i, _; rewrite Hp; by rewrite decide_True.
    left. by rewrite (Hs4 _ _), (Hs3 _ _), (Hs2 _ _).
Qed.

Record launched (req : StartRequest) (id : string) w w' (r : WorkflowRunRecord) : Prop := {
  la_valid : valid (stored_def req);
  la_nested : forall n, lineage w (caller_of req) n -> (Z.of_nat n <= MAX_WORKFLOW_DEPTH)%Z;
  la_frame : forall a b, ~ ((a = SCOPE_DEF \/ a = SCOPE_RUN) /\ b = id) -> ~ (a = SCOPE_IDEM /\ idem_row req b) ->
    stored w' a b = stored w a b;
  la_def : stored w' SCOPE_DEF id = Some (to_value (stored_def req));
  la_run : stored w' SCOPE_RUN id = Some (to_value r);
  la_record : exists i, r = initial_record req id (clock env i) \/
    exists j msg, r = failed_start (clock env j) msg (initial_record req id (clock env i));
}.

Lemma wp_begin_run req id w w5 :
  valid (stored_def req) -> (forall n, lineage w (caller_of req) n -> (Z.of_nat n <= MAX_WORKFLOW_DEPTH)%Z) ->
  put SCOPE_DEF id (Some (to_value (stored_def req))) w w5 ->
  wp (begin_run env req id)
     (λ res w', match res with
        | Ok id' => id' = id /\ (exists i, launched req id w w' (initial_record req id (clock env i))) /\
            (forall b, idem_row req b -> stored w' SCOPE_IDEM b = Some (Str id)) /\ first_tick id ∈ calls w'
        | Err _ => put SCOPE_DEF id (Some (to_value (stored_def req))) w w' \/ exists r, launched req id w w' r
        end) w5.
Proof.
  intros Hv Hnest Hp5. apply wp_bind, (wp_now (view := view)). intros i w6 Hs6 _.
  assert (put SCOPE_DEF id (Some (to_value (stored_def req))) w w6) as Hp6 by (intros a b; by rewrite Hs6, Hp5).
  set (r := initial_record req id (clock env i)).
  assert (forall w7 r', put SCOPE_RUN id (Some (to_value r)) w6 w7 ->
    forall w8, (forall a b, ~ (a = SCOPE_RUN /\ b = id) -> ~ (a = SCOPE_IDEM /\ idem_row req b) -> stored w8 a b = stored w7 a b) ->
    stored w8 SCOPE_RUN id = Some (to_value r') ->
    (r' = r \/ exists j msg, r' = failed_start (clock env j) msg r) -> launched req id w w8 r') as Hla.
  { intros w7 r' Hp7 w8 Hf Hr Hrec. split; [done|done| | |done|by exists i].
    - intros a b Hn Hni. rewrite Hf; [|intros [-> ->]; apply Hn; by split; [right|]|done].
      rewrite Hp7, decide_False by (intros [-> ->]; apply Hn; by split; [right|]).
      rewrite Hp6, decide_False; [done|]. intros [-> ->]. apply Hn. by split; [left|].
    - rewrite Hf; [|by intros [? _]|by intros [? _]]. rewrite Hp7, decide_False by (by intros [? _]).
      rewrite Hp6. by rewrite decide_True. }
  apply wp_bind, (wp_put_run (view := view)).
  2: { intros e w7 [Hs7|Hp7]; [left; intros a b; by rewrite Hs7, Hp6|right].
       exists r. apply (Hla w7 r Hp7 w7); [done| |by left]. rewrite Hp7. by rewrite decide_True. }
  intros w7 Hp7. eapply wp_mono; [apply wp_launch; done|]. change (run_id r) with id. intros [id'|e] w8 [Hf Hres].
  - destruct Hres as (-> & Hr & Hi & Ht). split_and!; [done| |done|done]. exists i.
    apply (Hla w7 r Hp7 w8 Hf); [|by left]. rewrite Hr, Hp7. by rewrite decide_True.
  - right. destruct Hres as [Hr|(j & msg & Hr)].
    + exists r. apply (Hla w7 r Hp7 w8 Hf); [|by left]. rewrite Hr, Hp7. by rewrite decide_True.
    + exists (failed_start (clock env j) msg r). apply (Hla w7 _ Hp7 w8 Hf); [done|]. right. by exists j, msg.
Qed.

Lemma wp_start req w :
  wp (handle env req)
     (λ res w', match res with
        | Ok id => (same w w' /\ exists b, idem_row req b /\ stored w SCOPE_IDEM b = Some (Str id)) \/
            exists j i, id = new_run_id (uuid env j) /\ launched req id w w' (initial_record req id (clock env i)) /\
              (forall b, idem_row req b -> stored w' SCOPE_IDEM b = Some (Str id)) /\ first_tick id ∈ calls w'
        | Err _ => same w w' \/ exists j, let id := new_run_id (uuid env j) in
            put SCOPE_DEF id (Some (to_value (stored_def req))) w w' \/ exists r, launched req id w w' r
        end) w.
Proof.
  unfold handle. fold (stored_def req). apply wp_bind, wp_lift.
  destruct (validate_def (stored_def req)) as [[]|e] eqn:Hv; [|by left; apply same_refl]. apply validate_def_valid in Hv.
  apply wp_bind. apply (wp_mono _ (λ res w1, same w w1 /\ match res with
    | Ok (Some id) => exists b, idem_row req b /\ stored w SCOPE_IDEM b = Some (Str id)
    | _ => True end)).
  { unfold lookup_idem. destruct (idempotency_key req) as [key|] eqn:Hk; [|apply wp_ret; split; [apply same_refl|done]].
    destruct (_ <? _)%Z; [apply wp_throw; split; [apply same_refl|done]|].
    apply wp_string_row; [|by intros|by intros]. intros s w1 Hs Hsame _. split; [done|].
    eexists. split; [by exists key|done]. }
  intros [[id|]|e] w1 [Hs1 Hidem]; [apply wp_ret; by left| |by left].
  apply wp_bind, wp_validate_models; [intros w2 Hs2|intros e w2 Hs2; left; exact (same_trans _ _ _ Hs1 Hs2)].
  assert (same w w2) as Hs02 by exact (same_trans _ _ _ Hs1 Hs2). apply wp_bind.
  change (fresh_run_id env) with (λ w : World St, (Ok (A := string) (E := WorkflowError) (new_run_id (uuid env (index w))), tick_index w)).
  unfold wp at 1. cbn [fst snd]. set (id := new_run_id (uuid env (index w2))).
  assert (same w (tick_index w2)) as Hs03 by exact Hs02. generalize dependent (tick_index w2). intros w3 Hs03.
  assert (forall w4, put SCOPE_DEF id (Some (to_value (stored_def req))) w3 w4 -> put SCOPE_DEF id (Some (to_value (stored_def req))) w w4) as Hput.
  { intros w4 Hp a b. by rewrite Hp, Hs03. }
  apply wp_bind, (wp_state_set (view := view)).
  2: { intros e w4 [Hs4|Hp] _; [left; exact (same_trans _ _ _ Hs03 Hs4)|right]. exists (index w2). left. by apply Hput. }
  intros w4 Hp4 _. apply Hput in Hp4. clear Hput. apply wp_bind. eapply wp_mono; [apply wp_depth|].
  intros [d|e] w5 (Hs5 & _ & Hd).
  2: { right. exists (index w2). left. intros a b. by rewrite Hs5, Hp4. }
  assert (put SCOPE_DEF id (Some (to_value (stored_def req))) w w5) as Hp5 by (intros a b; by rewrite Hs5, Hp4).
  destruct (Z.ltb_spec MAX_WORKFLOW_DEPTH d) as [Hlt|Hle]; [apply wp_throw; right; exists (index w2); by left|].
  assert (forall n, lineage w (caller_of req) n -> (Z.of_nat n <= MAX_WORKFLOW_DEPTH)%Z) as Hnest.
  { intros n Hn. destruct Hd as [_ Hd]. apply (Hd Hle). apply (lineage_ext w4 w); [|exact Hn].
    intros a b Hab. rewrite Hp4, decide_False; [done|]. intros [-> _]. by destruct Hab. }
  eapply wp_mono; [by apply wp_begin_run|]. intros [id'|e] w8 Hres.
  - destruct Hres as (-> & [i Hla] & Hi & Ht). right. by exists (index w2), i.
  - right. by exists (index w2).
Qed.

End Rules.

End StartRules.

(** ** Properties *)

Module StartProperties.
Import Ids Dag Store StoreRules TickRules Start StartRules.

(** *** Requests *)

Lemma raw_def_ok v req : start_request_raw v = Some req -> def_ok (definition req).
Proof.
  unfold start_request_raw. intros Hr. destruct (as_object v) as [m|]; [|done]. cbn [mbind option_bind] in Hr.
  destruct (_ && _); [done|].
  destruct (match obj_get "definition" m with Some d => _ | None => _ end) as [d|] eqn:Hd; [|done].
  assert (def_ok d) as Hok.
  { destruct (obj_get "definition" m); [by eapply workflow_def_read|].
    destruct (obj_get "workflow" m) as [u|]; [|done]. by eapply workflow_def_read. }
  cbn [mbind option_bind] in Hr. repeat (apply bind_Some in Hr as (? & _ & Hr)). by injection Hr as <-.
Qed.

Lemma start_request_ok v req : start_request v = Ok req -> def_ok (definition req).
Proof.
  unfold start_request. destruct (collect_def_problems _); [|done].
  destruct (start_request_raw _) eqn:Hr; [|done]. intros [= <-]. by eapply raw_def_ok.
Qed.

(** *** Definitions *)

Section Definitions.
Context `{SerdeText}.

(** C32: a definition [workflow::start] accepts can be scheduled: its ids hold none of the
    separators the worker builds keys with, it is small enough, its output node is one of its
    nodes, its dependencies name nodes of it and have no cycle, and after the reads are folded
    in, the dependencies of a node are exactly the nodes it reads, each of which promises JSON;
    folding them in again changes nothing. *)
Theorem accepted_definition_schedulable (d : WorkflowDef) :
  let def := add_read_dependencies d in
  validate_def def = Ok tt ->
  add_read_dependencies def = def /\ closed def /\ acyclic def /\ ids_ok def /\
  (Z.of_nat (size (nodes def)) <= MAX_NODES)%Z /\ is_Some (nodes def !! output_node def) /\
  (forall id n, nodes def !! id = Some n ->
     contains_char "." id = false /\ contains_char "/" id = false /\
     (exists given extra, nodes d !! id = Some given /\ depends_on n = depends_on given ++ extra) /\
     (forall x, x ∈ depends_on n <-> x ∈ node_refs n) /\
     forall x, x ∈ node_refs n -> exists dep out,
       nodes def !! x = Some dep /\ output_contract (agent dep) = Some out /\ json_output out = true).
Proof.
  intros def Hv. apply validate_def_valid in Hv. destruct (proj1 (validate_acyclic_spec def) (va_acyclic _ Hv)) as [Hc Ha].
  split_and!; [apply add_read_dependencies_idem|done|done|by apply valid_ids_ok|apply Hv|apply Hv|].
  intros id n Hn. destruct (va_ids _ Hv id n Hn) as (_ & Hdot & Hslash).
  destruct (add_read_dependencies_node d id n Hn) as (given & Hg & ->).
  destruct (add_reads_spec given) as (Hr & [extra He] & Hd). split_and!; [done|done|by exists given, extra| |].
  - intros x. split; [by apply (va_consumed _ Hv id)|]. intros Hx. apply Hd. right. by rewrite Hr in Hx.
  - intros x Hx. by apply (va_reads _ Hv id (add_reads given)).
Qed.

(** No node runs before what it reads: in a run of an accepted definition, every node the
    frontier names, and every item of a fan-out it names, reads only nodes that are done. *)
Theorem reads_are_done_before_firing (d : WorkflowDef) (r : WorkflowRunRecord) uid :
  let def := add_read_dependencies d in
  validate_def def = Ok tt -> uid ∈ ready_frontier def r ->
  exists id n, nodes def !! id = Some n /\ before_char "#" uid = id /\
    forall src, src ∈ node_refs n -> dep_done def r src = true.
Proof.
  intros def Hv Hu. apply validate_def_valid in Hv. pose proof Hu as Hu0.
  apply elem_of_ready_frontier in Hu as (id & n & Hn & Hf). exists id, n. split; [done|].
  pose proof (valid_ids_ok _ Hv id n Hn) as Hid.
  pose proof Hf as Hf0. apply elem_of_node_frontier in Hf as [Hdd Hshape]. split.
  - destruct (fanout n).
    + destruct Hshape as (items & i & _ & _ & -> & _). by apply before_hash_uid.
    + destruct Hshape as [-> _]. by apply (before_hash_uid id None).
  - intros src Hsrc. apply deps_done_spec in Hdd as [_ Hdd]. apply (Hdd src).
    unfold edge, deps_of. rewrite Hn. destruct (add_read_dependencies_node d id n Hn) as (given & _ & ->).
    destruct (add_reads_spec given) as (Hr & _ & Hd). apply Hd. right. by rewrite Hr in Hsrc.
Qed.

End Definitions.

(** *** The static fan-out check *)

(** What the [type] keyword of a JSON Schema says of a value. *)
Definition has_type (t : string) (v : Value) : Prop :=
  t = json_type_name v \/ (t = "integer" /\ exists n, v = Num n).

Definition type_admits (schema v : Value) : Prop :=
  match vget "type" schema with
  | Some (Str t) => has_type t v
  | Some (Arr types) => exists t, t ∈ omap as_str types /\ has_type t v
  | _ => True
  end.

(** The value is valid against the schema, as far as [type] and [properties] along the path. *)
Fixpoint admits_along (segs : list string) (schema v : Value) : Prop :=
  type_admits schema v /\
  match segs with
  | [] => True
  | seg :: rest => forall props sub x, vget "properties" schema = Some props -> vget seg props = Some sub ->
      vget seg v = Some x -> admits_along rest sub x
  end.

Lemma proven_nonarray_sound schema t v : proven_nonarray_type schema = Some t -> type_admits schema v -> as_array v = None.
Proof.
  unfold proven_nonarray_type, type_admits. destruct (schema_is_dynamic schema); [done|].
  destruct (vget "type" schema) as [[| | |t'|types|]|]; try done.
  - destruct (decide (t' = "array")); [done|]. intros _ [->|[_ [k ->]]]; [|done]. by destruct v.
  - destruct (decide (omap as_str types = [])); [done|]. destruct (decide ("array" ∈ omap as_str types)) as [|Hna]; [done|].
    intros _ (t' & Hin & [->|[_ [k ->]]]); [|done]. by destruct v.
Qed.

Lemma walk_nonarray node_id segs schema leaf v t items :
  walk_schema segs schema = Some leaf -> proven_nonarray_type leaf = Some t -> admits_along segs schema v ->
  walk_segments node_id segs v <> Ok (Arr items).
Proof.
  revert schema v. induction segs as [|seg segs IH]; intros schema v; simpl.
  - intros [= ->] Hp [Ht _] [= ->]. by apply (proven_nonarray_sound _ _ _ Hp) in Ht.
  - destruct (schema_is_dynamic schema); [done|]. intros Hw Hp [_ Hx].
    destruct (vget "properties" schema) as [props|]; [|done]. cbn [mbind option_bind] in Hw.
    destruct (vget seg props) as [sub|] eqn:Hsub; [|done]. cbn [mbind option_bind] in Hw.
    destruct v as [| | | | |m]; try done. destruct (obj_get seg m) as [u|] eqn:Hu; [|done].
    eapply IH; [exact Hw|exact Hp|]. by eapply Hx.
Qed.

(** The static check never refuses a fan-out that could work: where it refuses one, every
    result of the upstream node that is valid against the schema it declared makes the
    expansion fail at run time. *)
Theorem static_fanout_check_sound (def : WorkflowDef) ov t results :
  fanout_over_proven_nonarray def ov = Some t ->
  (forall path dep out schema root, strip_prefix "node:" ov = Some path ->
     nodes def !! (over_segments path).1 = Some dep -> output_contract (agent dep) = Some out ->
     vget "schema" out = Some schema -> results !! (over_segments path).1 = Some root ->
     admits_along (over_segments path).2 schema root) ->
  is_ok (resolve_over_path ov results) = false.
Proof.
  unfold fanout_over_proven_nonarray, resolve_over_path. destruct (strip_prefix "node:" ov) as [path|]; [|done].
  cbn [mbind option_bind]. intros Hp Ha. specialize (Ha path). destruct (over_segments path) as [node_id segs]. cbn [fst snd] in Ha.
  destruct (nodes def !! node_id) as [dep|]; [|done]. cbn [mbind option_bind] in Hp.
  destruct (output_contract (agent dep)) as [out|] eqn:Hout; [|done]. cbn [mbind option_bind] in Hp.
  destruct (negb (json_output out)); [done|]. destruct (vget "schema" out) as [schema|] eqn:Hs; [|done]. cbn [mbind option_bind] in Hp.
  destruct (negb (is_object schema)); [done|]. destruct (walk_schema segs schema) as [leaf|] eqn:Hw; [|done]. cbn [mbind option_bind] in Hp.
  destruct (results !! node_id) as [root|]; [|done].
  destruct (walk_segments node_id segs root) as [v|e] eqn:Hwalk; [|done]. destruct v as [| | | |items|]; try done.
  exfalso. eapply (walk_nonarray node_id segs schema leaf root t items); [exact Hw|exact Hp| |exact Hwalk]. by eapply Ha.
Qed.

(** *** The handler *)

Section Any.
Context {St : Type} `{StateBus St} {view : St -> string -> string -> option Value}.
Context {Laws : StateBusLaws St view} `{SerdeText} (env : Env).
Implicit Types (w : World St).
Abbreviation stored := (stored (view := view)).
Abbreviation same := (same (view := view)).
Abbreviation run_of := (TickProperties.run_of (view := view)).
Abbreviation def_of := (TickProperties.def_of (view := view)).

Lemma initial_num req id i : clock_ok env -> num_ok (initial_record req id (clock env i)).
Proof. intros Hck. split; [done| |apply Hck|apply Hck]. apply map_Forall_empty. Qed.

Lemma initial_rec_ok def req id now : rec_ok def (initial_record req id now).
Proof.
  split; cbn [initial_record fanout_src run_nodes].
  - intros n items Hn. cbn in Hn. by rewrite lookup_empty in Hn.
  - intros n items i Hn. by rewrite lookup_empty in Hn.
  - intros n nd _ _. unfold uid_state. cbn [initial_record run_nodes]. by rewrite lookup_empty.
  - intros n _ _. apply lookup_empty.
Qed.

(** What is stored for a launched run, as it is read back. *)
Lemma launched_read req id w w1 r :
  def_ok (definition req) -> num_ok r -> launched (view := view) env req id w w1 r ->
  run_of w1 id = Some (canon r) /\ def_of w1 id = Some (stored_def req).
Proof.
  intros Hd Hn Hla. split.
  - apply TickProperties.run_of_decode, decode_stored. exists (to_value r). split; [apply Hla|].
    split; [done|by apply run_record_canon].
  - apply TickProperties.def_of_decode. rewrite (la_def _ _ _ _ _ _ Hla). unfold decode.
    change (default Null (Some (to_value (stored_def req)))) with (to_value (stored_def req)).
    pose proof (workflow_def_ok (stored_def req) (add_read_dependencies_ok _ Hd)) as Hr. unfold codec_ok in Hr.
    by rewrite Hr.
Qed.

(** A start that answers has either found the run its key started before, and stored
    nothing, or begun a new run: its definition and its record are stored and read back as
    written, the definition is one that can be scheduled, the record is well formed and at
    step 0, its first tick is queued, its caller is nested in at most [MAX_WORKFLOW_DEPTH]
    runs, and nothing else was stored but the row of its key. *)
Theorem started_run_is_ready v req w w1 id :
  clock_ok env -> start_request v = Ok req -> handle env req w = (Ok id, w1) ->
  (same w w1 /\ exists key, idempotency_key req = Some key /\
     stored w SCOPE_IDEM (scoped_idem_key key (caller_of req)) = Some (Str id)) \/
  exists r def, run_of w1 id = Some r /\ def_of w1 id = Some def /\
    def = add_read_dependencies (definition req) /\ ids_ok def /\ validate_acyclic def = Ok tt /\
    is_Some (nodes def !! output_node def) /\ rec_ok def r /\
    run_id r = id /\ step r = 0%Z /\ status r = Running /\ caller_session_id r = caller_of req /\
    first_tick id ∈ calls w1 /\
    (forall n, lineage (view := view) w (caller_of req) n -> (Z.of_nat n <= MAX_WORKFLOW_DEPTH)%Z) /\
    (forall a b, ~ ((a = SCOPE_DEF \/ a = SCOPE_RUN) /\ b = id) -> ~ (a = SCOPE_IDEM /\ idem_row req b) ->
       stored w1 a b = stored w a b).
Proof.
  intros Hck Hreq He. pose proof (wp_start (view := view) env req w) as Hw. unfold wp in Hw. rewrite He in Hw. cbn [fst snd] in Hw.
  destruct Hw as [[Hs (b & (key & Hk & ->) & Hb)]|(j & i & Hid & Hla & _ & Ht)].
  { left. split; [done|]. by exists key. }
  right. destruct (launched_read req id w w1 _ (start_request_ok v req Hreq) (initial_num req id i Hck) Hla) as [Hr Hd].
  pose proof (la_valid _ _ _ _ _ _ Hla) as Hv.
  eexists _, _. split; [exact Hr|]. split; [exact Hd|].
  assert (rec_ok (stored_def req) (canon (initial_record req id (clock env i)))) as Hok.
  { destruct (initial_rec_ok (stored_def req) req id (clock env i)). by split. }
  pose proof (valid_ids_ok _ Hv) as Hids. by split_and!; first [done | apply Hv | apply Hla].
Qed.

(** Starting is idempotent: after a start with a key has answered, a start by the same
    caller with the same key, whatever definition it brings and whichever calls are lost,
    stores nothing and answers with the same run or with an error. *)
Theorem start_is_idempotent env' req req' key w w1 id :
  handle env req w = (Ok id, w1) ->
  idempotency_key req = Some key -> idempotency_key req' = Some key -> caller_of req' = caller_of req ->
  same w1 (handle env' req' w1).2 /\
  ((handle env' req' w1).1 = Ok id \/ is_ok (handle env' req' w1).1 = false).
Proof.
  intros He Hk Hk' Hc. pose proof (wp_start (view := view) env req w) as Hw. unfold wp in Hw. rewrite He in Hw. cbn [fst snd] in Hw.
  assert (idem_row req (scoped_idem_key key (caller_of req))) as Hrow by (by exists key).
  assert (stored w1 SCOPE_IDEM (scoped_idem_key key (caller_of req)) = Some (Str id)) as Hidem.
  { destruct Hw as [[Hs (b & (k' & Hkk & ->) & Hb)]|(j & i & _ & _ & Hi & _)]; [|by apply Hi].
    rewrite (Hs _ _). congruence. }
  cut (wp (handle env' req') (λ res w', same w1 w' /\ (res = Ok id \/ is_ok res = false)) w1); [done|].
  unfold handle. apply wp_bind, wp_lift. destruct (validate_def _) as [[]|e]; [|split; [apply same_refl|by right]].
  unfold lookup_idem. rewrite Hk'. destruct (_ <? _)%Z; [apply wp_bind, wp_throw; split; [apply same_refl|by right]|].
  rewrite Hc. apply wp_bind, (wp_string_row (view := view)).
  - intros s w2 Hs Hs2 _. apply wp_ret. split; [done|]. left. congruence.
  - intros w2 [?|?] _ _; congruence.
  - intros e w2 Hs2 _. split; [done|by right].
Qed.
End Any.

(** The idempotency rows of two callers never meet: for caller sessions as the harness
    names them (no bar, and not the reserved name), the row determines the caller and the
    key. *)
Theorem idempotency_rows_isolated k1 k2 c1 c2 :
  (forall c, c1 = Some c \/ c2 = Some c -> contains_char "|" c = false /\ c <> "_anon") ->
  scoped_idem_key k1 c1 = scoped_idem_key k2 c2 -> c1 = c2 /\ k1 = k2.
Proof.
  intros Hok He. unfold scoped_idem_key in He.
  assert (forall c, c = c1 \/ c = c2 -> contains_char "|" (default "_anon" c) = false) as Hbar.
  { intros [c|] Hc; [|done]. apply (Hok c). destruct Hc as [->| ->]; auto. }
  rewrite !(append_cons "|") in He. rewrite !append_nil_l in He.
  apply sep_app_inj in He as [Hc ->]; [|apply Hbar; auto..]. split; [|done].
  destruct c1 as [a|], c2 as [b|]; simpl in Hc; [by subst| | |done].
  - destruct (Hok a) as [_ ?]; [by left|congruence].
  - destruct (Hok b) as [_ ?]; [by right|congruence].
Qed.

(** *** Concrete instances *)

Abbreviation Ctx := (Service.StateCtx Kv.KvStore).
#[local] Instance text : SerdeText := SampleText.text.
#[local] Instance bus : StateBus Ctx := service_bus (H := ServiceProperties.memory).
Abbreviation see := TickProperties.see.
#[local] Instance bus_laws : StateBusLaws Ctx see := service_bus_laws (Laws := ServiceProperties.memory_laws).
Abbreviation env0 := TickProperties.env0.

(** A node that reads, in a definition with a planner that promises JSON; [docs] is declared
    with the given type, and the reader is given the given policy. *)
Definition reading_def (docs : string) (policy : option Value) : WorkflowDef :=
  let schema := json_obj [("type", Str "object"); ("properties", json_obj [("docs", json_obj [("type", Str docs)])])] in
  mk_def 1 (<["plan" := mk_node (mk_agent "m" None None None (Some (json_obj [("type", Str "json"); ("schema", schema)])))
                          (mk_input (One "run_input") None) [] None]>
           (<["read" := mk_node (mk_agent "m" None None policy None) (mk_input (One "fanout_item") None) []
                          (Some (mk_fanout "node:plan.docs"))]> ∅)) (mk_output "node:read") None.

Definition request (key : option string) (caller : option string) : Value :=
  json_obj ([("definition", to_value (reading_def "array" None))]
            ++ opt_field "idempotency_key" Str key ++ opt_field "caller_session_id" Str caller).

Definition request_of (v : Value) : StartRequest :=
  match start_request v with Ok r => r | Err _ => mk_start (reading_def "array" None) Null None None None None end.

Definition empty_world : World Ctx := mk_world (Service.with_adapter ServiceProperties.empty_kv ServiceProperties.sample_ctx) [] 0.

Lemma accepted_definition_schedulable_witness :
  acyclic (add_read_dependencies (reading_def "array" None)).
Proof.
  destruct (accepted_definition_schedulable (reading_def "array" None)) as (_ & _ & Ha & _).
  - vm_compute. reflexivity.
  - exact Ha.
Defined.

Lemma reads_are_done_before_firing_witness :
  exists id n, nodes (add_read_dependencies (reading_def "array" None)) !! id = Some n /\ before_char "#" "plan" = id.
Proof.
  destruct (reads_are_done_before_firing (reading_def "array" None) TickProperties.run0 "plan") as (id & n & Hn & Hb & _).
  - vm_compute. reflexivity.
  - assert (ready_frontier (add_read_dependencies (reading_def "array" None)) TickProperties.run0 = ["plan"]) as ->
      by (vm_compute; reflexivity). constructor.
  - exists id, n. split; [exact Hn|exact Hb].
Defined.

Lemma static_fanout_check_sound_witness :
  is_ok (resolve_over_path "node:plan.docs" (<["plan" := json_obj [("docs", Str "x")]]> ∅)) = false.
Proof.
  apply (static_fanout_check_sound (reading_def "string" None) "node:plan.docs" "string").
  - vm_compute. reflexivity.
  - intros path dep out schema root Hp. vm_compute in Hp. injection Hp as <-. vm_compute (over_segments _). cbn [fst snd].
    intros Hd Ho Hs Hr. vm_compute in Hd. injection Hd as <-. vm_compute in Ho. injection Ho as <-.
    vm_compute in Hs. injection Hs as <-. rewrite lookup_insert_eq in Hr. injection Hr as <-.
    split; [left; reflexivity|]. intros props sub x H1 H2 H3. vm_compute in H1. injection H1 as <-.
    vm_compute in H2. injection H2 as <-. vm_compute in H3. injection H3 as <-. split; [left; reflexivity|exact I].
Defined.

Definition req0 : StartRequest := request_of (request (Some "daily") None).
Definition w1 : World Ctx := (handle env0 req0 empty_world).2.

Lemma started_run_is_ready_witness :
  exists r, TickProperties.run_of (view := see) w1 "r_1" = Some r /\ step r = 0%Z.
Proof.
  destruct (started_run_is_ready (view := see) env0 (request (Some "daily") None) req0 empty_world w1 "r_1")
    as [[_ (key & Hk & Hs)]|(r & def & Hr & _ & _ & _ & _ & _ & _ & _ & Hst & _)].
  - exact TickProperties.env0_clock.
  - vm_compute. reflexivity.
  - vm_compute. reflexivity.
  - vm_compute in Hk. injection Hk as <-. vm_compute in Hs. discriminate.
  - exists r. split; [exact Hr|exact Hst].
Defined.

Lemma start_is_idempotent_witness :
  stored (view := see) (handle env0 req0 w1).2 SCOPE_RUN "r_1" = stored (view := see) w1 SCOPE_RUN "r_1".
Proof.
  destruct (start_is_idempotent (view := see) env0 env0 req0 req0 "daily" empty_world w1 "r_1") as [Hs _].
  - vm_compute. reflexivity.
  - vm_compute. reflexivity.
  - vm_compute. reflexivity.
  - reflexivity.
  - apply Hs.
Defined.

Lemma idempotency_rows_isolated_witness :
  (Some "s_1" = Some "s_1" /\ "a" = "a") /\ scoped_idem_key "a" (Some "s_1") <> scoped_idem_key "a" None.
Proof.
  split.
  - apply (idempotency_rows_isolated "a" "a" (Some "s_1") (Some "s_1")); [|reflexivity].
    intros c [Hc|Hc]; injection Hc as <-; split; first [reflexivity|discriminate].
  - intros He. destruct (idempotency_rows_isolated "a" "a" (Some "s_1") None) as [Hc _]; [|exact He|discriminate Hc].
    intros c [Hc|Hc]; [|discriminate Hc]. injection Hc as <-. split; first [reflexivity|discriminate].
Defined.

(** A store where session [s] belongs to a run that [s] itself started: the ancestry never
    ends, and the walk stops one past the cap. *)
Definition nested_world : World Ctx :=
  let r := mk_run "r_0" 1 AwaitingNodes false "r_0" Null ∅ ∅ None None None None (Some "s") 5 5 in
  let kv1 := (Kv.set SCOPE_RUN "r_0" (to_value r) ServiceProperties.empty_kv).2 in
  let kv2 := (Kv.set SCOPE_INDEX "s" (Str "r_0") kv1).2 in
  mk_world (Service.with_adapter kv2 ServiceProperties.sample_ctx) [] 0.

Definition after_refusal : result string WorkflowError * World Ctx :=
  handle env0 (request_of (request None (Some "s"))) nested_world.

(** A start refused for its nesting has already stored its definition: the row stays behind,
    under the id of a run that does not exist. *)
Lemma refused_start_leaves_definition :
  after_refusal.1 = Err (InvalidDef "sub-workflow nesting depth 9 exceeds the cap of 8") /\
  is_Some (stored (view := see) after_refusal.2 SCOPE_DEF "r_1") /\
  stored (view := see) after_refusal.2 SCOPE_RUN "r_1" = None.
Proof. split; [vm_compute; reflexivity|]. split; [eexists|]; vm_compute; reflexivity. Qed.

(** A policy object whose [deny] is not an array passes validation and is sent as it is: the
    generate calls are not denied. *)
Definition loose_policy : Value := json_obj [("allow", Arr [Str "*"]); ("deny", Str "web::fetch")].

Lemma malformed_deny_not_hardened :
  validate_def (add_read_dependencies (reading_def "array" (Some loose_policy))) = Ok tt /\
  Tick.normalize_functions (Some loose_policy) = Some loose_policy.
Proof. split; vm_compute; reflexivity. Qed.

End StartProperties.
