(* ===== verification/WfSystem.v ===== *)
(** * The worker as a whole (workflow/src/functions/*.rs, locks.rs)

    The handlers run in any order, each under any pattern of lost calls.  An event is one
    delivery to the worker; [exec] runs its handler to the end, which is what the lock of a
    run gives the handlers of that run.  The file proves what holds of the store after every
    history of events, and that a run that has ended stays as it ended. *)

From Stdlib Require Import Ascii ZArith Lia.
From S2P Require Import Prelude Json StateStore StateService WfTypes WfDag WfBus WfTick WfSweep WfStart.

Module System.
Import Ids Dag Store StoreRules Events Reconcile TickRules SweepRules StartRules.

(** One delivery to the worker. *)
Inductive Event : Type :=
| EStart (payload : Value)
| ETick (id : string) (n : Z)
| ESweep
| EStop (id : string)
| EWake (sid : string)
| EStatus (id : string)
| ENodeResult (id uid : string).

Section Worker.
Context {St : Type} `{StateBus St} `{SerdeText}.

(** The handler of an event, run to its end; a request that does not parse reaches no handler. *)
Definition exec (env : Env) (e : Event) (w : World St) : World St :=
  match e with
  | EStart v => match Start.start_request v with Ok req => (Start.handle env req w).2 | Err _ => w end
  | ETick id n => (Tick.handle env id n w).2
  | ESweep => (Sweep.handle env w).2
  | EStop id => (Stop.handle env id w).2
  | EWake sid => (Wake.handle env sid w).2
  | EStatus id => (Status.handle env id w).2
  | ENodeResult id uid => (Status.node_result env id uid w).2
  end.
End Worker.

(** ** What holds of every checkpoint *)

Section Nodes.
Context {St : Type} `{StateBus St} {view : St -> string -> string -> option Value}.
Context {Laws : StateBusLaws St view} `{SerdeText} (env : Env).
Implicit Types (w : World St).

(** The rows a checkpoint names are its own, and its attempts are within [max]. *)
Record cp_own (max : Z) (id uid : string) (c : NodeCheckpoint) : Prop := {
  own_result : forall k, result_ref c = Some k -> k = node_result_key id uid;
  own_session : forall s, session_id c = Some s -> exists u, s = child_session_id id u;
  own_retries : (retries c <= max)%Z;
}.

Definition nodes_own (max : Z) (r : WorkflowRunRecord) : Prop :=
  forall uid c, run_nodes r !! uid = Some c -> cp_own max (run_id r) uid c.

Lemma own_polled max w' id uid c c1 : polled (view := view) w' id uid c c1 -> cp_own max id uid c -> cp_own max id uid c1.
Proof. intros Hp [Hr Hs Ha]. destruct Hp; split; try done. by intros k [= <-]. Qed.

Lemma own_state max id uid s c : cp_own max id uid c -> cp_own max id uid (set_state s c).
Proof. by intros [? ? ?]. Qed.

Lemma own_error max id uid e c : cp_own max id uid c -> cp_own max id uid (set_cp_error e c).
Proof. by intros [? ? ?]. Qed.

Lemma own_pending max id uid : (0 <= max)%Z -> cp_own max id uid pending_checkpoint.
Proof. by split. Qed.

Lemma nodes_own_with max uid c r : cp_own max (run_id r) uid c -> nodes_own max r -> nodes_own max (with_cp uid c r).
Proof.
  intros Hc Hr u d. cbn [with_cp set_nodes run_nodes run_id]. intros [[<- <-]|[_ Hd]]%lookup_insert_Some; [done|by apply Hr].
Qed.

Lemma reconciled_own max w' r r1 : reconciled (view := view) w' r r1 -> nodes_own max r -> nodes_own max r1.
Proof.
  intros Hrc Hr u c1 Hc1. assert (run_id r1 = run_id r) as -> by (by rewrite (rc_fields _ _ _ Hrc)).
  pose proof (rc_nodes _ _ _ Hrc u) as Hn. destruct (run_nodes r !! u) as [c|] eqn:Hc; [|congruence].
  destruct Hn as (c2 & Hc2 & Hp & _). simplify_eq. eapply own_polled; [exact Hp|by apply Hr].
Qed.

Lemma loaded_own max w r r' results : loaded (view := view) w r r' results -> nodes_own max r -> nodes_own max r'.
Proof.
  intros Hl Hr u c1. assert (run_id r' = run_id r) as -> by (by rewrite (ld_fields _ _ _ _ Hl)).
  rewrite (ld_nodes _ _ _ _ Hl u). destruct (run_nodes r !! u) as [c|] eqn:Hc; [|done]. intros [= <-].
  destruct (_ && _); [apply own_error, own_state|]; by apply Hr.
Qed.

Lemma expand_one_own max n ov results r : (0 <= max)%Z -> nodes_own max r -> nodes_own max (expand_one n ov results r).
Proof.
  intros Hm Hr. assert (forall reason, nodes_own max (fail_expansion n reason r)) as Hfail.
  { intros reason. unfold fail_expansion. apply nodes_own_with; [|exact Hr]. by apply own_error, own_state, own_pending. }
  unfold expand_one. destruct (resolve_over_path ov results) as [items|]; [|apply Hfail].
  destruct (_ <? _)%Z; [apply Hfail|]. destruct (_ <? _)%Z; [apply Hfail|].
  intros u c. cbn [set_nodes set_fanout run_nodes run_id]. rewrite materialize_lookup.
  destruct (run_nodes r !! u) as [d|] eqn:Hd; [intros [= <-]; by apply Hr|].
  destruct (decide _); [|done]. intros [= <-]. by apply own_pending.
Qed.

Lemma expand_own max def results r ids r' :
  (0 <= max)%Z -> expand_ready_fanouts def results r = (ids, r') -> nodes_own max r -> nodes_own max r'.
Proof.
  intros Hm. unfold expand_ready_fanouts. generalize (fanout_candidates def r). intros cs. revert r ids.
  induction cs as [|[n ov] cs IH]; intros r ids; simpl; [by intros [= _ <-]|]. destruct (deps_done def r n); [|apply IH].
  destruct (expand_candidates def results cs (expand_one n ov results r)) as [ids1 r1] eqn:He. intros [= _ <-] Hr.
  eapply IH; [exact He|]. by apply expand_one_own.
Qed.

Lemma running_cp_own max r u turn t :
  (0 <= max)%Z -> nodes_own max r -> cp_own max (run_id r) u (running_cp r u turn t).
Proof.
  intros Hm Hr. split; [done|intros s [= <-]; by eexists|]. unfold running_cp, attempts. cbn [retries].
  destruct (run_nodes r !! u) as [c|] eqn:Hc; [by apply (Hr u c)|done].
Qed.

Lemma acted_own max def results r rF :
  (0 <= max)%Z -> acted env def results r rF -> nodes_own max r -> nodes_own max rF.
Proof.
  intros Hm Ha Hr. unfold acted in Ha. destruct (Tick.tick_decide def r) as [s|uids|].
  - destruct Ha as [i ->]. intros u c. destruct (finalized_nodes def s (clock env i) results r) as [-> _].
    rewrite finalized_id, cancelled_lookup. destruct (run_nodes r !! u) as [d|] eqn:Hd; [|done]. simpl. intros [= <-].
    destruct (state d); [|apply own_state|..]; by apply Hr.
  - destruct Ha as (i & r1 & Hf & ->). intros u c. cbn [parked set_updated set_status run_nodes run_id].
    rewrite (fired_all_id _ _ _ _ Hf). intros Hu. destruct (decide (u ∈ uids)) as [Hin|Hni].
    + destruct (fa_fired _ _ _ _ Hf u Hin) as [[_ He]|(t & j & He)]; rewrite He in Hu; [by apply Hr|].
      injection Hu as <-. by apply running_cp_own.
    + rewrite (fa_other _ _ _ _ Hf) in Hu by done. by apply Hr.
  - destruct Ha as [i ->]. exact Hr.
Qed.

Lemma stepped_own max id n w w' def r rF :
  (0 <= max)%Z -> stepped (view := view) env id n w w' def r rF -> nodes_own max r -> nodes_own max rF.
Proof.
  intros Hm [_ _ _ (w1 & r1 & results & r2 & ids & r3 & _ & Hrc & Hld & Hex & Ha & _ & _)] Hr.
  eapply acted_own; [done|exact Ha|]. eapply expand_own; [done|exact Hex|]. eapply loaded_own; [exact Hld|].
  eapply reconciled_own; [exact Hrc|]. exact Hr.
Qed.

Lemma swept_own max id now w w' def r rF :
  (max_node_retries (cfg env) <= max)%Z -> swept_run (view := view) env id now w w' def r rF -> nodes_own max r -> nodes_own max rF.
Proof.
  intros Hm Hsw Hr u c3 Hc3. destruct (swept_run_new env _ _ _ _ _ _ _ _ _ Hsw Hc3) as [c Hc].
  destruct (swept_run_node env _ _ _ _ _ _ _ _ _ Hsw Hc) as (w1 & c1 & c2 & c4 & _ & _ & Hp & _ & H2 & H3 & Hl).
  rewrite Hl in Hc3. injection Hc3 as ->.
  assert (run_id rF = run_id r) as -> by (destruct Hsw as [_ _ _ (? & ? & ? & ? & ? & ? & ? & ? & ? & ?)]; done).
  assert (cp_own max (run_id r) u c2) as Ho.
  { pose proof (own_polled _ _ _ _ _ _ Hp (Hr u c Hc)) as H1. destruct H2 as [->|[_ ->]]; [done|]. by apply own_error, own_state. }
  pose proof (swept_cp_retries _ _ _ _ _ _ H3) as Hret.
  assert (retries c3 <= max)%Z as Hle by (destruct Ho as [_ _ Ha]; destruct Hret as [->|[-> ?]]; lia).
  unfold swept_cp in H3. destruct (action env now c2) as [|a|]; [by subst| |subst; by apply own_error, own_state].
  destruct H3 as [[_ ->]|(_ & turn & i & ->)]; [by destruct Ho|]. split; [done|intros s [= <-]; by eexists|done].
Qed.

End Nodes.
(** ** The invariant of the store *)

Section Invariant.
Context {St : Type} `{StateBus St} {view : St -> string -> string -> option Value}.
Context {Laws : StateBusLaws St view} `{SerdeText}.
Implicit Types (w : World St).
Abbreviation stored := (stored (view := view)).
Abbreviation same := (same (view := view)).
Abbreviation frame := (frame (view := view)).
Abbreviation grows := (grows (view := view)).
Abbreviation keyed := (keyed (view := view)).
Abbreviation res_ok := (res_ok (view := view)).
Abbreviation run_of := (TickProperties.run_of (view := view)).
Abbreviation def_of := (TickProperties.def_of (view := view)).

(** A run that has not ended can go on: its definition is stored and can be scheduled, its
    record fits the definition, and every done node has its result. *)
Record live w (id : string) (r : WorkflowRunRecord) : Prop := {
  lv_results : res_ok w r;
  lv_def : exists def, def_of w id = Some def /\ ids_ok def /\ validate_acyclic def = Ok tt /\
             is_Some (nodes def !! output_node def) /\ rec_ok def r;
}.

Record run_inv (max : Z) w (id : string) (r : WorkflowRunRecord) : Prop := {
  ri_id : contains_char "/" id = false;
  ri_own : nodes_own max r;
  ri_live : is_terminal (status r) = false -> live w id r;
}.

Record inv (max : Z) w : Prop := {
  inv_keyed : keyed w;
  inv_runs : forall id r, run_of w id = Some r -> run_inv max w id r;
}.

(** What the outside must respect: clocks and the retry budget are in range, random ids are
    made of hexadecimal digits and not in use, and a listing of the runs holds stored runs. *)
Record env_ok (max : Z) (env : Env) w : Prop := {
  eo_clock : clock_ok env;
  eo_cfg : cfg_ok env;
  eo_max : (max_node_retries (cfg env) <= max)%Z;
  eo_uuid : forall j, contains_char "/" (uuid env j) = false /\ stored w SCOPE_RUN (new_run_id (uuid env j)) = None;
  eo_list : forall v s r, sb_list SCOPE_RUN (st w) = (Ok v, s) -> r ∈ parse_record_list v -> run_of w (run_id r) = Some r;
}.

Lemma env_ok_max max env w : env_ok max env w -> (0 <= max)%Z.
Proof. intros [_ [Hc _] Hm _ _]. lia. Qed.

(** *** Handlers of one run *)

(** From the stored record [r] of run [id] to the record [rF]. *)
Record evolves (max : Z) (id : string) w w' (r rF : WorkflowRunRecord) : Prop := {
  ev_from : run_of w id = Some r;
  ev_live : is_terminal (status r) = false;
  ev_stored : stored w' SCOPE_RUN id = Some (to_value rF);
  ev_num : num_ok rF;
  ev_id : run_id rF = id;
  ev_results : res_ok w r -> res_ok w' rF;
  ev_rec : forall def, def_of w id = Some def -> ids_ok def -> rec_ok def r -> rec_ok def rF;
  ev_own : nodes_own max r -> nodes_own max rF;
}.

(** A handler of run [id] writes its own rows, and its record only while it is live. *)
Record touched (max : Z) (id : string) w w' : Prop := {
  to_frame : frame (own_keys id) w w';
  to_grows : grows w w';
  to_record : stored w' SCOPE_RUN id = stored w SCOPE_RUN id \/ exists r rF, evolves max id w w' r rF;
}.

Lemma touched_same max id w w' : same w w' -> touched max id w w'.
Proof. intros Hs. split; [by apply same_frame|by apply same_grows|by left]. Qed.

Lemma evolves_read max id w w' r rF : evolves max id w w' r rF -> run_of w' id = Some (canon rF).
Proof.
  intros He. apply TickProperties.run_of_decode, decode_stored. exists (to_value rF). split; [apply He|].
  split; [done|]. apply run_record_canon, He.
Qed.

Lemma res_ok_grows w w' r : grows w w' -> res_ok w r -> res_ok w' r.
Proof. intros Hg Hr u c Hc Hd. destruct (Hr u c Hc Hd). split; [done|by apply Hg]. Qed.

Lemma frame_def id w w' k : frame (own_keys id) w w' -> def_of w' k = def_of w k.
Proof.
  intros Hf. unfold TickProperties.def_of. rewrite (Hf SCOPE_DEF k); [done|]. intros [[? _]|[[? _]|[? _]]]; done.
Qed.

Lemma frame_run id w w' k : frame (own_keys id) w w' -> k <> id -> stored w' SCOPE_RUN k = stored w SCOPE_RUN k.
Proof. intros Hf Hne. apply Hf. intros [[_ ?]|[[? _]|[? _]]]; done. Qed.

Lemma run_inv_kept max w w' id r :
  grows w w' -> def_of w' id = def_of w id -> run_inv max w id r -> run_inv max w' id r.
Proof.
  intros Hg Hd [Hs Ho Hl]. split; [done|done|]. intros Ht. destruct (Hl Ht) as [Hr Hdef].
  split; [by eapply res_ok_grows|by rewrite Hd].
Qed.

Lemma canon_own max r : nodes_own max r -> nodes_own max (canon r).
Proof. intros Hr u c Hc. by apply (Hr u c). Qed.

Lemma canon_rec_ok def r : rec_ok def r -> rec_ok def (canon r).
Proof. intros [? ? ? ?]. by split. Qed.

Lemma inv_touched max id w w' : touched max id w w' -> inv max w -> inv max w'.
Proof.
  intros [Hf Hg Hrec] [Hk Hr]. assert (forall k, def_of w' k = def_of w k) as Hdef by (intros k; by eapply frame_def).
  assert (forall k r, stored w' SCOPE_RUN k = stored w SCOPE_RUN k -> run_of w' k = Some r -> run_inv max w' k r) as Hsame.
  { intros k r Hs Hrun. rewrite (TickProperties.run_of_ext w w' k Hs) in Hrun.
    eapply run_inv_kept; [exact Hg|apply Hdef|by apply Hr]. }
  split.
  - intros k v r Hv Hd. destruct (decide (k = id)) as [->|Hne]; [|rewrite (frame_run _ _ _ _ Hf Hne) in Hv; by eapply Hk].
    destruct Hrec as [Hs|(r0 & rF & He)]; [rewrite Hs in Hv; by eapply Hk|].
    rewrite (ev_stored _ _ _ _ _ _ He) in Hv. apply (inj Some) in Hv. subst v.
    rewrite (run_record_canon rF (ev_num _ _ _ _ _ _ He)) in Hd. injection Hd as <-. apply He.
  - intros k r Hrun. destruct (decide (k = id)) as [->|Hne]; [|apply Hsame; [by eapply frame_run|done]].
    destruct Hrec as [Hs|(r0 & rF & He)]; [by apply Hsame|].
    pose proof (evolves_read _ _ _ _ _ _ He) as Hread. rewrite Hread in Hrun. injection Hrun as <-.
    destruct (Hr id r0 (ev_from _ _ _ _ _ _ He)) as [Hs Ho Hl]. destruct (Hl (ev_live _ _ _ _ _ _ He)) as [Hres (def & Hd & Hi & Ha & Hout & Hok)].
    split; [done|by apply canon_own, (ev_own _ _ _ _ _ _ He)|]. intros _. split.
    + intros u c Hc Hdone. by apply (ev_results _ _ _ _ _ _ He Hres u c).
    + exists def. rewrite Hdef. split_and!; [done..|]. by apply canon_rec_ok, (ev_rec _ _ _ _ _ _ He).
Qed.

Lemma touched_terminal max id w w' k r :
  touched max id w w' -> run_of w k = Some r -> is_terminal (status r) = true -> stored w' SCOPE_RUN k = stored w SCOPE_RUN k.
Proof.
  intros [Hf _ Hrec] Hr Ht. destruct (decide (k = id)) as [->|Hne]; [|by eapply frame_run].
  destruct Hrec as [?|(r0 & rF & He)]; [done|]. pose proof (ev_from _ _ _ _ _ _ He) as Hr0. pose proof (ev_live _ _ _ _ _ _ He) as Ht0.
  assert (r0 = r) as -> by congruence. congruence.
Qed.

Lemma tick_touched max env w id n : env_ok max env w -> keyed w -> touched max id w (Tick.handle env id n w).2.
Proof.
  intros Heo Hk. pose proof (TickProperties.handle_cases env id n w Hk) as Hc.
  destruct (Tick.handle env id n w) as [res w']. destruct Hc as [[Hf Hg] Hcase]. cbn [snd]. split; [done|done|].
  destruct Hcase as [[_ Hs]|(def & r & rF & Hst)]; [by left|]. right. exists r, rF.
  pose proof (stepped_stored env id n w w' def r rF (eo_clock _ _ _ Heo) Hk Hst) as (Hid & HidF & Hsto & _).
  split; [apply TickProperties.run_of_decode; apply Hst| |done|by eapply stepped_num; [apply Heo|]|done| | |].
  - pose proof (sp_fresh _ _ _ _ _ _ _ _ Hst) as Hfr. unfold Tick.tick_is_stale in Hfr. by apply orb_false_iff in Hfr as [_ ?].
  - exact (stepped_res_ok env id n w w' def r rF Hst).
  - intros def' Hd' Hi Hok. pose proof (sp_def _ _ _ _ _ _ _ _ Hst) as Hd. apply TickProperties.def_of_decode in Hd.
    assert (def' = def) as -> by congruence. exact (stepped_rec_ok env id n w w' def r rF Hst Hi Hok).
  - eapply stepped_own; [by eapply env_ok_max|exact Hst].
Qed.

Lemma sweep_one_touched max env w0 w id now : env_ok max env w0 -> keyed w -> touched max id w (Sweep.sweep_one_run env id now w).2.
Proof.
  intros Heo Hk. pose proof (wp_sweep_one_run (view := view) env id now w) as Hw. unfold wp in Hw.
  destruct (Sweep.sweep_one_run env id now w) as [res w']. cbn [fst snd] in *.
  assert ((exists def r rF, swept_run (view := view) env id now w w' def r rF) -> touched max id w w') as Hswept.
  { intros (def & r & rF & Hsw). destruct (SweepProperties.swept_frame env id now w w' def r rF Hk Hsw) as [Hf Hg].
    split; [done|done|]. right. exists r, rF.
    destruct (SweepProperties.swept_stored env id now w w' def r rF (eo_clock _ _ _ Heo) (eo_cfg _ _ _ Heo) Hk Hsw)
      as (Hid & HidF & Hsto & _).
    split; [apply TickProperties.run_of_decode; apply Hsw|apply Hsw|done|by eapply swept_run_num; [apply Heo|apply Heo|]|done| | |].
    - exact (swept_run_res_ok env id now w w' def r rF Hsw).
    - intros def' _ _ Hok. exact (swept_run_rec_ok env id now w w' def r rF Hsw def' Hok).
    - eapply swept_own; [apply Heo|exact Hsw]. }
  destruct res as [[]|e]; [by apply Hswept|by apply touched_same|].
  destruct Hw as [Hs|[(r & Hr & [He Hg])|Hst]]; [by apply touched_same| |by apply Hswept].
  apply decode_stored in Hr as (v & Hv & _ & Hf). rewrite (Hk id v r Hv Hf) in *.
  split; [intros a b Hn; apply He; intros Ha; apply Hn; by right|done|]. left. apply He. by intros [[? _]|[? _]].
Qed.

Lemma stop_touched max env w id : env_ok max env w -> keyed w -> touched max id w (Stop.handle env id w).2.
Proof.
  intros Heo Hk. pose proof (wp_stop (view := view) env id w) as Hw. unfold wp in Hw.
  destruct Hw as [[_ Hs]|(r & i & Hdec & Ht & Hp)]; [by apply touched_same|].
  pose proof Hdec as Hdec0. apply decode_stored in Hdec0 as (v & Hv & _ & Hf). pose proof (Hk id v r Hv Hf) as Hid.
  rewrite Hid in Hp. split.
  - apply (put_frame _ _ _ _ _ _ (or_introl (conj eq_refl eq_refl)) Hp).
  - by eapply put_grows.
  - right. exists r, (stopped (clock env i) r). split; [by apply TickProperties.run_of_decode|done| | |done| | |].
    + rewrite Hp. by rewrite decide_True.
    + apply run_record_num in Hf as [Hs Hno Hc Hu]. split; first [done | apply Heo].
    + intros Hr. by apply (res_ok_grows w _ (stopped (clock env i) r)); [eapply put_grows|].
    + intros def _ _ [? ? ? ?]. by split.
    + done.
Qed.
(** *** The sweep *)

(** The records of ended runs are as they were. *)
Definition ended_kept w w' : Prop :=
  forall k r, run_of w k = Some r -> is_terminal (status r) = true -> stored w' SCOPE_RUN k = stored w SCOPE_RUN k.

Lemma ended_kept_refl w : ended_kept w w.
Proof. by intros k r. Qed.

Lemma ended_kept_trans w1 w2 w3 : ended_kept w1 w2 -> ended_kept w2 w3 -> ended_kept w1 w3.
Proof.
  intros H1 H2 k r Hr Ht. rewrite (H2 k r); [by apply (H1 k r)| |done].
  by rewrite (TickProperties.run_of_ext w1 w2 k (H1 k r Hr Ht)).
Qed.

Lemma wp_sweep_runs max env w0 now runs swept w :
  env_ok max env w0 -> inv max w ->
  wp (Sweep.sweep_runs env now runs swept) (λ res w', is_ok res = true /\ inv max w' /\ ended_kept w w') w.
Proof.
  intros Heo. revert swept w. induction runs as [|r runs IH]; intros swept w Hi; cbn [Sweep.sweep_runs].
  { apply wp_ret. split_and!; [done|done|apply ended_kept_refl]. }
  destruct (is_terminal (status r)); [by apply IH|].
  pose proof (sweep_one_touched max env w0 w (run_id r) now Heo (inv_keyed _ _ Hi)) as Ht.
  apply wp_bind, wp_attempt. unfold wp at 1. destruct (Sweep.sweep_one_run env (run_id r) now w) as [res w1]. cbn [fst snd] in *.
  eapply wp_mono; [apply IH; by eapply inv_touched|]. intros res' w2 (Hok & Hi2 & Hk2). split_and!; [done|done|].
  eapply ended_kept_trans; [|exact Hk2]. intros k r' Hr' Ht'. by eapply touched_terminal.
Qed.

(** A record the sweep may delete: it is the stored one, or its run is already gone. *)
Record deletable (max : Z) w (r : WorkflowRunRecord) : Prop := {
  de_id : contains_char "/" (run_id r) = false;
  de_own : nodes_own max r;
  de_ended : is_terminal (status r) = true;
  de_stored : run_of w (run_id r) = Some r \/ stored w SCOPE_RUN (run_id r) = None;
}.

Lemma run_of_none w id : stored w SCOPE_RUN id = None -> run_of w id = None.
Proof. unfold TickProperties.run_of. by intros ->. Qed.

Lemma run_keys_run r k : run_keys r SCOPE_RUN k -> k = run_id r.
Proof. intros [Hk|[_ ?]]; [|done]. by apply child_keys_not_run in Hk. Qed.

Lemma delete_inv max env w r :
  deletable max w r -> inv max w ->
  inv max (delete_run env r w).2 /\
  forall k, stored (delete_run env r w).2 SCOPE_RUN k = stored w SCOPE_RUN k \/
            (k = run_id r /\ stored (delete_run env r w).2 SCOPE_RUN k = None).
Proof.
  intros [Hid Ho Ht Hst] [Hk Hr]. pose proof (wp_delete_run (view := view) env r w) as [Hsh _].
  set (w' := (delete_run env r w).2) in *.
  assert (forall k, stored w' SCOPE_RUN k = stored w SCOPE_RUN k \/ (k = run_id r /\ stored w' SCOPE_RUN k = None)) as Hrows.
  { intros k. destruct (Hsh SCOPE_RUN k) as [?|[Hin Hn]]; [by left|]. right. split; [by apply run_keys_run|done]. }
  split; [|done]. split.
  - intros k v r' Hv. destruct (Hrows k) as [Hs|[_ Hn]]; [rewrite Hs in Hv; by apply Hk|congruence].
  - intros k r' Hr'. destruct (Hrows k) as [Hs|[_ Hn]]; [|by rewrite run_of_none in Hr'].
    rewrite (TickProperties.run_of_ext w w' k Hs) in Hr'. destruct (Hr k r' Hr') as [Hsl Hown Hlive]. split; [done|done|].
    intros Hl. destruct (Hlive Hl) as [Hres (def & Hd & Hrest)].
    assert (k <> run_id r) as Hne.
    { intros ->. destruct Hst as [Hrun|Hn]; [congruence|]. by rewrite run_of_none in Hr'. }
    split.
    + intros u c Hc Hdone. destruct (Hres u c Hc Hdone) as [Href Hsome]. split; [done|].
      destruct (Hsh SCOPE_RESULT (node_result_key (run_id r') u)) as [->|[Hin _]]; [done|]. exfalso.
      assert (run_id r' = k) as Hidk.
      { apply TickProperties.run_of_decode, decode_stored in Hr' as (v & Hv & _ & Hf). by apply (Hk k v). }
      destruct Hin as [[(u' & c' & Hc' & [[_ Hk']|[? _]])|[? _]]|[? _]]; try done.
      apply (own_result _ _ _ _ (Ho u' c' Hc')) in Hk'. rewrite Hidk in Hk'.
      apply node_result_key_inj in Hk' as [? _]; [by apply Hne|done|done].
    + exists def. split; [|done]. unfold TickProperties.def_of in *.
      destruct (Hsh SCOPE_DEF k) as [->|[Hin _]]; [done|]. exfalso.
      destruct Hin as [[(u' & c' & _ & [[? _]|[? _]])|[_ ?]]|[? _]]; done.
Qed.

Lemma wp_reap_runs max env cutoff runs swept w :
  (forall r, r ∈ runs -> Sweep.reapable cutoff r = true -> deletable max w r) -> inv max w ->
  wp (Sweep.reap_runs env cutoff runs swept)
     (λ _ w', inv max w' /\ forall k, stored w' SCOPE_RUN k = stored w SCOPE_RUN k \/
        (stored w' SCOPE_RUN k = None /\ exists r, r ∈ runs /\ run_id r = k /\ Sweep.reapable cutoff r = true)) w.
Proof.
  revert swept w. induction runs as [|r runs IH]; intros swept w Hall Hi; cbn [Sweep.reap_runs].
  { apply wp_ret. split; [done|]. intros k. by left. }
  assert (forall swept w1, (forall k, stored w1 SCOPE_RUN k = stored w SCOPE_RUN k \/
      (Sweep.reapable cutoff r = true /\ k = run_id r /\ stored w1 SCOPE_RUN k = None)) -> inv max w1 ->
    wp (Sweep.reap_runs env cutoff runs swept) (λ _ w', inv max w' /\ forall k, stored w' SCOPE_RUN k = stored w SCOPE_RUN k \/
        (stored w' SCOPE_RUN k = None /\ exists r', r' ∈ r :: runs /\ run_id r' = k /\ Sweep.reapable cutoff r' = true)) w1) as Hgo.
  { intros sw w1 Hrows Hi1. eapply wp_mono; [apply IH; [|done]|].
    - intros r' Hin Hre. destruct (Hall r' (list_elem_of_further _ _ _ Hin) Hre) as [Hd Ho Ht Hst]. split; [done|done|done|].
      destruct (Hrows (run_id r')) as [Hs|(_ & _ & Hn)]; [|by right].
      destruct Hst as [Hrun|Hn]; [left; by rewrite (TickProperties.run_of_ext w w1 _ Hs)|right; by rewrite Hs].
    - intros _ w2 [Hi2 Hk2]. split; [done|]. intros k. destruct (Hk2 k) as [Hs|(Hn & r' & Hin & Hid & Hre)].
      + destruct (Hrows k) as [Hs1|(Hre & -> & Hn)]; [left; congruence|]. right. split; [congruence|].
        exists r. by split_and!; [left|..].
      + right. split; [done|]. exists r'. by split_and!; [right|..]. }
  destruct (Sweep.reapable cutoff r) eqn:Hre; [|apply Hgo; [by left|done]].
  destruct (delete_inv max env w r (Hall r (list_elem_of_here _ _) Hre) Hi) as [Hi1 Hrows].
  apply wp_bind, wp_attempt. unfold wp at 1. destruct (delete_run env r w) as [res w1]. cbn [fst snd] in *.
  apply Hgo; [|done]. intros k. destruct (Hrows k) as [?|[? ?]]; [by left|by right].
Qed.

(** A run disappears only in a sweep, once it has ended and its retention is over. *)
Definition expired (env : Env) (r : WorkflowRunRecord) : Prop :=
  is_terminal (status r) = true /\ exists i, (updated_at r < sub_i64 (clock env i) Sweep.TERMINAL_RETENTION_MS)%Z.

Definition ended_or_expired env w w' : Prop :=
  forall k r, run_of w k = Some r -> is_terminal (status r) = true ->
    stored w' SCOPE_RUN k = stored w SCOPE_RUN k \/ (stored w' SCOPE_RUN k = None /\ expired env r).

Lemma list_runs_stored max env w :
  env_ok max env w -> inv max w ->
  wp (list_runs env) (λ res w', same w w' /\ match res with Ok runs => forall r, r ∈ runs -> run_of w (run_id r) = Some r | Err _ => True end) w.
Proof.
  intros Heo Hi. unfold list_runs, state_list, wp, bind, state_call, ret.
  pose proof (sb_list_law (view := view) SCOPE_RUN (st w)) as Hl.
  destruct (fault env (index w)); destruct (sb_list SCOPE_RUN (st w)) as [[v|msg] s] eqn:He; cbn in *; subst s.
  all: split; [by intros a b|]; try done. intros r Hr. by eapply (eo_list _ _ _ Heo).
Qed.

Lemma sweep_inv max env w :
  env_ok max env w -> inv max w -> inv max (Sweep.handle env w).2 /\ ended_or_expired env w (Sweep.handle env w).2.
Proof.
  intros Heo Hi. cut (wp (Sweep.handle env) (λ _ w', inv max w' /\ ended_or_expired env w w') w); [done|].
  assert (forall w', same w w' -> inv max w') as Hsame by (intros w' Hs; eapply (inv_touched max "" w); [by apply touched_same|done]).
  unfold Sweep.handle. apply wp_bind. eapply wp_mono; [by apply (list_runs_stored max)|]. intros [runs|e] w1 [Hs1 Hruns].
  2: { split; [by apply Hsame|]. intros k r _ _. left. apply Hs1. }
  apply wp_bind, (wp_now (view := view)). intros i w2 Hs2 _.
  assert (same w w2) as Hs02 by exact (same_trans _ _ _ Hs1 Hs2).
  apply wp_bind. eapply wp_mono; [apply (wp_sweep_runs max env w); [done|by apply Hsame]|]. intros res w3 (Hok & Hi3 & Hk3).
  destruct res as [swept|]; [|done].
  assert (forall k r, run_of w k = Some r -> is_terminal (status r) = true -> stored w3 SCOPE_RUN k = stored w SCOPE_RUN k) as Hended.
  { intros k r Hr Ht. rewrite (Hk3 k r); [apply Hs02| |done]. by rewrite (TickProperties.run_of_ext w w2 k (Hs02 _ _)). }
  eapply wp_mono; [apply (wp_reap_runs max); [|done]|].
  - intros r Hin Hre. apply andb_true_iff in Hre as [Ht _]. pose proof (Hruns r Hin) as Hr.
    destruct (inv_runs _ _ Hi _ _ Hr) as [Hsl Ho _]. split; [done|done|done|]. left.
    by rewrite (TickProperties.run_of_ext w w3 _ (Hended _ r Hr Ht)).
  - intros _ w4 [Hi4 Hk4]. split; [done|]. intros k r Hr Ht. rewrite <-(Hended k r Hr Ht).
    destruct (Hk4 k) as [?|(Hn & r' & Hin & <- & Hre)]; [by left|]. right. split; [done|].
    assert (r' = r) as -> by (pose proof (Hruns r' Hin); congruence).
    apply andb_true_iff in Hre as [_ Hlt%Z.ltb_lt]. split; [done|]. by exists i.
Qed.

(** *** Starting *)

Lemma new_id_slash u : contains_char "/" u = false -> contains_char "/" (new_run_id u) = false.
Proof. intros Hu. unfold new_run_id. by rewrite contains_char_app, Hu. Qed.

Lemma fresh_row_inv max w w' id :
  stored w SCOPE_RUN id = None -> (forall k, k <> id -> stored w' SCOPE_RUN k = stored w SCOPE_RUN k) ->
  (forall k, k <> id -> stored w' SCOPE_DEF k = stored w SCOPE_DEF k) ->
  (forall k, stored w' SCOPE_RESULT k = stored w SCOPE_RESULT k) ->
  (forall v r, stored w' SCOPE_RUN id = Some v -> from_value v = Some r -> run_id r = id) ->
  (forall r, run_of w' id = Some r -> run_inv max w' id r) ->
  inv max w -> inv max w' /\ forall k r, run_of w k = Some r -> stored w' SCOPE_RUN k = stored w SCOPE_RUN k.
Proof.
  intros Hfree Hrun Hdef Hres Hkey Hnew [Hk Hr].
  assert (forall k r, run_of w k = Some r -> k <> id) as Hne by (intros k r Hr' ->; by rewrite run_of_none in Hr').
  split; [|intros k r Hr'; apply Hrun; by eapply Hne]. split.
  - intros k v r. destruct (decide (k = id)) as [->|Hn]; [apply Hkey|]. rewrite Hrun by done. apply Hk.
  - intros k r Hr'. destruct (decide (k = id)) as [->|Hn]; [by apply Hnew|].
    rewrite (TickProperties.run_of_ext w w' k (Hrun k Hn)) in Hr'. destruct (Hr k r Hr') as [Hs Ho Hl]. split; [done|done|].
    intros Ht. destruct (Hl Ht) as [Hok Hd]. split.
    + intros u c Hc Hdone. rewrite Hres. by apply Hok.
    + unfold TickProperties.def_of in *. by rewrite Hdef.
Qed.

Lemma start_inv max env req w :
  def_ok (Start.definition req) -> env_ok max env w -> inv max w ->
  inv max (Start.handle env req w).2 /\ ended_kept w (Start.handle env req w).2.
Proof.
  intros Hdok Heo Hi. pose proof (wp_start (view := view) env req w) as Hw. unfold wp in Hw.
  destruct (Start.handle env req w) as [res w']. cbn [fst snd] in *.
  assert (same w w' -> inv max w' /\ ended_kept w w') as Hsame.
  { intros Hs. split; [eapply (inv_touched max "" w); [by apply touched_same|done]|]. intros k r _ _. apply Hs. }
  assert (forall j, put (view := view) SCOPE_DEF (new_run_id (uuid env j)) (Some (to_value (stored_def req))) w w' ->
            inv max w' /\ ended_kept w w') as Hdef.
  { intros j Hp. destruct (eo_uuid _ _ _ Heo j) as [_ Hfree].
    assert (forall a b, a <> SCOPE_DEF \/ b <> new_run_id (uuid env j) -> stored w' a b = stored w a b) as Hf.
    { intros a b Hab. rewrite Hp, decide_False; [done|]. intros [-> ->]. by destruct Hab. }
    destruct (fresh_row_inv max w w' (new_run_id (uuid env j)) Hfree) as [Hi' Hk'].
    - intros k _. apply Hf. by left.
    - intros k Hne. apply Hf. by right.
    - intros k. apply Hf. by left.
    - intros v r. rewrite Hf by (by left). by rewrite Hfree.
    - intros r. rewrite run_of_none; [done|]. rewrite Hf by (by left). done.
    - done.
    - split; [done|]. intros k r Hr _. by apply (Hk' k r). }
  assert (forall j r, launched (view := view) env req (new_run_id (uuid env j)) w w' r -> inv max w' /\ ended_kept w w') as Hla.
  { intros j r Hl. destruct (eo_uuid _ _ _ Heo j) as [Hsl Hfree]. set (id := new_run_id (uuid env j)) in *.
    assert (num_ok r /\ run_id r = id /\ run_nodes r = ∅ /\ fanout_src r = ∅) as (Hn & Hid & Hnodes & Hsrc).
    { destruct (la_record _ _ _ _ _ _ Hl) as (i & [->|(j' & msg & ->)]);
        destruct (StartProperties.initial_num env req id i (eo_clock _ _ _ Heo)); split_and!; try done.
      split; try done. apply Heo. }
    destruct (StartProperties.launched_read env req id w w' r Hdok Hn Hl) as [Hread Hd].
    destruct (fresh_row_inv max w w' id Hfree) as [Hi' Hk'].
    - intros k Hne. apply (la_frame _ _ _ _ _ _ Hl); [by intros [_ ?]|by intros [? _]].
    - intros k Hne. apply (la_frame _ _ _ _ _ _ Hl); [by intros [_ ?]|by intros [? _]].
    - intros k. apply (la_frame _ _ _ _ _ _ Hl); [by intros [[?|?] _]|by intros [? _]].
    - intros v r' Hv Hr'. rewrite (la_run _ _ _ _ _ _ Hl) in Hv. apply (inj Some) in Hv. subst v.
      rewrite (run_record_canon r Hn) in Hr'. by injection Hr' as <-.
    - intros r' Hr'. rewrite Hread in Hr'. injection Hr' as <-. split; [by apply new_id_slash|..].
      + intros u c Hc. change (run_nodes (canon r)) with (run_nodes r) in Hc. by rewrite Hnodes, lookup_empty in Hc.
      + intros _. split.
        * intros u c Hc. change (run_nodes (canon r)) with (run_nodes r) in Hc. by rewrite Hnodes, lookup_empty in Hc.
        * pose proof (la_valid _ _ _ _ _ _ Hl) as Hv. exists (stored_def req).
          split_and!; [done|by apply valid_ids_ok|apply Hv|apply Hv|].
          destruct (StartProperties.initial_rec_ok (stored_def req) req id 0%Z) as [H1 H2 H3 H4].
          split; unfold src_ok, uid_state in *; change (run_nodes (canon r)) with (run_nodes r);
            change (fanout_src (canon r)) with (fanout_src r); by rewrite ?Hnodes, ?Hsrc.
    - done.
    - split; [done|]. intros k r' Hr' _. by apply (Hk' k r'). }
  destruct res as [id|e].
  - destruct Hw as [[Hs _]|(j & i & -> & Hl & _)]; [by apply Hsame|by eapply Hla].
  - destruct Hw as [Hs|(j & [Hp|[r Hl]])]; [by apply Hsame|by eapply Hdef|by eapply Hla].
Qed.

(** The records of ended runs stay, but that a sweep deletes those that have expired. *)
Definition ended_until_swept env (e : Event) w w' : Prop :=
  match e with ESweep => ended_or_expired env w w' | _ => ended_kept w w' end.

(** Every event keeps the invariant, and the records of ended runs until they are swept. *)
Lemma exec_inv max env e w :
  env_ok max env w -> inv max w -> inv max (exec env e w) /\ ended_until_swept env e w (exec env e w).
Proof.
  intros Heo Hi. assert (forall id w', touched max id w w' -> inv max w' /\ ended_kept w w') as Htouch.
  { intros id w' Ht. split; [by eapply inv_touched|]. intros k r Hr Hend. by eapply touched_terminal. }
  assert (forall w', same w w' -> inv max w' /\ ended_kept w w') as Hsame.
  { intros w' Hs. by apply (Htouch ""), touched_same. }
  destruct e as [v|id n| |id|sid|id|id uid]; cbn [exec ended_until_swept].
  - destruct (Start.start_request v) as [req|] eqn:Hreq; [|apply Hsame, same_refl].
    destruct (start_inv max env req w (StartProperties.start_request_ok v req Hreq) Heo Hi) as [Hi' Hk].
    split; [done|]. intros k r Hr Ht. by apply (Hk k r).
  - apply (Htouch id), tick_touched; [done|apply Hi].
  - by apply sweep_inv.
  - apply (Htouch id), stop_touched; [done|apply Hi].
  - apply Hsame, reads_wake.
  - apply Hsame, reads_status.
  - apply Hsame, reads_node_result.
Qed.

(** *** Histories *)

(** One delivery, with whatever the outside decides during it. *)
Definition step (max : Z) w w' : Prop := exists env e, env_ok max env w /\ w' = exec env e w.

Lemma history_steps_inv max w w' : rtc (step max) w w' -> inv max w -> inv max w'.
Proof.
  induction 1 as [|w w1 w2 (env & e & Heo & ->) _ IH]; [done|]. intros Hi. apply IH. by apply exec_inv.
Qed.

(** No run is stored. *)
Definition initial w : Prop := forall k, stored w SCOPE_RUN k = None.

Lemma history_initial_inv max w : initial w -> inv max w.
Proof.
  intros Hw. split; [intros k v r Hv; by rewrite Hw in Hv|]. intros k r Hr. by rewrite run_of_none in Hr.
Qed.

End Invariant.

End System.

(** ** Properties *)

Module SystemProperties.
Import Ids Dag Store StoreRules TickRules StartRules System.

Section Any.
Context {St : Type} `{StateBus St} {view : St -> string -> string -> option Value}.
Context {Laws : StateBusLaws St view} `{SerdeText}.
Implicit Types (w : World St).
Abbreviation stored := (stored (view := view)).
Abbreviation run_of := (TickProperties.run_of (view := view)).
Abbreviation def_of := (TickProperties.def_of (view := view)).
Abbreviation step := (step (view := view)).
Abbreviation env_ok := (env_ok (view := view)).
Abbreviation initial := (initial (view := view)).

(** C2: what holds of the store after every history of deliveries to the worker, in any order
    and with any calls lost: a run is stored under its own id; every checkpoint names only
    rows of its own run and was fired again at most [max] times; and a run that has not ended
    has its definition stored, that definition can be scheduled, the record fits it, and every
    node marked done has a stored result. *)
Theorem every_history_keeps_invariant (max : Z) w0 w id r :
  initial w0 -> rtc (step max) w0 w -> run_of w id = Some r ->
  run_id r = id /\
  (forall uid c, run_nodes r !! uid = Some c ->
     (forall k, result_ref c = Some k -> k = node_result_key id uid) /\
     (forall s, session_id c = Some s -> exists u, s = child_session_id id u) /\ (retries c <= max)%Z) /\
  (is_terminal (status r) = false ->
     (forall uid c, run_nodes r !! uid = Some c -> state c = Done ->
        is_Some (stored w SCOPE_RESULT (node_result_key id uid))) /\
     exists def, def_of w id = Some def /\ ids_ok def /\ closed def /\ acyclic def /\
       is_Some (nodes def !! output_node def) /\ rec_ok def r).
Proof.
  intros Hini Hsteps Hr. destruct (history_steps_inv max w0 w Hsteps (history_initial_inv max w0 Hini)) as [Hk Hruns].
  assert (run_id r = id) as Hid.
  { apply TickProperties.run_of_decode, decode_stored in Hr as (v & Hv & _ & Hf). by apply (Hk id v). }
  destruct (Hruns id r Hr) as [_ Ho Hl]. split_and!; [done| |].
  - intros uid c Hc. destruct (Ho uid c Hc) as [H1 H2 H3]. by rewrite Hid in *.
  - intros Ht. destruct (Hl Ht) as [Hres (def & Hd & Hi & Ha & Hout & Hok)]. split.
    + intros uid c Hc Hdone. rewrite <-Hid. by apply (Hres uid c).
    + exists def. destruct (proj1 (validate_acyclic_spec def) Ha). by split_and!.
Qed.

(** C23: a run that has ended stays as it ended: after any history, no delivery changes the
    record of a run that completed, failed or was cancelled; the delivery that deletes it is a
    sweep, and the record is then older than the retention. *)
Theorem ended_runs_stay_ended (max : Z) w0 w env e id r :
  initial w0 -> rtc (step max) w0 w -> env_ok max env w -> run_of w id = Some r -> is_terminal (status r) = true ->
  stored (exec env e w) SCOPE_RUN id = stored w SCOPE_RUN id \/
  (e = ESweep /\ stored (exec env e w) SCOPE_RUN id = None /\ expired env r).
Proof.
  intros Hini Hsteps Heo Hr Ht. pose proof (history_steps_inv max w0 w Hsteps (history_initial_inv max w0 Hini)) as Hi.
  pose proof (proj2 (exec_inv max env e w Heo Hi)) as Hk. destruct e; try (left; by apply (Hk id r)). destruct (Hk id r Hr Ht) as [?|[? ?]]; auto.
Qed.

(** C24: after any history, a tick that takes effect makes progress: it ends the run with no
    node left running, or leaves a node running, or has expanded a fan-out for good. *)
Theorem every_effective_tick_progresses (max : Z) w0 w env id n w1 :
  initial w0 -> rtc (step max) w0 w -> env_ok max env w -> Tick.handle env id n w = (Ok false, w1) ->
  exists def r r', run_of w id = Some r /\ def_of w id = Some def /\ run_of w1 id = Some r' /\ rec_ok def r' /\
    ((is_terminal (status r') = true /\ forall uid, uid_state r' uid <> Some NRunning) \/
     (status r' = AwaitingNodes /\
      ((exists uid, uid_state r' uid = Some NRunning) \/ size (unexpanded def r') < size (unexpanded def r)))).
Proof.
  intros Hini Hsteps Heo He. pose proof (history_steps_inv max w0 w Hsteps (history_initial_inv max w0 Hini)) as [Hk Hruns].
  pose proof (TickProperties.handle_cases env id n w Hk) as Hc. rewrite He in Hc.
  destruct Hc as [_ [[? _]|(def & r & rF & Hst)]]; [done|].
  pose proof (sp_record _ _ _ _ _ _ _ _ Hst) as Hr. apply TickProperties.run_of_decode in Hr.
  pose proof (sp_def _ _ _ _ _ _ _ _ Hst) as Hd. apply TickProperties.def_of_decode in Hd.
  assert (is_terminal (status r) = false) as Ht.
  { pose proof (sp_fresh _ _ _ _ _ _ _ _ Hst) as Hfr. unfold Tick.tick_is_stale in Hfr. by apply orb_false_iff in Hfr as [_ ?]. }
  destruct (Hruns id r Hr) as [_ _ Hl]. destruct (Hl Ht) as [_ (def' & Hd' & Hi & Ha & Hout & Hok)].
  assert (def' = def) as -> by congruence.
  destruct (TickProperties.step_advances env id n w w1 def r (eo_clock _ _ _ Heo) Hk Hr Hd Hi Ha Hout Hok He) as (r' & Hr' & Hok' & Hp).
  by exists def, r, r'.
Qed.
End Any.

(** *** Concrete instances *)

Abbreviation Ctx := (Service.StateCtx Kv.KvStore).
#[local] Instance text : SerdeText := SampleText.text.
#[local] Instance bus : StateBus Ctx := service_bus (H := ServiceProperties.memory).
Abbreviation see := TickProperties.see.
#[local] Instance bus_laws : StateBusLaws Ctx see := service_bus_laws (Laws := ServiceProperties.memory_laws).

(** Every call is answered but the one with number [lost]; ids are drawn from [u]. *)
Definition env_of (u : string) (lost : nat) : Env :=
  {| fault := λ i, if decide (i = lost) then Lost "gone" else Answered; reply := λ _, json_obj [("turn_id", Str "t1")];
     clock := λ _, 100%Z; uuid := λ _, u; observed := true;
     cfg := mk_config 1000 "0 * * * * *" 30000 1 true |}.

Definition launch_event : Event := EStart (StartProperties.request None None).
Definition empty : World Ctx := StartProperties.empty_world.
Definition running : World Ctx := exec (env_of "1" 99) launch_event empty.
Definition ended : World Ctx := exec (env_of "1" 5) launch_event empty.
Definition fired : World Ctx := exec (env_of "2" 99) (ETick "r_1" 0) running.

Lemma env_of_ok (u : string) lost (w : World Ctx) :
  contains_char "/" u = false -> stored (view := see) w SCOPE_RUN (new_run_id u) = None ->
  (forall v s r, sb_list SCOPE_RUN (st w) = (Ok v, s) -> r ∈ parse_record_list v ->
     TickProperties.run_of (view := see) w (run_id r) = Some r) ->
  System.env_ok (view := see) 1 (env_of u lost) w.
Proof. intros Hu Hf Hl. split; [done|split; vm_compute; discriminate|done|done|exact Hl]. Qed.

Lemma empty_initial : System.initial (view := see) empty.
Proof. intros k. reflexivity. Qed.

(** A listing that holds one record, stored under its id. *)
Ltac one_run :=
  let v := fresh in let s := fresh in let r := fresh in let Hl := fresh in let Hin := fresh in
  intros v s r Hl Hin; vm_compute in Hl; injection Hl as <- <-; vm_compute in Hin;
  first [ by apply elem_of_nil in Hin | apply list_elem_of_singleton in Hin as ->; vm_compute; reflexivity ].

Lemma launch_step lost : rtc (System.step (view := see) 1) empty (exec (env_of "1" lost) launch_event empty).
Proof.
  apply rtc_once. exists (env_of "1" lost), launch_event. split; [|reflexivity].
  apply env_of_ok; [reflexivity|reflexivity|one_run].
Qed.

Lemma every_history_keeps_invariant_witness :
  exists r, TickProperties.run_of (view := see) running "r_1" = Some r /\ run_id r = "r_1".
Proof.
  eexists. split; [vm_compute; reflexivity|].
  refine (proj1 (every_history_keeps_invariant (view := see) 1 empty running "r_1" _ empty_initial (launch_step 99) _)).
  vm_compute. reflexivity.
Defined.

Lemma ended_runs_stay_ended_witness :
  stored (view := see) (exec (env_of "2" 99) (ETick "r_1" 0) ended) SCOPE_RUN "r_1" = stored (view := see) ended SCOPE_RUN "r_1".
Proof.
  assert (exists r, TickProperties.run_of (view := see) ended "r_1" = Some r /\ is_terminal (status r) = true) as (r & Hr & Ht).
  { eexists. split; vm_compute; reflexivity. }
  destruct (ended_runs_stay_ended (view := see) 1 empty ended (env_of "2" 99) (ETick "r_1" 0) "r_1" r) as [Hs|(_ & Hn & _)].
  - exact empty_initial.
  - exact (launch_step 5).
  - apply env_of_ok; [reflexivity|vm_compute; reflexivity|one_run].
  - exact Hr.
  - exact Ht.
  - exact Hs.
  - vm_compute in Hn. discriminate.
Defined.

Lemma every_effective_tick_progresses_witness :
  exists r, TickProperties.run_of (view := see) fired "r_1" = Some r.
Proof.
  destruct (every_effective_tick_progresses (view := see) 1 empty running (env_of "2" 99) "r_1" 0 fired)
    as (def & r & r' & _ & _ & Hr & _).
  - exact empty_initial.
  - exact (launch_step 99).
  - apply env_of_ok; [reflexivity|vm_compute; reflexivity|one_run].
  - assert ((Tick.handle (env_of "2" 99) "r_1" 0 running).1 = Ok false) as He by (vm_compute; reflexivity).
    unfold fired. cbn [exec]. rewrite <-He. by destruct (Tick.handle (env_of "2" 99) "r_1" 0 running).
  - exists r'. exact Hr.
Defined.

End SystemProperties.
