(* ===== verification/ConfigClient.v ===== *)
(** * The client of the configuration worker (crates/config-client/src/initialization.rs, queue/src/configuration.rs)

    How a worker installs, reads and writes the configuration entry it owns.  Every call goes
    over the bus, [call] on a world [W]; a failed call is retried unless the answer is final
    ([Client]).  [ClientProperties] shows that installing a first value never overwrites a
    stored one. *)

From Stdlib Require Import Ascii ZArith Lia.
From S2P Require Import Prelude Json.

Module Client.

(** The SDK's errors: a remote one has a code and a message, and prints as [remote error (code):
    message]; any other one is its text. *)
Inductive CallError : Type :=
| Remote (code message : string)
| OtherError (text : string).

Definition error_text (e : CallError) : string :=
  match e with Remote code message => "remote error (" +:+ code +:+ "): " +:+ message | OtherError t => t end.

Definition CONFIG_RETRIES : Z := 3.

(** An answer that another attempt cannot change. *)
Definition is_final (e : CallError) : bool :=
  match e with Remote code _ => bool_decide (code = "function_not_found") || bool_decide (code = "NOT_FOUND") | OtherError _ => false end.

Definition retry_wrapper (fn : string) : string := fn +:+ " failed after " +:+ pretty CONFIG_RETRIES +:+ " attempts: ".

(** A NOT_FOUND envelope, plain or behind the wrapper of the retries of [configuration::get]. *)
Definition remote_code (error fn code : string) : bool :=
  let trimmed := trim error in
  let raw := default trimmed (strip_prefix (retry_wrapper fn) trimmed) in
  let envelope := "remote error (" +:+ code +:+ "):" in
  bool_decide (raw = code) || bool_decide (raw = envelope) || starts_with (envelope +:+ " ") raw.

Definition is_not_found (error : string) : bool := remote_code error "configuration::get" "NOT_FOUND".

Section WithBus.
Context {W : Type} (bus : string -> Value -> W -> result Value CallError * W).

(** The attempts left. *)
Fixpoint attempts (left : nat) (fn : string) (payload : Value) (last : string) (w : W) : result Value string * W :=
  match left with
  | O => (Err (retry_wrapper fn +:+ last), w)
  | S left' =>
      match bus fn payload w with
      | (Ok v, w1) => (Ok v, w1)
      | (Err e, w1) => if is_final e then (Err (error_text e), w1) else attempts left' fn payload (error_text e) w1
      end
  end.

Definition call_configuration_with_retry (fn : string) (payload : Value) (w : W) : result Value string * W :=
  attempts (Z.to_nat CONFIG_RETRIES) fn payload "" w.

End WithBus.

Section WithCall.
Context {W : Type} (call : string -> Value -> W -> result Value string * W).

Definition without_initial_value (payload : Value) : Value :=
  match payload with Obj m => Obj (obj_remove "initial_value" m) | v => v end.

(** Prefers the atomic [configuration::ensure]; an engine without it gets a read and a
    registration. *)
Definition ensure_with (payload : Value) (w : W) : result unit string * W :=
  match call "configuration::ensure" payload w with
  | (Ok _, w1) => (Ok tt, w1)
  | (Err error, w1) =>
      if negb (remote_code error "configuration::ensure" "function_not_found") then (Err error, w1)
      else match vget "id" payload ≫= as_str with
      | None => (Err "configuration initialization requires an id", w1)
      | Some id =>
          let register existing w2 :=
            let p := if is_null existing then payload else without_initial_value payload in
            match call "configuration::register" p w2 with (Ok _, w3) => (Ok tt, w3) | (Err e, w3) => (Err e, w3) end in
          match call "configuration::get" (json_obj [("id", Str id); ("raw", Bool true)]) w1 with
          | (Ok response, w2) =>
              match as_object response ≫= obj_get "value" with
              | Some existing => register existing w2
              | None => (Err "configuration::get returned no `value` field", w2)
              end
          | (Err e, w2) => if remote_code e "configuration::get" "NOT_FOUND" then register Null w2 else (Err e, w2)
          end
      end
  end.

(** A stored [null] the schema refuses is nothing usable; any other value it refuses is an
    error. *)
Definition get_value_with (id : string) (w : W) : result (option Value) string * W :=
  match call "configuration::get" (json_obj [("id", Str id)]) w with
  | (Ok response, w1) => (Ok (vget "value" response), w1)
  | (Err error, w1) =>
      if remote_code error "configuration::get" "NOT_FOUND" then (Ok None, w1)
      else if negb (remote_code error "configuration::get" "SCHEMA_INVALID") then (Err error, w1)
      else match call "configuration::get" (json_obj [("id", Str id); ("raw", Bool true)]) w1 with
      | (Ok response, w2) => match vget "value" response with Some Null => (Ok None, w2) | _ => (Err error, w2) end
      | (Err _, w2) => (Err error, w2)
      end
  end.

(** [try_get_config_value]. *)
Definition try_get_config_value (id : string) (w : W) : result (option Value) string * W :=
  match call "configuration::get" (json_obj [("id", Str id)]) w with
  | (Ok response, w1) => (Ok (vget "value" response), w1)
  | (Err e, w1) => if is_not_found e then (Ok None, w1) else (Err e, w1)
  end.

End WithCall.

(** Keeps the calls that were made, newest last. *)
Definition logged {W} (call : string -> Value -> W -> result Value string * W)
  (fn : string) (payload : Value) (w : W * list (string * Value)) : result Value string * (W * list (string * Value)) :=
  let '(r, w1) := call fn payload w.1 in (r, (w1, w.2 ++ [(fn, payload)])).

End Client.

(** ** Properties *)

Module ClientProperties.
Import Client.

(** What [configuration::get] answered about a stored value: something is stored. *)
Definition something_stored (answer : result Value string) : bool :=
  match answer with
  | Ok response => match as_object response ≫= obj_get "value" with Some v => negb (is_null v) | None => true end
  | Err e => negb (remote_code e "configuration::get" "NOT_FOUND")
  end.

(** Installing a first value is left to the atomic [configuration::ensure] wherever the engine
    has it.  Only an engine that answers that the function is missing gets the registration, after
    a read, and the registration carries the first value only when the read found nothing stored:
    a failed or unreadable read registers nothing, and a stored value, [false] or 0 included, is
    never sent back. *)
Theorem ensure_keeps_stored_values {W} (call : string -> Value -> W -> result Value string * W) payload w :
  let '(_, (_, log)) := ensure_with (logged call) payload (w, []) in
  log = [("configuration::ensure", payload)] \/
  (exists e w1 id, call "configuration::ensure" payload w = (Err e, w1) /\
     remote_code e "configuration::ensure" "function_not_found" = true /\
     let probe := json_obj [("id", Str id); ("raw", Bool true)] in
     let answer := (call "configuration::get" probe w1).1 in
     (log = [("configuration::ensure", payload); ("configuration::get", probe)] \/
      exists registered, log = [("configuration::ensure", payload); ("configuration::get", probe); ("configuration::register", registered)] /\
        (vget "initial_value" registered <> None -> something_stored answer = false))).
Proof.
  unfold ensure_with, logged at 1. cbn [fst snd]. destruct (call "configuration::ensure" payload w) as [[v|e] w1] eqn:He; [by left|].
  destruct (remote_code e "configuration::ensure" "function_not_found") eqn:Hc; cbn [negb]; [|by left].
  destruct (vget "id" payload ≫= as_str) as [id|]; [|by left].
  assert (forall v, vget "initial_value" (if is_null v then payload else without_initial_value payload) <> None -> is_null v = true) as Hnull.
  { intros v. destruct (is_null v); [done|]. destruct payload as [| | | | |m]; try done. cbn. intros Hn. exfalso. apply Hn.
    unfold obj_remove. clear. induction m as [|[k x] m IH]; [done|]. rewrite filter_cons. case_decide as Hk; [|done].
    cbn. rewrite decide_False; [done|]. intros <-. by apply Hk. }
  unfold logged at 1. cbn [fst snd]. set (probe := json_obj _).
  destruct (call "configuration::get" probe w1) as [[response|e'] w2] eqn:Hg.
  - destruct (as_object response ≫= obj_get "value") as [existing|] eqn:Hv.
    + unfold logged. cbn [fst snd]. set (p := if is_null existing then _ else _).
      destruct (call "configuration::register" p w2) as [[r|e2] w3]; right; exists e, w1, id; split_and!; try done;
        fold probe; rewrite Hg; right; exists p; (split; [done|]); intros Hp; cbn [fst something_stored]; rewrite Hv; apply Hnull in Hp; by rewrite Hp.
    + right. exists e, w1, id. split_and!; try done. by left.
  - destruct (remote_code e' "configuration::get" "NOT_FOUND") eqn:Hn.
    + unfold logged. cbn [fst snd is_null]. destruct (call "configuration::register" payload w2) as [[r|e2] w3]; right; exists e, w1, id; split_and!; try done;
        fold probe; rewrite Hg; right; exists payload; (split; [done|]); intros _; cbn [fst something_stored]; by rewrite Hn.
    + right. exists e, w1, id. split_and!; try done. by left.
Qed.

End ClientProperties.
