(* ===== verification/QueueStore.v ===== *)
(** * The store of the queue worker (queue/src/store.rs, the in-memory half)

    A queue holds waiting jobs (ready or delayed), the jobs that are delivered and not yet
    settled, and the dead letters, per topic.  Every change is a [Mutation] that carries exact
    values; [apply] is the only code that changes a [StoreData], for the live path and for the
    replay of the journal alike.  Module [Queue] is the data, [apply] and the reads; Module
    [QueueRules] describes [apply] topic by topic and proves what a store keeps: jobs are moved,
    never lost or doubled, and the stored depths are the lengths. *)

From Stdlib Require Import Ascii ZArith Lia.
From S2P Require Import Prelude Json.
From S2P Require Export Codec.

Module Queue.

Record Job : Type := mk_job {
  job_id : string;
  payload : Value;
  attempts : Z;
  enqueued_at_ms : Z;
  ready_at_ms : Z;
}.

Record TopicStats : Type := mk_stats {
  depth : Z;
  dlq_depth : Z;
  delivered : Z;
  failed : Z;
}.

Definition no_stats : TopicStats := mk_stats 0 0 0 0.

Record StoreData : Type := mk_data {
  revision : Z;
  queues : gmap string (list Job);
  inflight : gmap string (list Job);
  dlqs : gmap string (list Job);
  stats : gmap string TopicStats;
}.

(** [StoreData::default()]. *)
Definition empty_data : StoreData := mk_data 0 ∅ ∅ ∅ ∅.

Inductive Mutation : Type :=
| Enqueue (topic : string) (job : Job)
| Dequeue (topic job_id : string)
| Ack (topic job_id : string)
| Nack (topic : string) (job : Job) (retrying : bool)
| Requeue (topic : string) (job : Job)
| RedriveDlq (topic : string) (ready_at_ms : Z)
| RedriveDlqMessage (topic job_id : string) (ready_at_ms : Z)
| DiscardDlqMessage (topic job_id : string).

(** *** Machine integers *)

Definition sat_u64 (z : Z) : Z := Z.min z u64_max.
Definition sat_u32 (z : Z) : Z := Z.min z u32_max.
Definition sat_sub (a b : Z) : Z := Z.max 0 (a - b).
Definition inc_u64 (z : Z) : Z := ((z + 1) mod 2 ^ 64)%Z.

(** [2_u64.saturating_pow(n)]. *)
Definition sat_pow2 (n : Z) : Z := if (n <? 64)%Z then (2 ^ n)%Z else u64_max.

Definition exponential_backoff_ms (backoff_ms attempts : Z) : Z :=
  sat_u64 (backoff_ms * sat_pow2 (sat_sub attempts 1)).

(** *** Changing one field *)

Definition with_revision (r : Z) (d : StoreData) : StoreData := mk_data r (queues d) (inflight d) (dlqs d) (stats d).
Definition with_queues (q : gmap string (list Job)) (d : StoreData) : StoreData :=
  mk_data (revision d) q (inflight d) (dlqs d) (stats d).
Definition with_inflight (i : gmap string (list Job)) (d : StoreData) : StoreData :=
  mk_data (revision d) (queues d) i (dlqs d) (stats d).
Definition with_dlqs (l : gmap string (list Job)) (d : StoreData) : StoreData :=
  mk_data (revision d) (queues d) (inflight d) l (stats d).
Definition with_stats (s : gmap string TopicStats) (d : StoreData) : StoreData :=
  mk_data (revision d) (queues d) (inflight d) (dlqs d) s.

Definition with_attempts (n : Z) (j : Job) : Job := mk_job (job_id j) (payload j) n (enqueued_at_ms j) (ready_at_ms j).
Definition with_ready (t : Z) (j : Job) : Job := mk_job (job_id j) (payload j) (attempts j) (enqueued_at_ms j) t.

(** [map.entry(topic).or_default()] of a map of lists. *)
Definition entry (m : gmap string (list Job)) (topic : string) : list Job := default [] (m !! topic).

(** [position(|job| job.id == id)] and [remove(index)]: the job and the others. *)
Fixpoint take_job (id : string) (l : list Job) : option (Job * list Job) :=
  match l with
  | [] => None
  | j :: rest =>
      if decide (job_id j = id) then Some (j, rest)
      else match take_job id rest with Some (x, others) => Some (x, j :: others) | None => None end
  end.

(** [len() as u64]. *)
Definition length_u64 (m : gmap string (list Job)) (topic : string) : Z :=
  (Z.of_nat (length (entry m topic)) mod 2 ^ 64)%Z.

Definition sync_depths (topic : string) (d : StoreData) : StoreData :=
  let s := default no_stats (stats d !! topic) in
  with_stats (<[topic := mk_stats (length_u64 (queues d) topic) (length_u64 (dlqs d) topic) (delivered s) (failed s)]>
                (stats d)) d.

Definition remove_inflight (topic id : string) (d : StoreData) : StoreData :=
  match inflight d !! topic with
  | None => d
  | Some jobs =>
      let rest := match take_job id jobs with Some (_, rest) => rest | None => jobs end in
      with_inflight (match rest with [] => delete topic (inflight d) | _ => <[topic := rest]> (inflight d) end) d
  end.

Definition count_delivered (topic : string) (d : StoreData) : StoreData :=
  let s := default no_stats (stats d !! topic) in
  with_stats (<[topic := mk_stats (depth s) (dlq_depth s) (inc_u64 (delivered s)) (failed s)]> (stats d)) d.

Definition count_failed (topic : string) (d : StoreData) : StoreData :=
  let s := default no_stats (stats d !! topic) in
  with_stats (<[topic := mk_stats (depth s) (dlq_depth s) (delivered s) (inc_u64 (failed s))]> (stats d)) d.

Definition push_back (topic : string) (j : Job) (d : StoreData) : StoreData :=
  with_queues (<[topic := entry (queues d) topic ++ [j]]> (queues d)) d.
Definition push_front (topic : string) (j : Job) (d : StoreData) : StoreData :=
  with_queues (<[topic := j :: entry (queues d) topic]> (queues d)) d.

(** [take_dlq_message]: the emptied list stays in the map. *)
Definition take_dlq_message (topic id : string) (d : StoreData) : option Job * StoreData :=
  match dlqs d !! topic with
  | None => (None, d)
  | Some jobs =>
      match take_job id jobs with
      | Some (j, rest) => (Some j, with_dlqs (<[topic := rest]> (dlqs d)) d)
      | None => (None, d)
      end
  end.

Definition apply (m : Mutation) (d : StoreData) : StoreData :=
  match m with
  | Enqueue topic job => sync_depths topic (push_back topic job d)
  | Dequeue topic id =>
      match queues d !! topic with
      | None => d
      | Some queue =>
          match take_job id queue with
          | None => d
          | Some (job, rest) =>
              let d1 := with_queues (match rest with [] => delete topic (queues d) | _ => <[topic := rest]> (queues d) end) d in
              let d2 := with_inflight (<[topic := entry (inflight d1) topic ++ [job]]> (inflight d1)) d1 in
              sync_depths topic d2
          end
      end
  | Ack topic id => count_delivered topic (remove_inflight topic id d)
  | Nack topic job retrying =>
      let d1 := remove_inflight topic (job_id job) d in
      let d2 := if retrying then push_back topic job d1
                else count_failed topic (with_dlqs (<[topic := entry (dlqs d1) topic ++ [job]]> (dlqs d1)) d1) in
      sync_depths topic d2
  | Requeue topic job => sync_depths topic (push_front topic job (remove_inflight topic (job_id job) d))
  | RedriveDlq topic ready =>
      let jobs := (λ j, with_ready ready (with_attempts 0 j)) <$> entry (dlqs d) topic in
      let d1 := with_dlqs (delete topic (dlqs d)) d in
      sync_depths topic (with_queues (<[topic := entry (queues d1) topic ++ jobs]> (queues d1)) d1)
  | RedriveDlqMessage topic id ready =>
      match take_dlq_message topic id d with
      | (None, d1) => d1
      | (Some j, d1) => sync_depths topic (push_back topic (with_ready ready (with_attempts 0 j)) d1)
      end
  | DiscardDlqMessage topic id => sync_depths topic (take_dlq_message topic id d).2
  end.

(** A mutation under its revision: what the live path and the replay both do. *)
Definition apply_at (r : Z) (m : Mutation) (d : StoreData) : StoreData := with_revision r (apply m d).

(** *** What the operations decide under the store's lock *)

(** [dequeue]: the first job that is ready. *)
Definition find_ready (topic : string) (now : Z) (d : StoreData) : option Job :=
  jobs ← queues d !! topic; find (λ j, (ready_at_ms j <=? now)%Z) jobs.

(** [enqueue]: the job it stores. *)
Definition new_job (uuid : string) (p : Value) (now : Z) : Job := mk_job uuid p 0 now now.

(** [nack]: the job with the attempt counted, due again after the backoff, and whether it is
    tried again; a job without a try left keeps its due time. *)
Definition nacked (j : Job) (max_retries backoff_ms now : Z) : Job * bool :=
  let j1 := with_attempts (sat_u32 (attempts j + 1)) j in
  let retrying := (attempts j1 <? max_retries)%Z in
  (if retrying then with_ready (sat_u64 (now + exponential_backoff_ms backoff_ms (attempts j1))) j1 else j1, retrying).

(** [next_ready_delay]: the time until the earliest waiting job is due. *)
Definition next_ready_delay (topic : string) (now : Z) (d : StoreData) : option Z :=
  match queues d !! topic with
  | Some (j :: rest) => Some (sat_sub (foldl Z.min (ready_at_ms j) (ready_at_ms <$> rest)) now)
  | _ => None
  end.

Definition dlq_contains (topic id : string) (d : StoreData) : bool :=
  match dlqs d !! topic with
  | Some jobs => existsb (λ j, bool_decide (job_id j = id)) jobs
  | None => false
  end.

(** *** The reads *)

Definition list_topics (d : StoreData) : list string :=
  sort_strings (remove_dups ((map_to_list (queues d)).*1 ++ (map_to_list (dlqs d)).*1 ++ (map_to_list (stats d)).*1)).

Definition topic_stats (topic : string) (d : StoreData) : TopicStats :=
  let s := default no_stats (stats d !! topic) in
  mk_stats (length_u64 (queues d) topic) (length_u64 (dlqs d) topic) (delivered s) (failed s).

Definition dlq_topics (d : StoreData) : list (string * Z) :=
  (λ p, (p.1, Z.of_nat (length p.2))) <$> filter (λ p : string * list Job, p.2 ≠ []) (btree_iter (dlqs d)).

Definition dlq_messages (topic : string) (limit : Z) (d : StoreData) : list Job :=
  take (Z.to_nat limit) (entry (dlqs d) topic).

(** *** Codecs *)

#[export] Instance Job_codec : Codec Job := {|
  to_value j := json_obj [("id", Str (job_id j)); ("payload", payload j); ("attempts", enc_u (attempts j));
    ("enqueued_at_ms", enc_u (enqueued_at_ms j)); ("ready_at_ms", enc_u (ready_at_ms j))];
  from_value v :=
    m ← as_object v;
    i ← req "id" as_str m; p ← req "payload" Some m; a ← req "attempts" (dec_u u32_max) m;
    e ← req "enqueued_at_ms" (dec_u u64_max) m; r ← dflt "ready_at_ms" (dec_u u64_max) 0%Z m;
    Some (mk_job i p a e r);
|}.

#[export] Instance TopicStats_codec : Codec TopicStats := {|
  to_value s := json_obj [("depth", enc_u (depth s)); ("dlq_depth", enc_u (dlq_depth s));
    ("delivered", enc_u (delivered s)); ("failed", enc_u (failed s))];
  from_value v :=
    m ← as_object v;
    a ← req "depth" (dec_u u64_max) m; b ← req "dlq_depth" (dec_u u64_max) m;
    c ← req "delivered" (dec_u u64_max) m; d ← req "failed" (dec_u u64_max) m;
    Some (mk_stats a b c d);
|}.

Definition enc_jobs (l : list Job) : Value := Arr (to_value <$> l).
Definition dec_jobs : Value -> option (list Job) := dec_list from_value.

#[export] Instance StoreData_codec : Codec StoreData := {|
  to_value d := json_obj [("revision", enc_u (revision d)); ("queues", enc_map enc_jobs (queues d));
    ("inflight", enc_map enc_jobs (inflight d)); ("dlqs", enc_map enc_jobs (dlqs d));
    ("stats", enc_map to_value (stats d))];
  from_value v :=
    m ← as_object v;
    r ← dflt "revision" (dec_u u64_max) 0%Z m; q ← req "queues" (dec_map dec_jobs) m;
    i ← dflt "inflight" (dec_map dec_jobs) ∅ m; l ← req "dlqs" (dec_map dec_jobs) m;
    s ← req "stats" (dec_map from_value) m;
    Some (mk_data r q i l s);
|}.

(** The externally tagged enum: an object with the name of the variant. *)
Definition mutation_fields (m : Mutation) : string * Fields :=
  match m with
  | Enqueue t j => ("Enqueue", [("topic", Str t); ("job", to_value j)])
  | Dequeue t i => ("Dequeue", [("topic", Str t); ("job_id", Str i)])
  | Ack t i => ("Ack", [("topic", Str t); ("job_id", Str i)])
  | Nack t j r => ("Nack", [("topic", Str t); ("job", to_value j); ("retrying", Bool r)])
  | Requeue t j => ("Requeue", [("topic", Str t); ("job", to_value j)])
  | RedriveDlq t r => ("RedriveDlq", [("topic", Str t); ("ready_at_ms", enc_u r)])
  | RedriveDlqMessage t i r => ("RedriveDlqMessage", [("topic", Str t); ("job_id", Str i); ("ready_at_ms", enc_u r)])
  | DiscardDlqMessage t i => ("DiscardDlqMessage", [("topic", Str t); ("job_id", Str i)])
  end.

Definition read_mutation (tag : string) (m : Fields) : option Mutation :=
  let topic := req "topic" as_str m in
  let id := req "job_id" as_str m in
  let job := req "job" from_value m in
  let ready := req "ready_at_ms" (dec_u u64_max) m in
  if decide (tag = "Enqueue") then t ← topic; j ← job; Some (Enqueue t j)
  else if decide (tag = "Dequeue") then t ← topic; i ← id; Some (Dequeue t i)
  else if decide (tag = "Ack") then t ← topic; i ← id; Some (Ack t i)
  else if decide (tag = "Nack") then t ← topic; j ← job; r ← req "retrying" as_bool m; Some (Nack t j r)
  else if decide (tag = "Requeue") then t ← topic; j ← job; Some (Requeue t j)
  else if decide (tag = "RedriveDlq") then t ← topic; r ← ready; Some (RedriveDlq t r)
  else if decide (tag = "RedriveDlqMessage") then t ← topic; i ← id; r ← ready; Some (RedriveDlqMessage t i r)
  else if decide (tag = "DiscardDlqMessage") then t ← topic; i ← id; Some (DiscardDlqMessage t i)
  else None.

#[export] Instance Mutation_codec : Codec Mutation := {|
  to_value m := let '(tag, fields) := mutation_fields m in Obj [(tag, json_obj fields)];
  from_value v := match v with Obj [(tag, Obj m)] => read_mutation tag m | _ => None end;
|}.

Record JournalEntry : Type := mk_entry { entry_revision : Z; mutation : Mutation }.

#[export] Instance JournalEntry_codec : Codec JournalEntry := {|
  to_value e := json_obj [("revision", enc_u (entry_revision e)); ("mutation", to_value (mutation e))];
  from_value v :=
    m ← as_object v; r ← req "revision" (dec_u u64_max) m; x ← req "mutation" from_value m; Some (mk_entry r x);
|}.

End Queue.

(** ** Rules *)

Module QueueRules.
Import Queue.

Implicit Types (d : StoreData) (m : Mutation) (t : string) (j : Job) (l : list Job).

(** *** Lists of jobs *)

Abbreviation ids l := (job_id <$> l).

Definition drop_job (id : string) l : list Job := match take_job id l with Some (_, r) => r | None => l end.

Lemma take_job_Some id l j r :
  take_job id l = Some (j, r) ->
  exists l1 l2, l = l1 ++ j :: l2 /\ r = l1 ++ l2 /\ job_id j = id /\ id ∉ ids l1.
Proof.
  revert r. induction l as [|x l IH]; intros r; cbn [take_job]; [done|]. case_decide as Hx.
  - intros [= -> ->]. exists [], r. split_and!; [done..|apply not_elem_of_nil].
  - destruct (take_job id l) as [[y r']|]; [|done]. intros [= -> <-].
    destruct (IH r' eq_refl) as (l1 & l2 & -> & -> & Hj & Hn). exists (x :: l1), l2. split_and!; [done..|].
    rewrite fmap_cons, elem_of_cons. intros [?|?]; [by subst|done].
Qed.

Lemma take_job_None id l : take_job id l = None <-> id ∉ ids l.
Proof.
  induction l as [|x l IH]; cbn [take_job]; [split; [intros _; apply not_elem_of_nil|done]|].
  rewrite fmap_cons, not_elem_of_cons. case_decide as Hx.
  - split; [done|]. intros [Hn _]. by destruct Hn.
  - destruct (take_job id l) as [[y r]|]; [|naive_solver]. split; [done|]. intros [_ Hn]. by apply IH in Hn.
Qed.

Lemma take_job_perm id l j r : take_job id l = Some (j, r) -> l ≡ₚ j :: r.
Proof. intros (l1 & l2 & -> & -> & _)%take_job_Some. by rewrite Permutation_middle. Qed.

Lemma take_job_is_Some id l : id ∈ ids l -> exists j r, take_job id l = Some (j, r) /\ job_id j = id.
Proof.
  intros Hin. destruct (take_job id l) as [[j r]|] eqn:Ht; [|by apply take_job_None in Ht].
  exists j, r. split; [done|]. apply take_job_Some in Ht as (? & ? & _ & _ & ? & _). done.
Qed.

Lemma drop_job_absent id l : id ∉ ids l -> drop_job id l = l.
Proof. unfold drop_job. intros Hn. by rewrite (proj2 (take_job_None id l)). Qed.

Lemma drop_job_perm id l : id ∈ ids l -> ids l ≡ₚ id :: ids (drop_job id l).
Proof.
  unfold drop_job. intros (j & r & Ht & Hj)%take_job_is_Some. rewrite Ht.
  apply take_job_perm in Ht. rewrite Ht, fmap_cons. by rewrite Hj.
Qed.

(** *** Entries of the maps, topic by topic *)

Lemma entry_is_Some (q : gmap string (list Job)) t l : q !! t = Some l -> entry q t = l.
Proof. unfold entry. by intros ->. Qed.

Lemma entry_insert (q : gmap string (list Job)) t t' l : entry (<[t := l]> q) t' = if decide (t' = t) then l else entry q t'.
Proof. unfold entry. case_decide; subst; by rewrite ?lookup_insert_eq, ?lookup_insert_ne. Qed.

Lemma entry_delete (q : gmap string (list Job)) t t' : entry (delete t q) t' = if decide (t' = t) then [] else entry q t'.
Proof. unfold entry. case_decide; subst; by rewrite ?lookup_delete_eq, ?lookup_delete_ne. Qed.

Lemma entry_shrink (q : gmap string (list Job)) t t' l :
  entry (match l with [] => delete t q | _ => <[t := l]> q end) t' = if decide (t' = t) then l else entry q t'.
Proof. destruct l; [apply entry_delete|apply entry_insert]. Qed.

Lemma remove_inflight_entry t id d t' :
  entry (inflight (remove_inflight t id d)) t' =
  if decide (t' = t) then drop_job id (entry (inflight d) t) else entry (inflight d) t'.
Proof.
  unfold remove_inflight. destruct (inflight d !! t) as [jobs|] eqn:Hi.
  - cbn [inflight with_inflight]. rewrite entry_shrink, (entry_is_Some _ _ _ Hi). done.
  - case_decide; [subst|done]. unfold entry. by rewrite Hi.
Qed.

Lemma remove_inflight_queues t id d : queues (remove_inflight t id d) = queues d.
Proof. unfold remove_inflight. by destruct (inflight d !! t). Qed.

Lemma remove_inflight_dlqs t id d : dlqs (remove_inflight t id d) = dlqs d.
Proof. unfold remove_inflight. by destruct (inflight d !! t). Qed.

Lemma remove_inflight_stats t id d : stats (remove_inflight t id d) = stats d.
Proof. unfold remove_inflight. by destruct (inflight d !! t). Qed.

Lemma take_dlq_cases t id d :
  match take_dlq_message t id d with
  | (Some j, d1) => exists r, take_job id (entry (dlqs d) t) = Some (j, r) /\ d1 = with_dlqs (<[t := r]> (dlqs d)) d
  | (None, d1) => d1 = d /\ id ∉ ids (entry (dlqs d) t)
  end.
Proof.
  unfold take_dlq_message. destruct (dlqs d !! t) as [jobs|] eqn:Hd.
  - rewrite (entry_is_Some _ _ _ Hd). destruct (take_job id jobs) as [[j r]|] eqn:Ht; [by exists r|].
    split; [done|]. by apply take_job_None.
  - split; [done|]. unfold entry. rewrite Hd. apply not_elem_of_nil.
Qed.

(** The jobs of a topic, wherever they are. *)
Definition held t d : list Job := entry (queues d) t ++ entry (inflight d) t ++ entry (dlqs d) t.

(** The ids a mutation adds to a topic and those it takes away. *)
Definition added m d : list (string * string) :=
  match m with
  | Enqueue t j => [(t, job_id j)]
  | Nack t j _ | Requeue t j => if decide (job_id j ∈ ids (entry (inflight d) t)) then [] else [(t, job_id j)]
  | _ => []
  end.

Definition removed m d : list (string * string) :=
  match m with
  | Ack t id => if decide (id ∈ ids (entry (inflight d) t)) then [(t, id)] else []
  | DiscardDlqMessage t id => if decide (id ∈ ids (entry (dlqs d) t)) then [(t, id)] else []
  | _ => []
  end.

Definition on_topic t (l : list (string * string)) : list string := (filter (λ p, p.1 = t) l).*2.

Lemma on_topic_one t t' id : on_topic t [(t', id)] = if decide (t' = t) then [id] else [].
Proof. unfold on_topic. rewrite filter_cons. simpl. by case_decide. Qed.

(** *** Conservation *)

Lemma held_sync t t' d : held t' (sync_depths t d) = held t' d.
Proof. done. Qed.

Lemma ids_app l1 l2 : ids (l1 ++ l2) = ids l1 ++ ids l2.
Proof. apply fmap_app. Qed.

Lemma ids_reset ready l : ids ((λ j, with_ready ready (with_attempts 0 j)) <$> l) = ids l.
Proof. by rewrite <-list_fmap_compose. Qed.

(** A job that leaves the in-flight set of its topic, if it is there. *)
Lemma inflight_out id l : ids l ≡ₚ (if decide (id ∈ ids l) then [id] else []) ++ ids (drop_job id l).
Proof. case_decide; [by apply drop_job_perm|by rewrite drop_job_absent]. Qed.

Lemma on_topic_nil t : on_topic t [] = [].
Proof. done. Qed.

(** Normalises the entries of a topic after a mutation of topic [u]. *)
Ltac entries t u :=
  unfold held; cbn [snd push_back push_front count_failed count_delivered sync_depths queues inflight dlqs stats with_queues
    with_inflight with_dlqs with_stats];
  rewrite ?remove_inflight_queues, ?remove_inflight_dlqs, ?entry_insert, ?entry_delete, ?entry_shrink,
    ?remove_inflight_entry;
  cbn [queues inflight dlqs stats with_queues with_inflight with_dlqs with_stats];
  rewrite ?on_topic_one, ?on_topic_nil; rewrite ?(decide_ext (u = t) (t = u)) by (by split);
  destruct (decide (t = u)) as [->|]; rewrite ?app_nil_r; [|try done].

Lemma on_topic_if t u id (P : Prop) `{Decision P} :
  on_topic t (if decide P then [] else [(u, id)]) = if decide (u = t) then (if decide P then [] else [id]) else [].
Proof. case_decide; rewrite ?on_topic_one; by repeat case_decide. Qed.

Lemma on_topic_if' t u id (P : Prop) `{Decision P} :
  on_topic t (if decide P then [(u, id)] else []) = if decide (u = t) then (if decide P then [id] else []) else [].
Proof. case_decide; rewrite ?on_topic_one; by repeat case_decide. Qed.

(** Every mutation moves jobs within their topic, and adds and removes exactly the ids it says. *)
Lemma apply_held m d t :
  ids (held t (apply m d)) ++ on_topic t (removed m d) ≡ₚ ids (held t d) ++ on_topic t (added m d).
Proof.
  destruct m as [u j|u id|u id|u j b|u j|u ready|u id ready|u id]; cbn [apply added removed];
    rewrite ?on_topic_if, ?on_topic_if'.
  - (* enqueue *)
    entries t u. rewrite !ids_app. simpl. solve_Permutation.
  - (* dequeue *)
    rewrite on_topic_nil, !app_nil_r. destruct (queues d !! u) as [queue|] eqn:Hq; [|done].
    destruct (take_job id queue) as [[j rest]|] eqn:Ht; [|done]. entries t u.
    rewrite (entry_is_Some _ _ _ Hq), !ids_app. apply take_job_perm in Ht. rewrite Ht. simpl. solve_Permutation.
  - (* ack *)
    pose proof (inflight_out id (entry (inflight d) u)) as Hp. entries t u.
    destruct (decide (id ∈ _)); rewrite !ids_app, Hp; solve_Permutation.
  - (* nack *)
    pose proof (inflight_out (job_id j) (entry (inflight d) u)) as Hp.
    destruct b; entries t u; destruct (decide (job_id j ∈ _)); rewrite !ids_app, Hp; simpl; solve_Permutation.
  - (* requeue *)
    pose proof (inflight_out (job_id j) (entry (inflight d) u)) as Hp.
    entries t u; destruct (decide (job_id j ∈ _)); rewrite !ids_app, Hp; simpl; solve_Permutation.
  - (* redrive *)
    entries t u. rewrite !ids_app, ids_reset. simpl. solve_Permutation.
  - (* redrive one *)
    rewrite !on_topic_nil, !app_nil_r. pose proof (take_dlq_cases u id d) as Hc.
    destruct (take_dlq_message u id d) as [[j|] d1]; [|by destruct Hc as [-> _]]. destruct Hc as (r & Ht & ->).
    entries t u. rewrite !ids_app. apply take_job_perm in Ht. rewrite Ht. simpl. solve_Permutation.
  - (* discard *)
    pose proof (take_dlq_cases u id d) as Hc. destruct (take_dlq_message u id d) as [[j|] d1].
    + destruct Hc as (r & Ht & ->). apply take_job_Some in Ht as Hid.
      destruct Hid as (_ & _ & _ & _ & Hid & _). apply take_job_perm in Ht.
      assert (id ∈ ids (entry (dlqs d) u)) as Hin by (rewrite Ht, fmap_cons, Hid; by left).
      rewrite (decide_True (P := id ∈ _)) by done.
      entries t u. rewrite !ids_app, Ht. simpl. rewrite Hid. solve_Permutation.
    + destruct Hc as [-> Hn]. rewrite (decide_False (P := id ∈ _)) by done. simpl. rewrite held_sync, !app_nil_r. by destruct (decide (u = t)); rewrite ?app_nil_r.
Qed.

(** *** Well-formed stores *)

Section WithPayloads.
Context (P : Value -> Prop).

Record job_ok j : Prop := {
  job_payload_ok : P (payload j);
  job_attempts_ok : in_range 0 u32_max (attempts j);
  job_enqueued_ok : in_range 0 u64_max (enqueued_at_ms j);
  job_ready_ok : in_range 0 u64_max (ready_at_ms j);
}.

Record stats_ok (s : TopicStats) : Prop := {
  stats_depth_ok : in_range 0 u64_max (depth s);
  stats_dlq_ok : in_range 0 u64_max (dlq_depth s);
  stats_delivered_ok : in_range 0 u64_max (delivered s);
  stats_failed_ok : in_range 0 u64_max (failed s);
}.

Definition jobs_ok (q : gmap string (list Job)) : Prop := map_Forall (λ _ l, Forall job_ok l) q.

Definition mutation_ok m : Prop :=
  match m with
  | Enqueue _ j | Nack _ j _ | Requeue _ j => job_ok j
  | RedriveDlq _ r | RedriveDlqMessage _ _ r => in_range 0 u64_max r
  | _ => True
  end.

(** Every number is in its range and every payload is as [P] says, the stored depths are the lengths, and a topic with nothing
    in flight has no entry there. *)
Record wf d : Prop := {
  wf_revision : in_range 0 u64_max (revision d);
  wf_queues : jobs_ok (queues d);
  wf_inflight : jobs_ok (inflight d);
  wf_dlqs : jobs_ok (dlqs d);
  wf_stats : map_Forall (λ _ s, stats_ok s) (stats d);
  wf_depths : forall t, let s := default no_stats (stats d !! t) in
    depth s = length_u64 (queues d) t /\ dlq_depth s = length_u64 (dlqs d) t;
  wf_nonempty : map_Forall (λ _ l, l <> []) (inflight d);
}.

Lemma jobs_ok_entry q t : jobs_ok q -> Forall job_ok (entry q t).
Proof. intros Hq. unfold entry. destruct (q !! t) as [l|] eqn:Hl; simpl; [by apply (Hq t l)|constructor]. Qed.

Lemma jobs_ok_insert q t l : jobs_ok q -> Forall job_ok l -> jobs_ok (<[t := l]> q).
Proof. intros Hq Hl. by apply map_Forall_insert_2. Qed.

Lemma jobs_ok_delete q t : jobs_ok q -> jobs_ok (delete t q).
Proof. apply map_Forall_delete. Qed.

Lemma jobs_ok_shrink q t l :
  jobs_ok q -> Forall job_ok l -> jobs_ok (match l with [] => delete t q | _ => <[t := l]> q end).
Proof. intros Hq Hl. destruct l; [by apply jobs_ok_delete|by apply jobs_ok_insert]. Qed.

Lemma take_job_ok id l j r : Forall job_ok l -> take_job id l = Some (j, r) -> job_ok j /\ Forall job_ok r.
Proof. intros Hl Ht. apply take_job_perm in Ht. rewrite Ht in Hl. by apply Forall_cons in Hl. Qed.

Lemma drop_job_ok id l : Forall job_ok l -> Forall job_ok (drop_job id l).
Proof. intros Hl. unfold drop_job. destruct (take_job id l) as [[j r]|] eqn:Ht; [|done]. exact (proj2 (take_job_ok _ _ _ _ Hl Ht)). Qed.

#[local] Hint Resolve jobs_ok_entry jobs_ok_insert jobs_ok_delete drop_job_ok : workers.

Lemma length_u64_ok q t : in_range 0 u64_max (length_u64 q t).
Proof. unfold in_range, length_u64, u64_max. pose proof (Z.mod_pos_bound (Z.of_nat (length (entry q t))) (2 ^ 64)). lia. Qed.

Lemma inc_u64_ok z : in_range 0 u64_max (inc_u64 z).
Proof. unfold in_range, inc_u64, u64_max. pose proof (Z.mod_pos_bound (z + 1) (2 ^ 64)). lia. Qed.

Lemma no_stats_ok : stats_ok no_stats.
Proof. split; unfold in_range, u64_max; simpl; lia. Qed.

Lemma stats_at d t : map_Forall (λ _ s, stats_ok s) (stats d) -> stats_ok (default no_stats (stats d !! t)).
Proof. intros Hs. destruct (stats d !! t) as [s|] eqn:He; [by apply (Hs t s)|apply no_stats_ok]. Qed.

(** What a store keeps while the depths of one topic may be out of date. *)
Record wf_but t d : Prop := {
  wfb_revision : in_range 0 u64_max (revision d);
  wfb_queues : jobs_ok (queues d);
  wfb_inflight : jobs_ok (inflight d);
  wfb_dlqs : jobs_ok (dlqs d);
  wfb_stats : map_Forall (λ _ s, stats_ok s) (stats d);
  wfb_depths : forall u, u <> t -> let s := default no_stats (stats d !! u) in
    depth s = length_u64 (queues d) u /\ dlq_depth s = length_u64 (dlqs d) u;
  wfb_nonempty : map_Forall (λ _ l, l <> []) (inflight d);
}.

Lemma wf_but_of t d : wf d -> wf_but t d.
Proof. intros [? ? ? ? ? Hd ?]. split; try done. intros u _. apply Hd. Qed.

Lemma sync_wf t d : wf_but t d -> wf (sync_depths t d).
Proof.
  intros [? ? ? ? Hs Hd ?]. split; try done; cbn [sync_depths stats with_stats queues dlqs].
  - apply map_Forall_insert_2; [|done]. pose proof (stats_at d t Hs) as [_ _ ? ?].
    split; [apply length_u64_ok|apply length_u64_ok|done|done].
  - intros u. destruct (decide (u = t)) as [->|Hu]; [by rewrite lookup_insert_eq|].
    rewrite lookup_insert_ne by done. by apply Hd.
Qed.

Lemma entry_other (q : gmap string (list Job)) t u l : u <> t -> length_u64 (<[t := l]> q) u = length_u64 q u.
Proof. intros Hu. unfold length_u64. by rewrite entry_insert, decide_False. Qed.

Lemma wf_but_queues t l d : wf_but t d -> Forall job_ok l -> wf_but t (with_queues (<[t := l]> (queues d)) d).
Proof.
  intros [? ? ? ? ? Hd ?] Hl. split; try done; simpl; [by apply jobs_ok_insert|].
  intros u Hu. rewrite entry_other by done. by apply Hd.
Qed.

Lemma wf_but_dlqs t l d : wf_but t d -> Forall job_ok l -> wf_but t (with_dlqs (<[t := l]> (dlqs d)) d).
Proof.
  intros [? ? ? ? ? Hd ?] Hl. split; try done; simpl; [by apply jobs_ok_insert|].
  intros u Hu. rewrite entry_other by done. by apply Hd.
Qed.

Lemma wf_but_stats t s d : wf_but t d -> stats_ok s -> wf_but t (with_stats (<[t := s]> (stats d)) d).
Proof.
  intros [? ? ? ? ? Hd ?] Hl. split; try done; simpl; [by apply map_Forall_insert_2|].
  intros u Hu. rewrite lookup_insert_ne by done. by apply Hd.
Qed.

Lemma remove_inflight_ok t id d :
  jobs_ok (inflight d) -> map_Forall (λ _ l, l <> []) (inflight d) ->
  jobs_ok (inflight (remove_inflight t id d)) /\ map_Forall (λ _ l, l <> []) (inflight (remove_inflight t id d)).
Proof.
  intros Hi Hn. unfold remove_inflight. destruct (inflight d !! t) as [l|] eqn:Hl; [|done]. cbn [inflight with_inflight].
  fold (drop_job id l). split; [apply jobs_ok_shrink; [done|apply drop_job_ok; by apply (Hi t l)]|].
  destruct (drop_job id l) as [|j r] eqn:Hr; [by apply map_Forall_delete|]. by apply map_Forall_insert_2.
Qed.

Lemma wf_but_remove t id d : wf_but t d -> wf_but t (remove_inflight t id d).
Proof.
  intros [? ? Hi ? ? ? Hn]. destruct (remove_inflight_ok t id d Hi Hn).
  unfold remove_inflight in *. destruct (inflight d !! t); by split.
Qed.

Lemma wf_remove t id d : wf d -> wf (remove_inflight t id d).
Proof.
  intros [? ? Hi ? ? ? Hn]. destruct (remove_inflight_ok t id d Hi Hn).
  unfold remove_inflight in *. destruct (inflight d !! t); by split.
Qed.

Lemma jobs_app l1 l2 : Forall job_ok l1 -> Forall job_ok l2 -> Forall job_ok (l1 ++ l2).
Proof. intros. by apply Forall_app. Qed.

Lemma reset_ok ready l : in_range 0 u64_max ready -> Forall job_ok l ->
  Forall job_ok ((λ j, with_ready ready (with_attempts 0 j)) <$> l).
Proof.
  intros Hr Hl. apply Forall_fmap. eapply Forall_impl; [exact Hl|]. intros j [? ? ? ?].
  by split.
Qed.

(** Every mutation keeps a store well formed. *)
Lemma apply_wf m d : wf d -> mutation_ok m -> wf (apply m d).
Proof.
  intros Hw Hm.
  destruct m as [u j|u id|u id|u j b|u j|u ready|u id ready|u id]; cbn [apply mutation_ok] in *.
  - apply sync_wf, wf_but_queues; [by apply wf_but_of|]. apply jobs_app; [apply jobs_ok_entry, Hw|by constructor].
  - destruct (queues d !! u) as [queue|] eqn:Hq; [|done].
    destruct (take_job id queue) as [[j rest]|] eqn:Ht; [|done].
    destruct (take_job_ok _ _ _ _ (wf_queues d Hw u queue Hq) Ht) as [Hj Hr]. destruct Hw as [? ? ? ? ? Hd Hn].
    apply sync_wf. split; try done; cbn [with_queues with_inflight queues inflight dlqs stats revision].
    + by apply jobs_ok_shrink.
    + apply jobs_ok_insert; [done|]. apply jobs_app; [by apply jobs_ok_entry|by constructor].
    + intros v Hv. specialize (Hd v). simpl in Hd. destruct Hd as [-> ->]. split; [|done].
      unfold length_u64. by rewrite entry_shrink, decide_False.
    + apply map_Forall_insert_2; [|done]. intros Hnil. by apply app_nil in Hnil as [_ ?].
  - assert (wf (remove_inflight u id d)) as [? ? ? ? Hs Hd Hn] by (by apply wf_remove).
    split; try done; cbn [count_delivered stats with_stats queues dlqs].
    + apply map_Forall_insert_2; [|done]. pose proof (stats_at _ u Hs) as [? ? _ ?]. split; try done. apply inc_u64_ok.
    + intros v. destruct (decide (v = u)) as [->|Hv]; [rewrite lookup_insert_eq; apply Hd|].
      rewrite lookup_insert_ne by done. apply Hd.
  - apply sync_wf. assert (wf_but u (remove_inflight u (job_id j) d)) as Hb by (by apply wf_but_remove, wf_but_of).
    destruct b.
    + apply wf_but_queues; [done|]. apply jobs_app; [apply jobs_ok_entry, Hb|by constructor].
    + apply wf_but_stats.
      * apply wf_but_dlqs; [done|]. apply jobs_app; [apply jobs_ok_entry, Hb|by constructor].
      * pose proof (stats_at _ u (wfb_stats _ _ Hb)) as [? ? ? _]. split; try done. apply inc_u64_ok.
  - apply sync_wf, wf_but_queues; [by apply wf_but_remove, wf_but_of|]. constructor; [done|].
    apply jobs_ok_entry. rewrite remove_inflight_queues. apply Hw.
  - apply sync_wf, wf_but_queues.
    + destruct (wf_but_of u d Hw) as [? ? ? ? ? Hd ?]. split; try done; simpl; [by apply jobs_ok_delete|].
      intros v Hv. unfold length_u64 at 2. rewrite entry_delete, decide_False by done. by apply Hd.
    + apply jobs_app; [apply jobs_ok_entry, Hw|]. apply reset_ok; [done|]. apply jobs_ok_entry, Hw.
  - pose proof (take_dlq_cases u id d) as Hc. destruct (take_dlq_message u id d) as [[j|] d1]; [|by destruct Hc as [-> _]].
    destruct Hc as (r & Ht & ->). destruct (take_job_ok _ _ _ _ (jobs_ok_entry _ u (wf_dlqs d Hw)) Ht) as [Hj Hr].
    apply sync_wf, wf_but_queues; [by apply wf_but_dlqs; [apply wf_but_of|]|].
    apply jobs_app; [apply jobs_ok_entry, Hw|]. by apply (reset_ok ready [j]); [|constructor].
  - pose proof (take_dlq_cases u id d) as Hc. destruct (take_dlq_message u id d) as [[j|] d1].
    + destruct Hc as (r & Ht & ->). destruct (take_job_ok _ _ _ _ (jobs_ok_entry _ u (wf_dlqs d Hw)) Ht) as [Hj Hr].
      apply sync_wf. by apply wf_but_dlqs; [apply wf_but_of|].
    + destruct Hc as [-> _]. apply sync_wf. by apply wf_but_of.
Qed.

(** *** Codecs *)

Lemma job_codec j : job_ok j -> codec_ok j.
Proof.
  intros [_ Ha He Hr]. unfold codec_ok. cbn [from_value to_value Job_codec]. codec_tac.
  get_req "id" (job_id j); [|reflexivity]. get_req "payload" (payload j); [|reflexivity].
  get_req "attempts" (attempts j); [|by apply dec_enc_u].
  get_req "enqueued_at_ms" (enqueued_at_ms j); [|by apply dec_enc_u].
  get_dflt "ready_at_ms" (ready_at_ms j); [|by apply dec_enc_u]. by destruct j.
Qed.

Lemma stats_codec s : stats_ok s -> codec_ok s.
Proof.
  intros [H1 H2 H3 H4]. unfold codec_ok. cbn [from_value to_value TopicStats_codec]. codec_tac.
  get_req "depth" (depth s); [|by apply dec_enc_u]. get_req "dlq_depth" (dlq_depth s); [|by apply dec_enc_u].
  get_req "delivered" (delivered s); [|by apply dec_enc_u]. get_req "failed" (failed s); [|by apply dec_enc_u].
  by destruct s.
Qed.

Lemma jobs_codec q : jobs_ok q -> dec_map dec_jobs (enc_map enc_jobs q) = Some q.
Proof.
  intros Hq. apply dec_enc_map. intros t l Hl. apply mapM_enc. eapply Forall_impl; [by apply (Hq t l)|].
  intros j Hj. by apply job_codec.
Qed.

Lemma data_codec d : wf d -> codec_ok d.
Proof.
  intros [Hr Hq Hi Hd Hs _ _]. unfold codec_ok. cbn [from_value to_value StoreData_codec]. codec_tac.
  get_dflt "revision" (revision d); [|by apply dec_enc_u]. get_req "queues" (queues d); [|by apply jobs_codec].
  get_dflt "inflight" (inflight d); [|by apply jobs_codec]. get_req "dlqs" (dlqs d); [|by apply jobs_codec].
  get_req "stats" (stats d); [by destruct d|]. apply dec_enc_map. intros t s Ht. apply stats_codec. by apply (Hs t).
Qed.

Lemma mutation_codec m : mutation_ok m -> codec_ok m.
Proof.
  intros Hm. unfold codec_ok.
  assert (forall tag (l : Fields), (from_value (Obj [(tag, json_obj l)]) : option Mutation) = read_mutation tag (obj_of_list l)) as Hread
    by done.
  destruct m as [t j|t i|t i|t j b|t j|t r|t i r|t i]; cbn [to_value Mutation_codec mutation_fields]; rewrite Hread;
    unfold read_mutation;
    repeat (rewrite decide_False by discriminate); rewrite decide_True by done;
    get_req "topic" t; try reflexivity;
    try (get_req "job" j; [|by apply job_codec]); try (get_req "job_id" i; [|reflexivity]);
    try (get_req "retrying" b; [|reflexivity]); try (get_req "ready_at_ms" r; [|by apply dec_enc_u]); done.
Qed.

Lemma entry_codec e : in_range 0 u64_max (entry_revision e) -> mutation_ok (mutation e) -> codec_ok e.
Proof.
  intros Hr Hm. unfold codec_ok. cbn [from_value to_value JournalEntry_codec]. codec_tac.
  get_req "revision" (entry_revision e); [|by apply dec_enc_u].
  get_req "mutation" (mutation e); [by destruct e|]. by apply mutation_codec.
Qed.

End WithPayloads.
End QueueRules.
