(* ===== verification/QueueJournal.v ===== *)
(** * The journal of the queue worker (queue/src/store.rs, the file-backed half)

    Every change of the store is appended to a journal before or while it takes effect; a
    background task folds the journal into a snapshot; [FileStore::open] replays snapshot,
    rotated segments and active journal.  The directory is a map from file names to contents,
    every write may stop at any byte and the process may die between any two steps.  Module
    [Journal] is the operations and the files; Module [Life] is the step relation of a store and
    its directory over starts, crashes and compactions; Module [Spec] is what a restart is
    promised to find, and [JournalProperties] proves that the files implement it. *)

From Stdlib Require Import Ascii ZArith Lia.
From S2P Require Import Prelude Json JsonText QueueStore.

(** ** Operations and files *)

Module Journal.
Import Queue.

Definition STORE_FILE_NAME : string := "queue_store.json".
Definition JOURNAL_FILE_NAME : string := "queue_store.journal".

(** The files of a directory by name. *)
Abbreviation Dir := (gmap string string).
Abbreviation Error := string.

(** An append succeeds, fails before it writes, or stops after some bytes. *)
Inductive append_io : Type :=
| AppendOk
| AppendOpenFails (e : Error)
| AppendStops (bytes : nat) (e : Error).

(** [write] of the temporary file fails with some content left, or [rename] fails. *)
Inductive snapshot_io : Type :=
| SnapshotOk
| SnapshotWriteFails (written : option string) (e : Error)
| SnapshotRenameFails (e : Error).

Inductive rename_io : Type :=
| RenameOk
| RenameFails (e : Error).

Section WithText.
Context `{SerdeFile}.

(** *** Appending *)

Definition journal_line (r : Z) (m : Mutation) : string := nl +:+ file_text (to_value (mk_entry r m)).

Definition content (dir : Dir) (name : string) : string := default "" (dir !! name).

Definition append_journal (io : append_io) (r : Z) (m : Mutation) (dir : option Dir)
  : result unit Error * option Dir :=
  match dir with
  | None => (Ok tt, None)
  | Some dir =>
      let line := journal_line r m in
      match io with
      | AppendOk => (Ok tt, Some (<[JOURNAL_FILE_NAME := content dir JOURNAL_FILE_NAME +:+ line]> dir))
      | AppendOpenFails e => (Err e, Some dir)
      | AppendStops n e =>
          (Err e, Some (<[JOURNAL_FILE_NAME := content dir JOURNAL_FILE_NAME +:+
                            String.substring 0 (Nat.min n (String.length line - 1)) line]> dir))
      end
  end.

(** *** The operations *)

(** [SharedStore]: the data, the directory of a file-backed store, and the topics whose ready
    signal was fired, in order. *)
Record Shared : Type := mk_shared {
  data : StoreData;
  file_dir : option Dir;
  signalled : list string;
}.

Definition notify_ready (topic : string) (s : Shared) : Shared :=
  mk_shared (data s) (file_dir s) (signalled s ++ [topic]).

Definition next_revision (d : StoreData) : Z := sat_u64 (revision d + 1).

(** [commit]: the mutation takes effect even when the append fails. *)
Definition commit (io : append_io) (m : Mutation) (s : Shared) : result unit Error * Shared :=
  let r := next_revision (data s) in
  let '(appended, dir) := append_journal io r m (file_dir s) in
  (appended, mk_shared (apply_at r m (data s)) dir (signalled s)).

Definition commit_logged (io : append_io) (m : Mutation) (s : Shared) : Shared := (commit io m s).2.

(** [enqueue]: nothing applies until the journal line is written. *)
Definition enqueue (io : append_io) (topic : string) (p : Value) (uuid : string) (now : Z) (s : Shared)
  : result string Error * Shared :=
  let job := new_job uuid p now in
  let m := Enqueue topic job in
  let r := next_revision (data s) in
  match append_journal io r m (file_dir s) with
  | (Err e, dir) => (Err e, mk_shared (data s) dir (signalled s))
  | (Ok _, dir) => (Ok (job_id job), notify_ready topic (mk_shared (apply_at r m (data s)) dir (signalled s)))
  end.

Definition dequeue (io : append_io) (topic : string) (now : Z) (s : Shared) : option Job * Shared :=
  match find_ready topic now (data s) with
  | None => (None, s)
  | Some job => (Some job, commit_logged io (Dequeue topic (job_id job)) s)
  end.

Definition ack (io : append_io) (topic id : string) (s : Shared) : Shared := commit_logged io (Ack topic id) s.

Definition nack (io : append_io) (topic : string) (job : Job) (max_retries backoff_ms now : Z) (s : Shared) : Shared :=
  let '(job1, retrying) := nacked job max_retries backoff_ms now in
  let s1 := commit_logged io (Nack topic job1 retrying) s in
  if retrying then notify_ready topic s1 else s1.

Definition requeue (io : append_io) (topic : string) (job : Job) (now : Z) (s : Shared) : result unit Error * Shared :=
  let '(committed, s1) := commit io (Requeue topic (with_ready now job)) s in
  (committed, notify_ready topic s1).

Definition redrive_dlq (io : append_io) (topic : string) (now : Z) (s : Shared) : Z * Shared :=
  let count := length_u64 (dlqs (data s)) topic in
  let s1 := commit_logged io (RedriveDlq topic now) s in
  (count, if (0 <? count)%Z then notify_ready topic s1 else s1).

Definition redrive_dlq_message (io : append_io) (topic id : string) (now : Z) (s : Shared) : bool * Shared :=
  if negb (dlq_contains topic id (data s)) then (false, s)
  else (true, notify_ready topic (commit_logged io (RedriveDlqMessage topic id now) s)).

Definition discard_dlq_message (io : append_io) (topic id : string) (s : Shared) : bool * Shared :=
  if negb (dlq_contains topic id (data s)) then (false, s)
  else (true, commit_logged io (DiscardDlqMessage topic id) s).

(** *** Reading the directory *)

(** The revision in the name of a rotated segment. *)
Definition segment_revision (name : string) : option Z :=
  match strip_prefix (JOURNAL_FILE_NAME +:+ ".") name with Some rest => parse_usize rest | None => None end.

Definition segment_name (r : Z) : string := JOURNAL_FILE_NAME +:+ "." +:+ pretty (Z.to_N r).

(** Pairs in the order of [Vec::sort]. *)
Definition segment_le (p q : Z * string) : Prop := (p.1 < q.1)%Z \/ (p.1 = q.1 /\ String.le p.2 q.2).

#[export] Instance segment_le_dec : RelDecision segment_le.
Proof. intros p q. unfold segment_le. apply _. Defined.

Definition segment_entries (dir : Dir) : list (Z * string) :=
  omap (λ p : string * string, (λ r, (r, p.1)) <$> segment_revision p.1) (map_to_list dir).

Definition journal_segments (dir : Dir) : list (Z * string) := merge_sort segment_le (segment_entries dir).

(** One line of a journal. *)
Definition replay_line (line : string) (d : StoreData) : result StoreData Error :=
  if is_empty line then Ok d
  else match read_text line with
  | Parsed v =>
      match from_value v with
      | Some e => if (revision d <? entry_revision e)%Z then Ok (apply_at (entry_revision e) (mutation e) d) else Ok d
      | None => Err "unreadable entry in queue journal"
      end
  | CutShort => Ok d
  | Unreadable => Err "unreadable entry in queue journal"
  end.

Fixpoint replay_lines (lines : list string) (d : StoreData) : result StoreData Error :=
  match lines with
  | [] => Ok d
  | line :: rest => match replay_line line d with Ok d1 => replay_lines rest d1 | Err e => Err e end
  end.

Definition replay_journal (text : string) (d : StoreData) : result StoreData Error :=
  replay_lines (split_char newline text) d.

Fixpoint replay_journals (dir : Dir) (names : list string) (d : StoreData) : result StoreData Error :=
  match names with
  | [] => Ok d
  | name :: rest => match replay_journal (content dir name) d with Ok d1 => replay_journals dir rest d1 | Err e => Err e end
  end.

(** The journals in the order they are replayed: the segments, then the active one. *)
Definition journals (dir : Dir) : list string :=
  (journal_segments dir).*2 ++ match dir !! JOURNAL_FILE_NAME with Some _ => [JOURNAL_FILE_NAME] | None => [] end.

Definition read_snapshot (dir : Dir) : result StoreData Error :=
  match dir !! STORE_FILE_NAME with
  | None => Ok empty_data
  | Some text =>
      match read_text text with
      | Parsed v => match from_value v with Some d => Ok d | None => Err "unreadable snapshot" end
      | _ => Err "unreadable snapshot"
      end
  end.

(** The first half of [load_store]: the data the files describe. *)
Definition replay_store (dir : Dir) : result StoreData Error :=
  match read_snapshot dir with Ok d => replay_journals dir (journals dir) d | Err e => Err e end.

(** [while let Some(job) = jobs.pop() { queue.push_front(job) }]; the list is [jobs] from its
    end, [now] the clock when the job at an index is restored. *)
Fixpoint restore_jobs (now : nat -> Z) (jobs_rev queue : list Job) : list Job :=
  match jobs_rev with
  | [] => queue
  | j :: rest => restore_jobs now rest (with_ready (now (length rest)) j :: queue)
  end.

Definition restore_topic (now : string -> nat -> Z) (p : string * list Job) (d : StoreData) : StoreData :=
  let '(topic, jobs) := p in
  let queue := restore_jobs (now topic) (rev jobs) (entry (queues d) topic) in
  let s := default no_stats (stats d !! topic) in
  let d1 := with_queues (<[topic := queue]> (queues d)) d in
  with_stats (<[topic := mk_stats (length_u64 (queues d1) topic) (dlq_depth s) (delivered s) (failed s)]> (stats d1)) d1.

(** The topics are independent of each other, so the order of the hash map does not matter. *)
Definition restore (now : string -> nat -> Z) (d : StoreData) : StoreData :=
  foldr (restore_topic now) (with_inflight ∅ d) (map_to_list (inflight d)).

(** *** Writing the directory *)

Definition TMP_NAME : string := STORE_FILE_NAME +:+ ".tmp".

Definition write_snapshot (io : snapshot_io) (d : StoreData) (dir : Dir) : result unit Error * Dir :=
  let text := file_text (to_value d) in
  match io with
  | SnapshotWriteFails None e => (Err e, dir)
  | SnapshotWriteFails (Some written) e => (Err e, <[TMP_NAME := written]> dir)
  | SnapshotRenameFails e => (Err e, <[TMP_NAME := text]> dir)
  | SnapshotOk => (Ok tt, <[STORE_FILE_NAME := text]> (delete TMP_NAME dir))
  end.

(** A loop of [remove_file]s that ends at the first one that fails. *)
Fixpoint remove_files (fails : string -> option Error) (names : list string) (dir : Dir) : result unit Error * Dir :=
  match names with
  | [] => (Ok tt, dir)
  | name :: rest =>
      match fails name with
      | Some e => (Err e, dir)
      | None => remove_files fails rest (delete name dir)
      end
  end.

Definition load_store (now : string -> nat -> Z) (io : snapshot_io) (fails : string -> option Error) (dir : Dir)
  : result StoreData Error * Dir :=
  let has_snapshot := bool_decide (is_Some (dir !! STORE_FILE_NAME)) in
  let names := journals dir in
  match replay_store dir with
  | Err e => (Err e, dir)
  | Ok d =>
      let restores_jobs := negb (bool_decide (inflight d = ∅)) in
      let d1 := restore now d in
      if negb has_snapshot || negb (bool_decide (names = [])) || restores_jobs then
        match write_snapshot io d1 dir with
        | (Err e, dir1) => (Err e, dir1)
        | (Ok _, dir1) =>
            match remove_files fails names dir1 with
            | (Err e, dir2) => (Err e, dir2)
            | (Ok _, dir2) => (Ok d1, dir2)
            end
        end
      else (Ok d1, dir)
  end.

Definition rotate_journal (io : rename_io) (r : Z) (dir : Dir) : result unit Error * Dir :=
  let segment := segment_name r in
  match dir !! segment with
  | Some _ => (Ok tt, dir)
  | None =>
      match dir !! JOURNAL_FILE_NAME with
      | None => (Ok tt, dir)
      | Some text =>
          match io with
          | RenameOk => (Ok tt, <[segment := text]> (delete JOURNAL_FILE_NAME dir))
          | RenameFails e => (Err e, dir)
          end
      end
  end.

(** What [compact] does under the store's lock: nothing to fold, a failed rotation, or the
    data to write. *)
Inductive compact_start : Type :=
| NothingMoved
| RotationFailed (e : Error)
| Cloned (d : StoreData).

Definition compact_begin (io : rename_io) (snapshot_revision : Z) (d : StoreData) (dir : Dir) : compact_start * Dir :=
  if (revision d =? snapshot_revision)%Z then (NothingMoved, dir)
  else match rotate_journal io (revision d) dir with
  | (Err e, dir1) => (RotationFailed e, dir1)
  | (Ok _, dir1) => (Cloned d, dir1)
  end.

(** The segments a snapshot of revision [r] covers. *)
Definition covered (r : Z) (dir : Dir) : list string :=
  (filter (λ p : Z * string, (p.1 <= r)%Z) (journal_segments dir)).*2.

End WithText.
End Journal.

(** ** Rules *)

Module JournalRules.
Import Queue QueueRules Journal.

(** *** Entries and snapshots fit the reader *)

(** An entry and a snapshot wrap a payload in four levels. *)
Definition payload_fits (v : Value) : Prop := fits 123 v.

#[local] Opaque fits.

(** The members of an object, one by one. *)
Ltac members :=
  repeat first [apply Forall_nil_2 | apply Forall_cons_2]; cbn [snd];
  lazymatch goal with
  | |- fits _ (Str _) => apply fits_str
  | |- fits _ (Bool _) => apply fits_bool
  | |- fits _ (enc_u _) => apply fits_u; unfold in_range, u32_max, u64_max in *; lia
  | _ => auto
  end.

Lemma fits_job j : job_ok payload_fits j -> fits 124 (to_value j).
Proof. intros [Hp Ha He Hr]. cbn [to_value Job_codec]. apply fits_obj. members. Qed.

Lemma fits_jobs l : Forall (job_ok payload_fits) l -> fits 125 (enc_jobs l).
Proof. intros Hl. apply fits_arr, Forall_fmap. eapply Forall_impl; [exact Hl|exact fits_job]. Qed.

Lemma fits_data d : wf payload_fits d -> fits 127 (to_value d).
Proof.
  intros [Hr Hq Hi Hd Hs _ _]. cbn [to_value StoreData_codec]. apply fits_obj.
  assert (forall q, jobs_ok payload_fits q -> fits 126 (enc_map enc_jobs q)) as Hm.
  { intros q Hq'. apply fits_enc_map. intros t l Hl. apply fits_jobs. by apply (Hq' t l). }
  members. apply fits_enc_map. intros t s Ht. destruct (Hs t s Ht) as [? ? ? ?]. cbn [to_value TopicStats_codec]. apply fits_obj. members.
Qed.

Lemma fits_entry r m : in_range 0 u64_max r -> mutation_ok payload_fits m -> fits 127 (to_value (mk_entry r m)).
Proof.
  intros Hr Hm. cbn [to_value JournalEntry_codec Mutation_codec mutation entry_revision]. apply fits_obj. members.
  assert (forall tag l, Forall (λ p, fits 124 p.2) l -> fits 126 (Obj [(tag, json_obj l)])) as Hobj.
  { intros tag l Hl. apply fits_members; [by repeat constructor|]. members. by apply fits_obj. }
  pose proof fits_job as Hj.
  destruct m; cbn [mutation_fields mutation_ok] in *; apply Hobj; members; by apply Hj.
Qed.

Lemma payload_fits_str s : payload_fits (Str s).
Proof. apply fits_str. Qed.

#[global] Opaque payload_fits.

(** *** Lines *)

Lemma split_char_snoc c a b :
  contains_char c b = false -> split_char c (a +:+ String c b) = split_char c a ++ [b].
Proof.
  intros Hb. assert (split_char c b = [b]) as Hsb.
  { clear a. induction b as [|x b IH]; [done|]. simpl in *. case_decide; [done|]. by rewrite IH. }
  induction a as [|x a IH].
  - change ("" +:+ String c b) with (String c b). simpl. by rewrite decide_True, Hsb.
  - rewrite append_cons. cbn [split_char]. case_decide; [by rewrite IH|]. rewrite IH.
    destruct (split_char c a) eqn:Ha; [by apply split_char_nonempty in Ha|]. done.
Qed.

Section WithText.
Context `{SerdeFile}.

Lemma replay_lines_app l1 l2 d :
  replay_lines (l1 ++ l2) d = match replay_lines l1 d with Ok d1 => replay_lines l2 d1 | Err e => Err e end.
Proof. revert d. induction l1 as [|x l1 IH]; intros d; simpl; [done|]. by destruct (replay_line x d). Qed.

Lemma replay_snoc text s d :
  contains_char newline s = false ->
  replay_journal (text +:+ nl +:+ s) d = match replay_journal text d with Ok d1 => replay_line s d1 | Err e => Err e end.
Proof.
  intros Hs. unfold replay_journal. change (nl +:+ s) with (String newline s).
  rewrite split_char_snoc, replay_lines_app by done. destruct (replay_lines _ d) as [d1|]; [|done].
  simpl. by destruct (replay_line s d1).
Qed.

(** A line or text that a store of revision [r] has already seen. *)
Definition skipped (r : Z) (text : string) : Prop := forall d, (r <= revision d)%Z -> replay_journal text d = Ok d.

Lemma skipped_mono r r' text : (r <= r')%Z -> skipped r text -> skipped r' text.
Proof. intros Hr Hs d Hd. apply Hs. lia. Qed.

Lemma replay_line_rev s d d' :
  replay_line s d = Ok d' ->
  (revision d <= revision d')%Z /\ forall d2, (revision d' <= revision d2)%Z -> replay_line s d2 = Ok d2.
Proof.
  unfold replay_line. intros Hr. case_all; try (split; [lia|intros d2 Hd2]); case_all;
    repeat match goal with Hx : Z.ltb _ _ = true |- _ => apply Z.ltb_lt in Hx
      | Hx : Z.ltb _ _ = false |- _ => apply Z.ltb_ge in Hx end; try done; simpl in *; lia.
Qed.

Lemma replay_rev text d d' :
  replay_journal text d = Ok d' -> (revision d <= revision d')%Z /\ skipped (revision d') text.
Proof.
  unfold skipped, replay_journal. generalize (split_char newline text). intros l. revert d.
  induction l as [|s l IH]; intros d; simpl; [intros [= ->]; split; [lia|done]|].
  destruct (replay_line s d) as [d1|] eqn:Hs; [|done]. intros Hl. apply replay_line_rev in Hs as [Hm Hs].
  destruct (IH d1 Hl) as [Hm1 Hl1]. split; [lia|]. intros d2 Hd2. rewrite Hs by lia. by apply Hl1.
Qed.

(** *** Journals in order *)

Lemma replay_journals_ext dir1 dir2 names d :
  (forall n, n ∈ names -> content dir1 n = content dir2 n) -> replay_journals dir1 names d = replay_journals dir2 names d.
Proof.
  revert d. induction names as [|n names IH]; intros d Hc; simpl; [done|].
  rewrite (Hc n) by by left. destruct (replay_journal _ d); [|done]. apply IH. intros n' Hn'. apply Hc. by right.
Qed.

Lemma replay_journals_app dir names1 names2 d :
  replay_journals dir (names1 ++ names2) d =
  match replay_journals dir names1 d with Ok d1 => replay_journals dir names2 d1 | Err e => Err e end.
Proof. revert d. induction names1 as [|n names IH]; intros d; simpl; [done|]. by destruct (replay_journal _ d). Qed.

Lemma replay_journals_rev dir names d d' :
  replay_journals dir names d = Ok d' ->
  (revision d <= revision d')%Z /\ forall n, n ∈ names -> skipped (revision d') (content dir n).
Proof.
  revert d. induction names as [|n names IH]; intros d; simpl.
  - intros [= ->]. split; [lia|]. intros n Hn. by apply elem_of_nil in Hn.
  - destruct (replay_journal (content dir n) d) as [d1|] eqn:Hn; [|done]. intros Hr.
    apply replay_rev in Hn as [Hm Hs]. destruct (IH d1 Hr) as [Hm1 Hs1]. split; [lia|].
    intros n' [->|Hn']%elem_of_cons; [by eapply skipped_mono|by apply Hs1].
Qed.

Lemma replay_journals_skipped dir names r d :
  (forall n, n ∈ names -> skipped r (content dir n)) -> (r <= revision d)%Z -> replay_journals dir names d = Ok d.
Proof.
  intros Hs Hr. induction names as [|n names IH]; simpl; [done|]. rewrite (Hs n) by (by left || done).
  apply IH. intros n' Hn'. apply Hs. by right.
Qed.

End WithText.

(** *** The names of a directory *)

Lemma parse_pretty z : in_range 0 u64_max z -> parse_usize (pretty (Z.to_N z)) = Some z.
Proof.
  unfold in_range, u64_max. intros Hz. pose proof (parse_usize_show (Z.to_nat z)) as Hp.
  unfold show_nat, pretty, pretty_nat in Hp. rewrite Z_nat_N, Z2Nat.id in Hp by lia. apply Hp. lia.
Qed.

Lemma segment_revision_name r : in_range 0 u64_max r -> segment_revision (segment_name r) = Some r.
Proof.
  intros Hr. unfold segment_revision, segment_name. rewrite append_assoc, strip_prefix_app. by apply parse_pretty.
Qed.

Lemma segment_name_inj r r' : in_range 0 u64_max r -> in_range 0 u64_max r' -> segment_name r = segment_name r' -> r = r'.
Proof. intros Hr Hr' Hn. apply segment_revision_name in Hr, Hr'. rewrite Hn in Hr. congruence. Qed.

Lemma journal_no_segment : segment_revision JOURNAL_FILE_NAME = None.
Proof. reflexivity. Qed.
Lemma store_no_segment : segment_revision STORE_FILE_NAME = None.
Proof. reflexivity. Qed.
Lemma tmp_no_segment : segment_revision TMP_NAME = None.
Proof. reflexivity. Qed.

#[global] Opaque segment_revision segment_name.

#[export] Instance segment_le_total : Total segment_le.
Proof.
  intros [r1 n1] [r2 n2]. unfold segment_le. simpl. pose proof (total String.le n1 n2).
  destruct (Z.lt_trichotomy r1 r2) as [?|[->|?]]; naive_solver.
Qed.

#[export] Instance segment_le_trans : Transitive segment_le.
Proof.
  intros [r1 n1] [r2 n2] [r3 n3]. unfold segment_le. simpl. intros [?|[-> H1]] [?|[-> H2]]; [left; lia|left; lia|left; lia|].
  right. split; [done|]. by etrans.
Qed.

#[export] Instance segment_le_antisymm : AntiSymm (=) segment_le.
Proof.
  intros [r1 n1] [r2 n2]. unfold segment_le. simpl. intros [?|[-> H1]] [?|[? H2]]; try lia.
  f_equal. by apply (anti_symm String.le).
Qed.

Implicit Types (dir : Dir).

Lemma elem_of_segment_entries dir r n :
  (r, n) ∈ segment_entries dir <-> is_Some (dir !! n) /\ segment_revision n = Some r.
Proof.
  unfold segment_entries. rewrite list_elem_of_omap. split.
  - intros ([n' t] & Hn%elem_of_map_to_list & He). simpl in He.
    destruct (segment_revision n') as [r'|] eqn:Hr; simplify_eq/=. by split.
  - intros [[t Ht] Hr]. exists (n, t). rewrite elem_of_map_to_list. simpl. by rewrite Hr.
Qed.

Lemma elem_of_journal_segments dir r n :
  (r, n) ∈ journal_segments dir <-> is_Some (dir !! n) /\ segment_revision n = Some r.
Proof. unfold journal_segments. rewrite merge_sort_Permutation. apply elem_of_segment_entries. Qed.

Definition seg_names dir : list string := (journal_segments dir).*2.

Lemma elem_of_seg_names dir n : n ∈ seg_names dir <-> is_Some (dir !! n) /\ is_Some (segment_revision n).
Proof.
  unfold seg_names. rewrite list_elem_of_fmap. split.
  - intros ([r m] & -> & [? Hr]%elem_of_journal_segments). simpl. by rewrite Hr.
  - intros [? [r Hr]]. exists (r, n). split; [done|]. by apply elem_of_journal_segments.
Qed.

(** A sorted list with the same segments is the list of segments. *)
Lemma journal_segments_unique dir l : StronglySorted segment_le l -> l ≡ₚ segment_entries dir -> journal_segments dir = l.
Proof.
  intros Hs Hp. apply (StronglySorted_unique segment_le); [by apply StronglySorted_merge_sort; apply _|done|].
  unfold journal_segments. by rewrite merge_sort_Permutation.
Qed.

Lemma journal_segments_sorted dir : StronglySorted segment_le (journal_segments dir).
Proof. apply StronglySorted_merge_sort; apply _. Qed.

Definition seg_entry (n : string) : list (Z * string) := match segment_revision n with Some r => [(r, n)] | None => [] end.

Lemma segment_entries_insert dir n t : dir !! n = None -> segment_entries (<[n := t]> dir) ≡ₚ seg_entry n ++ segment_entries dir.
Proof.
  intros Hn. unfold segment_entries, seg_entry. rewrite map_to_list_insert by done. simpl.
  by destruct (segment_revision n).
Qed.

Lemma segment_entries_delete dir n : is_Some (dir !! n) -> segment_entries dir ≡ₚ seg_entry n ++ segment_entries (delete n dir).
Proof.
  intros [t Ht]. rewrite <-(insert_delete_id _ _ _ Ht) at 1. apply segment_entries_insert. apply lookup_delete_eq.
Qed.

(** Files that are no segments do not change the list. *)
Lemma journal_segments_delete_other dir n : segment_revision n = None -> journal_segments (delete n dir) = journal_segments dir.
Proof.
  intros Hn. destruct (dir !! n) as [t|] eqn:Ht; [|by rewrite delete_id].
  apply journal_segments_unique; [apply journal_segments_sorted|].
  unfold journal_segments. rewrite merge_sort_Permutation, (segment_entries_delete dir n) by done. unfold seg_entry. by rewrite Hn.
Qed.

Lemma journal_segments_insert_other dir n t : segment_revision n = None -> journal_segments (<[n := t]> dir) = journal_segments dir.
Proof.
  intros Hn. rewrite <-(journal_segments_delete_other (<[n := t]> dir) n), <-(journal_segments_delete_other dir n) by done.
  by rewrite delete_insert_eq.
Qed.

(** A segment of a later revision is replayed last. *)
Lemma journal_segments_later dir r t :
  in_range 0 u64_max r -> dir !! segment_name r = None -> (forall p, p ∈ journal_segments dir -> (p.1 < r)%Z) ->
  journal_segments (<[segment_name r := t]> dir) = journal_segments dir ++ [(r, segment_name r)].
Proof.
  intros Hr Hn Hlt. apply journal_segments_unique.
  - apply StronglySorted_app_2; [|apply journal_segments_sorted|by repeat constructor].
    intros p q Hp ->%list_elem_of_singleton. left. by apply Hlt.
  - rewrite segment_entries_insert by done. unfold seg_entry. rewrite segment_revision_name by done.
    unfold journal_segments. rewrite merge_sort_Permutation. by rewrite Permutation_app_comm.
Qed.

(** Removing a segment keeps the order of the others. *)
Lemma journal_segments_delete dir n :
  journal_segments (delete n dir) = filter (λ p : Z * string, p.2 ≠ n) (journal_segments dir).
Proof.
  destruct (dir !! n) as [t|] eqn:Ht.
  2: { rewrite delete_id by done. rewrite filter_all; [done|]. apply Forall_forall. intros [r n'] [[? ?] _]%elem_of_journal_segments. simpl. congruence. }
  apply journal_segments_unique; [apply StronglySorted_filter, journal_segments_sorted|].
  unfold journal_segments. rewrite merge_sort_Permutation, (segment_entries_delete dir n) by done.
  rewrite filter_app. assert (filter (λ p : Z * string, p.2 ≠ n) (seg_entry n) = []) as ->.
  { unfold seg_entry. destruct (segment_revision n); [|done]. rewrite filter_cons_False; [done|]. simpl. naive_solver. }
  simpl. rewrite filter_all; [done|]. apply Forall_forall. intros [r n'] [[? Hd] _]%elem_of_segment_entries. simpl. intros ->.
  by rewrite lookup_delete_eq in Hd.
Qed.

(** *** What a change of the directory does to a replay *)

Section Replays.
Context `{SerdeFileLaws}.

(** The segments, then the active journal, absent or not. *)
Definition replay_all dir (d : StoreData) : result StoreData Error :=
  match replay_journals dir (seg_names dir) d with
  | Ok d1 => replay_journal (content dir JOURNAL_FILE_NAME) d1
  | Err e => Err e
  end.

Lemma replay_store_all dir :
  replay_store dir = match read_snapshot dir with Ok d => replay_all dir d | Err e => Err e end.
Proof.
  unfold replay_store, replay_all, journals. destruct (read_snapshot dir) as [d|]; [|done].
  rewrite replay_journals_app. fold (seg_names dir). destruct (replay_journals dir (seg_names dir) d) as [d1|]; [|done].
  unfold content. destruct (dir !! JOURNAL_FILE_NAME) eqn:Hj; simpl; [|done].
  unfold content. rewrite Hj. simpl. by destruct (replay_journal _ d1).
Qed.

Definition is_journal (n : string) : Prop := n = JOURNAL_FILE_NAME \/ is_Some (segment_revision n).

Lemma skipped_empty r : skipped r "".
Proof. by intros d _. Qed.

Lemma content_insert dir n t n' : content (<[n := t]> dir) n' = if decide (n' = n) then t else content dir n'.
Proof. unfold content. case_decide; subst; by rewrite ?lookup_insert_eq, ?lookup_insert_ne. Qed.

Lemma content_delete dir n n' : content (delete n dir) n' = if decide (n' = n) then "" else content dir n'.
Proof. unfold content. case_decide; subst; by rewrite ?lookup_delete_eq, ?lookup_delete_ne. Qed.

Lemma store_no_journal : ~ is_journal STORE_FILE_NAME.
Proof. intros [?|[r Hr]]; [done|]. by rewrite store_no_segment in Hr. Qed.
Lemma tmp_no_journal : ~ is_journal TMP_NAME.
Proof. intros [?|[r Hr]]; [done|]. by rewrite tmp_no_segment in Hr. Qed.

Lemma not_journal n : ~ is_journal n -> n <> JOURNAL_FILE_NAME /\ segment_revision n = None.
Proof. intros Hn. split; [intros ->; apply Hn; by left|]. apply eq_None_not_Some. intros ?. apply Hn. by right. Qed.

(** Two directories with the same journals. *)
Lemma replay_all_ext dir dir' d :
  journal_segments dir' = journal_segments dir -> (forall n, is_journal n -> content dir' n = content dir n) ->
  replay_all dir' d = replay_all dir d.
Proof.
  intros Hs Hc. unfold replay_all, seg_names. rewrite Hs, (Hc JOURNAL_FILE_NAME) by by left.
  rewrite (replay_journals_ext dir' dir); [done|]. intros n Hn. apply Hc. right.
  by apply elem_of_seg_names in Hn as [_ ?].
Qed.

Lemma replay_all_insert_other dir n t d : ~ is_journal n -> replay_all (<[n := t]> dir) d = replay_all dir d.
Proof.
  intros Hn. pose proof (not_journal n Hn) as [_ Hs]. apply replay_all_ext; [by apply journal_segments_insert_other|].
  intros n' Hn'. rewrite content_insert, decide_False; [done|]. by intros ->.
Qed.

Lemma replay_all_delete_other dir n d : ~ is_journal n -> replay_all (delete n dir) d = replay_all dir d.
Proof.
  intros Hn. pose proof (not_journal n Hn) as [_ Hs]. apply replay_all_ext; [by apply journal_segments_delete_other|].
  intros n' Hn'. rewrite content_delete, decide_False; [done|]. by intros ->.
Qed.

Lemma replay_all_skipped dir r d :
  (forall n, is_journal n -> skipped r (content dir n)) -> (r <= revision d)%Z -> replay_all dir d = Ok d.
Proof.
  intros Hs Hr. unfold replay_all. rewrite (replay_journals_skipped dir _ r); [apply Hs; [by left|done]| |done].
  intros n [_ Hn]%elem_of_seg_names. apply Hs. by right.
Qed.

(** A replay leaves a store that has seen every line of every journal. *)
Lemma replay_all_rev dir d d' :
  replay_all dir d = Ok d' ->
  (revision d <= revision d')%Z /\ forall n, is_journal n -> skipped (revision d') (content dir n).
Proof.
  unfold replay_all. destruct (replay_journals dir (seg_names dir) d) as [d1|] eqn:Hs; [|done]. intros Ha.
  apply replay_journals_rev in Hs as [Hm Hs]. apply replay_rev in Ha as [Hm1 Ha]. split; [lia|].
  intros n [->|Hn]; [done|]. destruct (dir !! n) as [t|] eqn:Hd; [|unfold content; rewrite Hd; apply skipped_empty].
  eapply skipped_mono; [exact Hm1|]. apply Hs, elem_of_seg_names. by rewrite Hd.
Qed.

(** The snapshot holds everything the journals say. *)
Definition settled (d : StoreData) dir : Prop :=
  read_snapshot dir = Ok d /\ forall n, is_journal n -> skipped (revision d) (content dir n).

Lemma settled_replay d dir : settled d dir -> replay_store dir = Ok d.
Proof. intros [Hr Hs]. rewrite replay_store_all, Hr. by apply (replay_all_skipped dir (revision d)). Qed.

Lemma read_snapshot_ext dir dir' : dir' !! STORE_FILE_NAME = dir !! STORE_FILE_NAME -> read_snapshot dir' = read_snapshot dir.
Proof. unfold read_snapshot. by intros ->. Qed.

Lemma settled_delete d dir n : settled d dir -> n <> STORE_FILE_NAME -> settled d (delete n dir).
Proof.
  intros [Hr Hs] Hn. split; [rewrite <-Hr; by apply read_snapshot_ext, lookup_delete_ne|].
  intros n' Hn'. rewrite content_delete. case_decide; [apply skipped_empty|by apply Hs].
Qed.

(** *** Appending an entry *)

Lemma replay_all_append dir s d :
  contains_char newline s = false ->
  replay_all (<[JOURNAL_FILE_NAME := content dir JOURNAL_FILE_NAME +:+ nl +:+ s]> dir) d =
  match replay_all dir d with Ok d1 => replay_line s d1 | Err e => Err e end.
Proof.
  intros Hs. unfold replay_all, seg_names. rewrite journal_segments_insert_other by done.
  rewrite (replay_journals_ext _ dir).
  - destruct (replay_journals dir _ d) as [d1|]; [|done]. rewrite content_insert, decide_True by done. by apply replay_snoc.
  - intros n [_ [r Hr]]%elem_of_seg_names. rewrite content_insert, decide_False; [done|]. intros ->.
    by rewrite journal_no_segment in Hr.
Qed.

Lemma substring_split n s : exists a b, String.substring 0 n s = a /\ s = a +:+ b /\ (n < String.length s -> b <> "").
Proof.
  revert n. induction s as [|c s IH]; intros n.
  - exists "", "". split_and!; [by destruct n|done|simpl; lia].
  - destruct n as [|n]; [exists "", (String c s); by split_and!|]. destruct (IH n) as (a & b & Ha & Hb & Hl).
    exists (String c a), b. simpl. rewrite Ha. split_and!; [done|by rewrite Hb at 1|]. intros Hn. apply Hl. lia.
Qed.

Lemma text_not_empty v : is_empty (file_text v) = false.
Proof. pose proof (file_text_some v) as Hs. by destruct (file_text v). Qed.

(** A complete line beyond the recursion limit is an error. *)
Lemma replay_line_deep v d : READ_LEVELS < nesting v -> replay_line (file_text v) d = Err "unreadable entry in queue journal".
Proof. intros Hn. unfold replay_line. by rewrite text_not_empty, file_text_deep. Qed.

Lemma replay_line_entry r m d :
  in_range 0 u64_max r -> mutation_ok payload_fits m -> (revision d < r)%Z ->
  replay_line (file_text (to_value (mk_entry r m))) d = Ok (apply_at r m d).
Proof.
  intros Hr Hm Hd. unfold replay_line. pose proof (fits_entry r m Hr Hm) as Hf. apply file_text_read in Hf.
  rewrite text_not_empty.
  rewrite Hf, (entry_codec payload_fits (mk_entry r m) Hr Hm). simpl. by rewrite (proj2 (Z.ltb_lt _ _) Hd).
Qed.

Lemma entry_text_line r m : contains_char newline (file_text (to_value (mk_entry r m))) = false.
Proof. apply file_text_line. Qed.

(** A start of an entry is skipped, whatever is written behind it. *)
Lemma replay_line_cut r m a b d :
  in_range 0 u64_max r -> mutation_ok payload_fits m -> file_text (to_value (mk_entry r m)) = a +:+ b -> b <> "" ->
  contains_char newline a = false /\ replay_line a d = Ok d.
Proof.
  intros Hr Hm Ht Hb. split.
  - pose proof (entry_text_line r m) as Hl. rewrite Ht, contains_char_app in Hl. by destruct (contains_char newline a).
  - unfold replay_line. destruct a as [|c a]; [done|]. simpl is_empty. cbv iota.
    pose proof (fits_entry r m Hr Hm) as Hf. cbn [to_value JournalEntry_codec json_obj] in Ht, Hf.
    by rewrite (file_text_cut _ _ _ Hf Ht).
Qed.

(** What an append leaves in the active journal: the entry, or a line that a replay skips. *)
Lemma append_effect io r m dir res dir' :
  in_range 0 u64_max r -> mutation_ok payload_fits m -> append_journal io r m (Some dir) = (res, Some dir') ->
  dir' = dir /\ res <> Ok tt \/
  exists t, dir' = <[JOURNAL_FILE_NAME := t]> dir /\
    forall d, match res with
              | Ok _ => match replay_all dir d with Ok d1 => (revision d1 < r)%Z | Err _ => True end ->
                        replay_all dir' d = match replay_all dir d with Ok d1 => Ok (apply_at r m d1) | Err e => Err e end
              | Err _ => replay_all dir' d = replay_all dir d
              end.
Proof.
  intros Hr Hm. unfold append_journal, journal_line. destruct io as [|e|n e]; intros [<- Heq]%pair_equal_spec; apply (inj Some) in Heq as <-.
  - right. eexists. split; [done|]. intros d Hd. rewrite replay_all_append by apply entry_text_line.
    destruct (replay_all dir d) as [d1|]; [by apply replay_line_entry|done].
  - by left.
  - right. eexists. split; [done|]. intros d. set (s := file_text (to_value (mk_entry r m))) in *.
    destruct (substring_split (Nat.min n (String.length (nl +:+ s) - 1)) (nl +:+ s)) as (a & b & -> & Hab & Hb).
    assert (b <> "") as Hb'.
    { apply Hb. change (String.length (nl +:+ s)) with (S (String.length s)). clear. lia. }
    destruct a as [|c a].
    + rewrite append_nil_r. unfold content. destruct (dir !! JOURNAL_FILE_NAME) as [t|] eqn:Hj; simpl; [by rewrite insert_id|].
      apply replay_all_ext; [by apply journal_segments_insert_other|].
      intros n' Hn'. rewrite content_insert. case_decide; [subst; unfold content; by rewrite Hj|done].
    + change (nl +:+ s) with (String newline s) in Hab. change (String c a +:+ b) with (String c (a +:+ b)) in Hab.
      injection Hab as <- Hs. destruct (replay_line_cut r m a b d Hr Hm Hs Hb') as [Hline _].
      change (String newline a) with (nl +:+ a). rewrite replay_all_append by done.
      destruct (replay_all dir d) as [d1|]; [|done]. by destruct (replay_line_cut r m a b d1 Hr Hm Hs Hb').
Qed.

(** *** Writing a snapshot *)

Lemma snapshot_effect io d dir res dir' :
  wf payload_fits d -> write_snapshot io d dir = (res, dir') ->
  (forall n, is_journal n -> dir' !! n = dir !! n) /\ journal_segments dir' = journal_segments dir /\
  match res with
  | Ok _ => read_snapshot dir' = Ok d
  | Err _ => replay_store dir' = replay_store dir
  end.
Proof.
  intros Hw. pose proof (not_journal _ store_no_journal) as [_ Hss]. pose proof (not_journal _ tmp_no_journal) as [_ Hts].
  assert (forall n, is_journal n -> n <> STORE_FILE_NAME /\ n <> TMP_NAME) as Hne.
  { intros n Hn. split; intros ->; [by apply store_no_journal|by apply tmp_no_journal]. }
  assert (forall t, replay_store (<[TMP_NAME := t]> dir) = replay_store dir) as Htmp.
  { intros t. rewrite !replay_store_all, (read_snapshot_ext dir) by by rewrite lookup_insert_ne.
    destruct (read_snapshot dir); [|done]. apply replay_all_insert_other, tmp_no_journal. }
  assert (forall t, journal_segments (<[TMP_NAME := t]> dir) = journal_segments dir) as Htseg
    by (intros t; by apply journal_segments_insert_other).
  unfold write_snapshot. destruct io as [|[t|] e|e]; intros [<- <-]%pair_equal_spec; split_and!; try done.
  - intros n [? ?]%Hne. by rewrite lookup_insert_ne, lookup_delete_ne.
  - by rewrite journal_segments_insert_other, journal_segments_delete_other.
  - unfold read_snapshot. rewrite lookup_insert_eq, file_text_read by by apply fits_data.
    by rewrite (data_codec payload_fits).
  - intros n [? ?]%Hne. by rewrite lookup_insert_ne.
  - intros n [? ?]%Hne. by rewrite lookup_insert_ne.
Qed.

(** *** Rotating the journal *)

(** Every segment has the name the store writes, and none is newer than [r]. *)
Definition canonical dir : Prop :=
  forall n r, is_Some (dir !! n) -> segment_revision n = Some r -> in_range 0 u64_max r /\ n = segment_name r.
Definition no_newer (r : Z) dir : Prop := forall n r', is_Some (dir !! n) -> segment_revision n = Some r' -> (r' <= r)%Z.

Lemma canonical_sub dir dir' :
  (forall n, is_Some (segment_revision n) -> is_Some (dir' !! n) -> is_Some (dir !! n)) -> canonical dir -> canonical dir'.
Proof. intros Hs Hc n r Hn Hr. apply Hc; [|done]. by apply Hs. Qed.

Lemma no_newer_sub r dir dir' :
  (forall n, is_Some (segment_revision n) -> is_Some (dir' !! n) -> is_Some (dir !! n)) -> no_newer r dir -> no_newer r dir'.
Proof. intros Hs Hc n r' Hn Hr. apply (Hc n); [|done]. by apply Hs. Qed.

Lemma segment_is_journal r : in_range 0 u64_max r -> is_journal (segment_name r).
Proof. intros Hr. right. by rewrite segment_revision_name. Qed.

Lemma rotate_effect io r dir res dir' :
  in_range 0 u64_max r -> canonical dir -> no_newer r dir -> rotate_journal io r dir = (res, dir') ->
  (forall d, replay_all dir' d = replay_all dir d) /\ read_snapshot dir' = read_snapshot dir /\
  canonical dir' /\ no_newer r dir'.
Proof.
  intros Hr Hc Hn. unfold rotate_journal.
  destruct (dir !! segment_name r) as [t|] eqn:Hseg; [by intros [<- <-]%pair_equal_spec|].
  destruct (dir !! JOURNAL_FILE_NAME) as [text|] eqn:Hj; [|by intros [<- <-]%pair_equal_spec].
  destruct io as [|e]; intros [<- <-]%pair_equal_spec; [|done].
  pose proof (segment_revision_name r Hr) as Hrev.
  assert (segment_name r <> JOURNAL_FILE_NAME) as Hne by (intros Heq; rewrite Heq, journal_no_segment in Hrev; done).
  assert (segment_name r <> STORE_FILE_NAME) as Hns by (intros Heq; rewrite Heq, store_no_segment in Hrev; done).
  split_and!.
  - intros d. unfold replay_all, seg_names. rewrite journal_segments_later; [|done|by rewrite lookup_delete_ne|].
    2: { intros [r' n] Hp. rewrite journal_segments_delete_other in Hp by done. apply elem_of_journal_segments in Hp as [Hd Hr'].
         simpl. pose proof (Hn n r' Hd Hr'). destruct (Hc n r' Hd Hr') as [Hir ->].
         assert (r' <> r); [|lia]. intros ->. rewrite Hseg in Hd. by destruct Hd as [? Hd]. }
    rewrite journal_segments_delete_other, fmap_app, replay_journals_app by done.
    rewrite (replay_journals_ext _ dir).
    + destruct (replay_journals dir _ d) as [d1|]; [|done]. simpl.
      rewrite content_insert, decide_True by done. unfold content at 2. rewrite Hj. simpl.
      destruct (replay_journal text d1) as [d2|]; [|done].
      rewrite content_insert, decide_False, content_delete, decide_True by done. apply (skipped_empty (revision d2)). lia.
    + intros n Hin. fold (seg_names dir) in Hin. apply elem_of_seg_names in Hin as [Hd [r' Hr']].
      rewrite content_insert, decide_False, content_delete, decide_False; [done| |].
      * intros ->. by rewrite journal_no_segment in Hr'.
      * intros ->. rewrite Hseg in Hd. by destruct Hd as [? Hd].
  - apply read_snapshot_ext. by rewrite lookup_insert_ne, lookup_delete_ne.
  - intros n r' Hd Hr'. destruct (decide (n = segment_name r)) as [->|Hnn].
    + rewrite Hrev in Hr'. by simplify_eq.
    + apply Hc; [|done]. rewrite lookup_insert_ne in Hd by done. apply (lookup_delete_is_Some dir JOURNAL_FILE_NAME) in Hd. tauto.
  - intros n r' Hd Hr'. destruct (decide (n = segment_name r)) as [->|Hnn].
    + rewrite Hrev in Hr'. simplify_eq. lia.
    + apply (Hn n); [|done]. rewrite lookup_insert_ne in Hd by done. apply (lookup_delete_is_Some dir JOURNAL_FILE_NAME) in Hd. tauto.
Qed.

(** *** Removing journals *)

Lemma remove_files_effect fails names d dir res dir' :
  settled d dir -> STORE_FILE_NAME ∉ names -> remove_files fails names dir = (res, dir') ->
  settled d dir' /\ (forall n, is_Some (dir' !! n) -> is_Some (dir !! n)) /\
  (res = Ok tt -> forall n, n ∈ names -> dir' !! n = None).
Proof.
  revert dir. induction names as [|n names IH]; intros dir Hs Hn; simpl.
  - intros [<- <-]%pair_equal_spec. split_and!; [done|done|]. intros _ n Hn'. by apply elem_of_nil in Hn'.
  - apply not_elem_of_cons in Hn as [Hn1 Hn2]. destruct (fails n) as [e|]; [by intros [<- <-]%pair_equal_spec|].
    intros Hr. destruct (IH (delete n dir)) as (H1 & H2 & H3); [by apply settled_delete|done|done|].
    split_and!; [done| |].
    + intros n' Hd. apply H2, lookup_delete_is_Some in Hd. tauto.
    + intros Hok n' [->|Hn']%elem_of_cons; [|by apply H3].
      apply eq_None_not_Some. intros [Hd _]%H2%lookup_delete_is_Some. by destruct Hd.
Qed.

Lemma remove_files_ok names dir : (remove_files (λ _, None) names dir).1 = Ok tt.
Proof. revert dir. induction names as [|n names IH]; intros dir; simpl; [done|]. apply IH. Qed.

Lemma journals_no_store dir : STORE_FILE_NAME ∉ journals dir.
Proof.
  unfold journals. rewrite elem_of_app. fold (seg_names dir). intros [[_ [r Hr]]%elem_of_seg_names|Hj].
  - by rewrite store_no_segment in Hr.
  - destruct (dir !! JOURNAL_FILE_NAME); [|by apply elem_of_nil in Hj]. by apply list_elem_of_singleton in Hj.
Qed.

Lemma elem_of_journals dir n : is_journal n -> is_Some (dir !! n) -> n ∈ journals dir.
Proof.
  intros Hn Hd. unfold journals. fold (seg_names dir). rewrite elem_of_app. destruct Hn as [->|Hn].
  - right. destruct Hd as [t ->]. by left.
  - left. by apply elem_of_seg_names.
Qed.

(** *** Starting *)

Definition clock_ok (now : string -> nat -> Z) : Prop := forall t i, in_range 0 u64_max (now t i).

Lemma restore_jobs_ids now jobs_rev queue : ids (restore_jobs now jobs_rev queue) = ids (rev jobs_rev) ++ ids queue.
Proof.
  revert queue. induction jobs_rev as [|j rest IH]; intros queue; simpl; [done|].
  rewrite IH, fmap_app, <-app_assoc. done.
Qed.

Lemma restore_jobs_ok P now jobs_rev queue :
  (forall i, in_range 0 u64_max (now i)) -> Forall (job_ok P) jobs_rev -> Forall (job_ok P) queue ->
  Forall (job_ok P) (restore_jobs now jobs_rev queue).
Proof.
  intros Hn Hj. revert queue. induction Hj as [|j rest [? ? ? ?] Hj IH]; intros queue Hq; simpl; [done|].
  apply IH. constructor; [split; try done; apply Hn|done].
Qed.

(** On a well-formed store the depths are synchronised as everywhere else. *)
Lemma restore_topic_sync P now t jobs d :
  wf P d -> restore_topic now (t, jobs) d =
  sync_depths t (with_queues (<[t := restore_jobs (now t) (rev jobs) (entry (queues d) t)]> (queues d)) d).
Proof. intros Hw. unfold restore_topic, sync_depths. cbn. by rewrite (proj2 (wf_depths P d Hw t)). Qed.

Lemma restore_topic_wf P now p d :
  clock_ok now -> Forall (job_ok P) p.2 -> wf P d -> wf P (restore_topic now p d).
Proof.
  intros Hn Hp Hw. destruct p as [t jobs]. rewrite (restore_topic_sync P) by done.
  apply sync_wf, wf_but_queues; [by apply wf_but_of|]. apply restore_jobs_ok; [done|by apply Forall_rev|].
  apply jobs_ok_entry, Hw.
Qed.

Lemma restore_list P now l d :
  clock_ok now -> Forall (λ p : string * list Job, Forall (job_ok P) p.2) l -> NoDup l.*1 -> wf P d ->
  let d' := foldr (restore_topic now) d l in
  wf P d' /\ revision d' = revision d /\ inflight d' = inflight d /\ dlqs d' = dlqs d /\
  forall t, ids (entry (queues d') t) = ids (entry (list_to_map l) t) ++ ids (entry (queues d) t).
Proof.
  intros Hn Hl Hnd Hw. induction l as [|[t jobs] l IH]; cbn [foldr]; [done|].
  apply Forall_cons in Hl as [Hj Hl]. apply NoDup_cons in Hnd as [Hfresh Hnd].
  destruct (IH Hl Hnd) as (Hw' & Hr & Hi & Hd & He). cbv zeta. set (d' := foldr _ _ _) in *.
  split; [by apply (restore_topic_wf P now (t, jobs))|]. rewrite (restore_topic_sync P) by done.
  split_and!; [done..|]. intros t'. cbn [sync_depths with_stats with_queues queues]. rewrite list_to_map_cons, !entry_insert.
  case_decide as Ht; [subst t'|apply He]. rewrite restore_jobs_ids, rev_involutive, He.
  unfold entry at 1. by rewrite (not_elem_of_list_to_map_1 _ _ Hfresh).
Qed.

Lemma restore_spec P now d :
  clock_ok now -> wf P d ->
  wf P (restore now d) /\ revision (restore now d) = revision d /\ inflight (restore now d) = ∅ /\
  dlqs (restore now d) = dlqs d /\
  forall t, ids (entry (queues (restore now d)) t) = ids (entry (inflight d) t) ++ ids (entry (queues d) t).
Proof.
  intros Hn Hw. unfold restore. destruct (restore_list P now (map_to_list (inflight d)) (with_inflight ∅ d)) as (H1 & H2 & H3 & H4 & H5).
  - done.
  - apply Forall_forall. intros [t l] Hl%elem_of_map_to_list. by apply (wf_inflight P d Hw t).
  - apply NoDup_fst_map_to_list.
  - destruct Hw as [? ? ? ? ? ? ?]. split; try done; apply map_Forall_empty.
  - split_and!; [done..|]. intros t. rewrite H5. by rewrite list_to_map_to_list.
Qed.

Lemma restore_nothing now d : inflight d = ∅ -> restore now d = d.
Proof. intros Hi. unfold restore. rewrite Hi, map_to_list_empty. destruct d. simpl in *. by subst. Qed.

Lemma restore_held P now d t : clock_ok now -> wf P d -> ids (held t (restore now d)) ≡ₚ ids (held t d).
Proof.
  intros Hn Hw. destruct (restore_spec P now d Hn Hw) as (_ & _ & Hi & Hd & Hq). unfold held. rewrite !ids_app, Hq, Hi, Hd.
  unfold entry at 3. rewrite lookup_empty. simpl. solve_Permutation.
Qed.

(** Opening a directory: the restored store, and a directory that holds just this; or an error
    and a directory that still holds the store, restored or not. *)
Lemma load_effect now io fails dir res dir' saved :
  clock_ok now -> replay_store dir = Ok saved -> wf payload_fits saved ->
  load_store now io fails dir = (res, dir') ->
  match res with
  | Ok d => d = restore now saved /\ replay_store dir' = Ok d /\ (forall n, is_journal n -> dir' !! n = None)
  | Err _ => replay_store dir' = Ok (match io with SnapshotOk => restore now saved | _ => saved end)
  end /\ (forall n, is_journal n -> is_Some (dir' !! n) -> is_Some (dir !! n)).
Proof.
  intros Hn Hrep Hw. destruct (restore_spec payload_fits now saved Hn Hw) as (Hw' & Hrev & _).
  unfold load_store. rewrite Hrep. case_match eqn:Hcond.
  - destruct (write_snapshot io (restore now saved) dir) as [ws dir1] eqn:Hsnap.
    destruct (snapshot_effect _ _ _ _ _ Hw' Hsnap) as (Hsame & Hsegs & Hread).
    destruct ws as [[]|e].
    2: { intros [<- <-]%pair_equal_spec. split; [|intros n Hj; by rewrite Hsame]. rewrite Hread, Hrep. by destruct io as [|[]|]. }
    assert (settled (restore now saved) dir1) as Hset.
    { split; [done|]. rewrite replay_store_all in Hrep. destruct (read_snapshot dir) as [d0|]; [|done].
      apply replay_all_rev in Hrep as [_ Hskip]. rewrite Hrev. intros n Hj. unfold content. rewrite Hsame by done. by apply Hskip. }
    destruct (remove_files fails (journals dir) dir1) as [rs dir2] eqn:Hrem.
    destruct (remove_files_effect _ _ _ _ _ _ Hset (journals_no_store dir) Hrem) as (Hset2 & Hsub & Hgone).
    destruct rs as [[]|e]; intros [<- <-]%pair_equal_spec; (split; [|intros n Hj Hd; apply Hsub in Hd; by rewrite Hsame in Hd]).
    + split_and!; [done|by apply settled_replay|]. intros n Hj.
      destruct (dir2 !! n) as [t|] eqn:Hd; [|done]. assert (dir2 !! n = None); [|congruence].
      apply Hgone; [done|]. apply elem_of_journals; [done|]. rewrite <-Hsame by done. apply Hsub. by rewrite Hd.
    + destruct io as [|[]|]; [by apply settled_replay|discriminate Hsnap..].
  - intros [<- <-]%pair_equal_spec. apply orb_false_elim in Hcond as [[_ Hj]%orb_false_elim Hi].
    apply negb_false_iff, bool_decide_eq_true in Hj, Hi. rewrite restore_nothing by done.
    split; [|done]. split_and!; [done|done|]. intros n Hn'. apply eq_None_not_Some. intros Hd.
    apply (elem_of_journals dir) in Hd; [|done]. rewrite Hj in Hd. by apply elem_of_nil in Hd.
Qed.

(** A start without an I/O error succeeds. *)
Lemma load_ok now dir saved :
  replay_store dir = Ok saved -> (load_store now SnapshotOk (λ _, None) dir).1 = Ok (restore now saved).
Proof.
  intros Hr. unfold load_store. rewrite Hr. case_match; [|done]. simpl.
  match goal with |- context [remove_files ?f ?n ?d] => pose proof (remove_files_ok n d); destruct (remove_files f n d) end.
  simpl in *. by subst.
Qed.

End Replays.

End JournalRules.
