(* ===== verification/QueueLife.v ===== *)
(** * The life of a file-backed queue store (queue/src/store.rs)

    A store and its directory over starts, operations, compactions, failed writes, drops and
    crashes, as a labelled step relation; and what a restart is promised to find, as a function
    of the labels.  The theorems say that the files keep the promise after every sequence of
    steps whose payloads can be read back ([Promise.recorded]). *)

From Stdlib Require Import Ascii ZArith Lia.
From S2P Require Import Prelude Json JsonText QueueStore QueueJournal.

(** ** Operations *)

Module Ops.
Import Queue Journal.

(** The operations of [QueueStore] that change a store, with the clock and the fresh id they
    read. *)
Inductive Op : Type :=
| OpEnqueue (topic : string) (p : Value) (uuid : string) (now : Z)
| OpDequeue (topic : string) (now : Z)
| OpAck (topic id : string)
| OpNack (topic : string) (job : Job) (max_retries backoff_ms now : Z)
| OpRequeue (topic : string) (job : Job) (now : Z)
| OpRedrive (topic : string) (now : Z)
| OpRedriveOne (topic id : string) (now : Z)
| OpDiscard (topic id : string).

Section WithText.
Context `{SerdeFile}.

Definition run (io : append_io) (o : Op) (s : Shared) : Shared :=
  match o with
  | OpEnqueue t p u now => (enqueue io t p u now s).2
  | OpDequeue t now => (dequeue io t now s).2
  | OpAck t id => ack io t id s
  | OpNack t j max backoff now => nack io t j max backoff now s
  | OpRequeue t j now => (requeue io t j now s).2
  | OpRedrive t now => (redrive_dlq io t now s).2
  | OpRedriveOne t id now => (redrive_dlq_message io t id now s).2
  | OpDiscard t id => (discard_dlq_message io t id s).2
  end.

End WithText.

(** The mutation an operation commits, if it gets that far. *)
Definition mutation_of (o : Op) (d : StoreData) : option Mutation :=
  match o with
  | OpEnqueue t p u now => Some (Enqueue t (new_job u p now))
  | OpDequeue t now => (λ j, Dequeue t (job_id j)) <$> find_ready t now d
  | OpAck t id => Some (Ack t id)
  | OpNack t j max backoff now => let '(j1, retrying) := nacked j max backoff now in Some (Nack t j1 retrying)
  | OpRequeue t j now => Some (Requeue t (with_ready now j))
  | OpRedrive t now => Some (RedriveDlq t now)
  | OpRedriveOne t id now => if dlq_contains t id d then Some (RedriveDlqMessage t id now) else None
  | OpDiscard t id => if dlq_contains t id d then Some (DiscardDlqMessage t id) else None
  end.

(** Only an enqueue is called off when its line cannot be written. *)
Definition called_off (o : Op) : bool := match o with OpEnqueue _ _ _ _ => true | _ => false end.

(** The payload a mutation writes into the journal. *)
Definition payload_of (m : Mutation) : option Value :=
  match m with Enqueue _ j | Nack _ j _ | Requeue _ j => Some (payload j) | _ => None end.

(** The arguments are values of their types, and the payloads are as [P] says. *)
Definition op_ok (P : Value -> Prop) (o : Op) : Prop :=
  match o with
  | OpEnqueue _ p _ now => P p /\ in_range 0 u64_max now
  | OpDequeue _ now | OpRedrive _ now | OpRedriveOne _ _ now => in_range 0 u64_max now
  | OpNack _ j max backoff now =>
      QueueRules.job_ok P j /\ in_range 0 u32_max max /\ in_range 0 u64_max backoff /\ in_range 0 u64_max now
  | OpRequeue _ j now => QueueRules.job_ok P j /\ in_range 0 u64_max now
  | OpAck _ _ | OpDiscard _ _ => True
  end.

End Ops.

(** ** The steps of a store and its directory *)

Module Life.
Import Queue Journal Ops.

(** The compaction in progress: none, one that holds the clone it will write, or one that
    removes the segments its snapshot covers. *)
Inductive Stage : Type :=
| Idle
| Folding (clone : StoreData)
| Clearing (snapshot : Z) (names : list string).

Record Sys : Type := mk_sys {
  memory : option StoreData;
  directory : Dir;
  snapshot_revision : Z;
  stage : Stage;
}.

(** What a step did, as far as a restart is concerned: a mutation that is in the journal, one
    that is only in memory because its line could not be written, an enqueue that was called off
    for that, and the steps of compactions and starts. *)
Inductive Label : Type :=
| Done (m : Mutation)
| Lost (m : Mutation)
| Refused (m : Mutation)
| Began
| Installed
| GaveUp
| Dropped
| Crashed
| Opened (now : string -> nat -> Z)
| OpenStopped (now : string -> nat -> Z)
| Silent.

Definition label_of (io : append_io) (o : Op) (d : StoreData) : Label :=
  match mutation_of o d, io with
  | None, _ => Silent
  | Some m, AppendOk => Done m
  | Some m, _ => if called_off o then Refused m else Lost m
  end.

Section WithText.
Context `{SerdeFile}.

(** A start holds the lock of the directory, so it waits for the last compaction of a dropped
    store; an operation of a running store holds the store's lock, so it falls between the
    steps of a compaction.  [OpenStopped] is a start that failed, or died, after its snapshot
    was in place.  An operation is any one whose arguments are values of their types. *)
Inductive step : Sys -> Label -> Sys -> Prop :=
| step_op io o d dir r st s' dir' :
    op_ok (λ _, True) o -> run io o (mk_shared d (Some dir) []) = s' -> file_dir s' = Some dir' ->
    step (mk_sys (Some d) dir r st) (label_of io o d) (mk_sys (Some (data s')) dir' r st)
| step_compact io d dir r start dir' :
    compact_begin io r d dir = (start, dir') ->
    step (mk_sys (Some d) dir r Idle)
         (match start with Cloned _ => Began | _ => Silent end)
         (mk_sys (Some d) dir' r (match start with Cloned c => Folding c | _ => Idle end))
| step_fold io mem c dir r res dir' :
    write_snapshot io c dir = (res, dir') ->
    step (mk_sys mem dir r (Folding c))
         (match res with Ok _ => Installed | Err _ => GaveUp end)
         (mk_sys mem dir' r (match res with Ok _ => Clearing (revision c) (covered (revision c) dir') | Err _ => Idle end))
| step_clear mem dir r s n names :
    step (mk_sys mem dir r (Clearing s (n :: names))) Silent (mk_sys mem (delete n dir) r (Clearing s names))
| step_clear_fails mem dir r s names :
    step (mk_sys mem dir r (Clearing s names)) Silent (mk_sys mem dir r Idle)
| step_cleared mem dir r s :
    step (mk_sys mem dir r (Clearing s [])) Silent (mk_sys mem dir s Idle)
| step_drop d dir r st :
    step (mk_sys (Some d) dir r st) Dropped (mk_sys None dir r st)
| step_crash mem dir r st :
    step (mk_sys mem dir r st) Crashed (mk_sys None dir r Idle)
| step_open now io fails dir r res dir' :
    JournalRules.clock_ok now -> load_store now io fails dir = (res, dir') ->
    step (mk_sys None dir r Idle)
         (match res, io with Ok _, _ => Opened now | Err _, SnapshotOk => OpenStopped now | Err _, _ => Silent end)
         (mk_sys (match res with Ok d => Some d | Err _ => None end) dir'
                 (match res with Ok d => revision d | Err _ => r end) Idle).

(** The runs from an empty directory. *)
Inductive run_of : list Label -> Sys -> Prop :=
| run_start : run_of [] (mk_sys None ∅ 0 Idle)
| run_step ls s l s' : run_of ls s -> step s l s' -> run_of (ls ++ [l]) s'.

End WithText.
End Life.

(** ** What a restart is promised *)

Module Promise.
Import Queue Journal Ops Life.

(** The store in memory; the store the files describe; the store they will describe once the
    compaction in progress has its snapshot in place; the jobs that were accepted and neither
    acknowledged nor discarded, by topic and id; and whether the files describe the memory
    exactly, now and after the compaction. *)
Record Promise : Type := mk_promise {
  live : option StoreData;
  saved : StoreData;
  candidate : option StoreData;
  owed : gset (string * string);
  exact : bool;
  candidate_exact : bool;
}.

Definition nothing_promised : Promise := mk_promise None empty_data None ∅ true true.

Definition settles (m : Mutation) : gset (string * string) :=
  match m with Ack t id | DiscardDlqMessage t id => {[ (t, id) ]} | _ => ∅ end.

Definition accepts (m : Mutation) : gset (string * string) :=
  match m with Enqueue t j => {[ (t, job_id j) ]} | _ => ∅ end.

(** A written mutation reaches every copy, a lost one only the memory; a snapshot replaces what
    is saved; a start puts the jobs in flight back and saves that. *)
Definition promised (l : Label) (p : Promise) : Promise :=
  match l with
  | Done m =>
      match live p with
      | Some d =>
          let at_next := apply_at (next_revision d) m in
          mk_promise (Some (at_next d)) (at_next (saved p)) (at_next <$> candidate p)
            ((owed p ∖ settles m) ∪ accepts m) (exact p) (candidate_exact p)
      | None => p
      end
  | Lost m =>
      match live p with
      | Some d =>
          mk_promise (Some (apply_at (next_revision d) m d)) (saved p) (candidate p) (owed p ∖ settles m) false false
      | None => p
      end
  | Began => mk_promise (live p) (saved p) (live p) (owed p) (exact p) true
  | Installed =>
      match candidate p with
      | Some c => mk_promise (live p) c None (owed p) (candidate_exact p) true
      | None => p
      end
  | GaveUp => mk_promise (live p) (saved p) None (owed p) (exact p) true
  | Dropped => mk_promise None (saved p) (candidate p) (owed p) (exact p) (candidate_exact p)
  | Crashed => mk_promise None (saved p) None (owed p) (exact p) true
  | Opened now => mk_promise (Some (restore now (saved p))) (restore now (saved p)) None (owed p) true true
  | OpenStopped now => mk_promise None (restore now (saved p)) None (owed p) true true
  | Refused _ | Silent => p
  end.

Definition promise_of (ls : list Label) : Promise := foldl (λ p l, promised l p) nothing_promised ls.

(** A label whose payload the reader of the files reads back: no [f64], and at most 123 levels
    of arrays and objects.  Other payloads are accepted too, and can stop the next start
    ([StoreProperties.deep_payloads_stop_the_store]). *)
Definition legible (l : Label) : Prop :=
  match l with
  | Done m | Lost m | Refused m => forall v, payload_of m = Some v -> JournalRules.payload_fits v
  | _ => True
  end.

(** The runs the files answer for: every payload is legible, and the revision, which a step
    advances by one at most, stays below [u64::MAX]. *)
Record recorded (ls : list Label) : Prop := {
  recorded_payloads : Forall legible ls;
  recorded_revisions : (Z.of_nat (length ls) < u64_max)%Z;
}.

End Promise.

(** ** Lemmas *)

Module LifeRules.
Import Queue QueueRules Journal JournalRules Ops Life Promise.

Lemma nacked_ok P j max backoff now :
  job_ok P j -> in_range 0 u64_max backoff -> in_range 0 u64_max now -> job_ok P (nacked j max backoff now).1.
Proof.
  intros [Hp Ha He Hr] Hb Hn. unfold nacked. cbv zeta. unfold in_range in *.
  assert (0 <= exponential_backoff_ms backoff (sat_u32 (attempts j + 1)))%Z as Hexp.
  { unfold exponential_backoff_ms, sat_u64, sat_pow2. apply Z.min_glb; [|unfold u64_max; lia].
    apply Z.mul_nonneg_nonneg; [lia|]. case_match; [apply Z.pow_nonneg|unfold u64_max]; lia. }
  assert (0 <= sat_u32 (attempts j + 1) <= u32_max)%Z by (unfold sat_u32, u32_max in *; lia).
  case_match; split; simpl; try done; unfold in_range; try lia. unfold sat_u64, u64_max in *. simpl in *. lia.
Qed.

Lemma mutation_of_ok P o d m : op_ok P o -> mutation_of o d = Some m -> mutation_ok P m.
Proof.
  destruct o as [t p u now|t now|t id|t j max backoff now|t j now|t now|t id now|t id]; simpl; intros Ho.
  - intros [= <-]. destruct Ho as [Hp Hn]. by split.
  - destruct (find_ready t now d); intros [= <-]. done.
  - by intros [= <-].
  - intros [= <-]. destruct Ho as (Hj & _ & Hb & Hn). by apply (nacked_ok P j max backoff now).
  - intros [= <-]. destruct Ho as ([? ? ? ?] & Hn). by split.
  - by intros [= <-].
  - case_match; [|done]. by intros [= <-].
  - case_match; [|done]. by intros [= <-].
Qed.

Lemma mutation_ok_legible m :
  mutation_ok (λ _, True) m -> (forall v, payload_of m = Some v -> payload_fits v) -> mutation_ok payload_fits m.
Proof. destruct m; cbn; try done; intros [_ ? ? ?] Hf; split; auto. Qed.

Lemma recorded_snoc ls l : recorded (ls ++ [l]) -> recorded ls /\ legible l /\ (Z.of_nat (length ls) + 1 < u64_max)%Z.
Proof.
  intros [[Hl Hx]%Forall_app Hr]. rewrite length_app, Nat2Z.inj_add in Hr. change (Z.of_nat (length [l])) with 1%Z in Hr.
  split_and!; [split; [done|lia]|by apply Forall_singleton|done].
Qed.

Section Runs.
Context `{SerdeFileLaws}.

Lemma append_some io r m dir : exists res dir', append_journal io r m (Some dir) = (res, Some dir') /\ is_ok res = match io with AppendOk => true | _ => false end.
Proof. destruct io; eexists _, _; by split. Qed.

Ltac appended :=
  match goal with |- context [append_journal ?io ?r ?m (Some ?dir)] =>
    let res := fresh "res" in let dir' := fresh "dir'" in let Ha := fresh "Ha" in let Hok := fresh "Hok" in
    destruct (append_some io r m dir) as (res & dir' & Ha & Hok); rewrite Ha; exists res, dir'; split; [done|]; split; [done|]
  end.

(** Every operation is nothing, or one append and one mutation. *)
Lemma run_commit io o d dir :
  match mutation_of o d with
  | None => run io o (mk_shared d (Some dir) []) = mk_shared d (Some dir) []
  | Some m =>
      exists res dir', append_journal io (next_revision d) m (Some dir) = (res, Some dir') /\
        is_ok res = match io with AppendOk => true | _ => false end /\
        file_dir (run io o (mk_shared d (Some dir) [])) = Some dir' /\
        data (run io o (mk_shared d (Some dir) [])) =
          if called_off o && negb (is_ok res) then d else apply_at (next_revision d) m d
  end.
Proof.
  destruct o as [t p u now|t now|t id|t j max backoff now|t j now|t now|t id now|t id];
    cbn [mutation_of run]; unfold enqueue, dequeue, ack, nack, requeue, redrive_dlq, redrive_dlq_message,
      discard_dlq_message, commit_logged, commit; cbn [data file_dir called_off].
  - appended. by destruct res.
  - destruct (find_ready t now d) as [j|]; [|done]. cbn [fmap option_fmap option_map]. by appended.
  - by appended.
  - destruct (nacked j max backoff now) as [j1 []]; by appended.
  - by appended.
  - appended. by destruct (0 <? _)%Z.
  - destruct (dlq_contains t id d); [|done]. cbn [negb]. by appended.
  - destruct (dlq_contains t id d); [|done]. cbn [negb]. by appended.
Qed.

(** *** The simulation *)

Abbreviation good := (wf payload_fits).

Definition seg_seen (r : Z) (dir : Dir) : Prop := forall n, is_Some (segment_revision n) -> skipped r (content dir n).

(** A system and its promise: the files describe what is saved, and what a finished compaction
    would make of them. *)
Record rel (s : Sys) (p : Promise) : Prop := {
  rel_live : live p = memory s;
  rel_saved : replay_store (directory s) = Ok (saved p);
  rel_wf : good (saved p);
  rel_canonical : canonical (directory s);
  rel_memory : forall d, memory s = Some d ->
    good d /\ (revision (saved p) <= revision d)%Z /\ no_newer (revision d) (directory s);
  rel_stage : match stage s with
    | Idle => candidate p = None
    | Folding c => exists k, candidate p = Some k /\ good c /\ good k /\
        replay_all (directory s) c = Ok k /\ seg_seen (revision c) (directory s) /\
        forall d, memory s = Some d -> (revision k <= revision d)%Z
    | Clearing _ names => candidate p = None /\
        exists d, read_snapshot (directory s) = Ok d /\ seg_seen (revision d) (directory s) /\
          forall n, n ∈ names -> is_Some (segment_revision n)
    end;
}.

Lemma apply_at_wf P r m d : wf P d -> mutation_ok P m -> in_range 0 u64_max r -> wf P (apply_at r m d).
Proof. intros Hw Hm Hr. destruct (apply_wf P m d Hw Hm). by split. Qed.

Lemma next_revision_ok P d : wf P d -> (revision d < u64_max)%Z ->
  next_revision d = (revision d + 1)%Z /\ in_range 0 u64_max (next_revision d).
Proof. intros Hw Hd. pose proof (wf_revision P d Hw) as Hr. unfold next_revision, sat_u64, in_range in *. lia. Qed.

(** An append in terms of the lookups of the directory. *)
Lemma append_dir io r m dir res dir' :
  in_range 0 u64_max r -> mutation_ok payload_fits m -> append_journal io r m (Some dir) = (res, Some dir') ->
  (forall d k, replay_all dir d = Ok k -> (revision k < r)%Z ->
     replay_all dir' d = Ok (if is_ok res then apply_at r m k else k)) /\
  (forall n, n <> JOURNAL_FILE_NAME -> dir' !! n = dir !! n).
Proof.
  intros Hr Hm Ha. destruct (append_effect io r m dir res dir' Hr Hm Ha) as [[-> Hres]|(t & -> & Hrep)].
  - split; [|done]. intros d k Hd _. by destruct res as [[]|].
  - split; [|intros n Hn; by rewrite lookup_insert_ne].
    intros d k Hd Hk. specialize (Hrep d). rewrite Hd in Hrep. destruct res as [[]|e]; [by apply Hrep|done].
Qed.

Lemma not_active n : is_Some (segment_revision n) -> n <> JOURNAL_FILE_NAME.
Proof. intros Hn ->. rewrite journal_no_segment in Hn. by destruct Hn. Qed.

Lemma not_store n : is_Some (segment_revision n) -> n <> STORE_FILE_NAME.
Proof. intros Hn ->. rewrite store_no_segment in Hn. by destruct Hn. Qed.

Lemma seg_seen_ext r dir dir' : (forall n, is_Some (segment_revision n) -> dir' !! n = dir !! n) -> seg_seen r dir -> seg_seen r dir'.
Proof. intros Hd Hs n Hn. unfold content. rewrite Hd by done. by apply Hs. Qed.

Lemma replay_all_seen dir d : seg_seen (revision d) dir -> replay_all dir d = replay_journal (content dir JOURNAL_FILE_NAME) d.
Proof.
  intros Hs. unfold replay_all. rewrite (replay_journals_skipped dir _ (revision d)); [done| |done].
  intros n [_ Hn]%elem_of_seg_names. by apply Hs.
Qed.

(** What is appended changes every copy of the store in the same way. *)
Lemma append_rel io r m dir dir' res mem d rev st p :
  rel (mk_sys (Some d) dir rev st) p -> (revision d < r)%Z -> in_range 0 u64_max r -> mutation_ok payload_fits m ->
  append_journal io r m (Some dir) = (res, Some dir') ->
  (mem = d /\ is_ok res = false \/ mem = apply_at r m d) ->
  let upd k := if is_ok res then apply_at r m k else k in
  rel (mk_sys (Some mem) dir' rev st)
      (mk_promise (Some mem) (upd (saved p)) (upd <$> candidate p) (owed p) (exact p) (candidate_exact p)).
Proof.
  intros [Hl Hs Hw Hc Hm Hst] Hrd Hr Hmok Ha Hmem upd. cbn [memory directory stage] in *.
  destruct (Hm d eq_refl) as (Hgd & Hrev & Hnew). destruct (append_dir io r m dir res dir' Hr Hmok Ha) as [Hrep Hsame].
  assert (forall n, is_Some (segment_revision n) -> dir' !! n = dir !! n) as Hseg by (intros n Hn; by apply Hsame, not_active).
  assert (forall k, good k -> good (upd k)) as Hupd by (intros k Hk; unfold upd; destruct (is_ok res); [by apply apply_at_wf|done]).
  assert (forall k, (revision k <= revision d)%Z -> (revision (upd k) <= revision mem)%Z) as Hle.
  { intros k Hk. unfold upd. destruct Hmem as [[-> ->]| ->]; [done|]. destruct (is_ok res); simpl; lia. }
  split; cbn [memory directory stage live saved candidate].
  - done.
  - rewrite replay_store_all, (read_snapshot_ext dir) by by apply Hsame.
    rewrite replay_store_all in Hs. destruct (read_snapshot dir) as [d0|]; [|done]. apply Hrep; [done|lia].
  - by apply Hupd.
  - apply (canonical_sub dir); [|done]. intros n Hn. by rewrite Hseg.
  - intros d' [= <-]. split_and!; [|by apply Hle|].
    + destruct Hmem as [[-> _]| ->]; [done|by apply apply_at_wf].
    + apply (no_newer_sub _ dir); [intros n Hn; by rewrite Hseg|]. intros n r' Hn Hr'. pose proof (Hnew n r' Hn Hr').
      destruct Hmem as [[-> _]| ->]; simpl; lia.
  - destruct st as [|c|r0 names].
    + by rewrite Hst.
    + destruct Hst as (k & -> & Hgc & Hgk & Hck & Hseen & Hkd). pose proof (Hkd d eq_refl). exists (upd k). split_and!; [done|done|by apply Hupd| |by eapply seg_seen_ext|].
      * apply Hrep; [done|lia].
      * intros d' [= <-]. by apply Hle.
    + destruct Hst as (-> & d0 & Hd0 & Hseen & Hnames). split; [done|]. exists d0. split_and!; [|by eapply seg_seen_ext|done].
      rewrite <-Hd0. by apply read_snapshot_ext, Hsame.
Qed.

(** Equal up to what the files do not depend on. *)
Lemma rel_same_files s p q :
  rel s p -> live q = live p -> saved q = saved p -> candidate q = candidate p -> rel s q.
Proof. intros [? ? ? ? ? ?] Hl Hs Hc. split; rewrite ?Hl, ?Hs, ?Hc; done. Qed.

Lemma op_sim io o d dir rev st s' dir' p :
  rel (mk_sys (Some d) dir rev st) p -> (revision d < u64_max)%Z -> op_ok (λ _, True) o -> legible (label_of io o d) ->
  run io o (mk_shared d (Some dir) []) = s' -> file_dir s' = Some dir' ->
  rel (mk_sys (Some (data s')) dir' rev st) (promised (label_of io o d) p).
Proof.
  intros Hrel Hd Ho Hleg <- Hdir. pose proof (rel_live _ _ Hrel) as Hl. cbn [memory] in Hl.
  destruct (rel_memory _ _ Hrel d eq_refl) as (Hgd & _ & _). destruct (next_revision_ok _ d Hgd Hd) as [Hnext Hr].
  pose proof (run_commit io o d dir) as Hrun. unfold label_of in *. destruct (mutation_of o d) as [m|] eqn:Hm.
  - destruct Hrun as (res & dir1 & Ha & Hok & Hdir1 & Hdata). rewrite Hdir1 in Hdir. injection Hdir as <-.
    assert (mutation_ok payload_fits m) as Hmok.
    { apply mutation_ok_legible; [|by destruct io, (called_off o)]. by eapply mutation_of_ok. }
    pose proof (append_rel io (next_revision d) m dir dir1 res (data (run io o (mk_shared d (Some dir) []))) d rev st p Hrel) as Hsim.
    specialize (Hsim ltac:(lia) Hr Hmok Ha). rewrite Hdata in *.
    destruct io as [|e|n e]; rewrite Hok in *; cbn [negb andb] in *; rewrite ?andb_false_r, ?andb_true_r in *.
    + eapply rel_same_files; [apply Hsim; by right|..]; cbn [promised]; by rewrite Hl.
    + destruct (called_off o); [specialize (Hsim (or_introl (conj eq_refl eq_refl)))|specialize (Hsim (or_intror eq_refl))];
        (eapply rel_same_files; [exact Hsim|..]; cbn [promised]; rewrite ?Hl; try done); by destruct (candidate p).
    + destruct (called_off o); [specialize (Hsim (or_introl (conj eq_refl eq_refl)))|specialize (Hsim (or_intror eq_refl))];
        (eapply rel_same_files; [exact Hsim|..]; cbn [promised]; rewrite ?Hl; try done); by destruct (candidate p).
  - rewrite Hrun in *. cbn [data file_dir] in *. injection Hdir as <-. by destruct io.
Qed.

Lemma compact_sim io d dir rev start dir' p :
  rel (mk_sys (Some d) dir rev Idle) p -> compact_begin io rev d dir = (start, dir') ->
  rel (mk_sys (Some d) dir' rev (match start with Cloned c => Folding c | _ => Idle end))
      (promised (match start with Cloned _ => Began | _ => Silent end) p).
Proof.
  intros Hrel. unfold compact_begin. case_match; [by intros [<- <-]%pair_equal_spec|].
  destruct (rotate_journal io (revision d) dir) as [rs dir1] eqn:Hrot.
  pose proof Hrel as [Hl Hs Hw Hc Hm Hst]. cbn [memory directory stage] in *.
  destruct (Hm d eq_refl) as (Hgd & Hrev & Hnew).
  destruct (rotate_effect io (revision d) dir rs dir1 (wf_revision _ _ Hgd) Hc Hnew Hrot) as (Hrep & Hread & Hc1 & Hnew1).
  assert (replay_store dir1 = Ok (saved p)) as Hs1.
  { rewrite replay_store_all, Hread. rewrite replay_store_all in Hs. by destruct (read_snapshot dir); rewrite ?Hrep. }
  assert (forall st q, live q = Some d -> saved q = saved p -> match st with
      | Idle => candidate q = None
      | Folding c => c = d /\ candidate q = Some d
      | _ => False end -> rel (mk_sys (Some d) dir1 rev st) q) as Hmk.
  { intros st q Hq Hsq Hstq. split; cbn [memory directory stage]; rewrite ?Hsq; try done.
    - intros d' [= <-]. done.
    - destruct st as [|c|]; [done| |done]. destruct Hstq as [-> Hcand]. exists d.
      rewrite replay_store_all in Hs1. destruct (read_snapshot dir1) as [d0|]; [|done]. apply replay_all_rev in Hs1 as [_ Hskip].
      assert (forall n, is_journal n -> skipped (revision d) (content dir1 n)) as Hskip' by (intros n Hn; by eapply skipped_mono, Hskip).
      split_and!; [done|done|done|by apply (replay_all_skipped _ (revision d))|intros n Hn; apply Hskip'; by right|by intros d' [= <-]]. }
  destruct rs as [[]|e]; intros [<- <-]%pair_equal_spec; by apply Hmk.
Qed.

Lemma fold_sim io mem c dir rev res dir' p :
  rel (mk_sys mem dir rev (Folding c)) p -> write_snapshot io c dir = (res, dir') ->
  rel (mk_sys mem dir' rev (match res with Ok _ => Clearing (revision c) (covered (revision c) dir') | Err _ => Idle end))
      (promised (match res with Ok _ => Installed | Err _ => GaveUp end) p).
Proof.
  intros [Hl Hs Hw Hc Hm (k & Hcand & Hgc & Hgk & Hck & Hseen & Hkd)] Hsnap. cbn [memory directory stage] in *.
  destruct (snapshot_effect io c dir res dir' Hgc Hsnap) as (Hsame & Hsegs & Hread).
  assert (forall n, is_Some (segment_revision n) -> dir' !! n = dir !! n) as Hseg by (intros n Hn; apply Hsame; by right).
  assert (canonical dir') as Hc' by (apply (canonical_sub dir); [intros n Hn; by rewrite Hseg|done]).
  assert (forall r, no_newer r dir -> no_newer r dir') as Hnew'
    by (intros r; apply no_newer_sub; intros n Hn; by rewrite Hseg).
  destruct res as [[]|e]; cbn [promised]; rewrite ?Hcand; split; cbn [memory directory stage live saved candidate]; try done.
  - rewrite replay_store_all, Hread. rewrite <-Hck. apply replay_all_ext; [done|].
    intros n Hn. unfold content. by rewrite Hsame.
  - intros d Hd. destruct (Hm d Hd) as (? & ? & ?). split_and!; [done|by apply Hkd|by apply Hnew'].
  - split; [done|]. exists c. split_and!; [done|by eapply seg_seen_ext|]. intros n. unfold covered.
    intros ([r n'] & -> & [_ Hin]%list_elem_of_filter)%list_elem_of_fmap. apply elem_of_journal_segments in Hin as [_ Hr']. simpl. by rewrite Hr'.
  - by rewrite Hread.
  - intros d Hd. destruct (Hm d Hd) as (? & ? & ?). split_and!; [done|done|by apply Hnew'].
Qed.

Lemma clear_sim mem dir rev r n names p :
  rel (mk_sys mem dir rev (Clearing r (n :: names))) p -> rel (mk_sys mem (delete n dir) rev (Clearing r names)) p.
Proof.
  intros [Hl Hs Hw Hc Hm (Hcand & d0 & Hd0 & Hseen & Hnames)]. cbn [memory directory stage] in *.
  assert (is_Some (segment_revision n)) as Hn by (apply Hnames; by left).
  assert (forall n', is_Some (segment_revision n') -> is_Some (delete n dir !! n') -> is_Some (dir !! n')) as Hsub
    by (intros n' _ Hd; apply lookup_delete_is_Some in Hd; tauto).
  assert (read_snapshot (delete n dir) = Ok d0) as Hd0'.
  { rewrite <-Hd0. apply read_snapshot_ext, lookup_delete_ne. intros ->. by apply (not_store STORE_FILE_NAME). }
  assert (seg_seen (revision d0) (delete n dir)) as Hseen'.
  { intros n' Hn'. rewrite content_delete. case_decide; [apply skipped_empty|by apply Hseen]. }
  split; cbn [memory directory stage]; try done.
  - rewrite replay_store_all, Hd0', replay_all_seen, content_delete by done.
    rewrite decide_False by (intros Heq; subst n; by apply (not_active JOURNAL_FILE_NAME)).
    rewrite <-replay_all_seen by done. by rewrite replay_store_all, Hd0 in Hs.
  - by eapply canonical_sub.
  - intros d Hd. destruct (Hm d Hd) as (? & ? & ?). split_and!; [done|done|by eapply no_newer_sub].
  - split; [done|]. exists d0. split_and!; [done|done|]. intros n' Hn'. apply Hnames. by right.
Qed.

Lemma open_sim now io fails dir rev res dir' p :
  rel (mk_sys None dir rev Idle) p -> clock_ok now -> load_store now io fails dir = (res, dir') ->
  rel (mk_sys (match res with Ok d => Some d | Err _ => None end) dir' (match res with Ok d => revision d | Err _ => rev end) Idle)
      (promised (match res, io with Ok _, _ => Opened now | Err _, SnapshotOk => OpenStopped now | Err _, _ => Silent end) p).
Proof.
  intros [Hl Hs Hw Hc Hm Hst] Hn Hload. cbn [memory directory stage] in *.
  destruct (load_effect now io fails dir res dir' (saved p) Hn Hs Hw Hload) as [Hres Hsub].
  destruct (restore_spec payload_fits now (saved p) Hn Hw) as (Hwr & Hrev & _).
  assert (canonical dir') as Hc' by (apply (canonical_sub dir); [intros n Hn' Hd; apply Hsub; [by right|done]|done]).
  destruct res as [d|e].
  - destruct Hres as (-> & Hrep & Hgone). split; cbn; try done. intros d [= <-]. split_and!; [done|lia|].
    intros n r' Hd Hr'. rewrite Hgone in Hd by (right; by rewrite Hr'). by destruct Hd.
  - destruct io; split; cbn; done.
Qed.

Lemma step_sim s l s' p :
  rel s p -> (forall d, memory s = Some d -> (revision d < u64_max)%Z) -> legible l -> step s l s' -> rel s' (promised l p).
Proof.
  intros Hrel Hrev Hleg Hstep. destruct Hstep.
  - eapply op_sim; try done. by apply Hrev.
  - by eapply compact_sim.
  - by eapply fold_sim.
  - by eapply clear_sim.
  - destruct Hrel as [? ? ? ? ? (? & _)]. by split.
  - destruct Hrel as [? ? ? ? ? (? & _)]. by split.
  - destruct Hrel as [? ? ? ? ? Hst]. split; cbn [memory directory stage promised live saved candidate] in *; try done.
    destruct st as [|c|]; [done| |done]. destruct Hst as (k & ? & ? & ? & ? & ? & ?). by exists k.
  - destruct Hrel as [? ? ? ? ? Hst]. by split.
  - by eapply open_sim.
Qed.

Lemma empty_good P : wf P empty_data.
Proof.
  split; [unfold in_range, u64_max; simpl; lia|apply map_Forall_empty..| |apply map_Forall_empty].
  intros t. cbn [empty_data stats queues dlqs]. unfold length_u64, entry. by rewrite !lookup_empty.
Qed.



Lemma start_rel : rel (mk_sys None ∅ 0 Idle) nothing_promised.
Proof.
  split; cbn; try done.
  intros n r Hn. rewrite lookup_empty in Hn. by destruct Hn.
Qed.

Lemma promise_of_snoc ls l : promise_of (ls ++ [l]) = promised l (promise_of ls).
Proof. unfold promise_of. by rewrite foldl_app. Qed.

Definition label_ok (l : Label) : Prop := match l with Opened now | OpenStopped now => clock_ok now | _ => True end.

(** A step advances the revision by one at most, in memory and in what is saved. *)
Record revisions_below (n : Z) (p : Promise) : Prop := {
  below_live : forall d, live p = Some d -> (revision d <= n)%Z;
  below_saved : (revision (saved p) <= n)%Z;
  below_candidate : forall c, candidate p = Some c -> (revision c <= n)%Z;
}.

Lemma next_below n d : (revision d <= n)%Z -> (next_revision d <= n + 1)%Z.
Proof. unfold next_revision, sat_u64. lia. Qed.

Lemma promised_below n l p :
  good (saved p) -> label_ok l ->
  revisions_below n p -> revisions_below (n + 1) (promised l p).
Proof.
  intros Hw Hl [Hd Hs Hc]. pose proof (λ d Hd', next_below n d (Hd d Hd')) as Hn.
  assert (forall now, clock_ok now -> (revision (restore now (saved p)) <= n + 1)%Z) as Hres.
  { intros now Hnow. destruct (restore_spec payload_fits now _ Hnow Hw) as (_ & -> & _). lia. }
  assert (revisions_below (n + 1) p) as Hp by (split; [intros d Hd'; specialize (Hd d Hd')| |intros c Hc'; specialize (Hc c Hc')]; lia).
  assert (forall r m k, (r <= n + 1)%Z -> (revision (apply_at r m k) <= n + 1)%Z) as Hat by done.
  pose proof Hp as [Hd1 Hs1 Hc1].
  destruct l as [m|m|m| | | | | |now|now|]; cbn [promised]; try done.
  - destruct (live p) as [d|]; [|done]. specialize (Hn d eq_refl).
    split; cbn [live saved candidate]; [by intros ? [= <-]; auto|by auto|]. intros c.
    destruct (candidate p) as [k|]; [|done]. intros [= <-]. by auto.
  - destruct (live p) as [d|]; [|done]. specialize (Hn d eq_refl). split; [|done..]. intros ? [= <-]. by auto.
  - destruct (candidate p) as [k|]; [|done]. split; cbn [live saved candidate]; [done|by apply Hc1|done].
  - split; cbn [live saved candidate]; [intros ? [= <-]|..]; (done || by apply Hres).
  - split; cbn [live saved candidate]; (done || by apply Hres).
Qed.

Lemma step_label_ok s l s' : step s l s' -> label_ok l.
Proof.
  destruct 1; try done; [|by destruct start|by destruct res|by destruct res, io].
  unfold label_of. repeat case_match; done.
Qed.

Lemma run_rel_below ls s : run_of ls s -> recorded ls -> rel s (promise_of ls) /\ revisions_below (Z.of_nat (length ls)) (promise_of ls).
Proof.
  induction 1 as [|ls s l s' _ IH Hstep].
  - intros _. split; [apply start_rel|]. split; cbn; (done || lia).
  - intros (Hrec & Hleg & Hlen)%recorded_snoc. destruct (IH Hrec) as [Hrel Hb]. rewrite promise_of_snoc, length_app. split.
    + eapply step_sim; [exact Hrel| |done..]. intros d Hd. rewrite <-(rel_live _ _ Hrel) in Hd. pose proof (below_live _ _ Hb d Hd). lia.
    + replace (Z.of_nat (length ls + length [l])) with (Z.of_nat (length ls) + 1)%Z by (simpl; lia).
      apply promised_below; [apply (rel_wf _ _ Hrel)|by eapply step_label_ok|done].
Qed.

Lemma run_rel ls s : run_of ls s -> recorded ls -> rel s (promise_of ls).
Proof. intros Hr Hrec. by destruct (run_rel_below ls s Hr Hrec). Qed.


(** *** What is owed is held *)

Definition holds_owed (ow : gset (string * string)) (d : StoreData) : Prop :=
  forall t id, (t, id) ∈ ow -> id ∈ ids (held t d).

Definition keeps_owed (p : Promise) : Prop :=
  holds_owed (owed p) (saved p) /\ (forall d, live p = Some d -> holds_owed (owed p) d) /\
  (forall c, candidate p = Some c -> holds_owed (owed p) c).

Lemma removed_settled m d t id : id ∈ on_topic t (removed m d) -> (t, id) ∈ settles m.
Proof.
  unfold on_topic. rewrite list_elem_of_fmap. intros ([t' id'] & -> & [Ht Hin]%list_elem_of_filter). simpl in *. subst t'.
  destruct m; simpl in *; try (by apply elem_of_nil in Hin); case_decide; try (by apply elem_of_nil in Hin);
    apply list_elem_of_singleton in Hin; simplify_eq; set_solver.
Qed.

Lemma held_accepted m d t id : (t, id) ∈ accepts m -> id ∈ ids (held t (apply m d)).
Proof.
  intros Hin. pose proof (apply_held m d t) as Hp. assert (id ∈ ids (held t (apply m d)) ++ on_topic t (removed m d)) as Hi.
  { rewrite Hp, elem_of_app. right. destruct m; simpl in *; try set_solver.
    apply elem_of_singleton in Hin. simplify_eq. rewrite on_topic_one, decide_True by done. by left. }
  destruct m; simpl in *; try set_solver.
Qed.

(** A mutation, written or lost, leaves what is still owed where it can be found. *)
Lemma apply_owed r m d ow : holds_owed ow d -> holds_owed (ow ∖ settles m) (apply_at r m d).
Proof.
  intros Ho t id [Hin Hn]%elem_of_difference. change (held t (apply_at r m d)) with (held t (apply m d)).
  pose proof (apply_held m d t) as Hp. assert (id ∈ ids (held t (apply m d)) ++ on_topic t (removed m d)) as Hi.
  { rewrite Hp, elem_of_app. left. by apply Ho. }
  apply elem_of_app in Hi as [Hi|Hi]; [done|]. by apply removed_settled in Hi.
Qed.

Lemma apply_owed_all r m d ow : holds_owed ow d -> holds_owed ((ow ∖ settles m) ∪ accepts m) (apply_at r m d).
Proof.
  intros Ho t id [Hin|Hin]%elem_of_union; [by apply (apply_owed r m d ow)|].
  change (held t (apply_at r m d)) with (held t (apply m d)). by apply held_accepted.
Qed.

Lemma owed_subset ow ow' d : ow' ⊆ ow -> holds_owed ow d -> holds_owed ow' d.
Proof. intros Hs Ho t id Hin. apply Ho. by apply Hs. Qed.

Lemma restore_owed now d ow : clock_ok now -> good d -> holds_owed ow d -> holds_owed ow (restore now d).
Proof. intros Hn Hw Ho t id Hin. rewrite (restore_held payload_fits) by done. by apply Ho. Qed.

Lemma promised_owed l p : good (saved p) -> label_ok l -> keeps_owed p -> keeps_owed (promised l p).
Proof.
  intros Hw Hl Hk. pose proof Hk as (Hs & Hd & Hc). destruct l as [m|m|m| | | | | |now|now|]; simpl in *.
  - destruct (live p) as [d|]; [|exact Hk]. split_and!; simpl.
    + by apply apply_owed_all.
    + intros ? [= <-]. by apply apply_owed_all, Hd.
    + destruct (candidate p) as [c|]; [|done]. intros ? [= <-]. by apply apply_owed_all, Hc.
  - destruct (live p) as [d|]; [|exact Hk].
    split_and!; simpl; [by eapply owed_subset, Hs; set_solver| |intros c Hcc; by eapply owed_subset, Hc; [set_solver|]].
    intros ? [= <-]. by apply apply_owed, Hd.
  - by split_and!.
  - by split_and!.
  - destruct (candidate p) as [c|]; [|exact Hk]. split_and!; simpl; [by apply Hc|done|done].
  - by split_and!.
  - by split_and!.
  - by split_and!.
  - split_and!; simpl; [by apply restore_owed| |done]. intros ? [= <-]. by apply restore_owed.
  - split_and!; simpl; [by apply restore_owed|done|done].
  - by split_and!.
Qed.

Lemma run_owed ls s : run_of ls s -> recorded ls -> keeps_owed (promise_of ls).
Proof.
  induction 1 as [|ls s l s' Hrun IH Hstep]; [intros _; split_and!; simpl; try done; intros t id Hin; set_solver|].
  intros (Hrec & _ & _)%recorded_snoc. rewrite promise_of_snoc.
  apply promised_owed; [by apply (rel_wf s), run_rel|by eapply step_label_ok|by apply IH].
Qed.

(** *** Without a lost line the files are the memory *)

Definition keeps_exact (p : Promise) : Prop :=
  (exact p = true -> forall d, live p = Some d -> saved p = d) /\
  (candidate_exact p = true -> forall c d, candidate p = Some c -> live p = Some d -> c = d).

Lemma promised_exact l p : keeps_exact p -> keeps_exact (promised l p).
Proof.
  intros [He Hc]. destruct l as [m|m|m| | | | | |now|now|]; simpl; try (by split).
  - destruct (live p) as [d|] eqn:Hl; [|by split; rewrite Hl]. split; simpl.
    + intros Hx ? [= <-]. by rewrite (He Hx d).
    + intros Hx c d' Hcc [= <-]. destruct (candidate p) as [c0|]; [|done]. injection Hcc as <-. by rewrite (Hc Hx c0 d).
  - destruct (live p) as [d|] eqn:Hl; by split; rewrite ?Hl.
  - split; [done|]. simpl. intros _ c d H1 H2. congruence.
  - destruct (candidate p) as [c|] eqn:Hcc; [|split; [done|by rewrite Hcc]]. split; simpl; [|done].
    intros Hx d Hd. by apply Hc.
  - split; simpl; [|done]. by intros _ d [= <-].
Qed.

Lemma run_exact ls : keeps_exact (promise_of ls).
Proof.
  induction ls as [|l ls IH] using rev_ind; [by split|]. rewrite promise_of_snoc. by apply promised_exact.
Qed.

Lemma exact_without_loss ls : (forall m, Lost m ∉ ls) -> exact (promise_of ls) = true.
Proof.
  intros Hl. assert (exact (promise_of ls) = true /\ candidate_exact (promise_of ls) = true) as [? _]; [|done].
  induction ls as [|l ls IH] using rev_ind; [done|]. rewrite promise_of_snoc.
  destruct IH as [H1 H2]; [intros m Hm; apply (Hl m), elem_of_app; by left|].
  assert (forall m, l <> Lost m) as Hm by (intros m ->; apply (Hl m), elem_of_app; right; by left).
  destruct l as [m|m|m| | | | | |now|now|]; simpl; try done; [by destruct (live _)|by destruct (Hm m)|by destruct (candidate _)].
Qed.

Lemma no_journals dir : (forall n, is_journal n -> dir !! n = None) -> journals dir = [].
Proof.
  intros Hn. destruct (journals dir) as [|n l] eqn:Hj; [done|]. assert (n ∈ journals dir) as Hin by (rewrite Hj; by left).
  unfold journals in Hin. fold (seg_names dir) in Hin. apply elem_of_app in Hin as [[[t Ht] Hs]%elem_of_seg_names|Hin].
  - rewrite Hn in Ht by by right. done.
  - rewrite Hn in Hin by by left. by apply elem_of_nil in Hin.
Qed.

End Runs.
End LifeRules.

(** ** Properties *)

Module LifeProperties.
Import Queue QueueRules Journal JournalRules Ops Life Promise LifeRules.

Section Laws.
Context `{SerdeFileLaws}.

(** C6: after every run from an empty directory whose payloads the reader of the files reads
    back (no [f64], at most 123 levels; others are accepted too and can stop the next start)
    and of fewer than [u64::MAX] steps, with appends that fail or stop midway, compactions that
    fail at any point, drops and crashes between any two steps, the memory is what was promised,
    and the snapshot, the segments and the active journal together describe exactly the promised
    saved store. *)
Theorem journal_keeps_promise ls s :
  run_of ls s -> recorded ls ->
  memory s = live (promise_of ls) /\ replay_store (directory s) = Ok (saved (promise_of ls)).
Proof. intros Hr Hrec. apply run_rel in Hr; [|done]. split; [symmetry; apply (rel_live _ _ Hr)|apply (rel_saved _ _ Hr)]. Qed.

(** C3: as long as the payloads written are ones the reader of the files reads back (no [f64],
    at most 123 levels; a deeper payload is accepted too and stops the next start) and the
    run has fewer than [u64::MAX] steps, a job that was accepted and neither acknowledged nor
    discarded is in the store that the files describe, whatever writes failed and wherever the
    process died: the next start puts it in its queue or finds it in its dead letters. *)
Theorem owed_jobs_survive ls s t id :
  run_of ls s -> recorded ls -> (t, id) ∈ owed (promise_of ls) ->
  exists d, replay_store (directory s) = Ok d /\ id ∈ ids (held t d) /\
    forall now, clock_ok now -> id ∈ ids (entry (queues (restore now d)) t ++ entry (dlqs (restore now d)) t).
Proof.
  intros Hr Hrec Ho. pose proof (run_rel ls s Hr Hrec) as Hrel. pose proof (run_owed ls s Hr Hrec) as (Hs & _ & _).
  exists (saved (promise_of ls)). split_and!; [apply (rel_saved _ _ Hrel)|by apply Hs|]. intros now Hn.
  pose proof (Hs t id Ho) as Hin. rewrite <-(restore_held payload_fits now) in Hin by (done || apply (rel_wf _ _ Hrel)).
  destruct (restore_spec payload_fits now _ Hn (rel_wf _ _ Hrel)) as (_ & _ & Hi & _). unfold held in Hin.
  rewrite Hi in Hin. unfold entry at 2 in Hin. by rewrite lookup_empty in Hin.
Qed.

(** In runs with such payloads, while no append is lost, replaying the files gives the store in memory, entry for entry
    and counter for counter; a lost append is healed by the next compaction that gets its
    snapshot in place, and by the next start. *)
Theorem replay_is_the_memory ls s d :
  run_of ls s -> recorded ls -> memory s = Some d ->
  ((forall m, Lost m ∉ ls) -> exact (promise_of ls) = true) /\
  (exact (promise_of ls) = true -> replay_store (directory s) = Ok d).
Proof.
  intros Hr Hrec Hd. split; [by apply exact_without_loss|]. intros He. pose proof (run_rel ls s Hr Hrec) as Hrel.
  rewrite (rel_saved _ _ Hrel). f_equal. apply (proj1 (run_exact ls) He). by rewrite (rel_live _ _ Hrel).
Qed.

(** With such payloads no sequence of failed writes and crashes leaves a directory that cannot be opened.  A
    start succeeds, nothing is in flight, each queue holds the jobs that were in flight in
    their delivery order and then the waiting ones, the dead letters are as they were, and the
    directory holds no journal any more. *)
Theorem every_start_succeeds ls s now :
  run_of ls s -> recorded ls -> clock_ok now ->
  exists d dir', load_store now SnapshotOk (λ _, None) (directory s) = (Ok d, dir') /\
    inflight d = ∅ /\ dlqs d = dlqs (saved (promise_of ls)) /\
    (forall t, ids (entry (queues d) t) =
       ids (entry (inflight (saved (promise_of ls))) t) ++ ids (entry (queues (saved (promise_of ls))) t)) /\
    replay_store dir' = Ok d /\ journals dir' = [].
Proof.
  intros Hr Hrec Hn. pose proof (run_rel ls s Hr Hrec) as Hrel. set (sv := saved (promise_of ls)).
  pose proof (load_ok now _ _ (rel_saved _ _ Hrel)) as Hok. destruct (load_store _ _ _ _) as [res dir'] eqn:Hload. simpl in Hok. subst res.
  destruct (load_effect _ _ _ _ _ _ _ Hn (rel_saved _ _ Hrel) (rel_wf _ _ Hrel) Hload) as [(_ & Hrep & Hgone) _].
  destruct (restore_spec payload_fits now sv Hn (rel_wf _ _ Hrel)) as (_ & _ & Hi & Hd & Hq).
  exists (restore now sv), dir'. split_and!; try done. by apply no_journals.
Qed.

End Laws.

(** A run with a lost acknowledgement and a crash, for the witnesses. *)
Definition t0 : string -> nat -> Z := λ _ _, 0%Z.
Definition sample_labels : list Label :=
  [Opened t0; Done (Enqueue "orders" (new_job "a" (Str "x") 5)); Done (Enqueue "orders" (new_job "b" (Str "y") 6));
   Done (Dequeue "orders" "a")].

Lemma t0_ok : clock_ok t0.
Proof. intros t i. by vm_compute. Qed.

Import SampleFile.

Ltac sample_args := repeat split; done.

Lemma sample_run : exists s d, run_of sample_labels s /\ memory s = Some d /\ revision d = 3%Z.
Proof.
  eexists _, _. split.
  - eapply (run_step [_; _; _] _ (Done _)).
    + eapply (run_step [_; _] _ (Done _)).
      * eapply (run_step [_] _ (Done _)).
        -- eapply (run_step [] _ (Opened t0)); [apply run_start|].
           refine (step_open t0 SnapshotOk (λ _, None) ∅ 0 _ _ t0_ok eq_refl).
        -- eapply (step_op AppendOk (OpEnqueue "orders" (Str "x") "a" 5)); [sample_args|reflexivity|reflexivity].
      * eapply (step_op AppendOk (OpEnqueue "orders" (Str "y") "b" 6)); [sample_args|reflexivity|reflexivity].
    + eapply (step_op AppendOk (OpDequeue "orders" 7)); [sample_args|reflexivity|reflexivity].
  - by split.
Qed.

(** The line of the acknowledgement is cut after three bytes, then the process dies. *)
Definition crash_labels : list Label :=
  sample_labels ++ [Lost (Ack "orders" "a")] ++ [Crashed].

Lemma sample_recorded : recorded sample_labels /\ recorded crash_labels.
Proof.
  assert (Forall legible sample_labels) as Hs.
  { repeat apply Forall_cons_2; [done|by intros v [= <-]; apply payload_fits_str..|done|apply Forall_nil_2]. }
  split; split; [done|done| |done]. apply Forall_app_2; [done|]. repeat apply Forall_cons_2; (done || apply Forall_nil_2).
Qed.

Lemma sample_crash : exists s, run_of crash_labels s.
Proof.
  destruct sample_run as ([mem dir r st] & d & Hr & Hd & Hrev). cbn [memory] in Hd. subst mem.
  eexists. unfold crash_labels. rewrite app_assoc. eapply run_step; [eapply run_step; [exact Hr|]|apply step_crash].
  eapply (step_op (AppendStops 3 "disk full") (OpAck "orders" "a")); [done|reflexivity|reflexivity].
Qed.

Lemma journal_keeps_promise_witness :
  exists s, run_of crash_labels s /\ memory s = None /\ replay_store (directory s) = Ok (saved (promise_of crash_labels)).
Proof.
  destruct sample_crash as [s Hr]. exists s. destruct (journal_keeps_promise crash_labels s Hr (proj2 sample_recorded)) as [Hm Hs]. by split.
Defined.

Lemma owed_jobs_survive_witness :
  exists s d, run_of crash_labels s /\ ("orders", "b") ∈ owed (promise_of crash_labels) /\
    replay_store (directory s) = Ok d /\ "b" ∈ ids (held "orders" d).
Proof.
  destruct sample_crash as [s Hr].
  assert (("orders", "b") ∈ owed (promise_of crash_labels)) as Ho by (vm_compute; reflexivity).
  destruct (owed_jobs_survive crash_labels s "orders" "b" Hr (proj2 sample_recorded) Ho) as (d & Hd & Hh & _). by exists s, d.
Defined.

Lemma replay_is_the_memory_witness :
  exists s d, run_of sample_labels s /\ memory s = Some d /\ replay_store (directory s) = Ok d.
Proof.
  destruct sample_run as (s & d & Hr & Hd & _). exists s, d.
  destruct (replay_is_the_memory sample_labels s d Hr (proj1 sample_recorded) Hd) as [_ He]. split_and!; [done|done|]. by apply He.
Defined.

Lemma every_start_succeeds_witness :
  exists s d dir', run_of crash_labels s /\ load_store t0 SnapshotOk (λ _, None) (directory s) = (Ok d, dir') /\
    ids (entry (queues d) "orders") = ["a"; "b"].
Proof.
  destruct sample_crash as [s Hr].
  destruct (every_start_succeeds crash_labels s t0 Hr (proj2 sample_recorded) t0_ok) as (d & dir' & Hload & _ & _ & Hq & _).
  exists s, d, dir'. split_and!; [done|done|]. rewrite Hq. by vm_compute.
Defined.

End LifeProperties.
