(* ===== verification/QueueOps.v ===== *)
(** * The operations of a queue store (queue/src/store.rs)

    What each operation of [QueueStore] guarantees, with a file behind the store or without:
    typed counters and true depths, conservation of jobs, complete wake-ups, the retry schedule,
    delivery order, and the depth of a payload beyond which the store cannot be opened again. *)

From Stdlib Require Import Ascii ZArith Lia.
From S2P Require Import Prelude Json JsonText QueueStore QueueJournal QueueLife.

(** ** Properties of the operations *)

Module StoreProperties.
Import Queue QueueRules Journal JournalRules Ops LifeRules.

Section Operations.
Context `{SerdeFile}.

(** What an operation does to the data, with a file behind the store or without. *)
Lemma run_data io o s :
  data (run io o s) = data s \/
  exists m, mutation_of o (data s) = Some m /\ data (run io o s) = apply_at (next_revision (data s)) m (data s).
Proof.
  destruct s as [d dir sig]. destruct o as [t p u now|t now|t id|t j max backoff now|t j now|t now|t id now|t id];
    cbn [run mutation_of]; unfold enqueue, dequeue, ack, nack, requeue, redrive_dlq, redrive_dlq_message,
      discard_dlq_message, commit_logged, commit; cbn [data file_dir signalled].
  - destruct (append_journal _ _ _ _) as [[[]|e] dir']; [right; by eexists|by left].
  - destruct (find_ready t now d) as [j|]; [|by left]. destruct (append_journal _ _ _ _) as [res dir']. right. by eexists.
  - destruct (append_journal _ _ _ _) as [res dir']. right. by eexists.
  - destruct (nacked j max backoff now) as [j1 []]; destruct (append_journal _ _ _ _) as [res dir']; right; by eexists.
  - destruct (append_journal _ _ _ _) as [res dir']. right. by eexists.
  - destruct (append_journal _ _ _ _) as [res dir']. right. eexists. split; [done|]. by destruct (0 <? _)%Z.
  - destruct (dlq_contains t id d); [|by left]. cbn [negb]. destruct (append_journal _ _ _ _) as [res dir']. right. by eexists.
  - destruct (dlq_contains t id d); [|by left]. cbn [negb]. destruct (append_journal _ _ _ _) as [res dir']. right. by eexists.
Qed.

(** C38: the types of the store hold after every operation on every branch: each counter, time
    and attempt stays in its machine range, the stored depth of every topic is the number of
    its waiting jobs and the stored dead-letter depth that of its dead letters, no topic keeps
    an empty in-flight list, and payloads are only moved. *)
Theorem operations_keep_the_store_typed P io o s :
  wf P (data s) -> op_ok P o -> wf P (data (run io o s)).
Proof.
  intros Hw Ho. destruct (run_data io o s) as [->|(m & Hm & ->)]; [done|].
  apply apply_at_wf; [done|by eapply mutation_of_ok|]. unfold next_revision, sat_u64, in_range.
  pose proof (wf_revision P _ Hw) as Hr. unfold in_range, u64_max in *. lia.
Qed.

(** Jobs are conserved: over any operation the jobs of a topic, waiting, in flight or dead,
    are the same with multiplicity, except for the one an enqueue adds, the one an
    acknowledgement or a discard takes away, and a retry or requeue of a job that was not in
    flight, which adds it. *)
Theorem operations_conserve_jobs io o s t :
  data (run io o s) = data s \/
  exists m, mutation_of o (data s) = Some m /\
    ids (held t (data (run io o s))) ++ on_topic t (removed m (data s)) ≡ₚ
    ids (held t (data s)) ++ on_topic t (added m (data s)).
Proof.
  destruct (run_data io o s) as [Hd|(m & Hm & ->)]; [by left|]. right. exists m. split; [done|].
  change (held t (apply_at ?r m (data s))) with (held t (apply m (data s))). apply apply_held.
Qed.

(** The topic of a mutation. *)
Definition topic_of (m : Mutation) : string :=
  match m with
  | Enqueue t _ | Dequeue t _ | Ack t _ | Nack t _ _ | Requeue t _ | RedriveDlq t _ | RedriveDlqMessage t _ _
  | DiscardDlqMessage t _ => t
  end.

Implicit Types (d : StoreData) (t u : string) (j : Job).

Lemma other_topic m r d t : t <> topic_of m -> entry (queues (apply_at r m d)) t = entry (queues d) t.
Proof.
  intros Hne. destruct m as [u j|u id|u id|u j b|u j|u ready|u id ready|u id];
    cbn [topic_of] in *; unfold apply_at, apply, push_back, push_front; cbn [sync_depths count_delivered count_failed with_revision with_stats with_queues queues].
  - by rewrite entry_insert, decide_False.
  - destruct (queues d !! u) as [q|]; [|done]. destruct (take_job id q) as [[j r']|]; [|done].
    cbn. by rewrite entry_shrink, decide_False.
  - by rewrite remove_inflight_queues.
  - destruct b; cbn; [by rewrite entry_insert, decide_False, remove_inflight_queues|by rewrite remove_inflight_queues].
  - by rewrite entry_insert, decide_False, remove_inflight_queues.
  - by rewrite entry_insert, decide_False.
  - unfold take_dlq_message. destruct (dlqs d !! u) as [l|]; [|done]. destruct (take_job id l) as [[j r']|]; [|done].
    cbn. by rewrite entry_insert, decide_False.
  - unfold take_dlq_message. destruct (dlqs d !! u) as [l|]; [|done]. by destruct (take_job id l) as [[j r']|].
Qed.

(** A dequeue, and a retry that ends in the dead letters, only take jobs out of the queue. *)
Lemma dequeue_sub r d t u id j : j ∈ entry (queues (apply_at r (Dequeue u id) d)) t -> j ∈ entry (queues d) t.
Proof.
  destruct (decide (t = u)) as [->|Hne]; [|by rewrite other_topic by done].
  unfold apply_at, apply. destruct (queues d !! u) as [q|] eqn:Hq; [|by intros Hj].
  rewrite (entry_is_Some (queues d) _ _ Hq).
  destruct (take_job id q) as [[x rest]|] eqn:Ht; [|cbn; by rewrite (entry_is_Some _ _ _ Hq)]. cbn. rewrite entry_shrink, decide_True by done.
  apply take_job_perm in Ht. rewrite Ht. intros Hj. by right.
Qed.

Lemma dead_letter_queues r d t u j : entry (queues (apply_at r (Nack u j false) d)) t = entry (queues d) t.
Proof. cbn. by rewrite remove_inflight_queues. Qed.

Lemma ack_queues r d t u id : entry (queues (apply_at r (Ack u id) d)) t = entry (queues d) t.
Proof. cbn. by rewrite remove_inflight_queues. Qed.

Lemma discard_queues r d t u id : entry (queues (apply_at r (DiscardDlqMessage u id) d)) t = entry (queues d) t.
Proof.
  unfold apply_at, apply, take_dlq_message. destruct (dlqs d !! u) as [l|]; [|done]. by destruct (take_job id l) as [[j' r']|].
Qed.

Lemma redrive_none r d t u ready : entry (dlqs d) u = [] -> entry (queues (apply_at r (RedriveDlq u ready) d)) t = entry (queues d) t.
Proof.
  intros Hn. cbn. rewrite Hn, app_nil_r, entry_insert. by case_decide; subst.
Qed.

(** A topic that was not signalled is not the topic of the mutation. *)
Ltac signalled_other :=
  cbn [negb data signalled snd]; rewrite drop_app_length, not_elem_of_cons; intros [? _];
  cbn [data]; by rewrite other_topic.

(** The topics an operation wakes. *)
Definition woken (io : append_io) (o : Op) (s : Shared) : list string :=
  drop (length (signalled s)) (signalled (run io o s)).

(** No wake-up is missing: unless an operation signals a topic, every job that waits in that
    topic's queue afterwards, ready or delayed, already waited there with the same due time,
    so a consumer that is parked on the signal and on a timer for the earliest due time never
    sleeps past a ready job. *)
Theorem unsignalled_queues_gain_nothing io o s t j :
  (forall u, Z.of_nat (length (entry (dlqs (data s)) u)) < 2 ^ 64)%Z ->
  t ∉ woken io o s -> j ∈ entry (queues (data (run io o s))) t -> j ∈ entry (queues (data s)) t.
Proof.
  intros Hlen. unfold woken. destruct s as [d dir sig].
  destruct o as [u p i now|u now|u id|u j0 max backoff now|u j0 now|u now|u id now|u id];
    cbn [run mutation_of]; unfold enqueue, dequeue, ack, nack, requeue, redrive_dlq, redrive_dlq_message,
      discard_dlq_message, commit_logged, commit, notify_ready; cbn [data file_dir signalled].
  - destruct (append_journal _ _ _ _) as [[[]|e] dir']; [|done]. signalled_other.
  - destruct (find_ready u now d) as [j1|]; [|done]. destruct (append_journal _ _ _ _) as [res dir']. intros _. cbn [data snd]. apply dequeue_sub.
  - destruct (append_journal _ _ _ _) as [res dir']. intros _. cbn [data snd]. by rewrite ack_queues.
  - destruct (nacked j0 max backoff now) as [j1 []]; destruct (append_journal _ _ _ _) as [res dir']; [signalled_other|].
    intros _. cbn [data snd]. by rewrite dead_letter_queues.
  - destruct (append_journal _ _ _ _) as [res dir']. signalled_other.
  - destruct (append_journal _ _ _ _) as [res dir']. case_match eqn:Hc; [signalled_other|]. intros _.
    apply Z.ltb_ge in Hc. cbn [data snd]. rewrite redrive_none; [done|]. unfold length_u64 in Hc.
    rewrite Z.mod_small in Hc by (specialize (Hlen u); cbn [data] in Hlen; lia). by destruct (entry (dlqs d) u).
  - destruct (dlq_contains u id d); [|done]. destruct (append_journal _ _ _ _) as [res dir']. signalled_other.
  - destruct (dlq_contains u id d); [|done]. destruct (append_journal _ _ _ _) as [res dir']. intros _. cbn [negb data snd]. by rewrite discard_queues.
Qed.

End Operations.

(** *** Retries *)

(** A job after its first [n] failures, at any times. *)
Fixpoint failed_times (n : nat) (max_retries backoff_ms : Z) (now : nat -> Z) (j : Job) : Job :=
  match n with
  | O => j
  | S k => (nacked (failed_times k max_retries backoff_ms now j) max_retries backoff_ms (now k)).1
  end.

Lemma nacked_fields j max backoff now :
  job_id (nacked j max backoff now).1 = job_id j /\ payload (nacked j max backoff now).1 = payload j /\
  attempts (nacked j max backoff now).1 = sat_u32 (attempts j + 1) /\
  (nacked j max backoff now).2 = (sat_u32 (attempts j + 1) <? max)%Z.
Proof. unfold nacked. cbn zeta. cbn [attempts with_attempts]. by destruct (_ <? max)%Z. Qed.

Lemma failed_times_fields n max backoff now j :
  (0 <= attempts j)%Z -> (attempts j + Z.of_nat n <= u32_max)%Z ->
  let f := failed_times n max backoff now j in
  job_id f = job_id j /\ payload f = payload j /\ attempts f = (attempts j + Z.of_nat n)%Z.
Proof.
  intros Ha. induction n as [|n IH]; intros Hn; cbn [failed_times]; [split_and!; [done|done|lia]|].
  destruct IH as (Hi & Hp & Hat); [lia|].
  destruct (nacked_fields (failed_times n max backoff now j) max backoff (now n)) as (-> & -> & -> & _).
  split_and!; [done|done|]. rewrite Hat. unfold sat_u32. lia.
Qed.

(** The two saturating steps of the backoff saturate once. *)
Lemma backoff_saturates b a : (0 <= b)%Z -> (1 <= a)%Z ->
  exponential_backoff_ms b a = Z.min (b * 2 ^ (a - 1)) u64_max.
Proof.
  intros Hb Ha. unfold exponential_backoff_ms, sat_u64, sat_pow2, sat_sub. rewrite Z.max_r by lia.
  case_match eqn:Hlt; [done|]. apply Z.ltb_ge in Hlt.
  assert (2 ^ 64 <= 2 ^ (a - 1))%Z by (apply Z.pow_le_mono_r; lia).
  destruct (decide (b = 0)%Z) as [->|Hb0]; [done|]. unfold u64_max in *. rewrite !Z.min_r; nia.
Qed.

(** A job is tried again after its n-th failure exactly while n is below the retry limit, at
    the back of its queue and due after the backoff doubled n - 1 times, in saturating
    milliseconds; the failure that reaches the limit, and the first one when the limit is 0 or
    1, puts it at the end of the dead letters and counts one failed job. *)
Theorem retries_then_dead_letter n max backoff now j r t d :
  attempts j = 0%Z -> (Z.of_nat n < u32_max)%Z -> (0 <= backoff)%Z ->
  let before := failed_times n max backoff now j in
  let '(after, retrying) := nacked before max backoff (now n) in
  attempts after = (Z.of_nat n + 1)%Z /\ payload after = payload j /\
  retrying = bool_decide (Z.of_nat n + 1 < max)%Z /\
  let d' := apply_at r (Nack t after retrying) d in
  if retrying then
    ready_at_ms after = Z.min (now n + Z.min (backoff * 2 ^ Z.of_nat n) u64_max) u64_max /\
    entry (queues d') t = entry (queues d) t ++ [after] /\ entry (dlqs d') t = entry (dlqs d) t
  else
    entry (queues d') t = entry (queues d) t /\ entry (dlqs d') t = entry (dlqs d) t ++ [after] /\
    failed (default no_stats (stats d' !! t)) = inc_u64 (failed (default no_stats (stats d !! t))).
Proof.
  intros Ha Hn Hb before. destruct (failed_times_fields n max backoff now j) as (_ & Hp & Hat); [lia|lia|].
  fold before in Hp, Hat. pose proof (nacked_fields before max backoff (now n)) as (_ & Hpay & Hatt & Hret).
  assert (sat_u32 (attempts before + 1) = Z.of_nat n + 1)%Z as Hsat by (unfold sat_u32; lia). rewrite Hsat in Hatt, Hret.
  destruct (nacked before max backoff (now n)) as [after retrying] eqn:Hnack. cbn [fst snd] in *.
  split; [done|]. split; [congruence|].
  split; [rewrite Hret; case_bool_decide; [by apply Z.ltb_lt|apply Z.ltb_ge; lia]|].
  destruct retrying; cbv zeta.
  - split_and!.
    + unfold nacked in Hnack. cbn [attempts with_attempts] in Hnack. rewrite Hsat, <-Hret in Hnack. injection Hnack as <-.
      cbn [ready_at_ms with_ready]. rewrite backoff_saturates by lia. unfold sat_u64. by replace (Z.of_nat n + 1 - 1)%Z with (Z.of_nat n) by lia.
    + cbn. by rewrite entry_insert, decide_True, remove_inflight_queues.
    + cbn. by rewrite remove_inflight_dlqs.
  - split_and!.
    + apply dead_letter_queues.
    + cbn. by rewrite entry_insert, decide_True, remove_inflight_dlqs.
    + cbn. rewrite !lookup_insert_eq. cbn. by rewrite remove_inflight_stats.
Qed.

Lemma retries_then_dead_letter_witness :
  let j := failed_times 2 3 500 (λ _, 10%Z) (new_job "a" Null 0) in
  ready_at_ms j = 1010%Z /\ (nacked j 3 500 10).2 = false.
Proof.
  cbv zeta. pose proof (retries_then_dead_letter 2 3 500 (λ _, 10%Z) (new_job "a" Null 0) 1 "t" empty_data eq_refl eq_refl ltac:(lia)) as Hr.
  split; [by vm_compute|]. cbv zeta in Hr. destruct (nacked _ 3 500 _) as [after b] eqn:Hn in Hr.
  destruct Hr as (_ & _ & -> & _). by rewrite Hn.
Defined.

Lemma find_split {A} (f : A -> bool) l x :
  find f l = Some x -> exists l1 l2, l = l1 ++ x :: l2 /\ f x = true /\ Forall (λ y, f y = false) l1.
Proof.
  induction l as [|y l IH]; simpl; [done|]. destruct (f y) eqn:Hy.
  - intros [= ->]. by exists [], l.
  - intros (l1 & l2 & -> & Hx & Hl)%IH. exists (y :: l1), l2. split_and!; [done|done|by constructor].
Qed.

Lemma take_job_middle l1 l2 j : NoDup (ids (l1 ++ j :: l2)) -> take_job (job_id j) (l1 ++ j :: l2) = Some (j, l1 ++ l2).
Proof.
  induction l1 as [|x l1 IH]; simpl; [by rewrite decide_True|]. intros [Hx Hnd]%NoDup_cons.
  rewrite decide_False; [by rewrite IH|]. intros Heq. apply Hx. rewrite Heq, fmap_app, fmap_cons. set_solver.
Qed.

(** A delivery is the first waiting job that is due, in the order of the queue; it moves to
    the end of the jobs in flight, the others keep their order, and nothing is delivered only
    if nothing is due. *)
Theorem dequeue_takes_first_due `{SerdeFile} io t now s :
  match dequeue io t now s with
  | (Some j, s') =>
      exists l1 l2, entry (queues (data s)) t = l1 ++ j :: l2 /\ (ready_at_ms j <= now)%Z /\
        Forall (λ x, now < ready_at_ms x)%Z l1 /\
        (NoDup (ids (entry (queues (data s)) t)) ->
           entry (queues (data s')) t = l1 ++ l2 /\
           entry (inflight (data s')) t = entry (inflight (data s)) t ++ [j])
  | (None, s') => s' = s /\ Forall (λ x, now < ready_at_ms x)%Z (entry (queues (data s)) t)
  end.
Proof.
  unfold dequeue, find_ready. destruct (queues (data s) !! t) as [q|] eqn:Hq.
  2: { cbn. split; [done|]. unfold entry. rewrite Hq. constructor. }
  cbn [mbind option_bind]. rewrite (entry_is_Some _ _ _ Hq). destruct (find _ q) as [j|] eqn:Hf.
  2: { split; [done|]. apply Forall_forall. intros x Hx. apply Z.lt_nge. intros Hle.
       rewrite list_elem_of_In in Hx. apply (find_none _ _ Hf), Z.leb_gt in Hx. lia. }
  destruct (find_split _ _ _ Hf) as (l1 & l2 & -> & Hj & Hl1). apply Z.leb_le in Hj.
  exists l1, l2. split; [done|]. split; [done|]. split.
  { eapply Forall_impl; [exact Hl1|]. intros x. simpl. by rewrite Z.leb_gt. }
  intros Hnd. unfold commit_logged, commit. cbn [data]. destruct (append_journal _ _ _ _) as [res dir']. cbn [data snd].
  unfold apply_at, apply. rewrite Hq, take_job_middle by done. cbn.
  rewrite entry_shrink, entry_insert, !decide_True by done. done.
Qed.

(** *** Payloads the reader refuses *)

Lemma nesting_member k v m : (k, v) ∈ m -> nesting v < nesting (Obj m).
Proof.
  intros Hin. cbn [nesting]. apply Nat.lt_succ_r. induction m as [|p m IH]; [by apply elem_of_nil in Hin|].
  apply elem_of_cons in Hin as [<-|Hin]; cbn; [lia|]. specialize (IH Hin). unfold max_list_with in *. lia.
Qed.

Lemma nesting_obj k v l : obj_get k l = Some v -> nesting v < nesting (json_obj l).
Proof. intros Hg. eapply (nesting_member k). apply obj_get_elem. by rewrite obj_get_of_list. Qed.

(** An entry wraps the payload of an enqueued job in four levels. *)
Lemma nesting_entry r t j : nesting (payload j) + 4 <= nesting (to_value (mk_entry r (Enqueue t j))).
Proof.
  assert (nesting (payload j) < nesting (to_value j)) by by apply (nesting_obj "payload").
  set (fields := (mutation_fields (Enqueue t j)).2).
  assert (nesting (to_value j) < nesting (json_obj fields)) by by apply (nesting_obj "job").
  assert (nesting (json_obj fields) < nesting (to_value (Enqueue t j))) by (apply (nesting_member "Enqueue"); by left).
  assert (nesting (to_value (Enqueue t j)) < nesting (to_value (mk_entry r (Enqueue t j)))) by by apply (nesting_obj "mutation").
  lia.
Qed.

Section Deep.
Context `{SerdeFileLaws}.

(** A store accepts a payload of more than 123 nested levels and writes it to the journal, and
    then the next start fails: the line is complete, but an entry wraps its payload in four
    levels and is beyond the recursion limit of the reader.  A payload that fits is in its
    queue after the start. *)
Theorem deep_payloads_stop_the_store p uuid t now clk :
  in_range 0 u64_max now -> clock_ok clk ->
  let '(res, s) := enqueue AppendOk t p uuid now (mk_shared empty_data (Some ∅) []) in
  res = Ok uuid /\
  (123 < nesting p -> exists dir e, file_dir s = Some dir /\ (load_store clk SnapshotOk (λ _, None) dir).1 = Err e) /\
  (payload_fits p -> exists dir d, file_dir s = Some dir /\
     (load_store clk SnapshotOk (λ _, None) dir).1 = Ok d /\ ids (entry (queues d) t) = [uuid]).
Proof.
  intros Hn Hclk. unfold enqueue. cbn [data file_dir]. set (m := Enqueue t (new_job uuid p now)).
  set (r := next_revision empty_data). cbn [append_journal notify_ready file_dir]. split; [done|].
  assert (in_range 0 u64_max r) as Hr by by vm_compute. assert (revision empty_data < r)%Z as Hlt by by vm_compute.
  set (dir := <[JOURNAL_FILE_NAME := _]> ∅).
  assert (replay_store dir = replay_line (file_text (to_value (mk_entry r m))) empty_data) as Hrep.
  { rewrite replay_store_all. unfold dir, journal_line. rewrite (read_snapshot_ext ∅) by by rewrite lookup_insert_ne.
    cbn [read_snapshot]. change (read_snapshot ∅) with (@Ok StoreData Error empty_data). cbv beta iota. by rewrite replay_all_append by apply entry_text_line. }
  split.
  - intros Hdeep. exists dir. eexists. split; [done|]. unfold load_store. rewrite Hrep.
    rewrite replay_line_deep; [reflexivity|]. pose proof (nesting_entry r t (new_job uuid p now)) as Hnest.
    cbn [payload new_job] in Hnest. fold m in Hnest. unfold READ_LEVELS. lia.
  - intros Hp. assert (mutation_ok payload_fits m) as Hm by (split; [exact Hp|cbn; unfold in_range, u32_max; lia|exact Hn..]).
    exists dir, (restore clk (apply_at r m empty_data)). split; [done|]. split.
    + apply load_ok. rewrite Hrep. apply replay_line_entry; [exact Hr|exact Hm|exact Hlt].
    + assert (wf payload_fits (apply_at r m empty_data)) as Hw by (apply apply_at_wf; [apply empty_good|exact Hm|exact Hr]).
      destruct (restore_spec payload_fits clk _ Hclk Hw) as (_ & _ & _ & _ & ->). cbn.
      by rewrite entry_insert, decide_True.
Qed.

End Deep.

(** [n] arrays around [null]. *)
Fixpoint arrays (n : nat) : Value := match n with O => Null | S k => Arr [arrays k] end.

Lemma deep_payloads_stop_the_store_witness :
  exists e dir, (load_store (H := SampleFile.text) (λ _ _, 0%Z) SnapshotOk (λ _, None) dir).1 = Err e /\
    file_dir (enqueue (H := SampleFile.text) AppendOk "t" (arrays 124) "a" 0 (mk_shared empty_data (Some ∅) [])).2 = Some dir.
Proof.
  assert (in_range 0 u64_max 0) as H0 by by vm_compute.
  pose proof (deep_payloads_stop_the_store (H0 := SampleFile.laws) (arrays 124) "a" "t" 0 (λ _ _, 0%Z) H0 (λ _ _, H0)) as Hd.
  destruct (enqueue _ _ _ _ _ _) as [res s]. destruct Hd as (_ & (dir & e & Hdir & Hload) & _); [vm_compute; lia|].
  by exists e, dir.
Defined.

Lemma operations_keep_the_store_typed_witness :
  wf (λ _, True) (data (run (H := SampleFile.text) AppendOk (OpEnqueue "t" Null "a" 5) (mk_shared empty_data None []))).
Proof. apply operations_keep_the_store_typed; [apply empty_good|]. split; [done|by vm_compute]. Defined.

Lemma unsignalled_queues_gain_nothing_witness :
  let d := mk_data 3 {[ "t" := [new_job "a" Null 5] ]} ∅ ∅ ∅ in
  let d' := data (run (H := SampleFile.text) AppendOk (OpAck "t" "b") (mk_shared d None [])) in
  new_job "a" Null 5 ∈ entry (queues d') "t" /\ new_job "a" Null 5 ∈ entry (queues d) "t".
Proof.
  intros d d'. assert (new_job "a" Null 5 ∈ entry (queues d') "t") as Hin by (vm_compute; by left). split; [done|].
  apply (unsignalled_queues_gain_nothing (H := SampleFile.text) AppendOk (OpAck "t" "b") (mk_shared d None []) "t"); [| |done].
  - intros u. unfold entry. cbn [data dlqs d]. rewrite lookup_empty. by vm_compute.
  - apply not_elem_of_nil.
Defined.

End StoreProperties.
