(* ===== verification/QueueAdapter.v ===== *)
(** * The builtin adapter of the queue worker (queue/src/adapters/builtin.rs)

    [BuiltinAdapter] on top of a [QueueStore]: topics that fan out to one queue per subscriber,
    subscriptions whose queue keeps receiving for a retention time, dead-letter operations that
    aggregate over a topic's queues, and function queues whose consumers hold deliveries until
    they are acknowledged.  The adapter sees its store through the interface [QueueStore]
    ([StoreInterface]); Module [Topics] is the subscription half, Module [FunctionQueues] the
    function-queue half with its consumers as a step relation. *)

From Stdlib Require Import Ascii ZArith Lia.
From S2P Require Import Prelude Json JsonText QueueStore QueueJournal QueueLife.

(** ** The store behind an adapter *)

Module StoreInterface.
Import Queue Journal.

(** What an operation reads from outside: the outcome of its append, a fresh id, the clock. *)
Record Env : Type := mk_env { env_io : append_io; env_uuid : string; env_now : Z }.

(** The trait [QueueStore]. *)
Class QueueStore (S : Type) : Type := {
  q_enqueue : Env -> string -> Value -> S -> result string Error * S;
  q_dequeue : Env -> string -> S -> option Job * S;
  q_ack : Env -> string -> string -> S -> S;
  q_nack : Env -> string -> Job -> Z -> Z -> S -> S;
  q_requeue : Env -> string -> Job -> S -> result unit Error * S;
  q_topic_stats : string -> S -> TopicStats;
  q_dlq_messages : string -> Z -> S -> list Job;
  q_redrive_dlq : Env -> string -> S -> Z * S;
  q_redrive_dlq_message : Env -> string -> string -> S -> bool * S;
  q_discard_dlq_message : Env -> string -> string -> S -> bool * S;
}.

(** What an adapter relies on: each call commits at most its one mutation, and a rejected
    enqueue none. *)
Class QueueStoreLaws (S : Type) `{QueueStore S} (view : S -> StoreData) : Prop := {
  law_enqueue : forall e t p s,
    match q_enqueue e t p s with
    | (Ok id, s') => id = env_uuid e /\
        exists r, view s' = apply_at r (Enqueue t (new_job (env_uuid e) p (env_now e))) (view s)
    | (Err _, s') => view s' = view s
    end;
  law_dequeue : forall e t s,
    match q_dequeue e t s with
    | (Some j, s') => find_ready t (env_now e) (view s) = Some j /\
        exists r, view s' = apply_at r (Dequeue t (job_id j)) (view s)
    | (None, s') => find_ready t (env_now e) (view s) = None /\ view s' = view s
    end;
  law_ack : forall e t id s, exists r, view (q_ack e t id s) = apply_at r (Ack t id) (view s);
  law_nack : forall e t j max backoff s, exists r,
    view (q_nack e t j max backoff s) =
      apply_at r (Nack t (nacked j max backoff (env_now e)).1 (nacked j max backoff (env_now e)).2) (view s);
  law_requeue : forall e t j s, exists r,
    view (q_requeue e t j s).2 = apply_at r (Requeue t (with_ready (env_now e) j)) (view s);
  law_stats : forall t s, q_topic_stats t s = topic_stats t (view s);
  law_dlq_messages : forall t limit s, q_dlq_messages t limit s = dlq_messages t limit (view s);
  law_redrive : forall e t s,
    (q_redrive_dlq e t s).1 = length_u64 (dlqs (view s)) t /\
    exists r, view (q_redrive_dlq e t s).2 = apply_at r (RedriveDlq t (env_now e)) (view s);
  law_redrive_message : forall e t id s,
    let '(found, s') := q_redrive_dlq_message e t id s in
    found = dlq_contains t id (view s) /\
    if found then exists r, view s' = apply_at r (RedriveDlqMessage t id (env_now e)) (view s) else view s' = view s;
  law_discard : forall e t id s,
    let '(found, s') := q_discard_dlq_message e t id s in
    found = dlq_contains t id (view s) /\
    if found then exists r, view s' = apply_at r (DiscardDlqMessage t id) (view s) else view s' = view s;
}.

Section Shared.
Context `{SerdeFile}.

(** [InMemoryStore] and [FileStore]: both pass every call on to the shared store. *)
Definition SharedStore : QueueStore Shared := {|
  q_enqueue e t p s := enqueue (env_io e) t p (env_uuid e) (env_now e) s;
  q_dequeue e t s := dequeue (env_io e) t (env_now e) s;
  q_ack e t id s := ack (env_io e) t id s;
  q_nack e t j max backoff s := nack (env_io e) t j max backoff (env_now e) s;
  q_requeue e t j s := requeue (env_io e) t j (env_now e) s;
  q_topic_stats t s := topic_stats t (data s);
  q_dlq_messages t limit s := dlq_messages t limit (data s);
  q_redrive_dlq e t s := redrive_dlq (env_io e) t (env_now e) s;
  q_redrive_dlq_message e t id s := redrive_dlq_message (env_io e) t id (env_now e) s;
  q_discard_dlq_message e t id s := discard_dlq_message (env_io e) t id s;
|}.

Lemma shared_laws : @QueueStoreLaws Shared SharedStore data.
Proof.
  split; intros; cbn [q_enqueue q_dequeue q_ack q_nack q_requeue q_topic_stats q_dlq_messages q_redrive_dlq
    q_redrive_dlq_message q_discard_dlq_message SharedStore]; try done;
    unfold enqueue, dequeue, ack, nack, requeue, redrive_dlq, redrive_dlq_message, discard_dlq_message, commit_logged, commit.
  - destruct (append_journal _ _ _ _) as [[[]|er] dir']; [|done]. split; [done|]. by eexists.
  - destruct (find_ready t (env_now e) (data s)) as [j|]; [|done]. destruct (append_journal _ _ _ _) as [res dir'].
    split; [done|]. by eexists.
  - destruct (append_journal _ _ _ _) as [res dir']. by eexists.
  - destruct (nacked j max backoff (env_now e)) as [j1 []]; destruct (append_journal _ _ _ _) as [res dir']; by eexists.
  - destruct (append_journal _ _ _ _) as [res dir']. by eexists.
  - destruct (append_journal _ _ _ _) as [res dir']. split; [done|]. eexists. cbn. by destruct (0 <? _)%Z.
  - destruct (dlq_contains t id (data s)) eqn:Hc; cbn [negb]; [|done]. destruct (append_journal _ _ _ _) as [res dir'].
    split; [done|]. by eexists.
  - destruct (dlq_contains t id (data s)) eqn:Hc; cbn [negb]; [|done]. destruct (append_journal _ _ _ _) as [res dir'].
    split; [done|]. by eexists.
Qed.

End Shared.
End StoreInterface.

(** ** Topics and their subscribers *)

Module Topics.
Import Queue Journal StoreInterface.

Definition DEFAULT_MAX_RETRIES : Z := 3.
Definition DEFAULT_BACKOFF_MS : Z := 1000.
Definition DEFAULT_CONCURRENCY : Z := 10.

Inductive Mode : Type := Concurrent | Fifo.

(** Per-subscriber settings; a builtin subscription reads the mode, the retries, the
    concurrency and the backoff. *)
Record SubscriberQueueConfig : Type := mk_sub_config {
  queue_mode : option string;
  max_retries : option Z;
  concurrency : option Z;
  visibility_timeout : option Z;
  delay_seconds : option Z;
  backoff_type : option string;
  backoff_delay_ms : option Z;
  sub_max_priority : option Z;
}.

Definition default_sub_config : SubscriberQueueConfig := mk_sub_config None None None None None None None None.

(** [PollerConfig] of a consumer with its mode and concurrency. *)
Record Poller : Type := mk_poller {
  queue_name : string;
  subscriber : string;
  poller_retries : Z;
  poller_backoff : Z;
  poller_mode : Mode;
  poller_concurrency : Z;
}.

Record Retention : Type := mk_retention { generation : Z; deadline : Z }.

Abbreviation Key := (string * string)%type.

(** [+=] on [u64]. *)
Definition add_u64 (a b : Z) : Z := ((a + b) mod 2 ^ 64)%Z.

Definition internal_queue_name (topic id : string) : string := topic +:+ "::" +:+ id.

Section WithStore.
Context {S : Type} `{QueueStore S}.
(** The order in which a [HashSet] is walked. *)
Context (iter : gset string -> list string).
(** The last instant the platform can represent. *)
Context (last_instant : Z).

Record Adapter : Type := mk_adapter {
  store : S;
  subscriptions : gmap Key Poller;
  topic_subscriptions : gmap string (gset string);
  retained : gmap Key Retention;
  retention_counter : Z;
}.

Definition with_store (s : S) (a : Adapter) : Adapter :=
  mk_adapter s (subscriptions a) (topic_subscriptions a) (retained a) (retention_counter a).

Definition stop_routing (routes : gmap string (gset string)) (topic id : string) : gmap string (gset string) :=
  match routes !! topic with
  | Some ids => let rest := ids ∖ {[ id ]} in if decide (rest = ∅) then delete topic routes else <[topic := rest]> routes
  | None => routes
  end.

(** The queues a bare topic name stands for. *)
Definition routed (topic : string) (a : Adapter) : option (list string) :=
  match topic_subscriptions a !! topic with
  | Some ids => if decide (ids = ∅) then None else Some (internal_queue_name topic <$> iter ids)
  | None => None
  end.

Definition queues_of (topic : string) (a : Adapter) : list string := default [topic] (routed topic a).

(** *** Publishing *)

Fixpoint enqueue_all (e : string -> Env) (names : list string) (p : Value) (s : S) : S :=
  match names with
  | [] => s
  | name :: rest => enqueue_all e rest p (q_enqueue (e name) name p s).2
  end.

Definition enqueue (e : string -> Env) (topic : string) (p : Value) (a : Adapter) : Adapter :=
  with_store (enqueue_all e (queues_of topic a) p (store a)) a.

(** *** Subscribing *)

Definition poller_of (topic id subscriber : string) (config : option SubscriberQueueConfig) : Poller :=
  mk_poller (internal_queue_name topic id) subscriber
    (default DEFAULT_MAX_RETRIES (c ← config; max_retries c))
    (default DEFAULT_BACKOFF_MS (c ← config; backoff_delay_ms c))
    (match (c ← config; queue_mode c) with Some "fifo" => Fifo | _ => Concurrent end)
    (default DEFAULT_CONCURRENCY (c ← config; concurrency c)).

Definition subscribe (topic id subscriber : string) (config : option SubscriberQueueConfig) (a : Adapter) : Adapter :=
  match subscriptions a !! (topic, id) with
  | Some _ => a
  | None =>
      mk_adapter (store a) (<[(topic, id) := poller_of topic id subscriber config]> (subscriptions a))
        (<[topic := {[ id ]} ∪ default ∅ (topic_subscriptions a !! topic)]> (topic_subscriptions a))
        (delete (topic, id) (retained a)) (retention_counter a)
  end.

Definition far_future (now : Z) : Z := (now + 86400 * 365 * 30 * 1000)%Z.

Definition unsubscribe (topic id : string) (retain now : Z) (a : Adapter) : Adapter :=
  let key := (topic, id) in
  let subs := delete key (subscriptions a) in
  match subscriptions a !! key, retained a !! key with
  | None, None => a
  | _, previous =>
      let until := if (now + retain <=? last_instant)%Z then (now + retain)%Z else far_future now in
      if (retain =? 0)%Z then
        mk_adapter (store a) subs (stop_routing (topic_subscriptions a) topic id) (delete key (retained a)) (retention_counter a)
      else if match previous with Some r => (until <? deadline r)%Z | None => true end then
        mk_adapter (store a) subs (topic_subscriptions a)
          (<[key := mk_retention (retention_counter a) until]> (retained a)) (retention_counter a + 1)
      else mk_adapter (store a) subs (topic_subscriptions a) (retained a) (retention_counter a)
  end.

(** The timer of a retention, once its deadline is over. *)
Definition end_retention (key : Key) (gen : Z) (a : Adapter) : Adapter :=
  match retained a !! key with
  | Some r =>
      if decide (generation r = gen) then
        mk_adapter (store a) (subscriptions a) (stop_routing (topic_subscriptions a) key.1 key.2)
          (delete key (retained a)) (retention_counter a)
      else a
  | None => a
  end.

(** *** Delivering *)

(** [process_job]: the subscriber's answer decides. *)
Definition process_job (e : Env) (cfg : Poller) (job : Job) (delivered_ok : bool) (a : Adapter) : Adapter :=
  with_store (if delivered_ok then q_ack e (queue_name cfg) (job_id job) (store a)
              else q_nack e (queue_name cfg) job (poller_retries cfg) (poller_backoff cfg) (store a)) a.

(** A consumer takes the next job of its queue. *)
Definition poll (e : Env) (cfg : Poller) (a : Adapter) : option Job * Adapter :=
  let '(job, s) := q_dequeue e (queue_name cfg) (store a) in (job, with_store s a).

(** *** Dead letters and statistics *)

Fixpoint redrive_all (e : string -> Env) (names : list string) (s : S) : Z * S :=
  match names with
  | [] => (0%Z, s)
  | name :: rest =>
      let '(n, s1) := q_redrive_dlq (e name) name s in
      let '(total, s2) := redrive_all e rest s1 in (add_u64 n total, s2)
  end.

Definition redrive_dlq (e : string -> Env) (topic : string) (a : Adapter) : Z * Adapter :=
  let '(n, s) := redrive_all e (queues_of topic a) (store a) in (n, with_store s a).

(** The first queue that holds the message. *)
Fixpoint first_found (op : string -> S -> bool * S) (names : list string) (s : S) : bool * S :=
  match names with
  | [] => (false, s)
  | name :: rest => match op name s with (true, s1) => (true, s1) | (false, s1) => first_found op rest s1 end
  end.

Definition redrive_dlq_message (e : string -> Env) (topic id : string) (a : Adapter) : bool * Adapter :=
  let '(found, s) := first_found (λ name, q_redrive_dlq_message (e name) name id) (queues_of topic a) (store a) in
  (found, with_store s a).

Definition discard_dlq_message (e : string -> Env) (topic id : string) (a : Adapter) : bool * Adapter :=
  let '(found, s) := first_found (λ name, q_discard_dlq_message (e name) name id) (queues_of topic a) (store a) in
  (found, with_store s a).

Definition dlq_count (topic : string) (a : Adapter) : Z :=
  foldr (λ name n, add_u64 (dlq_depth (q_topic_stats name (store a))) n) 0%Z (queues_of topic a).

Definition dlq_peek (topic : string) (offset limit : Z) (a : Adapter) : list Value :=
  let jobs := queues_of topic a ≫= λ name, q_dlq_messages name (sat_u64 (offset + limit)) (store a) in
  to_value <$> take (Z.to_nat limit) (drop (Z.to_nat offset) jobs).

Definition add_stats (x y : TopicStats) : TopicStats :=
  mk_stats (add_u64 (depth x) (depth y)) (add_u64 (dlq_depth x) (dlq_depth y))
    (add_u64 (delivered x) (delivered y)) (add_u64 (failed x) (failed y)).

Definition topic_stats (topic : string) (a : Adapter) : TopicStats :=
  match routed topic a with
  | Some names => foldl (λ acc name, add_stats acc (q_topic_stats name (store a))) no_stats names
  | None => q_topic_stats topic (store a)
  end.

(** [list_topics]: the topics with a route, then the function queues, by name. *)
Definition list_topics (function_queues : list string) (a : Adapter) : list (string * Z) :=
  let routed := (λ p : string * gset string,
      (p.1, foldl (λ n id, add_u64 n (depth (q_topic_stats (internal_queue_name p.1 id) (store a)))) 0%Z (iter p.2)))
      <$> map_to_list (topic_subscriptions a) in
  let others := (λ name, (name, depth (q_topic_stats name (store a)))) <$> filter (λ n, n ∉ routed.*1) function_queues in
  merge_sort key_le (routed ++ others).

(** The topic half of [shutdown]: no poller and no retention timer is left; a job that is being
    delivered stays in flight in the store. *)
Definition shutdown (a : Adapter) : Adapter := mk_adapter (store a) ∅ (topic_subscriptions a) ∅ (retention_counter a).

(** *** What happens to an adapter *)

Inductive Event : Type :=
| Published (e : string -> Env) (topic : string) (p : Value)
| Subscribed (topic id subscriber : string) (config : option SubscriberQueueConfig)
| Unsubscribed (topic id : string) (retain : Z)
| RetentionOver (key : Key) (gen : Z)
| Polled (e : Env) (cfg : Poller)
| Settled (e : Env) (cfg : Poller) (job : Job) (delivered_ok : bool)
| Redriven (e : string -> Env) (topic : string)
| RedrivenOne (e : string -> Env) (topic id : string)
| Discarded (e : string -> Env) (topic id : string).

Definition handle (now : Z) (ev : Event) (a : Adapter) : Adapter :=
  match ev with
  | Published e topic p => enqueue e topic p a
  | Subscribed topic id sub config => subscribe topic id sub config a
  | Unsubscribed topic id retain => unsubscribe topic id retain now a
  | RetentionOver key gen => end_retention key gen a
  | Polled e cfg => (poll e cfg a).2
  | Settled e cfg job ok => process_job e cfg job ok a
  | Redriven e topic => (redrive_dlq e topic a).2
  | RedrivenOne e topic id => (redrive_dlq_message e topic id a).2
  | Discarded e topic id => (discard_dlq_message e topic id a).2
  end.

(** A timer sleeps until the deadline of its own retention. *)
Definition may_happen (now : Z) (ev : Event) (a : Adapter) : Prop :=
  match ev with
  | RetentionOver key gen => forall r, retained a !! key = Some r -> generation r = gen -> (deadline r <= now)%Z
  | Unsubscribed _ _ retain => (0 <= retain)%Z
  | _ => True
  end.

(** A run of events at their times. *)
Inductive timed_run : list (Z * Event) -> Adapter -> Adapter -> Prop :=
| run_nil a : timed_run [] a a
| run_event now ev evs a a' : may_happen now ev a -> timed_run evs (handle now ev a) a' -> timed_run ((now, ev) :: evs) a a'.

Definition new_adapter (s : S) : Adapter := mk_adapter s ∅ ∅ ∅ 1.

End WithStore.
End Topics.

(** ** Properties of topics *)

Module TopicProperties.
Import Queue QueueRules Journal StoreInterface Topics.

Section Routes.
Context {S : Type} `{QueueStore S} (iter : gset string -> list string) (last_instant : Z).

Implicit Types (a : @Adapter S) (topic id : string).

Abbreviation routes a topic := (default ∅ (topic_subscriptions a !! topic)).

(** A topic routes to exactly the subscriptions with a consumer and those within their
    retention; no subscription is both; a topic without any has no entry. *)
Record routes_ok a : Prop := {
  routes_iff : forall topic id, id ∈ routes a topic <->
    is_Some (subscriptions a !! (topic, id)) \/ is_Some (retained a !! (topic, id));
  routes_nonempty : forall topic, topic_subscriptions a !! topic <> Some ∅;
  routes_disjoint : forall key, is_Some (subscriptions a !! key) -> retained a !! key = None;
  routes_pollers : forall topic id p, subscriptions a !! (topic, id) = Some p -> queue_name p = internal_queue_name topic id;
}.

Lemma stop_routing_spec (rs : gmap string (gset string)) topic id topic' id' :
  id' ∈ default ∅ (stop_routing rs topic id !! topic') <->
  id' ∈ default ∅ (rs !! topic') /\ ~ (topic' = topic /\ id' = id).
Proof.
  unfold stop_routing. destruct (rs !! topic) as [ids|] eqn:Ht.
  - destruct (decide (topic' = topic)) as [->|Hne].
    + case_decide as Hc; rewrite ?lookup_delete_eq, ?lookup_insert_eq, Ht; simpl; set_solver.
    + case_decide; rewrite ?lookup_delete_ne, ?lookup_insert_ne by done; naive_solver.
  - split; [|naive_solver]. intros Hin. split; [done|]. intros [-> _]. rewrite Ht in Hin. set_solver.
Qed.

Lemma stop_routing_nonempty (rs : gmap string (gset string)) topic id topic' :
  (forall t, rs !! t <> Some ∅) -> stop_routing rs topic id !! topic' <> Some ∅.
Proof.
  intros Hn. unfold stop_routing. destruct (rs !! topic) as [ids|] eqn:Ht; [|done].
  destruct (decide (topic' = topic)) as [->|Hne]; case_decide as Hc;
    rewrite ?lookup_delete_eq, ?lookup_insert_eq, ?lookup_delete_ne, ?lookup_insert_ne by done; try done. congruence.
Qed.

Lemma subscribe_routes topic id sub config a : routes_ok a -> routes_ok (subscribe topic id sub config a).
Proof.
  intros [Hi Hn Hd Hp]. unfold subscribe. destruct (subscriptions a !! (topic, id)) eqn:Hs; [by split|].
  split; cbn [topic_subscriptions subscriptions retained].
  - intros t i. destruct (decide (t = topic)) as [->|Ht].
    + rewrite lookup_insert_eq. simpl. rewrite elem_of_union, elem_of_singleton.
      destruct (decide (i = id)) as [->|Hne].
      * rewrite lookup_insert_eq. split; [by left|by left].
      * rewrite lookup_insert_ne, lookup_delete_ne by congruence. rewrite <-Hi. naive_solver.
    + rewrite !lookup_insert_ne, lookup_delete_ne by congruence. apply Hi.
  - intros t. destruct (decide (t = topic)) as [->|Ht]; [rewrite lookup_insert_eq; intros [= He]; set_solver|].
    rewrite lookup_insert_ne by done. apply Hn.
  - intros key. destruct (decide (key = (topic, id))) as [->|Hne]; [by rewrite lookup_delete_eq|].
    rewrite lookup_insert_ne, lookup_delete_ne by done. apply Hd.
  - intros t i p. destruct (decide ((t, i) = (topic, id))) as [[= -> ->]|Hne].
    + rewrite lookup_insert_eq. by intros [= <-].
    + rewrite lookup_insert_ne by done. apply Hp.
Qed.

(** Dropping a subscription's consumer, and keeping or ending its routing. *)
Lemma drop_routes key a r :
  routes_ok a -> is_Some (subscriptions a !! key) \/ is_Some (retained a !! key) ->
  routes_ok (mk_adapter (store a) (delete key (subscriptions a)) (topic_subscriptions a) (<[key := r]> (retained a)) (retention_counter a + 1)) /\
  routes_ok (mk_adapter (store a) (delete key (subscriptions a)) (stop_routing (topic_subscriptions a) key.1 key.2)
    (delete key (retained a)) (retention_counter a)).
Proof.
  intros [Hi Hn Hd Hp] Hk. destruct key as [topic id]. cbn [fst snd]. split; split; cbn [topic_subscriptions subscriptions retained].
  - intros t i. rewrite Hi. destruct (decide ((topic, id) = (t, i))) as [[= -> ->]|Hne].
    + rewrite lookup_delete_eq, lookup_insert_eq. split; [by right|done].
    + by rewrite lookup_delete_ne, lookup_insert_ne.
  - done.
  - intros key. destruct (decide (key = (topic, id))) as [->|Hne]; [rewrite lookup_delete_eq; by intros []|].
    rewrite lookup_delete_ne, lookup_insert_ne by done. apply Hd.
  - intros t i p. rewrite lookup_delete_Some. intros [_ Hl]. by apply Hp.
  - intros t i. rewrite stop_routing_spec, Hi. destruct (decide ((topic, id) = (t, i))) as [[= -> ->]|Hne].
    + rewrite !lookup_delete_eq. split; [intros [_ []]; done|intros [[] |[]]; done].
    + rewrite !lookup_delete_ne by done. naive_solver.
  - intros t. by apply stop_routing_nonempty.
  - intros key [x Hx]. apply lookup_delete_Some in Hx as [Hne Hx]. rewrite lookup_delete_ne by done. apply Hd. by eexists.
  - intros t i p. rewrite lookup_delete_Some. intros [_ Hl]. by apply Hp.
Qed.

Lemma unsubscribe_routes topic id retain now a : routes_ok a -> routes_ok (unsubscribe last_instant topic id retain now a).
Proof.
  intros Hok. unfold unsubscribe.
  assert (is_Some (subscriptions a !! (topic, id)) \/ is_Some (retained a !! (topic, id)) ->
    forall r, routes_ok (mk_adapter (store a) (delete (topic, id) (subscriptions a)) (topic_subscriptions a) (<[(topic, id) := r]> (retained a)) (retention_counter a + 1)) /\
      routes_ok (mk_adapter (store a) (delete (topic, id) (subscriptions a)) (stop_routing (topic_subscriptions a) topic id)
        (delete (topic, id) (retained a)) (retention_counter a))) as Hdrop by (intros Hk r; by apply (drop_routes (topic, id))).
  destruct (subscriptions a !! (topic, id)) as [p|] eqn:Hs; destruct (retained a !! (topic, id)) as [r|] eqn:Hr; try done;
    try specialize (Hdrop ltac:(eauto)).
  - exfalso. by rewrite (routes_disjoint a Hok) in Hr by by rewrite Hs.
  - case_match; apply Hdrop. exact (mk_retention 0 0).
  - case_match; [apply (Hdrop (mk_retention 0 0))|]. case_match; [apply Hdrop|].
    rewrite delete_id by done. by destruct a.
Qed.

Lemma end_retention_routes key gen a : routes_ok a -> routes_ok (end_retention key gen a).
Proof.
  intros Hok. unfold end_retention. destruct (retained a !! key) as [r|] eqn:Hr; [|done]. case_decide; [|done].
  destruct (drop_routes key a r Hok (or_intror (mk_is_Some _ _ Hr))) as [_ Hd].
  rewrite delete_id in Hd; [done|]. apply eq_None_not_Some. intros Hs. by rewrite (routes_disjoint a Hok key Hs) in Hr.
Qed.

Lemma handle_routes now ev a : routes_ok a -> routes_ok (handle iter last_instant now ev a).
Proof.
  intros Hok. destruct ev as [e t p|t i sub c|t i retain|key gen|e cfg|e cfg j ok|e t|e t i|e t i]; cbn [handle];
    try (by apply subscribe_routes); try (by apply unsubscribe_routes); try (by apply end_retention_routes);
    unfold enqueue, poll, process_job, redrive_dlq, redrive_dlq_message, discard_dlq_message; repeat case_match;
    destruct Hok; by split.
Qed.

(** Over every sequence of publishes, deliveries, subscribes, unsubscribes, expiring retentions
    and dead-letter operations, a topic routes to exactly the subscriptions that have a consumer
    and those within their retention, no subscription is in both states, a topic without
    subscriptions has no route left, and every consumer reads the queue of its own subscription. *)
Theorem routes_are_the_subscriptions s evs a :
  timed_run iter last_instant evs (new_adapter s) a -> routes_ok a.
Proof.
  assert (routes_ok (new_adapter s)) as Hok.
  { split; cbn [new_adapter topic_subscriptions subscriptions retained].
    - intros t i. rewrite !lookup_empty. split; [set_solver|intros [[] |[]]; done].
    - intros t. by rewrite lookup_empty.
    - done.
    - intros t i p. by rewrite lookup_empty. }
  intros Hrun. revert Hok. induction Hrun as [|now ev evs a a' _ _ IH]; intros Hok; [done|]. apply IH. by apply handle_routes.
Qed.

(** *** Retention *)

Definition concerns (key : Key) (ev : Event) : Prop :=
  match ev with
  | Subscribed t i _ _ | Unsubscribed t i _ => key = (t, i)
  | _ => False
  end.

Lemma retained_stays now ev a key r :
  routes_ok a -> retained a !! key = Some r -> (now < deadline r)%Z -> ~ concerns key ev -> may_happen now ev a ->
  retained (handle iter last_instant now ev a) !! key = Some r.
Proof.
  intros Hok Hr Hnow Hc Hmay. destruct ev as [e t p|t i sub c|t i retain|k gen|e cfg|e cfg j ok|e t|e t i|e t i];
    cbn [handle concerns may_happen] in *;
    unfold enqueue, poll, process_job, redrive_dlq, redrive_dlq_message, discard_dlq_message;
    try (repeat case_match; done).
  - unfold subscribe. case_match; [done|]. cbn [retained]. by rewrite lookup_delete_ne.
  - unfold unsubscribe. repeat case_match; try done; cbn [retained]; by rewrite ?lookup_delete_ne, ?lookup_insert_ne.
  - unfold end_retention. destruct (retained a !! k) as [r'|] eqn:Hk; [|done]. case_decide as Hg; [|done]. cbn [retained].
    rewrite lookup_delete_ne; [done|]. intros ->. rewrite Hk in Hr. injection Hr as ->. specialize (Hmay r eq_refl Hg). lia.
Qed.

(** A subscriber that leaves and comes back within its retention misses nothing: until the
    deadline, whatever happens to other subscriptions and whatever timers of earlier
    retentions fire, the topic keeps routing to its queue, so every publish still puts its copy
    there, and subscribing again only adds the consumer. *)
Theorem retention_keeps_the_route evs a a' topic id r sub config :
  routes_ok a -> retained a !! (topic, id) = Some r -> timed_run iter last_instant evs a a' ->
  Forall (λ p : Z * Event, (p.1 < deadline r)%Z /\ ~ concerns (topic, id) p.2) evs ->
  (forall ids, iter ids ≡ₚ elements ids) ->
  internal_queue_name topic id ∈ queues_of iter topic a' /\
  subscriptions (subscribe topic id sub config a') !! (topic, id) = Some (poller_of topic id sub config) /\
  store (subscribe topic id sub config a') = store a'.
Proof.
  intros Hok Hr Hrun Hev Hiter. assert (routes_ok a' /\ retained a' !! (topic, id) = Some r) as [Hok' Hr'].
  { induction Hrun as [|now ev evs a a' Hmay Hrun IH]; [done|]. apply Forall_cons in Hev as [[Hnow Hc] Hev].
    apply IH; [by apply handle_routes|by apply retained_stays|done]. }
  assert (subscriptions a' !! (topic, id) = None) as Hs.
  { apply eq_None_not_Some. intros Hs. by rewrite (routes_disjoint a' Hok' _ Hs) in Hr'. }
  split; [|unfold subscribe; rewrite Hs; split; [apply lookup_insert_eq|done]].
  assert (id ∈ routes a' topic) as Hin by (apply (routes_iff a' Hok'); right; by rewrite Hr').
  unfold queues_of, routed. destruct (topic_subscriptions a' !! topic) as [ids|]; [|set_solver]. simpl in Hin.
  case_decide as He; [set_solver|]. simpl. apply list_elem_of_fmap. exists id. split; [done|]. by rewrite Hiter, elem_of_elements.
Qed.

(** *** Fan-out *)

Lemma internal_queue_name_inj topic id id' : internal_queue_name topic id = internal_queue_name topic id' -> id = id'.
Proof. unfold internal_queue_name. intros He. apply (inj (String.append topic)) in He. by apply (inj (String.append "::")) in He. Qed.

Lemma queues_nodup topic a : (forall ids, iter ids ≡ₚ elements ids) -> NoDup (queues_of iter topic a).
Proof.
  intros Hiter. assert (NoDup [topic]) by apply NoDup_singleton. unfold queues_of, routed.
  destruct (topic_subscriptions a !! topic) as [ids|]; [|done]. case_decide; [done|]. simpl.
  apply NoDup_fmap_2_strong; [intros x y _ _; apply internal_queue_name_inj|]. rewrite Hiter. apply NoDup_elements.
Qed.

Context (view : S -> StoreData) `{!QueueStoreLaws S view}.

Lemma enqueue_queue e t p s name :
  entry (queues (view (q_enqueue e t p s).2)) name =
  entry (queues (view s)) name ++
  (if decide (name = t) then (if is_ok (q_enqueue e t p s).1 then [new_job (env_uuid e) p (env_now e)] else []) else []).
Proof.
  pose proof (law_enqueue e t p s) as Hl. destruct (q_enqueue e t p s) as [[id|er] s1]; cbn [fst snd is_ok].
  - destruct Hl as [_ [r ->]]. cbn. rewrite entry_insert. case_decide; [by subst|by rewrite app_nil_r].
  - rewrite Hl. case_decide; by rewrite app_nil_r.
Qed.

Lemma enqueue_all_queues e names p s :
  NoDup names ->
  exists ok : string -> bool,
    (forall name, (forall s, is_ok (q_enqueue (e name) name p s).1 = true) -> ok name = true) /\
    forall name, entry (queues (view (enqueue_all e names p s))) name =
      entry (queues (view s)) name ++
      (if bool_decide (name ∈ names) && ok name then [new_job (env_uuid (e name)) p (env_now (e name))] else []).
Proof.
  revert s. induction names as [|n names IH]; intros s Hnd; cbn [enqueue_all].
  - exists (λ _, true). split; [done|]. intros name. by rewrite app_nil_r.
  - apply NoDup_cons in Hnd as [Hn Hnd]. destruct (IH (q_enqueue (e n) n p s).2 Hnd) as (ok & Hok & Hq).
    exists (λ name, if decide (name = n) then is_ok (q_enqueue (e n) n p s).1 else ok name). split.
    { intros name Hall. case_decide; [by subst|by apply Hok]. }
    intros name. rewrite Hq, (enqueue_queue (e n) n). destruct (decide (name = n)) as [->|Hne].
    + rewrite (bool_decide_eq_false_2 (n ∈ names)), (bool_decide_eq_true_2 (n ∈ n :: names)) by (done || by left).
      cbn [andb]. by rewrite app_nil_r.
    + rewrite app_nil_r. f_equal. by rewrite (bool_decide_ext (name ∈ n :: names) (name ∈ names)) by (rewrite elem_of_cons; naive_solver).
Qed.

(** A publish reaches every subscription of the topic and nothing else: each routed queue gets
    its own copy at its end, once, unless the store rejects that copy, whatever becomes of the
    others; a topic without subscriptions keeps the message under its own name; every other
    queue stays as it is. *)
Theorem publish_fans_out e topic p a :
  (forall ids, iter ids ≡ₚ elements ids) ->
  exists ok : string -> bool,
    (forall name, (forall s, is_ok (q_enqueue (e name) name p s).1 = true) -> ok name = true) /\
    forall name, entry (queues (view (store (enqueue iter e topic p a)))) name =
      entry (queues (view (store a))) name ++
      (if bool_decide (name ∈ queues_of iter topic a) && ok name then [new_job (env_uuid (e name)) p (env_now (e name))] else []).
Proof. intros Hiter. apply enqueue_all_queues. by apply queues_nodup. Qed.

(** *** Pages of dead letters *)

Lemma take_bind_take {A} n (ls : list (list A)) : take n (ls ≫= take n) = take n (mjoin ls).
Proof.
  assert (forall m, m <= n -> take m (ls ≫= take n) = take m (mjoin ls)) as Hm; [|by apply Hm].
  induction ls as [|l ls IH]; intros m Hm; [done|]. cbn. rewrite !take_app, take_take, length_take.
  replace (Nat.min m n) with m by lia. destruct (decide (length l <= m)) as [Hl|Hl].
  - replace (Nat.min n (length l)) with (length l) by lia. f_equal. apply IH. lia.
  - replace (m - length l) with 0 by lia. replace (m - Nat.min n (length l)) with 0 by lia. done.
Qed.

Lemma page_of_truncated {A} o l n (ls : list (list A)) : o + l <= n ->
  take l (drop o (ls ≫= take n)) = take l (drop o (mjoin ls)).
Proof.
  intros Hn. rewrite !take_drop_commute. f_equal.
  rewrite <-(Nat.min_l (o + l) n Hn), <-!take_take. by rewrite take_bind_take.
Qed.

(** Peeking at a topic's dead letters by offset and limit is a page of one list, the dead
    letters of its queues one queue after the other, although each queue is only read up to the
    end of the page; reading a longer prefix and cutting it, as [engine::queue::dlq_messages]
    does, gives the same page. *)
Theorem dlq_peek_is_a_page topic offset limit a :
  (0 <= offset)%Z -> (0 <= limit)%Z -> (offset + limit <= u64_max)%Z ->
  let all := mjoin ((λ name, entry (dlqs (view (store a))) name) <$> queues_of iter topic a) in
  dlq_peek iter topic offset limit a = to_value <$> take (Z.to_nat limit) (drop (Z.to_nat offset) all) /\
  take (Z.to_nat limit) (drop (Z.to_nat offset) (dlq_peek iter topic 0 (offset + limit) a)) = dlq_peek iter topic offset limit a.
Proof.
  intros Ho Hl Hmax all.
  assert (forall o l, (0 <= o)%Z -> (0 <= l)%Z -> (o + l <= u64_max)%Z ->
    dlq_peek iter topic o l a = to_value <$> take (Z.to_nat l) (drop (Z.to_nat o) all)) as Hpeek.
  { intros o l Ho' Hl' Hm. unfold dlq_peek, sat_u64. rewrite Z.min_l by done. f_equal.
    unfold all. rewrite <-(page_of_truncated _ _ (Z.to_nat (o + l))), list_fmap_bind by lia.
    f_equal. f_equal. apply list_bind_ext; [|done]. intros name. apply law_dlq_messages. }
  split; [by apply Hpeek|]. rewrite !Hpeek by lia. rewrite drop_0, <-fmap_drop, <-fmap_take. f_equal.
  rewrite !take_drop_commute, take_take. f_equal. f_equal. lia.
Qed.

End Routes.

(** *** Witnesses *)

Section Sample.
#[local] Existing Instance SampleFile.text.
#[local] Existing Instance SharedStore.

Definition no_order : gset string -> list string := elements.
Definition at_uuid (name : string) : Env := mk_env AppendOk name 5.
Definition two_subscribers : list (Z * Event) :=
  [(1%Z, Subscribed "t" "x" "sub-x" None); (2%Z, Subscribed "t" "y" "sub-y" None); (3%Z, Unsubscribed "t" "y" 100)].
Definition empty_adapter : @Adapter Shared := new_adapter (mk_shared empty_data None []).
Definition after_all (evs : list (Z * Event)) : @Adapter Shared :=
  foldl (λ a p, handle no_order 1000000 p.1 p.2 a) empty_adapter evs.

Lemma routes_are_the_subscriptions_witness : routes_ok (after_all two_subscribers).
Proof.
  apply (routes_are_the_subscriptions no_order 1000000 (mk_shared empty_data None []) two_subscribers).
  apply run_event; [exact I|]. apply run_event; [exact I|]. apply run_event; [cbn; lia|]. apply run_nil.
Defined.

Lemma retention_keeps_the_route_witness :
  internal_queue_name "t" "y" ∈
    queues_of no_order "t" (handle no_order 1000000 50 (Published at_uuid "t" Null) (after_all two_subscribers)).
Proof.
  destruct (retention_keeps_the_route no_order 1000000 [(50%Z, Published at_uuid "t" Null)] (after_all two_subscribers)
    (handle no_order 1000000 50 (Published at_uuid "t" Null) (after_all two_subscribers)) "t" "y" (mk_retention 1 103) "sub-y" None) as [Hin _].
  - pose proof (handle_routes no_order 1000000) as Hh. unfold after_all, two_subscribers. cbn [foldl].
    do 3 apply Hh. split; cbn [empty_adapter new_adapter topic_subscriptions subscriptions retained].
    + intros t i. rewrite !lookup_empty. split; [set_solver|intros [[] |[]]; done].
    + intros t. by rewrite lookup_empty.
    + done.
    + intros t i p. by rewrite lookup_empty.
  - by vm_compute.
  - apply run_event; [exact I|apply run_nil].
  - apply Forall_cons_2; [split; [cbn; lia|cbn; tauto]|apply Forall_nil_2].
  - done.
  - exact Hin.
Defined.

Lemma publish_fans_out_witness :
  exists ok : string -> bool, ok "t::x" = true /\
    entry (queues (data (store (enqueue no_order at_uuid "t" Null (after_all two_subscribers))))) "t::x" =
      [] ++ (if bool_decide ("t::x" ∈ queues_of no_order "t" (after_all two_subscribers)) && ok "t::x" then [new_job "t::x" Null 5] else []).
Proof.
  destruct (publish_fans_out no_order data (QueueStoreLaws0 := shared_laws) at_uuid "t" Null (after_all two_subscribers) (λ ids, reflexivity _)) as (ok & Hok & Hq).
  exists ok. split; [|exact (Hq "t::x")]. apply Hok. intros s. cbn [q_enqueue SharedStore env_io at_uuid]. unfold Journal.enqueue, append_journal. by destruct (file_dir s).
Defined.

Lemma dlq_peek_is_a_page_witness :
  dlq_peek no_order "t" 1 2 (after_all two_subscribers) = to_value <$> take 2 (drop 1 ([] : list Job)).
Proof.
  destruct (dlq_peek_is_a_page no_order data (QueueStoreLaws0 := shared_laws) "t" 1 2 (after_all two_subscribers)) as [Hp _]; [lia|lia|by vm_compute|].
  exact Hp.
Defined.

End Sample.
End TopicProperties.
