(* ===== verification/QueueFunctions.v ===== *)
(** * Function queues of the builtin adapter (queue/src/adapters/builtin.rs, adapter.rs)

    The settings of a named queue ([Settings]); the envelope a published call travels in and the
    message a consumer gets ([Envelopes]); and the function-queue half of [BuiltinAdapter]:
    publish, setup, consumers that hold deliveries until they are acknowledged, and the
    stop that gives unacknowledged deliveries back ([FunctionQueues]).  A consumer task is modelled
    between its await points: it has taken a job from the store, or it has recorded the
    delivery; a stop may abort it in between. *)

From Stdlib Require Import Ascii ZArith Lia.
From S2P Require Import Prelude Json Codec JsonText QueueStore QueueJournal QueueLife QueueAdapter.

(** ** Settings *)

Module Settings.

Definition DEFAULT_FUNCTION_QUEUE_TIMEOUT_MS : Z := (30 * 60 * 1000)%Z.

Record FunctionQueueConfig : Type := mk_fq_config {
  max_retries : Z;
  concurrency : Z;
  timeout_ms : Z;
  queue_type : string;
  message_group_field : option string;
  backoff_ms : Z;
  poll_interval_ms : Z;
  redeliver_on_engine_restart : bool;
  max_priority : option Z;
  priority_field : option string;
}.

Definition default_config : FunctionQueueConfig :=
  mk_fq_config 3 10 DEFAULT_FUNCTION_QUEUE_TIMEOUT_MS "standard" None 1000 100 false None None.

Definition blank (s : string) : bool := is_empty (trim s).
Definition blank_field (o : option string) : bool := match o with Some f => blank f | None => false end.

Definition validate (c : FunctionQueueConfig) (queue : string) : result unit string :=
  if blank queue then Err "queue name is required"
  else if negb (bool_decide (trim queue = queue)) then Err "queue name must not have leading or trailing whitespace"
  else if (concurrency c =? 0)%Z then Err ("queue '" +:+ queue +:+ "' concurrency must be greater than zero")
  else if (timeout_ms c =? 0)%Z then Err ("queue '" +:+ queue +:+ "' timeout_ms must be greater than zero")
  else if negb (bool_decide (queue_type c = "standard") || bool_decide (queue_type c = "fifo")) then
    Err ("queue '" +:+ queue +:+ "' type must be either 'standard' or 'fifo'")
  else if bool_decide (queue_type c = "fifo") && match message_group_field c with Some f => blank f | None => true end then
    Err ("queue '" +:+ queue +:+ "' with type 'fifo' requires message_group_field")
  else if blank_field (message_group_field c) then Err ("queue '" +:+ queue +:+ "' message_group_field must not be empty")
  else if blank_field (priority_field c) then Err ("queue '" +:+ queue +:+ "' priority_field must not be empty")
  else if bool_decide (max_priority c = Some 0%Z) then Err ("queue '" +:+ queue +:+ "' max_priority must be greater than zero")
  else Ok tt.

Definition u8_max : Z := 255.

Definition config_keys : list string :=
  ["max_retries"; "concurrency"; "timeout_ms"; "type"; "message_group_field"; "backoff_ms"; "poll_interval_ms";
   "redeliver_on_engine_restart"; "max_priority"; "priority_field"].

#[export] Instance FunctionQueueConfig_codec : Codec FunctionQueueConfig := {|
  to_value c := json_obj ([("max_retries", enc_u (max_retries c)); ("concurrency", enc_u (concurrency c));
      ("timeout_ms", enc_u (timeout_ms c)); ("type", Str (queue_type c)); ("backoff_ms", enc_u (backoff_ms c));
      ("poll_interval_ms", enc_u (poll_interval_ms c)); ("redeliver_on_engine_restart", Bool (redeliver_on_engine_restart c))]
    ++ opt_field "message_group_field" Str (message_group_field c)
    ++ opt_field "max_priority" enc_u (max_priority c) ++ opt_field "priority_field" Str (priority_field c));
  from_value v :=
    m ← strict config_keys v;
    r ← dflt "max_retries" (dec_u u32_max) 3%Z m; n ← dflt "concurrency" (dec_u u32_max) 10%Z m;
    t ← dflt "timeout_ms" (dec_u u64_max) DEFAULT_FUNCTION_QUEUE_TIMEOUT_MS m;
    y ← dflt "type" as_str "standard" m; g ← opt "message_group_field" as_str m;
    b ← dflt "backoff_ms" (dec_u u64_max) 1000%Z m; i ← dflt "poll_interval_ms" (dec_u u64_max) 100%Z m;
    e ← dflt "redeliver_on_engine_restart" as_bool false m; p ← opt "max_priority" (dec_u u8_max) m;
    f ← opt "priority_field" as_str m;
    Some (mk_fq_config r n t y g b i e p f);
|}.

End Settings.

(** ** Envelopes *)

Module Envelopes.
Import Settings.

Record FunctionQueueEnvelope : Type := mk_envelope {
  function_id : string;
  call_data : Value;
  message_id : string;
  env_max_retries : Z;
  env_backoff_ms : Z;
  traceparent : option string;
  baggage : option string;
  namespace : option string;
  priority : option Z;
}.

#[export] Instance FunctionQueueEnvelope_codec : Codec FunctionQueueEnvelope := {|
  to_value e := json_obj [("function_id", Str (function_id e)); ("data", call_data e); ("message_id", Str (message_id e));
    ("max_retries", enc_u (env_max_retries e)); ("backoff_ms", enc_u (env_backoff_ms e));
    ("traceparent", enc_opt Str (traceparent e)); ("baggage", enc_opt Str (baggage e));
    ("namespace", enc_opt Str (namespace e)); ("priority", enc_opt enc_u (priority e))];
  from_value v :=
    m ← as_object v;
    f ← req "function_id" as_str m; d ← req "data" Some m; i ← req "message_id" as_str m;
    r ← req "max_retries" (dec_u u32_max) m; b ← req "backoff_ms" (dec_u u64_max) m;
    t ← opt "traceparent" as_str m; g ← opt "baggage" as_str m; n ← opt "namespace" as_str m;
    p ← opt "priority" (dec_u u8_max) m;
    Some (mk_envelope f d i r b t g n p);
|}.

(** What the consumer of a function queue gets. *)
Record QueueMessage : Type := mk_message {
  delivery_id : Z;
  msg_function : string;
  msg_data : Value;
  attempt : Z;
  msg_id : option string;
  msg_traceparent : option string;
  msg_baggage : option string;
  msg_namespace : option string;
}.

Definition message_of (id attempts : Z) (e : FunctionQueueEnvelope) : QueueMessage :=
  mk_message id (function_id e) (call_data e) attempts (Some (message_id e)) (traceparent e) (baggage e) (namespace e).

Record envelope_ok (e : FunctionQueueEnvelope) : Prop := {
  env_retries_ok : in_range 0 u32_max (env_max_retries e);
  env_backoff_ok : in_range 0 u64_max (env_backoff_ms e);
  env_priority_ok : forall p, priority e = Some p -> in_range 0 u8_max p;
}.

Lemma opt_present {A} k (d : Value -> option A) (e : A -> Value) o l :
  obj_get k l = Some (enc_opt e o) -> (forall x, o = Some x -> e x <> Null /\ d (e x) = Some x) ->
  opt k d (obj_of_list l) = Some o.
Proof. intros Hg Hd. unfold opt, dflt. rewrite obj_get_of_list, Hg. by apply dec_enc_opt. Qed.

Ltac get_present k e o := rewrite (opt_present k _ e o); [| field_tac |]; cbn [mbind option_bind].

(** A published call reads back as it was written. *)
Lemma envelope_codec e : envelope_ok e -> codec_ok e.
Proof.
  intros [Hr Hb Hp]. unfold codec_ok. cbn [from_value to_value FunctionQueueEnvelope_codec]. codec_tac.
  get_req "function_id" (function_id e); [|reflexivity]. get_req "data" (call_data e); [|reflexivity].
  get_req "message_id" (message_id e); [|reflexivity]. get_req "max_retries" (env_max_retries e); [|by apply dec_enc_u].
  get_req "backoff_ms" (env_backoff_ms e); [|by apply dec_enc_u].
  get_present "traceparent" Str (traceparent e); [|done]. get_present "baggage" Str (baggage e); [|done].
  get_present "namespace" Str (namespace e); [|done].
  get_present "priority" enc_u (priority e); [by destruct e|]. intros x Hx. split; [done|]. apply dec_enc_u. by apply Hp.
Qed.

End Envelopes.

(** ** Consumers and deliveries *)

Module FunctionQueues.
Import Queue Journal StoreInterface Settings Envelopes.

Record Delivery : Type := mk_delivery {
  d_consumer : Z;
  d_queue : string;
  d_job : Job;
  d_backoff : Z;
}.

(** A consumer task: its queue, how many deliveries it may hold, and the job it has taken and
    not yet recorded. *)
Record Consumer : Type := mk_consumer {
  c_queue : string;
  c_capacity : Z;
  c_hand : option Job;
}.

Section WithStore.
Context {S : Type} `{QueueStore S}.

Record State : Type := mk_state {
  store : S;
  function_queue_configs : gmap string FunctionQueueConfig;
  function_deliveries : gmap Z Delivery;
  function_consumers : gmap Z Consumer;
  delivery_counter : Z;
  consumer_counter : Z;
}.

Definition with_store (s : S) (f : State) : State :=
  mk_state s (function_queue_configs f) (function_deliveries f) (function_consumers f) (delivery_counter f) (consumer_counter f).
Definition with_configs (c : gmap string FunctionQueueConfig) (f : State) : State :=
  mk_state (store f) c (function_deliveries f) (function_consumers f) (delivery_counter f) (consumer_counter f).
Definition with_deliveries (d : gmap Z Delivery) (f : State) : State :=
  mk_state (store f) (function_queue_configs f) d (function_consumers f) (delivery_counter f) (consumer_counter f).
Definition with_consumers (c : gmap Z Consumer) (f : State) : State :=
  mk_state (store f) (function_queue_configs f) (function_deliveries f) c (delivery_counter f) (consumer_counter f).

Definition not_set_up (queue : string) : string := "function queue '" +:+ queue +:+ "' has not been set up".

(** *** The caller's side *)

Definition publish_to_function_queue (e : Env) (queue : string) (call : FunctionQueueEnvelope) (f : State)
  : result unit Error * State :=
  match function_queue_configs f !! queue with
  | None => (Err (not_set_up queue), f)
  | Some _ =>
      if blank (function_id call) then (Err "function_id is required", f)
      else if blank (message_id call) then (Err "message_id is required", f)
      else match q_enqueue e queue (to_value call) (store f) with
           | (Ok _, s) => (Ok tt, with_store s f)
           | (Err er, s) => (Err er, with_store s f)
           end
  end.

Definition setup_function_queue (queue : string) (config : FunctionQueueConfig) (f : State) : result unit Error * State :=
  match validate config queue with
  | Err er => (Err er, f)
  | Ok _ => (Ok tt, with_configs (<[queue := config]> (function_queue_configs f)) f)
  end.

Definition forget_function_queue (queue : string) (f : State) : State :=
  with_configs (delete queue (function_queue_configs f)) f.

(** The new consumer's id. *)
Definition consume_function_queue (queue : string) (prefetch : Z) (f : State) : result Z Error * State :=
  match function_queue_configs f !! queue with
  | None => (Err (not_set_up queue), f)
  | Some _ =>
      let id := consumer_counter f in
      (Ok id, mk_state (store f) (function_queue_configs f) (function_deliveries f)
        (<[id := mk_consumer queue (Z.max 1 prefetch) None]> (function_consumers f)) (delivery_counter f) (id + 1))
  end.

Definition ack_function_queue (e : Env) (queue : string) (id : Z) (f : State) : result unit Error * State :=
  match function_deliveries f !! id with
  | None => (Ok tt, f)
  | Some d =>
      if negb (bool_decide (d_queue d = queue)) then
        (Err ("delivery " +:+ pretty id +:+ " does not belong to queue '" +:+ queue +:+ "'"), f)
      else
        (Ok tt, with_deliveries (delete id (function_deliveries f)) (with_store (q_ack e queue (job_id (d_job d)) (store f)) f))
  end.

Definition nack_function_queue (e : Env) (queue : string) (id attempt max_retries : Z) (f : State) : result unit Error * State :=
  match function_deliveries f !! id with
  | None => (Ok tt, f)
  | Some d =>
      if negb (bool_decide (d_queue d = queue)) then
        (Err ("delivery " +:+ pretty id +:+ " does not belong to queue '" +:+ queue +:+ "'"), f)
      else
        let job := with_attempts (Z.max (attempts (d_job d)) attempt) (d_job d) in
        (Ok tt, with_deliveries (delete id (function_deliveries f))
                  (with_store (q_nack e queue job (sat_u32 (max_retries + 1)) (d_backoff d) (store f)) f))
  end.

(** *** The consumer task, between its await points *)

Definition held_by (id : Z) (f : State) : nat :=
  length (filter (λ p : Z * Delivery, d_consumer p.2 = id) (map_to_list (function_deliveries f))).

(** A permit and a job: the job is taken from the store. *)
Definition take_job (e : Env) (id : Z) (f : State) : State :=
  match function_consumers f !! id with
  | Some c =>
      match c_hand c with
      | Some _ => f
      | None =>
          if (Z.of_nat (held_by id f) <? c_capacity c)%Z then
            match q_dequeue e (c_queue c) (store f) with
            | (Some job, s) =>
                with_consumers (<[id := mk_consumer (c_queue c) (c_capacity c) (Some job)]> (function_consumers f)) (with_store s f)
            | (None, s) => with_store s f
            end
          else f
      end
  | None => f
  end.

(** The job is recorded as a delivery and its message is sent, or dead-lettered when it is no
    call. *)
Definition record_job (e : Env) (id : Z) (f : State) : option QueueMessage * State :=
  match function_consumers f !! id with
  | Some c =>
      match c_hand c with
      | None => (None, f)
      | Some job =>
          let idle := <[id := mk_consumer (c_queue c) (c_capacity c) None]> (function_consumers f) in
          match from_value (payload job) with
          | None => (None, with_consumers idle (with_store (q_nack e (c_queue c) job 1 0 (store f)) f))
          | Some call =>
              let d := delivery_counter f in
              (Some (message_of d (attempts job) call),
               mk_state (store f) (function_queue_configs f)
                 (<[d := mk_delivery id (c_queue c) job (env_backoff_ms call)]> (function_deliveries f)) idle (d + 1) (consumer_counter f))
          end
      end
  | None => (None, f)
  end.

(** *** Giving deliveries back *)

(** One delivery of [requeue_function_deliveries]; a settled one is no longer in the map. *)
Definition requeue_delivery (e : Env) (id : Z) (f : State) : list Error * State :=
  match function_deliveries f !! id with
  | None => ([], f)
  | Some d =>
      let '(res, s) := q_requeue e (d_queue d) (d_job d) (store f) in
      (match res with Ok _ => [] | Err er => [er] end,
       with_deliveries (delete id (function_deliveries f)) (with_store s f))
  end.

Fixpoint requeue_deliveries (e : Z -> Env) (ids : list Z) (f : State) : list Error * State :=
  match ids with
  | [] => ([], f)
  | id :: rest =>
      let '(errors, f1) := requeue_delivery (e id) id f in
      let '(more, f2) := requeue_deliveries e rest f1 in (errors ++ more, f2)
  end.

Definition newest_first (a b : Z) : Prop := (b <= a)%Z.

#[export] Instance newest_first_dec : RelDecision newest_first.
Proof. intros a b. unfold newest_first. apply _. Defined.

#[export] Instance newest_first_total : Total newest_first.
Proof. intros a b. unfold newest_first. lia. Qed.
#[export] Instance newest_first_trans : Transitive newest_first.
Proof. intros a b c. unfold newest_first. lia. Qed.

(** The deliveries of some consumers, newest first. *)
Definition deliveries_of (own : Z -> bool) (f : State) : list Z :=
  merge_sort newest_first (filter (λ p : Z * Delivery, own (d_consumer p.2) = true) (map_to_list (function_deliveries f))).*1.

Definition give_back (e : Z -> Env) (own : Z -> bool) (f : State) : result unit Error * State :=
  let '(errors, f1) := requeue_deliveries e (deliveries_of own f) f in
  (match errors with [] => Ok tt | _ => Err (join "; " errors) end, f1).

(** The tasks of a queue's consumers are aborted, whatever they are doing. *)
Definition stop_function_queue_consumer (e : Z -> Env) (queue : string) (f : State) : result unit Error * State :=
  let own id := match function_consumers f !! id with Some c => bool_decide (c_queue c = queue) | None => false end in
  give_back e own (with_consumers (filter (λ p : Z * Consumer, c_queue p.2 <> queue) (function_consumers f)) f).

(** The receiver of an idle consumer is closed: the task ends and gives its deliveries back. *)
Definition consumer_closed (e : Z -> Env) (id : Z) (f : State) : State :=
  match function_consumers f !! id with
  | Some c =>
      match c_hand c with
      | Some _ => f
      | None => (give_back e (λ i, bool_decide (i = id)) (with_consumers (delete id (function_consumers f)) f)).2
      end
  | None => f
  end.

(** The function-queue half of [shutdown]: every task is aborted and every delivery given back;
    an error is logged. *)
Definition shutdown (e : Z -> Env) (f : State) : State := (give_back e (λ _, true) (with_consumers ∅ f)).2.

(** *** What happens to the function queues *)

Inductive Event : Type :=
| PublishCall (e : Env) (queue : string) (call : FunctionQueueEnvelope)
| SetUp (queue : string) (config : FunctionQueueConfig)
| Forget (queue : string)
| Consume (queue : string) (prefetch : Z)
| TakeJob (e : Env) (id : Z)
| RecordJob (e : Env) (id : Z)
| AckCall (e : Env) (queue : string) (id : Z)
| NackCall (e : Env) (queue : string) (id attempt max_retries : Z)
| StopConsumers (e : Z -> Env) (queue : string)
| Closed (e : Z -> Env) (id : Z).

Definition handle (ev : Event) (f : State) : State :=
  match ev with
  | PublishCall e q call => (publish_to_function_queue e q call f).2
  | SetUp q config => (setup_function_queue q config f).2
  | Forget q => forget_function_queue q f
  | Consume q prefetch => (consume_function_queue q prefetch f).2
  | TakeJob e id => take_job e id f
  | RecordJob e id => (record_job e id f).2
  | AckCall e q id => (ack_function_queue e q id f).2
  | NackCall e q id n max => (nack_function_queue e q id n max f).2
  | StopConsumers e q => (stop_function_queue_consumer e q f).2
  | Closed e id => consumer_closed e id f
  end.

Definition new_state (s : S) : State := mk_state s ∅ ∅ ∅ 1 1.

(** The jobs of a queue that a consumer has taken and not recorded. *)
Definition in_hand (q : string) (f : State) : list string :=
  job_id <$> omap (λ p : Z * Consumer, if decide (c_queue p.2 = q) then c_hand p.2 else None) (map_to_list (function_consumers f)).

Definition on_delivery (q : string) (f : State) : list string :=
  (λ p : Z * Delivery, job_id (d_job p.2)) <$> filter (λ p : Z * Delivery, d_queue p.2 = q) (map_to_list (function_deliveries f)).

(** What the abort of a stop cuts off. *)
Definition cut_off (q : string) (ev : Event) (f : State) : list string :=
  match ev with StopConsumers _ queue => if decide (queue = q) then in_hand q f else [] | _ => [] end.

Fixpoint handle_all (evs : list Event) (f : State) : State :=
  match evs with [] => f | ev :: rest => handle_all rest (handle ev f) end.

Fixpoint all_cut_off (q : string) (evs : list Event) (f : State) : list string :=
  match evs with [] => [] | ev :: rest => cut_off q ev f ++ all_cut_off q rest (handle ev f) end.

End WithStore.
End FunctionQueues.

(** ** Properties of function queues *)

Module FunctionQueueRules.
Import Queue QueueRules Journal StoreInterface Settings Envelopes FunctionQueues.

(** *** The in-flight jobs of a queue *)

Definition settled_job (m : Mutation) : option (string * string) :=
  match m with
  | Ack t id => Some (t, id)
  | Nack t j _ | Requeue t j => Some (t, job_id j)
  | _ => None
  end.

Lemma settle_inflight m r d t id q :
  settled_job m = Some (t, id) ->
  entry (inflight (apply_at r m d)) q = if decide (q = t) then drop_job id (entry (inflight d) t) else entry (inflight d) q.
Proof.
  destruct m as [u j|u i|u i|u j b|u j|u ready|u i ready|u i]; simpl; intros [= <- <-];
    [|destruct b|]; cbn; by rewrite remove_inflight_entry.
Qed.

Lemma dequeue_inflight r d t j now q :
  find_ready t now d = Some j ->
  ids (entry (inflight (apply_at r (Dequeue t (job_id j)) d)) q) =
  ids (entry (inflight d) q) ++ (if decide (t = q) then [job_id j] else []).
Proof.
  unfold find_ready. destruct (queues d !! t) as [l|] eqn:Hq; [|done]. cbn. intros Hf.
  rewrite Hq. destruct (take_job_is_Some (job_id j) l) as (x & rest & Ht & Hx).
  { apply list_elem_of_fmap. exists j. split; [done|]. apply find_some in Hf as [Hin _]. by apply list_elem_of_In. }
  rewrite Ht. cbn. rewrite entry_insert. case_decide as H1; case_decide as H2; subst; try done; [|by rewrite app_nil_r].
  by rewrite ids_app, fmap_cons, Hx.
Qed.

(** *** Deliveries and hands, as maps change *)

Definition deliv (q : string) (m : gmap Z Delivery) : list string :=
  (λ p : Z * Delivery, job_id (d_job p.2)) <$> filter (λ p : Z * Delivery, d_queue p.2 = q) (map_to_list m).

Definition deliv1 (q : string) (d : Delivery) : list string := if decide (d_queue d = q) then [job_id (d_job d)] else [].

Lemma deliv_insert q m id d : m !! id = None -> deliv q (<[id := d]> m) ≡ₚ deliv1 q d ++ deliv q m.
Proof.
  intros Hm. unfold deliv, deliv1. rewrite map_to_list_insert by done. rewrite filter_cons. simpl. by case_decide.
Qed.

Lemma deliv_delete q m id d : m !! id = Some d -> deliv q m ≡ₚ deliv1 q d ++ deliv q (delete id m).
Proof. intros Hm. rewrite <-(insert_delete_id _ _ _ Hm) at 1. apply deliv_insert, lookup_delete_eq. Qed.

Definition hand1 (q : string) (c : Consumer) : list string :=
  if decide (c_queue c = q) then option_list (job_id <$> c_hand c) else [].

Definition hand (q : string) (m : gmap Z Consumer) : list string :=
  job_id <$> omap (λ p : Z * Consumer, if decide (c_queue p.2 = q) then c_hand p.2 else None) (map_to_list m).

Lemma hand_insert q m id c : m !! id = None -> hand q (<[id := c]> m) ≡ₚ hand1 q c ++ hand q m.
Proof.
  intros Hm. unfold hand, hand1. rewrite map_to_list_insert by done. simpl. case_decide; [|done]. by destruct (c_hand c).
Qed.

Lemma hand_delete q m id c : m !! id = Some c -> hand q m ≡ₚ hand1 q c ++ hand q (delete id m).
Proof. intros Hm. rewrite <-(insert_delete_id _ _ _ Hm) at 1. apply hand_insert, lookup_delete_eq. Qed.

Lemma hand_replace q m id c c' : m !! id = Some c -> hand q (<[id := c']> m) ≡ₚ hand1 q c' ++ hand q (delete id m).
Proof. intros Hm. rewrite <-insert_delete_eq. apply hand_insert, lookup_delete_eq. Qed.

(** The consumers a stop leaves. *)
Lemma hand_filter q queue (m : gmap Z Consumer) :
  hand q (filter (λ p : Z * Consumer, c_queue p.2 <> queue) m) ++ (if decide (queue = q) then hand q m else []) ≡ₚ hand q m.
Proof.
  induction m as [|id c m Hm IH] using map_ind; [rewrite map_filter_empty; by case_decide|].
  destruct (decide (queue = q)) as [->|Hq]; rewrite !(hand_insert q m id c Hm).
  - trans (hand1 q c ++ (hand q (filter (λ p : Z * Consumer, c_queue p.2 <> q) m) ++ hand q m)); [|by rewrite IH].
    assert (hand q (filter (λ p : Z * Consumer, c_queue p.2 <> q) (<[id := c]> m)) ≡ₚ
            hand q (filter (λ p : Z * Consumer, c_queue p.2 <> q) m)) as ->; [|solve_Permutation].
    destruct (decide (c_queue c = q)) as [Hc|Hc].
    + rewrite map_filter_insert_False by (simpl; naive_solver). by rewrite delete_id.
    + rewrite map_filter_insert_True, hand_insert by (simpl; naive_solver || (apply map_lookup_filter_None; by left)).
      unfold hand1. by rewrite decide_False.
  - rewrite app_nil_r in *. rewrite <-IH. destruct (decide (c_queue c = queue)) as [Hc|Hc].
    + rewrite map_filter_insert_False by (simpl; naive_solver). rewrite delete_id by done.
      unfold hand1. by rewrite decide_False by congruence.
    + rewrite map_filter_insert_True by (simpl; naive_solver). apply hand_insert. apply map_lookup_filter_None. by left.
Qed.

(** *** The account of a queue's in-flight jobs *)

Section Account.
Context {S : Type} `{QueueStore S} (view : S -> StoreData) `{!QueueStoreLaws S view}.

Implicit Types (f : @State S) (q : string) (L : string -> list string).

Definition in_flight q f : list string := ids (entry (inflight (view (store f))) q).

(** Every in-flight job of a queue is in a consumer's hand, on a delivery, or in [L]. *)
Definition account f L : Prop :=
  forall q, in_flight q f ≡ₚ in_hand q f ++ on_delivery q f ++ L q.

Record fresh f : Prop := {
  fresh_delivery : forall id, is_Some (function_deliveries f !! id) -> (id < delivery_counter f)%Z;
  fresh_consumer : forall id, is_Some (function_consumers f !! id) -> (id < consumer_counter f)%Z;
}.

Lemma fresh_delivery_none f : fresh f -> function_deliveries f !! delivery_counter f = None.
Proof. intros [Hd _]. apply eq_None_not_Some. intros Hs%Hd. lia. Qed.

Lemma fresh_consumer_none f : fresh f -> function_consumers f !! consumer_counter f = None.
Proof. intros [_ Hc]. apply eq_None_not_Some. intros Hs%Hc. lia. Qed.

(** The store's answer to a settlement of a job that is in flight. *)
Lemma settled_ids m r d t id q :
  settled_job m = Some (t, id) -> id ∈ ids (entry (inflight d) t) ->
  ids (entry (inflight d) q) ≡ₚ (if decide (t = q) then [id] else []) ++ ids (entry (inflight (apply_at r m d)) q).
Proof.
  intros Hm Hin. rewrite (settle_inflight m r d t id q Hm). destruct (decide (q = t)) as [->|Hq].
  - rewrite decide_True by done. by apply drop_job_perm.
  - by rewrite decide_False.
Qed.

Lemma publish_account e q call f L : account f L -> account (publish_to_function_queue e q call f).2 L.
Proof.
  intros Ha. unfold publish_to_function_queue. destruct (function_queue_configs f !! q); [|done].
  destruct (blank (function_id call)); [done|]. destruct (blank (message_id call)); [done|].
  pose proof (law_enqueue e q (to_value call) (store f)) as Hl. destruct (q_enqueue e q (to_value call) (store f)) as [[i|er] s];
    intros u; specialize (Ha u); unfold in_flight in *; cbn [snd with_store store].
  - destruct Hl as [_ [r ->]]. exact Ha.
  - rewrite Hl. exact Ha.
Qed.

Lemma take_account e id f L : account f L -> account (take_job e id f) L.
Proof.
  intros Ha. unfold take_job. destruct (function_consumers f !! id) as [c|] eqn:Hc; [|done].
  destruct (c_hand c) eqn:Hh; [done|]. case_match; [|done].
  pose proof (law_dequeue e (c_queue c) (store f)) as Hl. destruct (q_dequeue e (c_queue c) (store f)) as [[j|] s].
  - destruct Hl as [Hf [r Hv]]. intros q. specialize (Ha q). unfold in_flight, in_hand, on_delivery in *.
    cbn [with_consumers with_store store function_consumers function_deliveries]. rewrite Hv, (dequeue_inflight _ _ _ _ _ _ Hf), Ha, <-!app_assoc.
    change (hand q (function_consumers f) ++ deliv q (function_deliveries f) ++ L q ++ (if decide (c_queue c = q) then [job_id j] else []) ≡ₚ
      hand q (<[id := mk_consumer (c_queue c) (c_capacity c) (Some j)]> (function_consumers f)) ++ deliv q (function_deliveries f) ++ L q).
    rewrite (hand_delete q _ id c Hc), (hand_replace q _ id c _ Hc). unfold hand1. cbn [c_queue c_hand]. rewrite Hh.
    case_decide; simpl; solve_Permutation.
  - destruct Hl as [_ Hv]. intros q. specialize (Ha q). unfold in_flight in *. cbn [with_store store]. by rewrite Hv.
Qed.

(** A job leaves a hand and its settlement leaves the store. *)
Lemma account_rebalance f f' L L' :
  account f L ->
  (forall q, exists x y, in_hand q f ++ on_delivery q f ++ L q ≡ₚ x ++ y /\
     (in_flight q f ≡ₚ x ++ in_flight q f') /\ in_hand q f' ++ on_delivery q f' ++ L' q ≡ₚ y) ->
  account f' L'.
Proof.
  intros Ha Hx q. destruct (Hx q) as (x & y & H1 & H2 & ->). rewrite (Ha q), H1 in H2.
  by apply Permutation_app_inv_l in H2.
Qed.

Lemma in_flight_settled f f' m r t id q :
  view (store f') = apply_at r m (view (store f)) -> settled_job m = Some (t, id) -> id ∈ in_flight t f ->
  in_flight q f ≡ₚ (if decide (t = q) then [id] else []) ++ in_flight q f'.
Proof. intros Hv Hm Hin. unfold in_flight. rewrite Hv. by apply settled_ids. Qed.

Lemma delivery_in_flight f L id d : account f L -> function_deliveries f !! id = Some d -> job_id (d_job d) ∈ in_flight (d_queue d) f.
Proof.
  intros Ha Hd. rewrite (Ha (d_queue d)). change (on_delivery (d_queue d) f) with (deliv (d_queue d) (function_deliveries f)).
  rewrite (deliv_delete _ _ id d Hd). unfold deliv1. rewrite decide_True by done. set_solver.
Qed.

Lemma hand_in_flight f L id c j :
  account f L -> function_consumers f !! id = Some c -> c_hand c = Some j -> job_id j ∈ in_flight (c_queue c) f.
Proof.
  intros Ha Hc Hj. rewrite (Ha (c_queue c)). change (in_hand (c_queue c) f) with (hand (c_queue c) (function_consumers f)).
  rewrite (hand_delete _ _ id c Hc). unfold hand1. rewrite decide_True, Hj by done. simpl. set_solver.
Qed.

(** A settled delivery leaves the map and the store together. *)
Lemma settle_account f id d s m r L :
  account f L -> function_deliveries f !! id = Some d ->
  view s = apply_at r m (view (store f)) -> settled_job m = Some (d_queue d, job_id (d_job d)) ->
  account (with_deliveries (delete id (function_deliveries f)) (with_store s f)) L.
Proof.
  intros Ha Hd Hv Hm. eapply account_rebalance; [exact Ha|]. intros q.
  exists (deliv1 q d), (in_hand q f ++ deliv q (delete id (function_deliveries f)) ++ L q). split_and!; [|by eapply in_flight_settled, delivery_in_flight|done].
  change (on_delivery q f) with (deliv q (function_deliveries f)). rewrite (deliv_delete q _ id d Hd). solve_Permutation.
Qed.

Lemma ack_account e q id f L : account f L -> account (ack_function_queue e q id f).2 L.
Proof.
  intros Ha. unfold ack_function_queue. destruct (function_deliveries f !! id) as [d|] eqn:Hd; [|done].
  case_bool_decide as Hq; cbn [negb]; [|done]. subst q. destruct (law_ack e (d_queue d) (job_id (d_job d)) (store f)) as [r Hv].
  by eapply settle_account.
Qed.

Lemma nacked_id j max backoff now : job_id (nacked j max backoff now).1 = job_id j.
Proof. unfold nacked. cbv zeta. by destruct (_ <? max)%Z. Qed.

Lemma nack_account e q id n max f L : account f L -> account (nack_function_queue e q id n max f).2 L.
Proof.
  intros Ha. unfold nack_function_queue. destruct (function_deliveries f !! id) as [d|] eqn:Hd; [|done].
  case_bool_decide as Hq; cbn [negb]; [|done]. subst q. cbv zeta. cbn [snd].
  set (j := with_attempts _ (d_job d)). destruct (law_nack e (d_queue d) j (sat_u32 (max + 1)) (d_backoff d) (store f)) as [r Hv].
  eapply settle_account; [done|done|exact Hv|]. cbn [settled_job]. by rewrite nacked_id.
Qed.

Lemma requeue_account e id f L : account f L -> account (requeue_delivery e id f).2 L.
Proof.
  intros Ha. unfold requeue_delivery. destruct (function_deliveries f !! id) as [d|] eqn:Hd; [|done].
  pose proof (law_requeue e (d_queue d) (d_job d) (store f)) as [r Hv].
  destruct (q_requeue e (d_queue d) (d_job d) (store f)) as [res s]. by eapply settle_account.
Qed.

Lemma requeue_all_account e l f L : account f L -> account (requeue_deliveries e l f).2 L.
Proof.
  revert f. induction l as [|id l IH]; intros f Ha; cbn [requeue_deliveries]; [done|].
  pose proof (requeue_account (e id) id f L Ha) as Ha1. destruct (requeue_delivery (e id) id f) as [errors f1].
  specialize (IH f1 Ha1). by destruct (requeue_deliveries e l f1).
Qed.

Lemma give_back_account e own f L : account f L -> account (give_back e own f).2 L.
Proof.
  intros Ha. unfold give_back. pose proof (requeue_all_account e (deliveries_of own f) f L Ha) as H1.
  by destruct (requeue_deliveries _ _ f).
Qed.

Lemma record_account e id f L : fresh f -> account f L -> account (record_job e id f).2 L.
Proof.
  intros Hfr Ha. unfold record_job. destruct (function_consumers f !! id) as [c|] eqn:Hc; [|done].
  destruct (c_hand c) as [j|] eqn:Hj; [|done].
  destruct (from_value (payload j)) as [call|]; (eapply account_rebalance; [exact Ha|]); intros q; cbn [snd].
  - exists [], (in_hand q f ++ on_delivery q f ++ L q). split_and!; [done|done|].
    unfold in_hand, on_delivery. cbn [function_consumers function_deliveries].
    change (hand q (<[id := mk_consumer (c_queue c) (c_capacity c) None]> (function_consumers f)) ++
      deliv q (<[delivery_counter f := mk_delivery id (c_queue c) j (env_backoff_ms call)]> (function_deliveries f)) ++ L q ≡ₚ
      hand q (function_consumers f) ++ deliv q (function_deliveries f) ++ L q).
    rewrite (hand_delete q _ id c Hc), (hand_replace q _ id c _ Hc), deliv_insert by by apply fresh_delivery_none.
    unfold hand1, deliv1. cbn [c_queue c_hand d_queue d_job]. rewrite Hj. case_decide; simpl; solve_Permutation.
  - pose proof (law_nack e (c_queue c) j 1 0 (store f)) as [r Hv].
    exists (hand1 q c), (hand q (delete id (function_consumers f)) ++ on_delivery q f ++ L q). split_and!.
    + change (in_hand q f) with (hand q (function_consumers f)). rewrite (hand_delete q _ id c Hc). solve_Permutation.
    + unfold hand1. rewrite Hj. eapply in_flight_settled; [exact Hv|cbn [settled_job]; by rewrite nacked_id|by eapply hand_in_flight].
    + unfold in_hand, on_delivery. cbn [with_consumers with_store function_consumers function_deliveries].
      change (hand q (<[id := mk_consumer (c_queue c) (c_capacity c) None]> (function_consumers f)) ++ on_delivery q f ++ L q ≡ₚ
        hand q (delete id (function_consumers f)) ++ on_delivery q f ++ L q).
      rewrite (hand_replace q _ id c _ Hc). unfold hand1. cbn [c_queue c_hand]. by case_decide.
Qed.

Lemma consume_account q prefetch f L : fresh f -> account f L -> account (consume_function_queue q prefetch f).2 L.
Proof.
  intros Hfr Ha. unfold consume_function_queue. case_match; [|done]. intros u. specialize (Ha u). unfold in_flight in *.
  cbn [snd store]. rewrite Ha. unfold in_hand, on_delivery. cbn [function_consumers function_deliveries].
  change (hand u (function_consumers f) ++ on_delivery u f ++ L u ≡ₚ
    hand u (<[consumer_counter f := mk_consumer q (Z.max 1 prefetch) None]> (function_consumers f)) ++ on_delivery u f ++ L u).
  rewrite hand_insert by by apply fresh_consumer_none. unfold hand1. cbn [c_queue c_hand]. by case_decide.
Qed.

(** A stop leaves what its consumers had in hand to nobody. *)
Lemma stop_account e q f L :
  account f L -> account (stop_function_queue_consumer e q f).2 (λ u, (if decide (q = u) then in_hand u f else []) ++ L u).
Proof.
  intros Ha. apply give_back_account. intros u. specialize (Ha u). unfold in_flight in *. cbn [with_consumers store]. rewrite Ha.
  unfold in_hand, on_delivery. cbn [with_consumers function_consumers function_deliveries].
  change (hand u (function_consumers f) ++ on_delivery u f ++ L u ≡ₚ
    hand u (filter (λ p : Z * Consumer, c_queue p.2 <> q) (function_consumers f)) ++ on_delivery u f ++
    (if decide (q = u) then hand u (function_consumers f) else []) ++ L u).
  rewrite <-(hand_filter u q (function_consumers f)) at 1. destruct (decide (q = u)) as [->|]; [solve_Permutation|by rewrite app_nil_r].
Qed.

Lemma closed_account e id f L : account f L -> account (consumer_closed e id f) L.
Proof.
  intros Ha. unfold consumer_closed. destruct (function_consumers f !! id) as [c|] eqn:Hc; [|done].
  destruct (c_hand c) eqn:Hh; [done|]. apply give_back_account. intros u. specialize (Ha u). unfold in_flight in *.
  cbn [with_consumers store]. rewrite Ha. unfold in_hand, on_delivery. cbn [with_consumers function_consumers function_deliveries].
  change (hand u (function_consumers f) ++ on_delivery u f ++ L u ≡ₚ hand u (delete id (function_consumers f)) ++ on_delivery u f ++ L u).
  rewrite (hand_delete u _ id c Hc). unfold hand1. rewrite Hh. by case_decide.
Qed.

Lemma handle_account ev f L : fresh f -> account f L -> account (handle ev f) (λ q, cut_off q ev f ++ L q).
Proof.
  intros Hfr Ha.
  assert (account f (λ q, [] ++ L q)) as Ha' by exact Ha.
  destruct ev as [e q call|q config|q|q prefetch|e id|e id|e q id|e q id n max|e q|e id]; cbn [handle cut_off].
  - by apply publish_account.
  - unfold setup_function_queue. by destruct (validate config q).
  - exact Ha'.
  - by apply consume_account.
  - by apply take_account.
  - by apply record_account.
  - by apply ack_account.
  - by apply nack_account.
  - by apply stop_account.
  - by apply closed_account.
Qed.

(** Counters stay ahead of the ids they gave out. *)
Lemma fresh_sub f f' :
  fresh f -> delivery_counter f' = delivery_counter f -> consumer_counter f' = consumer_counter f ->
  (forall id, is_Some (function_deliveries f' !! id) -> is_Some (function_deliveries f !! id)) ->
  (forall id, is_Some (function_consumers f' !! id) -> is_Some (function_consumers f !! id)) -> fresh f'.
Proof. intros [Hd Hc] H1 H2 H3 H4. split; intros id Hi; rewrite ?H1, ?H2; auto. Qed.

Lemma requeue_all_maps e l f :
  let f' := (requeue_deliveries e l f).2 in
  delivery_counter f' = delivery_counter f /\ consumer_counter f' = consumer_counter f /\
  function_consumers f' = function_consumers f /\ function_queue_configs f' = function_queue_configs f /\
  forall id, function_deliveries f' !! id = if decide (id ∈ l) then None else function_deliveries f !! id.
Proof.
  revert f. induction l as [|x l IH]; intros f; cbn [requeue_deliveries].
  { split_and!; [done..|]. intros id. rewrite decide_False; [done|]. apply not_elem_of_nil. }
  assert (let f1 := (requeue_delivery (e x) x f).2 in
    delivery_counter f1 = delivery_counter f /\ consumer_counter f1 = consumer_counter f /\
    function_consumers f1 = function_consumers f /\ function_queue_configs f1 = function_queue_configs f /\
    forall id, function_deliveries f1 !! id = if decide (id = x) then None else function_deliveries f !! id) as H1.
  { unfold requeue_delivery. destruct (function_deliveries f !! x) as [d|] eqn:Hd.
    - destruct (q_requeue _ _ _ _) as [res s]. cbn. split_and!; [done..|]. intros id. case_decide; subst; by rewrite ?lookup_delete_eq, ?lookup_delete_ne.
    - cbn. split_and!; [done..|]. intros id. by case_decide; subst. }
  destruct (requeue_delivery (e x) x f) as [errors f1]. cbn [snd] in H1. destruct H1 as (H1 & H2 & H3 & H4 & H5).
  specialize (IH f1). destruct (requeue_deliveries e l f1) as [more f2]. cbn [snd] in *. destruct IH as (I1 & I2 & I3 & I4 & I5).
  split_and!; [congruence..|]. intros id. rewrite I5, H5. destruct (decide (id = x)) as [->|Hne].
  - rewrite (decide_True (P := x ∈ x :: l)) by by left. by case_decide.
  - destruct (decide (id ∈ l)) as [Hin|Hin]; [by rewrite decide_True by by right|].
    rewrite decide_False; [done|]. rewrite elem_of_cons. naive_solver.
Qed.

Lemma give_back_fresh e own f : fresh f -> fresh (give_back e own f).2.
Proof.
  intros Hf. unfold give_back. pose proof (requeue_all_maps e (deliveries_of own f) f) as (H1 & H2 & H3 & _ & H5).
  destruct (requeue_deliveries _ _ f) as [errors f1]. cbn [snd] in *. apply (fresh_sub f); try done.
  - intros id. rewrite H5. case_decide; [by intros []|done].
  - by rewrite H3.
Qed.

Lemma handle_fresh ev f : fresh f -> fresh (handle ev f).
Proof.
  intros Hf. destruct ev as [e q call|q config|q|q prefetch|e id|e id|e q id|e q id n max|e q|e id]; cbn [handle].
  - unfold publish_to_function_queue. repeat case_match; by apply (fresh_sub f).
  - unfold setup_function_queue. case_match; by apply (fresh_sub f).
  - by apply (fresh_sub f).
  - unfold consume_function_queue. case_match; [|done]. destruct Hf as [Hd Hc]. split; cbn [snd function_deliveries delivery_counter function_consumers consumer_counter]; [done|].
    intros i. destruct (decide (i = consumer_counter f)) as [->|Hne]; [lia|]. rewrite lookup_insert_ne by done. intros ?%Hc. lia.
  - unfold take_job. destruct (function_consumers f !! id) as [c|] eqn:Hc; [|done]. destruct (c_hand c); [done|]. case_match; [|done].
    destruct (q_dequeue _ _ _) as [[j|] s]; [|by apply (fresh_sub f)]. apply (fresh_sub f); try done.
    intros i. cbn. destruct (decide (i = id)) as [->|Hne]; [by rewrite Hc|by rewrite lookup_insert_ne].
  - unfold record_job. destruct (function_consumers f !! id) as [c|] eqn:Hc; [|done]. destruct (c_hand c); [|done].
    assert (forall i c', is_Some (<[id := c']> (function_consumers f) !! i) -> is_Some (function_consumers f !! i)) as Hsub.
    { intros i c'. destruct (decide (i = id)) as [->|Hne]; [by rewrite Hc|by rewrite lookup_insert_ne]. }
    destruct (from_value _); cbn [snd]; [|apply (fresh_sub f); try done; intros i; apply Hsub].
    destruct Hf as [Hd Hcc]. split; cbn [function_deliveries delivery_counter function_consumers consumer_counter].
    + intros i. destruct (decide (i = delivery_counter f)) as [->|Hne]; [lia|]. rewrite lookup_insert_ne by done. intros ?%Hd. lia.
    + intros i Hi%Hsub. by apply Hcc.
  - unfold ack_function_queue. repeat case_match; try done; apply (fresh_sub f); try done; intros i; cbn; rewrite lookup_delete_is_Some; tauto.
  - unfold nack_function_queue. repeat case_match; try done; apply (fresh_sub f); try done; intros i; cbn; rewrite lookup_delete_is_Some; tauto.
  - apply give_back_fresh. apply (fresh_sub f); try done. intros i. cbn. intros [c Hc]. apply map_lookup_filter_Some in Hc as [Hc _]. by eexists.
  - unfold consumer_closed. repeat case_match; try done. apply give_back_fresh. apply (fresh_sub f); try done. intros i. cbn.
    rewrite lookup_delete_is_Some. tauto.
Qed.

(** *** The order in which deliveries go back *)

(** The jobs of some deliveries on a queue, due now. *)
Definition given_back (e : Z -> Env) (m : gmap Z Delivery) (ids : list Z) (u : string) : list Job :=
  omap (λ id, d ← m !! id; if decide (d_queue d = u) then Some (with_ready (env_now (e id)) (d_job d)) else None) ids.

Lemma given_back_ext e m m' l u : (forall id, id ∈ l -> m !! id = m' !! id) -> given_back e m l u = given_back e m' l u.
Proof.
  intros Hm. unfold given_back. induction l as [|id l IH]; [done|]. cbn. rewrite (Hm id) by by left.
  assert (forall id', id' ∈ l -> m !! id' = m' !! id') as Hl by (intros id' Hin; apply Hm; by right).
  specialize (IH Hl). by case_match; [f_equal|].
Qed.

Lemma given_back_snoc e m l id u : given_back e m (l ++ [id]) u = given_back e m l u ++ given_back e m [id] u.
Proof. unfold given_back. by rewrite omap_app. Qed.

Lemma requeue_one_queue e id f u :
  entry (queues (view (store (requeue_delivery e id f).2))) u =
  given_back (λ _, e) (function_deliveries f) [id] u ++ entry (queues (view (store f))) u.
Proof.
  unfold requeue_delivery, given_back. simpl. destruct (function_deliveries f !! id) as [d|]; [|done]. simpl.
  pose proof (law_requeue e (d_queue d) (d_job d) (store f)) as [r Hv]. destruct (q_requeue e _ _ _) as [res s]. cbn [snd store with_deliveries with_store].
  cbn [snd] in Hv. rewrite Hv. cbn. rewrite entry_insert, remove_inflight_queues.
  destruct (decide (u = d_queue d)) as [->|Hu]; [by rewrite decide_True|by rewrite decide_False].
Qed.

Lemma requeue_one_deliveries e id f id' :
  id' <> id -> function_deliveries (requeue_delivery e id f).2 !! id' = function_deliveries f !! id'.
Proof.
  intros Hne. unfold requeue_delivery. destruct (function_deliveries f !! id) as [d|]; [|done].
  destruct (q_requeue _ _ _ _) as [res s]. cbn. by rewrite lookup_delete_ne.
Qed.

Lemma requeue_all_queue e l f u :
  NoDup l ->
  entry (queues (view (store (requeue_deliveries e l f).2))) u =
  given_back e (function_deliveries f) (rev l) u ++ entry (queues (view (store f))) u.
Proof.
  revert f. induction l as [|id l IH]; intros f Hnd; cbn [requeue_deliveries]; [done|]. apply NoDup_cons in Hnd as [Hid Hnd].
  pose proof (requeue_one_queue (e id) id f u) as H1. pose proof (requeue_one_deliveries (e id) id f) as H2.
  destruct (requeue_delivery (e id) id f) as [errors f1]. cbn [snd] in *. specialize (IH f1 Hnd).
  destruct (requeue_deliveries e l f1) as [more f2]. cbn [snd rev] in *.
  rewrite IH, H1, given_back_snoc, <-app_assoc. f_equal.
  apply given_back_ext. intros id' Hin. apply H2. intros ->. by apply list_elem_of_In, in_rev, list_elem_of_In in Hin.
Qed.

Lemma elem_of_deliveries_of own f id :
  id ∈ deliveries_of own f <-> exists d, function_deliveries f !! id = Some d /\ own (d_consumer d) = true.
Proof.
  unfold deliveries_of. rewrite merge_sort_Permutation, list_elem_of_fmap. split.
  - intros ([i d] & -> & [Ho Hi%elem_of_map_to_list]%list_elem_of_filter). by exists d.
  - intros (d & Hd & Ho). exists (id, d). split; [done|]. apply list_elem_of_filter. split; [done|]. by apply elem_of_map_to_list.
Qed.

Lemma NoDup_deliveries_of own f : NoDup (deliveries_of own f).
Proof.
  unfold deliveries_of. rewrite merge_sort_Permutation.
  eapply sublist_NoDup; [apply (NoDup_fst_map_to_list (function_deliveries f))|apply fmap_sublist, sublist_filter].
Qed.

Lemma sorted_rev (l : list Z) : StronglySorted newest_first l -> NoDup l -> StronglySorted Z.lt (rev l).
Proof.
  intros Hs Hnd. induction Hs as [|x l Hs IH Hx]; simpl; [constructor|]. apply NoDup_cons in Hnd as [Hn Hnd].
  apply StronglySorted_app_2; [|by apply IH|by repeat constructor].
  intros y z Hy ->%list_elem_of_singleton. apply list_elem_of_In, in_rev, list_elem_of_In in Hy.
  rewrite Forall_forall in Hx. specialize (Hx y Hy). unfold newest_first in Hx. assert (y <> x) by (intros ->; done). lia.
Qed.

End Account.
End FunctionQueueRules.

Module FunctionQueueProperties.
Import Queue QueueRules Journal StoreInterface Settings Envelopes FunctionQueues FunctionQueueRules.

Section Laws.
Context {S : Type} `{QueueStore S} (view : S -> StoreData) `{!QueueStoreLaws S view}.

Implicit Types (f : @State S) (q : string).

(** C25: every job that a function queue has in flight is accounted for: after any events it is in
    the hand of a consumer or on exactly one unacknowledged delivery, or it is one of the jobs
    that a stop cut off between taking and recording it; acknowledgements, retries, rejected
    envelopes, closed receivers and stops lose and double nothing else. *)
Theorem in_flight_jobs_are_accounted_for s evs q :
  (forall u, entry (inflight (view s)) u = []) ->
  let f := handle_all evs (new_state s) in
  ids (entry (inflight (view (store f))) q) ≡ₚ in_hand q f ++ on_delivery q f ++ all_cut_off q evs (new_state s).
Proof.
  intros Hs. assert (forall evs f L, fresh f -> account view f L ->
    in_flight view q (handle_all evs f) ≡ₚ in_hand q (handle_all evs f) ++ on_delivery q (handle_all evs f) ++ all_cut_off q evs f ++ L q) as Hall.
  { clear evs. intros evs. induction evs as [|ev evs IH]; intros f L Hf Ha; cbn [handle_all all_cut_off]; [apply Ha|].
    rewrite (IH (handle ev f) (λ u, cut_off u ev f ++ L u)); [solve_Permutation|by apply handle_fresh|by apply handle_account]. }
  cbv zeta. specialize (Hall evs (new_state s) (λ _, [])). unfold in_flight in Hall. rewrite Hall.
  - by rewrite app_nil_r.
  - split; intros id; cbn; rewrite lookup_empty; by intros [].
  - intros u. unfold in_flight. cbn [new_state store]. by rewrite Hs.
Qed.

(** Stopping a queue's consumers gives every unacknowledged delivery of theirs back to the
    front of its queue in the order in which they were delivered, due at once, with the attempts
    they had, ahead of the waiting jobs; other consumers keep theirs. *)
Theorem stop_gives_back_in_order e q f :
  exists ids : list Z,
    StronglySorted Z.lt ids /\
    (forall id, id ∈ ids <-> exists d c, function_deliveries f !! id = Some d /\
       function_consumers f !! d_consumer d = Some c /\ c_queue c = q) /\
    let f' := (stop_function_queue_consumer e q f).2 in
    (forall u, entry (queues (view (store f'))) u =
       given_back e (function_deliveries f) ids u ++ entry (queues (view (store f))) u) /\
    (forall id, function_deliveries f' !! id = if decide (id ∈ ids) then None else function_deliveries f !! id) /\
    (forall id c, function_consumers f' !! id = Some c -> c_queue c <> q).
Proof.
  set (own := λ id, match function_consumers f !! id with Some c => bool_decide (c_queue c = q) | None => false end).
  set (f1 := with_consumers (filter (λ p : Z * Consumer, c_queue p.2 <> q) (function_consumers f)) f).
  assert (forall id, id ∈ rev (deliveries_of own f1) <-> id ∈ deliveries_of own f1) as Hrev
    by (intros id; rewrite !list_elem_of_In, <-in_rev; done).
  exists (rev (deliveries_of own f1)). split; [|split].
  - apply sorted_rev; [apply StronglySorted_merge_sort; apply _|apply NoDup_deliveries_of].
  - intros id. rewrite Hrev, elem_of_deliveries_of. unfold own. cbn. split.
    + intros (d & Hd & Ho). destruct (function_consumers f !! d_consumer d) as [c|] eqn:Hc; [|done].
      apply bool_decide_eq_true in Ho. by exists d, c.
    + intros (d & c & Hd & Hc & Hq). exists d. split; [done|]. rewrite Hc. by apply bool_decide_eq_true.
  - unfold stop_function_queue_consumer. fold own f1. unfold give_back. cbv zeta.
    pose proof (λ u, requeue_all_queue view e (deliveries_of own f1) f1 u (NoDup_deliveries_of own f1)) as Hq.
    pose proof (requeue_all_maps e (deliveries_of own f1) f1) as (_ & _ & Hc & _ & Hd).
    destruct (requeue_deliveries e (deliveries_of own f1) f1) as [errors f2]. cbn [snd] in *. split_and!; [exact Hq| |].
    + intros id. rewrite Hd. by rewrite (decide_ext _ _ _ _ (Hrev id)).
    + intros id c. rewrite Hc. intros [_ Hne]%map_lookup_filter_Some. done.
Qed.

(** A call that was published with its arguments in range reaches a consumer as it was
    published: the job stored at the end of the queue carries it, and whichever consumer takes
    that job sends a message with the same function, data, id, trace context and namespace, and
    records a delivery with the publisher's backoff, under a fresh delivery id. *)
Theorem calls_arrive_as_published e q call f :
  envelope_ok call -> (publish_to_function_queue e q call f).1 = Ok tt ->
  let job := new_job (env_uuid e) (to_value call) (env_now e) in
  entry (queues (view (store (publish_to_function_queue e q call f).2))) q = entry (queues (view (store f))) q ++ [job] /\
  forall f' id c j e', function_consumers f' !! id = Some c -> c_hand c = Some j -> payload j = payload job ->
    let d := delivery_counter f' in
    (record_job e' id f').1 = Some (message_of d (attempts j) call) /\
    function_deliveries (record_job e' id f').2 !! d = Some (mk_delivery id (c_queue c) j (env_backoff_ms call)).
Proof.
  intros Hok Hpub job. split.
  - unfold publish_to_function_queue in *. destruct (function_queue_configs f !! q); [|done].
    destruct (blank (function_id call)); [done|]. destruct (blank (message_id call)); [done|].
    pose proof (law_enqueue e q (to_value call) (store f)) as Hl. destruct (q_enqueue e q _ _) as [[i|er] s]; [|done].
    destruct Hl as [_ [r Hv]]. cbn [snd store with_store]. rewrite Hv. cbn. by rewrite entry_insert, decide_True.
  - intros f' id c j e' Hc Hj Hp d. unfold record_job. rewrite Hc, Hj, Hp. cbn [payload job new_job].
    rewrite (envelope_codec call Hok). cbn. split; [done|]. by rewrite lookup_insert_eq.
Qed.

End Laws.

(** *** What an abort can cut off *)

Definition e0 : Env := mk_env AppendOk "a" 0.
Definition sample_call : FunctionQueueEnvelope := mk_envelope "fn" Null "m1" 3 1000 None None None None.

Section Sample.
#[local] Existing Instance SampleFile.text.
#[local] Existing Instance SharedStore.

(** One job is published and taken; the stop comes before the delivery is recorded. *)
Definition cut_off_run : list (@Event) :=
  [SetUp "q" default_config; Consume "q" 1; PublishCall e0 "q" sample_call; TakeJob e0 1;
   StopConsumers (λ _, e0) "q"; Consume "q" 1; TakeJob e0 2].

(** A stop that aborts a consumer between taking a job and recording its delivery strands the
    job: it is in flight, on no delivery, in no consumer's hand, neither waiting nor dead, and
    a new consumer of the queue finds nothing. *)
Theorem aborted_consumer_strands_its_job :
  let f := handle_all cut_off_run (new_state (mk_shared empty_data None [])) in
  ids (entry (inflight (data (store f))) "q") = ["a"] /\
  entry (queues (data (store f))) "q" = [] /\ entry (dlqs (data (store f))) "q" = [] /\
  in_hand "q" f = [] /\ on_delivery "q" f = [] /\
  all_cut_off "q" cut_off_run (new_state (mk_shared empty_data None [])) = ["a"].
Proof. by vm_compute. Qed.

Lemma in_flight_jobs_are_accounted_for_witness :
  let f := handle_all (take 4 cut_off_run) (new_state (mk_shared empty_data None [])) in
  ids (entry (inflight (data (store f))) "q") ≡ₚ in_hand "q" f ++ on_delivery "q" f ++ [] /\ in_hand "q" f = ["a"].
Proof.
  split; [|by vm_compute].
  apply (in_flight_jobs_are_accounted_for (QueueStoreLaws0 := shared_laws) data (mk_shared empty_data None []) (take 4 cut_off_run) "q").
  intros u. unfold entry. cbn. by rewrite lookup_empty.
Defined.

Lemma stop_gives_back_in_order_witness :
  exists ids : list Z, StronglySorted Z.lt ids /\ 1%Z ∈ ids /\
    let f := handle_all (take 4 cut_off_run ++ [RecordJob e0 1]) (new_state (mk_shared empty_data None [])) in
    entry (queues (data (store (stop_function_queue_consumer (λ _, e0) "q" f).2))) "q" =
      given_back (λ _, e0) (function_deliveries f) ids "q" ++ [].
Proof.
  destruct (stop_gives_back_in_order (QueueStoreLaws0 := shared_laws) data (λ _, e0) "q"
    (handle_all (take 4 cut_off_run ++ [RecordJob e0 1]) (new_state (mk_shared empty_data None [])))) as (l & Hs & Hl & Hq & _).
  exists l. split; [exact Hs|]. split; [|exact (Hq "q")].
  apply Hl. eexists _, _. split; [vm_compute; reflexivity|]. split; vm_compute; reflexivity.
Defined.

Lemma calls_arrive_as_published_witness :
  let f := handle_all (take 4 cut_off_run) (new_state (mk_shared empty_data None [])) in
  (record_job e0 1 f).1 = Some (message_of 1 0 sample_call).
Proof.
  assert (envelope_ok sample_call) as Hok by (split; [by vm_compute|by vm_compute|done]).
  destruct (calls_arrive_as_published (QueueStoreLaws0 := shared_laws) data e0 "q" sample_call
    (handle_all (take 2 cut_off_run) (new_state (mk_shared empty_data None []))) Hok eq_refl) as [_ Hrec].
  refine (proj1 (Hrec (handle_all (take 4 cut_off_run) (new_state (mk_shared empty_data None []))) 1%Z
    (mk_consumer "q" 1 (Some (new_job "a" (to_value sample_call) 0))) (new_job "a" (to_value sample_call) 0) e0 _ _ _)); by vm_compute.
Defined.

End Sample.
End FunctionQueueProperties.
