(* ===== verification/QueueSubscribers.v ===== *)
(** * The subscribers of the queue worker (queue/src/subscribers.rs, on_message.rs)

    Every subscriber is an observer of [queue::on-message].  [Subscribers] keeps one adapter
    subscription per topic and subscription key, shared by the observers of a group, and re-opens
    it toward another member when the one it delivered into leaves.  Module [Specs] is an
    observer's arguments and its key; Module [Subscribers] the registry on top of
    [QueueAdapter.Topics]; [SubscriberProperties] that the two stay in step. *)

From Stdlib Require Import Ascii ZArith Lia.
From S2P Require Import Prelude Json Codec JsonText QueueStore QueueJournal QueueLife QueueAdapter.

(** ** Arguments and keys *)

Module Specs.
Import Topics.

Record SubscriberSpec : Type := mk_spec {
  spec_queue : string;
  spec_max_retries : option Z;
  spec_backoff_ms : option Z;
  queue_config : option SubscriberQueueConfig;
  group : option string;
}.

Record RegisteredSubscriber : Type := mk_registered {
  reg_id : string;
  spec : SubscriberSpec;
}.

(** *** Reading the arguments *)

(** A member with an alias: both at once are a duplicate field. *)
Definition alias (k k' : string) (m : Fields) : option (option Value) :=
  match obj_get k m, obj_get k' m with
  | Some _, Some _ => None
  | Some v, None | None, Some v => Some (Some v)
  | None, None => Some None
  end.

Definition req_alias {A} (k k' : string) (d : Value -> option A) (m : Fields) : option A :=
  o ← alias k k' m; v ← o; d v.

Definition opt_alias {A} (k k' : string) (d : Value -> option A) (m : Fields) : option (option A) :=
  o ← alias k k' m; match o with Some v => dec_opt d v | None => Some None end.

Definition dec_queue_config (v : Value) : option SubscriberQueueConfig :=
  m ← as_object v;
  t ← opt "type" as_str m; r ← opt_alias "max_retries" "maxRetries" (dec_u u32_max) m;
  c ← opt "concurrency" (dec_u u32_max) m; vt ← opt_alias "visibility_timeout" "visibilityTimeout" (dec_u u64_max) m;
  d ← opt_alias "delay_seconds" "delaySeconds" (dec_u u64_max) m; b ← opt_alias "backoff_type" "backoffType" as_str m;
  bd ← opt_alias "backoff_delay_ms" "backoffDelayMs" (dec_u u64_max) m;
  p ← opt_alias "max_priority" "maxPriority" (dec_u 255) m;
  Some (mk_sub_config t r c vt d b bd p).

Definition spec_keys : list string :=
  ["queue"; "topic"; "max_retries"; "maxRetries"; "backoff_ms"; "backoffDelayMs"; "queue_config"; "group"].

(** [parse_args]. *)
Definition parse_args (v : Value) : option SubscriberSpec :=
  m ← strict spec_keys v;
  q ← req_alias "queue" "topic" as_str m; r ← opt_alias "max_retries" "maxRetries" (dec_u u32_max) m;
  b ← opt_alias "backoff_ms" "backoffDelayMs" (dec_u u64_max) m; c ← opt "queue_config" dec_queue_config m;
  g ← opt "group" as_str m;
  Some (mk_spec q r b c g).

(** *** Keys *)

Definition GROUP_KEY_PREFIX : ascii := "@".
Definition SUBSCRIPTION_KEY_ESCAPE : ascii := "\".
Definition OBSERVER_KEY_PREFIX : string := "observer:".

Definition escape_subscription_key_segment (segment : string) : string :=
  replace_char GROUP_KEY_PREFIX "\@" (replace_char SUBSCRIPTION_KEY_ESCAPE "\\" segment).

Definition subscription_key (r : RegisteredSubscriber) : string :=
  match group (spec r) with
  | Some (String c g) => "@" +:+ escape_subscription_key_segment (String c g)
  | _ => OBSERVER_KEY_PREFIX +:+ reg_id r
  end.

(** Explicit top-level fields win over the queue configuration. *)
Definition merged_queue_config (s : SubscriberSpec) : SubscriberQueueConfig :=
  let c := default default_sub_config (queue_config s) in
  mk_sub_config (queue_mode c)
    (match spec_max_retries s with Some n => Some n | None => max_retries c end)
    (concurrency c) (visibility_timeout c) (delay_seconds c) (backoff_type c)
    (match spec_backoff_ms s with Some n => Some n | None => backoff_delay_ms c end)
    (sub_max_priority c).

End Specs.

(** ** The registry *)

Module Subscribers.
Import StoreInterface Topics Specs.

Section WithAdapter.
Context {S : Type} `{QueueStore S}.
(** The orders in which a [HashMap] and a [HashSet] are walked; the last instant of the platform. *)
Context (walk : gmap string RegisteredSubscriber -> list (string * RegisteredSubscriber)).
Context (iter : gset string -> list string) (last_instant : Z).

Record Registry : Type := mk_registry {
  adapter : @Adapter S;
  registrations : gmap string RegisteredSubscriber;
  served_by : gmap (string * string) string;
}.

Inductive RegisterError : Type :=
| InvalidConfig
| AlreadyRegistered (id : string).

Definition key_of (r : RegisteredSubscriber) : string * string := (spec_queue (spec r), subscription_key r).

Definition subscribe_for (r : RegisteredSubscriber) (s : Registry) : Registry :=
  mk_registry
    (subscribe (spec_queue (spec r)) (subscription_key r) (reg_id r) (Some (merged_queue_config (spec r))) (adapter s))
    (registrations s) (<[key_of r := reg_id r]> (served_by s)).

Definition with_registrations (m : gmap string RegisteredSubscriber) (s : Registry) : Registry :=
  mk_registry (adapter s) m (served_by s).

(** A registration with the same topic and key. *)
Definition serving (key : string * string) (m : gmap string RegisteredSubscriber) : option RegisteredSubscriber :=
  snd <$> find (λ p, bool_decide (key_of p.2 = key)) (walk m).

Definition register (r : RegisteredSubscriber) (s : Registry) : result unit RegisterError * Registry :=
  if is_empty (trim (spec_queue (spec r))) then (Err InvalidConfig, s)
  else match registrations s !! reg_id r with
  | Some _ => (Err (AlreadyRegistered (reg_id r)), s)
  | None =>
      let s1 := match serving (key_of r) (registrations s) with Some _ => s | None => subscribe_for r s end in
      (Ok tt, with_registrations (<[reg_id r := r]> (registrations s1)) s1)
  end.

Definition close (r : RegisteredSubscriber) (retain now : Z) (s : Registry) : Registry :=
  mk_registry (unsubscribe last_instant (spec_queue (spec r)) (subscription_key r) retain now (adapter s))
    (registrations s) (served_by s).

Definition unregister (id : string) (retain now : Z) (s : Registry) : Registry :=
  match registrations s !! id with
  | None => s
  | Some r =>
      let s1 := with_registrations (delete id (registrations s)) s in
      match serving (key_of r) (registrations s1) with
      | None =>
          let s2 := close r retain now s1 in
          mk_registry (adapter s2) (registrations s2) (delete (key_of r) (served_by s2))
      | Some next =>
          if bool_decide (served_by s1 !! key_of r = Some (reg_id r)) then subscribe_for next (close r retain now s1)
          else s1
      end
  end.

(** The registrations whose key did not come up before. *)
Fixpoint resubscribe (seen : gset (string * string)) (l : list (string * RegisteredSubscriber)) (s : Registry) : Registry :=
  match l with
  | [] => s
  | (_, r) :: rest =>
      if bool_decide (key_of r ∈ seen) then resubscribe seen rest s
      else resubscribe ({[ key_of r ]} ∪ seen) rest (subscribe_for r s)
  end.

(** Publishes, deliveries, timers and dead-letter operations are traffic.  A swap puts another
    adapter in place, then subscribes every registration to it. *)
Definition swap_adapter (a : @Adapter S) (s : Registry) : Registry :=
  let s1 := mk_registry a (registrations s) (served_by s) in resubscribe ∅ (walk (registrations s1)) s1.

Inductive Request : Type :=
| Register (r : RegisteredSubscriber)
| Unregister (id : string) (retain now : Z)
| Swap (fresh_store : S)
| Traffic (now : Z) (ev : Event).

Definition serve (q : Request) (s : Registry) : Registry :=
  match q with
  | Register r => (register r s).2
  | Unregister id retain now => unregister id retain now s
  | Swap st => swap_adapter (new_adapter st) s
  | Traffic now ev =>
      match ev with
      | Subscribed _ _ _ _ | Unsubscribed _ _ _ => s
      | _ => mk_registry (handle iter last_instant now ev (adapter s)) (registrations s) (served_by s)
      end
  end.

Definition new_registry (st : S) : Registry := mk_registry (new_adapter st) ∅ ∅.

End WithAdapter.
End Subscribers.

(** ** Properties *)

Module SubscriberProperties.
Import StoreInterface Topics Specs Subscribers.

(** *** Keys *)

Fixpoint unescape (s : string) : string :=
  match s with
  | String c rest =>
      if decide (c = SUBSCRIPTION_KEY_ESCAPE) then
        match rest with String d rest' => String d (unescape rest') | EmptyString => "" end
      else String c (unescape rest)
  | EmptyString => ""
  end.

Lemma unescape_escape s : unescape (escape_subscription_key_segment s) = s.
Proof.
  unfold escape_subscription_key_segment. induction s as [|c s IH]; [done|]. cbn [replace_char].
  destruct (decide (SUBSCRIPTION_KEY_ESCAPE = c)) as [He|He].
  - subst c. set (t := replace_char SUBSCRIPTION_KEY_ESCAPE "\\" s) in *.
    change ("\\" +:+ t) with (String "\" (String "\" t)). cbn [replace_char].
    rewrite !decide_False by done. cbn [unescape]. rewrite decide_True by done. by rewrite IH.
  - cbn [replace_char]. destruct (decide (GROUP_KEY_PREFIX = c)) as [Hg|Hg].
    + subst c. set (t := replace_char GROUP_KEY_PREFIX _ _) in *. change ("\@" +:+ t) with (String "\" (String "@" t)).
      cbn [unescape]. rewrite decide_True by done. by rewrite IH.
    + cbn [unescape]. rewrite decide_False by congruence. by rewrite IH.
Qed.

(** Two observers share a subscription exactly when they name the same non-empty group, or,
    outside groups, when they have the same id: escaping a group name reads back, and no group
    meets an observer's own key, whatever the names contain. *)
Theorem subscription_keys_tell_subscribers_apart r1 r2 :
  let grouped r := match group (spec r) with Some "" | None => None | Some g => Some g end in
  subscription_key r1 = subscription_key r2 <->
  match grouped r1, grouped r2 with
  | Some g1, Some g2 => g1 = g2
  | None, None => reg_id r1 = reg_id r2
  | _, _ => False
  end.
Proof.
  cbv zeta. unfold subscription_key.
  assert (forall a b, "@" +:+ escape_subscription_key_segment a = "@" +:+ escape_subscription_key_segment b -> a = b) as Hg.
  { intros a b He. apply (inj (String.append "@")) in He. by rewrite <-(unescape_escape a), He, unescape_escape. }
  assert (forall a b, OBSERVER_KEY_PREFIX +:+ a = OBSERVER_KEY_PREFIX +:+ b -> a = b) as Ho by (intros a b; apply (inj _)).
  destruct (group (spec r1)) as [[|c1 g1]|], (group (spec r2)) as [[|c2 g2]|]; split; intros He;
    try done; try (by apply Ho); try (by rewrite He); by apply Hg.
Qed.

(** *** The registry and the adapter *)

Section Registry.
Context {S : Type} `{QueueStore S}.
Context (walk : gmap string RegisteredSubscriber -> list (string * RegisteredSubscriber)).
Context (iter : gset string -> list string) (last_instant : Z).
Context (walk_all : forall m, walk m ≡ₚ map_to_list m).

Implicit Types (s : @Registry S) (m : gmap string RegisteredSubscriber) (r : RegisteredSubscriber) (key : string * string).

Definition has m key : Prop := exists id r, m !! id = Some r /\ key_of r = key.

(** There is a subscription exactly for every topic and key that a registered observer has; it
    delivers into a registered observer of that topic and key. *)
Record in_step s : Prop := {
  step_ids : forall id r, registrations s !! id = Some r -> reg_id r = id;
  step_subs : forall key, is_Some (subscriptions (adapter s) !! key) <-> has (registrations s) key;
  step_served : forall key p, subscriptions (adapter s) !! key = Some p -> served_by s !! key = Some (subscriber p);
  step_target : forall key id, served_by s !! key = Some id ->
    exists r, registrations s !! id = Some r /\ key_of r = key;
}.

Lemma serving_spec key m :
  match serving walk key m with
  | Some r => exists id, m !! id = Some r /\ key_of r = key
  | None => ~ has m key
  end.
Proof.
  unfold serving. destruct (find _ (walk m)) as [[id r]|] eqn:Hf; simpl.
  - apply find_some in Hf as [Hin Hk]. apply bool_decide_eq_true in Hk. exists id. split; [|done].
    apply list_elem_of_In in Hin. rewrite walk_all in Hin. by apply elem_of_map_to_list.
  - intros (id & r & Hr & Hk). apply elem_of_map_to_list in Hr. rewrite <-walk_all in Hr.
    apply list_elem_of_In, (find_none _ _ Hf), bool_decide_eq_false in Hr. done.
Qed.

Lemma unsubscribe_subscriptions topic id retain now (a : @Adapter S) :
  subscriptions (unsubscribe last_instant topic id retain now a) = delete (topic, id) (subscriptions a).
Proof.
  unfold unsubscribe. destruct (subscriptions a !! (topic, id)) eqn:Hs; destruct (retained a !! (topic, id));
    repeat case_match; try done. by rewrite delete_id.
Qed.

Lemma subscribe_subscriptions r (a : @Adapter S) c :
  subscriptions a !! key_of r = None ->
  subscriptions (subscribe (spec_queue (spec r)) (subscription_key r) (reg_id r) c a) =
  <[key_of r := poller_of (spec_queue (spec r)) (subscription_key r) (reg_id r) c]> (subscriptions a).
Proof. unfold subscribe, key_of. by intros ->. Qed.

Lemma has_insert m r key : m !! reg_id r = None -> has (<[reg_id r := r]> m) key <-> key_of r = key \/ has m key.
Proof.
  intros Hm. split.
  - intros (id & r' & Hr & Hk). destruct (decide (id = reg_id r)) as [->|Hne].
    + rewrite lookup_insert_eq in Hr. injection Hr as <-. by left.
    + rewrite lookup_insert_ne in Hr by done. right. by exists id, r'.
  - intros [Hk|(id & r' & Hr & Hk)]; [exists (reg_id r), r; by rewrite lookup_insert_eq|].
    exists id, r'. rewrite lookup_insert_ne; [done|]. intros <-. by rewrite Hm in Hr.
Qed.

Lemma has_delete m id r key : m !! id = Some r -> key <> key_of r -> has (delete id m) key <-> has m key.
Proof.
  intros Hm Hne. split; intros (i & r' & Hr & Hk).
  - apply lookup_delete_Some in Hr as [_ Hr]. by exists i, r'.
  - exists i, r'. rewrite lookup_delete_ne; [done|]. intros ->. congruence.
Qed.

(** Opening the subscription of a key that has none. *)
Lemma subscribe_for_step m r s :
  registrations s = m -> m !! reg_id r = Some r -> subscriptions (adapter s) !! key_of r = None ->
  (forall key, key <> key_of r -> is_Some (subscriptions (adapter s) !! key) <-> has m key) ->
  (forall id r', m !! id = Some r' -> reg_id r' = id) ->
  (forall key p, subscriptions (adapter s) !! key = Some p -> served_by s !! key = Some (subscriber p)) ->
  (forall key id, key <> key_of r -> served_by s !! key = Some id -> exists r', m !! id = Some r' /\ key_of r' = key) ->
  in_step (subscribe_for r s).
Proof.
  intros Hm Hr Hnone Hsubs Hids Hserved Htarget. split; unfold subscribe_for; cbn [adapter registrations served_by]; rewrite ?Hm, ?subscribe_subscriptions by done.
  - done.
  - intros key. destruct (decide (key = key_of r)) as [->|Hne].
    + rewrite lookup_insert_eq. split; [intros _; by exists (reg_id r), r|by eexists].
    + rewrite lookup_insert_ne by done. by apply Hsubs.
  - intros key p. destruct (decide (key = key_of r)) as [->|Hne].
    + rewrite !lookup_insert_eq. by intros [= <-].
    + rewrite !lookup_insert_ne by done. apply Hserved.
  - intros key id. destruct (decide (key = key_of r)) as [->|Hne].
    + rewrite lookup_insert_eq. intros [= <-]. by exists r.
    + rewrite lookup_insert_ne by done. by apply Htarget.
Qed.

Lemma register_step r s : in_step s -> in_step (register walk r s).2.
Proof.
  intros [Hi Hs Hv Ht]. unfold register. case_match; [by split|].
  destruct (registrations s !! reg_id r) as [r0|] eqn:Hr; [by split|]. cbn [snd].
  pose proof (serving_spec (key_of r) (registrations s)) as Hserv.
  assert (forall id r', <[reg_id r := r]> (registrations s) !! id = Some r' -> reg_id r' = id) as Hi'.
  { intros id r'. destruct (decide (id = reg_id r)) as [->|Hne]; [rewrite lookup_insert_eq; by intros [= <-]|].
    rewrite lookup_insert_ne by done. apply Hi. }
  assert (forall key id, served_by s !! key = Some id -> exists r', <[reg_id r := r]> (registrations s) !! id = Some r' /\ key_of r' = key) as Ht'.
  { intros key id Hk. destruct (Ht key id Hk) as (r' & Hr' & Hk'). exists r'. rewrite lookup_insert_ne; [done|]. intros <-. by rewrite Hr in Hr'. }
  destruct (serving walk (key_of r) (registrations s)) as [r1|].
  - split; cbn [with_registrations adapter registrations served_by]; try done. intros key. rewrite has_insert, <-Hs by done.
    split; [by right|]. intros [<-|?]; [|done]. apply Hs. destruct Hserv as (id & ? & ?). by exists id, r1.
  - change (in_step (subscribe_for r (with_registrations (<[reg_id r := r]> (registrations s)) s))).
    eapply subscribe_for_step; try done; cbn [with_registrations adapter registrations served_by].
    + by rewrite lookup_insert_eq.
    + apply eq_None_not_Some. by rewrite Hs.
    + intros key Hne. rewrite has_insert, Hs by done. naive_solver.
    + intros key id _. apply Ht'.
Qed.

Lemma unregister_step id retain now s : in_step s -> in_step (unregister walk last_instant id retain now s).
Proof.
  intros [Hi Hs Hv Ht]. unfold unregister. destruct (registrations s !! id) as [r|] eqn:Hr; [|by split].
  pose proof (serving_spec (key_of r) (delete id (registrations s))) as Hserv. pose proof (Hi id r Hr) as Hid.
  assert (forall i r', delete id (registrations s) !! i = Some r' -> reg_id r' = i) as Hi'
    by (intros i r' [_ Hl]%lookup_delete_Some; by apply Hi).
  assert (forall key i, key <> key_of r -> served_by s !! key = Some i ->
    exists r', delete id (registrations s) !! i = Some r' /\ key_of r' = key) as Ht'.
  { intros key i Hne Hk. destruct (Ht key i Hk) as (r' & Hr' & Hk'). exists r'. rewrite lookup_delete_ne; [done|]. intros ->. congruence. }
  cbn [with_registrations registrations]. destruct (serving walk (key_of r) (delete id (registrations s))) as [next|].
  - destruct Hserv as (i & Hnext & Hkn). case_bool_decide as Hb; cbn [with_registrations served_by] in Hb.
    + eapply subscribe_for_step; unfold close; cbn [with_registrations adapter registrations served_by]; rewrite ?unsubscribe_subscriptions; try done.
      * by rewrite (Hi' i next Hnext).
      * rewrite Hkn. apply lookup_delete_eq.
      * intros key Hne. rewrite Hkn in Hne. rewrite lookup_delete_ne, Hs by done. symmetry. by eapply has_delete.
      * intros key p [_ Hk]%lookup_delete_Some. by apply Hv.
      * intros key j Hne. rewrite Hkn in Hne. by apply Ht'.
    + split; cbn [with_registrations adapter registrations served_by]; try done.
      * intros key. rewrite Hs. destruct (decide (key = key_of r)) as [->|Hne]; [|symmetry; by eapply has_delete].
        split; intros _; [by exists i, next|]. apply lookup_delete_Some in Hnext as [_ Hnext]. by exists i, next.
      * intros key j Hk. destruct (decide (key = key_of r)) as [->|Hne]; [|by apply Ht'].
        destruct (Ht _ j Hk) as (r' & Hr' & Hk'). exists r'. rewrite lookup_delete_ne; [done|]. intros ->. congruence.
  - split; unfold close; cbn [with_registrations adapter registrations served_by]; rewrite ?unsubscribe_subscriptions; try done.
    + intros key. destruct (decide (key = key_of r)) as [->|Hne].
      * unfold key_of at 1. rewrite lookup_delete_eq. split; [by intros []|done].
      * unfold key_of in Hne. rewrite lookup_delete_ne, Hs by done. symmetry. by eapply has_delete.
    + intros key p [Hne Hk]%lookup_delete_Some. unfold key_of. rewrite lookup_delete_ne by done. by apply Hv.
    + intros key j [Hne Hk]%lookup_delete_Some. by apply Ht'.
Qed.

(** While a new adapter fills: the topics and keys in [seen] have their subscription. *)
Record partly (seen : gset (string * string)) s : Prop := {
  part_ids : forall id r, registrations s !! id = Some r -> reg_id r = id;
  part_subs : forall key, is_Some (subscriptions (adapter s) !! key) <-> key ∈ seen;
  part_served : forall key p, subscriptions (adapter s) !! key = Some p -> served_by s !! key = Some (subscriber p);
  part_target : forall key id, served_by s !! key = Some id ->
    exists r, registrations s !! id = Some r /\ key_of r = key;
}.

Lemma subscribe_for_partly seen r s :
  partly seen s -> registrations s !! reg_id r = Some r -> key_of r ∉ seen ->
  partly ({[ key_of r ]} ∪ seen) (subscribe_for r s).
Proof.
  intros [Hi Hs Hv Ht] Hr Hnew.
  assert (subscriptions (adapter s) !! key_of r = None) as Hnone by (apply eq_None_not_Some; by rewrite Hs).
  split; unfold subscribe_for; cbn [adapter registrations served_by]; rewrite ?subscribe_subscriptions by done; try done.
  - intros key. rewrite lookup_insert_is_Some, Hs. set_unfold. destruct (decide (key_of r = key)); naive_solver.
  - intros key p. destruct (decide (key = key_of r)) as [->|Hne].
    + rewrite !lookup_insert_eq. by intros [= <-].
    + rewrite !lookup_insert_ne by done. apply Hv.
  - intros key id. destruct (decide (key = key_of r)) as [->|Hne].
    + rewrite lookup_insert_eq. intros [= <-]. by exists r.
    + rewrite lookup_insert_ne by done. apply Ht.
Qed.

Lemma resubscribe_step l seen s :
  partly seen s -> (forall p, p ∈ l -> registrations s !! reg_id p.2 = Some p.2) ->
  (forall key, has (registrations s) key <-> key ∈ seen \/ exists p, p ∈ l /\ key_of p.2 = key) ->
  in_step (resubscribe seen l s).
Proof.
  revert seen s. induction l as [|[i r] l IH]; intros seen s Hp Hl Hk; cbn [resubscribe].
  - destruct Hp as [Hi Hs Hv Ht]. split; try done. intros key. rewrite Hs, Hk. split; [by left|].
    intros [?|(p & []%not_elem_of_nil & _)]; done.
  - case_bool_decide as Hin.
    + apply IH; [done|intros p Hin'; apply Hl; by right|]. intros key. rewrite Hk. set_solver.
    + apply IH.
      * apply subscribe_for_partly; [done|apply (Hl (i, r)); by left|done].
      * intros p Hin'. apply (Hl p). by right.
      * intros key. change (registrations (subscribe_for r s)) with (registrations s). rewrite Hk. set_solver.
Qed.

Lemma swap_step st s : in_step s -> in_step (swap_adapter walk (new_adapter st) s).
Proof.
  intros [Hi Hs Hv Ht]. unfold swap_adapter. cbn [registrations]. apply resubscribe_step.
  - split; cbn [adapter registrations served_by new_adapter subscriptions]; try done.
    intros key. rewrite lookup_empty. split; [by intros []|set_solver].
  - intros [i r]. rewrite walk_all, elem_of_map_to_list. cbn. intros Hr. by rewrite (Hi i r Hr).
  - intros key. cbn [registrations]. unfold has. setoid_rewrite walk_all. split.
    + intros (id & r & Hr & Hkey). right. exists (id, r). by rewrite elem_of_map_to_list.
    + intros [?|([id r] & Hr & Hkey)]; [set_solver|]. rewrite elem_of_map_to_list in Hr. by exists id, r.
Qed.

(** Traffic opens and closes no subscription. *)
Lemma traffic_subscriptions now ev (a : @Adapter S) :
  match ev with Subscribed _ _ _ _ | Unsubscribed _ _ _ => True
  | _ => subscriptions (handle iter last_instant now ev a) = subscriptions a end.
Proof.
  destruct ev as [e topic p|?|?|key gen|e cfg|e cfg job ok|e topic|e topic id|e topic id]; cbn [handle]; try done.
  - unfold end_retention. by repeat case_match.
  - unfold poll. by case_match.
  - unfold redrive_dlq. by case_match.
  - unfold redrive_dlq_message. by case_match.
  - unfold discard_dlq_message. by case_match.
Qed.

Lemma serve_step q s : in_step s -> in_step (serve walk iter last_instant q s).
Proof.
  intros Hin. destruct q as [r|id retain now|st|now ev]; cbn [serve].
  - by apply register_step.
  - by apply unregister_step.
  - by apply swap_step.
  - pose proof (traffic_subscriptions now ev (adapter s)) as Hsame.
    destruct Hin as [Hi Hs Hv Ht]. destruct ev; try done; split; cbn [adapter registrations served_by]; rewrite ?Hsame; done.
Qed.

(** C31: whatever registrations, departures, adapter swaps and traffic follow on an empty registry,
    the adapter has a subscription for a topic and key exactly when some registered observer has
    that topic and key, and the subscription delivers into such an observer: no observer is left
    without a consumer, and no message goes to one that left. *)
Theorem every_subscription_serves_a_registered_observer requests st :
  let s := foldl (λ s q, serve walk iter last_instant q s) (new_registry st) requests in
  (forall topic k, is_Some (subscriptions (adapter s) !! (topic, k)) <->
     exists r, registrations s !! reg_id r = Some r /\ spec_queue (spec r) = topic /\ subscription_key r = k) /\
  (forall topic k p, subscriptions (adapter s) !! (topic, k) = Some p ->
     exists r, registrations s !! subscriber p = Some r /\ spec_queue (spec r) = topic /\ subscription_key r = k).
Proof.
  cbv zeta.
  assert (in_step (foldl (λ s q, serve walk iter last_instant q s) (new_registry st) requests)) as [Hi Hs Hv Ht].
  { assert (in_step (new_registry st)) as H0.
    { split; cbn [new_registry adapter registrations served_by new_adapter subscriptions]; intros *; rewrite ?lookup_empty; try done.
      split; [by intros []|intros (id & r & Hr & _)]. by rewrite lookup_empty in Hr. }
    revert H0. generalize (new_registry st). induction requests as [|q qs IH]; intros s Hs; cbn [foldl]; [done|].
    by apply IH, serve_step. }
  split; intros topic k.
  - rewrite Hs. split.
    + intros (id & r & Hr & Hk). exists r. rewrite (Hi _ _ Hr). unfold key_of in Hk. by simplify_eq.
    + intros (r & Hr & Hq & Hk). exists (reg_id r), r. unfold key_of. by rewrite Hq, Hk.
  - intros p Hp. destruct (Ht _ _ (Hv _ _ Hp)) as (r & Hr & Hk). exists r. unfold key_of in Hk. by simplify_eq.
Qed.

End Registry.

(** *** A sample group *)

Section Sample.
Import Queue Journal.

Local Existing Instance SampleFile.text.
Local Existing Instance SharedStore.

Definition observer (id : string) : RegisteredSubscriber :=
  mk_registered id (mk_spec "orders" None None None (Some "billing")).

Definition group_of_two : list (@Request Shared) :=
  [Register (observer "a"); Register (observer "b"); Unregister "a" 1000 5].

Definition served_registry : @Registry Shared :=
  foldl (λ s q, serve map_to_list elements 1000000 q s) (new_registry (mk_shared empty_data None [])) group_of_two.

Lemma every_subscription_serves_a_registered_observer_witness :
  subscriber <$> subscriptions (adapter served_registry) !! ("orders", "@billing") = Some "b" /\
  exists r, registrations served_registry !! "b" = Some r /\ spec_queue (spec r) = "orders" /\ subscription_key r = "@billing".
Proof.
  split; [by vm_compute|].
  destruct (every_subscription_serves_a_registered_observer map_to_list elements 1000000 (λ m, reflexivity _)
    group_of_two (mk_shared empty_data None [])) as [_ Ht].
  destruct (subscriptions (adapter served_registry) !! ("orders", "@billing")) as [p|] eqn:Hp; [|by vm_compute in Hp].
  destruct (Ht "orders" "@billing" p Hp) as (r & Hr & Hq & Hk). exists r.
  assert (subscriber p = "b") as Hb by (vm_compute in Hp; injection Hp as <-; reflexivity).
  rewrite Hb in Hr. done.
Defined.

End Sample.
End SubscriberProperties.
