(* ===== verification/QueueRuntime.v ===== *)
(** * Delivery in the queue worker (queue/src/runtime.rs)

    What the runtime does with one message of a function queue: hold it until its function is
    registered, invoke the function (again after an engine restart, for a queue that allows it),
    and settle the delivery; and how a fifo queue hands its messages to one actor per group.
    The engine and the functions behind it are the interface [Invoker] over a world [W]; a run is
    a value of the monad [Run], which keeps notes of the invocations and the sleeps.  Module
    [Messages] reads a message, [Delivery] delivers one, [Groups] is the dispatcher of
    [run_grouped_fifo] as a step relation. *)

From Stdlib Require Import Ascii ZArith Lia.
From S2P Require Import Prelude Json Codec JsonText QueueStore QueueJournal QueueLife QueueOps QueueAdapter QueueFunctions.

(** ** Reading a message *)

Module Messages.

(** Reals print as [ryu] prints them; [show_float] is its text. *)
Definition number_text (show_float : Z -> string) (n : Number) : string :=
  match n with PosInt z | NegInt z => pretty z | Float bits => show_float bits end.

Definition group_key (show_float : Z -> string) (data : Value) (field : option string) : result string string :=
  match field with
  | None => Err "fifo queue requires message_group_field"
  | Some f =>
      match vget f data with
      | None => Err ("payload is missing message group field '" +:+ f +:+ "'")
      | Some (Str (String c s)) => Ok (String c s)
      | Some (Num n) => Ok (number_text show_float n)
      | Some _ => Err ("message group field '" +:+ f +:+ "' must be a non-empty string or number")
      end
  end.

Definition priority_from_data (data : Value) (field : option string) : option Z :=
  f ← field; v ← vget f data; p ← as_u64 v; if (p <=? Settings.u8_max)%Z then Some p else None.

Definition SCRUBBED : list string := ["iii.tag.kind"; "iii.tag.display_name"].

Definition baggage_key (entry : string) : string := trim (before_char ";" (before_char "=" entry)).

Definition scrub_relevance_tags (header : string) : option string :=
  let kept := filter (λ entry, baggage_key entry ∉ SCRUBBED) (split_char "," header) in
  match kept with [] => None | _ => Some (join "," kept) end.

Definition retry_backoff_ms (base_ms attempt : Z) : Z :=
  Queue.sat_u64 (base_ms * 2 ^ Z.min (Queue.sat_sub attempt 1) 63).

End Messages.

(** ** Delivering one message *)

Module Delivery.
Import Settings Envelopes Messages.

Definition MAX_RESTART_REDELIVERIES : Z := 3.
Definition DEFAULT_NAMESPACE : string := "default".

(** The trace context an invocation continues. *)
Definition TraceContext : Type := option (option string * option string).

(** The trait [Invoker], over the world that answers.  [call_until_lost] is a call raced against
    the loss of the engine connection: it has no answer when the connection went first. *)
Class Invoker (W : Type) : Type := {
  function_available : string -> string -> W -> result bool string * W;
  hands_back_unavailable : bool;
  call_with_timeout : TraceContext -> string -> Value -> Z -> string -> W -> result (option Value) string * W;
  connection_epoch : W -> result (option Z) string * W;
  call_until_lost : Z -> TraceContext -> string -> Value -> Z -> string -> W -> option (result (option Value) string) * W;
}.

Inductive Note : Type :=
| Invoked (attempt : Z) (context : TraceContext)
| Slept (ms : Z).

(** No result is a run whose fuel is spent. *)
Definition Run (W A : Type) : Type := W -> option (A * list Note * W).

#[export] Instance run_ret {W} : MRet (Run W) := λ _ a w, Some (a, [], w).
#[export] Instance run_bind {W} : MBind (Run W) := λ A B k m w,
  match m w with
  | Some (a, notes, w1) => match k a w1 with Some (b, more, w2) => Some (b, notes ++ more, w2) | None => None end
  | None => None
  end.

Definition ask {W A} (op : W -> A * W) : Run W A := λ w, let '(a, w1) := op w in Some (a, [], w1).
Definition note {W} (n : Note) : Run W () := λ w, Some ((), [n], w).
Definition out_of_fuel {W A} : Run W A := λ _, None.

(** How the runtime settles a delivery with its adapter. *)
Inductive Settlement : Type :=
| AckIt
| NackIt (attempt max_retries : Z)
| HandBack.

Section WithInvoker.
Context {W : Type} `{Invoker W}.

(** Between two checks a change of the registry, or a time limit, is waited for. *)
Fixpoint wait_for_function (fuel : nat) (fn ns : string) : Run W bool :=
  match fuel with
  | O => out_of_fuel
  | S fuel' =>
      check ← ask (function_available fn ns);
      match check with
      | Ok true => mret true
      | _ =>
          if hands_back_unavailable then
            again ← ask (function_available fn ns); mret (match again with Ok true => true | _ => false end)
          else wait_for_function fuel' fn ns
      end
  end.

Definition context_of (m : QueueMessage) : TraceContext :=
  let baggage := msg_baggage m ≫= scrub_relevance_tags in
  match msg_traceparent m, baggage with None, None => None | t, b => Some (t, b) end.

Definition namespace_of (m : QueueMessage) : string := default DEFAULT_NAMESPACE (msg_namespace m).

Definition invoke_message (m : QueueMessage) (attempt timeout : Z) : Run W (result (option Value) string) :=
  _ ← note (Invoked attempt (context_of m));
  ask (call_with_timeout (context_of m) (msg_function m) (msg_data m) timeout (namespace_of m)).

(** [while !wait_for_function(..).await {}]. *)
Fixpoint wait_until_back (fuel : nat) (fn ns : string) : Run W () :=
  match fuel with
  | O => out_of_fuel
  | S fuel' => back ← wait_for_function (S fuel') fn ns; if back : bool then mret () else wait_until_back fuel' fn ns
  end.

Definition too_many_restarts (m : QueueMessage) : string :=
  msg_function m +:+ " crossed more than " +:+ pretty MAX_RESTART_REDELIVERIES +:+ " engine restarts in one queue attempt".

(** [rounds] bounds the loop. *)
Fixpoint invoke_checkpointed_message_across_engine_restarts (fuel rounds : nat) (m : QueueMessage) (attempt timeout redeliveries : Z)
  : Run W (result (option Value) string) :=
  match rounds with
  | O => out_of_fuel
  | S rounds' =>
      epoch ← ask connection_epoch;
      match epoch with
      | Err er => mret (Err er)
      | Ok None => invoke_message m attempt timeout
      | Ok (Some baseline) =>
          _ ← note (Invoked attempt (context_of m));
          answer ← ask (call_until_lost baseline (context_of m) (msg_function m) (msg_data m) timeout (namespace_of m));
          match answer with
          | Some r => mret r
          | None =>
              if (MAX_RESTART_REDELIVERIES <=? redeliveries)%Z then mret (Err (too_many_restarts m))
              else
                _ ← wait_until_back fuel (msg_function m) (namespace_of m);
                invoke_checkpointed_message_across_engine_restarts fuel rounds' m attempt timeout (redeliveries + 1)
          end
      end
  end.

(** The rounds one attempt can have. *)
Definition ROUNDS : nat := S (Z.to_nat MAX_RESTART_REDELIVERIES).

Definition invoke_message_with_restart_policy (fuel : nat) (c : FunctionQueueConfig) (m : QueueMessage) (attempt : Z)
  : Run W (result (option Value) string) :=
  if redeliver_on_engine_restart c
  then invoke_checkpointed_message_across_engine_restarts fuel ROUNDS m attempt (timeout_ms c) 0
  else invoke_message m attempt (timeout_ms c).

Definition process_standard_message (fuel : nat) (c : FunctionQueueConfig) (m : QueueMessage) : Run W Settlement :=
  here ← wait_for_function fuel (msg_function m) (namespace_of m);
  if negb here then mret HandBack
  else
    r ← invoke_message_with_restart_policy fuel c m (attempt m);
    mret (if is_ok r then AckIt else NackIt (attempt m) (max_retries c)).

(** [tries] bounds the loop. *)
Fixpoint process_fifo_message (fuel tries : nat) (c : FunctionQueueConfig) (m : QueueMessage) (attempt : Z) : Run W Settlement :=
  match tries with
  | O => out_of_fuel
  | S tries' =>
      here ← wait_for_function fuel (msg_function m) (namespace_of m);
      if negb here then mret HandBack
      else
        r ← invoke_message_with_restart_policy fuel c m attempt;
        if is_ok r then mret AckIt
        else if (max_retries c <=? attempt)%Z then mret (NackIt (max_retries c) (max_retries c))
        else
          let attempt' := Queue.sat_u32 (attempt + 1) in
          _ ← note (Slept (retry_backoff_ms (backoff_ms c) attempt'));
          process_fifo_message fuel tries' c m attempt'
  end.

End WithInvoker.

(** *** The adapter's side *)

Section WithStore.
Context {S : Type} `{StoreInterface.QueueStore S}.

(** Settling with the builtin adapter, which cannot give one delivery back: its
    [release_function_queue] is the trait's, an error that is logged. *)
Definition settle (e : StoreInterface.Env) (queue : string) (id : Z) (s : Settlement) (f : @FunctionQueues.State S) : FunctionQueues.State :=
  match s with
  | AckIt => (FunctionQueues.ack_function_queue e queue id f).2
  | NackIt n max => (FunctionQueues.nack_function_queue e queue id n max f).2
  | HandBack => f
  end.

End WithStore.
End Delivery.

(** ** The groups of a fifo queue *)

Module Groups.
Import Envelopes.

(** A group's actor waits for a message at most a minute.  Once the minute is over it announces
    that it is idle, and its channel still takes messages until the task has ended.  When the receiver of
    the whole queue has closed, the wait is over as soon as the channel is empty. *)
Inductive Phase : Type := Waiting | Working (m : QueueMessage) | TimedOut | Gone.

Record Actor : Type := mk_actor {
  a_group : string;
  a_inbox : list QueueMessage;
  a_phase : Phase;
}.

(** [groups] maps a group to its actor's channel; [idle] is the channel of announcements;
    [refused] are the messages without a group, which are nacked at once, [finished] the ones an
    actor is done with, [dropped] the ones left in a channel when its actor ended. *)
Record Dispatcher : Type := mk_dispatcher {
  groups : gmap string Z;
  actors : gmap Z Actor;
  next_actor : Z;
  idle : list string;
  closing : bool;
  refused : list QueueMessage;
  finished : list QueueMessage;
  dropped : list QueueMessage;
}.

Inductive Label : Type :=
| Received (m : QueueMessage)
| Begun (a : Z)
| Finished (a : Z)
| WaitOver (a : Z)
| Ended (a : Z)
| Announced
| ReceiverClosed.

Definition is_gone (p : Phase) : bool := match p with Gone => true | _ => false end.

Section Dispatch.
Context (group_of : QueueMessage -> result string string).

(** [sender.is_closed()]. *)
Definition is_closed (a : Z) (d : Dispatcher) : bool :=
  match actors d !! a with Some act => is_gone (a_phase act) | None => true end.

Definition with_groups (g : gmap string Z) (d : Dispatcher) : Dispatcher :=
  mk_dispatcher g (actors d) (next_actor d) (idle d) (closing d) (refused d) (finished d) (dropped d).
Definition with_actor (a : Z) (act : Actor) (d : Dispatcher) : Dispatcher :=
  mk_dispatcher (groups d) (<[a := act]> (actors d)) (next_actor d) (idle d) (closing d) (refused d) (finished d) (dropped d).

(** [groups.retain(|_, sender| !sender.is_closed())]. *)
Definition retain_open (d : Dispatcher) : Dispatcher :=
  with_groups (filter (λ p : string * Z, is_closed p.2 d = false) (groups d)) d.

Definition spawn (g : string) (m : QueueMessage) (d : Dispatcher) : Dispatcher :=
  mk_dispatcher (<[g := next_actor d]> (groups d)) (<[next_actor d := mk_actor g [m] Waiting]> (actors d)) (next_actor d + 1)
    (idle d) (closing d) (refused d) (finished d) (dropped d).

Definition receive (m : QueueMessage) (d : Dispatcher) : Dispatcher :=
  match group_of m with
  | Err _ =>
      mk_dispatcher (groups d) (actors d) (next_actor d) (idle d) (closing d) (refused d ++ [m]) (finished d) (dropped d)
  | Ok g =>
      let d1 := retain_open d in
      match groups d1 !! g with
      | Some a =>
          match actors d1 !! a with
          | Some act => with_actor a (mk_actor (a_group act) (a_inbox act ++ [m]) (a_phase act)) d1
          | None => spawn g m d1
          end
      | None => spawn g m d1
      end
  end.

(** One step, if it can happen. *)
Definition step (l : Label) (d : Dispatcher) : option Dispatcher :=
  match l with
  | Received m => if closing d then None else Some (receive m d)
  | Begun a =>
      act ← actors d !! a;
      match a_phase act, a_inbox act with
      | Waiting, m :: rest => Some (with_actor a (mk_actor (a_group act) rest (Working m)) d)
      | _, _ => None
      end
  | Finished a =>
      act ← actors d !! a;
      match a_phase act with
      | Working m =>
          let d1 := with_actor a (mk_actor (a_group act) (a_inbox act) Waiting) d in
          Some (mk_dispatcher (groups d1) (actors d1) (next_actor d1) (idle d1) (closing d1) (refused d1) (finished d1 ++ [m]) (dropped d1))
      | _ => None
      end
  | WaitOver a =>
      act ← actors d !! a;
      match a_phase act, a_inbox act with
      | Waiting, [] =>
          let d1 := with_actor a (mk_actor (a_group act) [] TimedOut) d in
          Some (mk_dispatcher (groups d1) (actors d1) (next_actor d1) (idle d1 ++ [a_group act]) (closing d1) (refused d1) (finished d1) (dropped d1))
      | _, _ => None
      end
  | Ended a =>
      act ← actors d !! a;
      match a_phase act with
      | TimedOut =>
          let d1 := with_actor a (mk_actor (a_group act) [] Gone) d in
          Some (mk_dispatcher (groups d1) (actors d1) (next_actor d1) (idle d1) (closing d1) (refused d1) (finished d1) (dropped d1 ++ a_inbox act))
      | _ => None
      end
  | Announced =>
      match idle d with
      | [] => None
      | g :: rest =>
          let forgotten := match groups d !! g with Some a => is_closed a d | None => false end in
          Some (mk_dispatcher (if forgotten then delete g (groups d) else groups d) (actors d) (next_actor d) rest
                  (closing d) (refused d) (finished d) (dropped d))
      end
  | ReceiverClosed =>
      if closing d then None
      else Some (mk_dispatcher ∅ (actors d) (next_actor d) (idle d) true (refused d) (finished d) (dropped d))
  end.

Definition start : Dispatcher := mk_dispatcher ∅ ∅ 0 [] false [] [] [].

Inductive run : list Label -> Dispatcher -> Prop :=
| run_start : run [] start
| run_step ls l d d' : run ls d -> step l d = Some d' -> run (ls ++ [l]) d'.

(** The messages of a group, of some messages. *)
Definition in_group (g : string) (m : QueueMessage) : bool :=
  match group_of m with Ok g' => bool_decide (g' = g) | Err _ => false end.
Definition of_group (g : string) (l : list QueueMessage) : list QueueMessage := filter (λ m, in_group g m = true) l.

Definition received (ls : list Label) : list QueueMessage :=
  omap (λ l, match l with Received m => Some m | _ => None end) ls.

Definition working (act : Actor) : list QueueMessage := match a_phase act with Working m => [m] | _ => [] end.

End Dispatch.
End Groups.
(** ** Properties of the groups *)

Module GroupRules.
Import Messages Envelopes Groups.

Section Order.
Context (group_of : QueueMessage -> result string string).

Implicit Types (d : Dispatcher) (act : Actor) (g : string) (m : QueueMessage) (rs : list QueueMessage).

Abbreviation of_group := (of_group group_of).
Abbreviation in_group := (in_group group_of).

Definition live act : Prop := is_gone (a_phase act) = false.

Record inv rs d : Prop := {
  inv_next : forall a, is_Some (actors d !! a) -> (a < next_actor d)%Z;
  inv_groups : forall g a, groups d !! g = Some a -> exists act, actors d !! a = Some act /\ a_group act = g;
  inv_live : forall a act, actors d !! a = Some act -> live act -> closing d = false -> groups d !! a_group act = Some a;
  inv_one : forall a b x y, actors d !! a = Some x -> actors d !! b = Some y -> live x -> live y -> a_group x = a_group y -> a = b;
  inv_members : forall a act m, actors d !! a = Some act -> m ∈ working act ++ a_inbox act -> in_group (a_group act) m = true;
  inv_finished : forall g, of_group g (finished d) `sublist_of` of_group g rs;
  inv_order : forall a act, actors d !! a = Some act -> live act ->
    of_group (a_group act) (finished d) ++ working act ++ a_inbox act `sublist_of` of_group (a_group act) rs;
}.

Lemma of_group_snoc g l m : of_group g (l ++ [m]) = of_group g l ++ (if in_group g m then [m] else []).
Proof. unfold Groups.of_group. rewrite filter_app, filter_cons, filter_nil. by destruct (in_group g m). Qed.

Lemma in_group_inj g g' m : in_group g m = true -> in_group g' m = true -> g = g'.
Proof. unfold Groups.in_group. destruct (group_of m); [|done]. rewrite !bool_decide_eq_true. congruence. Qed.

(** What a step needs to keep the invariant, when one actor changes. *)
Lemma inv_actor rs rs' d d' a old new :
  inv rs d -> actors d !! a = Some old -> actors d' = <[a := new]> (actors d) -> a_group new = a_group old ->
  live old -> next_actor d' = next_actor d -> closing d' = closing d ->
  (forall g b, groups d' !! g = Some b -> groups d !! g = Some b) ->
  (forall g b, groups d !! g = Some b -> is_closed b d' = false -> groups d' !! g = Some b) ->
  (forall m, m ∈ working new ++ a_inbox new -> in_group (a_group new) m = true) ->
  (forall g, of_group g (finished d') `sublist_of` of_group g rs') ->
  (forall g, g <> a_group new -> of_group g (finished d') = of_group g (finished d)) ->
  (forall g, of_group g rs `sublist_of` of_group g rs') ->
  (live new -> of_group (a_group new) (finished d') ++ working new ++ a_inbox new `sublist_of` of_group (a_group new) rs') ->
  inv rs' d'.
Proof.
  intros [Hn Hg Hl H1 Hm Hf Ho] Ha Hact Hgr Hlive Hnext Hclos Hsub Hkeep Hmem Hfin Hother Hrs Hord.
  assert (forall b x, actors d' !! b = Some x -> (b = a /\ x = new) \/ (b <> a /\ actors d !! b = Some x)) as Hcase.
  { intros b x. rewrite Hact. destruct (decide (b = a)) as [->|Hne];
      [rewrite lookup_insert_eq; intros [= <-]; by left|rewrite lookup_insert_ne by done; by right]. }
  assert (forall b x, actors d' !! b = Some x -> live x -> exists y, actors d !! b = Some y /\ live y /\ a_group y = a_group x) as Hold.
  { intros b x [[-> ->]|[Hne Hb]]%Hcase Hx; [exists old; auto|by exists x]. }
  split.
  - intros b [x Hb]. rewrite Hnext. apply Hn. destruct (Hcase b x Hb) as [[-> _]|[_ Hb']]; by eexists.
  - intros g b Hb%Hsub. destruct (Hg g b Hb) as (x & Hx & Hgx). destruct (decide (b = a)) as [->|Hne].
    + exists new. rewrite Hact, lookup_insert_eq. simplify_eq. done.
    + exists x. by rewrite Hact, lookup_insert_ne.
  - intros b x Hb Hx Hc. destruct (Hold b x Hb Hx) as (y & Hy & Hly & <-). apply Hkeep; [apply Hl; congruence|].
    unfold is_closed. rewrite Hb. exact Hx.
  - intros b c x y Hb Hc Hx Hy Hxy. destruct (Hold b x Hb Hx) as (x' & ? & ? & ?), (Hold c y Hc Hy) as (y' & ? & ? & ?).
    eapply H1; try done. congruence.
  - intros b x m [[-> ->]|[Hne Hb]]%Hcase; [apply Hmem|by eapply Hm].
  - exact Hfin.
  - intros b x Hb Hx. destruct (Hcase b x Hb) as [[-> ->]|[Hne Hb']]; [by apply Hord|].
    destruct (decide (a_group x = a_group new)) as [Heq|Hng].
    + exfalso. apply Hne. eapply (H1 b a x old); try done. congruence.
    + rewrite Hother by done. etrans; [by apply (Ho b x)|apply Hrs].
Qed.

(** A channel that stays open keeps its place when the closed ones are dropped. *)
Lemma retain_lookup d g a : groups (retain_open d) !! g = Some a <-> groups d !! g = Some a /\ is_closed a d = false.
Proof. unfold retain_open, with_groups. cbn [groups]. by rewrite map_lookup_filter_Some. Qed.

Lemma retain_inv rs d : inv rs d -> inv rs (retain_open d).
Proof.
  intros [Hn Hg Hl H1 Hm Hf Ho]. split; try done.
  - intros g a [Ha _]%retain_lookup. by apply Hg.
  - intros a act Ha Hact Hc. apply retain_lookup. split; [by apply Hl|]. unfold is_closed. cbn in Ha. by rewrite Ha.
Qed.

Lemma spawn_inv rs d g m :
  inv rs d -> in_group g m = true -> closing d = false -> groups d !! g = None ->
  inv (rs ++ [m]) (spawn g m d).
Proof.
  intros [Hn Hg Hl H1 Hm Hf Ho] Hgm Hc Hnone. unfold spawn.
  assert (forall a x, <[next_actor d := mk_actor g [m] Waiting]> (actors d) !! a = Some x ->
    (a = next_actor d /\ x = mk_actor g [m] Waiting) \/ (a <> next_actor d /\ actors d !! a = Some x)) as Hcase.
  { intros a x. destruct (decide (a = next_actor d)) as [->|Hne];
      [rewrite lookup_insert_eq; intros [= <-]; by left|rewrite lookup_insert_ne by done; by right]. }
  assert (forall a x, actors d !! a = Some x -> live x -> a_group x <> g) as Hfree.
  { intros a x Ha Hx <-. by rewrite (Hl a x Ha Hx Hc) in Hnone. }
  split; cbn [groups actors next_actor closing finished].
  - intros a [x Ha]. destruct (Hcase a x Ha) as [[-> _]|[_ Ha']]; [lia|]. specialize (Hn a (mk_is_Some _ _ Ha')). lia.
  - intros g' a. destruct (decide (g' = g)) as [->|Hne].
    + rewrite lookup_insert_eq. intros [= <-]. rewrite lookup_insert_eq. by eexists.
    + rewrite lookup_insert_ne by done. intros Ha. destruct (Hg g' a Ha) as (x & Hx & Hgx). exists x.
      rewrite lookup_insert_ne; [done|]. intros <-. specialize (Hn _ (mk_is_Some _ _ Hx)). lia.
  - intros a x [[-> ->]|[Hne Ha]]%Hcase Hx _; cbn [a_group]; [by rewrite lookup_insert_eq|].
    rewrite lookup_insert_ne by (intros Heq; by apply (Hfree a x Ha Hx)). by apply Hl.
  - intros a b x y [[-> ->]|[Hna Ha]]%Hcase [[-> ->]|[Hnb Hb]]%Hcase Hx Hy Hxy; cbn [a_group] in Hxy; [done| | |by eapply H1].
    + by destruct (Hfree b y Hb Hy).
    + by destruct (Hfree a x Ha Hx).
  - intros a x m' [[-> ->]|[Hne Ha]]%Hcase; [|by eapply Hm]. cbn. by intros ->%list_elem_of_singleton.
  - intros g'. rewrite of_group_snoc. apply sublist_inserts_r, Hf.
  - intros a x [[-> ->]|[Hne Ha]]%Hcase Hx; rewrite of_group_snoc.
    + cbn [a_group working a_phase a_inbox app]. rewrite Hgm. apply sublist_app; [apply Hf|done].
    + apply sublist_inserts_r. by apply (Ho a).
Qed.

Lemma receive_inv rs d m : inv rs d -> closing d = false -> inv (rs ++ [m]) (receive group_of m d).
Proof.
  intros Hi Hc. unfold receive. destruct (group_of m) as [g|er] eqn:Hgm.
  - assert (in_group g m = true) as Hin by (unfold Groups.in_group; rewrite Hgm; by apply bool_decide_eq_true).
    pose proof (retain_inv rs d Hi) as Hi1. assert (closing (retain_open d) = false) as Hc1 by done.
    destruct (groups (retain_open d) !! g) as [a|] eqn:Ha; [|by apply spawn_inv].
    apply retain_lookup in Ha as Hopen. destruct Hopen as [_ Hopen]. unfold is_closed in Hopen.
    change (actors (retain_open d)) with (actors d) in *. destruct (actors d !! a) as [act|] eqn:Hact; [|done].
    destruct (inv_groups _ _ Hi1 g a Ha) as (x & Hx & Hgx). change (actors (retain_open d)) with (actors d) in Hx. simplify_eq.
    eapply (inv_actor rs _ (retain_open d) _ a act (mk_actor (a_group act) (a_inbox act ++ [m]) (a_phase act)) Hi1); try done.
    + intros m'. change (working (mk_actor _ _ _)) with (working act). cbn [a_inbox a_group]. rewrite app_assoc.
      intros [Hin'|Hin'%list_elem_of_singleton]%elem_of_app; [by eapply (inv_members _ _ Hi)|by subst].
    + intros g. rewrite of_group_snoc. apply sublist_inserts_r, (inv_finished _ _ Hi).
    + intros g. rewrite of_group_snoc. by apply sublist_inserts_r.
    + intros _. rewrite of_group_snoc. cbn [a_group a_inbox]. rewrite Hin. change (working (mk_actor _ _ _)) with (working act).
      rewrite !app_assoc. apply sublist_app; [|done]. rewrite <-app_assoc. by apply (inv_order _ _ Hi a).
  - destruct Hi as [Hn Hg Hl H1 Hm Hf Ho].
    assert (forall g, of_group g (rs ++ [m]) = of_group g rs) as Hsame.
    { intros g. rewrite of_group_snoc. unfold Groups.in_group. rewrite Hgm. by rewrite app_nil_r. }
    split; cbn [groups actors next_actor closing finished]; try done; [intros g; rewrite Hsame; apply Hf|].
    intros a x. rewrite Hsame. apply Ho.
Qed.

Definition received_by (l : Label) : list QueueMessage := match l with Received m => [m] | _ => [] end.

Lemma received_snoc ls l : received (ls ++ [l]) = received ls ++ received_by l.
Proof. unfold received. rewrite omap_app. by destruct l. Qed.

(** An actor of [d] that [step] changes. *)
Ltac one_actor Ha Hp :=
  match goal with
  | |- context [actors ?d !! ?a] =>
      destruct (actors d !! a) as [act|] eqn:Ha; [|done]; cbn [mbind option_bind]; destruct (a_phase act) eqn:Hp; try done
  end.

Lemma group_step_inv rs l d d' : inv rs d -> step group_of l d = Some d' -> inv (rs ++ received_by l) d'.
Proof.
  intros Hi. destruct l as [m|a|a|a|a| |]; cbn [step received_by]; rewrite ?app_nil_r.
  - destruct (closing d) eqn:Hc; [done|]. intros [= <-]. by apply receive_inv.
  - one_actor Ha Hp. destruct (a_inbox act) as [|m rest] eqn:Hin; [done|]. intros [= <-].
    pose proof (inv_order _ _ Hi a act Ha) as Hord. unfold live, working in Hord. rewrite Hp, Hin in Hord.
    eapply (inv_actor rs rs d _ a act (mk_actor (a_group act) rest (Working m)) Hi Ha); try done.
    + unfold live. by rewrite Hp.
    + intros m' Hm'. apply (inv_members _ _ Hi a act m' Ha). unfold working. rewrite Hp, Hin. exact Hm'.
    + apply (inv_finished _ _ Hi).
  - one_actor Ha Hp. intros [= <-].
    pose proof (inv_order _ _ Hi a act Ha) as Hord. unfold live, working in Hord. rewrite Hp in Hord. specialize (Hord eq_refl).
    assert (in_group (a_group act) m = true) as Hm
      by (apply (inv_members _ _ Hi a act m Ha); unfold working; rewrite Hp; by left).
    eapply (inv_actor rs rs d _ a act (mk_actor (a_group act) (a_inbox act) Waiting) Hi Ha); try done.
    + unfold live. by rewrite Hp.
    + intros m' Hm'. apply (inv_members _ _ Hi a act m' Ha). apply elem_of_app. by right.
    + intros g. cbn [finished with_actor]. rewrite of_group_snoc. destruct (in_group g m) eqn:Hgm.
      * rewrite (in_group_inj _ _ _ Hgm Hm). etrans; [|exact Hord]. rewrite app_assoc. by apply sublist_inserts_r.
      * rewrite app_nil_r. apply (inv_finished _ _ Hi).
    + intros g Hg. cbn [finished with_actor]. rewrite of_group_snoc. destruct (in_group g m) eqn:Hgm; [|apply app_nil_r].
      by destruct Hg; eapply in_group_inj.
    + intros _. cbn [finished with_actor a_group a_inbox working a_phase]. rewrite of_group_snoc, Hm, <-app_assoc. exact Hord.
  - one_actor Ha Hp. destruct (a_inbox act) as [|m rest] eqn:Hin; [|done]. intros [= <-].
    eapply (inv_actor rs rs d _ a act (mk_actor (a_group act) [] TimedOut) Hi Ha); try done.
    + unfold live. by rewrite Hp.
    + cbn. intros m Hm. by apply not_elem_of_nil in Hm.
    + apply (inv_finished _ _ Hi).
    + intros _. cbn. rewrite app_nil_r. apply (inv_finished _ _ Hi).
  - one_actor Ha Hp. intros [= <-].
    eapply (inv_actor rs rs d _ a act (mk_actor (a_group act) [] Gone) Hi Ha); try done.
    + unfold live. by rewrite Hp.
    + cbn. intros m Hm. by apply not_elem_of_nil in Hm.
    + apply (inv_finished _ _ Hi).
  - destruct (idle d) as [|g rest]; [done|]. intros [= <-]. destruct Hi as [Hn Hg Hl H1 Hm Hf Ho].
    split; cbn [groups actors next_actor closing finished]; try done.
    + intros g' a Ha. apply Hg. case_match; [|done]. by apply lookup_delete_Some in Ha as [_ Ha].
    + intros a act Ha Hact Hc. case_match eqn:Hf'; [|by apply Hl]. rewrite lookup_delete_ne; [by apply Hl|].
      intros ->. rewrite (Hl a act Ha Hact Hc) in Hf'. unfold is_closed in Hf'. rewrite Ha in Hf'. by rewrite Hact in Hf'.
  - destruct (closing d); [done|]. intros [= <-]. destruct Hi as [Hn Hg Hl H1 Hm Hf Ho]. split; done.
Qed.

Lemma run_inv ls d : run group_of ls d -> inv (received ls) d.
Proof.
  induction 1 as [|ls l d d' Hr IH Hs].
  - split; cbn; try done; intros *. by intros [].
  - rewrite received_snoc. by eapply group_step_inv.
Qed.

(** *** Where the messages are *)

Definition held_by (p : Z * Actor) : list QueueMessage := working p.2 ++ a_inbox p.2.
Definition held d : list QueueMessage := map_to_list (actors d) ≫= held_by.

Lemma held_replace (m : gmap Z Actor) a old new : m !! a = Some old ->
  exists rest, map_to_list m ≫= held_by ≡ₚ held_by (a, old) ++ rest /\ map_to_list (<[a := new]> m) ≫= held_by ≡ₚ held_by (a, new) ++ rest.
Proof.
  intros Ha. exists (map_to_list (delete a m) ≫= held_by). split.
  - by rewrite <-(map_to_list_delete m a old Ha).
  - rewrite <-insert_delete_eq, map_to_list_insert by apply lookup_delete_eq. done.
Qed.

Definition accounted rs d : Prop := rs ≡ₚ refused d ++ finished d ++ dropped d ++ held d.

Lemma receive_accounted rs m d : inv rs d -> accounted rs d -> accounted (rs ++ [m]) (receive group_of m d).
Proof.
  intros Hi Ha. unfold accounted, receive in *. destruct (group_of m) as [g|er].
  - assert (forall d1, actors d1 = actors d -> next_actor d1 = next_actor d -> refused d1 = refused d -> finished d1 = finished d -> dropped d1 = dropped d ->
      rs ++ [m] ≡ₚ refused (spawn g m d1) ++ finished (spawn g m d1) ++ dropped (spawn g m d1) ++ held (spawn g m d1)) as Hspawn.
    { intros d1 Hact Hnext Hr Hfin Hdr. unfold held, spawn. cbn [refused finished dropped actors].
      rewrite map_to_list_insert, Hr, Hfin, Hdr, Hact, Ha.
      - cbn [mbind list_bind]. change (held_by (next_actor d1, mk_actor g [m] Waiting)) with [m]. unfold held. solve_Permutation.
      - apply eq_None_not_Some. rewrite Hact, Hnext. intros Hn%(inv_next _ _ Hi). lia. }
    destruct (groups (retain_open d) !! g) as [a|]; [|by apply Hspawn].
    change (actors (retain_open d)) with (actors d). destruct (actors d !! a) as [act|] eqn:Hact; [|by apply Hspawn].
    unfold held. cbn [refused finished dropped actors with_actor retain_open with_groups].
    destruct (held_replace (actors d) a act (mk_actor (a_group act) (a_inbox act ++ [m]) (a_phase act)) Hact) as (rest & Hold & Hnew).
    rewrite Hnew, Ha. unfold held. rewrite Hold. unfold held_by. cbn [snd a_inbox].
    change (working (mk_actor _ _ _)) with (working act). solve_Permutation.
  - cbn [refused finished dropped]. rewrite Ha. unfold held. cbn [actors]. solve_Permutation.
Qed.

Lemma step_accounted rs l d d' : inv rs d -> accounted rs d -> step group_of l d = Some d' -> accounted (rs ++ received_by l) d'.
Proof.
  intros Hi Ha. destruct l as [m|a|a|a|a| |]; cbn [step received_by]; rewrite ?app_nil_r.
  - destruct (closing d) eqn:Hc; [done|]. intros [= <-]. by apply receive_accounted.
  - one_actor Hact Hp. destruct (a_inbox act) as [|m rest] eqn:Hin; [done|]. intros [= <-]. unfold accounted, held in *.
    destruct (held_replace (actors d) a act (mk_actor (a_group act) rest (Working m)) Hact) as (more & Hold & Hnew).
    cbn [refused finished dropped actors with_actor]. rewrite Hnew, Ha, Hold. unfold held_by, working. cbn [snd a_phase a_inbox]. by rewrite Hp, Hin.
  - one_actor Hact Hp. intros [= <-]. unfold accounted, held in *.
    destruct (held_replace (actors d) a act (mk_actor (a_group act) (a_inbox act) Waiting) Hact) as (more & Hold & Hnew).
    cbn [refused finished dropped actors with_actor]. rewrite Hnew, Ha, Hold. unfold held_by, working. cbn [snd a_phase a_inbox]. rewrite Hp. solve_Permutation.
  - one_actor Hact Hp. destruct (a_inbox act) as [|m rest] eqn:Hin; [|done]. intros [= <-]. unfold accounted, held in *.
    destruct (held_replace (actors d) a act (mk_actor (a_group act) [] TimedOut) Hact) as (more & Hold & Hnew).
    cbn [refused finished dropped actors with_actor]. rewrite Hnew, Ha, Hold. unfold held_by, working. cbn [snd a_phase a_inbox]. by rewrite Hp, Hin.
  - one_actor Hact Hp. intros [= <-]. unfold accounted, held in *.
    destruct (held_replace (actors d) a act (mk_actor (a_group act) [] Gone) Hact) as (more & Hold & Hnew).
    cbn [refused finished dropped actors with_actor]. rewrite Hnew, Ha, Hold. unfold held_by, working. cbn [snd a_phase a_inbox]. rewrite Hp. solve_Permutation.
  - destruct (idle d) as [|g rest]; [done|]. intros [= <-]. exact Ha.
  - destruct (closing d); [done|]. intros [= <-]. exact Ha.
Qed.

Lemma run_accounted ls d : run group_of ls d -> accounted (received ls) d.
Proof.
  induction 1 as [|ls l d d' Hr IH Hs]; [unfold accounted, held; cbn; by rewrite map_to_list_empty|]. rewrite received_snoc. eapply step_accounted; [by apply run_inv| |done]. exact IH.
Qed.

(** C26: the messages of a group are worked on one at a time and in the order they arrived,
    across the actors that come and go: what a group has finished, then what its one live actor
    works on, then what waits for it, is a subsequence of what was received for the group. *)
Theorem groups_keep_their_order ls d :
  run group_of ls d ->
  (forall g, of_group g (finished d) `sublist_of` of_group g (received ls)) /\
  (forall a act, actors d !! a = Some act -> a_phase act <> Gone ->
    of_group (a_group act) (finished d) ++ working act ++ a_inbox act `sublist_of` of_group (a_group act) (received ls) /\
    forall b other, actors d !! b = Some other -> a_phase other <> Gone -> a_group other = a_group act -> b = a).
Proof.
  intros Hi%run_inv. assert (forall act, a_phase act <> Gone -> live act) as Hlive
    by (intros act; unfold live; by destruct (a_phase act)).
  split; [apply (inv_finished _ _ Hi)|]. intros a act Ha Hact. split; [by apply (inv_order _ _ Hi a), Hlive|].
  intros b other Hb Ho Hg. by eapply (inv_one _ _ Hi); eauto.
Qed.

(** Every message the dispatcher has received is refused for want of a group, finished,
    worked on, waiting in a channel, or dropped with the channel of an actor that had stopped
    waiting when the message was sent to it. *)
Theorem received_messages_are_somewhere ls d :
  run group_of ls d -> received ls ≡ₚ refused d ++ finished d ++ dropped d ++ held d.
Proof. apply run_accounted. Qed.

End Order.

(** *** A message in the gap *)

Definition by_session (m : QueueMessage) : result string string := group_key (λ _, "") (msg_data m) (Some "session").

Definition session_call (id : Z) (session : string) : QueueMessage :=
  mk_message id "fn" (json_obj [("session", Str session)]) 0 None None None None.

(** The first message is done, the minute is over, and the second message arrives before the
    actor's task has ended. *)
Definition gap : list Label :=
  [Received (session_call 1 "s"); Begun 0; Finished 0; WaitOver 0; Received (session_call 2 "s"); Ended 0; Announced].

Fixpoint steps (ls : list Label) (d : Dispatcher) : option Dispatcher :=
  match ls with [] => Some d | l :: rest => d' ← step by_session l d; steps rest d' end.

Lemma steps_run ls more d d' : run by_session ls d -> steps more d = Some d' -> run by_session (ls ++ more) d'.
Proof.
  revert ls d. induction more as [|l more IH]; intros ls d Hr; cbn [steps]; [intros [= <-]; by rewrite app_nil_r|].
  destruct (step by_session l d) as [d1|] eqn:Hs; [|done]. cbn [mbind option_bind]. intros Hm.
  change (ls ++ l :: more) with (ls ++ [l] ++ more). rewrite app_assoc. eapply IH; [|done]. by econstructor.
Qed.

(** A message that arrives after its group's actor has stopped waiting and before the
    actor's task has ended is sent into the dying channel and dropped: it is never worked on, and
    its delivery is neither acknowledged nor given back while the consumer runs. *)
Theorem message_in_the_gap_is_dropped :
  exists d, run by_session gap d /\ dropped d = [session_call 2 "s"] /\ finished d = [session_call 1 "s"] /\
    held d = [] /\ refused d = [].
Proof.
  eexists. split; [apply (steps_run [] gap start _); [constructor|by vm_compute]|by vm_compute].
Qed.

Lemma groups_keep_their_order_witness :
  exists d, run by_session gap d /\ of_group by_session "s" (finished d) `sublist_of` of_group by_session "s" (received gap).
Proof.
  destruct (steps gap start) as [d|] eqn:Hs; [|by vm_compute in Hs]. exists d.
  assert (run by_session gap d) as Hr by (apply (steps_run [] gap start); [constructor|exact Hs]).
  split; [exact Hr|]. apply (groups_keep_their_order by_session gap d Hr).
Defined.

Lemma received_messages_are_somewhere_witness :
  exists d, run by_session gap d /\ received gap ≡ₚ refused d ++ finished d ++ dropped d ++ held d.
Proof.
  destruct (steps gap start) as [d|] eqn:Hs; [|by vm_compute in Hs]. exists d.
  assert (run by_session gap d) as Hr by (apply (steps_run [] gap start); [constructor|exact Hs]).
  split; [exact Hr|]. exact (received_messages_are_somewhere by_session gap d Hr).
Defined.

End GroupRules.

(** ** Properties of a delivery *)

Module DeliveryProperties.
Import Settings Envelopes Messages Delivery.

(** *** The backoff *)

(** A fifo queue waits between its in-place attempts exactly as long as the store would
    before it offers a failed job again, for every base and attempt number, except that a base
    of one millisecond stops doubling one step earlier. *)
Theorem fifo_waits_like_the_store base attempt :
  (0 <= base)%Z ->
  retry_backoff_ms base attempt = Queue.exponential_backoff_ms base attempt <-> ~ (base = 1 /\ 64 < attempt)%Z.
Proof.
  intros Hb. unfold retry_backoff_ms. unfold Queue.exponential_backoff_ms, Queue.sat_pow2, Queue.sat_u64, Queue.sat_sub.
  set (n := Z.max 0 (attempt - 1)). assert (0 <= n)%Z as Hn by lia.
  destruct (Z.ltb_spec n 64) as [Hlt|Hge].
  - rewrite (Z.min_l n) by lia. split; [lia|done].
  - rewrite (Z.min_r n) by lia. assert (64 <= attempt - 1)%Z as Ha by lia. unfold u64_max.
    destruct (decide (base = 1)%Z) as [->|H1]; [split; [intros Heq; exfalso; revert Heq; by vm_compute|lia]|].
    split; [lia|intros _]. destruct (decide (base = 0)%Z) as [->|H0]; [done|].
    assert (2 <= base)%Z as H2 by lia. clear -H2. change (2 ^ 63)%Z with 9223372036854775808%Z.
    change (2 ^ 64 - 1)%Z with 18446744073709551615%Z. rewrite !Z.min_r; lia.
Qed.

Lemma fifo_waits_like_the_store_witness : retry_backoff_ms 1000 70 = Queue.exponential_backoff_ms 1000 70.
Proof. apply (fifo_waits_like_the_store 1000 70); lia. Defined.

(** *** Runs *)

Section Runs.
Context {W : Type} `{Invoker W}.

Implicit Types (m : QueueMessage) (c : FunctionQueueConfig) (w : W).

Lemma bind_Some {A B} (r : Run W A) (k : A -> Run W B) w a notes w1 :
  r w = Some (a, notes, w1) ->
  (r ≫= k) w = match k a w1 with Some (b, more, w2) => Some (b, notes ++ more, w2) | None => None end.
Proof. intros Hr. unfold mbind, run_bind. by rewrite Hr. Qed.

Lemma bind_ask {A B} (op : W -> A * W) (k : A -> Run W B) w : (ask op ≫= k) w = k (op w).1 (op w).2.
Proof. unfold mbind, run_bind, ask. destruct (op w) as [a w1]. cbn. by destruct (k a w1) as [[[b more] w2]|]. Qed.

Lemma bind_note {B} (n : Note) (k : () -> Run W B) w :
  (note n ≫= k) w = match k tt w with Some (b, more, w2) => Some (b, n :: more, w2) | None => None end.
Proof. done. Qed.

(** The target of a call is registered within [fuel] checks of any moment. *)
Definition comes_back (fuel : nat) (fn ns : string) : Prop :=
  forall w, exists w', wait_for_function fuel fn ns w = Some (true, [], w').

Lemma back_at_once fuel fn ns w : comes_back fuel fn ns -> exists w', wait_until_back fuel fn ns w = Some ((), [], w').
Proof.
  intros Hb. destruct fuel as [|fuel]; [by destruct (Hb w)|]. destruct (Hb w) as [w' Hw]. exists w'.
  cbn [wait_until_back]. by rewrite (bind_Some _ _ _ _ _ _ Hw).
Qed.

(** An invoker that holds its jobs never gives one back; one that gives them back decides in one
    round. *)
Lemma wait_never_hands_back fuel fn ns w b notes w' :
  hands_back_unavailable = false -> wait_for_function fuel fn ns w = Some (b, notes, w') -> b = true /\ notes = [].
Proof.
  intros Hh. revert w. induction fuel as [|fuel IH]; intros w; [done|]. cbn [wait_for_function]. rewrite bind_ask.
  destruct (function_available fn ns w) as [[[]|] w1]; cbn [fst snd]; rewrite ?Hh; [by intros [= <- <- _]|apply IH|apply IH].
Qed.

Definition invocations (notes : list Note) : list Z := omap (λ n, match n with Invoked a _ => Some a | Slept _ => None end) notes.
Definition sleeps (notes : list Note) : list Z := omap (λ n, match n with Slept ms => Some ms | Invoked _ _ => None end) notes.

Lemma invocations_app a b : invocations (a ++ b) = invocations a ++ invocations b.
Proof. apply omap_app. Qed.
Lemma sleeps_app a b : sleeps (a ++ b) = sleeps a ++ sleeps b.
Proof. apply omap_app. Qed.

(** One attempt ends; it invokes the function at most as often as the engine may restart, and
    once in a queue that does not redeliver. *)
Lemma checkpointed_ends fuel rounds m attempt timeout k w :
  comes_back fuel (msg_function m) (namespace_of m) -> (0 <= k <= MAX_RESTART_REDELIVERIES)%Z ->
  (Z.to_nat (MAX_RESTART_REDELIVERIES - k) < rounds)%nat ->
  exists r notes w' n, invoke_checkpointed_message_across_engine_restarts fuel rounds m attempt timeout k w = Some (r, notes, w') /\
    invocations notes = replicate n attempt /\ sleeps notes = [] /\ (n <= S (Z.to_nat (MAX_RESTART_REDELIVERIES - k)))%nat.
Proof.
  intros Hb. revert k w. induction rounds as [|rounds IH]; intros k w Hk Hr; [lia|].
  cbn [invoke_checkpointed_message_across_engine_restarts]. rewrite bind_ask.
  destruct (connection_epoch w) as [[[baseline|]|er] w1]; cbn [fst snd].
  - rewrite bind_note, bind_ask. destruct (call_until_lost _ _ _ _ _ _ w1) as [[r|] w2]; cbn [fst snd].
    + eexists r, _, w2, 1%nat. split; [done|]. cbn. split_and!; [done|done|lia].
    + destruct (Z.leb_spec MAX_RESTART_REDELIVERIES k) as [Hmax|Hmax].
      * eexists _, _, w2, 1%nat. split; [done|]. cbn. split_and!; [done|done|lia].
      * destruct (back_at_once fuel _ _ w2 Hb) as [w3 Hw3]. rewrite (bind_Some _ _ _ _ _ _ Hw3).
        destruct (IH (k + 1)%Z w3) as (r & notes & w' & n & -> & Hi & Hs & Hn); [lia|lia|].
        eexists r, _, w', (S n). split; [done|]. split; [exact (f_equal (cons attempt) Hi)|]. split; [exact Hs|lia].
  - unfold invoke_message. rewrite bind_note. unfold ask.
    destruct (call_with_timeout _ _ _ _ _ w1) as [r w2]. eexists r, _, w2, 1%nat. split; [done|]. cbn. split_and!; [done|done|lia].
  - eexists _, _, w1, 0%nat. split; [done|]. cbn. split_and!; [done|done|lia].
Qed.

Lemma policy_ends fuel c m attempt w :
  comes_back fuel (msg_function m) (namespace_of m) ->
  exists r notes w' n, invoke_message_with_restart_policy fuel c m attempt w = Some (r, notes, w') /\
    invocations notes = replicate n attempt /\ sleeps notes = [] /\
    if redeliver_on_engine_restart c then (n <= ROUNDS)%nat else n = 1%nat.
Proof.
  intros Hb. unfold invoke_message_with_restart_policy. destruct (redeliver_on_engine_restart c).
  - destruct (checkpointed_ends fuel ROUNDS m attempt (timeout_ms c) 0 w Hb) as (r & notes & w' & n & ? & ? & ? & Hn);
      [unfold MAX_RESTART_REDELIVERIES; lia|unfold ROUNDS, MAX_RESTART_REDELIVERIES; lia|]. exists r, notes, w', n. split_and!; try done.
  - unfold invoke_message. rewrite bind_note. unfold ask. destruct (call_with_timeout _ _ _ _ _ w) as [r w2].
    by eexists r, _, w2, 1%nat.
Qed.

(** The attempts of a fifo message from [attempt] on, and the sleeps between them. *)
Definition attempts_from (attempt : Z) (k : nat) : list Z := (λ i, attempt + Z.of_nat i)%Z <$> seq 0 (S k).
Definition sleeps_from (base attempt : Z) (k : nat) : list Z := (λ i, retry_backoff_ms base (attempt + Z.of_nat i + 1)) <$> seq 0 k.

Lemma attempts_from_S attempt k : attempts_from attempt (S k) = attempt :: attempts_from (attempt + 1) k.
Proof.
  unfold attempts_from. change (seq 0 (S (S k))) with (0%nat :: seq 1 (S k)). rewrite fmap_cons, Z.add_0_r. f_equal.
  rewrite <-fmap_S_seq, <-list_fmap_compose. apply list_fmap_ext. intros i x _. cbn [compose]. lia.
Qed.

Lemma sleeps_from_S base attempt k :
  sleeps_from base attempt (S k) = retry_backoff_ms base (attempt + 1) :: sleeps_from base (attempt + 1) k.
Proof.
  unfold sleeps_from. change (seq 0 (S k)) with (0%nat :: seq 1 k). rewrite fmap_cons, Z.add_0_r. f_equal.
  rewrite <-fmap_S_seq, <-list_fmap_compose. apply list_fmap_ext. intros i x _. cbn [compose]. f_equal. lia.
Qed.

Lemma fifo_S fuel tries c m a :
  process_fifo_message fuel (S tries) c m a =
  (wait_for_function fuel (msg_function m) (namespace_of m) ≫= λ here,
   if negb here then mret HandBack
   else invoke_message_with_restart_policy fuel c m a ≫= λ r,
     if is_ok r then mret AckIt
     else if (max_retries c <=? a)%Z then mret (NackIt (max_retries c) (max_retries c))
     else note (Slept (retry_backoff_ms (backoff_ms c) (Queue.sat_u32 (a + 1)))) ≫= λ _,
       process_fifo_message fuel tries c m (Queue.sat_u32 (a + 1))).
Proof. done. Qed.

(** The attempts at a message that are made one after the other, from number [a]: the answer of each,
    once the function is there, in the world the one before left. *)
Inductive tried (fuel : nat) (c : FunctionQueueConfig) (m : QueueMessage) : Z -> W -> list (result (option Value) string) -> W -> Prop :=
| tried_last a w w1 r notes w2 :
    wait_for_function fuel (msg_function m) (namespace_of m) w = Some (true, [], w1) ->
    invoke_message_with_restart_policy fuel c m a w1 = Some (r, notes, w2) -> tried fuel c m a w [r] w2
| tried_again a w w1 e notes w2 rs w' :
    wait_for_function fuel (msg_function m) (namespace_of m) w = Some (true, [], w1) ->
    invoke_message_with_restart_policy fuel c m a w1 = Some (Err e, notes, w2) ->
    tried fuel c m (a + 1) w2 rs w' -> tried fuel c m a w (Err e :: rs) w'.

(** C34: once its function is registered whenever it is waited for, a fifo message is settled in
    place.  Every attempt but the last failed; the message is acknowledged exactly when the last
    one succeeded, and is dead-lettered exactly when it failed, which is when its number has
    reached [max_retries]; it never goes back to the queue.  The k retries sleep for the backoff of
    each attempt, and each attempt invokes the function once, or up to four times when the queue
    re-delivers across engine restarts. *)
Theorem fifo_message_is_settled_in_place fuel c m w :
  comes_back fuel (msg_function m) (namespace_of m) ->
  (0 <= attempt m)%Z -> (max_retries c <= u32_max)%Z ->
  exists s notes w' before r,
    process_fifo_message fuel (S (Z.to_nat (max_retries c - attempt m))) c m (attempt m) w = Some (s, notes, w') /\
    tried fuel c m (attempt m) w (before ++ [r]) w' /\ Forall (λ x, is_ok x = false) before /\
    match r with
    | Ok _ => s = AckIt /\ (length before <= Z.to_nat (max_retries c - attempt m))%nat
    | Err _ => s = NackIt (max_retries c) (max_retries c) /\ length before = Z.to_nat (max_retries c - attempt m)
    end /\
    sleeps notes = sleeps_from (backoff_ms c) (attempt m) (length before) /\
    exists times, length times = S (length before) /\
      invocations notes = concat (zip_with replicate times (attempts_from (attempt m) (length before))) /\
      Forall (λ n, if redeliver_on_engine_restart c then (n <= 4)%nat else n = 1%nat) times.
Proof.
  intros Hb Ha Hm. generalize (attempt m) Ha. clear Ha. intros a Ha.
  remember (Z.to_nat (max_retries c - a)) as tries eqn:Ht. revert a Ha w Ht. induction tries as [|tries IH]; intros a Ha w Ht;
    rewrite fifo_S; destruct (Hb w) as [w1 Hw1]; rewrite (bind_Some _ _ _ _ _ _ Hw1); cbn [negb app];
    destruct (policy_ends fuel c m a w1 Hb) as (r & notes & w2 & n & Hp & Hi & Hs & Hn);
    rewrite (bind_Some _ _ _ _ _ _ Hp); destruct r as [v|e]; cbn [is_ok].
  1-3: eexists _, _, w2, [], _; split; [|split; [by eapply tried_last|]];
    [first [reflexivity|rewrite (proj2 (Z.leb_le _ _)) by lia; reflexivity]|];
    cbn [app length]; rewrite app_nil_r; (split; [done|split; [split; [done|lia]|split; [done|]]]);
    exists [n]; (split; [done|split; [rewrite Hi; cbn; by rewrite app_nil_r, Z.add_0_r|]]);
    (constructor; [by destruct (redeliver_on_engine_restart c)|done]).
  destruct (Z.leb_spec (max_retries c) a) as [Hle|Hlt]; [lia|]. rewrite bind_note.
  assert (Queue.sat_u32 (a + 1) = a + 1)%Z as -> by (unfold Queue.sat_u32; lia).
  destruct (IH (a + 1)%Z ltac:(lia) w2 ltac:(lia)) as (s & more & w' & before & r & -> & Htr & Hf & Hset & Hsl & times & Hlen & Hinv & Hall).
  eexists s, _, w', (Err e :: before), r. split; [done|]. split; [by eapply tried_again|]. split; [by constructor|]. cbn [length].
  split; [destruct r; destruct Hset as [? ?]; (split; [done|lia])|]. split.
  - rewrite sleeps_app, Hs, sleeps_from_S. exact (f_equal (cons _) Hsl).
  - exists (n :: times). split; [cbn; by rewrite Hlen|]. split.
    + rewrite invocations_app, Hi, attempts_from_S. exact (f_equal (app _) Hinv).
    + constructor; [by destruct (redeliver_on_engine_restart c)|done].
Qed.

End Runs.

(** *** Settling with the builtin adapter *)

Section Settling.
Import Queue QueueRules StoreInterface StoreProperties.
Context {S : Type} `{QueueStore S} (view : S -> StoreData) `{!QueueStoreLaws S view}.

(** A settlement does to a delivery's job what the adapter's trait promises: acknowledged, it
    is gone; failed below [max_retries], it is at the back of its queue, due after its backoff;
    failed at or above, it is at the end of the dead letters.  A fifo message, which fails with
    [max_retries] itself, is therefore never put behind the messages that follow it. *)
Theorem settlement_follows_the_contract e q id st (f : @FunctionQueues.State S) d :
  FunctionQueues.function_deliveries f !! id = Some d -> FunctionQueues.d_queue d = q ->
  (0 <= attempts (FunctionQueues.d_job d))%Z ->
  match st with NackIt n max => (0 <= n /\ 0 <= max < u32_max)%Z | _ => True end ->
  let before := view (FunctionQueues.store f) in
  let after := view (FunctionQueues.store (settle e q id st f)) in
  match st with
  | AckIt => entry (queues after) q = entry (queues before) q /\ entry (dlqs after) q = entry (dlqs before) q
  | NackIt n max =>
      let failures := Z.max (attempts (FunctionQueues.d_job d)) n in
      exists j, job_id j = job_id (FunctionQueues.d_job d) /\ payload j = payload (FunctionQueues.d_job d) /\
        attempts j = sat_u32 (failures + 1) /\
        if (failures <? max)%Z then
          ready_at_ms j = sat_u64 (env_now e + exponential_backoff_ms (FunctionQueues.d_backoff d) (failures + 1)) /\
          entry (queues after) q = entry (queues before) q ++ [j] /\ entry (dlqs after) q = entry (dlqs before) q
        else entry (queues after) q = entry (queues before) q /\ entry (dlqs after) q = entry (dlqs before) q ++ [j]
  | HandBack => settle e q id st f = f
  end /\
  (st <> HandBack -> FunctionQueues.function_deliveries (settle e q id st f) !! id = None).
Proof.
  intros Hd Hq Ha Hst. destruct st as [|n max|]; cbn [settle]; cbv zeta.
  - unfold FunctionQueues.ack_function_queue. rewrite Hd, Hq, bool_decide_eq_true_2 by done. cbn [negb snd].
    cbn [FunctionQueues.with_deliveries FunctionQueues.with_store FunctionQueues.store FunctionQueues.function_deliveries].
    split; [|by rewrite lookup_delete_eq]. destruct (law_ack e q (job_id (FunctionQueues.d_job d)) (FunctionQueues.store f)) as [r ->].
    cbn. by rewrite remove_inflight_queues, remove_inflight_dlqs.
  - unfold FunctionQueues.nack_function_queue. rewrite Hd, Hq, bool_decide_eq_true_2 by done. cbn [negb]. cbv zeta. cbn [snd].
    cbn [FunctionQueues.with_deliveries FunctionQueues.with_store FunctionQueues.store FunctionQueues.function_deliveries].
    split; [|by rewrite lookup_delete_eq]. set (fails := Z.max _ n). set (j0 := with_attempts fails _).
    pose proof (nacked_fields j0 (sat_u32 (max + 1)) (FunctionQueues.d_backoff d) (env_now e)) as (Hid & Hpay & Hatt & Hret).
    destruct (law_nack e q j0 (sat_u32 (max + 1)) (FunctionQueues.d_backoff d) (FunctionQueues.store f)) as [r ->].
    exists (nacked j0 (sat_u32 (max + 1)) (FunctionQueues.d_backoff d) (env_now e)).1.
    split; [exact Hid|]. split; [exact Hpay|]. split; [exact Hatt|].
    change (attempts j0) with fails in *. assert (0 <= fails)%Z as Hf by lia.
    assert ((sat_u32 (fails + 1) <? sat_u32 (max + 1)) = (fails <? max))%Z as Hsame.
    { unfold sat_u32. destruct (Z.ltb_spec fails max); [apply Z.ltb_lt|apply Z.ltb_ge]; lia. }
    rewrite Hsame in Hret. rewrite Hret. destruct (Z.ltb_spec fails max) as [Hlt|Hge].
    + cbn. rewrite entry_insert, decide_True by done. rewrite remove_inflight_queues, remove_inflight_dlqs. split_and!; [|done|done].
      unfold nacked. cbv zeta. cbn [attempts with_attempts j0]. rewrite Hsame. cbn [fst ready_at_ms with_ready].
      do 2 f_equal. f_equal. unfold sat_u32. lia.
    + rewrite dead_letter_queues. split; [done|]. cbn. by rewrite entry_insert, decide_True, remove_inflight_dlqs.
  - done.
Qed.

End Settling.

(** *** A function that fails once *)

Section Sample.
Import Queue Journal StoreInterface.

(** The world is the number of calls so far; the function fails at the first. *)
#[local] Instance second_time : Invoker nat := {|
  function_available _ _ w := (Ok true, w);
  hands_back_unavailable := false;
  call_with_timeout _ _ _ _ _ w := (if decide (w = 0%nat) then Err "no" else Ok None, S w);
  connection_epoch w := (Ok None, w);
  call_until_lost _ _ _ _ _ _ w := (None, S w);
|}.

Definition fifo_config : FunctionQueueConfig := mk_fq_config 3 10 1000 "fifo" (Some "session") 500 100 false None None.

Lemma fifo_message_is_settled_in_place_witness :
  comes_back 1 "fn" "default" /\
  process_fifo_message 1 4 fifo_config (GroupRules.session_call 1 "s") 0 0%nat =
    Some (AckIt, [Invoked 0 None; Slept 500; Invoked 1 None], 2%nat) /\
  exists s notes w' before r, process_fifo_message 1 4 fifo_config (GroupRules.session_call 1 "s") 0 0%nat = Some (s, notes, w') /\
    tried 1 fifo_config (GroupRules.session_call 1 "s") 0 0%nat (before ++ [r]) w' /\
    sleeps notes = sleeps_from 500 0 (length before).
Proof.
  assert (comes_back 1 "fn" "default") as Hb by (intros w; by exists w).
  split; [exact Hb|]. split; [by vm_compute|].
  destruct (fifo_message_is_settled_in_place 1 fifo_config (GroupRules.session_call 1 "s") 0%nat Hb) as (s & notes & w' & before & r & Hr & Ht & _ & _ & Hs & _);
    [cbn; lia|by vm_compute|].
  exists s, notes, w', before, r. split; [exact Hr|]. split; [exact Ht|exact Hs].
Defined.

#[local] Existing Instance SampleFile.text.
#[local] Existing Instance SharedStore.

Definition with_delivery : @FunctionQueues.State Shared :=
  FunctionQueues.mk_state (mk_shared empty_data None []) ∅
    {[ 1%Z := FunctionQueues.mk_delivery 1 "q" (new_job "a" Null 0) 500 ]} ∅ 2 1.

Lemma settlement_follows_the_contract_witness :
  let after := data (FunctionQueues.store (settle (mk_env AppendOk "" 5) "q" 1 (NackIt 3 3) with_delivery)) in
  exists j, job_id j = "a" /\ attempts j = 4%Z /\ entry (dlqs after) "q" = [] ++ [j].
Proof.
  destruct (settlement_follows_the_contract data (QueueStoreLaws0 := shared_laws) (mk_env AppendOk "" 5) "q" 1 (NackIt 3 3) with_delivery
    (FunctionQueues.mk_delivery 1 "q" (new_job "a" Null 0) 500)) as [(j & Hid & _ & Hat & Hj) _]; [done|done|cbn; lia|by vm_compute|].
  exists j. split; [exact Hid|]. split; [exact Hat|]. apply Hj.
Defined.

End Sample.
End DeliveryProperties.
