(* ===== verification/QueueControl.v ===== *)
(** * Configuring the queue worker (queue/src/config.rs, runtime.rs)

    The worker's configuration ([QueueSettings]) and the runtime that keeps the consumers of its
    named queues in step with it ([Control]): [queue::define] changes one queue and writes the
    configuration, a configuration change applies a whole one, with or without another adapter;
    both put back what they had when a step fails.  The configuration worker and the adapters
    are the interface [Outside] over a world [W]; any of their calls may fail, and every write to the
    configuration worker, answered or not, is noted in a log.  [ControlRules]
    proves what the steps do to the runtime, [ControlProperties] that both operations commit or
    put back. *)

From Stdlib Require Import Ascii ZArith Lia.
From S2P Require Import Prelude Json Codec JsonText ConfigClient QueueStore QueueJournal QueueLife QueueAdapter QueueFunctions QueueRuntime.

(** ** The configuration *)

Module QueueSettings.
Import Settings.

Definition DEFAULT_ADAPTER : string := "builtin".
Definition DEFAULT_SUBSCRIBER_RETENTION_MS : Z := 30000.

Record AdapterEntry : Type := mk_adapter_entry {
  entry_name : string;
  entry_config : option Value;
}.

Inductive RunJobsIn : Type := Enqueuer | Worker.

Record QueueConfig : Type := mk_config {
  adapter : option AdapterEntry;
  queue_configs : gmap string FunctionQueueConfig;
  run_jobs_in : RunJobsIn;
  subscriber_retention_ms : Z;
}.

#[export] Instance FunctionQueueConfig_eq_dec : EqDecision FunctionQueueConfig.
Proof. solve_decision. Defined.
#[export] Instance RunJobsIn_eq_dec : EqDecision RunJobsIn.
Proof. solve_decision. Defined.

#[export] Instance AdapterEntry_codec : Codec AdapterEntry := {|
  to_value a := json_obj ([("name", Str (entry_name a))] ++ opt_field "config" id (entry_config a));
  from_value v := m ← strict ["name"; "config"] v; n ← req "name" as_str m; c ← opt "config" Some m; Some (mk_adapter_entry n c);
|}.

Definition is_enqueuer (r : RunJobsIn) : bool := match r with Enqueuer => true | Worker => false end.
Definition run_jobs_in_of_name (s : string) : option RunJobsIn :=
  if decide (s = "enqueuer") then Some Enqueuer else if decide (s = "worker") then Some Worker else None.
Definition run_jobs_in_name (r : RunJobsIn) : string := match r with Enqueuer => "enqueuer" | Worker => "worker" end.

#[export] Instance QueueConfig_codec : Codec QueueConfig := {|
  to_value c := json_obj (opt_field "adapter" to_value (adapter c)
    ++ [("queue_configs", enc_map to_value (queue_configs c))]
    ++ (if is_enqueuer (run_jobs_in c) then [] else [("run_jobs_in", Str (run_jobs_in_name (run_jobs_in c)))])
    ++ [("subscriber_retention_ms", enc_u (subscriber_retention_ms c))]);
  from_value v :=
    m ← strict ["adapter"; "queue_configs"; "run_jobs_in"; "subscriber_retention_ms"] v;
    a ← opt "adapter" from_value m; q ← dflt "queue_configs" (dec_map from_value) ∅ m;
    r ← dflt "run_jobs_in" (dec_variant run_jobs_in_of_name) Enqueuer m;
    t ← dflt "subscriber_retention_ms" (dec_u u64_max) DEFAULT_SUBSCRIBER_RETENTION_MS m;
    Some (mk_config a q r t);
|}.

Definition effective_adapter_name (c : QueueConfig) : string :=
  match adapter c with Some a => entry_name a | None => DEFAULT_ADAPTER end.

(** [adapter_identity_name]: the legacy names of the builtin adapter. *)
Definition adapter_identity_name (c : QueueConfig) : string :=
  let n := effective_adapter_name c in if bool_decide (n = "in_memory") || bool_decide (n = "file_based") then "builtin" else n.

(** The first queue, in the order of the names, that is not valid. *)
Fixpoint validate_queues (l : list (string * FunctionQueueConfig)) : result unit string :=
  match l with
  | [] => Ok tt
  | (name, c) :: rest => match Settings.validate c name with Err e => Err e | Ok _ => validate_queues rest end
  end.

Definition validate (c : QueueConfig) : result unit string :=
  match validate_queues (btree_iter (queue_configs c)) with
  | Err e => Err e
  | Ok _ =>
      if bool_decide (run_jobs_in c = Worker) && negb (bool_decide (effective_adapter_name c = "rabbitmq")) then
        Err ("run_jobs_in worker needs the rabbitmq adapter, not '" +:+ effective_adapter_name c +:+ "'")
      else Ok tt
  end.

(** [from_json]; the text of serde's error is left out. *)
Definition from_json (v : Value) : result QueueConfig string :=
  match from_value v with
  | None => Err "invalid queue configuration: "
  | Some c => match validate c with Err e => Err e | Ok _ => Ok c end
  end.

Definition adapter_config_value (c : QueueConfig) : option Value :=
  a ← adapter c; v ← entry_config a; if is_null v then None else Some v.

(** The file-backed configuration a fresh installation starts with. *)
Definition packaged_default (path : string) : QueueConfig :=
  mk_config (Some (mk_adapter_entry DEFAULT_ADAPTER
      (Some (json_obj [("store_method", Str "file_based"); ("file_path", Str path); ("save_interval_ms", enc_u 5000)]))))
    ∅ Enqueuer DEFAULT_SUBSCRIBER_RETENTION_MS.

(** [error.contains(p)]. *)
Fixpoint contains_str (p s : string) : bool :=
  starts_with p s || match s with EmptyString => false | String _ s' => contains_str p s' end.

(** [PartialEq]. *)
Definition entry_eqb (a b : AdapterEntry) : bool :=
  bool_decide (entry_name a = entry_name b) &&
  match entry_config a, entry_config b with Some x, Some y => value_eqb x y | None, None => true | _, _ => false end.

Definition config_eqb (a b : QueueConfig) : bool :=
  match adapter a, adapter b with Some x, Some y => entry_eqb x y | None, None => true | _, _ => false end &&
  bool_decide (queue_configs a = queue_configs b) && bool_decide (run_jobs_in a = run_jobs_in b) &&
  (subscriber_retention_ms a =? subscriber_retention_ms b)%Z.

Definition with_queue (queue : string) (c : FunctionQueueConfig) (q : QueueConfig) : QueueConfig :=
  mk_config (adapter q) (<[queue := c]> (queue_configs q)) (run_jobs_in q) (subscriber_retention_ms q).

End QueueSettings.

(** ** The runtime *)

Module Control.
Import Settings QueueSettings.

Abbreviation Error := string.
Abbreviation Definitions := (gmap string FunctionQueueConfig).

(** The bus, the entry's id, the generated schema, and the adapters, each known by a number. *)
Class Outside (W : Type) : Type := {
  bus : string -> Value -> W -> result Value Client.CallError * W;
  config_id : string;
  default_path : string;
  json_schema : Value;
  setup_function_queue : Z -> string -> FunctionQueueConfig -> W -> result unit Error * W;
  consume_function_queue : Z -> string -> Z -> W -> result unit Error * W;
  stop_function_queue_consumer : Z -> string -> W -> result unit Error * W;
  forget_function_queue : Z -> string -> W -> result unit Error * W;
  shutdown : Z -> W -> W;
  resubscribe_all : Z -> W -> W;
  is_finished : string -> W -> bool;
}.

(** A running consumer: its adapter and the settings it was started with. *)
Record ConsumerHandle : Type := mk_handle { h_adapter : Z; h_config : FunctionQueueConfig }.

(** A write asked of the configuration worker: the function, the configuration, and whether it was
    answered; one that was not may have been carried out all the same. *)
Record Written : Type := mk_written { w_function : string; w_config : QueueConfig; w_answered : bool }.

(** [config] is the live configuration, [written] the writes this runtime has asked for, newest
    last. *)
Record Runtime (W : Type) : Type := mk_runtime {
  config : QueueConfig;
  consumers : gmap string ConsumerHandle;
  current : Z;
  current_name : string;
  written : list Written;
  world : W;
}.
Arguments mk_runtime {W}.
Arguments config {W}.
Arguments consumers {W}.
Arguments current {W}.
Arguments current_name {W}.
Arguments written {W}.
Arguments world {W}.

Definition Ctl (W A : Type) : Type := Runtime W -> A * Runtime W.

#[export] Instance ctl_ret {W} : MRet (Ctl W) := λ _ a r, (a, r).
#[export] Instance ctl_bind {W} : MBind (Ctl W) := λ A B k m r, let '(a, r1) := m r in k a r1.

Section WithOutside.
Context {W : Type} `{Outside W}.

Definition get {A} (f : Runtime W -> A) : Ctl W A := λ r, (f r, r).
Definition call {A} (op : W -> A * W) : Ctl W A := λ r,
  let '(a, w) := op (world r) in (a, mk_runtime (config r) (consumers r) (current r) (current_name r) (written r) w).
Definition set_config (c : QueueConfig) : Ctl W () := λ r,
  (tt, mk_runtime c (consumers r) (current r) (current_name r) (written r) (world r)).
Definition set_consumers (m : gmap string ConsumerHandle) : Ctl W () := λ r,
  (tt, mk_runtime (config r) m (current r) (current_name r) (written r) (world r)).

(** *** The stored configuration (configuration.rs) *)

Definition on_bus : string -> Value -> W -> result Value string * W := Client.call_configuration_with_retry bus.

(** Nothing stored, or [null], is the packaged default. *)
Definition fetch_config (w : W) : result QueueConfig Error * W :=
  match Client.try_get_config_value on_bus config_id w with
  | (Err e, w1) => (Err e, w1)
  | (Ok (Some v), w1) => if is_null v then (Ok (packaged_default default_path), w1) else (from_json v, w1)
  | (Ok None, w1) => (Ok (packaged_default default_path), w1)
  end.

Definition register_config (seed : option QueueConfig) (w : W) : result unit Error * W :=
  Client.ensure_with on_bus
    (json_obj [("id", Str config_id); ("name", Str "Queue");
       ("description", Str "Durable queue worker settings: transport persistence and named function queues.");
       ("schema", json_schema); ("metadata", json_obj [("ui_form", Str "queue")]);
       ("initial_value", to_value (default (packaged_default default_path) seed))]) w.

Definition schema_unavailable (error : Error) : bool := contains_str "SCHEMA_UNAVAILABLE" error.

(** A call that writes [c], with its retries. *)
Definition write {A} (function : string) (c : QueueConfig) (op : W -> result A Error * W) : Ctl W (result A Error) := λ r,
  let '(res, w) := op (world r) in
  (res, mk_runtime (config r) (consumers r) (current r) (current_name r) (written r ++ [mk_written function c (is_ok res)]) w).

(** A configuration worker that has lost the schema gets it again, with [c] as the value to install
    if there is none, and then the value once more. *)
Definition persist_config (c : QueueConfig) : Ctl W (result unit Error) :=
  match validate c with
  | Err e => mret (Err e)
  | Ok _ =>
      let set := write "configuration::set" c (on_bus "configuration::set" (json_obj [("id", Str config_id); ("value", to_value c)])) in
      first ← set;
      match first with
      | Ok _ => mret (Ok tt)
      | Err error =>
          if schema_unavailable error then
            registered ← write "configuration::ensure" c (register_config (Some c));
            match registered with
            | Err e => mret (Err (error +:+ "; configuration schema recovery failed: " +:+ e))
            | Ok _ => again ← set; mret (match again with Ok _ => Ok tt | Err e => Err e end)
            end
          else mret (Err error)
      end
  end.

(** [SwappableAdapter::replace]. *)
Definition replace_adapter (a : Z) (name : string) : Ctl W () := λ r,
  (tt, mk_runtime (config r) (consumers r) a name (written r) (world r)).

(** [?], with the error's context. *)
Definition try_ {A B} (m : Ctl W (result A Error)) (context : Error -> Error) (k : A -> Ctl W (result B Error)) : Ctl W (result B Error) :=
  res ← m; match res with Ok a => k a | Err e => mret (Err (context e)) end.

(** *** One consumer *)

Definition setup_consumer (a : Z) (queue : string) (c : FunctionQueueConfig) : Ctl W (result unit Error) :=
  match Settings.validate c queue with
  | Err e => mret (Err e)
  | Ok _ => call (setup_function_queue a queue c)
  end.

Definition start_consumer (a : Z) (queue : string) (c : FunctionQueueConfig) : Ctl W (result ConsumerHandle Error) :=
  try_ (call (consume_function_queue a queue (concurrency c))) id (λ _, mret (Ok (mk_handle a c))).

(** The task is aborted, then the adapter lets its deliveries go. *)
Definition stop_consumer (a : Z) (queue : string) : Ctl W (result unit Error) := call (stop_function_queue_consumer a queue).

Definition replace_consumer (queue : string) (h : ConsumerHandle) : Ctl W (result unit Error) :=
  m ← get consumers; _ ← set_consumers (delete queue m);
  let install := m' ← get consumers; _ ← set_consumers (<[queue := h]> m'); mret (Ok tt) in
  match m !! queue with
  | None => install
  | Some _ => a ← get current; try_ (stop_consumer a queue) id (λ _, install)
  end.

Definition restore_definition (a : Z) (queue : string) (previous : option FunctionQueueConfig) : Ctl W (result unit Error) :=
  match previous with
  | Some c => setup_consumer a queue c
  | None => call (forget_function_queue a queue)
  end.

(** *** All consumers *)

Fixpoint setup_each (a : Z) (l : list (string * FunctionQueueConfig)) : Ctl W (result unit Error) :=
  match l with
  | [] => mret (Ok tt)
  | (name, c) :: rest => try_ (setup_consumer a name c) id (λ _, setup_each a rest)
  end.
Definition setup_consumers (a : Z) (defs : Definitions) : Ctl W (result unit Error) := setup_each a (btree_iter defs).

(** Stops every queue of a list, whatever fails. *)
Fixpoint stop_each (a : Z) (names : list string) : Ctl W (list Error) :=
  match names with
  | [] => mret []
  | name :: rest =>
      res ← stop_consumer a name; errors ← stop_each a rest;
      mret (match res with Ok _ => errors | Err e => (name +:+ ": " +:+ e) :: errors end)
  end.

Fixpoint start_each (a : Z) (l : list (string * FunctionQueueConfig)) (pending : gmap string ConsumerHandle)
  : Ctl W (result (gmap string ConsumerHandle) Error) :=
  match l with
  | [] => mret (Ok pending)
  | (name, c) :: rest =>
      res ← start_consumer a name c;
      match res with
      | Ok h => start_each a rest (<[name := h]> pending)
      | Err e =>
          errors ← stop_each a (btree_keys pending);
          mret (Err (match errors with [] => e | _ => e +:+ "; partial consumer cleanup failed: " +:+ join "; " errors end))
      end
  end.
Definition start_consumers (a : Z) (defs : Definitions) : Ctl W (result (gmap string ConsumerHandle) Error) :=
  start_each a (btree_iter defs) ∅.

Definition setup_and_start_consumers (a : Z) (defs : Definitions) : Ctl W (result (gmap string ConsumerHandle) Error) :=
  try_ (setup_consumers a defs) id (λ _, start_consumers a defs).

(** Stops the queues of a list up to the first failure. *)
Fixpoint stop_until (a : Z) (names : list string) : Ctl W (result unit Error) :=
  match names with
  | [] => mret (Ok tt)
  | name :: rest => try_ (stop_consumer a name) id (λ _, stop_until a rest)
  end.

Definition replace_all_consumers (pending : gmap string ConsumerHandle) : Ctl W (result unit Error) :=
  previous ← get consumers; _ ← set_consumers pending;
  if decide (previous = ∅) then mret (Ok tt) else a ← get current; stop_until a (btree_keys previous).

Definition stop_all_consumers (a : Z) : Ctl W (result unit Error) :=
  m ← get consumers; _ ← set_consumers ∅; errors ← stop_each a (btree_keys m);
  mret (match errors with [] => Ok tt | _ => Err (join "; " errors) end).

(** Forgets the queues of a list that are not defined in [kept]. *)
Fixpoint forget_missing (a : Z) (names : list string) (kept : Definitions) : Ctl W (result unit Error) :=
  match names with
  | [] => mret (Ok tt)
  | name :: rest =>
      match kept !! name with
      | Some _ => forget_missing a rest kept
      | None => try_ (call (forget_function_queue a name)) id (λ _, forget_missing a rest kept)
      end
  end.

Definition restore_definitions (a : Z) (previous attempted : Definitions) : Ctl W (result unit Error) :=
  try_ (forget_missing a (btree_keys attempted) previous) id (λ _, setup_consumers a previous).

Definition forget_removed_definitions (a : Z) (previous next : Definitions) : Ctl W (result unit Error) :=
  forget_missing a (btree_keys previous) next.

(** *** Updates a transport refuses *)

Definition validate_queue_update (adapter_name queue : string) (previous : option FunctionQueueConfig) (next : FunctionQueueConfig)
  : result unit Error :=
  if bool_decide (adapter_name = "rabbitmq") &&
     match previous with Some p => negb (bool_decide (max_priority p = max_priority next)) | None => false end
  then Err ("RabbitMQ queue '" +:+ queue +:+
    "' max_priority cannot be changed in place; delete and recreate its broker topology first")
  else Ok tt.

Fixpoint validate_updates (adapter_name : string) (previous : Definitions) (l : list (string * FunctionQueueConfig)) : result unit Error :=
  match l with
  | [] => Ok tt
  | (name, c) :: rest =>
      match validate_queue_update adapter_name name (previous !! name) c with
      | Err e => Err e
      | Ok _ => validate_updates adapter_name previous rest
      end
  end.
Definition validate_queue_updates (adapter_name : string) (previous next : Definitions) : result unit Error :=
  validate_updates adapter_name previous (btree_iter next).

Definition result_summary {A} (r : result A Error) : string := match r with Ok _ => "ok" | Err e => e end.

Definition start : Ctl W (result unit Error) :=
  c ← get config; a ← get current;
  try_ (setup_and_start_consumers a (queue_configs c)) id (λ pending, replace_all_consumers pending).

(** *** [queue::define] *)

(** A failed step of [define] after the queue was set up: the adapter's definition is put back. *)
Definition fail_restoring (a : Z) (queue : string) (previous : option FunctionQueueConfig) (message : Error) : Ctl W (result bool Error) :=
  restored ← restore_definition a queue previous;
  mret (Err (match restored with Ok _ => message | Err e => message +:+ "; adapter definition rollback failed: " +:+ e end)).

Definition append_error (label : string) (e : option Error) (message : Error) : Error :=
  match e with Some e => message +:+ label +:+ e | None => message end.

Definition err_of {A} (r : result A Error) : option Error := match r with Ok _ => None | Err e => Some e end.

(** [start_consumer] and [replace_consumer] of the previous definition. *)
Definition restart_previous (a : Z) (queue : string) (previous : FunctionQueueConfig) : Ctl W (option Error) :=
  started ← start_consumer a queue previous;
  match started with
  | Ok h => res ← replace_consumer queue h; mret (err_of res)
  | Err e => mret (Some e)
  end.

(** The old consumer did not stop. *)
Definition undo_stop (a : Z) (queue : string) (previous : option FunctionQueueConfig) (authoritative : QueueConfig) (stop_error : Error)
  : Ctl W (result bool Error) :=
  rollback ← persist_config authoritative;
  restored ← restore_definition a queue previous;
  restart ← (if is_ok restored then
               match previous with Some p => restart_previous a queue p | None => mret None end
             else mret None);
  mret (Err (append_error "; previous consumer restart failed: " restart
    (append_error "; adapter definition rollback failed: " (err_of restored)
    (append_error "; configuration rollback failed: " (err_of rollback)
    ("cannot stop queue '" +:+ queue +:+ "' consumer: " +:+ stop_error))))).

(** The new consumer did not start. *)
Definition undo_start (a : Z) (queue : string) (previous : option FunctionQueueConfig) (authoritative : QueueConfig) (start_error : Error)
  : Ctl W (result bool Error) :=
  rollback ← persist_config authoritative;
  restart ← match previous with
    | Some p => res ← setup_consumer a queue p; match res with Ok _ => restart_previous a queue p | Err e => mret (Some e) end
    | None => res ← restore_definition a queue None; mret (err_of res)
    end;
  mret (Err (append_error "; previous consumer restart failed: " restart
    (append_error "; configuration rollback failed: " (err_of rollback)
    ("cannot start queue '" +:+ queue +:+ "': " +:+ start_error)))).

(** The definition is stored: the queue's consumer is exchanged. *)
Definition commit_definition (a : Z) (queue : string) (c : FunctionQueueConfig) (previous : option FunctionQueueConfig)
    (authoritative next : QueueConfig) : Ctl W (result bool Error) :=
  m ← get consumers; _ ← set_consumers (delete queue m);
  stopped ← match m !! queue with Some _ => stop_consumer a queue | None => mret (Ok tt) end;
  match stopped with
  | Err e => undo_stop a queue previous authoritative e
  | Ok _ =>
      started ← start_consumer a queue c;
      match started with
      | Ok h =>
          _ ← set_config next;
          try_ (replace_consumer queue h) (λ e, "cannot install queue '" +:+ queue +:+ "': " +:+ e) (λ _, mret (Ok true))
      | Err e => undo_start a queue previous authoritative e
      end
  end.

(** A changed definition: nobody else has changed the configuration, and it can be stored. *)
Definition store_definition (a : Z) (queue : string) (c : FunctionQueueConfig) (authoritative : QueueConfig) : Ctl W (result bool Error) :=
  let previous := queue_configs authoritative !! queue in
  fetched ← call fetch_config;
  match fetched with
  | Err e => fail_restoring a queue previous ("cannot recheck queue configuration before defining '" +:+ queue +:+ "': " +:+ e)
  | Ok latest =>
      if negb (config_eqb latest authoritative) then
        fail_restoring a queue previous ("queue configuration changed while defining '" +:+ queue +:+ "'; retry queue::define")
      else
        let next := with_queue queue c authoritative in
        stored ← persist_config next;
        match stored with
        | Err e => fail_restoring a queue previous ("cannot persist queue '" +:+ queue +:+ "' definition: " +:+ e)
        | Ok _ => commit_definition a queue c previous authoritative next
        end
  end.

(** A consumer whose task has ended is stopped first. *)
Definition stop_finished (a : Z) (queue : string) : Ctl W (result unit Error) :=
  m ← get consumers; finished ← get (λ r, is_finished queue (world r));
  match m !! queue with
  | Some _ =>
      if (finished : bool) then
        _ ← set_consumers (delete queue m);
        try_ (stop_consumer a queue) (λ e, "cannot restart finished queue '" +:+ queue +:+ "' consumer: " +:+ e) (λ _, mret (Ok tt))
      else mret (Ok tt)
  | None => mret (Ok tt)
  end.

(** The queue's settings are stored already and its consumer does not run. *)
Definition start_defined (a : Z) (queue : string) (c : FunctionQueueConfig) : Ctl W (result bool Error) :=
  try_ (start_consumer a queue c) (λ e, "cannot start queue '" +:+ queue +:+ "': " +:+ e) (λ h,
  try_ (replace_consumer queue h) (λ e, "cannot install queue '" +:+ queue +:+ "': " +:+ e) (λ _, mret (Ok false))).

(** Whether the definition changed; the name of the queue is trimmed. *)
Definition define (name : string) (c : FunctionQueueConfig) : Ctl W (result bool Error) :=
  let queue := trim name in
  match Settings.validate c queue with
  | Err e => mret (Err e)
  | Ok _ =>
      live ← get config;
      try_ (call fetch_config) (λ e, "cannot read queue configuration: " +:+ e) (λ authoritative,
      if negb (config_eqb live authoritative) then
        mret (Err "queue configuration is still being applied; retry queue::define")
      else
        let changed := negb (bool_decide (queue_configs authoritative !! queue = Some c)) in
        a ← get current;
        try_ (stop_finished a queue) id (λ _,
        m ← get consumers;
        if negb changed && match m !! queue with Some _ => true | None => false end then mret (Ok false)
        else
          adapter_name ← get current_name;
          match validate_queue_update adapter_name queue (queue_configs authoritative !! queue) c with
          | Err e => mret (Err e)
          | Ok _ =>
              try_ (setup_consumer a queue c) (λ e, "cannot define queue '" +:+ queue +:+ "': " +:+ e) (λ _,
              if changed then store_definition a queue c authoritative else start_defined a queue c)
          end))
  end.

(** *** Applying a configuration *)

(** The consumers are started again after a stop that failed; the message has both outcomes. *)
Definition restart_after (a : Z) (defs : Definitions) (starting : Ctl W (result (gmap string ConsumerHandle) Error)) (message : string -> Error)
  : Ctl W (result unit Error) :=
  restart ← starting;
  match restart with
  | Ok pending => try_ (replace_all_consumers pending) id (λ _, mret (Err (message "ok")))
  | Err e => mret (Err (message e))
  end.

Definition restored_or (error : Error) (prefix : string) (started : result (gmap string ConsumerHandle) Error) : Ctl W (result unit Error) :=
  match started with
  | Ok pending => try_ (replace_all_consumers pending) id (λ _, mret (Err error))
  | Err rollback_error =>
      mret (Err (prefix +:+ error +:+ "; previous consumers could not be restored: " +:+ rollback_error))
  end.

Definition swap_adapter (old next : QueueConfig) (new : Z) (name : string) : Ctl W (result unit Error) :=
  old_adapter ← get current;
  try_ (setup_consumers new (queue_configs next)) id (λ _,
  stopped ← stop_all_consumers old_adapter;
  match stopped with
  | Err e =>
      restart_after old_adapter (queue_configs old) (setup_and_start_consumers old_adapter (queue_configs old))
        (λ summary, "cannot stop previous queue consumers before adapter replacement: " +:+ e +:+ "; consumer restart: " +:+ summary)
  | Ok _ =>
      _ ← replace_adapter new name;
      started ← start_consumers new (queue_configs next);
      match started with
      | Ok pending =>
          _ ← set_config next;
          try_ (replace_all_consumers pending) id (λ _,
          _ ← call (λ w, (tt, resubscribe_all new w));
          _ ← call (λ w, (tt, shutdown old_adapter w));
          mret (Ok tt))
      | Err e =>
          _ ← replace_adapter old_adapter (adapter_identity_name old);
          _ ← call (λ w, (tt, shutdown new w));
          rollback ← setup_and_start_consumers old_adapter (queue_configs old);
          restored_or e "queue adapter replacement failed: " rollback
      end
  end).

(** The definitions are put back and the old consumers started, after a failed stop or removal. *)
Definition put_back (a : Z) (old next : QueueConfig) (message : Error) : Ctl W (result unit Error) :=
  restored ← restore_definitions a (queue_configs old) (queue_configs next);
  restart_after a (queue_configs old) (start_consumers a (queue_configs old))
    (λ summary, message +:+ "; definition rollback: " +:+ result_summary restored +:+ "; consumer restart: " +:+ summary).

Definition apply_in_place (old next : QueueConfig) : Ctl W (result unit Error) :=
  a ← get current; name ← get current_name;
  match validate_queue_updates name (queue_configs old) (queue_configs next) with
  | Err e => mret (Err e)
  | Ok _ =>
      set_up ← setup_consumers a (queue_configs next);
      match set_up with
      | Err e =>
          rollback ← restore_definitions a (queue_configs old) (queue_configs next);
          mret (Err (match rollback with
            | Ok _ => e
            | Err e' => "queue configuration setup failed: " +:+ e +:+ "; adapter definition rollback failed: " +:+ e'
            end))
      | Ok _ =>
          stopped ← stop_all_consumers a;
          match stopped with
          | Err e => put_back a old next ("cannot stop previous queue consumers: " +:+ e)
          | Ok _ =>
              forgotten ← forget_removed_definitions a (queue_configs old) (queue_configs next);
              match forgotten with
              | Err e => put_back a old next ("cannot remove stale queue definitions: " +:+ e)
              | Ok _ =>
                  started ← start_consumers a (queue_configs next);
                  match started with
                  | Ok pending => _ ← set_config next; replace_all_consumers pending
                  | Err e =>
                      restored ← restore_definitions a (queue_configs old) (queue_configs next);
                      rollback ← (if is_ok restored then start_consumers a (queue_configs old)
                                  else mret (Err (result_summary restored)));
                      restored_or e "queue configuration apply failed: " rollback
                  end
              end
          end
      end
  end.

Definition apply_config (next : QueueConfig) (replacement : option (Z * string)) : Ctl W (result unit Error) :=
  match validate next with
  | Err e => mret (Err e)
  | Ok _ =>
      old ← get config;
      match replacement with
      | Some (new, name) => swap_adapter old next new name
      | None => if config_eqb old next then mret (Ok tt) else apply_in_place old next
      end
  end.

(** The configuration worker's newest value; [replacement] builds the adapter it needs, if it
    needs another. *)
Definition refresh_config (swap_needed : QueueConfig -> QueueConfig -> bool)
    (build_adapter : QueueConfig -> W -> result Z Error * W) : Ctl W (result unit Error) :=
  try_ (call fetch_config) id (λ next,
  live ← get config;
  if swap_needed live next then
    try_ (call (build_adapter next)) id (λ new, apply_config next (Some (new, adapter_identity_name next)))
  else apply_config next None).

(** The adapter [lost] is replaced by one built before the lock was taken, unless the adapter or
    the configuration has changed since. *)
Definition reconnect_adapter (lost new : Z) (snapshot : QueueConfig) : Ctl W (result unit Error) :=
  a ← get current; live ← get config;
  if negb (lost =? a)%Z || negb (config_eqb live snapshot) then
    _ ← call (λ w, (tt, shutdown new w)); mret (Ok tt)
  else apply_config snapshot (Some (new, adapter_identity_name snapshot)).

End WithOutside.
End Control.

(** ** What the steps do to the runtime *)

Module ControlRules.
Import Settings QueueSettings Control.

Create HintDb quiet.

Section Rules.
Context {W : Type} `{Outside W}.

Implicit Types (r : Runtime W) (a : Z) (queue : string) (c : FunctionQueueConfig) (defs : Definitions).

(** A computation that only asks the outside. *)
Definition quiet {A} (m : Ctl W A) : Prop := forall r,
  config (m r).2 = config r /\ consumers (m r).2 = consumers r /\ current (m r).2 = current r /\
  current_name (m r).2 = current_name r /\ written (m r).2 = written r.

Lemma ctl_quiet_ret {A} (x : A) : quiet (mret x).
Proof. done. Qed.

Lemma quiet_get {A} (f : Runtime W -> A) : quiet (get f).
Proof. done. Qed.

Lemma quiet_call {A} (op : W -> A * W) : quiet (call op).
Proof. intros r. unfold call. by destruct (op (world r)). Qed.

Lemma ctl_quiet_bind {A B} (m : Ctl W A) (k : A -> Ctl W B) : quiet m -> (forall x, quiet (k x)) -> quiet (m ≫= k).
Proof.
  intros Hm Hk r. unfold mbind, ctl_bind. specialize (Hm r). destruct (m r) as [x r1]. destruct (Hk x r1) as (? & ? & ? & ? & ?).
  destruct Hm as (? & ? & ? & ? & ?). cbn [snd] in *. split_and!; congruence.
Qed.

Lemma quiet_try {A B} (m : Ctl W (result A Error)) f (k : A -> Ctl W (result B Error)) :
  quiet m -> (forall x, quiet (k x)) -> quiet (try_ m f k).
Proof. intros Hm Hk. unfold try_. apply ctl_quiet_bind; [done|]. intros [x|e]; [apply Hk|apply ctl_quiet_ret]. Qed.

Hint Resolve ctl_quiet_ret quiet_get quiet_call ctl_quiet_bind quiet_try : quiet.

Lemma quiet_setup a queue c : quiet (setup_consumer a queue c).
Proof. unfold setup_consumer. destruct (Settings.validate c queue); eauto with quiet. Qed.

Lemma quiet_start a queue c : quiet (start_consumer a queue c).
Proof. unfold start_consumer. eauto with quiet. Qed.

Lemma quiet_stop a queue : quiet (stop_consumer a queue).
Proof. apply quiet_call. Qed.

Lemma quiet_restore a queue p : quiet (restore_definition a queue p).
Proof. destruct p; [apply quiet_setup|apply quiet_call]. Qed.

Hint Resolve quiet_setup quiet_start quiet_stop quiet_restore : quiet.

Lemma quiet_setup_consumers a defs : quiet (setup_consumers a defs).
Proof. unfold setup_consumers. induction (btree_iter defs) as [|[n c] l IH]; cbn [setup_each]; eauto with quiet. Qed.

Lemma quiet_stop_each a l : quiet (stop_each a l).
Proof. induction l as [|n l IH]; cbn [stop_each]; eauto with quiet. Qed.

Hint Resolve quiet_setup_consumers quiet_stop_each : quiet.

Lemma quiet_start_each a l pending : quiet (start_each a l pending).
Proof.
  revert pending. induction l as [|[n c] l IH]; intros pending; cbn [start_each]; [eauto with quiet|].
  apply ctl_quiet_bind; [eauto with quiet|]. intros [h|e]; [apply IH|eauto with quiet].
Qed.

Lemma quiet_start_consumers a defs : quiet (start_consumers a defs).
Proof. apply quiet_start_each. Qed.

Hint Resolve quiet_start_consumers : quiet.

Lemma quiet_setup_and_start a defs : quiet (setup_and_start_consumers a defs).
Proof. unfold setup_and_start_consumers. eauto with quiet. Qed.

Lemma quiet_forget_missing a l kept : quiet (forget_missing a l kept).
Proof. induction l as [|n l IH]; cbn [forget_missing]; [eauto with quiet|]. destruct (kept !! n); eauto with quiet. Qed.

Hint Resolve quiet_setup_and_start quiet_forget_missing : quiet.

Lemma quiet_restore_definitions a p n : quiet (restore_definitions a p n).
Proof. unfold restore_definitions. eauto with quiet. Qed.

Lemma quiet_fail_restoring a queue p m : quiet (fail_restoring a queue p m).
Proof. unfold fail_restoring. eauto with quiet. Qed.

Hint Resolve quiet_restore_definitions quiet_fail_restoring : quiet.

(** Runs the first part of a computation. *)
Lemma run_bind {A B} (m : Ctl W A) (k : A -> Ctl W B) r : (m ≫= k) r = k (m r).1 (m r).2.
Proof. unfold mbind, ctl_bind. by destruct (m r). Qed.

Lemma run_quiet {A} (m : Ctl W A) r : quiet m ->
  exists w, m r = ((m r).1, mk_runtime (config r) (consumers r) (current r) (current_name r) (written r) w).
Proof.
  intros Hq. exists (world (m r).2). destruct (Hq r) as (H1 & H2 & H3 & H4 & H5). destruct (m r) as [x [cfg cons cur name wr w]].
  cbn in *. by subst.
Qed.

(** *** The consumers *)

Lemma replace_consumer_free queue h r : consumers r !! queue = None ->
  replace_consumer queue h r = (Ok tt, mk_runtime (config r) (<[queue := h]> (consumers r)) (current r) (current_name r) (written r) (world r)).
Proof.
  intros Hn. unfold replace_consumer. rewrite run_bind. cbn [get fst snd]. rewrite run_bind. cbn [set_consumers fst snd]. rewrite Hn.
  rewrite run_bind. cbn. by rewrite delete_id.
Qed.

Lemma replace_all_free pending r : consumers r = ∅ ->
  replace_all_consumers pending r = (Ok tt, mk_runtime (config r) pending (current r) (current_name r) (written r) (world r)).
Proof.
  intros He. unfold replace_all_consumers. rewrite run_bind. cbn [get fst snd]. rewrite run_bind. cbn [set_consumers fst snd].
  by rewrite decide_True.
Qed.

Lemma stop_all_consumers_run a r : exists res w,
  stop_all_consumers a r = (res, mk_runtime (config r) ∅ (current r) (current_name r) (written r) w).
Proof.
  unfold stop_all_consumers. rewrite run_bind. cbn [get fst snd]. rewrite run_bind. cbn [set_consumers fst snd]. rewrite run_bind.
  edestruct (run_quiet (stop_each a (btree_keys (consumers r)))) as [w ->]; [eauto with quiet|]. cbn. by eexists _, w.
Qed.

Lemma start_each_ok a l pending r m r' :
  NoDup l.*1 -> start_each a l pending r = (Ok m, r') ->
  forall k, m !! k = match find (λ p, bool_decide (p.1 = k)) l with Some p => Some (mk_handle a p.2) | None => pending !! k end.
Proof.
  revert pending r. induction l as [|[n c] l IH]; intros pending r Hnd; cbn [start_each].
  - unfold mret, ctl_ret. by intros [= <- _].
  - rewrite run_bind. unfold start_consumer at 1 2, try_. rewrite !run_bind. inversion Hnd as [|? ? Hn Hnd']; subst.
    destruct (call _ r) as [[[]|e] r1]; cbn [fst snd mret ctl_ret].
    + intros Hs k. rewrite (IH _ _ Hnd' Hs k). cbn [find fst snd]. case_bool_decide as Hk; [|destruct (find _ l); [done|by rewrite lookup_insert_ne]].
      subst k. destruct (find _ l) as [[n' c']|] eqn:Hf; [|by rewrite lookup_insert_eq].
      apply find_some in Hf as [Hin Heq]. apply bool_decide_eq_true in Heq. cbn in Heq. subst n'. destruct Hn.
      apply list_elem_of_fmap. exists (n, c'). split; [done|by apply list_elem_of_In].
    + rewrite run_bind. by intros [= ].
Qed.

(** Consumers that have started are the definitions' queues, with their settings. *)
Lemma start_consumers_ok a defs r m r' : start_consumers a defs r = (Ok m, r') -> m = mk_handle a <$> defs.
Proof.
  intros Hs. apply map_eq. intros k. rewrite lookup_fmap.
  rewrite (start_each_ok a (btree_iter defs) ∅ r m r' (NoDup_btree_keys defs) Hs k), lookup_empty.
  destruct (find _ _) as [[n c]|] eqn:Hf.
  - apply find_some in Hf as [Hin Heq]. apply bool_decide_eq_true in Heq. cbn in Heq. subst n.
    apply list_elem_of_In, elem_of_btree_iter in Hin. by rewrite Hin.
  - destruct (defs !! k) as [c|] eqn:Hk; [|done]. exfalso. apply elem_of_btree_iter in Hk.
    apply list_elem_of_In, (find_none _ _ Hf), bool_decide_eq_false in Hk. done.
Qed.

(** *** Steps in sequence *)

(** [r] after the outside has moved on. *)
Definition moved r (w : W) : Runtime W := mk_runtime (config r) (consumers r) (current r) (current_name r) (written r) w.

Lemma bind_quiet {A B} (m : Ctl W A) (k : A -> Ctl W B) r : quiet m ->
  exists x w, m r = (x, moved r w) /\ (m ≫= k) r = k x (moved r w).
Proof. intros Hq. destruct (run_quiet m r Hq) as [w Hw]. exists (m r).1, w. split; [exact Hw|]. by rewrite run_bind, Hw. Qed.

(** The writes one [persist_config] of [c] asks for, and whether it succeeds. *)
Inductive stores (c : QueueConfig) : bool -> list Written -> Prop :=
| stores_invalid : is_ok (validate c) = false -> stores c false []
| stores_set ok : stores c ok [mk_written "configuration::set" c ok]
| stores_unregistered : stores c false [mk_written "configuration::set" c false; mk_written "configuration::ensure" c false]
| stores_recovered ok : stores c ok [mk_written "configuration::set" c false; mk_written "configuration::ensure" c true; mk_written "configuration::set" c ok].

Lemma bind_write {A B} fn q (op : W -> result A Error * W) (k : result A Error -> Ctl W B) r :
  (write fn q op ≫= k) r = k (op (world r)).1 (mk_runtime (config r) (consumers r) (current r) (current_name r)
    (written r ++ [mk_written fn q (is_ok (op (world r)).1)]) (op (world r)).2).
Proof. rewrite run_bind. unfold write. by destruct (op (world r)). Qed.

Lemma persist_run stored r : exists res l w,
  persist_config stored r = (res, mk_runtime (config r) (consumers r) (current r) (current_name r) (written r ++ l) w) /\ stores stored (is_ok res) l.
Proof.
  unfold persist_config. destruct (validate stored) as [u|e] eqn:Hv.
  2: { exists (Err e), [], (world r). rewrite app_nil_r. split; [by destruct r|apply stores_invalid; by rewrite Hv]. }
  rewrite bind_write. destruct (on_bus _ _ (world r)) as [[v|e] w1]; cbn [fst snd is_ok].
  { eexists (Ok tt), [_], w1. split; [reflexivity|apply stores_set]. }
  destruct (schema_unavailable e); [|eexists (Err e), [_], w1; split; [reflexivity|apply stores_set]].
  rewrite bind_write. cbn [world config consumers current current_name written]. destruct (register_config _ w1) as [[[]|e2] w2]; cbn [fst snd is_ok].
  2: { eexists (Err _), [_; _], w2. rewrite <-app_assoc. split; [reflexivity|apply stores_unregistered]. }
  rewrite bind_write. cbn [world config consumers current current_name written].
  destruct (on_bus _ _ w2) as [[v|e2] w3]; cbn [fst snd is_ok];
    [eexists (Ok tt), [_; _; _], w3|eexists (Err e2), [_; _; _], w3]; rewrite <-!app_assoc; (split; [reflexivity|apply (stores_recovered _ _)]).
Qed.

Lemma bind_persist {B} stored (k : result unit Error -> Ctl W B) r :
  exists res l w, (persist_config stored ≫= k) r =
    k res (mk_runtime (config r) (consumers r) (current r) (current_name r) (written r ++ l) w) /\ stores stored (is_ok res) l.
Proof. destruct (persist_run stored r) as (res & l & w & Hp & Hl). exists res, l, w. by rewrite run_bind, Hp. Qed.

(** Only the queue's own consumer may differ. *)
Definition others_kept queue (m m' : gmap string ConsumerHandle) : Prop := forall q, q <> queue -> m' !! q = m !! q.

(** What [restart_previous] and the failures of [define] leave: the queue's consumer aside, a
    quiet step. *)
Record kept queue r r' : Prop := {
  kept_config : config r' = config r;
  kept_current : current r' = current r;
  kept_written : written r' = written r;
  kept_others : others_kept queue (consumers r) (consumers r');
}.

Lemma kept_moved queue r w : kept queue r (moved r w).
Proof. by split. Qed.

Lemma kept_trans queue r1 r2 r3 : kept queue r1 r2 -> kept queue r2 r3 -> kept queue r1 r3.
Proof.
  intros [? ? ? Ho1] [? ? ? Ho2]. split; [congruence..|]. intros q Hq. by rewrite Ho2, Ho1.
Qed.

Lemma kept_quiet {A} queue (m : Ctl W A) r : quiet m -> kept queue r (m r).2.
Proof. intros Hq. destruct (run_quiet m r Hq) as [w ->]. apply kept_moved. Qed.

Lemma kept_delete queue r : kept queue r (set_consumers (delete queue (consumers r)) r).2.
Proof. split; try done. intros q Hq. cbn. by rewrite lookup_delete_ne. Qed.

End Rules.

#[export] Hint Resolve ctl_quiet_ret quiet_get quiet_call ctl_quiet_bind quiet_try quiet_setup quiet_start quiet_stop quiet_restore
  quiet_setup_consumers quiet_stop_each quiet_start_consumers quiet_setup_and_start quiet_forget_missing
  quiet_restore_definitions quiet_fail_restoring : quiet.

(** Runs the next step of a sequence when it only asks the outside: its answer is [x]. *)
Ltac quietly x Hm :=
  match goal with |- context [(?m ≫= ?k) ?r] =>
    let w := fresh "w" in let Heq := fresh in
    edestruct (bind_quiet m k r) as (x & w & Hm & Heq); [solve [eauto with quiet]|]; rewrite Heq; clear Heq
  end.

(** The next step stores a configuration: [res] is how that ended. *)
Ltac persisting res w Hres :=
  match goal with |- context [(persist_config ?s ≫= ?k) ?r] =>
    let Heq := fresh in let l := fresh "l" in destruct (bind_persist s k r) as (res & l & w & Heq & Hres); rewrite Heq; clear Heq
  end.
End ControlRules.

(** ** Properties *)

Module ControlProperties.
Import Settings QueueSettings Control ControlRules.

Section Define.
Context {W : Type} `{Outside W}.

Implicit Types (r : Runtime W) (a : Z) (queue : string) (c : FunctionQueueConfig) (stored : QueueConfig).

Lemma restart_previous_kept a queue p r : consumers r !! queue = None -> kept queue r (restart_previous a queue p r).2.
Proof.
  intros Hn. unfold restart_previous. quietly started Hs. destruct started as [h|e]; [|apply kept_moved].
  rewrite run_bind, replace_consumer_free by done. split; try done. intros q Hq. cbn. by rewrite lookup_insert_ne.
Qed.

(** The failures of [define] once the new definition is stored. *)
Definition undone queue c stored r r' : Prop :=
  config r' = config r /\ current r' = current r /\ others_kept queue (consumers r) (consumers r') /\
  exists ok l, stores stored ok l /\ written r' = written r ++ l.

Lemma undone_kept queue c stored r r1 r2 : undone queue c stored r r1 -> kept queue r1 r2 -> undone queue c stored r r2.
Proof.
  intros (? & ? & Ho & ok & l & Hl & Hw) [? ? Hw' Ho']. split_and!; [congruence|congruence| |exists ok, l; by rewrite Hw'].
  intros q Hq. by rewrite Ho', Ho.
Qed.

Lemma persisted_undone queue c stored ok l r w :
  stores stored ok l -> undone queue c stored r (mk_runtime (config r) (consumers r) (current r) (current_name r) (written r ++ l) w).
Proof. intros Hl. split_and!; try done. by exists ok, l. Qed.

Lemma undo_stop_undone a queue c p stored e r : consumers r !! queue = None ->
  match undo_stop a queue p stored e r with (Err _, r') => undone queue c stored r r' | (Ok _, _) => False end.
Proof.
  intros Hn. unfold undo_stop. persisting res w Hres.
  pose proof (persisted_undone queue c stored _ _ r w Hres) as Hu. revert Hu. set (r1 := mk_runtime _ _ _ _ _ w). intros Hu.
  quietly restored Hq. rewrite run_bind. eapply undone_kept; [exact Hu|].
  destruct (is_ok restored); [|apply kept_moved]. destruct p as [p|]; [|apply kept_moved].
  eapply kept_trans; [apply kept_moved|]. by apply restart_previous_kept.
Qed.

Lemma undo_start_undone a queue c p stored e r : consumers r !! queue = None ->
  match undo_start a queue p stored e r with (Err _, r') => undone queue c stored r r' | (Ok _, _) => False end.
Proof.
  intros Hn. unfold undo_start. persisting res w Hres.
  pose proof (persisted_undone queue c stored _ _ r w Hres) as Hu. revert Hu. set (r1 := mk_runtime _ _ _ _ _ w). intros Hu.
  rewrite run_bind. eapply undone_kept; [exact Hu|]. destruct p as [p|].
  - quietly set_up Hs. destruct set_up; [|apply kept_moved].
    eapply kept_trans; [apply kept_moved|]. by apply restart_previous_kept.
  - quietly set_up Hs. apply kept_moved.
Qed.

Lemma commit_definition_outcome a queue c p stored next r :
  match commit_definition a queue c p stored next r with
  | (Ok changed, r') => changed = true /\ config r' = next /\ current r' = current r /\ written r' = written r /\
      consumers r' = <[queue := mk_handle a c]> (consumers r)
  | (Err _, r') => undone queue c stored r r'
  end.
Proof.
  unfold commit_definition. rewrite run_bind. cbn [get fst snd]. rewrite run_bind. cbn [fst].
  pose proof (kept_delete queue r) as Hk. set (r1 := (set_consumers _ r).2) in *.
  assert (consumers r1 !! queue = None) as Hn by apply lookup_delete_eq.
  assert (forall r2, undone queue c stored r1 r2 -> undone queue c stored r r2) as Hback.
  { intros r2 (Hc & Ha & Ho & ok & l & Hl & Hw). destruct Hk as [Hkc Hka Hkw Hko]. split_and!; [congruence|congruence| |exists ok, l; by rewrite <-Hkw].
    intros q Hq. by rewrite Ho, Hko. }
  assert (quiet (match consumers r !! queue with Some _ => stop_consumer a queue | None => mret (Ok tt) end)) as Hq
    by (destruct (consumers r !! queue); eauto with quiet).
  quietly stopped Hs. destruct stopped as [[]|e].
  - quietly started Hst. destruct started as [h|e].
    + rewrite run_bind. cbn [set_config fst snd]. unfold try_. rewrite run_bind, replace_consumer_free by done. cbn.
      unfold start_consumer, try_ in Hst. rewrite run_bind in Hst. destruct (call _ _) as [[[]|]]; [|done]. cbn in Hst.
      injection Hst as <- _. by rewrite insert_delete_eq.
    + pose proof (undo_start_undone a queue c p stored e (moved (moved r1 w) w0) Hn) as Hu.
      destruct (undo_start _ _ _ _ _ _) as [[]]; [done|]. by apply Hback.
  - pose proof (undo_stop_undone a queue c p stored e (moved r1 w) Hn) as Hu.
    destruct (undo_stop _ _ _ _ _ _) as [[]]; [done|]. by apply Hback.
Qed.

(** What the configuration worker may hold after some writes, one after the other, when it held [v]
    before and nobody else writes: a write that was answered is carried out, another may be; and
    [configuration::ensure] may find something stored, and then it changes nothing. *)
Inductive leaves : QueueConfig -> list Written -> QueueConfig -> Prop :=
| leaves_none v : leaves v [] v
| leaves_done v x l v' : leaves (w_config x) l v' -> leaves v (x :: l) v'
| leaves_not_done v x l v' : w_answered x = false \/ w_function x = "configuration::ensure" -> leaves v l v' -> leaves v (x :: l) v'.

(** The failures of [define]: nothing is asked of the configuration worker, or the write of the new
    configuration fails, or it succeeds and the one before is written back, which may fail. *)
Definition gave_up queue c stored r r' : Prop :=
  config r' = config r /\ current r' = current r /\ others_kept queue (consumers r) (consumers r') /\
  let next := with_queue queue c stored in
  exists l, written r' = written r ++ l /\
    (l = [] \/ stores next false l \/
     exists ok l1 l2, stores next true l1 /\ stores stored ok l2 /\ l = l1 ++ l2 /\ (ok = true -> forall v, leaves stored l v -> v = stored)) /\
    forall v, leaves stored l v -> v = stored \/ v = next.

Lemma leaves_app v l1 l2 v2 : leaves v (l1 ++ l2) v2 -> exists v1, leaves v l1 v1 /\ leaves v1 l2 v2.
Proof.
  revert v. induction l1 as [|x l1 IH]; intros v Hl; [exists v; split; [apply leaves_none|done]|].
  inversion Hl; subst; [edestruct IH as (v1 & H1 & H2); [done|]; exists v1; split; [by apply leaves_done|done]|].
  edestruct IH as (v1 & H1 & H2); [done|]. exists v1. split; [by apply leaves_not_done|done].
Qed.

Lemma leaves_one v x v' : leaves v [x] v' -> v' = w_config x \/ (w_answered x = false \/ w_function x = "configuration::ensure") /\ v' = v.
Proof. intros Hl. inversion Hl as [|? ? ? ? Hl'|? ? ? ? Hn Hl']; subst; inversion Hl'; subst; auto. Qed.

Lemma leaves_cons v x l v' : leaves v (x :: l) v' -> exists v1, leaves v [x] v1 /\ leaves v1 l v'.
Proof. apply (leaves_app v [x]). Qed.

(** A store that succeeds is carried out; one that fails may be. *)
Lemma stores_leaves q ok l v v' : stores q ok l -> leaves v l v' -> v' = q \/ ok = false /\ v' = v.
Proof.
  intros Hs Hl. destruct Hs as [Hv|ok| |ok].
  - inversion Hl. by right.
  - destruct (leaves_one _ _ _ Hl) as [?|[[?|?] ?]]; [by left|by right|done].
  - apply leaves_cons in Hl as (v1 & H1%leaves_one & H2%leaves_one). cbn in *.
    destruct H2 as [->|[_ ->]]; [by left|]. destruct H1 as [->|[_ ->]]; [by left|by right].
  - apply leaves_cons in Hl as (v1 & H1%leaves_one & (v2 & H2%leaves_one & H3%leaves_one)%leaves_cons). cbn in *.
    destruct H3 as [->|[[->|?] ->]]; [by left| |done]. destruct H2 as [->|[_ ->]]; [by left|]. destruct H1 as [->|[_ ->]]; [by left|by right].
Qed.

Lemma failed_leaves q stored l v : stores q false l -> leaves stored l v -> v = stored \/ v = q.
Proof. intros Hs Hl. destruct (stores_leaves _ _ _ _ _ Hs Hl) as [?|[_ ?]]; auto. Qed.

Lemma kept_gave_up queue c stored r r' : kept queue r r' -> gave_up queue c stored r r'.
Proof.
  intros [? ? ? ?]. split_and!; auto. exists []. rewrite app_nil_r. split_and!; [done|by left|]. intros v Hv. inversion Hv. by left.
Qed.

Lemma store_definition_outcome a queue c stored r :
  match store_definition a queue c stored r with
  | (Ok changed, r') => changed = true /\ config r' = with_queue queue c stored /\ current r' = current r /\
      (exists l, written r' = written r ++ l /\ stores (with_queue queue c stored) true l) /\ consumers r' = <[queue := mk_handle a c]> (consumers r)
  | (Err _, r') => gave_up queue c stored r r'
  end.
Proof.
  assert (forall p m r1, kept queue r r1 ->
    match fail_restoring a queue p m r1 with (Ok _, _) => False | (Err _, r') => gave_up queue c stored r r' end) as Hfail.
  { intros p m r1 Hr1. unfold fail_restoring. quietly restored Hq. apply kept_gave_up. eapply kept_trans; [exact Hr1|apply kept_moved]. }
  assert (forall p m r1, kept queue r r1 -> match fail_restoring a queue p m r1 with
    | (Ok changed, r') => changed = true /\ config r' = with_queue queue c stored /\ current r' = current r /\
      (exists l, written r' = written r ++ l /\ stores (with_queue queue c stored) true l) /\ consumers r' = <[queue := mk_handle a c]> (consumers r)
    | (Err _, r') => gave_up queue c stored r r' end) as Hfail'.
  { intros p m r1 Hr1. specialize (Hfail p m r1 Hr1). by destruct (fail_restoring a queue p m r1) as [[]]. }
  unfold store_definition. quietly fetched Hf. destruct fetched as [latest|e]; [|apply Hfail', kept_moved].
  destruct (negb _); [apply Hfail', kept_moved|]. persisting res w1 Hres. destruct res as [[]|e]; cbn [is_ok] in Hres.
  2: { unfold fail_restoring. quietly restored Hq. split_and!; try done. cbn [written moved]. exists l. split; [done|]. split; [by right; left|].
       intros v. by apply failed_leaves. }
  cbn [moved config consumers current current_name written]. set (r1 := mk_runtime _ _ _ _ _ w1).
  pose proof (commit_definition_outcome a queue c (queue_configs stored !! queue) stored (with_queue queue c stored) r1) as Hc.
  destruct (commit_definition _ _ _ _ _ _ r1) as [[changed|e] r'].
  - destruct Hc as (? & ? & ? & Hw & ?). split_and!; try done. exists l. by rewrite Hw.
  - destruct Hc as (? & ? & ? & ok & l2 & Hl2 & Hw). split_and!; try done. exists (l ++ l2). rewrite Hw. cbn [written r1]. rewrite <-app_assoc.
    assert (forall v, leaves stored (l ++ l2) v -> v = stored \/ ok = false /\ v = with_queue queue c stored) as Hv.
    { intros v (v1 & Hx1 & Hx2)%leaves_app. destruct (stores_leaves _ _ _ _ _ Hl2 Hx2) as [->|[-> ->]]; [by left|].
      right. split; [done|]. by destruct (stores_leaves _ _ _ _ _ Hres Hx1) as [->|[? _]]. }
    split; [done|]. split; [|intros v Hl; destruct (Hv v Hl) as [?|[_ ?]]; auto].
    right; right. exists ok, l, l2. split_and!; try done. intros -> v Hl. by destruct (Hv v Hl) as [?|[? _]].
Qed.

Lemma stop_finished_kept a queue r : kept queue r (stop_finished a queue r).2.
Proof.
  unfold stop_finished. rewrite run_bind. cbn [get fst snd]. rewrite run_bind. cbn [get fst snd].
  destruct (consumers r !! queue); [|done]. destruct (is_finished _ _); [|done]. rewrite run_bind.
  eapply kept_trans; [apply kept_delete|]. apply kept_quiet. eauto with quiet.
Qed.

Lemma start_defined_outcome a queue c r : consumers r !! queue = None ->
  match start_defined a queue c r with
  | (Ok changed, r') => changed = false /\ kept queue r r' /\ consumers r' !! queue = Some (mk_handle a c)
  | (Err _, r') => kept queue r r'
  end.
Proof.
  intros Hn. unfold start_defined, try_ at 1. quietly started Hs. destruct started as [h|e]; [|apply kept_moved].
  unfold try_. rewrite run_bind, replace_consumer_free by done. cbn.
  unfold start_consumer, try_ in Hs. rewrite run_bind in Hs. destruct (call _ _) as [[[]|]]; [|done]. cbn in Hs. injection Hs as <- _.
  split_and!; [done| |by rewrite lookup_insert_eq]. split; try done. intros q Hq. cbn. by rewrite lookup_insert_ne.
Qed.

(** C27: [queue::define] commits or puts back.  A changed definition is stored, so that it is what
    the configuration worker holds, becomes part of the live configuration, and its queue's one
    consumer runs with it; an unchanged one has a consumer and writes nothing.  After an error
    the live configuration is the one before and the other queues' consumers are untouched.  The
    configuration worker then was asked to write nothing, or the write of the new configuration
    failed, or it succeeded and the one before was written back: it holds the one before, or, when
    a write failed that may have been carried out or the writing back failed, perhaps the new one.
    (What it holds is said for a configuration worker that nobody else writes to, and that
    carries calls out in their order.) *)
Theorem define_commits_or_puts_back name c r :
  let queue := trim name in
  match define name c r with
  | (Ok true, r') => exists stored,
      config_eqb (config r) stored = true /\ queue_configs stored !! queue <> Some c /\
      config r' = with_queue queue c stored /\ current r' = current r /\
      (exists l, written r' = written r ++ l /\ stores (config r') true l /\ forall v, leaves stored l v -> v = config r') /\
      consumers r' !! queue = Some (mk_handle (current r) c) /\ others_kept queue (consumers r) (consumers r')
  | (Ok false, r') => exists stored,
      config_eqb (config r) stored = true /\ queue_configs stored !! queue = Some c /\
      kept queue r r' /\ is_Some (consumers r' !! queue)
  | (Err _, r') => exists stored, (kept queue r r' \/ config_eqb (config r) stored = true) /\ gave_up queue c stored r r'
  end.
Proof.
  cbv zeta. unfold define. set (queue := trim name). assert (forall r', kept queue r r' ->
    exists stored, (kept queue r r' \/ config_eqb (config r) stored = true) /\ gave_up queue c stored r r') as Hkept.
  { intros r' Hk. exists (config r). split; [by left|by apply kept_gave_up]. }
  destruct (Settings.validate c queue) as [[]|e]; [|apply Hkept; by split].
  rewrite run_bind. cbn [get fst snd]. unfold try_ at 1. quietly fetched Hf.
  destruct fetched as [stored|e]; [|apply Hkept, kept_moved].
  destruct (config_eqb (config r) stored) eqn:Heqb; cbn [negb]; [|apply Hkept, kept_moved].
  rewrite run_bind. cbn [get fst snd]. unfold try_ at 1. rewrite run_bind.
  pose proof (stop_finished_kept (current (moved r w)) queue (moved r w)) as Hstop. cbn [moved current] in Hstop.
  change (current (moved r w)) with (current r).
  destruct (stop_finished (current r) queue (moved r w)) as [[[]|e] r1]; cbn [fst snd] in *;
    assert (kept queue r r1) as Hk1 by (eapply kept_trans; [apply kept_moved|exact Hstop]); [|by apply Hkept].
  rewrite run_bind. cbn [get fst snd]. case_bool_decide as Hsame; cbn [negb andb].
  - destruct (consumers r1 !! queue) as [h|] eqn:Hrun; [exists stored; split_and!; try done; by eexists|].
    rewrite run_bind. cbn [get fst snd]. destruct (validate_queue_update _ _ _ _) as [[]|e]; [|by apply Hkept].
    unfold try_ at 1. quietly set_up Hs. destruct set_up as [[]|e]; [|apply Hkept; eapply kept_trans; [exact Hk1|apply kept_moved]].
    pose proof (start_defined_outcome (current r) queue c (moved r1 w0) Hrun) as Ho.
    assert (kept queue r (moved r1 w0)) as Hk2 by (eapply kept_trans; [exact Hk1|apply kept_moved]).
    destruct (start_defined _ _ _ _) as [[changed|e] r']; [|by apply Hkept; eapply kept_trans].
    destruct Ho as (-> & Hk3 & Hc). exists stored. split_and!; [done|done|by eapply kept_trans|by eexists].
  - rewrite run_bind. cbn [get fst snd]. destruct (validate_queue_update _ _ _ _) as [[]|e]; [|by apply Hkept].
    unfold try_ at 1. quietly set_up Hs. destruct set_up as [[]|e]; [|apply Hkept; eapply kept_trans; [exact Hk1|apply kept_moved]].
    pose proof (store_definition_outcome (current r) queue c stored (moved r1 w0)) as Ho. destruct Hk1 as [Hc1 Ha1 Hw1 Ho1].
    destruct (store_definition _ _ _ _ _) as [[changed|e] r']; cbn [moved config current written consumers] in Ho.
    + destruct Ho as (-> & Hcfg & Hcur & Hwr & Hcons). exists stored. rewrite Hcfg, Hcons.
      destruct Hwr as (l & Hwr & Hl).
      split_and!; [done|done|done|congruence| |by rewrite lookup_insert_eq|].
      { exists l. split_and!; [by rewrite Hwr, Hw1|done|]. intros v Hv. by destruct (stores_leaves _ _ _ _ _ Hl Hv) as [?|[? _]]. }
      intros q Hq. rewrite lookup_insert_ne by done. by apply Ho1.
    + exists stored. split; [by right|]. destruct Ho as (H1 & H2 & H3 & H4). cbn [moved config current written consumers] in *.
      split_and!; [congruence|congruence|intros q Hq; by rewrite H3, Ho1|]. by rewrite <-Hw1.
Qed.

End Define.

(** *** Applying *)

Section Apply.
Context {W : Type} `{Outside W}.

Implicit Types (r : Runtime W) (old next : QueueConfig).

(** The consumers an adapter has for a configuration. *)
Definition consumers_of (a : Z) (q : QueueConfig) : gmap string ConsumerHandle := mk_handle a <$> queue_configs q.

(** The last thing that was done: the old definitions were to be put back on the adapter [a], or
    their consumers to be started, and that failed. *)
Definition restart_failed (a : Z) old next r' : Prop := exists r0 e,
  start_consumers a (queue_configs old) r0 = (Err e, r') \/ setup_and_start_consumers a (queue_configs old) r0 = (Err e, r') \/
  restore_definitions a (queue_configs old) (queue_configs next) r0 = (Err e, r').

(** The failures of [apply_config]: the old configuration and adapter, with all their consumers
    or, when those were to be started again and that failed, with none. *)
Definition fell_back old next r r' : Prop :=
  config r' = old /\ current r' = current r /\ written r' = written r /\
  (consumers r' = consumers r \/ consumers r' = consumers_of (current r) old \/ consumers r' = ∅ /\ restart_failed (current r) old next r').

Definition applied (a : Z) next r r' : Prop :=
  config r' = next /\ current r' = a /\ written r' = written r /\ consumers r' = consumers_of a next.

Lemma setup_and_start_ok a defs r m r' : setup_and_start_consumers a defs r = (Ok m, r') -> m = mk_handle a <$> defs.
Proof.
  unfold setup_and_start_consumers, try_. rewrite run_bind. destruct (setup_consumers a defs r) as [[[]|e] r1]; [|done].
  cbn [fst snd]. apply start_consumers_ok.
Qed.

(** The old consumers are started again, where none are left. *)
Lemma restart_after_outcome old next starting message r r0 :
  quiet starting -> (forall r1 m r', starting r1 = (Ok m, r') -> m = consumers_of (current r) old) ->
  (forall r1 e r', starting r1 = (Err e, r') -> restart_failed (current r) old next r') ->
  consumers r0 = ∅ -> config r0 = old -> current r0 = current r -> written r0 = written r ->
  match restart_after (current r) (queue_configs old) starting message r0 with (Ok _, _) => False | (Err _, r') => fell_back old next r r' end.
Proof.
  intros Hq Hok Hbad Hc Hcfg Hcur Hw. unfold restart_after. quietly restart Hs. destruct restart as [pending|e].
  - unfold try_. rewrite run_bind, replace_all_free by done. cbn. split_and!; try done. right; left. by eapply Hok.
  - split_and!; try done. right; right. split; [done|by eapply Hbad].
Qed.

Lemma restored_or_outcome old next e prefix started r r0 :
  (forall m, started = Ok m -> m = consumers_of (current r) old) ->
  (forall e, started = Err e -> restart_failed (current r) old next r0) ->
  consumers r0 = ∅ -> config r0 = old -> current r0 = current r -> written r0 = written r ->
  match restored_or e prefix started r0 with (Ok _, _) => False | (Err _, r') => fell_back old next r r' end.
Proof.
  intros Hok Hbad Hc Hcfg Hcur Hw. unfold restored_or. destruct started as [pending|e'].
  - unfold try_. rewrite run_bind, replace_all_free by done. cbn. split_and!; try done. right; left. by apply Hok.
  - split_and!; try done. right; right. split; [done|by eapply Hbad].
Qed.

Lemma put_back_outcome old next message r r0 :
  consumers r0 = ∅ -> config r0 = old -> current r0 = current r -> written r0 = written r ->
  match put_back (current r) old next message r0 with (Ok _, _) => False | (Err _, r') => fell_back old next r r' end.
Proof.
  intros Hc Hcfg Hcur Hw. unfold put_back. quietly restored Hs. apply restart_after_outcome; try done; [eauto with quiet|intros r1 m r'; apply start_consumers_ok|].
  intros r1 e r' He. exists r1, e. by left.
Qed.

(** An outcome of [apply_config]. *)
Definition apply_outcome (a : Z) old next r (out : result unit Error * Runtime W) : Prop :=
  match out with (Ok _, r') => applied a next r r' | (Err _, r') => fell_back old next r r' end.

Lemma only_error a old next r (out : result unit Error * Runtime W) :
  match out with (Ok _, _) => False | (Err _, r') => fell_back old next r r' end -> apply_outcome a old next r out.
Proof. by destruct out as [[]]. Qed.

Lemma early_error (a : Z) old next r w (e : Error) : config r = old -> apply_outcome a old next r (Err e, moved r w).
Proof. intros Hc. split_and!; try done. by left. Qed.

Lemma swap_adapter_outcome old next new name r : config r = old -> apply_outcome new old next r (swap_adapter old next new name r).
Proof.
  intros Hc. unfold swap_adapter. rewrite run_bind. cbn [get fst snd]. unfold try_ at 1. quietly set_up Hs.
  destruct set_up as [[]|e]; [|by apply early_error]. rewrite run_bind.
  destruct (stop_all_consumers_run (current r) (moved r w)) as (res & w1 & ->). cbn [fst snd moved config current current_name written].
  set (r1 := mk_runtime _ ∅ _ _ _ w1). destruct res as [[]|e].
  - rewrite run_bind. cbn [replace_adapter fst snd]. quietly started Hst. destruct started as [pending|e].
    + rewrite run_bind. cbn [set_config fst snd]. unfold try_. rewrite run_bind, replace_all_free by done. cbn [fst snd].
      rewrite !run_bind. cbn. split_and!; try done. by eapply start_consumers_ok.
    + rewrite run_bind. cbn [replace_adapter fst snd]. rewrite run_bind. cbn [fst snd call].
      quietly rollback Hrb. apply only_error, restored_or_outcome; try done; [intros m ->; by eapply setup_and_start_ok|].
      intros e' ->. eexists _, e'. right; left. exact Hrb.
  - apply only_error, restart_after_outcome; try done; [eauto with quiet|intros r2 m r'; apply setup_and_start_ok|].
    intros r2 e' r' He. exists r2, e'. by right; left.
Qed.

Lemma apply_in_place_outcome old next r : config r = old -> apply_outcome (current r) old next r (apply_in_place old next r).
Proof.
  intros Hc. unfold apply_in_place. do 2 (rewrite run_bind; cbn [get fst snd]).
  destruct (validate_queue_updates _ _ _) as [[]|e]; [|by destruct r; apply (early_error _ _ _ (mk_runtime _ _ _ _ _ _))].
  quietly set_up Hs. destruct set_up as [[]|e]; [|quietly rollback Hr; by apply (early_error _ _ _ r w0)].
  rewrite run_bind. destruct (stop_all_consumers_run (current r) (moved r w)) as (res & w1 & ->).
  cbn [fst snd moved config current current_name written]. set (r1 := mk_runtime _ ∅ _ _ _ w1).
  destruct res as [[]|e]; [|by apply only_error, put_back_outcome].
  unfold forget_removed_definitions. quietly forgotten Hf. destruct forgotten as [[]|e]; [|by apply only_error, put_back_outcome].
  quietly started Hst. destruct started as [pending|e].
  - rewrite run_bind. cbn [set_config fst snd]. rewrite replace_all_free by done. split_and!; try done. by eapply start_consumers_ok.
  - quietly restored Hr. assert (quiet (if is_ok restored then start_consumers (current r) (queue_configs old) else mret (Err (result_summary restored))))
      as Hq by (destruct (is_ok restored); eauto with quiet).
    quietly rollback Hrb. apply only_error, restored_or_outcome; try done.
    + intros m ->. destruct (is_ok restored); [by eapply start_consumers_ok|done].
    + intros e' ->. destruct restored as [[]|e2]; cbn [is_ok] in Hrb; [eexists _, e'; left; exact Hrb|].
      injection Hrb as _ <-. eexists _, e2. right; right. exact Hr.
Qed.

(** C28: a configuration is applied or not at all.  Applied, it is the live configuration and
    each of its queues, no other, has one consumer, with its settings, on the adapter now in
    use; an equal configuration without another adapter changes nothing.  After an error the live
    configuration and the adapter are the ones before, and the consumers are those before, those
    of the old definitions started again, or none, and then the last thing done was an attempt to
    put the old definitions back or start their consumers, which failed; the stored configuration
    is never written. *)
Theorem apply_config_commits_or_falls_back next replacement r :
  match apply_config next replacement r with
  | (Ok _, r') =>
      replacement = None /\ config_eqb (config r) next = true /\ r' = r \/
      config r' = next /\ written r' = written r /\
      let a := match replacement with Some (new, _) => new | None => current r end in
      current r' = a /\ consumers r' = consumers_of a next
  | (Err _, r') => fell_back (config r) next r r'
  end.
Proof.
  unfold apply_config. destruct (validate next) as [[]|e]; [|split_and!; try done; by left].
  rewrite run_bind. cbn [get fst snd]. destruct replacement as [[new name]|].
  - pose proof (swap_adapter_outcome (config r) next new name r eq_refl) as Ho.
    destruct (swap_adapter _ _ _ _ r) as [[[]|e] r']; [|exact Ho]. right. destruct Ho as (? & ? & ? & ?). done.
  - destruct (config_eqb (config r) next) eqn:Heq; [by left|].
    pose proof (apply_in_place_outcome (config r) next r eq_refl) as Ho.
    destruct (apply_in_place _ _ r) as [[[]|e] r']; [|exact Ho]. right. destruct Ho as (? & ? & ? & ?). done.
Qed.

End Apply.
End ControlProperties.
