(* ===== verification/QueueService.v ===== *)
(** * The functions of the queue worker (queue/src/functions.rs, runtime.rs)

    What the worker's functions do with a request: [engine::queue::enqueue] on the function queues
    of the live configuration ([Enqueue]), and publishing, redriving, discarding and browsing on
    the topics of the builtin adapter ([TopicFunctions]).  [EnqueueProperties] follows an
    enqueued call into the store. *)

From Stdlib Require Import Ascii ZArith Lia.
From S2P Require Import Prelude Json Codec JsonText QueueStore QueueJournal QueueLife QueueOps QueueAdapter QueueFunctions QueueRuntime QueueControl.

(** ** [engine::queue::enqueue] *)

Module Enqueue.
Import Settings Envelopes QueueSettings StoreInterface.

Record EnqueueInput : Type := mk_enqueue {
  in_queue : string;
  in_function : string;
  in_data : Value;
  in_receipt : string;
  in_namespace : option string;
  in_traceparent : option string;
  in_baggage : option string;
}.

#[export] Instance EnqueueInput_codec : Codec EnqueueInput := {|
  to_value i := json_obj ([("queue", Str (in_queue i)); ("function_id", Str (in_function i)); ("data", in_data i);
    ("messageReceiptId", Str (in_receipt i))] ++ opt_field "namespace" Str (in_namespace i)
    ++ opt_field "traceparent" Str (in_traceparent i) ++ opt_field "baggage" Str (in_baggage i));
  from_value v :=
    m ← strict ["queue"; "function_id"; "data"; "messageReceiptId"; "namespace"; "traceparent"; "baggage"; "_caller_worker_id"] v;
    q ← req "queue" as_str m; f ← req "function_id" as_str m; d ← req "data" Some m; r ← req "messageReceiptId" as_str m;
    n ← opt "namespace" as_str m; t ← opt "traceparent" as_str m; b ← opt "baggage" as_str m;
    _ ← opt "_caller_worker_id" as_str m;
    Some (mk_enqueue q f d r n t b);
|}.

Section WithStore.
Context {S : Type} `{QueueStore S}.

(** The call as the adapter stores it: the limits are the live configuration's. *)
Definition envelope_of (c : FunctionQueueConfig) (i : EnqueueInput) : FunctionQueueEnvelope :=
  mk_envelope (in_function i) (in_data i) (in_receipt i) (max_retries c) (backoff_ms c)
    (in_traceparent i) (in_baggage i) (in_namespace i) (Messages.priority_from_data (in_data i) (priority_field c)).

(** [enqueue]: the receipt. *)
Definition enqueue (e : Env) (live : QueueConfig) (i : EnqueueInput) (f : @FunctionQueues.State S) : result string string * FunctionQueues.State :=
  let queue := trim (in_queue i) in
  if is_empty queue then (Err "queue is required", f)
  else if blank (in_function i) then (Err "function_id is required", f)
  else if blank (in_receipt i) then (Err "messageReceiptId is required", f)
  else match queue_configs live !! queue with
  | None => (Err ("queue '" +:+ queue +:+ "' is not defined; call queue::define before enqueueing"), f)
  | Some c =>
      match FunctionQueues.publish_to_function_queue e queue (envelope_of c i) f with
      | (Ok _, f1) => (Ok (in_receipt i), f1)
      | (Err er, f1) => (Err ("enqueue to '" +:+ queue +:+ "' failed: " +:+ er), f1)
      end
  end.

End WithStore.
End Enqueue.

(** ** Functions on topics *)

Module TopicFunctions.
Import Queue StoreInterface.

Record DlqMessage : Type := mk_dlq_message {
  dlq_id : string;
  dlq_payload : Value;
  dlq_error : string;
  dlq_failed_at : Z;
  dlq_retries : Z;
  dlq_size_bytes : Z;
}.

Definition dec_dlq_message (v : Value) : option DlqMessage :=
  m ← as_object v; i ← req "id" as_str m; p ← req "payload" Some m; e ← req "error" as_str m;
  f ← req "failed_at" (dec_u u64_max) m; r ← req "retries" (dec_u u32_max) m; s ← req "size_bytes" (dec_u u64_max) m;
  Some (mk_dlq_message i p e f r s).

Definition default_dlq_limit : Z := 50.

Section WithStore.
Context `{SerdeText} {S : Type} `{QueueStore S} (iter : gset string -> list string).

Definition dlq_message_from_job (j : Job) : DlqMessage :=
  mk_dlq_message (job_id j) (payload j) "function call failed" (enqueued_at_ms j) (attempts j)
    (Z.of_nat (String.length (to_string (payload j)))).

(** The untagged enum: a message of another adapter, else a job. *)
Definition read_dlq_message (v : Value) : option DlqMessage :=
  match dec_dlq_message v with Some x => Some x | None => dlq_message_from_job <$> (from_value v : option Job) end.

Definition publish (e : string -> Env) (topic : string) (data : Value) (a : @Topics.Adapter S) : result unit string * Topics.Adapter :=
  if is_empty topic then (Err "Topic is not set", a) else (Ok tt, Topics.enqueue iter e topic data a).

Definition redrive (e : string -> Env) (queue : string) (a : @Topics.Adapter S) : result Z string * Topics.Adapter :=
  if is_empty queue then (Err "Queue name is required", a)
  else let '(n, a1) := Topics.redrive_dlq iter e queue a in (Ok n, a1).

Definition validate_single_input (queue id : string) : result unit string :=
  if is_empty queue then Err "Queue name is required" else if is_empty id then Err "Message ID is required" else Ok tt.

Definition redrive_message (e : string -> Env) (queue id : string) (a : @Topics.Adapter S) : result Z string * Topics.Adapter :=
  match validate_single_input queue id with
  | Err er => (Err er, a)
  | Ok _ => let '(found, a1) := Topics.redrive_dlq_message iter e queue id a in (Ok (if found : bool then 1%Z else 0%Z), a1)
  end.

Definition discard_message (e : string -> Env) (queue id : string) (a : @Topics.Adapter S) : result Z string * Topics.Adapter :=
  match validate_single_input queue id with
  | Err er => (Err er, a)
  | Ok _ => let '(found, a1) := Topics.discard_dlq_message iter e queue id a in (Ok (if found : bool then 1%Z else 0%Z), a1)
  end.

(** The topics that have dead letters. *)
Definition dlq_topics (function_queues : list string) (a : @Topics.Adapter S) : list (string * Z) :=
  filter (λ p : string * Z, (0 < p.2)%Z) ((λ p : string * Z, (p.1, Topics.dlq_count iter p.1 a)) <$> Topics.list_topics iter function_queues a).

(** The adapter is asked for everything up to the end of the page, as [dlq_peek] from 0. *)
Definition dlq_messages (topic : string) (offset limit : Z) (a : @Topics.Adapter S) : result (list DlqMessage) string :=
  if is_empty topic then Err "topic is required"
  else
    let values := Topics.dlq_peek iter topic 0 (sat_u64 (offset + limit)) a in
    Ok (omap read_dlq_message (take (Z.to_nat limit) (drop (Z.to_nat offset) values))).

End WithStore.
End TopicFunctions.

(** ** Properties *)

Module EnqueueProperties.
Import Queue QueueRules StoreInterface Settings Envelopes QueueSettings Enqueue.

Section Laws.
Context {S : Type} `{QueueStore S} (view : S -> StoreData) `{!QueueStoreLaws S view}.

(** An accepted [engine::queue::enqueue] stores exactly one job, at the back of the queue its
    trimmed name names, that carries the caller's call under the limits of the live
    configuration, and answers with the caller's receipt; the queue is one the live configuration
    defines and the adapter has set up.  A refused one leaves every queue, dead letters and
    in-flight jobs included, as it was. *)
Theorem enqueue_stores_one_call e live i (f : @FunctionQueues.State S) :
  let q := trim (in_queue i) in
  match enqueue e live i f with
  | (Ok receipt, f') =>
      receipt = in_receipt i /\ is_Some (FunctionQueues.function_queue_configs f !! q) /\
      exists c, queue_configs live !! q = Some c /\
        let job := new_job (env_uuid e) (to_value (envelope_of c i)) (env_now e) in
        forall u, entry (queues (view (FunctionQueues.store f'))) u =
          entry (queues (view (FunctionQueues.store f))) u ++ (if decide (u = q) then [job] else [])
  | (Err _, f') => view (FunctionQueues.store f') = view (FunctionQueues.store f)
  end.
Proof.
  cbv zeta. unfold enqueue. set (q := trim (in_queue i)). destruct (is_empty q); [done|].
  destruct (blank (in_function i)); [done|]. destruct (blank (in_receipt i)); [done|].
  destruct (queue_configs live !! q) as [c|]; [|done]. unfold FunctionQueues.publish_to_function_queue.
  destruct (FunctionQueues.function_queue_configs f !! q) as [c'|]; [|done].
  destruct (blank _); [done|]. destruct (blank _); [done|].
  pose proof (law_enqueue e q (to_value (envelope_of c i)) (FunctionQueues.store f)) as Hl.
  destruct (q_enqueue e q _ _) as [[id|er] s]; [|exact Hl]. split; [done|]. split; [by eexists|].
  exists c. split; [done|]. intros u. destruct Hl as [_ [r Hv]]. cbn [FunctionQueues.store FunctionQueues.with_store].
  rewrite Hv. cbn. rewrite entry_insert. case_decide as Hu; [by subst|by rewrite app_nil_r].
Qed.

End Laws.

(** *** A sample call *)

Section Sample.
Import Journal.
#[local] Existing Instance SampleFile.text.
#[local] Existing Instance SharedStore.

Definition live_config : QueueConfig := mk_config None {[ "jobs" := default_config ]} Enqueuer 30000.

Definition set_up : @FunctionQueues.State Shared :=
  FunctionQueues.mk_state (mk_shared empty_data None []) {[ "jobs" := default_config ]} ∅ ∅ 1 1.

Lemma enqueue_stores_one_call_witness :
  let '(receipt, f') := Enqueue.enqueue (mk_env AppendOk "id" 7) live_config (mk_enqueue " jobs " "fn" Null "r1" None None None) set_up in
  receipt = Ok "r1" /\ length (entry (queues (data (FunctionQueues.store f'))) "jobs") = 1%nat.
Proof.
  pose proof (enqueue_stores_one_call data (QueueStoreLaws0 := shared_laws) (mk_env AppendOk "id" 7) live_config
    (mk_enqueue " jobs " "fn" Null "r1" None None None) set_up) as Hs. cbv zeta in Hs.
  destruct (Enqueue.enqueue _ _ _ _) as [[r|er] f'] eqn:He; [|by vm_compute in He].
  destruct Hs as (-> & _ & c & _ & Hq). split; [done|]. rewrite (Hq "jobs"). by vm_compute.
Defined.

End Sample.
End EnqueueProperties.
