(* ===== verification/SessionTypes.v ===== *)
(** * The data of the session manager (session-manager/src/types.rs, error.rs)

    Content blocks, messages, entries and session records as inductive types with the
    source's constructors, what the code computes on them, and their serialization: the enums
    are internally tagged, every optional member is left out when absent, unknown members are
    ignored.  [TypeProperties] shows that every record the worker can hold reads back from
    its own serialization. *)

From Stdlib Require Import Ascii ZArith Lia.
From S2P Require Import Prelude Json Codec JsonText StateUpdate.

(** ** Data *)

Module Types.

(** App-defined metadata and origin correlation: a JSON object. *)
Abbreviation JsonMap := Fields.

Definition metadata_matches (want : JsonMap) (have : option JsonMap) : bool :=
  forallb (λ p, match have ≫= obj_get p.1 with Some v => value_eqb v p.2 | None => false end) want.

Inductive Role : Type := RoleUser | RoleAssistant | RoleFunctionResult | RoleCustom.
#[export] Instance Role_eq_dec : EqDecision Role.
Proof. solve_decision. Defined.

Inductive StopReason : Type := StopEnd | StopLength | StopFunctionCall | StopAborted | StopError.

Inductive ErrorKind : Type := AuthExpired | RateLimited | ContextOverflow | Transient | Permanent.

(** [cost_usd] is an [f64], by its bits. *)
Record Usage : Type := mk_usage {
  input : option Z; output : option Z; cache_read : option Z; cache_write : option Z;
  reasoning : option Z; cost_usd : option Z;
}.

Inductive ContentBlock : Type :=
| BText (text : string)
| BImage (mime data : string) (attachment_id : option string)
| BFile (attachment_id name mime : string) (size : Z)
| BThinking (text : string) (signature : option string)
| BFunctionCall (id function_id : string) (arguments : Value)
| BFunctionResult (function_call_id : string) (content : list ContentBlock) (is_error : option bool).

(** *** [ContentBlock::attachment_ids] *)

Definition push_new (id : string) (out : list string) : list string :=
  if bool_decide (id ∈ out) then out else out ++ [id].

(** [walk] on one block. *)
Fixpoint walk_block (b : ContentBlock) (out : list string) : list string :=
  match b with
  | BFile i _ _ _ | BImage _ _ (Some i) => push_new i out
  | BFunctionResult _ content _ => foldl (λ o b', walk_block b' o) out content
  | _ => out
  end.

Definition attachment_ids (blocks : list ContentBlock) : list string :=
  foldl (λ o b, walk_block b o) [] blocks.

(** *** [ContentBlock::elide_image_data]: the blocks, and whether anything changed. *)

Fixpoint elide_block (b : ContentBlock) : ContentBlock * bool :=
  match b with
  | BImage mime data (Some i) =>
      if is_empty data then (b, false) else (BImage mime "" (Some i), true)
  | BFunctionResult i content e =>
      let r := map elide_block content in (BFunctionResult i r.*1 e, existsb snd r)
  | _ => (b, false)
  end.

Definition elide_image_data (blocks : list ContentBlock) : list ContentBlock * bool :=
  let r := map elide_block blocks in (r.*1, existsb snd r).

(** *** Messages *)

(** The members of an assistant message beside its content. *)
Record AssistantInfo : Type := mk_assistant {
  stop_reason : StopReason;
  native_stop_reason : option string;
  error_message : option string;
  error_kind : option ErrorKind;
  warnings : option (list string);
  usage : option Usage;
  agent : option string;
  model : string;
  provider : string;
  assistant_timestamp : Z;
}.

Inductive AgentMessage : Type :=
| MUser (content : list ContentBlock) (timestamp : Z)
| MAssistant (content : list ContentBlock) (info : AssistantInfo)
| MFunctionResult (function_call_id function_id : string) (content : list ContentBlock)
    (details : Value) (is_error : bool) (timestamp : Z)
| MCustom (custom_type : string) (content : list ContentBlock) (display : option string)
    (details : option Value) (timestamp : Z).

Definition role (m : AgentMessage) : Role :=
  match m with
  | MUser _ _ => RoleUser
  | MAssistant _ _ => RoleAssistant
  | MFunctionResult _ _ _ _ _ _ => RoleFunctionResult
  | MCustom _ _ _ _ _ => RoleCustom
  end.

Definition content (m : AgentMessage) : list ContentBlock :=
  match m with
  | MUser c _ | MAssistant c _ | MFunctionResult _ _ c _ _ _ | MCustom _ c _ _ _ => c
  end.

(** [set_content], also the writes through [content_mut]. *)
Definition set_content (c : list ContentBlock) (m : AgentMessage) : AgentMessage :=
  match m with
  | MUser _ t => MUser c t
  | MAssistant _ i => MAssistant c i
  | MFunctionResult ci fi _ d e t => MFunctionResult ci fi c d e t
  | MCustom ty _ ds d t => MCustom ty c ds d t
  end.

Definition usage_block (b : ContentBlock) : option ContentBlock :=
  match b with BFunctionCall i f _ => Some (BFunctionCall i f Null) | _ => None end.

Definition project_usage (m : AgentMessage) : AgentMessage :=
  match m with
  | MAssistant c i => MAssistant (omap usage_block c) i
  | MUser _ t => MUser [] t
  | MFunctionResult ci fi _ _ e t => MFunctionResult ci fi [] Null e t
  | MCustom ty _ ds _ t => MCustom ty [] ds None t
  end.

(** [set_usage]: [None] for a message that cannot carry model usage. *)
Definition set_usage (u : Usage) (m : AgentMessage) : option AgentMessage :=
  match m with
  | MAssistant c i =>
      Some (MAssistant c (mk_assistant (stop_reason i) (native_stop_reason i) (error_message i) (error_kind i)
                            (warnings i) (Some u) (agent i) (model i) (provider i) (assistant_timestamp i)))
  | _ => None
  end.

(** *** Attachments and entries *)

Record CustomPayload : Type := mk_custom { custom_type : string; custom_data : Value }.

Record AttachmentMeta : Type := mk_attachment {
  attachment_id : string; att_session : string; att_name : string; att_mime : string;
  att_size : Z; sha256 : string; att_created_at : Z;
}.
#[export] Instance AttachmentMeta_eq_dec : EqDecision AttachmentMeta.
Proof. solve_decision. Defined.

Definition to_block (a : AttachmentMeta) : ContentBlock :=
  BFile (attachment_id a) (att_name a) (att_mime a) (att_size a).

Inductive SessionEntry : Type :=
| EMessage (id : string) (parent_id : option string) (timestamp revision : Z) (origin : option JsonMap)
    (message : AgentMessage)
| ECustom (id : string) (parent_id : option string) (timestamp revision : Z) (origin : option JsonMap)
    (custom_type : string) (data : Value).

Definition id (e : SessionEntry) : string :=
  match e with EMessage i _ _ _ _ _ | ECustom i _ _ _ _ _ _ => i end.
Definition parent_id (e : SessionEntry) : option string :=
  match e with EMessage _ p _ _ _ _ | ECustom _ p _ _ _ _ _ => p end.
Definition timestamp (e : SessionEntry) : Z :=
  match e with EMessage _ _ t _ _ _ | ECustom _ _ t _ _ _ _ => t end.
Definition revision (e : SessionEntry) : Z :=
  match e with EMessage _ _ _ r _ _ | ECustom _ _ _ r _ _ _ => r end.
Definition origin (e : SessionEntry) : option JsonMap :=
  match e with EMessage _ _ _ _ o _ | ECustom _ _ _ _ o _ _ => o end.
Definition is_message (e : SessionEntry) : bool := match e with EMessage _ _ _ _ _ _ => true | _ => false end.

(** *** Sessions *)

Inductive SessionStatus : Type := StatusIdle | StatusWorking | StatusDone | StatusError.
#[export] Instance SessionStatus_eq_dec : EqDecision SessionStatus.
Proof. solve_decision. Defined.

Inductive SessionKind : Type := KindUser | KindAutomation | KindE2e.
#[export] Instance SessionKind_eq_dec : EqDecision SessionKind.
Proof. solve_decision. Defined.

Record SessionMeta : Type := mk_meta {
  session_id : string;
  title : string;
  description : string;
  status : SessionStatus;
  status_reason : option string;
  kind : SessionKind;
  metadata : option JsonMap;
  forked_from : option string;
  draft : option string;
  draft_attachments : option (list AttachmentMeta);
  created_at : Z;
  updated_at : Z;
  message_count : Z;
}.

(** *** Errors (error.rs) *)

Inductive SessionError : Type :=
| NotFound (m : string)
| EntryNotFound (m : string)
| ParentNotFound (m : string)
| InvalidEntryKind (m : string)
| DetailsNotSupported (m : string)
| EmptyBatch (m : string)
| InvalidCursor (m : string)
| InvalidRequest (m : string)
| AttachmentTooLarge (m : string)
| AttachmentInUse (m : string)
| Storage (m : string).

Definition error_message_of (e : SessionError) : string :=
  match e with
  | NotFound m | EntryNotFound m | ParentNotFound m | InvalidEntryKind m | DetailsNotSupported m | EmptyBatch m
  | InvalidCursor m | InvalidRequest m | AttachmentTooLarge m | AttachmentInUse m | Storage m => m
  end.

Definition code (e : SessionError) : string :=
  match e with
  | NotFound _ => "session/not_found"
  | EntryNotFound _ => "session/entry_not_found"
  | ParentNotFound _ => "session/parent_not_found"
  | InvalidEntryKind _ => "session/invalid_entry_kind"
  | DetailsNotSupported _ => "session/details_not_supported"
  | EmptyBatch _ => "session/empty_batch"
  | InvalidCursor _ => "session/invalid_cursor"
  | InvalidRequest _ => "session/invalid_request"
  | AttachmentTooLarge _ => "session/attachment_too_large"
  | AttachmentInUse _ => "session/attachment_in_use"
  | Storage _ => "session/storage"
  end.

(** What the bus shows of an error: [code: message]. *)
Definition wire_error (e : SessionError) : string := code e +:+ ": " +:+ error_message_of e.

(** ** Serialization *)

(** An [f64] member: integers are accepted and rounded. *)
Definition dec_f64 (v : Value) : option Z :=
  match v with
  | Num (Float b) => Some b
  | Num (PosInt n) | Num (NegInt n) => F64.to_bits (F64.of_int n)
  | _ => None
  end.
Definition enc_f64 (b : Z) : Value := Num (Float b).

(** The tag of an internally tagged enum: a name, or the index of one. *)
Definition dec_tag (tag : string) (names : list string) (m : Fields) : option string :=
  match obj_get tag m with
  | Some (Str s) => if bool_decide (s ∈ names) then Some s else None
  | Some (Num (PosInt i)) => names !! Z.to_nat i
  | _ => None
  end.

Definition dec_map_obj (v : Value) : option JsonMap := as_object v.
Definition enc_map_obj (m : JsonMap) : Value := Obj m.
Definition enc_list {A} (e : A -> Value) (l : list A) : Value := Arr (e <$> l).

Definition role_name (r : Role) : string :=
  match r with RoleUser => "user" | RoleAssistant => "assistant" | RoleFunctionResult => "function_result" | RoleCustom => "custom" end.

Definition stop_name (r : StopReason) : string :=
  match r with
  | StopEnd => "end" | StopLength => "length" | StopFunctionCall => "function_call" | StopAborted => "aborted" | StopError => "error"
  end.
Definition dec_stop : Value -> option StopReason := dec_variant (λ s,
  if decide (s = "end") then Some StopEnd else if decide (s = "length") then Some StopLength
  else if decide (s = "function_call") then Some StopFunctionCall else if decide (s = "aborted") then Some StopAborted
  else if decide (s = "error") then Some StopError else None).

Definition error_kind_name (k : ErrorKind) : string :=
  match k with
  | AuthExpired => "auth_expired" | RateLimited => "rate_limited" | ContextOverflow => "context_overflow"
  | Transient => "transient" | Permanent => "permanent"
  end.
Definition dec_error_kind : Value -> option ErrorKind := dec_variant (λ s,
  if decide (s = "auth_expired") then Some AuthExpired else if decide (s = "rate_limited") then Some RateLimited
  else if decide (s = "context_overflow") then Some ContextOverflow else if decide (s = "transient") then Some Transient
  else if decide (s = "permanent") then Some Permanent else None).

Definition status_name (s : SessionStatus) : string :=
  match s with StatusIdle => "idle" | StatusWorking => "working" | StatusDone => "done" | StatusError => "error" end.
Definition dec_status : Value -> option SessionStatus := dec_variant (λ s,
  if decide (s = "idle") then Some StatusIdle else if decide (s = "working") then Some StatusWorking
  else if decide (s = "done") then Some StatusDone else if decide (s = "error") then Some StatusError else None).

Definition kind_name (k : SessionKind) : string :=
  match k with KindUser => "user" | KindAutomation => "automation" | KindE2e => "e2e" end.
Definition dec_kind : Value -> option SessionKind := dec_variant (λ s,
  if decide (s = "user") then Some KindUser else if decide (s = "automation") then Some KindAutomation
  else if decide (s = "e2e") then Some KindE2e else None).

#[export] Instance Usage_codec : Codec Usage := {|
  to_value u := json_obj (opt_field "input" enc_u (input u) ++ opt_field "output" enc_u (output u)
    ++ opt_field "cache_read" enc_u (cache_read u) ++ opt_field "cache_write" enc_u (cache_write u)
    ++ opt_field "reasoning" enc_u (reasoning u) ++ opt_field "cost_usd" enc_f64 (cost_usd u));
  from_value v :=
    m ← as_object v;
    a ← opt "input" (dec_u u64_max) m; b ← opt "output" (dec_u u64_max) m;
    c ← opt "cache_read" (dec_u u64_max) m; d ← opt "cache_write" (dec_u u64_max) m;
    e ← opt "reasoning" (dec_u u64_max) m; f ← opt "cost_usd" dec_f64 m;
    Some (mk_usage a b c d e f);
|}.

Definition BLOCK_TAGS : list string := ["text"; "image"; "file"; "thinking"; "function_call"; "function_result"].

Fixpoint enc_block (b : ContentBlock) : Value :=
  json_obj match b with
  | BText t => [("type", Str "text"); ("text", Str t)]
  | BImage m d a => [("type", Str "image"); ("mime", Str m); ("data", Str d)] ++ opt_field "attachment_id" Str a
  | BFile a n m s => [("type", Str "file"); ("attachment_id", Str a); ("name", Str n); ("mime", Str m); ("size", enc_u s)]
  | BThinking t s => [("type", Str "thinking"); ("text", Str t)] ++ opt_field "signature" Str s
  | BFunctionCall i f a => [("type", Str "function_call"); ("id", Str i); ("function_id", Str f); ("arguments", a)]
  | BFunctionResult i c e =>
      [("type", Str "function_result"); ("function_call_id", Str i); ("content", Arr (map enc_block c))]
      ++ opt_field "is_error" Bool e
  end.

(** [n] is more than the levels of the value. *)
Fixpoint dec_block (n : nat) (v : Value) : option ContentBlock :=
  match n with
  | O => None
  | S n' =>
      m ← as_object v; t ← dec_tag "type" BLOCK_TAGS m;
      if decide (t = "text") then s ← req "text" as_str m; Some (BText s)
      else if decide (t = "image") then
        i ← req "mime" as_str m; d ← req "data" as_str m; a ← opt "attachment_id" as_str m; Some (BImage i d a)
      else if decide (t = "file") then
        a ← req "attachment_id" as_str m; i ← req "name" as_str m; k ← req "mime" as_str m;
        s ← req "size" (dec_u u64_max) m; Some (BFile a i k s)
      else if decide (t = "thinking") then
        s ← req "text" as_str m; g ← opt "signature" as_str m; Some (BThinking s g)
      else if decide (t = "function_call") then
        i ← req "id" as_str m; f ← req "function_id" as_str m; a ← dflt "arguments" Some Null m;
        Some (BFunctionCall i f a)
      else
        i ← req "function_call_id" as_str m; c ← req "content" (dec_list (dec_block n')) m;
        e ← opt "is_error" as_bool m; Some (BFunctionResult i c e)
  end.

#[export] Instance ContentBlock_codec : Codec ContentBlock := {|
  to_value := enc_block; from_value v := dec_block (S (nesting v)) v;
|}.

Definition enc_content (c : list ContentBlock) : Value := enc_list to_value c.
Definition dec_content : Value -> option (list ContentBlock) := dec_list from_value.

Definition ROLE_TAGS : list string := ["user"; "assistant"; "function_result"; "custom"].

Definition assistant_fields (i : AssistantInfo) : Fields :=
  [("stop_reason", Str (stop_name (stop_reason i)))]
  ++ opt_field "native_stop_reason" Str (native_stop_reason i) ++ opt_field "error_message" Str (error_message i)
  ++ opt_field "error_kind" (λ k, Str (error_kind_name k)) (error_kind i)
  ++ opt_field "warnings" enc_str_list (warnings i) ++ opt_field "usage" to_value (usage i)
  ++ opt_field "agent" Str (agent i)
  ++ [("model", Str (model i)); ("provider", Str (provider i)); ("timestamp", enc_i64 (assistant_timestamp i))].

Definition dec_assistant (m : Fields) : option AssistantInfo :=
  a ← req "stop_reason" dec_stop m; b ← opt "native_stop_reason" as_str m; c ← opt "error_message" as_str m;
  d ← opt "error_kind" dec_error_kind m; e ← opt "warnings" (dec_list as_str) m; f ← opt "usage" from_value m;
  g ← opt "agent" as_str m; h ← req "model" as_str m; i ← req "provider" as_str m; j ← req "timestamp" dec_i64 m;
  Some (mk_assistant a b c d e f g h i j).

#[export] Instance AgentMessage_codec : Codec AgentMessage := {|
  to_value msg := json_obj ([("role", Str (role_name (role msg))); ("content", enc_content (content msg))] ++
    match msg with
    | MUser _ t => [("timestamp", enc_i64 t)]
    | MAssistant _ i => assistant_fields i
    | MFunctionResult ci fi _ d e t =>
        [("function_call_id", Str ci); ("function_id", Str fi); ("details", d); ("is_error", Bool e); ("timestamp", enc_i64 t)]
    | MCustom ty _ ds d t =>
        [("custom_type", Str ty)] ++ opt_field "display" Str ds ++ opt_field "details" (λ v, v) d ++ [("timestamp", enc_i64 t)]
    end);
  from_value v :=
    m ← as_object v; t ← dec_tag "role" ROLE_TAGS m; c ← req "content" dec_content m;
    if decide (t = "user") then ts ← req "timestamp" dec_i64 m; Some (MUser c ts)
    else if decide (t = "assistant") then i ← dec_assistant m; Some (MAssistant c i)
    else if decide (t = "function_result") then
      ci ← req "function_call_id" as_str m; fi ← req "function_id" as_str m; d ← dflt "details" Some Null m;
      e ← dflt "is_error" as_bool false m; ts ← req "timestamp" dec_i64 m; Some (MFunctionResult ci fi c d e ts)
    else
      ty ← req "custom_type" as_str m; ds ← opt "display" as_str m; d ← opt "details" Some m;
      ts ← req "timestamp" dec_i64 m; Some (MCustom ty c ds d ts);
|}.

#[export] Instance CustomPayload_codec : Codec CustomPayload := {|
  to_value p := json_obj [("custom_type", Str (custom_type p)); ("data", custom_data p)];
  from_value v :=
    m ← as_object v; t ← req "custom_type" as_str m; d ← dflt "data" Some Null m; Some (mk_custom t d);
|}.

#[export] Instance AttachmentMeta_codec : Codec AttachmentMeta := {|
  to_value a := json_obj [("attachment_id", Str (attachment_id a)); ("session_id", Str (att_session a));
    ("name", Str (att_name a)); ("mime", Str (att_mime a)); ("size", enc_u (att_size a)); ("sha256", Str (sha256 a));
    ("created_at", enc_i64 (att_created_at a))];
  from_value v :=
    m ← as_object v;
    a ← req "attachment_id" as_str m; b ← req "session_id" as_str m; c ← req "name" as_str m; d ← req "mime" as_str m;
    e ← req "size" (dec_u u64_max) m; f ← req "sha256" as_str m; g ← req "created_at" dec_i64 m;
    Some (mk_attachment a b c d e f g);
|}.

Definition ENTRY_TAGS : list string := ["message"; "custom"].

#[export] Instance SessionEntry_codec : Codec SessionEntry := {|
  to_value e := json_obj (
    [("kind", Str (if is_message e then "message" else "custom")); ("id", Str (id e));
     ("parent_id", enc_opt Str (parent_id e)); ("timestamp", enc_i64 (timestamp e)); ("revision", enc_u (revision e))]
    ++ opt_field "origin" enc_map_obj (origin e)
    ++ match e with
       | EMessage _ _ _ _ _ m => [("message", to_value m)]
       | ECustom _ _ _ _ _ t d => [("custom_type", Str t); ("data", d)]
       end);
  from_value v :=
    m ← as_object v; t ← dec_tag "kind" ENTRY_TAGS m;
    i ← req "id" as_str m; p ← opt "parent_id" as_str m; ts ← req "timestamp" dec_i64 m;
    r ← dflt "revision" (dec_u u64_max) 0%Z m; o ← opt "origin" dec_map_obj m;
    if decide (t = "message") then msg ← req "message" from_value m; Some (EMessage i p ts r o msg)
    else ty ← req "custom_type" as_str m; d ← dflt "data" Some Null m; Some (ECustom i p ts r o ty d);
|}.

#[export] Instance SessionMeta_codec : Codec SessionMeta := {|
  to_value s := json_obj (
    [("session_id", Str (session_id s)); ("title", Str (title s)); ("description", Str (description s));
     ("status", Str (status_name (status s)))]
    ++ opt_field "status_reason" Str (status_reason s)
    ++ [("kind", Str (kind_name (kind s)))]
    ++ opt_field "metadata" enc_map_obj (metadata s) ++ opt_field "forked_from" Str (forked_from s)
    ++ opt_field "draft" Str (draft s) ++ opt_field "draft_attachments" (enc_list to_value) (draft_attachments s)
    ++ [("created_at", enc_i64 (created_at s)); ("updated_at", enc_i64 (updated_at s));
        ("message_count", enc_u (message_count s))]);
  from_value v :=
    m ← as_object v;
    a ← req "session_id" as_str m; b ← req "title" as_str m; c ← req "description" as_str m;
    d ← req "status" dec_status m; e ← opt "status_reason" as_str m; f ← dflt "kind" dec_kind KindUser m;
    g ← opt "metadata" dec_map_obj m; h ← opt "forked_from" as_str m; i ← opt "draft" as_str m;
    j ← opt "draft_attachments" (dec_list from_value) m; k ← req "created_at" dec_i64 m;
    l ← req "updated_at" dec_i64 m; n ← req "message_count" (dec_u u64_max) m;
    Some (mk_meta a b c d e f g h i j k l n);
|}.

End Types.

(** ** Every record reads back *)

Module TypeRules.
Import Types.

Definition u64_opt (o : option Z) : Prop := from_option (in_range 0 u64_max) True o.

Fixpoint block_ok (b : ContentBlock) : Prop :=
  match b with
  | BFile _ _ _ s => in_range 0 u64_max s
  | BFunctionResult _ c _ => foldr and True (map block_ok c)
  | _ => True
  end.

Record usage_ok (u : Usage) : Prop := {
  input_ok : u64_opt (input u); output_ok : u64_opt (output u); cache_read_ok : u64_opt (cache_read u);
  cache_write_ok : u64_opt (cache_write u); reasoning_ok : u64_opt (reasoning u);
}.

Definition info_ok (i : AssistantInfo) : Prop :=
  from_option usage_ok True (usage i) /\ in_range i64_min i64_max (assistant_timestamp i).

Definition message_ok (m : AgentMessage) : Prop :=
  Forall block_ok (content m) /\
  match m with
  | MUser _ t => in_range i64_min i64_max t
  | MAssistant _ i => info_ok i
  | MFunctionResult _ _ _ _ _ t => in_range i64_min i64_max t
  | MCustom _ _ _ d t => d <> Some Null /\ in_range i64_min i64_max t
  end.

Definition attachment_ok (a : AttachmentMeta) : Prop :=
  in_range 0 u64_max (att_size a) /\ in_range i64_min i64_max (att_created_at a).

Definition entry_ok (e : SessionEntry) : Prop :=
  in_range i64_min i64_max (timestamp e) /\ in_range 0 u64_max (revision e) /\
  match e with EMessage _ _ _ _ _ m => message_ok m | ECustom _ _ _ _ _ _ _ => True end.

Record meta_ok (s : SessionMeta) : Prop := {
  created_ok : in_range i64_min i64_max (created_at s); updated_ok : in_range i64_min i64_max (updated_at s);
  count_ok : in_range 0 u64_max (message_count s);
  parked_ok : from_option (Forall attachment_ok) True (draft_attachments s);
}.

(** Induction through the content of function results. *)
Section BlockInd.
Context (P : ContentBlock -> Prop).
Context (HText : forall t, P (BText t)) (HImage : forall m d a, P (BImage m d a)) (HFile : forall a n m s, P (BFile a n m s))
        (HThinking : forall t s, P (BThinking t s)) (HCall : forall i f a, P (BFunctionCall i f a))
        (HResult : forall i c e, Forall P c -> P (BFunctionResult i c e)).
Fixpoint block_ind (b : ContentBlock) : P b :=
  match b with
  | BText t => HText t | BImage m d a => HImage m d a | BFile a n m s => HFile a n m s
  | BThinking t s => HThinking t s | BFunctionCall i f a => HCall i f a
  | BFunctionResult i c e => HResult i c e ((fix go l : Forall P l :=
      match l with [] => Forall_nil_2 _ | x :: l' => Forall_cons_2 _ _ _ (block_ind x) (go l') end) c)
  end.
End BlockInd.

Lemma all_forall {A} (P : A -> Prop) l : foldr and True (map P l) <-> Forall P l.
Proof. induction l as [|x l IH]; simpl; [by split|]. rewrite Forall_cons. by rewrite IH. Qed.

(** *** Nesting *)

Lemma obj_nesting_member k m v : obj_get k m = Some v -> nesting v < nesting (Obj m).
Proof.
  intros Hk%obj_get_elem. simpl. apply Nat.lt_succ_r.
  induction m as [|p m IH]; [by apply elem_of_nil in Hk|].
  simpl. apply elem_of_cons in Hk as [<-|Hk]; simpl; [lia|]. specialize (IH Hk). lia.
Qed.

Lemma nesting_elem v l : v ∈ l -> nesting v < nesting (Arr l).
Proof.
  intros Hv. simpl. apply Nat.lt_succ_r. induction Hv as [x l|x y l Hx IH]; simpl; lia.
Qed.

Lemma nesting_json_obj k v l : obj_get k l = Some v -> nesting v < nesting (json_obj l).
Proof. intros Hk. apply (obj_nesting_member k). by rewrite obj_get_of_list. Qed.

(** *** Reading what was written *)

Lemma dec_tag_obj tag names s l : obj_get tag l = Some (Str s) -> s ∈ names -> dec_tag tag names (obj_of_list l) = Some s.
Proof. intros Hg Hs. unfold dec_tag. rewrite obj_get_of_list, Hg. by rewrite bool_decide_true. Qed.

Lemma dec_enc_list {A} (e : A -> Value) d l : Forall (λ x, d (e x) = Some x) l -> dec_list d (enc_list e l) = Some l.
Proof. apply mapM_enc. Qed.

(** A member that is written as [null] when absent. *)
Lemma nullable_obj {A} k (e : A -> Value) d o l :
  obj_get k l = Some (enc_opt e o) -> (forall x, o = Some x -> e x <> Null /\ d (e x) = Some x) ->
  opt k d (obj_of_list l) = Some o.
Proof. intros Hl Hd. unfold opt, dflt. rewrite obj_get_of_list, Hl. by apply dec_enc_opt. Qed.

Ltac get_tag tag s := rewrite (dec_tag_obj tag _ s); [| field_tac | set_solver]; cbn [mbind option_bind].
Ltac opt_tac := intros ? ?; simplify_eq/=; split; done.

Lemma block_reads_back b n : block_ok b -> nesting (enc_block b) < n -> dec_block n (enc_block b) = Some b.
Proof.
  revert n. induction b as [t|m d a|a nm m s|t s|i f a|i c e IH] using block_ind; intros n Hb Hn;
    (destruct n as [|n]; [lia|]); cbn [enc_block dec_block] in *; cbn [as_object json_obj mbind option_bind].
  - get_tag "type" "text". by get_req "text" t.
  - get_tag "type" "image". get_req "mime" m; [|done]. get_req "data" d; [|done]. get_opt "attachment_id" Str a; [done|opt_tac].
  - get_tag "type" "file". get_req "attachment_id" a; [|done]. get_req "name" nm; [|done]. get_req "mime" m; [|done].
    get_req "size" s; [done|]. by apply dec_enc_u.
  - get_tag "type" "thinking". get_req "text" t; [|done]. get_opt "signature" Str s; [done|opt_tac].
  - get_tag "type" "function_call". get_req "id" i; [|done]. get_req "function_id" f; [|done]. by get_dflt "arguments" a.
  - get_tag "type" "function_result". get_req "function_call_id" i; [|done].
    assert (nesting (Arr (map enc_block c)) < n) as Hc.
    { assert (nesting (Arr (map enc_block c)) < nesting (enc_block (BFunctionResult i c e))); [|cbn [enc_block] in *; lia].
      apply (nesting_json_obj "content"). by field_tac. }
    get_req "content" c; [|].
    + get_opt "is_error" Bool e; [done|opt_tac].
    + apply (dec_enc_list enc_block). apply all_forall in Hb. rewrite Forall_forall in *. intros x Hx.
      apply IH; [done|by apply Hb|]. assert (nesting (enc_block x) < nesting (Arr (map enc_block c))); [|lia].
      apply nesting_elem. apply list_elem_of_In, in_map, list_elem_of_In, Hx.
Qed.

Lemma block_codec b : block_ok b -> codec_ok b.
Proof. intros Hb. apply block_reads_back; [done|]. cbn. lia. Qed.

Lemma content_codec c : Forall block_ok c -> dec_content (enc_content c) = Some c.
Proof. intros Hc. apply dec_enc_list. eapply Forall_impl; [exact Hc|]. apply block_codec. Qed.

Lemma usage_codec u : usage_ok u -> codec_ok u.
Proof.
  intros [H1 H2 H3 H4 H5]. unfold codec_ok. cbn [from_value to_value Usage_codec]. codec_tac.
  assert (forall o, u64_opt o -> forall x, o = Some x -> enc_u x <> Null /\ dec_u u64_max (enc_u x) = Some x) as Hu.
  { intros o Ho x ->. split; [done|]. by apply dec_enc_u. }
  get_opt "input" enc_u (input u); [|by apply Hu]. get_opt "output" enc_u (output u); [|by apply Hu].
  get_opt "cache_read" enc_u (cache_read u); [|by apply Hu]. get_opt "cache_write" enc_u (cache_write u); [|by apply Hu].
  get_opt "reasoning" enc_u (reasoning u); [|by apply Hu]. get_opt "cost_usd" enc_f64 (cost_usd u); [by destruct u|opt_tac].
Qed.

Lemma stop_codec r : dec_stop (Str (stop_name r)) = Some r.
Proof. by destruct r. Qed.
Lemma error_kind_codec k : dec_error_kind (Str (error_kind_name k)) = Some k.
Proof. by destruct k. Qed.
Lemma status_codec s : dec_status (Str (status_name s)) = Some s.
Proof. by destruct s. Qed.
Lemma kind_codec k : dec_kind (Str (kind_name k)) = Some k.
Proof. by destruct k. Qed.

Lemma message_codec m : message_ok m -> codec_ok m.
Proof.
  intros [Hc Hm]. unfold codec_ok. cbn [from_value to_value AgentMessage_codec]. cbn [as_object json_obj mbind option_bind].
  assert (dec_content (enc_content (content m)) = Some (content m)) as Hcc by by apply content_codec.
  destruct m as [c t|c i|ci fi c d e t|ty c ds d t]; cbn [role role_name content] in *.
  - get_tag "role" "user". get_req "content" c; [|done]. get_req "timestamp" t; [done|by apply dec_enc_i64].
  - destruct Hm as [Hu Ht]. get_tag "role" "assistant". get_req "content" c; [|done]. unfold assistant_fields, dec_assistant.
    get_req "stop_reason" (stop_reason i); [|apply stop_codec]. get_opt "native_stop_reason" Str (native_stop_reason i); [|opt_tac].
    get_opt "error_message" Str (error_message i); [|opt_tac].
    get_opt "error_kind" (λ k, Str (error_kind_name k)) (error_kind i); [|intros k _; split; [done|apply error_kind_codec]].
    get_opt "warnings" enc_str_list (warnings i); [|intros w _; split; [done|apply dec_enc_str_list]].
    get_opt "usage" (to_value (A := Usage)) (usage i); [|intros u Hi; rewrite Hi in Hu; split; [done|by apply usage_codec]].
    get_opt "agent" Str (agent i); [|opt_tac]. get_req "model" (model i); [|done]. get_req "provider" (provider i); [|done].
    get_req "timestamp" (assistant_timestamp i); [by destruct i|by apply dec_enc_i64].
  - get_tag "role" "function_result". get_req "content" c; [|done]. get_req "function_call_id" ci; [|done].
    get_req "function_id" fi; [|done]. get_dflt "details" d; [|done]. get_dflt "is_error" e; [|done].
    get_req "timestamp" t; [done|by apply dec_enc_i64].
  - destruct Hm as [Hd Ht]. get_tag "role" "custom". get_req "content" c; [|done]. get_req "custom_type" ty; [|done].
    get_opt "display" Str ds; [|opt_tac]. get_opt "details" (λ v : Value, v) d; [|intros x ->; split; [congruence|done]].
    get_req "timestamp" t; [done|by apply dec_enc_i64].
Qed.

Lemma attachment_codec a : attachment_ok a -> codec_ok a.
Proof.
  intros [Hs Ht]. unfold codec_ok. cbn [from_value to_value AttachmentMeta_codec]. codec_tac.
  get_req "attachment_id" (attachment_id a); [|done]. get_req "session_id" (att_session a); [|done].
  get_req "name" (att_name a); [|done]. get_req "mime" (att_mime a); [|done].
  get_req "size" (att_size a); [|by apply dec_enc_u]. get_req "sha256" (sha256 a); [|done].
  get_req "created_at" (att_created_at a); [by destruct a|by apply dec_enc_i64].
Qed.

Lemma session_entry_codec e : entry_ok e -> codec_ok e.
Proof.
  intros (Ht & Hr & Hm). unfold codec_ok. cbn [from_value to_value SessionEntry_codec]. cbn [as_object json_obj mbind option_bind].
  destruct e as [i p ts r o m|i p ts r o ty d]; cbn [is_message id parent_id timestamp revision origin] in *.
  - get_tag "kind" "message". get_req "id" i; [|done]. rewrite (nullable_obj "parent_id" Str _ p) by (field_tac || opt_tac). cbn [mbind option_bind].
    get_req "timestamp" ts; [|by apply dec_enc_i64]. get_dflt "revision" r; [|by apply dec_enc_u].
    get_opt "origin" enc_map_obj o; [|opt_tac]. get_req "message" m; [done|by apply message_codec].
  - get_tag "kind" "custom". get_req "id" i; [|done]. rewrite (nullable_obj "parent_id" Str _ p) by (field_tac || opt_tac). cbn [mbind option_bind].
    get_req "timestamp" ts; [|by apply dec_enc_i64]. get_dflt "revision" r; [|by apply dec_enc_u].
    get_opt "origin" enc_map_obj o; [|opt_tac]. get_req "custom_type" ty; [|done]. by get_dflt "data" d.
Qed.

Lemma meta_codec s : meta_ok s -> codec_ok s.
Proof.
  intros [Hc Hu Hn Hp]. unfold codec_ok. cbn [from_value to_value SessionMeta_codec]. codec_tac.
  get_req "session_id" (session_id s); [|done]. get_req "title" (title s); [|done]. get_req "description" (description s); [|done].
  get_req "status" (status s); [|apply status_codec]. get_opt "status_reason" Str (status_reason s); [|opt_tac].
  get_dflt "kind" (kind s); [|apply kind_codec]. get_opt "metadata" enc_map_obj (metadata s); [|opt_tac].
  get_opt "forked_from" Str (forked_from s); [|opt_tac]. get_opt "draft" Str (draft s); [|opt_tac].
  get_opt "draft_attachments" (enc_list (to_value (A := AttachmentMeta))) (draft_attachments s).
  2: { intros l Hl. rewrite Hl in Hp. split; [done|]. apply dec_enc_list. eapply Forall_impl; [exact Hp|]. apply attachment_codec. }
  get_req "created_at" (created_at s); [|by apply dec_enc_i64]. get_req "updated_at" (updated_at s); [|by apply dec_enc_i64].
  get_req "message_count" (message_count s); [by destruct s|by apply dec_enc_u].
Qed.

(** *** Attachments and images *)

Lemma elem_push_new i j out : i ∈ push_new j out <-> i = j \/ i ∈ out.
Proof. unfold push_new. case_bool_decide; [set_solver|]. rewrite elem_of_app, list_elem_of_singleton. tauto. Qed.

Lemma push_new_NoDup j out : NoDup out -> NoDup (push_new j out).
Proof.
  intros Hn. unfold push_new. case_bool_decide; [done|]. apply NoDup_app. split; [done|]. split; [|apply NoDup_singleton].
  intros x Hx ->%list_elem_of_singleton. done.
Qed.

(** Some block of [b], at any depth, refers to attachment [i]. *)
Fixpoint refers (i : string) (b : ContentBlock) : Prop :=
  match b with
  | BFile j _ _ _ | BImage _ _ (Some j) => i = j
  | BFunctionResult _ c _ => foldr or False (map (refers i) c)
  | _ => False
  end.

Lemma some_exists {A} (P : A -> Prop) l : foldr or False (map P l) <-> Exists P l.
Proof. induction l as [|x l IH]; simpl; [by rewrite Exists_nil|]. by rewrite Exists_cons, IH. Qed.

Lemma elem_walk_block i b out : i ∈ walk_block b out <-> refers i b \/ i ∈ out.
Proof.
  revert out. induction b as [t|m d [a|]|a nm m s|t s|j f a|j c e IH] using block_ind; intros out; cbn [walk_block refers];
    rewrite ?elem_push_new; try tauto.
  revert out. induction IH as [|b c Hb Hc IHc]; intros out; simpl; [tauto|]. rewrite IHc, Hb. tauto.
Qed.

Lemma elem_attachment_ids i blocks : i ∈ attachment_ids blocks <-> Exists (refers i) blocks.
Proof.
  unfold attachment_ids. assert (forall out, i ∈ foldl (λ o b, walk_block b o) out blocks <-> Exists (refers i) blocks \/ i ∈ out) as H.
  { induction blocks as [|b l IH]; intros out; simpl; [rewrite Exists_nil; tauto|]. rewrite IH, elem_walk_block, Exists_cons. tauto. }
  rewrite H. set_solver.
Qed.

End TypeRules.
