(* ===== verification/SessionLog.v ===== *)
(** * The log of one session (session-manager/src/store/fs.rs)

    A session is one append-only file of JSON lines, replayed into a [LoadedSession] where
    the last record of a key wins.  Module [Log] is the records, the materialized state, and
    the operations on one open session: the text of its file and its state in memory, with
    writes that may fail at any byte.  [LogRules] says what an append, a torn append, a repair and a
    snapshot do to the records a file holds. *)

From Stdlib Require Import Ascii ZArith Lia.
From S2P Require Import Prelude Json Codec JsonText SessionTypes.
Import Types.

Module Log.

(** ** Records and the materialized state *)

Inductive Record_ : Type :=
| RMeta (m : SessionMeta)
| REntry (e : SessionEntry)
| RLeaf (entry_id : option string)
| RAppend (e : SessionEntry) (m : SessionMeta)
| RCommit (entry_id : string).

Definition RECORD_TAGS : list string := ["meta"; "entry"; "leaf"; "append"; "commit"].

#[export] Instance Record_codec : Codec Record_ := {|
  to_value r := json_obj match r with
    | RMeta m => [("type", Str "meta"); ("meta", to_value m)]
    | REntry e => [("type", Str "entry"); ("entry", to_value e)]
    | RLeaf i => [("type", Str "leaf"); ("entry_id", enc_opt Str i)]
    | RAppend e m => [("type", Str "append"); ("entry", to_value e); ("meta", to_value m)]
    | RCommit i => [("type", Str "commit"); ("entry_id", Str i)]
    end;
  from_value v :=
    m ← as_object v; t ← dec_tag "type" RECORD_TAGS m;
    if decide (t = "meta") then s ← req "meta" from_value m; Some (RMeta s)
    else if decide (t = "entry") then e ← req "entry" from_value m; Some (REntry e)
    else if decide (t = "leaf") then i ← opt "entry_id" as_str m; Some (RLeaf i)
    else if decide (t = "append") then e ← req "entry" from_value m; s ← req "meta" from_value m; Some (RAppend e s)
    else i ← req "entry_id" as_str m; Some (RCommit i);
|}.

Record LoadedSession : Type := mk_loaded {
  meta : option SessionMeta;
  entries : gmap string SessionEntry;
  leaf : option string;
  committed : gset string;
  pending_legacy_append : bool;
}.

Definition empty_session : LoadedSession := mk_loaded None ∅ None ∅ false.

Definition is_empty (s : LoadedSession) : bool :=
  bool_decide (meta s = None) && bool_decide (entries s = ∅) && bool_decide (leaf s = None).

(** The loop of [mark_active_path_committed]. *)
Fixpoint mark_from (fuel : nat) (es : gmap string SessionEntry) (cursor : option string) (done : gset string) : gset string :=
  match fuel, cursor with
  | S n, Some i =>
      if decide (i ∈ done) then done
      else mark_from n es (es !! i ≫= parent_id) ({[ i ]} ∪ done)
  | _, _ => done
  end.

(** Every round but the last marks another entry. *)
Definition mark_active_path_committed (s : LoadedSession) : LoadedSession :=
  mk_loaded (meta s) (entries s) (leaf s)
    (mark_from (S (S (size (entries s)))) (entries s) (leaf s) (committed s)) (pending_legacy_append s).

Definition apply (r : Record_) (s : LoadedSession) : LoadedSession :=
  match r with
  | RMeta m =>
      let s1 := mk_loaded (Some m) (entries s) (leaf s) (committed s) (pending_legacy_append s) in
      if pending_legacy_append s then
        let s2 := mark_active_path_committed s1 in mk_loaded (meta s2) (entries s2) (leaf s2) (committed s2) false
      else s1
  | REntry e => mk_loaded (meta s) (<[id e := e]> (entries s)) (leaf s) (committed s) (pending_legacy_append s)
  | RLeaf i => mk_loaded (meta s) (entries s) i (committed s) true
  | RAppend e m => mk_loaded (Some m) (<[id e := e]> (entries s)) (Some (id e)) ({[ id e ]} ∪ committed s) false
  | RCommit i => mk_loaded (meta s) (entries s) (leaf s) ({[ i ]} ∪ committed s) (pending_legacy_append s)
  end.

Definition snapshot_records (s : LoadedSession) : list Record_ :=
  match meta s with Some m => [RMeta m] | None => [] end
  ++ (REntry <$> btree_values (entries s)) ++ (RCommit <$> btree_set_iter (committed s))
  ++ match leaf s with Some i => [RLeaf (Some i)] | None => [] end.

Definition with_parent (e : SessionEntry) (p : option string) : SessionEntry :=
  match e with
  | EMessage i _ t r o m => EMessage i p t r o m
  | ECustom i _ t r o ty d => ECustom i p t r o ty d
  end.

(** ** The file *)

Abbreviation StoreError := string (only parsing).

(** An append succeeds, fails before it writes, or stops after some bytes. *)
Inductive append_io : Type :=
| AppendOk
| AppendFails (e : StoreError)
| AppendStops (bytes : nat) (e : StoreError).

(** Rewriting or removing the file succeeds as a whole or leaves the file as it was. *)
Inductive snapshot_io : Type :=
| SnapshotOk
| SnapshotFails (e : StoreError).

Section WithText.
Context `{SerdeFile}.

Definition read_record (s : string) : option Record_ :=
  match read_text s with Parsed v => from_value v | _ => None end.

(** [str::lines] drops a carriage return before the newline. *)
Fixpoint strip_cr (s : string) : string :=
  match s with
  | EmptyString => ""
  | String "013" EmptyString => ""
  | String c s' => String c (strip_cr s')
  end.

(** The records of a text: blank and malformed lines are skipped. *)
Definition line_record (line : string) : option Record_ :=
  let l := strip_cr line in
  if Prelude.is_empty (trim l) then None else read_record l.

Definition records_of (text : string) : list Record_ := omap line_record (split_char newline text).

Definition replay (rs : list Record_) (s : LoadedSession) : LoadedSession := foldl (λ s r, apply r s) s rs.

(** A missing file is an empty session; a text that is not UTF-8 cannot be read. *)
Definition replay_file (text : option string) : result LoadedSession StoreError :=
  match text with
  | None => Ok empty_session
  | Some t =>
      if utf8_ok t then Ok (replay (records_of t) empty_session)
      else Err "read: stream did not contain valid UTF-8"
  end.

(** A text up to and with its last newline, and the rest. *)
Fixpoint cut_tail (s : string) : string * string :=
  match s with
  | EmptyString => ("", "")
  | String c s' =>
      let '(h, t) := cut_tail s' in
      if Prelude.is_empty h then (if decide (c = newline) then (String c "", t) else ("", String c t))
      else (String c h, t)
  end.

Definition record_line (r : Record_) : string := file_text (to_value r) +:+ nl.

(** What is written, and after what: an unfinished last line is cut off, a finished one that lacks
    its newline gets it. *)
Definition repaired (text : string) : string * bool :=
  let '(h, t) := cut_tail text in
  if Prelude.is_empty t then (text, false)
  else match read_record t with Some _ => (text, true) | None => (h, false) end.

Definition append_record (io : append_io) (text : option string) (r : Record_) : result unit StoreError * option string :=
  match io with
  | AppendFails e => (Err e, text)
  | _ =>
      let '(base, needs_separator) := repaired (default "" text) in
      let bytes := (if needs_separator then nl else "") +:+ record_line r in
      match io with
      | AppendStops n e => (Err e, Some (base +:+ String.substring 0 (Nat.min n (String.length bytes - 1)) bytes))
      | _ => (Ok tt, Some (base +:+ bytes))
      end
  end.

(** ** Operations on an open session: its file and its state *)

Record Open : Type := mk_open { text : option string; session : LoadedSession }.

Definition append_and_apply (io : append_io) (r : Record_) (o : Open) : result unit StoreError * Open :=
  match append_record io (text o) r with
  | (Ok _, t) => (Ok tt, mk_open t (apply r (session o)))
  | (Err e, t) => (Err e, mk_open t (session o))
  end.

Definition snapshot_text (s : LoadedSession) : option string :=
  if is_empty s then None else Some (foldr String.append "" (record_line <$> snapshot_records s)).

(** [persist_snapshot] and its caller: the state changes when the file has. *)
Definition mutate_snapshot (io : snapshot_io) (mutate : LoadedSession -> LoadedSession) (o : Open)
  : result unit StoreError * Open :=
  match io with
  | SnapshotFails e => (Err e, o)
  | SnapshotOk => let next := mutate (session o) in (Ok tt, mk_open (snapshot_text next) next)
  end.

Definition clear_meta (s : LoadedSession) : LoadedSession :=
  mk_loaded None (entries s) (leaf s) (committed s) (pending_legacy_append s).
Definition clear_entries (s : LoadedSession) : LoadedSession := mk_loaded (meta s) ∅ (leaf s) ∅ false.
Definition clear_leaf (s : LoadedSession) : LoadedSession :=
  mk_loaded (meta s) (entries s) None (committed s) (pending_legacy_append s).

Definition put_meta io (m : SessionMeta) : Open -> result unit StoreError * Open := append_and_apply io (RMeta m).
Definition put_entry io (e : SessionEntry) : Open -> result unit StoreError * Open := append_and_apply io (REntry e).
Definition set_active_leaf io (i : string) : Open -> result unit StoreError * Open := append_and_apply io (RLeaf (Some i)).
Definition delete_meta io : Open -> result unit StoreError * Open := mutate_snapshot io clear_meta.
Definition delete_entries io : Open -> result unit StoreError * Open := mutate_snapshot io clear_entries.
Definition delete_active_leaf io : Open -> result unit StoreError * Open := mutate_snapshot io clear_leaf.

(** *** [commit_append] *)

Record CommitAppendResult : Type := mk_commit { c_entry : SessionEntry; c_meta : SessionMeta; c_committed : bool }.

Definition bump_meta (e : SessionEntry) (m : SessionMeta) : SessionMeta :=
  mk_meta (session_id m) (title m) (description m) (status m) (status_reason m) (kind m) (metadata m) (forked_from m)
    (draft m) (draft_attachments m) (created_at m) (timestamp e)
    (if is_message e then ((message_count m + 1) mod 2 ^ 64)%Z else message_count m).

(** The entry that is stored: one that is there already is kept as it is. *)
Definition resolve_entry (sid : string) (e : SessionEntry) (parent_explicit : bool) (s : LoadedSession)
  : result SessionEntry StoreError :=
  match entries s !! id e with
  | Some existing => Ok existing
  | None =>
      if parent_explicit then
        match parent_id e with
        | Some p =>
            match entries s !! p with
            | Some _ => Ok e
            | None => Err ("parent entry " +:+ p +:+ " does not exist in session " +:+ sid)
            end
        | None => Ok e
        end
      else Ok (with_parent e (leaf s))
  end.

(** What [commit_append] decides from the state: an answer, or the record to write. *)
Definition decide_append (sid : string) (e : SessionEntry) (parent_explicit : bool) (s : LoadedSession)
  : result (CommitAppendResult + SessionEntry * SessionMeta) StoreError :=
  match meta s with
  | None => Err ("session " +:+ sid +:+ " does not exist")
  | Some m =>
      match existing ← entries s !! id e; if decide (id existing ∈ committed s) then Some existing else None with
      | Some existing => Ok (inl (mk_commit existing m false))
      | None =>
          match resolve_entry sid e parent_explicit s with
          | Ok e' => Ok (inr (e', bump_meta e' m))
          | Err x => Err x
          end
      end
  end.

Definition commit_append (io : append_io) (sid : string) (e : SessionEntry) (parent_explicit : bool) (o : Open)
  : result CommitAppendResult StoreError * Open :=
  match decide_append sid e parent_explicit (session o) with
  | Err x => (Err x, o)
  | Ok (inl r) => (Ok r, o)
  | Ok (inr (e', m')) =>
      match append_and_apply io (RAppend e' m') o with
      | (Ok _, o') => (Ok (mk_commit e' m' true), o')
      | (Err x, o') => (Err x, o')
      end
  end.

End WithText.
End Log.

(** ** What a file holds *)

Module LogRules.
Import Log TypeRules.

(** *** Strings *)

Lemma split_char_app c a b : split_char c (a +:+ String c b) = split_char c a ++ split_char c b.
Proof.
  induction a as [|x a IH].
  - change ("" +:+ String c b) with (String c b). cbn [split_char]. by rewrite decide_True.
  - rewrite append_cons. cbn [split_char]. case_decide; [by rewrite IH|]. rewrite IH.
    pose proof (split_char_nonempty c a). by destruct (split_char c a).
Qed.

Lemma split_char_none c a : contains_char c a = false -> split_char c a = [a].
Proof. induction a as [|x a IH]; [done|]. cbn [contains_char split_char]. case_decide; [done|]. intros Ha. by rewrite IH. Qed.

Lemma strip_cr_none s : contains_char "013" s = false -> strip_cr s = s.
Proof.
  induction s as [|c s IH]; [done|]. cbn [contains_char]. case_decide as Hc; [done|]. intros Hs. specialize (IH Hs).
  assert (strip_cr (String c s) = String c (strip_cr s)) as ->; [|by rewrite IH].
  cbn [strip_cr]. destruct s; [|by destruct c as [[] [] [] [] [] [] [] []]]. destruct c as [[] [] [] [] [] [] [] []]; try done.
Qed.

Lemma is_empty_eq s : Prelude.is_empty s = true <-> s = "".
Proof. by destruct s. Qed.

(** A printable ASCII character in front is not white space. *)
Lemma trim_rev_keeps s : trim_start_rev (s +:+ "{") <> "".
Proof.
  remember (String.length s) as n eqn:Hn. revert s Hn. induction (lt_wf n) as [n _ IH]. intros s ->.
  destruct s as [|a s]; [done|]. rewrite append_cons. cbn [trim_start_rev].
  destruct (ascii_white a); [apply (IH (String.length s)); simpl; auto with lia|].
  destruct s as [|b s]; [rewrite append_nil_l; destruct (white2 "{" a) eqn:Hw; [|done]; done|]. rewrite append_cons.
  destruct (white2 b a); [apply (IH (String.length s)); simpl; auto with lia|].
  destruct s as [|c s]; [rewrite append_nil_l; destruct (white3 "{" b a) eqn:Hw; [|done]; done|]. rewrite append_cons.
  destruct (white3 c b a); [apply (IH (String.length s)); simpl; auto with lia|done].
Qed.

Lemma rev_cons c s : String.rev (String c s) = String.rev s +:+ String c "".
Proof.
  assert (forall a b, String.rev_app a b = String.rev a +:+ b) as H.
  { intros a. unfold String.rev. induction a as [|x a IH]; intros b; [done|]. cbn [String.rev_app]. rewrite IH, (IH (String x "")).
    by rewrite <-append_assoc. }
  unfold String.rev. cbn [String.rev_app]. apply H.
Qed.

Lemma trim_brace s : trim (String "{" s) <> "".
Proof.
  unfold trim, trim_end. assert (trim_start (String "{" s) = String "{" s) as ->.
  { cbn [trim_start]. destruct s as [|b s]; [done|]. simpl. by destruct s. }
  rewrite rev_cons. intros He. apply (f_equal String.rev) in He.
  destruct (trim_start_rev (String.rev s +:+ "{")) as [|c r] eqn:Ht; [by apply (trim_rev_keeps (String.rev s))|].
  assert (forall x, String.rev x = "" -> x = "") as Hr.
  { intros [|y x]; [done|]. rewrite rev_cons. by destruct (String.rev x). }
  by apply Hr, Hr in He.
Qed.

(** *** Lines *)

Section Texts.
Context `{SerdeFileLaws}.

Lemma records_of_sep a b : records_of (a +:+ String newline b) = records_of a ++ records_of b.
Proof. unfold records_of. by rewrite split_char_app, omap_app. Qed.

Lemma records_of_line a : contains_char newline a = false -> records_of a = option_list (line_record a).
Proof. intros Ha. unfold records_of. rewrite split_char_none by done. simpl. by destruct (line_record a). Qed.

(** Nothing, or whole lines. *)
Definition settled (h : string) : Prop := h = "" \/ exists h', h = h' +:+ nl.

Lemma records_of_settled h t : settled h -> records_of (h +:+ t) = records_of h ++ records_of t.
Proof.
  intros [->|[h' ->]]; [done|]. rewrite <-append_assoc.
  change (nl +:+ t) with (String newline t). change nl with (String newline ""). rewrite !records_of_sep.
  change (records_of "") with (@nil Record_). by rewrite app_nil_r.
Qed.

Lemma cut_tail_spec s : let '(h, t) := cut_tail s in s = h +:+ t /\ contains_char newline t = false /\ settled h.
Proof.
  induction s as [|c s IH]; [split_and!; [done|done|by left]|]. cbn [cut_tail]. destruct (cut_tail s) as [h t].
  destruct IH as (-> & Ht & Hh). destruct h as [|x h]; cbn [Prelude.is_empty].
  - case_decide as Hc; [subst; split_and!; [done|done|right; by exists ""]|].
    split_and!; [done| |by left]. cbn [contains_char]. by rewrite decide_False.
  - split_and!; [done|done|]. destruct Hh as [Hh|[h' Hh]]; [done|]. right. exists (String c h'). by rewrite Hh.
Qed.

Lemma cut_tail_settled h t : settled h -> contains_char newline t = false -> cut_tail (h +:+ t) = (h, t).
Proof.
  intros Hh Ht. assert (cut_tail t = ("", t)) as Hct.
  { clear Hh. induction t as [|c t IH]; [done|]. cbn [contains_char] in Ht. case_decide; [done|]. cbn [cut_tail].
    rewrite IH by done. cbn [Prelude.is_empty]. by rewrite decide_False by congruence. }
  destruct Hh as [->|[h' ->]]; [done|]. rewrite <-append_assoc. change (nl +:+ t) with (String newline t).
  induction h' as [|c h' IH].
  - change ("" +:+ ?x) with x. cbn [cut_tail]. rewrite Hct. cbn [Prelude.is_empty]. by rewrite decide_True.
  - rewrite !append_cons. cbn [cut_tail]. rewrite IH. by destruct h'.
Qed.

(** *** The line of a record *)

(** The values a record carries survive a file: in range, valid strings, not nested too deep. *)
Definition value_ok (v : Value) : Prop := fits 126 v /\ utf8_value v = true.
Definition good_entry (e : SessionEntry) : Prop := entry_ok e /\ value_ok (to_value e).
Definition good_meta (m : SessionMeta) : Prop := meta_ok m /\ value_ok (to_value m).
Definition rec_ok (r : Record_) : Prop :=
  match r with
  | RMeta m => good_meta m
  | REntry e => good_entry e
  | RLeaf i => from_option (λ s, utf8_ok s = true) True i
  | RAppend e m => good_entry e /\ good_meta m
  | RCommit i => utf8_ok i = true
  end.

Lemma record_codec r : rec_ok r -> codec_ok r.
Proof.
  intros Hr. unfold codec_ok. cbn [from_value to_value Record_codec].
  destruct r as [m|e|i|e m|i]; cbn [as_object json_obj mbind option_bind rec_ok] in *.
  - rewrite (dec_tag_obj "type" _ "meta"); [|field_tac|set_solver]. cbn [mbind option_bind].
    destruct Hr as [Hm _]. get_req "meta" m; [done|]. exact (meta_codec m Hm).
  - rewrite (dec_tag_obj "type" _ "entry"); [|field_tac|set_solver]. cbn [mbind option_bind].
    destruct Hr as [He _]. get_req "entry" e; [done|]. exact (session_entry_codec e He).
  - rewrite (dec_tag_obj "type" _ "leaf"); [|field_tac|set_solver]. cbn [mbind option_bind].
    rewrite (nullable_obj "entry_id" Str _ i); [done|field_tac|by intros x ->].
  - destruct Hr as [[He _] [Hm _]]. rewrite (dec_tag_obj "type" _ "append"); [|field_tac|set_solver]. cbn [mbind option_bind].
    get_req "entry" e; [|exact (session_entry_codec e He)]. get_req "meta" m; [done|]. exact (meta_codec m Hm).
  - rewrite (dec_tag_obj "type" _ "commit"); [|field_tac|set_solver]. cbn [mbind option_bind]. by get_req "entry_id" i.
Qed.

Lemma value_ok_str s : utf8_ok s = true -> value_ok (Str s).
Proof. intros Hs. split; [exact I|exact Hs]. Qed.

Lemma value_ok_members l : Forall (λ p, utf8_ok p.1 = true /\ value_ok p.2) l ->
  fits 127 (json_obj l) /\ utf8_value (json_obj l) = true.
Proof.
  intros Hl. split.
  - apply fits_obj. eapply Forall_impl; [exact Hl|]. by intros p [_ [Hf _]].
  - assert (Forall (λ p, utf8_ok p.1 && utf8_value p.2 = true) (obj_of_list l)) as Hf.
    { induction Hl as [|[k v] l [Hk [_ Hv]] Hl IH]; [constructor|]. cbn [obj_of_list foldr]. apply Forall_obj_insert; [|exact IH].
      cbn [fst snd] in *. by rewrite Hk, Hv. }
    simpl. apply forallb_forall. intros p Hp%list_elem_of_In. rewrite Forall_forall in Hf. by apply Hf.
Qed.

Lemma record_fits r : rec_ok r -> fits READ_LEVELS (to_value r) /\ utf8_value (to_value r) = true.
Proof.
  intros Hr. destruct r as [m|e|i|e m|i]; cbn [to_value Record_codec rec_ok] in *; apply value_ok_members;
    repeat (apply Forall_cons_2; [split; [reflexivity|cbn [snd]; try apply value_ok_str; try reflexivity]|]); try apply Forall_nil_2.
  - exact (proj2 Hr).
  - exact (proj2 Hr).
  - destruct i as [i|]; [by apply value_ok_str|split; reflexivity || exact I].
  - exact (proj2 (proj1 Hr)).
  - exact (proj2 (proj2 Hr)).
  - exact Hr.
Qed.

Lemma record_line_no r c : (ascii_code c < 32)%Z -> contains_char c (file_text (to_value r)) = false.
Proof. apply file_text_control. Qed.

Lemma record_text_read r : rec_ok r -> read_record (file_text (to_value r)) = Some r.
Proof.
  intros Hr. unfold read_record. rewrite file_text_read by by apply record_fits. by apply record_codec.
Qed.

Lemma record_value_obj r : exists m, to_value r = Obj m.
Proof. destruct r; by eexists. Qed.

Lemma line_record_text r : rec_ok r -> line_record (file_text (to_value r)) = Some r.
Proof.
  intros Hr. unfold line_record. rewrite strip_cr_none by by apply record_line_no.
  destruct (record_value_obj r) as [m Hm]. destruct (file_text_object m) as [s Hs].
  assert (Prelude.is_empty (trim (file_text (to_value r))) = false) as ->.
  { rewrite Hm, Hs. destruct (trim (String "{" s)) eqn:Ht; [by apply trim_brace in Ht|done]. }
  by apply record_text_read.
Qed.

(** The tails an interrupted append leaves: a start of the text of a record. *)
Definition tail_ok (t : string) : Prop := t = "" \/ exists r b, rec_ok r /\ file_text (to_value r) = t +:+ b.

Lemma tail_no_control t c : tail_ok t -> (ascii_code c < 32)%Z -> contains_char c t = false.
Proof.
  intros [->|(r & b & _ & Ht)] Hc; [done|]. pose proof (record_line_no r c Hc) as Hl.
  rewrite Ht, contains_char_app in Hl. by destruct (contains_char c t).
Qed.

(** A tail reads as the record it is the whole text of, or as nothing. *)
Lemma tail_record t : tail_ok t ->
  line_record t = (if Prelude.is_empty t then None else read_record t) /\
  (forall r, Prelude.is_empty t = false -> read_record t = Some r -> rec_ok r /\ t = file_text (to_value r)).
Proof.
  intros [->|(r & b & Hr & Ht)]; [done|]. destruct (decide (b = "")) as [->|Hb].
  - rewrite append_nil_r in Ht. subst t. rewrite line_record_text, record_text_read by done. split; [|naive_solver].
    destruct (Prelude.is_empty _) eqn:He; [|done]. apply is_empty_eq in He. exfalso. by apply (file_text_some (to_value r)).
  - destruct (decide (t = "")) as [->|Hne]; [done|].
    destruct (record_value_obj r) as [m Hm]. assert (read_record t = None) as Hn.
    { unfold read_record. rewrite (file_text_cut m t b); [done| |by rewrite <-Hm|done|done]. rewrite <-Hm. by apply record_fits. }
    unfold line_record. rewrite strip_cr_none.
    2: { apply tail_no_control; [|done]. right. by exists r, b. }
    rewrite Hn. split; [by repeat case_match|done].
Qed.

Definition text_ok (t : option string) : Prop :=
  tail_ok (cut_tail (default "" t)).2 /\ utf8_ok (cut_tail (default "" t)).1 = true.
Definition held (t : option string) : list Record_ := records_of (default "" t).

Lemma substring_prefix n s : exists b, s = String.substring 0 n s +:+ b /\ (n < String.length s -> b <> "").
Proof.
  revert n. induction s as [|c s IH]; intros [|n]; simpl.
  - exists "". split; [done|lia].
  - exists "". split; [done|lia].
  - exists (String c s). done.
  - destruct (IH n) as (b & Hs & Hb). exists b. rewrite append_cons. split; [by rewrite <-Hs|]. intros Hn. apply Hb. lia.
Qed.

(** The repaired text ends with a whole line and holds the records it held. *)
Lemma repaired_spec t : text_ok t ->
  let '(base, sep) := repaired (default "" t) in
  let b := base +:+ (if sep then nl else "") in
  settled b /\ records_of b = held t /\ utf8_ok b = true /\ (sep = true -> base = default "" t).
Proof.
  unfold text_ok, held. pose proof (cut_tail_spec (default "" t)) as Hc. unfold repaired.
  destruct (cut_tail (default "" t)) as [h tl]. cbn [fst snd]. destruct Hc as (Hs & Htl & Hh). intros [Hok Hu].
  destruct (tail_record tl Hok) as [Hl Hr]. destruct (Prelude.is_empty tl) eqn:He.
  - apply is_empty_eq in He. subst tl. rewrite append_nil_r in Hs. rewrite Hs, append_nil_r. done.
  - destruct (read_record tl) as [r|] eqn:Hrd.
    + destruct (Hr r eq_refl eq_refl) as [Hrec Htl']. split_and!; [right; by eexists| | |done].
      * change nl with (String newline ""). rewrite records_of_sep. change (records_of "") with (@nil Record_). by rewrite app_nil_r.
      * rewrite Hs, <-append_assoc, utf8_ok_app by done. subst tl. rewrite utf8_ok_app; [done|]. apply file_text_utf8. by apply record_fits.
    + rewrite append_nil_r. split_and!; [done| |done|done].
      rewrite Hs, records_of_settled by done. rewrite (records_of_line tl) by done. rewrite Hl. by rewrite app_nil_r.
Qed.

Lemma utf8_record r : rec_ok r -> utf8_ok (file_text (to_value r)) = true.
Proof. intros Hr. apply file_text_utf8. by apply record_fits. Qed.

(** A whole base followed by the line of a record. *)
Lemma line_after b r : settled b -> utf8_ok b = true -> rec_ok r ->
  let t := Some (b +:+ record_line r) in text_ok t /\ held t = records_of b ++ [r] /\ utf8_ok (b +:+ record_line r) = true.
Proof.
  intros Hb Hu Hr. unfold text_ok, held, record_line. cbn [default from_option Datatypes.id].
  assert (settled (b +:+ file_text (to_value r) +:+ nl)) as Hs.
  { right. exists (b +:+ file_text (to_value r)). by rewrite append_assoc. }
  assert (utf8_ok (b +:+ file_text (to_value r) +:+ nl) = true) as Hu'.
  { by rewrite !utf8_ok_app by (done || by apply utf8_record). }
  pose proof (cut_tail_settled _ "" Hs eq_refl) as Hc. rewrite append_nil_r in Hc. rewrite Hc. cbn [fst snd].
  split_and!; [by left|done| |done].
  rewrite records_of_settled by done. change nl with (String newline ""). rewrite records_of_sep.
  rewrite (records_of_line (file_text _)), line_record_text by (done || by apply file_text_line). done.
Qed.

(** A whole base followed by a start of the text of a record. *)
Lemma cut_after b r a z : settled b -> utf8_ok b = true -> rec_ok r -> file_text (to_value r) = a +:+ z ->
  let t := Some (b +:+ a) in text_ok t /\ held t = records_of b ++ (if Prelude.is_empty z then [r] else []).
Proof.
  intros Hb Hu Hr Ha. assert (tail_ok a) as Hta by (right; by exists r, z).
  assert (contains_char newline a = false) as Hn by by apply (tail_no_control a).
  unfold text_ok, held. cbn [default from_option Datatypes.id]. rewrite cut_tail_settled by done. cbn [fst snd].
  split; [done|]. rewrite records_of_settled, (records_of_line a) by done. f_equal.
  destruct (Prelude.is_empty z) eqn:Hz.
  - apply is_empty_eq in Hz. subst z. rewrite append_nil_r in Ha. subst a. by rewrite line_record_text.
  - destruct (tail_record a Hta) as [-> Hrd]. destruct (Prelude.is_empty a) eqn:He; [done|].
    destruct (read_record a) as [r'|] eqn:Hra; [|done]. exfalso.
    destruct (record_value_obj r) as [m Hm]. unfold read_record in Hra. rewrite (file_text_cut m a z) in Hra; try done.
    + rewrite <-Hm. by apply record_fits.
    + by rewrite <-Hm.
    + by intros ->.
    + by intros ->.
Qed.

(** *** Appending *)

Definition stopped_whole (io : append_io) (t : option string) (r : Record_) : bool :=
  match io with
  | AppendStops n _ =>
      let '(_, sep) := repaired (default "" t) in
      bool_decide (String.length ((if sep then nl else "") +:+ file_text (to_value r)) <= n)
  | _ => false
  end.

Lemma substring_app n a b : n <= String.length a -> String.substring 0 n (a +:+ b) = String.substring 0 n a.
Proof. revert n. induction a as [|c a IH]; intros [|n] Hn; simpl in *; try lia; [by destruct b|done|]. by rewrite IH by lia. Qed.

Lemma substring_all n s : String.length s <= n -> String.substring 0 n s = s.
Proof. revert n. induction s as [|c s IH]; intros [|n] Hn; simpl in *; try lia; [done..|]. by rewrite IH by lia. Qed.

(** An append that succeeds adds its record and leaves a readable file; one that fails adds it
    exactly when all of its text was written before the newline, and never loses a record. *)
Lemma append_record_spec io t r : text_ok t -> rec_ok r ->
  let '(res, t') := append_record io t r in
  text_ok t' /\
  match res with
  | Ok _ => held t' = held t ++ [r] /\ from_option utf8_ok true t' = true
  | Err _ => held t' = held t ++ (if stopped_whole io t r then [r] else [])
  end.
Proof.
  intros Ht Hr. pose proof (repaired_spec t Ht) as Hrep. unfold append_record, stopped_whole.
  destruct io as [|e|n e]; [|by rewrite app_nil_r|]; destruct (repaired (default "" t)) as [base sep];
    destruct Hrep as (Hs & Hrec & Hu & Hbase).
  - rewrite append_assoc. destruct (line_after _ r Hs Hu Hr) as (H1 & H2 & H3). by rewrite <-Hrec.
  - set (x := if sep then nl else "") in *. set (l := file_text (to_value r)) in *.
    assert (String.length (x +:+ record_line r) - 1 = String.length (x +:+ l)) as Hlen.
    { unfold record_line. fold l. rewrite !length_append. change (String.length nl) with 1. lia. }
    rewrite Hlen. assert (x +:+ record_line r = (x +:+ l) +:+ nl) as -> by (unfold record_line; by rewrite append_assoc).
    rewrite substring_app by lia. destruct (decide (Nat.min n (String.length (x +:+ l)) < String.length x)) as [Hx|Hx].
    + (* the separator was not written *)
      assert (sep = true) as -> by (destruct sep; [done|subst x; simpl in Hx; lia]).
      assert (Nat.min n (String.length (x +:+ l)) = 0) as Hz by (subst x; simpl in *; lia).
      rewrite Hz. assert (String.substring 0 0 (x +:+ l) = "") as -> by by subst x.
      rewrite append_nil_r, Hbase by done. rewrite bool_decide_false by (subst x; simpl in *; lia).
      rewrite app_nil_r. destruct t as [t|]; [done|]. split; [done|]. done.
    + destruct (substring_prefix (Nat.min n (String.length (x +:+ l)) - String.length x) l) as (z & Hl & Hz).
      assert (String.substring 0 (Nat.min n (String.length (x +:+ l))) (x +:+ l) =
              x +:+ String.substring 0 (Nat.min n (String.length (x +:+ l)) - String.length x) l) as ->.
      { subst x. destruct sep; [|by rewrite Nat.sub_0_r]. rewrite Nat.nlt_ge in Hx. simpl in *.
        destruct n as [|n]; simpl in *; [lia|]. by rewrite Nat.sub_0_r. }
      rewrite append_assoc. destruct (cut_after _ r _ z Hs Hu Hr Hl) as [H1 H2]. split; [done|]. rewrite H2, Hrec. f_equal.
      rewrite length_append in *. destruct (Prelude.is_empty z) eqn:He.
      * apply is_empty_eq in He. subst z. rewrite bool_decide_true; [done|].
        apply (f_equal String.length) in Hl as Hl'. rewrite length_append in Hl'. simpl in Hl'.
        destruct (decide (String.length x + String.length l <= n)); [done|]. exfalso. apply Hz; [lia|done].
      * rewrite bool_decide_false; [done|]. intros Hge. rewrite Nat.min_r in Hl by lia.
        replace (String.length x + String.length l - String.length x) with (String.length l) in Hl by lia.
        rewrite substring_all in Hl by lia. apply (f_equal String.length) in Hl. rewrite length_append in Hl.
        destruct z; [done|]. simpl in Hl. lia.
Qed.

(** *** Snapshots *)

Lemma lines_held b rs : settled b -> utf8_ok b = true -> Forall rec_ok rs ->
  let t := b +:+ foldr String.append "" (record_line <$> rs) in
  settled t /\ utf8_ok t = true /\ records_of t = records_of b ++ rs.
Proof.
  intros Hb Hu Hrs. revert b Hb Hu. induction Hrs as [|r rs Hr Hrs IH]; intros b Hb Hu; cbn [fmap list_fmap foldr].
  - by rewrite append_nil_r, app_nil_r.
  - destruct (line_after b r Hb Hu Hr) as (_ & H2 & H3). rewrite append_assoc.
    destruct (IH (b +:+ record_line r)) as (I1 & I2 & I3); [|done|].
    + right. exists (b +:+ file_text (to_value r)). unfold record_line. by rewrite append_assoc.
    + split_and!; [done|done|]. rewrite I3. unfold held in H2. cbn [default from_option Datatypes.id] in H2. rewrite H2. by rewrite <-app_assoc.
Qed.

Lemma lines_text rs : Forall rec_ok rs ->
  text_ok (Some (foldr String.append "" (record_line <$> rs))) /\
  held (Some (foldr String.append "" (record_line <$> rs))) = rs /\
  utf8_ok (foldr String.append "" (record_line <$> rs)) = true.
Proof.
  intros Hrs. destruct (lines_held "" rs (or_introl eq_refl) eq_refl Hrs) as (H1 & H2 & H3).
  change ("" +:+ ?x) with x in *. split_and!; [|done|done]. unfold text_ok. cbn [default from_option Datatypes.id].
  pose proof (cut_tail_settled _ "" H1 eq_refl) as Hc. rewrite append_nil_r in Hc. rewrite Hc. split; [by left|done].
Qed.

End Texts.
End LogRules.
