(* ===== verification/SessionLife.v ===== *)
(** * The life of a session file (session-manager/src/store/fs.rs, over time)

    [Life.step] is one session of a store over time: replays that read the file outside the
    cache lock and publish later, appends and rewrites that may fail at any byte, crashes.
    [LifeProperties] shows that what is in memory is what a restart reads, that an append that
    was answered is answered the same way as long as the file is legible, and where a torn write
    leaves a file that cannot be read any more. *)

From Stdlib Require Import Ascii ZArith Lia.
From S2P Require Import Prelude Json Codec JsonText SessionTypes SessionLog.
Import Types Log TypeRules LogRules.

Module Life.
Section WithText.
Context `{SerdeFile}.

(** The file, the cached state, the results of replays not published yet; then, for the
    theorems, the records of failed appends that were written whole since the last start or
    rewrite, the entries whose append was answered, and every record that a write was tried
    with. *)
Record Sys : Type := mk_sys {
  file : option string;
  live : option LoadedSession;
  reads : list LoadedSession;
  failed : list Record_;
  acked : gset string;
  tried : list Record_;
}.

Definition init : Sys := mk_sys None None [] [] ∅ [].

(** The records of the plain writes: [put_meta], [put_entry], [set_active_leaf]. *)
Definition plain (r : Record_) : Prop :=
  match r with RMeta _ | REntry _ => True | RLeaf i => is_Some i | _ => False end.

Definition torn (io : append_io) (t : option string) (r : Record_) : list Record_ :=
  if stopped_whole io t r then [r] else [].

Inductive rewrite : Type := DropMeta | DropEntries | DropLeaf.
Definition mutate (w : rewrite) : LoadedSession -> LoadedSession :=
  match w with DropMeta => clear_meta | DropEntries => clear_entries | DropLeaf => clear_leaf end.

Inductive step (sid : string) (y : Sys) : Sys -> Prop :=
| Replay s : live y = None -> replay_file (file y) = Ok s ->
    step sid y (mk_sys (file y) None (s :: reads y) (failed y) (acked y) (tried y))
| Publish s : s ∈ reads y ->
    step sid y (mk_sys (file y) (Some (default s (live y))) (reads y) (failed y) (acked y) (tried y))
| Write io r s res o : live y = Some s -> plain r ->
    append_and_apply io r (mk_open (file y) s) = (res, o) ->
    step sid y (mk_sys (text o) (Some (session o)) (reads y)
                  (if is_ok res then failed y else failed y ++ torn io (file y) r) (acked y) (tried y ++ [r]))
| Commit io e x s res o : live y = Some s ->
    commit_append io sid e x (mk_open (file y) s) = (res, o) ->
    step sid y (mk_sys (text o) (Some (session o)) (reads y)
                  match decide_append sid e x s, res with
                  | Ok (inr (e', m')), Err _ => failed y ++ torn io (file y) (RAppend e' m')
                  | _, _ => failed y
                  end
                  match res with Ok (mk_commit _ _ true) => {[ id e ]} ∪ acked y | _ => acked y end
                  match decide_append sid e x s with
                  | Ok (inr (e', m')) => tried y ++ [RAppend e' m']
                  | _ => tried y
                  end)
| Rewrite io w s res o : live y = Some s -> mutate_snapshot io (mutate w) (mk_open (file y) s) = (res, o) ->
    step sid y (mk_sys (text o) (Some (session o)) (reads y)
                  (if is_ok res then [] else failed y)
                  (match res, w with Ok _, DropEntries => ∅ | _, _ => acked y end) (tried y))
| Crash : step sid y (mk_sys (file y) None [] [] (acked y) (tried y)).

Definition reachable (sid : string) : Sys -> Prop := rtc (step sid) init.

(** Every record that was tried is one the reader of the file reads back: a value of its Rust
    type without an [f64] and of at most 126 levels.  Others are written too, and a replay
    skips them as malformed lines or rounds them. *)
Definition legible (y : Sys) : Prop := Forall rec_ok (tried y).

End WithText.
End Life.

(** ** Rules *)

Module LifeRules.
Import Life.

(** *** The walk of [mark_active_path_committed] *)

Lemma mark_enough n es c done :
  size (dom es ∖ done) + 2 <= n -> mark_from (S n) es c done = mark_from n es c done.
Proof.
  revert c done. induction n as [|n IH]; intros c done Hn; [lia|].
  destruct c as [i|]; [|by destruct n]. cbn [mark_from]. case_decide as Hi; [done|]. change (mark_from (S n) es (es !! i ≫= parent_id) ({[ i ]} ∪ done) = mark_from n es (es !! i ≫= parent_id) ({[ i ]} ∪ done)).
  destruct (es !! i) as [e|] eqn:He; simpl; [|by destruct n].
  apply IH. assert (i ∈ dom es ∖ done) as Hd by (apply elem_of_difference; split; [by apply elem_of_dom|done]).
  assert (size (dom es ∖ ({[i]} ∪ done)) < size (dom es ∖ done)); [|lia].
  apply subset_size. set_solver.
Qed.

(** The loop ends: more rounds than its fuel change nothing. *)
Lemma mark_fuel_enough s k :
  mark_from (S (S (size (entries s))) + k) (entries s) (leaf s) (committed s) = committed (mark_active_path_committed s).
Proof.
  unfold mark_active_path_committed. cbn [committed]. induction k as [|k IH]; [by rewrite Nat.add_0_r|].
  rewrite Nat.add_succ_r, mark_enough; [done|].
  assert (size (dom (entries s) ∖ committed s) <= size (dom (entries s))) by (apply subseteq_size; set_solver).
  rewrite size_dom in *. lia.
Qed.

Lemma mark_mono n es c done : done ⊆ mark_from n es c done.
Proof.
  revert c done. induction n as [|n IH]; intros [i|] done; cbn [mark_from]; try reflexivity.
  case_decide; [reflexivity|]. etrans; [|apply IH]. set_solver.
Qed.

Lemma apply_meta_unfold m s :
  meta (apply (RMeta m) s) = Some m /\ entries (apply (RMeta m) s) = entries s /\ leaf (apply (RMeta m) s) = leaf s.
Proof. cbn [apply]. by destruct (pending_legacy_append s). Qed.

Lemma apply_committed_mono r s : committed s ⊆ committed (apply r s).
Proof.
  destruct r; cbn [apply]; try (cbn [committed]; set_solver).
  destruct (pending_legacy_append s); [|done]. cbn [committed mark_active_path_committed]. apply mark_mono.
Qed.

(** *** What a record sets *)

Definition rec_meta (r : Record_) : option SessionMeta := match r with RMeta m | RAppend _ m => Some m | _ => None end.
Definition rec_entry (r : Record_) : option SessionEntry := match r with REntry e | RAppend e _ => Some e | _ => None end.
Definition rec_leaf (r : Record_) : option (option string) :=
  match r with RLeaf l => Some l | RAppend e _ => Some (Some (id e)) | _ => None end.

Lemma apply_sets r s :
  meta (apply r s) = match rec_meta r with Some m => Some m | None => meta s end /\
  entries (apply r s) = match rec_entry r with Some e => <[id e := e]> (entries s) | None => entries s end /\
  leaf (apply r s) = match rec_leaf r with Some l => l | None => leaf s end.
Proof. destruct r; try done. apply apply_meta_unfold. Qed.

(** Key by key, [R] has what [M] has or what a record of [F] carried. *)
Record agrees (F : list Record_) (M R : LoadedSession) : Prop := {
  agree_meta : meta R = meta M \/ exists r m, r ∈ F /\ rec_meta r = Some m /\ meta R = Some m;
  agree_entries : forall i, entries R !! i = entries M !! i \/
    exists r e, r ∈ F /\ rec_entry r = Some e /\ id e = i /\ entries R !! i = Some e;
  agree_leaf : leaf R = leaf M \/ exists r l, r ∈ F /\ rec_leaf r = Some l /\ leaf R = l;
}.

Lemma agrees_refl F s : agrees F s s.
Proof. split; auto. Qed.

Lemma agrees_both F M R r : agrees F M R -> agrees F (apply r M) (apply r R).
Proof.
  intros [Hm He Hl]. destruct (apply_sets r M) as (M1 & M2 & M3), (apply_sets r R) as (R1 & R2 & R3).
  split; rewrite ?M1, ?M2, ?M3, ?R1, ?R2, ?R3; [by destruct (rec_meta r); auto| |by destruct (rec_leaf r); auto].
  intros i. destruct (rec_entry r) as [e|]; [|apply He].
  destruct (decide (id e = i)) as [<-|Hi]; [left; by rewrite !lookup_insert_eq|]. rewrite !lookup_insert_ne by done. apply He.
Qed.

Lemma agrees_torn F M R r : agrees F M R -> agrees (F ++ [r]) M (apply r R).
Proof.
  intros [Hm He Hl]. destruct (apply_sets r R) as (R1 & R2 & R3). assert (r ∈ F ++ [r]) as Hr by set_solver.
  assert (forall x, x ∈ F -> x ∈ F ++ [r]) as Hw by set_solver.
  split; rewrite ?R1, ?R2, ?R3.
  - destruct (rec_meta r) as [m|] eqn:Hrm; [right; by eexists r, m|]. destruct Hm as [|(r' & m & ? & ?)]; [by left|right; exists r', m; auto].
  - intros i. destruct (rec_entry r) as [e|] eqn:Hre.
    + destruct (decide (id e = i)) as [<-|Hi]; [rewrite lookup_insert_eq; right; by exists r, e|]. rewrite lookup_insert_ne by done.
      destruct (He i) as [|(r' & e' & ? & ?)]; [by left|right; exists r', e'; auto].
    + destruct (He i) as [|(r' & e' & ? & ?)]; [by left|right; exists r', e'; auto].
  - destruct (rec_leaf r) as [l|] eqn:Hrl; [right; by eexists r, l|]. destruct Hl as [|(r' & l & ? & ?)]; [by left|right; exists r', l; auto].
Qed.

(** *** The decision of an append *)

Lemma decide_append_inl sid e x s r : decide_append sid e x s = Ok (inl r) ->
  c_committed r = false /\ meta s = Some (c_meta r) /\ entries s !! id e = Some (c_entry r) /\ id (c_entry r) ∈ committed s.
Proof.
  unfold decide_append. destruct (meta s) as [m|]; [|done]. destruct (entries s !! id e) as [e0|] eqn:He; simpl.
  - case_decide; [by intros [= <-]|]. by destruct (resolve_entry sid e x s).
  - by destruct (resolve_entry sid e x s).
Qed.

Lemma decide_append_inr sid e x s e' m' : decide_append sid e x s = Ok (inr (e', m')) ->
  (forall e0, entries s !! id e = Some e0 -> id e0 ∉ committed s) /\
  resolve_entry sid e x s = Ok e' /\ exists m, meta s = Some m /\ m' = bump_meta e' m.
Proof.
  unfold decide_append. destruct (meta s) as [m|]; [|done]. destruct (entries s !! id e) as [e0|] eqn:He; simpl.
  - case_decide; [done|]. destruct (resolve_entry sid e x s); [|done]. intros [= -> <-]. split_and!; [by intros ? [= <-]|done|by exists m].
  - destruct (resolve_entry sid e x s); [|done]. intros [= -> <-]. split_and!; [done|done|by exists m].
Qed.

(** *** Good sessions *)

Record good (s : LoadedSession) : Prop := {
  good_m : from_option good_meta True (meta s);
  good_e : map_Forall (λ i e, id e = i /\ good_entry e) (entries s);
  good_l : from_option (λ i, utf8_ok i = true) True (leaf s);
  good_c : set_Forall (λ i, utf8_ok i = true) (committed s);
}.

Lemma good_empty : good empty_session.
Proof. by split. Qed.

Lemma utf8_member k v l : utf8_value (json_obj l) = true -> obj_get k l = Some v -> utf8_value v = true.
Proof.
  intros Hu Hk. simpl in Hu. rewrite forallb_forall in Hu.
  assert ((k, v) ∈ obj_of_list l) as Hin by (apply obj_get_elem; by rewrite obj_get_of_list).
  apply list_elem_of_In, Hu, andb_prop in Hin. apply Hin.
Qed.

Lemma good_entry_strings e : good_entry e -> utf8_ok (id e) = true /\ from_option (λ p, utf8_ok p = true) True (parent_id e).
Proof.
  intros [_ [_ Hu]]. cbn [to_value SessionEntry_codec] in Hu. split.
  - apply (utf8_member "id" (Str (id e))) in Hu; [done|by field_tac].
  - apply (utf8_member "parent_id" (enc_opt Str (parent_id e))) in Hu; [by destruct (parent_id e)|by field_tac].
Qed.

Lemma good_mark n es c done :
  map_Forall (λ i e, id e = i /\ good_entry e) es -> from_option (λ i, utf8_ok i = true) True c ->
  set_Forall (λ i, utf8_ok i = true) done -> set_Forall (λ i, utf8_ok i = true) (mark_from n es c done).
Proof.
  intros He. revert c done. induction n as [|n IH]; intros [i|] done Hc Hd; cbn [mark_from]; try exact Hd.
  case_decide; [exact Hd|]. apply IH; [|by intros j [->%elem_of_singleton|Hj]%elem_of_union; [|apply Hd]].
  destruct (es !! i) as [e|] eqn:Hi; [|done]. simpl. destruct (He i e Hi) as [_ Hg]. by apply good_entry_strings.
Qed.

Lemma good_apply r s : good s -> rec_ok r -> good (apply r s).
Proof.
  intros [Hm He Hl Hc] Hr.
  assert (forall e, good_entry e -> map_Forall (λ i e, id e = i /\ good_entry e) (<[id e := e]> (entries s))) as Hins.
  { intros e Hg. by apply map_Forall_insert_2. }
  assert (forall i, utf8_ok i = true -> set_Forall (λ i, utf8_ok i = true) ({[ i ]} ∪ committed s)) as Hadd.
  { intros i Hi j [->%elem_of_singleton|Hj]%elem_of_union; [done|by apply Hc]. }
  destruct r as [m|e|i|e m|i]; cbn [apply rec_ok] in *.
  - destruct (pending_legacy_append s); [|by split].
    split; cbn [meta entries leaf committed mark_active_path_committed]; [done..|]. by apply good_mark.
  - split; cbn [meta entries leaf committed]; auto.
  - split; cbn [meta entries leaf committed]; auto.
  - destruct Hr as [Hge Hgm]. destruct (good_entry_strings e Hge) as [Hie _]. split; cbn [meta entries leaf committed]; auto.
  - split; cbn [meta entries leaf committed]; auto.
Qed.

Lemma good_replay rs s : good s -> Forall rec_ok rs -> good (replay rs s).
Proof. intros Hs Hrs. revert s Hs. induction Hrs as [|r rs Hr Hrs IH]; intros s Hs; [done|]. apply IH. by apply good_apply. Qed.

Lemma replay_app a b s : replay (a ++ b) s = replay b (replay a s).
Proof. apply foldl_app. Qed.

(** *** Snapshots *)

Lemma snapshot_good s : good s -> Forall rec_ok (snapshot_records s).
Proof.
  intros [Hm He Hl Hc]. unfold snapshot_records. rewrite !Forall_app. split_and!.
  - destruct (meta s); [by constructor|constructor].
  - apply Forall_fmap, Forall_forall. intros e [i Hi]%elem_of_btree_values. by apply (He i e).
  - apply Forall_fmap, Forall_forall. intros i Hi%elem_of_btree_set_iter. by apply Hc.
  - destruct (leaf s); [by constructor|constructor].
Qed.

Lemma replay_entries es s :
  replay (REntry <$> es) s = mk_loaded (meta s) (foldl (λ m e, <[id e := e]> m) (entries s) es) (leaf s) (committed s) (pending_legacy_append s).
Proof. revert s. induction es as [|e es IH]; intros s; [by destruct s|]. cbn [fmap list_fmap replay foldl]. unfold replay in IH. by rewrite IH. Qed.

Lemma replay_commits cs s :
  replay (RCommit <$> cs) s = mk_loaded (meta s) (entries s) (leaf s) (list_to_set cs ∪ committed s) (pending_legacy_append s).
Proof.
  revert s. induction cs as [|c cs IH]; intros s; [destruct s; cbn [replay foldl fmap list_fmap]; f_equal; set_solver|].
  cbn [fmap list_fmap replay foldl]. unfold replay in IH. rewrite IH. cbn [apply meta entries leaf committed pending_legacy_append].
  f_equal. set_solver.
Qed.

Lemma insert_all_keyed (l : list SessionEntry) (m : gmap string SessionEntry) (n : gmap string SessionEntry) :
  (forall i e, m !! i = Some e -> id e = i) ->
  (forall i e, n !! i = Some e -> n !! i = m !! i) -> (forall e, e ∈ l -> m !! id e = Some e) ->
  (forall i e, m !! i = Some e -> e ∈ l \/ n !! i = Some e) ->
  foldl (λ m e, <[id e := e]> m) n l = m.
Proof.
  intros Hk. revert n. induction l as [|e l IH]; intros n Hn Hl Hc; simpl.
  - apply map_eq. intros i. destruct (n !! i) as [e|] eqn:Hi; [by rewrite <-(Hn i e) by done|].
    destruct (m !! i) as [e|] eqn:Hmi; [|done]. destruct (Hc i e Hmi) as [Hx|Hx]; [by apply elem_of_nil in Hx|congruence].
  - apply IH.
    + intros i e'. destruct (decide (id e = i)) as [<-|Hi]; [rewrite lookup_insert_eq; intros [= <-]; symmetry; apply Hl; by left|].
      rewrite lookup_insert_ne by done. apply Hn.
    + intros e' He'. apply Hl. by right.
    + intros i e' Hi. destruct (Hc i e' Hi) as [[->|Hx]%elem_of_cons|Hx]; [|by left|].
      * right. rewrite <-(Hk i e) by done. by rewrite lookup_insert_eq.
      * right. destruct (decide (id e = i)) as [<-|Hne]; [|by rewrite lookup_insert_ne].
        rewrite lookup_insert_eq. rewrite <-Hi. symmetry. apply Hl. by left.
Qed.

(** What is written as a snapshot reads back. *)
Lemma replay_snapshot s : good s ->
  replay (snapshot_records s) empty_session =
  mk_loaded (meta s) (entries s) (leaf s) (committed s) (match leaf s with Some _ => true | None => false end).
Proof.
  intros Hg. unfold snapshot_records. rewrite !replay_app.
  assert (replay (match meta s with Some m => [RMeta m] | None => [] end) empty_session = mk_loaded (meta s) ∅ None ∅ false) as ->
    by by destruct (meta s).
  rewrite replay_entries, replay_commits. cbn [meta entries leaf committed pending_legacy_append].
  rewrite (insert_all_keyed _ (entries s)); cycle 1.
  - intros i e Hi. exact (proj1 (good_e s Hg i e Hi)).
  - intros i e Hi. by rewrite lookup_empty in Hi.
  - intros e [i Hi]%elem_of_btree_values. by destruct (good_e s Hg i e Hi) as [-> _].
  - intros i e Hi. left. apply elem_of_btree_values. by exists i.
  - assert ((list_to_set (btree_set_iter (committed s)) : gset string) ∪ ∅ = committed s) as ->.
    { apply set_eq. intros i. rewrite elem_of_union, elem_of_list_to_set, elem_of_btree_set_iter. set_solver. }
    by destruct (leaf s).
Qed.

End LifeRules.

(** ** Properties *)

Module LifeProperties.
Import Life LifeRules.

Section Properties.
Context `{SerdeFileLaws} (sid : string).

(** What the records of the file add up to. *)
Definition on_disk (y : Sys) : LoadedSession := replay (held (file y)) empty_session.

Definition kept (i : gset string) (s : LoadedSession) : Prop := i ⊆ committed s ∩ dom (entries s).

Record inv (y : Sys) : Prop := {
  inv_text : text_ok (file y);
  inv_recs : Forall rec_ok (held (file y));
  inv_acked : kept (acked y) (on_disk y);
  inv_live : match live y with
             | Some s => good s /\ agrees (failed y) s (on_disk y) /\ kept (acked y) s
             | None => failed y = [] /\ Forall (λ s, s = on_disk y) (reads y)
             end;
}.

Lemma kept_apply i r s : kept i s -> kept i (apply r s).
Proof.
  intros Hk. unfold kept in *. pose proof (apply_committed_mono r s). destruct (apply_sets r s) as (_ & He & _).
  assert (dom (entries s) ⊆ dom (entries (apply r s))); [|set_solver]. rewrite He.
  destruct (rec_entry r); [rewrite dom_insert|]; set_solver.
Qed.

(** A write that was tried: what the file and the state became. *)
Lemma append_inv io r y s o res :
  inv y -> live y = Some s -> rec_ok r -> append_and_apply io r (mk_open (file y) s) = (res, o) ->
  text_ok (text o) /\ Forall rec_ok (held (text o)) /\
  replay (held (text o)) empty_session = (if is_ok res || stopped_whole io (file y) r then apply r (on_disk y) else on_disk y) /\
  session o = (if is_ok res then apply r s else s) /\
  (is_ok res = true -> from_option utf8_ok true (text o) = true).
Proof.
  intros [Ht Hr _ _] _ Hrec. unfold append_and_apply. cbn [Log.text Log.session].
  pose proof (append_record_spec io (file y) r Ht Hrec) as Ha. destruct (append_record io (file y) r) as [[[]|e] t'];
    destruct Ha as [Ha1 Ha2]; intros [= <- <-]; cbn [Log.text Log.session is_ok orb].
  - destruct Ha2 as [Hh Hu]. rewrite Hh. split_and!; [done|apply Forall_app; by split; [|apply Forall_singleton]| |done|done].
    by rewrite replay_app.
  - rewrite Ha2. split_and!; [done| | |done|done].
    + apply Forall_app. split; [done|]. destruct (stopped_whole _ _ _); [by apply Forall_singleton|constructor].
    + rewrite replay_app. by destruct (stopped_whole _ _ _).
Qed.

Lemma append_keeps_inv io r y s o res rd acked' :
  inv y -> live y = Some s -> rec_ok r -> append_and_apply io r (mk_open (file y) s) = (res, o) ->
  (if is_ok res then acked' ⊆ acked y ∪ (match r with RAppend e _ => {[ id e ]} | _ => ∅ end) else acked' ⊆ acked y) ->
  forall tr, inv (mk_sys (text o) (Some (session o)) rd (if is_ok res then failed y else failed y ++ torn io (file y) r) acked' tr).
Proof.
  intros Hi Hl Hr Hap Hack tr. destruct (append_inv io r y s o res Hi Hl Hr Hap) as (H1 & H2 & H3 & H4 & _).
  destruct Hi as [Ht Hrs Ha Hlive]. rewrite Hl in Hlive. destruct Hlive as (Hg & Hag & Hk).
  assert (forall z, kept (match r with RAppend e _ => {[ id e ]} | _ => ∅ end) (apply r z)) as Hnew.
  { intros z. unfold kept. destruct r; cbn [apply committed entries]; set_solver. }
  assert (forall a b z, kept a z -> kept b z -> kept (a ∪ b) z) as Hun by (unfold kept; set_solver).
  assert (forall a b z, a ⊆ b -> kept b z -> kept a z) as Hsub by (unfold kept; set_solver).
  split; cbn [file live failed acked]; [done|done| |]; unfold on_disk; cbn [file]; rewrite H3, ?H4; destruct res as [[]|x]; cbn [is_ok orb] in *.
  - eapply Hsub; [exact Hack|]. apply Hun; [by apply kept_apply|apply Hnew].
  - eapply Hsub; [exact Hack|]. destruct (stopped_whole io (file y) r); [by apply kept_apply|done].
  - split_and!; [by apply good_apply|by apply agrees_both|]. eapply Hsub; [exact Hack|]. apply Hun; [by apply kept_apply|apply Hnew].
  - split_and!; [done| |by eapply Hsub]. unfold torn. destruct (stopped_whole io (file y) r); [by apply agrees_torn|by rewrite app_nil_r].
Qed.

Lemma good_mutate w s : good s -> good (mutate w s).
Proof. intros [Hm He Hl Hc]. destruct w; by split. Qed.

Lemma resolve_id e x s e' : good s -> resolve_entry sid e x s = Ok e' -> id e' = id e.
Proof.
  intros Hg. unfold resolve_entry. destruct (entries s !! id e) as [e0|] eqn:He.
  - intros [= <-]. exact (proj1 (good_e s Hg _ _ He)).
  - destruct x; [destruct (parent_id e); [case_match|]; by intros [= <-]|]. intros [= <-]. by destruct e.
Qed.

Lemma step_legible y y' : step sid y y' -> legible y' -> legible y.
Proof.
  unfold legible. destruct 1; cbn [tried]; try done; [by intros [? _]%Forall_app|].
  destruct (decide_append sid e x s) as [[|[e' m']]|]; [done|by intros [? _]%Forall_app|done].
Qed.

Lemma life_step_inv y y' : inv y -> step sid y y' -> legible y' -> inv y'.
Proof.
  intros Hi Hs. pose proof Hi as [Ht Hr Ha Hl]. unfold legible.
  destruct Hs as [s Hn Hrep|s Hin|io r s res o Hlv _ Hap|io e x s res o Hlv Hc|io w s res o Hlv Hm|]; cbn [tried]; intros Hleg.
  - rewrite Hn in Hl. destruct Hl as [Hf Hrd]. split; cbn [file live reads failed acked]; [done..|]. split; [done|]. constructor; [|done].
    unfold on_disk, held in *. cbn [file]. destruct (file y) as [t|]; cbn [replay_file] in Hrep; [|by simplify_eq].
    destruct (utf8_ok t); by simplify_eq.
  - split; cbn [file live reads failed acked]; [done..|]. unfold on_disk in *. cbn [file]. destruct (live y) as [s0|]; [done|].
    destruct Hl as [Hf Hrd]. rewrite Forall_forall in Hrd. specialize (Hrd s Hin). subst s. cbn [default from_option].
    split_and!; [by apply good_replay|apply agrees_refl|done].
  - apply Forall_app in Hleg as [_ Hrec%Forall_inv].
    apply (append_keeps_inv io r y s o res); [done..|]. destruct (is_ok res); set_solver.
  - unfold commit_append in Hc. cbn [Log.session] in Hc. destruct (decide_append sid e x s) as [[r|[e' m']]|er] eqn:Hd; simplify_eq/=.
    + replace (match r with mk_commit _ _ true => {[ id e ]} ∪ acked y | _ => acked y end) with (acked y).
      { split; cbn [file live reads failed acked]; [done..|]. unfold on_disk in *. cbn [file]. by rewrite Hlv in Hl. }
      apply decide_append_inl in Hd as [Hd _]. destruct r as [? ? []]; done.
    + apply Forall_app in Hleg as [_ Hok%Forall_inv]. assert (id e' = id e) as Hid.
      { apply decide_append_inr in Hd as (_ & Hres & _). rewrite Hlv in Hl. by apply (resolve_id e x s e' (proj1 Hl)). }
      destruct (append_and_apply io (RAppend e' m') (mk_open (file y) s)) as [[[]|er] o'] eqn:Hap; simplify_eq/=.
      * apply (append_keeps_inv io (RAppend e' m') y s o (Ok tt)); [done..|]. cbn [is_ok]. rewrite Hid. set_solver.
      * apply (append_keeps_inv io (RAppend e' m') y s o (Err er)); [done..|]. cbn [is_ok]. set_solver.
    + split; cbn [file live reads failed acked]; [done..|]. unfold on_disk in *. cbn [file]. by rewrite Hlv in Hl.
  - rewrite Hlv in Hl. destruct Hl as (Hg & Hag & Hk). destruct io as [|er]; simplify_eq/=.
    2: { split; cbn [file live reads failed acked]; [done..|]. by unfold on_disk in *. }
    set (s' := mutate w s). assert (good s') as Hg' by by apply good_mutate.
    assert (kept (match w with DropEntries => ∅ | _ => acked y end) s') as Hk'.
    { unfold kept in *. destruct w; subst s'; cbn [mutate clear_meta clear_entries clear_leaf committed entries]; set_solver. }
    assert (text_ok (snapshot_text s') /\ Forall rec_ok (held (snapshot_text s')) /\
            agrees [] s' (replay (held (snapshot_text s')) empty_session) /\
            kept (match w with DropEntries => ∅ | _ => acked y end) (replay (held (snapshot_text s')) empty_session)) as (H1 & H2 & H3 & H4).
    { unfold snapshot_text. destruct (is_empty s') eqn:He.
      - unfold is_empty in He. apply andb_prop in He as [He Hlf%bool_decide_eq_true]. apply andb_prop in He as [Hme%bool_decide_eq_true Hes%bool_decide_eq_true].
        split_and!; [split; [by left|done]|constructor| |].
        + split; left; cbn; [by rewrite Hme|by rewrite Hes|by rewrite Hlf].
        + unfold kept in *. rewrite Hes, dom_empty_L in Hk'. set_solver.
      - destruct (lines_text (snapshot_records s')) as (T1 & T2 & _); [by apply snapshot_good|].
        rewrite T2, replay_snapshot by done. split_and!; [done|by apply snapshot_good| |done]. split; by left. }
    split; cbn [file live reads failed acked]; [exact H1|exact H2|unfold on_disk; cbn [file]; by destruct w|].
    split_and!; [done|exact H3|by destruct w].
  - split; cbn [file live reads failed acked]; [done..|]. split; [done|constructor].
Qed.

Lemma init_inv : inv init.
Proof. split; [split; [by left|done]|constructor|unfold kept; set_solver|]. split; [done|constructor]. Qed.

Lemma reachable_inv y : reachable sid y -> legible y -> inv y.
Proof.
  revert y. refine (rtc_ind_r (λ y, legible y -> inv y) init _ _); [intros _; apply init_inv|].
  intros a b _ Hs IH Hl. eapply life_step_inv; [|exact Hs|done]. apply IH. by eapply step_legible.
Qed.

(** What a running session shows is what a restart reads: in every run of replays, appends, rewrites,
    torn writes and crashes whose records the reader reads back, replaying a readable file gives, key
    by key, the metadata, the entry and the leaf that are in memory, or one that a failed append wrote
    as a whole. *)
Theorem reads_survive_restart y s :
  reachable sid y -> legible y -> live y = Some s -> from_option utf8_ok true (file y) = true ->
  exists r, replay_file (file y) = Ok r /\ agrees (failed y) s r.
Proof.
  intros Hy Hleg Hl Hu. destruct (reachable_inv y Hy Hleg) as [_ _ _ Hi]. rewrite Hl in Hi. destruct Hi as (_ & Hag & _).
  exists (on_disk y). split; [|done]. unfold on_disk, held. destruct (file y) as [t|]; [|done]. simpl in *. by rewrite Hu.
Qed.

(** A file is readable after every append that was answered. *)
Lemma answered_file_readable y s io r o :
  reachable sid y -> legible y -> live y = Some s -> rec_ok r -> append_and_apply io r (mk_open (file y) s) = (Ok tt, o) ->
  from_option utf8_ok true (text o) = true.
Proof. intros Hy Hg Hl Hr Hap. destruct (append_inv io r y s o (Ok tt) (reachable_inv y Hy Hg) Hl Hr Hap) as (_ & _ & _ & _ & Hu). by apply Hu. Qed.

(** An answered entry is stored and committed in a session. *)
Lemma kept_entry ids s i : kept ids s -> i ∈ ids -> exists e, entries s !! i = Some e /\ i ∈ committed s.
Proof. intros Hk Hi. apply Hk, elem_of_intersection in Hi as [Hc [e He]%elem_of_dom]. by exists e. Qed.

(** C15: in a run whose records the reader of the file reads back (values of their Rust types
    without [f64], at most 126 levels), an append that was answered is kept until the entries
    are deleted, through failed and torn writes, crashes and restarts.  A running session
    holds the entry, and as long as it has its metadata a retry with the id returns the stored
    entry, does not commit again and changes nothing.  A session that is not loaded is read
    back with the entry in it, unless its file is not UTF-8 any more: the write that last
    failed stopped inside a character, no start can read such a file, and then nothing is
    promised. *)
Theorem answered_append_is_kept y i :
  reachable sid y -> legible y -> i ∈ acked y ->
  match live y with
  | Some s =>
      exists stored, entries s !! i = Some stored /\
        forall e x io m, id e = i -> meta s = Some m ->
          commit_append io sid e x (mk_open (file y) s) = (Ok (mk_commit stored m false), mk_open (file y) s)
  | None =>
      from_option utf8_ok true (file y) = false \/
      exists s stored, replay_file (file y) = Ok s /\ entries s !! i = Some stored /\ i ∈ committed s
  end.
Proof.
  intros Hy Hleg Ha. destruct (reachable_inv y Hy Hleg) as [_ _ Hd Hi]. destruct (live y) as [s|] eqn:Hl.
  - destruct Hi as (Hg & _ & Hk). destruct (kept_entry _ _ _ Hk Ha) as (e0 & He & Hc). exists e0. split; [done|].
    intros e x io m <- Hm. unfold commit_append, decide_append. cbn [Log.session]. rewrite Hm, He. simpl.
    rewrite (proj1 (good_e s Hg _ _ He)). by rewrite decide_True.
  - destruct (kept_entry _ _ _ Hd Ha) as (e0 & He & Hc). unfold on_disk, held in *.
    destruct (file y) as [t|]; cbn [replay_file from_option] in *; [|change ((∅ : gmap string SessionEntry) !! i = Some e0) in He; by rewrite lookup_empty in He].
    destruct (utf8_ok t); [right|by left]. by exists (replay (records_of t) empty_session), e0.
Qed.

(** The end of a session whose append was cut inside a character: once the process is gone, no later
    run opens it again. *)
Theorem cut_inside_a_character_locks_the_session y t y' :
  file y = Some t -> utf8_ok t = false -> live y = None -> reads y = [] -> rtc (step sid) y y' ->
  live y' = None /\ file y' = Some t /\ exists e, replay_file (file y') = Err e.
Proof.
  intros Hf Hu Hl Hr Hs. assert (live y' = None /\ file y' = Some t /\ reads y' = []) as (H1 & H2 & _).
  { induction Hs as [y|y a b Hs _ IH]; [done|]. assert (file a = Some t /\ live a = None /\ reads a = []) as (Ha1 & Ha2 & Ha3).
    { destruct Hs as [s Hn Hrep|s Hin|io r s res o Hlv|io e x s res o Hlv|io w s res o Hlv|]; cbn [file live reads]; try congruence; [| |done].
      - rewrite Hf in Hrep. simpl in Hrep. by rewrite Hu in Hrep.
      - rewrite Hr in Hin. by apply elem_of_nil in Hin. }
    by apply IH. }
  split_and!; [done|done|]. rewrite H2. simpl. rewrite Hu. by eexists.
Qed.

End Properties.
End LifeProperties.
