(* ===== verification/SessionStore.v ===== *)
(** * The storage contract of the session manager (session-manager/src/store/mod.rs)

    [SessionStore] is the trait: one constructor of [Op] per method, [spec] what each promises
    over a model of sessions and attachments.  A store is lawful when every call either does
    what [spec] says, or fails with nothing or all of it done (an attachment that replaces another
    one may be replaced in part).  Module [Prog] is the language
    the service is written in: programs of store calls, clock readings and new ids, run by
    [exec] over any store.  [ModelStore] is the contract as a store of its own, with faults
    chosen by an environment; [lawful_stores_simulate] is what makes a theorem about the
    service over [ModelStore] hold over every lawful store. *)

From Stdlib Require Import Ascii ZArith Lia.
From S2P Require Import Prelude Json Codec JsonText SessionTypes SessionLog SessionLife.
Import Types.

#[export] Instance SessionMeta_eq_dec : EqDecision SessionMeta.
Proof. solve_decision. Defined.

Module Contract.
Import Log.

(** ** The trait *)

Inductive Op : Type -> Type :=
| GetMeta (sid : string) : Op (option SessionMeta)
| PutMeta (m : SessionMeta) : Op unit
| DeleteMeta (sid : string) : Op unit
| ListMetas : Op (list SessionMeta)
| GetEntry (sid eid : string) : Op (option SessionEntry)
| PutEntry (sid : string) (e : SessionEntry) : Op unit
| CommitAppend (sid : string) (e : SessionEntry) (parent_explicit : bool) : Op CommitAppendResult
| ListEntries (sid : string) : Op (list SessionEntry)
| DeleteEntries (sid : string) : Op unit
| GetActiveLeaf (sid : string) : Op (option string)
| SetActiveLeaf (sid eid : string) : Op unit
| DeleteActiveLeaf (sid : string) : Op unit
| PutAttachment (m : AttachmentMeta) (bytes : string) : Op unit
| GetAttachment (sid aid : string) : Op (option (AttachmentMeta * string))
| ListAttachments (sid : string) : Op (list AttachmentMeta)
| DeleteAttachment (sid aid : string) : Op bool
| DeleteAttachments (sid : string) : Op unit.

(** ** The model *)

Abbreviation Blobs := (gmap string (AttachmentMeta * string)).

Record Model : Type := mk_model {
  sessions : gmap string LoadedSession;
  attachments : gmap string Blobs;
}.

Definition empty_model : Model := mk_model ∅ ∅.

Definition sess (sid : string) (m : Model) : LoadedSession := default empty_session (sessions m !! sid).
Definition blobs (sid : string) (m : Model) : Blobs := default ∅ (attachments m !! sid).

Definition set_sess (sid : string) (s : LoadedSession) (m : Model) : Model :=
  mk_model (<[sid := s]> (sessions m)) (attachments m).
Definition set_blobs (sid : string) (b : Blobs) (m : Model) : Model :=
  mk_model (sessions m) (<[sid := b]> (attachments m)).

Definition change (sid : string) (f : LoadedSession -> LoadedSession) (m : Model) : Model :=
  set_sess sid (f (sess sid m)) m.

Definition metas (m : Model) : list SessionMeta := omap meta (btree_values (sessions m)).
Definition attachment_list (sid : string) (m : Model) : list AttachmentMeta := (btree_values (blobs sid m)).*1.

(** What every method promises; the order of a listing is not part of it. *)
Definition spec {A} (op : Op A) (m : Model) : result A StoreError * Model :=
  match op in Op A return result A StoreError * Model with
  | GetMeta sid => (Ok (meta (sess sid m)), m)
  | PutMeta x => (Ok tt, change (session_id x) (apply (RMeta x)) m)
  | DeleteMeta sid => (Ok tt, change sid clear_meta m)
  | ListMetas => (Ok (metas m), m)
  | GetEntry sid eid => (Ok (entries (sess sid m) !! eid), m)
  | PutEntry sid e => (Ok tt, change sid (apply (REntry e)) m)
  | CommitAppend sid e x =>
      match decide_append sid e x (sess sid m) with
      | Err err => (Err err, m)
      | Ok (inl r) => (Ok r, m)
      | Ok (inr (e', m')) => (Ok (mk_commit e' m' true), change sid (apply (RAppend e' m')) m)
      end
  | ListEntries sid => (Ok (btree_values (entries (sess sid m))), m)
  | DeleteEntries sid => (Ok tt, change sid clear_entries m)
  | GetActiveLeaf sid => (Ok (leaf (sess sid m)), m)
  | SetActiveLeaf sid i => (Ok tt, change sid (apply (RLeaf (Some i))) m)
  | DeleteActiveLeaf sid => (Ok tt, change sid clear_leaf m)
  | PutAttachment a bytes => (Ok tt, set_blobs (att_session a) (<[attachment_id a := (a, bytes)]> (blobs (att_session a) m)) m)
  | GetAttachment sid aid => (Ok (blobs sid m !! aid), m)
  | ListAttachments sid => (Ok (attachment_list sid m), m)
  | DeleteAttachment sid aid =>
      (Ok (bool_decide (is_Some (blobs sid m !! aid))), set_blobs sid (delete aid (blobs sid m)) m)
  | DeleteAttachments sid => (Ok tt, set_blobs sid ∅ m)
  end.

(** Two answers that differ at most in the order of a listing. *)
Definition same_answer {A} (op : Op A) : result A StoreError -> result A StoreError -> Prop :=
  match op in Op A return result A StoreError -> result A StoreError -> Prop with
  | ListMetas => λ r r', match r, r' with Ok l, Ok l' => l ≡ₚ l' | _, _ => r = r' end
  | ListAttachments _ => λ r r', match r, r' with Ok l, Ok l' => l ≡ₚ l' | _, _ => r = r' end
  | _ => eq
  end.

(** The removal of a folder may stop halfway: some of the attachments are left.  The replacement of
    an attachment may stop between its bytes and its metadata: the new bytes are then under the old
    metadata. *)
Definition partly {A} (op : Op A) (m m' : Model) : Prop :=
  match op with
  | DeleteAttachments sid => exists b, b ⊆ blobs sid m /\ m' = set_blobs sid b m
  | PutAttachment a bytes => exists old b, blobs (att_session a) m !! attachment_id a = Some (old, b) /\
      m' = set_blobs (att_session a) (<[attachment_id a := (old, bytes)]> (blobs (att_session a) m)) m
  | _ => False
  end.

(** One call of a lawful store: answered, or failed with nothing, everything or a part done. *)
Inductive outcome {A} (op : Op A) (m : Model) : result A StoreError -> Model -> Prop :=
| Answered r : same_answer op r (spec op m).1 -> outcome op m r (spec op m).2
| FailedBefore e : outcome op m (Err e) m
| FailedAfter e : outcome op m (Err e) (spec op m).2
| FailedPartly e m' : partly op m m' -> outcome op m (Err e) m'.

End Contract.

Class SessionStore (St : Type) : Type := {
  perform : forall A, Contract.Op A -> St -> result A string * St;
}.
Arguments perform {St _ A} op st.

(** A store keeps the contract on the operations it admits; [represents] relates it to the model. *)
Class StoreLaws (St : Type) `{SessionStore St} (represents : St -> Contract.Model -> Prop)
  (admits : forall A, Contract.Op A -> Contract.Model -> Prop) : Prop := {
  law_perform : forall A (op : Contract.Op A) st m, represents st m -> admits A op m ->
    exists m', Contract.outcome op m (perform op st).1 m' /\ represents (perform op st).2 m';
}.

(** ** Programs *)

Module Prog.
Import Contract.
Abbreviation StoreError := string (only parsing).

Inductive IdKind : Type := SessionId | EntryId | AttachmentId.

(** How a handler ends without an answer: an error, or a panic ([expect], [clamp]). *)
Inductive Stop : Type :=
| Failed (e : SessionError)
| Panicked.

Inductive Prog (A : Type) : Type :=
| Done (r : result A Stop)
| Do (B : Type) (op : Op B) (k : result B StoreError -> Prog A)
| Now (k : Z -> Prog A)
| NewId (kind : IdKind) (k : string -> Prog A).
Arguments Done {A}.
Arguments Do {A B}.
Arguments Now {A}.
Arguments NewId {A}.

Definition ret {A} (a : A) : Prog A := Done (Ok a).
Definition throw {A} (e : SessionError) : Prog A := Done (Err (Failed e)).
Definition panic {A} : Prog A := Done (Err Panicked).

Fixpoint bind {A B} (p : Prog A) (f : A -> Prog B) : Prog B :=
  match p with
  | Done (Ok a) => f a
  | Done (Err e) => Done (Err e)
  | Do op k => Do op (λ r, bind (k r) f)
  | Now k => Now (λ z, bind (k z) f)
  | NewId kind k => NewId kind (λ i, bind (k i) f)
  end.

(** [self.store.op(..).await?]: a storage failure ends the handler. *)
Definition call {A B} (op : Op B) (k : B -> Prog A) : Prog A :=
  Do op (λ r, match r with Ok b => k b | Err e => throw (Storage e) end).

(** The clock and the random ids, by the number of the interaction. *)
Record Oracle : Type := { clock : nat -> Z; new_id : IdKind -> nat -> string }.

Fixpoint exec `{SessionStore St} {A} (o : Oracle) (p : Prog A) (st : St) (n : nat) : result A Stop * St * nat :=
  match p with
  | Done r => (r, st, n)
  | Do op k => let '(r, st') := perform op st in exec o (k r) st' (S n)
  | Now k => exec o (k (clock o n)) st (S n)
  | NewId kind k => exec o (k (new_id o kind n)) st (S n)
  end.

End Prog.

Declare Scope prog_scope.
Delimit Scope prog_scope with P.
Notation "x ←{ op } k" := (Prog.call op (λ x, k)) (at level 20, op at level 100, k at level 200, only parsing) : prog_scope.
Notation "x ←% p ; k" := (Prog.bind p (λ x, k)) (at level 20, p at level 100, k at level 200, only parsing) : prog_scope.

(** ** The contract as a store *)

Module ModelStore.
Import Contract Prog.

(** What happens to a call, by its number; a listing comes in an order of its own. *)
Inductive Fault : Type := Fine | Lost (e : string) | Late (e : string) | Partly (e : string) (kept : gset string).

Record Faults : Type := {
  fault : nat -> Fault;
  meta_order : nat -> list SessionMeta -> list SessionMeta;
  attachment_order : nat -> list AttachmentMeta -> list AttachmentMeta;
}.

Definition orders_ok (f : Faults) : Prop :=
  (forall n l, meta_order f n l ≡ₚ l) /\ (forall n l, attachment_order f n l ≡ₚ l).

Definition no_faults : Faults := {| fault _ := Fine; meta_order _ l := l; attachment_order _ l := l |}.

Definition reorder {A} (f : Faults) (n : nat) (op : Op A) : result A StoreError -> result A StoreError :=
  match op in Op A return result A StoreError -> result A StoreError with
  | ListMetas => λ r, match r with Ok l => Ok (meta_order f n l) | Err e => Err e end
  | ListAttachments _ => λ r, match r with Ok l => Ok (attachment_order f n l) | Err e => Err e end
  | _ => λ r, r
  end.

(** What is left when a call stops halfway: the removal of a folder keeps only some attachments, a
    replacement has written its bytes. *)
Definition keep_only {A} (kept : gset string) (op : Op A) (m : Model) : Model :=
  match op with
  | DeleteAttachments sid => set_blobs sid (filter (λ p : string * (AttachmentMeta * string), p.1 ∈ kept) (blobs sid m)) m
  | PutAttachment a bytes =>
      match blobs (att_session a) m !! attachment_id a with
      | Some (old, _) => set_blobs (att_session a) (<[attachment_id a := (old, bytes)]> (blobs (att_session a) m)) m
      | None => m
      end
  | _ => m
  end.

(** The model and the number of calls so far. *)
Record Modelled (f : Faults) : Type := mk_modelled { model : Model; calls : nat }.
Arguments mk_modelled {f}.
Arguments model {f}.
Arguments calls {f}.

Definition model_perform {f : Faults} {A} (op : Op A) (s : Modelled f) : result A StoreError * Modelled f :=
  let n := calls s in
  match fault f n with
  | Fine => (reorder f n op (spec op (model s)).1, mk_modelled (spec op (model s)).2 (S n))
  | Lost e => (Err e, mk_modelled (model s) (S n))
  | Late e => (Err e, mk_modelled (spec op (model s)).2 (S n))
  | Partly e kept => (Err e, mk_modelled (keep_only kept op (model s)) (S n))
  end.

#[export] Instance model_store (f : Faults) : SessionStore (Modelled f) := {| perform A := model_perform |}.

(** The model store keeps the contract. *)
Lemma model_laws (f : Faults) : orders_ok f ->
  StoreLaws (Modelled f) (λ s m, model s = m) (λ _ _ _, True).
Proof.
  intros [Hm Ha]. split. intros A op s m <- _. cbn [perform model_store]. unfold model_perform.
  destruct (fault f (calls s)) as [|e|e|e kept]; cbn [fst snd model]; eexists; (split; [|reflexivity]).
  - apply Answered. destruct op; cbn [spec reorder same_answer fst]; done.
  - apply FailedBefore.
  - apply FailedAfter.
  - destruct op; try apply FailedBefore; cbn [keep_only].
    + destruct (blobs _ _ !! _) as [[old b]|] eqn:Hb; [|apply FailedBefore]. apply FailedPartly. cbn. by exists old, b.
    + apply FailedPartly. cbn. eexists. split; [|done]. apply map_filter_subseteq.
Qed.

(** Running on from call [n] asks nothing about earlier calls. *)
Definition agree_from (n : nat) (f g : Faults) : Prop :=
  forall k, n <= k -> fault f k = fault g k /\ (forall l, meta_order f k l = meta_order g k l) /\
    (forall l, attachment_order f k l = attachment_order g k l).

Lemma exec_agree {A} (o : Oracle) (p : Prog A) (f g : Faults) m n c :
  agree_from n f g ->
  let '(r, s, c1) := exec o p (mk_modelled (f := f) m n) c in
  let '(r', s', c2) := exec o p (mk_modelled (f := g) m n) c in
  r = r' /\ model s = model s' /\ calls s = calls s' /\ c1 = c2.
Proof.
  revert m n c. induction p as [r|B op k IH|k IH|kind k IH]; intros m n c Hfg; cbn [exec]; [done| |by apply IH..].
  cbn [perform model_store]. unfold model_perform. cbn [calls model].
  destruct (Hfg n (le_n n)) as (Hf & Hm & Ha). rewrite Hf.
  assert (reorder f n op (spec op m).1 = reorder g n op (spec op m).1) as ->.
  { destruct op; cbn [reorder spec fst]; by rewrite ?Hm, ?Ha. }
  assert (agree_from (S n) f g) as Hs by (intros k' Hk'; apply Hfg; lia).
  destruct (fault g n); by apply IH.
Qed.

(** [f] with the decision of call [n] replaced. *)
Definition at_call (n : nat) (x : Fault) (l1 l1' : list SessionMeta) (l2 l2' : list AttachmentMeta) (f : Faults) : Faults := {|
  fault k := if decide (k = n) then x else fault f k;
  meta_order k l := if decide (k = n) then (if bool_decide (l = l1) then l1' else l) else meta_order f k l;
  attachment_order k l := if decide (k = n) then (if bool_decide (l = l2) then l2' else l) else attachment_order f k l;
|}.

Lemma at_call_later n x l1 l1' l2 l2' f : agree_from (S n) f (at_call n x l1 l1' l2 l2' f).
Proof. intros k Hk. cbn. split_and!; [|intros l..]; by rewrite decide_False by lia. Qed.

Lemma at_call_orders n x l1 l1' l2 l2' f : l1' ≡ₚ l1 -> l2' ≡ₚ l2 -> orders_ok f -> orders_ok (at_call n x l1 l1' l2 l2' f).
Proof.
  intros H1 H2 [Hm Ha]. split; intros k l; cbn; (case_decide; [|auto]); case_bool_decide; subst; done.
Qed.

(** The outcome of a lawful call is one the model store gives under some faults. *)
Lemma outcome_realised {B} (op : Op B) m n r m' f : outcome op m r m' -> orders_ok f ->
  exists g, agree_from (S n) f g /\ orders_ok g /\ model_perform (f := g) op (mk_modelled m n) = (r, mk_modelled m' (S n)).
Proof.
  intros Ho Hf. unfold model_perform. cbn [calls model].
  assert (forall x, orders_ok (at_call n x [] [] [] [] f)) as Hx by (intros x; apply at_call_orders; [reflexivity|reflexivity|exact Hf]).
  destruct Ho as [r Hr|e|e|e m1 Hp]; cycle 1.
  { exists (at_call n (Lost e) [] [] [] [] f). split; [apply at_call_later|split; [auto|]]. cbn. by rewrite decide_True. }
  { exists (at_call n (Late e) [] [] [] [] f). split; [apply at_call_later|split; [auto|]]. cbn. by rewrite decide_True. }
  { destruct op; try done.
    { destruct Hp as (old & b & Hb & ->). exists (at_call n (Partly e ∅) [] [] [] [] f). split; [apply at_call_later|split; [auto|]].
      cbn [fault at_call]. rewrite decide_True by done. cbn [keep_only]. by rewrite Hb. }
    destruct Hp as (b & Hb & ->). exists (at_call n (Partly e (dom b)) [] [] [] [] f). split; [apply at_call_later|split; [auto|]]. cbn. rewrite decide_True by done.
    cbn [keep_only]. do 3 f_equal. apply map_eq. intros i. apply option_eq. intros x. rewrite map_lookup_filter_Some, elem_of_dom. cbn.
    split; [intros [Hm [y Hy]]|intros Hix; split; [by eapply lookup_weaken|by eexists]].
    rewrite Hy. f_equal. pose proof (lookup_weaken _ _ _ _ Hy Hb). congruence. }
  destruct op; cbn [same_answer spec fst] in Hr;
    try (subst r; exists (at_call n Fine [] [] [] [] f); split; [apply at_call_later|split; [auto|]]; cbn; by rewrite decide_True).
  - destruct r as [l|e]; [|by subst]. exists (at_call n Fine (metas m) l [] [] f).
    split; [apply at_call_later|split; [apply at_call_orders; [exact Hr || reflexivity|exact Hr || reflexivity|exact Hf]|]]. cbn. rewrite !decide_True by done. by rewrite bool_decide_true.
  - destruct r as [l|e]; [|by subst]. exists (at_call n Fine [] [] (attachment_list sid m) l f).
    split; [apply at_call_later|split; [apply at_call_orders; [exact Hr || reflexivity|exact Hr || reflexivity|exact Hf]|]]. cbn. rewrite !decide_True by done. by rewrite bool_decide_true.
Qed.

(** Every operation a program may perform is admitted, whatever it is answered. *)
Fixpoint admitted {A} (admits : forall B, Op B -> Model -> Prop) (o : Oracle) (p : Prog A) (m : Model) (n : nat) : Prop :=
  match p with
  | Done _ => True
  | Do op k => admits _ op m /\ forall r m', outcome op m r m' -> admitted admits o (k r) m' (S n)
  | Now k => admitted admits o (k (clock o n)) m (S n)
  | NewId kind k => admitted admits o (k (new_id o kind n)) m (S n)
  end.

(** A program over a lawful store ends as it does over the model store under some faults,
    with the same answer and in a state that represents the model it ends in. *)
Theorem lawful_stores_simulate {St} `{StoreLaws St} {A} (o : Oracle) (p : Prog A) st m c n :
  represents st m -> admitted admits o p m n ->
  exists f, orders_ok f /\
    let '(r, s, n1) := exec o p (mk_modelled (f := f) m c) n in
    (exec o p st n).1.1 = r /\ represents (exec o p st n).1.2 (model s) /\ (exec o p st n).2 = n1.
Proof.
  revert st m c n. induction p as [r|B op k IH|k IH|kind k IH]; intros st m c n Hrep Hadm; cbn [exec admitted] in *.
  - by exists no_faults.
  - destruct Hadm as [Hop Hk]. destruct (law_perform B op st m Hrep Hop) as (m1 & Ho & Hrep1).
    destruct (perform op st) as [r st1]. cbn [fst snd] in *.
    destruct (IH r st1 m1 (S c) (S n) Hrep1 (Hk r m1 Ho)) as (f & Hf & Hrun).
    destruct (outcome_realised op m c r m1 f Ho Hf) as (g & Hag & Hg & Hp).
    exists g. split; [done|]. change (perform op ?s) with (model_perform op s). rewrite Hp.
    pose proof (exec_agree o (k r) f g m1 (S c) (S n) Hag) as He.
    destruct (exec o (k r) (mk_modelled (f := f) m1 (S c)) (S n)) as [[r1 s1] n1].
    destruct (exec o (k r) (mk_modelled (f := g) m1 (S c)) (S n)) as [[r2 s2] n2].
    destruct He as (<- & <- & _ & <-). done.
  - by apply IH.
  - by apply IH.
Qed.

End ModelStore.
