(* ===== verification/SessionFs.v ===== *)
(** * The file store (session-manager/src/store/fs.rs)

    [FsStore] is the whole store: the files of the data directory, the cache of replayed
    sessions, and an environment that lets any read, write or removal fail, at any byte.
    [FileNames] are the names it gives to sessions and attachments, [NameRules] shows that they
    can be read back and do not meet.  A call is one step here; the replays that race with
    writes are in [SessionLife], the proof that the store keeps its contract is in
    [SessionFsLaws]. *)

From Stdlib Require Import Ascii ZArith Lia.
From S2P Require Import Prelude Json Codec JsonText SessionTypes SessionLog SessionLife SessionStore.
Import Types Contract.

(** ** Names *)

Module FileNames.

Definition chr (z : Z) : ascii := ascii_of_N (Z.to_N z).

(** The characters that stay as they are. *)
Definition plain_char (c : ascii) : bool :=
  between 0x61 0x7A c || between 0x41 0x5A c || between 0x30 0x39 c || bool_decide (c ∈ ["."; "_"; "-"]%char).

(** A digit of [{:02X}]. *)
Definition upper_hex (n : Z) : ascii := chr (if (n <? 10)%Z then 0x30 + n else 0x37 + n).

Definition encode_byte (c : ascii) : string :=
  if plain_char c then String c ""
  else String "%" (String (upper_hex (ascii_code c / 16)) (String (upper_hex (ascii_code c mod 16)) "")).

Fixpoint encode_session_id (id : string) : string :=
  match id with
  | EmptyString => ""
  | String c id' => encode_byte c +:+ encode_session_id id'
  end.

Definition hex_digit (c : ascii) : option Z :=
  if between 0x30 0x39 c then Some (ascii_code c - 0x30)%Z
  else if between 0x41 0x46 c then Some (ascii_code c - 0x37)%Z
  else if between 0x61 0x66 c then Some (ascii_code c - 0x57)%Z
  else None.

(** [u8::from_str_radix(.., 16)] of two characters: a sign may stand for the first digit. *)
Definition from_str_radix (a b : ascii) : option Z :=
  match hex_digit a, hex_digit b with
  | Some x, Some y => Some (16 * x + y)%Z
  | None, Some y => if decide (a = "+"%char) then Some y else None
  | _, None => None
  end.

Fixpoint decode_bytes (s : string) : option string :=
  match s with
  | EmptyString => Some ""
  | String c s' =>
      if decide (c = "%"%char) then
        match s' with
        | String a (String b s'') => z ← from_str_radix a b; String (chr z) <$> decode_bytes s''
        | _ => None
        end
      else String c <$> decode_bytes s'
  end.

Definition decode_session_id (stem : string) : option string :=
  s ← decode_bytes stem; if utf8_ok s then Some s else None.

(** The last dot of a name, and what is before and after it. *)
Fixpoint rsplit_dot (s : string) : option (string * string) :=
  match s with
  | EmptyString => None
  | String c s' =>
      match rsplit_dot s' with
      | Some (a, b) => Some (String c a, b)
      | None => if decide (c = "."%char) then Some ("", s') else None
      end
  end.

(** [Path::file_stem] and [Path::extension]: a dot in front does not count. *)
Definition file_stem (name : string) : string :=
  match rsplit_dot name with Some (String c a, _) => String c a | _ => name end.
Definition extension (name : string) : option string :=
  match rsplit_dot name with Some (String _ _, b) => Some b | _ => None end.
Definition with_extension (name ext : string) : string := file_stem name +:+ "." +:+ ext.

End FileNames.

(** ** The store *)

Module FsStore.
Import Log FileNames.

(** A path under the data directory, step by step. *)
Abbreviation Path := (list string).
Abbreviation Files := (gmap Path string).

(** How far the write of an attachment gets; a temporary file may be left. *)
Inductive put_io : Type :=
| PutOk
| MkdirFails (e : StoreError)
| BytesFail (e : StoreError) (partial : option string)
| MetaFails (e : StoreError) (partial : option string).

(** A folder that is removed, or removed up to some files. *)
Inductive remove_io : Type :=
| RemoveOk
| RemoveStops (e : StoreError) (kept : Path -> bool).

(** What the file system does during one call. *)
Record Env : Type := mk_env {
  io_read : Path -> option StoreError;
  io_dir : option StoreError;
  io_order : list string -> list string;
  io_append : append_io;
  io_snapshot : snapshot_io;
  io_tmp : option string;
  io_put : put_io;
  io_unlink : Path -> option StoreError;
  io_remove : remove_io;
}.

Definition quiet : Env := {|
  io_read _ := None; io_dir := None; io_order l := l; io_append := AppendOk; io_snapshot := SnapshotOk; io_tmp := None;
  io_put := PutOk; io_unlink _ := None; io_remove := RemoveOk;
|}.

Definition env_ok (v : Env) : Prop := forall l, io_order v l ≡ₚ l.

(** The files, whether there is a folder for attachments, the cache, and the file system. *)
Record FsStore : Type := mk_fs {
  files : Files;
  folder : bool;
  cache : gmap string LoadedSession;
  world : nat -> Env;
  clock : nat;
}.

Definition set_files (f : Files) (st : FsStore) : FsStore := mk_fs f (folder st) (cache st) (world st) (clock st).
Definition set_folder (b : bool) (st : FsStore) : FsStore := mk_fs (files st) b (cache st) (world st) (clock st).
Definition set_cache (c : gmap string LoadedSession) (st : FsStore) : FsStore := mk_fs (files st) (folder st) c (world st) (clock st).
Definition tick (st : FsStore) : FsStore := mk_fs (files st) (folder st) (cache st) (world st) (S (clock st)).
Definition now_env (st : FsStore) : Env := world st (clock st).

(** [FsStore::new] over what is in the directory. *)
Definition open_store (f : Files) (dir : bool) (w : nat -> Env) : FsStore := mk_fs f dir ∅ w 0.

Definition file_path (sid : string) : Path := [encode_session_id sid +:+ ".jsonl"].
Definition tmp_path (sid : string) : Path := [with_extension (encode_session_id sid +:+ ".jsonl") "jsonl.tmp"].

Definition write_file (p : Path) (t : option string) (f : Files) : Files :=
  match t with Some t => <[p := t]> f | None => delete p f end.
Definition leave (p : Path) (t : option string) (f : Files) : Files :=
  match t with Some t => <[p := t]> f | None => f end.

(** A read; a file that is not there is no error. *)
Definition read (p : Path) (st : FsStore) : result (option string) StoreError :=
  match files st !! p with
  | None => Ok None
  | Some t => match io_read (now_env st) p with Some e => Err e | None => Ok (Some t) end
  end.

Section WithText.
Context `{SerdeFile}.

Definition load (sid : string) (st : FsStore) : result LoadedSession StoreError * FsStore :=
  match cache st !! sid with
  | Some s => (Ok s, st)
  | None =>
      match read (file_path sid) st with
      | Err e => (Err e, st)
      | Ok t =>
          match replay_file t with
          | Err e => (Err e, st)
          | Ok s => (Ok s, set_cache (<[sid := s]> (cache st)) st)
          end
      end
  end.

Definition with_loaded {T} (sid : string) (f : LoadedSession -> T) (st : FsStore) : result T StoreError * FsStore :=
  match load sid st with
  | (Ok s, st') => (Ok (f s), st')
  | (Err e, st') => (Err e, st')
  end.

(** An operation on the file and the cached state of a session. *)
Definition on_open {T} (sid : string) (f : Open -> result T StoreError * Open) (partial : option string) (st : FsStore)
  : result T StoreError * FsStore :=
  match load sid st with
  | (Err e, st') => (Err e, st')
  | (Ok s, st') =>
      let '(r, o) := f (mk_open (files st' !! file_path sid) s) in
      (r, set_cache (<[sid := session o]> (cache st'))
            (set_files (leave (tmp_path sid) partial (write_file (file_path sid) (text o) (files st'))) st'))
  end.

Definition appending {T} (sid : string) (f : append_io -> Open -> result T StoreError * Open) (st : FsStore)
  : result T StoreError * FsStore :=
  on_open sid (f (io_append (now_env st))) None st.

(** A snapshot that fails may leave its temporary file. *)
Definition rewriting {T} (sid : string) (f : snapshot_io -> Open -> result T StoreError * Open) (st : FsStore)
  : result T StoreError * FsStore :=
  on_open sid (f (io_snapshot (now_env st)))
    (match io_snapshot (now_env st) with SnapshotFails _ => io_tmp (now_env st) | SnapshotOk => None end) st.

(** ** Listing *)

(** The name of a file right under a directory. *)
Fixpoint child (dir p : Path) : option string :=
  match dir, p with
  | [], [n] => Some n
  | d :: dir', x :: p' => if decide (d = x) then child dir' p' else None
  | _, _ => None
  end.

Definition dir_names (dir : Path) (f : Files) : list string := omap (child dir) (map_to_list f).*1.

Definition read_dir (dir : Path) (st : FsStore) : result (list string) StoreError :=
  match io_dir (now_env st) with
  | Some e => Err e
  | None => Ok (io_order (now_env st) (dir_names dir (files st)))
  end.

Definition session_id_of (name : string) : option string :=
  if utf8_ok name then strip_suffix ".jsonl" name ≫= decode_session_id else None.

Definition session_ids_on_disk (st : FsStore) : result (list string) StoreError :=
  match read_dir [] st with Ok names => Ok (omap session_id_of names) | Err e => Err e end.

Fixpoint load_metas (ids : list string) (st : FsStore) : result (list SessionMeta) StoreError * FsStore :=
  match ids with
  | [] => (Ok [], st)
  | i :: ids' =>
      match with_loaded i meta st with
      | (Err e, st1) => (Err e, st1)
      | (Ok m, st1) =>
          match load_metas ids' st1 with
          | (Ok l, st2) => (Ok (option_list m ++ l), st2)
          | (Err e, st2) => (Err e, st2)
          end
      end
  end.

Definition list_metas (st : FsStore) : result (list SessionMeta) StoreError * FsStore :=
  match session_ids_on_disk st with
  | Err e => (Err e, st)
  | Ok ids => load_metas ids st
  end.

(** ** Attachments *)

(** [dir.join("attachments").join(encoded)], as the file system resolves it. *)
Definition attachments_dir (sid : string) : Path :=
  let stem := encode_session_id sid in
  if decide (stem = "" \/ stem = ".") then ["attachments"]
  else if decide (stem = "..") then []
  else ["attachments"; stem].

Definition meta_path (sid aid : string) : Path := attachments_dir sid ++ [encode_session_id aid +:+ ".json"].
Definition bin_path (sid aid : string) : Path := attachments_dir sid ++ [encode_session_id aid +:+ ".bin"].
Definition meta_tmp (sid aid : string) : Path := attachments_dir sid ++ [(encode_session_id aid +:+ ".json") +:+ ".tmp"].
Definition bin_tmp (sid aid : string) : Path := attachments_dir sid ++ [(encode_session_id aid +:+ ".bin") +:+ ".tmp"].

Definition put_attachment (a : AttachmentMeta) (bytes : string) (st : FsStore) : result unit StoreError * FsStore :=
  let sid := att_session a in
  let aid := attachment_id a in
  match io_put (now_env st) with
  | MkdirFails e => (Err e, st)
  | BytesFail e partial => (Err e, set_folder true (set_files (leave (bin_tmp sid aid) partial (files st)) st))
  | MetaFails e partial =>
      (Err e, set_folder true (set_files (leave (meta_tmp sid aid) partial (<[bin_path sid aid := bytes]> (files st))) st))
  | PutOk =>
      (Ok tt, set_folder true (set_files (<[meta_path sid aid := file_text (to_value a)]> (<[bin_path sid aid := bytes]> (files st))) st))
  end.

Definition read_attachment_meta (p : Path) (st : FsStore) : result (option AttachmentMeta) StoreError :=
  match read p st with
  | Err e => Err e
  | Ok None => Ok None
  | Ok (Some t) =>
      match match read_text t with Parsed v => from_value v | _ => None end with
      | Some a => Ok (Some a)
      | None => Err "malformed attachment meta"
      end
  end.

Definition get_attachment (sid aid : string) (st : FsStore) : result (option (AttachmentMeta * string)) StoreError :=
  match read_attachment_meta (meta_path sid aid) st with
  | Err e => Err e
  | Ok None => Ok None
  | Ok (Some a) =>
      match read (bin_path sid aid) st with
      | Err e => Err e
      | Ok None => Err ("attachment " +:+ aid +:+ " of session " +:+ sid +:+ " has metadata but no bytes")
      | Ok (Some bytes) => Ok (Some (a, bytes))
      end
  end.

Fixpoint read_metas (dir : Path) (names : list string) (st : FsStore) : result (list AttachmentMeta) StoreError :=
  match names with
  | [] => Ok []
  | n :: names' =>
      if decide (extension n = Some "json") then
        match read_attachment_meta (dir ++ [n]) st with
        | Err e => Err e
        | Ok a => match read_metas dir names' st with Ok l => Ok (option_list a ++ l) | Err e => Err e end
        end
      else read_metas dir names' st
  end.

(** A folder that is not there has no attachments. *)
Definition list_attachments (sid : string) (st : FsStore) : result (list AttachmentMeta) StoreError :=
  if negb (folder st) then Ok []
  else match read_dir (attachments_dir sid) st with
       | Err e => Err e
       | Ok names => read_metas (attachments_dir sid) names st
       end.

(** [remove_file]: whether it was there. *)
Definition unlink (p : Path) (st : FsStore) : result bool StoreError * FsStore :=
  match files st !! p with
  | None => (Ok false, st)
  | Some _ =>
      match io_unlink (now_env st) p with
      | Some e => (Err e, st)
      | None => (Ok true, set_files (delete p (files st)) st)
      end
  end.

Definition delete_attachment (sid aid : string) (st : FsStore) : result bool StoreError * FsStore :=
  match unlink (meta_path sid aid) st with
  | (Err e, st1) => (Err e, st1)
  | (Ok existed, st1) =>
      match unlink (bin_path sid aid) st1 with
      | (Err e, st2) => (Err e, st2)
      | (Ok _, st2) => (Ok existed, st2)
      end
  end.

(** The path lies under the directory. *)
Definition under (dir p : Path) : bool := bool_decide (dir `prefix_of` p).

Definition remove_dir_all (dir : Path) (st : FsStore) : result unit StoreError * FsStore :=
  match io_remove (now_env st) with
  | RemoveOk =>
      (Ok tt, set_folder (folder st && negb (under dir ["attachments"]))
                (set_files (filter (λ q : Path * string, under dir q.1 = false) (files st)) st))
  | RemoveStops e kept =>
      (Err e, set_files (filter (λ q : Path * string, under dir q.1 && negb (kept q.1) = false) (files st)) st)
  end.

(** A folder that is not there is gone already. *)
Definition delete_attachments (sid : string) (st : FsStore) : result unit StoreError * FsStore :=
  if folder st then remove_dir_all (attachments_dir sid) st else (Ok tt, st).

(** ** The trait *)

Definition fs_call {A} (op : Op A) (st : FsStore) : result A StoreError * FsStore :=
  match op in Op A return result A StoreError * FsStore with
  | GetMeta sid => with_loaded sid meta st
  | PutMeta m => appending (session_id m) (λ io, put_meta io m) st
  | DeleteMeta sid => rewriting sid delete_meta st
  | ListMetas => list_metas st
  | GetEntry sid eid => with_loaded sid (λ s, entries s !! eid) st
  | PutEntry sid e => appending sid (λ io, put_entry io e) st
  | CommitAppend sid e x => appending sid (λ io, commit_append io sid e x) st
  | ListEntries sid => with_loaded sid (λ s, btree_values (entries s)) st
  | DeleteEntries sid => rewriting sid delete_entries st
  | GetActiveLeaf sid => with_loaded sid leaf st
  | SetActiveLeaf sid i => appending sid (λ io, set_active_leaf io i) st
  | DeleteActiveLeaf sid => rewriting sid delete_active_leaf st
  | PutAttachment a bytes => put_attachment a bytes st
  | GetAttachment sid aid => (get_attachment sid aid st, st)
  | ListAttachments sid => (list_attachments sid st, st)
  | DeleteAttachment sid aid => delete_attachment sid aid st
  | DeleteAttachments sid => delete_attachments sid st
  end.

#[export] Instance fs_store : SessionStore FsStore := {|
  perform A op st := let '(r, st') := fs_call op st in (r, tick st');
|}.

End WithText.
End FsStore.

(** ** Names are read back and do not meet *)

Module NameRules.
Import FileNames FsStore.

Lemma decode_byte c r : decode_bytes (encode_byte c +:+ r) = String c <$> decode_bytes r.
Proof. destruct c as [[] [] [] [] [] [] [] []]; reflexivity. Qed.

Lemma decode_encode_app s r : decode_bytes (encode_session_id s +:+ r) = String.append s <$> decode_bytes r.
Proof.
  induction s as [|c s IH]; [cbn [encode_session_id]; rewrite append_nil_l; by destruct (decode_bytes r)|].
  cbn [encode_session_id]. rewrite <-append_assoc, decode_byte, IH.
  by destruct (decode_bytes r).
Qed.

Lemma decode_encoded s : decode_bytes (encode_session_id s) = Some s.
Proof. pose proof (decode_encode_app s "") as He. rewrite append_nil_r in He. rewrite He. simpl. by rewrite append_nil_r. Qed.

#[export] Instance encode_inj : Inj (=) (=) encode_session_id.
Proof. intros a b Hab. pose proof (decode_encoded a) as Ha. rewrite Hab, decode_encoded in Ha. by injection Ha. Qed.

(** The characters of a file name of the store. *)
Definition name_char (c : ascii) : bool := plain_char c || bool_decide (c = "%"%char).

Fixpoint all_chars (f : ascii -> bool) (s : string) : bool :=
  match s with EmptyString => true | String c s' => f c && all_chars f s' end.

Lemma all_chars_app f a b : all_chars f (a +:+ b) = all_chars f a && all_chars f b.
Proof. induction a as [|c a IH]; [done|]. rewrite append_cons. simpl. by rewrite IH, andb_assoc. Qed.

Lemma encode_chars s : all_chars name_char (encode_session_id s) = true.
Proof.
  induction s as [|c s IH]; [done|]. cbn [encode_session_id]. rewrite all_chars_app, IH, andb_true_r.
  destruct c as [[] [] [] [] [] [] [] []]; reflexivity.
Qed.

Lemma encode_utf8 s r : utf8_ok (encode_session_id s +:+ r) = utf8_ok r.
Proof.
  apply utf8_ok_app. pose proof (encode_chars s) as Hs. induction (encode_session_id s) as [|c t IH]; [done|]. simpl in Hs.
  apply andb_prop in Hs as [Hc Ht]. cbn [utf8_ok]. assert ((ascii_code c <? 128)%Z = true) as ->; [|by apply IH].
  destruct c as [[] [] [] [] [] [] [] []]; first [reflexivity|vm_compute in Hc; discriminate].
Qed.

Lemma rsplit_dot_none s : contains_char "." s = false -> rsplit_dot s = None.
Proof.
  induction s as [|c s IH]; [done|]. cbn [contains_char rsplit_dot]. case_decide as Hc; [done|]. intros Hs. rewrite IH by done.
  by rewrite decide_False.
Qed.

Lemma rsplit_dot_app a b : contains_char "." b = false -> rsplit_dot (a +:+ String "." b) = Some (a, b).
Proof.
  intros Hb. induction a as [|c a IH].
  - change ("" +:+ String "." b) with (String "." b). cbn [rsplit_dot]. rewrite rsplit_dot_none by done. by rewrite decide_True.
  - rewrite append_cons. cbn [rsplit_dot]. by rewrite IH.
Qed.

Lemma append_inj a b c : a +:+ b = a +:+ c -> b = c.
Proof. induction a as [|x a IH]; [done|]. rewrite !append_cons. intros [= Hbc]. by apply IH. Qed.

(** Names with an extension agree when both parts do. *)
Lemma ext_inj a b x y : contains_char "." x = false -> contains_char "." y = false ->
  a +:+ String "." x = b +:+ String "." y -> a = b /\ x = y.
Proof. intros Hx Hy Hab. apply (f_equal rsplit_dot) in Hab. rewrite !rsplit_dot_app in Hab by done. by injection Hab. Qed.

Lemma extension_of a x : a <> "" -> contains_char "." x = false -> extension (a +:+ String "." x) = Some x.
Proof. intros Ha Hx. unfold extension. rewrite rsplit_dot_app by done. by destruct a. Qed.

Lemma encode_nonempty s : s <> "" -> encode_session_id s <> "".
Proof. intros Hs He. apply Hs, encode_inj. by rewrite He. Qed.

(** The name of a session's file gives the session back. *)
Lemma session_id_of_file sid : utf8_ok sid = true -> session_id_of (encode_session_id sid +:+ ".jsonl") = Some sid.
Proof.
  intros Hu. unfold session_id_of. rewrite encode_utf8. change (utf8_ok ".jsonl") with true. cbn [andb].
  rewrite (proj2 (strip_suffix_spec _ _ (encode_session_id sid)) eq_refl). cbn [mbind option_bind]. unfold decode_session_id.
  rewrite decode_encoded. cbn [mbind option_bind]. by rewrite Hu.
Qed.

End NameRules.
