(* ===== verification/SessionEvents.v ===== *)
(** * Events of the session manager (session-manager/src/events.rs)

    Every mutation of a session is announced by an event function; instances that share a main
    instance pass their events to it as envelopes.  Module [Events] is the events and their
    serialization, the emitter, the publisher of a bridged instance and its relay;
    [EventProperties] shows that an envelope loses nothing and that an event of a bridged
    instance reaches the observers of the main and of every bridged instance as if it were
    their own. *)

From Stdlib Require Import Ascii ZArith Lia.
From S2P Require Import Prelude Json Codec JsonText SessionTypes.
Import Types.

Module Events.

Definition ON_CREATED_FN : string := "session::on-created".
Definition ON_MESSAGE_ADDED_FN : string := "session::on-message-added".
Definition ON_MESSAGE_UPDATED_FN : string := "session::on-message-updated".
Definition ON_STATUS_CHANGED_FN : string := "session::on-status-changed".
Definition ON_META_UPDATED_FN : string := "session::on-meta-updated".
Definition ON_DELETED_FN : string := "session::on-deleted".
Definition STORE_ON_EVENTS_FN : string := "session::store::on-events".

Inductive EventKind : Type := Created | MessageAdded | MessageUpdated | StatusChanged | MetaUpdated | Deleted.

#[export] Instance EventKind_eq_dec : EqDecision EventKind.
Proof. solve_decision. Defined.

Definition function_id (k : EventKind) : string :=
  match k with
  | Created => ON_CREATED_FN
  | MessageAdded => ON_MESSAGE_ADDED_FN
  | MessageUpdated => ON_MESSAGE_UPDATED_FN
  | StatusChanged => ON_STATUS_CHANGED_FN
  | MetaUpdated => ON_META_UPDATED_FN
  | Deleted => ON_DELETED_FN
  end.

Definition all : list EventKind := [Created; MessageAdded; MessageUpdated; StatusChanged; MetaUpdated; Deleted].

Definition from_function_id (i : string) : option EventKind :=
  snd <$> list_find (λ k, function_id k = i) all.

(** ** Payloads *)

Inductive SessionEvent : Type :=
| EvCreated (session_id title description : string) (status : SessionStatus) (forked_from : option string) (created_at : Z)
| EvMessageAdded (session_id entry_id : string) (parent_id : option string) (message : option AgentMessage)
    (custom : option CustomPayload) (origin : option JsonMap) (timestamp : Z)
| EvMessageUpdated (session_id entry_id : string) (message : AgentMessage) (revision : Z) (origin : option JsonMap) (timestamp : Z)
| EvStatusChanged (session_id : string) (status previous_status : SessionStatus) (status_reason : option string) (timestamp : Z)
| EvMetaUpdated (session_id title description : string) (metadata : option JsonMap) (timestamp : Z)
| EvDeleted (session_id : string) (timestamp : Z).

Definition event_kind (e : SessionEvent) : EventKind :=
  match e with
  | EvCreated _ _ _ _ _ _ => Created
  | EvMessageAdded _ _ _ _ _ _ _ => MessageAdded
  | EvMessageUpdated _ _ _ _ _ _ => MessageUpdated
  | EvStatusChanged _ _ _ _ _ => StatusChanged
  | EvMetaUpdated _ _ _ _ _ => MetaUpdated
  | EvDeleted _ _ => Deleted
  end.

Definition event_session (e : SessionEvent) : string :=
  match e with
  | EvCreated s _ _ _ _ _ | EvMessageAdded s _ _ _ _ _ _ | EvMessageUpdated s _ _ _ _ _ | EvStatusChanged s _ _ _ _
  | EvMetaUpdated s _ _ _ _ | EvDeleted s _ => s
  end.

Definition event_fields (e : SessionEvent) : Fields :=
  match e with
  | EvCreated s t d st f c =>
      [("session_id", Str s); ("title", Str t); ("description", Str d); ("status", Str (status_name st))]
      ++ opt_field "forked_from" Str f ++ [("created_at", enc_i64 c)]
  | EvMessageAdded s i p m c o t =>
      [("session_id", Str s); ("entry_id", Str i); ("parent_id", enc_opt Str p)]
      ++ opt_field "message" to_value m ++ opt_field "custom" to_value c ++ opt_field "origin" enc_map_obj o
      ++ [("timestamp", enc_i64 t)]
  | EvMessageUpdated s i m r o t =>
      [("session_id", Str s); ("entry_id", Str i); ("message", to_value m); ("revision", enc_u r)]
      ++ opt_field "origin" enc_map_obj o ++ [("timestamp", enc_i64 t)]
  | EvStatusChanged s st p r t =>
      [("session_id", Str s); ("status", Str (status_name st)); ("previous_status", Str (status_name p))]
      ++ opt_field "status_reason" Str r ++ [("timestamp", enc_i64 t)]
  | EvMetaUpdated s ti d m t =>
      [("session_id", Str s); ("title", Str ti); ("description", Str d)] ++ opt_field "metadata" enc_map_obj m
      ++ [("timestamp", enc_i64 t)]
  | EvDeleted s t => [("session_id", Str s); ("timestamp", enc_i64 t)]
  end.

(** [SessionEvent::payload]. *)
Definition event_payload (e : SessionEvent) : Value := json_obj (event_fields e).

(** [serde_json::from_value] at the type of the function's event. *)
Definition read_event (k : EventKind) (v : Value) : option SessionEvent :=
  m ← as_object v; s ← req "session_id" as_str m;
  match k with
  | Created =>
      t ← req "title" as_str m; d ← req "description" as_str m; st ← req "status" dec_status m;
      f ← opt "forked_from" as_str m; c ← req "created_at" dec_i64 m; Some (EvCreated s t d st f c)
  | MessageAdded =>
      i ← req "entry_id" as_str m; p ← opt "parent_id" as_str m; msg ← opt "message" from_value m;
      c ← opt "custom" from_value m; o ← opt "origin" dec_map_obj m; t ← req "timestamp" dec_i64 m;
      Some (EvMessageAdded s i p msg c o t)
  | MessageUpdated =>
      i ← req "entry_id" as_str m; msg ← req "message" from_value m; r ← req "revision" (dec_u u64_max) m;
      o ← opt "origin" dec_map_obj m; t ← req "timestamp" dec_i64 m; Some (EvMessageUpdated s i msg r o t)
  | StatusChanged =>
      st ← req "status" dec_status m; p ← req "previous_status" dec_status m; r ← opt "status_reason" as_str m;
      t ← req "timestamp" dec_i64 m; Some (EvStatusChanged s st p r t)
  | MetaUpdated =>
      ti ← req "title" as_str m; d ← req "description" as_str m; me ← opt "metadata" dec_map_obj m;
      t ← req "timestamp" dec_i64 m; Some (EvMetaUpdated s ti d me t)
  | Deleted => t ← req "timestamp" dec_i64 m; Some (EvDeleted s t)
  end.

Record EmittableEvent : Type := mk_ev { event : SessionEvent; session_metadata : option JsonMap }.

Definition payload (e : EmittableEvent) : Value :=
  match session_metadata e, event_payload (event e) with
  | Some md, Obj fields => Obj (obj_insert "session_metadata" (Obj md) fields)
  | _, v => v
  end.

(** What an event function does with its argument, [WithSessionMetadata<E>]: reads it and returns it. *)
Definition event_function (k : EventKind) (v : Value) : option Value :=
  e ← read_event k v; m ← as_object v; md ← opt "session_metadata" dec_map_obj m;
  Some (json_obj (event_fields e ++ opt_field "session_metadata" enc_map_obj md)).

(** ** Envelopes *)

Record EventEnvelope : Type := mk_envelope { env_function : string; env_payload : Value; env_metadata : option JsonMap }.

#[export] Instance EventEnvelope_codec : Codec EventEnvelope := {|
  to_value e := json_obj ([("function_id", Str (env_function e)); ("payload", env_payload e)]
    ++ opt_field "session_metadata" enc_map_obj (env_metadata e));
  from_value v :=
    m ← as_object v; f ← req "function_id" as_str m; p ← req "payload" Some m; md ← opt "session_metadata" dec_map_obj m;
    Some (mk_envelope f p md);
|}.

Definition from_emittable (e : EmittableEvent) : EventEnvelope :=
  mk_envelope (function_id (event_kind (event e))) (event_payload (event e)) (session_metadata e).

Definition to_emittable (v : EventEnvelope) : result EmittableEvent string :=
  match from_function_id (env_function v) with
  | None => Err ("unknown event function " +:+ env_function v)
  | Some k =>
      match read_event k (env_payload v) with
      | Some e => Ok (mk_ev e (env_metadata v))
      | None => Err ("malformed " +:+ env_function v +:+ " envelope payload")
      end
  end.

(** ** Emission *)

(** A call of an event function. *)
Record EventCall : Type := mk_call { callee : string; argument : Value }.

Record Emitter : Type := mk_emitter { is_observed : string -> bool; feeds_bridges : bool }.

Definition wants (em : Emitter) (k : EventKind) : bool :=
  is_observed em (function_id k) || (feeds_bridges em && is_observed em STORE_ON_EVENTS_FN).

Definition emit (em : Emitter) (e : EmittableEvent) : list EventCall :=
  let f := function_id (event_kind (event e)) in
  if is_observed em f then [mk_call f (payload e)] else [].

Definition feed_bridges (em : Emitter) (e : EmittableEvent) : list EventCall :=
  if negb (feeds_bridges em) || negb (is_observed em STORE_ON_EVENTS_FN) then []
  else [mk_call STORE_ON_EVENTS_FN (to_value (from_emittable e))].

Definition emit_all (em : Emitter) (es : list EmittableEvent) : list EventCall :=
  es ≫= λ e, emit em e ++ feed_bridges em e.

(** The envelopes accepted and the calls made. *)
Fixpoint emit_envelopes (em : Emitter) (vs : list EventEnvelope) : nat * list EventCall :=
  match vs with
  | [] => (0, [])
  | v :: vs' =>
      let '(n, cs) := emit_envelopes em vs' in
      match to_emittable v with
      | Ok e => (S n, emit em e ++ feed_bridges em e ++ cs)
      | Err _ => (n, cs)
      end
  end.

(** [RemotePublisher::publish_all]: the argument of the call to the main, if there is one. *)
Definition publish_remote (es : list EmittableEvent) : option Value :=
  match es with
  | [] => None
  | _ => Some (json_obj [("events", enc_list to_value (from_emittable <$> es))])
  end.

(** [session::store::publish-events] on the main. *)
Definition publish_events (em : Emitter) (v : Value) : option (nat * list EventCall) :=
  m ← as_object v; vs ← req "events" (dec_list from_value) m; Some (emit_envelopes em vs).

(** The relay of a bridged instance, called with what the feed was called with. *)
Definition relay (local : Emitter) (v : Value) : option (list EventCall) :=
  e ← from_value v; Some (emit_envelopes local [e]).2.

(** What the feed's calls among [cs] make a bridged instance call. *)
Definition relayed (local : Emitter) (cs : list EventCall) : list EventCall :=
  cs ≫= λ c, if decide (callee c = STORE_ON_EVENTS_FN) then default [] (relay local (argument c)) else [].

End Events.

(** ** Properties *)

Module EventProperties.
Import Events TypeRules.

Definition event_ok (e : SessionEvent) : Prop :=
  match e with
  | EvCreated _ _ _ _ _ t | EvStatusChanged _ _ _ _ t | EvMetaUpdated _ _ _ _ t | EvDeleted _ t => in_range i64_min i64_max t
  | EvMessageAdded _ _ _ m _ _ t => from_option message_ok True m /\ in_range i64_min i64_max t
  | EvMessageUpdated _ _ m r _ t => message_ok m /\ in_range 0 u64_max r /\ in_range i64_min i64_max t
  end.

Ltac opt_tac := intros ? ?; simplify_eq/=; split; done.

Lemma custom_codec (p : CustomPayload) : codec_ok p.
Proof.
  unfold codec_ok. cbn [from_value to_value CustomPayload_codec]. codec_tac. get_req "custom_type" (custom_type p); [|done].
  get_dflt "data" (custom_data p); [by destruct p|done].
Qed.

(** The members of an event, among members of other names, read back as the event. *)
Lemma read_event_fields e l : event_ok e -> (forall k v, obj_get k (event_fields e) = Some v -> obj_get k l = Some v) ->
  (forall k, obj_get k (event_fields e) = None -> k <> "session_metadata" -> obj_get k l = None) ->
  read_event (event_kind e) (json_obj l) = Some e.
Proof.
  intros He Hin Hout.
  assert (forall k A (d : Value -> option A), k <> "session_metadata" ->
    req k d (obj_of_list l) = req k d (obj_of_list (event_fields e)) /\
    opt k d (obj_of_list l) = opt k d (obj_of_list (event_fields e))) as Hsame.
  { intros k A d Hk. unfold req, opt, dflt. rewrite !obj_get_of_list.
    destruct (obj_get k (event_fields e)) as [v|] eqn:Hv; [by rewrite (Hin k v Hv)|by rewrite (Hout k Hv Hk)]. }
  unfold read_event. cbn [as_object json_obj mbind option_bind].
  assert (forall k A (d : Value -> option A), k <> "session_metadata" -> req k d (obj_of_list l) = req k d (obj_of_list (event_fields e))) as Hr
    by (intros; by apply Hsame).
  assert (forall k A (d : Value -> option A), k <> "session_metadata" -> opt k d (obj_of_list l) = opt k d (obj_of_list (event_fields e))) as Ho
    by (intros; by apply Hsame).
  clear Hsame Hin Hout. rewrite Hr by done.
  destruct e as [s t d st f c|s i p m c o t|s i m r o t|s st p r t|s ti d m t|s t]; cbn [event_kind event_ok] in *;
    repeat first [rewrite Hr by done | rewrite Ho by done]; cbn [event_fields]; clear Hr Ho; get_req "session_id" s; try reflexivity.
  - get_req "title" t; [|done]. get_req "description" d; [|done]. get_req "status" st; [|apply status_codec].
    get_opt "forked_from" Str f; [|opt_tac]. get_req "created_at" c; [done|by apply dec_enc_i64].
  - destruct He as [Hm Ht]. get_req "entry_id" i; [|done]. rewrite (nullable_obj "parent_id" Str _ p) by (field_tac || opt_tac). cbn [mbind option_bind].
    get_opt "message" (to_value (A := AgentMessage)) m; [|intros x ->; split; [by destruct x|by apply message_codec]].
    get_opt "custom" (to_value (A := CustomPayload)) c; [|intros x _; split; [done|apply custom_codec]].
    get_opt "origin" enc_map_obj o; [|opt_tac]. get_req "timestamp" t; [done|by apply dec_enc_i64].
  - destruct He as (Hm & Hr & Ht). get_req "entry_id" i; [|done]. get_req "message" m; [|by apply message_codec].
    get_req "revision" r; [|by apply dec_enc_u]. get_opt "origin" enc_map_obj o; [|opt_tac]. get_req "timestamp" t; [done|by apply dec_enc_i64].
  - get_req "status" st; [|apply status_codec]. get_req "previous_status" p; [|apply status_codec].
    get_opt "status_reason" Str r; [|opt_tac]. get_req "timestamp" t; [done|by apply dec_enc_i64].
  - get_req "title" ti; [|done]. get_req "description" d; [|done]. get_opt "metadata" enc_map_obj m; [|opt_tac].
    get_req "timestamp" t; [done|by apply dec_enc_i64].
  - get_req "timestamp" t; [done|by apply dec_enc_i64].
Qed.

Lemma read_event_payload e : event_ok e -> read_event (event_kind e) (event_payload e) = Some e.
Proof. intros He. apply read_event_fields; auto. Qed.

Lemma from_function_id_kind k : from_function_id (function_id k) = Some k.
Proof. by destruct k. Qed.

(** An envelope loses nothing: reading back what was made from an event gives the event with its metadata. *)
Theorem envelope_roundtrip e : event_ok (event e) -> to_emittable (from_emittable e) = Ok e.
Proof.
  intros He. unfold to_emittable. cbn [env_function env_payload env_metadata from_emittable].
  rewrite from_function_id_kind, read_event_payload by done. by destruct e.
Qed.

(** No event has a member of the name the metadata is added under. *)
Lemma event_fields_no_metadata e : obj_get "session_metadata" (event_fields e) = None.
Proof. destruct e as [? ? ? ? []|? ? ? [] [] []|? ? ? ? []|? ? ? []|? ? ? []|]; done. Qed.

Lemma json_obj_insert k v l : Obj (obj_insert k v (obj_of_list l)) = json_obj ((k, v) :: l).
Proof. done. Qed.

(** Maps with the same lookups are the same object. *)
Lemma sorted_ext l1 l2 : obj_sorted l1 -> obj_sorted l2 -> (forall k, obj_get k l1 = obj_get k l2) -> l1 = l2.
Proof.
  revert l2. induction l1 as [|[k v] l1 IH]; intros [|[k' v'] l2] H1 H2 Hg.
  - done.
  - specialize (Hg k'). simpl in Hg. by rewrite decide_True in Hg.
  - specialize (Hg k). simpl in Hg. by rewrite decide_True in Hg.
  - unfold obj_sorted in *. cbn [obj_keys fmap list_fmap fst] in *. apply StronglySorted_inv in H1 as [S1 F1], H2 as [S2 F2].
    assert (k = k') as <-.
    { destruct (decide (k = k')) as [|Hne]; [done|]. exfalso.
      pose proof (Hg k) as Hk. pose proof (Hg k') as Hk'. simpl in Hk, Hk'. rewrite decide_True in Hk by done.
      rewrite (decide_False (P := k = k')) in Hk by done. rewrite (decide_True (P := k' = k')), decide_False in Hk' by congruence.
      assert (k ∈ obj_keys l2) as Hin by (apply obj_get_is_Some; by rewrite <-Hk).
      assert (k' ∈ obj_keys l1) as Hin' by (apply obj_get_is_Some; by rewrite Hk').
      rewrite Forall_forall in F1, F2. destruct (F2 k Hin) as [L1 _], (F1 k' Hin') as [L2 _].
      by apply Hne, (anti_symm String.le). }
    pose proof (Hg k) as Hk. simpl in Hk. rewrite !decide_True in Hk by done. injection Hk as <-. f_equal. apply IH; [done|done|].
    intros x. pose proof (Hg x) as Hx. simpl in Hx. case_decide as Hd; [|done]. subst x.
    assert (forall l, Forall (key_lt k) (obj_keys l) -> obj_get k l = None) as Hn.
    { intros l Hl. destruct (obj_get k l) eqn:He; [|done]. exfalso. assert (k ∈ obj_keys l) as Hin by (apply obj_get_is_Some; by eexists).
      rewrite Forall_forall in Hl. by destruct (Hl k Hin). }
    by rewrite !Hn.
Qed.

Lemma json_obj_ext l1 l2 : (forall k, obj_get k l1 = obj_get k l2) -> json_obj l1 = json_obj l2.
Proof. intros Hg. unfold json_obj. f_equal. apply sorted_ext; [apply obj_sorted_of_list..|]. intros k. by rewrite !obj_get_of_list. Qed.

(** The observers of an event function see what it was called with. *)
Theorem event_function_returns_its_call e : event_ok (event e) ->
  event_function (event_kind (event e)) (payload e) = Some (payload e).
Proof.
  intros He. destruct e as [e md]. cbn [event] in *.
  assert (payload (mk_ev e md) = json_obj (opt_field "session_metadata" Obj md ++ event_fields e)) as Hp.
  { unfold payload. cbn [session_metadata event event_payload]. destruct md as [md|]; done. }
  rewrite Hp. unfold event_function. rewrite read_event_fields; [|done| |].
  - cbn [mbind option_bind as_object json_obj]. rewrite (opt_obj "session_metadata" enc_map_obj dec_map_obj md); cbn [mbind option_bind].
    + f_equal. apply json_obj_ext. intros k. rewrite !obj_get_app, !obj_get_opt_field.
      destruct (decide (k = "session_metadata")) as [->|Hk]; [|by destruct (obj_get k (event_fields e))].
      rewrite event_fields_no_metadata. by destruct md.
    + rewrite obj_get_app, obj_get_opt_field, decide_True by done. rewrite event_fields_no_metadata. by destruct md.
    + by intros x ->.
  - intros k v Hk. rewrite obj_get_app, obj_get_opt_field. case_decide as Hd; [|done]. subst k. by rewrite event_fields_no_metadata in Hk.
  - intros k Hk Hne. by rewrite obj_get_app, obj_get_opt_field, decide_False.
Qed.

(** *** Emission *)

(** [wants] is exact: an event makes a call exactly when its kind is wanted. *)
Theorem wants_is_exact em e : wants em (event_kind (event e)) = true <-> emit_all em [e] <> [].
Proof.
  unfold wants, emit_all, emit, feed_bridges. cbn [mbind list_bind]. rewrite app_nil_r.
  destruct (is_observed em (function_id _)), (feeds_bridges em), (is_observed em STORE_ON_EVENTS_FN); done.
Qed.

Lemma event_envelope_codec v : codec_ok v.
Proof.
  destruct v as [f p md]. unfold codec_ok. cbn [from_value to_value EventEnvelope_codec env_function env_payload env_metadata]. codec_tac.
  get_req "function_id" f; [|done]. get_req "payload" p; [|done]. get_opt "session_metadata" enc_map_obj md; [done|opt_tac].
Qed.

Lemma emit_all_cons em e es : emit_all em (e :: es) = emit em e ++ feed_bridges em e ++ emit_all em es.
Proof. unfold emit_all. cbn [mbind list_bind]. by rewrite app_assoc. Qed.

Lemma emit_envelopes_all em es : Forall (λ e, event_ok (event e)) es ->
  emit_envelopes em (from_emittable <$> es) = (length es, emit_all em es).
Proof.
  induction 1 as [|e es He Hes IH]; [done|]. cbn [fmap list_fmap emit_envelopes]. rewrite IH, envelope_roundtrip by done.
  by rewrite emit_all_cons.
Qed.

(** What a bridged instance publishes, the main announces as its own. *)
Lemma published_as_own main es v : Forall (λ e, event_ok (event e)) es -> publish_remote es = Some v ->
  publish_events main v = Some (length es, emit_all main es).
Proof.
  intros Hes. destruct es as [|e0 es0]; [done|]. intros [= <-]. set (es := e0 :: es0) in *. unfold publish_events. codec_tac.
  get_req "events" (from_emittable <$> es).
  - by rewrite emit_envelopes_all.
  - apply dec_enc_list. apply Forall_forall. intros x _. apply event_envelope_codec.
Qed.

Lemma relayed_app local a b : relayed local (a ++ b) = relayed local a ++ relayed local b.
Proof. unfold relayed. apply bind_app. Qed.

Lemma relayed_own local em e : relayed local (emit em e) = [].
Proof.
  unfold emit. destruct (is_observed em _); [|done]. unfold relayed. cbn [mbind list_bind callee].
  rewrite decide_False; [done|]. by destruct (event_kind (event e)).
Qed.

(** An event of a bridged instance reaches everyone once: the main calls its own event functions and the feed
    exactly as for an event of its own, and through the feed every bridged instance, the one it comes from
    among them, calls its observed event functions once per event and in order. *)
Theorem bridged_events_reach_everyone main local es v :
  Forall (λ e, event_ok (event e)) es -> feeds_bridges main = true -> is_observed main STORE_ON_EVENTS_FN = true ->
  feeds_bridges local = false -> publish_remote es = Some v ->
  exists cs, publish_events main v = Some (length es, cs) /\ cs = emit_all main es /\ relayed local cs = emit_all local es.
Proof.
  intros Hes Hm Ho Hl Hp. exists (emit_all main es). split_and!; [by apply published_as_own|done|]. clear Hp.
  induction Hes as [|e es He Hes IH]; [done|]. rewrite !emit_all_cons, !relayed_app, relayed_own, IH. cbn [app].
  rewrite app_assoc. f_equal.
  unfold feed_bridges at 1. rewrite Hm, Ho. cbn [negb orb]. unfold relayed. cbn [mbind list_bind callee argument].
  rewrite decide_True by done. rewrite app_nil_r. unfold relay. rewrite (event_envelope_codec (from_emittable e)). cbn [mbind option_bind default from_option].
  pose proof (emit_envelopes_all local [e]) as H1. cbn [fmap list_fmap] in H1. rewrite H1 by by constructor.
  cbn [snd]. rewrite emit_all_cons. by rewrite app_nil_r.
Qed.

End EventProperties.
