(* ===== verification/SessionService.v ===== *)
(** * The session service (session-manager/src/service.rs)

    Every handler of a [session::*] function that changes something, as a program over the
    storage contract: sessions and their metadata, appends and edits, attachments, forks.  A
    handler holds its session's lock from start to end, so handlers of one session follow each
    other; the base64 codec and the digest are parameters.  The readers are in [SessionRead]. *)

From Stdlib Require Import Ascii ZArith Lia.
From S2P Require Import Prelude Json Codec JsonText SessionTypes SessionLog SessionLife SessionStore SessionEvents.
Import Types Contract Prog.

(** The base64 and sha2 crates. *)
Class Crates : Type := {
  b64_encode : string -> string;
  b64_decode : string -> result string string;
  sha256_hex : string -> string;
}.

Class CratesLaws `{Crates} : Prop := { b64_round : forall s, b64_decode (b64_encode s) = Ok s }.

(** The part of the configuration the service reads per call. *)
Record ServiceConfig : Type := mk_config { default_list_limit : nat; max_list_limit : nat; max_attachment_bytes : Z }.

Module Service.
Import Events.
Local Open Scope prog_scope.

Definition add_u64 (a b : Z) : Z := ((a + b) mod 2 ^ 64)%Z.

(** ** Requests and responses (functions/*.rs) *)

Record CreateRequest : Type := mk_create {
  cr_title : option string; cr_description : option string; cr_kind : option SessionKind; cr_metadata : option JsonMap }.
Record EnsureRequest : Type := mk_ensure {
  en_session : string; en_title : option string; en_description : option string; en_kind : option SessionKind;
  en_metadata : option JsonMap }.
Record EnsureResponse : Type := mk_ensured { ensured_meta : SessionMeta; ensured_created : bool }.
Record SetMetaRequest : Type := mk_set_meta {
  sm_session : string; sm_title : option string; sm_description : option string; sm_metadata : option JsonMap }.
Record SetDraftRequest : Type := mk_set_draft { sd_session : string; sd_draft : option string; sd_attachment_ids : option (list string) }.
Record SetDraftResponse : Type := mk_draft { dr_draft : option string; dr_attachments : list AttachmentMeta }.
Record SetStatusRequest : Type := mk_set_status { ss_session : string; ss_status : SessionStatus; ss_reason : option string }.
Record SetStatusResponse : Type := mk_status { st_status : SessionStatus; st_previous : SessionStatus }.
Record AppendRequest : Type := mk_append {
  ap_session : string; ap_message : option AgentMessage; ap_custom : option CustomPayload; ap_parent : option string;
  ap_entry : option string; ap_origin : option JsonMap }.
Record AppendResponse : Type := mk_appended { ar_entry : string; ar_parent : option string; ar_timestamp : Z }.
Record AppendManyRequest : Type := mk_append_many {
  am_session : string; am_messages : list AgentMessage; am_parent : option string; am_origin : option JsonMap }.
Record AppendManyResponse : Type := mk_appended_many { amr_entries : list string; amr_last : string }.
Record UpdateMessageRequest : Type := mk_update {
  um_session : string; um_entry : string; um_content : list ContentBlock; um_details : option Value; um_usage : option Usage;
  um_expected : option Z; um_origin : option JsonMap }.
Record UpdateMessageResponse : Type := mk_updated { up_updated : bool; up_revision : Z }.
Record PutAttachmentRequest : Type := mk_put { pa_session : string; pa_name : string; pa_mime : string; pa_data : string }.
Record ForkRequest : Type := mk_fork { fk_session : string; fk_entry : string; fk_title : option string }.

(** A response and the events to emit. *)
Abbreviation Reply A := (Prog (A * list EmittableEvent)).

Section Handlers.
Context `{Crates} (cfg : ServiceConfig).

Definition meta_or_not_found {A} (sid : string) (k : SessionMeta -> Prog A) : Prog A :=
  found ←{ GetMeta sid }
  match found with
  | Some m => k m
  | None => throw (NotFound ("session " +:+ sid +:+ " does not exist"))
  end.

(** [usize::clamp(1, max)] panics when [max] is 0. *)
Definition clamp_limit {A} (limit : option nat) (k : nat -> Prog A) : Prog A :=
  if max_list_limit cfg =? 0 then panic
  else k (Nat.max 1 (Nat.min (default (default_list_limit cfg) limit) (max_list_limit cfg))).

Definition created_event (m : SessionMeta) : EmittableEvent :=
  mk_ev (EvCreated (session_id m) (title m) (description m) (status m) (forked_from m) (created_at m)) (metadata m).

(** ** Lifecycle *)

Definition new_meta (sid : string) (t d : option string) (k : option SessionKind) (md : option JsonMap) (now : Z) : SessionMeta :=
  mk_meta sid (default "" t) (default "" d) StatusIdle None (default KindUser k) md None None None now now 0.

Definition create (req : CreateRequest) : Reply (string * SessionMeta) :=
  Now (λ now, NewId SessionId (λ sid,
    let m := new_meta sid (cr_title req) (cr_description req) (cr_kind req) (cr_metadata req) now in
    _ ←{ PutMeta m } ret (sid, m, [created_event m]))).

Definition ensure (req : EnsureRequest) : Reply EnsureResponse :=
  let sid := en_session req in
  if Prelude.is_empty sid then throw (InvalidRequest "session_id must not be empty")
  else
    found ←{ GetMeta sid }
    match found with
    | Some m => ret (mk_ensured m false, [])
    | None => Now (λ now,
        let m := new_meta sid (en_title req) (en_description req) (en_kind req) (en_metadata req) now in
        _ ←{ PutMeta m } ret (mk_ensured m true, [created_event m]))
    end.

Definition get (sid : string) : Prog (option SessionMeta) := found ←{ GetMeta sid } ret found.

Definition with_texts (t d : string) (md : option JsonMap) (now : Z) (m : SessionMeta) : SessionMeta :=
  mk_meta (session_id m) t d (status m) (status_reason m) (kind m) md (forked_from m) (draft m) (draft_attachments m)
    (created_at m) now (message_count m).

Definition set_meta (req : SetMetaRequest) : Reply SessionMeta :=
  meta_or_not_found (sm_session req) (λ m,
    match sm_title req, sm_description req, sm_metadata req with
    | None, None, None => ret (m, [])
    | t, d, md => Now (λ now,
        let m' := with_texts (default (title m) t) (default (description m) d)
                    (match md with Some x => Some x | None => metadata m end) now m in
        _ ←{ PutMeta m' }
        ret (m', [mk_ev (EvMetaUpdated (session_id m') (title m') (description m') (metadata m') now) (metadata m')]))
    end).

(** The loop of [resolve_draft_attachments]. *)
Fixpoint resolve_ids (stored : list AttachmentMeta) (ids : list string) (out : list AttachmentMeta)
  : result (list AttachmentMeta) SessionError :=
  match ids with
  | [] => Ok out
  | i :: ids' =>
      if existsb (λ a, bool_decide (attachment_id a = i)) out then resolve_ids stored ids' out
      else match list_find (λ a, attachment_id a = i) stored with
           | None => Err (InvalidRequest ("unknown attachment " +:+ i +:+ "; upload it with session::put-attachment first"))
           | Some (_, a) => resolve_ids stored ids' (out ++ [a])
           end
  end.

Definition resolve_draft_attachments (sid : string) (ids : list string) : Prog (option (list AttachmentMeta)) :=
  match ids with
  | [] => ret None
  | _ =>
      stored ←{ ListAttachments sid }
      match resolve_ids stored ids [] with Ok out => ret (Some out) | Err e => throw e end
  end.

Definition with_draft (d : option string) (a : option (list AttachmentMeta)) (m : SessionMeta) : SessionMeta :=
  mk_meta (session_id m) (title m) (description m) (status m) (status_reason m) (kind m) (metadata m) (forked_from m) d a
    (created_at m) (updated_at m) (message_count m).

Definition draft_response (m : SessionMeta) : SetDraftResponse := mk_draft (draft m) (default [] (draft_attachments m)).

Definition set_draft (req : SetDraftRequest) : Reply SetDraftResponse :=
  meta_or_not_found (sd_session req) (λ m,
    let d := match sd_draft req with
             | Some t => if Prelude.is_empty (trim t) then None else Some t
             | None => None
             end in
    parked ←% match sd_attachment_ids req with
              | None => ret (draft_attachments m)
              | Some ids => resolve_draft_attachments (sd_session req) ids
              end;
    if decide (draft m = d /\ draft_attachments m = parked) then ret (draft_response m, [])
    else
      let m' := with_draft d parked m in
      _ ←{ PutMeta m' } ret (draft_response m', [])).

Definition with_status (s : SessionStatus) (r : option string) (now : Z) (m : SessionMeta) : SessionMeta :=
  mk_meta (session_id m) (title m) (description m) s r (kind m) (metadata m) (forked_from m) (draft m) (draft_attachments m)
    (created_at m) now (message_count m).

Definition kept_reason (s : SessionStatus) (r : option string) : option string :=
  match s with StatusWorking | StatusDone | StatusError => r | StatusIdle => None end.

Definition set_status (req : SetStatusRequest) : Reply SetStatusResponse :=
  meta_or_not_found (ss_session req) (λ m,
    let r := kept_reason (ss_status req) (ss_reason req) in
    if decide (status m = ss_status req /\ status_reason m = r) then ret (mk_status (status m) (status m), [])
    else Now (λ now,
      let m' := with_status (ss_status req) r now m in
      _ ←{ PutMeta m' }
      ret (mk_status (status m') (status m),
           [mk_ev (EvStatusChanged (session_id m') (status m') (status m) (status_reason m') now) (metadata m')]))).

Definition delete_session (sid : string) : Reply bool :=
  found ←{ GetMeta sid }
  match found with
  | None => ret (false, [])
  | Some m =>
      _ ←{ DeleteEntries sid } _ ←{ DeleteActiveLeaf sid } _ ←{ DeleteAttachments sid } _ ←{ DeleteMeta sid }
      Now (λ now, ret (true, [mk_ev (EvDeleted sid now) (metadata m)]))
  end.

(** ** Messages *)

Definition parent_missing (sid p : string) : SessionError :=
  ParentNotFound ("parent entry " +:+ p +:+ " does not exist in session " +:+ sid).

(** Where new entries go: the given parent, which must exist, or the active leaf. *)
Definition resolve_parent {A} (sid : string) (p : option string) (k : option string -> Prog A) : Prog A :=
  match p with
  | Some p =>
      found ←{ GetEntry sid p }
      match found with None => throw (parent_missing sid p) | Some _ => k (Some p) end
  | None => l ←{ GetActiveLeaf sid } k l
  end.

Definition fresh_id {A} (i : option string) (k : string -> Prog A) : Prog A :=
  match i with Some i => k i | None => NewId EntryId k end.

(** The body of a request: a message or a custom payload. *)
Definition new_entry (body : AgentMessage + CustomPayload) (i : string) (p : option string) (now : Z) (o : option JsonMap) : SessionEntry :=
  match body with
  | inl m => EMessage i p now 0 o m
  | inr c => ECustom i p now 0 o (custom_type c) (custom_data c)
  end.

Definition added_event (sid : string) (e : SessionEntry) (md : option JsonMap) : EmittableEvent :=
  mk_ev (EvMessageAdded sid (id e) (parent_id e)
           (match e with EMessage _ _ _ _ _ m => Some m | _ => None end)
           (match e with ECustom _ _ _ _ _ t d => Some (mk_custom t d) | _ => None end)
           (origin e) (timestamp e)) md.

(** The end of [append]: the commit, its response and event. *)
Definition commit_entry (req : AppendRequest) (wants_event : bool) (e : SessionEntry) : Reply AppendResponse :=
  c ←{ CommitAppend (ap_session req) e (bool_decide (is_Some (ap_parent req))) }
  let e' := Log.c_entry c in
  let resp := mk_appended (id e') (parent_id e') (timestamp e') in
  if negb (Log.c_committed c) || negb wants_event then ret (resp, [])
  else ret (resp, [added_event (ap_session req) e' (metadata (Log.c_meta c))]).

(** The entry the request names, when it is stored. *)
Definition named_entry (req : AppendRequest) : Prog (option SessionEntry) :=
  match ap_entry req with Some i => (found ←{ GetEntry (ap_session req) i } ret found) | None => ret None end.

Definition append_body (req : AppendRequest) (wants_event : bool) (body : AgentMessage + CustomPayload) : Reply AppendResponse :=
  existing ←% named_entry req;
  match existing with
  | Some e => commit_entry req wants_event e
  | None =>
      resolve_parent (ap_session req) (ap_parent req) (λ p,
        fresh_id (ap_entry req) (λ i, Now (λ now,
          commit_entry req wants_event (new_entry body i p now (ap_origin req)))))
  end.

Definition append (req : AppendRequest) (wants_event : bool) : Reply AppendResponse :=
  meta_or_not_found (ap_session req) (λ _,
    match ap_message req, ap_custom req with
    | Some m, None => append_body req wants_event (inl m)
    | None, Some c => append_body req wants_event (inr c)
    | _, _ => throw (InvalidRequest "exactly one of `message` / `custom` must be supplied")
    end).

(** The loop of [append_many]: entry ids, last entry, events. *)
Fixpoint put_all (sid : string) (o : option JsonMap) (now : Z) (md : option JsonMap) (wants_event : bool)
  (msgs : list AgentMessage) (p : option string) (ids : list string) (evs : list EmittableEvent)
  : Prog (list string * list EmittableEvent) :=
  match msgs with
  | [] => ret (ids, evs)
  | m :: msgs' =>
      NewId EntryId (λ i,
        let e := EMessage i p now 0 o m in
        _ ←{ PutEntry sid e }
        put_all sid o now md wants_event msgs' (Some i) (ids ++ [i])
          (if wants_event then evs ++ [added_event sid e md] else evs))
  end.

Definition with_count (n : Z) (now : Z) (m : SessionMeta) : SessionMeta :=
  mk_meta (session_id m) (title m) (description m) (status m) (status_reason m) (kind m) (metadata m) (forked_from m) (draft m)
    (draft_attachments m) (created_at m) now n.

Definition append_many (req : AppendManyRequest) (wants_event : bool) : Reply AppendManyResponse :=
  let sid := am_session req in
  meta_or_not_found sid (λ m,
    match am_messages req with
    | [] => throw (EmptyBatch "messages must contain at least one message")
    | msgs =>
        resolve_parent sid (am_parent req) (λ p, Now (λ now,
          r ←% put_all sid (am_origin req) now (metadata m) wants_event msgs p [] [];
          let '(ids, evs) := r in
          match last ids with
          | None => panic
          | Some l =>
              _ ←{ SetActiveLeaf sid l }
              _ ←{ PutMeta (with_count (add_u64 (message_count m) (Z.of_nat (length ids))) now m) }
              ret (mk_appended_many ids l, evs)
          end))
    end).

Definition role_text (r : Role) : string :=
  match r with RoleUser => "User" | RoleAssistant => "Assistant" | RoleFunctionResult => "FunctionResult" | RoleCustom => "Custom" end.

(** The message an update asks for. *)
Definition edited (req : UpdateMessageRequest) (m : AgentMessage) : result AgentMessage SessionError :=
  let m1 := set_content (um_content req) m in
  match match um_usage req with
        | None => Ok m1
        | Some u => match set_usage u m1 with
                    | Some m2 => Ok m2
                    | None => Err (InvalidEntryKind ("entry " +:+ um_entry req +:+ " has role " +:+ role_text (role m1) +:+
                                     "; `usage` applies only to assistant messages"))
                    end
        end with
  | Err e => Err e
  | Ok m2 =>
      match um_details req, m2 with
      | None, _ => Ok m2
      | Some d, MFunctionResult ci fi c _ e t => Ok (MFunctionResult ci fi c d e t)
      | Some d, MCustom ty c ds _ t => Ok (MCustom ty c ds (Some d) t)
      | Some _, _ => Err (DetailsNotSupported ("entry " +:+ um_entry req +:+ " has role " +:+ role_text (role m2) +:+
                       "; `details` applies to function_result and custom messages"))
      end
  end.

Definition touched (now : Z) (m : SessionMeta) : SessionMeta := with_count (message_count m) now m.

Definition update_message (req : UpdateMessageRequest) (wants_event : bool) : Reply UpdateMessageResponse :=
  let sid := um_session req in
  meta_or_not_found sid (λ m,
    found ←{ GetEntry sid (um_entry req) }
    match found with
    | None => throw (EntryNotFound ("entry " +:+ um_entry req +:+ " does not exist in session " +:+ sid))
    | Some (ECustom _ _ _ _ _ _ _) =>
        throw (InvalidEntryKind ("entry " +:+ um_entry req +:+ " is a custom entry; session::update-message only applies to messages"))
    | Some (EMessage i p t r o msg) =>
        if match um_expected req with Some x => negb (x =? r)%Z | None => false end then ret (mk_updated false r, [])
        else match edited req msg with
             | Err e => throw e
             | Ok msg' =>
                 let r' := add_u64 r 1 in
                 _ ←{ PutEntry sid (EMessage i p t r' o msg') }
                 Now (λ now,
                   let m' := touched now m in
                   _ ←{ PutMeta m' }
                   ret (mk_updated true r',
                        if wants_event then [mk_ev (EvMessageUpdated sid (um_entry req) msg' r' (um_origin req) now) (metadata m')]
                        else []))
             end
    end).

Definition set_active_leaf (sid eid : string) : Reply string :=
  meta_or_not_found sid (λ _,
    found ←{ GetEntry sid eid }
    match found with
    | None => throw (EntryNotFound ("entry " +:+ eid +:+ " does not exist in session " +:+ sid))
    | Some _ => _ ←{ SetActiveLeaf sid eid } ret (eid, [])
    end).

(** ** Attachments *)

Definition put_attachment (req : PutAttachmentRequest) : Prog (AttachmentMeta * ContentBlock) :=
  let name := trim (pa_name req) in
  if Prelude.is_empty name then throw (InvalidRequest "attachment name must not be empty")
  else match b64_decode (pa_data req) with
       | Err e => throw (InvalidRequest ("attachment data is not valid base64: " +:+ e))
       | Ok bytes =>
           let size := Z.of_nat (String.length bytes) in
           if (max_attachment_bytes cfg <? size)%Z then
             throw (AttachmentTooLarge ("attachment " +:+ name +:+ " is " +:+ show_nat (String.length bytes) +:+
                      " bytes; the limit is " +:+ show_nat (Z.to_nat (max_attachment_bytes cfg)) +:+ " bytes"))
           else
             meta_or_not_found (pa_session req) (λ _,
               let mime := trim (pa_mime req) in
               NewId AttachmentId (λ i, Now (λ now,
                 let a := mk_attachment i (pa_session req) name
                            (if Prelude.is_empty mime then "application/octet-stream" else mime) size (sha256_hex bytes) now in
                 _ ←{ PutAttachment a bytes } ret (a, to_block a))))
       end.

Definition get_attachment (sid aid : string) (include_data : option bool) : Prog (option (AttachmentMeta * option string)) :=
  if negb (default true include_data) then
    l ←{ ListAttachments sid }
    ret ((λ p, (p.2, None)) <$> list_find (λ a, attachment_id a = aid) l)
  else
    found ←{ GetAttachment sid aid }
    ret ((λ p : AttachmentMeta * string, (p.1, Some (b64_encode p.2))) <$> found).

(** The entry holds a message that refers to the attachment. *)
Definition holds (aid : string) (e : SessionEntry) : bool :=
  match e with EMessage _ _ _ _ _ m => bool_decide (aid ∈ attachment_ids (content m)) | _ => false end.

Definition delete_attachment (sid aid : string) : Prog bool :=
  meta_or_not_found sid (λ m,
    es ←{ ListEntries sid }
    match list_find (λ e, Is_true (holds aid e)) es with
    | Some (_, e) => throw (AttachmentInUse ("attachment " +:+ aid +:+ " is referenced by entry " +:+ id e))
    | None =>
        deleted ←{ DeleteAttachment sid aid }
        match draft_attachments m with
        | None => ret deleted
        | Some parked =>
            let kept := filter (λ a, attachment_id a <> aid) parked in
            if length kept =? length parked then ret deleted
            else
              _ ←{ PutMeta (with_draft (draft m) (match kept with [] => None | _ => Some kept end) m) }
              ret deleted
        end
    end).

(** Creation time first, then id. *)
Definition attachment_le (a b : AttachmentMeta) : Prop :=
  (att_created_at a < att_created_at b)%Z \/ (att_created_at a = att_created_at b /\ String.le (attachment_id a) (attachment_id b)).
#[export] Instance attachment_le_dec : RelDecision attachment_le.
Proof. intros a b. unfold attachment_le. apply _. Defined.

Definition list_attachments (sid : string) : Prog (list AttachmentMeta) :=
  meta_or_not_found sid (λ _, l ←{ ListAttachments sid } ret (merge_sort attachment_le l)).

(** ** Branching *)

Definition by_id (es : list SessionEntry) : gmap string SessionEntry := foldl (λ m e, <[id e := e]> m) ∅ es.

(** The loop of [active_path]: newest first. *)
Fixpoint walk_up (fuel : nat) (m : gmap string SessionEntry) (cursor : option string) (visited : gset string)
  (path : list SessionEntry) : result (list SessionEntry) SessionError :=
  match fuel, cursor with
  | _, None => Ok path
  | O, Some _ => Err (Storage "")
  | S n, Some i =>
      match m !! i with
      | None => Err (Storage ("path references missing entry " +:+ i))
      | Some e =>
          if decide (id e ∈ visited) then Err (Storage ("parent chain contains a cycle at entry " +:+ i))
          else walk_up n m (parent_id e) ({[ id e ]} ∪ visited) (path ++ [e])
      end
  end.

(** Every round visits another entry of the map. *)
Definition active_path (m : gmap string SessionEntry) (leaf : string) : result (list SessionEntry) SessionError :=
  match walk_up (S (size m)) m (Some leaf) ∅ [] with
  | Ok path => Ok (rev path)
  | Err e => Err e
  end.

Definition lift {A B} (r : result A SessionError) (k : A -> Prog B) : Prog B :=
  match r with Ok a => k a | Err e => throw e end.

Definition remap (ids : gmap string string) (v : Value) : Value :=
  match v with Str s => match ids !! s with Some n => Str n | None => v end | _ => v end.

(** [data.get_mut(k)] when there is such a member. *)
Definition update_member (k : string) (f : Value -> Value) (v : Value) : Value :=
  match v with
  | Obj m => match obj_get k m with Some x => Obj (obj_insert k (f x) m) | None => v end
  | _ => v
  end.

Definition remap_custom_data (ty : string) (data : Value) (ids : gmap string string) : Value :=
  if decide (ty = "compaction") then update_member "tail_start_entry_id" (remap ids) data
  else if decide (ty = "message_order") then
    update_member "moved" (λ v, match v with Arr l => Arr (map (remap ids) l) | _ => v end)
      (update_member "after" (remap ids) data)
  else data.

Definition referenced_attachment_ids (path : list SessionEntry) : list string :=
  foldl (λ out e, match e with
                  | EMessage _ _ _ _ _ m => foldl (λ o i, push_new i o) out (attachment_ids (content m))
                  | _ => out
                  end) [] path.

(** The fresh id of every entry of the path. *)
Fixpoint fresh_ids {A} (path : list SessionEntry) (ids : gmap string string) (k : gmap string string -> Prog A) : Prog A :=
  match path with
  | [] => k ids
  | e :: path' => NewId EntryId (λ i, fresh_ids path' (<[id e := i]> ids) k)
  end.

(** The copy of one entry; [None] is the [expect] on its parent. *)
Definition copy_entry (ids : gmap string string) (e : SessionEntry) : option SessionEntry :=
  i ← ids !! id e;
  p ← match parent_id e with None => Some None | Some q => Some <$> ids !! q end;
  Some match e with
       | EMessage _ _ t _ o m => EMessage i p t 0 o m
       | ECustom _ _ t _ o ty d => ECustom i p t 0 o ty (remap_custom_data ty d ids)
       end.

Fixpoint put_entries {A} (sid : string) (es : list SessionEntry) (k : Prog A) : Prog A :=
  match es with
  | [] => k
  | e :: es' => _ ←{ PutEntry sid e } put_entries sid es' k
  end.

Definition copied_attachment (sid : string) (a : AttachmentMeta) : AttachmentMeta :=
  mk_attachment (attachment_id a) sid (att_name a) (att_mime a) (att_size a) (sha256 a) (att_created_at a).

Fixpoint copy_attachments {A} (from to : string) (aids : list string) (k : Prog A) : Prog A :=
  match aids with
  | [] => k
  | i :: aids' =>
      found ←{ GetAttachment from i }
      match found with
      | None => copy_attachments from to aids' k
      | Some (a, bytes) => _ ←{ PutAttachment (copied_attachment to a) bytes } copy_attachments from to aids' k
      end
  end.

Definition forked_meta (sid : string) (req : ForkRequest) (source : SessionMeta) (now : Z) (n : nat) : SessionMeta :=
  mk_meta sid (default (title source) (fk_title req)) (description source) StatusIdle None (kind source) (metadata source)
    (Some (fk_session req)) None None now now (Z.of_nat n mod 2 ^ 64)%Z.

Definition fork (req : ForkRequest) : Reply (string * SessionMeta) :=
  let sid := fk_session req in
  meta_or_not_found sid (λ source,
    es ←{ ListEntries sid }
    let m := by_id es in
    match m !! fk_entry req with
    | None => throw (EntryNotFound ("entry " +:+ fk_entry req +:+ " does not exist in session " +:+ sid))
    | Some _ =>
        lift (active_path m (fk_entry req)) (λ path,
          NewId SessionId (λ new_sid, Now (λ now,
            fresh_ids path ∅ (λ ids,
              match mapM (copy_entry ids) path with
              | None => panic
              | Some copies =>
                  put_entries new_sid copies (
                    copy_attachments sid new_sid (referenced_attachment_ids path) (
                      match ids !! fk_entry req with
                      | None => panic
                      | Some new_leaf =>
                          _ ←{ SetActiveLeaf new_sid new_leaf }
                          let m' := forked_meta new_sid req source now (length (filter (λ e, Is_true (is_message e)) path)) in
                          _ ←{ PutMeta m' } ret (new_sid, m', [created_event m'])
                      end))
              end))))
    end).

End Handlers.
End Service.
