(* ===== verification/SessionRead.v ===== *)
(** * The readers of the session service (session-manager/src/service.rs, pagination.rs)

    [Pagination] is the segmentation of a transcript into blocks and what a collapsed run keeps;
    [Readers] the handlers that only read: the list of sessions, the transcript oldest first,
    its newest pages, ranges of it and single entries.  Their cursors are JSON in base64. *)

From Stdlib Require Import Ascii ZArith Lia.
From S2P Require Import Prelude Json Codec JsonText SessionTypes SessionLog SessionLife SessionStore SessionEvents SessionService.
Import Types Contract Prog.

Module Pagination.

(** ** Blocks *)

Inductive BlockKind : Type := Single | ActivityRun.
#[export] Instance BlockKind_eq_dec : EqDecision BlockKind.
Proof. solve_decision. Defined.

Record Block : Type := mk_block { start : nat; stop : nat; block_kind : BlockKind }.

Definition contains (b : Block) (i : nat) : bool := (start b <=? i) && (i <? stop b).

Definition WAKE_ID_PREFIXES : list string :=
  ["e_fire_"; "e_notify_"; "e_expire_"; "e_stalespawn_"; "e_claimfail_"; "e_condfail_"; "e_trigfired_"; "e_trigexpired_";
   "e_trigstale_"].
Definition WAKE_CUSTOM_TYPES : list string := ["observer_fired"; "trigger_fired"].

Definition is_wake_custom_type (ty : string) : bool := bool_decide (ty ∈ WAKE_CUSTOM_TYPES).

Definition origin_flag (o : option JsonMap) (key : string) : bool :=
  default false (m ← o; v ← obj_get key m; as_bool v).

Definition is_wake_entry (i : string) (o : option JsonMap) : bool :=
  origin_flag o "notification" || existsb (origin_flag o) WAKE_CUSTOM_TYPES || existsb (λ p, starts_with p i) WAKE_ID_PREFIXES.

Definition is_call (b : ContentBlock) : bool := match b with BFunctionCall _ _ _ => true | _ => false end.
Definition has_function_call (c : list ContentBlock) : bool := existsb is_call c.

Definition is_run_member (e : SessionEntry) : bool :=
  match e with
  | EMessage i _ _ _ o m =>
      match m with
      | MAssistant c _ => has_function_call c
      | MFunctionResult _ _ _ _ _ _ => true
      | MUser _ _ => is_wake_entry i o
      | MCustom ty _ _ _ _ => is_wake_custom_type ty || is_wake_entry i o
      end
  | ECustom i _ _ _ o ty _ => is_wake_custom_type ty || is_wake_entry i o
  end.

(** The loop of [activity_blocks]: the index, the start of the open run, the rest of the path. *)
Fixpoint blocks_from (i : nat) (run : option nat) (path : list SessionEntry) : list Block :=
  match path with
  | [] => match run with Some s => [mk_block s i ActivityRun] | None => [] end
  | e :: path' =>
      if is_run_member e then blocks_from (S i) (Some (default i run)) path'
      else match run with Some s => [mk_block s i ActivityRun] | None => [] end
           ++ mk_block i (S i) Single :: blocks_from (S i) None path'
  end.

Definition activity_blocks (path : list SessionEntry) : list Block := blocks_from 0 None path.

(** [Iterator::position]. *)
Definition position {A} (f : A -> bool) (l : list A) : option nat := fst <$> list_find (λ x, Is_true (f x)) l.

Definition block_index_of (blocks : list Block) (i : nat) : option nat := position (λ b, contains b i) blocks.

(** ** Collapsed runs *)

Definition calls_functions (e : SessionEntry) : bool :=
  match e with EMessage _ _ _ _ _ (MAssistant c _) => has_function_call c | _ => false end.

(** [Iterator::rposition]. *)
Fixpoint rposition {A} (f : A -> bool) (l : list A) : option nat :=
  match l with
  | [] => None
  | x :: l' => match rposition f l' with Some i => Some (S i) | None => if f x then Some 0 else None end
  end.

Definition call_ids (c : list ContentBlock) : list string :=
  omap (λ b, match b with BFunctionCall i _ _ => Some i | _ => None end) c.

Definition kept_in_collapsed_run (run : list SessionEntry) : list bool :=
  let last_call := rposition calls_functions run in
  let last_ids := match i ← last_call; run !! i with
                  | Some (EMessage _ _ _ _ _ m) => call_ids (content m)
                  | _ => []
                  end in
  imap (λ i e, if decide (Some i = last_call) then true
               else match e with
                    | EMessage _ _ _ _ _ (MFunctionResult ci _ _ _ _ _) => bool_decide (ci ∈ last_ids)
                    | EMessage _ _ _ _ _ (MAssistant _ _) => false
                    | _ => true
                    end) run.

Definition AGENT_CALL_WRAPPERS : list string := ["agent_call"; "agent_trigger"].
Definition MAX_KEPT_LABEL_CHARS : nat := 120.
Definition MAX_KEPT_TARGET_CHARS : nat := 256.

Definition agent_call_label (arguments : Value) : Value :=
  let target := t ← vget "function" arguments; s ← as_str t; if char_count s <=? MAX_KEPT_TARGET_CHARS then Some s else None in
  let desc := d ← vget "description" arguments; as_str d in
  let kept := match target with Some s => obj_insert "function" (Str s) [] | None => [] end in
  Obj (match desc with Some s => obj_insert "description" (Str (take_chars MAX_KEPT_LABEL_CHARS s)) kept | None => kept end).

Definition elide_call (b : ContentBlock) : ContentBlock :=
  match b with
  | BFunctionCall i f a =>
      BFunctionCall i f (if bool_decide (f ∈ AGENT_CALL_WRAPPERS) then agent_call_label a else Obj [])
  | _ => b
  end.

Definition is_thinking (b : ContentBlock) : bool := match b with BThinking _ _ => true | _ => false end.

Definition elide_message (m : AgentMessage) : AgentMessage :=
  match m with
  | MAssistant c i => MAssistant (elide_call <$> filter (λ b, is_thinking b = false) c) i
  | MFunctionResult ci fi _ _ e t => MFunctionResult ci fi [] Null e t
  | _ => m
  end.

End Pagination.

(** ** Handlers *)

Module Readers.
Import Service Pagination.
Local Open Scope prog_scope.

Inductive ListOrder : Type := CreatedAsc | CreatedDesc | UpdatedDesc.
#[export] Instance ListOrder_eq_dec : EqDecision ListOrder.
Proof. solve_decision. Defined.

Record ListRequest : Type := mk_list {
  li_limit : option nat; li_cursor : option string; li_status : option SessionStatus; li_kinds : option (list SessionKind);
  li_metadata : option JsonMap; li_order : option ListOrder }.
Record ListResponse : Type := mk_listed { listed : list SessionMeta; list_next : option string }.

Inductive ContentProjection : Type := ProjectFull | ProjectUsage.
#[export] Instance ContentProjection_eq_dec : EqDecision ContentProjection.
Proof. solve_decision. Defined.

Record MessagesRequest : Type := mk_messages {
  ms_session : string; ms_limit : option nat; ms_cursor : option string; ms_after : option string;
  ms_roles : option (list Role); ms_from : option string; ms_include_custom : option bool;
  ms_custom_types : option (list string); ms_include_images : option bool; ms_content : option ContentProjection }.

(** One item of a page; [elided] only of a tail page. *)
Record Item : Type := mk_item {
  item_id : string; item_message : option AgentMessage; item_custom : option CustomPayload; item_origin : option JsonMap;
  elided : option bool }.
Record MessagesResponse : Type := mk_page { messages_of : list Item; next_cursor : option string }.

Record TailRequest : Type := mk_tail {
  tl_session : string; tl_limit : option nat; tl_before : option string; tl_until : option string;
  tl_include_custom : option bool; tl_include_images : option bool }.
Record TailResponse : Type := mk_tail_page { tail_items : list Item; has_more : bool; oldest : option string }.

Record RangeRequest : Type := mk_range {
  rg_session : string; rg_from : option string; rg_to : option string; rg_ids : option (list string);
  rg_limit : option nat; rg_cursor : option string; rg_include_images : option bool }.

(** ** Cursors and orders *)

Definition order_tag (o : ListOrder) : string :=
  match o with CreatedAsc => "created_asc" | CreatedDesc => "created_desc" | UpdatedDesc => "updated_desc" end.

Definition sort_key (m : SessionMeta) (o : ListOrder) : Z * string :=
  match o with
  | CreatedAsc | CreatedDesc => (created_at m, session_id m)
  | UpdatedDesc => (updated_at m, session_id m)
  end.

Definition natural (a b : Z * string) : comparison :=
  match (a.1 ?= b.1)%Z with Eq => String.compare a.2 b.2 | c => c end.

Definition cmp_in_order (a b : Z * string) (o : ListOrder) : comparison :=
  match o with
  | CreatedAsc => natural a b
  | CreatedDesc | UpdatedDesc => CompOpp (natural a b)
  end.

(** [cmp != Greater]. *)
Definition not_after (o : ListOrder) (a b : Z * string) : bool :=
  match cmp_in_order a b o with Gt => false | _ => true end.

Definition listed_before (o : ListOrder) (a b : SessionMeta) : Prop := Is_true (not_after o (sort_key a o) (sort_key b o)).
#[export] Instance listed_before_dec o : RelDecision (listed_before o).
Proof. intros a b. unfold listed_before. apply _. Defined.

Record SessionsCursor : Type := mk_sessions_cursor { cur_order : string; cur_key : Z; cur_id : string }.
Record MessagesCursor : Type := mk_messages_cursor { cursor_id : string }.

#[export] Instance SessionsCursor_codec : Codec SessionsCursor := {|
  to_value c := json_obj [("o", Str (cur_order c)); ("k", enc_i64 (cur_key c)); ("id", Str (cur_id c))];
  from_value v :=
    m ← as_object v; o ← req "o" as_str m; k ← req "k" dec_i64 m; i ← req "id" as_str m; Some (mk_sessions_cursor o k i);
|}.
#[export] Instance MessagesCursor_codec : Codec MessagesCursor := {|
  to_value c := json_obj [("id", Str (cursor_id c))];
  from_value v := m ← as_object v; i ← req "id" as_str m; Some (mk_messages_cursor i);
|}.

Section Handlers.
Context `{Crates} `{SerdeFile} (cfg : ServiceConfig).

Definition encode_cursor {A} `{Codec A} (c : A) : string := b64_encode (file_text (to_value c)).

Definition decode_cursor {A} `{Codec A} (raw : string) : result A SessionError :=
  match b64_decode raw with
  | Err e => Err (InvalidCursor ("cursor is not valid base64: " +:+ e))
  | Ok bytes =>
      match match read_text bytes with Parsed v => from_value v | _ => None end with
      | Some c => Ok c
      | None => Err (InvalidCursor "cursor payload is malformed: ")
      end
  end.

(** ** Sessions *)

Definition list_matches (req : ListRequest) (m : SessionMeta) : bool :=
  match li_status req with Some s => bool_decide (status m = s) | None => true end
  && match li_kinds req with Some ks => bool_decide (kind m ∈ ks) | None => true end
  && match li_metadata req with Some want => metadata_matches want (metadata m) | None => true end.

(** [partition_point] on a sorted list. *)
Fixpoint partition_point {A} (f : A -> bool) (l : list A) : nat :=
  match l with
  | [] => 0
  | x :: l' => if f x then S (partition_point f l') else 0
  end.

(** Where the page starts. *)
Definition list_start (req : ListRequest) (o : ListOrder) (metas : list SessionMeta) : result nat SessionError :=
  match li_cursor req with
  | None => Ok 0
  | Some raw =>
      match decode_cursor (A := SessionsCursor) raw with
      | Err e => Err e
      | Ok c =>
          if negb (bool_decide (cur_order c = order_tag o)) then
            Err (InvalidCursor ("cursor was issued for order " +:+ cur_order c +:+ " but the request asks for " +:+ order_tag o))
          else Ok (partition_point (λ m, not_after o (sort_key m o) (cur_key c, cur_id c)) metas)
      end
  end.

(** Items [start] up to [start + limit], and whether any are left. *)
Definition page {A} (start limit : nat) (l : list A) : list A * bool :=
  let stop := Nat.min (start + limit) (length l) in (take (stop - start) (drop start l), stop <? length l).

Definition list_cursor (o : ListOrder) (m : SessionMeta) : string :=
  encode_cursor (mk_sessions_cursor (order_tag o) (sort_key m o).1 (sort_key m o).2).

Definition list_sessions (req : ListRequest) : Prog ListResponse :=
  let o := default UpdatedDesc (li_order req) in
  clamp_limit cfg (li_limit req) (λ limit,
    all ←{ ListMetas }
    let metas := merge_sort (listed_before o) (filter (λ m, list_matches req m = true) all) in
    lift (list_start req o metas) (λ start,
      let '(p, more) := page start limit metas in
      ret (mk_listed p (if more then list_cursor o <$> last p else None)))).

(** ** The transcript, oldest first *)

Definition wanted_entry (req : MessagesRequest) (e : SessionEntry) : bool :=
  match e with
  | EMessage _ _ _ _ _ m => match ms_roles req with Some roles => bool_decide (role m ∈ roles) | None => true end
  | ECustom _ _ _ _ _ ty _ =>
      default false (ms_include_custom req) && bool_decide (ms_roles req = None)
      && match ms_custom_types req with Some types => bool_decide (ty ∈ types) | None => true end
  end.

Definition has_id (i : string) (e : SessionEntry) : bool := bool_decide (id e = i).

Definition after_entry (i : string) (err : string) (es : list SessionEntry) : result nat SessionError :=
  match position (has_id i) es with Some n => Ok (S n) | None => Err (InvalidCursor err) end.

Definition messages_start (req : MessagesRequest) (es : list SessionEntry) : result nat SessionError :=
  match ms_cursor req with
  | None =>
      match ms_after req with
      | None => Ok 0
      | Some a => after_entry a ("after_entry_id " +:+ a +:+ " is not on the requested path") es
      end
  | Some raw =>
      match decode_cursor (A := MessagesCursor) raw with
      | Err e => Err e
      | Ok c => after_entry (cursor_id c) ("cursor entry " +:+ cursor_id c +:+ " is not on the requested path") es
      end
  end.

Definition custom_item (i ty : string) (d : Value) : Item := mk_item i None (Some (mk_custom ty d)) None None.

Definition elide_images (elide : bool) (m : AgentMessage) : AgentMessage :=
  if elide then set_content (elide_image_data (content m)).1 m else m.

Definition message_item (req : MessagesRequest) (e : SessionEntry) : Item :=
  let usage_only := bool_decide (ms_content req = Some ProjectUsage) in
  match e with
  | EMessage i _ _ _ o m =>
      mk_item i (Some (if usage_only then project_usage m
                       else elide_images (negb (default true (ms_include_images req))) m))
        None (if usage_only then None else o) None
  | ECustom i _ _ _ _ ty d => custom_item i ty d
  end.

Definition messages_cursor (e : SessionEntry) : string := encode_cursor (mk_messages_cursor (id e)).

Definition entry_not_found (sid eid : string) : SessionError :=
  EntryNotFound ("entry " +:+ eid +:+ " does not exist in session " +:+ sid).

Definition messages (req : MessagesRequest) : Prog MessagesResponse :=
  let sid := ms_session req in
  meta_or_not_found sid (λ _,
    es ←{ ListEntries sid }
    let m := by_id es in
    leaf ←% match ms_from req with
            | Some from => match m !! from with None => throw (entry_not_found sid from) | Some _ => ret (Some from) end
            | None => (l ←{ GetActiveLeaf sid } ret l)
            end;
    match leaf with
    | None => ret (mk_page [] None)
    | Some leaf =>
        lift (active_path m leaf) (λ path,
          let filtered := filter (λ e, wanted_entry req e = true) path in
          lift (messages_start req filtered) (λ start,
            clamp_limit cfg (ms_limit req) (λ limit,
              let '(p, more) := page start limit filtered in
              ret (mk_page (message_item req <$> p) (if more then messages_cursor <$> last p else None)))))
    end).

Definition get_message (sid eid : string) (include_images : option bool) : Prog (option SessionEntry) :=
  found ←{ GetEntry sid eid }
  ret match found with
      | Some (EMessage i p t r o m) => Some (EMessage i p t r o (elide_images (negb (default true include_images)) m))
      | e => e
      end.

(** ** The newest pages *)

Definition tail_item (elide images : bool) (e : SessionEntry) : Item :=
  match e with
  | EMessage i _ _ _ o m =>
      mk_item i (Some (elide_images images (if elide then elide_message m else m))) None o (if elide then Some true else None)
  | ECustom i _ _ _ _ ty d => custom_item i ty d
  end.

(** [block_of]: the index of the block of an anchor; the inner [None] is the [expect]. *)
Definition block_of (path : list SessionEntry) (blocks : list Block) (i what : string) : result (option nat) SessionError :=
  match position (has_id i) path with
  | None => Err (InvalidCursor (what +:+ " " +:+ i +:+ " is not on the active path"))
  | Some n => Ok (block_index_of blocks n)
  end.

Definition block_items (images : bool) (path : list SessionEntry) (b : Block) : list Item :=
  let run := take (stop b - start b) (drop (start b) path) in
  let kept := match block_kind b with ActivityRun => kept_in_collapsed_run run | Single => replicate (length run) true end in
  zip_with (λ e keep, tail_item (negb keep) images e) run kept.

Definition expect {A B} (o : option A) (k : A -> Prog B) : Prog B := match o with Some a => k a | None => panic end.

(** The page between an upper anchor and the limit, widened to the lower anchor. *)
Definition tail_page (images : bool) (path : list SessionEntry) (first past : nat) : TailResponse :=
  let blocks := activity_blocks path in
  let items := take (past - first) (drop first blocks) ≫= block_items images path in
  mk_tail_page items (0 <? first) (item_id <$> head items).

Definition messages_tail (req : TailRequest) : Prog TailResponse :=
  let sid := tl_session req in
  meta_or_not_found sid (λ _,
    es ←{ ListEntries sid }
    let m := by_id es in
    leaf ←{ GetActiveLeaf sid }
    match leaf with
    | None => ret (mk_tail_page [] false None)
    | Some leaf =>
        lift (active_path m leaf) (λ whole,
          let path := filter (λ e, default true (tl_include_custom req) || is_message e = true) whole in
          let blocks := activity_blocks path in
          past ←% match tl_before req with
                  | Some i => lift (block_of path blocks i "before_entry_id") (λ o, expect o ret)
                  | None => ret (length blocks)
                  end;
          clamp_limit cfg (tl_limit req) (λ limit,
            first ←% match tl_until req with
                     | Some i => lift (block_of path blocks i "until_entry_id") (λ o, expect o (λ n, ret (Nat.min (past - limit) n)))
                     | None => ret (past - limit)
                     end;
            (* [blocks[start..end]] *)
            if past <? first then panic
            else ret (tail_page (negb (default true (tl_include_images req))) path first past)))
    end).

(** ** Ranges *)

(** [Vec::dedup]. *)
Fixpoint dedup (l : list nat) : list nat :=
  match l with
  | x :: (y :: _) as l' => if x =? y then dedup l' else x :: dedup l'
  | _ => l
  end.

Definition range_position (sid : string) (m : gmap string SessionEntry) (path : list SessionEntry) (i : string)
  : result nat SessionError :=
  match m !! i with
  | None => Err (entry_not_found sid i)
  | Some _ =>
      match position (has_id i) path with
      | Some n => Ok n
      | None => Err (InvalidCursor ("entry " +:+ i +:+ " is not on the active path"))
      end
  end.

Fixpoint all_ok {A B E} (f : A -> result B E) (l : list A) : result (list B) E :=
  match l with
  | [] => Ok []
  | x :: l' =>
      match f x with
      | Err e => Err e
      | Ok y => match all_ok f l' with Ok ys => Ok (y :: ys) | Err e => Err e end
      end
  end.

(** The selected positions of the path. *)
Definition selection (req : RangeRequest) (m : gmap string SessionEntry) (path : list SessionEntry)
  : result (list nat) SessionError :=
  let pos := range_position (rg_session req) m path in
  match rg_from req, rg_to req, rg_ids req with
  | Some from, Some to, None =>
      match pos from with
      | Err e => Err e
      | Ok first =>
          match pos to with
          | Err e => Err e
          | Ok l =>
              if l <? first then
                Err (InvalidRequest ("from_entry_id " +:+ from +:+ " comes after to_entry_id " +:+ to +:+ " on the active path"))
              else Ok (seq first (S l - first))
          end
      end
  | None, None, Some ids =>
      match all_ok pos ids with Ok ps => Ok (dedup (merge_sort le ps)) | Err e => Err e end
  | _, _, _ => Err (InvalidRequest "exactly one selector is required: from_entry_id + to_entry_id, or entry_ids")
  end.

Definition range_start (req : RangeRequest) (es : list SessionEntry) : result nat SessionError :=
  match rg_cursor req with
  | None => Ok 0
  | Some raw =>
      match decode_cursor (A := MessagesCursor) raw with
      | Err e => Err e
      | Ok c => after_entry (cursor_id c) ("cursor entry " +:+ cursor_id c +:+ " is not in the selection") es
      end
  end.

Definition messages_range (req : RangeRequest) : Prog MessagesResponse :=
  let sid := rg_session req in
  meta_or_not_found sid (λ _,
    es ←{ ListEntries sid }
    let m := by_id es in
    leaf ←{ GetActiveLeaf sid }
    lift (match leaf with Some l => active_path m l | None => Ok [] end) (λ path,
      lift (selection req m path) (λ positions,
        expect (mapM (λ i, path !! i) positions) (λ selected,
          lift (range_start req selected) (λ start,
            clamp_limit cfg (rg_limit req) (λ limit,
              let '(p, more) := page start limit selected in
              ret (mk_page (tail_item false (negb (default true (rg_include_images req))) <$> p)
                     (if more then messages_cursor <$> last p else None)))))))).

End Handlers.
End Readers.
