(* ===== verification/SessionRun.v ===== *)
(** * Handlers, locks and interleavings (session-manager/src/service.rs)

    A handler holds the lock of its session and runs as a program over the storage contract
    while other handlers run.  Module [Run] is one handler on its own: the sessions it holds,
    its view of them, its steps, and the condition [wp] that proves what every run of it does.
    Module [System] is the worker: any number of handlers, each holding sessions nobody else
    holds, interleaved storage call by storage call.  [SystemRules]: a handler in that crowd
    does what it does alone, and what every handler leaves of a session holds of every session
    nobody holds. *)

From Stdlib Require Import Ascii ZArith Lia.
From stdpp Require Import relations.
From S2P Require Import Prelude Json Codec JsonText SessionTypes SessionLog SessionLife SessionStore.
Import Types Contract Prog.

Module Run.
Import Log.

(** ** Operations and sessions *)

Definition target {A} (op : Op A) : option string :=
  match op with
  | GetMeta s | DeleteMeta s | GetEntry s _ | PutEntry s _ | CommitAppend s _ _ | ListEntries s | DeleteEntries s
  | GetActiveLeaf s | SetActiveLeaf s _ | DeleteActiveLeaf s | GetAttachment s _ | ListAttachments s | DeleteAttachment s _
  | DeleteAttachments s => Some s
  | PutMeta m => Some (session_id m)
  | PutAttachment a _ => Some (att_session a)
  | ListMetas => None
  end.

Definition read_only {A} (op : Op A) : bool :=
  match op with
  | GetMeta _ | ListMetas | GetEntry _ _ | ListEntries _ | GetActiveLeaf _ | GetAttachment _ _ | ListAttachments _ => true
  | _ => false
  end.

Definition held (own : gset string) {A} (op : Op A) : Prop := exists s, target op = Some s /\ s ∈ own.
#[export] Instance held_dec own {A} (op : Op A) : Decision (held own op).
Proof.
  unfold held. destruct (target op) as [s|]; [|right; by intros (s & ? & _)].
  destruct (decide (s ∈ own)) as [|Hn]; [left; by exists s|right; by intros (s' & [= <-] & ?)].
Defined.

(** Which operations may fail. *)
Abbreviation MayFail := (forall A, Op A -> bool).
Definition any_fault : MayFail := λ _ _, true.
Definition no_fault : MayFail := λ _ _, false.
Definition deletes_answered : MayFail := λ _ op,
  match op with DeleteEntries _ | DeleteActiveLeaf _ => false | _ => true end.

Definition allowed (mf : MayFail) {A} (op : Op A) (m : Model) (r : result A string) (m' : Model) : Prop :=
  (same_answer op r (spec op m).1 /\ m' = (spec op m).2) \/ (mf A op = true /\ outcome op m r m').

(** A random id is one nobody has seen: no session, entry or attachment has it. *)
Definition fresh (k : IdKind) (i : string) (m : Model) : Prop :=
  match k with
  | SessionId => sess i m = empty_session /\ blobs i m = ∅
  | EntryId => forall s, entries (sess s m) !! i = None
  | AttachmentId => forall s, blobs s m !! i = None
  end.

Definition gains (k : IdKind) (i : string) (own : gset string) : gset string :=
  match k with SessionId => {[ i ]} ∪ own | _ => own end.

(** ** One handler *)

(** The sessions it holds, the random ids it drew, what it knows of the sessions it holds, and
    what is left to run. *)
Record Local (A : Type) : Type := mk_local { own : gset string; used : gset string; view : Model; rest : Prog A }.
Arguments mk_local {A}.
Arguments own {A}.
Arguments used {A}.
Arguments view {A}.
Arguments rest {A}.

Section Handler.
Context (mf : MayFail) {A : Type}.

(** A step: what it reads of sessions it does not hold can be anything. *)
Inductive lstep : Local A -> Local A -> Prop :=
| l_held B (op : Op B) k o u l r l' : held o op -> allowed mf op l r l' ->
    lstep (mk_local o u l (Do op k)) (mk_local o u l' (k r))
| l_foreign B (op : Op B) k o u l r : ~ held o op -> read_only op = true ->
    lstep (mk_local o u l (Do op k)) (mk_local o u l (k r))
| l_now k o u l t : lstep (mk_local o u l (Now k)) (mk_local o u l (k t))
| l_new kd k o u l i : i ∉ u -> i ∉ o -> fresh kd i l ->
    lstep (mk_local o u l (NewId kd k)) (mk_local (gains kd i o) ({[ i ]} ∪ u) l (k i)).

(** It ran to its end. *)
Definition finishes (p : Prog A) (o : gset string) (l : Model) (r : result A Stop) (l' : Model) : Prop :=
  exists o' u', rtc lstep (mk_local o ∅ l p) (mk_local o' u' l' (Done r)).

(** Every run of the program writes only what it holds and ends in [Q]. *)
Fixpoint wp {A} (p : Prog A) (o u : gset string) (l : Model) (Q : result A Stop -> gset string -> Model -> Prop) : Prop :=
  match p with
  | Done r => Q r o l
  | Do op k =>
      (held o op \/ read_only op = true) /\
      (held o op -> forall r l', allowed mf op l r l' -> wp (k r) o u l' Q) /\
      (~ held o op -> forall r, wp (k r) o u l Q)
  | Now k => forall t, wp (k t) o u l Q
  | NewId kd k => forall i, i ∉ u -> i ∉ o -> fresh kd i l -> wp (k i) (gains kd i o) ({[ i ]} ∪ u) l Q
  end.

Definition wp_of (c : Local A) Q : Prop := wp (rest c) (own c) (used c) (view c) Q.

Lemma wp_lstep c c' Q : lstep c c' -> wp_of c Q -> wp_of c' Q.
Proof. intros []; unfold wp_of; cbn; naive_solver. Qed.

Lemma wp_rtc c c' Q : rtc lstep c c' -> wp_of c Q -> wp_of c' Q.
Proof. induction 1; eauto using wp_lstep. Qed.

Lemma own_grows c c' : rtc lstep c c' -> own c ⊆ own c'.
Proof. induction 1 as [|c1 c2 c3 Hs _ IH]; [done|]. etrans; [|exact IH]. destruct Hs as [| | |kd]; cbn; [done..|]. destruct kd; set_solver. Qed.

Lemma wp_finishes p o l r l' Q : wp p o ∅ l Q -> finishes p o l r l' -> exists o', o ⊆ o' /\ Q r o' l'.
Proof. intros Hp (o' & u' & Hr). exists o'. split; [exact (own_grows _ _ Hr)|exact (wp_rtc _ _ Q Hr Hp)]. Qed.

(** ** Rules *)

Lemma run_mono {B} (p : Prog B) o u l (Q Q' : result B Stop -> gset string -> Model -> Prop) :
  (forall r o' l', Q r o' l' -> Q' r o' l') -> wp p o u l Q -> wp p o u l Q'.
Proof.
  intros HQ. revert o u l. induction p as [r|C op k IH|k IH|kd k IH]; intros o u l; cbn [wp]; [auto| |auto|auto].
  intros (H1 & H2 & H3). split_and!; [done|intros Hh r l' Ha; apply IH; eauto|intros Hh r; apply IH; auto].
Qed.

Lemma bind_run {B C} (p : Prog B) (f : B -> Prog C) o u l Q :
  wp p o u l (λ r o' l', match r with
                         | Ok b => forall u', u ⊆ u' -> wp (f b) o' u' l' Q
                         | Err e => Q (Err e) o' l'
                         end) ->
  wp (bind p f) o u l Q.
Proof.
  revert o u l. induction p as [[b|e]|D op k IH|k IH|kd k IH]; intros o u l; cbn [wp bind]; [auto..| |auto|].
  - intros (H1 & H2 & H3). split_and!; [done|intros Hh r l' Ha; apply IH; eauto|intros Hh r; apply IH; auto].
  - intros Hw i Hu Ho Hf. apply IH. eapply run_mono; [|exact (Hw i Hu Ho Hf)].
    intros [b|e] o' l' HQ; [|done]. intros u' Hu'. apply HQ. set_solver.
Qed.

(** Every operation but the removal of a folder and the replacement of an attachment is done as a
    whole or not at all. *)
Definition whole {B} (op : Op B) (l : Model) : bool :=
  match op with
  | DeleteAttachments _ => false
  | PutAttachment a _ => bool_decide (blobs (att_session a) l !! attachment_id a = None)
  | _ => true
  end.

Lemma whole_partly {B} (op : Op B) l l' : whole op l = true -> ~ partly op l l'.
Proof. intros Hw Hp. destruct op; try done. cbn in Hw. apply bool_decide_eq_true in Hw. destruct Hp as (old & b & Hp & _). congruence. Qed.

(** What is left behind by a call is what was there, what the call leaves, or a part of it. *)
Lemma allowed_state {B} (op : Op B) l r l' : allowed mf op l r l' -> l' = (spec op l).2 \/ l' = l \/ partly op l l'.
Proof. intros [[_ ->]|[_ []]]; auto. Qed.

(** A call in a held session: either it is answered as the contract says, or the handler ends
    with a storage error in one of the two states. *)
Lemma wp_call_any {B} (op : Op B) (k : B -> Prog A) o u l Q s :
  target op = Some s -> s ∈ o ->
  (forall b, same_answer op (Ok b) (spec op l).1 -> wp (k b) o u (spec op l).2 Q) ->
  (forall e, same_answer op (Err e) (spec op l).1 -> Q (Err (Failed (Storage e))) o (spec op l).2) ->
  (forall e, mf B op = true -> Q (Err (Failed (Storage e))) o (spec op l).2 /\ Q (Err (Failed (Storage e))) o l) ->
  (forall e l', mf B op = true -> partly op l l' -> Q (Err (Failed (Storage e))) o l') ->
  wp (call op k) o u l Q.
Proof.
  intros Ht Hs Hok Herr Hf Hp. assert (held o op) as Hh by (by exists s). unfold call. cbn [wp]. split_and!; [by left| |done].
  intros _ r l' [[Hr ->]|[Hm Ho]]; [|destruct Ho as [r Hr|e|e|e l' Hl']].
  - destruct r; cbn [wp throw]; auto.
  - destruct r; cbn [wp throw]; auto.
  - apply Hf, Hm.
  - apply Hf, Hm.
  - by apply Hp.
Qed.

Lemma wp_call {B} (op : Op B) (k : B -> Prog A) o u l Q s :
  whole op l = true -> target op = Some s -> s ∈ o ->
  (forall b, same_answer op (Ok b) (spec op l).1 -> wp (k b) o u (spec op l).2 Q) ->
  (forall e, same_answer op (Err e) (spec op l).1 -> Q (Err (Failed (Storage e))) o (spec op l).2) ->
  (forall e, mf B op = true -> Q (Err (Failed (Storage e))) o (spec op l).2 /\ Q (Err (Failed (Storage e))) o l) ->
  wp (call op k) o u l Q.
Proof. intros Hw Ht Hs Hok Herr Hf. apply (wp_call_any op k o u l Q s); auto. intros e l' _ Hl'. by apply whole_partly in Hl'. Qed.

(** A read is always answered with what there is, unless it fails. *)
Lemma read_answers {B} (op : Op B) l e : read_only op = true -> ~ same_answer op (Err e) (spec op l).1.
Proof. by destruct op. Qed.

Lemma wp_read_sure {B} (op : Op B) (k : B -> Prog A) o u l Q s :
  target op = Some s -> s ∈ o -> read_only op = true ->
  (forall b, same_answer op (Ok b) (spec op l).1 -> wp (k b) o u l Q) ->
  (mf B op = true -> forall e, Q (Err (Failed (Storage e))) o l) ->
  wp (call op k) o u l Q.
Proof.
  intros Ht Hs Hr Hok Herr. assert ((spec op l).2 = l /\ whole op l = true) as [Hl Hw] by (by destruct op).
  apply (wp_call op k o u l Q s); rewrite ?Hl; auto. intros e He. by apply read_answers in He.
Qed.

(** A read of a held session. *)
Lemma wp_read {B} (op : Op B) (k : B -> Prog A) o u l Q s :
  target op = Some s -> s ∈ o -> read_only op = true ->
  (forall b, same_answer op (Ok b) (spec op l).1 -> wp (k b) o u l Q) ->
  (forall e, Q (Err (Failed (Storage e))) o l) ->
  wp (call op k) o u l Q.
Proof. intros Ht Hs Hr Hok Herr. by apply (wp_read_sure op k o u l Q s). Qed.

Lemma wp_foreign {B} (op : Op B) (k : B -> Prog A) o u l Q :
  ~ held o op -> read_only op = true ->
  (forall b, wp (k b) o u l Q) -> (forall e, Q (Err (Failed (Storage e))) o l) -> wp (call op k) o u l Q.
Proof. intros Hh Hr Hok Herr. unfold call. cbn [wp]. split_and!; [by right|done|intros _ [b|e]; [auto|apply Herr]]. Qed.

End Handler.
End Run.

(** ** Views *)

Module Views.
Import Log Run.

(** [l] is what a handler that holds [o] knows of [m]: those sessions, and nothing of others. *)
Definition view_of (o : gset string) (m l : Model) : Prop :=
  forall s, if decide (s ∈ o) then sess s l = sess s m /\ blobs s l = blobs s m else sess s l = empty_session /\ blobs s l = ∅.

(** The two models differ at most in the sessions of [o]. *)
Definition only_in (o : gset string) (m m' : Model) : Prop :=
  forall s, s ∉ o -> sess s m' = sess s m /\ blobs s m' = blobs s m.

Lemma sess_set s s' x m : sess s (set_sess s' x m) = if decide (s = s') then x else sess s m.
Proof. unfold sess, set_sess. cbn. case_decide as Hd; [subst; by rewrite lookup_insert_eq|by rewrite lookup_insert_ne]. Qed.
Lemma blobs_set s s' x m : blobs s (set_blobs s' x m) = if decide (s = s') then x else blobs s m.
Proof. unfold blobs, set_blobs. cbn. case_decide as Hd; [subst; by rewrite lookup_insert_eq|by rewrite lookup_insert_ne]. Qed.
Lemma sess_set_blobs s s' x m : sess s (set_blobs s' x m) = sess s m.
Proof. done. Qed.
Lemma blobs_set_sess s s' x m : blobs s (set_sess s' x m) = blobs s m.
Proof. done. Qed.
Lemma sess_change s s' f m : sess s (change s' f m) = if decide (s = s') then f (sess s m) else sess s m.
Proof. unfold change. rewrite sess_set. by case_decide; subst. Qed.
Lemma blobs_change s s' f m : blobs s (change s' f m) = blobs s m.
Proof. done. Qed.

(** An operation reads and writes its session only. *)
Lemma spec_local {A} (op : Op A) s m l : target op = Some s -> sess s l = sess s m -> blobs s l = blobs s m ->
  (spec op l).1 = (spec op m).1 /\ sess s (spec op l).2 = sess s (spec op m).2 /\ blobs s (spec op l).2 = blobs s (spec op m).2.
Proof.
  intros Ht Hs Hb. unfold attachment_list. destruct op; cbn [target] in Ht; simplify_eq/=; unfold attachment_list; rewrite ?Hs, ?Hb; try done;
    try (split_and!; [done| |]; rewrite ?sess_change, ?blobs_change, ?sess_set_blobs, ?blobs_set; rewrite ?decide_True by done; by rewrite ?Hs, ?Hb).
  destruct (decide_append s e parent_explicit (sess s m)) as [[?|[? ?]]|?]; cbn [fst snd]; split_and!; try done.
  by rewrite !sess_change, !decide_True, Hs by done.
Qed.

Lemma spec_frame {A} (op : Op A) s m : s ∉ (if target op is Some t then {[ t ]} else ∅ : gset string) ->
  sess s (spec op m).2 = sess s m /\ blobs s (spec op m).2 = blobs s m.
Proof.
  intros Hn. destruct op; cbn [target spec snd] in *; try done;
    try (split; rewrite ?sess_change, ?blobs_change, ?sess_set_blobs, ?blobs_set; try done; by rewrite decide_False by set_solver).
  destruct (decide_append sid e parent_explicit (sess sid m)) as [[?|[? ?]]|?]; cbn [fst snd]; try done.
  split; [|done]. by rewrite sess_change, decide_False by set_solver.
Qed.

Lemma spec_read_only {A} (op : Op A) m : read_only op = true -> (spec op m).2 = m.
Proof. by destruct op. Qed.

Lemma partly_sess {A} (op : Op A) s m m' : partly op m m' -> sess s m' = sess s m.
Proof. destruct op; try done; [by intros (old & b & _ & ->)|by intros (b & _ & ->)]. Qed.

Lemma partly_blobs {A} (op : Op A) s m m' : partly op m m' -> target op <> Some s -> blobs s m' = blobs s m.
Proof.
  destruct op; try done; cbn [partly target]; [intros (old & b & _ & ->)|intros (b & _ & ->)]; intros Ht;
    rewrite blobs_set; rewrite decide_False by congruence; done.
Qed.

Section Frame.
Context (mf : MayFail).

(** A call of a held session is one on the view. *)
Lemma allowed_view {A} (op : Op A) o m l r m' : held o op -> view_of o m l -> allowed mf op m r m' ->
  exists l', allowed mf op l r l' /\ view_of o m' l' /\ only_in o m m'.
Proof.
  intros (s & Ht & Hs) Hv Ha. pose proof (Hv s) as Hvs. rewrite decide_True in Hvs by done. destruct Hvs as [Hvs Hvb].
  destruct (spec_local op s m l Ht Hvs Hvb) as (H1 & H2 & H3).
  assert (view_of o (spec op m).2 (spec op l).2) as Hv'.
  { intros t. destruct (decide (t = s)) as [->|Hne].
    - by rewrite decide_True by done.
    - destruct (spec_frame op t m) as [-> ->]; [rewrite Ht; set_solver|].
      destruct (spec_frame op t l) as [-> ->]; [rewrite Ht; set_solver|]. exact (Hv t). }
  assert (only_in o m (spec op m).2) as Ho by (intros t Ht'; apply spec_frame; rewrite Ht; set_solver).
  assert (only_in o m m) as Ho' by done.
  destruct Ha as [[Hr ->]|[Hf [r0 Hr|e|e|e m1 Hp]]].
  - exists (spec op l).2. split_and!; [left; by rewrite H1|done|done].
  - exists (spec op l).2. split_and!; [left; by rewrite H1|done|done].
  - exists l. split_and!; [right; split; [done|apply FailedBefore]|done|done].
  - exists (spec op l).2. split_and!; [right; split; [done|apply FailedAfter]|done|done].
  - assert (exists b, m1 = set_blobs s b m /\ partly op l (set_blobs s b l)) as (b & -> & Hpl).
    { destruct op; try done; cbn [target] in Ht; injection Ht as <-; destruct Hp as (b & Hp); [destruct Hp as (b1 & Hb & ->)|destruct Hp as (Hb & ->)];
        eexists; (split; [reflexivity|]); cbn [partly]; rewrite Hvb; eauto. }
    exists (set_blobs s b l). split_and!; [right; split; [done|by apply FailedPartly]| |].
    + intros t. specialize (Hv t). rewrite !sess_set_blobs, !blobs_set. destruct (decide (t = s)) as [->|]; [|done].
      by rewrite decide_True in Hv |- *.
    + intros t Ht'. rewrite sess_set_blobs, blobs_set. rewrite decide_False by set_solver. done.
Qed.

Lemma allowed_read {A} (op : Op A) m r m' : read_only op = true -> allowed mf op m r m' -> m' = m.
Proof. intros Hr [[_ ->]|[_ [| | |e m1 Hp]]]; rewrite ?spec_read_only by done; try done. by destruct op. Qed.

End Frame.

Lemma only_in_view o o' m m' l : only_in o m m' -> o ## o' -> view_of o' m l -> view_of o' m' l.
Proof.
  intros Ho Hd Hv s. specialize (Hv s). case_decide; [|done]. destruct (Ho s) as [-> ->]; [set_solver|done].
Qed.

Lemma fresh_view k i o m l : view_of o m l -> fresh k i m -> fresh k i l.
Proof.
  intros Hv Hf. assert (forall s, (sess s l = sess s m /\ blobs s l = blobs s m) \/ (sess s l = empty_session /\ blobs s l = ∅)) as Hs.
  { intros s. specialize (Hv s). case_decide; auto. }
  destruct k; cbn in *.
  - destruct (Hs i) as [[-> ->]|[-> ->]]; done.
  - intros s. destruct (Hs s) as [[-> _]|[-> _]]; [apply Hf|done].
  - intros s. destruct (Hs s) as [[_ ->]|[_ ->]]; [apply Hf|done].
Qed.

Lemma gains_view k i o m l : view_of o m l -> i ∉ o -> fresh k i m -> view_of (gains k i o) m l.
Proof.
  intros Hv Hi Hf. destruct k; cbn [gains]; [|exact Hv|exact Hv]. intros s. specialize (Hv s).
  destruct (decide (s = i)) as [->|Hne].
  - rewrite decide_True by set_solver. rewrite decide_False in Hv by done. destruct Hf as [-> ->]. done.
  - destruct (decide (s ∈ o)); [rewrite decide_True by set_solver|rewrite decide_False by set_solver]; done.
Qed.

End Views.

(** ** The worker *)

Module System.
Import Log Run Views.

Section Worker.
Context (mf : MayFail) {A : Type}.
(** The handlers and the sessions they lock. *)
Context (handler : gset string -> Prog A -> Prop).

(** A running handler: how it began, what it holds, what it drew, what is left. *)
Record Thread : Type := mk_thread { began : Local A; th_own : gset string; th_used : gset string; th_rest : Prog A }.
Record State : Type := mk_state { store : Model; threads : gmap nat Thread }.

Definition resume (n : nat) (t : Thread) (o u : gset string) (p : Prog A) (m : Model) (s : State) : State :=
  mk_state m (<[n := mk_thread (began t) o u p]> (threads s)).

(** Nobody holds a session of [o]. *)
Definition free (o : gset string) (s : State) : Prop := map_Forall (λ _ t, th_own t ## o) (threads s).

Inductive step : State -> State -> Prop :=
| s_begin s n o p l : handler o p -> threads s !! n = None -> free o s -> view_of o (store s) l ->
    step s (mk_state (store s) (<[n := mk_thread (mk_local o ∅ l p) o ∅ p]> (threads s)))
| s_call s n t B (op : Op B) k r m' : threads s !! n = Some t -> th_rest t = Do op k -> allowed mf op (store s) r m' ->
    step s (resume n t (th_own t) (th_used t) (k r) m' s)
| s_now s n t k z : threads s !! n = Some t -> th_rest t = Now k ->
    step s (resume n t (th_own t) (th_used t) (k z) (store s) s)
| s_new s n t kd k i : threads s !! n = Some t -> th_rest t = NewId kd k -> i ∉ th_used t -> free {[ i ]} s -> fresh kd i (store s) ->
    step s (resume n t (gains kd i (th_own t)) ({[ i ]} ∪ th_used t) (k i) (store s) s)
| s_end s n t r : threads s !! n = Some t -> th_rest t = Done r -> step s (mk_state (store s) (delete n (threads s))).

Definition idle (m : Model) : State := mk_state m ∅.
Definition reachable (m : Model) (s : State) : Prop := rtc step (idle m) s.

End Worker.
Arguments Thread : clear implicits.
Arguments State : clear implicits.
End System.

Module SystemRules.
Import Log Run Views System.

(** What holds of every session nobody holds: each handler finds it and must leave it. *)
Definition Invariant := string -> LoadedSession -> Blobs -> Prop.
Definition holds_in (J : Invariant) (o : gset string) (l : Model) : Prop := forall s, s ∈ o -> J s (sess s l) (blobs s l).

Section Worker.
Context (mf : MayFail) {A : Type} (handler : gset string -> Prog A -> Prop) (J : Invariant).
(** A handler writes only what it holds, leaves the invariant, and ends in a way [ok] says. *)
Context (ok : result A Stop -> Prop).
Context (Hkeep : forall o p, handler o p -> forall l, holds_in J o l -> wp mf p o ∅ l (λ r o' l', holds_in J o' l' /\ ok r)).

(** The thread does what it would do alone, from where it began to its view of the store now. *)
Definition alone (m : Model) (t : Thread A) : Prop :=
  exists l, view_of (th_own t) m l /\ rtc (lstep mf) (began t) (mk_local (th_own t) (th_used t) l (th_rest t)) /\
    handler (own (began t)) (rest (began t)) /\ used (began t) = ∅ /\ holds_in J (own (began t)) (view (began t)).

Record good (s : State A) : Prop := {
  good_disjoint : forall n n' t t', n <> n' -> threads s !! n = Some t -> threads s !! n' = Some t' -> th_own t ## th_own t';
  good_alone : map_Forall (λ _ t, alone (store s) t) (threads s);
  good_free : forall sid, free {[ sid ]} s -> J sid (sess sid (store s)) (blobs sid (store s));
}.

Lemma alone_wp (m : Model) (t : Thread A) : alone m t ->
  exists l, view_of (th_own t) m l /\ rtc (lstep mf) (began t) (mk_local (th_own t) (th_used t) l (th_rest t)) /\
    wp mf (th_rest t) (th_own t) (th_used t) l (λ r o' l', holds_in J o' l' /\ ok r).
Proof.
  intros (l & Hv & Hr & Hh & Hu & Hj). exists l. split_and!; [done|done|].
  apply (wp_rtc mf _ _ (λ r o' l', holds_in J o' l' /\ ok r) Hr). unfold wp_of. rewrite Hu. by apply Hkeep.
Qed.

Lemma alone_later (m m' : Model) o (t : Thread A) : only_in o m m' -> o ## th_own t -> alone m t -> alone m' t.
Proof. intros Ho Hd (l & Hv & Hr). exists l. split; [by eapply only_in_view|done]. Qed.

Lemma holds_in_view o (m l : Model) : view_of o m l -> holds_in J o l <-> holds_in J o m.
Proof.
  intros Hv. unfold holds_in. split; intros Hj s Hs; specialize (Hv s); rewrite decide_True in Hv by done;
    destruct Hv as [Hv1 Hv2]; [rewrite <-Hv1, <-Hv2|rewrite Hv1, Hv2]; auto.
Qed.

Lemma free_began s n o (t : Thread A) sid : threads s !! n = None -> th_own t = o ->
  free {[ sid ]} (mk_state (store s) (<[n := t]> (threads s))) -> sid ∉ o /\ free {[ sid ]} s.
Proof.
  intros Hn <- Hf. split; [|intros n' t' Hn'; apply (Hf n'); cbn; rewrite lookup_insert_ne by congruence; done].
  assert (th_own t ## {[ sid ]}) by (apply (Hf n); cbn; by rewrite lookup_insert_eq). set_solver.
Qed.

Lemma free_resume s n (t : Thread A) o u p m sid : threads s !! n = Some t -> th_own t ⊆ o ->
  free {[ sid ]} (resume n t o u p m s) -> sid ∉ o /\ free {[ sid ]} s.
Proof.
  intros Hn Ho Hf. assert (o ## {[ sid ]}) as Hd by (apply (Hf n (mk_thread (began t) o u p)); cbn; by rewrite lookup_insert_eq).
  split; [set_solver|]. intros n' t' Hn'. destruct (decide (n' = n)) as [->|Hne]; [simplify_eq; set_solver|].
  apply (Hf n'). cbn. by rewrite lookup_insert_ne by congruence.
Qed.

(** One thread moves on, the store changes in its sessions only. *)
Lemma good_resume s n t o u p m' l : good s -> threads s !! n = Some t -> th_own t ⊆ o ->
  (forall n' t', n' <> n -> threads s !! n' = Some t' -> o ## th_own t') ->
  only_in (th_own t) (store s) m' -> view_of o m' l ->
  rtc (lstep mf) (began t) (mk_local o u l p) -> good (resume n t o u p m' s).
Proof.
  intros [Hd Ha Hf] Hn Hsub Ho Hm Hv Hr. split.
  - intros n1 n2 t1 t2 Hne. cbn. rewrite !lookup_insert. repeat case_decide; subst; intros; simplify_eq/=; [|symmetry|]; eauto.
  - intros n' t'. cbn. rewrite lookup_insert. case_decide as Hd'; intros; simplify_eq/=.
    + destruct (Ha _ _ Hn) as (l0 & _ & _ & Hh). by exists l.
    + apply (alone_later (store s) m' (th_own t)); [done|by apply (Hd n n')|by apply (Ha n')].
  - intros sid Hs. apply (free_resume s n t) in Hs as [Hsid Hs]; [|done..]. cbn. destruct (Hm sid) as [-> ->]; [set_solver|auto].
Qed.

Lemma good_step s s' : step mf handler s s' -> good s -> good s'.
Proof.
  intros Hs Hg. pose proof Hg as [Hd Ha Hfree].
  destruct Hs as [s n o p l Hh Hn Hf Hv|s n t B op k r m' Hn Hr Hc|s n t k z Hn Hr|s n t kd k i Hn Hr Hu Hf Hi|s n t r Hn Hr].
  - split.
    + intros n1 n2 t1 t2 Hne. cbn. rewrite !lookup_insert. repeat case_decide; subst; intros; simplify_eq/=; [symmetry| |]; eauto.
    + intros n' t'. cbn. rewrite lookup_insert. case_decide as Hd'; [intros [= <-]|by apply Ha].
      exists l. split_and!; [done..|]. apply (holds_in_view o (store s)); [done|]. intros sid Hsid. apply Hfree.
      intros n2 t2 Hn2. specialize (Hf n2 t2 Hn2). set_solver.
    + intros sid Hf'. apply (free_began s n o) in Hf' as [_ Hf']; [|done|done]. cbn. auto.
  - destruct (alone_wp _ _ (Ha n t Hn)) as (l & Hv & Hl & Hw). rewrite Hr in Hl, Hw. cbn [wp] in Hw.
    destruct Hw as (Hop & _). destruct (decide (held (th_own t) op)) as [Hh|Hh].
    + destruct (allowed_view mf op _ _ l r m' Hh Hv Hc) as (l' & Hc' & Hv' & Hm).
      apply (good_resume s n t _ _ _ _ l'); [done|done|done|intros n' t' Hne Hn'; by apply (Hd n n')|done|done|].
      eapply rtc_r; [exact Hl|]. by constructor.
    + destruct Hop as [|Hro]; [done|]. rewrite (allowed_read mf op _ _ _ Hro Hc).
      apply (good_resume s n t _ _ _ _ l); [done|done|done|intros n' t' Hne Hn'; by apply (Hd n n')|done|done|].
      eapply rtc_r; [exact Hl|]. by constructor.
  - destruct (alone_wp _ _ (Ha n t Hn)) as (l & Hv & Hl & _). rewrite Hr in Hl.
    apply (good_resume s n t _ _ _ _ l); [done|done|done|intros n' t' Hne Hn'; by apply (Hd n n')|done|done|].
    eapply rtc_r; [exact Hl|]. constructor.
  - destruct (alone_wp _ _ (Ha n t Hn)) as (l & Hv & Hl & _). rewrite Hr in Hl.
    assert (i ∉ th_own t) as Hi' by (specialize (Hf n t Hn); set_solver).
    apply (good_resume s n t _ _ _ _ l); [done|done|destruct kd; set_solver| |done|by apply gains_view|].
    + intros n' t' Hne Hn'. assert (th_own t ## th_own t') by (by apply (Hd n n')). specialize (Hf n' t' Hn'). destruct kd; cbn; set_solver.
    + eapply rtc_r; [exact Hl|]. constructor; [done|done|]. by eapply fresh_view.
  - split; cbn.
    + intros n1 n2 t1 t2 Hne. cbn. intros [_ H1]%lookup_delete_Some [_ H2]%lookup_delete_Some. eauto.
    + intros n' t'. cbn. intros [_ Hn']%lookup_delete_Some. by apply (Ha n').
    + intros sid Hf. destruct (decide (sid ∈ th_own t)) as [Hin|Hout].
      * destruct (alone_wp _ _ (Ha n t Hn)) as (l & Hv & _ & Hw). rewrite Hr in Hw. destruct Hw as [Hw _].
        by apply (holds_in_view _ (store s)) in Hw; [apply Hw|].
      * apply Hfree. intros n' t' Hn'. destruct (decide (n' = n)) as [->|Hne]; [simplify_eq; set_solver|].
        apply (Hf n'). cbn. by rewrite lookup_delete_ne by congruence.
Qed.

Lemma good_reachable m s : (forall sid, J sid (sess sid m) (blobs sid m)) -> reachable mf handler m s -> good s.
Proof.
  intros Hm Hr. assert (good (idle m)) as Hi.
  { split; [intros ? ? ? ? _; cbn; by rewrite lookup_empty|apply map_Forall_empty|intros sid _; apply Hm]. }
  unfold reachable in Hr. remember (idle m) as s0 eqn:Hs. clear Hs. induction Hr; eauto using good_step.
Qed.

(** A thread that reached its end ended well. *)
Lemma good_end s n t r : good s -> threads s !! n = Some t -> th_rest t = Done r -> ok r.
Proof. intros Hg Hn Hr. destruct (alone_wp _ _ (good_alone s Hg n t Hn)) as (l & _ & _ & Hw). rewrite Hr in Hw. apply Hw. Qed.

End Worker.
End SystemRules.
