(* ===== verification/SessionFsLaws.v ===== *)
(** * The file store keeps its contract (session-manager/src/store/fs.rs)

    [FsRules] relates the files and the cache to the model of the contract and shows that every
    call keeps the relation, whatever fails; [FsProperties] draws the consequences: an append
    over files is one over the contract, and what the store does to a session whose name is a
    step of a path, which no longer has a folder of its own. *)

From Stdlib Require Import Ascii ZArith Lia.
From S2P Require Import Prelude Json Codec JsonText SessionTypes SessionLog SessionLife SessionStore SessionFs SessionEvents SessionService SessionRun.
Import Types Contract.

(** ** What the files stand for *)

Module FsRules.
Import Log FileNames FsStore NameRules LogRules TypeRules.

(** Only the store's own names end in [.jsonl]. *)
Definition own_name (n : string) : Prop :=
  forall stem, strip_suffix ".jsonl" n = Some stem -> exists sid, utf8_ok sid = true /\ stem = encode_session_id sid.

(** The sessions whose attachments have a folder of their own. *)
Definition usable (sid : string) : Prop := utf8_ok sid = true /\ sid ∉ [""; "."; ".."].

Section Rules.
Context `{SerdeFileLaws}.

Definition parse_meta (t : string) : option AttachmentMeta :=
  match read_text t with Parsed v => from_value v | _ => None end.

(** The metadata file makes an attachment; its bytes may be gone. *)
Definition blob_file (f : Files) (sid aid : string) (x : option (AttachmentMeta * string)) : Prop :=
  match f !! meta_path sid aid with
  | None => x = None
  | Some t => exists a b, parse_meta t = Some a /\ x = Some (a, b) /\ forall b', f !! bin_path sid aid = Some b' -> b' = b
  end.

Record represents (st : FsStore) (m : Model) : Prop := {
  rep_world : forall n, env_ok (world st n);
  rep_names : forall n, is_Some (files st !! [n]) -> own_name n;
  rep_sess : forall sid, match cache st !! sid with
                         | Some s => sess sid m = s
                         | None => match replay_file (files st !! file_path sid) with Ok s => sess sid m = s | Err _ => True end
                         end;
  rep_meta : forall sid, is_Some (meta (sess sid m)) -> is_Some (files st !! file_path sid);
  rep_folder : folder st = false -> forall p, is_Some (files st !! p) -> length p = 1;
  rep_blobs : forall sid aid, usable sid -> utf8_ok aid = true -> blob_file (files st) sid aid (blobs sid m !! aid);
  rep_ids : forall sid aid, usable sid -> is_Some (blobs sid m !! aid) -> utf8_ok aid = true /\ aid <> "";
  rep_json : forall sid n, usable sid -> is_Some (files st !! (attachments_dir sid ++ [n])) -> extension n = Some "json" ->
    exists aid, utf8_ok aid = true /\ n = encode_session_id aid +:+ ".json";
}.

Definition fs_admits (A : Type) (op : Op A) (m : Model) : Prop :=
  match op with
  | PutMeta x => utf8_ok (session_id x) = true
  | DeleteMeta sid | PutEntry sid _ | CommitAppend sid _ _ | DeleteEntries sid | SetActiveLeaf sid _ | DeleteActiveLeaf sid =>
      utf8_ok sid = true
  | PutAttachment a _ =>
      usable (att_session a) /\ utf8_ok (attachment_id a) = true /\ attachment_id a <> "" /\ attachment_ok a
  | GetAttachment sid aid => usable sid /\ utf8_ok aid = true
  | DeleteAttachment sid aid => usable sid /\ utf8_ok aid = true /\ aid <> ""
  | ListAttachments sid | DeleteAttachments sid => usable sid
  | _ => True
  end.

(** *** Paths *)

Lemma usable_dir sid : usable sid -> attachments_dir sid = ["attachments"; encode_session_id sid].
Proof.
  intros [_ Hs]. unfold attachments_dir. assert (forall x, x ∈ [""; "."; ".."] -> encode_session_id sid <> x) as Hn.
  { intros x Hx He. apply Hs. assert (encode_session_id x = x) as Hex by (repeat (apply elem_of_cons in Hx as [->|Hx]; [done|]); by apply elem_of_nil in Hx).
    rewrite <-Hex in He. apply encode_inj in He. by subst. }
  rewrite decide_False by (intros [?|?]; eapply Hn; [..|done]; set_solver). by rewrite decide_False by (apply Hn; set_solver).
Qed.

Lemma usable_dir_inj s t n k : usable s -> usable t -> attachments_dir s ++ [n] = attachments_dir t ++ [k] -> s = t /\ n = k.
Proof. intros Hs Ht. rewrite !usable_dir by done. intros [= He ->]. by apply encode_inj in He. Qed.

Lemma usable_length s n : usable s -> length (attachments_dir s ++ [n]) = 3.
Proof. intros Hs. by rewrite usable_dir. Qed.

Lemma file_path_inj s t : file_path s = file_path t -> s = t.
Proof. intros [= He]. apply (ext_inj _ _ "jsonl" "jsonl") in He as [He _]; [|done..]. by apply encode_inj in He. Qed.

Lemma tmp_name n : n +:+ "." +:+ "jsonl.tmp" = (n +:+ ".jsonl") +:+ ".tmp".
Proof. by rewrite <-append_assoc. Qed.

Lemma tmp_own sid n : tmp_path sid = [n] -> own_name n.
Proof.
  unfold tmp_path, with_extension. rewrite tmp_name. intros [= <-] stem Hs%strip_suffix_spec.
  by apply (ext_inj _ _ "tmp" "jsonl") in Hs as [_ ?].
Qed.

Lemma tmp_file s t : tmp_path s <> file_path t.
Proof.
  unfold tmp_path, with_extension, file_path. rewrite tmp_name. intros [= Hs]. by apply (ext_inj _ _ "tmp" "jsonl") in Hs as [_ ?].
Qed.

Lemma file_own sid n : utf8_ok sid = true -> file_path sid = [n] -> own_name n.
Proof. intros Hu [= <-] stem Hs%strip_suffix_spec. apply (ext_inj _ _ "jsonl" "jsonl") in Hs as [<- _]; [|done..]. by exists sid. Qed.

(** The four files of an attachment. *)
Lemma meta_bin s t a b : usable s -> usable t -> meta_path s a <> bin_path t b.
Proof. intros Hs Ht He. apply usable_dir_inj in He as [_ He]; [|done..]. by apply (ext_inj _ _ "json" "bin") in He as [_ ?]. Qed.
Lemma meta_inj s t a b : usable s -> usable t -> meta_path s a = meta_path t b -> s = t /\ a = b.
Proof.
  intros Hs Ht He. apply usable_dir_inj in He as [-> He]; [|done..]. apply (ext_inj _ _ "json" "json") in He as [He _]; [|done..].
  by apply encode_inj in He.
Qed.
Lemma bin_inj s t a b : usable s -> usable t -> bin_path s a = bin_path t b -> s = t /\ a = b.
Proof.
  intros Hs Ht He. apply usable_dir_inj in He as [-> He]; [|done..]. apply (ext_inj _ _ "bin" "bin") in He as [He _]; [|done..].
  by apply encode_inj in He.
Qed.

(** The names that do not matter to what is stored: those of temporary files. *)
Definition aside (p : Path) : Prop := exists s x, usable s /\ contains_char "." x = false /\ x = "tmp" /\ exists n, p = attachments_dir s ++ [n +:+ String "." x].

Lemma aside_meta p s a : aside p -> usable s -> meta_path s a <> p.
Proof.
  intros (t & x & Ht & Hx & -> & n & ->) Hs He. apply usable_dir_inj in He as [_ He]; [|done..]. by apply (ext_inj _ _ "json" "tmp") in He as [_ ?].
Qed.
Lemma aside_bin p s a : aside p -> usable s -> bin_path s a <> p.
Proof.
  intros (t & x & Ht & Hx & -> & n & ->) Hs He. apply usable_dir_inj in He as [_ He]; [|done..]. by apply (ext_inj _ _ "bin" "tmp") in He as [_ ?].
Qed.

(** *** The representation *)

(** It depends on the sessions and attachments only. *)
Lemma represents_ext st m m' : (forall s, sess s m' = sess s m /\ blobs s m' = blobs s m) -> represents st m -> represents st m'.
Proof.
  intros He [H1 H2 H3 H4 H5 H6 H7 H8]. split; [done..| | |done| | |done].
  - intros sid. destruct (He sid) as [-> _]. apply H3.
  - intros sid. destruct (He sid) as [-> _]. apply H4.
  - intros sid aid. destruct (He sid) as [_ ->]. apply H6.
  - intros sid aid. destruct (He sid) as [_ ->]. apply H7.
Qed.

Lemma represents_tick st m : represents st m -> represents (tick st) m.
Proof. by intros []. Qed.

Lemma load_spec sid st m : represents st m ->
  represents (load sid st).2 m /\ files (load sid st).2 = files st /\
  match (load sid st).1 with Ok s => s = sess sid m /\ cache (load sid st).2 !! sid = Some s | Err _ => True end.
Proof.
  intros Hr. unfold load. pose proof (rep_sess _ _ Hr sid) as Hs. destruct (cache st !! sid) as [s|] eqn:Hc; [done|].
  unfold read. set (rd := match files st !! file_path sid with Some t => _ | None => _ end).
  assert (forall t, rd = Ok t -> t = files st !! file_path sid) as Hrd.
  { unfold rd. intros t. destruct (files st !! file_path sid); [|by intros [= <-]]. destruct (io_read _ _); [done|]. by intros [= <-]. }
  destruct rd as [t|e]; [|done]. rewrite (Hrd t eq_refl). destruct (replay_file (files st !! file_path sid)) as [s|e] eqn:Hrf; [|done].
  cbn [fst snd]. split_and!; [|done|done|by cbn; rewrite lookup_insert_eq].
  destruct Hr as [H1 H2 H3 H4 H5 H6 H7 H8]. split; [done|done| |done|done|done|done|done].
  intros t0. cbn [cache set_cache files]. destruct (decide (sid = t0)) as [<-|Hne]; [by rewrite lookup_insert_eq|].
  rewrite lookup_insert_ne by done. apply H3.
Qed.

(** A session's file and state change. *)
Lemma represents_write sid st m s t partial : represents st m -> is_Some (cache st !! sid) -> utf8_ok sid = true ->
  (is_Some (meta s) -> is_Some t) ->
  represents (set_cache (<[sid := s]> (cache st)) (set_files (leave (tmp_path sid) partial (write_file (file_path sid) t (files st))) st))
    (set_sess sid s m).
Proof.
  intros Hr Hc Hu Hm. destruct Hr as [H1 H2 H3 H4 H5 H6 H7 H8].
  set (f := leave _ _ _).
  assert (forall p, length p <> 1 -> f !! p = files st !! p) as Hlong.
  { intros p Hp. unfold f, leave, write_file. assert (p <> file_path sid /\ p <> tmp_path sid) as [] by (by split; intros ->).
    destruct partial, t; rewrite ?lookup_insert_ne, ?lookup_delete_ne by done; done. }
  assert (forall q, q <> sid -> f !! file_path q = files st !! file_path q) as Hother.
  { intros q Hq. unfold f, leave, write_file. assert (file_path sid <> file_path q) by (by intros ?%file_path_inj).
    pose proof (tmp_file sid q). destruct partial, t; rewrite ?lookup_insert_ne, ?lookup_delete_ne by done; done. }
  assert (f !! file_path sid = t) as Hself.
  { unfold f, leave, write_file. pose proof (tmp_file sid sid). destruct partial, t; rewrite ?lookup_insert_ne by done; rewrite ?lookup_insert_eq, ?lookup_delete_eq; done. }
  split; cbn [world files folder cache set_cache set_files].
  - done.
  - intros n [x Hn]. destruct (decide (tmp_path sid = [n])); [by eapply tmp_own|]. destruct (decide (file_path sid = [n])); [by eapply file_own|].
    apply H2. exists x. unfold f, leave, write_file in Hn. destruct partial, t; rewrite ?lookup_insert_ne, ?lookup_delete_ne in Hn by done; done.
  - intros q. rewrite Views.sess_set. case_decide as Hq; [subst q; by rewrite lookup_insert_eq|]. rewrite lookup_insert_ne by done.
    rewrite Hother by done. apply H3.
  - intros q. rewrite Views.sess_set. case_decide as Hq; [subst q; rewrite Hself; done|]. rewrite Hother by done. apply H4.
  - intros Hf p Hp. destruct (decide (length p = 1)); [done|]. rewrite Hlong in Hp by done. by apply H5.
  - intros q aid Hus Ha. rewrite Views.blobs_set_sess. unfold blob_file. unfold meta_path, bin_path. rewrite !Hlong by (rewrite usable_length; [lia|done]).
    by apply H6.
  - intros q aid Hus. rewrite Views.blobs_set_sess. by apply H7.
  - intros q n Hus. rewrite Hlong by (rewrite usable_length; [lia|done]). by apply H8.
Qed.

(** *** Operations on a session *)

(** One call as the contract has it. *)
Definition kept_contract {A} (op : Op A) (st : FsStore) (m : Model) : Prop :=
  exists m', outcome op m (fs_call op st).1 m' /\ represents (fs_call op st).2 m'.

Lemma reading_law {T} (sid : string) (f : LoadedSession -> T) (op : Op T) st m : represents st m ->
  fs_call op st = with_loaded sid f st -> spec op m = (Ok (f (sess sid m)), m) -> same_answer op = eq -> kept_contract op st m.
Proof.
  intros Hr Hop Hsp Heq. exists m. rewrite Hop. unfold with_loaded. destruct (load_spec sid st m Hr) as (Hr' & _ & Hl).
  destruct (load sid st) as [[s|e] st']; cbn [fst snd] in *; split; try done.
  - destruct Hl as [-> _]. assert (m = (spec op m).2) as Hm by by rewrite Hsp. rewrite Hm at 3. apply Answered. by rewrite Heq, Hsp.
  - apply FailedBefore.
Qed.

Definition kept_text (o o' : Open) : Prop := (is_Some (meta (session o)) -> is_Some (text o)) -> is_Some (meta (session o')) -> is_Some (text o').

Lemma on_open_law {T} (sid : string) (f : Open -> result T StoreError * Open) partial (op : Op T) st m : represents st m ->
  utf8_ok sid = true -> fs_call op st = on_open sid f partial st ->
  (forall t, let '(r, o) := f (mk_open t (sess sid m)) in
    kept_text (mk_open t (sess sid m)) o /\
    match r with
    | Ok a => same_answer op (Ok a) (spec op m).1 /\ (spec op m).2 = set_sess sid (session o) m \/
              same_answer op (Ok a) (spec op m).1 /\ session o = sess sid m /\ (spec op m).2 = m
    | Err _ => session o = sess sid m
    end) ->
  kept_contract op st m.
Proof.
  intros Hr Hu Hop Hf. unfold kept_contract. rewrite Hop. unfold on_open. destruct (load_spec sid st m Hr) as (Hr' & Hfl & Hl).
  destruct (load sid st) as [[s|e] st']; cbn [fst snd] in *; [|exists m; split; [apply FailedBefore|done]].
  destruct Hl as [-> Hc]. pose proof (Hf (files st' !! file_path sid)) as Hf'. destruct (f _) as [r o]. destruct Hf' as [Ht Ho]. cbn [fst snd].
  assert (represents (set_cache (<[sid := session o]> (cache st')) (set_files (leave (tmp_path sid) partial (write_file (file_path sid) (text o) (files st'))) st'))
    (set_sess sid (session o) m)) as Hr2.
  { apply represents_write; [done|by eexists|done|]. apply Ht. cbn [session text]. apply (rep_meta _ _ Hr'). }
  assert (session o = sess sid m -> represents (set_cache (<[sid := session o]> (cache st')) (set_files (leave (tmp_path sid) partial
    (write_file (file_path sid) (text o) (files st'))) st')) m) as Hr3.
  { intros Ho'. eapply represents_ext; [|exact Hr2]. intros q. rewrite Views.sess_set, Views.blobs_set_sess. rewrite Ho'. by case_decide; subst. }
  destruct r as [a|e].
  - destruct Ho as [[Ha Hm]|(Ha & Hs & Hm)].
    + exists (spec op m).2. split; [by apply Answered|]. by rewrite Hm.
    + exists (spec op m).2. split; [by apply Answered|]. rewrite Hm. by apply Hr3.
  - exists m. split; [apply FailedBefore|]. by apply Hr3.
Qed.

Lemma append_record_text io t r : is_Some (append_record io t r).2 \/ (append_record io t r).2 = t.
Proof. unfold append_record. destruct io; [destruct (repaired _) as [? []]; left; by eexists|by right|destruct (repaired _) as [? []]; left; by eexists]. Qed.

Lemma append_record_ok io t r u : (append_record io t r).1 = Ok u -> is_Some (append_record io t r).2.
Proof. unfold append_record. destruct io; [|done|]; destruct (repaired _) as [? []]; by eexists. Qed.

Lemma append_and_apply_kept io r t s : let '(x, o) := append_and_apply io r (mk_open t s) in
  kept_text (mk_open t s) o /\ match x with Ok _ => session o = apply r s | Err _ => session o = s end.
Proof.
  unfold append_and_apply. cbn [text session]. pose proof (append_record_text io t r) as Ht. pose proof (append_record_ok io t r) as Hok.
  destruct (append_record io t r) as [[u|e] t']; cbn [fst snd] in *; (split; [|done]); unfold kept_text; cbn [text session].
  - intros _ _. by eapply Hok.
  - destruct Ht as [Ht| ->]; auto.
Qed.

Lemma mutate_snapshot_kept io f t s : let '(x, o) := mutate_snapshot io f (mk_open t s) in
  kept_text (mk_open t s) o /\ match x with Ok _ => session o = f s | Err _ => session o = s end.
Proof.
  unfold mutate_snapshot. destruct io; cbn; (split; [|done]); unfold kept_text; cbn [text session]; [|auto].
  intros _ Hm. unfold snapshot_text. destruct (is_empty (f s)) eqn:He; [|by eexists]. unfold is_empty in He. by destruct (meta (f s)), Hm.
Qed.

Lemma appending_law sid r (op : Op unit) st m : represents st m -> utf8_ok sid = true ->
  fs_call op st = appending sid (λ io, append_and_apply io r) st -> spec op m = (Ok tt, change sid (apply r) m) -> same_answer op = eq ->
  kept_contract op st m.
Proof.
  intros Hr Hu Hop Hsp Heq. eapply (on_open_law sid _ _ op st m Hr Hu Hop). intros t.
  pose proof (append_and_apply_kept (io_append (now_env st)) r t (sess sid m)) as Hk. destruct (append_and_apply _ _ _) as [[[]|e] o]; [|done].
  destruct Hk as [Hk Ho]. split; [done|]. left. rewrite Hsp, Heq. split; [done|]. cbn. unfold change. by rewrite Ho.
Qed.

Lemma rewriting_law sid f (op : Op unit) st m : represents st m -> utf8_ok sid = true ->
  fs_call op st = rewriting sid (λ io, mutate_snapshot io f) st -> spec op m = (Ok tt, change sid f m) -> same_answer op = eq ->
  kept_contract op st m.
Proof.
  intros Hr Hu Hop Hsp Heq. eapply (on_open_law sid _ _ op st m Hr Hu Hop). intros t.
  pose proof (mutate_snapshot_kept (io_snapshot (now_env st)) f t (sess sid m)) as Hk. destruct (mutate_snapshot _ _ _) as [[[]|e] o]; [|done].
  destruct Hk as [Hk Ho]. split; [done|]. left. rewrite Hsp, Heq. split; [done|]. cbn. unfold change. by rewrite Ho.
Qed.

Lemma commit_law sid e x st m : represents st m -> utf8_ok sid = true -> kept_contract (CommitAppend sid e x) st m.
Proof.
  intros Hr Hu. eapply (on_open_law sid (commit_append (io_append (now_env st)) sid e x) None _ st m Hr Hu); [done|]. intros t. unfold commit_append. cbn [session spec same_answer].
  destruct (decide_append sid e x (sess sid m)) as [[r|[e' m']]|err]; cbn [fst snd]; [split; [by intros Hk|by right]| |split; [by intros Hk|done]].
  pose proof (append_and_apply_kept (io_append (now_env st)) (RAppend e' m') t (sess sid m)) as Hk.
  destruct (append_and_apply _ _ _) as [[[]|err] o]; [|done]. destruct Hk as [Hk Ho]. split; [done|]. left. split; [done|]. unfold change. by rewrite Ho.
Qed.

(** *** Listing the sessions *)

Lemma load_metas_spec ids st m : represents st m ->
  represents (load_metas ids st).2 m /\
  match (load_metas ids st).1 with Ok l => l = omap (λ i, meta (sess i m)) ids | Err _ => True end.
Proof.
  revert st. induction ids as [|i ids IH]; intros st Hr; [done|]. cbn [load_metas]. unfold with_loaded.
  destruct (load_spec i st m Hr) as (Hr' & _ & Hl). destruct (load i st) as [[s|e] st1]; cbn [fst snd] in *; [|done].
  destruct Hl as [-> _]. specialize (IH st1 Hr'). destruct (load_metas ids st1) as [[l|e] st2]; cbn [fst snd] in *; [|done].
  destruct IH as [IH ->]. split; [done|]. simpl. by destruct (meta (sess i m)).
Qed.

(** Two lists of different keys give the same values, up to order, when both have all keys that give one. *)
Lemma omap_keys {K V} `{EqDecision K} (f : K -> option V) (l k : list K) : NoDup l -> NoDup k ->
  (forall x, is_Some (f x) -> x ∈ l /\ x ∈ k) -> omap f l ≡ₚ omap f k.
Proof.
  intros Hl Hk Hf. assert (forall j : list K, omap f j = omap f (filter (λ x, is_Some (f x)) j)) as Hj.
  { induction j as [|x j IH]; [done|]. rewrite filter_cons. destruct (f x) as [v|] eqn:Hx; case_decide as Hd;
      cbn [omap list_omap]; rewrite ?Hx; [by f_equal|by destruct Hd; eexists|by destruct Hd|done]. }
  rewrite (Hj l), (Hj k). apply omap_Permutation. apply NoDup_Permutation; [by apply NoDup_filter..|]. intros x.
  rewrite !list_elem_of_filter. naive_solver.
Qed.

Lemma metas_by_key m : metas m = omap (λ i, meta (sess i m)) (btree_keys (sessions m)).
Proof.
  unfold metas, btree_values, btree_keys.
  assert (Forall (λ p, sess p.1 m = p.2) (btree_iter (sessions m))) as Hall.
  { apply Forall_forall. intros [i s] Hi%elem_of_btree_iter. unfold sess. cbn. by rewrite Hi. }
  induction Hall as [|[i s] l Hx Hl IH]; [done|]. simpl in *. rewrite Hx. destruct (meta s); [f_equal|]; exact IH.
Qed.

Lemma child_dir dir p n : child dir p = Some n <-> p = dir ++ [n].
Proof.
  revert p. induction dir as [|d dir IH]; intros [|x p]; cbn [child app]; try (split; naive_solver).
  - destruct p; split; naive_solver.
  - case_decide as Hd; [subst; rewrite IH; split; naive_solver|split; naive_solver].
Qed.

Lemma elem_of_dir_names dir f n : n ∈ dir_names dir f <-> is_Some (f !! (dir ++ [n])).
Proof.
  unfold dir_names. rewrite list_elem_of_omap. split.
  - intros (p & ([q t] & Hp & Hq%elem_of_map_to_list)%list_elem_of_fmap & Hc%child_dir). cbn in Hp. subst. by eexists.
  - intros [t Ht]. exists (dir ++ [n]). split; [|by apply child_dir]. apply list_elem_of_fmap. exists (dir ++ [n], t). split; [done|].
    by apply elem_of_map_to_list.
Qed.

Lemma NoDup_omap_inj {A B} (f : A -> option B) l : (forall x y z, f x = Some z -> f y = Some z -> x = y) -> NoDup l -> NoDup (omap f l).
Proof.
  intros Hf. induction 1 as [|x l Hx Hl IH]; [constructor|]. simpl. destruct (f x) as [z|] eqn:Hz; [|done]. constructor; [|done].
  intros (y & Hy & Hyz)%list_elem_of_omap. apply Hx. by rewrite (Hf x y z).
Qed.

Lemma NoDup_dir_names dir f : NoDup (dir_names dir f).
Proof.
  apply NoDup_omap_inj; [|apply NoDup_fst_map_to_list]. by intros x y z ->%child_dir ->%child_dir.
Qed.

Lemma list_law st m : represents st m -> kept_contract ListMetas st m.
Proof.
  intros Hr. unfold kept_contract. cbn [fs_call]. unfold list_metas, session_ids_on_disk, read_dir.
  destruct (io_dir (now_env st)) as [e|]; [exists m; split; [apply FailedBefore|done]|]. exists m.
  set (names := io_order _ _). assert (names ≡ₚ dir_names [] (files st)) as Hn by apply (rep_world _ _ Hr).
  assert (forall n, n ∈ names <-> is_Some (files st !! [n])) as Hin by (intros n; rewrite Hn; apply elem_of_dir_names).
  assert (forall n i, n ∈ names -> session_id_of n = Some i -> n = encode_session_id i +:+ ".jsonl") as Hid.
  { intros n i Hn' Hi. unfold session_id_of in Hi. destruct (utf8_ok n); [|done]. destruct (strip_suffix ".jsonl" n) as [stem|] eqn:Hs; [|done].
    destruct (rep_names _ _ Hr n (proj1 (Hin n) Hn') stem Hs) as (sid & Hu & ->). cbn [mbind option_bind] in Hi. unfold decode_session_id in Hi.
    rewrite decode_encoded in Hi. cbn [mbind option_bind] in Hi. rewrite Hu in Hi. injection Hi as <-. by apply strip_suffix_spec in Hs. }
  destruct (load_metas_spec (omap session_id_of names) st m Hr) as [Hr' Hl].
  destruct (load_metas _ st) as [[l|e] st']; cbn [fst snd] in *; (split; [|done]); [|apply FailedBefore].
  subst l. refine (Answered ListMetas m _ _). cbn [same_answer spec fst]. rewrite metas_by_key. apply omap_keys.
  - assert (NoDup names) as Hnd by (rewrite Hn; apply NoDup_dir_names).
    clearbody names. clear Hn Hin Hr'. induction Hnd as [|n names Hnn Hnd IH]; [constructor|]. simpl.
    assert (NoDup (omap session_id_of names)) as Hnd2 by (apply IH; intros n' i Hn'; apply Hid; by right).
    destruct (session_id_of n) as [i|] eqn:Hi; [|done]. constructor; [|done]. intros (n' & Hn' & Hi')%list_elem_of_omap. apply Hnn.
    rewrite (Hid n i), <-(Hid n' i); [done|by right|done|by left|done].
  - apply NoDup_btree_keys.
  - intros i Hi. split.
    + destruct (rep_meta _ _ Hr i Hi) as [t Ht]. apply list_elem_of_omap. exists (encode_session_id i +:+ ".jsonl").
      split; [apply Hin; by eexists|]. apply session_id_of_file.
      destruct (rep_names _ _ Hr _ (mk_is_Some _ _ Ht) (encode_session_id i)) as (sid & Hu & He); [by apply strip_suffix_spec|].
      apply encode_inj in He. by subst.
    + apply elem_of_btree_keys. unfold sess in Hi. destruct (sessions m !! i); [by eexists|]. by destruct Hi.
Qed.

(** *** Attachments *)

Lemma attachment_text a : attachment_ok a -> parse_meta (file_text (to_value a)) = Some a.
Proof.
  intros Ha. unfold parse_meta. rewrite file_text_read; [exact (attachment_codec a Ha)|]. cbn [to_value AttachmentMeta_codec].
  destruct Ha as [Hs Ht]. apply fits_obj. repeat (apply Forall_cons_2; [cbn [snd]; try apply fits_str; try by apply fits_u|]); [|constructor].
  unfold enc_i64, in_range, i64_min, i64_max in *. destruct (Z.leb_spec 0 (att_created_at a)); simpl; unfold in_range, u64_max, i64_min; lia.
Qed.

Lemma under_spec d p : under d p = true <-> exists r, p = d ++ r.
Proof. unfold under. rewrite bool_decide_eq_true. done. Qed.

Lemma under_false d p : under d p = false <-> forall r, p <> d ++ r.
Proof.
  rewrite <-not_true_iff_false, under_spec. split; [intros Hn r Hr; apply Hn; by exists r|intros Hn [r Hr]; by apply (Hn r)].
Qed.

Lemma outside_file sid p : usable sid -> length p = 1 -> under (attachments_dir sid) p = false.
Proof. intros Hs Hp. apply under_false. intros r ->. rewrite usable_dir in Hp by done. simpl in Hp. lia. Qed.

Lemma outside_other s t n : usable s -> usable t -> s <> t -> under (attachments_dir s) (attachments_dir t ++ [n]) = false.
Proof. intros Hs Ht Hst. apply under_false. intros r. rewrite !usable_dir by done. intros [= He]. by apply encode_inj in He. Qed.

(** The attachments of one session change. *)
Lemma represents_blobs sid st m f dir b : represents st m -> usable sid ->
  (forall p, under (attachments_dir sid) p = false -> f !! p = files st !! p) ->
  (dir = false -> forall p, is_Some (f !! p) -> length p = 1) ->
  (forall aid, utf8_ok aid = true -> blob_file f sid aid (b !! aid)) ->
  (forall aid, is_Some (b !! aid) -> utf8_ok aid = true /\ aid <> "") ->
  (forall n, is_Some (f !! (attachments_dir sid ++ [n])) -> extension n = Some "json" ->
     exists aid, utf8_ok aid = true /\ n = encode_session_id aid +:+ ".json") ->
  represents (set_folder dir (set_files f st)) (set_blobs sid b m).
Proof.
  intros Hr Hs Ho Hd Hb Hi Hj. pose proof Hr as [H1 H2 H3 H4 H5 H6 H7 H8].
  assert (forall p, length p = 1 -> f !! p = files st !! p) as Hone by (intros p Hp; by apply Ho, outside_file).
  split; cbn [world files folder cache set_folder set_files].
  - done.
  - intros n. rewrite Hone by done. apply H2.
  - intros q. rewrite Views.sess_set_blobs, Hone by done. apply H3.
  - intros q. rewrite Views.sess_set_blobs, Hone by done. apply H4.
  - done.
  - intros q aid Hq Ha. rewrite Views.blobs_set. case_decide as Hqs; [subst; by apply Hb|]. specialize (H6 q aid Hq Ha).
    unfold blob_file, meta_path, bin_path in *. rewrite !Ho by (apply outside_other; congruence). done.
  - intros q aid Hq. rewrite Views.blobs_set. case_decide as Hqs; [subst; by apply Hi|]. by apply H7.
  - intros q n Hq. destruct (decide (q = sid)) as [->|Hqs]; [apply Hj|]. rewrite Ho by (apply outside_other; congruence). by apply H8.
Qed.

(** A file in the folder of a session is under it. *)
Lemma inside sid p : under (attachments_dir sid) p = false -> forall n, attachments_dir sid ++ [n] <> p.
Proof. rewrite under_false. intros Hp n <-. by eapply Hp. Qed.

(** Files that do not matter to the attachments of a session come and go. *)
Lemma represents_aside sid st m f dir : represents st m -> usable sid ->
  (forall p, under (attachments_dir sid) p = false -> f !! p = files st !! p) ->
  (dir = false -> forall p, is_Some (f !! p) -> length p = 1) ->
  (forall aid, utf8_ok aid = true -> f !! meta_path sid aid = files st !! meta_path sid aid /\
     (is_Some (files st !! meta_path sid aid) -> f !! bin_path sid aid = files st !! bin_path sid aid)) ->
  (forall n, is_Some (f !! (attachments_dir sid ++ [n])) -> extension n = Some "json" -> is_Some (files st !! (attachments_dir sid ++ [n]))) ->
  represents (set_folder dir (set_files f st)) m.
Proof.
  intros Hr Hs Ho Hd Hb Hj. eapply represents_ext; [|apply (represents_blobs sid st m f dir (blobs sid m)); try done].
  - intros q. rewrite Views.sess_set_blobs, Views.blobs_set. by case_decide; subst.
  - intros aid Ha. pose proof (rep_blobs _ _ Hr sid aid Hs Ha) as Hx. destruct (Hb aid Ha) as [Hm Hbin]. unfold blob_file in *. rewrite Hm.
    destruct (files st !! meta_path sid aid) as [t|]; [|done]. rewrite Hbin by by eexists. done.
  - intros aid. by apply (rep_ids _ _ Hr).
  - intros n Hn Hext. apply (rep_json _ _ Hr sid); auto.
Qed.

Lemma aside_meta_tmp sid aid : usable sid -> aside (meta_tmp sid aid).
Proof. intros Hs. exists sid, "tmp". split_and!; [done..|]. by eexists. Qed.
Lemma aside_bin_tmp sid aid : usable sid -> aside (bin_tmp sid aid).
Proof. intros Hs. exists sid, "tmp". split_and!; [done..|]. by eexists. Qed.

Lemma leave_other p q t f : q <> p -> leave p t f !! q = f !! q.
Proof. intros Hq. unfold leave. destruct t; [by rewrite lookup_insert_ne|done]. Qed.

Lemma no_meta_file sid aid st m : represents st m -> usable sid -> utf8_ok aid = true -> blobs sid m !! aid = None ->
  files st !! meta_path sid aid = None.
Proof.
  intros Hr Hs Ha Hn. pose proof (rep_blobs _ _ Hr sid aid Hs Ha) as Hb. unfold blob_file in Hb. rewrite Hn in Hb.
  destruct (files st !! meta_path sid aid); [|done]. by destruct Hb as (a & b & _ & ? & _).
Qed.

(** The name of a blob or a temporary file is not that of a metadata file. *)
Lemma bin_ext aid n : aid <> "" -> encode_session_id aid +:+ ".bin" = n -> extension n <> Some "json".
Proof. intros Ha <-. rewrite (extension_of _ "bin"); [done|by apply encode_nonempty|done]. Qed.

Lemma tmp_ext s t n : s +:+ t = n -> t = ".tmp" -> s <> "" -> extension n <> Some "json".
Proof. intros <- -> Hs. by rewrite (extension_of _ "tmp"). Qed.

Lemma append_nonempty a b : b <> "" -> a +:+ b <> "".
Proof. by destruct a. Qed.

(** The bytes of an attachment are written, and its metadata is not: a new one is not seen, and one
    that was there has the new bytes. *)
Lemma bytes_law sid aid bytes partial st m : represents st m -> usable sid -> utf8_ok aid = true -> aid <> "" ->
  let f := leave (meta_tmp sid aid) partial (<[bin_path sid aid := bytes]> (files st)) in
  let st' := set_folder true (set_files f st) in
  (blobs sid m !! aid = None /\ represents st' m) \/
  (exists old b, blobs sid m !! aid = Some (old, b) /\ represents st' (set_blobs sid (<[aid := (old, bytes)]> (blobs sid m)) m)).
Proof.
  intros Hr Hs Ha Hne f st'. pose proof (rep_blobs _ _ Hr sid) as Hblobs.
  assert (forall aid', aid' <> aid -> bin_path sid aid' <> bin_path sid aid) as Hbne by (intros aid' Hx Hy; apply Hx; by apply bin_inj in Hy as [_ ?]).
  assert (forall aid', meta_path sid aid' <> bin_path sid aid) as Hmb by (intros aid'; by apply meta_bin).
  assert (forall aid', utf8_ok aid' = true -> f !! meta_path sid aid' = files st !! meta_path sid aid' /\
    (aid' <> aid -> f !! bin_path sid aid' = files st !! bin_path sid aid') /\ f !! bin_path sid aid = Some bytes) as Hf.
  { intros aid' Ha'. unfold f. rewrite !leave_other by (apply aside_bin || apply aside_meta; [by apply aside_meta_tmp|done]).
    rewrite lookup_insert_ne by done. rewrite lookup_insert_eq. split_and!; [done| |done]. intros Hx. by rewrite lookup_insert_ne by (apply not_eq_sym; auto). }
  assert (forall p, under (attachments_dir sid) p = false -> f !! p = files st !! p) as Hout.
  { intros p Hp. unfold f. rewrite leave_other by (intros ->; by eapply inside). apply lookup_insert_ne. by apply inside. }
  assert (forall n, is_Some (f !! (attachments_dir sid ++ [n])) -> extension n = Some "json" -> is_Some (files st !! (attachments_dir sid ++ [n]))) as Hjson.
  { intros n Hn Hext. unfold f in Hn. rewrite leave_other in Hn; cycle 1.
    { intros [_ He]%usable_dir_inj; [|done..]. eapply tmp_ext; [symmetry; exact He|done|by apply append_nonempty|done]. }
    rewrite lookup_insert_ne in Hn; [done|]. intros [_ He]%usable_dir_inj; [|done..]. by eapply bin_ext. }
  destruct (blobs sid m !! aid) as [[old b]|] eqn:Hb; [right; exists old, b; split; [done|]|left; split; [done|]].
  - apply represents_blobs; try done.
    + intros aid' Ha'. pose proof (Hblobs aid' Hs Ha') as Hx. unfold blob_file in *. destruct (Hf aid' Ha') as (-> & Hbin & Hnew).
      destruct (decide (aid' = aid)) as [->|Hd]; [|rewrite lookup_insert_ne by done; by rewrite Hbin].
      rewrite lookup_insert_eq. rewrite Hb in Hx. destruct (files st !! meta_path sid aid) as [t|]; [|done].
      destruct Hx as (a0 & b0 & Hp & [= <- <-] & _). exists old, bytes. split_and!; [done..|]. rewrite Hnew. by intros b' [= <-].
    + intros aid'. destruct (decide (aid' = aid)) as [->|Hd]; [done|]. rewrite lookup_insert_ne by done. by apply (rep_ids _ _ Hr).
    + intros n Hn Hext. apply (rep_json _ _ Hr sid); auto.
  - apply (represents_aside sid st m); try done. intros aid' Ha'. destruct (Hf aid' Ha') as (Hm & Hbin & _). split; [done|]. intros Hx.
    apply Hbin. intros ->. rewrite (no_meta_file sid aid st m) in Hx by done. by destruct Hx.
Qed.

Lemma put_law a bytes st m : represents st m -> fs_admits _ (PutAttachment a bytes) m -> kept_contract (PutAttachment a bytes) st m.
Proof.
  intros Hr (Hs & Ha & Hne & Hok). set (sid := att_session a) in *. set (aid := attachment_id a) in *.
  assert (forall aid', aid' <> aid -> bin_path sid aid' <> bin_path sid aid) as Hbne by (intros aid' Hx Hy; apply Hx; by apply bin_inj in Hy as [_ ?]).
  assert (forall aid', meta_path sid aid' <> bin_path sid aid) as Hmb by (intros aid'; by apply meta_bin).
  assert (forall partial, represents (set_folder true (set_files (leave (bin_tmp sid aid) partial (files st)) st)) m) as Hbytes.
  { intros partial. apply (represents_aside sid st m); try done.
    - intros p Hp. apply leave_other. intros ->. by eapply inside.
    - intros aid' Ha'. rewrite !leave_other; [done|apply aside_bin; [by apply aside_bin_tmp|done]|apply aside_meta; [by apply aside_bin_tmp|done]].
    - intros n Hn Hext. rewrite leave_other in Hn; [done|]. intros [_ He]%usable_dir_inj; [|done..].
      eapply tmp_ext; [symmetry; exact He|done|by apply append_nonempty|done]. }
  unfold kept_contract. cbn [fs_call]. unfold put_attachment. fold sid aid. destruct (io_put (now_env st)) as [|e|e partial|e partial]; cbn [fst snd].
  2-3: exists m; split; [apply FailedBefore|auto].
  2: { destruct (bytes_law sid aid bytes partial st m) as [[Hn Hm]|(old & b & Hb & Hm)]; [done..|exists m|]; [by split; [apply FailedBefore|]|].
       eexists. split; [|exact Hm]. apply FailedPartly. by exists old, b. }
  exists (spec (PutAttachment a bytes) m).2. split; [by apply Answered|]. cbn [spec snd]. fold sid aid.
  apply represents_blobs; try done.
  - intros p Hp. rewrite lookup_insert_ne by by apply inside. apply lookup_insert_ne. by apply inside.
  - intros aid' Ha'. unfold blob_file. destruct (decide (aid' = aid)) as [->|Hx].
    + rewrite lookup_insert_eq. exists a, bytes. split_and!; [by apply attachment_text|by rewrite lookup_insert_eq|].
      rewrite lookup_insert_ne by done. rewrite lookup_insert_eq. by intros b' [= <-].
    + assert (meta_path sid aid' <> meta_path sid aid) by (intros Hy; apply Hx; by apply meta_inj in Hy as [_ ?]).
      rewrite !(lookup_insert_ne _ _ (meta_path sid aid')) by done. rewrite (lookup_insert_ne _ _ (bin_path sid aid')) by by apply meta_bin.
      rewrite (lookup_insert_ne _ _ (bin_path sid aid')) by (apply not_eq_sym; auto). rewrite lookup_insert_ne by done.
      exact (rep_blobs _ _ Hr sid aid' Hs Ha').
  - intros aid'. destruct (decide (aid' = aid)) as [->|Hx]; [done|]. rewrite lookup_insert_ne by done. by apply (rep_ids _ _ Hr).
  - intros n. destruct (decide (attachments_dir sid ++ [n] = meta_path sid aid)) as [He|Hn1].
    { intros _ _. apply usable_dir_inj in He as [_ ->]; [|done..]. by exists aid. }
    rewrite lookup_insert_ne by done. intros Hn Hext. rewrite lookup_insert_ne in Hn; [by apply (rep_json _ _ Hr sid)|].
    intros [_ He]%usable_dir_inj; [|done..]. by eapply bin_ext.
Qed.

Lemma read_meta_spec p st a : read_attachment_meta p st = Ok a -> a = files st !! p ≫= parse_meta /\ (a = None -> files st !! p = None).
Proof.
  unfold read_attachment_meta, read, parse_meta. destruct (files st !! p) as [t|]; [|by intros [= <-]].
  destruct (io_read (now_env st) p); [done|]. cbn [mbind option_bind]. destruct (match read_text t with Parsed v => _ | _ => _ end); [|done]. by intros [= <-].
Qed.

Lemma get_law sid aid st m : represents st m -> usable sid -> utf8_ok aid = true -> kept_contract (GetAttachment sid aid) st m.
Proof.
  intros Hr Hs Ha. exists m. split; [|done]. cbn [fs_call fst]. unfold get_attachment.
  destruct (read_attachment_meta (meta_path sid aid) st) as [o|e] eqn:Ho; [|apply FailedBefore]. apply read_meta_spec in Ho as [Ho Hnone].
  pose proof (rep_blobs _ _ Hr sid aid Hs Ha) as Hb. unfold blob_file in Hb. destruct (files st !! meta_path sid aid) as [t|].
  - destruct Hb as (a & b & Hp & Hb & Hbin). cbn [mbind option_bind] in Ho. rewrite Hp in Ho. subst o. unfold read.
    destruct (files st !! bin_path sid aid) as [b'|]; [|apply FailedBefore]. destruct (io_read _ _); [apply FailedBefore|].
    rewrite (Hbin b' eq_refl). refine (Answered (GetAttachment sid aid) m _ _). cbn. by rewrite Hb.
  - subst o. cbn [mbind option_bind]. refine (Answered (GetAttachment sid aid) m _ _). cbn. by rewrite Hb.
Qed.

Lemma read_metas_spec dir names st l : read_metas dir names st = Ok l ->
  l = omap (λ n, if decide (extension n = Some "json") then files st !! (dir ++ [n]) ≫= parse_meta else None) names.
Proof.
  revert l. induction names as [|n names IH]; intros l; cbn [read_metas]; [by intros [= <-]|]. cbn [omap list_omap]. case_decide; [|apply IH].
  destruct (read_attachment_meta (dir ++ [n]) st) as [a|e] eqn:Ha; [|done]. apply read_meta_spec in Ha as [-> _].
  destruct (read_metas dir names st) as [l'|e]; [|done]. intros [= <-]. pose proof (IH l' eq_refl) as ->. by destruct (files st !! _ ≫= _).
Qed.

Lemma no_folder_no_blobs sid st m : represents st m -> usable sid -> folder st = false -> blobs sid m = ∅.
Proof.
  intros Hr Hs Hf. apply map_eq. intros aid. rewrite lookup_empty. destruct (blobs sid m !! aid) as [x|] eqn:Hx; [|done].
  destruct (rep_ids _ _ Hr sid aid Hs) as [Ha _]; [by eexists|]. pose proof (rep_blobs _ _ Hr sid aid Hs Ha) as Hb. unfold blob_file in Hb.
  destruct (files st !! meta_path sid aid) as [t|] eqn:Ht; [|congruence]. pose proof (rep_folder _ _ Hr Hf _ (mk_is_Some _ _ Ht)) as Hl.
  unfold meta_path in Hl. by rewrite usable_length in Hl.
Qed.

Lemma attachments_law sid st m : represents st m -> usable sid -> kept_contract (ListAttachments sid) st m.
Proof.
  intros Hr Hs. exists m. split; [|done]. cbn [fs_call fst]. unfold list_attachments. destruct (folder st) eqn:Hf; cbn [negb].
  2: { refine (Answered (ListAttachments sid) m _ _). cbn. unfold attachment_list. by rewrite (no_folder_no_blobs sid st m). }
  unfold read_dir. destruct (io_dir (now_env st)); [apply FailedBefore|]. set (names := io_order _ _).
  assert (names ≡ₚ dir_names (attachments_dir sid) (files st)) as Hn by apply (rep_world _ _ Hr).
  destruct (read_metas _ _ _) as [l|e] eqn:Hl; [|apply FailedBefore]. apply read_metas_spec in Hl.
  set (f := λ n, if decide (extension n = Some "json") then files st !! (attachments_dir sid ++ [n]) ≫= parse_meta else None) in Hl.
  refine (Answered (ListAttachments sid) m _ _). cbn [same_answer spec fst].
  assert (forall i a b, blobs sid m !! i = Some (a, b) -> f (encode_session_id i +:+ ".json") = Some a) as Hfi.
  { intros i a b Hi. destruct (rep_ids _ _ Hr sid i Hs) as [Ha Hne]; [by eexists|]. pose proof (rep_blobs _ _ Hr sid i Hs Ha) as Hb.
    unfold blob_file in Hb. rewrite Hi in Hb. unfold f. rewrite (extension_of _ "json"); [|by apply encode_nonempty|done].
    rewrite decide_True by done. fold (meta_path sid i). destruct (files st !! meta_path sid i) as [t|]; [|done].
    destruct Hb as (a' & b' & Hp & [= <- <-] & _). exact Hp. }
  assert (attachment_list sid m = omap f ((λ i, encode_session_id i +:+ ".json") <$> btree_keys (blobs sid m))) as ->.
  { unfold attachment_list, btree_values, btree_keys.
    assert (Forall (λ p, f (encode_session_id p.1 +:+ ".json") = Some p.2.1) (btree_iter (blobs sid m))) as Hall.
    { apply Forall_forall. intros [i [a b]] Hi%elem_of_btree_iter. by eapply Hfi. }
    induction Hall as [|[i x] q Hx Hq IH]; [done|]. simpl in *. rewrite Hx. f_equal. exact IH. }
  rewrite Hl. apply omap_keys.
  - rewrite Hn. apply NoDup_dir_names.
  - apply (NoDup_fmap_2_strong); [|apply NoDup_btree_keys]. intros i j _ _ He. apply (ext_inj _ _ "json" "json") in He as [He _]; [|done..].
    by apply encode_inj in He.
  - intros n [a Ha]. unfold f in Ha. case_decide as Hext; [|done]. destruct (files st !! (attachments_dir sid ++ [n])) as [t|] eqn:Ht; [|done].
    split; [rewrite Hn; apply elem_of_dir_names; by eexists|].
    destruct (rep_json _ _ Hr sid n Hs (mk_is_Some _ _ Ht) Hext) as (i & Hi & ->). apply list_elem_of_fmap. exists i. split; [done|].
    apply elem_of_btree_keys. pose proof (rep_blobs _ _ Hr sid i Hs Hi) as Hb. unfold blob_file, meta_path in Hb. rewrite Ht in Hb.
    destruct Hb as (? & ? & _ & -> & _). by eexists.
Qed.

Lemma same_folder f st : set_files f st = set_folder (folder st) (set_files f st).
Proof. reflexivity. Qed.

(** The blob of an attachment without metadata may go. *)
Lemma unlink_bin sid aid st m : represents st m -> usable sid -> utf8_ok aid = true -> aid <> "" -> files st !! meta_path sid aid = None ->
  represents (unlink (bin_path sid aid) st).2 m.
Proof.
  intros Hr Hs Ha Hne Hno. unfold unlink. destruct (files st !! bin_path sid aid); [|done]. destruct (io_unlink _ _); [done|]. cbn [snd].
  rewrite same_folder. apply (represents_aside sid st m (delete (bin_path sid aid) (files st)) (folder st)); try done.
  - intros p Hp. apply lookup_delete_ne. by apply inside.
  - intros Hf p [x [_ Hp]%lookup_delete_Some]. apply (rep_folder _ _ Hr Hf). by eexists.
  - intros aid' Ha'. rewrite lookup_delete_ne by (apply not_eq_sym; by apply meta_bin). split; [done|]. intros Hm. apply lookup_delete_ne.
    intros [_ <-]%bin_inj; [|done..]. rewrite Hno in Hm. by destruct Hm.
  - intros n [x [_ Hn]%lookup_delete_Some] _. by eexists.
Qed.

Lemma set_blobs_same sid b m : blobs sid m = b -> forall s, sess s m = sess s (set_blobs sid b m) /\ blobs s m = blobs s (set_blobs sid b m).
Proof. intros <- s. rewrite Views.sess_set_blobs, Views.blobs_set. by case_decide; subst. Qed.

Lemma delete_one_law sid aid st m : represents st m -> usable sid -> utf8_ok aid = true -> aid <> "" -> kept_contract (DeleteAttachment sid aid) st m.
Proof.
  intros Hr Hs Ha Hne. unfold kept_contract. cbn [fs_call]. unfold delete_attachment.
  pose proof (rep_blobs _ _ Hr sid aid Hs Ha) as Hb. unfold blob_file in Hb. unfold unlink at 1 3.
  assert (Hsp : spec (DeleteAttachment sid aid) m = (Ok (bool_decide (is_Some (blobs sid m !! aid))), set_blobs sid (delete aid (blobs sid m)) m)) by done.
  destruct (files st !! meta_path sid aid) as [t|] eqn:Ht.
  - destruct Hb as (a & b & _ & Hb & _). destruct (io_unlink _ _) as [e|]; [exists m; split; [apply FailedBefore|done]|].
    set (st1 := set_files _ st). assert (represents st1 (spec (DeleteAttachment sid aid) m).2) as Hr1.
    { rewrite Hsp. unfold st1. rewrite same_folder. cbn [snd]. apply (represents_blobs sid st m (delete (meta_path sid aid) (files st)) (folder st)); try done.
      - intros p Hp. apply lookup_delete_ne. by apply inside.
      - intros Hf p [x [_ Hp]%lookup_delete_Some]. apply (rep_folder _ _ Hr Hf). by eexists.
      - intros aid' Ha'. unfold blob_file. destruct (decide (aid' = aid)) as [->|Hx]; [by rewrite !lookup_delete_eq|].
        assert (meta_path sid aid <> meta_path sid aid') by (intros [_ Hy]%meta_inj; congruence).
        rewrite !lookup_delete_ne by (done || by apply meta_bin). by apply (rep_blobs _ _ Hr sid aid').
      - intros aid' [x [_ Hx]%lookup_delete_Some]. apply (rep_ids _ _ Hr sid); [done|by eexists].
      - intros n [x [_ Hn]%lookup_delete_Some] Hext. apply (rep_json _ _ Hr sid); [done|by eexists|done]. }
    assert (represents (unlink (bin_path sid aid) st1).2 (spec (DeleteAttachment sid aid) m).2) as Hr2.
    { apply unlink_bin; try done. cbn. by rewrite lookup_delete_eq. }
    exists (spec (DeleteAttachment sid aid) m).2. destruct (unlink _ st1) as [[x|e] st2]; cbn [fst snd] in *; (split; [|done]); [|apply FailedAfter].
    apply Answered. rewrite Hsp. cbn [fst same_answer]. by rewrite Hb, bool_decide_true by by eexists.
  - pose proof (unlink_bin sid aid st m Hr Hs Ha Hne Ht) as Hr1. destruct (unlink _ st) as [[x|e] st2]; cbn [fst snd] in *; [|exists m; split; [apply FailedBefore|done]].
    exists (spec (DeleteAttachment sid aid) m).2. split.
    + apply Answered. rewrite Hsp. cbn [fst same_answer]. rewrite Hb. done.
    + rewrite Hsp. cbn [snd]. eapply represents_ext; [|exact Hr1]. intros q. pose proof (set_blobs_same sid (delete aid (blobs sid m)) m) as Hq.
      rewrite delete_id in * by done. by destruct (Hq eq_refl q) as [-> ->].
Qed.

Lemma lookup_keep (P : Path * string -> Prop) `{forall q, Decision (P q)} (f : Files) p t : filter P f !! p = Some t <-> f !! p = Some t /\ P (p, t).
Proof. apply map_lookup_filter_Some. Qed.

Lemma in_dir sid n : usable sid -> under (attachments_dir sid) (attachments_dir sid ++ [n]) = true.
Proof. intros _. apply under_spec. by eexists. Qed.

Lemma remove_dir_law sid st m : represents st m -> usable sid -> kept_contract (DeleteAttachments sid) st m.
Proof.
  intros Hr Hs. unfold kept_contract. cbn [fs_call]. unfold delete_attachments. destruct (folder st) eqn:Hf; cycle 1.
  { exists (spec (DeleteAttachments sid) m).2. split; [by apply Answered|]. cbn [spec snd]. eapply represents_ext; [|exact Hr]. intros q.
    by destruct (set_blobs_same sid ∅ m (no_folder_no_blobs sid st m Hr Hs Hf) q) as [-> ->]. }
  unfold remove_dir_all. destruct (io_remove (now_env st)) as [|e kept]; cbn [fst snd].
  - exists (spec (DeleteAttachments sid) m).2. split; [by apply Answered|]. cbn [spec snd].
    assert (under (attachments_dir sid) ["attachments"] = false) as -> by (apply under_false; intros r; by rewrite usable_dir).
    rewrite Hf. cbn [andb negb].
    assert (forall n, filter (λ q : Path * string, under (attachments_dir sid) q.1 = false) (files st) !! (attachments_dir sid ++ [n]) = None) as Hno.
    { intros n. apply map_lookup_filter_None. right. intros x _. cbn. by rewrite in_dir. }
    apply represents_blobs; try done.
    + intros p Hp. apply option_eq. intros t. rewrite lookup_keep. naive_solver.
    + intros aid Ha. unfold blob_file, meta_path. by rewrite Hno.
    + intros aid. rewrite lookup_empty. by intros [].
    + intros n. rewrite Hno. by intros [].
  - set (f := filter _ (files st)). set (b := filter (λ x : string * (AttachmentMeta * string), is_Some (f !! meta_path sid x.1)) (blobs sid m)).
    exists (set_blobs sid b m). split; [apply FailedPartly; exists b; split; [apply map_filter_subseteq|done]|].
    assert (forall p t, f !! p = Some t -> files st !! p = Some t) as Hsub by (intros p t Hp; by apply lookup_keep in Hp as [? _]).
    rewrite same_folder. apply (represents_blobs sid st m f (folder st)); try done.
    + intros p Hp. apply option_eq. intros t. unfold f. rewrite lookup_keep. cbn. rewrite Hp. naive_solver.
    + intros Hf0. congruence.
    + intros aid Ha. pose proof (rep_blobs _ _ Hr sid aid Hs Ha) as Hb. unfold blob_file in *. destruct (f !! meta_path sid aid) as [t|] eqn:Ht.
      * rewrite (Hsub _ _ Ht) in Hb. destruct Hb as (a & x & Hp & Hb & Hbin). exists a, x. split_and!; [done| |intros b' Hb'; by apply Hbin, Hsub].
        apply map_lookup_filter_Some. split; [done|]. cbn. by eexists.
      * apply map_lookup_filter_None. right. intros x _. cbn. rewrite Ht. by intros [].
    + intros aid [x [Hx _]%map_lookup_filter_Some]. apply (rep_ids _ _ Hr sid); [done|by eexists].
    + intros n [t Ht] Hext. apply (rep_json _ _ Hr sid); [done|eexists; by apply Hsub|done].
Qed.

(** *** All of them *)

Lemma call_law {A} (op : Op A) st m : represents st m -> fs_admits A op m -> kept_contract op st m.
Proof.
  intros Hr Ha. destruct op; cbn [fs_admits] in Ha.
  - by apply (reading_law sid meta).
  - by apply (appending_law (session_id m0) (RMeta m0)).
  - by apply (rewriting_law sid clear_meta).
  - by apply list_law.
  - by apply (reading_law sid (λ s, entries s !! eid)).
  - by apply (appending_law sid (REntry e)).
  - by apply commit_law.
  - by apply (reading_law sid (λ s, btree_values (entries s))).
  - by apply (rewriting_law sid clear_entries).
  - by apply (reading_law sid leaf).
  - by apply (appending_law sid (RLeaf (Some eid))).
  - by apply (rewriting_law sid clear_leaf).
  - by apply put_law.
  - destruct Ha. by apply get_law.
  - by apply attachments_law.
  - destruct Ha as (? & ? & ?). by apply delete_one_law.
  - by apply remove_dir_law.
Qed.

#[export] Instance fs_laws : StoreLaws FsStore represents fs_admits.
Proof.
  split. intros A op st m Hr Ha. destruct (call_law op st m Hr Ha) as (m' & Ho & Hr'). exists m'. cbn [perform fs_store].
  destruct (fs_call op st) as [r st']. cbn [fst snd] in *. split; [done|by apply represents_tick].
Qed.

(** A new store in an empty directory. *)
Lemma represents_new w : (forall n, env_ok (w n)) -> represents (open_store ∅ false w) empty_model.
Proof.
  intros Hw. split; cbn [open_store files cache folder world]; try done.
  - intros n. rewrite lookup_empty. by intros [].
  - intros sid. unfold sess. cbn [sessions empty_model]. rewrite lookup_empty. by intros [].
  - intros _ p. rewrite lookup_empty. by intros [].
  - intros sid aid _. unfold blobs. cbn [attachments empty_model]. rewrite lookup_empty. cbn. rewrite lookup_empty. by intros [].
  - intros sid n _. rewrite lookup_empty. by intros [].
Qed.

Lemma quiet_ok : env_ok quiet.
Proof. by intros l. Qed.

End Rules.
End FsRules.

(** ** Properties *)

Module FsProperties.
Import Log FileNames ModelStore FsStore NameRules FsRules TypeRules Prog Service.

(** C37: the name of a session's file gives the session back, has no separator or other special
    character in it, and is the name of no other session. *)
Theorem session_names_roundtrip s : utf8_ok s = true ->
  decode_session_id (encode_session_id s) = Some s /\ all_chars name_char (encode_session_id s) = true /\
  forall t, encode_session_id t = encode_session_id s -> t = s.
Proof.
  intros Hs. unfold decode_session_id. rewrite decode_encoded. cbn [mbind option_bind]. rewrite Hs.
  split_and!; [done|apply encode_chars|]. intros t. apply encode_inj.
Qed.

Lemma session_names_roundtrip_witness : encode_session_id "a/b" = "a%2Fb" /\ decode_session_id (encode_session_id "a/b") = Some "a/b".
Proof. split; [reflexivity|]. apply (session_names_roundtrip "a/b"). reflexivity. Defined.

(** C11: whatever the file system does, a call of the file store that it admits is answered as the
    contract says, or fails with nothing, everything or a part done, and the files go on standing
    for the model.  A part is done where the contract allows it: the removal of a folder may leave
    some of the attachments, and an attachment that is stored over another of its id may leave the
    new bytes under the old metadata.  Admitted is every call with identifiers that are text, the
    calls on attachments for a session whose name is not empty, one dot or two dots (those have no folder
    of their own), and an attachment whose id is not empty. *)
Theorem file_store_keeps_contract `{SerdeFileLaws} A (op : Op A) st m : represents st m -> fs_admits A op m ->
  exists m', outcome op m (perform op st).1 m' /\ represents (perform op st).2 m'.
Proof. intros Hr Ha. by apply (law_perform A op st m Hr Ha). Qed.

Lemma file_store_keeps_contract_witness :
  let _ := SampleFile.text in let st := open_store ∅ false (λ _, quiet) in
  utf8_ok "s" = true /\ exists m', outcome (DeleteMeta "s") empty_model (perform (DeleteMeta "s") st).1 m' /\ represents (perform (DeleteMeta "s") st).2 m'.
Proof.
  intros txt st. split; [reflexivity|]. unshelve eapply (@file_store_keeps_contract txt SampleFile.laws unit (DeleteMeta "s") st empty_model).
  - apply (@represents_new txt). intros _. apply quiet_ok.
  - reflexivity.
Defined.

(** The programs that only touch one session's file. *)
Fixpoint one_file {A} (sid : string) (p : Prog A) : Prop :=
  match p with
  | Done _ => True
  | Do op k => match op with
               | GetMeta s | GetEntry s _ | GetActiveLeaf s | ListEntries s | PutEntry s _ | CommitAppend s _ _ | SetActiveLeaf s _ => s = sid
               | _ => False
               end /\ forall r, one_file sid (k r)
  | Now k => forall t, one_file sid (k t)
  | NewId _ k => forall i, one_file sid (k i)
  end.

Lemma one_file_admitted {A} `{SerdeFileLaws} sid o (p : Prog A) m n : utf8_ok sid = true -> one_file sid p -> ModelStore.admitted fs_admits o p m n.
Proof.
  intros Hu. revert m n. induction p as [r|B op k IH|k IH|kd k IH]; intros m n; cbn [one_file ModelStore.admitted]; [done| |auto|auto].
  intros [Hop Hk]. split; [|auto]. destruct op; try done; by subst.
Qed.

Lemma append_one_file req w : one_file (ap_session req) (append req w).
Proof.
  unfold append, meta_or_not_found, call. cbn [one_file]. split; [done|]. intros [[m|]|e]; [|done..].
  assert (forall body, one_file (ap_session req) (append_body req w body)) as Hb.
  { intros body. assert (forall e, one_file (ap_session req) (commit_entry req w e)) as Hc.
    { intros e. unfold commit_entry, call. cbn [one_file]. split; [done|]. intros [c|x]; [|done]. by destruct (_ || _). }
    assert (one_file (ap_session req) (resolve_parent (ap_session req) (ap_parent req) (λ p, fresh_id (ap_entry req) (λ i, Now (λ now,
      commit_entry req w (new_entry body i p now (ap_origin req))))))) as Hn.
    { unfold resolve_parent, fresh_id, call. destruct (ap_parent req), (ap_entry req); cbn [one_file]; (split; [done|]); intros [[?|]|?]; cbn [one_file throw]; auto. }
    unfold append_body, named_entry, call. destruct (ap_entry req); cbn [bind one_file ret]; [|exact Hn]. split; [done|].
    intros [[e|]|x]; cbn [bind one_file ret throw]; auto. }
  by destruct (ap_message req), (ap_custom req).
Qed.

(** An append over the file store answers as one over the contract does, whatever fails, and
    leaves files that stand for what the contract leaves. *)
Theorem append_over_files `{SerdeFileLaws} o req w st m n : represents st m -> utf8_ok (ap_session req) = true ->
  exists f, ModelStore.orders_ok f /\
    let '(r, s, n1) := exec o (append req w) (ModelStore.mk_modelled (f := f) m 0) n in
    (exec o (append req w) st n).1.1 = r /\ represents (exec o (append req w) st n).1.2 (ModelStore.model s) /\ (exec o (append req w) st n).2 = n1.
Proof.
  intros Hr Hu. apply ModelStore.lawful_stores_simulate; [done|]. apply (one_file_admitted (ap_session req)); [done|]. apply append_one_file.
Qed.

Definition sample_append : AppendRequest := mk_append "s" None (Some (mk_custom "note" Null)) None None None.

Lemma append_over_files_witness : let _ := SampleFile.text in let st := open_store ∅ false (λ _, quiet) in
  let o := {| Prog.clock _ := 0%Z; new_id _ _ := "i" |} in
  exists f, ModelStore.orders_ok f /\
    let '(r, s, n1) := exec o (append sample_append true) (ModelStore.mk_modelled (f := f) empty_model 0) 0 in
    (exec o (append sample_append true) st 0).1.1 = r /\ represents (exec o (append sample_append true) st 0).1.2 (ModelStore.model s) /\
    (exec o (append sample_append true) st 0).2 = n1.
Proof.
  intros txt st o. unshelve eapply (@append_over_files txt SampleFile.laws o sample_append true st empty_model 0).
  - apply (@represents_new txt). intros _. apply quiet_ok.
  - reflexivity.
Defined.

Lemma rewriting_quiet `{SerdeFile} sid g st s : cache st !! sid = Some s -> now_env st = quiet ->
  rewriting sid (λ io, mutate_snapshot io g) st =
  (Ok tt, set_cache (<[sid := g s]> (cache st)) (set_files (write_file (file_path sid) (snapshot_text (g s)) (files st)) st)).
Proof. intros Hc Hq. unfold rewriting, on_open, load. by rewrite Hc, Hq. Qed.

Lemma read_cached `{SerdeFile} {T} sid (g : LoadedSession -> T) st s : cache st !! sid = Some s -> with_loaded sid g st = (Ok (g s), st).
Proof. intros Hc. unfold with_loaded, load. by rewrite Hc. Qed.

(** C35: let a session named with two dots be loaded and have metadata, let the folder of attachments
    be there (some attachment was stored before), and let no operation of the file system fail: the
    deletion of that session removes every file under the data directory, those of all other
    sessions among them, and answers that the session was deleted. *)
Theorem dotdot_session_deletes_the_store `{SerdeFile} o st n s m : cache st !! ".." = Some s -> meta s = Some m -> folder st = true ->
  (forall k, world st k = quiet) ->
  exists evs, (exec o (delete_session "..") st n).1.1 = Ok (true, evs) /\ files (exec o (delete_session "..") st n).1.2 = ∅.
Proof.
  intros Hc Hm Hf Hw. unfold delete_session, call. cbn [exec perform fs_store fs_call].
  rewrite (read_cached _ _ _ s), Hm by done. cbn [exec perform fs_store fs_call].
  unfold delete_entries. rewrite (rewriting_quiet ".." clear_entries _ s) by (done || apply Hw). cbn [exec perform fs_store fs_call].
  unfold delete_active_leaf. rewrite (rewriting_quiet ".." clear_leaf _ (clear_entries s)); [|by apply lookup_insert_eq|apply Hw]. cbn [exec perform fs_store fs_call].
  unfold delete_attachments at 1 2, remove_dir_all. cbn [folder tick set_cache set_files]. rewrite Hf.
  assert (forall q, world q = world st -> io_remove (now_env q) = RemoveOk) as Hrm by (intros q Hq; unfold now_env; rewrite Hq; by rewrite Hw).
  rewrite !Hrm by done. cbn [exec perform fs_store fs_call].
  unfold delete_meta. rewrite (rewriting_quiet ".." clear_meta _ (clear_leaf (clear_entries s))); [|by apply lookup_insert_eq|apply Hw]. cbn [exec perform fs_store fs_call fst snd].
  eexists. split; [done|]. cbn [files tick set_cache set_files set_folder].
  assert (snapshot_text (clear_meta (clear_leaf (clear_entries s))) = None) as -> by done. cbn [write_file].
  apply map_eq. intros p. rewrite lookup_empty. apply lookup_delete_None. right. apply map_lookup_filter_None. right. intros x _. cbn. by destruct p.
Qed.

Lemma dotdot_session_deletes_the_store_witness : let _ := SampleFile.text in
  let m := new_meta ".." None None None None 0 in let s := mk_loaded (Some m) ∅ None ∅ false in
  let st := mk_fs {[ file_path "other" := "{}" ]} true {[ ".." := s ]} (λ _, quiet) 0 in
  let o := {| Prog.clock _ := 0%Z; new_id _ _ := "i" |} in
  is_Some (files st !! file_path "other") /\
  exists evs, (exec o (delete_session "..") st 0).1.1 = Ok (true, evs) /\ files (exec o (delete_session "..") st 0).1.2 = ∅.
Proof.
  intros txt m s st o. split; [by eexists|]. by apply (@dotdot_session_deletes_the_store txt o st 0 s m).
Defined.

End FsProperties.
