(* ===== verification/SessionTree.v ===== *)
(** * Transcripts are trees (session-manager/src/service.rs)

    Module [Transcript] is the invariant of a session nobody is working on: every entry is
    stored under its id and leads to a root over its parents, the active leaf is stored, the
    metadata is the session's.  Every handler leaves it as it found it, whatever the store
    fails, except that a deletion must be answered.  [active_path] of such a session ends, and
    gives the chain from the root to the leaf. *)

From Stdlib Require Import Ascii ZArith Lia.
From stdpp Require Import relations.
From S2P Require Import Prelude Json Codec JsonText SessionTypes SessionLog SessionLife SessionStore SessionEvents SessionService SessionRead SessionRun.
Import Types Contract Prog.

Module Transcript.
Import Log.

Inductive rooted (es : gmap string SessionEntry) : string -> Prop :=
| rooted_root i e : es !! i = Some e -> parent_id e = None -> rooted es i
| rooted_child i e p : es !! i = Some e -> parent_id e = Some p -> rooted es p -> rooted es i.

Record tree (sid : string) (s : LoadedSession) : Prop := {
  tree_keys : forall i e, entries s !! i = Some e -> id e = i;
  tree_rooted : forall i, is_Some (entries s !! i) -> rooted (entries s) i;
  tree_leaf : forall i, leaf s = Some i -> is_Some (entries s !! i);
  tree_meta : forall m, meta s = Some m -> session_id m = sid;
}.

Lemma rooted_stored es i : rooted es i -> is_Some (es !! i).
Proof. by destruct 1 as [i e He|i e p He]; rewrite He. Qed.

Lemma rooted_mono es es' i : rooted es i ->
  (forall j e, es !! j = Some e -> exists e', es' !! j = Some e' /\ parent_id e' = parent_id e) -> rooted es' i.
Proof.
  intros Hr Hm. induction Hr as [i e He Hp|i e p He Hp Hr IH]; destruct (Hm i e He) as (e' & He' & Hp'); rewrite Hp in Hp'.
  - by eapply rooted_root.
  - by eapply rooted_child.
Qed.

Lemma tree_empty sid : tree sid empty_session.
Proof. split; cbn; [intros i e|intros i|done|done]; rewrite lookup_empty; [done|by intros [? ?]]. Qed.

(** A change that keeps entries, leaf and name of the session. *)
Lemma tree_same sid s s' : tree sid s -> entries s' = entries s -> leaf s' = leaf s ->
  (forall m, meta s' = Some m -> session_id m = sid) -> tree sid s'.
Proof. intros [] He Hl Hm. split; rewrite ?He, ?Hl; auto. Qed.

Lemma tree_meta_record sid s m : tree sid s -> session_id m = sid -> tree sid (apply (RMeta m) s).
Proof.
  intros Ht Hm. destruct (LifeRules.apply_meta_unfold m s) as (H1 & H2 & H3).
  apply (tree_same sid s); [done..|]. rewrite H1. by intros ? [= <-].
Qed.

Lemma tree_leaf_record sid s i : tree sid s -> is_Some (entries s !! i) -> tree sid (apply (RLeaf (Some i)) s).
Proof. intros [] Hi. split; cbn; [auto..| |auto]. by intros ? [= <-]. Qed.

(** What may be put: an entry that is there, with its parent, or a new one whose parent is there. *)
Definition puttable (e : SessionEntry) (s : LoadedSession) : Prop :=
  match entries s !! id e with
  | Some e0 => parent_id e = parent_id e0
  | None => match parent_id e with Some p => is_Some (entries s !! p) | None => True end
  end.

Lemma tree_insert sid s e : tree sid s -> puttable e s ->
  tree sid (mk_loaded (meta s) (<[id e := e]> (entries s)) (leaf s) (committed s) (pending_legacy_append s)).
Proof.
  intros [Hk Hr Hl Hm] Hp.
  assert (forall j x, entries s !! j = Some x -> exists x', <[id e := e]> (entries s) !! j = Some x' /\ parent_id x' = parent_id x) as Hmono.
  { intros j x Hj. destruct (decide (id e = j)) as [<-|Hne]; [|exists x; by rewrite lookup_insert_ne].
    exists e. rewrite lookup_insert_eq. split; [done|]. unfold puttable in Hp. by rewrite Hj in Hp. }
  split; cbn [entries leaf meta]; [| | |done].
  - intros i x. rewrite lookup_insert. case_decide; [by intros [= <-]|auto].
  - intros i. rewrite lookup_insert. case_decide as Hi.
    + intros _. subst i. unfold puttable in Hp. destruct (entries s !! id e) as [e0|] eqn:He0.
      { eapply rooted_mono; [apply Hr; by rewrite He0|exact Hmono]. }
      destruct (parent_id e) as [p|] eqn:Hpe; [|eapply rooted_root; [by rewrite lookup_insert_eq|done]].
      eapply rooted_child; [by rewrite lookup_insert_eq|done|]. eapply rooted_mono; [by apply Hr|exact Hmono].
    + intros Hi'. eapply rooted_mono; [by apply Hr|exact Hmono].
  - intros i Hi. destruct (Hl i Hi) as [x Hx]. destruct (Hmono i x Hx) as (x' & -> & _). by eexists.
Qed.

Lemma resolve_puttable sid s sid' e x e' : tree sid s -> resolve_entry sid' e x s = Ok e' -> puttable e' s.
Proof.
  intros [Hk Hr Hl Hm]. unfold resolve_entry, puttable. destruct (entries s !! id e) as [e0|] eqn:He.
  { intros [= <-]. by rewrite (Hk _ _ He), He. }
  destruct x.
  - destruct (parent_id e) as [p|] eqn:Hp; [destruct (entries s !! p) eqn:Hes; [|done]|]; intros [= <-]; rewrite He, Hp; by rewrite ?Hes.
  - intros [= <-]. assert (id (with_parent e (leaf s)) = id e) as -> by by destruct e. rewrite He.
    assert (parent_id (with_parent e (leaf s)) = leaf s) as -> by by destruct e. destruct (leaf s) eqn:Hlf; [auto|done].
Qed.

Lemma tree_append sid s sid' e x e' m' : tree sid s -> decide_append sid' e x s = Ok (inr (e', m')) -> tree sid (apply (RAppend e' m') s).
Proof.
  intros Ht Hd. apply LifeRules.decide_append_inr in Hd as (_ & Hr & m & Hm & ->).
  pose proof (tree_insert sid s e' Ht (resolve_puttable sid s sid' e x e' Ht Hr)) as [Hk' Hr' Hl' _]. cbn in *.
  split; cbn; [done..| |].
  - intros i [= <-]. by rewrite lookup_insert_eq.
  - intros ? [= <-]. cbn. by apply (tree_meta sid s).
Qed.

End Transcript.

(** ** The active path *)

Module ActivePath.
Import Log Transcript Service.

Definition keyed (m : gmap string SessionEntry) : Prop := forall i e, m !! i = Some e -> id e = i.

(** The entries from a cursor up to the root. *)
Fixpoint chain (m : gmap string SessionEntry) (cursor : option string) (up : list SessionEntry) : Prop :=
  match up, cursor with
  | [], None => True
  | e :: up', Some i => m !! i = Some e /\ chain m (parent_id e) up'
  | _, _ => False
  end.

Lemma by_id_keyed es : keyed (by_id es).
Proof.
  unfold by_id. assert (keyed (∅ : gmap string SessionEntry)) as Hk by (intros i e; by rewrite lookup_empty). revert Hk.
  generalize (∅ : gmap string SessionEntry). induction es as [|e es IH]; intros m Hk; [done|]. apply IH.
  intros i x. rewrite lookup_insert. case_decide; [by intros [= <-]|apply Hk].
Qed.

(** [by_id] of the listing of a session is its entries. *)
Lemma by_id_values m : keyed m -> by_id (btree_values m) = m.
Proof.
  intros Hk. apply LifeRules.insert_all_keyed; [exact Hk|intros i e; by rewrite lookup_empty| |].
  - intros e [i Hi]%elem_of_btree_values. by rewrite (Hk i e Hi).
  - intros i e Hi. left. apply elem_of_btree_values. by exists i.
Qed.

Lemma chain_unique m c up up' : chain m c up -> chain m c up' -> up = up'.
Proof.
  revert c up'. induction up as [|e up IH]; intros [i|] [|e' up']; cbn; try done. intros [H1 H2] [H1' H2']. simplify_eq. f_equal. eauto.
Qed.

Lemma chain_at m c up1 e up2 : keyed m -> chain m c (up1 ++ e :: up2) -> chain m (Some (id e)) (e :: up2).
Proof.
  intros Hk. revert c. induction up1 as [|x up1 IH]; intros [i|]; cbn; try done.
  - intros [Hi Hc]. by rewrite (Hk i e Hi).
  - intros [_ Hc]. by apply (IH (parent_id x)).
Qed.

Lemma chain_lookup m c up e : keyed m -> chain m c up -> e ∈ up -> m !! id e = Some e.
Proof. intros Hk Hc (up1 & up2 & ->)%list_elem_of_split. by apply chain_at in Hc as [? _]. Qed.

(** No entry is above itself. *)
Lemma chain_NoDup m c up : keyed m -> chain m c up -> NoDup (id <$> up).
Proof.
  intros Hk. revert c. induction up as [|e up IH]; intros c Hc; [constructor|].
  destruct c as [i|]; [|done]. pose proof Hc as [Hi Hc']. cbn. constructor; [|by apply (IH (parent_id e))].
  intros (x & Hx & Hin)%list_elem_of_fmap. apply list_elem_of_split in Hin as (up1 & up2 & ->).
  pose proof (chain_at m _ up1 x up2 Hk Hc') as Hx'. rewrite <-Hx, (Hk i e Hi) in Hx'.
  pose proof (chain_unique m _ _ _ Hc Hx') as [= _ Hl]. apply (f_equal length) in Hl. rewrite length_app in Hl. cbn in Hl. lia.
Qed.

Lemma rooted_chain m i : rooted m i -> exists up, chain m (Some i) up.
Proof.
  induction 1 as [i e He Hp|i e p He Hp _ (up & Hup)]; [exists [e]|exists (e :: up)]; cbn; by rewrite ?Hp.
Qed.

Lemma chain_size m c up : keyed m -> chain m c up -> length up <= size m.
Proof.
  intros Hk Hc. pose proof (chain_NoDup m c up Hk Hc) as Hnd. rewrite <-(length_fmap id up), <-size_dom, <-(size_list_to_set (C := gset string)) by done.
  apply subseteq_size. intros i. rewrite elem_of_list_to_set, elem_of_dom. intros (e & -> & He)%list_elem_of_fmap.
  by rewrite (chain_lookup m c up e).
Qed.

(** The loop walks a chain to its end. *)
Lemma walk_chain m c up n visited path : keyed m -> chain m c up -> NoDup (id <$> up) -> length up < n ->
  (forall e, e ∈ up -> id e ∉ visited) -> walk_up n m c visited path = Ok (path ++ up).
Proof.
  intros Hk. revert c n visited path. induction up as [|e up IH]; intros [i|] n visited path; cbn [chain]; try done.
  - intros _ _ _ _. rewrite app_nil_r. by destruct n.
  - intros [Hi Hc] [Hnew Hnd]%NoDup_cons Hn Hv. destruct n as [|n]; [cbn in Hn; lia|]. cbn [walk_up]. rewrite Hi, decide_False by (apply Hv; by left).
    rewrite (IH (parent_id e)); [by rewrite <-app_assoc|done|done|cbn in Hn; lia|].
    intros x Hx. apply not_elem_of_union. split; [|apply Hv; by right]. rewrite elem_of_singleton. intros Heq. apply Hnew.
    apply list_elem_of_fmap. by exists x.
Qed.

(** The loop returns only what it walked, and never runs out of rounds. *)
Lemma walk_result m c n visited path : keyed m -> size (dom m ∖ visited) < n ->
  match walk_up n m c visited path with
  | Ok r => exists up, r = path ++ up /\ chain m c up
  | Err e => exists i, e = Storage ("path references missing entry " +:+ i) \/ e = Storage ("parent chain contains a cycle at entry " +:+ i)
  end.
Proof.
  intros Hk. revert c visited path. induction n as [|n IH]; intros [i|] visited path Hn; cbn [walk_up]; try lia.
  - destruct (m !! i) as [e|] eqn:Hi; [|eauto]. case_decide as Hv; [eauto|].
    assert (id e ∈ dom m ∖ visited) as Hin by (rewrite elem_of_difference, elem_of_dom, (Hk i e Hi), Hi; split; [by eexists|by rewrite <-(Hk i e Hi)]).
    assert (size (dom m ∖ ({[ id e ]} ∪ visited)) < size (dom m ∖ visited)) as Hlt by (apply subset_size; set_solver).
    specialize (IH (parent_id e) ({[ id e ]} ∪ visited) (path ++ [e]) ltac:(lia)).
    destruct (walk_up n m (parent_id e) ({[ id e ]} ∪ visited) (path ++ [e])) as [r|]; [|done].
    destruct IH as (up & -> & Hup). exists (e :: up). by rewrite <-app_assoc.
  - exists []. by rewrite app_nil_r.
Qed.

Lemma active_path_chain m i path : keyed m -> active_path m i = Ok path <-> chain m (Some i) (rev path).
Proof.
  intros Hk. unfold active_path. split.
  - pose proof (walk_result m (Some i) (S (size m)) ∅ [] Hk) as Hw. rewrite difference_empty_L, size_dom in Hw. specialize (Hw ltac:(lia)).
    destruct (walk_up _ _ _ _ _) as [r|]; [|done]. destruct Hw as (up & -> & Hup). intros [= <-]. by rewrite rev_involutive.
  - intros Hc. rewrite (walk_chain m (Some i) (rev path)); [cbn; by rewrite rev_involutive|done|done|by eapply chain_NoDup| |set_solver].
    pose proof (chain_size m _ _ Hk Hc). lia.
Qed.

Lemma active_path_rooted m i : keyed m -> rooted m i -> exists path, active_path m i = Ok path.
Proof. intros Hk (up & Hup)%rooted_chain. exists (rev up). apply active_path_chain; [done|]. by rewrite rev_involutive. Qed.

(** *** From the root down *)

(** Every entry is new and below one that came before it. *)
Fixpoint topdown (known : gset string) (es : list SessionEntry) : Prop :=
  match es with
  | [] => True
  | e :: es' => id e ∉ known /\ from_option (λ p, p ∈ known) True (parent_id e) /\ topdown ({[ id e ]} ∪ known) es'
  end.

Definition ids_of (es : list SessionEntry) : gset string := list_to_set (id <$> es).

Lemma topdown_app known a b : topdown known (a ++ b) <-> topdown known a /\ topdown (ids_of a ∪ known) b.
Proof.
  revert known. induction a as [|e a IH]; intros known; cbn [topdown app].
  - assert (ids_of [] ∪ known = known) as -> by (unfold ids_of; set_solver). naive_solver.
  - rewrite IH. assert (ids_of a ∪ ({[ id e ]} ∪ known) = ids_of (e :: a) ∪ known) as -> by (unfold ids_of; cbn; set_solver). naive_solver.
Qed.

Lemma chain_topdown m c up : keyed m -> chain m c up -> topdown ∅ (rev up).
Proof.
  intros Hk. revert c. induction up as [|e up IH]; intros c Hc; [done|]. destruct c as [i|]; [|done].
  pose proof (chain_NoDup m _ _ Hk Hc) as [Hnew _]%NoDup_cons. destruct Hc as [Hi Hc]. cbn [rev]. apply topdown_app. split; [by eapply IH|].
  assert (forall j, j ∈ ids_of (rev up) ∪ ∅ <-> j ∈ id <$> up) as Hj.
  { intros j. rewrite union_empty_r_L. unfold ids_of. rewrite elem_of_list_to_set, !list_elem_of_fmap.
    by setoid_rewrite list_elem_of_In; setoid_rewrite <-in_rev. }
  cbn. rewrite Hj. split_and!; [done| |done]. destruct (parent_id e) as [p|] eqn:Hp; [|done]. cbn. rewrite Hj.
  destruct up as [|x up]; [done|]. destruct Hc as [Hx _]. apply list_elem_of_fmap. exists x. split; [by rewrite (Hk p x)|by left].
Qed.

(** *** Copies under fresh ids *)

Definition image (ids : gmap string string) (known : gset string) : gset string := list_to_set (omap (ids !!.) (elements known)).

Lemma elem_of_image ids known n : n ∈ image ids known <-> exists k, k ∈ known /\ ids !! k = Some n.
Proof. unfold image. rewrite elem_of_list_to_set, list_elem_of_omap. by setoid_rewrite elem_of_elements. Qed.

Definition injective (ids : gmap string string) : Prop := forall i j n, ids !! i = Some n -> ids !! j = Some n -> i = j.

Lemma copies_topdown ids known path : injective ids -> topdown known path ->
  (forall k, k ∈ known -> is_Some (ids !! k)) -> (forall e, e ∈ path -> is_Some (ids !! id e)) ->
  exists copies, mapM (copy_entry ids) path = Some copies /\ topdown (image ids known) copies.
Proof.
  intros Hinj. revert known. induction path as [|e path IH]; intros known Ht Hk He; [by exists []|].
  destruct Ht as (Hnew & Hp & Ht). destruct (He e ltac:(by left)) as [n Hn].
  destruct (IH ({[ id e ]} ∪ known)) as (copies & Hc & Htc); [done| |intros x Hx; apply He; by right|].
  { intros k [->%elem_of_singleton|]%elem_of_union; [by eexists|auto]. }
  assert (exists c, copy_entry ids e = Some c /\ id c = n /\ from_option (λ p, p ∈ image ids known) True (parent_id c)) as (c & Hce & Hid & Hpc).
  { unfold copy_entry. rewrite Hn. cbn [mbind option_bind]. destruct (parent_id e) as [q|].
    - destruct (Hk q Hp) as [nq Hq]. rewrite Hq. cbn [fmap option_fmap option_map mbind option_bind].
      eexists. split; [done|]. destruct e; cbn; (split; [done|]); apply elem_of_image; by exists q.
    - eexists. split; [done|]. by destruct e. }
  exists (c :: copies). cbn [mapM mbind option_bind mret option_ret]. rewrite Hce. cbn. rewrite Hc. cbn. split; [done|]. rewrite Hid. split_and!.
  - intros (k & Hkk & Hkn)%elem_of_image. rewrite (Hinj _ _ _ Hkn Hn) in Hkk. done.
  - done.
  - assert ({[ n ]} ∪ image ids known = image ids ({[ id e ]} ∪ known)) as ->; [|done].
    apply set_eq. intros x. rewrite elem_of_union, !elem_of_image, elem_of_singleton. split.
    + intros [->|(k & ? & ?)]; [exists (id e)|exists k]; set_solver.
    + intros (k & [->%elem_of_singleton|?]%elem_of_union & ?); [left; congruence|right; eauto].
Qed.

End ActivePath.

(** ** Handlers *)

Module TreeRules.
Import Log Run Views SystemRules Transcript Service Events.
Local Open Scope prog_scope.

Definition tree_inv : Invariant := λ sid s _, tree sid s.

Definition trees (o : gset string) (l : Model) : Prop := holds_in tree_inv o l.

(** What an operation must find so that the session stays a tree. *)
Definition safe {A} (op : Op A) (l : Model) : Prop :=
  match op with
  | PutEntry s e => puttable e (sess s l)
  | SetActiveLeaf s i => is_Some (entries (sess s l) !! i)
  | DeleteEntries s => leaf (sess s l) = None
  | _ => True
  end.

Lemma spec_tree {A} (op : Op A) s l : target op = Some s -> safe op l -> tree s (sess s l) -> tree s (sess s (spec op l).2).
Proof.
  intros Ht Hs Htr. destruct op; cbn [target] in Ht; simplify_eq/=; try done; rewrite ?sess_change, ?sess_set_blobs, ?decide_True by done; try done.
  - by apply tree_meta_record.
  - eapply tree_same; [done..|]. cbn. done.
  - by apply tree_insert.
  - destruct (decide_append s e parent_explicit (sess s l)) as [[?|[e' m']]|?] eqn:Hd; try done. cbn [snd].
    rewrite sess_change, decide_True by done. by eapply tree_append.
  - destruct Htr as [_ _ _ Hm]. split; cbn; [intros i e|intros i|by rewrite Hs|done]; rewrite lookup_empty; [done|by intros [? ?]].
  - by apply tree_leaf_record.
  - destruct Htr. split; cbn; auto. done.
Qed.

Lemma trees_spec {A} (op : Op A) s o l : target op = Some s -> safe op l -> trees o l -> trees o (spec op l).2.
Proof.
  intros Ht Hs Htr t Hin. unfold tree_inv. destruct (decide (t = s)) as [->|Hne]; [by apply spec_tree, Htr|].
  destruct (spec_frame op t l) as [-> _]; [rewrite Ht; set_solver|]. by apply Htr.
Qed.

(** Whatever the handler ended with: it did not panic, and its sessions are trees. *)
Definition leaves_trees {A} (r : result A Stop) (o : gset string) (l : Model) : Prop := trees o l /\ r <> Err Panicked.

(** An end of a handler. *)
Ltac tree_done := solve [split; [assumption|discriminate] | done].

Section Handlers.
Context (mf : MayFail) `{Crates} (cfg : ServiceConfig).

Lemma wp_tree_call {A B} (op : Op B) (k : B -> Prog A) o u l s :
  target op = Some s -> s ∈ o -> safe op l -> trees o l ->
  (forall b, same_answer op (Ok b) (spec op l).1 -> trees o (spec op l).2 -> wp mf (k b) o u (spec op l).2 leaves_trees) ->
  wp mf (call op k) o u l leaves_trees.
Proof.
  intros Ht Hs Hsafe Htr Hk. pose proof (trees_spec op s o l Ht Hsafe Htr) as Htr'.
  apply (wp_call_any mf op k o u l _ s); auto; intros e; [tree_done|intros _; split; tree_done|].
  intros l' _ Hp. split; [|done]. intros t Hin. unfold tree_inv. rewrite (partly_sess _ _ _ _ Hp). by apply Htr.
Qed.

Lemma wp_tree_read {A B} (op : Op B) (k : B -> Prog A) o u l s :
  target op = Some s -> s ∈ o -> read_only op = true -> trees o l ->
  (forall b, same_answer op (Ok b) (spec op l).1 -> wp mf (k b) o u l leaves_trees) ->
  wp mf (call op k) o u l leaves_trees.
Proof. intros Ht Hs Hr Htr Hk. apply (wp_read mf op k o u l _ s); auto. intros e. tree_done. Qed.

Lemma trees_gain o l i : trees o l -> sess i l = empty_session -> trees ({[ i ]} ∪ o) l.
Proof. intros Htr Hi t [->%elem_of_singleton|Ht]%elem_of_union; [|by apply Htr]. unfold tree_inv. rewrite Hi. apply tree_empty. Qed.

Lemma wp_meta {A} sid (k : SessionMeta -> Prog A) o u l : sid ∈ o -> trees o l ->
  (forall m, meta (sess sid l) = Some m -> wp mf (k m) o u l leaves_trees) ->
  wp mf (meta_or_not_found sid k) o u l leaves_trees.
Proof.
  intros Hs Htr Hk. unfold meta_or_not_found. apply (wp_tree_read _ _ _ _ _ sid); [done..|].
  intros b [= ->]. destruct (meta (sess sid l)) as [m|] eqn:Hm; [auto|tree_done].
Qed.

Lemma wp_put_meta {A} (m : SessionMeta) (k : unit -> Prog A) o u l : session_id m ∈ o -> trees o l ->
  (trees o (spec (PutMeta m) l).2 -> wp mf (k tt) o u (spec (PutMeta m) l).2 leaves_trees) ->
  wp mf (call (PutMeta m) k) o u l leaves_trees.
Proof. intros Hs Htr Hk. apply (wp_tree_call _ _ _ _ _ (session_id m)); [done..|]. intros [] _. auto. Qed.

Lemma meta_name o l sid m : trees o l -> sid ∈ o -> meta (sess sid l) = Some m -> session_id m = sid.
Proof. intros Htr Hs. by apply Htr. Qed.

Lemma create_tree req l : wp mf (create req) ∅ ∅ l leaves_trees.
Proof.
  unfold create. cbn [wp gains]. intros t i _ _ [Hi _]. apply wp_put_meta; cbn [session_id new_meta].
  - set_solver.
  - by apply trees_gain.
  - intros Htr. tree_done.
Qed.

Lemma ensure_tree req o l : en_session req ∈ o -> trees o l -> wp mf (ensure req) o ∅ l leaves_trees.
Proof.
  intros Hs Htr. unfold ensure. case_match; [tree_done|]. apply (wp_tree_read _ _ _ _ _ (en_session req)); [done..|].
  intros [m|] _; [tree_done|]. cbn [wp]. intros t. apply wp_put_meta; [done..|]. intros Htr'. tree_done.
Qed.

Lemma set_meta_tree req o l : sm_session req ∈ o -> trees o l -> wp mf (set_meta req) o ∅ l leaves_trees.
Proof.
  intros Hs Htr. unfold set_meta. apply wp_meta; [done..|]. intros m Hm. pose proof (meta_name _ _ _ _ Htr Hs Hm) as Hn.
  repeat case_match; try tree_done; cbn [wp]; intros t; (apply wp_put_meta; [by rewrite <-Hn in Hs|done|intros Htr'; tree_done]).
Qed.

Lemma set_status_tree req o l : ss_session req ∈ o -> trees o l -> wp mf (set_status req) o ∅ l leaves_trees.
Proof.
  intros Hs Htr. unfold set_status. apply wp_meta; [done..|]. intros m Hm. pose proof (meta_name _ _ _ _ Htr Hs Hm) as Hn.
  case_match; [tree_done|]. cbn [wp]. intros t. apply wp_put_meta; [by rewrite <-Hn in Hs|done|intros Htr'; tree_done].
Qed.

Lemma resolve_draft_tree sid ids o u l Q : sid ∈ o -> trees o l ->
  (forall r, r <> Err Panicked -> wp mf (A := option (list AttachmentMeta)) (Done r) o u l Q) -> wp mf (resolve_draft_attachments sid ids) o u l Q.
Proof.
  intros Hs Htr HQ. unfold resolve_draft_attachments. destruct ids; [by apply HQ|].
  apply (wp_read mf _ _ _ _ _ _ sid); [done..| |intros e; by apply (HQ (Err (Failed (Storage e))))].
  intros b _. case_match; by apply HQ.
Qed.

Lemma set_draft_tree req o l : sd_session req ∈ o -> trees o l -> wp mf (set_draft req) o ∅ l leaves_trees.
Proof.
  intros Hs Htr. unfold set_draft. apply wp_meta; [done..|]. intros m Hm. pose proof (meta_name _ _ _ _ Htr Hs Hm) as Hn.
  assert (forall parked u, wp mf (if decide (draft m = (match sd_draft req with Some t => if Prelude.is_empty (trim t) then None else Some t | None => None end)
      /\ draft_attachments m = parked) then ret (draft_response m, @nil EmittableEvent)
    else let m' := with_draft (match sd_draft req with Some t => if Prelude.is_empty (trim t) then None else Some t | None => None end) parked m in
         call (PutMeta m') (λ _, ret (draft_response m', []))) o u l leaves_trees) as Hrest.
  { intros parked u. case_decide; [tree_done|]. cbv zeta. apply wp_put_meta; [by rewrite <-Hn in Hs|done|intros Htr'; tree_done]. }
  apply bind_run. destruct (sd_attachment_ids req) as [ids|]; [|by intros u _].
  apply (resolve_draft_tree (sd_session req)); [done..|]. intros [p|e] Hp; cbn [wp]; [by intros u _|split; [done|congruence]].
Qed.

Lemma set_active_leaf_tree sid eid o l : sid ∈ o -> trees o l -> wp mf (Service.set_active_leaf sid eid) o ∅ l leaves_trees.
Proof.
  intros Hs Htr. unfold Service.set_active_leaf. apply wp_meta; [done..|]. intros m Hm.
  apply (wp_tree_read _ _ _ _ _ sid); [done..|]. intros b [= ->].
  destruct (entries (sess sid l) !! eid) eqn:He; [|tree_done].
  apply (wp_tree_call _ _ _ _ _ sid); [done|done|cbn [safe]; by rewrite He|done|]. intros [] _ Htr'. tree_done.
Qed.

(** *** Appends and edits *)

(** A place for new entries: the top, or below an entry that is there. *)
Definition place (sid : string) (p : option string) (l : Model) : Prop :=
  from_option (λ i, is_Some (entries (sess sid l) !! i)) True p.

Lemma wp_parent {A} sid p (k : option string -> Prog A) o u l : sid ∈ o -> trees o l ->
  (forall q, place sid q l -> wp mf (k q) o u l leaves_trees) -> wp mf (resolve_parent sid p k) o u l leaves_trees.
Proof.
  intros Hs Htr Hk. unfold resolve_parent. destruct p as [p|]; apply (wp_tree_read _ _ _ _ _ sid); try done; intros b [= ->].
  - destruct (entries (sess sid l) !! p) eqn:Hp; [|tree_done]. apply Hk. cbn. by rewrite Hp.
  - apply Hk. destruct (leaf (sess sid l)) eqn:Hl; [|done]. by apply (tree_leaf _ _ (Htr sid Hs)).
Qed.

Lemma commit_tree req w e o u l : ap_session req ∈ o -> trees o l -> wp mf (commit_entry req w e) o u l leaves_trees.
Proof.
  intros Hs Htr. apply (wp_tree_call _ _ _ _ _ (ap_session req)); [done..|]. intros c _ Htr'. case_match; tree_done.
Qed.

Lemma append_tree req w o l : ap_session req ∈ o -> trees o l -> wp mf (append req w) o ∅ l leaves_trees.
Proof.
  intros Hs Htr. unfold append. apply wp_meta; [done..|]. intros m Hm.
  assert (forall body, wp mf (append_body req w body) o ∅ l leaves_trees) as Hgo; [|destruct (ap_message req), (ap_custom req); first [apply Hgo|tree_done]].
  intros body. unfold append_body.
  assert (forall u, wp mf (resolve_parent (ap_session req) (ap_parent req) (λ p, fresh_id (ap_entry req) (λ i, Now (λ now,
            commit_entry req w (new_entry body i p now (ap_origin req)))))) o u l leaves_trees) as Hnew.
  { intros u. apply wp_parent; [done..|]. intros q Hq. destruct (ap_entry req); cbn [fresh_id wp]; intros; by apply commit_tree. }
  apply bind_run. unfold named_entry. destruct (ap_entry req) as [i|] eqn:Hi; [|intros u _; apply Hnew].
  apply (wp_read mf _ _ _ _ _ _ (ap_session req)); [done..| |intros e; tree_done].
  intros [e|] _ u _; [by apply commit_tree|apply Hnew].
Qed.

Lemma spec_put_entry sid e l : sess sid (spec (PutEntry sid e) l).2 = apply (REntry e) (sess sid l).
Proof. cbn. by rewrite sess_change, decide_True. Qed.

Lemma update_message_tree req w o l : um_session req ∈ o -> trees o l -> wp mf (update_message req w) o ∅ l leaves_trees.
Proof.
  intros Hs Htr. unfold update_message. apply wp_meta; [done..|]. intros m Hm. pose proof (meta_name _ _ _ _ Htr Hs Hm) as Hn.
  apply (wp_tree_read _ _ _ _ _ (um_session req)); [done..|]. intros found [= ->].
  destruct (entries (sess (um_session req) l) !! um_entry req) as [[i p t r org msg|]|] eqn:He; [|tree_done..].
  case_match; [tree_done|]. destruct (edited req msg) as [msg'|]; [|tree_done].
  apply (wp_tree_call _ _ _ _ _ (um_session req)); [done..| |done|].
  - cbn [safe]. unfold puttable. cbn [id parent_id]. rewrite (tree_keys _ _ (Htr _ Hs) _ _ He : i = um_entry req), He. done.
  - intros [] _ Htr2. cbn [wp]. intros now. apply wp_put_meta; [by rewrite <-Hn in Hs|done|]. intros Htr3. tree_done.
Qed.

(** *** Attachments *)

Lemma put_attachment_tree req o l : pa_session req ∈ o -> trees o l -> wp mf (put_attachment cfg req) o ∅ l leaves_trees.
Proof.
  intros Hs Htr. unfold put_attachment. repeat (case_match; [tree_done|]). destruct (b64_decode (pa_data req)); [|tree_done].
  case_match; [tree_done|]. apply wp_meta; [done..|]. intros m Hm. cbn [wp gains]. intros i _ _ _ now.
  apply (wp_tree_call _ _ _ _ _ (pa_session req)); [done..|]. intros [] _ Htr'. tree_done.
Qed.

Lemma delete_attachment_tree sid aid o l : sid ∈ o -> trees o l -> wp mf (delete_attachment sid aid) o ∅ l leaves_trees.
Proof.
  intros Hs Htr. unfold delete_attachment. apply wp_meta; [done..|]. intros m Hm. pose proof (meta_name _ _ _ _ Htr Hs Hm) as Hn.
  apply (wp_tree_read _ _ _ _ _ sid); [done..|]. intros es _. destruct (list_find _ es) as [[? ?]|]; [tree_done|].
  apply (wp_tree_call _ _ _ _ _ sid); [done..|]. intros deleted _ Htr2. destruct (draft_attachments m); [|tree_done].
  case_match; [tree_done|]. apply wp_put_meta; [by rewrite <-Hn in Hs|done|]. intros Htr3. tree_done.
Qed.

(** *** Deletion: its entries and leaf must go together *)

Lemma delete_session_tree sid o l : (forall A (op : Op A), match op with DeleteEntries _ | DeleteActiveLeaf _ => mf A op = false | _ => True end) ->
  sid ∈ o -> trees o l -> wp mf (delete_session sid) o ∅ l leaves_trees.
Proof.
  intros Hd Hs Htr. unfold delete_session. apply (wp_tree_read _ _ _ _ _ sid); [done..|].
  intros [m|] _; [|tree_done].
  apply (wp_call mf _ _ _ _ _ _ sid); [done..| |done|intros e He; by rewrite (Hd _ (DeleteEntries sid)) in He]. intros [] _.
  assert (trees o (spec (DeleteActiveLeaf sid) (spec (DeleteEntries sid) l).2).2) as Htr2.
  { intros t Ht. unfold tree_inv. destruct (decide (t = sid)) as [->|Hne].
    - cbn. rewrite !sess_change, !decide_True by done. pose proof (tree_meta _ _ (Htr sid Hs)) as Hm.
      split; cbn; [intros i e|intros i|done|done]; rewrite lookup_empty; [done|by intros [? ?]].
    - cbn. rewrite !sess_change, !decide_False by done. by apply Htr. }
  apply (wp_call mf _ _ _ _ _ _ sid); [done..| |done|intros e He; by rewrite (Hd _ (DeleteActiveLeaf sid)) in He]. intros [] _.
  apply (wp_tree_call _ _ _ _ _ sid); [done..|]. intros [] _ Htr3.
  apply (wp_tree_call _ _ _ _ _ sid); [done..|]. intros [] _ Htr4. cbn [wp]. intros now. tree_done.
Qed.

End Handlers.
End TreeRules.
