(* ===== verification/SessionPages.v ===== *)
(** * Pages (session-manager/src/service.rs, pagination.rs)

    What a reader who follows the pages sees.  [BlockRules]: the blocks of a transcript tile it.
    [PageRules]: what one page is.  [PageProperties]: the pages of a transcript, of a list of
    sessions, and the newest pages read backwards, joined together, are the whole, once. *)

From Stdlib Require Import Ascii ZArith Lia.
From stdpp Require Import relations.
From S2P Require Import Prelude Paging Json Codec JsonText SessionTypes SessionLog SessionLife SessionStore SessionEvents SessionService SessionRead SessionRun SessionTree.
Import Types Contract Prog.

Module BlockRules.
Import Pagination.

(** The blocks follow each other from [a] to [b]. *)
Fixpoint tiles (a : nat) (bs : list Block) (b : nat) : Prop :=
  match bs with
  | [] => a = b
  | x :: bs' => start x = a /\ a < stop x /\ tiles (stop x) bs' b
  end.

Lemma tiles_app a bs bs' b : tiles a (bs ++ bs') b <-> exists c, tiles a bs c /\ tiles c bs' b.
Proof.
  revert a. induction bs as [|x bs IH]; intros a; cbn [tiles app]; [naive_solver|]. rewrite IH. naive_solver.
Qed.

Lemma tiles_le a bs b : tiles a bs b -> a <= b.
Proof. revert a. induction bs as [|x bs IH]; intros a; cbn; [lia|]. intros (<- & ? & ?%IH). lia. Qed.

Lemma blocks_tile i run path : from_option (λ s, s < i) True run ->
  tiles (default i run) (blocks_from i run path) (i + length path).
Proof.
  revert i run. induction path as [|e path IH]; intros i run Hr; cbn [blocks_from length].
  - rewrite Nat.add_0_r. by destruct run.
  - case_match.
    + replace (i + S (length path)) with (S i + length path) by lia. apply (IH (S i) (Some (default i run))). destruct run; cbn in *; lia.
    + apply tiles_app. exists i. split; [by destruct run|]. cbn [tiles start stop].
      split_and!; [done|lia|]. replace (i + S (length path)) with (S i + length path) by lia. by apply (IH (S i) None).
Qed.

Lemma activity_blocks_tile path : tiles 0 (activity_blocks path) (length path).
Proof. exact (blocks_tile 0 None path I). Qed.

(** Every place between the ends is in one block. *)
Lemma tiles_find a bs b i : tiles a bs b -> a <= i < b ->
  exists n x, bs !! n = Some x /\ start x <= i < stop x /\ block_index_of bs i = Some n.
Proof.
  revert a. induction bs as [|x bs IH]; intros a; cbn [tiles]; [lia|]. intros (<- & Hlt & Ht) Hi. unfold block_index_of, position in *. cbn [list_find].
  case_decide as Hc; unfold contains in Hc.
  - exists 0, x. split_and!; [done|..|done]; apply Is_true_true, andb_prop in Hc as [?%Nat.leb_le ?%Nat.ltb_lt]; lia.
  - destruct (decide (i < stop x)) as [Hs|Hs].
    { exfalso. apply Hc, Is_true_true. apply andb_true_intro. split; [apply Nat.leb_le|apply Nat.ltb_lt]; lia. }
    destruct (IH (stop x) Ht ltac:(lia)) as (n & y & Hn & Hy & Hf). exists (S n), y. split_and!; [done|lia|lia|].
    destruct (list_find _ bs) as [[? ?]|]; [|done]. cbn in *. by injection Hf as ->.
Qed.

Lemma block_index_some path i : i < length path -> is_Some (block_index_of (activity_blocks path) i).
Proof. intros Hi. destruct (tiles_find 0 _ _ i (activity_blocks_tile path)) as (n & x & _ & _ & ->); [lia|by eexists]. Qed.

(** Which entries a block holds: a run holds run members, another block one that is none. *)
Lemma blocks_sound i run path : from_option (λ s, s < i) True run ->
  Forall (λ b, forall j, start b <= j < stop b -> i <= j -> exists e, path !! (j - i) = Some e /\
     is_run_member e = bool_decide (block_kind b = ActivityRun)) (blocks_from i run path).
Proof.
  revert i run. induction path as [|e path IH]; intros i run Hr; cbn [blocks_from].
  - destruct run; constructor; [cbn; lia|constructor].
  - assert (forall bs, Forall (λ b, forall j, start b <= j < stop b -> S i <= j -> exists e0, path !! (j - S i) = Some e0 /\
        is_run_member e0 = bool_decide (block_kind b = ActivityRun)) bs ->
      (forall b, b ∈ bs -> start b <= i < stop b -> is_run_member e = bool_decide (block_kind b = ActivityRun)) ->
      Forall (λ b, forall j, start b <= j < stop b -> i <= j -> exists e0, (e :: path) !! (j - i) = Some e0 /\
        is_run_member e0 = bool_decide (block_kind b = ActivityRun)) bs) as Hshift.
    { intros bs Hbs Hfirst. rewrite Forall_forall in Hbs |- *. intros b Hb j Hj Hij. destruct (decide (j = i)) as [->|Hne].
      - exists e. rewrite Nat.sub_diag. auto.
      - destruct (Hbs b Hb j Hj ltac:(lia)) as (e0 & He0 & Hk). exists e0. split; [|done].
        replace (j - i) with (S (j - S i)) by lia. done. }
    case_match eqn:Hm.
    + apply Hshift; [apply IH; destruct run; cbn in *; lia|]. intros b Hb Hs. symmetry. apply bool_decide_eq_true.
      clear -Hb Hs Hr. remember (Some (default i run)) as run' eqn:Hrun. assert (exists s, run' = Some s /\ s <= i) as (s & -> & Hsi)
        by (exists (default i run); destruct run; cbn in *; split; [done|lia|done|lia]).
      clear Hrun Hr. assert (S i <= S i) as Hi by lia. revert Hi Hb. generalize (S i) at 2 3. intros n. revert n.
      induction path as [|x path IHp]; intros n Hn; cbn [blocks_from].
      * intros ->%list_elem_of_singleton. done.
      * case_match; [cbn [default]; intros Hb; apply (IHp (S n)); [lia|exact Hb]|].
        intros [->|Hb]%elem_of_cons; [done|]. exfalso. apply elem_of_cons in Hb as [->|Hb]; [cbn in Hs; lia|].
        pose proof (blocks_tile (S n) None path I) as Ht. cbn in Ht. apply list_elem_of_split in Hb as (b1 & b2 & Heq). rewrite Heq in Ht.
        apply tiles_app in Ht as (c & Hc%tiles_le & Hs' & _). lia.
    + apply Forall_app. split.
      * destruct run; constructor; [cbn in *; intros; lia|constructor].
      * constructor.
        -- cbn. intros j Hj Hij. exists e. replace (j - i) with 0 by lia. done.
        -- apply Hshift; [by apply IH|]. intros b Hb Hs. exfalso.
           pose proof (blocks_tile (S i) None path I) as Ht. cbn in Ht. apply list_elem_of_split in Hb as (b1 & b2 & Heq). rewrite Heq in Ht.
           apply tiles_app in Ht as (c & Hc%tiles_le & Hs' & _). lia.
Qed.

End BlockRules.

(** ** Following pages *)

Module PageRules.
Export Paging.
Import Log Service Readers Pagination Transcript ActivePath.
#[local] Existing Instance ModelStore.model_store.

Section Walk.
Context {A B C : Type} (xs : list A) (f : A -> B) (cur : A -> C) (limit : nat) (fetch : option C -> option (list B * option C)).
Context (Hlimit : 0 < limit).

(** The page from [start] on. *)
Definition answer (start : nat) : list B * option C :=
  let '(p, more) := page start limit xs in (f <$> p, if more then cur <$> last p else None).

Context (Hfirst : fetch None = Some (answer 0)).
Context (Hnext : forall i x, xs !! i = Some x -> fetch (Some (cur x)) = Some (answer (S i))).

Lemma page_take start : page start limit xs = (take limit (drop start xs), start + limit <? length xs).
Proof.
  unfold page. f_equal.
  - destruct (decide (start + limit <= length xs)) as [Hle|Hgt].
    + rewrite Nat.min_l by done. f_equal. lia.
    + rewrite Nat.min_r by lia. rewrite !take_ge; [done|..]; rewrite length_drop; lia.
  - destruct (Nat.ltb_spec (start + limit) (length xs)); [rewrite Nat.min_l by lia; by apply Nat.ltb_lt|].
    rewrite Nat.min_r by lia. by rewrite Nat.ltb_irrefl.
Qed.

Lemma answer_from start : answer start = page_from xs f cur limit start.
Proof. unfold answer. by rewrite page_take. Qed.

(** The pages joined together are the whole list. *)
Lemma session_walk_all : walk fetch (S (length xs)) None = Some (f <$> xs).
Proof. apply (walk_all xs f cur limit fetch Hlimit); setoid_rewrite <-answer_from; done. Qed.

End Walk.

(** ** What a reader is answered *)

(** The answer of a program that only reads, when the store answers. *)
Fixpoint ask {A} (p : Prog A) (m : Model) : option (result A Stop) :=
  match p with
  | Done r => Some r
  | Do op k => if Run.read_only op then ask (k (spec op m).1) m else None
  | _ => None
  end.

(** It is what the program ends with over the contract, and it changes nothing. *)
Lemma ask_exec {A} o (p : Prog A) m c n r : ask p m = Some r ->
  exists c' n', exec o p (ModelStore.mk_modelled (f := ModelStore.no_faults) m c) n = (r, ModelStore.mk_modelled m c', n').
Proof.
  revert c n. induction p as [r0|B op k IH|k _|kd k _]; intros c n; cbn [ask exec]; [|destruct (Run.read_only op) eqn:Hr; [|done]|done|done].
  - intros [= ->]. by exists c, n.
  - change (perform op ?s) with (ModelStore.model_perform op s). unfold ModelStore.model_perform. cbn [ModelStore.fault ModelStore.no_faults ModelStore.model ModelStore.calls].
    rewrite Views.spec_read_only by done.
    assert (ModelStore.reorder ModelStore.no_faults c op (spec op m).1 = (spec op m).1) as -> by by destruct op.
    intros Ha. by apply IH.
Qed.

Lemma ask_bind {A B} (p : Prog A) (f : A -> Prog B) m a : ask p m = Some (Ok a) -> ask (bind p f) m = ask (f a) m.
Proof.
  induction p as [r0|C op k IH|k _|kd k _]; cbn [ask bind]; [by intros [= ->]| |done|done].
  destruct (Run.read_only op); [apply IH|done].
Qed.

Lemma position_at {A} (g : A -> string) (xs : list A) i x (h : A -> bool) :
  NoDup (g <$> xs) -> xs !! i = Some x -> (forall y, h y = bool_decide (g y = g x)) -> position h xs = Some i.
Proof.
  intros Hnd Hx Hh. unfold position. rewrite (proj2 (list_find_Some _ xs i x)); [done|]. split_and!; [done|by rewrite Hh, bool_decide_true|].
  intros j y Hy Hj. rewrite Hh, bool_decide_spec. intros Heq.
  assert (j = i); [|lia]. apply (NoDup_lookup _ j i (g x) Hnd); rewrite list_lookup_fmap; [by rewrite Hy, <-Heq|by rewrite Hx].
Qed.

(** The transcript of a session: the entries from the root to the active leaf. *)
Definition transcript (s : LoadedSession) : list SessionEntry :=
  match leaf s with
  | Some i => match active_path (entries s) i with Ok path => path | Err _ => [] end
  | None => []
  end.

Lemma transcript_path sid s i : tree sid s -> leaf s = Some i -> active_path (entries s) i = Ok (transcript s).
Proof.
  intros Ht Hl. unfold transcript. rewrite Hl. destruct (active_path_rooted (entries s) i) as [path ->]; [exact (tree_keys _ _ Ht)| |done].
  by apply (tree_rooted _ _ Ht), (tree_leaf _ _ Ht).
Qed.

Lemma path_NoDup m i path : keyed m -> active_path m i = Ok path -> NoDup (id <$> path).
Proof.
  intros Hk Hp%active_path_chain; [|done]. apply chain_NoDup in Hp; [|done].
  eapply NoDup_Permutation_proper; [|exact Hp]. apply fmap_Permutation. by rewrite <-Permutation_rev.
Qed.

Lemma transcript_NoDup sid s : tree sid s -> NoDup (id <$> transcript s).
Proof.
  intros Ht. destruct (leaf s) as [i|] eqn:Hl; [|unfold transcript; rewrite Hl; constructor].
  eapply path_NoDup; [exact (tree_keys _ _ Ht)|by apply (transcript_path sid)].
Qed.

End PageRules.

(** ** Properties *)

Module PageProperties.
Import Log Service Readers Pagination BlockRules PageRules Transcript ActivePath.

Section Pages.
Context `{CratesLaws} `{SerdeFileLaws} (cfg : ServiceConfig) (Hmax : max_list_limit cfg <> 0).

Definition limit_of (limit : option nat) : nat := Nat.max 1 (Nat.min (default (default_list_limit cfg) limit) (max_list_limit cfg)).

Lemma clamp_limit_of {A} limit (k : nat -> Prog A) : clamp_limit cfg limit k = k (limit_of limit).
Proof. unfold clamp_limit. by rewrite (proj2 (Nat.eqb_neq _ _)). Qed.

Lemma limit_pos limit : 0 < limit_of limit.
Proof. unfold limit_of. lia. Qed.

Lemma decode_encode {A} `{Codec A} (c : A) : codec_ok c -> fits READ_LEVELS (to_value c) -> decode_cursor (encode_cursor c) = Ok c.
Proof. intros Hc Hf. unfold decode_cursor, encode_cursor. rewrite b64_round, file_text_read by done. by rewrite Hc. Qed.

Lemma decode_messages_cursor i : decode_cursor (encode_cursor (mk_messages_cursor i)) = Ok (mk_messages_cursor i).
Proof.
  apply decode_encode.
  - unfold codec_ok. cbn [from_value to_value MessagesCursor_codec]. codec_tac. by get_req "id" i.
  - apply fits_obj. repeat constructor.
Qed.

(** *** The transcript, oldest first *)

(** The path a request asks for. *)
Definition requested (req : MessagesRequest) (s : LoadedSession) : list SessionEntry :=
  match ms_from req with
  | Some i => match active_path (entries s) i with Ok path => path | Err _ => [] end
  | None => transcript s
  end.

(** The entries of it that pass the filters. *)
Definition shown (req : MessagesRequest) (s : LoadedSession) : list SessionEntry :=
  filter (λ e, wanted_entry req e = true) (requested req s).

Definition from_known (req : MessagesRequest) (s : LoadedSession) : Prop :=
  from_option (λ i, is_Some (entries s !! i)) True (ms_from req).

Lemma shown_NoDup req sid s : tree sid s -> from_known req s -> NoDup (id <$> shown req s).
Proof.
  intros Ht Hf. apply NoDup_filter_fmap. unfold requested, from_known in *. destruct (ms_from req) as [i|]; [|by eapply transcript_NoDup].
  destruct (active_path (entries s) i) as [path|] eqn:Hp; [|constructor]. eapply path_NoDup; [exact (tree_keys _ _ Ht)|exact Hp].
Qed.

Lemma ask_meta {A} sid (k : SessionMeta -> Prog A) l m : meta (sess sid l) = Some m -> ask (meta_or_not_found sid k) l = ask (k m) l.
Proof. intros Hm. unfold meta_or_not_found. cbn. by rewrite Hm. Qed.

(** What [session::messages] answers. *)
Lemma ask_messages req l m : let s := sess (ms_session req) l in
  tree (ms_session req) s -> meta s = Some m -> from_known req s -> (ms_from req = None -> leaf s = None -> ms_cursor req = None /\ ms_after req = None) ->
  ask (messages cfg req) l = Some match messages_start req (shown req s) with
    | Err e => Err (Failed e)
    | Ok n => let '(p, more) := page n (limit_of (ms_limit req)) (shown req s) in
              Ok (mk_page (message_item req <$> p) (if more then messages_cursor <$> last p else None))
    end.
Proof.
  intros s Ht Hm Hf Hl. unfold messages. rewrite (ask_meta _ _ _ m) by done. cbn [ask call spec fst Run.read_only]. fold s.
  rewrite by_id_values by exact (tree_keys _ _ Ht). match goal with |- context [bind _ ?k] => set (path_program := k) end.
  assert (forall i path, active_path (entries s) i = Ok path -> requested req s = path -> ask (path_program (Some i)) l =
    Some match messages_start req (shown req s) with
    | Err e => Err (Failed e)
    | Ok n => let '(p, more) := page n (limit_of (ms_limit req)) (shown req s) in
              Ok (mk_page (message_item req <$> p) (if more then messages_cursor <$> last p else None))
    end) as Hpath.
  { intros i path Hp Hr. unfold path_program. cbv beta iota. rewrite Hp. cbn [lift]. unfold shown. rewrite Hr.
    destruct (messages_start req _); [|done]. cbn [lift]. rewrite clamp_limit_of. by destruct (page _ _ _). }
  unfold from_known, requested in *. destruct (ms_from req) as [i|] eqn:Hfrom.
  - destruct Hf as [e He]. rewrite He. change (bind (ret (Some i)) path_program) with (path_program (Some i)).
    destruct (active_path_rooted (entries s) i) as [path Hp]; [exact (tree_keys _ _ Ht)|apply (tree_rooted _ _ Ht); by rewrite He|].
    apply (Hpath i path); [done|by rewrite Hp].
  - match goal with |- ask ?p l = _ => change (ask p l) with (ask (path_program (leaf s)) l) end.
    destruct (leaf s) as [i|] eqn:Hlf.
    + apply (Hpath i (transcript s)); [by apply (transcript_path (ms_session req))|done].
    + destruct (Hl eq_refl eq_refl) as [Hc Ha]. unfold messages_start. rewrite Hc, Ha.
      assert (shown req s = []) as -> by (unfold shown, requested; rewrite Hfrom; unfold transcript; by rewrite Hlf).
      unfold page. by rewrite Nat.min_0_r.
Qed.

Definition with_cursor (c : option string) (req : MessagesRequest) : MessagesRequest :=
  mk_messages (ms_session req) (ms_limit req) c (ms_after req) (ms_roles req) (ms_from req) (ms_include_custom req)
    (ms_custom_types req) (ms_include_images req) (ms_content req).

(** One page, as the client sees it. *)
Definition messages_page (req : MessagesRequest) (l : Model) (c : option string) : option (list Item * option string) :=
  match ask (messages cfg (with_cursor c req)) l with
  | Some (Ok p) => Some (messages_of p, next_cursor p)
  | _ => None
  end.

(** C30: following [next_cursor] to the end shows every entry of the requested path that passes the
    filters, oldest first and exactly once, whatever the page size. *)
Theorem messages_pages_complete req l m : let s := sess (ms_session req) l in
  tree (ms_session req) s -> meta s = Some m -> from_known req s -> ms_after req = None ->
  walk (messages_page req l) (S (length (shown req s))) None = Some (message_item req <$> shown req s).
Proof.
  intros s Ht Hm Hf Ha.
  assert (forall c n, messages_start (with_cursor c req) (shown req s) = Ok n -> (ms_from req = None -> leaf s = None -> c = None) ->
    messages_page req l c = Some (answer (shown req s) (message_item req) messages_cursor (limit_of (ms_limit req)) n)) as Hpage.
  { intros c n Hs Hl. unfold messages_page. rewrite (ask_messages (with_cursor c req) l m); [|done|done|done|auto].
    change (shown (with_cursor c req)) with (shown req). fold s. change (sess (ms_session (with_cursor c req)) l) with s. rewrite Hs.
    unfold answer. by destruct (page _ _ _). }
  apply (session_walk_all _ _ messages_cursor (limit_of (ms_limit req))); [apply limit_pos| |].
  - apply Hpage; [|done]. unfold messages_start. cbn. by rewrite Ha.
  - intros i x Hx. apply Hpage.
    + unfold messages_start. cbn [with_cursor ms_cursor]. unfold messages_cursor. rewrite decode_messages_cursor. unfold after_entry. cbn [cursor_id].
      by rewrite (position_at id _ i x) by (done || by eapply shown_NoDup).
    + intros Hfr Hl. exfalso. unfold shown, requested, transcript in Hx. by rewrite Hfr, Hl in Hx.
Qed.

(** *** The list of sessions *)

Definition key_before (a b : Z * string) : Prop := (a.1 < b.1)%Z \/ (a.1 = b.1 /\ String.le a.2 b.2).

Lemma natural_before a b : match natural a b with Gt => False | _ => True end <-> key_before a b.
Proof.
  unfold natural, key_before, String.le, String.leb. destruct (Z.compare_spec a.1 b.1); [|naive_solver lia|naive_solver lia].
  destruct (String.compare a.2 b.2); naive_solver lia.
Qed.

Lemma natural_opp a b : natural b a = CompOpp (natural a b).
Proof. unfold natural. rewrite Z.compare_antisym, String.compare_antisym. by destruct (a.1 ?= b.1)%Z. Qed.

Lemma not_after_spec o a b : Is_true (not_after o a b) <->
  match o with CreatedAsc => key_before a b | _ => key_before b a end.
Proof.
  unfold not_after, cmp_in_order. destruct o; rewrite <-natural_before; rewrite ?(natural_opp a b); by destruct (natural a b).
Qed.

Lemma key_before_trans a b c : key_before a b -> key_before b c -> key_before a c.
Proof. unfold key_before. intros [?|[? ?]] [?|[? ?]]; [left; lia..|right; split; [lia|by etrans]]. Qed.
Lemma key_before_total a b : key_before a b \/ key_before b a.
Proof. unfold key_before. destruct (Z.lt_trichotomy a.1 b.1) as [|[|]]; [auto..|auto]. destruct (total String.le a.2 b.2); auto. Qed.
Lemma key_before_both a b : key_before a b -> key_before b a -> a.2 = b.2.
Proof. unfold key_before. intros [?|[? ?]] [?|[? ?]]; try lia. by apply (anti_symm String.le). Qed.

#[local] Instance listed_before_trans o : Transitive (listed_before o).
Proof. intros a b c. unfold listed_before. rewrite !not_after_spec. destruct o; eauto using key_before_trans. Qed.
#[local] Instance listed_before_total o : Total (listed_before o).
Proof. intros a b. unfold listed_before. rewrite !not_after_spec. destruct o; auto using key_before_total. Qed.

Lemma sort_key_id m o : (sort_key m o).2 = session_id m.
Proof. by destruct o. Qed.

Lemma listed_before_id o a b : listed_before o a b -> listed_before o b a -> session_id a = session_id b.
Proof.
  unfold listed_before. rewrite !not_after_spec, <-(sort_key_id a o), <-(sort_key_id b o).
  destruct o; eauto using key_before_both, eq_sym.
Qed.

(** The point after an item of the sorted list. *)
Lemma partition_at o xs i x : StronglySorted (listed_before o) xs -> NoDup (session_id <$> xs) -> xs !! i = Some x ->
  partition_point (λ m, not_after o (sort_key m o) (sort_key x o)) xs = S i.
Proof.
  intros Hs. revert i. induction Hs as [|y xs Hs IH Hall]; intros i Hnd Hi; [done|]. rewrite fmap_cons, NoDup_cons in Hnd. destruct Hnd as [Hn Hnd].
  cbn [partition_point]. destruct i as [|i].
  - injection Hi as ->. assert (not_after o (sort_key x o) (sort_key x o) = true) as ->.
    { apply Is_true_true. destruct (listed_before_total o x x); done. }
    f_equal. destruct xs as [|z xs]; [done|]. cbn [partition_point]. destruct (not_after o (sort_key z o) (sort_key x o)) eqn:Hz; [|done].
    exfalso. apply Hn. apply Is_true_true in Hz. apply Forall_inv in Hall. rewrite (listed_before_id o x z) by done. by left.
  - assert (not_after o (sort_key y o) (sort_key x o) = true) as ->.
    { apply Is_true_true. rewrite Forall_forall in Hall. by apply Hall, (list_elem_of_lookup_2 _ i). }
    f_equal. by apply IH.
Qed.

(** The sessions a request asks for, in its order. *)
Definition listing (req : ListRequest) (l : Model) : list SessionMeta :=
  merge_sort (listed_before (default UpdatedDesc (li_order req))) (filter (λ m, list_matches req m = true) (metas l)).

Definition times_ok (m : SessionMeta) : Prop := in_range i64_min i64_max (created_at m) /\ in_range i64_min i64_max (updated_at m).

Lemma NoDup_metas l : (forall sid, tree sid (sess sid l)) -> NoDup (session_id <$> metas l).
Proof.
  intros Ht. unfold metas, btree_values.
  assert (forall ps : list (string * LoadedSession), (forall p, p ∈ ps -> sessions l !! p.1 = Some p.2) -> NoDup ps.*1 ->
    NoDup (session_id <$> omap meta ps.*2) /\ forall i, i ∈ session_id <$> omap meta ps.*2 -> i ∈ ps.*1) as Hgen.
  { induction ps as [|[k s] ps IH]; intros Hin Hnd; [split; [constructor|done]|]. cbn in Hnd. apply NoDup_cons in Hnd as [Hn Hnd].
    destruct IH as [IH1 IH2]; [intros p Hp; apply Hin; by right|done|]. cbn. destruct (meta s) as [x|] eqn:Hx; [|split; [done|intros i Hi; right; auto]].
    assert (session_id x = k) as Hk.
    { pose proof (Hin (k, s) ltac:(by left)) as Hk. cbn in Hk. pose proof (Ht k) as Htk. unfold sess in Htk. rewrite Hk in Htk. by apply Htk. }
    cbn. rewrite Hk. split; [constructor; [|done]; auto|]. intros i [->|Hi]%elem_of_cons; [by left|right; auto]. }
  apply Hgen; [|apply NoDup_btree_keys]. intros [k s] Hp. by apply elem_of_btree_iter in Hp.
Qed.

Definition with_list_cursor (c : option string) (req : ListRequest) : ListRequest :=
  mk_list (li_limit req) c (li_status req) (li_kinds req) (li_metadata req) (li_order req).

Definition list_page (req : ListRequest) (l : Model) (c : option string) : option (list SessionMeta * option string) :=
  match ask (list_sessions cfg (with_list_cursor c req)) l with
  | Some (Ok p) => Some (listed p, list_next p)
  | _ => None
  end.

Lemma decode_sessions_cursor o m : times_ok m ->
  decode_cursor (list_cursor o m) = Ok (mk_sessions_cursor (order_tag o) (sort_key m o).1 (sort_key m o).2).
Proof.
  intros [Hc Hu]. assert (in_range i64_min i64_max (sort_key m o).1) as Hk by by destruct o. apply decode_encode.
  - unfold codec_ok. cbn [from_value to_value SessionsCursor_codec cur_order cur_key cur_id]. codec_tac.
    get_req "o" (order_tag o); [|done]. get_req "k" (sort_key m o).1; [|by apply dec_enc_i64]. by get_req "id" (sort_key m o).2.
  - apply fits_obj. repeat constructor. cbn. unfold enc_i64. destruct (Z.leb_spec 0 (sort_key m o).1); cbn; unfold in_range, i64_min, i64_max, u64_max in *; lia.
Qed.

(** Following [next_cursor] lists every session the filters let through, in the order asked for
    and exactly once, whatever the page size. *)
Theorem list_pages_complete req l : (forall sid, tree sid (sess sid l)) -> Forall times_ok (metas l) ->
  walk (list_page req l) (S (length (listing req l))) None = Some (listing req l) /\
  StronglySorted (listed_before (default UpdatedDesc (li_order req))) (listing req l) /\
  listing req l ≡ₚ filter (λ m, list_matches req m = true) (metas l).
Proof.
  intros Ht Htimes. set (o := default UpdatedDesc (li_order req)).
  assert (listing req l ≡ₚ filter (λ m, list_matches req m = true) (metas l)) as Hperm by apply merge_sort_Permutation.
  assert (StronglySorted (listed_before o) (listing req l)) as Hsorted by (apply (StronglySorted_merge_sort (listed_before o))).
  assert (NoDup (session_id <$> listing req l)) as Hnd.
  { rewrite Hperm. by apply NoDup_filter_fmap, NoDup_metas. }
  split_and!; [|done|done].
  assert (forall c n, list_start (with_list_cursor c req) o (listing req l) = Ok n ->
    list_page req l c = Some (answer (listing req l) (λ x, x) (list_cursor o) (limit_of (li_limit req)) n)) as Hpage.
  { intros c n Hs. unfold list_page, list_sessions. cbn [li_order with_list_cursor li_limit]. fold o. rewrite clamp_limit_of.
    cbn [ask call spec fst Run.read_only]. change (merge_sort (listed_before o) (filter _ (metas l))) with (listing req l).
    rewrite Hs. cbn [lift]. unfold answer. destruct (page n _ (listing req l)) as [p more]. cbn. by rewrite list_fmap_id. }
  rewrite <-(list_fmap_id (listing req l)) at 2.
  apply (session_walk_all _ (λ x, x) (list_cursor o) (limit_of (li_limit req))); [apply limit_pos|by apply Hpage|].
  intros i x Hx. apply Hpage. unfold list_start. cbn [with_list_cursor li_cursor]. rewrite decode_sessions_cursor.
  - cbn [cur_order cur_key cur_id]. rewrite bool_decide_true by done. cbn [negb]. rewrite <-surjective_pairing. f_equal. by apply partition_at.
  - rewrite Forall_forall in Htimes. apply Htimes. apply list_elem_of_lookup_2 in Hx. rewrite Hperm in Hx. by apply list_elem_of_filter in Hx as [_ ?].
Qed.

(** *** The newest pages, read backwards *)

Fixpoint walk_back {A C} (fetch : option C -> option (list A * option C)) (n : nat) (c : option C) : option (list A) :=
  match n with
  | O => None
  | S n' =>
      match fetch c with
      | Some (p, None) => Some p
      | Some (p, Some c') => (.++ p) <$> walk_back fetch n' (Some c')
      | None => None
      end
  end.

(** The path the tail reader shows. *)
Definition tail_path (req : TailRequest) (s : LoadedSession) : list SessionEntry :=
  filter (λ e, default true (tl_include_custom req) || is_message e = true) (transcript s).

Definition run_of (path : list SessionEntry) (b : Block) : list SessionEntry := take (stop b - start b) (drop (start b) path).

Lemma tail_item_id elide images e : item_id (tail_item elide images e) = id e.
Proof. by destruct e. Qed.

Lemma block_items_ids images path b : item_id <$> block_items images path b = id <$> run_of path b.
Proof.
  unfold block_items. fold (run_of path b). set (run := run_of path b).
  assert (length match block_kind b with ActivityRun => kept_in_collapsed_run run | Single => replicate (length run) true end = length run) as Hl.
  { destruct (block_kind b); [apply length_replicate|]. unfold kept_in_collapsed_run. by rewrite length_imap. }
  revert Hl. generalize (match block_kind b with ActivityRun => kept_in_collapsed_run run | Single => replicate (length run) true end).
  generalize run. clear. induction run as [|e run IH]; intros [|k ks] Hl; try done. cbn. rewrite tail_item_id. f_equal. apply IH. cbn in Hl. lia.
Qed.

Lemma tiles_runs path a bs b : tiles a bs b -> bs ≫= run_of path = take (b - a) (drop a path).
Proof.
  revert a. induction bs as [|x bs IH]; intros a; cbn [tiles].
  - intros ->. by rewrite Nat.sub_diag.
  - intros (<- & Hlt & Ht). pose proof (tiles_le _ _ _ Ht). cbn [mbind list_bind]. rewrite (IH (stop x)) by done. unfold run_of.
    replace (drop (stop x) path) with (drop (stop x - start x) (drop (start x) path)) by (rewrite drop_drop; f_equal; lia).
    replace (b - start x) with ((stop x - start x) + (b - stop x)) by lia.
    by rewrite take_take_drop.
Qed.

Lemma bind_ids images path bs : item_id <$> (bs ≫= block_items images path) = id <$> (bs ≫= run_of path).
Proof. induction bs as [|b bs IH]; [done|]. cbn. by rewrite !fmap_app, IH, block_items_ids. Qed.

(** All blocks of a path hold its entries, each once and in order. *)
Lemma items_cover images path : item_id <$> (activity_blocks path ≫= block_items images path) = id <$> path.
Proof.
  rewrite bind_ids, (tiles_runs path 0 _ (length path)) by apply activity_blocks_tile. by rewrite drop_0, Nat.sub_0_r, firstn_all.
Qed.

Lemma tiles_bounds a bs b x : tiles a bs b -> x ∈ bs -> a <= start x /\ start x < stop x /\ stop x <= b.
Proof.
  revert a. induction bs as [|y bs IH]; intros a Ht Hx; [by apply elem_of_nil in Hx|]. destruct Ht as (<- & Hlt & Ht).
  pose proof (tiles_le _ _ _ Ht). apply elem_of_cons in Hx as [->|Hx]; [lia|]. destruct (IH _ Ht Hx). lia.
Qed.

Lemma tiles_order a bs b i j x y : tiles a bs b -> bs !! i = Some x -> bs !! j = Some y -> i < j -> stop x <= start y.
Proof.
  revert a i j. induction bs as [|z bs IH]; intros a i j Ht Hi Hj Hij; [done|]. destruct Ht as (<- & Hlt & Ht).
  destruct j as [|j]; [lia|]. destruct i as [|i]; [|by eapply (IH _ i j); eauto with lia]. cbn in Hj.
  injection Hi as ->. by apply list_elem_of_lookup_2, (tiles_bounds _ _ _ _ Ht) in Hj as [? _].
Qed.

Lemma tiles_nth a bs b n x : tiles a bs b -> bs !! n = Some x -> start x < stop x /\ stop x <= b /\ block_index_of bs (start x) = Some n.
Proof.
  intros Ht Hn. destruct (tiles_bounds a bs b x Ht ltac:(by eapply list_elem_of_lookup_2)) as (H1' & H2' & H3'). split_and!; [done..|].
  destruct (tiles_find a bs b (start x) Ht ltac:(lia)) as (k & y & Hk & Hy & ->). f_equal.
  destruct (Nat.lt_trichotomy k n) as [Hlt|[->|Hlt]]; [exfalso|done|exfalso].
  - pose proof (tiles_order _ _ _ _ _ _ _ Ht Hk Hn Hlt). lia.
  - pose proof (tiles_order _ _ _ _ _ _ _ Ht Hn Hk Hlt). lia.
Qed.

(** The answer to a request without a lower anchor, by the block it ends before. *)
Definition tail_answer (req : TailRequest) (s : LoadedSession) (past : nat) : TailResponse :=
  tail_page (negb (default true (tl_include_images req))) (tail_path req s) (past - limit_of (tl_limit req)) past.

Lemma ask_tail req l m past : let s := sess (tl_session req) l in
  tree (tl_session req) s -> meta s = Some m -> leaf s <> None -> tl_until req = None ->
  match tl_before req with
  | None => past = length (activity_blocks (tail_path req s))
  | Some i => block_of (tail_path req s) (activity_blocks (tail_path req s)) i "before_entry_id" = Ok (Some past)
  end ->
  ask (messages_tail cfg req) l = Some (Ok (tail_answer req s past)).
Proof.
  intros s Ht Hm Hl Hu Hb. unfold messages_tail. rewrite (ask_meta _ _ _ m) by done. cbn [ask call spec fst Run.read_only]. fold s.
  destruct (leaf s) as [i|] eqn:Hlf; [|done]. rewrite by_id_values by exact (tree_keys _ _ Ht).
  rewrite (transcript_path (tl_session req) s i Ht Hlf). cbn [lift]. fold (tail_path req s). rewrite Hu.
  set (path := tail_path req s) in *.
  assert (ask (clamp_limit cfg (tl_limit req) (λ limit, bind (ret (past - limit)) (λ first, if past <? first then panic
      else ret (tail_page (negb (default true (tl_include_images req))) path first past)))) l = Some (Ok (tail_answer req s past))) as Hend.
  { rewrite clamp_limit_of. cbn [bind ret]. destruct (Nat.ltb_spec past (past - limit_of (tl_limit req))); [lia|done]. }
  destruct (tl_before req) as [i0|]; [rewrite Hb; exact Hend|subst past; exact Hend].
Qed.

Definition with_before (c : option string) (req : TailRequest) : TailRequest :=
  mk_tail (tl_session req) (tl_limit req) c (tl_until req) (tl_include_custom req) (tl_include_images req).

Definition tail_fetch (req : TailRequest) (l : Model) (c : option string) : option (list Item * option string) :=
  match ask (messages_tail cfg (with_before c req)) l with
  | Some (Ok p) => Some (tail_items p, if has_more p then oldest p else None)
  | _ => None
  end.

Lemma fmap_head {A B} (f : A -> B) (l : list A) : f <$> head l = head (f <$> l).
Proof. by destruct l. Qed.

Lemma tail_path_NoDup req s : tree (tl_session req) s -> NoDup (id <$> tail_path req s).
Proof. intros Ht. apply NoDup_filter_fmap. by eapply transcript_NoDup. Qed.

(** The first item of a page is the first entry of its first block. *)
Lemma page_head images path n b : activity_blocks path !! n = Some b -> exists e, path !! start b = Some e /\
  forall past, n < past -> item_id <$> head (drop n (take past (activity_blocks path)) ≫= block_items images path) = Some (id e).
Proof.
  intros Hn. destruct (tiles_nth 0 _ _ n b (activity_blocks_tile path) Hn) as (Hlt & Hle & _).
  destruct (path !! start b) as [e|] eqn:He; [|apply lookup_ge_None in He; lia]. exists e. split; [done|]. intros past Hp.
  rewrite (drop_S _ b) by (by rewrite lookup_take_lt). cbn [mbind list_bind]. rewrite fmap_head, fmap_app, block_items_ids. unfold run_of.
  rewrite (drop_S _ _ _ He). destruct (stop b - start b) as [|k] eqn:Hk; [lia|]. done.
Qed.

(** The newest page, then the page before its oldest entry, and so on: joined together they are
    the whole path, oldest first, every entry once; every page is a run of whole blocks, so no
    page ends inside an activity run, and the pages do not change how a run is elided. *)
Theorem tail_pages_complete req l m : let s := sess (tl_session req) l in
  let path := tail_path req s in let images := negb (default true (tl_include_images req)) in
  tree (tl_session req) s -> meta s = Some m -> leaf s <> None -> tl_until req = None ->
  walk_back (tail_fetch req l) (S (length (activity_blocks path))) None = Some (activity_blocks path ≫= block_items images path) /\
  item_id <$> (activity_blocks path ≫= block_items images path) = id <$> path.
Proof.
  intros s path images Ht Hm Hl Hu. split; [|apply items_cover].
  assert (forall n c past, past < n -> past <= length (activity_blocks path) ->
    match c with
    | None => past = length (activity_blocks path)
    | Some i => block_of path (activity_blocks path) i "before_entry_id" = Ok (Some past)
    end -> walk_back (tail_fetch req l) n c = Some (take past (activity_blocks path) ≫= block_items images path)) as Hw.
  2: { rewrite (Hw _ None (length (activity_blocks path))); [by rewrite firstn_all|lia|done|done]. }
  induction n as [|n IH]; intros c past Hn Hpast Hc; [lia|]. cbn [walk_back]. unfold tail_fetch at 1.
  rewrite (ask_tail (with_before c req) l m past); [|done..|exact Hc].
  unfold tail_answer, tail_page. cbn [tail_items has_more oldest with_before tl_session tl_limit tl_include_images].
  fold images s. change (tail_path (with_before c req) s) with path. set (first := past - limit_of (tl_limit req)).
  rewrite <-skipn_firstn_comm. destruct (Nat.ltb_spec 0 first) as [Hf|Hf].
  - assert (first < past) as Hfp by (pose proof (limit_pos (tl_limit req)); lia).
    destruct (activity_blocks path !! first) as [b|] eqn:Hb; [|apply lookup_ge_None in Hb; lia].
    destruct (page_head images path first b Hb) as (e & He & Hhead). rewrite (Hhead past Hfp). cbn [fmap option_fmap option_map].
    rewrite (IH (Some (id e)) first); [|lia|lia|].
    + cbn. f_equal. rewrite <-bind_app. f_equal. rewrite <-(take_drop first (take past (activity_blocks path))) at 2. f_equal. by rewrite take_take, Nat.min_l by lia.
    + unfold block_of. rewrite (position_at id path (start b) e) by (done || by apply tail_path_NoDup).
      by destruct (tiles_nth 0 _ _ first b (activity_blocks_tile path) Hb) as (_ & _ & ->).
  - assert (first = 0) as -> by lia. by rewrite drop_0.
Qed.

End Pages.
End PageProperties.
