(* ===== verification/SessionBatch.v ===== *)
(** * Entries in batches (session-manager/src/service.rs)

    [append_many] and [fork] put many entries before they write leaf and metadata.
    [BatchRules]: what such a batch leaves, and the rules of the two handlers, from which their
    effects and the tree invariant follow. *)

From Stdlib Require Import Ascii ZArith Lia.
From stdpp Require Import relations.
From S2P Require Import Prelude Json Codec JsonText SessionTypes SessionLog SessionLife SessionStore SessionEvents SessionService SessionRead SessionRun SessionTree.
Import Types Contract Prog.

Module BatchRules.
Import Log LifeRules Run Views SystemRules Transcript ActivePath TreeRules Service Events.
Local Open Scope prog_scope.

Definition put_one (sid : string) (l : Model) (e : SessionEntry) : Model := (spec (PutEntry sid e) l).2.

(** *** Entries put one after the other *)

Definition puts (s : LoadedSession) (new : list SessionEntry) : LoadedSession := foldl (λ s e, apply (REntry e) s) s new.

Lemma puts_same s new : meta (puts s new) = meta s /\ leaf (puts s new) = leaf s /\ committed (puts s new) = committed s /\
  pending_legacy_append (puts s new) = pending_legacy_append s.
Proof. revert s. induction new as [|e new IH]; intros s; [done|]. apply (IH (apply (REntry e) s)). Qed.

Lemma puts_model sid l new : sess sid (foldl (put_one sid) l new) = puts (sess sid l) new.
Proof. revert l. induction new as [|e new IH]; intros l; [done|]. cbn [foldl]. rewrite IH. unfold put_one at 1. by rewrite spec_put_entry. Qed.

Lemma put_one_other sid l e s : s <> sid -> sess s (put_one sid l e) = sess s l.
Proof. intros Hs. unfold put_one. cbn. by rewrite sess_change, decide_False. Qed.

Lemma puts_other sid l new s : s <> sid -> sess s (foldl (put_one sid) l new) = sess s l.
Proof. intros Hs. revert l. induction new as [|e new IH]; intros l; [done|]. cbn [foldl]. by rewrite IH, put_one_other. Qed.

Lemma puts_blobs sid l new s : blobs s (foldl (put_one sid) l new) = blobs s l.
Proof. revert l. induction new as [|e new IH]; intros l; [done|]. cbn [foldl]. by rewrite IH. Qed.

Lemma topdown_new known new e : topdown known new -> e ∈ new -> id e ∉ known.
Proof.
  revert known. induction new as [|x new IH]; intros known Ht He; [by apply elem_of_nil in He|]. destruct Ht as (Hx & _ & Ht).
  apply elem_of_cons in He as [->|He]; [done|]. specialize (IH _ Ht He). set_solver.
Qed.

Lemma topdown_NoDup known new : topdown known new -> NoDup (id <$> new).
Proof.
  revert known. induction new as [|x new IH]; intros known Ht; [constructor|]. destruct Ht as (Hx & _ & Ht). cbn. constructor; [|by eapply IH].
  intros (e & Heq & He)%list_elem_of_fmap. apply (topdown_new _ _ e Ht) in He. set_solver.
Qed.

(** What was there stays, and the new ones are there. *)
Lemma puts_keep s new i : i ∉ id <$> new -> entries (puts s new) !! i = entries s !! i.
Proof.
  revert s. induction new as [|x new IH]; intros s Hi; [done|]. cbn in Hi. apply not_elem_of_cons in Hi as [Hx Hi].
  change (entries (puts (apply (REntry x) s) new) !! i = entries s !! i). rewrite IH by done. cbn. by rewrite lookup_insert_ne.
Qed.

Lemma puts_lookup s new e : NoDup (id <$> new) -> e ∈ new -> entries (puts s new) !! id e = Some e.
Proof.
  revert s. induction new as [|x new IH]; intros s Hnd He; [by apply elem_of_nil in He|]. rewrite fmap_cons, NoDup_cons in Hnd. destruct Hnd as [Hx Hnd].
  change (entries (puts (apply (REntry x) s) new) !! id e = Some e). apply elem_of_cons in He as [->|He]; [|by apply IH].
  rewrite puts_keep by done. cbn. by rewrite lookup_insert_eq.
Qed.

Lemma puts_dom s new i : is_Some (entries (puts s new) !! i) <-> is_Some (entries s !! i) \/ i ∈ id <$> new.
Proof.
  revert s. induction new as [|x new IH]; intros s; [cbn; rewrite elem_of_nil; naive_solver|].
  change (is_Some (entries (puts (apply (REntry x) s) new) !! i) <-> is_Some (entries s !! i) \/ i ∈ id <$> x :: new).
  rewrite IH, fmap_cons, elem_of_cons. cbn. rewrite lookup_insert. case_decide; subst; [|naive_solver]. split; [by auto|]. intros _. left. by eexists.
Qed.

(** Each entry below the one before it. *)
Fixpoint linked (p : option string) (new : list SessionEntry) : Prop :=
  match new with
  | [] => True
  | e :: new' => parent_id e = p /\ linked (Some (id e)) new'
  end.

(** Where the last one is: the given place when there is none. *)
Definition tip (p : option string) (new : list SessionEntry) : option string :=
  match last new with Some e => Some (id e) | None => p end.

Lemma tip_cons p e new : tip p (e :: new) = tip (Some (id e)) new.
Proof. unfold tip. by destruct new as [|x new]; [|rewrite last_cons_cons; destruct (last (x :: new)) eqn:Hl; [|by apply last_None in Hl]]. Qed.

(** The chain of the last one is the new entries, and above them the chain of the place. *)
Lemma linked_chain es p new up : linked p new -> (forall e, e ∈ new -> es !! id e = Some e) -> chain es p up ->
  chain es (tip p new) (rev new ++ up).
Proof.
  revert p up. induction new as [|e new IH]; intros p up Hl He Hc; [done|]. destruct Hl as [Hp Hl]. rewrite tip_cons. cbn [rev]. rewrite <-app_assoc.
  apply IH; [done|intros x Hx; apply He; by right|]. cbn. split; [apply He; by left|by rewrite Hp].
Qed.

Lemma chain_mono es es' p up : (forall e, e ∈ up -> es' !! id e = Some e) -> keyed es -> chain es p up -> chain es' p up.
Proof.
  intros He Hk. revert p. induction up as [|e up IH]; intros [i|]; cbn; try done. intros [Hi Hc]. split.
  - rewrite <-(Hk i e Hi). apply He. by left.
  - apply IH; [|done]. intros x Hx. apply He. by right.
Qed.

(** *** The leaf and the metadata after a batch *)

Lemma seal_tree sid s new : tree sid s -> topdown (dom (entries s)) new -> tree sid (puts s new).
Proof.
  revert s. induction new as [|e new IH]; intros s Ht Htop; [done|]. destruct Htop as (Hnew & Hp & Htop).
  apply (IH (apply (REntry e) s)); [|cbn; by rewrite dom_insert_L]. apply tree_insert; [done|]. unfold puttable.
  apply not_elem_of_dom in Hnew. rewrite Hnew. destruct (parent_id e); [|done]. by apply elem_of_dom.
Qed.

(** The session after the new entries, the new leaf and the new metadata. *)
Definition sealed (s : LoadedSession) (new : list SessionEntry) (i : string) (m : SessionMeta) : LoadedSession :=
  apply (RMeta m) (apply (RLeaf (Some i)) (puts s new)).

Lemma sealed_fields s new i m : meta (sealed s new i m) = Some m /\ entries (sealed s new i m) = entries (puts s new) /\
  leaf (sealed s new i m) = Some i.
Proof. unfold sealed. destruct (apply_meta_unfold m (apply (RLeaf (Some i)) (puts s new))) as (-> & -> & ->). done. Qed.

(** *** The copies of a path *)

Lemma linked_app p a b : linked p (a ++ b) <-> linked p a /\ linked (tip p a) b.
Proof.
  revert p. induction a as [|e a IH]; intros p; cbn [linked app]; [naive_solver|]. rewrite IH, tip_cons. naive_solver.
Qed.

Lemma tip_snoc p a e : tip p (a ++ [e]) = Some (id e).
Proof. unfold tip. by rewrite last_snoc. Qed.

(** A path from the root is linked. *)
Lemma chain_linked m c up : keyed m -> chain m c up -> linked None (rev up) /\ tip None (rev up) = c.
Proof.
  intros Hk. revert c. induction up as [|e up IH]; intros [i|]; cbn [chain rev]; try done. intros [Hi Hc]. destruct (IH _ Hc) as [Hl Ht].
  rewrite linked_app, tip_snoc, Ht, (Hk i e Hi). by split_and!.
Qed.

(** What is kept of an entry in its copy. *)
Record copy_of (ids : gmap string string) (e c : SessionEntry) : Prop := {
  copy_id : ids !! id e = Some (id c);
  copy_time : timestamp c = timestamp e;
  copy_revision : revision c = 0%Z;
  copy_origin : origin c = origin e;
  copy_body : match e, c with
              | EMessage _ _ _ _ _ m, EMessage _ _ _ _ _ m' => m' = m
              | ECustom _ _ _ _ _ ty d, ECustom _ _ _ _ _ ty' d' => ty' = ty /\ d' = remap_custom_data ty d ids
              | _, _ => False
              end;
}.

Lemma copy_entry_of ids e c : copy_entry ids e = Some c ->
  copy_of ids e c /\ match parent_id e with Some q => exists n, ids !! q = Some n /\ parent_id c = Some n | None => parent_id c = None end.
Proof.
  unfold copy_entry. destruct (ids !! id e) as [i|] eqn:Hi; [|done]. cbn [mbind option_bind].
  destruct (parent_id e) as [q|]; [destruct (ids !! q) as [n|]; [|done]|]; cbn; intros [= <-]; destruct e; (split; [by split|]); try (by exists n); done.
Qed.

Lemma copies_of ids path copies : mapM (copy_entry ids) path = Some copies -> Forall2 (copy_of ids) path copies.
Proof. intros Hc%mapM_Some_1. eapply Forall2_impl; [exact Hc|]. intros e c. cbn. intros Hec. by apply copy_entry_of. Qed.

Lemma copies_linked ids path copies p : mapM (copy_entry ids) path = Some copies -> linked p path ->
  linked (match p with Some q => ids !! q | None => None end) copies /\
  tip (match p with Some q => ids !! q | None => None end) copies = match tip p path with Some q => ids !! q | None => None end.
Proof.
  intros Hc%mapM_Some_1. revert p. induction Hc as [|e c path copies Hec Hc IH]; intros p; [done|]. intros [Hp Hl].
  apply copy_entry_of in Hec as [Hcopy Hpar]. rewrite !tip_cons. destruct (IH (Some (id e)) Hl) as [IH1 IH2]. rewrite (copy_id _ _ _ Hcopy) in *.
  split; [|done]. split; [|done]. rewrite Hp in Hpar. destruct p as [q|]; [destruct Hpar as (n & -> & ->)|]; done.
Qed.

Section Handlers.
Context (mf : MayFail) `{Crates}.

(** Some operation may fail. *)
Definition faulty : Prop := exists B (op : Op B), mf B op = true.

(** *** Forks *)

(** The ids given out are new to the store and to each other. *)
Record assigned (l : Model) (u : gset string) (ids : gmap string string) : Prop := {
  as_fresh : forall i n, ids !! i = Some n -> n ∈ u /\ fresh EntryId n l;
  as_inj : injective ids;
}.

Lemma wp_fresh_ids {A} path ids (k : gmap string string -> Prog A) o u l Q : assigned l u ids ->
  (forall ids' u', assigned l u' ids' -> (forall i, is_Some (ids' !! i) <-> is_Some (ids !! i) \/ i ∈ id <$> path) ->
     wp mf (k ids') o u' l Q) ->
  wp mf (fresh_ids path ids k) o u l Q.
Proof.
  revert ids u. induction path as [|e path IH]; intros ids u Ha Hk; cbn [fresh_ids].
  { apply Hk; [done|]. intros i. split; [by left|]. intros [|Hi]; [done|]. by apply elem_of_nil in Hi. }
  cbn [wp gains]. intros i Hi _ Hf. apply IH.
  - destruct Ha as [Hfr Hinj]. split.
    + intros j n. rewrite lookup_insert. case_decide; [intros [= <-]; split; [set_solver|done]|]. intros Hj.
      destruct (Hfr j n Hj). split; [set_solver|done].
    + intros j j' n. rewrite !lookup_insert. repeat case_decide; intros; simplify_eq; [done|..|by eapply Hinj].
      * exfalso. by destruct (Hfr j' n) as [? _].
      * exfalso. by destruct (Hfr j n) as [? _].
  - intros ids' u' Ha' Hdom. apply Hk; [done|]. intros j. rewrite Hdom, lookup_insert. cbn. rewrite elem_of_cons.
    case_decide; subst; [|naive_solver]. split; [by right; left|left; by eexists].
Qed.

Lemma wp_put_entries {A} sid es (k : Prog A) o u l Q : sid ∈ o -> trees o l -> topdown (dom (entries (sess sid l))) es ->
  (trees o (foldl (put_one sid) l es) -> wp mf k o u (foldl (put_one sid) l es) Q) ->
  (faulty -> forall e l', trees o l' -> Q (Err (Failed e)) o l') ->
  wp mf (put_entries sid es k) o u l Q.
Proof.
  intros Hs. revert l. induction es as [|e es IH]; intros l Htr Ht Hk Herr; [auto|]. destruct Ht as (Hnew & Hp & Ht).
  assert (puttable e (sess sid l)) as Hput.
  { unfold puttable. apply not_elem_of_dom in Hnew. rewrite Hnew. destruct (parent_id e); [|done]. by apply elem_of_dom. }
  pose proof (trees_spec (PutEntry sid e) sid o l eq_refl Hput Htr) as Htr'. cbn [put_entries].
  apply (wp_call mf _ _ _ _ _ _ sid); [done..| |done|].
  - intros [] _. apply IH; auto. rewrite spec_put_entry. cbn. by rewrite dom_insert_L.
  - intros x Hx. split; apply Herr; auto; by eexists _, _.
Qed.

Definition copy_one (from to : string) (l : Model) (aid : string) : Model :=
  match blobs from l !! aid with
  | Some (a, bytes) => (spec (PutAttachment (copied_attachment to a) bytes) l).2
  | None => l
  end.

Lemma copy_one_sess from to l aid s : sess s (copy_one from to l aid) = sess s l.
Proof. unfold copy_one. by destruct (blobs from l !! aid) as [[a bytes]|]. Qed.

Lemma trees_sess o l l' : (forall s, sess s l' = sess s l) -> trees o l -> trees o l'.
Proof. intros Hs Htr t Ht. unfold tree_inv. rewrite Hs. by apply Htr. Qed.

Lemma copies_sess from to l aids s : sess s (foldl (copy_one from to) l aids) = sess s l.
Proof. revert l. induction aids as [|a aids IH]; intros l; [done|]. cbn [foldl]. by rewrite IH, copy_one_sess. Qed.

Lemma wp_copy_attachments {A} from to aids (k : Prog A) o u l Q : from ∈ o -> to ∈ o -> trees o l ->
  wp mf k o u (foldl (copy_one from to) l aids) Q ->
  (faulty -> forall e l', trees o l' -> Q (Err (Failed e)) o l') ->
  wp mf (copy_attachments from to aids k) o u l Q.
Proof.
  intros Hfr Hto. revert l. induction aids as [|i aids IH]; intros l Htr Hk Herr; [done|]. cbn [copy_attachments].
  apply (wp_read_sure mf _ _ _ _ _ _ from); [done..| |intros Hx e; apply Herr; [by eexists _, _|done]]. intros found [= ->]. cbn [foldl] in Hk. unfold copy_one at 2 in Hk.
  destruct (blobs from l !! i) as [[a bytes]|]; [|by apply IH].
  assert (trees o (spec (PutAttachment (copied_attachment to a) bytes) l).2) as Htr' by (by eapply trees_sess; [|exact Htr]).
  apply (wp_call_any mf _ _ _ _ _ _ to); [done..| |done| |]; [intros [] _; by apply IH| |].
  - intros x Hx. split; apply Herr; auto; by eexists _, _.
  - intros x l' Hx Hl'. apply Herr; [by eexists _, _|]. eapply trees_sess; [intros t; by eapply partly_sess|done].
Qed.

(** *** [append_many] *)

Definition batch_entry (now : Z) (org : option JsonMap) (m : AgentMessage) (e : SessionEntry) : Prop :=
  exists i p, e = EMessage i p now 0 org m.

Definition batch_events (w : bool) (sid : string) (md : option JsonMap) (new : list SessionEntry) : list EmittableEvent :=
  if w then (λ e, added_event sid e md) <$> new else [].

Lemma known_place sid p l : place sid p l <-> from_option (λ q, q ∈ dom (entries (sess sid l))) True p.
Proof. destruct p as [q|]; [|done]. cbn. by rewrite elem_of_dom. Qed.

Lemma wp_put_all sid org now md w msgs p ids evs o u l Q : sid ∈ o -> trees o l -> place sid p l ->
  (forall new, Forall2 (batch_entry now org) msgs new -> linked p new -> topdown (dom (entries (sess sid l))) new ->
     trees o (foldl (put_one sid) l new) ->
     Q (Ok (ids ++ (id <$> new), evs ++ batch_events w sid md new)) o (foldl (put_one sid) l new)) ->
  (faulty -> forall e l', trees o l' -> Q (Err (Failed e)) o l') ->
  wp mf (put_all sid org now md w msgs p ids evs) o u l Q.
Proof.
  intros Hs. revert p ids evs u l. induction msgs as [|m msgs IH]; intros p ids evs u l Htr Hp Hok Herr; cbn [put_all wp ret].
  { specialize (Hok []). cbn in Hok. unfold batch_events in Hok. rewrite app_nil_r in Hok.
    assert (evs ++ (if w then (λ e, added_event sid e md) <$> [] else []) = evs) as He by (destruct w; apply app_nil_r).
    rewrite He in Hok. by apply Hok. }
  intros i _ _ Hi. cbn [gains]. set (e := EMessage i p now 0 org m).
  assert (puttable e (sess sid l)) as Hput by (unfold puttable; cbn [id parent_id e]; rewrite (Hi sid); by destruct p).
  pose proof (trees_spec (PutEntry sid e) sid o l eq_refl Hput Htr) as Htr'.
  apply (wp_call mf _ _ _ _ _ _ sid); [done..| |done|intros x Hx; split; apply Herr; auto; by eexists _, _].
  intros [] _. apply IH; auto; [by cbn [place from_option]; rewrite spec_put_entry; cbn; rewrite lookup_insert_eq; eexists|].
  intros new Hnew Hl Htop Htr2. specialize (Hok (e :: new)). cbn [foldl] in Hok.
  assert (ids ++ (id <$> e :: new) = (ids ++ [i]) ++ (id <$> new)) as He1 by by rewrite <-app_assoc.
  assert (evs ++ batch_events w sid md (e :: new) = (if w then evs ++ [added_event sid e md] else evs) ++ batch_events w sid md new) as He2
    by (unfold batch_events; destruct w; [by rewrite <-app_assoc|done]).
  rewrite He1, He2 in Hok. apply Hok; [constructor; [by eexists _, _|done]|by split| |done].
  rewrite spec_put_entry in Htop. cbn in Htop. rewrite dom_insert_L in Htop. split_and!; [|by apply known_place|exact Htop].
  apply not_elem_of_dom. apply (Hi sid).
Qed.

Definition parent_of_batch (req : AppendManyRequest) (s : LoadedSession) : option string :=
  match am_parent req with Some p => Some p | None => leaf s end.

(** The rule of [append_many]: it refuses and changes nothing, a call fails, or the batch is
    there with the new leaf and count. *)
Lemma wp_append_many req w o l Q : let sid := am_session req in let s := sess sid l in
  sid ∈ o -> trees o l -> (forall e, Q (Err (Failed e)) o l) -> (faulty -> forall e l', trees o l' -> Q (Err (Failed e)) o l') ->
  (forall m new e now l', meta s = Some m -> place sid (parent_of_batch req s) l ->
     Forall2 (batch_entry now (am_origin req)) (am_messages req) new -> linked (parent_of_batch req s) new ->
     topdown (dom (entries s)) new -> last new = Some e ->
     sess sid l' = sealed s new (id e) (with_count (add_u64 (message_count m) (Z.of_nat (length new))) now m) ->
     (forall t, t <> sid -> sess t l' = sess t l) -> (forall t, blobs t l' = blobs t l) -> trees o l' ->
     Q (Ok (mk_appended_many (id <$> new) (id e), batch_events w sid (metadata m) new)) o l') ->
  wp mf (append_many req w) o ∅ l Q.
Proof.
  intros sid s Hs Htr Hrefuse Herr Hok. unfold append_many. fold sid. unfold meta_or_not_found.
  apply (wp_read mf _ _ _ _ _ _ sid); [done..| |auto]. intros found [= ->]. fold s. destruct (meta s) as [m|] eqn:Hm; [|apply Hrefuse].
  pose proof (meta_name _ _ _ _ Htr Hs Hm) as Hn. destruct (am_messages req) as [|msg0 msgs0] eqn:Hmsgs; [apply Hrefuse|]. rewrite <-Hmsgs in *.
  assert (place sid (parent_of_batch req s) l -> forall u, wp mf (Now (λ now, bind (put_all sid (am_origin req) now (metadata m) w (am_messages req) (parent_of_batch req s) [] [])
      (λ r, let '(ids, evs) := r in match last ids with None => panic | Some i =>
        _ ←{ SetActiveLeaf sid i } _ ←{ PutMeta (with_count (add_u64 (message_count m) (Z.of_nat (length ids))) now m) }
        ret (mk_appended_many ids i, evs) end))) o u l Q) as Hrest.
  { intros Hp u now. apply bind_run. apply wp_put_all; [done|done|done| |done]. intros new Hnew Hl Htop Htr1 u' _. cbn [app].
    assert (exists e, last new = Some e) as [e He].
    { destruct (last new) as [e|] eqn:He; [by eexists|]. apply last_None in He as ->. rewrite Hmsgs in Hnew. by inversion Hnew. }
    rewrite fmap_last, He. cbn [fmap option_fmap option_map]. set (l1 := foldl (put_one sid) l new).
    assert (is_Some (entries (sess sid l1) !! id e)) as Hin.
    { unfold l1. rewrite puts_model. apply puts_dom. right. apply list_elem_of_fmap. exists e. split; [done|]. rewrite last_lookup in He.
      by eapply list_elem_of_lookup_2. }
    pose proof (trees_spec (SetActiveLeaf sid (id e)) sid o l1 eq_refl Hin Htr1) as Htr2.
    apply (wp_call mf _ _ _ _ _ _ sid); [done..| |done|intros x Hx; split; apply Herr; auto; by eexists _, _]. intros [] _.
    rewrite length_fmap. set (m' := with_count _ now m).
    pose proof (trees_spec (PutMeta m') sid o _ ltac:(cbn; by rewrite Hn) I Htr2) as Htr3.
    apply (wp_call mf _ _ _ _ _ _ sid); [done|by cbn; rewrite Hn|done| |done|intros x Hx; split; apply Herr; auto; by eexists _, _]. intros [] _.
    cbn [wp ret]. apply (Hok m new e now); try done.
    - cbn [spec snd]. rewrite !sess_change. change (session_id m') with (session_id m). rewrite Hn, !decide_True by done. unfold l1. by rewrite puts_model.
    - intros t Ht. cbn [spec snd]. rewrite !sess_change. change (session_id m') with (session_id m). rewrite Hn, !decide_False by done.
      by apply puts_other.
    - intros t. apply (puts_blobs sid l new t). }
  unfold resolve_parent, parent_of_batch in *. destruct (am_parent req) as [p|].
  - apply (wp_read mf _ _ _ _ _ _ sid); [done..| |auto]. intros b [= ->]. fold s. destruct (entries s !! p) eqn:Hp; [|apply Hrefuse].
    apply Hrest. cbn. fold s. by rewrite Hp.
  - apply (wp_read mf _ _ _ _ _ _ sid); [done..| |auto]. intros b [= ->]. fold s. apply Hrest.
    destruct (leaf s) eqn:Hl; [|done]. by apply (tree_leaf _ _ (Htr sid Hs)).
Qed.

Lemma append_many_tree req w o l : am_session req ∈ o -> trees o l -> wp mf (append_many req w) o ∅ l leaves_trees.
Proof. intros Hs Htr. apply wp_append_many; [done|done|intros e; tree_done|intros _ e l' Htr'; tree_done|]. intros. tree_done. Qed.

(** *** [fork] *)

Lemma copy_one_other from to l aid t : t <> to -> blobs t (copy_one from to l aid) = blobs t l.
Proof. intros Ht. unfold copy_one. destruct (blobs from l !! aid) as [[a b]|]; [|done]. cbn. by rewrite blobs_set, decide_False. Qed.

Lemma copies_other from to l aids t : t <> to -> blobs t (foldl (copy_one from to) l aids) = blobs t l.
Proof. intros Ht. revert l. induction aids as [|a aids IH]; intros l; [done|]. cbn [foldl]. by rewrite IH, copy_one_other. Qed.

(** The attachments of a session are stored under their ids. *)
Definition blobs_keyed (b : Blobs) : Prop := forall i a bytes, b !! i = Some (a, bytes) -> attachment_id a = i.

(** The copied attachments: those asked for that the source has. *)
Lemma copies_blobs from to l aids i : from <> to -> blobs_keyed (blobs from l) ->
  blobs to (foldl (copy_one from to) l aids) !! i =
  if decide (i ∈ aids /\ is_Some (blobs from l !! i)) then (λ x : AttachmentMeta * string, (copied_attachment to x.1, x.2)) <$> blobs from l !! i
  else blobs to l !! i.
Proof.
  intros Hne Hk. revert l Hk. induction aids as [|a aids IH]; intros l Hk; cbn [foldl].
  { rewrite decide_False; [done|]. intros [Hi _]. by apply elem_of_nil in Hi. }
  rewrite IH; rewrite (copy_one_other from to l a from Hne); [|done].
  destruct (blobs from l !! i) as [[a0 b0]|] eqn:Hi.
  - destruct (decide (i ∈ aids)) as [Hin|Hin].
    + rewrite !decide_True; [done|split; [by right|by eexists]|split; [done|by eexists]].
    + rewrite decide_False by (intros [? _]; done). destruct (decide (i = a)) as [->|Hia].
      * rewrite decide_True by (split; [by left|by eexists]). unfold copy_one. rewrite Hi. cbn. rewrite blobs_set, decide_True by done. cbn.
        rewrite (Hk a a0 b0 Hi). by rewrite lookup_insert_eq.
      * rewrite decide_False by (intros [[->|?]%elem_of_cons _]; done). unfold copy_one. destruct (blobs from l !! a) as [[a1 b1]|] eqn:Ha; [|done].
        cbn. rewrite blobs_set, decide_True by done. cbn. rewrite (Hk a a1 b1 Ha). by rewrite lookup_insert_ne.
  - rewrite !decide_False by (intros [_ [? ?]]; done). unfold copy_one. destruct (blobs from l !! a) as [[a1 b1]|] eqn:Ha; [|done].
    cbn. rewrite blobs_set, decide_True by done. cbn. rewrite (Hk a a1 b1 Ha). rewrite lookup_insert_ne; [done|]. intros ->. by rewrite Ha in Hi.
Qed.

(** The rule of [fork]: it refuses and changes nothing, a call fails, or the copy is there. *)
Lemma wp_fork req o l Q : let sid := fk_session req in let s := sess sid l in
  sid ∈ o -> trees o l -> (forall e, Q (Err (Failed e)) o l) -> (faulty -> forall e o' l', trees o' l' -> Q (Err (Failed e)) o' l') ->
  (forall source path ids copies new_sid e now l', meta s = Some source -> active_path (entries s) (fk_entry req) = Ok path ->
     new_sid ∉ o -> sess new_sid l = empty_session -> blobs new_sid l = ∅ ->
     injective ids -> (forall i n, ids !! i = Some n -> fresh EntryId n l) ->
     mapM (copy_entry ids) path = Some copies -> linked None copies -> topdown ∅ copies -> last copies = Some e ->
     sess new_sid l' = sealed empty_session copies (id e)
       (forked_meta new_sid req source now (length (filter (λ e, Is_true (is_message e)) path))) ->
     blobs new_sid l' = blobs new_sid (foldl (copy_one sid new_sid) l (referenced_attachment_ids path)) ->
     (forall t, t <> new_sid -> sess t l' = sess t l /\ blobs t l' = blobs t l) -> trees ({[ new_sid ]} ∪ o) l' ->
     let m' := forked_meta new_sid req source now (length (filter (λ e, Is_true (is_message e)) path)) in
     Q (Ok (new_sid, m', [created_event m'])) ({[ new_sid ]} ∪ o) l') ->
  wp mf (fork req) o ∅ l Q.
Proof.
  intros sid s Hs Htr Hrefuse Herr Hok. unfold fork, meta_or_not_found. fold sid.
  apply (wp_read mf _ _ _ _ _ _ sid); [done..| |auto]. intros found [= ->]. fold s. destruct (meta s) as [source|] eqn:Hm; [|apply Hrefuse].
  apply (wp_read mf _ _ _ _ _ _ sid); [done..| |auto]. intros es [= ->]. cbn [fst spec]. fold s.
  pose proof (Htr _ Hs) as Ht. fold s in Ht. assert (keyed (entries s)) as Hk by exact (tree_keys _ _ Ht).
  rewrite (by_id_values _ Hk). destruct (entries s !! fk_entry req) as [e0|] eqn:He0; [|apply Hrefuse].
  destruct (active_path (entries s) (fk_entry req)) as [path|err] eqn:Hpath; cbn [lift]; [|apply Hrefuse].
  cbn [wp gains]. intros new_sid _ Hnew [Hse Hbl] now.
  apply wp_fresh_ids; [split; [intros i n|intros i j n]; by rewrite lookup_empty|]. intros ids u [Hfr Hinj] Hdom.
  pose proof Hpath as Hchain. apply active_path_chain in Hchain; [|done].
  pose proof (chain_topdown _ _ _ Hk Hchain) as Htop. rewrite rev_involutive in Htop.
  destruct (chain_linked _ _ _ Hk Hchain) as [Hlink Htip]. rewrite rev_involutive in Hlink, Htip.
  destruct (copies_topdown ids ∅ path) as (copies & Hc & Htc); [done|done|set_solver| |].
  { intros e He. apply Hdom. right. apply list_elem_of_fmap. by exists e. }
  assert (image ids ∅ = ∅) as Him by (apply set_eq; intros x; rewrite elem_of_image; set_solver). rewrite Him in Htc.
  destruct (copies_linked ids path copies None Hc Hlink) as [Hlc Htc2]. rewrite Htip in Htc2. rewrite Hc.
  assert (exists e, last copies = Some e /\ ids !! fk_entry req = Some (id e)) as (e & Hlast & Hleaf).
  { unfold tip in Htip, Htc2. destruct (last path) as [x|] eqn:Hlp; [|done]. destruct (last copies) as [c|] eqn:Hlc'; [by exists c|].
    apply last_None in Hlc' as ->. apply mapM_Some_1 in Hc. inversion Hc; subst. done. }
  set (o' := {[ new_sid ]} ∪ o). assert (new_sid ∈ o' /\ sid ∈ o') as [Hin1 Hin2] by (unfold o'; set_solver).
  assert (trees o' l) as Htr1 by by apply trees_gain.
  apply wp_put_entries; [done|done|by rewrite Hse; cbn; rewrite dom_empty_L| |intros Hf e1 l' Htr'; by apply Herr]. intros Htr2.
  apply wp_copy_attachments; [done|done|done| |intros Hf e1 l' Htr'; by apply Herr]. rewrite Hleaf.
  set (l1 := foldl (put_one new_sid) l copies). set (l2 := foldl (copy_one sid new_sid) l1 _).
  assert (trees o' l2) as Htr3 by (by eapply trees_sess; [intros t; apply copies_sess|]).
  assert (is_Some (entries (sess new_sid l2) !! id e)) as Hin.
  { unfold l2, l1. rewrite copies_sess, puts_model. apply puts_dom. right. apply list_elem_of_fmap. exists e. split; [done|].
    rewrite last_lookup in Hlast. by eapply list_elem_of_lookup_2. }
  pose proof (trees_spec (SetActiveLeaf new_sid (id e)) new_sid o' l2 eq_refl Hin Htr3) as Htr4.
  apply (wp_call mf _ _ _ _ _ _ new_sid); [done..| |done|intros x Hx; split; apply Herr; auto; by eexists _, _]. intros [] _. cbv zeta.
  set (m' := forked_meta _ _ _ _ _). pose proof (trees_spec (PutMeta m') new_sid o' _ eq_refl I Htr4) as Htr5.
  apply (wp_call mf _ _ _ _ _ _ new_sid); [done..| |done|intros x Hx; split; apply Herr; auto; by eexists _, _]. intros [] _. cbn [wp ret].
  apply (Hok source path ids copies new_sid e now); try done.
  - intros i n Hi. by apply (Hfr i).
  - cbn [spec snd]. rewrite !sess_change. change (session_id m') with new_sid. rewrite !decide_True by done. unfold l2, l1. by rewrite copies_sess, puts_model, Hse.
  - cbn [spec snd]. rewrite !blobs_change. unfold l2, l1. apply map_eq. intros i.
    assert (forall aids l0 l0', (forall t, blobs t l0 = blobs t l0') -> forall t, blobs t (foldl (copy_one sid new_sid) l0 aids) = blobs t (foldl (copy_one sid new_sid) l0' aids)) as Hsame.
    { induction aids as [|a aids IH]; intros l0 l0' Hl0; [done|]. cbn [foldl]. apply IH. intros t. unfold copy_one. rewrite Hl0.
      destruct (blobs sid l0' !! a) as [[a1 b1]|]; [|done]. cbn. rewrite !blobs_set. case_decide; [by rewrite Hl0|done]. }
    by rewrite (Hsame _ _ l) by (intros t; apply puts_blobs).
  - intros t Ht'. cbn [spec snd]. rewrite !sess_change, !blobs_change. change (session_id m') with new_sid. rewrite !decide_False by done. unfold l2, l1.
    rewrite copies_sess, puts_other by done. split; [done|]. rewrite copies_other by done. apply puts_blobs.
Qed.

Lemma fork_tree req o l : fk_session req ∈ o -> trees o l -> wp mf (fork req) o ∅ l leaves_trees.
Proof. intros Hs Htr. apply wp_fork; [done|done|intros e; tree_done|intros _ e o' l' Htr'; tree_done|]. intros. tree_done. Qed.

End Handlers.
End BatchRules.
