(* ===== verification/SessionServe.v ===== *)
(** * The worker under load (session-manager/src/functions/*.rs, service.rs)

    [Serve] is the set of requests the worker serves, with the session each of them locks and
    the handler it runs.  [ServeProperties]: however the handlers of many requests interleave
    and whatever the store fails, every handler does what it would do alone, every session
    nobody works on is a tree, and no handler panics. *)

From Stdlib Require Import Ascii ZArith Lia.
From stdpp Require Import relations.
From S2P Require Import Prelude Json Codec JsonText SessionTypes SessionLog SessionLife SessionStore SessionEvents SessionService SessionRead SessionRun SessionTree SessionBatch SessionPages.
Import Types Contract Prog.

Module Serve.
Import Service Readers Events.
Local Open Scope prog_scope.

Inductive Request : Type :=
| RCreate (r : CreateRequest)
| REnsure (r : EnsureRequest)
| RGet (sid : string)
| RList (r : ListRequest)
| RSetMeta (r : SetMetaRequest)
| RSetDraft (r : SetDraftRequest)
| RSetStatus (r : SetStatusRequest)
| RDelete (sid : string)
| RAppend (r : AppendRequest)
| RAppendMany (r : AppendManyRequest)
| RUpdateMessage (r : UpdateMessageRequest)
| RMessages (r : MessagesRequest)
| RGetMessage (sid eid : string) (images : option bool)
| RMessagesTail (r : TailRequest)
| RMessagesRange (r : RangeRequest)
| RPutAttachment (r : PutAttachmentRequest)
| RGetAttachment (sid aid : string) (data : option bool)
| RDeleteAttachment (sid aid : string)
| RListAttachments (sid : string)
| RFork (r : ForkRequest)
| RSetActiveLeaf (sid eid : string).

(** The session whose lock the handler takes; readers and [create] take none. *)
Definition locks (r : Request) : gset string :=
  match r with
  | REnsure r => {[ en_session r ]}
  | RSetMeta r => {[ sm_session r ]}
  | RSetDraft r => {[ sd_session r ]}
  | RSetStatus r => {[ ss_session r ]}
  | RDelete sid | RDeleteAttachment sid _ | RSetActiveLeaf sid _ => {[ sid ]}
  | RAppend r => {[ ap_session r ]}
  | RAppendMany r => {[ am_session r ]}
  | RUpdateMessage r => {[ um_session r ]}
  | RPutAttachment r => {[ pa_session r ]}
  | RFork r => {[ fk_session r ]}
  | _ => ∅
  end.

Section Serve.
Context `{Crates} `{SerdeFile} (cfg : ServiceConfig) (em : Emitter).

(** The events of a reply, and those of a handler that emits none. *)
Definition events_of {A} (p : Reply A) : Prog (list EmittableEvent) := r ←% p; ret r.2.
Definition no_events {A} (p : Prog A) : Prog (list EmittableEvent) := _ ←% p; ret [].

(** The handler's run, up to the events it hands to the emitter. *)
Definition serve (r : Request) : Prog (list EmittableEvent) :=
  match r with
  | RCreate r => events_of (create r)
  | REnsure r => events_of (ensure r)
  | RGet sid => no_events (get sid)
  | RList r => no_events (list_sessions cfg r)
  | RSetMeta r => events_of (set_meta r)
  | RSetDraft r => events_of (set_draft r)
  | RSetStatus r => events_of (set_status r)
  | RDelete sid => events_of (delete_session sid)
  | RAppend r => events_of (append r (wants em MessageAdded))
  | RAppendMany r => events_of (append_many r (wants em MessageAdded))
  | RUpdateMessage r => events_of (update_message r (wants em MessageUpdated))
  | RMessages r => no_events (messages cfg r)
  | RGetMessage sid eid images => no_events (get_message sid eid images)
  | RMessagesTail r => no_events (messages_tail cfg r)
  | RMessagesRange r => no_events (messages_range cfg r)
  | RPutAttachment r => no_events (put_attachment cfg r)
  | RGetAttachment sid aid data => no_events (get_attachment sid aid data)
  | RDeleteAttachment sid aid => no_events (delete_attachment sid aid)
  | RListAttachments sid => no_events (list_attachments sid)
  | RFork r => events_of (fork r)
  | RSetActiveLeaf sid eid => events_of (set_active_leaf sid eid)
  end.

(** The handlers of the worker. *)
Definition served (o : gset string) (p : Prog (list EmittableEvent)) : Prop := exists r, o = locks r /\ p = serve r.

End Serve.
End Serve.

(** ** Readers *)

Module ReaderRules.
Import Log Run Views Service Readers Pagination BlockRules.

(** It only reads and does not panic, whatever it is answered. *)
Fixpoint calm {A} (p : Prog A) : Prop :=
  match p with
  | Done r => r <> Err Panicked
  | Do op k => read_only op = true /\ forall r, calm (k r)
  | Now k => forall t, calm (k t)
  | NewId _ _ => False
  end.

Lemma calm_bind {A B} (p : Prog A) (f : A -> Prog B) : calm p -> (forall a, calm (f a)) -> calm (bind p f).
Proof.
  intros Hp Hf. induction p as [[a|e]|C op k IH|k IH|kd k IH]; cbn [calm bind] in *; [auto| |naive_solver|naive_solver|done].
  intros [=]. by subst.
Qed.

Lemma calm_call {A B} (op : Op B) (k : B -> Prog A) : read_only op = true -> (forall b, calm (k b)) -> calm (call op k).
Proof. intros Hr Hk. split; [done|]. intros [b|e]; [auto|done]. Qed.

Lemma calm_lift {A B} (r : result A SessionError) (k : A -> Prog B) : (forall a, calm (k a)) -> calm (lift r k).
Proof. intros Hk. destruct r; [apply Hk|done]. Qed.

Lemma calm_wp mf {A} (p : Prog A) o u l : calm p -> wp mf p o u l (λ r o' l', o' = o /\ l' = l /\ r <> Err Panicked).
Proof.
  revert u l. induction p as [r|B op k IH|k IH|kd k IH]; intros u l; cbn [calm wp]; [auto| |auto|done].
  intros [Hr Hk]. split_and!; [by right| |auto]. intros _ r l' Ha. rewrite (allowed_read mf op _ _ _ Hr Ha). auto.
Qed.

Section Readers.
Context `{Crates} `{SerdeFile} (cfg : ServiceConfig) (Hmax : max_list_limit cfg <> 0).

Lemma calm_meta {A} sid (k : SessionMeta -> Prog A) : (forall m, calm (k m)) -> calm (meta_or_not_found sid k).
Proof. intros Hk. apply calm_call; [done|]. intros [m|]; [auto|done]. Qed.

Lemma calm_clamp {A} limit (k : nat -> Prog A) : (forall n, calm (k n)) -> calm (clamp_limit cfg limit k).
Proof. intros Hk. unfold clamp_limit. rewrite (proj2 (Nat.eqb_neq _ _)) by done. apply Hk. Qed.

Ltac calm_tac := repeat first
  [ done
  | apply calm_meta; intros ?
  | apply calm_clamp; intros ?
  | apply calm_lift; intros ?
  | apply calm_call; [done|intros ?]
  | apply calm_bind; [|intros ?]
  | case_match ].

Lemma get_calm sid : calm (get sid).
Proof. unfold get. calm_tac. Qed.
Lemma list_calm req : calm (list_sessions cfg req).
Proof. unfold list_sessions. calm_tac. Qed.
Lemma messages_calm req : calm (messages cfg req).
Proof. unfold messages. calm_tac. Qed.
Lemma get_message_calm sid eid images : calm (get_message sid eid images).
Proof. unfold get_message. calm_tac. Qed.
Lemma get_attachment_calm sid aid data : calm (get_attachment sid aid data).
Proof. unfold get_attachment. calm_tac. Qed.
Lemma list_attachments_calm sid : calm (list_attachments sid).
Proof. unfold list_attachments. calm_tac. Qed.

(** An anchor on the path lies in a block. *)
Lemma block_of_some path i what o : block_of path (activity_blocks path) i what = Ok o -> exists n, o = Some n /\ n < length (activity_blocks path).
Proof.
  unfold block_of, position. destruct (list_find _ path) as [[n e]|] eqn:Hf; [|done]. cbn. intros [= <-].
  apply list_find_Some in Hf as (Hn & _). apply lookup_lt_Some in Hn.
  destruct (tiles_find 0 _ _ n (activity_blocks_tile path)) as (k & x & Hk & _ & ->); [lia|]. exists k. split; [done|by eapply lookup_lt_Some].
Qed.

Lemma calm_anchor {A} path i what (k : nat -> Prog A) : (forall n, n < length (activity_blocks path) -> calm (k n)) ->
  calm (lift (block_of path (activity_blocks path) i what) (λ o, expect o k)).
Proof. intros Hk. destruct (block_of _ _ _ _) as [o|] eqn:Ho; [|done]. apply block_of_some in Ho as (n & -> & Hn). cbn. auto. Qed.

Lemma messages_tail_calm req : calm (messages_tail cfg req).
Proof.
  unfold messages_tail. apply calm_meta. intros _. apply calm_call; [done|]. intros es. apply calm_call; [done|]. intros [i|]; [|done].
  apply calm_lift. intros whole. set (path := filter _ whole). apply calm_bind.
  - destruct (tl_before req); [|done]. by apply calm_anchor.
  - intros past. apply calm_clamp. intros limit.
    assert (forall first, first <= past -> calm (if past <? first then panic else ret (tail_page (negb (default true (tl_include_images req))) path first past))) as Hend.
    { intros first Hf. destruct (Nat.ltb_spec past first); [lia|done]. }
    destruct (tl_until req) as [i0|]; [|cbn [bind ret]; apply Hend; lia].
    destruct (block_of path (activity_blocks path) i0 "until_entry_id") as [o|] eqn:Ho; [|done].
    apply block_of_some in Ho as (n & -> & _). cbn [lift expect bind ret]. apply Hend. lia.
Qed.

Lemma dedup_elem x l : x ∈ dedup l -> x ∈ l.
Proof.
  induction l as [|a l IH]; [done|]. destruct l as [|b l]; [done|]. cbn [dedup]. case_match; [by right; auto|].
  intros [->|Hx]%elem_of_cons; [by left|right; auto].
Qed.

Lemma all_ok_Forall {A B E} (f : A -> result B E) (P : B -> Prop) l ys : (forall x y, f x = Ok y -> P y) -> all_ok f l = Ok ys -> Forall P ys.
Proof.
  intros Hf. revert ys. induction l as [|x l IH]; intros ys; cbn [all_ok]; [by intros [= <-]|].
  destruct (f x) eqn:Hx; [|done]. destruct (all_ok f l); [|done]. intros [= <-]. constructor; eauto.
Qed.

(** The selected positions are positions of the path. *)
Lemma selection_bound req m path ps : selection req m path = Ok ps -> Forall (λ i, i < length path) ps.
Proof.
  assert (forall i n, range_position (rg_session req) m path i = Ok n -> n < length path) as Hpos.
  { intros i n. unfold range_position, position. destruct (m !! i); [|done]. destruct (list_find _ path) as [[k e]|] eqn:Hf; [|done].
    intros [= <-]. apply list_find_Some in Hf as (Hk & _). by eapply lookup_lt_Some. }
  unfold selection. destruct (rg_from req) as [a|], (rg_to req) as [b|], (rg_ids req) as [ids|]; try done.
  - destruct (range_position _ m path a) as [x|] eqn:Ha; [|done]. destruct (range_position _ m path b) as [y|] eqn:Hb; [|done].
    destruct (Nat.ltb_spec y x); [done|]. intros [= <-]. apply Forall_forall. intros i Hi%elem_of_seq. specialize (Hpos _ _ Hb). lia.
  - destruct (all_ok _ ids) as [xs|] eqn:Hx; [|done]. intros [= <-]. apply Forall_forall. intros i Hi%dedup_elem.
    rewrite merge_sort_Permutation in Hi. assert (Forall (λ i, i < length path) xs) as Hall by (eapply all_ok_Forall; [|exact Hx]; auto).
    rewrite Forall_forall in Hall. auto.
Qed.

Lemma messages_range_calm req : calm (messages_range cfg req).
Proof.
  unfold messages_range. apply calm_meta. intros _. apply calm_call; [done|]. intros es. apply calm_call; [done|]. intros lf.
  apply calm_lift. intros path. destruct (selection req (by_id es) path) as [ps|] eqn:Hs; [|done]. cbn [lift].
  apply selection_bound in Hs. assert (is_Some (mapM (λ i, path !! i) ps)) as [sel ->].
  { apply mapM_is_Some. eapply Forall_impl; [exact Hs|]. intros i. apply lookup_lt_is_Some_2. }
  cbn [expect]. calm_tac.
Qed.

End Readers.
End ReaderRules.

(** ** Properties *)

Module ServeProperties.
Import Log Run Views System SystemRules Transcript TreeRules BatchRules ReaderRules Service Readers Serve Events.

Section Worker.
Context `{Crates} `{SerdeFile} (cfg : ServiceConfig) (em : Emitter) (mf : MayFail).

(** The removal of entries and leaf, when it is tried, is answered. *)
Definition deletes_answer : Prop :=
  forall A (op : Op A), match op with DeleteEntries _ | DeleteActiveLeaf _ => mf A op = false | _ => True end.

Context (Hdel : deletes_answer) (Hmax : max_list_limit cfg <> 0).

Lemma wp_events {A} (p : Reply A) o u l : wp mf p o u l leaves_trees -> wp mf (events_of p) o u l leaves_trees.
Proof. intros Hp. apply bind_run. eapply run_mono; [|exact Hp]. intros [[a es]|e] o' l' [Ht Hr]; [intros u' _|]; (split; [done|congruence]). Qed.

Lemma wp_no_events {A} (p : Prog A) o u l : wp mf p o u l leaves_trees -> wp mf (no_events p) o u l leaves_trees.
Proof. intros Hp. apply bind_run. eapply run_mono; [|exact Hp]. intros [a|e] o' l' [Ht Hr]; [intros u' _|]; (split; [done|congruence]). Qed.

Lemma wp_reader {A} (p : Prog A) o u l : calm p -> trees o l -> wp mf (no_events p) o u l leaves_trees.
Proof. intros Hc Ht. apply wp_no_events. eapply run_mono; [|by apply calm_wp]. intros r o' l' (-> & -> & Hr). done. Qed.

Lemma serve_tree r l : trees (locks r) l -> wp mf (serve cfg em r) (locks r) ∅ l leaves_trees.
Proof.
  intros Ht. destruct r; cbn [serve locks] in *; first [apply wp_events|idtac].
  - apply create_tree.
  - apply ensure_tree; [set_solver|done].
  - by apply wp_reader; [apply get_calm|].
  - by apply wp_reader; [apply list_calm|].
  - apply set_meta_tree; [set_solver|done].
  - apply set_draft_tree; [set_solver|done].
  - apply set_status_tree; [set_solver|done].
  - apply delete_session_tree; [exact Hdel|set_solver|done].
  - apply append_tree; [set_solver|done].
  - apply append_many_tree; [set_solver|done].
  - apply update_message_tree; [set_solver|done].
  - by apply wp_reader; [apply messages_calm|].
  - by apply wp_reader; [apply get_message_calm|].
  - by apply wp_reader; [apply messages_tail_calm|].
  - by apply wp_reader; [apply messages_range_calm|].
  - apply wp_no_events, put_attachment_tree; [set_solver|done].
  - by apply wp_reader; [apply get_attachment_calm|].
  - apply wp_no_events, delete_attachment_tree; [set_solver|done].
  - by apply wp_reader; [apply list_attachments_calm|].
  - apply fork_tree; [set_solver|done].
  - apply set_active_leaf_tree; [set_solver|done].
Qed.

Lemma serve_keeps o p : served cfg em o p -> forall l, holds_in tree_inv o l ->
  wp mf p o ∅ l (λ r o' l', holds_in tree_inv o' l' /\ r <> Err Panicked).
Proof. intros (r & -> & ->) l Hl. by apply serve_tree. Qed.

Lemma worker_good m s : (forall sid, tree sid (sess sid m)) -> reachable mf (served cfg em) m s ->
  good mf (served cfg em) tree_inv s.
Proof. intros Hm Hr. apply (good_reachable mf (served cfg em) tree_inv (λ r, r <> Err Panicked) serve_keeps m s); done. Qed.

End Worker.

(** C1: however handlers interleave and the store fails, every session that no handler holds is a
    tree: what is stored under an id has that id, every entry leads to a root over its parents,
    and the active leaf is there.  Only the removal of a session's entries and leaf is assumed
    to be answered, and the limit of lists not to be zero. *)
Theorem transcripts_stay_trees `{Crates} `{SerdeFile} cfg em mf m s : deletes_answer mf -> max_list_limit cfg <> 0 ->
  (forall sid, tree sid (sess sid m)) -> reachable mf (served cfg em) m s ->
  forall sid, free {[ sid ]} s -> tree sid (sess sid (store s)).
Proof. intros Hd Hmax Hm Hr. exact (good_free _ _ _ _ (worker_good cfg em mf Hd Hmax m s Hm Hr)). Qed.

(** C5: a handler in the crowd does what it would do alone: its steps so far are steps it takes on
    the sessions it holds, as they were when it began, and what it has made of them is in the
    store; no two handlers hold the same session.  As for the trees, the removal of a session's
    entries and leaf is answered and the limit of lists is not zero. *)
Theorem handlers_run_alone `{Crates} `{SerdeFile} cfg em mf m s : deletes_answer mf -> max_list_limit cfg <> 0 ->
  (forall sid, tree sid (sess sid m)) -> reachable mf (served cfg em) m s ->
  (forall n t, threads s !! n = Some t -> exists r l, own (began t) = locks r /\ rest (began t) = serve cfg em r /\
     rtc (lstep mf) (began t) (mk_local (th_own t) (th_used t) l (th_rest t)) /\
     forall sid, sid ∈ th_own t -> sess sid l = sess sid (store s) /\ blobs sid l = blobs sid (store s)) /\
  (forall n n' t t', n <> n' -> threads s !! n = Some t -> threads s !! n' = Some t' -> th_own t ## th_own t').
Proof.
  intros Hd Hmax Hm Hr. pose proof (worker_good cfg em mf Hd Hmax m s Hm Hr) as Hg. split; [|exact (good_disjoint _ _ _ _ Hg)].
  intros n t Hn. destruct (good_alone _ _ _ _ Hg n t Hn) as (l & Hv & Hl & (r & Ho & Hp) & _). exists r, l. split_and!; [done..|].
  intros sid Hs. specialize (Hv sid). by rewrite decide_True in Hv.
Qed.

(** No handler panics: the [expect]s and slices of the service hold in every reachable state,
    for readers that race with writers too. *)
Theorem handlers_do_not_panic `{Crates} `{SerdeFile} cfg em mf m s n t : deletes_answer mf -> max_list_limit cfg <> 0 ->
  (forall sid, tree sid (sess sid m)) -> reachable mf (served cfg em) m s ->
  threads s !! n = Some t -> th_rest t <> Done (Err Panicked).
Proof.
  intros Hd Hmax Hm Hr Hn He. pose proof (worker_good cfg em mf Hd Hmax m s Hm Hr) as Hg.
  exact (good_end mf (served cfg em) tree_inv (λ r, r <> Err Panicked) (serve_keeps cfg em mf Hd Hmax) s n t _ Hg Hn He eq_refl).
Qed.

End ServeProperties.
