(* ===== verification/SessionEffects.v ===== *)
(** * What the handlers do (session-manager/src/service.rs)

    [EffectProperties]: an append under a given id happens once however often it is retried; an
    update at an expected revision happens once; an attachment that the transcript refers to
    outlives everything but its session; the message count is the number of messages. *)

From Stdlib Require Import Ascii ZArith Lia.
From stdpp Require Import relations.
From S2P Require Import Prelude Json Codec JsonText SessionTypes SessionLog SessionLife SessionStore SessionEvents SessionService SessionRead SessionRun SessionTree SessionBatch SessionPages SessionServe.
Import Types Contract Prog.

Module EffectRules.
Import Log LifeRules Run Views SystemRules Transcript TreeRules BatchRules Service Events.

(** ** Programs that make only some of the calls *)

Fixpoint only (ok : forall B, Op B -> bool) {A} (p : Prog A) : Prop :=
  match p with
  | Done _ => True
  | Do op k => ok _ op = true /\ forall r, only ok (k r)
  | Now k => forall t, only ok (k t)
  | NewId _ k => forall i, only ok (k i)
  end.

Section Only.
Context (mf : MayFail) (ok : forall B, Op B -> bool).

Lemma only_bind {A B} (p : Prog A) (f : A -> Prog B) : only ok p -> (forall a, only ok (f a)) -> only ok (bind p f).
Proof. intros Hp Hf. induction p as [[a|e]|C op k IH|k IH|kd k IH]; cbn [only bind] in *; naive_solver. Qed.

Lemma only_call {A B} (op : Op B) (k : B -> Prog A) : ok _ op = true -> (forall b, only ok (k b)) -> only ok (call op k).
Proof. intros Ho Hk. split; [done|]. intros [b|e]; [auto|done]. Qed.

Lemma only_meta {A} sid (k : SessionMeta -> Prog A) : ok _ (GetMeta sid) = true -> (forall m, only ok (k m)) -> only ok (meta_or_not_found sid k).
Proof. intros Ho Hk. apply only_call; [done|]. intros [m|]; [auto|done]. Qed.

Lemma only_parent {A} sid p (k : option string -> Prog A) : (forall B (op : Op B), read_only op = true -> ok _ op = true) ->
  (forall q, only ok (k q)) -> only ok (resolve_parent sid p k).
Proof. intros Ho Hk. unfold resolve_parent. destruct p; apply only_call; auto. intros [?|]; [auto|done]. Qed.

Lemma only_put_all sid org now md w msgs p ids evs : (forall e, ok _ (PutEntry sid e) = true) -> only ok (put_all sid org now md w msgs p ids evs).
Proof. intros Ho. revert p ids evs. induction msgs as [|m msgs IH]; intros p ids evs; [done|]. cbn. intros i. split; [apply Ho|]. intros [?|?]; [apply IH|done]. Qed.

(** What each such call keeps, the program keeps. *)
Lemma only_keeps {A} (P : Model -> Prop) (c c' : Local A) :
  (forall B (op : Op B) l r l', ok _ op = true -> allowed mf op l r l' -> P l -> P l') ->
  rtc (lstep mf) c c' -> only ok (rest c) -> P (view c) -> P (view c').
Proof.
  intros HP. induction 1 as [|c1 c2 c3 Hs _ IH]; [done|]. intros Ho Hc.
  assert (only ok (rest c2) /\ P (view c2)) as [Ho2 Hc2]; [|by apply IH].
  destruct Hs as [B op k o u l r l' _ Ha|B op k o u l r|k o u l t|kd k o u l i]; cbn [rest view only] in *; [|naive_solver..].
  destruct Ho as [Ho Hk]. split; [auto|]. exact (HP B op l r l' Ho Ha Hc).
Qed.

Lemma only_finishes {A} (P : Model -> Prop) (p : Prog A) o l r l' :
  (forall B (op : Op B) l r l', ok _ op = true -> allowed mf op l r l' -> P l -> P l') ->
  only ok p -> finishes mf p o l r l' -> P l -> P l'.
Proof. intros HP Hp (o' & u' & Hr) Hl. exact (only_keeps P _ _ HP Hr Hp Hl). Qed.

End Only.

Ltac only_tac := repeat first
  [ done
  | apply only_meta; [done|intros ?]
  | apply only_parent; [by intros ? []|intros ?]
  | apply only_put_all; [done]
  | apply only_call; [done|intros ?]
  | apply only_bind; [|intros ?]
  | case_match
  | progress intros ?
  | progress unfold fresh_id
  | progress cbn [only]; intros ? ].

(** ** What the handlers do *)

Section Handlers.
Context (mf : MayFail) `{Crates} (cfg : ServiceConfig).

(** A run that fails leaves the session as it was, or as the call that failed left it. *)
Lemma wp_get_meta {A} sid (k : SessionMeta -> Prog A) o u l Q : sid ∈ o ->
  (forall m, meta (sess sid l) = Some m -> wp mf (k m) o u l Q) -> (forall e, Q (Err (Failed e)) o l) ->
  wp mf (meta_or_not_found sid k) o u l Q.
Proof.
  intros Hs Hk He. unfold meta_or_not_found. apply (wp_read mf _ _ _ _ _ _ sid); [done..| |auto].
  intros b [= ->]. destruct (meta (sess sid l)) as [m|]; [auto|apply He].
Qed.

(** *** Appends under a given id *)

Definition response_of (e : SessionEntry) : AppendResponse := mk_appended (id e) (parent_id e) (timestamp e).

(** It left the session as it was, the entry committed if it answered; or it stored the entry. *)
Definition append_outcome (i : string) (s s' : LoadedSession) (r : result (AppendResponse * list EmittableEvent) Stop) : Prop :=
  (s' = s /\ forall resp evs, r = Ok (resp, evs) ->
     exists e, entries s !! i = Some e /\ id e = i /\ i ∈ committed s /\ resp = response_of e /\ evs = []) \/
  (exists e m, s' = apply (RAppend e m) s /\ id e = i /\ ~ (i ∈ committed s /\ is_Some (entries s !! i)) /\
     forall resp evs, r = Ok (resp, evs) -> resp = response_of e).

Lemma resolved_id sid e x s e' : (forall j e0, entries s !! j = Some e0 -> id e0 = j) -> resolve_entry sid e x s = Ok e' -> id e' = id e.
Proof.
  intros Hk. unfold resolve_entry. destruct (entries s !! id e) as [e0|] eqn:He0; [intros [= <-]; by apply Hk|].
  destruct x; [destruct (parent_id e) as [p|]; [destruct (entries s !! p); [|done]|]; by intros [= <-]|].
  intros [= <-]. by destruct e.
Qed.

Lemma decided_outcome sid e x s e' m' r : tree sid s -> decide_append sid e x s = Ok (inr (e', m')) ->
  (forall resp evs, r = Ok (resp, evs) -> resp = response_of e') -> append_outcome (id e) s (apply (RAppend e' m') s) r.
Proof.
  intros Ht Hd Hr. apply decide_append_inr in Hd as (Hc & Hres & _). pose proof (resolved_id _ _ _ _ _ (tree_keys _ _ Ht) Hres) as Hi.
  right. exists e', m'. split_and!; [done|done| |done]. intros [Hin [e0 He0]]. apply (Hc e0 He0). by rewrite (tree_keys _ _ Ht _ _ He0).
Qed.

Lemma commit_outcome req w e o u l : ap_session req ∈ o -> tree (ap_session req) (sess (ap_session req) l) ->
  wp mf (commit_entry req w e) o u l (λ r _ l', append_outcome (id e) (sess (ap_session req) l) (sess (ap_session req) l') r).
Proof.
  intros Hs Ht. unfold commit_entry. set (sid := ap_session req) in *. set (x := bool_decide _).
  set (s := sess sid l) in *. assert (forall e0, append_outcome (id e) s s (Err (Failed e0))) as Hsame by (intros e0; by left).
  assert (sess sid (spec (CommitAppend sid e x) l).2 = match decide_append sid e x s with Ok (inr (e', m')) => apply (RAppend e' m') s | _ => s end) as Hst.
  { cbn [spec]. fold s. destruct (decide_append sid e x s) as [[?|[? ?]]|?]; cbn [snd]; [done| |done]. by rewrite sess_change, decide_True. }
  assert (forall e0, append_outcome (id e) s (sess sid (spec (CommitAppend sid e x) l).2) (Err (Failed e0))) as Hlate.
  { intros e0. rewrite Hst. destruct (decide_append sid e x s) as [[?|[e' m']]|?] eqn:Hd; [done| |done]. by eapply decided_outcome. }
  apply (wp_call mf _ _ _ _ _ _ sid); [done..| | |].
  - intros c Hc. cbn [same_answer spec] in Hc. fold s in Hc.
    assert (forall evs, wp mf (ret (response_of (c_entry c), evs)) o u (spec (CommitAppend sid e x) l).2
        (λ r _ l', append_outcome (id e) s (sess sid l') r) \/ (evs <> [] /\ c_committed c = false)) as Hev.
    { intros evs. destruct (decide_append sid e x s) as [[c0|[e' m']]|e0] eqn:Hd; cbn [fst] in Hc; [| |done].
      - injection Hc as <-. apply decide_append_inl in Hd as (Hcc & _ & He & Hin). destruct evs; [left|by right]. cbn [wp ret]. rewrite Hst.
        left. split; [done|]. intros resp evs [= <- <-]. exists (c_entry c). pose proof (tree_keys _ _ Ht _ _ He) as Hk. split_and!; [done|done| |done|done].
        by rewrite <-Hk.
      - injection Hc as ->. left. cbn [wp ret]. rewrite Hst. eapply decided_outcome; [done|done|]. by intros resp evs' [= <- _]. }
    cbv zeta. destruct (negb (c_committed c) || negb w) eqn:Hw; [destruct (Hev []) as [|[? _]]; done|].
    destruct (Hev [added_event (ap_session req) (c_entry c) (metadata (c_meta c))]) as [|[_ Hc']]; [done|]. by rewrite Hc' in Hw.
  - intros e0 _. apply Hlate.
  - intros e0 _. split; [apply Hlate|apply Hsame].
Qed.

Lemma append_outcomes req w o l i : ap_session req ∈ o -> tree (ap_session req) (sess (ap_session req) l) -> ap_entry req = Some i ->
  wp mf (append req w) o ∅ l (λ r _ l', append_outcome i (sess (ap_session req) l) (sess (ap_session req) l') r).
Proof.
  intros Hs Ht Hi. set (s := sess (ap_session req) l) in *. set (Q := λ r _ _, _).
  assert (forall e0, Q (Err (Failed e0)) o l) as Hfail by (intros e0; by left).
  unfold append. apply wp_get_meta; [done| |auto]. intros m Hm.
  assert (forall body, wp mf (append_body req w body) o ∅ l Q) as Hgo; [|destruct (ap_message req), (ap_custom req); auto; apply Hfail].
  intros body. unfold append_body. apply bind_run. unfold named_entry. rewrite Hi.
  apply (wp_read mf _ _ _ _ _ _ (ap_session req)); [done..| |intros e0; apply Hfail]. intros b [= ->]. fold s. cbn [wp ret]. intros u _.
  destruct (entries s !! i) as [e|] eqn:He.
  - pose proof (tree_keys _ _ Ht _ _ He) as Hk. subst i. by apply commit_outcome.
  - assert (forall p, wp mf (fresh_id (Some i) (λ i0, Now (λ now, commit_entry req w (new_entry body i0 p now (ap_origin req))))) o u l Q) as Hnew.
    { intros p. cbn [fresh_id wp]. intros now. assert (i = id (new_entry body i p now (ap_origin req))) as Hid by by destruct body.
      pose proof (commit_outcome req w (new_entry body i p now (ap_origin req)) o u l Hs Ht) as Hc. by rewrite <-Hid in Hc. }
    unfold resolve_parent. destruct (ap_parent req) as [p|]; (apply (wp_read mf _ _ _ _ _ _ (ap_session req)); [done..| |intros e0; apply Hfail]); [|auto].
    intros [?|] _; [auto|apply Hfail].
Qed.

(** *** Updates of a message *)

(** The entry was left as it was, which an answer says, or it has the next revision. *)
Definition update_outcome (req : UpdateMessageRequest) (s s' : LoadedSession) (r : result (UpdateMessageResponse * list EmittableEvent) Stop) : Prop :=
  (s' = s /\ forall resp evs, r = Ok (resp, evs) -> exists e, entries s !! um_entry req = Some e /\ evs = [] /\
     resp = mk_updated false (revision e) /\ exists x, um_expected req = Some x /\ x <> revision e) \/
  (exists i p t n org msg msg', entries s !! um_entry req = Some (EMessage i p t n org msg) /\ edited req msg = Ok msg' /\
     (forall x, um_expected req = Some x -> x = n) /\
     entries s' = <[um_entry req := EMessage i p t (add_u64 n 1) org msg']> (entries s) /\ leaf s' = leaf s /\
     committed s ⊆ committed s' /\
     forall resp evs, r = Ok (resp, evs) -> resp = mk_updated true (add_u64 n 1)).

Lemma update_outcomes req w o l : um_session req ∈ o -> tree (um_session req) (sess (um_session req) l) ->
  wp mf (update_message req w) o ∅ l (λ r _ l', update_outcome req (sess (um_session req) l) (sess (um_session req) l') r).
Proof.
  intros Hs Ht. set (sid := um_session req) in *. set (s := sess sid l) in *. set (Q := λ r _ _, _).
  assert (forall e0, Q (Err (Failed e0)) o l) as Hfail by (intros e0; by left).
  unfold update_message. fold sid. apply wp_get_meta; [done| |auto]. intros m Hm. pose proof (tree_meta _ _ Ht m Hm) as Hn.
  apply (wp_read mf _ _ _ _ _ _ sid); [done..| |intros e0; apply Hfail]. intros found [= ->]. fold s.
  destruct (entries s !! um_entry req) as [[i p t n org msg|]|] eqn:He; [|apply Hfail..].
  pose proof (tree_keys _ _ Ht _ _ He : i = um_entry req) as Hi.
  destruct (match um_expected req with Some x => negb (x =? n)%Z | None => false end) eqn:Hx.
  { left. split; [done|]. intros resp evs [= <- <-]. exists (EMessage i p t n org msg). split_and!; [done..|].
    destruct (um_expected req) as [x|]; [|done]. exists x. split; [done|]. by apply negb_true_iff, Z.eqb_neq in Hx. }
  destruct (edited req msg) as [msg'|e0] eqn:Hed; [|apply Hfail]. cbv zeta. set (e := EMessage i p t (add_u64 n 1) org msg').
  assert (forall x, um_expected req = Some x -> x = n) as Hexp.
  { intros x Hx'. rewrite Hx' in Hx. by apply negb_false_iff, Z.eqb_eq in Hx. }
  assert (forall r l', entries (sess sid l') = <[um_entry req := e]> (entries s) -> leaf (sess sid l') = leaf s ->
    committed s ⊆ committed (sess sid l') ->
    (forall resp evs, r = Ok (resp, evs) -> resp = mk_updated true (add_u64 n 1)) -> Q r o l') as Hnew.
  { intros r l' H1' H2' H3' H4'. right. exists i, p, t, n, org, msg, msg'. split_and!; auto. }
  apply (wp_call mf _ _ _ _ _ _ sid); [done..| |done|intros e0 _; split; [|apply Hfail]]; [|apply Hnew; [|by rewrite spec_put_entry|by rewrite spec_put_entry|done]; rewrite spec_put_entry; cbn; by rewrite Hi].
  intros [] _. cbn [wp]. intros now. cbv zeta. set (m' := touched now m). set (l1 := (spec (PutEntry sid e) l).2).
  assert (entries (sess sid l1) = <[um_entry req := e]> (entries s) /\ leaf (sess sid l1) = leaf s /\ committed (sess sid l1) = committed s) as (He1 & Hl1 & Hc1).
  { unfold l1. rewrite spec_put_entry. cbn. by rewrite Hi. }
  assert (entries (sess sid (spec (PutMeta m') l1).2) = <[um_entry req := e]> (entries s) /\ leaf (sess sid (spec (PutMeta m') l1).2) = leaf s /\
    committed s ⊆ committed (sess sid (spec (PutMeta m') l1).2)) as (He2 & Hl2 & Hc2).
  { cbn [spec snd]. rewrite sess_change. change (session_id m') with (session_id m). rewrite Hn, decide_True by done.
    destruct (apply_meta_unfold m' (sess sid l1)) as (_ & -> & ->). split_and!; [done|done|]. rewrite <-Hc1. apply apply_committed_mono. }
  apply (wp_call mf _ _ _ _ _ _ sid); [done|by cbn; rewrite Hn|done| |done|].
  - intros [] _. cbn [wp ret]. apply Hnew; [done|done|done|]. by intros resp evs [= <- _].
  - intros e0 _. split; apply Hnew; (done || by rewrite Hc1).
Qed.

(** *** Attachments *)

Definition no_blobs {B} (op : Op B) : bool :=
  match op with PutAttachment _ _ | DeleteAttachment _ _ | DeleteAttachments _ => false | _ => true end.

(** It stores and removes no attachment, whatever it is answered. *)
Abbreviation leaves_blobs := (only (λ B, @no_blobs B)).

Lemma append_leaves_blobs req w : leaves_blobs (append req w).
Proof. unfold append, append_body, named_entry, commit_entry. only_tac. Qed.
Lemma append_many_leaves_blobs req w : leaves_blobs (append_many req w).
Proof. unfold append_many. only_tac. Qed.
Lemma update_leaves_blobs req w : leaves_blobs (update_message req w).
Proof. unfold update_message. only_tac. Qed.
Lemma set_draft_leaves_blobs req : leaves_blobs (set_draft req).
Proof. unfold set_draft, resolve_draft_attachments. only_tac. Qed.
Lemma set_meta_leaves_blobs req : leaves_blobs (set_meta req).
Proof. unfold set_meta. only_tac. Qed.
Lemma set_status_leaves_blobs req : leaves_blobs (set_status req).
Proof. unfold set_status. only_tac. Qed.
Lemma ensure_leaves_blobs req : leaves_blobs (ensure req).
Proof. unfold ensure. only_tac. Qed.
Lemma set_leaf_leaves_blobs sid eid : leaves_blobs (Service.set_active_leaf sid eid).
Proof. unfold Service.set_active_leaf. only_tac. Qed.

Lemma spec_no_blobs {B} (op : Op B) l s : no_blobs op = true -> blobs s (spec op l).2 = blobs s l.
Proof.
  destruct op; try done. intros _. cbn [spec]. by destruct (decide_append sid e parent_explicit (sess sid l)) as [[?|[? ?]]|?].
Qed.

Lemma leaves_finishes {A} (p : Prog A) o l r l' s : leaves_blobs p -> finishes mf p o l r l' -> blobs s l' = blobs s l.
Proof.
  intros Hp Hrun. refine (only_finishes mf _ (λ l', blobs s l' = blobs s l) p o l r l' _ Hp Hrun eq_refl).
  intros B op l0 r0 l1 Ho Ha <-. destruct (allowed_state mf op l0 r0 l1 Ha) as [->|[->|Hpt]]; [by apply spec_no_blobs|done|by destruct op].
Qed.

(** An attachment the transcript of a session refers to. *)
Definition referenced (sid aid : string) (l : Model) : Prop :=
  exists i e, entries (sess sid l) !! i = Some e /\ Service.holds aid e = true.

Definition stored (sid aid : string) (x : AttachmentMeta * string) (l : Model) : Prop := blobs sid l !! aid = Some x.

(** A property that every call keeps. *)
Section Kept.
Context (P : Model -> Prop).

Lemma wp_kept_call {A B} (op : Op B) (k : B -> Prog A) o u l s :
  whole op l = true -> target op = Some s -> s ∈ o -> P l -> P (spec op l).2 ->
  (forall b, same_answer op (Ok b) (spec op l).1 -> wp mf (k b) o u (spec op l).2 (λ _ _, P)) ->
  wp mf (call op k) o u l (λ _ _, P).
Proof. intros Hw Ht Hs Hl Hl' Hk. apply (wp_call mf _ _ _ _ _ _ s); auto. Qed.

Context (sid : string) (Hkept : forall (op : Op unit) l, target op = Some sid -> P l -> P (spec op l).2).

Lemma put_entries_keep {A} es (k : Prog A) o u l : sid ∈ o -> P l -> (forall l, P l -> wp mf k o u l (λ _ _, P)) ->
  wp mf (put_entries sid es k) o u l (λ _ _, P).
Proof.
  intros Hs. revert l. induction es as [|e es IH]; intros l Hl Hk; [by apply Hk|]. cbn [put_entries].
  apply (wp_kept_call _ _ _ _ _ sid); [done..|by apply Hkept|]. intros [] _. apply IH; [by apply Hkept|done].
Qed.

Context (Hpart : forall (op : Op unit) l l', target op = Some sid -> P l -> partly op l l' -> P l').

Lemma copy_attachments_keep {A} from aids (k : Prog A) o u l : sid ∈ o -> from ∈ o -> P l -> (forall l, P l -> wp mf k o u l (λ _ _, P)) ->
  wp mf (copy_attachments from sid aids k) o u l (λ _ _, P).
Proof.
  intros Hs Hf. revert l. induction aids as [|a aids IH]; intros l Hl Hk; [by apply Hk|]. cbn [copy_attachments].
  apply (wp_read mf _ _ _ _ _ _ from); [done..| |done]. intros [[a0 bytes]|] _; [|by apply IH].
  apply (wp_call_any mf _ _ _ _ _ _ sid); [done..| |by intros|by intros; split; [apply Hkept|]|intros e l' _; by apply Hpart].
  intros [] _. apply IH; [by apply Hkept|done].
Qed.

End Kept.

Lemma put_attachment_keeps req o l sid aid x : pa_session req ∈ o -> stored sid aid x l ->
  wp mf (put_attachment cfg req) o ∅ l (λ _ _, stored sid aid x).
Proof.
  intros Hs Hx. unfold put_attachment. repeat (case_match; [done|]). destruct (b64_decode _) as [bytes|]; [|done]. case_match; [done|].
  apply wp_get_meta; [done| |done]. intros m Hm. cbn [wp gains]. intros i _ _ Hi now.
  set (a := mk_attachment _ _ _ _ _ _ _). assert (stored sid aid x (spec (PutAttachment a bytes) l).2) as Hx'.
  { unfold stored in *. cbn [spec snd]. rewrite blobs_set. case_decide as Hd; [subst sid|done].
    rewrite lookup_insert_ne; [done|]. intros Heq. pose proof (Hi (pa_session req)) as Hi'. change (blobs (pa_session req) l !! attachment_id a = None) in Hi'.
    rewrite Heq in Hi'. change (blobs (pa_session req) l !! aid = Some x) in Hx. by rewrite Hi' in Hx. }
  apply (wp_kept_call _ _ _ _ _ _ (pa_session req)); [|done..]. cbn. by rewrite bool_decide_eq_true_2 by apply Hi.
Qed.

Lemma delete_attachment_keeps sid' aid' o l sid aid x : trees o l -> sid' ∈ o -> stored sid aid x l -> referenced sid aid l ->
  wp mf (delete_attachment sid' aid') o ∅ l (λ _ _, stored sid aid x).
Proof.
  intros Htr Hs Hx (i & e & He & Hh). unfold delete_attachment. apply wp_get_meta; [done| |done]. intros m Hm.
  pose proof (meta_name _ _ _ _ Htr Hs Hm) as Hn. apply (wp_read mf _ _ _ _ _ _ sid'); [done..| |done]. intros es [= ->]. cbn [spec fst].
  destruct (list_find _ _) as [[? ?]|] eqn:Hf; [done|].
  assert (~ (sid' = sid /\ aid' = aid)) as Hne.
  { intros [-> ->]. rewrite list_find_None, Forall_forall in Hf. apply (Hf e); [apply elem_of_btree_values; by exists i|by rewrite Hh]. }
  assert (stored sid aid x (spec (DeleteAttachment sid' aid') l).2) as Hx'.
  { unfold stored in *. cbn [spec snd]. rewrite blobs_set. case_decide; [subst|done]. rewrite lookup_delete_ne by naive_solver. done. }
  apply (wp_kept_call _ _ _ _ _ _ sid'); [done..|]. intros b _. destruct (draft_attachments m); [|done]. case_match; [done|].
  apply (wp_kept_call _ _ _ _ _ _ sid'); [done|by cbn; rewrite Hn|done|done|done|done].
Qed.

Lemma fork_keeps req o l sid aid x : trees o l -> fk_session req ∈ o -> sid ∈ o -> stored sid aid x l ->
  wp mf (fork req) o ∅ l (λ _ _, stored sid aid x).
Proof.
  intros Htr Hs Hsid Hx. unfold fork. apply wp_get_meta; [done| |done]. intros source Hm. pose proof (meta_name _ _ _ _ Htr Hs Hm) as Hn.
  apply (wp_read mf _ _ _ _ _ _ (fk_session req)); [done..| |done]. intros es _. destruct (by_id es !! fk_entry req); [|done].
  destruct (active_path (by_id es) (fk_entry req)) as [path|]; [|done]. cbn [lift wp gains]. intros new_sid _ Hnew _ now.
  apply wp_fresh_ids; [split; [intros i n|intros i j n]; by rewrite lookup_empty|]. intros ids u _ _.
  destruct (mapM _ path) as [copies|]; [|done].
  assert (forall (op : Op unit) l0, target op = Some new_sid -> stored sid aid x l0 -> stored sid aid x (spec op l0).2) as Hframe.
  { intros op l0 Ht Hl0. unfold stored. destruct (spec_frame op sid l0) as [_ ->]; [rewrite Ht; intros ->%elem_of_singleton; done|done]. }
  apply put_entries_keep; [done|set_solver|done|]. intros l1 H1'. apply copy_attachments_keep; [done| |set_solver|set_solver|done|].
  { intros op l0 l0' Ht Hl0 Hp. unfold stored. rewrite (partly_blobs op sid l0 l0' Hp); [done|]. rewrite Ht. by intros [= ->]. }
  intros l2 H2'.
  destruct (ids !! fk_entry req); [|done].
  apply (wp_kept_call _ _ _ _ _ _ new_sid); [done|done|set_solver|done|by apply Hframe|]. intros [] _.
  apply (wp_kept_call _ _ _ _ _ _ new_sid); [done|done|set_solver|by apply Hframe|by apply Hframe, Hframe|done].
Qed.

(** *** A committed entry stays *)

(** The entry is stored and committed, and is the one an answer told of. *)
Definition holds_append (i : string) (resp : AppendResponse) (s : LoadedSession) : Prop :=
  exists e, entries s !! i = Some e /\ id e = i /\ i ∈ committed s /\ resp = response_of e.

Definition no_entries {B} (op : Op B) : bool :=
  match op with PutEntry _ _ | CommitAppend _ _ _ | DeleteEntries _ => false | _ => true end.

Lemma holds_append_record i resp r s : rec_entry r = None -> holds_append i resp s -> holds_append i resp (apply r s).
Proof.
  intros Hr (e & He & Hi & Hc & ->). exists e. destruct (apply_sets r s) as (_ & -> & _). rewrite Hr.
  pose proof (apply_committed_mono r s). split_and!; [done|done|set_solver|done].
Qed.

Lemma holds_append_spec {B} (op : Op B) sid i resp l : no_entries op = true -> holds_append i resp (sess sid l) ->
  holds_append i resp (sess sid (spec op l).2).
Proof.
  intros Ho Hl. assert (forall t f, (forall s, holds_append i resp s -> holds_append i resp (f s)) ->
    holds_append i resp (sess sid (change t f l))) as Hch.
  { intros t f Hf. rewrite sess_change. case_decide; [by apply Hf|done]. }
  destruct op; try done; cbn [spec snd]; rewrite ?sess_set_blobs; try done; apply Hch; intros s Hs.
  - by apply holds_append_record.
  - exact Hs.
  - by apply holds_append_record.
  - exact Hs.
Qed.

Lemma holds_append_call {B} (op : Op B) sid i resp l r l' : no_entries op = true -> allowed mf op l r l' ->
  holds_append i resp (sess sid l) -> holds_append i resp (sess sid l').
Proof.
  intros Ho Ha Hl. destruct (allowed_state mf op l r l' Ha) as [->|[->|Hp]]; [by apply holds_append_spec|done|].
  by rewrite (partly_sess op sid l l' Hp).
Qed.

(** A new entry has another id. *)
Lemma holds_append_put i resp s e : id e <> i -> holds_append i resp s -> holds_append i resp (apply (REntry e) s).
Proof. intros Hn (e0 & He & Hi & Hc & ->). exists e0. cbn [apply entries committed]. rewrite lookup_insert_ne by done. done. Qed.

Lemma put_all_holds sid' org now md w msgs p ids evs o u l sid i resp : sid' ∈ o -> holds_append i resp (sess sid l) ->
  wp mf (put_all sid' org now md w msgs p ids evs) o u l (λ _ o' l', o' = o /\ holds_append i resp (sess sid l')).
Proof.
  intros Hs. revert p ids evs u l. induction msgs as [|m msgs IH]; intros p ids evs u l Hl; [done|].
  cbn [put_all wp gains]. intros j _ _ Hj. set (e := EMessage j p now 0 org m).
  assert (holds_append i resp (sess sid (spec (PutEntry sid' e) l).2)) as Hl'.
  { cbn [spec snd]. rewrite sess_change. case_decide; [subst sid'|done]. apply holds_append_put; [|done].
    destruct Hl as (e0 & He & _). intros Heq. change (id e) with j in Heq. subst j. by rewrite (Hj sid) in He. }
  apply (wp_call mf _ _ _ _ _ _ sid'); [done..| |done|done]. intros [] _. by apply IH.
Qed.

Lemma append_many_holds req w o l sid i resp : am_session req ∈ o -> trees o l -> holds_append i resp (sess sid l) ->
  wp mf (append_many req w) o ∅ l (λ _ _ l', holds_append i resp (sess sid l')).
Proof.
  intros Hs Htr Hl. unfold append_many. apply wp_get_meta; [done| |done]. intros m Hm. pose proof (meta_name _ _ _ _ Htr Hs Hm) as Hn.
  destruct (am_messages req) as [|m0 ms]; [done|].
  assert (forall p u, wp mf (Now (λ now, bind (put_all (am_session req) (am_origin req) now (metadata m) w (m0 :: ms) p [] [])
      (λ r, let '(ids, evs) := r in match last ids with None => panic | Some i =>
        (_ ←{ SetActiveLeaf (am_session req) i } _ ←{ PutMeta (with_count (add_u64 (message_count m) (Z.of_nat (length ids))) now m) }
        ret (mk_appended_many ids i, evs))%P end))) o u l (λ _ _ l', holds_append i resp (sess sid l'))) as Hrest.
  { intros p u now. apply bind_run. eapply run_mono; [|by apply put_all_holds]. intros [[ids evs]|e] o' l1 [-> Hl1]; [|done].
    intros u' _. destruct (last ids) as [j|]; [|done].
    apply (wp_kept_call (λ l, holds_append i resp (sess sid l)) _ _ _ _ _ (am_session req)); [done..|by apply holds_append_spec|].
    intros [] _. apply (wp_kept_call (λ l, holds_append i resp (sess sid l)) _ _ _ _ _ (am_session req));
      [done|by cbn; rewrite Hn|done| |..]; [|assert (forall m2 l2, holds_append i resp (sess sid l2) ->
        holds_append i resp (sess sid (spec (PutMeta m2) l2).2)) as Hmeta by (intros; by apply holds_append_spec)..].
    + by apply holds_append_spec.
    + by apply Hmeta, holds_append_spec.
    + intros [] _. by apply Hmeta, holds_append_spec. }
  unfold resolve_parent. destruct (am_parent req); (apply (wp_read mf _ _ _ _ _ _ (am_session req)); [done..| |done]).
  - intros [?|] _; [apply Hrest|done].
  - intros lf _. apply Hrest.
Qed.

Lemma commit_holds req w e o u l i resp : let sid := ap_session req in sid ∈ o -> tree sid (sess sid l) -> holds_append i resp (sess sid l) ->
  wp mf (commit_entry req w e) o u l (λ _ _ l', holds_append i resp (sess sid l')).
Proof.
  intros sid Hs Ht Hl. subst sid. eapply run_mono; [|by apply commit_outcome]. cbn beta.
  intros r o' l' [[-> _]|(e' & m & -> & He' & Hn & _)]; [done|]. destruct Hl as (e0 & He & Hi & Hc & ->). exists e0.
  cbn [apply entries committed]. rewrite lookup_insert_ne; [split_and!; [done|done|set_solver|done]|].
  intros Heq. apply Hn. rewrite <-He', Heq. by split.
Qed.

Lemma append_holds req w o l i resp : let sid := ap_session req in sid ∈ o -> tree sid (sess sid l) -> holds_append i resp (sess sid l) ->
  wp mf (append req w) o ∅ l (λ _ _ l', holds_append i resp (sess sid l')).
Proof.
  intros sid Hs Ht Hl. unfold append. apply wp_get_meta; [done| |done]. intros m Hm.
  assert (forall body, wp mf (append_body req w body) o ∅ l (λ _ _ l', holds_append i resp (sess sid l'))) as Hgo;
    [|destruct (ap_message req), (ap_custom req); auto; done].
  intros body. unfold append_body. apply bind_run.
  assert (forall u named, wp mf (match named with Some existing => commit_entry req w existing
      | None => resolve_parent sid (ap_parent req) (λ p, fresh_id (ap_entry req) (λ i0, Now (λ now, commit_entry req w (new_entry body i0 p now (ap_origin req))))) end)
    o u l (λ _ _ l', holds_append i resp (sess sid l'))) as Hnext.
  { intros u [e|]; [by apply commit_holds|]. unfold resolve_parent.
    destruct (ap_parent req); (apply (wp_read mf _ _ _ _ _ _ sid); [done..| |done]); [intros [?|] _; [|done]|intros lf _];
      unfold fresh_id; destruct (ap_entry req); cbn [wp gains]; intros; by apply commit_holds. }
  unfold named_entry. destruct (ap_entry req) as [j|]; [|cbn [wp ret]; intros u _; apply (Hnext u None)].
  apply (wp_read mf _ _ _ _ _ _ sid); [done..| |done]. intros b _. cbn [wp ret]. intros u _. apply Hnext.
Qed.

Lemma update_holds req w o l i resp : let sid := um_session req in sid ∈ o -> tree sid (sess sid l) -> holds_append i resp (sess sid l) ->
  wp mf (update_message req w) o ∅ l (λ _ _ l', holds_append i resp (sess sid l')).
Proof.
  intros sid Hs Ht (e & He & Hi & Hc & ->). eapply run_mono; [|by apply update_outcomes]. cbn beta. fold sid.
  intros r o' l' [[-> _]|(j & p & t & n & org & msg & msg' & Hj & _ & _ & Hes & _ & Hsub & _)]; [by exists e|].
  destruct (decide (um_entry req = i)) as [Heq|Hne].
  - rewrite Heq in *. rewrite He in Hj. injection Hj as ->. eexists. rewrite Hes, lookup_insert_eq.
    split_and!; [done|exact Hi|set_solver|done].
  - exists e. rewrite Hes, lookup_insert_ne by done. split_and!; [done|done|set_solver|done].
Qed.

Lemma fork_holds req o l i resp : let sid := fk_session req in sid ∈ o -> trees o l -> holds_append i resp (sess sid l) ->
  wp mf (fork req) o ∅ l (λ _ _ l', holds_append i resp (sess sid l')).
Proof.
  intros sid Hs Htr Hl. unfold fork. apply wp_get_meta; [done| |done]. intros source Hm. pose proof (meta_name _ _ _ _ Htr Hs Hm) as Hn.
  apply (wp_read mf _ _ _ _ _ _ sid); [done..| |done]. intros es _. destruct (by_id es !! fk_entry req); [|done].
  destruct (active_path (by_id es) (fk_entry req)) as [path|]; [|done]. cbn [lift wp gains]. intros new_sid _ Hnew _ now.
  apply wp_fresh_ids; [split; [intros j n|intros j k n]; by rewrite lookup_empty|]. intros ids u _ _.
  destruct (mapM _ path) as [copies|]; [|done].
  assert (forall (op : Op unit) l0, target op = Some new_sid -> holds_append i resp (sess sid l0) -> holds_append i resp (sess sid (spec op l0).2)) as Hframe.
  { intros op l0 Ht Hl0. destruct (spec_frame op sid l0) as [-> _]; [rewrite Ht; intros ->%elem_of_singleton; done|done]. }
  apply (put_entries_keep (λ l, holds_append i resp (sess sid l)) new_sid Hframe); [set_solver|done|]. intros l1 H1'.
  apply (copy_attachments_keep (λ l, holds_append i resp (sess sid l)) new_sid Hframe); [|set_solver|set_solver|done|].
  { intros op l0 l0' _ Hl0 Hp. by rewrite (partly_sess op sid l0 l0' Hp). }
  intros l2 H2'.
  destruct (ids !! fk_entry req); [|done].
  apply (wp_kept_call (λ l, holds_append i resp (sess sid l)) _ _ _ _ _ new_sid); [done|done|set_solver|done|by apply Hframe|]. intros [] _.
  apply (wp_kept_call (λ l, holds_append i resp (sess sid l)) _ _ _ _ _ new_sid); [done|done|set_solver|by apply Hframe|by apply Hframe, Hframe|intros [] _; by apply Hframe, Hframe].
Qed.

End Handlers.
End EffectRules.

(** ** Properties *)

Module EffectProperties.
Import Log LifeRules Run Views SystemRules Transcript ActivePath TreeRules BatchRules PageRules EffectRules Service Serve ServeProperties Events.

(** *** An append under a given id, retried *)

Section Retries.
Context `{Crates} `{SerdeFile} (cfg : ServiceConfig) (em : Emitter).

(** What a handler other than a deletion leaves of the session it holds. *)
Lemma serve_keeps_append mf r l res l' sid : sid ∈ locks r -> r <> RDelete sid -> tree sid (sess sid l) ->
  finishes mf (serve cfg em r) (locks r) l res l' ->
  tree sid (sess sid l') /\ forall i resp, holds_append i resp (sess sid l) -> holds_append i resp (sess sid l').
Proof.
  intros Hs Hr Ht Hrun. assert (locks r = {[ sid ]}) as Hl by (destruct r; cbn [locks] in *; set_solver).
  assert (trees (locks r) l) as Htr by (intros t Hin; rewrite Hl in Hin; apply elem_of_singleton in Hin as ->; exact Ht).
  assert (wp mf (serve cfg em r) (locks r) ∅ l leaves_trees -> tree sid (sess sid l')) as Htree.
  { intros Hp. destruct (wp_finishes mf _ _ _ _ _ _ Hp Hrun) as (o' & Ho & Htr' & _). apply Htr', Ho, Hs. }
  assert (only (λ B, @no_entries B) (serve cfg em r) -> forall i resp, holds_append i resp (sess sid l) -> holds_append i resp (sess sid l')) as Hplain.
  { intros Hp i resp. refine (only_finishes mf _ (λ l, holds_append i resp (sess sid l)) _ _ _ _ _ _ Hp Hrun).
    intros B op l0 r0 l1 Ho Ha. by eapply holds_append_call. }
  assert (forall A (p : Reply A), serve cfg em r = events_of p ->
    (forall i resp, holds_append i resp (sess sid l) -> wp mf p (locks r) ∅ l (λ _ _ l', holds_append i resp (sess sid l'))) ->
    forall i resp, holds_append i resp (sess sid l) -> holds_append i resp (sess sid l')) as Hwp.
  { intros A p Hserve Hp i resp Hh. specialize (Hp i resp Hh). rewrite Hserve in Hrun.
    assert (wp mf (events_of p) (locks r) ∅ l (λ _ _ l', holds_append i resp (sess sid l'))) as Hp'.
    { apply bind_run. eapply run_mono; [|exact Hp]. by intros [a|e] o' l0 Hl0; [intros u' _|]. }
    by destruct (wp_finishes mf _ _ _ _ _ _ Hp' Hrun) as (o' & _ & ?). }
  destruct r; cbn [locks] in Hs; try (by apply not_elem_of_empty in Hs); apply elem_of_singleton in Hs; cbn [serve] in *.
  - split; [apply Htree, wp_events, ensure_tree; [set_solver|done]|apply Hplain, only_bind; [unfold ensure; only_tac|done]].
  - split; [apply Htree, wp_events, set_meta_tree; [set_solver|done]|apply Hplain, only_bind; [unfold set_meta; only_tac|done]].
  - split; [apply Htree, wp_events, set_draft_tree; [set_solver|done]|apply Hplain, only_bind; [unfold set_draft, resolve_draft_attachments; only_tac|done]].
  - split; [apply Htree, wp_events, set_status_tree; [set_solver|done]|apply Hplain, only_bind; [unfold set_status; only_tac|done]].
  - by subst.
  - split; [apply Htree, wp_events, append_tree; [set_solver|done]|]. subst sid. eapply Hwp; [done|]. intros i resp. apply append_holds; [set_solver|done].
  - split; [apply Htree, wp_events, append_many_tree; [set_solver|done]|]. subst sid. eapply Hwp; [done|]. intros i resp. apply append_many_holds; [set_solver|done].
  - split; [apply Htree, wp_events, update_message_tree; [set_solver|done]|]. subst sid. eapply Hwp; [done|]. intros i resp. apply update_holds; [set_solver|done].
  - split; [apply Htree, wp_no_events, put_attachment_tree; [set_solver|done]|apply Hplain, only_bind; [unfold put_attachment; only_tac|done]].
  - split; [apply Htree, wp_no_events, delete_attachment_tree; [set_solver|done]|apply Hplain, only_bind; [unfold delete_attachment; only_tac|done]].
  - split; [apply Htree, wp_events, fork_tree; [set_solver|done]|]. subst sid. eapply Hwp; [done|]. intros i resp. apply fork_holds; [set_solver|done].
  - split; [apply Htree, wp_events, set_active_leaf_tree; [set_solver|done]|apply Hplain, only_bind; [unfold Service.set_active_leaf; only_tac|done]].
Qed.

(** An attempt: the session before it, its answer, the session after it. *)
Record Attempt : Type := mk_attempt {
  before : LoadedSession;
  answer : result (AppendResponse * list EmittableEvent) Stop;
  after : LoadedSession;
}.

(** The life of a session that is not deleted, with the attempts of one append: attempts and
    other handlers of the session, which its lock keeps apart, each with a store that fails as
    it likes, and whatever happens in other sessions. *)
Inductive history (req : AppendRequest) (l : Model) : list Attempt -> Model -> Prop :=
| h_start : history req l [] l
| h_attempt as_ l1 mf w r l2 : history req l as_ l1 ->
    finishes mf (append req w) {[ ap_session req ]} l1 r l2 ->
    history req l (as_ ++ [mk_attempt (sess (ap_session req) l1) r (sess (ap_session req) l2)]) l2
| h_handler as_ l1 mf q res l2 : history req l as_ l1 ->
    ap_session req ∈ locks q -> q <> RDelete (ap_session req) ->
    finishes mf (serve cfg em q) (locks q) l1 res l2 -> history req l as_ l2
| h_elsewhere as_ l1 l2 : history req l as_ l1 ->
    sess (ap_session req) l2 = sess (ap_session req) l1 -> history req l as_ l2.

(** What an attempt means for the time after it: it did nothing and was not answered, or the
    entry is there. *)
Definition attempted (i : string) (a : Attempt) (s : LoadedSession) : Prop :=
  (before a = after a /\ forall x, answer a <> Ok x) \/
  exists resp, holds_append i resp s /\ forall resp' evs, answer a = Ok (resp', evs) -> resp' = resp.

(** Of two attempts only one changes the session, and none after an answered one does. *)
Definition once (a b : Attempt) : Prop :=
  (before a = after a \/ before b = after b) /\
  forall resp evs, answer a = Ok (resp, evs) ->
    before b = after b /\ forall resp' evs', answer b = Ok (resp', evs') -> resp' = resp /\ evs' = [].

Lemma holds_append_unique i r1 r2 s : holds_append i r1 s -> holds_append i r2 s -> r1 = r2.
Proof. intros (e1 & H1 & _ & _ & ->) (e2 & H2 & _ & _ & ->). congruence. Qed.

(** An attempt on a session that holds the entry. *)
Lemma attempt_again i resp s s' r : holds_append i resp s -> append_outcome i s s' r ->
  s' = s /\ forall resp' evs, r = Ok (resp', evs) -> resp' = resp /\ evs = [].
Proof.
  intros (e & He & Hi & Hc & ->) [[-> Hok]|(e' & m & _ & _ & Hn & _)]; [|by destruct Hn; split; [|eexists]].
  split; [done|]. intros resp' evs Hr. destruct (Hok _ _ Hr) as (e1 & He1 & _ & _ & -> & ->). split; [|done]. congruence.
Qed.

(** An attempt on any session. *)
Lemma attempt_made i s s' r : append_outcome i s s' r -> attempted i (mk_attempt s r s') s'.
Proof.
  intros [[-> Hok]|(e & m & -> & <- & _ & Hok)].
  - destruct r as [[resp evs]|x]; [|by left]. right. destruct (Hok _ _ eq_refl) as (e & He & Hi & Hc & -> & _).
    exists (response_of e). split; [by exists e|]. by intros ? ? [= <- _].
  - right. exists (response_of e). split; [|intros resp' evs Hr; by apply (Hok _ evs)]. exists e.
    cbn [apply entries committed]. rewrite lookup_insert_eq. split_and!; [done|done|set_solver|done].
Qed.

Lemma history_inv req i l as_ l' : tree (ap_session req) (sess (ap_session req) l) -> ap_entry req = Some i ->
  history req l as_ l' ->
  tree (ap_session req) (sess (ap_session req) l') /\ Forall (λ a, attempted i a (sess (ap_session req) l')) as_ /\
  forall j k a b, j < k -> as_ !! j = Some a -> as_ !! k = Some b -> once a b.
Proof.
  intros Ht Hi. induction 1 as [|as_ l1 mf w r l2 _ (Ht1 & Ha & Ho) Hrun|as_ l1 mf q res l2 _ (Ht1 & Ha & Ho) Hs Hq Hrun|as_ l1 l2 _ (Ht1 & Ha & Ho) Heq].
  - split_and!; [done|constructor|]. intros j k a b _ Hj. by rewrite lookup_nil in Hj.
  - assert (ap_session req ∈ ({[ ap_session req ]} : gset string)) as Hin by set_solver.
    assert (trees {[ ap_session req ]} l1) as Htr by (intros t ->%elem_of_singleton; exact Ht1).
    destruct (wp_finishes mf _ _ _ _ _ _ (append_outcomes mf req w _ l1 i Hin Ht1 Hi) Hrun) as (_ & _ & Hout).
    set (s1 := sess (ap_session req) l1) in *. set (s2 := sess (ap_session req) l2) in *.
    assert (forall a, attempted i a s1 -> once a (mk_attempt s1 r s2) /\ attempted i a s2) as Hlater.
    { intros a [[Heq Hno]|(resp & Hh & Hr)].
      - split; [split; [by left|intros resp evs Hx; by destruct (Hno (resp, evs))]|by left].
      - destruct (attempt_again i resp s1 s2 r Hh Hout) as [Heq Hr2]. split.
        + split; [by right|]. intros resp1 evs1 Hx. rewrite (Hr _ _ Hx). split; [done|exact Hr2].
        + right. exists resp. rewrite Heq. by split. }
    rewrite Forall_forall in Ha. split_and!.
    + destruct (wp_finishes mf _ _ _ _ _ _ (append_tree mf req w _ l1 Hin Htr) Hrun) as (o1 & Ho1 & Htr1 & _). apply Htr1. set_solver.
    + apply Forall_app. split; [apply Forall_forall; intros a Hx; by apply Hlater, Ha|]. apply Forall_singleton. by apply attempt_made.
    + intros j k a b Hjk Hj Hk. apply lookup_snoc_Some in Hk as [[Hkl Hk]|[-> <-]].
      * rewrite lookup_app_l in Hj by lia. by apply (Ho j k).
      * rewrite lookup_app_l in Hj by lia. by apply Hlater, Ha, (list_elem_of_lookup_2 _ j).
  - destruct (serve_keeps_append mf q l1 res l2 _ Hs Hq Ht1 Hrun) as [Ht2 Hk]. split_and!; [done| |done].
    eapply Forall_impl; [exact Ha|]. intros a [?|(resp & Hh & Hr)]; [by left|]. right. exists resp. split; [by apply Hk|done].
  - rewrite Heq. by split_and!.
Qed.

(** C4: an append that names its entry happens once in the life of its session, however often it is
    retried, whatever the store fails in any attempt and whatever the other handlers of the
    session do before, between and after the attempts, as long as none deletes the session: at
    most one attempt changes the session; after an answered attempt no attempt changes it, and
    each that is answered gives the same answer and announces nothing; and the entry of an
    answered attempt is stored and committed from then on, under its id and with the parent and
    the time of the answer. *)
Theorem append_retried_once req i l as_ l' :
  tree (ap_session req) (sess (ap_session req) l) -> ap_entry req = Some i -> history req l as_ l' ->
  (forall j k a b, j < k -> as_ !! j = Some a -> as_ !! k = Some b -> once a b) /\
  forall a resp evs, a ∈ as_ -> answer a = Ok (resp, evs) ->
    exists e, entries (sess (ap_session req) l') !! i = Some e /\ id e = i /\
      i ∈ committed (sess (ap_session req) l') /\ resp = response_of e.
Proof.
  intros Ht Hi Hh. destruct (history_inv req i l as_ l' Ht Hi Hh) as (_ & Ha & Ho). split; [exact Ho|].
  intros a resp evs Hin Hr. rewrite Forall_forall in Ha. destruct (Ha a Hin) as [[_ Hno]|(resp' & Hheld & Hsame)].
  - by destruct (Hno (resp, evs)).
  - rewrite (Hsame _ _ Hr). exact Hheld.
Qed.

End Retries.

(** Of two updates of an entry that expect the same revision only the first is made: the other
    is answered [updated: false] with the revision the first one gave, and changes and
    announces nothing. *)
Theorem update_expected_once mf mf' `{Crates} req1 req2 w1 w2 l l1 l2 resp1 evs1 r2 x :
  let sid := um_session req1 in let s1 := sess sid l1 in let s2 := sess sid l2 in
  tree sid (sess sid l) -> um_session req2 = sid -> um_entry req2 = um_entry req1 ->
  um_expected req1 = Some x -> um_expected req2 = Some x ->
  finishes mf (update_message req1 w1) {[ sid ]} l (Ok (resp1, evs1)) l1 -> up_updated resp1 = true ->
  finishes mf' (update_message req2 w2) {[ sid ]} l1 r2 l2 ->
  s2 = s1 /\ up_revision resp1 = add_u64 x 1 /\ forall resp2 evs2, r2 = Ok (resp2, evs2) -> resp2 = mk_updated false (add_u64 x 1) /\ evs2 = [].
Proof.
  intros sid s1 s2 Ht Hsid He Hx1 Hx2 Hr1 Hup Hr2. assert (sid ∈ ({[ sid ]} : gset string)) as Hin by set_solver.
  assert (trees {[ sid ]} l) as Htr by (intros t ->%elem_of_singleton; exact Ht).
  assert (tree sid s1) as Ht1.
  { destruct (wp_finishes mf _ _ _ _ _ _ (update_message_tree mf req1 w1 _ l Hin Htr) Hr1) as (o1 & Ho & Htr1 & _). apply Htr1. set_solver. }
  destruct (wp_finishes mf _ _ _ _ _ _ (update_outcomes mf req1 w1 _ l Hin Ht) Hr1) as (_ & _ & Ho1).
  rewrite <-Hsid in Ht1, Hin. assert (tree (um_session req2) (sess (um_session req2) l1)) as Ht2 by (rewrite Hsid; by rewrite Hsid in Ht1).
  rewrite <-Hsid in Hr2. destruct (wp_finishes mf' _ _ _ _ _ _ (update_outcomes mf' req2 w2 _ l1 Hin Ht2) Hr2) as (_ & _ & Ho2).
  rewrite Hsid in Ho2. fold sid s1 in Ho1. fold s1 s2 in Ho2.
  destruct Ho1 as [[_ Hno]|(i & p & t & n & org & msg & msg' & _ & _ & Hn & Hes & _ & _ & Hok)].
  { destruct (Hno _ _ eq_refl) as (? & _ & _ & -> & _). done. }
  rewrite (Hok _ _ eq_refl). rewrite (Hn x Hx1) in *. clear Hn.
  assert (entries s1 !! um_entry req2 = Some (EMessage i p t (add_u64 n 1) org msg')) as Hstored by (by rewrite Hes, He, lookup_insert_eq).
  destruct Ho2 as [[Hs2 Hno]|(i2 & p2 & t2 & n2 & org2 & msg2 & msg2' & He2 & _ & Hn2 & _)].
  - split_and!; [done|done|]. intros resp2 evs2 Hr. destruct (Hno _ _ Hr) as (e & He2 & -> & -> & _). split; [|done]. rewrite Hstored in He2. by injection He2 as <-.
  - exfalso. specialize (Hn2 n Hx2). rewrite Hstored in He2. injection He2 as _ _ _ Hrev _ _. unfold add_u64 in Hrev.
    assert (n2 = (n2 + 1) mod 2 ^ 64)%Z as Hz by (by rewrite <-Hn2 in Hrev |- *). clear -Hz.
    pose proof (Z.mod_pos_bound (n2 + 1) (2 ^ 64) ltac:(done)). rewrite <-Hz in H.
    destruct (decide (n2 + 1 < 2 ^ 64)%Z); [rewrite Z.mod_small in Hz by lia; lia|].
    assert (n2 + 1 = 2 ^ 64)%Z as Heq by lia. rewrite Heq, Z.mod_same in Hz by done. lia.
Qed.

(** An attachment that an entry of the transcript refers to stays as it was stored, whatever
    handler runs on the session and whatever fails in it, unless the session is deleted. *)
Theorem referenced_attachments_stay mf `{Crates} `{SerdeFile} cfg em r l res l' sid aid x :
  trees (locks r) l -> sid ∈ locks r -> r <> RDelete sid -> referenced sid aid l -> stored sid aid x l ->
  finishes mf (serve cfg em r) (locks r) l res l' -> stored sid aid x l'.
Proof.
  intros Ht Hs Hr Href Hx Hrun.
  assert (only (λ B, @no_blobs B) (serve cfg em r) -> stored sid aid x l') as Hplain.
  { intros Hp. unfold stored. rewrite (leaves_finishes mf _ _ _ _ _ sid Hp Hrun). exact Hx. }
  assert (wp mf (serve cfg em r) (locks r) ∅ l (λ _ _, stored sid aid x) -> stored sid aid x l') as Hwp.
  { intros Hp. by destruct (wp_finishes mf _ _ _ _ _ _ Hp Hrun) as (o' & _ & ?). }
  assert (forall A (p : Prog A) (f : A -> list EmittableEvent), wp mf p (locks r) ∅ l (λ _ _, stored sid aid x) ->
    wp mf (bind p (λ a, ret (f a))) (locks r) ∅ l (λ _ _, stored sid aid x)) as Hbind.
  { intros A p f Hp. apply bind_run. eapply run_mono; [|exact Hp]. by intros [a|e] o' l0 Hl0; [intros u' _|]. }
  destruct r; cbn [locks serve] in *; try (by apply not_elem_of_empty in Hs).
  - apply Hplain, only_bind; [apply ensure_leaves_blobs|done].
  - apply Hplain, only_bind; [apply set_meta_leaves_blobs|done].
  - apply Hplain, only_bind; [apply set_draft_leaves_blobs|done].
  - apply Hplain, only_bind; [apply set_status_leaves_blobs|done].
  - apply elem_of_singleton in Hs as ->. done.
  - apply Hplain, only_bind; [apply append_leaves_blobs|done].
  - apply Hplain, only_bind; [apply append_many_leaves_blobs|done].
  - apply Hplain, only_bind; [apply update_leaves_blobs|done].
  - apply Hwp, (Hbind _ _ (λ _, [])). apply put_attachment_keeps; [set_solver|done].
  - apply Hwp, (Hbind _ _ (λ _, [])). apply delete_attachment_keeps; [done|set_solver|done|done].
  - apply Hwp, (Hbind _ _ snd). apply fork_keeps; [done|set_solver|done|done].
  - apply Hplain, only_bind; [apply set_leaf_leaves_blobs|done].
Qed.

(** *** Batches *)

Lemma sealed_transcript sid s new up p i m : tree sid s -> topdown (dom (entries s)) new -> linked p new -> chain (entries s) p up ->
  tip p new = Some i -> transcript (sealed s new i m) = rev up ++ new.
Proof.
  intros Ht Htop Hl Hup Htip. destruct (sealed_fields s new i m) as (_ & He & Hlf). unfold transcript. rewrite Hlf, He.
  pose proof (topdown_NoDup _ _ Htop) as Hnd.
  rewrite (proj2 (active_path_chain (entries (puts s new)) i (rev up ++ new) (tree_keys _ _ (seal_tree sid s new Ht Htop)))); [done|].
  rewrite rev_app_distr, rev_involutive, <-Htip. apply linked_chain; [done|intros x Hx; by apply puts_lookup|].
  eapply chain_mono; [|exact (tree_keys _ _ Ht)|exact Hup]. intros x Hx.
  assert (entries s !! id x = Some x) as Hxs by (by eapply chain_lookup; [exact (tree_keys _ _ Ht)|exact Hup|]).
  rewrite puts_keep; [done|]. intros (y & Heq & Hy)%list_elem_of_fmap. apply (topdown_new _ _ y Htop) in Hy. apply Hy.
  rewrite <-Heq. apply elem_of_dom. by eexists.
Qed.

(** An answered [append_many] extends the transcript: after it the transcript is the path to the
    place it was asked for, which was there before, and then its messages in the order given;
    what was stored before is stored as before. *)
Theorem append_many_extends mf `{Crates} req w l resp evs l' :
  let sid := am_session req in let s := sess sid l in let s' := sess sid l' in
  tree sid s -> finishes mf (append_many req w) {[ sid ]} l (Ok (resp, evs)) l' ->
  exists before new now, transcript s' = before ++ new /\ Forall2 (batch_entry now (am_origin req)) (am_messages req) new /\
    match parent_of_batch req s with Some p => active_path (entries s) p = Ok before | None => before = [] end /\
    amr_entries resp = id <$> new /\ last (amr_entries resp) = Some (amr_last resp) /\ leaf s' = Some (amr_last resp) /\
    forall i e, entries s !! i = Some e -> entries s' !! i = Some e.
Proof.
  intros sid s s' Ht Hrun. assert (sid ∈ ({[ sid ]} : gset string)) as Hin by set_solver.
  assert (trees {[ sid ]} l) as Htr by (intros t ->%elem_of_singleton; exact Ht).
  set (Q := λ (r : result (AppendManyResponse * list EmittableEvent) Stop) (_ : gset string) (l' : Model), forall resp evs, r = Ok (resp, evs) ->
    exists before new now, transcript (sess sid l') = before ++ new /\ Forall2 (batch_entry now (am_origin req)) (am_messages req) new /\
    match parent_of_batch req s with Some p => active_path (entries s) p = Ok before | None => before = [] end /\
    amr_entries resp = id <$> new /\ last (amr_entries resp) = Some (amr_last resp) /\ leaf (sess sid l') = Some (amr_last resp) /\
    forall i e, entries s !! i = Some e -> entries (sess sid l') !! i = Some e).
  assert (wp mf (append_many req w) {[ sid ]} ∅ l Q) as Hwp; [|destruct (wp_finishes mf _ _ _ _ _ _ Hwp Hrun) as (o' & _ & HQ); by eapply HQ].
  apply wp_append_many; [done|done|done|done|]. fold sid s. intros m new e now l1 Hm Hp Hnew Hl Htop Hlast Hl1 _ _ _ resp1 evs1 [= <- <-].
  assert (exists up, chain (entries s) (parent_of_batch req s) up /\
    match parent_of_batch req s with Some p => active_path (entries s) p = Ok (rev up) | None => rev up = [] end) as (up & Hup & Hbefore).
  { destruct (parent_of_batch req s) as [q|] eqn:Hq; [|by exists []]. destruct (rooted_chain _ _ (tree_rooted _ _ Ht q Hp)) as [up Hup].
    exists up. split; [done|]. apply active_path_chain; [exact (tree_keys _ _ Ht)|]. by rewrite rev_involutive. }
  rewrite Hl1. set (m' := with_count _ _ _). destruct (sealed_fields s new (id e) m') as (_ & He & Hlf). exists (rev up), new, now. split_and!; try done.
  - by apply (sealed_transcript sid _ _ _ (parent_of_batch req s)); [..|unfold tip; rewrite Hlast].
  - cbn. by rewrite fmap_last, Hlast.
  - intros i x Hi. rewrite He, puts_keep; [done|]. intros (y & -> & Hy)%list_elem_of_fmap. apply (topdown_new _ _ y Htop) in Hy.
    apply Hy, elem_of_dom. by eexists.
Qed.

(** *** Forks *)

(** An answered fork is a copy of the path to its entry: the transcript of the new session is
    that path entry by entry, under new ids that nothing else has, with the same messages, times
    and origins; every attachment it refers to is there under the same id with the same bytes;
    and the source, its attachments and all other sessions are as they were. *)
Theorem fork_is_a_copy mf `{Crates} req l new_sid m evs l' :
  let sid := fk_session req in let s := sess sid l in
  tree sid s -> blobs_keyed (blobs sid l) -> finishes mf (fork req) {[ sid ]} l (Ok (new_sid, m, evs)) l' ->
  exists path ids, active_path (entries s) (fk_entry req) = Ok path /\
    Forall2 (copy_of ids) path (transcript (sess new_sid l')) /\
    injective ids /\ (forall i n, ids !! i = Some n -> fresh EntryId n l) /\
    meta (sess new_sid l') = Some m /\ session_id m = new_sid /\ forked_from m = Some sid /\
    (forall aid, aid ∈ referenced_attachment_ids path -> blobs new_sid l' !! aid =
       (λ x : AttachmentMeta * string, (copied_attachment new_sid x.1, x.2)) <$> blobs sid l !! aid) /\
    forall t, t <> new_sid -> sess t l' = sess t l /\ blobs t l' = blobs t l.
Proof.
  intros sid s Ht Hb Hrun. assert (sid ∈ ({[ sid ]} : gset string)) as Hin by set_solver.
  assert (trees {[ sid ]} l) as Htr by (intros t ->%elem_of_singleton; exact Ht).
  set (Q := λ (r : result (string * SessionMeta * list EmittableEvent) Stop) (_ : gset string) (l' : Model), forall new_sid m evs, r = Ok (new_sid, m, evs) ->
    exists path ids, active_path (entries s) (fk_entry req) = Ok path /\
    Forall2 (copy_of ids) path (transcript (sess new_sid l')) /\
    injective ids /\ (forall i n, ids !! i = Some n -> fresh EntryId n l) /\
    meta (sess new_sid l') = Some m /\ session_id m = new_sid /\ forked_from m = Some sid /\
    (forall aid, aid ∈ referenced_attachment_ids path -> blobs new_sid l' !! aid =
       (λ x : AttachmentMeta * string, (copied_attachment new_sid x.1, x.2)) <$> blobs sid l !! aid) /\
    forall t, t <> new_sid -> sess t l' = sess t l /\ blobs t l' = blobs t l).
  assert (wp mf (fork req) {[ sid ]} ∅ l Q) as Hwp; [|destruct (wp_finishes mf _ _ _ _ _ _ Hwp Hrun) as (o' & _ & HQ); by eapply HQ].
  apply wp_fork; [done|done|done|done|]. fold sid s.
  intros source path ids copies nsid e now l1 Hm Hpath Hnew Hse Hbl Hinj Hfr Hc Hlc Htop Hlast Hl1 Hb1 Hother _ m' nsid1 m1 evs1 [= <- <- <-].
  exists path, ids. rewrite Hl1. destruct (sealed_fields empty_session copies (id e) m') as (Hm1 & _ & _). split_and!; try done.
  - rewrite (sealed_transcript nsid _ _ [] None); [by apply copies_of|apply tree_empty|done|done|done|unfold tip; by rewrite Hlast].
  - intros aid Haid. rewrite Hb1. assert (sid <> nsid) as Hne by (intros <-; set_solver). rewrite copies_blobs by done.
    case_decide as Hd; [done|]. rewrite Hbl, lookup_empty. destruct (blobs sid l !! aid) eqn:Ha; [|done]. exfalso. apply Hd. split; [done|by eexists].
Qed.

End EffectProperties.
