(* ===== verification/SessionCount.v ===== *)
(** * Exact effects (session-manager/src/service.rs)

    When the store answers: [append_many] puts its messages below the place they were asked for,
    in order; a fork is a copy of a path; and the message count of every session is the number
    of its message entries, in every state the worker reaches. *)

From Stdlib Require Import Ascii ZArith Lia.
From stdpp Require Import relations.
From S2P Require Import Prelude Json Codec JsonText SessionTypes SessionLog SessionLife SessionStore SessionEvents SessionService SessionRead SessionRun SessionTree SessionBatch SessionPages SessionServe.
Import Types Contract Prog.

Module CountRules.
Import Log LifeRules Run Views SystemRules Transcript ActivePath TreeRules BatchRules Service Events.

(** ** Counting *)

Definition messages_in (es : gmap string SessionEntry) : nat := size (filter (λ p : string * SessionEntry, is_message p.2 = true) es).

Definition one (e : SessionEntry) : nat := if is_message e then 1 else 0.

Lemma messages_insert es e i : es !! i = None -> messages_in (<[i := e]> es) = one e + messages_in es.
Proof.
  intros Hi. unfold messages_in, one. destruct (is_message e) eqn:He.
  - rewrite map_filter_insert_True by done. rewrite map_size_insert_None; [done|]. by apply map_lookup_filter_None; left.
  - rewrite map_filter_insert_False by (cbn; congruence). by rewrite delete_id by done.
Qed.

Lemma messages_replace es e e0 i : es !! i = Some e0 -> is_message e = is_message e0 -> messages_in (<[i := e]> es) = messages_in es.
Proof.
  intros Hi He. rewrite <-(insert_delete_id es i e0 Hi) at 2. rewrite <-insert_delete_eq, !messages_insert by apply lookup_delete_eq.
  unfold one. by rewrite He.
Qed.

Lemma messages_empty : messages_in ∅ = 0.
Proof. unfold messages_in. by rewrite map_filter_empty. Qed.

(** The committed ids are the stored ones and the metadata counts the messages. *)
Record counted (s : LoadedSession) : Prop := {
  all_committed : forall i, i ∈ committed s <-> is_Some (entries s !! i);
  count_exact : match meta s with
                | Some m => message_count m = (Z.of_nat (messages_in (entries s)) mod 2 ^ 64)%Z
                | None => entries s = ∅
                end;
}.

Definition exact_inv : Invariant := λ sid s _, tree sid s /\ counted s.

Definition exact (o : gset string) (l : Model) : Prop := holds_in exact_inv o l.

Lemma exact_trees o l : exact o l -> trees o l.
Proof. intros He t Ht. by apply He. Qed.

Lemma counted_empty : counted empty_session.
Proof. split; [|done]. intros i. cbn. rewrite lookup_empty. split; [set_solver|by intros [? ?]]. Qed.

(** The walk of the metadata record marks stored entries only. *)
Lemma mark_stored n es c done : (forall i e p, es !! i = Some e -> parent_id e = Some p -> is_Some (es !! p)) ->
  (forall i, c = Some i -> is_Some (es !! i)) -> (forall i, i ∈ done -> is_Some (es !! i)) ->
  forall i, i ∈ mark_from n es c done -> is_Some (es !! i).
Proof.
  intros Hp. revert c done. induction n as [|n IH]; intros [j|] done Hc Hd; cbn [mark_from]; [exact Hd..| |exact Hd].
  case_decide; [exact Hd|]. destruct (Hc j eq_refl) as [e He]. apply IH.
  - intros i. rewrite He. cbn. intros Hq; by eapply Hp.
  - intros i [->%elem_of_singleton|Hi]%elem_of_union; [by eexists|auto].
Qed.

Lemma rooted_parent es i e p : (forall j, is_Some (es !! j) -> rooted es j) -> es !! i = Some e -> parent_id e = Some p -> is_Some (es !! p).
Proof. intros Hr He Hp. destruct (Hr i ltac:(by eexists)) as [i e' He'|i e' p' He' Hp' Hr']; simplify_eq; try congruence; by eapply rooted_stored. Qed.

Lemma meta_committed sid s m i : tree sid s -> (forall i, i ∈ committed s -> is_Some (entries s !! i)) ->
  i ∈ committed (apply (RMeta m) s) -> is_Some (entries s !! i).
Proof.
  intros Ht Hc. cbn [apply]. destruct (pending_legacy_append s); [|apply Hc]. cbn [committed mark_active_path_committed entries leaf].
  apply mark_stored; [|exact (tree_leaf _ _ Ht)|exact Hc]. intros j e p. apply rooted_parent, (tree_rooted _ _ Ht).
Qed.

(** Writing metadata that keeps the count. *)
Lemma counted_meta sid s m m0 : tree sid s -> counted s -> meta s = Some m0 -> message_count m = message_count m0 -> counted (apply (RMeta m) s).
Proof.
  intros Ht [Ha Hc] Hm Hmc. destruct (apply_meta_unfold m s) as (H1 & H2 & H3). split.
  - rewrite H2. intros i. split; [apply (meta_committed sid); [done|]; intros; by apply Ha|].
    intros Hi. by apply apply_committed_mono, Ha.
  - rewrite H1, H2, Hmc. by rewrite Hm in Hc.
Qed.

Lemma counted_leaf s i : counted s -> counted (apply (RLeaf (Some i)) s).
Proof. intros [Ha Hc]. by split. Qed.

Lemma add_one n : ((Z.of_nat n mod 2 ^ 64 + 1) mod 2 ^ 64 = Z.of_nat (S n) mod 2 ^ 64)%Z.
Proof. rewrite Z.add_mod_idemp_l by done. f_equal. lia. Qed.

Lemma counted_append sid sid' e x e' m' s : tree sid s -> counted s -> decide_append sid' e x s = Ok (inr (e', m')) -> counted (apply (RAppend e' m') s).
Proof.
  intros Ht [Ha Hc] Hd. apply decide_append_inr in Hd as (Hnew & Hres & m & Hm & ->).
  assert (entries s !! id e = None) as He.
  { destruct (entries s !! id e) as [e0|] eqn:He; [|done]. exfalso. apply (Hnew e0 eq_refl). rewrite (tree_keys _ _ Ht _ _ He). apply Ha. by eexists. }
  assert (id e' = id e) as Hi.
  { unfold resolve_entry in Hres. rewrite He in Hres. destruct x; [|injection Hres as <-; by destruct e].
    destruct (parent_id e) as [p|]; [destruct (entries s !! p); [|done]|]; by injection Hres as <-. }
  split; cbn.
  - intros j. rewrite elem_of_union, elem_of_singleton, Ha, lookup_insert. case_decide as Hj; [|naive_solver].
    split; [by eexists|by left].
  - rewrite Hm in Hc. rewrite Hi, messages_insert by done. unfold one. destruct (is_message e'); [rewrite Hc; apply add_one|done].
Qed.

(** *** The walk of the metadata record marks a new chain *)

Lemma mark_chain n es c new above done : chain es c (new ++ above) -> keyed es -> NoDup (id <$> new) -> length new < n ->
  (forall e, e ∈ new -> id e ∉ done) -> forall e, e ∈ new -> id e ∈ mark_from n es c done.
Proof.
  intros Hc Hk. revert n c done Hc. induction new as [|x new IH]; intros n c done Hc Hnd Hn Hnew e He; [by apply elem_of_nil in He|].
  destruct n as [|n]; [cbn in Hn; lia|]. destruct c as [i|]; [|done]. cbn [app chain] in Hc. destruct Hc as [Hi Hc].
  rewrite fmap_cons, NoDup_cons in Hnd. destruct Hnd as [Hx Hnd]. pose proof (Hk i x Hi) as Hix. cbn [mark_from].
  rewrite decide_False by (rewrite <-Hix; apply Hnew; by left). rewrite Hi. cbn [mbind option_bind].
  apply elem_of_cons in He as [->|He].
  - rewrite Hix. apply mark_mono. set_solver.
  - apply (IH n); [exact Hc|exact Hnd|cbn in Hn; lia| |exact He]. intros y Hy. apply not_elem_of_union. split; [|apply Hnew; by right].
    rewrite elem_of_singleton, <-Hix. intros Heq. apply Hx. rewrite <-Heq. apply list_elem_of_fmap. by exists y.
Qed.

(** *** The metadata record after a chain of new entries *)

Lemma puts_count s new : topdown (dom (entries s)) new ->
  messages_in (entries (puts s new)) = messages_in (entries s) + length (filter (λ e, Is_true (is_message e)) new).
Proof.
  revert s. induction new as [|x new IH]; intros s Ht; [cbn; lia|]. destruct Ht as (Hx & _ & Ht).
  change (messages_in (entries (puts (apply (REntry x) s) new)) = messages_in (entries s) + length (filter (λ e, Is_true (is_message e)) (x :: new))).
  rewrite IH by (cbn; by rewrite dom_insert_L). cbn [apply entries]. rewrite messages_insert by by apply not_elem_of_dom.
  rewrite filter_cons. unfold one. case_decide as Hm; destruct (is_message x); try done; cbn [length]; lia.
Qed.

Lemma counted_sealed sid s new p up i m : tree sid s -> (forall j, j ∈ committed s <-> is_Some (entries s !! j)) ->
  topdown (dom (entries s)) new -> linked p new -> chain (entries s) p up -> tip p new = Some i ->
  message_count m = (Z.of_nat (messages_in (entries s) + length (filter (λ e, Is_true (is_message e)) new)) mod 2 ^ 64)%Z ->
  counted (sealed s new i m).
Proof.
  intros Ht Hc Htop Hl Hup Htip Hm. destruct (sealed_fields s new i m) as (H1 & H2 & H3).
  destruct (puts_same s new) as (P1 & P2 & P3 & P4). pose proof (topdown_NoDup _ _ Htop) as Hnd. split; rewrite ?H1, H2.
  - intros j. assert (tree sid (puts s new)) as Ht' by by apply seal_tree.
    assert (i ∈ id <$> new \/ is_Some (entries s !! i)) as Hi.
    { unfold tip in Htip. destruct (last new) as [e|] eqn:Hlast; [|subst p; right; destruct up as [|x up]; [done|]; destruct Hup as [-> _]; by eexists].
      injection Htip as <-. left. apply list_elem_of_fmap. exists e. split; [done|]. rewrite last_lookup in Hlast. by eapply list_elem_of_lookup_2. }
    assert (is_Some (entries (puts s new) !! i)) as Hi' by (rewrite puts_dom; naive_solver).
    split.
    + apply (meta_committed sid (apply (RLeaf (Some i)) (puts s new))); [by apply tree_leaf_record|]. cbn. rewrite P3. intros k Hk.
      apply puts_dom. left. by apply Hc.
    + rewrite puts_dom. intros [Hj|Hj].
      * apply apply_committed_mono. cbn. rewrite P3. by apply Hc.
      * apply list_elem_of_fmap in Hj as (e & -> & He). unfold sealed.
        cbn [apply pending_legacy_append committed mark_active_path_committed entries leaf]. rewrite P3. apply (mark_chain _ _ _ (rev new) up).
        -- rewrite <-Htip. apply linked_chain; [done|intros x Hx; by apply puts_lookup|]. eapply chain_mono; [|exact (tree_keys _ _ Ht)|exact Hup].
           intros x Hx. rewrite puts_keep; [by eapply chain_lookup; [exact (tree_keys _ _ Ht)|exact Hup|]|].
           intros (y & Heq & Hy)%list_elem_of_fmap. apply (topdown_new _ _ y Htop) in Hy. apply Hy. rewrite <-Heq. apply elem_of_dom.
           exists x. by eapply chain_lookup; [exact (tree_keys _ _ Ht)|exact Hup|].
        -- exact (tree_keys _ _ Ht').
        -- eapply NoDup_Permutation_proper; [|exact Hnd]. apply fmap_Permutation. by rewrite <-Permutation_rev.
        -- rewrite length_rev. assert (length new <= size (entries (puts s new))); [|lia].
           rewrite <-(length_fmap id new), <-size_dom, <-(size_list_to_set (C := gset string)) by done. apply subseteq_size.
           intros k. rewrite elem_of_list_to_set, elem_of_dom, puts_dom. auto.
        -- intros x Hx. rewrite list_elem_of_In, <-in_rev, <-list_elem_of_In in Hx. rewrite Hc. intros [y Hy].
           apply (topdown_new _ _ x Htop) in Hx. apply Hx, elem_of_dom. by eexists.
        -- by rewrite list_elem_of_In, <-in_rev, <-list_elem_of_In.
  - by rewrite puts_count.
Qed.

(** ** Handlers, when the store answers *)

Section Handlers.
Context `{Crates} (cfg : ServiceConfig).

Definition leaves_exact {A} (r : result A Stop) (o : gset string) (l : Model) : Prop := exact o l.

Lemma never_faulty : ~ faulty no_fault.
Proof. by intros (B & op & ?). Qed.

Lemma wp_sure {A B} (op : Op B) (k : B -> Prog A) o u l Q s : target op = Some s -> s ∈ o ->
  (forall b, same_answer op (Ok b) (spec op l).1 -> wp no_fault (k b) o u (spec op l).2 Q) ->
  (forall e, same_answer op (Err e) (spec op l).1 -> Q (Err (Failed (Storage e))) o (spec op l).2) ->
  wp no_fault (call op k) o u l Q.
Proof. intros Ht Hs Hk He. by apply (wp_call_any no_fault op k o u l Q s). Qed.

(** One session changed and is as the invariant says. *)
Lemma exact_change sid o l l' : exact o l -> (forall t, t <> sid -> sess t l' = sess t l) -> tree sid (sess sid l') -> counted (sess sid l') -> exact o l'.
Proof. intros He Ho Ht Hc t Hin. unfold exact_inv. destruct (decide (t = sid)) as [->|Hne]; [done|]. rewrite Ho by done. by apply He. Qed.

Lemma exact_spec {A} (op : Op A) s o l : target op = Some s -> safe op l -> s ∈ o -> exact o l ->
  (tree s (sess s l) -> counted (sess s l) -> counted (sess s (spec op l).2)) -> exact o (spec op l).2.
Proof.
  intros Ht Hsafe Hs He Hc. destruct (He s Hs) as [Htr Hcs]. apply (exact_change s o l); [done| |by apply spec_tree|auto].
  intros t Hne. destruct (spec_frame op t l) as [-> _]; [rewrite Ht; set_solver|done].
Qed.

Lemma exact_put_meta m m0 o l : session_id m ∈ o -> exact o l -> meta (sess (session_id m) l) = Some m0 -> message_count m = message_count m0 ->
  exact o (spec (PutMeta m) l).2.
Proof.
  intros Hs He Hm Hc. apply (exact_spec _ (session_id m)); [done..|]. intros Ht Hcs. cbn [spec snd]. rewrite sess_change, decide_True by done.
  by eapply counted_meta.
Qed.

Lemma wp_exact_meta {A} sid (k : SessionMeta -> Prog A) o u l : sid ∈ o -> exact o l ->
  (forall m, meta (sess sid l) = Some m -> session_id m = sid -> wp no_fault (k m) o u l leaves_exact) ->
  wp no_fault (meta_or_not_found sid k) o u l leaves_exact.
Proof.
  intros Hs He Hk. unfold meta_or_not_found. apply (wp_read no_fault _ _ _ _ _ _ sid); [done..| |done]. intros b [= ->].
  destruct (meta (sess sid l)) as [m|] eqn:Hm; [|done]. apply Hk; [done|]. by apply (He sid Hs).
Qed.

Lemma wp_exact_put_meta {A} m m0 (k : unit -> Prog A) o u l : session_id m ∈ o -> exact o l -> meta (sess (session_id m) l) = Some m0 ->
  message_count m = message_count m0 -> (forall l', exact o l' -> wp no_fault (k tt) o u l' leaves_exact) ->
  wp no_fault (call (PutMeta m) k) o u l leaves_exact.
Proof.
  intros Hs He Hm Hc Hk. apply (wp_sure _ _ _ _ _ _ (session_id m)); [done..| |done]. intros [] _. by apply Hk, (exact_put_meta m m0).
Qed.

(** Metadata for a session that had none. *)
Lemma exact_first_meta m o l : session_id m ∈ o -> exact o l -> meta (sess (session_id m) l) = None -> message_count m = 0%Z ->
  exact o (spec (PutMeta m) l).2.
Proof.
  intros Hs He Hm Hc. apply (exact_spec _ (session_id m)); [done..|]. intros Ht [Ha Hcs]. cbn [spec snd]. rewrite sess_change, decide_True by done.
  rewrite Hm in Hcs. destruct (apply_meta_unfold m (sess (session_id m) l)) as (H1 & H2 & _). split; rewrite H2.
  - intros i. split; [apply (meta_committed (session_id m)); [done|]; intros; by apply Ha|]. rewrite Hcs, lookup_empty. by intros [? ?].
  - rewrite H1, Hcs, messages_empty, Hc. done.
Qed.

Lemma create_exact req l : wp no_fault (create req) ∅ ∅ l leaves_exact.
Proof.
  unfold create. cbn [wp gains]. intros t i _ _ [Hi _]. set (m := new_meta _ _ _ _ _ _).
  assert (exact ({[ i ]} ∪ ∅) l) as He. { intros x [->%elem_of_singleton|Hx]%elem_of_union; [|by apply not_elem_of_empty in Hx]. split; rewrite Hi; [apply tree_empty|apply counted_empty]. }
  apply (wp_sure _ _ _ _ _ _ i); [done|set_solver| |done]. intros [] _. apply (exact_first_meta m); [cbn; set_solver|done|cbn; by rewrite Hi|done].
Qed.

Lemma ensure_exact req o l : en_session req ∈ o -> exact o l -> wp no_fault (ensure req) o ∅ l leaves_exact.
Proof.
  intros Hs He. unfold ensure. case_match; [done|]. apply (wp_read no_fault _ _ _ _ _ _ (en_session req)); [done..| |done]. intros b [= ->].
  destruct (meta (sess (en_session req) l)) as [m|] eqn:Hm; [done|]. cbn [wp]. intros t.
  apply (wp_sure _ _ _ _ _ _ (en_session req)); [done..| |done]. intros [] _. by apply exact_first_meta.
Qed.

Lemma set_meta_exact req o l : sm_session req ∈ o -> exact o l -> wp no_fault (set_meta req) o ∅ l leaves_exact.
Proof.
  intros Hs He. unfold set_meta. apply wp_exact_meta; [done..|]. intros m Hm Hn.
  repeat case_match; try done; cbn [wp]; intros t; cbv zeta; (apply (wp_exact_put_meta _ m); [by rewrite <-Hn in Hs|done|cbn; by rewrite Hn|done|done]).
Qed.

Lemma set_status_exact req o l : ss_session req ∈ o -> exact o l -> wp no_fault (set_status req) o ∅ l leaves_exact.
Proof.
  intros Hs He. unfold set_status. apply wp_exact_meta; [done..|]. intros m Hm Hn. case_match; [done|]. cbn [wp]. intros t. cbv zeta.
  apply (wp_exact_put_meta _ m); [by rewrite <-Hn in Hs|done|cbn; by rewrite Hn|done|done].
Qed.

Lemma set_draft_exact req o l : sd_session req ∈ o -> exact o l -> wp no_fault (set_draft req) o ∅ l leaves_exact.
Proof.
  intros Hs He. unfold set_draft. apply wp_exact_meta; [done..|]. intros m Hm Hn. cbv zeta. set (d := match sd_draft req with Some _ => _ | None => _ end).
  apply bind_run. assert (forall parked u, wp no_fault (if decide (draft m = d /\ draft_attachments m = parked) then ret (draft_response m, @nil EmittableEvent)
    else call (PutMeta (with_draft d parked m)) (λ _, ret (draft_response (with_draft d parked m), []))) o u l leaves_exact) as Hrest.
  { intros parked u. case_decide; [done|]. apply (wp_exact_put_meta _ m); [by rewrite <-Hn in Hs|done|cbn; by rewrite Hn|done|done]. }
  destruct (sd_attachment_ids req) as [ids|]; [|by intros u _].
  apply (resolve_draft_tree no_fault (sd_session req)); [done|by apply exact_trees|]. intros [p|e] _; cbn [wp]; [by intros u _|done].
Qed.

Lemma set_leaf_exact sid eid o l : sid ∈ o -> exact o l -> wp no_fault (Service.set_active_leaf sid eid) o ∅ l leaves_exact.
Proof.
  intros Hs He. unfold Service.set_active_leaf. apply wp_exact_meta; [done..|]. intros m Hm _.
  apply (wp_read no_fault _ _ _ _ _ _ sid); [done..| |done]. intros b [= ->]. destruct (entries (sess sid l) !! eid) eqn:Hx; [|done].
  apply (wp_sure _ _ _ _ _ _ sid); [done..| |done]. intros [] _. apply (exact_spec _ sid); [done|cbn; by rewrite Hx|done|done|].
  intros _ Hc. cbn [spec snd]. rewrite sess_change, decide_True by done. by apply counted_leaf.
Qed.

Lemma commit_exact req w e o u l : ap_session req ∈ o -> exact o l -> wp no_fault (commit_entry req w e) o u l leaves_exact.
Proof.
  intros Hs He. unfold commit_entry. set (x := bool_decide _).
  assert (exact o (spec (CommitAppend (ap_session req) e x) l).2) as He'.
  { apply (exact_spec _ (ap_session req)); [done..|]. intros Ht Hc. cbn [spec].
    destruct (decide_append (ap_session req) e x (sess (ap_session req) l)) as [[?|[e' m']]|?] eqn:Hd; cbn [snd]; [done| |done].
    rewrite sess_change, decide_True by done. by eapply counted_append. }
  apply (wp_sure _ _ _ _ _ _ (ap_session req)); [done..| |done]. intros c _. by case_match.
Qed.

Lemma append_exact req w o l : ap_session req ∈ o -> exact o l -> wp no_fault (append req w) o ∅ l leaves_exact.
Proof.
  intros Hs He. unfold append. apply wp_exact_meta; [done..|]. intros m Hm _.
  assert (forall body, wp no_fault (append_body req w body) o ∅ l leaves_exact) as Hgo; [|destruct (ap_message req), (ap_custom req); auto; done].
  intros body. unfold append_body. apply bind_run.
  assert (forall u, wp no_fault (resolve_parent (ap_session req) (ap_parent req) (λ p, fresh_id (ap_entry req) (λ i, Now (λ now,
            commit_entry req w (new_entry body i p now (ap_origin req)))))) o u l leaves_exact) as Hnew.
  { intros u. unfold resolve_parent. destruct (ap_parent req); (apply (wp_read no_fault _ _ _ _ _ _ (ap_session req)); [done..| |done]); intros b _;
      [destruct b; [|done]|]; destruct (ap_entry req); cbn [fresh_id wp]; intros; by apply commit_exact. }
  unfold named_entry. destruct (ap_entry req) as [i|] eqn:Hi; [|intros u _; apply Hnew].
  apply (wp_read no_fault _ _ _ _ _ _ (ap_session req)); [done..| |done]. intros [e|] _ u _; [by apply commit_exact|apply Hnew].
Qed.

Lemma update_exact req w o l : um_session req ∈ o -> exact o l -> wp no_fault (update_message req w) o ∅ l leaves_exact.
Proof.
  intros Hs He. unfold update_message. apply wp_exact_meta; [done..|]. intros m Hm Hn.
  apply (wp_read no_fault _ _ _ _ _ _ (um_session req)); [done..| |done]. intros found [= ->].
  destruct (entries (sess (um_session req) l) !! um_entry req) as [[i p t r org msg|]|] eqn:Hx; [|done..]. case_match; [done|].
  destruct (edited req msg) as [msg'|]; [|done]. cbv zeta. set (e := EMessage i p t (add_u64 r 1) org msg').
  destruct (He _ Hs) as [Ht _]. pose proof (tree_keys _ _ Ht _ _ Hx : i = um_entry req) as Hi.
  apply (wp_sure _ _ _ _ _ _ (um_session req)); [done..| |done]. intros [] _. cbn [wp]. intros now.
  assert (exact o (spec (PutEntry (um_session req) e) l).2) as He'.
  { apply (exact_spec _ (um_session req)); [done|cbn [safe]; unfold puttable; cbn [id parent_id e]; by rewrite Hi, Hx|done|done|].
    intros _ [Ha Hc]. rewrite spec_put_entry. cbn. split; cbn.
    - intros j. rewrite Ha, Hi, lookup_insert. case_decide; subst; [|done]. rewrite Hx. split; intros; by eexists.
    - rewrite Hm in Hc |- *. by rewrite Hi, (messages_replace _ e _ _ Hx). }
  apply (wp_exact_put_meta _ m); [cbn; by rewrite <-Hn in Hs|done| |done|done]. cbn [session_id touched with_count]. rewrite Hn, spec_put_entry. exact Hm.
Qed.

Lemma add_count n k : (add_u64 (Z.of_nat n mod 2 ^ 64) (Z.of_nat k) = Z.of_nat (n + k) mod 2 ^ 64)%Z.
Proof. unfold add_u64. rewrite Z.add_mod_idemp_l by done. f_equal. lia. Qed.

Lemma append_many_exact req w o l : am_session req ∈ o -> exact o l -> wp no_fault (append_many req w) o ∅ l leaves_exact.
Proof.
  intros Hs He. pose proof (exact_trees _ _ He) as Htr. apply wp_append_many; [done|done|done|by intros ?%never_faulty|].
  set (sid := am_session req). set (s := sess sid l). intros m new e now l' Hm Hp Hnew Hl Htop Hlast Hl' Hother _ Htr'.
  destruct (He sid Hs) as [Ht [Ha Hc]]. fold s in Ht, Ha, Hc. apply (exact_change sid o l); [done|done|by apply Htr'|]. rewrite Hl'.
  assert (exists up, chain (entries s) (parent_of_batch req s) up) as [up Hup].
  { destruct (parent_of_batch req s) as [q|] eqn:Hq; [|by exists []]. apply rooted_chain, (tree_rooted _ _ Ht). exact Hp. }
  apply (counted_sealed sid s new (parent_of_batch req s) up); [done|exact Ha|done|done|done|unfold tip; by rewrite Hlast|].
  cbn [message_count with_count]. rewrite Hm in Hc. rewrite Hc, add_count. do 3 f_equal. f_equal. symmetry. apply filter_all. apply Forall_forall.
  intros x Hx. apply list_elem_of_lookup in Hx as [k Hk]. destruct (Forall2_lookup_r _ _ _ _ _ Hnew Hk) as (y & _ & (i & p & ->)). done.
Qed.

Lemma exact_same o l l' : exact o l -> (forall t, sess t l' = sess t l) -> exact o l'.
Proof. intros He Hs t Ht. unfold exact_inv. rewrite Hs. by apply He. Qed.

Lemma put_attachment_exact req o l : pa_session req ∈ o -> exact o l -> wp no_fault (put_attachment cfg req) o ∅ l leaves_exact.
Proof.
  intros Hs He. unfold put_attachment. repeat (case_match; [done|]). destruct (b64_decode (pa_data req)); [|done].
  case_match; [done|]. apply wp_exact_meta; [done..|]. intros m Hm _. cbn [wp gains]. intros i _ _ _ now.
  apply (wp_sure _ _ _ _ _ _ (pa_session req)); [done..| |done]. intros [] _. by eapply exact_same.
Qed.

Lemma delete_attachment_exact sid aid o l : sid ∈ o -> exact o l -> wp no_fault (delete_attachment sid aid) o ∅ l leaves_exact.
Proof.
  intros Hs He. unfold delete_attachment. apply wp_exact_meta; [done..|]. intros m Hm Hn.
  apply (wp_read no_fault _ _ _ _ _ _ sid); [done..| |done]. intros es _. destruct (list_find _ es) as [[? ?]|]; [done|].
  assert (exact o (spec (DeleteAttachment sid aid) l).2) as He' by (by eapply exact_same).
  apply (wp_sure _ _ _ _ _ _ sid); [done..| |done]. intros b _. destruct (draft_attachments m); [|done]. case_match; [done|].
  apply (wp_exact_put_meta _ m); [cbn; by rewrite Hn|done|cbn; by rewrite Hn|done|done].
Qed.

Lemma delete_session_exact sid o l : sid ∈ o -> exact o l -> wp no_fault (delete_session sid) o ∅ l leaves_exact.
Proof.
  intros Hs He. unfold delete_session. apply (wp_read no_fault _ _ _ _ _ _ sid); [done..| |done]. intros [m|] _; [|done].
  do 4 (apply (wp_sure _ _ _ _ _ _ sid); [done..| |done]; intros [] _). cbn [wp]. intros now.
  apply (exact_change sid o l); [done| | |].
  - intros t Ht. cbn. rewrite !sess_change, !decide_False by done. rewrite sess_set_blobs. by rewrite !sess_change, !decide_False by done.
  - cbn. rewrite !sess_change, !decide_True by done. rewrite sess_set_blobs, !sess_change, !decide_True by done.
    split; cbn; [intros i e|intros i|done|done]; rewrite lookup_empty; [done|by intros [? ?]].
  - cbn. rewrite !sess_change, !decide_True by done. rewrite sess_set_blobs, !sess_change, !decide_True by done.
    split; [|done]. intros i. cbn. rewrite lookup_empty. split; [set_solver|by intros [? ?]].
Qed.

Lemma copies_messages ids path copies : Forall2 (copy_of ids) path copies ->
  length (filter (λ e, Is_true (is_message e)) copies) = length (filter (λ e, Is_true (is_message e)) path).
Proof.
  induction 1 as [|e c path copies He _ IH]; [done|]. rewrite !filter_cons. pose proof (copy_body _ _ _ He) as Hb.
  destruct e, c; try done; cbn [is_message]; repeat case_decide; cbn [length]; congruence.
Qed.

Lemma fork_exact req o l : fk_session req ∈ o -> exact o l -> wp no_fault (fork req) o ∅ l leaves_exact.
Proof.
  intros Hs He. pose proof (exact_trees _ _ He) as Htr. apply wp_fork; [done|done|done|by intros ?%never_faulty|].
  intros source path ids copies new_sid e now l' Hm Hpath Hnew Hse Hbl _ _ Hc Hlc Htop Hlast Hl' _ Hother Htr' m'.
  intros t Ht. split; [by apply Htr'|]. destruct (decide (t = new_sid)) as [->|Hne]; [|destruct (Hother t Hne) as [-> _]; apply He; set_solver].
  rewrite Hl'. apply (counted_sealed new_sid empty_session copies None []); [apply tree_empty| |done|done|done|unfold tip; by rewrite Hlast|].
  - intros j. cbn. rewrite lookup_empty. split; [set_solver|by intros [? ?]].
  - cbn [message_count forked_meta entries empty_session]. rewrite messages_empty, Nat.add_0_l. do 2 f_equal. symmetry. by eapply copies_messages, copies_of.
Qed.

End Handlers.
End CountRules.

(** ** Properties *)

Module CountProperties.
Import Log LifeRules Run Views System SystemRules Transcript ActivePath TreeRules BatchRules CountRules ReaderRules Service Readers Serve Events.

Section Worker.
Context `{Crates} `{SerdeFile} (cfg : ServiceConfig) (em : Emitter) (Hmax : max_list_limit cfg <> 0).

Lemma wp_events_exact {A} (p : Reply A) o u l : wp no_fault p o u l leaves_exact -> wp no_fault (events_of p) o u l leaves_exact.
Proof. intros Hp. apply bind_run. eapply run_mono; [|exact Hp]. by intros [[a es]|e] o' l' He; [intros u' _|]. Qed.

Lemma wp_no_events_exact {A} (p : Prog A) o u l : wp no_fault p o u l leaves_exact -> wp no_fault (no_events p) o u l leaves_exact.
Proof. intros Hp. apply bind_run. eapply run_mono; [|exact Hp]. by intros [a|e] o' l' He; [intros u' _|]. Qed.

Lemma wp_reader_exact {A} (p : Prog A) o u l : calm p -> exact o l -> wp no_fault (no_events p) o u l leaves_exact.
Proof. intros Hc He. apply wp_no_events_exact. eapply run_mono; [|by apply calm_wp]. by intros r o' l' (-> & -> & _). Qed.

Lemma serve_exact r l : exact (locks r) l -> wp no_fault (serve cfg em r) (locks r) ∅ l leaves_exact.
Proof.
  intros He. destruct r; cbn [serve locks] in *; first [apply wp_events_exact|idtac].
  - apply create_exact.
  - apply ensure_exact; [set_solver|done].
  - by apply wp_reader_exact; [apply get_calm|].
  - by apply wp_reader_exact; [apply list_calm|].
  - apply set_meta_exact; [set_solver|done].
  - apply set_draft_exact; [set_solver|done].
  - apply set_status_exact; [set_solver|done].
  - apply delete_session_exact; [set_solver|done].
  - apply append_exact; [set_solver|done].
  - apply append_many_exact; [set_solver|done].
  - apply update_exact; [set_solver|done].
  - by apply wp_reader_exact; [apply messages_calm|].
  - by apply wp_reader_exact; [apply get_message_calm|].
  - by apply wp_reader_exact; [apply messages_tail_calm|].
  - by apply wp_reader_exact; [apply messages_range_calm|].
  - apply wp_no_events_exact, put_attachment_exact; [set_solver|done].
  - by apply wp_reader_exact; [apply get_attachment_calm|].
  - apply wp_no_events_exact, delete_attachment_exact; [set_solver|done].
  - by apply wp_reader_exact; [apply list_attachments_calm|].
  - apply fork_exact; [set_solver|done].
  - apply set_leaf_exact; [set_solver|done].
Qed.

End Worker.

(** C14: when the store answers, the message count in the metadata of every session nobody works on
    is the number of message entries it stores, modulo 2^64, in every state the worker reaches:
    however appends, batches, forks and deletions interleave. *)
Theorem message_count_is_exact `{Crates} `{SerdeFile} cfg em s sid m : max_list_limit cfg <> 0 ->
  reachable no_fault (served cfg em) empty_model s -> free {[ sid ]} s -> meta (sess sid (store s)) = Some m ->
  message_count m = (Z.of_nat (messages_in (entries (sess sid (store s)))) mod 2 ^ 64)%Z.
Proof.
  intros Hmax Hr Hf Hm.
  assert (good no_fault (served cfg em) exact_inv s) as Hg.
  { apply (good_reachable no_fault (served cfg em) exact_inv (λ _, True)) with (m := empty_model); [| |exact Hr].
    - intros o p (r & -> & ->) l Hl. eapply run_mono; [|by apply serve_exact]. done.
    - intros t. split; [apply tree_empty|apply counted_empty]. }
  destruct (good_free _ _ _ _ Hg sid Hf) as [_ [_ Hc]]. by rewrite Hm in Hc.
Qed.

End CountProperties.
