(* ===== verification/SessionExamples.v ===== *)
(** * A session to look at

    [Solo.solo] runs a handler alone on the sessions it holds and is sound for [finishes]; with
    it a small conversation is made, appended to, edited, forked and paged, and every property
    of the session manager is applied to it. *)

From Stdlib Require Import Ascii ZArith Lia.
From S2P Require Import Prelude Json Codec JsonText SessionTypes SessionLog SessionLife SessionStore SessionEvents SessionService.
From S2P Require Import SessionRead SessionRun SessionTree SessionPages SessionBatch SessionServe SessionEffects SessionCount.
Import Types Contract Prog.

(** ** Runs that can be evaluated *)

Module Solo.
Import Log Run Views Transcript ActivePath.

Definition freshb (k : IdKind) (i : string) (m : Model) : bool :=
  match k with
  | SessionId => bool_decide (sessions m !! i = None) && bool_decide (attachments m !! i = None)
  | EntryId => forallb (λ s, bool_decide (entries s !! i = None)) (btree_values (sessions m))
  | AttachmentId => forallb (λ b : Blobs, bool_decide (b !! i = None)) (btree_values (attachments m))
  end.

Lemma freshb_sound k i m : freshb k i m = true -> fresh k i m.
Proof.
  destruct k; cbn [freshb fresh].
  - intros [Hs%bool_decide_eq_true Hb%bool_decide_eq_true]%andb_prop. unfold sess, blobs. by rewrite Hs, Hb.
  - intros Hf s. unfold sess. destruct (sessions m !! s) as [x|] eqn:Hs; [|apply lookup_empty]. cbn. rewrite forallb_forall in Hf.
    apply (bool_decide_eq_true_1 _), Hf, list_elem_of_In, elem_of_btree_values. by exists s.
  - intros Hf s. unfold blobs. destruct (attachments m !! s) as [x|] eqn:Hs; [|apply lookup_empty]. cbn. rewrite forallb_forall in Hf.
    apply (bool_decide_eq_true_1 (x !! i = None)), Hf, list_elem_of_In, elem_of_btree_values. by exists s.
Qed.

(** The run with the given ids, at time 7. *)
Fixpoint solo {A} (o u : gset string) (l : Model) (ids : list string) (p : Prog A) : option (result A Stop * Model) :=
  match p with
  | Done r => Some (r, l)
  | Do op k => if decide (held o op) then solo o u (spec op l).2 ids (k (spec op l).1) else None
  | Now k => solo o u l ids (k 7%Z)
  | NewId kd k =>
      match ids with
      | i :: ids' =>
          if decide (i ∉ u /\ i ∉ o) then if freshb kd i l then solo (gains kd i o) ({[ i ]} ∪ u) l ids' (k i) else None else None
      | [] => None
      end
  end.

Lemma answer_refl {A} (op : Op A) r : same_answer op r r.
Proof. destruct op; cbn [same_answer]; try reflexivity; destruct r; reflexivity. Qed.

Lemma solo_run mf {A} (p : Prog A) o u l ids r l' : solo o u l ids p = Some (r, l') ->
  exists o' u', rtc (lstep mf) (mk_local o u l p) (mk_local o' u' l' (Done r)).
Proof.
  revert o u l ids. induction p as [x|B op k IH|k IH|kd k IH]; intros o u l ids; cbn [solo].
  - intros [= -> ->]. by exists o, u.
  - case_decide as Hh; [|done]. intros (o' & u' & Hr)%IH. exists o', u'. eapply rtc_l; [|exact Hr].
    apply l_held; [done|]. left. split; [apply answer_refl|done].
  - intros (o' & u' & Hr)%IH. exists o', u'. eapply rtc_l; [|exact Hr]. apply l_now.
  - destruct ids as [|i ids]; [done|]. case_decide as Hi; [|done]. destruct Hi as [Hu Ho]. destruct (freshb kd i l) eqn:Hf; [|done].
    intros (o' & u' & Hr)%IH. exists o', u'. eapply rtc_l; [|exact Hr]. apply l_new; [done|done|by apply freshb_sound].
Qed.

Lemma solo_finishes mf {A} (p : Prog A) o l ids r l' : solo o ∅ l ids p = Some (r, l') -> finishes mf p o l r l'.
Proof. apply solo_run. Qed.

(** The answer of a run, and what it leaves. *)
Definition left_by {A} (x : option (result A Stop * Model)) : Model := from_option snd empty_model x.

(** A tree, checked: every entry has a path to a root. *)
Definition treeb (sid : string) (s : LoadedSession) : bool :=
  forallb (λ p : string * SessionEntry, bool_decide (id p.2 = p.1) && match Service.active_path (entries s) p.1 with Ok _ => true | Err _ => false end)
    (btree_iter (entries s))
  && match leaf s with Some i => bool_decide (is_Some (entries s !! i)) | None => true end
  && match meta s with Some m => bool_decide (session_id m = sid) | None => true end.

Lemma treeb_sound sid s : treeb sid s = true -> tree sid s.
Proof.
  intros [[He Hl]%andb_prop Hm]%andb_prop. rewrite forallb_forall in He.
  assert (forall i e, entries s !! i = Some e -> id e = i /\ exists p, Service.active_path (entries s) i = Ok p) as Hall.
  { intros i e Hi. assert (In (i, e) (btree_iter (entries s))) as Hin by by apply list_elem_of_In, elem_of_btree_iter.
    apply He in Hin. cbn in Hin. apply andb_prop in Hin as [Hid%bool_decide_eq_true Hp]. split; [done|].
    destruct (Service.active_path (entries s) i) as [p|]; [by eexists|done]. }
  assert (keyed (entries s)) as Hk by (intros i e Hi; by apply (Hall i e)).
  split.
  - exact Hk.
  - intros i [e Hi]. destruct (Hall i e Hi) as [_ [p Hp]]. apply active_path_chain in Hp; [|done]. clear Hl Hm He Hi.
    revert i e p Hp. assert (forall up i, chain (entries s) (Some i) up -> rooted (entries s) i) as Hc.
    { induction up as [|x up IH]; intros i; [done|]. intros [Hx Hc]. destruct (parent_id x) as [q|] eqn:Hq.
      - eapply rooted_child; [exact Hx|exact Hq|]. apply IH. exact Hc.
      - by eapply rooted_root. }
    intros i e p Hp. by eapply Hc.
  - intros i Hi. rewrite Hi in Hl. by apply bool_decide_eq_true in Hl.
  - intros m Hmm. rewrite Hmm in Hm. by apply bool_decide_eq_true in Hm.
Qed.

(** Values that fit, checked. *)
Fixpoint sortedb (l : list string) : bool :=
  match l with
  | [] => true
  | k :: l' => forallb (λ j, String.leb k j && negb (bool_decide (k = j))) l' && sortedb l'
  end.

Fixpoint fitsb (n : nat) (v : Value) : bool :=
  match v, n with
  | Null, _ | Bool _, _ | Str _, _ => true
  | Num (PosInt z), _ => ((0 <=? z) && (z <=? u64_max))%Z
  | Num (NegInt z), _ => ((i64_min <=? z) && (z <=? -1))%Z
  | Num (Float _), _ => false
  | Arr l, S k => forallb (fitsb k) l
  | Obj m, S k => sortedb (obj_keys m) && forallb (λ p, fitsb k p.2) m
  | _, O => false
  end.

Lemma sortedb_sound l : sortedb l = true -> StronglySorted key_lt l.
Proof.
  induction l as [|k l IH]; [constructor|]. intros [Hk Hl]%andb_prop. constructor; [by apply IH|]. apply Forall_forall. intros j Hj.
  rewrite forallb_forall in Hk. apply list_elem_of_In, Hk in Hj. apply andb_prop in Hj as [Hle Hne]. split; [by apply Is_true_true|].
  by apply negb_true_iff, bool_decide_eq_false in Hne.
Qed.

Lemma fitsb_sound n v : fitsb n v = true -> fits n v.
Proof.
  revert v. induction n as [|n IH]; intros v; destruct v as [| |[z|z|z]| |l|m]; cbn [fitsb fits]; try done;
    try (intros [?%Z.leb_le ?%Z.leb_le]%andb_prop; unfold in_range; lia).
  - intros Hl. rewrite forallb_forall in Hl. induction l as [|x l IHl]; simpl; [done|]. split; [apply IH, Hl; by left|apply IHl]. intros y Hy. apply Hl. by right.
  - intros [Hs Hm]%andb_prop. split; [by apply sortedb_sound|]. rewrite forallb_forall in Hm.
    clear Hs. induction m as [|x m IHm]; simpl; [done|]. split; [apply IH, Hm; by left|apply IHm]. intros y Hy. apply Hm. by right.
Qed.

(** Interleavings that can be evaluated: a handler begins, takes its next step, draws an id. *)
Section Play.
Import System Serve.
Context `{Crates} `{SerdeFile} (cfg : ServiceConfig) (em : Events.Emitter) (mf : MayFail).
Abbreviation Worker := (State (list Events.EmittableEvent)).

Inductive Move : Type := Begin (n : nat) (r : Request) | Go (n : nat) | Draw (n : nat) (i : string).

Definition only (o : gset string) (m : Model) : Model :=
  mk_model (filter (λ p : string * LoadedSession, p.1 ∈ o) (sessions m)) (filter (λ p : string * Blobs, p.1 ∈ o) (attachments m)).

Lemma lookup_only {X} (o : gset string) (f : gmap string X) s :
  filter (λ p : string * X, p.1 ∈ o) f !! s = if decide (s ∈ o) then f !! s else None.
Proof.
  case_decide as Hs; apply option_eq; intros x; rewrite map_lookup_filter_Some; cbn; naive_solver.
Qed.

Lemma view_only o m : view_of o m (only o m).
Proof. intros s. unfold sess, blobs, only. cbn. rewrite !lookup_only. by case_decide. Qed.

Definition freeb (o : gset string) (s : Worker) : bool := forallb (λ p, bool_decide (th_own p.2 ## o)) (map_to_list (threads s)).

Lemma freeb_sound o s : freeb o s = true -> free o s.
Proof.
  intros Hf n t Ht. unfold freeb in Hf. rewrite forallb_forall in Hf. apply elem_of_map_to_list, list_elem_of_In, Hf in Ht.
  by apply bool_decide_eq_true in Ht.
Qed.

Definition move (s : Worker) (v : Move) : option Worker :=
  match v with
  | Begin n r =>
      match threads s !! n with
      | Some _ => None
      | None =>
          if freeb (locks r) s then
            Some (mk_state (store s) (<[n := mk_thread (mk_local (locks r) ∅ (only (locks r) (store s)) (serve cfg em r)) (locks r) ∅ (serve cfg em r)]> (threads s)))
          else None
      end
  | Go n =>
      t ← threads s !! n;
      match th_rest t with
      | Do op k => Some (resume n t (th_own t) (th_used t) (k (spec op (store s)).1) (spec op (store s)).2 s)
      | Now k => Some (resume n t (th_own t) (th_used t) (k 7%Z) (store s) s)
      | NewId _ _ => None
      | Done _ => Some (mk_state (store s) (delete n (threads s)))
      end
  | Draw n i =>
      t ← threads s !! n;
      match th_rest t with
      | NewId kd k =>
          if decide (i ∉ th_used t) then
            if freeb {[ i ]} s && freshb kd i (store s) then
              Some (resume n t (gains kd i (th_own t)) ({[ i ]} ∪ th_used t) (k i) (store s) s)
            else None
          else None
      | _ => None
      end
  end.

Fixpoint play (s : Worker) (l : list Move) : option Worker :=
  match l with [] => Some s | v :: l' => s' ← move s v; play s' l' end.

Lemma move_sound s v s' : move s v = Some s' -> step mf (served cfg em) s s'.
Proof.
  destruct v as [n r|n|n i]; cbn [move].
  - destruct (threads s !! n) eqn:Hn; [done|]. destruct (freeb (locks r) s) eqn:Hf; [|done]. intros [= <-].
    apply s_begin; [by exists r|done|by apply freeb_sound|apply view_only].
  - destruct (threads s !! n) as [t|] eqn:Hn; [|done]. cbn [mbind option_bind]. destruct (th_rest t) as [r|B op k|k|kd k] eqn:Hr; intros [= <-].
    + by eapply s_end.
    + eapply s_call; [done|done|]. left. split; [apply answer_refl|done].
    + by eapply s_now.
  - destruct (threads s !! n) as [t|] eqn:Hn; [|done]. cbn [mbind option_bind]. destruct (th_rest t) as [r|B op k|k|kd k] eqn:Hr; try done.
    case_decide as Hu; [|done]. destruct (freeb {[ i ]} s) eqn:Hf; [|done]. destruct (freshb kd i (store s)) eqn:Hi; [|done]. intros [= <-].
    eapply s_new; [done|done|done|by apply freeb_sound|by apply freshb_sound].
Qed.

Lemma play_sound l s s' : play s l = Some s' -> rtc (step mf (served cfg em)) s s'.
Proof.
  revert s. induction l as [|v l IH]; intros s; cbn [play]; [by intros [= ->]|]. destruct (move s v) as [s1|] eqn:Hm; [|done].
  intros Hp. eapply rtc_l; [by eapply move_sound|by apply IH].
Qed.

End Play.

End Solo.

(** ** The sample *)

Module Sample.
Import Log LogRules Run Views Transcript ActivePath TreeRules BatchRules EffectRules PageRules PageProperties CountRules Solo Service Pagination Readers Serve Events.

(** Crates that encode nothing. *)
#[export] Instance plain_crates : Crates := {| b64_encode s := s; b64_decode s := Ok s; sha256_hex _ := "digest" |}.
#[export] Instance plain_laws : CratesLaws.
Proof. by split. Qed.
#[export] Existing Instance SampleFile.text.
#[export] Existing Instance SampleFile.laws.

Definition cfg : ServiceConfig := mk_config 50 200 1000.
Definition em : Emitter := mk_emitter (λ _, true) false.
Definition own : gset string := {[ "s" ]}.

Definition run {A} (o : gset string) (l : Model) (ids : list string) (p : Prog A) : option (result A Stop * Model) := solo o ∅ l ids p.

Definition text (t : string) : AgentMessage := MUser [BText t] 0.

(** A session, two messages, an attachment, a message that refers to it. *)
Definition l1 : Model := Eval vm_compute in left_by (run own empty_model [] (ensure (mk_ensure "s" None None None None))).
Definition batch : AppendManyRequest := mk_append_many "s" [text "hello"; text "again"] None None.
Definition l2 : Model := Eval vm_compute in left_by (run own l1 ["e1"; "e2"] (append_many batch true)).
Definition l3 : Model := Eval vm_compute in left_by (run own l2 ["a1"] (put_attachment cfg (mk_put "s" "note.txt" "" "bytes"))).
Definition with_file : AppendRequest := mk_append "s" (Some (MUser [BFile "a1" "note.txt" "text/plain" 5] 0)) None None (Some "e3") None.
Definition l4 : Model := Eval vm_compute in left_by (run own l3 [] (append with_file true)).

Lemma one_session l x : sessions l = {[ "s" := x ]} -> treeb "s" x = true -> forall sid, tree sid (sess sid l).
Proof.
  intros Hl Hx sid. unfold sess. rewrite Hl. destruct (decide (sid = "s")) as [->|Hne].
  - rewrite lookup_singleton_eq. by apply treeb_sound.
  - rewrite lookup_singleton_ne by done. apply tree_empty.
Qed.

Lemma l4_tree : forall sid, tree sid (sess sid l4).
Proof. by eapply one_session. Qed.
Lemma l1_tree : forall sid, tree sid (sess sid l1).
Proof. by eapply one_session. Qed.

Lemma held_s : forall l, (forall sid, tree sid (sess sid l)) -> trees own l.
Proof. intros l Hl sid _. apply Hl. Qed.

(** The answer of a run. *)
Definition answered {A} (x : option (result A Stop * Model)) : result A Stop := from_option fst (Err Panicked) x.

Definition l5 : Model := Eval vm_compute in left_by (run own l4 [] (append with_file true)).


Definition edit : UpdateMessageRequest := mk_update "s" "e1" [BText "bye"] None None (Some 0%Z) None.
Definition l6 : Model := Eval vm_compute in left_by (run own l4 [] (update_message edit true)).
Definition edited_events : list EmittableEvent := Eval vm_compute in
  match answered (run own l4 [] (update_message edit true)) with Ok (_, evs) => evs | Err _ => [] end.

(** The append, then an edit of the first message and a move of the leaf back to it, then the
    append again. *)
Definition back : Request := RSetActiveLeaf "s" "e1".
Definition l8 : Model := Eval vm_compute in left_by (run own l6 [] (serve cfg em back)).
Definition back_events : list EmittableEvent := Eval vm_compute in
  match answered (run own l6 [] (serve cfg em back)) with Ok evs => evs | Err _ => [] end.
Definition l9 : Model := Eval vm_compute in left_by (run own l8 [] (append with_file true)).
Definition file_events : list EmittableEvent := Eval vm_compute in
  match answered (run own l3 [] (append with_file true)) with Ok (_, evs) => evs | Err _ => [] end.
Definition file_answer : AppendResponse := mk_appended "e3" (Some "e2") 7.
Definition attempts : list EffectProperties.Attempt :=
  [EffectProperties.mk_attempt (sess "s" l3) (Ok (file_answer, file_events)) (sess "s" l4);
   EffectProperties.mk_attempt (sess "s" l8) (Ok (file_answer, [])) (sess "s" l9)].

Lemma attempts_made : EffectProperties.history cfg em with_file l3 attempts l9.
Proof.
  assert (finishes any_fault (append with_file true) own l3 (Ok (file_answer, file_events)) l4) as H1
    by (apply (solo_finishes any_fault _ _ _ []); vm_compute; reflexivity).
  assert (finishes any_fault (serve cfg em (RUpdateMessage edit)) own l4 (Ok edited_events) l6) as H2
    by (apply (solo_finishes any_fault _ _ _ []); vm_compute; reflexivity).
  assert (finishes any_fault (serve cfg em back) own l6 (Ok back_events) l8) as H3
    by (apply (solo_finishes any_fault _ _ _ []); vm_compute; reflexivity).
  assert (finishes any_fault (append with_file true) own l8 (Ok (file_answer, [])) l9) as H4
    by (apply (solo_finishes any_fault _ _ _ []); vm_compute; reflexivity).
  pose proof (EffectProperties.h_attempt cfg em with_file l3 [] l3 any_fault true _ l4 (EffectProperties.h_start cfg em with_file l3) H1) as G1.
  assert ("s" ∈ own) as Hs by (by apply elem_of_singleton).
  assert (EffectProperties.history cfg em with_file l3 _ l6) as G2 by (refine (EffectProperties.h_handler cfg em with_file l3 _ l4 any_fault _ _ l6 G1 _ _ H2); [exact Hs|discriminate]).
  assert (EffectProperties.history cfg em with_file l3 _ l8) as G3 by (refine (EffectProperties.h_handler cfg em with_file l3 _ l6 any_fault _ _ l8 G2 _ _ H3); [exact Hs|discriminate]).
  exact (EffectProperties.h_attempt cfg em with_file l3 _ l8 any_fault true _ l9 G3 H4).
Qed.

Lemma append_retried_once_witness :
  sess "s" l9 = sess "s" l8 /\ leaf (sess "s" l9) = Some "e1" /\ exists e, entries (sess "s" l9) !! "e3" = Some e.
Proof.
  assert (tree "s" (sess "s" l3)) as Ht by (apply treeb_sound; vm_compute; reflexivity).
  destruct (EffectProperties.append_retried_once cfg em with_file "e3" l3 attempts l9 Ht eq_refl attempts_made) as [Honce Hheld].
  split; [|split; [vm_compute; reflexivity|]].
  - destruct (Honce 0 1 _ _ ltac:(lia) eq_refl eq_refl) as [_ Hn]. destruct (Hn _ _ eq_refl) as [Heq _]. symmetry. exact Heq.
  - destruct (Hheld (EffectProperties.mk_attempt (sess "s" l8) (Ok (file_answer, [])) (sess "s" l9)) file_answer [] ltac:(by apply list_elem_of_further, list_elem_of_here) eq_refl) as (e & He & _). exists e. exact He.
Defined.

Lemma update_expected_once_witness : up_revision (mk_updated true 1%Z) = add_u64 0%Z 1%Z.
Proof.
  assert (finishes any_fault (update_message edit true) own l4 (Ok (mk_updated true 1%Z, edited_events)) l6) as H1
    by (apply (solo_finishes any_fault _ _ _ []); vm_compute; reflexivity).
  assert (finishes any_fault (update_message edit true) own l6 (Ok (mk_updated false 1%Z, [])) l6) as H2
    by (apply (solo_finishes any_fault _ _ _ []); vm_compute; reflexivity).
  exact (proj1 (proj2 (EffectProperties.update_expected_once any_fault any_fault edit edit true true l4 l6 l6 _ _ _ 0%Z (l4_tree "s") eq_refl eq_refl eq_refl eq_refl H1 eq_refl H2))).
Defined.

Lemma referenced_attachments_stay_witness : is_Some (blobs "s" l4 !! "a1") /\ is_Some (blobs "s" l6 !! "a1").
Proof.
  split; [by eexists|]. assert (finishes any_fault (serve cfg em (RUpdateMessage edit)) own l4 (Ok edited_events) l6) as H1
    by (apply (solo_finishes any_fault _ _ _ []); vm_compute; reflexivity).
  eexists. eapply (EffectProperties.referenced_attachments_stay any_fault cfg em (RUpdateMessage edit) l4 _ l6 "s" "a1"); [| | | | |exact H1].
  - apply held_s, l4_tree.
  - cbn [locks]. set_solver.
  - discriminate.
  - exists "e3". eexists. split; [vm_compute; reflexivity|reflexivity].
  - vm_compute. reflexivity.
Defined.

Definition batch_events : list EmittableEvent := Eval vm_compute in
  match answered (run own l1 ["e1"; "e2"] (append_many batch true)) with Ok (_, evs) => evs | Err _ => [] end.

Lemma append_many_extends_witness : exists before new, transcript (sess "s" l2) = before ++ new /\ id <$> new = ["e1"; "e2"].
Proof.
  assert (finishes any_fault (append_many batch true) own l1 (Ok (mk_appended_many ["e1"; "e2"] "e2", batch_events)) l2) as H1
    by (apply (solo_finishes any_fault _ _ _ ["e1"; "e2"]); vm_compute; reflexivity).
  destruct (EffectProperties.append_many_extends any_fault batch true l1 _ _ l2 (l1_tree "s") H1) as (before & new & now & Ht & _ & _ & Hi & _).
  by exists before, new.
Defined.

Definition branch : ForkRequest := mk_fork "s" "e3" None.
Definition l7 : Model := Eval vm_compute in left_by (run own l4 ["t"; "f1"; "f2"; "f3"] (fork branch)).
Definition forked : string * SessionMeta * list EmittableEvent := Eval vm_compute in
  match answered (run own l4 ["t"; "f1"; "f2"; "f3"] (fork branch)) with Ok x => x | Err _ => ("", new_meta "" None None None None 0, []) end.

Lemma fork_is_a_copy_witness : exists path ids, active_path (entries (sess "s" l4)) "e3" = Ok path /\
  Forall2 (copy_of ids) path (transcript (sess "t" l7)).
Proof.
  assert (finishes any_fault (fork branch) own l4 (Ok (forked.1.1, forked.1.2, forked.2)) l7) as H1
    by (apply (solo_finishes any_fault _ _ _ ["t"; "f1"; "f2"; "f3"]); vm_compute; reflexivity).
  assert (blobs_keyed (blobs "s" l4)) as Hk.
  { intros i a b Hi. change (blobs "s" l4) with ({[ "a1" := (mk_attachment "a1" "s" "note.txt" "application/octet-stream" 5 "digest" 7, "bytes") ]} : Blobs) in Hi.
    apply lookup_singleton_Some in Hi as [<- [= <- <-]]. reflexivity. }
  destruct (EffectProperties.fork_is_a_copy any_fault branch l4 _ _ _ l7 (l4_tree "s") Hk H1) as (path & ids & Hp & Hc & _).
  by exists path, ids.
Defined.

(** The worker, up to the third message. *)
Definition history : list Move :=
  [Begin 0 (REnsure (mk_ensure "s" None None None None)); Go 0; Go 0; Go 0; Go 0;
   Begin 0 (RAppendMany batch); Go 0; Go 0; Go 0; Draw 0 "e1"; Go 0; Draw 0 "e2"; Go 0; Go 0; Go 0; Go 0;
   Begin 0 (RPutAttachment (mk_put "s" "note.txt" "" "bytes")); Go 0; Draw 0 "a1"; Go 0; Go 0; Go 0;
   Begin 0 (RAppend with_file); Go 0; Go 0; Go 0; Go 0; Go 0; Go 0].

Lemma l4_reached mf : System.reachable mf (served cfg em) empty_model (System.idle l4).
Proof. apply (play_sound cfg em mf history). vm_compute. reflexivity. Qed.

Lemma empty_trees : forall sid, tree sid (sess sid empty_model).
Proof. intros sid. exact (tree_empty sid). Qed.

Lemma idle_free o l : System.free (A := list EmittableEvent) o (System.idle l).
Proof. by intros n t. Qed.

Lemma transcripts_stay_trees_witness : tree "s" (sess "s" l4).
Proof.
  apply (ServeProperties.transcripts_stay_trees cfg em deletes_answered empty_model (System.idle l4)).
  - by intros A [].
  - discriminate.
  - exact empty_trees.
  - apply l4_reached.
  - apply idle_free.
Defined.

Lemma message_count_is_exact_witness : exists m, meta (sess "s" l4) = Some m /\ message_count m = 3%Z.
Proof.
  eexists. split; [vm_compute; reflexivity|].
  refine (CountProperties.message_count_is_exact cfg em (System.idle l4) "s" _ _ (l4_reached no_fault) (idle_free _ _) _).
  - discriminate.
  - vm_compute. reflexivity.
Defined.

(** A handler that has just begun. *)
Definition begun : Prog (list EmittableEvent) := serve cfg em (RUpdateMessage edit).
Definition busy : System.State (list EmittableEvent) :=
  System.mk_state l4 {[ 0 := System.mk_thread (mk_local own ∅ (only own l4) begun) own ∅ begun ]}.

Lemma busy_reached mf : System.reachable mf (served cfg em) empty_model busy.
Proof. eapply rtc_r; [apply l4_reached|]. apply (move_sound cfg em mf (System.idle l4) (Begin 0 (RUpdateMessage edit))). reflexivity. Qed.

Lemma handlers_run_alone_witness : exists r, own = locks r /\ begun = serve cfg em r.
Proof.
  destruct (ServeProperties.handlers_run_alone cfg em deletes_answered empty_model busy) as [H1 _].
  - by intros A [].
  - discriminate.
  - exact empty_trees.
  - apply busy_reached.
  - destruct (H1 0 (System.mk_thread (mk_local own ∅ (only own l4) begun) own ∅ begun) eq_refl) as (r & l & Ho & Hp & _). by exists r.
Defined.

Lemma handlers_do_not_panic_witness : begun <> Done (Err Panicked).
Proof.
  apply (ServeProperties.handlers_do_not_panic cfg em deletes_answered empty_model busy 0 (System.mk_thread (mk_local own ∅ (only own l4) begun) own ∅ begun)).
  - by intros A [].
  - discriminate.
  - exact empty_trees.
  - apply busy_reached.
  - reflexivity.
Defined.

Definition two_at_a_time : MessagesRequest := mk_messages "s" (Some 2) None None None None None None None None.

Lemma messages_pages_complete_witness : length (shown two_at_a_time (sess "s" l4)) = 3 /\
  walk (messages_page cfg two_at_a_time l4) 4 None = Some (message_item two_at_a_time <$> shown two_at_a_time (sess "s" l4)).
Proof.
  split; [vm_compute; reflexivity|].
  refine (PageProperties.messages_pages_complete cfg _ two_at_a_time l4 _ (l4_tree "s") _ _ _).
  - discriminate.
  - vm_compute. reflexivity.
  - exact I.
  - reflexivity.
Defined.

Definition all_sessions : ListRequest := mk_list (Some 1) None None None None None.

Definition listed : list SessionMeta := Eval vm_compute in metas l7.

Lemma list_pages_complete_witness : walk (list_page cfg all_sessions l7) 3 None = Some (listing all_sessions l7).
Proof.
  refine (proj1 (PageProperties.list_pages_complete cfg _ all_sessions l7 _ _)).
  - discriminate.
  - intros sid. destruct (decide (sid = "s")) as [->|Hs]; [apply treeb_sound; vm_compute; reflexivity|].
    destruct (decide (sid = "t")) as [->|Ht]; [apply treeb_sound; vm_compute; reflexivity|].
    assert (sess sid l7 = empty_session) as ->; [|apply tree_empty]. unfold sess.
    change (sessions l7) with (<["s" := sess "s" l7]> {[ "t" := sess "t" l7 ]} : gmap string LoadedSession).
    by rewrite lookup_insert_ne, lookup_singleton_ne by done.
  - assert (metas l7 = listed) as -> by (vm_compute; reflexivity).
    repeat (apply Forall_cons_2; [split; split; apply Z.leb_le; reflexivity|]). apply Forall_nil_2.
Defined.

Definition newest : TailRequest := mk_tail "s" (Some 1) None None None None.

Lemma tail_pages_complete_witness : length (activity_blocks (tail_path newest (sess "s" l4))) = 3 /\
  walk_back (tail_fetch cfg newest l4) 4 None =
  Some (activity_blocks (tail_path newest (sess "s" l4)) ≫= block_items false (tail_path newest (sess "s" l4))).
Proof.
  split; [vm_compute; reflexivity|].
  refine (proj1 (PageProperties.tail_pages_complete cfg _ newest l4 _ (l4_tree "s") _ _ _)).
  - discriminate.
  - vm_compute. reflexivity.
  - discriminate.
  - reflexivity.
Defined.

(** *** A session file *)

Definition title_page : SessionMeta := new_meta "s" (Some "notes") None None None 7.

Definition value_okb (v : Value) : bool := fitsb 126 v && utf8_value v.
Lemma value_okb_sound v : value_okb v = true -> value_ok v.
Proof. unfold value_okb, value_ok. intros [Hf Hu]%andb_prop. split; [exact (fitsb_sound _ v Hf)|exact Hu]. Qed.

Ltac range_tac := vm_compute; repeat split; intros Hc; discriminate Hc.

Lemma title_ok : rec_ok (RMeta title_page).
Proof. split; [constructor; try exact I; range_tac|]. apply value_okb_sound. vm_compute. reflexivity. Qed.

(** The file after its first record. *)
Definition o1 : Open := Eval vm_compute in (append_and_apply AppendOk (RMeta title_page) (mk_open None empty_session)).2.
Definition opened : Life.Sys := Life.mk_sys None (Some empty_session) [empty_session] [] ∅ [].
Definition after_meta : Life.Sys := Life.mk_sys (Log.text o1) (Some (session o1)) [empty_session] [] ∅ [RMeta title_page].

Lemma opened_reached : Life.reachable "s" opened.
Proof.
  eapply rtc_l; [apply (Life.Replay "s" Life.init empty_session); reflexivity|].
  eapply rtc_l; [exact (Life.Publish "s" (Life.mk_sys None None [empty_session] [] ∅ []) empty_session ltac:(apply list_elem_of_here))|apply rtc_refl].
Qed.

Lemma after_meta_reached : Life.reachable "s" after_meta.
Proof.
  eapply rtc_r; [exact opened_reached|].
  refine (Life.Write "s" opened AppendOk (RMeta title_page) empty_session (Ok tt) o1 _ _ _);
    [reflexivity|exact I|vm_compute; reflexivity].
Qed.

Lemma reads_survive_restart_witness : exists r, replay_file (Life.file after_meta) = Ok r /\ LifeRules.agrees [] (Log.apply (RMeta title_page) empty_session) r.
Proof.
  refine (LifeProperties.reads_survive_restart "s" after_meta _ after_meta_reached _ _ _);
    [apply Forall_cons_2; [exact title_ok|apply Forall_nil_2]|vm_compute; reflexivity..].
Defined.

Definition first_entry : SessionEntry := EMessage "e1" None 7 0 None (text "hi").
Definition o2 : Open := Eval vm_compute in (commit_append AppendOk "s" first_entry false o1).2.
Definition after_commit : Life.Sys :=
  Life.mk_sys (Log.text o2) (Some (session o2)) [empty_session] [] ({[ "e1" ]} ∪ ∅)
    [RMeta title_page; Log.RAppend first_entry (bump_meta first_entry title_page)].

Lemma after_commit_reached : Life.reachable "s" after_commit.
Proof.
  eapply rtc_r; [exact after_meta_reached|].
  refine (Life.Commit "s" after_meta AppendOk first_entry false (session o1) (Ok (mk_commit first_entry (bump_meta first_entry title_page) true)) o2 _ _);
    [reflexivity|vm_compute; reflexivity].
Qed.

Lemma after_commit_legible : Life.legible after_commit.
Proof.
  apply Forall_cons_2; [exact title_ok|]. apply Forall_cons_2; [|apply Forall_nil_2]. split.
  - split; [|apply value_okb_sound; vm_compute; reflexivity]. split; [range_tac|]. split; [range_tac|].
    split; [apply Forall_cons_2; [exact I|apply Forall_nil_2]|range_tac].
  - split; [constructor; try exact I; range_tac|]. apply value_okb_sound. vm_compute. reflexivity.
Qed.

(** The appended entry after a crash: a running session answers a retry from what is stored, and
    a start reads it back. *)
Definition after_restart : Life.Sys := Life.mk_sys (Life.file after_commit) None [] [] (Life.acked after_commit) (Life.tried after_commit).

Lemma after_restart_reached : Life.reachable "s" after_restart.
Proof. eapply rtc_r; [exact after_commit_reached|apply Life.Crash]. Qed.

Lemma answered_append_is_kept_witness :
  (exists stored, entries (session o2) !! "e1" = Some stored /\
     commit_append AppendOk "s" first_entry false (mk_open (Life.file after_commit) (session o2)) =
       (Ok (mk_commit stored (bump_meta first_entry title_page) false), mk_open (Life.file after_commit) (session o2))) /\
  exists s stored, replay_file (Life.file after_restart) = Ok s /\ entries s !! "e1" = Some stored.
Proof.
  assert ("e1" ∈ Life.acked after_commit) as Ha by (apply elem_of_union_l, elem_of_singleton; reflexivity). split.
  - pose proof (LifeProperties.answered_append_is_kept "s" after_commit "e1" after_commit_reached after_commit_legible Ha) as H.
    cbv beta iota delta [Life.live after_commit] in H. destruct H as (stored & Hs & Hr). exists stored. split; [exact Hs|].
    apply Hr; vm_compute; reflexivity.
  - pose proof (LifeProperties.answered_append_is_kept "s" after_restart "e1" after_restart_reached after_commit_legible Ha) as H.
    cbv beta iota delta [Life.live after_restart] in H. destruct H as [Hu|(s & stored & Hr & Hs & _)]; [vm_compute in Hu; discriminate Hu|].
    exists s, stored. split; [exact Hr|exact Hs].
Defined.

(** The file when its first write stops after two bytes, the second in the middle of a character. *)
Definition torn_open : Open := Eval vm_compute in (append_and_apply (AppendStops 2 "no space left") (RMeta title_page) (mk_open None empty_session)).2.
Definition after_crash : Life.Sys := Life.mk_sys (Log.text torn_open) None [] [] ∅ [RMeta title_page].

Lemma after_crash_reached : Life.reachable "s" after_crash.
Proof.
  eapply rtc_r; [|apply (Life.Crash "s" (Life.mk_sys (Log.text torn_open) (Some (session torn_open)) [empty_session] [] ∅ [RMeta title_page]))].
  eapply rtc_r; [exact opened_reached|].
  refine (Life.Write "s" opened (AppendStops 2 "no space left") (RMeta title_page) empty_session (Err "no space left") torn_open _ _ _);
    [reflexivity|exact I|vm_compute; reflexivity].
Qed.

Lemma cut_inside_a_character_locks_the_session_witness : Life.reachable "s" after_crash /\
  exists e, replay_file (Life.file after_crash) = Err e.
Proof.
  split; [exact after_crash_reached|]. destruct (Log.text torn_open) as [t|] eqn:Ht; [|discriminate Ht].
  refine (proj2 (proj2 (LifeProperties.cut_inside_a_character_locks_the_session "s" after_crash t after_crash Ht _ eq_refl eq_refl (rtc_refl _ _)))).
  vm_compute in Ht. injection Ht as <-. reflexivity.
Defined.

(** *** A reader beside an append *)

Definition note : AppendRequest := mk_append "s" (Some (text "more")) None None (Some "e4") None.

(** The reader lists the entries, then the append commits, then the reader asks for the leaf. *)
Definition race : list Move :=
  [Begin 1 (RMessages two_at_a_time); Go 1; Go 1;
   Begin 0 (RAppend note); Go 0; Go 0; Go 0; Go 0; Go 0; Go 0;
   Go 1].

Definition raced : Model := Eval vm_compute in from_option System.store empty_model (play cfg em (System.idle l4) race).

(** Readers take no lock.  One that runs while an append commits lists the entries before it and
    reads the leaf after it: it answers that the path refers to an entry that is missing,
    although no call failed and every transcript is whole. *)
Theorem reader_beside_an_append_fails : exists s t,
  System.reachable no_fault (served cfg em) empty_model s /\ System.threads s !! 1 = Some t /\
  System.th_rest t = Done (Err (Failed (Storage "path references missing entry e4"))) /\
  transcript (sess "s" (System.store s)) <> [] /\ forall sid, tree sid (sess sid (System.store s)).
Proof.
  assert (exists s, play cfg em (System.idle l4) race = Some s /\ System.store s = raced /\
    System.th_rest <$> System.threads s !! 1 = Some (Done (Err (Failed (Storage "path references missing entry e4"))))) as (s & Hs & Hst & Ht).
  { eexists. vm_compute. split_and!; reflexivity. }
  destruct (System.threads s !! 1) as [t|] eqn:H1; [|discriminate Ht]. injection Ht as Ht. exists s, t. rewrite Hst. split_and!.
  - unfold System.reachable; etrans; [apply (l4_reached no_fault)|by eapply play_sound].
  - exact H1.
  - exact Ht.
  - vm_compute. discriminate.
  - by eapply one_session.
Qed.

End Sample.
