(* ===== verification/SessionBridge.v ===== *)
(** * Storage over a main instance (session-manager/src/store/bridge.rs, functions/store_protocol.rs)

    A bridged instance keeps its sessions in another instance, the main, which serves its store
    as the functions [session::store::*].  Module [Protocol] is those functions: their requests,
    the mode that gates them, their answers.  Module [Bridge] is the store that calls them, over
    a link on which a call can fail to reach the main, lose its answer, or be carried out after
    its caller has given up on it.  [BridgeRules] shows that what travels reads back, and that
    over a link that carries nothing out late the store of a bridged instance keeps the storage
    contract whenever the main's store does. *)

From Stdlib Require Import Ascii ZArith Lia.
From S2P Require Import Prelude Json Codec JsonText SessionTypes SessionLog SessionLife SessionStore SessionFs SessionEvents SessionService SessionRun SessionFsLaws.
Import Types Contract.

(** ** The functions of the main *)

Module Protocol.
Import Log.

Inductive StoreFn : Type :=
| FnGetMeta | FnPutMeta | FnDeleteMeta | FnListMetas | FnGetEntry | FnPutEntry | FnCommitAppend | FnListEntries | FnDeleteEntries
| FnGetActiveLeaf | FnSetActiveLeaf | FnDeleteActiveLeaf | FnPutAttachment | FnGetAttachment | FnListAttachments
| FnDeleteAttachment | FnDeleteAttachments.

#[export] Instance StoreFn_eq_dec : EqDecision StoreFn.
Proof. solve_decision. Defined.

Definition fn_name (f : StoreFn) : string :=
  match f with
  | FnGetMeta => "session::store::get-meta"
  | FnPutMeta => "session::store::put-meta"
  | FnDeleteMeta => "session::store::delete-meta"
  | FnListMetas => "session::store::list-metas"
  | FnGetEntry => "session::store::get-entry"
  | FnPutEntry => "session::store::put-entry"
  | FnCommitAppend => "session::store::commit-append"
  | FnListEntries => "session::store::list-entries"
  | FnDeleteEntries => "session::store::delete-entries"
  | FnGetActiveLeaf => "session::store::get-active-leaf"
  | FnSetActiveLeaf => "session::store::set-active-leaf"
  | FnDeleteActiveLeaf => "session::store::delete-active-leaf"
  | FnPutAttachment => "session::store::put-attachment"
  | FnGetAttachment => "session::store::get-attachment"
  | FnListAttachments => "session::store::list-attachments"
  | FnDeleteAttachment => "session::store::delete-attachment"
  | FnDeleteAttachments => "session::store::delete-attachments"
  end.

Inductive AdapterMode : Type := FsMain | BridgeMode.

(** Why a call has no answer: the request cannot be read, the instance is not the main, or the
    session error the handler ends with. *)
Inductive CallError : Type := BadRequest | Rejected | Handler (e : SessionError).

(** *** Requests *)

Definition read_session (v : Value) : option string := m ← as_object v; req "session_id" as_str m.
Definition read_named (k : string) (v : Value) : option (string * string) :=
  m ← as_object v; s ← req "session_id" as_str m; i ← req k as_str m; Some (s, i).
Definition read_meta (v : Value) : option SessionMeta := m ← as_object v; req "meta" from_value m.
Definition read_nothing (v : Value) : option unit := _ ← as_object v; Some tt.
Definition read_put_entry (v : Value) : option (string * SessionEntry) :=
  m ← as_object v; s ← req "session_id" as_str m; e ← req "entry" from_value m; Some (s, e).
Definition read_commit (v : Value) : option (string * SessionEntry * bool) :=
  m ← as_object v; s ← req "session_id" as_str m; e ← req "entry" from_value m; x ← req "parent_explicit" as_bool m; Some (s, e, x).
Definition read_put_attachment (v : Value) : option (AttachmentMeta * string) :=
  m ← as_object v; a ← req "meta" from_value m; d ← req "data" as_str m; Some (a, d).

(** *** Answers *)

Definition ok_response : Value := json_obj [("ok", Bool true)].
Definition enc_commit (c : CommitAppendResult) : Value :=
  json_obj [("entry", to_value (c_entry c)); ("meta", to_value (c_meta c)); ("committed", Bool (c_committed c))].

Section Main.
Context `{Crates} `{SessionStore St}.

Definition enc_stored (p : AttachmentMeta * string) : Value := json_obj [("meta", to_value p.1); ("data", Str (b64_encode p.2))].

(** A call of the main's store, answered with [out] of what it gives. *)
Definition store_call {A} (op : Op A) (out : A -> Value) (st : St) : result Value CallError * St :=
  let '(r, st') := perform op st in
  (match r with Ok a => Ok (out a) | Err e => Err (Handler (Storage e)) end, st').

(** The request is read before the handler runs; the handler then asks for the live store. *)
Definition on_request {R} (mode : AdapterMode) (request : option R) (handler : R -> St -> result Value CallError * St) (st : St)
  : result Value CallError * St :=
  match request with
  | None => (Err BadRequest, st)
  | Some r => match mode with FsMain => handler r st | BridgeMode => (Err Rejected, st) end
  end.

Definition ok_out (_ : unit) : Value := ok_response.

Definition serve_store (mode : AdapterMode) (f : StoreFn) (v : Value) : St -> result Value CallError * St :=
  match f with
  | FnGetMeta => on_request mode (read_session v) (λ s, store_call (GetMeta s) (enc_opt to_value))
  | FnPutMeta => on_request mode (read_meta v) (λ m, store_call (PutMeta m) ok_out)
  | FnDeleteMeta => on_request mode (read_session v) (λ s, store_call (DeleteMeta s) ok_out)
  | FnListMetas => on_request mode (read_nothing v) (λ _, store_call ListMetas (λ l, json_obj [("metas", enc_list to_value l)]))
  | FnGetEntry => on_request mode (read_named "entry_id" v) (λ p, store_call (GetEntry p.1 p.2) (enc_opt to_value))
  | FnPutEntry => on_request mode (read_put_entry v) (λ p, store_call (PutEntry p.1 p.2) ok_out)
  | FnCommitAppend => on_request mode (read_commit v) (λ '(s, e, x), store_call (CommitAppend s e x) enc_commit)
  | FnListEntries => on_request mode (read_session v) (λ s, store_call (ListEntries s) (λ l, json_obj [("entries", enc_list to_value l)]))
  | FnDeleteEntries => on_request mode (read_session v) (λ s, store_call (DeleteEntries s) ok_out)
  | FnGetActiveLeaf => on_request mode (read_session v) (λ s, store_call (GetActiveLeaf s) (λ l, json_obj [("entry_id", enc_opt Str l)]))
  | FnSetActiveLeaf => on_request mode (read_named "entry_id" v) (λ p, store_call (SetActiveLeaf p.1 p.2) ok_out)
  | FnDeleteActiveLeaf => on_request mode (read_session v) (λ s, store_call (DeleteActiveLeaf s) ok_out)
  | FnPutAttachment => on_request mode (read_put_attachment v) (λ p st,
      match b64_decode p.2 with
      | Err e => (Err (Handler (InvalidRequest ("attachment data is not valid base64: " +:+ e))), st)
      | Ok bytes => store_call (PutAttachment p.1 bytes) ok_out st
      end)
  | FnGetAttachment => on_request mode (read_named "attachment_id" v) (λ p, store_call (GetAttachment p.1 p.2) (enc_opt enc_stored))
  | FnListAttachments => on_request mode (read_session v) (λ s, store_call (ListAttachments s) (λ l, json_obj [("attachments", enc_list to_value l)]))
  | FnDeleteAttachment => on_request mode (read_named "attachment_id" v) (λ p, store_call (DeleteAttachment p.1 p.2) (λ b, json_obj [("deleted", Bool b)]))
  | FnDeleteAttachments => on_request mode (read_session v) (λ s, store_call (DeleteAttachments s) ok_out)
  end.

End Main.
End Protocol.

(** ** The store of a bridged instance *)

Module Bridge.
Import Log Protocol.
Abbreviation StoreError := string (only parsing).

(** The text of an error of the engine. *)
Class ErrorText : Type := { shown : CallError + string -> string }.

(** What happens to a call: it does not get to the main; the main answers; the answer is lost;
    or the caller gives up while the call is still on its way. *)
Inductive Fate : Type :=
| Unreached (e : string)
| Answers (mode : AdapterMode)
| AnswerLost (mode : AdapterMode) (e : string)
| Overtaken (e : string).

(** Before a call the main may carry out some of those that were given up on. *)
Record Link : Type := mk_link { arrives_late : nat; fate : Fate }.

Record Bridged (St : Type) : Type := mk_bridged {
  main : St; on_its_way : list (StoreFn * Value); sent : nat; link : nat -> Link }.
Arguments mk_bridged {St}.
Arguments main {St}.
Arguments on_its_way {St}.
Arguments sent {St}.
Arguments link {St}.

Section Calls.
Context `{Crates} `{SessionStore St} `{ErrorText}.

Fixpoint carry_out (late : list (StoreFn * Value)) (st : St) : St :=
  match late with
  | [] => st
  | (f, v) :: late' => carry_out late' (serve_store FsMain f v st).2
  end.

(** [BridgeStore::call]. *)
Definition call (f : StoreFn) (v : Value) (b : Bridged St) : result Value StoreError * Bridged St :=
  let l := link b (sent b) in
  let st := carry_out (take (arrives_late l) (on_its_way b)) (main b) in
  let late := drop (arrives_late l) (on_its_way b) in
  let failed e := Err ("bridge " +:+ fn_name f +:+ " failed: " +:+ shown e) in
  match fate l with
  | Unreached e => (failed (inr e), mk_bridged st late (S (sent b)) (link b))
  | Answers mode =>
      let '(r, st') := serve_store mode f v st in
      (match r with Ok x => Ok x | Err e => failed (inl e) end, mk_bridged st' late (S (sent b)) (link b))
  | AnswerLost mode e => (failed (inr e), mk_bridged (serve_store mode f v st).2 late (S (sent b)) (link b))
  | Overtaken e => (failed (inr e), mk_bridged st (late ++ [(f, v)]) (S (sent b)) (link b))
  end.

Definition malformed {A} (f : StoreFn) : result A StoreError := Err ("bridge " +:+ fn_name f +:+ " returned malformed data").
Definition parse {A} (f : StoreFn) (o : option A) : result A StoreError := match o with Some a => Ok a | None => malformed f end.

Definition session_request (s : string) : Value := json_obj [("session_id", Str s)].
Definition named_request (s k i : string) : Value := json_obj [("session_id", Str s); (k, Str i)].

(** The function each method of the store calls, and with what. *)
Definition request {A} (op : Op A) : StoreFn * Value :=
  match op with
  | GetMeta s => (FnGetMeta, session_request s)
  | PutMeta m => (FnPutMeta, json_obj [("meta", to_value m)])
  | DeleteMeta s => (FnDeleteMeta, session_request s)
  | ListMetas => (FnListMetas, json_obj [])
  | GetEntry s i => (FnGetEntry, named_request s "entry_id" i)
  | PutEntry s e => (FnPutEntry, json_obj [("session_id", Str s); ("entry", to_value e)])
  | CommitAppend s e x => (FnCommitAppend, json_obj [("session_id", Str s); ("entry", to_value e); ("parent_explicit", Bool x)])
  | ListEntries s => (FnListEntries, session_request s)
  | DeleteEntries s => (FnDeleteEntries, session_request s)
  | GetActiveLeaf s => (FnGetActiveLeaf, session_request s)
  | SetActiveLeaf s i => (FnSetActiveLeaf, named_request s "entry_id" i)
  | DeleteActiveLeaf s => (FnDeleteActiveLeaf, session_request s)
  | PutAttachment a bytes => (FnPutAttachment, json_obj [("meta", to_value a); ("data", Str (b64_encode bytes))])
  | GetAttachment s i => (FnGetAttachment, named_request s "attachment_id" i)
  | ListAttachments s => (FnListAttachments, session_request s)
  | DeleteAttachment s i => (FnDeleteAttachment, named_request s "attachment_id" i)
  | DeleteAttachments s => (FnDeleteAttachments, session_request s)
  end.

(** A member of the answer that has to be there. *)
Definition listed {A} (k missing : string) (f : StoreFn) (d : Value -> option A) (v : Value) : result A StoreError :=
  match vget k v with
  | None => Err ("bridge " +:+ missing)
  | Some x => parse f (d x)
  end.

Definition read_found {A} `{Codec A} (f : StoreFn) (v : Value) : result (option A) StoreError :=
  if is_null v then Ok None else parse f (Some <$> from_value v).

Definition read_committed (v : Value) : option CommitAppendResult :=
  m ← as_object v; e ← req "entry" from_value m; x ← req "meta" from_value m; c ← req "committed" as_bool m; Some (mk_commit e x c).

Definition read_stored (v : Value) : option (AttachmentMeta * string) :=
  m ← as_object v; a ← req "meta" from_value m; d ← req "data" as_str m; Some (a, d).

Definition read_leaf (v : Value) : result (option string) StoreError :=
  match vget "entry_id" v with
  | Some (Str s) => Ok (Some s)
  | Some Null | None => Ok None
  | Some _ => Err "bridge get_active_leaf returned malformed entry_id"
  end.

Definition read_attachment (v : Value) : result (option (AttachmentMeta * string)) StoreError :=
  if is_null v then Ok None
  else match read_stored v with
       | None => malformed FnGetAttachment
       | Some (a, d) =>
           match b64_decode d with
           | Err e => Err ("bridge " +:+ fn_name FnGetAttachment +:+ " returned malformed attachment bytes: " +:+ e)
           | Ok bytes => Ok (Some (a, bytes))
           end
       end.

(** What each method makes of the answer. *)
Definition read_answer {A} (op : Op A) (v : Value) : result A StoreError :=
  match op in Op A return result A StoreError with
  | GetMeta _ => read_found FnGetMeta v
  | ListMetas => listed "metas" "list_metas response missing `metas`" FnListMetas (dec_list from_value) v
  | GetEntry _ _ => read_found FnGetEntry v
  | CommitAppend _ _ _ => parse FnCommitAppend (read_committed v)
  | ListEntries _ => listed "entries" "list_entries response missing `entries`" FnListEntries (dec_list from_value) v
  | GetActiveLeaf _ => read_leaf v
  | GetAttachment _ _ => read_attachment v
  | ListAttachments _ => listed "attachments" "list_attachments response missing `attachments`" FnListAttachments (dec_list from_value) v
  | DeleteAttachment _ _ =>
      match vget "deleted" v ≫= as_bool with
      | Some b => Ok b
      | None => Err "bridge delete_attachment response missing `deleted`"
      end
  | PutMeta _ | DeleteMeta _ | PutEntry _ _ | DeleteEntries _ | SetActiveLeaf _ _ | DeleteActiveLeaf _ | PutAttachment _ _
  | DeleteAttachments _ => Ok tt
  end.

Definition bridge_call {A} (op : Op A) (b : Bridged St) : result A StoreError * Bridged St :=
  let '(r, b') := call (request op).1 (request op).2 b in
  (match r with Ok v => read_answer op v | Err e => Err e end, b').

#[export] Instance bridge_store : SessionStore (Bridged St) := {| perform A := bridge_call |}.

End Calls.
End Bridge.

(** ** What travels reads back *)

Module BridgeRules.
Import Log Protocol Bridge TypeRules.

Definition loaded_ok (s : LoadedSession) : Prop :=
  map_Forall (λ _ e, entry_ok e) (entries s) /\ from_option meta_ok True (meta s).
Definition blobs_ok (b : Blobs) : Prop := map_Forall (λ _ p, attachment_ok p.1) b.

(** Every number is within its width. *)
Definition stored_ok (m : Model) : Prop := forall s, loaded_ok (sess s m) /\ blobs_ok (blobs s m).

Definition args_ok {A} (op : Op A) : Prop :=
  match op with
  | PutMeta m => meta_ok m
  | PutEntry _ e | CommitAppend _ e _ => entry_ok e
  | PutAttachment a _ => attachment_ok a
  | _ => True
  end.

(** An answer whose numbers are within their width. *)
Definition answer_ok {A} (op : Op A) : A -> Prop :=
  match op in Op A return A -> Prop with
  | GetMeta _ => from_option meta_ok True
  | ListMetas => Forall meta_ok
  | GetEntry _ _ => from_option entry_ok True
  | CommitAppend _ _ _ => λ c, entry_ok (c_entry c) /\ meta_ok (c_meta c)
  | ListEntries _ => Forall entry_ok
  | GetAttachment _ _ => from_option (λ p, attachment_ok p.1) True
  | ListAttachments _ => Forall attachment_ok
  | _ => λ _, True
  end.

Lemma stored_set s x m : stored_ok m -> loaded_ok x -> stored_ok (set_sess s x m).
Proof. intros Hm Hx t. rewrite Views.sess_set, Views.blobs_set_sess. case_decide; [|apply Hm]. split; [done|apply Hm]. Qed.

Lemma stored_set_blobs s b m : stored_ok m -> blobs_ok b -> stored_ok (set_blobs s b m).
Proof. intros Hm Hx t. rewrite Views.sess_set_blobs, Views.blobs_set. case_decide; [|apply Hm]. split; [apply Hm|done]. Qed.

Lemma loaded_apply r s : loaded_ok s ->
  match r with RMeta m => meta_ok m | REntry e => entry_ok e | RAppend e m => entry_ok e /\ meta_ok m | _ => True end ->
  loaded_ok (apply r s).
Proof.
  intros [He Hm]. unfold loaded_ok. destruct r as [m|e|i|e m|i]; cbn [apply].
  - intros Hr. destruct (pending_legacy_append s); cbn; [|done]. unfold mark_active_path_committed. cbn. by destruct (leaf s).
  - intros Hr. cbn. split; [by apply map_Forall_insert_2|done].
  - done.
  - intros [Hr Hr']. cbn. split; [by apply map_Forall_insert_2|done].
  - done.
Qed.

Lemma with_parent_ok e p : entry_ok e -> entry_ok (with_parent e p).
Proof. by destruct e. Qed.

Lemma bump_ok e m : entry_ok e -> meta_ok m -> meta_ok (bump_meta e m).
Proof.
  intros (Ht & _) [H1 H2 H3 H4]. split; cbn; try done. destruct (is_message e); [|done]. unfold in_range, u64_max in *.
  pose proof (Z.mod_pos_bound (message_count m + 1) (2 ^ 64)). lia.
Qed.

Lemma resolve_ok s e x l e' : loaded_ok l -> entry_ok e -> resolve_entry s e x l = Ok e' -> entry_ok e'.
Proof.
  intros [Hl _] He. unfold resolve_entry. destruct (entries l !! id e) eqn:Hi; [intros [= <-]; by apply (Hl (id e))|].
  destruct x; [|intros [= <-]; by apply with_parent_ok].
  destruct (parent_id e) as [p|]; [|intros [= <-]; done]. destruct (entries l !! p); intros [= <-]; done.
Qed.

Lemma decide_append_ok s e x l : loaded_ok l -> entry_ok e ->
  match decide_append s e x l with
  | Ok (inl c) => entry_ok (c_entry c) /\ meta_ok (c_meta c)
  | Ok (inr (e', m')) => entry_ok e' /\ meta_ok m'
  | Err _ => True
  end.
Proof.
  intros Hl He. unfold decide_append. pose proof Hl as [Hen Hm]. destruct (meta l) as [m|]; [|done]. cbn in Hm.
  destruct (entries l !! id e) as [y|] eqn:Hi; cbn [mbind option_bind];
    [destruct (decide (id y ∈ committed l)); [split; [by apply (Hen (id e))|done]|]|];
    (destruct (resolve_entry s e x l) as [e'|] eqn:Hr; [|done]); apply resolve_ok in Hr; auto using bump_ok.
Qed.

Lemma spec_stored {A} (op : Op A) m : stored_ok m -> args_ok op -> stored_ok (spec op m).2.
Proof.
  intros Hm Ha. destruct op; cbn [spec snd args_ok] in *; try done; unfold change;
    try (apply stored_set; [done|]; destruct (Hm sid) as [[? ?] _] || destruct (Hm (session_id m0)) as [[? ?] _]; by apply loaded_apply || done).
  - destruct (Hm sid) as [Hs _]. pose proof (decide_append_ok sid e parent_explicit _ Hs Ha) as Hd.
    destruct (decide_append _ _ _ _) as [[c|[e' m']]|x]; cbn [snd]; [done| |done]. apply stored_set; [done|]. by apply loaded_apply.
  - apply stored_set_blobs; [done|]. apply map_Forall_insert_2; [done|]. apply Hm.
  - apply stored_set_blobs; [done|]. apply map_Forall_delete, Hm.
  - apply stored_set_blobs; [done|]. apply map_Forall_empty.
Qed.

Lemma outcome_stored {A} (op : Op A) m r m' : stored_ok m -> args_ok op -> outcome op m r m' -> stored_ok m'.
Proof.
  intros Hm Ha [r0 _|e|e|e m1 Hp]; [by apply spec_stored|done|by apply spec_stored|].
  destruct op; try done.
  { destruct Hp as (old & b & Hb & ->). apply stored_set_blobs; [done|]. destruct (Hm (att_session m0)) as [_ Hs].
    apply map_Forall_insert_2; [exact (Hs _ _ Hb)|done]. }
  destruct Hp as (b & Hb & ->). apply stored_set_blobs; [done|].
  intros i p Hi. destruct (Hm sid) as [_ Hs]. apply (Hs i). by eapply lookup_weaken.
Qed.

Lemma values_ok {X} (P : X -> Prop) (f : gmap string X) : map_Forall (λ _, P) f -> Forall P (btree_values f).
Proof. intros Hf. apply Forall_forall. intros x [k Hk]%elem_of_btree_values. by apply (Hf k). Qed.

Lemma spec_answer_ok {A} (op : Op A) m a : stored_ok m -> args_ok op -> same_answer op (Ok a) (spec op m).1 -> answer_ok op a.
Proof.
  intros Hm Ha. destruct op; cbn [spec fst same_answer answer_ok args_ok] in *; try done.
  - intros [= ->]. apply (Hm sid).
  - intros Hl. rewrite Hl. unfold metas. apply Forall_forall. intros x (s & Hs & Hx)%list_elem_of_omap. apply elem_of_btree_values in Hs as [k Hk].
    destruct (Hm k) as [[_ Hk'] _]. unfold sess in Hk'. rewrite Hk in Hk'. cbn in Hk'. by rewrite Hx in Hk'.
  - intros [= ->]. destruct (entries (sess sid m) !! eid) eqn:Hi; [|done]. destruct (Hm sid) as [[He _] _]. by apply (He eid).
  - destruct (Hm sid) as [Hs _]. pose proof (decide_append_ok sid e parent_explicit _ Hs Ha) as Hd.
    destruct (decide_append _ _ _ _) as [[c|[e' m']]|x]; cbn [fst]; [|intros [= ->]|]; [by intros [= ->]|done|done].
  - intros [= ->]. apply values_ok, (Hm sid).
  - intros [= ->]. destruct (blobs sid m !! aid) eqn:Hi; [|done]. destruct (Hm sid) as [_ Hb]. by apply (Hb aid).
  - intros Hl. rewrite Hl. unfold attachment_list. apply Forall_fmap. apply (values_ok (attachment_ok ∘ fst)). apply (Hm sid).
Qed.

(** *** Requests and answers *)

Section Travel.
Context `{CratesLaws} `{SessionStore St} `{ErrorText}.

(** How the main answers a method. *)
Definition answer {A} (op : Op A) : A -> Value :=
  match op in Op A return A -> Value with
  | GetMeta _ => enc_opt to_value
  | ListMetas => λ l, json_obj [("metas", enc_list to_value l)]
  | GetEntry _ _ => enc_opt to_value
  | CommitAppend _ _ _ => enc_commit
  | ListEntries _ => λ l, json_obj [("entries", enc_list to_value l)]
  | GetActiveLeaf _ => λ l, json_obj [("entry_id", enc_opt Str l)]
  | GetAttachment _ _ => enc_opt enc_stored
  | ListAttachments _ => λ l, json_obj [("attachments", enc_list to_value l)]
  | DeleteAttachment _ _ => λ b, json_obj [("deleted", Bool b)]
  | PutMeta _ | DeleteMeta _ | PutEntry _ _ | DeleteEntries _ | SetActiveLeaf _ _ | DeleteActiveLeaf _ | PutAttachment _ _
  | DeleteAttachments _ => λ _, ok_response
  end.

Lemma session_reads_back s : read_session (session_request s) = Some s.
Proof. unfold read_session, session_request. codec_tac. by get_req "session_id" s. Qed.

Lemma named_reads_back s k i : k <> "session_id" -> read_named k (named_request s k i) = Some (s, i).
Proof.
  intros Hk. unfold read_named, named_request. codec_tac. get_req "session_id" s; [|done].
  erewrite (req_obj k _ (Str i) i); [done| |done]. cbn [obj_get]. by rewrite decide_False, decide_True.
Qed.

(** The main carries out the operation the request was made from. *)
Lemma request_served {A} (op : Op A) mode st : args_ok op ->
  serve_store mode (request op).1 (request op).2 st =
  match mode with FsMain => store_call op (answer op) st | BridgeMode => (Err Rejected, st) end.
Proof.
  intros Ha. unfold serve_store, on_request.
  destruct op; cbn [request fst snd args_ok answer] in *; rewrite ?session_reads_back, ?named_reads_back by done; try (by destruct mode).
  - unfold read_meta. codec_tac. get_req "meta" m; [done|by apply meta_codec].
  - unfold read_put_entry. codec_tac. get_req "session_id" sid; [|done]. get_req "entry" e; [by destruct mode|by apply session_entry_codec].
  - unfold read_commit. codec_tac. get_req "session_id" sid; [|done]. get_req "entry" e; [|by apply session_entry_codec].
    get_req "parent_explicit" parent_explicit; [by destruct mode|done].
  - unfold read_put_attachment. codec_tac. get_req "meta" m; [|by apply attachment_codec]. get_req "data" (b64_encode bytes); [|done].
    destruct mode; [|done]. cbn [fst snd]. by rewrite b64_round.
Qed.

Lemma found_reads_back {X} `{Codec X} f (o : option X) : (forall x, o = Some x -> to_value x <> Null /\ codec_ok x) ->
  read_found f (enc_opt to_value o) = Ok o.
Proof.
  intros Hx. destruct o as [x|]; [|done]. destruct (Hx x eq_refl) as [Hn Hc]. unfold read_found. cbn [enc_opt].
  destruct (is_null (to_value x)) eqn:Hi; [by destruct (to_value x)|]. unfold codec_ok in Hc. by rewrite Hc.
Qed.

Lemma listed_reads_back {X} `{Codec X} k missing f (l : list X) : Forall codec_ok l ->
  listed k missing f (dec_list from_value) (json_obj [(k, enc_list to_value l)]) = Ok l.
Proof.
  intros Hl. unfold listed, json_obj, vget. rewrite obj_get_of_list. cbn [obj_get]. rewrite decide_True by done. unfold parse. by rewrite dec_enc_list.
Qed.

Lemma answer_reads_back {A} (op : Op A) a : answer_ok op a -> read_answer op (answer op a) = Ok a.
Proof.
  intros Ha. destruct op; cbn [answer read_answer answer_ok] in *; try (by destruct a).
  - apply found_reads_back. intros x ->. split; [done|]. by apply meta_codec.
  - apply listed_reads_back. eapply Forall_impl; [exact Ha|]. apply meta_codec.
  - apply found_reads_back. intros x ->. split; [done|]. by apply session_entry_codec.
  - destruct Ha as [He Hm]. unfold read_committed, enc_commit. codec_tac. get_req "entry" (c_entry a); [|by apply session_entry_codec].
    get_req "meta" (c_meta a); [|by apply meta_codec]. get_req "committed" (c_committed a); [by destruct a|done].
  - apply listed_reads_back. eapply Forall_impl; [exact Ha|]. apply session_entry_codec.
  - destruct a as [[a b]|]; [|done]. cbn in Ha. unfold read_attachment. cbn [enc_opt]. unfold enc_stored. cbn [is_null json_obj fst snd].
    unfold read_stored. codec_tac. get_req "meta" a; [|by apply attachment_codec]. get_req "data" (b64_encode b); [|done]. by rewrite b64_round.
  - apply listed_reads_back. eapply Forall_impl; [exact Ha|]. apply attachment_codec.
Qed.

(** *** The contract *)

(** Nothing is carried out late. *)
Definition prompt (l : Link) : Prop := match fate l with Overtaken _ => False | _ => True end.

(** What the bridged instance's store stands for: what the main's stands for. *)
Record represents_main (represents : St -> Model -> Prop) (b : Bridged St) (m : Model) : Prop := {
  main_represents : represents (main b) m;
  main_stored : stored_ok m;
  nothing_late : on_its_way b = [];
  link_prompt : forall n, prompt (link b n);
}.

Definition bridge_admits (admits : forall A, Op A -> Model -> Prop) (A : Type) (op : Op A) (m : Model) : Prop :=
  admits A op m /\ args_ok op.

Lemma outcome_fails {A} (op : Op A) m r m' e : outcome op m r m' -> outcome op m (Err e) m'.
Proof. intros [r0 _|e'|e'|e' m1 Hp]; [apply FailedAfter|apply FailedBefore|apply FailedAfter|by apply FailedPartly]. Qed.

Lemma outcome_ok {A} (op : Op A) m a m' : outcome op m (Ok a) m' -> same_answer op (Ok a) (spec op m).1 /\ outcome op m (Ok a) m'.
Proof. intros Ho. split; [|done]. by inversion Ho. Qed.

Lemma bridge_law represents admits `{!StoreLaws St represents admits} {A} (op : Op A) b m :
  represents_main represents b m -> bridge_admits admits A op m ->
  exists m', outcome op m (bridge_call op b).1 m' /\ represents_main represents (bridge_call op b).2 m'.
Proof.
  intros [Hr Hs Hl Hp] [Ha Hargs]. destruct (law_perform A op (main b) m Hr Ha) as (m' & Ho & Hr').
  assert (forall x m1, represents x m1 -> stored_ok m1 -> represents_main represents (mk_bridged x [] (S (sent b)) (link b)) m1) as Hnext by (by split).
  pose proof (outcome_stored op m _ m' Hs Hargs Ho) as Hs'.
  unfold bridge_call, call. rewrite Hl, take_nil, drop_nil. cbn [carry_out]. specialize (Hp (sent b)). unfold prompt in Hp.
  assert (forall mode, serve_store mode (request op).1 (request op).2 (main b) =
    match mode with FsMain => store_call op (answer op) (main b) | BridgeMode => (Err Rejected, main b) end) as Hserve by (intros; by apply request_served).
  destruct (fate (link b (sent b))) as [e|[]|[] e|e]; rewrite ?Hserve; unfold store_call; cbn [fst snd]; try done.
  - exists m. split; [apply FailedBefore|by apply Hnext].
  - destruct (perform op (main b)) as [[a|e] st'] eqn:Hperf; cbn [fst snd] in *; exists m'; (split; [|by apply Hnext]).
    + apply outcome_ok in Ho as [Hsame Ho]. rewrite answer_reads_back; [done|]. exact (spec_answer_ok op m a Hs Hargs Hsame).
    + by eapply outcome_fails.
  - exists m. split; [apply FailedBefore|by apply Hnext].
  - destruct (perform op (main b)) as [r st'] eqn:Hperf; cbn [fst snd] in *; exists m'; (split; [by eapply outcome_fails|by apply Hnext]).
  - exists m. split; [apply FailedBefore|by apply Hnext].
Qed.

#[export] Instance bridge_laws represents admits `{!StoreLaws St represents admits} :
  StoreLaws (Bridged St) (represents_main represents) (bridge_admits admits).
Proof. split. intros A op b m Hb Ha. by apply (bridge_law represents admits). Qed.

End Travel.
End BridgeRules.

(** ** Properties *)

Module BridgeProperties.
Import Log FileNames ModelStore FsStore FsRules Protocol Bridge BridgeRules TypeRules Prog Service.

(** C12: over a link that carries nothing out late, a bridged instance keeps its store's contract when
    the main keeps it: each call is answered as the contract says, or fails with nothing,
    everything or a part done, whether the call, its answer or the main's mode was lost. *)
Theorem bridge_keeps_contract `{CratesLaws} `{SessionStore St} (stands_for : St -> Model -> Prop)
    (allows : forall A, Op A -> Model -> Prop) `{!StoreLaws St stands_for allows} `{ErrorText} A (op : Op A) b m :
  represents_main stands_for b m -> bridge_admits allows A op m ->
  exists m', outcome op m (perform op b).1 m' /\ represents_main stands_for (perform op b).2 m'.
Proof. intros Hb Ha. by apply (bridge_law stands_for allows). Qed.

Definition sample_text : ErrorText := {| shown _ := "error" |}.
Definition sample_crates : Crates := {| b64_encode s := s; b64_decode s := Ok s; sha256_hex s := s |}.
Lemma sample_crates_laws : @CratesLaws sample_crates.
Proof. by split. Qed.

(** A main with an empty directory, over a link that loses every second answer. *)
Definition sample_link (n : nat) : Link := mk_link 0 (if Nat.even n then Answers FsMain else AnswerLost FsMain "timed out").
Definition sample_bridged : Bridged FsStore := mk_bridged (open_store ∅ false (λ _, quiet)) [] 0 sample_link.

Lemma sample_represents : let _ := SampleFile.text in represents_main represents sample_bridged empty_model.
Proof.
  intros txt. split; cbn [sample_bridged main on_its_way link].
  - apply (@represents_new txt). intros _. apply quiet_ok.
  - intros s. unfold sess, blobs. cbn [sessions attachments empty_model]. rewrite !lookup_empty. cbn.
    split; [split; [apply map_Forall_empty|done]|apply map_Forall_empty].
  - done.
  - intros n. unfold prompt, sample_link. cbn. by destruct (Nat.even n).
Qed.

Lemma bridge_keeps_contract_witness :
  let _ := SampleFile.text in let _ := sample_crates in let _ := sample_text in
  exists m', outcome (SetActiveLeaf "s" "e") empty_model (perform (SetActiveLeaf "s" "e") sample_bridged).1 m' /\
    represents_main represents (perform (SetActiveLeaf "s" "e") sample_bridged).2 m'.
Proof.
  intros txt crates err.
  apply (@bridge_keeps_contract crates sample_crates_laws FsStore (@fs_store txt) represents fs_admits (@fs_laws txt SampleFile.laws) err
    unit (SetActiveLeaf "s" "e") sample_bridged empty_model).
  - apply sample_represents.
  - split; [reflexivity|exact I].
Defined.

(** *** Calls that arrive late *)

Section Late.
Context `{CratesLaws} `{ErrorText}.

(** A bridged instance over a main that does what its contract says. *)
Abbreviation Over := (Bridged (Modelled no_faults)).

Definition arrived (b : Over) : Modelled no_faults := carry_out (take (arrives_late (link b (sent b))) (on_its_way b)) (main b).
Definition still_late (b : Over) : list (StoreFn * Value) := drop (arrives_late (link b (sent b))) (on_its_way b).

Lemma answered_call {A} (op : Op A) (b : Over) m c a : fate (link b (sent b)) = Answers FsMain -> arrived b = mk_modelled m c ->
  stored_ok m -> args_ok op -> (spec op m).1 = Ok a ->
  perform op b = (Ok a, mk_bridged (mk_modelled (spec op m).2 (S c)) (still_late b) (S (sent b)) (link b)).
Proof.
  intros Hf Hv Hm Ha Hs. cbn [perform bridge_store]. unfold bridge_call, Bridge.call. cbv zeta. fold (arrived b). fold (still_late b). rewrite Hf, Hv.
  rewrite request_served by done. unfold store_call. cbn [perform model_store]. unfold model_perform. cbn [calls model fault no_faults].
  rewrite Hs. assert (reorder no_faults c op (Ok a) = Ok a) as -> by (by destruct op).
  rewrite answer_reads_back; [done|]. apply (spec_answer_ok op m); [done|done|]. rewrite Hs. destruct op; cbn; done.
Qed.

Lemma overtaken_call {A} (op : Op A) (b : Over) e : fate (link b (sent b)) = Overtaken e ->
  exists x, perform op b = (Err x, mk_bridged (arrived b) (still_late b ++ [request op]) (S (sent b)) (link b)).
Proof.
  intros Hf. eexists. cbn [perform bridge_store]. unfold bridge_call, Bridge.call. cbv zeta. fold (arrived b). fold (still_late b). rewrite Hf.
  by rewrite <-surjective_pairing.
Qed.

Lemma carry_out_one {A} (op : Op A) m c : args_ok op -> carry_out [request op] (mk_modelled (f := no_faults) m c) = mk_modelled (spec op m).2 (S c).
Proof.
  intros Ha. rewrite (surjective_pairing (request op)). cbn [carry_out]. rewrite request_served by done. unfold store_call.
  cbn [perform model_store]. unfold model_perform. cbn [calls model fault no_faults]. by destruct (reorder _ _ _ _).
Qed.

(** The third call is given up on, the eighth comes after it has been carried out. *)
Definition overtaking (k : nat) : Link :=
  mk_link (if k =? 7 then 1 else 0) (if k =? 2 then Overtaken "timed out" else Answers FsMain).

Definition over (m : Model) : Over := mk_bridged (mk_modelled m 0) [] 0 overtaking.

Record updatable (req : UpdateMessageRequest) (m : Model) (e : SessionEntry) (msg' : AgentMessage) : Prop := {
  upd_meta : is_Some (meta (sess (um_session req) m));
  upd_entry : entries (sess (um_session req) m) !! um_entry req = Some e;
  upd_id : id e = um_entry req;
  upd_expected : um_expected req = Some (revision e);
  upd_edit : exists i p t r o msg, e = EMessage i p t r o msg /\ edited req msg = Ok msg';
  upd_ok : message_ok msg';
}.

Definition revised (e : SessionEntry) (msg : AgentMessage) : SessionEntry :=
  EMessage (id e) (parent_id e) (timestamp e) (add_u64 (revision e) 1) (origin e) msg.

Lemma revised_ok e msg : entry_ok e -> message_ok msg -> entry_ok (revised e msg).
Proof.
  intros (Ht & _) Hm. split_and!; [done| |done]. unfold revised, add_u64, in_range, u64_max. cbn.
  pose proof (Z.mod_pos_bound (revision e + 1) (2 ^ 64)). lia.
Qed.

Lemma touched_ok m now : meta_ok m -> in_range i64_min i64_max now -> meta_ok (touched now m).
Proof. intros [F1 F2 F3 F4] Hn. by split. Qed.

(** What an update does until it writes, and after. *)
Definition after_entry (req : UpdateMessageRequest) (w : bool) (e : SessionEntry) (mt : SessionMeta) (msg' : AgentMessage)
  : result unit string -> Reply UpdateMessageResponse := λ x,
  match x with
  | Err s => throw (Storage s)
  | Ok _ => Now (λ now,
      _ ←{ PutMeta (touched now mt) }
      ret (mk_updated true (add_u64 (revision e) 1),
        if w then [Events.mk_ev (Events.EvMessageUpdated (um_session req) (um_entry req) msg' (add_u64 (revision e) 1) (um_origin req) now)
                     (metadata (touched now mt))] else []))%P
  end.

Lemma update_calls `{SessionStore St} o req w m e msg' mt st st1 st2 n : updatable req m e msg' -> meta (sess (um_session req) m) = Some mt ->
  perform (GetMeta (um_session req)) st = (Ok (Some mt), st1) ->
  perform (GetEntry (um_session req) (um_entry req)) st1 = (Ok (Some e), st2) ->
  exec o (update_message req w) st n =
  let '(x, st3) := perform (PutEntry (um_session req) (revised e msg')) st2 in exec o (after_entry req w e mt msg' x) st3 (S (S (S n))).
Proof.
  intros [_ _ _ Hx (i & p & t & r & og & msg & -> & Hed) _] _ F1 F2. unfold update_message, meta_or_not_found, Prog.call. cbn [exec].
  rewrite F1. cbn [exec]. rewrite F2. cbn [revision] in Hx. rewrite Hx, Z.eqb_refl. cbn [negb]. rewrite Hed. cbn [exec]. done.
Qed.

End Late.

(** C33: the guard of [expected_revision] is checked by the instance, not by the main: a bridged update
    that was given up on and answered with a storage error can be carried out after its retry, with the
    same expected revision, has been answered; the message it stored is gone, at the same revision. *)
Theorem overtaken_update_overwrites_its_retry `{CratesLaws} `{ErrorText} o req1 req2 w m e msg1 msg2 :
  stored_ok m -> (forall k, in_range i64_min i64_max (clock o k)) ->
  um_session req2 = um_session req1 -> um_entry req2 = um_entry req1 -> updatable req1 m e msg1 -> updatable req2 m e msg2 ->
  let x1 := exec o (update_message req1 w) (over m) 0 in
  let x2 := exec o (update_message req2 w) x1.1.2 0 in
  (exists s, x1.1.1 = Err (Failed (Storage s))) /\
  (exists evs, x2.1.1 = Ok (mk_updated true (add_u64 (revision e) 1), evs)) /\
  (perform (GetEntry (um_session req1) (um_entry req1)) x2.1.2).1 = Ok (Some (revised e msg1)).
Proof.
  intros Hm Hck Hs He Hu1 Hu2. pose proof Hu1 as [[mt Hmt] Hent Hid _ _ Hok1]. pose proof Hu2 as [_ _ _ _ _ Hok2].
  assert (entry_ok e) as Hee by (destruct (Hm (um_session req1)) as [[Hall _] _]; by apply (Hall (um_entry req1))).
  assert (meta_ok mt) as Hmm by (destruct (Hm (um_session req1)) as [[_ Hall] _]; by rewrite Hmt in Hall).
  set (sid := um_session req1) in *. set (i := um_entry req1) in *. set (e1 := revised e msg1). set (e2 := revised e msg2).
  set (b1 := mk_bridged (mk_modelled (f := no_faults) m 1) [] 1 overtaking). set (b2 := mk_bridged (mk_modelled (f := no_faults) m 2) [] 2 overtaking).
  destruct (overtaken_call (PutEntry sid e1) b2 "timed out" eq_refl) as [s Hput].
  set (b3 := mk_bridged (mk_modelled (f := no_faults) m 2) [request (PutEntry sid e1)] 3 overtaking) in Hput.
  set (b4 := mk_bridged (mk_modelled (f := no_faults) m 3) [request (PutEntry sid e1)] 4 overtaking).
  set (b5 := mk_bridged (mk_modelled (f := no_faults) m 4) [request (PutEntry sid e1)] 5 overtaking).
  set (m2 := (spec (PutEntry sid e2) m).2). set (b6 := mk_bridged (mk_modelled (f := no_faults) m2 5) [request (PutEntry sid e1)] 6 overtaking).
  assert (x1' : exec o (update_message req1 w) (over m) 0 = (Err (Failed (Storage s)), b3, 3)).
  { rewrite (update_calls o req1 w m e msg1 mt (over m) b1 b2 0 Hu1 Hmt).
    2: { apply (answered_call (GetMeta sid) (over m) m 0 (Some mt)); try done. cbn. by rewrite Hmt. }
    2: { apply (answered_call (GetEntry sid i) b1 m 1 (Some e)); try done. cbn. by rewrite Hent. }
    fold sid e1. by rewrite Hput. }
  cbv zeta. rewrite x1'. cbn [fst snd]. split; [by exists s|]. set (x2 := exec o (update_message req2 w) b3 0).
  assert (Hmid : perform (PutEntry sid e2) b5 = (Ok tt, b6)).
  { apply (answered_call (PutEntry sid e2) b5 m 4 tt); try done. by apply revised_ok. }
  set (mt' := touched (clock o 3) mt). set (m3 := (spec (PutMeta mt') m2).2).
  set (b7 := mk_bridged (mk_modelled (f := no_faults) m3 6) [request (PutEntry sid e1)] 7 overtaking).
  assert (stored_ok m2) as Hm2 by (apply spec_stored; [done|by apply revised_ok]).
  assert (stored_ok m3) as Hm3 by (apply spec_stored; [done|apply touched_ok; [done|apply Hck]]).
  assert (Hmeta : perform (PutMeta mt') b6 = (Ok tt, b7)).
  { apply (answered_call (PutMeta mt') b6 m2 5 tt); try done. apply touched_ok; [done|apply Hck]. }
  assert (x2' : exists evs, x2 = (Ok (mk_updated true (add_u64 (revision e) 1), evs), b7, 5)).
  { subst x2. rewrite (update_calls o req2 w m e msg2 mt b3 b4 b5 0 Hu2); [|by rewrite Hs| |].
    2: { rewrite Hs. apply (answered_call (GetMeta sid) b3 m 2 (Some mt)); try done. cbn. by rewrite Hmt. }
    2: { rewrite Hs, He. apply (answered_call (GetEntry sid i) b4 m 3 (Some e)); try done. cbn. by rewrite Hent. }
    rewrite Hs. fold e2. fold sid. rewrite Hmid. unfold after_entry, Prog.call. cbn [exec].
    fold mt'. rewrite Hmeta. cbn [exec ret]. by eexists. }
  destruct x2' as [evs ->]. cbn [fst snd]. split; [by exists evs|].
  rewrite (answered_call (GetEntry sid i) b7 (spec (PutEntry sid e1) m3).2 7 (Some e1)); try done.
  - apply carry_out_one. by apply revised_ok.
  - apply spec_stored; [done|by apply revised_ok].
  - cbn [spec fst snd]. rewrite Views.sess_change, decide_True by done. cbn [apply entries]. f_equal.
    replace i with (id e1) by (unfold e1; cbn; done). apply lookup_insert_eq.
Qed.

(** *** Two instances *)

(** One step of a handler at time [now]; a handler that draws an id waits. *)
Definition prog_step {A} (now : Z) (p : Prog A) (m : Model) : Prog A * Model :=
  match p with
  | Do op k => (k (spec op m).1, (spec op m).2)
  | Now k => (k now, m)
  | Done _ | NewId _ _ => (p, m)
  end.

(** Two instances on one main, each with locks of its own: the schedule says whose step is next. *)
Fixpoint beside {A} (now : Z) (schedule : list bool) (p q : Prog A) (m : Model) : Prog A * Prog A * Model :=
  match schedule with
  | [] => (p, q, m)
  | true :: l => let '(p', m') := prog_step now p m in beside now l p' q m'
  | false :: l => let '(q', m') := prog_step now q m in beside now l p q' m'
  end.

Definition two_then_all : list bool := [true; true; false; false; false; false; false; true; true; true].

Lemma put_meta_entries s x m : entries (sess s (change (session_id x) (apply (RMeta x)) m)) = entries (sess s m).
Proof. rewrite Views.sess_change. case_decide; [|done]. cbn. destruct (pending_legacy_append (sess s m)); [|done]. unfold mark_active_path_committed. cbn. by destruct (leaf (sess s m)). Qed.

(** Two instances update one message with the same expected revision: both are told that it is
    updated, at the same revision, and one of the messages is lost. *)
Theorem revision_guard_fails_across_instances now req1 req2 w m e msg1 msg2 :
  um_session req2 = um_session req1 -> um_entry req2 = um_entry req1 -> updatable req1 m e msg1 -> updatable req2 m e msg2 ->
  let '(p1, p2, m') := beside now two_then_all (update_message req1 w) (update_message req2 w) m in
  (exists evs, p1 = ret (mk_updated true (add_u64 (revision e) 1), evs)) /\
  (exists evs, p2 = ret (mk_updated true (add_u64 (revision e) 1), evs)) /\
  entries (sess (um_session req1) m') !! um_entry req1 = Some (revised e msg1).
Proof.
  intros Hs He [[mt Hmt] Hent Hid Hx1 (i & p & t & r & og & msg & -> & Hed1) _] [_ _ _ Hx2 (i2 & p2 & t2 & r2 & og2 & msg0 & [= <- <- <- <- <- <-] & Hed2) _].
  unfold two_then_all, update_message, meta_or_not_found, Prog.call. rewrite Hs, He. cbn [beside prog_step spec fst snd id revision] in *.
  rewrite Hmt. cbn [beside prog_step spec fst snd]. rewrite Hent, Hmt. cbn [beside prog_step spec fst snd]. rewrite Hent, Hx1, Hx2, Z.eqb_refl. cbn [negb].
  rewrite Hed1, Hed2. cbn [beside prog_step spec fst snd]. split_and!; [by eexists|by eexists|].
  rewrite (put_meta_entries _ (touched now mt)), Views.sess_change, decide_True by done. cbn [apply entries id].
  rewrite Hid. apply lookup_insert_eq.
Qed.

(** *** A sample *)

Definition sample_message : SessionEntry := EMessage "e" None 0 0 None (MUser [BText "first"] 0).
Definition sample_meta : SessionMeta := mk_meta "s" "" "" StatusIdle None KindUser None None None None 0 0 1.
Definition sample_model : Model := mk_model {[ "s" := mk_loaded (Some sample_meta) {[ "e" := sample_message ]} (Some "e") {[ "e" ]} false ]} ∅.
Definition sample_update (t : string) : UpdateMessageRequest := mk_update "s" "e" [BText t] None None (Some 0%Z) None.
Definition sample_edit (t : string) : AgentMessage := MUser [BText t] 0.

Lemma sample_updatable t : updatable (sample_update t) sample_model sample_message (sample_edit t).
Proof.
  split; try reflexivity; [by eexists| |].
  - do 6 eexists. split; reflexivity.
  - split; [by repeat constructor|]. unfold in_range, i64_min, i64_max. cbn. lia.
Qed.

Lemma sample_stored : stored_ok sample_model.
Proof.
  intros s. unfold sess, blobs. cbn [sessions attachments sample_model]. rewrite lookup_empty. split; [|apply map_Forall_empty].
  destruct (decide (s = "s")) as [->|Hs].
  - rewrite lookup_singleton_eq. cbn [default from_option]. split; cbn [entries meta from_option].
    + intros i e. cbn. intros [<- <-]%lookup_singleton_Some. split_and!; [unfold in_range, i64_min, i64_max, u64_max; cbn; lia..|]. apply (sample_updatable "first").
    + split; unfold in_range, i64_min, i64_max, u64_max; cbn; try done; lia.
  - rewrite lookup_singleton_ne by done. split; [apply map_Forall_empty|done].
Qed.

Lemma overtaken_update_overwrites_its_retry_witness :
  let _ := sample_crates in let _ := sample_text in let o := {| Prog.clock _ := 0%Z; new_id _ _ := "i" |} in
  let x1 := exec o (update_message (sample_update "a") true) (over sample_model) 0 in
  let x2 := exec o (update_message (sample_update "b") true) x1.1.2 0 in
  (exists s, x1.1.1 = Err (Failed (Storage s))) /\ (exists evs, x2.1.1 = Ok (mk_updated true 1, evs)) /\
  (perform (GetEntry "s" "e") x2.1.2).1 = Ok (Some (revised sample_message (sample_edit "a"))).
Proof.
  intros crates err o. apply (@overtaken_update_overwrites_its_retry crates sample_crates_laws err o (sample_update "a") (sample_update "b") true
    sample_model sample_message (sample_edit "a") (sample_edit "b")); try reflexivity; try apply sample_updatable.
  - apply sample_stored.
  - intros k. unfold in_range, i64_min, i64_max. cbn. lia.
Defined.

Lemma revision_guard_fails_across_instances_witness :
  let '(p1, p2, m') := beside 0 two_then_all (update_message (sample_update "a") true) (update_message (sample_update "b") true) sample_model in
  (exists evs, p1 = ret (mk_updated true 1, evs)) /\ (exists evs, p2 = ret (mk_updated true 1, evs)) /\
  entries (sess "s" m') !! "e" = Some (revised sample_message (sample_edit "a")).
Proof.
  apply (@revision_guard_fails_across_instances 0 (sample_update "a") (sample_update "b") true
    sample_model sample_message (sample_edit "a") (sample_edit "b")); try reflexivity; apply sample_updatable.
Defined.

End BridgeProperties.
