(* ===== verification/SessionResync.v ===== *)
(** * Replaying a store to its observers (session-manager/src/resync.rs)

    When another adapter is swapped in, the new store is read once and replayed to the observers
    of the event functions: what is gone, then every session and its entries, one event each.
    Only the events somebody observes are built.  [ResyncProperties] shows that this gate cannot
    be told from replaying everything, that nothing is written and nothing is sent when a read
    fails, and that an observer who keeps the highest revision of each entry ends up with what
    the new store holds. *)

From Stdlib Require Import Ascii ZArith Lia.
From S2P Require Import Prelude Json Codec JsonText SessionTypes SessionLog SessionLife SessionStore SessionEvents SessionService SessionRun SessionTree SessionPages SessionExamples.
Import Types Contract Prog.

Module Resync.
Import Log Events Service.

Record ResyncStats : Type := mk_stats { sessions : nat; entries : nat; deleted : nat; events : nat }.
Definition no_stats : ResyncStats := mk_stats 0 0 0 0.

Record Wanted : Type := mk_wanted { w_created : bool; w_added : bool; w_updated : bool; w_deleted : bool }.

Definition wanted_of (em : Emitter) : Wanted :=
  mk_wanted (wants em Created) (wants em MessageAdded) (wants em MessageUpdated) (wants em Deleted).

Definition w_entries (w : Wanted) : bool := w_added w || w_updated w.
Definition w_any (w : Wanted) : bool := w_created w || w_entries w || w_deleted w.

Definition w_kind (w : Wanted) (k : EventKind) : bool :=
  match k with
  | Created => w_created w
  | MessageAdded => w_added w
  | MessageUpdated => w_updated w
  | Deleted => w_deleted w
  | StatusChanged | MetaUpdated => false
  end.

Definition entry_kind (e : SessionEntry) : EventKind :=
  match e with
  | EMessage _ _ _ r _ _ => if (0 <? r)%Z then MessageUpdated else MessageAdded
  | ECustom _ _ _ _ _ _ _ => MessageAdded
  end.

Definition entry_event (sid : string) (e : SessionEntry) (md : option JsonMap) : EmittableEvent :=
  mk_ev match e with
        | EMessage i p t r o m =>
            if (0 <? r)%Z then EvMessageUpdated sid i m r o t else EvMessageAdded sid i p (Some m) None o t
        | ECustom i p t _ o ty d => EvMessageAdded sid i p None (Some (mk_custom ty d)) o t
        end md.

Definition deleted_event (now : Z) (m : SessionMeta) : EmittableEvent := mk_ev (EvDeleted (session_id m) now) (metadata m).

(** The sessions of before that the new store does not have. *)
Definition gone (old new : list SessionMeta) : list SessionMeta :=
  filter (λ m, session_id m ∉ session_id <$> new) old.

(** The loop over the sessions of the new store, with what is built so far. *)
Fixpoint replay_sessions (w : Wanted) (metas : list SessionMeta) (st : ResyncStats) (evs : list EmittableEvent)
  : Prog (result (ResyncStats * list EmittableEvent) string) :=
  match metas with
  | [] => ret (Ok (mk_stats (sessions st) (entries st) (deleted st) (length evs), evs))
  | m :: metas' =>
      let '(st1, evs1) :=
        if w_created w then (mk_stats (S (sessions st)) (entries st) (deleted st) (events st), evs ++ [created_event m]) else (st, evs) in
      if negb (w_entries w) then replay_sessions w metas' st1 evs1
      else Do (ListEntries (session_id m)) (λ r,
        match r with
        | Err e => ret (Err ("resync: list_entries(" +:+ session_id m +:+ ") failed: " +:+ e))
        | Ok es =>
            let new := (λ e, entry_event (session_id m) e (metadata m)) <$> filter (λ e, w_kind w (entry_kind e) = true) es in
            replay_sessions w metas' (mk_stats (sessions st1) (entries st1 + length new) (deleted st1) (events st1)) (evs1 ++ new)
        end)
  end.

Definition resync_events (old : list SessionMeta) (w : Wanted) : Prog (result (ResyncStats * list EmittableEvent) string) :=
  if negb (w_any w) then ret (Ok (no_stats, []))
  else Do ListMetas (λ r,
    match r with
    | Err e => ret (Err ("resync: list_metas on the new store failed: " +:+ e))
    | Ok metas => Now (λ now,
        let evs := if w_deleted w then deleted_event now <$> gone old metas else [] in
        replay_sessions w metas (mk_stats 0 0 (length evs) 0) evs)
    end).

Definition resync_observers (old : list SessionMeta) (em : Emitter) : Prog (result (ResyncStats * list EventCall) string) :=
  (r ←% resync_events old (wanted_of em);
   ret (match r with Ok (st, evs) => Ok (st, emit_all em evs) | Err e => Err e end))%P.

End Resync.

(** ** What a replay is *)

Module ResyncRules.
Import Events Resync Service ModelStore.

(** The replay of a whole store, nothing left out. *)
Definition replay_of (m : Model) (x : SessionMeta) : list EmittableEvent :=
  created_event x :: ((λ e, entry_event (session_id x) e (metadata x)) <$> btree_values (Log.entries (sess (session_id x) m))).

Definition full_replay (now : Z) (old listing : list SessionMeta) (m : Model) : list EmittableEvent :=
  (deleted_event now <$> gone old listing) ++ (listing ≫= replay_of m).

Definition wanted_event (w : Wanted) (e : EmittableEvent) : Prop := w_kind w (event_kind (event e)) = true.
#[export] Instance wanted_event_dec w e : Decision (wanted_event w e).
Proof. unfold wanted_event. apply _. Defined.

Lemma entry_event_kind sid e md : event_kind (event (entry_event sid e md)) = entry_kind e.
Proof. destruct e as [i p t r o m|]; [|done]. cbn. by destruct (0 <? r)%Z. Qed.

(** An event nobody wants makes no call. *)
Lemma unwanted_silent em e : wants em (event_kind (event e)) = false -> emit em e ++ feed_bridges em e = [].
Proof. unfold wants, emit, feed_bridges. destruct (is_observed em (function_id _)), (feeds_bridges em), (is_observed em STORE_ON_EVENTS_FN); done. Qed.

Definition replayed (k : EventKind) : Prop := k ∈ [Created; MessageAdded; MessageUpdated; Deleted].

Lemma wanted_kind em k : replayed k -> w_kind (wanted_of em) k = wants em k.
Proof. unfold replayed. destruct k; try done; rewrite !elem_of_cons, elem_of_nil; naive_solver. Qed.

Lemma replay_kinds m x : Forall (λ e, replayed (event_kind (event e))) (replay_of m x).
Proof.
  unfold replayed. constructor; [cbn; set_solver|]. apply Forall_fmap, Forall_forall. intros e _. cbn [compose]. rewrite entry_event_kind.
  destruct e as [i p t r o mm|]; cbn [entry_kind]; [destruct (0 <? r)%Z|]; set_solver.
Qed.

Lemma full_replay_kinds now old l m : Forall (λ e, replayed (event_kind (event e))) (full_replay now old l m).
Proof.
  unfold full_replay. apply Forall_app. split.
  - apply Forall_fmap, Forall_forall. intros x _. unfold replayed. cbn. set_solver.
  - apply Forall_bind, Forall_forall. intros x _. apply replay_kinds.
Qed.

(** Leaving out what nobody wants changes no call. *)
Lemma emit_wanted em evs : Forall (λ e, replayed (event_kind (event e))) evs ->
  emit_all em (filter (wanted_event (wanted_of em)) evs) = emit_all em evs.
Proof.
  induction 1 as [|e evs He _ IH]; [done|]. rewrite filter_cons.
  unfold emit_all in *. case_decide as Hd; unfold wanted_event in Hd; rewrite wanted_kind in Hd by done; cbn [mbind list_bind]; rewrite <-IH; [done|].
  apply not_true_iff_false in Hd. by rewrite unwanted_silent.
Qed.

Lemma wanted_entries w sid md (es : list SessionEntry) :
  (λ e, entry_event sid e md) <$> filter (λ e, w_kind w (entry_kind e) = true) es =
  filter (wanted_event w) ((λ e, entry_event sid e md) <$> es).
Proof.
  induction es as [|e es IH]; [done|]. rewrite fmap_cons, !filter_cons.
  assert (wanted_event w (entry_event sid e md) <-> w_kind w (entry_kind e) = true) as Hw by (unfold wanted_event; by rewrite entry_event_kind).
  do 2 case_decide; try tauto. by rewrite fmap_cons, IH.
Qed.

Lemma no_entries_wanted w sid md (es : list SessionEntry) : w_entries w = false -> filter (wanted_event w) ((λ e, entry_event sid e md) <$> es) = [].
Proof.
  intros [Ha Hu]%orb_false_elim. apply filter_none, Forall_forall. intros x (e & -> & _)%list_elem_of_fmap. unfold wanted_event. rewrite entry_event_kind.
  destruct e as [i p t r o mm|]; cbn [entry_kind]; [destruct (0 <? r)%Z|]; cbn [w_kind]; congruence.
Qed.

(** *** Running it *)

Lemma exec_bind `{SessionStore St} {A B} o (p : Prog A) (k : A -> Prog B) st n :
  exec o (bind p k) st n =
  let '(r, st', n') := exec o p st n in match r with Ok a => exec o (k a) st' n' | Err e => (Err e, st', n') end.
Proof.
  revert st n. induction p as [[a|e]|C op k' IH|k' IH|kd k' IH]; intros st n; cbn [exec bind]; [done..| |apply IH|apply IH].
  destruct (perform op st) as [r st']. apply IH.
Qed.

(** A run over the model with the given faults: it changes nothing, and gives a value that is
    good, or an error when a call failed. *)
Definition reads_only {A} (f : Faults) (o : Oracle) (p : Prog (result A string)) (m : Model) (c n : nat) (good : A -> Prop) : Prop :=
  exists x c' n', exec o p (mk_modelled (f := f) m c) n = (Ok x, mk_modelled m c', n') /\
    match x with Ok a => good a | Err _ => ~ forall k, fault f k = Fine end.

Lemma reads_call {A B} (f : Faults) o (op : Op B) (k : result B string -> Prog (result A string)) m c n good : Run.read_only op = true ->
  (forall b, reorder f c op (spec op m).1 = Ok b -> reads_only f o (k (Ok b)) m (S c) (S n) good) ->
  (forall e, (~ forall j, fault f j = Fine) -> reads_only f o (k (Err e)) m (S c) (S n) good) ->
  reads_only f o (Do op k) m c n good.
Proof.
  intros Hr Hok Herr. unfold reads_only. cbn [exec perform model_store]. unfold model_perform. cbn [calls model].
  rewrite (Views.spec_read_only op m Hr).
  assert (forall kept, keep_only kept op m = m) as Hk by (by destruct op).
  assert (forall b, fault f c = b -> b <> Fine -> ~ forall j, fault f j = Fine) as Hbad by (intros b Hb Hne Hall; by rewrite Hall in Hb).
  destruct (fault f c) as [|e|e|e kept] eqn:Hf; rewrite ?Hk; [|apply Herr; (eapply Hbad; [reflexivity|done])..].
  destruct (reorder f c op (spec op m).1) as [b|e] eqn:Hx; [by apply Hok|]. exfalso. clear -Hr Hx. destruct op; cbn in Hr, Hx; congruence.
Qed.

Lemma replay_sessions_run f o w metas st evs m c n :
  reads_only f o (replay_sessions w metas st evs) m c n (λ '(st', evs'),
    evs' = evs ++ filter (wanted_event w) (metas ≫= replay_of m) /\ Resync.events st' = length evs' /\ deleted st' = deleted st /\
    Resync.sessions st' + Resync.entries st' + length evs = Resync.sessions st + Resync.entries st + length evs').
Proof.
  revert st evs c n. induction metas as [|x metas IH]; intros st evs c n.
  - cbn [replay_sessions]. do 3 eexists. split; [reflexivity|]. cbn. rewrite app_nil_r. split_and!; [done..|lia].
  - cbn [replay_sessions].
    set (st1 := if w_created w then mk_stats (S (Resync.sessions st)) (Resync.entries st) (deleted st) (Resync.events st) else st).
    set (evs1 := if w_created w then evs ++ [created_event x] else evs).
    replace (if w_created w then _ else (st, evs)) with (st1, evs1) by (subst st1 evs1; by destruct (w_created w)).
    assert (evs1 = evs ++ filter (wanted_event w) [created_event x]) as He1.
    { subst evs1. rewrite filter_cons. case_decide as Hd; unfold wanted_event in Hd; cbn in Hd.
      - by rewrite Hd.
      - apply not_true_iff_false in Hd. by rewrite Hd, app_nil_r. }
    assert (deleted st1 = deleted st /\ Resync.sessions st1 + Resync.entries st1 + length evs = Resync.sessions st + Resync.entries st + length evs1) as [Hd Hn].
    { subst st1 evs1. destruct (w_created w); [rewrite length_app|]; cbn; split; lia. }
    clearbody st1 evs1. cbn [mbind list_bind]. rewrite filter_app. unfold replay_of at 1.
    change (created_event x :: ?l) with ([created_event x] ++ l). rewrite filter_app, !(app_assoc evs), <-He1.
    destruct (w_entries w) eqn:Hw; cbn [negb].
    + apply reads_call; [done| |].
      * intros es. cbn [reorder spec fst]. intros [= <-]. set (new := _ <$> filter _ _).
        assert (new = filter (wanted_event w) ((λ e, entry_event (session_id x) e (metadata x)) <$> btree_values (Log.entries (sess (session_id x) m)))) as Hnew
          by apply wanted_entries.
        rewrite <-Hnew. clearbody new.
        destruct (IH (mk_stats (Resync.sessions st1) (Resync.entries st1 + length new) (deleted st1) (Resync.events st1)) (evs1 ++ new) (S c) (S n))
          as (y & c' & n' & Hrun & Hy). exists y, c', n'. split; [exact Hrun|]. destruct y as [[st' evs']|]; [|done]. cbn in Hy.
        rewrite length_app in Hy. destruct Hy as (-> & Hev & Hdel & Hlen). split_and!; [by rewrite <-!app_assoc|done|congruence|lia].
      * intros e Hf. do 3 eexists. split; [reflexivity|done].
    + rewrite no_entries_wanted, app_nil_r by done. destruct (IH st1 evs1 c n) as (y & c' & n' & Hrun & Hy). exists y, c', n'. split; [exact Hrun|].
      destruct y as [[st' evs']|]; [|done]. destruct Hy as (-> & Hev & Hdel & Hlen). split_and!; [done..|congruence|lia].
Qed.

End ResyncRules.

(** ** An observer *)

(** What an observer keeps of every entry: the highest revision it has seen, with its content. *)
Module Observers.
Import Events.

Abbreviation Body := (AgentMessage + CustomPayload)%type.
Abbreviation View := (gmap string (gmap string (Z * Body))).

Definition seen (v : View) (s i : string) : option (Z * Body) := default ∅ (v !! s) !! i.

Definition raise (s i : string) (r : Z) (b : Body) (v : View) : View :=
  let es := default ∅ (v !! s) in
  match es !! i with
  | Some (r0, _) => if (r <? r0)%Z then v else <[s := <[i := (r, b)]> es]> v
  | None => <[s := <[i := (r, b)]> es]> v
  end.

Definition observe (e : SessionEvent) (v : View) : View :=
  match e with
  | EvMessageAdded s i _ (Some m) _ _ _ => raise s i 0 (inl m) v
  | EvMessageAdded s i _ None (Some c) _ _ => raise s i 0 (inr c) v
  | EvMessageUpdated s i m r _ _ => raise s i r (inl m) v
  | EvDeleted s _ => delete s v
  | _ => v
  end.

Definition observe_all (evs : list EmittableEvent) (v : View) : View := foldl (λ v e, observe (event e) v) v evs.

(** What an entry looks like to an observer: custom entries have no revision. *)
Definition snapshot (e : SessionEntry) : Z * Body :=
  match e with
  | EMessage _ _ _ r _ m => (Z.max 0 r, inl m)
  | ECustom _ _ _ _ _ t d => (0%Z, inr (mk_custom t d))
  end.

(** Nothing that was seen is newer than what is stored. *)
Definition not_ahead (v : View) (s : string) (e : SessionEntry) : Prop :=
  forall r b, seen v s (id e) = Some (r, b) -> (r <= (snapshot e).1)%Z.

Lemma seen_insert v s es s' i : seen (<[s := es]> v) s' i = if decide (s' = s) then es !! i else seen v s' i.
Proof. unfold seen. case_decide; [subst; by rewrite lookup_insert_eq|by rewrite lookup_insert_ne]. Qed.

Lemma seen_raise s i r b v s' i' : (forall r0 b0, seen v s i = Some (r0, b0) -> (r0 <= r)%Z) ->
  seen (raise s i r b v) s' i' = if decide (s' = s /\ i' = i) then Some (r, b) else seen v s' i'.
Proof.
  intros Hle. unfold raise. assert (seen (<[s := <[i := (r, b)]> (default ∅ (v !! s))]> v) s' i' = if decide (s' = s /\ i' = i) then Some (r, b) else seen v s' i') as Hi.
  { rewrite seen_insert. destruct (decide (s' = s)) as [->|]; [|by rewrite decide_False by tauto]. rewrite lookup_insert.
    unfold seen. do 2 case_decide; naive_solver. }
  destruct (default ∅ (v !! s) !! i) as [[r0 b0]|] eqn:Hs; [|exact Hi]. specialize (Hle r0 b0 Hs).
  destruct (Z.ltb_spec r r0); [lia|exact Hi].
Qed.

Lemma observe_entry s e md v : not_ahead v s e ->
  forall s' i', seen (observe (event (Resync.entry_event s e md)) v) s' i' = if decide (s' = s /\ i' = id e) then Some (snapshot e) else seen v s' i'.
Proof.
  intros Hn s' i'. destruct e as [i p t r o m|i p t r o ty d]; cbn [Resync.entry_event event observe id snapshot] in *; unfold not_ahead in Hn; cbn in Hn.
  - destruct (Z.ltb_spec 0 r); cbn [observe]; rewrite seen_raise; [|intros r0 b0 H0; apply Hn in H0; lia| |intros r0 b0 H0; apply Hn in H0; lia];
      [by replace (Z.max 0 r) with r by lia|by replace (Z.max 0 r) with 0%Z by lia].
  - by apply seen_raise.
Qed.

Lemma observe_entries s md (es : list SessionEntry) v : (forall e, e ∈ es -> not_ahead v s e) -> NoDup (id <$> es) ->
  let v' := observe_all ((λ e, Resync.entry_event s e md) <$> es) v in
  (forall e, e ∈ es -> seen v' s (id e) = Some (snapshot e)) /\
  (forall s' i', (s' <> s \/ i' ∉ id <$> es) -> seen v' s' i' = seen v s' i').
Proof.
  cbv zeta. revert v. induction es as [|e es IH]; intros v Hn Hd; [split; [by intros e ?%elem_of_nil|done]|].
  csimpl in *. apply NoDup_cons in Hd as [He Hd]. unfold observe_all. cbn [foldl]. fold (observe_all ((λ e, Resync.entry_event s e md) <$> es)).
  set (v1 := observe _ v). pose proof (observe_entry s e md v (Hn e (list_elem_of_here _ _))) as Hv1. fold v1 in Hv1.
  destruct (IH v1) as [H1 H2]; [|done|].
  { intros e' He'. unfold not_ahead. rewrite Hv1. case_decide as Hc; [|apply Hn; by right].
    destruct Hc as [_ Hc]. exfalso. apply He. rewrite <-Hc. by apply list_elem_of_fmap_2. }
  fold (observe_all ((λ e, Resync.entry_event s e md) <$> es) v1). split.
  - intros e' [->|He']%elem_of_cons; [|by apply H1]. rewrite H2 by by right. by rewrite Hv1, decide_True.
  - intros s' i' Hsi. rewrite H2.
    + rewrite Hv1. apply decide_False. rewrite elem_of_cons in Hsi. naive_solver.
    + rewrite elem_of_cons in Hsi. naive_solver.
Qed.

Lemma observe_all_app a b v : observe_all (a ++ b) v = observe_all b (observe_all a v).
Proof. apply foldl_app. Qed.

Definition by_name (m : Model) : Prop := forall s, Transcript.tree s (sess s m).

Definition entry_at (m : Model) (s i : string) : option SessionEntry := Log.entries (sess s m) !! i.

Lemma observe_session m x v : by_name m ->
  (forall i e, entry_at m (session_id x) i = Some e -> not_ahead v (session_id x) e) ->
  forall s i, seen (observe_all (ResyncRules.replay_of m x) v) s i =
    match (if decide (s = session_id x) then entry_at m s i else None) with Some e => Some (snapshot e) | None => seen v s i end.
Proof.
  intros Hm Hn s i. unfold ResyncRules.replay_of. set (sid := session_id x) in *. set (es := btree_values _).
  assert (forall e, e ∈ es -> entry_at m sid (id e) = Some e) as Hes.
  { intros e [k Hk]%elem_of_btree_values. pose proof (Transcript.tree_keys _ _ (Hm sid) k e Hk) as Hid. unfold entry_at. by rewrite Hid. }
  assert (NoDup (id <$> es)) as Hd.
  { assert (id <$> es = btree_keys (Log.entries (sess sid m))) as ->; [|apply NoDup_btree_keys].
    subst es. unfold btree_values, btree_keys. rewrite <-list_fmap_compose. apply list_fmap_ext. intros j [k e] Hj. cbn.
    apply (Transcript.tree_keys _ _ (Hm sid)). by apply elem_of_btree_iter, (list_elem_of_lookup_2 _ j). }
  unfold observe_all. cbn [foldl Service.created_event event observe]. fold (observe_all ((λ e, Resync.entry_event sid e (metadata x)) <$> es) v).
  destruct (observe_entries sid (metadata x) es v) as [H1 H2]; [intros e He; by apply (Hn (id e)), Hes|done|].
  case_decide as Hs.
  - subst s. destruct (entry_at m sid i) as [e|] eqn:He.
    + rewrite <-(Transcript.tree_keys _ _ (Hm sid) i e He). apply H1. apply elem_of_btree_values. by exists i.
    + apply H2. right. intros (e & -> & Hin)%list_elem_of_fmap. by rewrite Hes in He.
  - apply H2. by left.
Qed.

Lemma observe_sessions m l v : by_name m -> NoDup (session_id <$> l) ->
  (forall x i e, x ∈ l -> entry_at m (session_id x) i = Some e -> not_ahead v (session_id x) e) ->
  forall s i, seen (observe_all (l ≫= ResyncRules.replay_of m) v) s i =
    match (if decide (s ∈ session_id <$> l) then entry_at m s i else None) with Some e => Some (snapshot e) | None => seen v s i end.
Proof.
  intros Hm. revert v. induction l as [|x l IH]; intros v Hd Hn s i; [done|]. csimpl. apply NoDup_cons in Hd as [Hx Hd].
  rewrite observe_all_app. pose proof (observe_session m x v Hm (λ i e, Hn x i e (list_elem_of_here _ _))) as H1.
  rewrite IH; [|done|].
  - rewrite H1. destruct (decide (s = session_id x)) as [->|Hs].
    + rewrite decide_False by done. by rewrite decide_True by by left.
    + destruct (decide (s ∈ session_id <$> l)) as [Hin|Hin]; [by rewrite decide_True by by right|].
      rewrite decide_False; [done|]. by intros [|]%elem_of_cons.
  - intros y i' e Hy He. unfold not_ahead. intros r b. rewrite H1, decide_False; [by apply (Hn y i'); [right|]|].
    intros Heq. apply Hx. rewrite <-Heq. by apply list_elem_of_fmap_2.
Qed.

Lemma observe_gone now old v s i :
  seen (observe_all (Resync.deleted_event now <$> old) v) s i = if decide (s ∈ session_id <$> old) then None else seen v s i.
Proof.
  revert v. induction old as [|x old IH]; intros v; [done|]. csimpl. unfold observe_all. cbn [foldl Resync.deleted_event event observe].
  fold (observe_all (Resync.deleted_event now <$> old) (delete (session_id x) v)). rewrite IH. unfold seen.
  destruct (decide (s ∈ session_id <$> old)) as [Hin|Hin]; [by rewrite decide_True by by right|].
  destruct (decide (s = session_id x)) as [->|Hs].
  - rewrite lookup_delete_eq, decide_True by by left. apply lookup_empty.
  - rewrite lookup_delete_ne by done. rewrite decide_False; [done|]. by intros [|]%elem_of_cons.
Qed.

Lemma elem_of_metas m x : x ∈ metas m <-> exists s, Log.meta (sess s m) = Some x.
Proof.
  unfold metas. rewrite list_elem_of_omap. split.
  - intros (l & Hl & Hx). apply elem_of_btree_values in Hl as [k Hk]. exists k. unfold sess. by rewrite Hk.
  - intros [s Hs]. unfold sess in Hs. destruct (Contract.sessions m !! s) as [l|] eqn:Hl; [|done]. exists l. split; [|done].
    apply elem_of_btree_values. by exists s.
Qed.

Lemma listing_names m l s : by_name m -> l ≡ₚ metas m -> s ∈ session_id <$> l <-> is_Some (Log.meta (sess s m)).
Proof.
  intros Hm Hl. rewrite Hl, list_elem_of_fmap. split.
  - intros (x & -> & [k Hk]%elem_of_metas). rewrite (Transcript.tree_meta _ _ (Hm k) x Hk). by rewrite Hk.
  - intros [x Hx]. exists x. split; [symmetry; by apply (Transcript.tree_meta _ _ (Hm s))|]. apply elem_of_metas. by exists s.
Qed.

End Observers.

(** ** Properties *)

Module ResyncProperties.
Import Events Resync ResyncRules Observers ModelStore Service.

(** C16: a resync changes nothing.  When every read is answered it makes the calls of the full replay:
    what is gone, then every session of the store with its entries behind it; leaving out what
    nobody observes cannot be told from outside, and the counts are those of the events that
    somebody observes.  When a read fails it makes no call at all. *)
Theorem resync_replays_the_store f o old em m c n : orders_ok f ->
  exists x c' n', exec o (resync_observers old em) (mk_modelled (f := f) m c) n = (Ok x, mk_modelled m c', n') /\
    match x with
    | Err _ => ~ forall k, fault f k = Fine
    | Ok (st, calls) => exists listing now, listing ≡ₚ metas m /\ let all := full_replay now old listing m in
        calls = emit_all em all /\ events st = length (filter (λ e, wants em (event_kind (event e)) = true) all) /\
        events st = sessions st + entries st + deleted st
    end.
Proof.
  intros [Hm _]. unfold resync_observers. set (w := wanted_of em).
  assert (forall now l, filter (wanted_event w) (full_replay now old l m) = filter (λ e, wants em (event_kind (event e)) = true) (full_replay now old l m)) as Hfilter.
  { intros now l. generalize (full_replay_kinds now old l m). induction 1 as [|e es He _ IH]; [done|]. rewrite !filter_cons, IH.
    assert (wanted_event w e <-> wants em (event_kind (event e)) = true) as Hw by (unfold wanted_event; subst w; by rewrite wanted_kind).
    do 2 case_decide; tauto. }
  assert (reads_only f o (resync_events old w) m c n (λ '(st, evs), exists listing now, listing ≡ₚ metas m /\
    evs = filter (wanted_event w) (full_replay now old listing m) /\ events st = length evs /\ events st = sessions st + entries st + deleted st)) as Hr.
  { unfold resync_events. destruct (w_any w) eqn:Hw; cbn [negb].
    - apply reads_call; [done| |].
      + intros l [= <-]. unfold reads_only. cbn [exec]. set (now := clock o (S n)). set (listing := meta_order f c (metas m)).
        set (del := if w_deleted w then deleted_event now <$> gone old listing else []).
        assert (del = filter (wanted_event w) (deleted_event now <$> gone old listing)) as Hdel.
        { subst del. destruct (w_deleted w) eqn:Hd.
          - symmetry. apply filter_all, Forall_forall. intros x (y & -> & _)%list_elem_of_fmap. exact Hd.
          - symmetry. apply filter_none, Forall_forall. intros x (y & -> & _)%list_elem_of_fmap. unfold wanted_event. change (w_deleted w <> true). by rewrite Hd. }
        destruct (replay_sessions_run f o w listing (mk_stats 0 0 (length del) 0) del m (S c) (S (S n))) as (x & c' & n' & Hrun & Hx).
        exists x, c', n'. split; [exact Hrun|]. destruct x as [[st evs]|e]; [|done]. destruct Hx as (-> & Hev & Hd & Hlen). exists listing, now.
        split_and!; [apply Hm|unfold full_replay; by rewrite filter_app, <-Hdel|done|]. cbn in Hd, Hlen. lia.
      + intros e Hf. do 3 eexists. split; [reflexivity|done].
    - do 3 eexists. split; [reflexivity|]. exists (metas m), 0%Z. split_and!; [done| |done|done].
      symmetry. apply filter_none, Forall_forall. intros x Hx. unfold wanted_event.
      unfold w_any, w_entries in Hw. apply orb_false_elim in Hw as [[Hc [Ha Hu]%orb_false_elim]%orb_false_elim Hd].
      destruct (event_kind (event x)); cbn [w_kind]; congruence. }
  destruct Hr as (x & c' & n' & Hrun & Hx). rewrite exec_bind, Hrun. cbn [exec ret].
  destruct x as [[st evs]|e]; do 3 eexists; (split; [reflexivity|]); [|exact Hx].
  destruct Hx as (l & now & Hl & -> & Hev & Hs). exists l, now. cbv zeta. rewrite <-Hfilter. split_and!; [done|apply emit_wanted, full_replay_kinds|done|done].
Qed.

(** An observer who keeps the highest revision of every entry, and who has seen nothing that the
    new store lacks, ends with exactly what the new store holds. *)
Theorem observers_converge now old listing m v : by_name m -> listing ≡ₚ metas m ->
  (forall s i r b, seen v s i = Some (r, b) ->
    match Log.meta (sess s m) with
    | Some _ => exists e, entry_at m s i = Some e /\ (r <= (snapshot e).1)%Z
    | None => s ∈ session_id <$> old
    end) ->
  forall s i, seen (observe_all (full_replay now old listing m) v) s i =
    match Log.meta (sess s m) with Some _ => snapshot <$> entry_at m s i | None => None end.
Proof.
  intros Hm Hl Hv s i. unfold full_replay. rewrite observe_all_app.
  assert (forall s', s' ∈ session_id <$> gone old listing <-> s' ∈ session_id <$> old /\ Log.meta (sess s' m) = None) as Hg.
  { intros s'. unfold gone. rewrite !list_elem_of_fmap. split.
    - intros (x & -> & [Hx Hin]%list_elem_of_filter). split; [by exists x|]. rewrite (listing_names m listing) in Hx by done.
      by apply eq_None_not_Some.
    - intros [(x & -> & Hx) Hn]. exists x. split; [done|]. apply list_elem_of_filter. split; [|done].
      rewrite (listing_names m listing) by done. rewrite Hn. by intros []. }
  rewrite observe_sessions; [|done| |].
  - rewrite observe_gone. destruct (Log.meta (sess s m)) as [x|] eqn:Hs.
    + rewrite decide_True by (apply (listing_names m); [done|done|by eexists]).
      destruct (entry_at m s i) as [e|] eqn:He; [done|]. rewrite decide_False by (rewrite Hg; naive_solver).
      destruct (seen v s i) as [[r b]|] eqn:Hsi; [|done]. apply Hv in Hsi. rewrite Hs in Hsi. naive_solver.
    + rewrite decide_False by (rewrite (listing_names m) by done; rewrite Hs; by intros []).
      case_decide as Hin; [done|]. destruct (seen v s i) as [[r b]|] eqn:Hsi; [|done]. apply Hv in Hsi. rewrite Hs in Hsi. exfalso. apply Hin, Hg. by split.
  - rewrite Hl. by apply PageProperties.NoDup_metas.
  - intros x i' e Hx He r b. rewrite observe_gone. case_decide; [done|]. intros Hsi. apply Hv in Hsi.
    assert (is_Some (Log.meta (sess (session_id x) m))) as [y Hy] by (apply (listing_names m listing); [done|done|by apply list_elem_of_fmap_2]).
    rewrite Hy in Hsi. destruct Hsi as (e' & He' & Hr). rewrite (Transcript.tree_keys _ _ (Hm (session_id x)) i' e He) in He'. congruence.
Qed.

(** An entry the new store lacks, in a session it has, stays with the observer. *)
Theorem other_entries_stay_in_view now old listing m v s i x : by_name m -> listing ≡ₚ metas m ->
  is_Some (Log.meta (sess s m)) -> entry_at m s i = None -> seen v s i = Some x ->
  (forall s' i' e, entry_at m s' i' = Some e -> not_ahead v s' e) ->
  seen (observe_all (full_replay now old listing m) v) s i = Some x.
Proof.
  intros Hm Hl Hs He Hv Hn. unfold full_replay. rewrite observe_all_app.
  assert (s ∉ session_id <$> gone old listing) as Hg.
  { intros (y & -> & [Hy _]%list_elem_of_filter)%list_elem_of_fmap. apply Hy. by apply (listing_names m listing). }
  rewrite observe_sessions; [|done|rewrite Hl; by apply PageProperties.NoDup_metas|].
  - rewrite He. destruct (decide _); rewrite observe_gone, decide_False by done; exact Hv.
  - intros y i' e _ Hi r b. rewrite observe_gone. case_decide; [done|]. intros Hsi. by apply (Hn (session_id y) i' e Hi r b).
Qed.

(** *** A sample *)

Import Sample.

Definition watching : Emitter := mk_emitter (λ f, bool_decide (f = ON_MESSAGE_ADDED_FN)) false.

Lemma resync_replays_the_store_witness :
  exists x c' n', exec {| Prog.clock _ := 0%Z; new_id _ _ := "i" |} (resync_observers [] watching) (mk_modelled (f := no_faults) l4 0) 0 =
      (Ok x, mk_modelled l4 c', n') /\
    match x with
    | Err _ => ~ forall k, fault no_faults k = Fine
    | Ok (st, calls) => exists listing now, listing ≡ₚ metas l4 /\ let all := full_replay now [] listing l4 in
        calls = emit_all watching all /\ events st = length (filter (λ e, wants watching (event_kind (event e)) = true) all) /\
        events st = sessions st + entries st + deleted st
    end.
Proof. apply (resync_replays_the_store no_faults _ [] watching l4 0 0). split; intros n l; reflexivity. Defined.

Lemma observers_converge_witness :
  seen (observe_all (full_replay 0 [] (metas l4) l4) ∅) "s" "e1" =
    match Log.meta (sess "s" l4) with Some _ => snapshot <$> entry_at l4 "s" "e1" | None => None end.
Proof.
  apply (observers_converge 0 [] (metas l4) l4 ∅).
  - exact l4_tree.
  - reflexivity.
  - intros s' i' r b. unfold seen. rewrite lookup_empty. cbn. by rewrite lookup_empty.
Defined.

(** An entry of the old store that the new one lacks. *)
Definition stale : View := {[ "s" := {[ "old" := (0%Z, inl (MUser [] 0)) ]} ]}.

Lemma other_entries_stay_in_view_witness :
  seen (observe_all (full_replay 0 [] (metas l4) l4) stale) "s" "old" = Some (0%Z, inl (MUser [] 0)).
Proof.
  apply (other_entries_stay_in_view 0 [] (metas l4) l4 stale).
  - exact l4_tree.
  - reflexivity.
  - eexists. vm_compute. reflexivity.
  - vm_compute. reflexivity.
  - reflexivity.
  - intros s' i' e He r b. unfold seen, stale. destruct (decide (s' = "s")) as [->|Hs].
    + rewrite lookup_singleton_eq. cbn. intros [Hi _]%lookup_singleton_Some. exfalso. 
      rewrite (Transcript.tree_keys _ _ (l4_tree "s") i' e He) in Hi. subst i'. vm_compute in He. discriminate.
    + rewrite lookup_singleton_ne by done. cbn. by rewrite lookup_empty.
Defined.

End ResyncProperties.
