(* ===== verification/SessionConfig.v ===== *)
(** * Configuration of the session manager (session-manager/src/config.rs, configuration.rs, runtime.rs)

    Module [SessionSettings] is the configuration: the adapter, its limits, how a seed file's
    placeholders are expanded.  Module [Reload] is the runtime built from it and what a change
    does: limits are set in place, another adapter is built, installed and replayed, limits and
    adapter under two locks, one after the other; a
    configuration that cannot be built leaves the running one alone.  [Reloads] is the step
    relation in which the stored configuration changes while reloads, one at a time, fetch and
    apply it.  [ReloadProperties] shows that the worker ends up with the last configuration, and
    how a change during the start is missed. *)

From Stdlib Require Import Ascii ZArith Lia.
From stdpp Require Import relations.
From S2P Require Import Prelude Json Codec JsonText ConfigClient SessionTypes SessionLog SessionLife SessionStore SessionEvents SessionService SessionBridge SessionResync.
Import Types.

Module SessionSettings.

Record FsBackendConfig : Type := mk_fs { data_dir : string }.
Record BridgeBackendConfig : Type := mk_bridge { url : string; timeout_ms : Z }.
Inductive StorageAdapter : Type := Fs (c : FsBackendConfig) | BridgeTo (c : BridgeBackendConfig).
Record SessionWorkerConfig : Type := mk_worker {
  adapter : StorageAdapter; default_list_limit : Z; max_list_limit : Z; max_attachment_bytes : Z }.

#[export] Instance StorageAdapter_eq_dec : EqDecision StorageAdapter.
Proof. unfold EqDecision. intros. unfold Decision. repeat decide equality. Defined.

Definition default_data_dir : string := "data/session-manager".
Definition default_bridge_timeout_ms : Z := 5000.
Definition default_default_list_limit : Z := 50.
Definition default_max_list_limit : Z := 500.
Definition default_max_attachment_bytes : Z := (50 * 1024 * 1024)%Z.

Definition default_worker_config : SessionWorkerConfig :=
  mk_worker (Fs (mk_fs default_data_dir)) default_default_list_limit default_max_list_limit default_max_attachment_bytes.

#[export] Instance FsBackendConfig_codec : Codec FsBackendConfig := {|
  to_value c := json_obj [("data_dir", Str (data_dir c))];
  from_value v := m ← strict ["data_dir"] v; d ← dflt "data_dir" as_str default_data_dir m; Some (mk_fs d);
|}.

#[export] Instance BridgeBackendConfig_codec : Codec BridgeBackendConfig := {|
  to_value c := json_obj [("url", Str (url c)); ("timeout_ms", enc_u (timeout_ms c))];
  from_value v :=
    m ← strict ["url"; "timeout_ms"] v; u ← req "url" as_str m; t ← dflt "timeout_ms" (dec_u u64_max) default_bridge_timeout_ms m;
    Some (mk_bridge u t);
|}.

(** Adjacently tagged: a name, and the settings of that adapter. *)
#[export] Instance StorageAdapter_codec : Codec StorageAdapter := {|
  to_value a := json_obj match a with
    | Fs c => [("name", Str "fs"); ("config", to_value c)]
    | BridgeTo c => [("name", Str "bridge"); ("config", to_value c)]
    end;
  from_value v :=
    m ← as_object v; n ← req "name" as_str m;
    if decide (n = "fs") then Fs <$> req "config" from_value m
    else if decide (n = "bridge") then BridgeTo <$> req "config" from_value m
    else None;
|}.

#[export] Instance SessionWorkerConfig_codec : Codec SessionWorkerConfig := {|
  to_value c := json_obj [("adapter", to_value (adapter c)); ("default_list_limit", enc_u (default_list_limit c));
    ("max_list_limit", enc_u (max_list_limit c)); ("max_attachment_bytes", enc_u (max_attachment_bytes c))];
  from_value v :=
    m ← strict ["adapter"; "default_list_limit"; "max_list_limit"; "max_attachment_bytes"] v;
    a ← dflt "adapter" from_value (Fs (mk_fs default_data_dir)) m;
    d ← dflt "default_list_limit" (dec_u u64_max) default_default_list_limit m;
    x ← dflt "max_list_limit" (dec_u u64_max) default_max_list_limit m;
    b ← dflt "max_attachment_bytes" (dec_u u64_max) default_max_attachment_bytes m;
    Some (mk_worker a d x b);
|}.

(** [WorkerConfig::from_json]; the text of the parse error is left out. *)
Definition from_json (v : Value) : result SessionWorkerConfig string :=
  match from_value v with Some c => Ok c | None => Err "json parse" end.

(** What the service reads of it. *)
Definition service_config (c : SessionWorkerConfig) : ServiceConfig :=
  mk_config (Z.to_nat (default_list_limit c)) (Z.to_nat (max_list_limit c)) (max_attachment_bytes c).

(** *** Placeholders of a seed file *)

(** What comes before the first [${], and after it. *)
Fixpoint find_open (s : string) : option (string * string) :=
  match s with
  | EmptyString => None
  | String c s' =>
      match c, s' with
      | "$"%char, String "{" rest => Some ("", rest)
      | _, _ => (λ p : string * string, (String c p.1, p.2)) <$> find_open s'
      end
  end.

(** What comes before the first closing brace, and after it. *)
Fixpoint find_close (s : string) : option (string * string) :=
  match s with
  | EmptyString => None
  | String c s' => if decide (c = "}"%char) then Some ("", s') else (λ p : string * string, (String c p.1, p.2)) <$> find_close s'
  end.

(** [expand_env], over an environment of variables; the fuel is the length of what is left. *)
Fixpoint expand_from (fuel : nat) (var : string -> option string) (s : string) : string :=
  match fuel, find_open s with
  | S fuel', Some (before, after) =>
      match find_close after with
      | None => s
      | Some (name, rest) =>
          before +:+ (if contains_char ":" name then "${" +:+ name +:+ "}" else default "" (var name)) +:+ expand_from fuel' var rest
      end
  | _, _ => s
  end.

Definition expand_env (var : string -> option string) (s : string) : string := expand_from (String.length s) var s.

End SessionSettings.

(** ** The runtime *)

Module Reload.
Import SessionSettings Events Protocol Resync Contract Prog.

Inductive ReloadOutcome : Type := Applied | RejectedConfig.
Record ReloadStatus : Type := mk_status { last_outcome : ReloadOutcome; last_error : option string; rejected_reloads : Z }.

Definition fresh_status : ReloadStatus := mk_status Applied None 0.
Definition record_applied (s : ReloadStatus) : ReloadStatus := mk_status Applied None (rejected_reloads s).
Definition record_rejected (e : string) (s : ReloadStatus) : ReloadStatus :=
  mk_status RejectedConfig (Some e) (Z.min u64_max (rejected_reloads s + 1)).

Section Runtime.
Context {St : Type} `{SessionStore St}.

(** [bridged]: there is a remote connection with its relay, to be closed. *)
Record SessionRuntime : Type := mk_runtime {
  config : SessionWorkerConfig; store : St; local_emitter : Emitter; mode : AdapterMode; bridged : bool }.

(** What a build meets: the directory may not open; the functions that are observed. *)
Record Outside : Type := mk_outside {
  open_dir : string -> result St string; connect : BridgeBackendConfig -> St; observed : string -> bool; local_url : string }.

Definition build_runtime (out : Outside) (cfg : SessionWorkerConfig) : result SessionRuntime string :=
  match adapter cfg with
  | Fs c =>
      match open_dir out (data_dir c) with
      | Err e => Err ("open data_dir " +:+ data_dir c +:+ ": " +:+ e)
      | Ok st => Ok (mk_runtime cfg st (mk_emitter (observed out) true) FsMain false)
      end
  | BridgeTo c =>
      if bool_decide (url c = local_url out) then
        Err ("bridge url " +:+ url c +:+ " equals the local engine url " +:+ local_url out +:+
             " — this instance would defer to itself; fix the bridge adapter `config.url`")
      else Ok (mk_runtime cfg (connect out c) (mk_emitter (observed out) false) BridgeMode true)
  end.

Record AppState : Type := mk_app { runtime : SessionRuntime; config_cell : SessionWorkerConfig; reload_status : ReloadStatus }.

(** What a reload does besides: the calls of the replay, and whether a connection was closed. *)
Record Effects : Type := mk_effects { replayed : list EventCall; closed : bool }.
Definition nothing : Effects := mk_effects [] false.

(** The sessions of the store that is swapped out; a failed listing counts as none. *)
Definition old_metas (o : Oracle) (old : St) (new_emitter : Emitter) : list SessionMeta :=
  if wants new_emitter Deleted then match (perform ListMetas old).1 with Ok l => l | Err _ => [] end else [].

(** The shared limits and the runtime have a lock each: they are written one after the other. *)
Definition set_cell (c : SessionWorkerConfig) (s : AppState) : AppState := mk_app (runtime s) c (reload_status s).
Definition set_runtime (r : SessionRuntime) (s : AppState) : AppState := mk_app r (config_cell s) (reload_status s).

Definition with_store (st : St) (r : SessionRuntime) : SessionRuntime := mk_runtime (config r) st (local_emitter r) (mode r) (bridged r).
Definition with_config (c : SessionWorkerConfig) (r : SessionRuntime) : SessionRuntime :=
  mk_runtime c (store r) (local_emitter r) (mode r) (bridged r).

Definition swap_runtime (o : Oracle) (new : SessionRuntime) (s : AppState) : AppState * Effects :=
  let old := old_metas o (store (runtime s)) (local_emitter new) in
  let s1 := set_cell (config new) s in
  let s2 := set_runtime new s1 in
  let '(r, st, _) := exec o (resync_observers old (local_emitter new)) (store (runtime s2)) 0 in
  (set_runtime (with_store st (runtime s2)) s2,
   mk_effects (match r with Ok (Ok (_, calls)) => calls | _ => [] end) (bridged (runtime s1))).

Definition apply_runtime (o : Oracle) (out : Outside) (cfg : SessionWorkerConfig) (s : AppState) : result unit string * AppState * Effects :=
  if decide (adapter (config (runtime s)) = adapter cfg) then
    let s1 := set_cell cfg s in (Ok tt, set_runtime (with_config cfg (runtime s1)) s1, nothing)
  else
    match build_runtime out cfg with
    | Err e => (Err e, s, nothing)
    | Ok new => let '(s', eff) := swap_runtime o new s in (Ok tt, s', eff)
    end.

Definition with_status (f : ReloadStatus -> ReloadStatus) (s : AppState) : AppState :=
  mk_app (runtime s) (config_cell s) (f (reload_status s)).

(** [reload_serialized], once the lock is held and the fetch is answered. *)
Definition reload (o : Oracle) (out : Outside) (fetched : result SessionWorkerConfig string) (s : AppState)
  : result ReloadOutcome string * AppState * Effects :=
  match fetched with
  | Err e => (Err e, s, nothing)
  | Ok cfg =>
      match apply_runtime o out cfg s with
      | (Ok _, s', eff) => (Ok Applied, with_status record_applied s', eff)
      | (Err e, s', eff) => (Ok RejectedConfig, with_status (record_rejected e) s', eff)
      end
  end.

(** *** The fetch *)

Section Fetch.
Context {W : Type} (bus : string -> Value -> W -> result Value Client.CallError * W) (config_id : string).

Definition get_config_value (w : W) : result Value string * W :=
  match Client.try_get_config_value (Client.call_configuration_with_retry bus) config_id w with
  | (Ok (Some v), w1) => (Ok v, w1)
  | (Ok None, w1) => (Err ("configuration `" +:+ config_id +:+ "` not found"), w1)
  | (Err e, w1) => (Err e, w1)
  end.

Definition fetch_config (w : W) : result SessionWorkerConfig string * W :=
  match get_config_value w with
  | (Ok v, w1) => (if is_null v then Ok default_worker_config else from_json v, w1)
  | (Err e, w1) => (Err e, w1)
  end.

(** The delivered event is ignored: the stored value is fetched. *)
Definition on_config_change (o : Oracle) (out : Outside) (s : AppState) (w : W) : result unit string * AppState * Effects * W :=
  let '(fetched, w1) := fetch_config w in
  let '(r, s', eff) := reload o out fetched s in
  (match r with Ok _ => Ok tt | Err e => Err e end, s', eff, w1).

End Fetch.
End Runtime.
Arguments SessionRuntime : clear implicits.
Arguments AppState : clear implicits.
Arguments Outside : clear implicits.
End Reload.

(** ** Reloads over time *)

Module Reloads.
Import SessionSettings Reload Contract Prog.

Section Worker.
Context {St : Type} `{SessionStore St}.

(** Where the one reload that holds the lock is.  [Halfway c new]: the limits of [c] are written, the
    runtime is not: [new], or the one there is with other limits.  [Installed]: both are. *)
Inductive Phase : Type := Idle | Fetching | Applying (c : SessionWorkerConfig) | Halfway (c : SessionWorkerConfig) (new : option (SessionRuntime St)) | Installed (c : SessionWorkerConfig).

(** The worker, the configuration that is stored, whether the worker observes its changes, the
    changes it was told of and has not handled, and the reload that runs. *)
Record Life : Type := mk_life { app : AppState St; authority : SessionWorkerConfig; observing : bool; told : nat; phase : Phase }.

(** Requests, the replay of a new store among them, are served at any time. *)
Inductive step : Life -> Life -> Prop :=
| s_set a c c' b n p : step (mk_life a c b n p) (mk_life a c' b (if b then S n else n) p)
| s_observe a c n p : step (mk_life a c false n p) (mk_life a c true n p)
| s_serve a c b n p st : step (mk_life a c b n p) (mk_life (set_runtime (with_store st (runtime a)) a) c b n p)
| s_begin a c b n : step (mk_life a c b (S n) Idle) (mk_life a c b n Fetching)
| s_fetched a c b n : step (mk_life a c b n Fetching) (mk_life a c b n (Applying c))
| s_fetch_failed a c b n : step (mk_life a c b n Fetching) (mk_life a c b (S n) Idle)
| s_limits a c b n cfg : adapter (config (runtime a)) = adapter cfg ->
    step (mk_life a c b n (Applying cfg)) (mk_life (set_cell cfg a) c b n (Halfway cfg None))
| s_built a c b n cfg (out : Outside St) new : adapter (config (runtime a)) <> adapter cfg -> build_runtime out cfg = Ok new ->
    step (mk_life a c b n (Applying cfg)) (mk_life (set_cell (config new) a) c b n (Halfway cfg (Some new)))
| s_refused a c b n cfg (out : Outside St) e : adapter (config (runtime a)) <> adapter cfg -> build_runtime out cfg = Err e ->
    step (mk_life a c b n (Applying cfg)) (mk_life (with_status (record_rejected e) a) c b n Idle)
| s_tuned a c b n cfg : step (mk_life a c b n (Halfway cfg None)) (mk_life (set_runtime (with_config cfg (runtime a)) a) c b n (Installed cfg))
| s_replaced a c b n cfg new : step (mk_life a c b n (Halfway cfg (Some new))) (mk_life (set_runtime new a) c b n (Installed cfg))
| s_applied a c b n cfg : step (mk_life a c b n (Installed cfg)) (mk_life (with_status record_applied a) c b n Idle).

(** The worker after its start, with the configuration it read. *)
Definition started (r : SessionRuntime St) (c : SessionWorkerConfig) (b : bool) : Life :=
  mk_life (mk_app r (config r) fresh_status) c b 0 Idle.

(** It runs on [c], or [c] could not be built and it says so. *)
Definition follows (a : AppState St) (c : SessionWorkerConfig) : Prop :=
  (config (runtime a) = c /\ last_outcome (reload_status a) = Applied) \/
  (last_outcome (reload_status a) = RejectedConfig /\
   exists (out : Outside St) e, build_runtime out c = Err e /\ last_error (reload_status a) = Some e).

(** The list limits and the runtime are those of one configuration. *)
Definition consistent (a : AppState St) : Prop := config_cell a = config (runtime a).

End Worker.
Arguments Phase : clear implicits.
Arguments Idle {St}.
Arguments Fetching {St}.
Arguments Applying {St}.
Arguments Halfway {St}.
Arguments Installed {St}.
Arguments Life : clear implicits.
End Reloads.

(** ** Properties *)

Module ReloadProperties.
Import SessionSettings Events Protocol Contract Prog Resync Reload Reloads.

Section Worker.
Context {St : Type} `{SessionStore St}.
Implicit Types a : AppState St.

Lemma applied_config o out cfg a : match apply_runtime o out cfg a with
  | (Ok _, a', _) => config (runtime a') = cfg /\ config_cell a' = cfg /\ reload_status a' = reload_status a
  | (Err e, a', _) => a' = a /\ build_runtime out cfg = Err e
  end.
Proof.
  unfold apply_runtime. case_decide; [done|]. destruct (build_runtime out cfg) as [new|e] eqn:Hb; [|done].
  assert (config new = cfg) as Hc.
  { unfold build_runtime in Hb. destruct (adapter cfg) as [c|c]; [destruct (open_dir out (data_dir c))|case_bool_decide]; by simplify_eq/=. }
  unfold swap_runtime. destruct (exec o (resync_observers _ _) _ 0) as [[r st] n]. by cbn.
Qed.

Lemma built_config out cfg (new : SessionRuntime St) : build_runtime out cfg = Ok new -> config new = cfg.
Proof. unfold build_runtime. intros Hb. destruct (adapter cfg) as [c|c]; [destruct (open_dir out (data_dir c))|case_bool_decide]; by simplify_eq/=. Qed.

(** A reload that is left alone is these steps. *)
Lemma reload_in_steps o out cfg a r a' eff c b n : reload o out (Ok cfg) a = (r, a', eff) ->
  rtc step (mk_life a c b n (Applying cfg)) (mk_life a' c b n Idle).
Proof.
  unfold reload, apply_runtime. case_decide as Hd.
  - intros [= _ <- _]. eapply rtc_l; [by apply s_limits|]. eapply rtc_l; [apply s_tuned|]. eapply rtc_l; [apply s_applied|]. apply rtc_refl.
  - destruct (build_runtime out cfg) as [new|e] eqn:Hb; [|intros [= _ <- _]; eapply rtc_l; [by eapply s_refused|]; apply rtc_refl].
    unfold swap_runtime. destruct (exec o (resync_observers _ _) _ 0) as [[x st] m]. intros [= _ <- _].
    eapply rtc_l; [by eapply s_built|]. eapply rtc_l; [apply s_replaced|]. eapply rtc_l; [apply (s_serve _ _ _ _ _ st)|].
    eapply rtc_l; [apply s_applied|]. apply rtc_refl.
Qed.

(** Between its two writes a reload has the limits of [c] over the runtime before. *)
Definition limits_and_store (l : Life St) : Prop :=
  match phase l with Halfway c _ => config_cell (app l) = c | _ => consistent (app l) end.

Definition phase_follows (l : Life St) : Prop :=
  limits_and_store l /\
  match phase l with Halfway c (Some new) => config new = c | Installed c => config (runtime (app l)) = c | _ => True end /\
  (observing l = true -> told l = 0 ->
   match phase l with Idle => follows (app l) (authority l) | Fetching => True | Applying c | Halfway c _ | Installed c => c = authority l end).

Lemma step_follows l l' : step l l' -> observing l = true -> phase_follows l -> phase_follows l' /\ observing l' = true.
Proof.
  intros Hs. destruct Hs as [a c c' b n p|a c n p|a c b n p st|a c b n|a c b n|a c b n|a c b n cfg Hd|a c b n cfg out new Hd Hb|a c b n cfg out e Hd Hb|a c b n cfg|a c b n cfg new|a c b n cfg];
    unfold phase_follows, limits_and_store, consistent; cbn [app authority observing told phase]; intros Ho (Hc & Hn & Hf); subst; (split; [|done]); try done.
  - pose proof (built_config out cfg new Hb) as Hcfg. by rewrite Hcfg.
  - split_and!; [done..|]. intros _ Hz. right. split; [done|]. exists out, e. by rewrite <-(Hf eq_refl Hz).
  - split_and!; [done..|]. intros _ Hz. left. split; [|done]. cbn. by rewrite <-(Hf eq_refl Hz).
Qed.

End Worker.

(** C29: reloads converge: however changes, failing fetches, reloads and requests interleave after the
    start, once every change the worker was told of is handled and no reload runs, it runs on the
    stored configuration, or that configuration could not be built and the status says why.  Limits
    and runtime come from one configuration but between the two writes of a reload, where the
    limits are the new ones already. *)
Theorem reloads_converge {St} `{SessionStore St} (r : SessionRuntime St) l : rtc step (started r (config r) true) l ->
  limits_and_store l /\ (told l = 0 -> phase l = Idle -> follows (app l) (authority l)).
Proof.
  intros Hr. assert (phase_follows l /\ observing l = true) as [(Hc & _ & Hf) Ho].
  { remember (started r (config r) true) as l0 eqn:Hl.
    assert (phase_follows l0 /\ observing l0 = true) as H0 by (subst l0; split; [split; [done|]; split; [done|]; intros _ _; left; done|done]). clear Hl.
    induction Hr as [l|l1 l2 l3 Hs _ IH]; [done|]. apply IH. destruct H0 as [H1 H2]. by apply (step_follows l1). }
  split; [done|]. intros Hn Hp. specialize (Hf Ho Hn). by rewrite Hp in Hf.
Qed.

(** A change between the first fetch and the registration of the observer is missed: nothing is left
    to handle, the status says the configuration is applied, and the worker runs on the old one. *)
Theorem change_during_start_is_missed {St} `{SessionStore St} (r : SessionRuntime St) c : c <> config r ->
  exists l, rtc step (started r (config r) false) l /\ observing l = true /\ told l = 0 /\ phase l = Idle /\
    last_outcome (reload_status (app l)) = Applied /\ authority l = c /\ config (runtime (app l)) <> c.
Proof.
  intros Hc. eexists. split.
  - eapply rtc_l; [apply (s_set _ _ c false)|]. eapply rtc_l; [apply s_observe|]. apply rtc_refl.
  - cbn. split_and!; done || by apply not_eq_sym.
Qed.

(** One reload: a failed fetch changes nothing and is reported for another try; a configuration that
    cannot be built leaves runtime, store and limits and is counted; a change of the limits alone
    keeps the store and replays nothing; another adapter is swapped in, the calls made are those
    of the replay of its store, and the connection of the old one is closed. *)
Theorem reload_commits_or_keeps {St} `{SessionStore St} o (out : Outside St) fetched a :
  let '(r, a', eff) := reload o out fetched a in
  match fetched with
  | Err e => r = Err e /\ a' = a /\ eff = nothing
  | Ok cfg =>
      if decide (adapter (config (runtime a)) = adapter cfg) then
        r = Ok Applied /\ eff = nothing /\ config_cell a' = cfg /\ store (runtime a') = store (runtime a) /\ mode (runtime a') = mode (runtime a)
      else match build_runtime out cfg with
           | Err e => r = Ok RejectedConfig /\ eff = nothing /\ runtime a' = runtime a /\ config_cell a' = config_cell a /\
               last_error (reload_status a') = Some e /\
               rejected_reloads (reload_status a') = Z.min u64_max (rejected_reloads (reload_status a) + 1)
           | Ok new => r = Ok Applied /\ config_cell a' = cfg /\ mode (runtime a') = mode new /\ closed eff = bridged (runtime a) /\
               replayed eff = match (exec o (resync_observers (old_metas o (store (runtime a)) (local_emitter new)) (local_emitter new)) (store new) 0).1.1 with
                              | Ok (Ok (_, calls)) => calls | _ => [] end
           end
  end.
Proof.
  unfold reload. destruct fetched as [cfg|e]; [|done]. unfold apply_runtime. case_decide as Hd.
  - done.
  - pose proof (applied_config o out cfg a) as Ha. unfold apply_runtime in Ha. rewrite decide_False in Ha by done.
    destruct (build_runtime out cfg) as [new|e] eqn:Hb; [|done].
    unfold swap_runtime in *. destruct (exec o (resync_observers _ _) _ 0) as [[r st] n]. cbn in *. destruct Ha as (F1 & F2 & _). by split_and!.
Qed.

(** A stored configuration that cannot be parsed is not a rejected one: the status goes on saying
    that the last configuration is applied. *)
Theorem unparsable_config_goes_unreported {St} `{SessionStore St} {W} (bus : string -> Value -> W -> result Value Client.CallError * W)
    config_id o (out : Outside St) a w v w1 :
  get_config_value bus config_id w = (Ok v, w1) -> v <> Null -> (from_value v : option SessionWorkerConfig) = None ->
  exists e, on_config_change bus config_id o out a w = (Err e, a, nothing, w1).
Proof.
  intros Hg Hv Hp. unfold on_config_change, fetch_config. rewrite Hg. destruct (is_null v) eqn:Hn; [by destruct v|].
  unfold from_json. rewrite Hp. cbn. by eexists.
Qed.

(** *** A sample *)

Import ModelStore.

Abbreviation Store := (Modelled no_faults).
Definition files : Store := mk_modelled empty_model 0.
Definition running : SessionRuntime Store := mk_runtime default_worker_config files (mk_emitter (λ _, false) true) FsMain false.
Definition fewer : SessionWorkerConfig := mk_worker (Fs (mk_fs default_data_dir)) 5 10 100.
Definition outside : Outside Store := mk_outside (λ _, Ok files) (λ _, files) (λ _, false) "ws://here".
Definition oracle : Oracle := {| Prog.clock _ := 0%Z; new_id _ _ := "i" |}.

(** The limits change, and the reload that follows has run. *)
Definition reloaded : Life Store := mk_life (reload oracle outside (Ok fewer) (app (started running default_worker_config true))).1.2 fewer true 0 Idle.

Lemma reloads_converge_witness : limits_and_store reloaded /\ (told reloaded = 0 -> phase reloaded = Idle -> follows (app reloaded) (authority reloaded)).
Proof.
  apply (reloads_converge running). change (config running) with default_worker_config.
  eapply rtc_l; [apply (s_set _ _ fewer true 0 Idle)|]. eapply rtc_l; [apply s_begin|]. eapply rtc_l; [apply s_fetched|].
  eapply (reload_in_steps oracle outside fewer). reflexivity.
Defined.

Lemma change_during_start_is_missed_witness :
  exists l, rtc step (started running default_worker_config false) l /\ observing l = true /\ told l = 0 /\ phase l = Idle /\
    last_outcome (reload_status (app l)) = Applied /\ authority l = fewer /\ config (runtime (app l)) <> fewer.
Proof. apply (change_during_start_is_missed running fewer). discriminate. Defined.

(** A bridge whose address is misspelled. *)
Definition misspelled : Value := json_obj [("adapter", json_obj [("name", Str "bridge"); ("config", json_obj [("uri", Str "ws://main")])])].

Lemma unparsable_config_goes_unreported_witness :
  exists e, on_config_change (λ _ _ w, (Ok (json_obj [("value", misspelled)]), w)) "session-manager" oracle outside (app (started running default_worker_config true)) tt =
    (Err e, app (started running default_worker_config true), nothing, tt).
Proof.
  apply (unparsable_config_goes_unreported (λ _ _ w, (Ok (json_obj [("value", misspelled)]), w)) "session-manager" oracle outside _ tt misspelled tt);
    [reflexivity|discriminate|reflexivity].
Defined.

End ReloadProperties.

Module SettingsProperties.
Import SessionSettings.

Record config_ok (c : SessionWorkerConfig) : Prop := {
  default_ok : in_range 0 u64_max (default_list_limit c); max_ok : in_range 0 u64_max (max_list_limit c);
  bytes_ok : in_range 0 u64_max (max_attachment_bytes c);
  adapter_ok : match adapter c with BridgeTo b => in_range 0 u64_max (timeout_ms b) | Fs _ => True end;
}.

Lemma adapter_codec a : match a with BridgeTo b => in_range 0 u64_max (timeout_ms b) | Fs _ => True end -> codec_ok a.
Proof.
  unfold codec_ok. destruct a as [[d]|[u t]]; intros Ha; cbn [from_value to_value StorageAdapter_codec]; codec_tac.
  - get_req "name" "fs"; [|done]. rewrite decide_True by done. get_req "config" (mk_fs d); [done|]. cbn [from_value to_value FsBackendConfig_codec]. codec_tac.
    by get_dflt "data_dir" d.
  - get_req "name" "bridge"; [|done]. rewrite decide_False, decide_True by done. get_req "config" (mk_bridge u t); [done|]. cbn [from_value to_value BridgeBackendConfig_codec]. codec_tac.
    get_req "url" u; [|done]. get_dflt "timeout_ms" t; [done|by apply dec_enc_u].
Qed.

(** A configuration reads back as it was written. *)
Theorem session_config_roundtrip c : config_ok c -> codec_ok c.
Proof.
  intros [Hd Hm Hb Ha]. unfold codec_ok. cbn [from_value to_value SessionWorkerConfig_codec]. codec_tac.
  get_dflt "adapter" (adapter c); [|by apply adapter_codec]. get_dflt "default_list_limit" (default_list_limit c); [|by apply dec_enc_u].
  get_dflt "max_list_limit" (max_list_limit c); [|by apply dec_enc_u].
  get_dflt "max_attachment_bytes" (max_attachment_bytes c); [by destruct c|by apply dec_enc_u].
Qed.

Lemma session_config_roundtrip_witness : codec_ok default_worker_config.
Proof. apply session_config_roundtrip. split; unfold in_range, u64_max; cbn; try done; lia. Defined.

(** A configuration that names the bridge never becomes one of local files: it is a bridge to the
    address it gives, or it is refused. *)
Theorem bridge_is_never_files v a (c : SessionWorkerConfig) :
  vget "adapter" v = Some a -> vget "name" a = Some (Str "bridge") -> from_value v = Some c ->
  exists b s, adapter c = BridgeTo b /\ vget "config" a = Some s /\ vget "url" s = Some (Str (url b)).
Proof.
  intros Hv Hn Hc. cbn [from_value SessionWorkerConfig_codec] in Hc.
  destruct v as [| | | | |m]; try done. cbn [vget] in Hv. unfold strict in Hc. destruct (only_keys _ m); [|done]. cbn [mbind option_bind] in Hc.
  apply bind_Some in Hc as (x & Ha & Hc). unfold dflt in Ha. rewrite Hv in Ha.
  assert (adapter c = x) as <-.
  { repeat match type of Hc with _ ≫= _ = Some _ => apply bind_Some in Hc as (? & _ & Hc) end. by injection Hc as <-. }
  clear Hc Hv. destruct a as [| | | | |ma]; try done. cbn [vget] in Hn. cbn [from_value StorageAdapter_codec as_object mbind option_bind] in Ha.
  apply bind_Some in Ha as (n & Hn' & Ha). unfold req in Hn', Ha. rewrite Hn in Hn'. injection Hn' as <-.
  rewrite decide_False, decide_True in Ha by done. destruct (obj_get "config" ma) as [s|] eqn:Hs; [|done].
  destruct (from_value s) as [b|] eqn:Hb; [|done]. injection Ha as <-. exists b, s. split_and!; [done|exact Hs|].
  cbn [from_value BridgeBackendConfig_codec] in Hb. unfold strict in Hb. destruct s as [| | | | |ms]; try done. destruct (only_keys _ ms); [|done].
  cbn [mbind option_bind] in Hb. unfold req in Hb. cbn [vget]. destruct (obj_get "url" ms) as [[| | |u| |]|]; try done. cbn in Hb.
  apply bind_Some in Hb as (t & _ & Hb). by injection Hb as <-.
Qed.

Lemma bridge_is_never_files_witness :
  let a := json_obj [("name", Str "bridge"); ("config", json_obj [("url", Str "ws://main")])] in
  exists b s, adapter (mk_worker (BridgeTo (mk_bridge "ws://main" 5000)) 50 500 52428800) = BridgeTo b /\ vget "config" a = Some s /\ vget "url" s = Some (Str (url b)).
Proof.
  intros a. apply (bridge_is_never_files (json_obj [("adapter", a)]) a (mk_worker (BridgeTo (mk_bridge "ws://main" 5000)) 50 500 52428800)); reflexivity.
Defined.

(** *** Placeholders *)

Lemma find_open_length s b a : find_open s = Some (b, a) -> String.length b + 2 + String.length a = String.length s.
Proof.
  revert b. induction s as [|c s IH]; intros b; [done|]. cbn [find_open].
  assert ((λ p : string * string, (String c p.1, p.2)) <$> find_open s = Some (b, a) -> String.length b + 2 + String.length a = S (String.length s)) as Hstep.
  { destruct (find_open s) as [[b' a']|]; [|done]. intros [= <- ->]. specialize (IH b' eq_refl). cbn. lia. }
  repeat (case_match; try exact Hstep). intros [= <- <-]. cbn in *. lia.
Qed.

Lemma find_close_length s n r : find_close s = Some (n, r) -> String.length n + 1 + String.length r = String.length s.
Proof.
  revert n. induction s as [|c s IH]; intros n; [done|]. cbn [find_close]. case_decide; [intros [= <- <-]; cbn; lia|].
  destruct (find_close s) as [[n' r']|]; [|done]. intros [= <- ->]. specialize (IH n' eq_refl). cbn. lia.
Qed.

(** Fuel that covers the text is enough. *)
Lemma expand_fuel var k n s : String.length s <= n -> n <= k -> expand_from k var s = expand_from n var s.
Proof.
  revert k s. induction n as [|n IH]; intros k s Hs Hk.
  - destruct s; [|cbn in Hs; lia]. by destruct k.
  - destruct k as [|k]; [lia|]. cbn [expand_from]. destruct (find_open s) as [[b a]|] eqn:Ho; [|done].
    destruct (find_close a) as [[m r]|] eqn:Hc; [|done]. apply find_open_length in Ho. apply find_close_length in Hc.
    do 2 f_equal. apply IH; lia.
Qed.

Lemma find_open_plain a s : contains_char "$" a = false -> find_open (a +:+ "${" +:+ s) = Some (a, s).
Proof.
  induction a as [|c a IH]; [done|]. cbn [contains_char]. case_decide as Hc; [done|]. intros Ha.
  assert (find_open (String c (a +:+ "${" +:+ s)) = (λ p : string * string, (String c p.1, p.2)) <$> find_open (a +:+ "${" +:+ s)) as Heq.
  { cbn [find_open]. repeat case_match; subst; done. }
  change (String c a +:+ "${" +:+ s) with (String c (a +:+ "${" +:+ s)). by rewrite Heq, IH.
Qed.

Lemma find_close_plain n r : contains_char "}" n = false -> find_close (n +:+ "}" +:+ r) = Some (n, r).
Proof.
  induction n as [|c n IH]; [done|]. cbn [contains_char]. case_decide as Hc; [done|]. intros Hn.
  change (String c n +:+ "}" +:+ r) with (String c (n +:+ "}" +:+ r)). cbn [find_close]. rewrite decide_False by congruence. by rewrite IH.
Qed.

(** Placeholders are expanded from left to right, once: a variable's value is not looked at again, a
    variable that is not set gives nothing, and a placeholder with a default is left to the
    configuration worker. *)
Theorem placeholders_expand_once var a name b : contains_char "$" a = false -> contains_char "}" name = false ->
  expand_env var (a +:+ "${" +:+ name +:+ "}" +:+ b) =
  a +:+ (if contains_char ":" name then "${" +:+ name +:+ "}" else default "" (var name)) +:+ expand_env var b.
Proof.
  intros Ha Hn. unfold expand_env at 1. set (s := a +:+ "${" +:+ name +:+ "}" +:+ b).
  pose proof (find_open_plain a (name +:+ "}" +:+ b) Ha) as Ho. pose proof (find_close_plain name b Hn) as Hc. fold s in Ho.
  apply find_open_length in Ho as Hl1. apply find_close_length in Hc as Hl2.
  destruct (String.length s) as [|n] eqn:Hs; [lia|]. cbn [expand_from]. rewrite Ho, Hc. do 2 f_equal. apply expand_fuel; lia.
Qed.

Lemma placeholders_expand_once_witness :
  expand_env (λ v, if bool_decide (v = "DIR") then Some "${HOME}" else None) "data_dir: ${DIR}/x" = "data_dir: ${HOME}/x".
Proof.
  refine (placeholders_expand_once (λ v, if bool_decide (v = "DIR") then Some "${HOME}" else None) "data_dir: " "DIR" "/x" _ _); reflexivity.
Defined.

End SettingsProperties.
