(* ===== verification/GateTypes.v ===== *)
(** * Data of the approval gate (approval-gate/src/types.rs, error.rs)

    Module [GateWire]: permission modes, settings records, denials, the pending record and its
    events, the hook contract of the harness, requests and answers, with the codecs of what is
    stored; [GateWireRules] shows that stored records read back. *)

From Stdlib Require Import Ascii ZArith Lia.
From S2P Require Import Prelude Json Codec.

Module GateWire.

(** A [JsonMap]: the members of an object. *)
Abbreviation JsonMap := Fields (only parsing).

(** [Map<String, Value>] equality and [metadata_matches]: every wanted member is there. *)
Definition metadata_matches (want : Fields) (have : option Fields) : bool :=
  forallb (λ p : string * Value,
    match have ≫= obj_get p.1 with Some v => value_eqb v p.2 | None => false end) want.

(** ** Errors *)

Inductive ApprovalError : Type :=
| InvalidPayload (m : string)
| StateUnavailable (m : string)
| HarnessUnavailable (m : string).

Definition error_code (e : ApprovalError) : string :=
  match e with
  | InvalidPayload _ => "approval/invalid_payload"
  | StateUnavailable _ => "approval/state_unavailable"
  | HarnessUnavailable _ => "approval/harness_unavailable"
  end.

(** The error as it crosses the bus. *)
Definition error_text (e : ApprovalError) : string :=
  error_code e +:+ ": " +:+ match e with InvalidPayload m | StateUnavailable m | HarnessUnavailable m => m end.

(** [validate_id]: not empty, and without the separator of the keys. *)
Definition validate_id (label value : string) : result unit ApprovalError :=
  if is_empty value then Err (InvalidPayload (label +:+ " must be a non-empty string"))
  else if contains_char "/" value then Err (InvalidPayload (label +:+ " must not contain " +:+ dq +:+ "/" +:+ dq))
  else Ok tt.

(** ** Permissions *)

Inductive PermissionMode : Type := Manual | Auto | Full.
Inductive GrantedBy : Type := UserClick | Seed.
Record AlwaysAllowEntry : Type := mk_entry { ae_function : string; granted_at : Z; granted_by : GrantedBy }.
Record ApprovalSettings : Type := mk_settings {
  mode : PermissionMode; always_allow : list AlwaysAllowEntry; approved_always : list AlwaysAllowEntry; mode_set_at : Z }.

#[export] Instance PermissionMode_eq_dec : EqDecision PermissionMode.
Proof. solve_decision. Defined.
#[export] Instance GrantedBy_eq_dec : EqDecision GrantedBy.
Proof. solve_decision. Defined.
#[export] Instance AlwaysAllowEntry_eq_dec : EqDecision AlwaysAllowEntry.
Proof. solve_decision. Defined.
#[export] Instance ApprovalSettings_eq_dec : EqDecision ApprovalSettings.
Proof. solve_decision. Defined.

Definition mode_name (m : PermissionMode) : string := match m with Manual => "manual" | Auto => "auto" | Full => "full" end.
Definition mode_of_name (s : string) : option PermissionMode :=
  if decide (s = "manual") then Some Manual else if decide (s = "auto") then Some Auto
  else if decide (s = "full") then Some Full else None.
Definition dec_mode : Value -> option PermissionMode := dec_variant mode_of_name.

Definition granted_name (g : GrantedBy) : string := match g with UserClick => "user_click" | Seed => "seed" end.
Definition dec_granted : Value -> option GrantedBy :=
  dec_variant (λ s, if decide (s = "user_click") then Some UserClick else if decide (s = "seed") then Some Seed else None).

#[export] Instance AlwaysAllowEntry_codec : Codec AlwaysAllowEntry := {|
  to_value e := json_obj [("function_id", Str (ae_function e)); ("granted_at", enc_i64 (granted_at e));
    ("granted_by", Str (granted_name (granted_by e)))];
  from_value v :=
    m ← as_object v; f ← req "function_id" as_str m; a ← req "granted_at" dec_i64 m; g ← req "granted_by" dec_granted m;
    Some (mk_entry f a g);
|}.

Definition enc_entries (l : list AlwaysAllowEntry) : Value := Arr (to_value <$> l).

#[export] Instance ApprovalSettings_codec : Codec ApprovalSettings := {|
  to_value s := json_obj [("mode", Str (mode_name (mode s))); ("always_allow", enc_entries (always_allow s));
    ("approved_always", enc_entries (approved_always s)); ("mode_set_at", enc_i64 (mode_set_at s))];
  from_value v :=
    m ← as_object v; a ← dflt "mode" dec_mode Manual m; b ← dflt "always_allow" (dec_list from_value) [] m;
    c ← dflt "approved_always" (dec_list from_value) [] m; d ← dflt "mode_set_at" dec_i64 0%Z m;
    Some (mk_settings a b c d);
|}.

(** ** Denials *)

Definition DENIAL_SCHEMA_VERSION : Z := 1.
Inductive DeniedBy : Type := ByPermissions | ByUser | GateUnavailable.
Record MatchedConstraint : Type := mk_matched { mc_field : string; mc_operator : string; mc_value : Value }.
Record DenialEnvelope : Type := mk_denial {
  schema_version : Z; de_status : string; denied_by : DeniedBy; de_function : string; de_rule_id : option string;
  rule_action : option string; matched : option MatchedConstraint; args_excerpt : option Value; de_reason : string }.

Definition denied_by_name (d : DeniedBy) : string :=
  match d with ByPermissions => "permissions" | ByUser => "user" | GateUnavailable => "gate_unavailable" end.

Definition enc_matched (c : MatchedConstraint) : Value :=
  json_obj [("field", Str (mc_field c)); ("operator", Str (mc_operator c)); ("value", mc_value c)].

Definition enc_denial (d : DenialEnvelope) : Value :=
  json_obj ([("schema_version", enc_u (schema_version d)); ("status", Str (de_status d));
     ("denied_by", Str (denied_by_name (denied_by d))); ("function_id", Str (de_function d))]
    ++ opt_field "rule_id" Str (de_rule_id d) ++ opt_field "rule_action" Str (rule_action d)
    ++ opt_field "matched_constraint" enc_matched (matched d) ++ opt_field "args_excerpt" (λ v, v) (args_excerpt d)
    ++ [("reason", Str (de_reason d))]).

(** ** The pending inbox *)

Inductive PendingKind : Type := KFunction | KFilesystemAccess.
Record AccessRequest : Type := mk_access { requested_root : string; attempted_path : string; access_code : string }.

#[export] Instance AccessRequest_eq_dec : EqDecision AccessRequest.
Proof. solve_decision. Defined.
#[export] Instance PendingKind_eq_dec : EqDecision PendingKind.
Proof. solve_decision. Defined.

Record PendingApprovalRecord : Type := mk_pending {
  session_id : string; turn_id : string; function_call_id : string; function_id : string;
  arguments_excerpt : Value; pending_at : Z;
  session_title : option string; session_description : option string; session_metadata : option JsonMap;
  depth : Z; assistant_excerpt : option string; kind : PendingKind; access_request : option AccessRequest }.

#[export] Instance PendingApprovalRecord_eq_dec : EqDecision PendingApprovalRecord.
Proof. solve_decision. Defined.

Definition kind_name (k : PendingKind) : string :=
  match k with KFunction => "function" | KFilesystemAccess => "filesystem_access" end.
Definition dec_kind : Value -> option PendingKind :=
  dec_variant (λ s, if decide (s = "function") then Some KFunction
                    else if decide (s = "filesystem_access") then Some KFilesystemAccess else None).

#[export] Instance AccessRequest_codec : Codec AccessRequest := {|
  to_value a := json_obj [("requested_root", Str (requested_root a)); ("attempted_path", Str (attempted_path a));
    ("error_code", Str (access_code a))];
  from_value v :=
    m ← as_object v; r ← req "requested_root" as_str m; p ← req "attempted_path" as_str m; c ← req "error_code" as_str m;
    Some (mk_access r p c);
|}.

#[export] Instance PendingApprovalRecord_codec : Codec PendingApprovalRecord := {|
  to_value r := json_obj (
    [("session_id", Str (session_id r)); ("turn_id", Str (turn_id r)); ("function_call_id", Str (function_call_id r));
     ("function_id", Str (function_id r)); ("arguments_excerpt", arguments_excerpt r); ("pending_at", enc_i64 (pending_at r))]
    ++ opt_field "session_title" Str (session_title r) ++ opt_field "session_description" Str (session_description r)
    ++ opt_field "session_metadata" Obj (session_metadata r) ++ [("depth", enc_i64 (depth r))]
    ++ opt_field "assistant_excerpt" Str (assistant_excerpt r) ++ [("kind", Str (kind_name (kind r)))]
    ++ opt_field "access_request" to_value (access_request r));
  from_value v :=
    m ← as_object v;
    a ← req "session_id" as_str m; b ← req "turn_id" as_str m; c ← req "function_call_id" as_str m;
    d ← req "function_id" as_str m; e ← dflt "arguments_excerpt" Some Null m; f ← req "pending_at" dec_i64 m;
    g ← opt "session_title" as_str m; h ← opt "session_description" as_str m; i ← opt "session_metadata" as_object m;
    j ← dflt "depth" dec_i64 0%Z m; k ← opt "assistant_excerpt" as_str m; l ← req "kind" dec_kind m;
    n ← opt "access_request" from_value m;
    Some (mk_pending a b c d e f g h i j k l n);
|}.

Inductive ResolvedOutcome : Type := OAllow | ODeny | OAborted.
Record PendingResolvedEvent : Type := mk_resolved {
  rv_session : string; rv_turn : string; rv_call : string; rv_function : string;
  outcome : ResolvedOutcome; rv_reason : option string; rv_metadata : option JsonMap; resolved_at : Z }.

Definition outcome_name (o : ResolvedOutcome) : string :=
  match o with OAllow => "allow" | ODeny => "deny" | OAborted => "aborted" end.

(** The events as they are called: a record with its status, a resolution. *)
Definition created_json (r : PendingApprovalRecord) : Value := vset "status" (Str "pending") (to_value r).
Definition resolved_json (e : PendingResolvedEvent) : Value :=
  json_obj ([("session_id", Str (rv_session e)); ("turn_id", Str (rv_turn e)); ("function_call_id", Str (rv_call e));
     ("function_id", Str (rv_function e)); ("outcome", Str (outcome_name (outcome e)))]
    ++ opt_field "reason" Str (rv_reason e) ++ opt_field "session_metadata" Obj (rv_metadata e)
    ++ [("resolved_at", enc_i64 (resolved_at e))]).

(** ** The hooks of the harness *)

Record HookCall : Type := mk_call { hc_id : string; hc_function : string; hc_arguments : Value }.
Record HookResultError : Type := mk_hook_error { he_code : option string; he_message : string }.
Record TextBlock : Type := mk_text { block_type : string; block_text : string }.
Record HookResult : Type := mk_hook_result { hr_content : list TextBlock; hr_is_error : bool; hr_error : option HookResultError }.
Record HookInput : Type := mk_hook {
  hi_session : string; hi_turn : string; hi_depth : Z; hi_metadata : option JsonMap;
  hi_call : option HookCall; hi_result : option HookResult }.

Inductive HookOutput : Type := Continue | Deny (reason : string) | Hold.

Definition text_block (s : string) : TextBlock := mk_text "text" s.
Definition enc_text (b : TextBlock) : Value := json_obj [("type", Str (block_type b)); ("text", Str (block_text b))].

Definition dec_hook_call (v : Value) : option HookCall :=
  m ← as_object v; i ← req "id" as_str m; f ← req "function_id" as_str m; a ← dflt "arguments" Some Null m; Some (mk_call i f a).
Definition dec_hook_error (v : Value) : option HookResultError :=
  m ← as_object v; c ← opt "code" as_str m; t ← req "message" as_str m; Some (mk_hook_error c t).
Definition dec_details (v : Value) : option (option HookResultError) := m ← as_object v; opt "error" dec_hook_error m.
Definition dec_text (v : Value) : option TextBlock :=
  m ← as_object v; t ← req "type" as_str m; x ← req "text" as_str m; Some (mk_text t x).
Definition dec_hook_result (v : Value) : option HookResult :=
  m ← as_object v; _ ← dflt "function_call_id" as_str "" m; _ ← dflt "function_id" as_str "" m;
  c ← dflt "content" (dec_list dec_text) [] m; e ← dflt "is_error" as_bool false m; d ← dflt "details" dec_details None m;
  Some (mk_hook_result c e d).
Definition dec_hook_input (v : Value) : option HookInput :=
  m ← as_object v; _ ← opt "point" as_str m; s ← req "session_id" as_str m; t ← req "turn_id" as_str m;
  _ ← opt "step" dec_i64 m; d ← dflt "depth" dec_i64 0%Z m; md ← opt "metadata" as_object m;
  c ← opt "call" dec_hook_call m; r ← opt "result" dec_hook_result m; Some (mk_hook s t d md c r).

(** ** Requests and answers *)

Inductive ResolveDecision : Type := AllowIt | DenyIt.
Inductive AccessDuration : Type := Once | ForSession | Always.
Record ResolveRequest : Type := mk_resolve {
  rq_session : string; rq_call : string; decision : ResolveDecision; rq_reason : option string; access_duration : option AccessDuration }.
Record ResolveResponse : Type := mk_resolve_response { rs_resolved : bool; turn_resumed : option bool }.

Record ListPendingRequest : Type := mk_list { lq_session : option string; lq_metadata : option JsonMap; lq_limit : option Z; lq_cursor : option string }.
Record ListPendingResponse : Type := mk_list_response { ls_pending : list PendingApprovalRecord; next_cursor : option string }.

Record EvaluateRequest : Type := mk_evaluate { eq_session : string; eq_function : string; eq_arguments : option Value }.
Inductive EvaluateVerdict : Type := VAllow | VDeny | VNeedsApproval.
Record EvaluateResponse : Type := mk_evaluated { verdict : EvaluateVerdict; ev_reason : option string }.

Definition dec_evaluate_request (v : Value) : option EvaluateRequest :=
  m ← as_object v; s ← req "session_id" as_str m; f ← req "function_id" as_str m; a ← opt "arguments" Some m; Some (mk_evaluate s f a).

Inductive SettingsSource : Type := Stored | Defaults.

End GateWire.

(** ** Records read back *)

Module GateWireRules.
Import GateWire.

Definition i64_ok (z : Z) : Prop := in_range i64_min i64_max z.
Definition settings_ok (s : ApprovalSettings) : Prop :=
  Forall (λ e, i64_ok (granted_at e)) (always_allow s) /\ Forall (λ e, i64_ok (granted_at e)) (approved_always s) /\ i64_ok (mode_set_at s).
Definition pending_ok (r : PendingApprovalRecord) : Prop := i64_ok (pending_at r) /\ i64_ok (depth r).

Ltac opt_tac := intros ? _; split; done.

Lemma mode_codec m : dec_mode (Str (mode_name m)) = Some m.
Proof. by destruct m. Qed.

Lemma grant_codec (e : AlwaysAllowEntry) : i64_ok (granted_at e) -> codec_ok e.
Proof.
  intros He. unfold codec_ok. cbn [from_value to_value AlwaysAllowEntry_codec]. codec_tac.
  get_req "function_id" (ae_function e); [|done]. get_req "granted_at" (granted_at e); [|by apply dec_enc_i64].
  get_req "granted_by" (granted_by e); [by destruct e|by destruct (granted_by e)].
Qed.

Lemma entries_codec l : Forall (λ e, i64_ok (granted_at e)) l -> dec_list from_value (enc_entries l) = Some l.
Proof.
  intros Hl. unfold enc_entries, dec_list. apply mapM_Some, Forall2_fmap_l, Forall_Forall2_diag.
  eapply Forall_impl; [exact Hl|]. apply grant_codec.
Qed.

Lemma settings_codec (s : ApprovalSettings) : settings_ok s -> codec_ok s.
Proof.
  intros (Ha & Hb & Hc). unfold codec_ok. cbn [from_value to_value ApprovalSettings_codec]. codec_tac.
  get_dflt "mode" (mode s); [|apply mode_codec]. get_dflt "always_allow" (always_allow s); [|by apply entries_codec].
  get_dflt "approved_always" (approved_always s); [|by apply entries_codec].
  get_dflt "mode_set_at" (mode_set_at s); [by destruct s|by apply dec_enc_i64].
Qed.

Lemma access_codec (a : AccessRequest) : codec_ok a.
Proof.
  unfold codec_ok. cbn [from_value to_value AccessRequest_codec]. codec_tac.
  get_req "requested_root" (requested_root a); [|done]. get_req "attempted_path" (attempted_path a); [|done].
  get_req "error_code" (access_code a); [by destruct a|done].
Qed.

Lemma pending_codec (r : PendingApprovalRecord) : pending_ok r -> codec_ok r.
Proof.
  intros [Hp Hd]. unfold codec_ok. cbn [from_value to_value PendingApprovalRecord_codec]. codec_tac.
  get_req "session_id" (session_id r); [|done]. get_req "turn_id" (turn_id r); [|done].
  get_req "function_call_id" (function_call_id r); [|done]. get_req "function_id" (function_id r); [|done].
  get_dflt "arguments_excerpt" (arguments_excerpt r); [|done]. get_req "pending_at" (pending_at r); [|by apply dec_enc_i64].
  get_opt "session_title" Str (session_title r); [|opt_tac]. get_opt "session_description" Str (session_description r); [|opt_tac].
  get_opt "session_metadata" Obj (session_metadata r); [|opt_tac]. get_dflt "depth" (depth r); [|by apply dec_enc_i64].
  get_opt "assistant_excerpt" Str (assistant_excerpt r); [|opt_tac]. get_req "kind" (kind r); [|by destruct (kind r)].
  get_opt "access_request" (to_value (A := AccessRequest)) (access_request r); [by destruct r|].
  intros a _. split; [done|apply access_codec].
Qed.

(** *** What was decoded fits

    The numbers of a record that was read are in the range of their type. *)

Ltac unbind H := repeat match type of H with (x ← ?e; _) = _ => destruct e eqn:?; cbn [mbind option_bind] in H; [|discriminate H] end.

Lemma req_i64 k m z : req k dec_i64 m = Some z -> i64_ok z.
Proof. unfold req. destruct (obj_get k m); [apply dec_i64_range|done]. Qed.

Lemma dflt_i64 k m z : dflt k dec_i64 0%Z m = Some z -> i64_ok z.
Proof. unfold dflt. destruct (obj_get k m); [apply dec_i64_range|intros [= <-]; split; discriminate]. Qed.

Lemma decoded_pending v (r : PendingApprovalRecord) : from_value v = Some r -> pending_ok r.
Proof.
  cbn [from_value PendingApprovalRecord_codec]. intros Hr. unbind Hr. injection Hr as <-. split; cbn [pending_at depth]; eauto using req_i64, dflt_i64.
Qed.

Lemma decoded_entries k m l : dflt k (dec_list (from_value (A := AlwaysAllowEntry))) [] m = Some l -> Forall (λ e, i64_ok (granted_at e)) l.
Proof.
  unfold dflt. destruct (obj_get k m) as [v|]; [|by intros [= <-]]. destruct v; try done. cbn [dec_list]. intros Hl%mapM_Some.
  induction Hl as [|x e vs es He _ IH]; constructor; [|done]. cbn [from_value AlwaysAllowEntry_codec] in He. unbind He. injection He as <-. eauto using req_i64.
Qed.

Lemma decoded_settings v (s : ApprovalSettings) : from_value v = Some s -> settings_ok s.
Proof.
  cbn [from_value ApprovalSettings_codec]. intros Hs. unbind Hs. injection Hs as <-.
  split_and!; cbn [always_allow approved_always mode_set_at]; eauto using decoded_entries, dflt_i64.
Qed.

(** A stored record is not [null]. *)
Lemma pending_not_null (r : PendingApprovalRecord) : to_value r <> Null.
Proof. done. Qed.

Lemma validate_id_spec label v : validate_id label v = Ok tt <-> v <> "" /\ contains_char "/" v = false.
Proof. unfold validate_id. destruct v; cbn [is_empty]; [naive_solver|]. case_match; naive_solver. Qed.

End GateWireRules.
