(* ===== verification/GatePolicy.v ===== *)
(** * The policy of the approval gate (approval-gate/src/decision.rs, permissions/, redact.rs, denial.rs)

    Module [Globs]: the [*]-globs of allow lists and the regular expressions rules are compiled
    to; [Permissions]: rules as they are configured, parsed, compiled and checked, first match
    first; [Redact]: what of a call's arguments may be shown; [Denial]: how a refusal is
    worded.  [GlobRules] and [PolicyProperties] show what they mean. *)

From Stdlib Require Import Ascii ZArith Lia.
From S2P Require Import Prelude Json Codec JsonText GateTypes.
Import GateWire.
Local Open Scope workers_scope.

(** ** Globs *)

Module Globs.

(** [glob_match], after the prefix before the first star: [s] is [candidate[pos..]]. *)
Fixpoint glob_rest (parts : list string) (s : string) : bool :=
  match parts with
  | [] => true
  | [part] => is_empty part || ends_with part s
  | part :: rest =>
      if is_empty part then glob_rest rest s
      else match find_sub part s with
           | Some (_, after) => glob_rest rest after
           | None => false
           end
  end.

Definition glob_match (pattern candidate : string) : bool :=
  if negb (contains_char "*" pattern) then bool_decide (pattern = candidate)
  else match split_char "*" pattern with
       | [] => false
       | first :: rest => match strip_prefix first candidate with Some s => glob_rest rest s | None => false end
       end.

(** What a glob means: a star stands for any bytes, every other character for itself. *)
Inductive wild : string -> string -> Prop :=
| wild_nil : wild "" ""
| wild_char c p s : c <> "*"%char -> wild p s -> wild (String c p) (String c s)
| wild_star p a s : wild p s -> wild (String "*" p) (a +:+ s).

(** The crate [regex]: expressions, [Regex::new] and [is_match]. *)
Class Regex : Type := {
  regex : Type;
  rx_new : string -> option regex;
  is_match : regex -> string -> bool;
}.

Definition meta (c : ascii) : bool := contains_char c ".^$|?+()[]{}\".

(** [compile_function_glob]: the expression a glob is translated to. *)
Fixpoint glob_syntax (pattern : string) : string :=
  match pattern with
  | EmptyString => ""
  | String c p =>
      (if decide (c = "*"%char) then ".*" else if meta c then String "\" (String c "") else String c "") +:+ glob_syntax p
  end.

Definition compile_function_glob `{Regex} (pattern : string) : option regex := rx_new ("^" +:+ glob_syntax pattern +:+ "$").

(** *** What the documentation of the crate says of such expressions

    A sequence of characters that stand for themselves, escaped ones among them, and of [.*]. *)
Inductive Item : Type := Lit (c : ascii) | Run.

Definition item_text (i : Item) : string :=
  match i with Run => ".*" | Lit c => if meta c then String "\" (String c "") else String c "" end.
Definition items_text (l : list Item) : string := foldr (λ i s, item_text i +:+ s) "" l.

(** The dot matches every character but the end of a line. *)
Inductive seq_match : list Item -> string -> Prop :=
| seq_nil : seq_match [] ""
| seq_lit c l s : seq_match l s -> seq_match (Lit c :: l) (String c s)
| seq_run l a s : contains_char newline a = false -> seq_match l s -> seq_match (Run :: l) (a +:+ s).

(** Anchored at both ends, such a sequence matches a text exactly when all of it matches. *)
Class RegexLaws `{Regex} : Prop := {
  rx_anchored : forall l r s, Lit "*"%char ∉ l -> rx_new ("^" +:+ items_text l +:+ "$") = Some r ->
    is_match r s = true <-> seq_match l s;
}.

End Globs.

(** ** Permission rules *)

Module Permissions.
Export Globs.

Inductive Action : Type := ActAllow | ActDeny.
Inductive Decision : Type :=
| DAllow (rule_id : string)
| DDeny (rule_id : string) (matched : option MatchedConstraint)
| DNeedsApproval.

Inductive ConstraintSpec : Type := Equals (v : Value) | Matches (pattern : string).
Inductive RuleSpec : Type :=
| Shorthand (raw : string)
| Structured (rule_id : option string) (function : string) (action : Action) (modes : option (list PermissionMode))
    (args : list (string * ConstraintSpec)).

(** *** Parsing the [rules] of the configuration *)

Definition parse_constraint (v : Value) : option ConstraintSpec :=
  obj ← as_object v;
  match obj_get "equals" obj with
  | Some x => Some (Equals x)
  | None => Matches <$> (obj_get "matches" obj ≫= as_str)
  end.

Definition parse_action (s : string) : option Action :=
  if decide (s = "allow") then Some ActAllow else if decide (s = "deny") then Some ActDeny else None.

Definition parse_modes (v : Value) : option (list PermissionMode) := l ← as_array v; Some (omap (λ x, as_str x ≫= mode_of_name) (l : list Value)).

Definition parse_args (m : Fields) : list (string * ConstraintSpec) :=
  omap (λ p : string * Value, pair p.1 <$> parse_constraint p.2) m.

Definition get_str (k : string) (obj : Fields) : option string := v ← obj_get k obj; as_str v.

Definition parse_rule_spec (v : Value) : option RuleSpec :=
  match as_str v with
  | Some s => Some (Shorthand s)
  | None =>
      obj ← as_object v;
      function ← get_str "function" obj;
      name ← get_str "action" obj;
      action ← parse_action name;
      let modes := x ← obj_get "modes" obj; parse_modes x in
      let args := x ← obj_get "args" obj; m ← as_object x; Some (parse_args m) in
      Some (Structured (get_str "rule_id" obj) function action modes (default [] args))
  end.

Definition parse_rules_from_config (v : Value) : list RuleSpec :=
  match as_array v with Some l => omap parse_rule_spec l | None => [] end.

(** The shipped rules. *)
Definition default_rule_strings : list string := ["!approval::*"].
Definition default_rule_specs : list RuleSpec := Shorthand <$> default_rule_strings.

(** Globs of the allow rules scoped to auto mode. *)
Definition auto_allow_seed_from_specs (specs : list RuleSpec) : list string :=
  omap (λ s, match s with
             | Structured _ function ActAllow (Some modes) _ => if bool_decide (Auto ∈ modes) then Some function else None
             | _ => None
             end) specs.

(** *** Compiling *)

Section Compiled.
Context `{Regex}.

Inductive CompiledConstraint : Type := CEquals (v : Value) | CMatches (r : regex) (pattern : string).

Record CompiledRule : Type := mk_rule {
  rule_id : string; rule_function : string; glob : option regex; rule_act : Action;
  rule_modes : option (list PermissionMode); constraints : list (string * CompiledConstraint) }.

(** [CompileError]: the number of the rule and what is wrong with it. *)
Inductive RuleFault : Type := EmptyDeny | NoFunction | BadGlob (p : string) | BadRegex (field pattern : string).
Record CompileError : Type := mk_compile_error { at_rule : nat; fault : RuleFault }.

Definition compile_function_matcher (pattern : string) (i : nat) : result (string * option regex) CompileError :=
  if negb (contains_char "*" pattern) then Ok (pattern, None)
  else match compile_function_glob pattern with
       | Some g => Ok (pattern, Some g)
       | None => Err (mk_compile_error 0 (BadGlob pattern))
       end.

Definition match_function_id (r : CompiledRule) (f : string) : bool :=
  match glob r with Some g => is_match g f | None => bool_decide (rule_function r = f) end.

Definition compile_constraint (field : string) (c : ConstraintSpec) : result CompiledConstraint CompileError :=
  match c with
  | Equals v => Ok (CEquals v)
  | Matches p => match rx_new p with Some r => Ok (CMatches r p) | None => Err (mk_compile_error 0 (BadRegex field p)) end
  end.

Fixpoint compile_constraints (l : list (string * ConstraintSpec)) : result (list (string * CompiledConstraint)) CompileError :=
  match l with
  | [] => Ok []
  | (field, c) :: l' => x ←! compile_constraint field c; xs ←! compile_constraints l'; Ok ((field, x) :: xs)
  end.

Definition compile_rule (spec : RuleSpec) (i : nat) : result CompiledRule CompileError :=
  match spec with
  | Shorthand raw =>
      match strip_prefix "!" raw with
      | Some f =>
          if is_empty f then Err (mk_compile_error i EmptyDeny)
          else m ←! compile_function_matcher f i; Ok (mk_rule m.1 m.1 m.2 ActDeny None [])
      | None => m ←! compile_function_matcher raw i; Ok (mk_rule m.1 m.1 m.2 ActAllow None [])
      end
  | Structured id f act modes args =>
      if is_empty f then Err (mk_compile_error i NoFunction)
      else m ←! compile_function_matcher f i;
           cs ←! compile_constraints args;
           Ok (mk_rule (match id with Some s => if is_empty s then f else s | None => f end) m.1 m.2 act modes
                 (merge_sort key_le cs))
  end.

Fixpoint compile_from (i : nat) (specs : list RuleSpec) : result (list CompiledRule) CompileError :=
  match specs with
  | [] => Ok []
  | s :: specs' => r ←! compile_rule s i; rs ←! compile_from (S i) specs'; Ok (r :: rs)
  end.

(** [Permissions::compile] and [compile_tolerant]. *)
Definition compile (specs : list RuleSpec) : result (list CompiledRule) CompileError := compile_from 0 specs.
Definition compile_tolerant (specs : list RuleSpec) : list CompiledRule :=
  match compile specs with Ok rules => rules | Err _ => [] end.

(** *** Checking *)

Definition constraint_matches (actual : Value) (c : CompiledConstraint) : bool :=
  match c with
  | CEquals expected => value_eqb actual expected
  | CMatches r _ => match as_str actual with Some s => is_match r s | None => false end
  end.

Definition matched_constraint (field : string) (c : CompiledConstraint) : MatchedConstraint :=
  match c with
  | CEquals v => mk_matched field "equals" v
  | CMatches _ p => mk_matched field "matches" (Str p)
  end.

Inductive ConstraintMatch : Type := Mismatch | NoConstraint | With.

(** The first constraint met is the one reported. *)
Fixpoint match_each (obj : Fields) (cs : list (string * CompiledConstraint)) (m : option MatchedConstraint)
  : ConstraintMatch * option MatchedConstraint :=
  match cs with
  | [] => match m with Some _ => (With, m) | None => (NoConstraint, None) end
  | (field, c) :: cs' =>
      if constraint_matches (default Null (obj_get field obj)) c
      then match_each obj cs' (match m with None => Some (matched_constraint field c) | Some _ => m end)
      else (Mismatch, None)
  end.

Definition match_constraints (args : Value) (cs : list (string * CompiledConstraint)) : ConstraintMatch * option MatchedConstraint :=
  match cs with
  | [] => (NoConstraint, None)
  | _ => match as_object args with Some obj => match_each obj cs None | None => (Mismatch, None) end
  end.

Definition rule_applies_in_mode (r : CompiledRule) (m : PermissionMode) : bool :=
  match rule_modes r with None => true | Some modes => bool_decide (m ∈ modes) end.

Fixpoint check (rules : list CompiledRule) (f : string) (args : Value) (m : PermissionMode) : Decision :=
  match rules with
  | [] => DNeedsApproval
  | r :: rules' =>
      if negb (rule_applies_in_mode r m) then check rules' f args m
      else if negb (match_function_id r f) then check rules' f args m
      else match match_constraints args (constraints r) with
           | (Mismatch, _) => check rules' f args m
           | (_, matched) => match rule_act r with ActAllow => DAllow (rule_id r) | ActDeny => DDeny (rule_id r) matched end
           end
  end.

End Compiled.
Arguments CompiledRule {_}.
Arguments CompiledConstraint {_}.

(** *** The short-circuits before the rules (decision.rs) *)

Definition is_human_only (f : string) : bool := starts_with "approval::" f.
Definition list_matches (l : list AlwaysAllowEntry) (f : string) : bool := existsb (λ e, glob_match (ae_function e) f) l.

Definition pre_policy_allow (s : ApprovalSettings) (f : string) : bool :=
  bool_decide (mode s = Full) || list_matches (approved_always s) f
  || (bool_decide (mode s = Auto) && list_matches (always_allow s) f).

End Permissions.

(** ** Redaction *)

Module Redact.

Definition ARGS_EXCERPT_LEN_CAP : nat := 256.
Definition MAX_REDACT_DEPTH : nat := 64.
Definition MAX_DEPTH_SENTINEL : string := "<max-depth>".
Definition REDACTED : string := "<redacted>".
Definition REDACT_KEYS : list string :=
  ["password"; "token"; "api_key"; "apikey"; "secret"; "auth"; "authorization"; "access_key"; "access_token";
   "refresh_token"; "private_key"].

(** [str::to_lowercase], as far as a comparison with a text of ASCII letters can tell: ASCII
    letters, the Kelvin sign (whose lower case is [k]) and the dotted capital I ([i] and a
    combining dot); the lower case of every other character holds no ASCII letter. *)
Definition lower_ascii (c : ascii) : ascii :=
  if ((65 <=? ascii_code c) && (ascii_code c <=? 90))%Z then ascii_of_N (N_of_ascii c + 32) else c.

Fixpoint to_lowercase (s : string) : string :=
  match s with
  | EmptyString => ""
  | String a s1 =>
      match s1 with
      | String b s2 =>
          if decide (a = "196"%char /\ b = "176"%char) then String "i" (String "204" (String "135" (to_lowercase s2)))
          else match s2 with
               | String c s3 =>
                   if decide (a = "226"%char /\ b = "132"%char /\ c = "170"%char) then String "k" (to_lowercase s3)
                   else String (lower_ascii a) (to_lowercase s1)
               | EmptyString => String (lower_ascii a) (to_lowercase s1)
               end
      | EmptyString => String (lower_ascii a) ""
      end
  end.

Definition is_secret_key (key : string) : bool :=
  let lower := to_lowercase key in
  bool_decide (lower ∈ REDACT_KEYS) || existsb (λ suffix, ends_with ("_" +:+ suffix) lower) REDACT_KEYS.

(** The ellipsis, in UTF-8. *)
Definition ellipsis : string := String "226" (String "128" (String "166" "")).

(** [clip]: at most 256 characters. *)
Definition clip (s : string) : string :=
  let clipped := take_chars ARGS_EXCERPT_LEN_CAP s in
  if char_count s <=? ARGS_EXCERPT_LEN_CAP then s else clipped +:+ ellipsis.

Fixpoint redact_at (v : Value) (depth : nat) : Value :=
  match v with
  | Str s => Str (clip s)
  | Arr items => if MAX_REDACT_DEPTH <=? depth then Str MAX_DEPTH_SENTINEL else Arr (map (λ x, redact_at x (S depth)) items)
  | Obj m =>
      if MAX_REDACT_DEPTH <=? depth then Str MAX_DEPTH_SENTINEL
      else Obj (map (λ p, (p.1, if is_secret_key p.1 then Str REDACTED else redact_at p.2 (S depth))) m)
  | other => other
  end.

Definition redact (v : Value) : Value := redact_at v 0.

End Redact.

(** ** Denials *)

Module Denial.
Import Redact.

Section Text.
Context `{SerdeText}.

Definition HUMAN_ONLY_RULE_ID : string := "human_only_function".

Definition reason_for_permissions_deny (f rule : string) (m : option MatchedConstraint) : string :=
  match m with
  | Some c => "Permission denied: " +:+ f +:+ " matched rule " +:+ rule +:+ " on " +:+ mc_field c +:+ " " +:+ mc_operator c
      +:+ " " +:+ to_string (mc_value c) +:+ ". Try different arguments or use a different function."
  | None => "Permission denied: " +:+ f +:+ " matched rule " +:+ rule
      +:+ ". This function is blocked by policy; try a different function."
  end.

Definition permissions_deny_envelope (f rule : string) (m : option MatchedConstraint) (args : Value) : DenialEnvelope :=
  mk_denial DENIAL_SCHEMA_VERSION "denied" ByPermissions f (Some rule) (Some "deny") m (Some (redact args))
    (reason_for_permissions_deny f rule m).

Definition nonempty (o : option string) : option string := match o with Some s => if is_empty s then None else Some s | None => None end.

Definition user_deny_envelope (f : string) (reason : option string) (excerpt : option Value) : DenialEnvelope :=
  mk_denial DENIAL_SCHEMA_VERSION "denied" ByUser f None None None excerpt (default "Rejected by operator." (nonempty reason)).

Definition gate_unavailable_envelope (f reason : string) : DenialEnvelope :=
  mk_denial DENIAL_SCHEMA_VERSION "denied" GateUnavailable f None None None None reason.

Definition human_only_denial (f : string) (args : Value) : DenialEnvelope :=
  permissions_deny_envelope f HUMAN_ONLY_RULE_ID None args.

Definition render_text (d : DenialEnvelope) : list TextBlock := [text_block (de_reason d)].

End Text.
End Denial.

(** ** What globs match *)

Module GlobRules.
Export Globs.

(** A text made of the parts in turn, with anything before each. *)
Fixpoint segs (parts : list string) (s : string) : Prop :=
  match parts with
  | [] => s = ""
  | p :: rest => exists a b, s = a +:+ p +:+ b /\ segs rest b
  end.

Lemma segs_before parts a s : parts <> [] -> segs parts s -> segs parts (a +:+ s).
Proof. destruct parts as [|p rest]; [done|]. intros _ (x & y & -> & Hy). exists (a +:+ x), y. by rewrite <-append_assoc. Qed.

Lemma segs_empty rest s : rest <> [] -> segs ("" :: rest) s <-> segs rest s.
Proof.
  intros Hr. split; [|intros Hs; exists "", s; by rewrite !append_nil_l].
  intros (a & b & -> & Hb). rewrite append_nil_l. by apply segs_before.
Qed.

Lemma split_char_cons c d s : split_char c (String d s) =
  if decide (c = d) then "" :: split_char c s
  else match split_char c s with x :: l => String d x :: l | [] => [String d ""] end.
Proof. done. Qed.

Lemma wild_split p s : wild p s <->
  match split_char "*" p with first :: rest => exists t, s = first +:+ t /\ segs rest t | [] => False end.
Proof.
  revert s. induction p as [|c p IH]; intros s; [cbn; split|].
  - inversion 1. by exists "".
  - intros (t & -> & ->). constructor.
  - rewrite split_char_cons. pose proof (split_char_nonempty "*" p). case_decide as Hc.
    + subst c. destruct (split_char "*" p) as [|f r]; [done|]. cbn [segs]. setoid_rewrite append_nil_l. split.
      * inversion 1 as [|? ? ? Hne|? a s' Hw]; subst; [done|]. apply IH in Hw as (t & -> & Ht). eexists. split; [done|]. by exists a, t.
      * intros (t & -> & a & b & -> & Hb). constructor. apply IH. by exists b.
    + destruct (split_char "*" p) as [|f r]; [done|]. split.
      * inversion 1 as [|? ? s' Hne Hw|]; subst; [|done]. apply IH in Hw as (t & -> & Ht). exists t. by rewrite append_cons.
      * intros (t & -> & Ht). rewrite append_cons. constructor; [by intros ->|]. apply IH. by exists t.
Qed.

Lemma glob_rest_segs parts s : parts <> [] -> glob_rest parts s = true <-> segs parts s.
Proof.
  revert s. induction parts as [|p rest IH]; intros s Hne; [done|clear Hne]. destruct rest as [|q rest].
  - cbn [glob_rest segs]. rewrite orb_true_iff, ends_with_spec. split.
    + intros [Hp|[a ->]]; [destruct p; [|done]; exists s, ""; by rewrite !append_nil_r|]. exists a, "". by rewrite append_nil_r.
    + intros (a & b & -> & ->). right. exists a. by rewrite append_nil_r.
  - change (glob_rest (p :: q :: rest) s) with (if is_empty p then glob_rest (q :: rest) s
      else match find_sub p s with Some (_, after) => glob_rest (q :: rest) after | None => false end).
    destruct (is_empty p) eqn:Hp.
    + destruct p; [|done]. rewrite segs_empty by done. by apply IH.
    + clear Hp. split.
      * destruct (find_sub p s) as [[a b]|] eqn:Hf; [|done]. apply find_sub_some in Hf. intros Hb. exists a, b. split; [done|]. by apply IH.
      * intros (a & b & Hs & Hb). destruct (find_sub_first p s a b Hs) as (a' & b' & Hf & Hl). rewrite Hf.
        apply find_sub_some in Hf. apply IH; [done|]. rewrite Hs, !append_assoc in Hf. symmetry in Hf.
        destruct (append_cut _ _ _ _ Hf) as (m & _ & ->); [rewrite !length_append; lia|]. by apply segs_before.
Qed.

Lemma split_char_plain c s : contains_char c s = false -> split_char c s = [s].
Proof.
  induction s as [|d s IH]; [done|]. cbn [contains_char]. case_decide as Hd; [done|]. intros Hs. rewrite split_char_cons.
  by rewrite decide_False, IH by done.
Qed.

Lemma split_char_star c s : contains_char c s = true -> exists f p rest, split_char c s = f :: p :: rest.
Proof.
  induction s as [|d s IH]; [done|]. cbn [contains_char]. rewrite split_char_cons. case_decide as Hd.
  - intros _. pose proof (split_char_nonempty c s). destruct (split_char c s) as [|f r]; [done|]. eauto.
  - intros (f & p & rest & ->)%IH. eauto.
Qed.

Lemma glob_match_spec p s : glob_match p s = true <-> wild p s.
Proof.
  unfold glob_match. rewrite wild_split. destruct (contains_char "*" p) eqn:Hp; cbn [negb].
  - destruct (split_char_star _ _ Hp) as (f & q & rest & ->). destruct (strip_prefix f s) as [t|] eqn:Hf.
    + apply strip_prefix_spec in Hf. rewrite glob_rest_segs by done. split; [intros Ht; by exists t|].
      intros (t' & -> & Ht'). apply strip_prefix_spec in Hf. rewrite strip_prefix_app in Hf. by simplify_eq.
    + split; [done|]. intros (t & -> & _). by rewrite strip_prefix_app in Hf.
  - rewrite split_char_plain, bool_decide_eq_true by done. split.
    + intros <-. exists "". by rewrite append_nil_r.
    + intros (t & -> & ->). by rewrite append_nil_r.
Qed.

(** *** The expression a glob is compiled to *)

Fixpoint glob_items (p : string) : list Item :=
  match p with EmptyString => [] | String c p' => (if decide (c = "*"%char) then Run else Lit c) :: glob_items p' end.

Lemma glob_items_text p : items_text (glob_items p) = glob_syntax p.
Proof. induction p as [|c p IH]; [done|]. cbn [glob_items items_text foldr glob_syntax]. rewrite <-IH. by case_decide. Qed.

Lemma glob_items_plain p : Lit "*"%char ∉ glob_items p.
Proof. induction p as [|c p IH]; [set_solver|]. cbn [glob_items]. case_decide; set_solver. Qed.

(** Where no star stands for the end of a line, the expression means what the glob means. *)
Lemma seq_match_wild p s : contains_char newline s = false -> seq_match (glob_items p) s <-> wild p s.
Proof.
  revert s. induction p as [|c p IH]; intros s Hn; cbn [glob_items]; [split; inversion 1; constructor|]. case_decide as Hc.
  - subst c. split; inversion 1; subst; try done; rewrite contains_char_app in Hn; apply orb_false_elim in Hn as [? ?]; constructor; [by apply IH|done|by apply IH].
  - split; inversion 1; subst; try done; cbn [contains_char] in Hn; case_decide; try done; constructor; try done; by apply IH.
Qed.

Lemma seq_match_is_wild p s : seq_match (glob_items p) s -> wild p s.
Proof.
  revert s. induction p as [|c p IH]; intros s; cbn [glob_items]; [inversion 1; constructor|]. case_decide as Hc.
  - subst c. inversion 1; subst. constructor. by apply IH.
  - inversion 1; subst. constructor; [done|by apply IH].
Qed.

End GlobRules.

(** ** Properties *)

Module PolicyProperties.
Import Permissions Redact GlobRules.

Section Rules.
Context `{RegexLaws}.

(** A rule whose glob compiled matches no function the same glob in an allow list would not
    match, and both match the same functions as long as no line ends inside their name. *)
Theorem compiled_globs_agree (r : CompiledRule) p i f :
  compile_function_matcher p i = Ok (rule_function r, glob r) ->
  (match_function_id r f = true -> glob_match p f = true) /\
  (contains_char newline f = false -> match_function_id r f = glob_match p f).
Proof.
  unfold compile_function_matcher, match_function_id. destruct (contains_char "*" p) eqn:Hp; cbn [negb].
  - unfold compile_function_glob. rewrite <-glob_items_text. destruct (rx_new _) as [g|] eqn:Hg; [|done]. intros [= <- <-].
    pose proof (rx_anchored _ _ f (glob_items_plain p) Hg) as Hm. split.
    + intros Hf%Hm. by apply glob_match_spec, seq_match_is_wild.
    + intros Hn. apply eq_bool_prop_intro. rewrite !Is_true_true, Hm, seq_match_wild, glob_match_spec by done. done.
  - intros [= <- <-]. unfold glob_match. by rewrite Hp.
Qed.

(** What it takes for a rule to apply: its modes, its function, and every constraint on a
    member of the arguments, which must be an object if there is any. *)
Definition applies (r : CompiledRule) (f : string) (args : Value) (m : PermissionMode) : Prop :=
  (forall modes, rule_modes r = Some modes -> m ∈ modes) /\ match_function_id r f = true /\
  (constraints r = [] \/ exists obj, args = Obj obj /\
     Forall (λ c, constraint_matches (default Null (obj_get c.1 obj)) c.2 = true) (constraints r)).

Lemma match_each_spec obj cs m :
  match match_each obj cs m with
  | (Mismatch, _) => ~ Forall (λ c, constraint_matches (default Null (obj_get c.1 obj)) c.2 = true) cs
  | (_, m') => Forall (λ c, constraint_matches (default Null (obj_get c.1 obj)) c.2 = true) cs /\
      m' = match m with Some _ => m | None => (λ c, matched_constraint c.1 c.2) <$> head cs end
  end.
Proof.
  revert m. induction cs as [|[k c] cs IH]; intros m; cbn [match_each].
  - destruct m; (split; [constructor|done]).
  - destruct (constraint_matches (default Null (obj_get k obj)) c) eqn:Hc.
    + specialize (IH (match m with Some _ => m | None => Some (matched_constraint k c) end)).
      destruct (match_each _ _ _) as [[] m']; [intros Hf; apply IH; by apply Forall_cons in Hf as [_ ?]|..];
        (destruct IH as [Hf ->]; split; [by constructor|by destruct m]).
    + intros Hf. apply Forall_cons in Hf as [Hf _]. cbn in Hf. congruence.
Qed.

Lemma match_constraints_spec cs args :
  let holds := cs = [] \/ exists obj, args = Obj obj /\
     Forall (λ c, constraint_matches (default Null (obj_get c.1 obj)) c.2 = true) cs in
  match match_constraints args cs with
  | (Mismatch, _) => ~ holds
  | (_, m) => holds /\ m = (λ c, matched_constraint c.1 c.2) <$> head cs
  end.
Proof.
  cbv zeta. destruct cs as [|c cs]; [split; [by left|done]|].
  change (match_constraints args (c :: cs)) with
    (match as_object args with Some obj => match_each obj (c :: cs) None | None => (Mismatch, None) end).
  destruct (as_object args) as [obj|] eqn:Ho; [|by intros [Hn|(o & -> & _)]].
  assert (args = Obj obj) as -> by (destruct args; by simplify_eq/=). pose proof (match_each_spec obj (c :: cs) None) as Hm.
  destruct (match_each obj (c :: cs) None) as [[] m]; [intros [Hn|(o & [= <-] & Hf)]; done|..];
    (destruct Hm as [Hf ->]; split; [right; by exists obj|done]).
Qed.

Lemma check_first rules f args m :
  match check rules f args m with
  | DNeedsApproval => Forall (λ r, ~ applies r f args m) rules
  | DAllow id => exists before r after, rules = before ++ r :: after /\ Forall (λ r, ~ applies r f args m) before /\
      applies r f args m /\ rule_act r = ActAllow /\ rule_id r = id
  | DDeny id c => exists before r after, rules = before ++ r :: after /\ Forall (λ r, ~ applies r f args m) before /\
      applies r f args m /\ rule_act r = ActDeny /\ rule_id r = id /\ c = (λ c, matched_constraint c.1 c.2) <$> head (constraints r)
  end.
Proof.
  induction rules as [|r rules IH]; cbn [check]; [constructor|].
  assert (~ applies r f args m -> match check rules f args m with
    | DNeedsApproval => Forall (λ r, ~ applies r f args m) (r :: rules)
    | DAllow id => exists before r' after, r :: rules = before ++ r' :: after /\ Forall (λ r, ~ applies r f args m) before /\
        applies r' f args m /\ rule_act r' = ActAllow /\ rule_id r' = id
    | DDeny id c => exists before r' after, r :: rules = before ++ r' :: after /\ Forall (λ r, ~ applies r f args m) before /\
        applies r' f args m /\ rule_act r' = ActDeny /\ rule_id r' = id /\ c = (λ c, matched_constraint c.1 c.2) <$> head (constraints r')
    end) as Hskip.
  { intros Hn. destruct (check rules f args m); [| |by constructor];
      destruct IH as (b & r' & a & -> & Hb & Hr); exists (r :: b), r', a; (split; [done|split; [by constructor|done]]). }
  destruct (rule_applies_in_mode r m) eqn:Hm; cbn [negb].
  2:{ apply Hskip. intros [Hmodes _]. unfold rule_applies_in_mode in Hm. destruct (rule_modes r) as [modes|]; [|done].
      apply bool_decide_eq_false in Hm. by apply Hm, Hmodes. }
  destruct (match_function_id r f) eqn:Hf; cbn [negb]; [|apply Hskip; intros (_ & Hf' & _); congruence].
  pose proof (match_constraints_spec (constraints r) args) as Hc. cbv zeta in Hc.
  assert (forall modes, rule_modes r = Some modes -> m ∈ modes) as Hmodes.
  { intros modes Hr. unfold rule_applies_in_mode in Hm. rewrite Hr in Hm. by apply bool_decide_eq_true in Hm. }
  destruct (match_constraints args (constraints r)) as [[] c]; [apply Hskip; by intros (_ & _ & ?)|..];
    (destruct Hc as [Hc ->]; assert (applies r f args m) by done; destruct (rule_act r) eqn:Ha; exists [], r, rules; split_and!; by try constructor).
Qed.

(** The first rule that applies decides; without one a human is asked.  A denial names the
    first constraint of its rule. *)
Theorem first_applicable_rule_decides rules f args m :
  match check rules f args m with
  | DNeedsApproval => Forall (λ r, ~ applies r f args m) rules
  | DAllow id => exists before r after, rules = before ++ r :: after /\ Forall (λ r, ~ applies r f args m) before /\
      applies r f args m /\ rule_act r = ActAllow /\ rule_id r = id
  | DDeny id c => exists before r after, rules = before ++ r :: after /\ Forall (λ r, ~ applies r f args m) before /\
      applies r f args m /\ rule_act r = ActDeny /\ rule_id r = id /\ c = (λ c, matched_constraint c.1 c.2) <$> head (constraints r)
  end.
Proof. apply check_first. Qed.

Lemma compile_from_err i specs j spec e : specs !! j = Some spec -> compile_rule spec (i + j) = Err e ->
  exists e', compile_from i specs = Err e'.
Proof.
  revert i j. induction specs as [|s specs IH]; intros i j Hj He; [done|]. cbn [compile_from]. destruct j as [|j].
  - injection Hj as ->. rewrite Nat.add_0_r in He. rewrite He. by exists e.
  - destruct (compile_rule s i); [|by eexists]. destruct (IH (S i) j Hj) as [e' ->]; [by replace (S i + j) with (i + S j) by lia|]. by exists e'.
Qed.

(** One rule that does not compile leaves a policy without rules, under which every call that
    reaches it is held, the ones other rules allow and the ones other rules deny. *)
Theorem bad_rule_empties_the_policy specs i spec e f args m :
  specs !! i = Some spec -> compile_rule spec i = Err e -> check (compile_tolerant specs) f args m = DNeedsApproval.
Proof. intros Hi He. unfold compile_tolerant, compile. by destruct (compile_from_err 0 specs i spec e Hi He) as [e' ->]. Qed.

(** A constraint whose operator is not known is left out, and the rule applies without it. *)
Definition misspelled_rules : Value :=
  Arr [json_obj [("function", Str "shell::run"); ("action", Str "allow"); ("args", json_obj [("cmd", json_obj [("contains", Str "ls")])])]].

Theorem misspelled_constraint_allows_everything args m :
  check (compile_tolerant (parse_rules_from_config misspelled_rules)) "shell::run" args m = DAllow "shell::run".
Proof. reflexivity. Qed.

End Rules.

(** *** What an excerpt shows *)

(** Short texts, at most 64 levels, and nothing under a secret key. *)
Fixpoint safe (d : nat) (v : Value) : Prop :=
  match v with
  | Str s => char_count s <= ARGS_EXCERPT_LEN_CAP \/ (char_count s = S ARGS_EXCERPT_LEN_CAP /\ ends_with ellipsis s = true)
  | Arr l => d < MAX_REDACT_DEPTH /\ foldr and True (map (safe (S d)) l)
  | Obj m => d < MAX_REDACT_DEPTH /\ foldr and True (map (λ p, if is_secret_key p.1 then p.2 = Str REDACTED else safe (S d) p.2) m)
  | _ => True
  end.

Lemma char_count_app a b : char_count (a +:+ b) = char_count a + char_count b.
Proof. induction a as [|c a IH]; [done|]. rewrite append_cons. cbn [char_count]. rewrite IH. by destruct (trail c). Qed.

Lemma take_chars_count n s : n <= char_count s -> char_count (take_chars n s) = n.
Proof.
  revert n. induction s as [|c s IH]; intros n; cbn [char_count take_chars]; [lia|]. destruct (trail c) eqn:Hc; intros Hn.
  - cbn [char_count]. rewrite Hc. by apply IH.
  - destruct n as [|n]; [done|]. cbn [char_count]. rewrite Hc, IH; lia.
Qed.

Lemma take_chars_app n a c b : char_count a = n -> trail c = false -> take_chars n (a +:+ String c b) = a.
Proof.
  intros <- Hc. induction a as [|x a IH]; [cbn [take_chars char_count]; rewrite append_nil_l; cbn [take_chars]; by rewrite Hc|].
  rewrite append_cons. cbn [take_chars char_count]. destruct (trail x); by rewrite IH.
Qed.

Lemma safe_clip s : safe 0 (Str (clip s)).
Proof.
  cbn [safe]. unfold clip. destruct (char_count s <=? ARGS_EXCERPT_LEN_CAP) eqn:Hs; [apply Nat.leb_le in Hs; by left|]. right.
  apply Nat.leb_gt in Hs. rewrite char_count_app, take_chars_count by lia. split; [reflexivity|]. apply ends_with_spec. by eexists.
Qed.

Lemma clip_fixed s : safe 0 (Str s) -> clip s = s.
Proof.
  cbn [safe]. unfold clip. intros [Hs|[Hs He]]; [by apply Nat.leb_le in Hs as ->|]. rewrite Hs.
  rewrite (proj2 (Nat.leb_gt _ _)) by lia. apply ends_with_spec in He as [a ->]. f_equal. apply take_chars_app; [|done].
  rewrite char_count_app in Hs. change (char_count ellipsis) with 1 in Hs. lia.
Qed.

Lemma and_map {A} (P : A -> Prop) l : foldr and True (map P l) <-> Forall P l.
Proof. induction l as [|x l IH]; cbn; [by split; [constructor|]|]. by rewrite Forall_cons, IH. Qed.

Lemma redact_safe v d : safe d (redact_at v d).
Proof.
  revert d. induction v as [| | |s|l IH|m IH] using Value_nested_ind; intros d; cbn [redact_at]; try done; [apply safe_clip|..];
    (destruct (MAX_REDACT_DEPTH <=? d) eqn:Hd; [left; apply Nat.leb_le; reflexivity|apply Nat.leb_gt in Hd]; cbn [safe]; split; [done|]; apply and_map, Forall_map).
  - eapply Forall_impl; [exact IH|]. cbn. auto.
  - eapply Forall_impl; [exact IH|]. intros [k x] Hx. cbn in *. destruct (is_secret_key k) eqn:Hk; [done|]. apply Hx.
Qed.

Lemma redact_fixed v d : safe d v -> redact_at v d = v.
Proof.
  revert d. induction v as [| | |s|l IH|m IH] using Value_nested_ind; intros d; cbn [redact_at safe]; try done.
  - intros Hs. f_equal. by apply clip_fixed.
  - intros [Hd Hl%and_map]. rewrite (proj2 (Nat.leb_gt _ _) Hd). f_equal. rewrite <-(map_id l) at 2. apply map_ext_Forall.
    rewrite Forall_forall in *. eauto.
  - intros [Hd Hm%and_map]. rewrite (proj2 (Nat.leb_gt _ _) Hd). f_equal. rewrite <-(map_id m) at 2. apply map_ext_Forall.
    rewrite Forall_forall in *. intros [k x] Hx. specialize (Hm _ Hx). specialize (IH _ Hx). cbn in *. destruct (is_secret_key k); [by subst|]. by rewrite IH.
Qed.

(** What an excerpt of any arguments shows: no value under a secret key, texts of at most 256
    characters and an ellipsis, at most 64 levels; and arguments that are like that already are
    shown as they are. *)
Theorem redaction_hides_secrets v : safe 0 (redact v) /\ (safe 0 v <-> redact v = v).
Proof. split; [apply redact_safe|]. split; [apply redact_fixed|]. intros <-. apply redact_safe. Qed.

End PolicyProperties.

(** ** An instance of the expressions rules need *)

Module SampleRegex.
Import Globs.

Fixpoint parse_items (s : string) : option (list Item) :=
  match s with
  | EmptyString => Some []
  | String c s1 =>
      match s1 with
      | String d s2 =>
          if decide (c = "."%char) then (if decide (d = "*"%char) then cons Run <$> parse_items s2 else None)
          else if decide (c = "\"%char) then cons (Lit d) <$> parse_items s2
          else if meta c || bool_decide (c = "*"%char) then None else cons (Lit c) <$> parse_items s1
      | EmptyString => if meta c || bool_decide (c = "*"%char) then None else Some [Lit c]
      end
  end.

Fixpoint matches (l : list Item) (s : string) : bool :=
  match l with
  | [] => is_empty s
  | Lit c :: l' => match s with String d s' => bool_decide (c = d) && matches l' s' | EmptyString => false end
  | Run :: l' =>
      (fix run (s : string) : bool :=
         matches l' s || match s with String d s' => negb (bool_decide (d = newline)) && run s' | EmptyString => false end) s
  end.

#[export] Instance sample_regex : Regex := {|
  regex := list Item;
  rx_new s := t ← strip_prefix "^" s; u ← strip_suffix "$" t; parse_items u;
  is_match := matches;
|}.

Lemma parse_items_text l : Lit "*"%char ∉ l -> parse_items (items_text l) = Some l.
Proof.
  induction l as [|i l IH]; [done|]. intros [Hi Hl]%not_elem_of_cons. cbn [items_text foldr]. fold (items_text l). specialize (IH Hl).
  destruct i as [c|]; cbn [item_text]; [|rewrite !append_cons, append_nil_l; cbn [parse_items]; by rewrite !decide_True, IH].
  destruct (meta c) eqn:Hc; [rewrite !append_cons, append_nil_l; cbn [parse_items]; rewrite decide_False, decide_True, IH by done; done|].
  rewrite append_cons, append_nil_l. assert (c <> "."%char /\ c <> "\"%char /\ c <> "*"%char) as (H1 & H2 & H3) by (split_and!; intros ->; done).
  cbn [parse_items]. destruct (items_text l) as [|d s] eqn:Hs.
  - rewrite Hc, bool_decide_false by done. cbn in IH. by injection IH as <-.
  - rewrite !decide_False, Hc, bool_decide_false, IH by done. done.
Qed.

Lemma matches_spec l s : matches l s = true <-> seq_match l s.
Proof.
  revert s. induction l as [|i l IH]; intros s; [destruct s; split; try done; [constructor|inversion 1]|]. destruct i as [c|].
  - destruct s as [|d s]; cbn [matches]; [split; [done|inversion 1]|]. rewrite andb_true_iff, bool_decide_eq_true, IH. split.
    + intros [-> ?]. by constructor.
    + by inversion 1.
  - assert (matches (Run :: l) s = true <-> exists a b, s = a +:+ b /\ contains_char newline a = false /\ seq_match l b) as ->.
    2:{ split; [intros (a & b & -> & Ha & Hb); by constructor|inversion 1; eauto]. }
    cbn [matches]. induction s as [|d s IHs]; rewrite orb_true_iff, IH.
    + split; [intros [?|?]; [by exists "", ""|done]|]. intros (a & b & He & _ & Hb). left. destruct a; [|done]. rewrite append_nil_l in He. by subst.
    + rewrite andb_true_iff, negb_true_iff, bool_decide_eq_false, IHs. split.
      * intros [?|(Hd & a & b & -> & Ha & Hb)]; [by exists "", (String d s)|]. exists (String d a), b. rewrite append_cons. split_and!; [done| |done].
        cbn [contains_char]. by rewrite decide_False by (intros Hx; by apply Hd).
      * intros (a & b & He & Ha & Hb). destruct a as [|x a]; [rewrite append_nil_l in He; left; by subst|]. right. rewrite append_cons in He.
        injection He as <- ->. cbn [contains_char] in Ha. case_decide; [done|]. split; [congruence|]. by exists a, b.
Qed.

#[export] Instance sample_regex_laws : RegexLaws.
Proof.
  constructor. intros l r s Hl. cbn [rx_new is_match sample_regex]. rewrite strip_prefix_app. cbn [mbind option_bind].
  rewrite strip_suffix_app. cbn [mbind option_bind]. rewrite parse_items_text by done. intros [= <-]. apply matches_spec.
Qed.

End SampleRegex.

Module PolicyWitnesses.
Import Permissions PolicyProperties SampleRegex.

Definition shell_rule : CompiledRule := mk_rule "shell::*" "shell::*" (compile_function_glob "shell::*") ActAllow None [].

Lemma compiled_globs_agree_witness :
  match_function_id shell_rule "shell::fs::read" = glob_match "shell::*" "shell::fs::read" /\
  match_function_id shell_rule (String newline "shell::x") = false /\ match_function_id shell_rule ("shell::" +:+ nl) = false.
Proof.
  split_and!; [|reflexivity..].
  apply (compiled_globs_agree shell_rule "shell::*" 0 "shell::fs::read"); reflexivity.
Defined.

Lemma bad_rule_empties_the_policy_witness :
  check (compile_tolerant [Shorthand "!router::chat"; Shorthand "!"]) "router::chat" Null Full = DNeedsApproval /\
  check (compile_tolerant [Shorthand "!router::chat"]) "router::chat" Null Full = DDeny "router::chat" None.
Proof.
  split; [|reflexivity].
  apply (bad_rule_empties_the_policy _ 1 (Shorthand "!") (mk_compile_error 1 EmptyDeny)); reflexivity.
Defined.

End PolicyWitnesses.
