(* ===== verification/GateConfig.v ===== *)
(** * Configuration of the approval gate (approval-gate/src/config.rs, configuration.rs)

    Module [GateSettings] is the configuration entry: the mode of new sessions, the rules, the
    bound on re-asks, how a seed file is expanded.  Module [GateReload] fetches it when the
    worker starts and whenever it changes; [ConfigProperties] shows that it reads back, that a
    failed reload keeps the policy in force, and when the policy is empty. *)

From Stdlib Require Import Ascii ZArith Lia.
From S2P Require Import Prelude Json Codec ConfigClient GateTypes GatePolicy.
Import GateWire Permissions.

Module GateSettings.

Record WorkerConfig : Type := mk_worker_config { default_mode : PermissionMode; rules : list Value; grant_reask_limit : Z }.

#[export] Instance WorkerConfig_eq_dec : EqDecision WorkerConfig.
Proof. solve_decision. Defined.

Definition default_rules_value : list Value := omap (λ r, match r with Shorthand s => Some (Str s) | _ => None end) default_rule_specs.
Definition default_grant_reask_limit : Z := 3.
Definition default_worker_config : WorkerConfig := mk_worker_config Manual default_rules_value default_grant_reask_limit.

(** Unknown members are refused. *)
#[export] Instance WorkerConfig_codec : Codec WorkerConfig := {|
  to_value c := json_obj [("default_mode", Str (mode_name (default_mode c))); ("rules", Arr (rules c));
    ("grant_reask_limit", enc_u (grant_reask_limit c))];
  from_value v :=
    m ← strict ["default_mode"; "rules"; "grant_reask_limit"] v;
    a ← dflt "default_mode" dec_mode Manual m; b ← dflt "rules" as_array default_rules_value m;
    c ← dflt "grant_reask_limit" (dec_u u64_max) default_grant_reask_limit m;
    Some (mk_worker_config a b c);
|}.

(** [WorkerConfig::from_json]; the text of the parse error is left out. *)
Definition from_json (v : Value) : result WorkerConfig string :=
  match from_value v with Some c => Ok c | None => Err "json parse" end.

Definition rule_specs (c : WorkerConfig) : list RuleSpec := parse_rules_from_config (Arr (rules c)).
Definition permissions `{Regex} (c : WorkerConfig) : list CompiledRule := compile_tolerant (rule_specs c).
Definition auto_allow_seed (c : WorkerConfig) : list string := auto_allow_seed_from_specs (rule_specs c).

(** [expand_env], over an environment of variables; the fuel is the length of what is left. *)
Fixpoint expand_from (fuel : nat) (var : string -> option string) (s : string) : string :=
  match fuel, find_sub "${" s with
  | S fuel', Some (before, after) =>
      match find_sub "}" after with
      | Some (name, rest) => before +:+ default "" (var name) +:+ expand_from fuel' var rest
      | None => before +:+ "${" +:+ expand_from fuel' var after
      end
  | _, _ => s
  end.

Definition expand_env (var : string -> option string) (s : string) : string := expand_from (String.length s) var s.

(** [WorkerConfig::from_yaml]: placeholders first, then the reader of YAML. *)
Definition from_yaml (yaml : string -> option Value) (var : string -> option string) (text : string) : result WorkerConfig string :=
  match yaml (expand_env var text) with
  | None => Err "yaml parse"
  | Some v => match from_value v with Some c => Ok c | None => Err "yaml parse" end
  end.

End GateSettings.

(** ** Fetching and reloading *)

Module GateReload.
Import GateSettings Client.

Definition DEFAULT_CONFIG_ID : string := "approval-gate".

(** [config_id]: the entry a supervisor named, without surrounding space, else the default. *)
Definition config_id (name : option string) : string :=
  match name with Some s => if is_empty (trim s) then DEFAULT_CONFIG_ID else trim s | None => DEFAULT_CONFIG_ID end.

Section Bus.
Context {W : Type} (bus : string -> Value -> W -> result Value CallError * W) (id : string).

(** [get_config_value]. *)
Definition get_config_value (w : W) : result Value string * W :=
  match try_get_config_value (call_configuration_with_retry bus) id w with
  | (Ok (Some v), w1) => (Ok v, w1)
  | (Ok None, w1) => (Err ("configuration `" +:+ id +:+ "` not found"), w1)
  | (Err e, w1) => (Err e, w1)
  end.

(** [fetch_config]: a stored [null] is the default configuration. *)
Definition fetch_config (w : W) : result WorkerConfig string * W :=
  match get_config_value w with
  | (Ok v, w1) => (if is_null v then Ok default_worker_config else from_json v, w1)
  | (Err e, w1) => (Err e, w1)
  end.

(** [register_config]: the seed is offered, [configuration::ensure] installs it only where
    nothing is stored. *)
Definition registration (schema : Value) (seed : option WorkerConfig) : Value :=
  json_obj [("id", Str id); ("name", Str "Approval Gate"); ("schema", schema);
    ("metadata", json_obj [("ui_form", Str DEFAULT_CONFIG_ID)]);
    ("initial_value", to_value (default default_worker_config seed))].

Definition register_config (schema : Value) (seed : option WorkerConfig) (w : W) : result unit string * W :=
  ensure_with (call_configuration_with_retry bus) (registration schema seed) w.

(** How the worker starts: an error here ends it. *)
Definition start (schema : Value) (seed : option WorkerConfig) (w : W) : result WorkerConfig string * W :=
  match register_config schema seed w with
  | (Ok _, w1) => fetch_config w1
  | (Err e, w1) => (Err e, w1)
  end.

(** [on_config_change]: what was delivered is ignored, the stored value is read again. *)
Definition on_config_change (cell : WorkerConfig) (w : W) : WorkerConfig * W :=
  match fetch_config w with
  | (Ok c, w1) => (c, w1)
  | (Err _, w1) => (cell, w1)
  end.

End Bus.
End GateReload.

(** ** Properties *)

Module ConfigProperties.
Import GateSettings GateReload Client.

Definition config_ok (c : WorkerConfig) : Prop := in_range 0 u64_max (grant_reask_limit c).

Lemma config_codec (c : WorkerConfig) : config_ok c -> codec_ok c.
Proof.
  intros Hc. unfold codec_ok. cbn [from_value to_value WorkerConfig_codec]. codec_tac.
  get_dflt "default_mode" (default_mode c); [|apply GateWireRules.mode_codec]. get_dflt "rules" (rules c); [|done].
  get_dflt "grant_reask_limit" (grant_reask_limit c); [by destruct c|by apply dec_enc_u].
Qed.

(** The fuel of [expand_env] is enough: more of it changes nothing. *)
Lemma expand_fuel_enough n m var s : String.length s <= n -> String.length s <= m -> expand_from n var s = expand_from m var s.
Proof.
  revert m s. induction n as [|n IH]; intros [|m] s Hn Hm; [done|destruct s; [done|cbn in *; lia]..|]. cbn [expand_from].
  destruct (find_sub "${" s) as [[before after]|] eqn:Hf; [|done]. apply find_sub_some in Hf.
  assert (String.length after < String.length s) as Ha by (rewrite Hf, !length_append; cbn; lia).
  destruct (find_sub "}" after) as [[name rest]|] eqn:Hr; [|rewrite (IH m after); [done|lia..]].
  apply find_sub_some in Hr. assert (String.length rest < String.length after) by (rewrite Hr, !length_append; cbn; lia).
  rewrite (IH m rest); [done|lia..].
Qed.

(** The configuration of the gate survives the configuration worker; an empty object is the
    default one, and one with a member that is not known is refused. *)
Theorem gate_config_roundtrip c k v :
  config_ok c -> k ∉ ["default_mode"; "rules"; "grant_reask_limit"] ->
  from_json (to_value c) = Ok c /\ from_json (Obj []) = Ok default_worker_config /\
  from_json (vset k v (to_value c)) = Err "json parse".
Proof.
  intros Hc Hk. split_and!; [|done|].
  - unfold from_json. by rewrite config_codec.
  - unfold from_json. cbn [from_value to_value WorkerConfig_codec vset json_obj strict].
    destruct (only_keys _ _) eqn:Ho; [|done]. exfalso. apply Hk. apply only_keys_spec with (k := k) in Ho; [done|].
    apply obj_keys_insert. by left.
Qed.

Lemma gate_config_roundtrip_witness : config_ok default_worker_config /\ from_json (to_value default_worker_config) = Ok default_worker_config.
Proof.
  split; [split; discriminate|].
  apply (gate_config_roundtrip default_worker_config "rulez" Null); [split; discriminate|set_solver].
Defined.

(** A change the worker can read is in force afterwards; whatever goes wrong, a missing entry, a
    call that fails three times, a value that does not parse, the policy in force stays. *)
Theorem reload_takes_or_keeps {W} (bus : string -> Value -> W -> result Value CallError * W) id cell w :
  (on_config_change bus id cell w).1 =
  match (try_get_config_value (call_configuration_with_retry bus) id w).1 with
  | Ok (Some v) => if is_null v then default_worker_config else match from_json v with Ok c => c | Err _ => cell end
  | _ => cell
  end.
Proof.
  unfold on_config_change, fetch_config, get_config_value.
  destruct (try_get_config_value _ _ _) as [[[v|]|e] w1]; cbn [fst]; [|done..]. destruct (is_null v); [done|]. by destruct (from_json v).
Qed.

End ConfigProperties.
