(* ===== verification/GateBus.v ===== *)
(** * What the approval gate talks to (approval-gate/src/state.rs, harness.rs, session.rs, events.rs)

    A handler of the gate is a program of calls: of the state worker, which keeps everything the
    gate remembers, and of functions of other workers.  Module [GateProg] is such programs;
    [GateState] what the state worker promises them, a call that is answered, lost before it took
    effect or lost after; [GateWorld] the step relation in which any handlers interleave call by
    call while the configuration changes.  The file
    [GateService] proves that the handlers of [StateService] keep the promise. *)

From Stdlib Require Import Ascii ZArith Lia.
From stdpp Require Import relations.
From S2P Require Import Prelude Json Codec StateStore StateService GateTypes GatePolicy GateConfig.
Import GateWire GateSettings.

(** ** Programs *)

Module GateProg.

(** The calls of state.rs, harness.rs, session.rs and shell_config.rs. *)
Inductive Call : Type :=
| StateGet (scope key : string)
| StateSet (scope key : string) (v : Value)
| StateDelete (scope key : string)
| StateList (scope : string)
| Remote (function_id : string) (payload : Value).

#[export] Instance Call_eq_dec : EqDecision Call.
Proof. solve_decision. Defined.

(** What the sink is given: [pending_created] is spawned, [pending_resolved] awaited. *)
Inductive Event : Type := Created (r : PendingApprovalRecord) | Resolved (e : PendingResolvedEvent).

(** A program: what it answers, a call, a snapshot of the configuration, the clock, an event,
    the lock of [add_host_root]. *)
Inductive Prog (A : Type) : Type :=
| Done (a : A)
| Do (c : Call) (k : result Value string -> Prog A)
| Config (k : WorkerConfig -> Prog A)
| Now (k : Z -> Prog A)
| Emit (e : Event) (k : Prog A)
| Lock (k : Prog A)
| Unlock (k : Prog A).
Arguments Done {A}.
Arguments Do {A}.
Arguments Config {A}.
Arguments Now {A}.
Arguments Emit {A}.
Arguments Lock {A}.
Arguments Unlock {A}.

Fixpoint bind {A B} (p : Prog A) (f : A -> Prog B) : Prog B :=
  match p with
  | Done a => f a
  | Do c k => Do c (λ r, bind (k r) f)
  | Config k => Config (λ x, bind (k x) f)
  | Now k => Now (λ z, bind (k z) f)
  | Emit e k => Emit e (bind k f)
  | Lock k => Lock (bind k f)
  | Unlock k => Unlock (bind k f)
  end.

End GateProg.

Declare Scope gate_scope.
Delimit Scope gate_scope with G.
Notation "x ←% p ; k" := (GateProg.bind p (λ x, k)) (at level 20, p at level 100, k at level 200, only parsing) : gate_scope.

(** ** The state worker, as the gate relies on it *)

Module GateState.
Import GateProg.

(** The values by scope and key. *)
Abbreviation Store := (gmap (string * string) Value).

Definition scope_values (sc : string) (s : Store) : list Value :=
  (λ p : string * string * Value, p.2) <$> filter (λ p : string * string * Value, p.1.1 = sc) (map_to_list s).

Definition set_reply (old : option Value) (v : Value) : Value := json_obj [("old_value", default Null old); ("new_value", v)].

(** The answer of a call that is served; a list comes in any order. *)
Inductive answers : Call -> Store -> Value -> Store -> Prop :=
| ans_get sc k s : answers (StateGet sc k) s (default Null (s !! (sc, k))) s
| ans_set sc k v s : answers (StateSet sc k v) s (set_reply (s !! (sc, k)) v) (<[(sc, k) := v]> s)
| ans_delete sc k s : answers (StateDelete sc k) s (default Null (s !! (sc, k))) (delete (sc, k) s)
| ans_list sc s l : l ≡ₚ scope_values sc s -> answers (StateList sc) s (Arr l) s
| ans_remote f p s v : answers (Remote f p) s v s.

(** What may happen to a call: it is served, it is lost, or only its answer is; and whether it
    took effect. *)
Inductive happens : Call -> Store -> result Value string -> bool -> Store -> Prop :=
| hap_served c s v s' : answers c s v s' -> happens c s (Ok v) true s'
| hap_lost c s e : happens c s (Err e) false s
| hap_late c s v s' e : answers c s v s' -> happens c s (Err e) true s'.

(** *** The same, computed: what is made of the call of a given number *)

Inductive Fault : Type := Fine | Lost (e : string) | Late (e : string).

(** Answers of other workers, faults, clock readings and configurations, by number. *)
Record Oracle : Type := mk_oracle { remote : nat -> string -> Value -> Value; fault : nat -> Fault; clock : nat -> Z; config_at : nat -> WorkerConfig }.

Definition serve (o : Oracle) (n : nat) (c : Call) (s : Store) : Value * Store :=
  match c with
  | StateGet sc k => (default Null (s !! (sc, k)), s)
  | StateSet sc k v => (set_reply (s !! (sc, k)) v, <[(sc, k) := v]> s)
  | StateDelete sc k => (default Null (s !! (sc, k)), delete (sc, k) s)
  | StateList sc => (Arr (scope_values sc s), s)
  | Remote f p => (remote o n f p, s)
  end.

Definition perform (o : Oracle) (n : nat) (c : Call) (s : Store) : result Value string * Store :=
  match fault o n with
  | Fine => let '(v, s') := serve o n c s in (Ok v, s')
  | Lost e => (Err e, s)
  | Late e => (Err e, (serve o n c s).2)
  end.

Lemma serve_answers o n c s : answers c s (serve o n c s).1 (serve o n c s).2.
Proof. destruct c; cbn [serve fst snd]; by constructor. Qed.

Lemma perform_happens o n c s : exists took, happens c s (perform o n c s).1 took (perform o n c s).2.
Proof.
  unfold perform. pose proof (serve_answers o n c s) as Ha. destruct (serve o n c s) as [v s']. cbn [fst snd] in Ha.
  destruct (fault o n); cbn [fst snd]; eexists; [by constructor|apply hap_lost|by eapply hap_late].
Qed.

(** A call changes only what it names. *)
Definition touches (c : Call) : option (string * string) :=
  match c with StateSet sc k _ | StateDelete sc k => Some (sc, k) | _ => None end.

Lemma answers_elsewhere c s v s' a : answers c s v s' -> touches c <> Some a -> s' !! a = s !! a.
Proof. destruct 1; cbn [touches]; intros Hn; [done| | |done|done]; [rewrite lookup_insert_ne|rewrite lookup_delete_ne]; congruence. Qed.

Lemma happens_elsewhere c s r took s' a : happens c s r took s' -> touches c <> Some a -> s' !! a = s !! a.
Proof. destruct 1; eauto using answers_elsewhere. Qed.

End GateState.

(** ** Handlers, alone and interleaved *)

Module GateWorld.
Import GateProg GateState.

(** What a handler does, seen from outside. *)
Inductive Action : Type :=
| Called (c : Call) (r : result Value string)
| Emitted (e : Event).

(** A run of a handler alone, its actions first to last. *)
Fixpoint run {A} (o : Oracle) (p : Prog A) (s : Store) (n : nat) : A * Store * list Action * nat :=
  match p with
  | Done a => (a, s, [], n)
  | Do c k => let '(r, s') := perform o n c s in let '(a, s2, l, m) := run o (k r) s' (S n) in (a, s2, Called c r :: l, m)
  | Config k => run o (k (config_at o n)) s (S n)
  | Now k => run o (k (clock o n)) s (S n)
  | Emit e k => let '(a, s2, l, m) := run o k s n in (a, s2, Emitted e :: l, m)
  | Lock k | Unlock k => run o k s n
  end.

(** What a program may do when any call is answered in any way: the traces that hold under every
    interleaving with other handlers. *)
Inductive trace {A} : Prog A -> list Action -> A -> Prop :=
| tr_done a : trace (Done a) [] a
| tr_call c k r l a : trace (k r) l a -> trace (Do c k) (Called c r :: l) a
| tr_config k cfg l a : trace (k cfg) l a -> trace (Config k) l a
| tr_now k z l a : trace (k z) l a -> trace (Now k) l a
| tr_emit e k l a : trace k l a -> trace (Emit e k) (Emitted e :: l) a
| tr_lock k l a : trace k l a -> trace (Lock k) l a
| tr_unlock k l a : trace k l a -> trace (Unlock k) l a.

Lemma run_trace {A} o (p : Prog A) s n : let '(a, _, l, _) := run o p s n in trace p l a.
Proof.
  revert s n. induction p as [a|c k IH|k IH|k IH|e k IH|k IH|k IH]; intros s n; cbn [run].
  - constructor.
  - destruct (perform o n c s) as [r s']. specialize (IH r s' (S n)). destruct (run o (k r) s' (S n)) as [[[a s2] l] m]. by constructor.
  - specialize (IH (config_at o n) s (S n)). destruct (run o _ s (S n)) as [[[a s2] l] m]. by econstructor.
  - specialize (IH (clock o n) s (S n)). destruct (run o _ s (S n)) as [[[a s2] l] m]. by econstructor.
  - specialize (IH s n). destruct (run o k s n) as [[[a s2] l] m]. by constructor.
  - specialize (IH s n). destruct (run o k s n) as [[[a s2] l] m]. by constructor.
  - specialize (IH s n). destruct (run o k s n) as [[[a s2] l] m]. by constructor.
Qed.

Lemma trace_bind {A B} (p : Prog A) (f : A -> Prog B) l b : trace (bind p f) l b <->
  exists l1 l2 a, l = l1 ++ l2 /\ trace p l1 a /\ trace (f a) l2 b.
Proof.
  split.
  - revert l. induction p as [a|c k IH|k IH|k IH|e k IH|k IH|k IH]; intros l; cbn [bind]; intros Ht.
    { exists [], l, a. split_and!; [done|apply tr_done|done]. }
    all: inversion Ht; subst; match goal with Hb : trace (bind _ _) _ _ |- _ => apply IH in Hb as (l1 & l2 & a' & -> & H1 & H2) end.
    1, 4: eexists (_ :: l1), l2, a'; split_and!; [done|by constructor|done].
    all: exists l1, l2, a'; split_and!; [done|by econstructor|done].
  - intros (l1 & l2 & a & -> & H1 & H2). induction H1; cbn [bind app]; try econstructor; eauto.
Qed.

(** *** The worker

    Handlers begin at any time, under any number that is free, every step is the next step of one
    of them, and the configuration is swapped at any time.  The history keeps the calls with the store they found and whether
    they took effect, and the events. *)

Inductive Moment : Type :=
| MCall (who : nat) (c : Call) (found : Store) (r : result Value string) (took : bool)
| MEvent (who : nat) (e : Event).

Section Worker.
Context {A : Type} (handler : nat -> Prog A -> Prop).

Record World : Type := mk_world {
  store : Store; config : WorkerConfig; host_root_lock : option nat; threads : gmap nat (Prog A); history : list Moment }.

Definition resume (n : nat) (p : Prog A) (w : World) : World :=
  mk_world (store w) (config w) (host_root_lock w) (<[n := p]> (threads w)) (history w).

Inductive step : World -> World -> Prop :=
| s_begin w n p : handler n p -> threads w !! n = None -> step w (resume n p w)
| s_call w n c k r took s' : threads w !! n = Some (Do c k) -> happens c (store w) r took s' ->
    step w (mk_world s' (config w) (host_root_lock w) (<[n := k r]> (threads w)) (history w ++ [MCall n c (store w) r took]))
| s_config w n k : threads w !! n = Some (Config k) -> step w (resume n (k (config w)) w)
| s_now w n k z : threads w !! n = Some (Now k) -> step w (resume n (k z) w)
| s_emit w n e k : threads w !! n = Some (Emit e k) ->
    step w (mk_world (store w) (config w) (host_root_lock w) (<[n := k]> (threads w)) (history w ++ [MEvent n e]))
| s_lock w n k : threads w !! n = Some (Lock k) -> host_root_lock w = None ->
    step w (mk_world (store w) (config w) (Some n) (<[n := k]> (threads w)) (history w))
| s_unlock w n k : threads w !! n = Some (Unlock k) ->
    step w (mk_world (store w) (config w) None (<[n := k]> (threads w)) (history w))
| s_end w n a : threads w !! n = Some (Done a) ->
    step w (mk_world (store w) (config w) (host_root_lock w) (delete n (threads w)) (history w))
| s_reconfigure w c : step w (mk_world (store w) c (host_root_lock w) (threads w) (history w)).

Definition started (s : Store) (c : WorkerConfig) : World := mk_world s c None ∅ [].
Definition reachable (s : Store) (c : WorkerConfig) (w : World) : Prop := rtc step (started s c) w.

End Worker.
Arguments World : clear implicits.

End GateWorld.
