(* ===== verification/GateHandlers.v ===== *)
(** * The handlers of the approval gate (approval-gate/src/pending.rs, settings.rs, filesystem_access.rs, filesystem_access_state.rs, shell_config.rs, functions/)

    Module [Pending] is the inbox, [Settings] the settings of a session, [AccessHint] the request
    for a directory that rides on a refused file access, [AccessState] what was denied and how
    often was asked, [ShellConfig] the list of roots kept by the file worker.  Module [Handlers]
    is one program per function of the worker. *)

From Stdlib Require Import Ascii ZArith Lia.
From S2P Require Import Prelude Json Codec JsonText GateTypes GatePolicy GateConfig GateBus.
Import GateWire GateSettings Permissions Redact Denial GateProg.
Local Open Scope gate_scope.

(** A call, its result in hand. *)
Definition ask {A} (c : Call) (f : Value -> A) : Prog (result A string) :=
  Do c (λ r, Done match r with Ok v => Ok (f v) | Err e => Err e end).

(** [p.await?]. *)
Definition try_ {A B E} (p : Prog (result A E)) (k : A -> Prog (result B E)) : Prog (result B E) :=
  r ←% p; match r with Ok a => k a | Err e => Done (Err e) end.

Definition map_err {A E F} (f : E -> F) (p : Prog (result A E)) : Prog (result A F) :=
  r ←% p; Done match r with Ok a => Ok a | Err e => Err (f e) end.

Notation "x ←? p ; k" := (try_ p (λ x, k)) (at level 20, p at level 100, k at level 200, only parsing) : gate_scope.

(** [validate_id(..)?]. *)
Definition check_id {A} (label v : string) (k : Prog (result A ApprovalError)) : Prog (result A ApprovalError) :=
  match validate_id label v with Ok _ => k | Err e => Done (Err e) end.

(** The values of a [state::list] reply. *)
Definition list_items (v : Value) : list Value := match v with Arr l => l | _ => [] end.

(** ** The inbox *)

Module Pending.

Definition PENDING_SCOPE : string := "approval_pending".
Definition pending_key (sid cid : string) : string := sid +:+ "/" +:+ cid.

Definition parse_record (v : Value) : option PendingApprovalRecord := if is_null v then None else from_value v.

Definition get (sid cid : string) : Prog (result (option PendingApprovalRecord) string) :=
  ask (StateGet PENDING_SCOPE (pending_key sid cid)) parse_record.

(** The value a [state::set] replaced. *)
Definition old_value (reply : Value) : Value := default Null (vget "old_value" reply).

(** The previous value, when there was one. *)
Definition put (r : PendingApprovalRecord) : Prog (result (option Value) string) :=
  ask (StateSet PENDING_SCOPE (pending_key (session_id r) (function_call_id r)) (to_value r))
    (λ reply, let old := old_value reply in if is_null old then None else Some old).

(** Writing [null] tells who took the record; the deletion behind it only clears the [null]. *)
Definition delete_with_gate (sid cid : string) : Prog (result (option PendingApprovalRecord) string) :=
  old ←? ask (StateSet PENDING_SCOPE (pending_key sid cid) Null) old_value;
  _ ←% ask (StateDelete PENDING_SCOPE (pending_key sid cid)) (λ _, tt);
  Done (Ok (parse_record old)).

Definition list_all : Prog (result (list PendingApprovalRecord) string) :=
  ask (StateList PENDING_SCOPE) (λ v, omap parse_record (list_items v)).

End Pending.

(** ** Settings of a session *)

Module Settings.

Definition SETTINGS_SCOPE : string := "approval_settings".

Definition parse_settings (v : Value) : option ApprovalSettings := if is_object v then from_value v else None.

Definition seeded_from (cfg : WorkerConfig) (at_ms : Z) : ApprovalSettings :=
  mk_settings (default_mode cfg) ((λ f, mk_entry f at_ms Seed) <$> auto_allow_seed cfg) [] 0.

Definition effective (stored : option ApprovalSettings) (cfg : WorkerConfig) : ApprovalSettings * SettingsSource :=
  match stored with Some s => (s, Stored) | None => (seeded_from cfg 0, Defaults) end.

(** For the gate: whatever goes wrong, the defaults. *)
Definition read_tolerant (sid : string) : Prog (option ApprovalSettings) :=
  r ←% ask (StateGet SETTINGS_SCOPE sid) parse_settings; Done match r with Ok o => o | Err _ => None end.

Definition read_strict (sid : string) : Prog (result (option ApprovalSettings) ApprovalError) :=
  map_err (λ e, StateUnavailable ("settings read failed: " +:+ e)) (ask (StateGet SETTINGS_SCOPE sid) parse_settings).

Definition materialize_and (sid : string) (cfg : WorkerConfig) (mutate : ApprovalSettings -> Z -> ApprovalSettings)
  : Prog (result ApprovalSettings ApprovalError) :=
  check_id "session_id" sid (Now (λ now,
    stored ←? read_strict sid;
    let next := mutate (default (seeded_from cfg now) stored) now in
    _ ←? map_err (λ e, StateUnavailable ("settings write failed: " +:+ e)) (ask (StateSet SETTINGS_SCOPE sid (to_value next)) (λ _, tt));
    Done (Ok next))).

Definition clear (sid : string) : Prog (result bool ApprovalError) :=
  check_id "session_id" sid (
    map_err (λ e, StateUnavailable ("settings delete failed: " +:+ e)) (ask (StateDelete SETTINGS_SCOPE sid) (λ old, negb (is_null old)))).

Definition with_grant (l : list AlwaysAllowEntry) (f : string) (at_ms : Z) : list AlwaysAllowEntry :=
  if existsb (λ e, bool_decide (ae_function e = f)) l then l else l ++ [mk_entry f at_ms UserClick].

Definition without_grant (l : list AlwaysAllowEntry) (f : string) : list AlwaysAllowEntry :=
  filter (λ e, ae_function e <> f) l.

End Settings.

(** ** The request for a directory *)

Module AccessHint.

Definition JAIL_SCOPE_CODES : list string := ["S215"; "S220"; "C215"; "C220"].
Definition ACCESS_REQUEST_MARKER : string := "filesystem_access_request=".

Record RawRequest : Type := mk_raw { raw_v : Z; raw_root : string; raw_path : string; raw_code : option string }.
Definition dec_raw (v : Value) : option RawRequest :=
  m ← as_object v; n ← req "v" (dec_u u32_max) m; r ← req "requested_root" as_str m; p ← dflt "attempted_path" as_str "" m;
  c ← opt "error_code" as_str m; Some (mk_raw n r p c).

Section Text.
Context `{SerdeFile}.

(** The text behind the last marker must be the request and nothing else. *)
Definition parse_tail (message : string) (code : option string) : option AccessRequest :=
  p ← rfind_sub ACCESS_REQUEST_MARKER message;
  raw ← match read_text (trim p.2) with Parsed v => dec_raw v | _ => None end;
  if negb (raw_v raw =? 1)%Z then None
  else if negb (starts_with "/" (raw_root raw)) then None
  else c ← match code with Some c => Some c | None => raw_code raw end;
       if bool_decide (c ∈ JAIL_SCOPE_CODES) then Some (mk_access (raw_root raw) (raw_path raw) c) else None.

(** The message of the error, else the first text of the result. *)
Definition parse_filesystem_access_request (r : HookResult) : option AccessRequest :=
  e ← hr_error r;
  match parse_tail (he_message e) (he_code e) with
  | Some h => Some h
  | None => t ← head (hr_content r); parse_tail (block_text t) (he_code e)
  end.

Definition dir_contains (root candidate : string) : bool :=
  bool_decide (candidate = root) || starts_with (if ends_with "/" root then root else root +:+ "/") candidate.

Inductive HintOutcome : Type := NoHint | WorkspaceItself (a : AccessRequest) | Candidate (a : AccessRequest).

(** The root of the session's workspace, from the metadata of the hook. *)
Definition scope_root (i : HookInput) : option string :=
  m ← hi_metadata i; f ← obj_get "fs_scope" m; s ← as_object f; r ← obj_get "root" s; as_str r.

Definition extract_hint (i : HookInput) : HintOutcome :=
  match hi_result i with
  | None => NoHint
  | Some r =>
      if negb (hr_is_error r) then NoHint
      else match hr_error r with
      | None => NoHint
      | Some e =>
          if match he_code e with Some c => negb (bool_decide (c ∈ JAIL_SCOPE_CODES)) | None => false end then NoHint
          else match parse_filesystem_access_request r with
          | None => NoHint
          | Some h =>
              match scope_root i with
              | Some root => if dir_contains root (requested_root h) then WorkspaceItself h else Candidate h
              | None => Candidate h
              end
          end
      end
  end.

End Text.
End AccessHint.

(** ** What was denied, and how often was asked *)

Module AccessState.

Definition DENIED_SCOPE : string := "approval_filesystem_access_denied".
Definition ATTEMPTS_SCOPE : string := "approval_filesystem_access_attempts".

Definition with_denied (l : list string) (root : string) : list string := if bool_decide (root ∈ l) then l else l ++ [root].
Definition parse_denied (v : Value) : list string := match v with Arr l => omap as_str l | _ => [] end.

Definition read_denied (sid : string) : Prog (list string) :=
  r ←% ask (StateGet DENIED_SCOPE sid) parse_denied; Done match r with Ok l => l | Err _ => [] end.

Definition add_denied (sid root : string) : Prog (result unit string) :=
  l ←? ask (StateGet DENIED_SCOPE sid) parse_denied;
  ask (StateSet DENIED_SCOPE sid (enc_str_list (with_denied l root))) (λ _, tt).

Definition clear_denied (sid : string) : Prog (result unit string) := ask (StateDelete DENIED_SCOPE sid) (λ _, tt).

Record AttemptRecord : Type := mk_attempt { at_session : string; at_call : string; at_turn : string; at_count : Z }.

#[export] Instance AttemptRecord_codec : Codec AttemptRecord := {|
  to_value a := json_obj [("session_id", Str (at_session a)); ("function_call_id", Str (at_call a)); ("turn_id", Str (at_turn a));
    ("count", enc_u (at_count a))];
  from_value v :=
    m ← as_object v; s ← req "session_id" as_str m; c ← req "function_call_id" as_str m; t ← req "turn_id" as_str m;
    n ← req "count" (dec_u u32_max) m; Some (mk_attempt s c t n);
|}.

Definition attempt_key (sid cid : string) : string := sid +:+ "/" +:+ cid.
Definition parse_attempt (v : Value) : option AttemptRecord := if is_null v then None else from_value v.

Inductive AttemptOutcome : Type := Allowed (n : Z) | Capped.

Definition check_cap (current limit : Z) : bool := (current <? limit)%Z.

(** [current + 1] in 32 bits; a count at their end panics in a build with overflow checks. *)
Definition check_and_bump (sid cid turn : string) (limit : Z) : Prog (result AttemptOutcome string) :=
  current ←? ask (StateGet ATTEMPTS_SCOPE (attempt_key sid cid)) (λ v, match parse_attempt v with Some a => at_count a | None => 0%Z end);
  if negb (check_cap current limit) then Done (Ok Capped)
  else let next := ((current + 1) mod 2 ^ 32)%Z in
       _ ←? ask (StateSet ATTEMPTS_SCOPE (attempt_key sid cid) (to_value (mk_attempt sid cid turn next))) (λ _, tt);
       Done (Ok (Allowed next)).

Definition list_attempts : Prog (result (list AttemptRecord) string) :=
  ask (StateList ATTEMPTS_SCOPE) (λ v, omap parse_attempt (list_items v)).

Fixpoint delete_attempts (l : list AttemptRecord) (purged : nat) : Prog nat :=
  match l with
  | [] => Done purged
  | a :: l' => r ←% ask (StateDelete ATTEMPTS_SCOPE (attempt_key (at_session a) (at_call a))) (λ _, tt);
               delete_attempts l' (match r with Ok _ => S purged | Err _ => purged end)
  end.

Definition purge_attempts (P : AttemptRecord -> bool) : Prog nat :=
  r ←% list_attempts;
  match r with Ok l => delete_attempts (filter (λ a, P a = true) l) 0 | Err _ => Done 0 end.

End AccessState.

(** ** The roots of the file worker *)

Module ShellConfig.

(** [with_host_root]: missing or ill-typed pieces read as empty. *)
Definition with_host_root (v : Value) (root : string) : Value :=
  let top := default [] (as_object v) in
  let fs := default [] (x ← obj_get "fs" top; as_object x) in
  let roots := default [] (x ← obj_get "host_roots" fs; as_array x) in
  let roots' := if existsb (λ x, bool_decide (as_str x = Some root)) roots then roots else roots ++ [Str root] in
  Obj (obj_insert "fs" (Obj (obj_insert "host_roots" (Arr roots') fs)) top).

(** [shell_config_id]. *)
Definition shell_config_id : Prog (result string string) :=
  v ←? ask (Remote "ide::configuration-id" (Obj [])) (λ v, v);
  Done match (x ← vget "id" v; as_str x) with
       | Some i => if is_empty (trim i) then Err "IDE returned an invalid configuration identity" else Ok i
       | None => Err "IDE returned an invalid configuration identity"
       end.

(** [add_host_root], under its lock. *)
Definition add_host_root (root : string) : Prog (result unit string) :=
  Lock (
    r ←% (id ←? shell_config_id;
          reply ←? ask (Remote "configuration::get" (json_obj [("id", Str id); ("raw", Bool true)])) (λ v, v);
          match (x ← vget "value" reply; if is_object x then Some x else None) with
          | None => Done (Err "IDE configuration is not an object; refusing to replace it")
          | Some current =>
              ask (Remote "configuration::set" (json_obj [("id", Str id); ("value", with_host_root current root)])) (λ _, tt)
          end);
    Unlock (Done r)).

End ShellConfig.

(** ** The functions *)

Module Handlers.
Import AccessHint.
Local Open Scope workers_scope.

Section Worker.
Context `{Regex} `{SerdeText} `{SerdeFile}.

(** *** functions/gate.rs *)

Definition nonempty_str (v : option Value) : option string := x ← v; s ← as_str x; if is_empty s then None else Some s.

(** The title, description and metadata of the session, where they can be had. *)
Definition fetch_session_context (sid : string) : Prog (option string * option string * option JsonMap) :=
  r ←% ask (Remote "session::get" (json_obj [("session_id", Str sid)])) (λ v, v);
  Done match r with
       | Err _ => (None, None, None)
       | Ok reply =>
           match vget "meta" reply with
           | None => (None, None, None)
           | Some meta => (nonempty_str (vget "title" meta), nonempty_str (vget "description" meta),
               x ← vget "metadata" meta; as_object x)
           end
       end.

Definition pending_record (i : HookInput) (c : HookCall) (now : Z) (ctx : option string * option string * option JsonMap)
  (kd : PendingKind) (a : option AccessRequest) : PendingApprovalRecord :=
  mk_pending (hi_session i) (hi_turn i) (hc_id c) (hc_function c) (redact (hc_arguments c)) now
    ctx.1.1 ctx.1.2 ctx.2 (hi_depth i) None kd a.

(** [hold]: the record is written before the hook says so, once per call. *)
Definition hold (i : HookInput) (c : HookCall) : Prog HookOutput :=
  existing ←% Pending.get (hi_session i) (hc_id c);
  match existing with
  | Ok (Some _) => Done Hold
  | Err e => Done (Deny (de_reason (gate_unavailable_envelope (hc_function c) ("pending record read failed: " +:+ e))))
  | Ok None =>
      ctx ←% fetch_session_context (hi_session i);
      Now (λ now,
        let record := pending_record i c now ctx KFunction None in
        r ←% Pending.put record;
        match r with
        | Err e => Done (Deny (de_reason (gate_unavailable_envelope (hc_function c) ("pending record write failed: " +:+ e))))
        | Ok (Some _) => Done Hold
        | Ok None => Emit (Created record) (Done Hold)
        end)
  end.

Definition ids_ok (sid cid : string) : bool := is_ok (validate_id "session_id" sid) && is_ok (validate_id "function_call_id" cid).

Definition gate (i : HookInput) : Prog HookOutput :=
  match hi_call i with
  | None => Done (Deny "approval-gate received a pre_call hook input without a call payload")
  | Some c =>
      if is_human_only (hc_function c) then Done (Deny (de_reason (human_only_denial (hc_function c) (hc_arguments c))))
      else if negb (ids_ok (hi_session i) (hc_id c)) then
        Done (Deny ("approval-gate cannot evaluate " +:+ hc_function c
          +:+ ": session_id / function_call_id must be non-empty and must not contain " +:+ dq +:+ "/" +:+ dq))
      else Config (λ cfg,
        stored ←% Settings.read_tolerant (hi_session i);
        let eff := (Settings.effective stored cfg).1 in
        if pre_policy_allow eff (hc_function c) then Done Continue
        else match check (permissions cfg) (hc_function c) (hc_arguments c) (mode eff) with
             | DAllow _ => Done Continue
             | DDeny rule m => Done (Deny (de_reason (permissions_deny_envelope (hc_function c) rule m (hc_arguments c))))
             | DNeedsApproval => hold i c
             end)
  end.

(** *** functions/evaluate.rs *)

Definition evaluate (r : EvaluateRequest) : Prog (result EvaluateResponse ApprovalError) :=
  check_id "session_id" (eq_session r) (
    if is_empty (trim (eq_function r)) then Done (Err (InvalidPayload "function_id must be a non-empty function id"))
    else if is_human_only (eq_function r) then
      Done (Ok (mk_evaluated VDeny (Some (eq_function r +:+ " is human-only and can never be called by an agent"))))
    else Config (λ cfg,
      stored ←% Settings.read_tolerant (eq_session r);
      let eff := (Settings.effective stored cfg).1 in
      if pre_policy_allow eff (eq_function r) then Done (Ok (mk_evaluated VAllow None))
      else Done (Ok match check (permissions cfg) (eq_function r) (default (Obj []) (eq_arguments r)) (mode eff) with
           | DAllow _ => mk_evaluated VAllow None
           | DDeny rule _ => mk_evaluated VDeny (Some (eq_function r +:+ " is denied by permission rule " +:+ rule))
           | DNeedsApproval =>
               mk_evaluated VNeedsApproval (Some (eq_function r +:+ " requires human approval per this deployment's permission rules"))
           end))).

(** *** functions/set_mode.rs and the other mutations of the settings *)

Definition settings_of (sid : string) (mutate : ApprovalSettings -> Z -> ApprovalSettings) : Prog (result ApprovalSettings ApprovalError) :=
  Config (λ cfg, Settings.materialize_and sid cfg mutate).

Definition set_mode (sid : string) (m : PermissionMode) : Prog (result ApprovalSettings ApprovalError) :=
  settings_of sid (λ base now, mk_settings m (always_allow base) (approved_always base) now).

Definition named_function (f : string) (k : Prog (result ApprovalSettings ApprovalError)) : Prog (result ApprovalSettings ApprovalError) :=
  if is_empty f then Done (Err (InvalidPayload "function_id must be a non-empty string")) else k.

Definition add_always_allow (sid f : string) : Prog (result ApprovalSettings ApprovalError) :=
  named_function f (settings_of sid (λ base now,
    mk_settings (mode base) (Settings.with_grant (always_allow base) f now) (approved_always base) (mode_set_at base))).

Definition remove_always_allow (sid f : string) : Prog (result ApprovalSettings ApprovalError) :=
  settings_of sid (λ base _,
    mk_settings (mode base) (Settings.without_grant (always_allow base) f) (approved_always base) (mode_set_at base)).

Definition approve_always (sid f : string) : Prog (result ApprovalSettings ApprovalError) :=
  named_function f (settings_of sid (λ base now,
    mk_settings (mode base) (always_allow base) (Settings.with_grant (approved_always base) f now) (mode_set_at base))).

Definition clear_settings (sid : string) : Prog (result bool ApprovalError) := Settings.clear sid.

Definition get_settings (sid : string) : Prog (result (ApprovalSettings * SettingsSource) ApprovalError) :=
  check_id "session_id" sid (Config (λ cfg, stored ←? Settings.read_strict sid; Done (Ok (Settings.effective stored cfg)))).

(** *** functions/get_pending.rs and list_pending.rs *)

Definition state_error (what e : string) : ApprovalError := StateUnavailable (what +:+ ": " +:+ e).

Definition get_pending (sid cid : string) : Prog (result (option PendingApprovalRecord) ApprovalError) :=
  check_id "session_id" sid (check_id "function_call_id" cid (
    map_err (state_error "pending record read failed") (Pending.get sid cid))).

Definition DEFAULT_LIMIT : Z := 50.
Definition MAX_LIMIT : Z := 500.

Definition CursorKey : Type := Z * string * string.
Definition sort_key (r : PendingApprovalRecord) : CursorKey := (pending_at r, session_id r, function_call_id r).

(** The order of the keys: time, session, call. *)
Definition key_cmp (a b : CursorKey) : comparison :=
  match (a.1.1 ?= b.1.1)%Z with
  | Eq => match String.compare a.1.2 b.1.2 with Eq => String.compare a.2 b.2 | c => c end
  | c => c
  end.

(** The crate [base64], with the alphabet of URLs and no padding. *)
Context (b64_encode : string -> string) (b64_decode : string -> option string).

Definition encode_cursor (k : CursorKey) : string := b64_encode (file_text (Arr [enc_i64 k.1.1; Str k.1.2; Str k.2])).

Definition decode_cursor (c : string) : result CursorKey ApprovalError :=
  match (raw ← b64_decode c; v ← match read_text raw with Parsed v => Some v | _ => None end;
         match v with Arr [a; b; d] => t ← dec_i64 a; s ← as_str b; i ← as_str d; Some (t, s, i) | _ => None end) with
  | Some k => Ok k
  | None => Err (InvalidPayload "invalid cursor")
  end.

Definition wanted (r : ListPendingRequest) (p : PendingApprovalRecord) : bool :=
  match lq_session r with Some s => bool_decide (s = session_id p) | None => true end
  && match lq_metadata r with Some want => metadata_matches want (session_metadata p) | None => true end.

Definition key_le (a b : PendingApprovalRecord) : Prop := key_cmp (sort_key a) (sort_key b) <> Gt.
#[export] Instance gate_key_le_dec : RelDecision key_le.
Proof. intros a b. unfold key_le. solve_decision. Defined.

Definition page_limit (r : ListPendingRequest) : nat := Z.to_nat (Z.max 1 (Z.min MAX_LIMIT (default DEFAULT_LIMIT (lq_limit r)))).

Definition list_pending (r : ListPendingRequest) : Prog (result ListPendingResponse ApprovalError) :=
  match match lq_cursor r with Some c => match decode_cursor c with Ok k => Ok (Some k) | Err e => Err e end | None => Ok None end with
  | Err e => Done (Err e)
  | Ok after =>
      all ←? map_err (state_error "pending list failed") Pending.list_all;
      let records := merge_sort key_le (filter (λ p, wanted r p = true) all) in
      let upper := match after with Some k => filter (λ p, key_cmp (sort_key p) k = Gt) records | None => records end in
      let page := take (page_limit r) upper in
      Done (Ok (mk_list_response page
        (if page_limit r <? length upper then (λ p, encode_cursor (sort_key p)) <$> last page else None)))
  end.

(** *** functions/purge.rs, on_turn_completed.rs, on_session_deleted.rs *)

Definition resolved_event (r : PendingApprovalRecord) (o : ResolvedOutcome) (reason : option string) (now : Z) : PendingResolvedEvent :=
  mk_resolved (session_id r) (turn_id r) (function_call_id r) (function_id r) o reason (session_metadata r) now.

Fixpoint purge_records (l : list PendingApprovalRecord) (purged : nat) : Prog nat :=
  match l with
  | [] => Done purged
  | p :: l' =>
      r ←% Pending.delete_with_gate (session_id p) (function_call_id p);
      match r with
      | Ok (Some deleted) => Now (λ now, Emit (Resolved (resolved_event deleted OAborted None now)) (purge_records l' (S purged)))
      | _ => purge_records l' purged
      end
  end.

Definition purge_matching (P : PendingApprovalRecord -> bool) : Prog nat :=
  r ←% Pending.list_all;
  match r with Ok l => purge_records (filter (λ p, P p = true) l) 0 | Err _ => Done 0 end.

Definition on_turn_completed (turn : string) : Prog unit :=
  _ ←% purge_matching (λ p, bool_decide (turn_id p = turn));
  _ ←% AccessState.purge_attempts (λ a, bool_decide (AccessState.at_turn a = turn));
  Done tt.

Definition on_session_deleted (sid : string) : Prog unit :=
  _ ←% Settings.clear sid;
  _ ←% AccessState.clear_denied sid;
  _ ←% AccessState.purge_attempts (λ a, bool_decide (AccessState.at_session a = sid));
  _ ←% purge_matching (λ p, bool_decide (session_id p = sid));
  Done tt.

(** *** functions/resolve.rs *)

Definition execute_payload (r : ResolveRequest) (turn : string) (grants : option (list string)) : Value :=
  json_obj ([("session_id", Str (rq_session r)); ("turn_id", Str turn); ("function_call_id", Str (rq_call r)); ("action", Str "execute")]
    ++ opt_field "fs_scope" (λ dirs, json_obj [("grants", enc_str_list dirs)]) grants).

Definition deliver_denial_payload (r : ResolveRequest) (p : PendingApprovalRecord) (reason : option string) : Value :=
  let envelope := user_deny_envelope (function_id p) reason (Some (arguments_excerpt p)) in
  json_obj [("session_id", Str (rq_session r)); ("turn_id", Str (turn_id p)); ("function_call_id", Str (rq_call r));
    ("action", Str "deliver"); ("is_error", Bool true); ("content", Arr (enc_text <$> render_text envelope)); ("details", enc_denial envelope)].

Definition once_payload (r : ResolveRequest) (turn : string) (a : AccessRequest) : Value :=
  execute_payload r turn (Some [requested_root a]).

(** [harness::filesystem_grant]: what it answers is not used. *)
Definition apply_filesystem_grant (sid root : string) : Prog (result unit string) :=
  ask (Remote "harness::filesystem::grant" (json_obj [("session_id", Str sid); ("root", Str root)])) (λ _, tt).

Definition granted_payload (r : ResolveRequest) (turn : string) (a : AccessRequest) (granted : result unit string) : Value :=
  match granted with Ok _ => execute_payload r turn None | Err _ => once_payload r turn a end.

Definition build_grant_allow_payload (r : ResolveRequest) (p : PendingApprovalRecord) : Prog Value :=
  match access_request p with
  | None => Done (execute_payload r (turn_id p) None)
  | Some a =>
      match default Once (access_duration r) with
      | Once => Done (once_payload r (turn_id p) a)
      | ForSession =>
          granted ←% apply_filesystem_grant (rq_session r) (requested_root a); Done (granted_payload r (turn_id p) a granted)
      | Always =>
          granted ←% apply_filesystem_grant (rq_session r) (requested_root a);
          _ ←% ShellConfig.add_host_root (requested_root a);
          Done (granted_payload r (turn_id p) a granted)
      end
  end.

Definition build_grant_deny_payload (r : ResolveRequest) (p : PendingApprovalRecord) : Prog Value :=
  match access_request p with
  | None => Done (deliver_denial_payload r p (nonempty (rq_reason r)))
  | Some a =>
      _ ←% AccessState.add_denied (rq_session r) (requested_root a);
      Done (deliver_denial_payload r p
        (Some (default ("user denied filesystem access to " +:+ requested_root a) (nonempty (rq_reason r)))))
  end.

Definition build_payload (r : ResolveRequest) (p : PendingApprovalRecord) : Prog Value :=
  match decision r, kind p with
  | AllowIt, KFilesystemAccess => build_grant_allow_payload r p
  | AllowIt, KFunction => Done (execute_payload r (turn_id p) None)
  | DenyIt, KFilesystemAccess => build_grant_deny_payload r p
  | DenyIt, KFunction => Done (deliver_denial_payload r p (rq_reason r))
  end.

Definition outcome_of (r : ResolveRequest) : ResolvedOutcome := match decision r with AllowIt => OAllow | DenyIt => ODeny end.
Definition reason_of (r : ResolveRequest) : option string := match decision r with AllowIt => None | DenyIt => rq_reason r end.

(** Behind the harness' answer: the record goes, unless another one took its place. *)
Definition finish (r : ResolveRequest) (p : PendingApprovalRecord) (answer : ResolveResponse) : Prog (result ResolveResponse ApprovalError) :=
  current ←% Pending.get (rq_session r) (rq_call r);
  match current with
  | Err _ => Done (Ok answer)
  | Ok now =>
      if match now with Some next => negb (bool_decide (next = p)) | None => false end then Done (Ok answer)
      else
        deleted ←% Pending.delete_with_gate (rq_session r) (rq_call r);
        match deleted with
        | Ok (Some d) => Now (λ t, Emit (Resolved (resolved_event d (outcome_of r) (reason_of r) t)) (Done (Ok answer)))
        | _ => Done (Ok answer)
        end
  end.

Definition resolve (r : ResolveRequest) : Prog (result ResolveResponse ApprovalError) :=
  check_id "session_id" (rq_session r) (check_id "function_call_id" (rq_call r) (
    found ←? map_err (state_error "pending record read failed") (Pending.get (rq_session r) (rq_call r));
    match found with
    | None => Done (Ok (mk_resolve_response false None))
    | Some p =>
        payload ←% build_payload r p;
        reply ←? map_err (λ e, HarnessUnavailable ("harness::function::resolve failed: " +:+ e))
          (ask (Remote "harness::function::resolve" payload) (λ v, v));
        finish r p (mk_resolve_response true (b ← vget "turn_resumed" reply; as_bool b))
    end)).

(** *** functions/filesystem_access_watch.rs *)

(** [harness::filesystem_grants]. *)
Definition parse_roots (v : Value) : list string :=
  match (x ← vget "roots" v; as_array x) with Some l => omap as_str l | None => [] end.

Definition filesystem_grants (sid : string) : Prog (result (list string) string) :=
  ask (Remote "harness::filesystem::grants" (json_obj [("session_id", Str sid)])) parse_roots.

Definition watch_hold (i : HookInput) (c : HookCall) (a : AccessRequest) : Prog HookOutput :=
  ctx ←% fetch_session_context (hi_session i);
  Now (λ now,
    let record := pending_record i c now ctx KFilesystemAccess (Some a) in
    r ←% Pending.put record;
    match r with
    | Err _ => Done Continue
    | Ok (Some prior) =>
        if match Pending.parse_record prior with Some p => negb (bool_decide (kind p = kind record)) | None => false end
        then Emit (Created record) (Done Hold) else Done Hold
    | Ok None => Emit (Created record) (Done Hold)
    end).

(** Step 7, then the hold. *)
Definition attempt_and_hold (i : HookInput) (c : HookCall) (a : AccessRequest) : Prog HookOutput :=
  Config (λ cfg,
    bumped ←% AccessState.check_and_bump (hi_session i) (hc_id c) (hi_turn i) (grant_reask_limit cfg);
    match bumped with
    | Ok (AccessState.Allowed _) => watch_hold i c a
    | _ => Done Continue
    end).

(** What is found under the call's key: this failure again, the approval being resolved, or a
    record of something else. *)
Definition existing_and_hold (i : HookInput) (c : HookCall) (a : AccessRequest) : Prog HookOutput :=
  existing ←% Pending.get (hi_session i) (hc_id c);
  match existing with
  | Err _ => Done Continue
  | Ok None => attempt_and_hold i c a
  | Ok (Some p) =>
      if bool_decide (access_request p = Some a) then Done Hold
      else if bool_decide (kind p = KFunction) && bool_decide (turn_id p = hi_turn i) && bool_decide (function_id p = hc_function c)
      then attempt_and_hold i c a
      else
        deleted ←% Pending.delete_with_gate (hi_session i) (hc_id c);
        match deleted with Err _ => Done Continue | Ok _ => attempt_and_hold i c a end
  end.

Definition watch_evaluate (i : HookInput) (a : AccessRequest) : Prog HookOutput :=
  match hi_call i with
  | None => Done Continue
  | Some c =>
      if negb (ids_ok (hi_session i) (hc_id c)) then Done Continue
      else
        granted ←% filesystem_grants (hi_session i);
        match granted with
        | Err _ => Done Continue
        | Ok roots =>
            if existsb (λ root, dir_contains root (requested_root a)) roots then Done Continue
            else
              denied ←% AccessState.read_denied (hi_session i);
              if existsb (λ root, dir_contains root (requested_root a)) denied then Done Continue
              else existing_and_hold i c a
        end
  end.

Definition filesystem_access_watch (i : HookInput) : Prog HookOutput :=
  match extract_hint i with
  | NoHint | WorkspaceItself _ => Done Continue
  | Candidate a => watch_evaluate i a
  end.

(** *** The worker *)

Inductive Request : Type :=
| RGate (i : HookInput)
| RWatch (i : HookInput)
| RResolve (r : ResolveRequest)
| REvaluate (r : EvaluateRequest)
| RListPending (r : ListPendingRequest)
| RGetPending (sid cid : string)
| RSetMode (sid : string) (m : PermissionMode)
| RAddAlwaysAllow (sid f : string)
| RRemoveAlwaysAllow (sid f : string)
| RApproveAlways (sid f : string)
| RGetSettings (sid : string)
| RClearSettings (sid : string)
| RSessionDeleted (sid : string)
| RTurnCompleted (turn : string).

Inductive Answer : Type :=
| AHook (o : HookOutput)
| AResolved (r : result ResolveResponse ApprovalError)
| AEvaluated (r : result EvaluateResponse ApprovalError)
| AList (r : result ListPendingResponse ApprovalError)
| APending (r : result (option PendingApprovalRecord) ApprovalError)
| ASettings (r : result ApprovalSettings ApprovalError)
| AEffective (r : result (ApprovalSettings * SettingsSource) ApprovalError)
| ACleared (r : result bool ApprovalError)
| AAck.

Definition answering {A} (f : A -> Answer) (p : Prog A) : Prog Answer := a ←% p; Done (f a).

(** [register_all]: the handler of every function. *)
Definition handle (r : Request) : Prog Answer :=
  match r with
  | RGate i => answering AHook (gate i)
  | RWatch i => answering AHook (filesystem_access_watch i)
  | RResolve r => answering AResolved (resolve r)
  | REvaluate r => answering AEvaluated (evaluate r)
  | RListPending r => answering AList (list_pending r)
  | RGetPending sid cid => answering APending (get_pending sid cid)
  | RSetMode sid m => answering ASettings (set_mode sid m)
  | RAddAlwaysAllow sid f => answering ASettings (add_always_allow sid f)
  | RRemoveAlwaysAllow sid f => answering ASettings (remove_always_allow sid f)
  | RApproveAlways sid f => answering ASettings (approve_always sid f)
  | RGetSettings sid => answering AEffective (get_settings sid)
  | RClearSettings sid => answering ACleared (clear_settings sid)
  | RSessionDeleted sid => answering (λ _, AAck) (on_session_deleted sid)
  | RTurnCompleted turn => answering (λ _, AAck) (on_turn_completed turn)
  end.

End Worker.
End Handlers.
