(* ===== verification/GateService.v ===== *)
(** * The gate on the state worker

    The calls the gate makes of the state worker, answered by the handlers of [StateService] over
    the builtin store of [StateStore]: the promise [GateBus] states is kept. *)

From Stdlib Require Import Ascii ZArith Lia.
From S2P Require Import Prelude Json Codec StateStore StateService GateTypes GatePolicy GateConfig GateBus GateHandlers.
Import Adapter Service GateProg GateState.

Module GateService.

Section Worker.
Context `{SerdeText} (debug_strings : list string -> string) (flush_kv : Kv.KvStore -> result unit string * Kv.KvStore).
Context (Hflush : forall kv, Kv.store (flush_kv kv).2 = Kv.store kv).

#[local] Instance builtin : StateAdapter Kv.KvStore := KvStoreAdapter debug_strings flush_kv.
#[local] Instance builtin_laws : AdapterLaws Kv.KvStore Kv.get := KvStoreAdapter_laws debug_strings flush_kv Hflush.

Definition replied {A} (f : A -> Value) (x : result A string * StateCtx Kv.KvStore) : result Value string * StateCtx Kv.KvStore :=
  (match x.1 with Ok a => Ok (f a) | Err e => Err e end, x.2).

(** The handler of a call, its answer on the wire; what is missing is [null]. *)
Definition serve_state (c : Call) (ctx : StateCtx Kv.KvStore) : option (result Value string * StateCtx Kv.KvStore) :=
  match c with
  | StateGet sc k => Some (replied (default Null) (state_get sc k ctx))
  | StateSet sc k v => Some (replied (λ r, set_reply r.1 r.2) (state_set sc k v ctx))
  | StateDelete sc k => Some (replied (default Null) (state_delete sc k ctx))
  | StateList sc => Some (replied Arr (state_list sc ctx))
  | Remote _ _ => None
  end.

(** The store, scope by scope, holds what the gate's store says. *)
Definition represents (kv : Kv.KvStore) (s : Store) : Prop :=
  (forall sc k, Kv.get kv sc k = s !! (sc, k)) /\ map_Forall (λ _ m, NoDup (obj_keys m)) (Kv.store kv).

Lemma elem_of_get k v (m : Scope) : NoDup (obj_keys m) -> (k, v) ∈ m <-> obj_get k m = Some v.
Proof.
  intros Hm. split; [|apply obj_get_elem]. induction m as [|[k' v'] m IH]; [by intros ?%elem_of_nil|].
  unfold obj_keys in *. rewrite fmap_cons, NoDup_cons in Hm. destruct Hm as [Hn Hm]. cbn [obj_get].
  intros [[= <- <-]|Hin]%elem_of_cons; [by rewrite decide_True|]. rewrite decide_False; [by apply IH|]. intros ->.
  apply Hn, list_elem_of_fmap. by exists (k', v).
Qed.

(** The values of a scope are the values under its keys. *)
Lemma scope_is_listed kv s sc : represents kv s -> Kv.list kv sc ≡ₚ scope_values sc s.
Proof.
  intros [Hget Hnd]. unfold Kv.list, scope_values.
  set (m := match Kv.store kv !! sc with Some m => m | None => [] end).
  assert (NoDup (obj_keys m)) as Hm by (unfold m; destruct (Kv.store kv !! sc) as [x|] eqn:Hx; [by apply (Hnd sc)|constructor]).
  assert (forall k, obj_get k m = s !! (sc, k)) as Hk by (intros k; rewrite <-Hget; unfold Kv.get, m; by destruct (Kv.store kv !! sc)).
  transitivity ((λ p : string * string * Value, p.2) <$> ((λ p : string * Value, (sc, p.1, p.2)) <$> m)).
  { rewrite <-list_fmap_compose. unfold m. by destruct (Kv.store kv !! sc). }
  apply fmap_Permutation, NoDup_Permutation.
  - apply (NoDup_fmap_1 (λ p : string * string * Value, p.1.2)). rewrite <-list_fmap_compose. exact Hm.
  - apply NoDup_filter, NoDup_map_to_list.
  - intros [[sc' k] v]. rewrite list_elem_of_fmap, list_elem_of_filter, elem_of_map_to_list. cbn. split.
    + intros ([k' v'] & [= -> -> ->] & Hin). split; [done|]. by rewrite <-Hk, <-elem_of_get.
    + intros [-> Hs]. exists (k, v). split; [done|]. by rewrite elem_of_get, Hk.
Qed.

Lemma tidy_insert kv i k v : map_Forall (λ _ m, NoDup (obj_keys m)) (Kv.store kv) ->
  map_Forall (λ _ m, NoDup (obj_keys m)) (<[i := im_insert k v (Kv.scope_of kv i)]> (Kv.store kv)).
Proof.
  intros Ht. apply map_Forall_insert_2; [|done]. unfold obj_keys. rewrite Kv.im_keys_insert.
  assert (NoDup (Kv.scope_of kv i).*1) as Hn by (unfold Kv.scope_of; destruct (Kv.store kv !! i) as [m|] eqn:Hm; [by apply (Ht i)|constructor]).
  case_decide as Hk; [done|]. apply NoDup_app. split_and!; [done| |apply NoDup_singleton]. intros x Hx ->%list_elem_of_singleton. done.
Qed.

(** A write and a deletion of the builtin store keep every key once. *)
Lemma tidy_set sc k v kv : map_Forall (λ _ m, NoDup (obj_keys m)) (Kv.store kv) -> map_Forall (λ _ m, NoDup (obj_keys m)) (Kv.store (a_set sc k v kv).2).
Proof. intros Ht. cbn. rewrite Kv.store_mark. by apply tidy_insert. Qed.

Lemma tidy_delete sc k kv : map_Forall (λ _ m, NoDup (obj_keys m)) (Kv.store kv) -> map_Forall (λ _ m, NoDup (obj_keys m)) (Kv.store (a_delete sc k kv).2).
Proof.
  intros Ht. cbn. unfold Kv.remove_shared, Kv.remove_store. destruct (Kv.store kv !! sc) as [m|] eqn:Hm; [|done].
  assert (map_Forall (λ _ m, NoDup (obj_keys m)) (<[sc := im_remove k m]> (Kv.store kv))) as Hr
    by (apply map_Forall_insert_2; [apply NoDup_filter_fmap; by apply (Ht sc)|done]).
  destruct (obj_get k m); cbn; [by rewrite Kv.store_mark|done].
Qed.

Lemma emit_adapter kind sc k old new (c : StateCtx Kv.KvStore) : adapter (emit_change kind sc k old new c) = adapter c.
Proof. unfold emit_change. by repeat case_match. Qed.

(** C9: the state worker keeps its promise: what its handlers do is one of the things that may happen
    to a call, an answer means that the call took effect, an error that it did not, and the store
    goes on to hold what the gate is told it holds. *)
Theorem state_worker_keeps_the_promise c ctx s r ctx' : represents (adapter ctx) s -> serve_state c ctx = Some (r, ctx') ->
  exists s', happens c s r (is_ok r) s' /\ represents (adapter ctx') s'.
Proof.
  intros [Hget Ht]. destruct c as [sc k|sc k v|sc k|sc|f p]; cbn [serve_state]; [..|done]; intros [= <- <-]; unfold replied.
  - exists s. pose proof (law_get (view := Kv.get) sc k (adapter ctx)) as [Hs Ho]. unfold state_get. destruct (reject_reserved_scope ctx sc) as [[]|]; [|split; [apply hap_lost|done]].
    destruct (a_get sc k (adapter ctx)) as [[o|e] a]; cbn [fst snd is_ok] in *; subst a; (split; [|done]); [|apply hap_lost].
    rewrite (Ho o), Hget by done. apply hap_served, ans_get.
  - pose proof (λ a b, law_set (view := Kv.get) sc k v (adapter ctx) a b) as Hset. pose proof (tidy_set sc k v (adapter ctx) Ht) as Htidy. unfold state_set.
    destruct (reject_reserved_scope ctx sc) as [[]|]; [|exists s; split; [apply hap_lost|done]].
    destruct (match max_value_bytes (config ctx) with Some _ => _ | None => _ end); [exists s; split; [apply hap_lost|done]|].
    destruct (a_set sc k v (adapter ctx)) as [[[old new]|e] a]; cbn [fst snd is_ok] in *.
    + exists (<[(sc, k) := v]> s). destruct (Hset sc k) as (-> & -> & _). rewrite Hget. split; [apply hap_served, ans_set|].
      rewrite emit_adapter. cbn. split; [|done]. intros sc' k'. destruct (Hset sc' k') as (_ & _ & ->). rewrite lookup_insert, Hget.
      repeat case_decide; naive_solver.
    + exists s. split; [apply hap_lost|]. by rewrite (Hset sc k).
  - pose proof (law_get (view := Kv.get) sc k (adapter ctx)) as [Hs Ho]. pose proof (λ a b, law_delete (view := Kv.get) sc k (adapter ctx) a b) as Hdel.
    pose proof (tidy_delete sc k (adapter ctx) Ht) as Htidy. unfold state_delete.
    destruct (reject_reserved_scope ctx sc) as [[]|]; [|exists s; split; [apply hap_lost|done]].
    destruct (a_get sc k (adapter ctx)) as [[o|e] a]; cbn [fst snd is_ok] in *; subst a; [|exists s; by split; [apply hap_lost|]].
    destruct (a_delete sc k (adapter ctx)) as [[[]|e] a]; cbn [fst snd is_ok] in *.
    + exists (delete (sc, k) s). rewrite (Ho o), Hget by done. split; [apply hap_served, ans_delete|]. rewrite emit_adapter. cbn. split; [|done].
      intros sc' k'. rewrite (Hdel sc' k'), lookup_delete, Hget. repeat case_decide; naive_solver.
    + exists s. split; [apply hap_lost|]. by rewrite (Hdel sc k).
  - exists s. pose proof (scope_is_listed (adapter ctx) s sc (conj Hget Ht)) as Hl. unfold state_list. destruct (reject_reserved_scope ctx sc) as [[]|]; [|split; [apply hap_lost|done]].
    cbn. split; [|done]. apply hap_served, ans_list, Hl.
Qed.

End Worker.

(** The gate writes a record into an empty store of the state worker. *)
Lemma state_worker_keeps_the_promise_witness :
  let '(r, ctx') := default (Err "", ServiceProperties.sample_ctx) (serve_state (H := SampleText.text) (join ", ") (λ kv, (Ok tt, kv)) (StateSet "approval_pending" "s/c" (Str "x")) ServiceProperties.sample_ctx) in
  r = Ok (set_reply None (Str "x")) /\
  exists s', happens (StateSet "approval_pending" "s/c" (Str "x")) ∅ r (is_ok r) s' /\ represents (adapter ctx') s'.
Proof.
  split; [vm_compute; reflexivity|].
  apply (state_worker_keeps_the_promise (H := SampleText.text) (join ", ") (λ kv, (Ok tt, kv)) (λ _, eq_refl) _ ServiceProperties.sample_ctx); [|vm_compute; reflexivity].
  split; [done|apply map_Forall_empty].
Defined.

End GateService.
