(* ===== verification/GateInbox.v ===== *)
(** * The inbox of the approval gate while handlers interleave

    Module [GateRules]: what a program does whatever its calls are answered.  Module [InboxRules]:
    what every handler keeps to when it writes a pending record, takes one, or announces a
    resolution.  [InboxProperties]: in every interleaving no record is announced resolved more
    often than it was written, and the request handlers announce every record they take. *)

From Stdlib Require Import Ascii ZArith Lia.
From stdpp Require Import relations.
From S2P Require Import Prelude Json Codec JsonText GateTypes GatePolicy GateConfig GateBus GateHandlers.
Import GateWire GateWireRules GateSettings Permissions GateProg GateState GateWorld Pending.

(** ** Programs under any answers *)

Module GateRules.

(** Along every trace of the program. *)
Definition always {A} (p : Prog A) (Q : list Action -> A -> Prop) : Prop := forall l a, trace p l a -> Q l a.

Section Rules.
Context {A : Type}.
Implicit Types (Q : list Action -> A -> Prop).

Lemma always_done a Q : Q [] a -> always (Done a) Q.
Proof. intros Hq l b Ht. inversion Ht; by subst. Qed.

Lemma always_call c (k : result Value string -> Prog A) Q : (forall r, always (k r) (λ l a, Q (Called c r :: l) a)) -> always (Do c k) Q.
Proof. intros Hk l a Ht. inversion Ht; subst. by eapply Hk. Qed.

Lemma always_config (k : WorkerConfig -> Prog A) Q : (forall c, always (k c) Q) -> always (Config k) Q.
Proof. intros Hk l a Ht. inversion Ht; subst. by eapply Hk. Qed.

Lemma always_now (k : Z -> Prog A) Q : (forall z, always (k z) Q) -> always (Now k) Q.
Proof. intros Hk l a Ht. inversion Ht; subst. by eapply Hk. Qed.

Lemma always_emit e (k : Prog A) Q : always k (λ l a, Q (Emitted e :: l) a) -> always (Emit e k) Q.
Proof. intros Hk l a Ht. inversion Ht; subst. by eapply Hk. Qed.

Lemma always_lock (k : Prog A) Q : always k Q -> always (Lock k) Q.
Proof. intros Hk l a Ht. inversion Ht; subst. by eapply Hk. Qed.

Lemma always_unlock (k : Prog A) Q : always k Q -> always (Unlock k) Q.
Proof. intros Hk l a Ht. inversion Ht; subst. by eapply Hk. Qed.

Lemma always_bind {B} (p : Prog B) (f : B -> Prog A) Q :
  always p (λ l1 b, always (f b) (λ l2 a, Q (l1 ++ l2) a)) -> always (bind p f) Q.
Proof. intros Hp l a (l1 & l2 & b & -> & H1 & H2)%trace_bind. by apply (Hp l1 b H1). Qed.

Lemma always_mono (p : Prog A) Q Q' : always p Q -> (forall l a, Q l a -> Q' l a) -> always p Q'.
Proof. intros Hp HQ l a Ht. apply HQ, Hp, Ht. Qed.

End Rules.

Lemma always_ask {B} c (f : Value -> B) (Q : list Action -> result B string -> Prop) :
  (forall v, Q [Called c (Ok v)] (Ok (f v))) -> (forall e, Q [Called c (Err e)] (Err e)) -> always (ask c f) Q.
Proof. intros Ho He. apply always_call. intros [v|e]; by apply always_done. Qed.

Lemma always_try {A B E} (p : Prog (result B E)) (k : B -> Prog (result A E)) (Q : list Action -> result A E -> Prop) :
  always p (λ l1 r, match r with
    | Ok b => always (k b) (λ l2 a, Q (l1 ++ l2) a)
    | Err e => Q l1 (Err e)
    end) -> always (try_ p k) Q.
Proof.
  intros Hp. apply always_bind. eapply always_mono; [exact Hp|]. intros l1 [b|e] Hq; [done|]. apply always_done. by rewrite app_nil_r.
Qed.

Lemma always_map_err {B E F} (f : E -> F) (p : Prog (result B E)) (Q : list Action -> result B F -> Prop) :
  always p (λ l r, Q l match r with Ok b => Ok b | Err e => Err (f e) end) -> always (map_err f p) Q.
Proof. intros Hp. apply always_bind. eapply always_mono; [exact Hp|]. intros l r Hq. apply always_done. by rewrite app_nil_r. Qed.

End GateRules.

(** ** The discipline of the inbox *)

Module InboxRules.

Definition record_key (r : PendingApprovalRecord) : string := pending_key (session_id r) (function_call_id r).
Definition event_key (e : PendingResolvedEvent) : string := pending_key (rv_session e) (rv_call e).

(** The record a served write of [null] took. *)
Definition taken_key (c : Call) (r : result Value string) : option string :=
  match c, r with
  | StateSet sc _ Null, Ok reply => if decide (sc = PENDING_SCOPE) then record_key <$> parse_record (old_value reply) else None
  | _, _ => None
  end.

(** Into the inbox goes [null], or a record under its own key. *)
Definition write_ok (c : Call) : Prop :=
  match c with
  | StateSet sc k v => sc = PENDING_SCOPE -> v = Null \/ exists r : PendingApprovalRecord, v = to_value r /\ k = record_key r
  | _ => True
  end.

(** The program keeps to it, from holding the key [o] of a record it took and has not
    announced: it takes one record at a time, and the announcement is about that record. *)
Fixpoint proper {A} (o : option string) (p : Prog A) (Q : option string -> A -> Prop) : Prop :=
  match p with
  | Done a => Q o a
  | Do c k => write_ok c /\ forall r, (is_Some (taken_key c r) -> o = None) /\
      proper (match taken_key c r with Some t => Some t | None => o end) (k r) Q
  | Config k => forall x, proper o (k x) Q
  | Now k => forall z, proper o (k z) Q
  | Emit (Resolved e) k => o = Some (event_key e) /\ proper None k Q
  | Emit (Created _) k => proper o k Q
  | Lock k | Unlock k => proper o k Q
  end.

Lemma proper_mono {A} o (p : Prog A) (Q Q' : option string -> A -> Prop) :
  proper o p Q -> (forall o a, Q o a -> Q' o a) -> proper o p Q'.
Proof.
  intros Hp HQ. revert o Hp. induction p as [a|c k IH|k IH|k IH|[r|e] k IH|k IH|k IH]; intros o; cbn [proper]; eauto;
    [intros [Hw Hk]; split; [done|]; intros r; split; [apply Hk|apply IH, Hk]|intros [He Hk]; split; [done|]; eauto].
Qed.

Lemma proper_bind {A B} o (p : Prog B) (f : B -> Prog A) Q :
  proper o p (λ o' b, proper o' (f b) Q) -> proper o (bind p f) Q.
Proof.
  revert o. induction p as [a|c k IH|k IH|k IH|[r|e] k IH|k IH|k IH]; intros o; cbn [proper bind]; eauto;
    [intros [Hw Hk]; split; [done|]; intros r; split; [apply Hk|apply IH, Hk]|intros [He Hk]; split; [done|]; eauto].
Qed.

Lemma proper_try {A B E} o (p : Prog (result B E)) (k : B -> Prog (result A E)) Q :
  proper o p (λ o' r, match r with Ok b => proper o' (k b) Q | Err e => Q o' (Err e) end) -> proper o (try_ p k) Q.
Proof. intros Hp. apply proper_bind. eapply proper_mono; [exact Hp|]. by intros o' [b|e]. Qed.

Lemma proper_map_err {B E F} o (f : E -> F) (p : Prog (result B E)) Q :
  proper o p (λ o' r, Q o' match r with Ok b => Ok b | Err e => Err (f e) end) -> proper o (map_err f p) Q.
Proof. intros Hp. by apply proper_bind. Qed.

(** A call that writes nothing into the inbox. *)
Definition quiet (c : Call) : Prop := match c with StateSet sc _ _ => sc <> PENDING_SCOPE | _ => True end.

Lemma quiet_taken c r : quiet c -> taken_key c r = None.
Proof. destruct c as [|sc k v| | |]; try done. intros Hq. cbn in *. destruct v, r; try done. by rewrite decide_False. Qed.

Lemma proper_ask {B} o c (f : Value -> B) (Q : option string -> result B string -> Prop) : quiet c ->
  (forall v, Q o (Ok (f v))) -> (forall e, Q o (Err e)) -> proper o (ask c f) Q.
Proof.
  intros Hq Ho He. cbn [ask proper]. split; [destruct c; cbn in *; done|]. intros r. rewrite quiet_taken by done.
  split; [by intros []|by destruct r].
Qed.

Lemma proper_check_id {A} o label v (k : Prog (result A ApprovalError)) Q :
  proper o k Q -> (forall e, Q o (Err e)) -> proper o (check_id label v k) Q.
Proof. intros Hk He. unfold check_id. destruct (validate_id label v); [done|apply He]. Qed.

(** *** The operations of the inbox *)

Lemma proper_get o sid cid Q : (forall r, Q o r) -> proper o (Pending.get sid cid) Q.
Proof. intros HQ. by apply proper_ask. Qed.

Lemma proper_put o r Q : (forall x, Q o x) -> proper o (put r) Q.
Proof.
  intros HQ. unfold put, ask. cbn [proper]. split; [intros _; right; by exists r|]. intros x.
  change (taken_key _ x) with (None (A := string)). split; [by intros []|by destruct x].
Qed.

Lemma proper_delete_with_gate sid cid (Q : option string -> result (option PendingApprovalRecord) string -> Prop) :
  (forall d, Q (Some (record_key d)) (Ok (Some d))) -> Q None (Ok None) -> (forall e, Q None (Err e)) ->
  proper None (delete_with_gate sid cid) Q.
Proof.
  intros Hs Hn He. unfold delete_with_gate. apply proper_try. cbn [ask proper]. split; [by left|]. intros [reply|e]; [|split; [done|apply He]].
  split; [done|]. cbn [taken_key]. rewrite decide_True by done. apply proper_bind. apply proper_ask; [done|..]; intros _; cbn [proper];
    (destruct (parse_record (old_value reply)); [apply Hs|apply Hn]).
Qed.

(** *** Every handler *)

Ltac quiet_tac :=
  lazymatch goal with
  | |- proper _ (try_ _ _) _ => apply proper_try
  | |- proper _ (map_err _ _) _ => apply proper_map_err
  | |- proper _ (bind _ _) _ => apply proper_bind
  | |- proper _ (ask _ _) _ => apply proper_ask; [done|..]
  | |- proper _ (check_id _ _ _) _ => apply proper_check_id
  | |- proper _ (Pending.get _ _) _ => apply proper_get
  | |- proper _ (put _) _ => apply proper_put
  | |- proper _ (delete_with_gate _ _) _ => apply proper_delete_with_gate
  | |- proper _ (match ?x with _ => _ end) _ => destruct x eqn:?
  | |- proper _ (if ?x then _ else _) _ => destruct x eqn:?
  | |- forall _, _ => intro
  | |- match ?x with _ => _ end => destruct x eqn:?
  | |- proper _ _ _ => progress cbn [proper]
  | |- True => exact I
  end.

Section Handlers.
Import Handlers AccessHint.
Context `{Regex} `{SerdeText} `{SerdeFile} (b64_encode : string -> string) (b64_decode : string -> option string).

(** A handler may end with a record it never announced, or has announced what it took. *)
Definition any {A} : option string -> A -> Prop := λ _ _, True.
Definition settled {A} : option string -> A -> Prop := λ o _, o = None.

Lemma proper_of {A} o (p : Prog A) Q : proper o p settled -> (forall a, Q None a) -> proper o p Q.
Proof. intros Hp HQ. eapply proper_mono; [exact Hp|]. intros o' a ->. apply HQ. Qed.

Lemma proper_context o sid Q : (forall x, Q o x) -> proper o (fetch_session_context sid) Q.
Proof. intros HQ. unfold fetch_session_context. repeat quiet_tac; apply HQ. Qed.

Ltac proper_tac := repeat first [ done | quiet_tac | apply proper_context ].

Lemma proper_gate i : proper None (gate i) settled.
Proof. unfold gate, Settings.read_tolerant, hold. proper_tac. Qed.

Lemma proper_purge l n : proper None (purge_records l n) settled.
Proof.
  revert n. induction l as [|p l IH]; intros n; cbn [purge_records]; [done|]. apply proper_bind, proper_delete_with_gate.
  - intros d. cbn [proper]. intros z. split; [done|apply IH].
  - apply IH.
  - intros e. apply IH.
Qed.

Lemma proper_purge_matching P : proper None (purge_matching P) settled.
Proof. unfold purge_matching, list_all. proper_tac. apply proper_purge. Qed.

Lemma proper_delete_attempts l n : proper None (AccessState.delete_attempts l n) settled.
Proof. revert n. induction l as [|p l IH]; intros n; cbn [AccessState.delete_attempts]; [done|]. proper_tac; apply IH. Qed.

Lemma proper_purge_attempts P : proper None (AccessState.purge_attempts P) settled.
Proof. unfold AccessState.purge_attempts, AccessState.list_attempts. proper_tac. apply proper_delete_attempts. Qed.

Lemma proper_add_host_root o root Q : (forall r, Q o r) -> proper o (ShellConfig.add_host_root root) Q.
Proof. intros HQ. unfold ShellConfig.add_host_root, ShellConfig.shell_config_id. proper_tac; apply HQ. Qed.

Lemma proper_build_payload o r p Q : (forall v, Q o v) -> proper o (build_payload r p) Q.
Proof.
  intros HQ. unfold build_payload, build_grant_allow_payload, build_grant_deny_payload, apply_filesystem_grant, AccessState.add_denied.
  repeat first [ quiet_tac | apply proper_add_host_root | apply HQ ].
Qed.

Lemma proper_finish r p a : proper None (finish r p a) settled.
Proof.
  unfold finish. apply proper_bind, proper_get. intros [[q|]|e]; [case_match|..]; try done;
    apply proper_bind, proper_delete_with_gate; intros; cbn [proper]; try done; intros z; by split.
Qed.

Lemma proper_resolve r : proper None (resolve r) settled.
Proof. unfold resolve. repeat first [ done | quiet_tac | apply proper_build_payload | apply proper_finish ]. Qed.

Lemma proper_attempt_and_hold o i c a : proper o (attempt_and_hold i c a) any.
Proof. unfold attempt_and_hold, AccessState.check_and_bump, watch_hold. proper_tac. Qed.

Lemma proper_watch i : proper None (filesystem_access_watch i) any.
Proof.
  unfold filesystem_access_watch, watch_evaluate, filesystem_grants, AccessState.read_denied, existing_and_hold.
  repeat first [ done | apply proper_attempt_and_hold | quiet_tac ].
Qed.

Definition is_watch (r : Request) : bool := match r with RWatch _ => true | _ => false end.

(** Every handler keeps to the discipline; only the watch takes records it does not announce. *)
Lemma proper_handle r :
  proper None (handle b64_encode b64_decode r) (λ o _, is_watch r = false -> o = None).
Proof.
  destruct r; cbn [handle is_watch]; unfold answering; apply proper_bind;
    [apply proper_of; [apply proper_gate|done]|eapply proper_mono; [apply proper_watch|done]|apply proper_of; [apply proper_resolve|done]|..
    |unfold on_session_deleted|unfold on_turn_completed];
    unfold evaluate, list_pending, list_all, get_pending, set_mode, add_always_allow, remove_always_allow, approve_always, settings_of,
      named_function, get_settings, clear_settings, Settings.materialize_and, Settings.read_strict, Settings.read_tolerant, Settings.clear,
      AccessState.clear_denied;
    repeat first [ done | quiet_tac | apply proper_of; [first [apply proper_purge_attempts | apply proper_purge_matching]|] ].
Qed.

End Handlers.
End InboxRules.

(** ** Properties *)

Module InboxProperties.
Export InboxRules.

(** What a history announced, took out of the inbox and wrote into it, by key. *)
Definition live (s : Store) (k : string) : Prop := exists v r, s !! (PENDING_SCOPE, k) = Some v /\ parse_record v = Some r.

#[export] Instance live_dec s k : base.Decision (live s k).
Proof.
  unfold live. destruct (s !! (PENDING_SCOPE, k)) as [v|]; [|right; by intros (? & ? & [=] & _)].
  destruct (parse_record v) as [r|] eqn:Hr; [left; by exists v, r|right; intros (? & ? & [= <-] & ?); congruence].
Defined.

Definition announced (h : list Moment) : list string :=
  omap (λ m, match m with MEvent _ (Resolved e) => Some (event_key e) | _ => None end) h.

Definition took_record (m : Moment) : option string :=
  match m with
  | MCall _ (StateSet sc k Null) found _ true => if decide (sc = PENDING_SCOPE /\ live found k) then Some k else None
  | _ => None
  end.

Definition wrote_record (m : Moment) : option string :=
  match m with
  | MCall _ (StateSet sc k v) _ _ true =>
      if decide (sc = PENDING_SCOPE) then match parse_record v with Some _ => Some k | None => None end else None
  | _ => None
  end.

(** The handler was told that it took the record. *)
Definition acked_record (m : Moment) : option string :=
  match m with MCall _ _ _ (Ok _) _ => took_record m | _ => None end.

Definition taken (h : list Moment) : list string := omap took_record h.
Definition acked (h : list Moment) : list string := omap acked_record h.
Definition written (h : list Moment) : list string := omap wrote_record h.

(** The moments of some of the handlers, by their numbers. *)
Definition who (m : Moment) : nat := match m with MCall n _ _ _ _ | MEvent n _ => n end.
Definition of_handlers (B : nat -> bool) (h : list Moment) : list Moment := filter (λ m, B (who m) = true) h.

#[global] Arguments of_handlers : simpl never.

Lemma of_handlers_snoc B h m : of_handlers B (h ++ [m]) = of_handlers B h ++ if B (who m) then [m] else [].
Proof. unfold of_handlers. rewrite filter_app, filter_cons, filter_nil. case_decide as Hd; [by rewrite Hd|]. by destruct (B (who m)). Qed.

Lemma of_all_handlers h : of_handlers (λ _, true) h = h.
Proof. unfold of_handlers. induction h as [|m h IH]; [done|]. by rewrite filter_cons, decide_True, IH. Qed.

Definition times (k : string) (l : list string) : nat := length (filter (λ x, x = k) l).

Lemma times_app k l l' : times k (l ++ l') = times k l + times k l'.
Proof. unfold times. by rewrite filter_app, length_app. Qed.

Lemma times_submseteq k l l' : l ⊆+ l' -> times k l <= times k l'.
Proof.
  intros (l2 & Hl)%submseteq_Permutation. assert (times k l' = times k (l ++ l2)) as ->; [|rewrite times_app; lia].
  unfold times. by rewrite Hl.
Qed.

Definition here (P : Prop) `{base.Decision P} : nat := if decide P then 1 else 0.

(** Every record is under its own key. *)
Definition keyed (s : Store) : Prop := forall k v r, s !! (PENDING_SCOPE, k) = Some v -> parse_record v = Some r -> record_key r = k.

Lemma parse_written (r r' : PendingApprovalRecord) : parse_record (to_value r) = Some r' -> record_key r' = record_key r.
Proof.
  change (parse_record (to_value r)) with (from_value (A := PendingApprovalRecord) (to_value r)).
  cbn [from_value to_value PendingApprovalRecord_codec]. codec_tac.
  get_req "session_id" (session_id r); [|done]. get_req "turn_id" (turn_id r); [|done].
  get_req "function_call_id" (function_call_id r); [|done]. intros Hr. unfold mbind, option_bind in Hr. case_all. done.
Qed.

Section Worker.
Context {A : Type} (handler : nat -> Prog A -> Prop) (Q : nat -> option string -> A -> Prop).
Context (Hproper : forall n p, handler n p -> proper None p (Q n)).
(** The handlers that are accounted for. *)
Context (B : nat -> bool).

Definition holding (H : gmap nat string) : list string := (map_to_list (filter (λ p : nat * string, B p.1 = true) H)).*2.

#[local] Arguments holding : simpl never.

(** [H] says which key each handler took a record of and has yet to announce, [D] the keys of
    records that were never announced. *)
Record inv (s0 : Store) (w : World A) (H : gmap nat string) (D : list string) : Prop := {
  inv_proper : forall n p, threads w !! n = Some p -> proper (H !! n) p (Q n);
  inv_dom : forall n, threads w !! n = None -> H !! n = None;
  inv_keyed : keyed (store w);
  inv_acked : announced (of_handlers B (history w)) ++ holding H ++ D ≡ₚ acked (of_handlers B (history w));
  inv_dropped : (forall n o a, B n = true -> Q n o a -> o = None) -> D = [];
  inv_written : forall k, times k (taken (history w)) + here (live (store w) k) <= times k (written (history w)) + here (live s0 k);
}.

Lemma holding_insert (H : gmap nat string) n k : H !! n = None -> holding (<[n := k]> H) ≡ₚ (if B n then [k] else []) ++ holding H.
Proof.
  intros Hn. unfold holding. destruct (B n) eqn:Hb; [rewrite map_filter_insert_True by done|rewrite map_filter_insert_False by (cbn; congruence)].
  - rewrite map_to_list_insert; [done|]. apply map_lookup_filter_None. by left.
  - by rewrite delete_id.
Qed.

Lemma holding_delete (H : gmap nat string) n k : H !! n = Some k -> holding H ≡ₚ (if B n then [k] else []) ++ holding (delete n H).
Proof. intros Hn. rewrite <-(insert_delete_id H n k) at 1 by done. by rewrite holding_insert by (by rewrite lookup_delete_eq). Qed.

(** *** What one call does to the inbox *)

Lemma keyed_after c s r took s' : happens c s r took s' -> write_ok c -> keyed s -> keyed s'.
Proof.
  assert (forall v t, answers c s v t -> write_ok c -> keyed s -> keyed t) as Ha; [|destruct 1; eauto].
  destruct 1 as [| sc k v|sc k| |]; cbn [write_ok]; intros Hw Hk; try done; intros k' v' r'.
  - rewrite lookup_insert. case_decide as Hd; [|apply Hk]. injection Hd as -> ->. intros [= <-] Hp.
    destruct Hw as [->|(q & -> & ->)]; [done|done|]. by apply parse_written.
  - rewrite lookup_delete. case_decide; [done|apply Hk].
Qed.

Lemma old_value_reply old v : old_value (set_reply old v) = default Null old.
Proof. reflexivity. Qed.

(** A handler that is not told of a record was not told that it took one. *)
Lemma taken_key_none n c s r took s' : happens c s r took s' -> taken_key c r = None -> acked_record (MCall n c s r took) = None.
Proof.
  intros Hh Ht. destruct r as [reply|e]; [|by destruct took]. destruct c as [|sc k v| | |]; try by destruct took.
  destruct (decide (v = Null)) as [->|Hv]; [|by destruct v, took].
  cbn [taken_key] in Ht. inversion Hh as [? ? ? ? Ha| |]; subst. cbn [acked_record took_record].
  destruct (decide (sc = PENDING_SCOPE /\ live s k)) as [[-> (v & q & Hv & Hq)]|]; [|done]. rewrite decide_True in Ht by done.
  inversion Ha; subst. rewrite old_value_reply, Hv in Ht. cbn in Ht. by rewrite Hq in Ht.
Qed.

(** The record a served write of [null] answers is the one it took. *)
Lemma taken_key_took n c s r took s' k : happens c s r took s' -> keyed s -> taken_key c r = Some k ->
  acked_record (MCall n c s r took) = Some k.
Proof.
  intros Hh Hk Ht. destruct c as [|sc k' v| | |]; try done. destruct v; try done. destruct r as [reply|e]; [|done]. cbn [taken_key] in Ht.
  case_decide as Hsc; [subst sc|done]. apply fmap_Some in Ht as (t & Hp & ->). inversion Hh as [? ? ? ? Ha| |]; subst.
  inversion Ha; subst. rewrite old_value_reply in Hp.
  destruct (s !! (PENDING_SCOPE, k')) as [v|] eqn:Hs; [|done]. cbn in Hp. cbn [acked_record took_record].
  rewrite decide_True by (split; [done|by exists v, t]). f_equal. symmetry. by apply (Hk k' v t).
Qed.

Lemma times_option k o : times k (option_list o) = here (o = Some k).
Proof. unfold times, here. destruct o as [x|]; cbn; repeat case_decide; naive_solver. Qed.

Lemma live_insert sc k' x s k : live (<[(sc, k') := x]> s) k <->
  (sc = PENDING_SCOPE /\ k' = k /\ is_Some (parse_record x)) \/ (~ (sc = PENDING_SCOPE /\ k' = k) /\ live s k).
Proof.
  unfold live. rewrite lookup_insert. case_decide as Hd; [injection Hd as -> ->|].
  - split; [intros (v & r & [= <-] & Hr); left; by rewrite Hr|]. intros [(_ & _ & r & Hr)|[Hn _]]; [by exists x, r|by destruct Hn].
  - assert (~ (sc = PENDING_SCOPE /\ k' = k)) by (intros [-> ->]; by apply Hd). naive_solver.
Qed.

Lemma here_iff (P P' : Prop) `{base.Decision P} `{base.Decision P'} : (P <-> P') -> here P = here P'.
Proof. unfold here. intros HP. repeat case_decide; tauto. Qed.
Lemma here_no (P : Prop) `{base.Decision P} : ~ P -> here P = 0.
Proof. unfold here. intros HP. by case_decide. Qed.
Lemma here_yes (P : Prop) `{base.Decision P} : P -> here P = 1.
Proof. unfold here. intros HP. by case_decide. Qed.

Lemma took_spec n c s r k : took_record (MCall n c s r true) = Some k <-> c = StateSet PENDING_SCOPE k Null /\ live s k.
Proof.
  destruct c as [|sc k' v| | |]; try (cbn; naive_solver). destruct (decide (v = Null)) as [->|Hv]; [|destruct v; cbn; naive_solver].
  cbn [took_record]. case_decide; naive_solver.
Qed.

Lemma wrote_spec n c s r k : wrote_record (MCall n c s r true) = Some k <-> exists v q, c = StateSet PENDING_SCOPE k v /\ parse_record v = Some q.
Proof.
  destruct c as [|sc k' v| | |]; try (cbn; naive_solver). cbn [wrote_record]. case_decide; [|naive_solver].
  destruct (parse_record v) as [q|] eqn:Hq; [|naive_solver]. split; [intros [= ->]; subst; by exists v, q|naive_solver].
Qed.

Lemma count_served n c s v s' r k : answers c s v s' ->
  times k (option_list (took_record (MCall n c s r true))) + here (live s' k)
  <= times k (option_list (wrote_record (MCall n c s r true))) + here (live s k).
Proof.
  rewrite !times_option. intros Ha. destruct (decide (touches c = Some (PENDING_SCOPE, k))) as [Ht|Ht].
  - inversion Ha as [|sc k' x ? |sc k' ?| |]; subst; try done; injection Ht as -> ->.
    + destruct (parse_record x) as [q|] eqn:Hq.
      * rewrite (here_yes (wrote_record _ = _)) by (apply wrote_spec; by exists x, q).
        rewrite (here_no (took_record _ = _)) by (rewrite took_spec; by intros [[= ->] _]). unfold here. repeat case_decide; lia.
      * rewrite (here_no (live (<[_ := _]> _) _)) by (unfold live; setoid_rewrite lookup_insert_eq; naive_solver).
        unfold here at 1. case_decide as Hd; [apply took_spec in Hd as [_ Hd]; rewrite (here_yes (live s k)) by done; lia|lia].
    + rewrite (here_no (live (delete _ _) _)) by (unfold live; setoid_rewrite lookup_delete_eq; naive_solver).
      rewrite (here_no (took_record _ = _)) by (rewrite took_spec; naive_solver). lia.
  - rewrite (here_no (took_record _ = _)) by (rewrite took_spec; by intros [-> _]).
    rewrite (here_iff (live s' k) (live s k)); [lia|]. unfold live. by rewrite (answers_elsewhere _ _ _ _ _ Ha Ht).
Qed.

Lemma count_call n c s r took s' k : happens c s r took s' ->
  times k (option_list (took_record (MCall n c s r took))) + here (live s' k)
  <= times k (option_list (wrote_record (MCall n c s r took))) + here (live s k).
Proof.
  intros Hh. inversion Hh; subst; [by eapply count_served| |by eapply count_served].
  assert (took_record (MCall n c s' (Err e) false) = None) as -> by (by destruct c as [|? ? []| | |]).
  assert (wrote_record (MCall n c s' (Err e) false) = None) as -> by (by destruct c). done.
Qed.

Lemma announced_app h m : announced (h ++ [m]) = announced h ++ announced [m].
Proof. apply omap_app. Qed.
Lemma omap_snoc {X Y} (f : X -> option Y) h m : omap f (h ++ [m]) = omap f h ++ option_list (f m).
Proof. rewrite omap_app. cbn. by destruct (f m). Qed.

Lemma times_acked k h : times k (acked h) <= times k (taken h).
Proof.
  induction h as [|m h IH]; [done|]. assert (forall f : Moment -> option string, omap f (m :: h) = option_list (f m) ++ omap f h) as Hc.
  { intros f. cbn. by destruct (f m). }
  unfold acked, taken in *. rewrite !Hc, !times_app. apply Nat.add_le_mono; [|exact IH].
  destruct m as [n c s [v|e] took|n e]; [apply Nat.le_refl|apply Nat.le_0_l..].
Qed.

(** One handler makes a step the inbox does not see. *)
Lemma inv_resume s0 w H D n p l : inv s0 w H D -> is_Some (threads w !! n) -> proper (H !! n) p (Q n) ->
  inv s0 (mk_world (store w) (config w) l (<[n := p]> (threads w)) (history w)) H D.
Proof.
  intros [Hp Hd Hk Ht Hdr Hw] Hn Hpp. split; [..|done|done|done|done]; cbn.
  - intros n' p'. rewrite lookup_insert. case_decide; [intros [= <-]; by subst|apply Hp].
  - intros n'. rewrite lookup_insert. case_decide; [done|apply Hd].
Qed.

Lemma inv_call s0 w H D n c k r took s' : inv s0 w H D -> threads w !! n = Some (Do c k) -> happens c (store w) r took s' ->
  exists H', inv s0 (mk_world s' (config w) (host_root_lock w) (<[n := k r]> (threads w)) (history w ++ [MCall n c (store w) r took])) H' D.
Proof.
  intros [Hp Hd Hk Ht Hdr Hw] Hn Hh. pose proof (Hp _ _ Hn) as [Hok Hr]. destruct (Hr r) as [Hfree Hnext]. clear Hr.
  assert (forall k, times k (taken (history w ++ [MCall n c (store w) r took])) + here (live s' k)
    <= times k (written (history w ++ [MCall n c (store w) r took])) + here (live s0 k)) as Hcount.
  { intros x. unfold taken, written. rewrite !omap_snoc, !times_app. pose proof (count_call n c _ r took s' x Hh). specialize (Hw x).
    unfold taken, written in Hw. lia. }
  assert (keyed s') as Hkeyed by (by eapply keyed_after). destruct (taken_key c r) as [t|] eqn:Htk.
  - specialize (Hfree (mk_is_Some _ _ eq_refl)). exists (<[n := t]> H). split; cbn; [..|done| |done|done].
    + intros n' p'. rewrite !lookup_insert. case_decide; [intros [= <-]; by subst|apply Hp].
    + intros n'. rewrite !lookup_insert. case_decide; [done|apply Hd].
    + rewrite !of_handlers_snoc. cbn [who]. rewrite (holding_insert H n t) by done. destruct (B n); [|by rewrite !app_nil_r].
      rewrite announced_app, app_nil_r. unfold acked. rewrite omap_snoc, (taken_key_took n c _ r took s' t) by done. cbn [option_list].
      cbn. rewrite <-Permutation_middle, Ht. by rewrite Permutation_app_comm.
  - exists H. split; cbn; [..|done| |done|done].
    + intros n' p'. rewrite lookup_insert. case_decide; [intros [= <-]; by subst|apply Hp].
    + intros n'. rewrite lookup_insert. case_decide; [done|apply Hd].
    + rewrite !of_handlers_snoc. cbn [who]. destruct (B n); [|by rewrite !app_nil_r].
      rewrite announced_app, app_nil_r. unfold acked. rewrite omap_snoc, (taken_key_none n c _ r took s') by done. by rewrite app_nil_r.
Qed.

Lemma inv_event s0 w H D n e k : inv s0 w H D -> threads w !! n = Some (Emit e k) ->
  exists H', inv s0 (mk_world (store w) (config w) (host_root_lock w) (<[n := k]> (threads w)) (history w ++ [MEvent n e])) H' D.
Proof.
  intros [Hp Hd Hk Ht Hdr Hw] Hn. pose proof (Hp _ _ Hn) as He.
  assert (forall f : Moment -> option string, f (MEvent n e) = None -> omap f (history w ++ [MEvent n e]) = omap f (history w)) as Hsame.
  { intros f Hf. by rewrite omap_snoc, Hf, app_nil_r. }
  destruct e as [q|e]; cbn [proper] in He.
  - exists H. split; cbn; [..|done| |done|].
    + intros n' p'. rewrite lookup_insert. case_decide; [intros [= <-]; by subst|apply Hp].
    + intros n'. rewrite lookup_insert. case_decide; [done|apply Hd].
    + rewrite of_handlers_snoc. cbn [who]. destruct (B n); [|by rewrite app_nil_r]. unfold announced, acked. rewrite !omap_app. cbn. by rewrite !app_nil_r.
    + intros x. unfold taken, written. rewrite !Hsame by done. apply Hw.
  - destruct He as [He Hk']. exists (delete n H). split; cbn; [..|done| |done|].
    + intros n' p'. rewrite lookup_insert, lookup_delete. case_decide; [intros [= <-]; by subst|apply Hp].
    + intros n'. rewrite lookup_insert, lookup_delete. case_decide; [done|apply Hd].
    + rewrite of_handlers_snoc. cbn [who]. rewrite (holding_delete _ _ _ He) in Ht. destruct (B n); [|by rewrite app_nil_r].
      rewrite announced_app. unfold acked. rewrite omap_app. cbn. rewrite app_nil_r, <-app_assoc. exact Ht.
    + intros x. unfold taken, written. rewrite !Hsame by done. apply Hw.
Qed.

Lemma inv_end s0 w H D n a : inv s0 w H D -> threads w !! n = Some (Done a) ->
  exists H' D', inv s0 (mk_world (store w) (config w) (host_root_lock w) (delete n (threads w)) (history w)) H' D'.
Proof.
  intros [Hp Hd Hk Ht Hdr Hw] Hn. pose proof (Hp _ _ Hn) as Hq. cbn [proper] in Hq.
  exists (delete n H), ((if B n then option_list (H !! n) else []) ++ D). split; cbn; [..|done| | |done].
  - intros n' p'. rewrite !lookup_delete. case_decide; [done|apply Hp].
  - intros n'. rewrite !lookup_delete. case_decide; [done|apply Hd].
  - rewrite <-Ht. apply Permutation_app_head. destruct (H !! n) as [k|] eqn:Hk'; [|rewrite delete_id by done; by destruct (B n)].
    rewrite (holding_delete _ _ _ Hk'). destruct (B n); [|done]. cbn. by rewrite Permutation_middle.
  - intros HQ. rewrite (Hdr HQ), app_nil_r. destruct (B n) eqn:Hb; [|done]. by rewrite (HQ _ _ _ Hb Hq).
Qed.

Lemma inv_step s0 w w' H D : inv s0 w H D -> step handler w w' -> exists H' D', inv s0 w' H' D'.
Proof.
  intros Hi Hs. pose proof Hi as [Hp Hd Hk Ht Hdr Hw].
  destruct Hs as [w n p Hh Hn|w n c k r took s' Hn Hc|w n k Hn|w n k z Hn|w n e k Hn|w n k Hn Hl|w n k Hn|w n a Hn|w c].
  - exists H, D. split; [..|done|done|done|done]; cbn.
    + intros n' p'. rewrite lookup_insert. case_decide; [intros [= <-]; subst; rewrite (Hd _ Hn); by apply Hproper|apply Hp].
    + intros n'. rewrite lookup_insert. case_decide; [done|apply Hd].
  - edestruct inv_call as [H' ?]; [done..|]. by exists H', D.
  - exists H, D. apply inv_resume; [done|by eexists|apply (Hp _ _ Hn)].
  - exists H, D. apply inv_resume; [done|by eexists|apply (Hp _ _ Hn)].
  - edestruct inv_event as [H' ?]; [done..|]. by exists H', D.
  - exists H, D. apply inv_resume; [done|by eexists|apply (Hp _ _ Hn)].
  - exists H, D. apply inv_resume; [done|by eexists|apply (Hp _ _ Hn)].
  - by eapply inv_end.
  - exists H, D. by split.
Qed.

Lemma inv_reachable s0 c w : keyed s0 -> reachable handler s0 c w -> exists H D, inv s0 w H D.
Proof.
  intros Hk Hr. assert (exists H D, inv s0 (started s0 c) H D) as Hi by (exists ∅, []; by split).
  unfold reachable in Hr. induction Hr as [|x y z Hxy _ IH]; [done|]. apply IH. destruct Hi as (H & D & Hi). by eapply inv_step.
Qed.

End Worker.

Section Gate.
Context `{Regex} `{SerdeText} `{SerdeFile} (b64_encode : string -> string) (b64_decode : string -> option string).

(** The handlers of the gate. *)
Definition gate_handler (n : nat) (p : Prog Handlers.Answer) : Prop := exists r, p = Handlers.handle b64_encode b64_decode r.

(** C7: a resolution is announced at most once per record: whatever handlers run beside each other,
    decisions, purges, holds and watches of the same call, and whatever calls get lost, the
    announcements for a call are never more than the records written for it, counting the one
    that was there at the start. *)
Theorem resolved_at_most_once_per_record s0 c w k : keyed s0 -> reachable gate_handler s0 c w ->
  times k (announced (history w)) <= times k (written (history w)) + here (live s0 k).
Proof.
  intros Hk Hr. destruct (inv_reachable gate_handler (λ _, any)) with (B := λ _ : nat, true) (s0 := s0) (c := c) (w := w) as (H' & dropped & Hi); [|done|done|].
  - intros n p [r ->]. eapply proper_mono; [apply proper_handle|done].
  - pose proof (inv_written _ _ _ _ _ _ Hi k) as Hw. pose proof (times_acked k (history w)) as Ha.
    assert (times k (announced (history w)) <= times k (acked (history w))); [|lia].
    apply times_submseteq. pose proof (inv_acked _ _ _ _ _ _ Hi) as Hacked. rewrite of_all_handlers in Hacked. rewrite <-Hacked. by apply submseteq_inserts_r.
Qed.

(** The handlers, where the numbers in [W] are given to watches and the others to all else. *)
Definition numbered_handler (W : nat -> bool) (n : nat) (p : Prog Handlers.Answer) : Prop :=
  exists r, is_watch r = W n /\ p = Handlers.handle b64_encode b64_decode r.

(** C19: decisions and purges announce what they take, whatever handlers run beside them, watches
    included: once every handler has ended, the handlers that are not watches have announced each
    record they were told they took out of the inbox exactly once, under its key, and nothing
    else.  (A watch takes a stale record to make room for its own and does not announce it; which
    runs are watches is told by their numbers.) *)
Theorem every_taken_record_is_announced W s0 c w : keyed s0 -> reachable (numbered_handler W) s0 c w -> threads w = ∅ ->
  let others := of_handlers (λ n, negb (W n)) (history w) in announced others ≡ₚ acked others.
Proof.
  intros Hk Hr Hend others.
  destruct (inv_reachable (numbered_handler W) (λ n o _, W n = false -> o = None)) with (B := λ n, negb (W n)) (s0 := s0) (c := c) (w := w)
    as (H' & dropped & Hi); [|done|done|].
  - intros n p (r & <- & ->). apply proper_handle.
  - pose proof (inv_acked _ _ _ _ _ _ Hi) as Hacked. rewrite (inv_dropped _ _ _ _ _ _ Hi) in Hacked.
    2: { intros n o a Hn Ho. apply Ho. by destruct (W n). }
    assert (H' = ∅) as -> by (apply map_empty; intros n; apply (inv_dom _ _ _ _ _ _ Hi); by rewrite Hend).
    unfold others. rewrite <-Hacked. unfold holding. by rewrite map_filter_empty, map_to_list_empty, !app_nil_r.
Qed.

End Gate.
End InboxProperties.
