(* ===== verification/GateProperties.v ===== *)
(** * What the approval gate decides (approval-gate/src/functions/gate.rs, evaluate.rs, resolve.rs)

    Module [RunRules]: runs of composed programs.  [GateProperties]: by what a call passes the
    gate, that a call is held only where a human can see it, that the dry run agrees, and that a
    decision reaches the harness before the inbox forgets the call. *)

From Stdlib Require Import Ascii ZArith Lia.
From S2P Require Import Prelude Json Codec JsonText GateTypes GatePolicy GateConfig GateBus GateHandlers GateInbox.
Import GateWire GateSettings Permissions Redact GateProg GateState GateWorld Pending GateRules Handlers.

(** ** Runs of composed programs *)

Module RunRules.

Lemma run_seq {A B} o (p : Prog B) (f : B -> Prog A) s n :
  run o (bind p f) s n =
  let '(b, s1, l1, n1) := run o p s n in let '(a, s2, l2, n2) := run o (f b) s1 n1 in (a, s2, l1 ++ l2, n2).
Proof.
  revert s n. induction p as [b|c k IH|k IH|k IH|e k IH|k IH|k IH]; intros s n; cbn [bind run].
  - by destruct (run o (f b) s n) as [[[? ?] ?] ?].
  - destruct (perform o n c s) as [r s']. rewrite IH. destruct (run o (k r) s' (S n)) as [[[b s1] l1] n1]. by destruct (run o (f b) s1 n1) as [[[? ?] ?] ?].
  - apply IH.
  - apply IH.
  - rewrite IH. destruct (run o k s n) as [[[b s1] l1] n1]. by destruct (run o (f b) s1 n1) as [[[? ?] ?] ?].
  - apply IH.
  - apply IH.
Qed.

(** What holds along every trace holds of a run. *)
Lemma run_always {A} o (p : Prog A) s n Q : always p Q -> Q (run o p s n).1.2 (run o p s n).1.1.1.
Proof. intros Hp. pose proof (run_trace o p s n) as Ht. destruct (run o p s n) as [[[a s'] l] m]. by apply Hp. Qed.

Lemma run_ask {A} o c (f : Value -> A) s n :
  run o (ask c f) s n = let '(r, s') := perform o n c s in (match r with Ok v => Ok (f v) | Err e => Err e end, s', [Called c r], S n).
Proof. cbn [ask run]. by destruct (perform o n c s). Qed.

(** A read leaves the store alone. *)
Lemma perform_get o n sc k s : perform o n (StateGet sc k) s =
  (match fault o n with Fine => Ok (default Null (s !! (sc, k))) | Lost e | Late e => Err e end, s).
Proof. unfold perform. by destruct (fault o n). Qed.

End RunRules.

(** ** Properties *)

Module GateProperties.
Import RunRules GlobRules PolicyProperties.

Section Gate.
Context `{RegexLaws} `{SerdeText} `{SerdeFile}.

(** The stored settings of the session, or the defaults when they cannot be read. *)
Definition settings_at (o : Oracle) (n : nat) (sid : string) (s : Store) (cfg : WorkerConfig) : ApprovalSettings :=
  (Settings.effective (match fault o n with
    | Fine => Settings.parse_settings (default Null (s !! (Settings.SETTINGS_SCOPE, sid)))
    | _ => None end) cfg).1.

Lemma run_read_tolerant o sid s n : run o (Settings.read_tolerant sid) s n =
  (match fault o n with Fine => Settings.parse_settings (default Null (s !! (Settings.SETTINGS_SCOPE, sid))) | _ => None end, s,
   [Called (StateGet Settings.SETTINGS_SCOPE sid) (perform o n (StateGet Settings.SETTINGS_SCOPE sid) s).1], S n).
Proof. unfold Settings.read_tolerant. rewrite run_seq, run_ask, perform_get. by destruct (fault o n). Qed.

Lemma hold_never_continues i c : always (hold i c) (λ _ o, o <> Continue).
Proof.
  unfold hold. apply always_bind. intros l1 r _. destruct r as [[p|]|e]; [by apply always_done|..|by apply always_done].
  apply always_bind. intros l2 ctx _. apply always_now. intros now. apply always_bind. intros l3 r _.
  destruct r as [[v|]|e]; [by apply always_done|apply always_emit, always_done; done|by apply always_done].
Qed.

(** A grant in a list covers a function. *)
Definition covers (l : list AlwaysAllowEntry) (f : string) : Prop := exists e, e ∈ l /\ wild (ae_function e) f.

Lemma list_matches_spec l f : list_matches l f = true <-> covers l f.
Proof.
  unfold list_matches, covers. rewrite existsb_exists. setoid_rewrite glob_match_spec. by setoid_rewrite list_elem_of_In.
Qed.

(** The call needs nobody: the session is in full mode, the function was approved for good, it
    is on the allow list of a session in auto mode, or the first rule that applies allows it. *)
Definition let_through (eff : ApprovalSettings) (rules : list CompiledRule) (f : string) (args : Value) : Prop :=
  mode eff = Full \/ covers (approved_always eff) f \/ (mode eff = Auto /\ covers (always_allow eff) f) \/
  exists before r after, rules = before ++ r :: after /\ Forall (λ r, ~ applies r f args (mode eff)) before /\
    applies r f args (mode eff) /\ rule_act r = ActAllow.

Lemma pre_policy_spec eff f : pre_policy_allow eff f = true <->
  mode eff = Full \/ covers (approved_always eff) f \/ (mode eff = Auto /\ covers (always_allow eff) f).
Proof.
  unfold pre_policy_allow. rewrite !orb_true_iff, andb_true_iff, !bool_decide_eq_true, !list_matches_spec. tauto.
Qed.

Lemma first_applicable_unique (rules : list CompiledRule) f args m before r after before' r' after' :
  rules = before ++ r :: after -> Forall (λ r, ~ applies r f args m) before -> applies r f args m ->
  rules = before' ++ r' :: after' -> Forall (λ r, ~ applies r f args m) before' -> applies r' f args m -> r = r'.
Proof.
  revert rules before'. induction before as [|x before IH]; intros rules before' -> Hb Hr Hs Hb' Hr'.
  - destruct before' as [|y before']; [by injection Hs|]. injection Hs as <- _. by apply Forall_cons in Hb' as [? _].
  - destruct before' as [|y before']; [injection Hs as <- _; by apply Forall_cons in Hb as [? _]|].
    apply Forall_cons in Hb as [_ Hb]. apply Forall_cons in Hb' as [_ Hb']. injection Hs as <- Hs. by eapply IH.
Qed.

Lemma check_allows (rules : list CompiledRule) f args m :
  (exists id, check rules f args m = DAllow id) <->
  exists before r after, rules = before ++ r :: after /\ Forall (λ r, ~ applies r f args m) before /\
    applies r f args m /\ rule_act r = ActAllow.
Proof.
  pose proof (check_first rules f args m) as Hc. split.
  - intros [id Hd]. rewrite Hd in Hc. destruct Hc as (b & r & a & ? & ? & ? & ? & _). by exists b, r, a.
  - intros (b & r & a & Hs & Hb & Hr & Ha). destruct (check rules f args m) as [id|id c|]; [by exists id|..].
    + destruct Hc as (b' & r' & a' & Hs' & Hb' & Hr' & Ha' & _). assert (r = r') as <- by (by eapply first_applicable_unique). congruence.
    + rewrite Hs, Forall_app, Forall_cons in Hc. tauto.
Qed.

Lemma let_through_spec eff rules f args : let_through eff rules f args <->
  pre_policy_allow eff f = true \/ exists id, check rules f args (mode eff) = DAllow id.
Proof. unfold let_through. rewrite pre_policy_spec, check_allows. tauto. Qed.

(** C10: a call passes the gate exactly when the policy lets it through: it is no function that is for
    humans only, its ids are well formed, and the settings of its session, or the defaults when
    they cannot be read, or the rules allow it.  Nothing that fails lets a call through. *)
Theorem gate_passes_only_by_policy o i s n :
  (run o (gate i) s n).1.1.1 = Continue <->
  exists c, hi_call i = Some c /\ is_human_only (hc_function c) = false /\ ids_ok (hi_session i) (hc_id c) = true /\
    let_through (settings_at o (S n) (hi_session i) s (config_at o n)) (permissions (config_at o n)) (hc_function c) (hc_arguments c).
Proof.
  unfold gate. destruct (hi_call i) as [c|]; [|split; [done|by intros (? & ? & _)]].
  destruct (is_human_only (hc_function c)) eqn:Hh; [split; [done|intros (? & [= <-] & ? & _); congruence]|].
  destruct (ids_ok (hi_session i) (hc_id c)) eqn:Hi; cbn [negb]; [|split; [done|intros (? & [= <-] & _ & ? & _); congruence]].
  cbn [run]. rewrite run_seq, run_read_tolerant. unfold settings_at. set (eff := (Settings.effective _ _).1).
  transitivity (let_through eff (permissions (config_at o n)) (hc_function c) (hc_arguments c)); [|naive_solver].
  rewrite let_through_spec.
  destruct (pre_policy_allow eff (hc_function c)); [cbn; tauto|].
  destruct (check _ _ _ _) as [id|id m|] eqn:Hd; cbn [run fst snd].
  - split; [intros _; right; by exists id|done].
  - split; [done|by intros [?|[? ?]]].
  - pose proof (run_always o (hold i c) s (S (S n)) _ (hold_never_continues i c)) as Hn.
    destruct (run o (hold i c) s (S (S n))) as [[[a s'] l] m]. cbn in *. split; [done|by intros [?|[? ?]]].
Qed.

(** *** Held calls *)

(** The gate met a record of the call in the inbox, or wrote one that shows the call. *)
Definition shown (i : HookInput) (c : HookCall) (l : list Action) : Prop :=
  (exists v p, Called (StateGet PENDING_SCOPE (pending_key (hi_session i) (hc_id c))) (Ok v) ∈ l /\ parse_record v = Some p) \/
  (exists p reply, Called (StateSet PENDING_SCOPE (pending_key (hi_session i) (hc_id c)) (to_value p)) (Ok reply) ∈ l /\
     session_id p = hi_session i /\ turn_id p = hi_turn i /\ function_call_id p = hc_id c /\ function_id p = hc_function c /\
     arguments_excerpt p = redact (hc_arguments c)).

(** A read or write of the inbox that fails means a refusal. *)
Definition inbox_failure (a : Action) : Prop :=
  exists e, (exists k, a = Called (StateGet PENDING_SCOPE k) (Err e)) \/ (exists k v, a = Called (StateSet PENDING_SCOPE k v) (Err e)).
Definition refuses_blind (l : list Action) (o : HookOutput) : Prop := forall a, a ∈ l -> inbox_failure a -> exists reason, o = Deny reason.

Lemma refuses_cons a l o : ~ inbox_failure a -> refuses_blind l o -> refuses_blind (a :: l) o.
Proof. intros Ha Hl b [->|Hb]%elem_of_cons Hf; [done|by apply (Hl b)]. Qed.

Lemma refuses_nil o : refuses_blind [] o.
Proof. intros a Ha. by apply elem_of_nil in Ha. Qed.

Lemma refuses_deny l reason : refuses_blind l (Deny reason).
Proof. intros a _ _. by eexists. Qed.

Ltac no_failure := by intros (? & [(? & Hx)|(? & ? & Hx)]).

(** An announcement of a record follows the write that put it where nothing was. *)
Definition announced_once_written (l : list Action) : Prop := forall p, Emitted (Created p) ∈ l -> exists reply,
  Called (StateSet PENDING_SCOPE (pending_key (session_id p) (function_call_id p)) (to_value p)) (Ok reply) ∈ l /\ is_null (old_value reply) = true.

Lemma always_get (sid cid : string) (Q : list Action -> result (option PendingApprovalRecord) string -> Prop) :
  (forall v, Q [Called (StateGet PENDING_SCOPE (pending_key sid cid)) (Ok v)] (Ok (parse_record v))) ->
  (forall e, Q [Called (StateGet PENDING_SCOPE (pending_key sid cid)) (Err e)] (Err e)) -> always (Pending.get sid cid) Q.
Proof. apply always_ask. Qed.

Lemma always_context sid (Q : list Action -> option string * option string * option JsonMap -> Prop) :
  (forall r ctx, Q [Called (Remote "session::get" (json_obj [("session_id", Str sid)])) r] ctx) -> always (fetch_session_context sid) Q.
Proof. intros HQ. apply always_bind, always_ask; intros; apply always_done; apply HQ. Qed.

Lemma always_put p (Q : list Action -> result (option Value) string -> Prop) :
  (forall reply, Q [Called (StateSet PENDING_SCOPE (pending_key (session_id p) (function_call_id p)) (to_value p)) (Ok reply)]
    (Ok (let old := old_value reply in if is_null old then None else Some old))) ->
  (forall e, Q [Called (StateSet PENDING_SCOPE (pending_key (session_id p) (function_call_id p)) (to_value p)) (Err e)] (Err e)) ->
  always (put p) Q.
Proof. apply always_ask. Qed.

(** What a run of the gate makes of a call that it holds, refuses or lets pass. *)
Definition sound_hold (i : HookInput) (c : HookCall) (l : list Action) (o : HookOutput) : Prop :=
  (o = Hold -> shown i c l) /\ refuses_blind l o /\ announced_once_written l.

Lemma not_announced l : (forall p, Emitted (Created p) ∉ l) -> announced_once_written l.
Proof. intros Hn p Hp. by apply Hn in Hp. Qed.

Lemma sound_refusal i c l reason : (forall p, Emitted (Created p) ∉ l) -> sound_hold i c l (Deny reason).
Proof. intros Hn. split_and!; [done|apply refuses_deny|by apply not_announced]. Qed.

Lemma sound_pass i c l : (forall p, Emitted (Created p) ∉ l) -> (forall a, a ∈ l -> ~ inbox_failure a) -> sound_hold i c l Continue.
Proof. intros Hn Hf. split_and!; [done| |by apply not_announced]. intros a Ha Hx. by destruct (Hf a Ha). Qed.

Lemma hold_shows i c : always (hold i c) (sound_hold i c).
Proof.
  unfold hold. apply always_bind, always_get.
  2:{ intros e. apply always_done, sound_refusal. set_solver. }
  intros v. destruct (parse_record v) as [p|] eqn:Hv.
  { apply always_done. split_and!; [intros _; left; exists v, p; split; [set_solver|done]| |apply not_announced; set_solver].
    apply refuses_cons; [no_failure|apply refuses_nil]. }
  apply always_bind, always_context. intros r ctx. apply always_now. intros now. apply always_bind, always_put.
  - intros reply. cbv zeta. set (p := pending_record i c now ctx KFunction None).
    assert (forall l, Called (StateSet PENDING_SCOPE (pending_key (session_id p) (function_call_id p)) (to_value p)) (Ok reply) ∈ l -> shown i c l) as Hshown
      by (intros l Hl; right; by exists p, reply).
    destruct (is_null (old_value reply)) eqn:Ho; [apply always_emit|]; apply always_done; cbn [app]; (split_and!;
      [intros _; apply Hshown; set_solver|repeat (apply refuses_cons; [no_failure|]); apply refuses_nil|]).
    + intros q Hq. exists reply. split; [|done].
      assert (q = p) as -> by (repeat (apply elem_of_cons in Hq as [Hq|Hq]; [by simplify_eq|]); by apply elem_of_nil in Hq). set_solver.
    + apply not_announced. set_solver.
  - intros e. apply always_done, sound_refusal. set_solver.
Qed.

(** C17: a call is held only where a human can see it: the inbox had a record of it, or took one that
    names its session, turn, call and function and shows its arguments redacted.  When a read or
    a write of the inbox fails, the call is refused: it is neither held nor let through.  What is
    announced was written before, into an empty place. *)
Theorem gate_never_holds_blind i :
  always (gate i) (λ l o, (o = Hold -> exists c, hi_call i = Some c /\ shown i c l) /\ refuses_blind l o /\ announced_once_written l).
Proof.
  assert (forall reason, always (Done (Deny reason)) (λ l o, (o = Hold -> exists c, hi_call i = Some c /\ shown i c l) /\ refuses_blind l o /\ announced_once_written l)) as Hnil.
  { intros reason. apply always_done. split_and!; [done|apply refuses_deny|apply not_announced; intros p; apply not_elem_of_nil]. }
  unfold gate. destruct (hi_call i) as [c|]; [|apply Hnil].
  destruct (is_human_only _); [apply Hnil|]. destruct (negb _); [apply Hnil|].
  apply always_config. intros cfg. apply always_bind, always_bind.
  set (sound := λ l o, (o = Hold -> exists c', Some c = Some c' /\ shown i c' l) /\ refuses_blind l o /\ announced_once_written l).
  assert (forall l o, sound_hold i c l o -> sound l o) as Hsound by (intros l o (H1' & H2' & H3'); split_and!; eauto).
  assert (forall r stored, always (let eff := (Settings.effective stored cfg).1 in
    if pre_policy_allow eff (hc_function c) then Done Continue
    else match check (permissions cfg) (hc_function c) (hc_arguments c) (mode eff) with
         | DAllow _ => Done Continue
         | DDeny rule m => Done (Deny (de_reason (Denial.permissions_deny_envelope (hc_function c) rule m (hc_arguments c))))
         | DNeedsApproval => hold i c
         end) (λ l o, sound (Called (StateGet Settings.SETTINGS_SCOPE (hi_session i)) r :: l) o)) as Hrest.
  { intros r stored. cbv zeta. set (a := Called _ r). assert (~ inbox_failure a) as Ha by no_failure.
    assert (sound [a] Continue) as Hpass by (apply Hsound, sound_pass; [set_solver|by intros b ->%list_elem_of_singleton]).
    destruct (pre_policy_allow _ _); [by apply always_done|].
    destruct (check _ _ _ _); [by apply always_done|apply always_done, Hsound, sound_refusal; set_solver|].
    eapply always_mono; [apply hold_shows|]. intros l o (Hs & Hr & Hw). split_and!.
    - intros Ho. exists c. split; [done|]. destruct (Hs Ho) as [(v & p & Hv & Hp)|(p & reply & Hp & Hreply)];
        [left; exists v, p|right; exists p, reply]; (split; [by apply list_elem_of_further|done]).
    - by apply refuses_cons.
    - intros p [Hp|Hp]%elem_of_cons; [done|]. destruct (Hw p Hp) as (reply & Hreply & Ho). exists reply. split; [by apply list_elem_of_further|done]. }
  apply always_ask; intros; apply always_done; apply Hrest.
Qed.

(** *** The dry run *)


(** *** Decisions *)

Definition resolve_function : string := "harness::function::resolve".

(** What the harness was asked to do with calls, and what it said. *)
Definition deliveries (l : list Action) : list (Value * result Value string) :=
  omap (λ a, match a with Called (Remote f p) r => if decide (f = resolve_function) then Some (p, r) else None | _ => None end) l.

(** Calls that take a record out of the inbox. *)
Definition clears (a : Action) : Prop :=
  match a with
  | Called (StateSet sc _ _) _ | Called (StateDelete sc _) _ => sc = PENDING_SCOPE
  | _ => False
  end.

Definition action_of (d : ResolveDecision) : string := match d with AllowIt => "execute" | DenyIt => "deliver" end.

(** The harness is told to run the call of the record when it is allowed, to deliver a refusal when
    not. *)
Definition tells (r : ResolveRequest) (p : PendingApprovalRecord) (payload : Value) : Prop :=
  vget "session_id" payload = Some (Str (rq_session r)) /\ vget "function_call_id" payload = Some (Str (rq_call r)) /\
  vget "turn_id" payload = Some (Str (turn_id p)) /\
  vget "action" payload = Some (Str (action_of (decision r))).

(** Nothing said to the harness, nothing taken out of the inbox. *)
Definition quiet (l : list Action) : Prop := deliveries l = [] /\ Forall (λ a, ~ clears a) l.

Lemma deliveries_app l l' : deliveries (l ++ l') = deliveries l ++ deliveries l'.
Proof. apply omap_app. Qed.

Lemma quiet_app l l' : quiet l -> quiet l' -> quiet (l ++ l').
Proof. intros [K1 K2] [K3 K4]. split; [by rewrite deliveries_app, K1, K3|by apply Forall_app]. Qed.

Lemma quiet_nil : quiet [].
Proof. by split; [|constructor]. Qed.

Lemma always_quiet_ask {A} c (f : Value -> A) :
  match c with Remote g _ => g <> resolve_function | StateSet sc _ _ | StateDelete sc _ => sc <> PENDING_SCOPE | _ => True end ->
  always (ask c f) (λ l _, quiet l).
Proof.
  intros Hc. apply always_ask; intros; (split; [|apply Forall_singleton; destruct c; cbn in *; tauto]); destruct c; try done; cbn; by rewrite decide_False.
Qed.

Lemma always_quiet_bind {A B} (p : Prog B) (f : B -> Prog A) :
  always p (λ l _, quiet l) -> (forall b, always (f b) (λ l _, quiet l)) -> always (bind p f) (λ l _, quiet l).
Proof.
  intros Hp Hf. apply always_bind. eapply always_mono; [exact Hp|]. intros l1 b K1. eapply always_mono; [apply Hf|].
  intros l2 a K2. by apply quiet_app.
Qed.

Lemma execute_tells r p grants : decision r = AllowIt -> tells r p (execute_payload r (turn_id p) grants).
Proof. intros Hd. unfold tells. rewrite Hd. destruct grants; repeat split. Qed.

Lemma denial_tells r p reason : decision r = DenyIt -> tells r p (deliver_denial_payload r p reason).
Proof. intros Hd. unfold tells. rewrite Hd. repeat split. Qed.

Lemma granted_tells r p a g : decision r = AllowIt -> tells r p (granted_payload r (turn_id p) a g).
Proof. intros Hd. destruct g; [exact (execute_tells r p None Hd)|exact (execute_tells r p (Some [requested_root a]) Hd)]. Qed.

Lemma add_host_root_quiet root : always (ShellConfig.add_host_root root) (λ l _, quiet l).
Proof.
  unfold ShellConfig.add_host_root, ShellConfig.shell_config_id, try_. apply always_lock, always_quiet_bind; [|intros; apply always_unlock, always_done, quiet_nil].
  apply always_quiet_bind.
  - apply always_quiet_bind; [by apply always_quiet_ask|]. intros [v|e]; apply always_done, quiet_nil.
  - intros [i|e]; [|apply always_done, quiet_nil]. apply always_quiet_bind; [by apply always_quiet_ask|].
    intros [v|e]; [|apply always_done, quiet_nil]. case_match; [by apply always_quiet_ask|apply always_done, quiet_nil].
Qed.

Lemma build_payload_tells r p : always (build_payload r p) (λ l v, quiet l /\ tells r p v).
Proof.
  assert (forall (A : Type) (q : Prog A) (f : A -> Prog Value), always q (λ l _, quiet l) ->
    (forall a, always (f a) (λ l v, quiet l /\ tells r p v)) -> always (bind q f) (λ l v, quiet l /\ tells r p v)) as Hseq.
  { intros A q f Hq Hf. apply always_bind. eapply always_mono; [exact Hq|]. intros l a K1. eapply always_mono; [apply Hf|].
    intros l' v [K2 Hv]. split; [by apply quiet_app|done]. }
  assert (forall v, tells r p v -> always (Done v) (λ l v, quiet l /\ tells r p v)) as Hdone by (intros v Hv; apply always_done; split; [apply quiet_nil|done]).
  unfold build_payload. destruct (decision r) eqn:Hd, (kind p).
  - apply Hdone. exact (execute_tells r p None Hd).
  - unfold build_grant_allow_payload. destruct (access_request p) as [a|]; [|apply Hdone; exact (execute_tells r p None Hd)].
    destruct (default Once _); [apply Hdone; exact (execute_tells r p (Some [requested_root a]) Hd)|..].
    + apply Hseq; [by apply always_quiet_ask|]. intros g. apply Hdone. exact (granted_tells r p a g Hd).
    + apply Hseq; [by apply always_quiet_ask|]. intros g. apply Hseq; [apply add_host_root_quiet|]. intros _. apply Hdone. exact (granted_tells r p a g Hd).
  - apply Hdone. exact (denial_tells r p (rq_reason r) Hd).
  - unfold build_grant_deny_payload. destruct (access_request p) as [a|]; [|apply Hdone; exact (denial_tells r p (Denial.nonempty (rq_reason r)) Hd)].
    apply Hseq; [|intros _; apply Hdone; exact (denial_tells r p _ Hd)]. unfold AccessState.add_denied, try_. apply always_quiet_bind; [by apply always_quiet_ask|].
    intros [l|e]; [by apply always_quiet_ask|apply always_done, quiet_nil].
Qed.

Definition inbox_call (r : ResolveRequest) : Call := StateGet PENDING_SCOPE (pending_key (rq_session r) (rq_call r)).

(** Behind the answer of the harness: the record is looked up again, and unless the look-up fails
    or another record took its place, it is taken out. *)
Definition forgets (r : ResolveRequest) (p : PendingApprovalRecord) (after : list Action) : Prop :=
  exists now rest, after = Called (inbox_call r) now :: rest /\
    match now with
    | Err _ => rest = []
    | Ok v =>
        match parse_record v with
        | Some q => if decide (q = p) then exists reply rest', rest = Called (StateSet PENDING_SCOPE (pending_key (rq_session r) (rq_call r)) Null) reply :: rest' else rest = []
        | None => exists reply rest', rest = Called (StateSet PENDING_SCOPE (pending_key (rq_session r) (rq_call r)) Null) reply :: rest'
        end
    end.

Lemma delete_starts sid cid : always (delete_with_gate sid cid) (λ l _, deliveries l = [] /\
  exists reply rest, l = Called (StateSet PENDING_SCOPE (pending_key sid cid) Null) reply :: rest).
Proof.
  unfold delete_with_gate. apply always_try, always_ask; [|intros e; split; [done|by eexists _, _]]. intros reply.
  apply always_bind, always_ask; intros; apply always_done; (split; [done|by eexists _, _]).
Qed.

Lemma finish_answers r p a : always (finish r p a) (λ l x, x = Ok a /\ deliveries l = [] /\ forgets r p l).
Proof.
  unfold finish. apply always_bind, always_get; [|intros e; apply always_done; split_and!; [done|done|by exists (Err e), []]]. intros v.
  set (first := Called _ (Ok v)).
  assert (forall rest, (exists reply rest', rest = Called (StateSet PENDING_SCOPE (pending_key (rq_session r) (rq_call r)) Null) reply :: rest') ->
    match parse_record v with Some q => q = p | None => True end -> forgets r p (first :: rest)) as Hforget.
  { intros rest Hr Hq. exists (Ok v), rest. split; [done|]. destruct (parse_record v) as [q|]; [|done]. by rewrite decide_True. }
  destruct (match parse_record v with Some _ => _ | None => _ end) eqn:Hnext.
  { apply always_done. split_and!; [done|done|]. exists (Ok v), []. split; [done|]. destruct (parse_record v) as [q|]; [|done].
    apply negb_true_iff, bool_decide_eq_false in Hnext. by rewrite decide_False. }
  assert (match parse_record v with Some q => q = p | None => True end) as Hq.
  { destruct (parse_record v) as [q|]; [|done]. by apply negb_false_iff, bool_decide_eq_true in Hnext. }
  apply always_bind. eapply always_mono; [apply delete_starts|]. intros l d (Hd & reply & rest & ->).
  assert (forall l2, deliveries l2 = [] -> deliveries ([first] ++ (Called (StateSet PENDING_SCOPE (pending_key (rq_session r) (rq_call r)) Null) reply :: rest) ++ l2) = [] /\
    forgets r p ([first] ++ (Called (StateSet PENDING_SCOPE (pending_key (rq_session r) (rq_call r)) Null) reply :: rest) ++ l2)) as Hend.
  { intros l2 H2'. split; [|apply Hforget; [by eexists _, _|done]]. rewrite !deliveries_app. by rewrite H2', Hd. }
  destruct d as [[d|]|e]; [apply always_now; intros t; apply always_emit|..]; apply always_done; (split; [done|]); by apply Hend.
Qed.

(** What a run of [approval::resolve] does, by the first read of the record. *)
Definition resolved_properly (r : ResolveRequest) (l : list Action) (a : result ResolveResponse ApprovalError) : Prop :=
  (l = [] /\ ids_ok (rq_session r) (rq_call r) = false /\ exists e, a = Err e) \/
  exists found rest, l = Called (inbox_call r) found :: rest /\
    match found with
    | Err e => rest = [] /\ a = Err (state_error "pending record read failed" e)
    | Ok v =>
        match parse_record v with
        | None => rest = [] /\ a = Ok (mk_resolve_response false None)
        | Some p =>
            exists before payload reply after, rest = before ++ Called (Remote resolve_function payload) reply :: after /\
              quiet before /\ tells r p payload /\
              match reply with
              | Ok x => a = Ok (mk_resolve_response true (b ← vget "turn_resumed" x; as_bool b)%W) /\
                  deliveries after = [] /\ forgets r p after
              | Err m => a = Err (HarnessUnavailable ("harness::function::resolve failed: " +:+ m)) /\ after = []
              end
        end
    end.

(** C8: a decision reaches the harness before the inbox forgets the call.  The first read of the record
    settles what is done: ids that are malformed, or a read that fails, are an error and nothing
    is done; a call without a record is answered as not resolved, and nothing is said to the
    harness or written; for a recorded call the harness is told once, to run the call of that
    record or to deliver the refusal, and nothing is taken out of the inbox before it answers;
    when it cannot be reached, the decision is an error and the record stays; when it answers,
    the decision is resolved with what it said of the turn, and the record is taken out unless
    another one is in its place by then or it cannot be read again. *)
Theorem decision_reaches_the_harness_first r : always (resolve r) (resolved_properly r).
Proof.
  unfold resolve, check_id, resolved_properly, ids_ok. destruct (validate_id "session_id" _); [|apply always_done; left; split_and!; [done|done|by eexists]].
  destruct (validate_id "function_call_id" _); [|apply always_done; left; split_and!; [done|done|by eexists]].
  apply always_try, always_map_err, always_get; [|intros e; right; by exists (Err e), []].
  intros v. destruct (parse_record v) as [p|] eqn:Hp; [|apply always_done; right; exists (Ok v), []; by rewrite Hp].
  apply always_bind. eapply always_mono; [apply build_payload_tells|]. intros before payload [Hq Ht].
  apply always_try, always_map_err, always_ask.
  - intros reply. eapply always_mono; [apply finish_answers|]. intros after x (-> & Ha & Hf).
    right. exists (Ok v), (before ++ Called (Remote resolve_function payload) (Ok reply) :: after). split; [done|]. rewrite Hp.
    by exists before, payload, (Ok reply), after.
  - intros m. right. exists (Ok v), (before ++ [Called (Remote resolve_function payload) (Err m)]). split; [done|]. rewrite Hp.
    by exists before, payload, (Err m), [].
Qed.

End Gate.
End GateProperties.
