(* ===== verification/GateStores.v ===== *)
(** * What the approval gate remembers, function by function (approval-gate/src/pending.rs, functions/purge.rs, on_turn_completed.rs, on_session_deleted.rs, list_pending.rs)

    Module [ScopeRules]: the records of a scope, each under its own key.  [PurgeProperties]: what
    the end of a turn and the deletion of a session remove, and what they announce.
    [ListProperties]: the pages of [approval::list-pending] joined together. *)

From Stdlib Require Import Ascii ZArith Lia.
From S2P Require Import Prelude Json Codec JsonText Paging GateTypes GatePolicy GateConfig GateBus GateHandlers GateInbox GateProperties.
Import GateWire GateWireRules GateSettings Permissions GateProg GateState GateWorld Pending Handlers InboxRules InboxProperties RunRules.

Local Open Scope gate_scope.

(** ** The records of a scope *)

Module ScopeRules.

Section Scope.
Context {X : Type} (sc : string) (parse : Value -> option X) (key : X -> string).

Definition keyed_in (s : Store) : Prop := forall k v x, s !! (sc, k) = Some v -> parse v = Some x -> key x = k.

Definition records (s : Store) : list X := omap parse (scope_values sc s).
Definition record_at (s : Store) (k : string) : option X := v ← s !! (sc, k); parse v.

Lemma elem_of_scope_values s v : v ∈ scope_values sc s <-> exists k, s !! (sc, k) = Some v.
Proof.
  unfold scope_values. rewrite list_elem_of_fmap. split.
  - intros ([[sc' k] v'] & -> & [Hs Hv%elem_of_map_to_list]%list_elem_of_filter). cbn in *. subst. by exists k.
  - intros [k Hk]. exists (sc, k, v). split; [done|]. apply list_elem_of_filter. split; [done|]. by apply elem_of_map_to_list.
Qed.

Lemma elem_of_records s x : keyed_in s -> x ∈ records s <-> record_at s (key x) = Some x.
Proof.
  intros Hk. unfold records, record_at. rewrite list_elem_of_omap. setoid_rewrite elem_of_scope_values. split.
  - intros (v & [k Hv] & Hx). by rewrite (Hk k v x), Hv.
  - destruct (s !! (sc, key x)) as [v|] eqn:Hv; [|done]. intros Hx. exists v. split; [by exists (key x)|done].
Qed.

Lemma records_NoDup s : keyed_in s -> NoDup (key <$> records s).
Proof.
  intros Hk. unfold records, scope_values. pose proof (NoDup_fst_map_to_list s) as Hnd.
  assert (forall p : string * string * Value, p ∈ map_to_list s -> s !! p.1 = Some p.2) as Hin by (intros [a v] Hp; by apply elem_of_map_to_list in Hp).
  induction (map_to_list s) as [|[[sc' k] v] l IH]; [constructor|]. rewrite fmap_cons, NoDup_cons in Hnd. destruct Hnd as [Hn Hnd].
  assert (NoDup (key <$> omap parse ((λ p : string * string * Value, p.2) <$> filter (λ p : string * string * Value, p.1.1 = sc) l))) as IHl
    by (apply IH; [done|]; intros p Hp; apply Hin; by right).
  rewrite filter_cons. cbn [fst]. case_decide as Hs; [|done]. subst sc'. cbn. destruct (parse v) as [x|] eqn:Hx; [|done].
  rewrite fmap_cons, NoDup_cons. split; [|done]. assert (key x = k) as -> by (eapply Hk; [apply (Hin (sc, k, v)); by left|done]).
  intros (y & -> & Hy)%list_elem_of_fmap. apply list_elem_of_omap in Hy as (w & Hw & Hy).
  apply list_elem_of_fmap in Hw as ([[sc' k'] w'] & -> & [Hs Hw]%list_elem_of_filter). cbn in Hs, Hy. subst sc'.
  apply Hn, list_elem_of_fmap. exists (sc, k', w'). split; [|done]. cbn. f_equal. eapply Hk; [apply (Hin (sc, k', w')); by right|done].
Qed.

(** The store without some keys of the scope. *)
Definition without (ks : list string) (s : Store) : Store := foldl (λ s k, delete (sc, k) s) s ks.

Lemma lookup_without ks s a : without ks s !! a = if decide (a.1 = sc /\ a.2 ∈ ks) then None else s !! a.
Proof.
  unfold without. revert s. induction ks as [|k ks IH]; intros s; cbn [foldl].
  - rewrite decide_False by (intros [_ Ha]; by apply elem_of_nil in Ha). done.
  - rewrite IH. case_decide as Hd; [by rewrite decide_True by (split; [apply Hd|right; apply Hd])|]. rewrite lookup_delete.
    destruct a as [sc' k']. cbn in *. case_decide as He; [injection He as <- <-; by rewrite decide_True by (split; [done|left])|].
    rewrite decide_False; [done|]. intros [-> [->|Hk]%elem_of_cons]; [done|]. by apply Hd.
Qed.

(** Removing exactly the records a test picks. *)
Lemma without_records (P : X -> bool) s a : keyed_in s ->
  without (key <$> filter (λ x, P x = true) (records s)) s !! a =
  if decide (a.1 = sc /\ from_option P false (record_at s a.2) = true) then None else s !! a.
Proof.
  intros Hk. rewrite lookup_without. apply decide_ext. split; intros [-> Ha]; (split; [done|]).
  - apply list_elem_of_fmap in Ha as (x & Ha & [Hp Hx]%list_elem_of_filter). rewrite Ha. apply elem_of_records in Hx; [|done]. by rewrite Hx.
  - destruct (record_at s a.2) as [x|] eqn:Hx; [|done]. apply list_elem_of_fmap.
    assert (key x = a.2) as Hkx by (unfold record_at in Hx; destruct (s !! (_, a.2)) as [v|] eqn:Hv; [|done]; by eapply Hk).
    exists x. split; [done|]. apply list_elem_of_filter. split; [done|]. apply elem_of_records; [done|]. by rewrite Hkx.
Qed.

End Scope.

Lemma without_elsewhere sc ks s sc' k : sc' <> sc -> without sc ks s !! (sc', k) = s !! (sc', k).
Proof. intros Hs. rewrite lookup_without. by rewrite decide_False by (by intros [? _]). Qed.

(** No call fails. *)
Definition healthy (o : Oracle) : Prop := forall n, fault o n = Fine.

Lemma perform_healthy o n c s : healthy o -> perform o n c s = let '(v, s') := serve o n c s in (Ok v, s').
Proof. intros Ho. unfold perform. by rewrite Ho. Qed.

End ScopeRules.

(** ** Purges *)

Module PurgeProperties.
Import ScopeRules.

Section Purge.
Context (o : Oracle) (Ho : healthy o).

Definition resolved_of (l : list Action) : list PendingResolvedEvent :=
  omap (λ a, match a with Emitted (Resolved e) => Some e | _ => None end) l.

Lemma resolved_of_app l l' : resolved_of (l ++ l') = resolved_of l ++ resolved_of l'.
Proof. apply omap_app. Qed.

Lemma run_delete_with_gate sid cid s n : exists l,
  run o (delete_with_gate sid cid) s n =
  (Ok (parse_record (default Null (s !! (PENDING_SCOPE, pending_key sid cid)))), delete (PENDING_SCOPE, pending_key sid cid) s, l, S (S n)) /\
  resolved_of l = [].
Proof.
  unfold delete_with_gate, try_. rewrite run_seq, run_ask, perform_healthy by done. cbn [serve]. rewrite old_value_reply.
  rewrite run_seq, run_ask, perform_healthy by done. cbn [serve run]. rewrite delete_insert_eq. eexists. by split.
Qed.

(** Each record goes, and is announced as aborted. *)
Lemma run_purge_records l k s n : NoDup (record_key <$> l) -> Forall (λ r, record_at PENDING_SCOPE parse_record s (record_key r) = Some r) l ->
  exists acts m, run o (purge_records l k) s n = (k + length l, without PENDING_SCOPE (record_key <$> l) s, acts, m) /\
    Forall2 (λ r e, exists now, e = resolved_event r OAborted None now) l (resolved_of acts).
Proof.
  revert k s n. induction l as [|r l IH]; intros k s n Hnd Hl; cbn [purge_records].
  { exists [], n. cbn. rewrite Nat.add_0_r. split; [done|constructor]. }
  rewrite fmap_cons, NoDup_cons in Hnd. destruct Hnd as [Hn Hnd]. apply Forall_cons in Hl as [Hr Hl].
  destruct (run_delete_with_gate (session_id r) (function_call_id r) s n) as (acts & Hd & Ha). rewrite run_seq, Hd. fold (record_key r).
  assert (parse_record (default Null (s !! (PENDING_SCOPE, record_key r))) = Some r) as ->
    by (unfold record_at in Hr; by destruct (s !! _)).
  cbn [run]. destruct (IH (S k) (delete (PENDING_SCOPE, record_key r) s) (S (S (S n)))) as (acts' & m & -> & He); [done| |].
  - eapply Forall_impl; [apply Forall_and; split; [exact Hl|apply Forall_forall; intros x Hx; exact Hx]|]. intros x [Hx Hin]. unfold record_at in *.
    rewrite lookup_delete_ne; [done|]. intros [= He]. apply Hn. rewrite He. by apply list_elem_of_fmap_2.
  - eexists _, m. split; [by rewrite Nat.add_succ_comm|]. rewrite resolved_of_app, Ha. cbn. constructor; [by eexists|done].
Qed.

(** A purge of the inbox removes and announces exactly the records its test picks. *)
Lemma run_purge_matching P s n : keyed s -> exists k acts m,
  run o (purge_matching P) s n = (k, without PENDING_SCOPE (record_key <$> filter (λ r, P r = true) (records PENDING_SCOPE parse_record s)) s, acts, m) /\
  Forall2 (λ r e, exists now, e = resolved_event r OAborted None now) (filter (λ r, P r = true) (records PENDING_SCOPE parse_record s)) (resolved_of acts).
Proof.
  intros Hk. unfold purge_matching, list_all. rewrite run_seq, run_ask, perform_healthy by done. cbn [serve list_items].
  fold (records PENDING_SCOPE parse_record s). set (l := filter _ _).
  destruct (run_purge_records l 0 s (S n)) as (acts & m & -> & He).
  - apply NoDup_filter_fmap, records_NoDup, Hk.
  - apply Forall_forall. intros r [_ Hr]%list_elem_of_filter. by apply (elem_of_records PENDING_SCOPE parse_record record_key) in Hr.
  - eexists _, _, m. by split.
Qed.

Definition attempt_of (a : AccessState.AttemptRecord) : string := AccessState.attempt_key (AccessState.at_session a) (AccessState.at_call a).
Abbreviation attempts_keyed := (keyed_in AccessState.ATTEMPTS_SCOPE AccessState.parse_attempt attempt_of).

Lemma run_delete_attempts l k s n : exists k' acts m,
  run o (AccessState.delete_attempts l k) s n = (k', without AccessState.ATTEMPTS_SCOPE (attempt_of <$> l) s, acts, m) /\ resolved_of acts = [].
Proof.
  revert k s n. induction l as [|a l IH]; intros k s n; cbn [AccessState.delete_attempts]; [by eexists _, [], _|].
  rewrite run_seq, run_ask, perform_healthy by done. cbn [serve]. edestruct IH as (k' & acts & m & -> & Ha). by eexists _, _, _.
Qed.

Lemma run_purge_attempts P s n : exists k acts m,
  run o (AccessState.purge_attempts P) s n =
  (k, without AccessState.ATTEMPTS_SCOPE (attempt_of <$> filter (λ a, P a = true) (records AccessState.ATTEMPTS_SCOPE AccessState.parse_attempt s)) s, acts, m) /\
  resolved_of acts = [].
Proof.
  unfold AccessState.purge_attempts, AccessState.list_attempts. rewrite run_seq, run_ask, perform_healthy by done. cbn [serve list_items].
  fold (records AccessState.ATTEMPTS_SCOPE AccessState.parse_attempt s).
  match goal with |- context [AccessState.delete_attempts ?l 0] => destruct (run_delete_attempts l 0 s (S n)) as (k & acts & m & -> & Ha) end.
  by eexists _, _, _.
Qed.

(** *** What is removed *)

(** The end of a turn removes its records and its attempts. *)
Definition of_turn (t : string) (s : Store) (a : string * string) : Prop :=
  (a.1 = PENDING_SCOPE /\ exists r, record_at PENDING_SCOPE parse_record s a.2 = Some r /\ turn_id r = t) \/
  (a.1 = AccessState.ATTEMPTS_SCOPE /\ exists x, record_at AccessState.ATTEMPTS_SCOPE AccessState.parse_attempt s a.2 = Some x /\ AccessState.at_turn x = t).

(** The deletion of a session removes its settings, its denials, its attempts and its records. *)
Definition of_session (sid : string) (s : Store) (a : string * string) : Prop :=
  a = (Settings.SETTINGS_SCOPE, sid) \/ a = (AccessState.DENIED_SCOPE, sid) \/
  (a.1 = PENDING_SCOPE /\ exists r, record_at PENDING_SCOPE parse_record s a.2 = Some r /\ session_id r = sid) \/
  (a.1 = AccessState.ATTEMPTS_SCOPE /\ exists x, record_at AccessState.ATTEMPTS_SCOPE AccessState.parse_attempt s a.2 = Some x /\ AccessState.at_session x = sid).

(** Of the entries of the store, those in [gone] are removed, all others are as they were. *)
Definition removes (gone : string * string -> Prop) (s s' : Store) : Prop := forall a, (gone a -> s' !! a = None) /\ (~ gone a -> s' !! a = s !! a).

(** What a purge announces: these records, in some order, each aborted. *)
Definition aborts (l : list PendingApprovalRecord) (acts : list Action) : Prop := exists l', l' ≡ₚ l /\
  Forall2 (λ r e, exists now, e = resolved_event r OAborted None now) l' (resolved_of acts).

Definition at_key {X} (sc : string) (parse : Value -> option X) (P : X -> bool) (s : Store) (a : string * string) : Prop :=
  a.1 = sc /\ from_option P false (record_at sc parse s a.2) = true.

Lemma without_removes {X} sc (parse : Value -> option X) key P s : keyed_in sc parse key s ->
  removes (at_key sc parse P s) s (without sc (key <$> filter (λ x, P x = true) (records sc parse s)) s).
Proof.
  intros Hk a. rewrite (without_records sc parse key P s a Hk). unfold at_key. by split; intros Ha; case_decide.
Qed.

Lemma removes_trans g g' s s' s'' : removes g s s' -> removes g' s' s'' -> removes (λ a, g a \/ g' a) s s''.
Proof.
  intros H1 H2 a. specialize (H1 a) as [Hg Hn]. specialize (H2 a) as [Hg' Hn']. split.
  - intros Ha. destruct (decide (s'' !! a = None)) as [?|Hs]; [done|]. exfalso. assert (~ g' a) as Hng by (intros Hx; by apply Hs, Hg').
    destruct Ha as [Ha|Ha]; [|done]. apply Hs. rewrite (Hn' Hng). by apply Hg.
  - intros Ha. rewrite Hn', Hn by tauto. done.
Qed.

Lemma removes_iff g g' s s' : (forall a, g a <-> g' a) -> removes g s s' -> removes g' s s'.
Proof. intros Hg Hr a. destruct (Hr a). rewrite <-Hg. done. Qed.

Lemma removes_scope g s s' sc k : removes g s s' -> (forall k, ~ g (sc, k)) -> s' !! (sc, k) = s !! (sc, k).
Proof. intros Hr Hg. by apply Hr. Qed.

Lemma keyed_same {X} sc (parse : Value -> option X) key s s' :
  (forall k, s' !! (sc, k) = s !! (sc, k)) -> keyed_in sc parse key s -> keyed_in sc parse key s'.
Proof. intros Hs Hk k v x. rewrite Hs. apply Hk. Qed.

Lemma record_same {X} sc (parse : Value -> option X) s s' k : (forall k, s' !! (sc, k) = s !! (sc, k)) -> record_at sc parse s' k = record_at sc parse s k.
Proof. intros Hs. unfold record_at. by rewrite Hs. Qed.

Lemma records_same {X} sc (parse : Value -> option X) key s s' : keyed_in sc parse key s ->
  (forall k, s' !! (sc, k) = s !! (sc, k)) -> records sc parse s' ≡ₚ records sc parse s.
Proof.
  intros Hk Hs. assert (keyed_in sc parse key s') as Hk' by by eapply keyed_same.
  apply NoDup_Permutation; [by eapply NoDup_fmap_1, records_NoDup|by eapply NoDup_fmap_1, records_NoDup|].
  intros x. rewrite !(elem_of_records sc parse key) by done. by rewrite (record_same sc parse s s').
Qed.

Lemma at_key_spec {X} sc (parse : Value -> option X) (f : X -> string) (t : string) s a :
  at_key sc parse (λ x, bool_decide (f x = t)) s a <-> a.1 = sc /\ exists x, record_at sc parse s a.2 = Some x /\ f x = t.
Proof.
  unfold at_key. destruct (record_at sc parse s a.2) as [x|]; cbn; [rewrite bool_decide_eq_true|]; split; intros [Ha Hx]; (split; [done|]);
    [by exists x|destruct Hx as (y & ? & ?); by simplify_eq|done|by destruct Hx as (y & ? & _)].
Qed.

(** The pending records for which the purge of a turn, or of a session, is meant. *)
Definition records_where (f : PendingApprovalRecord -> string) (t : string) (s : Store) : list PendingApprovalRecord :=
  filter (λ r, bool_decide (f r = t) = true) (records PENDING_SCOPE parse_record s).

(** The end of a turn removes the turn's records and attempts and nothing else, and announces
    each record as aborted. *)
Theorem turn_purge_clears_the_turn t s n : keyed s -> attempts_keyed s ->
  let '(_, s', acts, _) := run o (on_turn_completed t) s n in
  removes (of_turn t s) s s' /\ aborts (records_where turn_id t s) acts.
Proof.
  intros Hk Hka. unfold on_turn_completed. rewrite run_seq.
  destruct (run_purge_matching (λ p, bool_decide (turn_id p = t)) s n Hk) as (k & acts & m & -> & He).
  pose proof (without_removes PENDING_SCOPE parse_record record_key (λ p, bool_decide (turn_id p = t)) s Hk) as H1.
  set (s1 := without _ _ s) in *. rewrite run_seq.
  assert (forall k, s1 !! (AccessState.ATTEMPTS_SCOPE, k) = s !! (AccessState.ATTEMPTS_SCOPE, k)) as Hsame by (intros k'; by apply without_elsewhere).
  destruct (run_purge_attempts (λ a, bool_decide (AccessState.at_turn a = t)) s1 m) as (k2 & acts2 & m2 & -> & He2). cbn [run]. split.
  - eapply removes_iff; [|eapply removes_trans; [exact H1|apply without_removes, (keyed_same _ _ _ s), Hka; exact Hsame]].
    intros a. cbv beta. rewrite !at_key_spec, (record_same _ _ s s1) by done. done.
  - eexists. split; [done|]. rewrite !resolved_of_app, He2, !app_nil_r. exact He.
Qed.

Lemma run_delete {A} (sc k : string) (f : Value -> A) s n : run o (ask (StateDelete sc k) f) s n =
  (Ok (f (default Null (s !! (sc, k)))), delete (sc, k) s, [Called (StateDelete sc k) (Ok (default Null (s !! (sc, k))))], S n).
Proof. rewrite run_ask, perform_healthy by done. done. Qed.

Lemma delete_removes (sc k : string) (s : Store) : removes (λ a, a = (sc, k)) s (delete (sc, k) s).
Proof. intros a. split; [intros ->; apply lookup_delete_eq|intros Ha; apply lookup_delete_ne; congruence]. Qed.

(** A deleted session leaves nothing behind: its settings, its denied directories, its attempts
    and its records are gone, everything else is as it was, and each record is announced. *)
Theorem deleted_session_leaves_nothing sid s n : validate_id "session_id" sid = Ok tt -> keyed s -> attempts_keyed s ->
  let '(_, s', acts, _) := run o (on_session_deleted sid) s n in
  removes (of_session sid s) s s' /\ aborts (records_where session_id sid s) acts.
Proof.
  intros Hv Hk Hka. unfold on_session_deleted, Settings.clear, check_id, map_err, AccessState.clear_denied. rewrite Hv.
  rewrite !run_seq, run_delete. cbn [run]. rewrite run_seq, run_delete.
  pose proof (removes_trans _ _ _ _ _ (delete_removes Settings.SETTINGS_SCOPE sid s) (delete_removes AccessState.DENIED_SCOPE sid _)) as H1.
  set (s1 := delete (AccessState.DENIED_SCOPE, sid) _) in *.
  assert (forall sc k, sc <> Settings.SETTINGS_SCOPE -> sc <> AccessState.DENIED_SCOPE -> s1 !! (sc, k) = s !! (sc, k)) as Hs1
    by (intros sc k H2 H3; apply H1; intros [[= ? ?]|[= ? ?]]; done).
  rewrite run_seq.
  destruct (run_purge_attempts (λ a, bool_decide (AccessState.at_session a = sid)) s1 (S (S n))) as (k2 & acts2 & m2 & -> & He2).
  pose proof (without_removes AccessState.ATTEMPTS_SCOPE AccessState.parse_attempt attempt_of (λ a, bool_decide (AccessState.at_session a = sid)) s1) as H2.
  set (s2 := without _ _ s1) in *.
  assert (forall sc k, sc <> Settings.SETTINGS_SCOPE -> sc <> AccessState.DENIED_SCOPE -> sc <> AccessState.ATTEMPTS_SCOPE -> s2 !! (sc, k) = s !! (sc, k)) as Hs2.
  { intros sc k ? ? ?. unfold s2. rewrite without_elsewhere by done. by apply Hs1. }
  rewrite run_seq.
  destruct (run_purge_matching (λ p, bool_decide (session_id p = sid)) s2 m2) as (k & acts & m & -> & He); [by eapply (keyed_same _ _ _ s), Hk; intros; apply Hs2|].
  pose proof (without_removes PENDING_SCOPE parse_record record_key (λ p, bool_decide (session_id p = sid)) s2) as H3. cbn [run]. split.
  - eapply removes_iff; [|eapply removes_trans; [eapply removes_trans; [exact H1|apply H2, (keyed_same _ _ _ s), Hka; intros; by apply Hs1]|
      apply H3, (keyed_same _ _ _ s), Hk; intros; by apply Hs2]].
    intros a. cbv beta. rewrite !at_key_spec, (record_same _ _ s s1), (record_same _ _ s s2) by (intros; by (apply Hs1 || apply Hs2)).
    unfold of_session. tauto.
  - eexists. split; [|rewrite !resolved_of_app, He2; cbn; rewrite !app_nil_r; exact He].
    apply filter_Permutation, (records_same _ _ record_key); [done|]. intros; by apply Hs2.
Qed.

End Purge.
End PurgeProperties.

(** ** Listing *)

Module ListProperties.
Import ScopeRules Paging.

Lemma parsed_time v r : parse_record v = Some r -> i64_ok (pending_at r).
Proof. unfold parse_record. destruct (is_null v); [done|]. intros Hr. by apply decoded_pending in Hr as [? _]. Qed.

(** *** The order of the inbox *)

Lemma compare_eq (x y : string) : String.compare x y = Eq <-> x = y.
Proof.
  split; [apply String.compare_eq_iff|]. intros ->. pose proof (String.compare_antisym y y) as Hc. by destruct (String.compare y y).
Qed.

Lemma key_le_spec a b : key_cmp a b <> Gt <->
  (a.1.1 < b.1.1)%Z \/ (a.1.1 = b.1.1 /\ ((String.le a.1.2 b.1.2 /\ a.1.2 <> b.1.2) \/ (a.1.2 = b.1.2 /\ String.le a.2 b.2))).
Proof.
  unfold key_cmp. destruct (Z.compare_spec a.1.1 b.1.1) as [Hz|Hz|Hz]; [|naive_solver lia|naive_solver lia].
  assert (forall x y, String.le x y <-> String.compare x y <> Gt) as Hle.
  { intros x y. unfold String.le, String.leb. destruct (String.compare x y); cbn; naive_solver. }
  rewrite !Hle. pose proof (compare_eq a.1.2 b.1.2) as Hc. destruct (String.compare a.1.2 b.1.2); naive_solver lia.
Qed.

#[export] Instance inbox_order_trans : Transitive key_le.
Proof.
  intros a b c. unfold key_le. rewrite !key_le_spec. generalize (sort_key a), (sort_key b), (sort_key c). clear. intros x y z.
  intros [?|[E1 [[L1 N1]|[F1 L1]]]] [?|[E2 [[L2 N2]|[F2 L2]]]]; try (left; lia); right; (split; [lia|]).
  - left. split; [by etrans|]. intros He. apply N1, (anti_symm String.le); [done|by rewrite He].
  - left. by rewrite <-F2.
  - left. by rewrite F1.
  - right. split; [congruence|by etrans].
Qed.

#[export] Instance inbox_order_total : Total key_le.
Proof.
  intros a b. unfold key_le. rewrite !key_le_spec. generalize (sort_key a), (sort_key b). clear. intros x y.
  destruct (Z.lt_trichotomy x.1.1 y.1.1) as [?|[E|?]]; [auto..|auto]. destruct (decide (x.1.2 = y.1.2)) as [F|F].
  - destruct (total String.le x.2 y.2); naive_solver.
  - destruct (total String.le x.1.2 y.1.2); naive_solver.
Qed.

Lemma inbox_order_both a b : key_le a b -> key_le b a -> sort_key a = sort_key b.
Proof.
  unfold key_le. rewrite !key_le_spec. generalize (sort_key a), (sort_key b). clear. intros [[x1 x2] x3] [[y1 y2] y3]. cbn.
  intros [?|[-> [[L1 N1]|[-> L1]]]] [?|[E2 [[L2 N2]|[F2 L2]]]]; try lia; try done.
  - by destruct N1; apply (anti_symm String.le).
  - f_equal. by apply (anti_symm String.le).
Qed.

Lemma key_cmp_after a b : key_cmp (sort_key b) (sort_key a) = Gt <-> ~ key_le b a.
Proof. unfold key_le. destruct (key_cmp _ _); naive_solver. Qed.

(** What lies behind an item of the sorted list. *)
Lemma after_item (xs : list PendingApprovalRecord) i x : StronglySorted key_le xs -> NoDup (sort_key <$> xs) -> xs !! i = Some x ->
  filter (λ p, key_cmp (sort_key p) (sort_key x) = Gt) xs = drop (S i) xs.
Proof.
  intros Hs. revert i. induction Hs as [|y xs Hs IH Hall]; intros i Hnd Hi; [done|]. rewrite fmap_cons, NoDup_cons in Hnd. destruct Hnd as [Hn Hnd].
  rewrite filter_cons. destruct i as [|i].
  - injection Hi as ->. rewrite decide_False by (rewrite key_cmp_after; intros Hx; apply Hx; by destruct (total key_le x x)).
    cbn. rewrite drop_0. apply filter_all. rewrite Forall_forall in *. intros z Hz. apply key_cmp_after. intros Hzx.
    apply Hn, list_elem_of_fmap. exists z. split; [|done]. apply inbox_order_both; [by apply Hall|done].
  - rewrite decide_False; [by apply IH|]. rewrite key_cmp_after. intros Hx. apply Hx. rewrite Forall_forall in Hall. by apply Hall, (list_elem_of_lookup_2 _ i).
Qed.

Section Pages.
Context `{SerdeFileLaws} (b64_encode : string -> string) (b64_decode : string -> option string).
Context (Hb64 : forall s, b64_decode (b64_encode s) = Some s).

Lemma decode_encode_cursor k : i64_ok k.1.1 -> decode_cursor b64_decode (encode_cursor b64_encode k) = Ok k.
Proof.
  intros Hk. unfold decode_cursor, encode_cursor. rewrite Hb64. cbn [mbind option_bind]. rewrite file_text_read.
  - cbn -[dec_i64 enc_i64]. rewrite dec_enc_i64 by done. by destruct k as [[? ?] ?].
  - apply fits_arr. repeat constructor. unfold enc_i64, i64_ok, in_range, i64_min, i64_max in *. destruct (Z.leb_spec 0 k.1.1); cbn; unfold in_range, u64_max, i64_min; lia.
Qed.

(** What a request lists: the pending records it asks for, oldest first. *)
Definition listing (r : ListPendingRequest) (s : Store) : list PendingApprovalRecord :=
  merge_sort key_le (filter (λ p, wanted r p = true) (records PENDING_SCOPE parse_record s)).

Definition with_cursor (c : option string) (r : ListPendingRequest) : ListPendingRequest :=
  mk_list (lq_session r) (lq_metadata r) (lq_limit r) c.

(** One page, when nothing fails. *)
Definition fetch (o : Oracle) (s : Store) (n : nat) (r : ListPendingRequest) (c : option string) : option (list PendingApprovalRecord * option string) :=
  match (run o (list_pending b64_encode b64_decode (with_cursor c r)) s n).1.1.1 with
  | Ok p => Some (ls_pending p, next_cursor p)
  | Err _ => None
  end.

Lemma ltb_sub a b c : (a <? b - c) = (c + a <? b).
Proof. apply eq_true_iff_eq. rewrite !Nat.ltb_lt. lia. Qed.

(** Following [next_cursor] lists every pending record that matches the request exactly once,
    oldest first, whatever the page size asked for. *)
Theorem pending_pages_complete o s n r : healthy o -> keyed s ->
  walk (fetch o s n r) (S (length (listing r s))) None = Some (listing r s) /\
  StronglySorted key_le (listing r s) /\ NoDup (record_key <$> listing r s) /\
  forall p, p ∈ listing r s <-> record_at PENDING_SCOPE parse_record s (record_key p) = Some p /\ wanted r p = true.
Proof.
  intros Ho Hk. assert (listing r s ≡ₚ filter (λ p, wanted r p = true) (records PENDING_SCOPE parse_record s)) as Hperm by apply merge_sort_Permutation.
  assert (StronglySorted key_le (listing r s)) as Hsorted by (apply (StronglySorted_merge_sort key_le)).
  assert (NoDup (record_key <$> listing r s)) as Hnd by (rewrite Hperm; by apply NoDup_filter_fmap, records_NoDup).
  assert (forall p, p ∈ listing r s <-> record_at PENDING_SCOPE parse_record s (record_key p) = Some p /\ wanted r p = true) as Hin.
  { intros p. rewrite Hperm, list_elem_of_filter, (elem_of_records PENDING_SCOPE parse_record record_key) by done. tauto. }
  split_and!; [|done..].
  assert (forall c after start, match c with
      | Some x => decode_cursor b64_decode x = Ok after /\ filter (λ p, key_cmp (sort_key p) after = Gt) (listing r s) = drop start (listing r s)
      | None => start = 0
      end ->
    fetch o s n r c = Some (page_from (listing r s) id (λ p, encode_cursor b64_encode (sort_key p)) (page_limit r) start)) as Hpage.
  { intros c after start Hc. unfold fetch, list_pending, page_from. cbn [lq_cursor with_cursor].
    assert (forall x, run o (map_err (state_error "pending list failed") list_all) s x =
      (Ok (records PENDING_SCOPE parse_record s), s, [Called (StateList PENDING_SCOPE) (Ok (Arr (scope_values PENDING_SCOPE s)))], S x)) as Hlist.
    { intros x. unfold map_err, list_all. by rewrite run_seq, run_ask, perform_healthy. }
    assert (forall k : list PendingApprovalRecord -> Prog (result ListPendingResponse ApprovalError), (run o (all ←? map_err (state_error "pending list failed") list_all; k all) s n).1.1.1 =
      (run o (k (records PENDING_SCOPE parse_record s)) s (S n)).1.1.1) as Htry.
    { intros k. unfold try_. rewrite run_seq, Hlist. by destruct (run o (k _) s (S n)) as [[[? ?] ?] ?]. }
    destruct c as [x|]; [destruct Hc as [-> Hd]|subst start]; rewrite Htry; cbn [run fst ls_pending next_cursor];
      change (merge_sort key_le (filter _ _)) with (listing r s); change (page_limit (with_cursor _ r)) with (page_limit r).
    - by rewrite Hd, length_drop, list_fmap_id, ltb_sub.
    - by rewrite drop_0, list_fmap_id. }
  rewrite <-(list_fmap_id (listing r s)) at 2.
  apply (walk_all _ id (λ p, encode_cursor b64_encode (sort_key p)) (page_limit r)); [unfold page_limit; lia|by apply (Hpage None (0%Z, "", "") 0)|].
  intros i x Hx. eapply (Hpage (Some _)). split; [apply decode_encode_cursor|apply after_item; [done| |done]].
  - apply list_elem_of_lookup_2, Hin in Hx as [Hx _]. unfold record_at in Hx. destruct (s !! _); [|done]. by eapply parsed_time.
  - apply (NoDup_fmap_1 (λ k : CursorKey, pending_key k.1.2 k.2)). rewrite <-list_fmap_compose. exact Hnd.
Qed.

End Pages.
End ListProperties.
