(* ===== verification/GateSessions.v ===== *)
(** * Sessions of the approval gate: settings and re-asks (approval-gate/src/settings.rs, filesystem_access_state.rs, functions/filesystem_access_watch.rs)

    Module [SettingsModel]: what the settings of a session are for whoever uses them, a mode and
    two sets of functions; [SettingsProperties]: the handlers implement it.
    [WatchProperties]: how often a call is asked for.  [RaceProperties]: how the record of a
    follow-up is lost beside the decision of its call. *)

From Stdlib Require Import Ascii ZArith Lia.
From S2P Require Import Prelude Json Codec JsonText GateTypes GatePolicy GateConfig GateBus GateHandlers GateInbox GateProperties GateStores.
Import GateWire GateWireRules GateSettings Permissions GateProg GateState GateWorld Pending Handlers RunRules ScopeRules.
Local Open Scope gate_scope.

(** ** The settings of a session, abstractly *)

Module SettingsModel.

Record Model : Type := mk_model { m_mode : PermissionMode; m_allowed : gset string; m_approved : gset string }.

(** What is kept for a session: nothing, a value that is no settings, or settings. *)
Inductive Cell : Type := Empty | Garbled | Holds (m : Model).
Definition known (c : Cell) : option Model := match c with Holds m => Some m | _ => None end.

(** What is asked for, and what is answered: the settings after a change, whether there was
    something to clear, that the request is malformed, that the state worker failed. *)
Inductive Op : Type := SetMode (m : PermissionMode) | Allow (f : string) | Disallow (f : string) | Approve (f : string) | Clear.
Inductive Reply : Type := Shows (m : Model) | Had (b : bool) | Refused | Failed.

Definition change (op : Op) (m : Model) : Model :=
  match op with
  | SetMode md => mk_model md (m_allowed m) (m_approved m)
  | Allow f => mk_model (m_mode m) (m_allowed m ∪ {[ f ]}) (m_approved m)
  | Disallow f => mk_model (m_mode m) (m_allowed m ∖ {[ f ]}) (m_approved m)
  | Approve f => mk_model (m_mode m) (m_allowed m) (m_approved m ∪ {[ f ]})
  | Clear => m
  end.

(** A session starts from the configuration, with the first change. *)
Definition initial (cfg : WorkerConfig) : Model := mk_model (default_mode cfg) (list_to_set (auto_allow_seed cfg)) ∅.

(** Well-formed: the session has an id without a slash, a function that is allowed has a name. *)
Definition accepts (sid : string) (op : Op) : bool :=
  is_ok (validate_id "session_id" sid) && match op with Allow f | Approve f => negb (is_empty f) | _ => true end.

(** The answer to a request that is served, and what is kept then. *)
Definition served (cfg : WorkerConfig) (sid : string) (op : Op) (c : Cell) : Reply * Cell :=
  if negb (accepts sid op) then (Refused, c)
  else match op with
       | Clear => (Had match c with Empty => false | _ => true end, Empty)
       | _ => let m := change op (default (initial cfg) (known c)) in (Shows m, Holds m)
       end.

(** A request is served; or the state worker fails, which is said, and what is kept is as it was or
    as the request leaves it. *)
Definition outcome (cfg : WorkerConfig) (sid : string) (op : Op) (c : Cell) (r : Reply) (c' : Cell) : Prop :=
  (r, c') = served cfg sid op c \/
  (r = Failed /\ accepts sid op = true /\ (c' = c \/ c' = (served cfg sid op c).2)).

(** Requests one after the other: each has the configuration of its first step, and fails only if a
    call of its own steps fails. *)
Inductive history (o : Oracle) (sid : string) : nat -> list Op -> list Reply -> Cell -> Cell -> nat -> Prop :=
| history_nil n c : history o sid n [] [] c c n
| history_cons n n1 n2 op ops r rs c c1 c2 : outcome (config_at o n) sid op c r c1 ->
    (r = Failed -> exists k, n <= k < n1 /\ fault o k <> Fine) ->
    history o sid n1 ops rs c1 c2 n2 -> history o sid n (op :: ops) (r :: rs) c c2 n2.

(** *** The requests *)

Definition request (sid : string) (op : Op) : Request :=
  match op with
  | SetMode m => RSetMode sid m
  | Allow f => RAddAlwaysAllow sid f
  | Disallow f => RRemoveAlwaysAllow sid f
  | Approve f => RApproveAlways sid f
  | Clear => RClearSettings sid
  end.

Definition functions (l : list AlwaysAllowEntry) : gset string := list_to_set (ae_function <$> l).
Definition model (x : ApprovalSettings) : Model := mk_model (mode x) (functions (always_allow x)) (functions (approved_always x)).

(** The settings of a session in the store, and what is kept for it. *)
Definition stored (sid : string) (s : Store) : option ApprovalSettings := v ← s !! (Settings.SETTINGS_SCOPE, sid); Settings.parse_settings v.

Definition cell (sid : string) (s : Store) : Cell :=
  match s !! (Settings.SETTINGS_SCOPE, sid) with
  | None | Some Null => Empty
  | Some v => match Settings.parse_settings v with Some x => Holds (model x) | None => Garbled end
  end.

Definition error_reply (e : ApprovalError) : option Reply :=
  match e with InvalidPayload _ => Some Refused | StateUnavailable _ => Some Failed | _ => None end.
Definition reply_of (a : Answer) : option Reply :=
  match a with
  | ASettings (Ok x) => Some (Shows (model x))
  | ACleared (Ok b) => Some (Had b)
  | ASettings (Err e) | ACleared (Err e) => error_reply e
  | _ => None
  end.

End SettingsModel.

Module SettingsProperties.
Import SettingsModel.

Lemma functions_with l f at_ms : functions (Settings.with_grant l f at_ms) = functions l ∪ {[ f ]}.
Proof.
  unfold Settings.with_grant, functions. destruct (existsb _ _) eqn:He.
  - apply existsb_exists in He as (e & Hin & Hf%bool_decide_eq_true). apply leibniz_equiv. assert (f ∈ ae_function <$> l); [|set_solver].
    rewrite <-Hf. apply list_elem_of_fmap_2. by apply list_elem_of_In.
  - rewrite fmap_app, list_to_set_app_L. set_solver.
Qed.

Lemma functions_without l f : functions (Settings.without_grant l f) = functions l ∖ {[ f ]}.
Proof.
  apply leibniz_equiv. intros g. unfold functions, Settings.without_grant. rewrite elem_of_difference, elem_of_singleton, !elem_of_list_to_set, !list_elem_of_fmap.
  setoid_rewrite list_elem_of_filter. naive_solver.
Qed.

Section Session.
Context `{Regex} `{SerdeText} `{SerdeFile} (b64_encode : string -> string) (b64_decode : string -> option string).
Context (o : Oracle) (Hclock : forall n, i64_ok (clock o n)) (sid : string).

Lemma parse_written_settings (x : ApprovalSettings) : settings_ok x -> Settings.parse_settings (to_value x) = Some x.
Proof. intros Hx. unfold Settings.parse_settings. cbn [is_object to_value ApprovalSettings_codec json_obj]. by apply settings_codec. Qed.

Lemma seeded_ok cfg n : settings_ok (Settings.seeded_from cfg (clock o n)).
Proof.
  unfold Settings.seeded_from. split_and!; cbn [always_allow approved_always mode_set_at]; [|constructor|split; discriminate].
  apply Forall_fmap, Forall_true. intros f. apply Hclock.
Qed.

Lemma seeded_model cfg z : model (Settings.seeded_from cfg z) = initial cfg.
Proof. unfold model, initial, Settings.seeded_from. cbn. f_equal. unfold functions. by rewrite <-list_fmap_compose, (list_fmap_ext _ id), list_fmap_id. Qed.

Lemma stored_ok s x : stored sid s = Some x -> settings_ok x.
Proof.
  unfold stored. destruct (s !! _) as [v|]; [|done]. cbn. unfold Settings.parse_settings. destruct (is_object v); [|done]. apply decoded_settings.
Qed.

Lemma read_stored s : Settings.parse_settings (default Null (s !! (Settings.SETTINGS_SCOPE, sid))) = stored sid s.
Proof. unfold stored. by destruct (s !! _). Qed.

Lemma known_cell s : known (cell sid s) = model <$> stored sid s.
Proof.
  unfold cell, stored. destruct (s !! _) as [v|]; [|done]. cbn [mbind option_bind].
  destruct v; try (destruct (Settings.parse_settings _); done). done.
Qed.

Lemma cell_written s x : settings_ok x -> cell sid (<[(Settings.SETTINGS_SCOPE, sid) := to_value x]> s) = Holds (model x).
Proof.
  intros Hx. unfold cell. rewrite lookup_insert_eq. pose proof (parse_written_settings x Hx) as Hp.
  destruct (to_value x); [done|by rewrite Hp..].
Qed.

Definition mutation (op : Op) : ApprovalSettings -> Z -> ApprovalSettings :=
  match op with
  | SetMode m => λ base now, mk_settings m (always_allow base) (approved_always base) now
  | Allow f => λ base now, mk_settings (mode base) (Settings.with_grant (always_allow base) f now) (approved_always base) (mode_set_at base)
  | Disallow f => λ base _, mk_settings (mode base) (Settings.without_grant (always_allow base) f) (approved_always base) (mode_set_at base)
  | Approve f => λ base now, mk_settings (mode base) (always_allow base) (Settings.with_grant (approved_always base) f now) (mode_set_at base)
  | Clear => λ base _, base
  end.

Lemma with_grant_ok l f z : Forall (λ e, i64_ok (granted_at e)) l -> i64_ok z -> Forall (λ e, i64_ok (granted_at e)) (Settings.with_grant l f z).
Proof. intros Hl Hz. unfold Settings.with_grant. destruct (existsb _ _); [done|]. apply Forall_app. split; [done|]. by apply Forall_singleton. Qed.

Lemma mutation_ok op x z : settings_ok x -> i64_ok z -> settings_ok (mutation op x z).
Proof.
  intros (Ha & Hb & Hc) Hz. destruct op; cbn [mutation]; split_and!; cbn [always_allow approved_always mode_set_at]; try done; try by apply with_grant_ok.
  rewrite Forall_forall in *. intros e [_ He]%list_elem_of_filter. by apply Ha.
Qed.

Lemma mutation_model op x z : model (mutation op x z) = change op (model x).
Proof. destruct op; cbn [mutation]; unfold model, change; cbn [mode always_allow approved_always m_mode m_allowed m_approved]; by rewrite ?functions_with, ?functions_without. Qed.

(** What one request leaves. *)
Definition requested (op : Op) (s : Store) (n : nat) (x : Answer * Store * list Action * nat) : Prop :=
  exists r, reply_of x.1.1.1 = Some r /\ outcome (config_at o n) sid op (cell sid s) r (cell sid x.1.1.2) /\
    (r = Failed -> exists k, n <= k < x.2 /\ fault o k <> Fine) /\ forall k, k <> (Settings.SETTINGS_SCOPE, sid) -> x.1.1.2 !! k = s !! k.

Lemma requested_refused op s n a l m : accepts sid op = false -> reply_of a = Some Refused -> requested op s n (a, s, l, m).
Proof. intros Hop Ha. exists Refused. split_and!; [done| |done|done]. left. unfold served. by rewrite Hop. Qed.

Lemma requested_failed op s s' n k a l m : accepts sid op = true -> reply_of a = Some Failed -> fault o k <> Fine -> n <= k < m ->
  s' = s \/ (cell sid s' = (served (config_at o n) sid op (cell sid s)).2 /\ forall k, k <> (Settings.SETTINGS_SCOPE, sid) -> s' !! k = s !! k) ->
  requested op s n (a, s', l, m).
Proof.
  intros Hop Ha Hk Hm Hs. exists Failed. split_and!; [done| |intros _; by exists k|destruct Hs as [->|[_ ?]]; done].
  right. split_and!; [done|done|]. destruct Hs as [->|[? _]]; auto.
Qed.

(** A change reads what is stored, starts from the configuration if there is nothing, and writes. *)
Lemma run_change op s n : op <> Clear -> accepts sid op = is_ok (validate_id "session_id" sid) ->
  requested op s n (run o (answering ASettings (settings_of sid (mutation op))) s n).
Proof.
  intros Hne Hop. unfold answering, settings_of, Settings.materialize_and, check_id, Settings.read_strict, map_err, try_. rewrite run_seq. cbn [run].
  destruct (validate_id "session_id" sid) as [[]|e] eqn:Hsid.
  2: { cbn [run app]. apply requested_refused; [done|]. unfold validate_id in Hsid. repeat case_match; by simplify_eq. }
  cbn [run]. rewrite !run_seq, run_ask, perform_get. destruct (fault o (S (S n))) eqn:H2; cbn [run fst snd app].
  2, 3: eapply (requested_failed _ _ _ _ (S (S n))); [done|done|by rewrite H2|lia|by left].
  rewrite read_stored, !run_seq, run_ask.
  set (x := mutation op _ _). assert (settings_ok x) as Hx.
  { apply mutation_ok; [|apply Hclock]. destruct (stored sid s) eqn:Hs; [by eapply stored_ok|apply seeded_ok]. }
  assert (forall s0, cell sid (<[(Settings.SETTINGS_SCOPE, sid) := to_value x]> s0) = Holds (model x)) as Hcell by (intros s0; by apply cell_written).
  assert (served (config_at o n) sid op (cell sid s) = (Shows (model x), Holds (model x))) as Hserved.
  { unfold served. rewrite Hop. cbn [negb is_ok]. rewrite known_cell.
    assert (model x = change op (default (initial (config_at o n)) (model <$> stored sid s))) as ->; [|by destruct op].
    unfold x. rewrite mutation_model. f_equal. destruct (stored sid s); [done|apply seeded_model]. }
  unfold perform. destruct (fault o (S (S (S n)))) eqn:H3; cbn [serve run fst snd app].
  - exists (Shows (model x)). cbn [fst snd]. split_and!; [done| |done|intros k Hk; by apply lookup_insert_ne]. left. by rewrite Hcell, Hserved.
  - eapply (requested_failed _ _ _ _ (S (S (S n)))); [done|done|by rewrite H3|lia|by left].
  - eapply (requested_failed _ _ _ _ (S (S (S n)))); [done|done|by rewrite H3|lia|]. right. rewrite Hcell, Hserved. split; [done|].
    intros k Hk. by apply lookup_insert_ne.
Qed.

Lemma run_named op f s n : op = Allow f \/ op = Approve f ->
  requested op s n (run o (answering ASettings (named_function f (settings_of sid (mutation op)))) s n).
Proof.
  intros Hop. unfold named_function. destruct (is_empty f) eqn:Hf.
  - apply requested_refused; [|done]. unfold accepts. destruct Hop as [-> | ->]; rewrite Hf; apply andb_false_r.
  - apply run_change; [by destruct Hop as [-> | ->]|]. unfold accepts. destruct Hop as [-> | ->]; rewrite Hf; apply andb_true_r.
Qed.

Lemma run_clear s n : requested Clear s n (run o (answering ACleared (clear_settings sid)) s n).
Proof.
  unfold answering, clear_settings, Settings.clear, check_id, map_err. rewrite run_seq.
  assert (accepts sid Clear = is_ok (validate_id "session_id" sid)) as Hop by apply andb_true_r.
  destruct (validate_id "session_id" sid) as [[]|e] eqn:Hsid.
  2: { cbn [run app]. apply requested_refused; [done|]. unfold validate_id in Hsid. repeat case_match; by simplify_eq. }
  rewrite run_seq, run_ask. unfold perform.
  assert (forall s0, cell sid (delete (Settings.SETTINGS_SCOPE, sid) s0) = Empty) as Hcell by (intros s0; unfold cell; by rewrite lookup_delete_eq).
  assert (served (config_at o n) sid Clear (cell sid s) = (Had match cell sid s with Empty => false | _ => true end, Empty)) as Hserved
    by (unfold served; by rewrite Hop).
  destruct (fault o n) eqn:H2; cbn [serve run fst snd app].
  - eexists. cbn [fst snd reply_of]. split_and!; [done| |done|intros k Hk; by apply lookup_delete_ne]. left. rewrite Hcell, Hserved. f_equal. f_equal.
    unfold cell. destruct (s !! _) as [v|]; [|done]. destruct v; try done; cbn [default from_option id is_null negb]; by destruct (Settings.parse_settings _).
  - eapply (requested_failed _ _ _ _ n); [done|done|by rewrite H2|lia|by left].
  - eapply (requested_failed _ _ _ _ n); [done|done|by rewrite H2|lia|]. right. rewrite Hcell, Hserved. split; [done|].
    intros k Hk. by apply lookup_delete_ne.
Qed.

(** One request. *)
Lemma run_request op s n : requested op s n (run o (handle b64_encode b64_decode (request sid op)) s n).
Proof.
  destruct op as [m|f|f|f|]; cbn [request handle]; [| | | |apply run_clear];
    unfold add_always_allow, approve_always; try (with_strategy opaque [run answering named_function settings_of] (apply run_named; auto)).
  - by apply (run_change (SetMode m)); [|apply andb_true_r].
  - by apply (run_change (Disallow f)); [|apply andb_true_r].
Qed.

(** Requests one after the other. *)
Fixpoint run_all (ops : list Op) (s : Store) (n : nat) : list Answer * Store * nat :=
  match ops with
  | [] => ([], s, n)
  | op :: ops' =>
      let '(a, s1, _, n1) := run o (handle b64_encode b64_decode (request sid op)) s n in
      let '(l, s2, n2) := run_all ops' s1 n1 in (a :: l, s2, n2)
  end.

(** C18: the settings of a session are a mode and two sets of functions.  Requests that arrive one
    after the other, while the configuration changes and calls of the state worker are lost before
    or after they took effect, are answered as an abstract session answers them: a malformed one is
    refused and changes nothing; one that is served makes its change, on the settings that are kept
    or, when there are none or they cannot be read, on those of the configuration, and shows the
    result; one is answered as failed only if a call of its own failed, and then what is kept is as
    it was or as the request leaves it.  Afterwards [approval::get-settings], when its read is
    answered, reports what is kept, or the defaults; and nothing else in the store changes. *)
Theorem settings_refine_the_session ops s n :
  let '(l, s', m) := run_all ops s n in
  exists rs, reply_of <$> l = Some <$> rs /\ history o sid n ops rs (cell sid s) (cell sid s') m /\
    (forall k, k <> (Settings.SETTINGS_SCOPE, sid) -> s' !! k = s !! k) /\
    (is_ok (validate_id "session_id" sid) = true -> fault o (S m) = Fine -> exists x src,
       (run o (get_settings sid) s' m).1.1.1 = Ok (x, src) /\
       model x = default (initial (config_at o m)) (known (cell sid s')) /\ (src = Stored <-> is_Some (known (cell sid s')))).
Proof.
  revert s n. induction ops as [|op ops IH]; intros s n; cbn [run_all].
  - exists []. split_and!; [done|constructor|done|]. intros Hsid Hf. unfold get_settings, check_id, Settings.read_strict, map_err, try_.
    destruct (validate_id "session_id" sid) as [[]|]; [|done]. cbn [run].
    rewrite !run_seq, run_ask, perform_get, Hf. cbn [run fst]. rewrite read_stored, known_cell. eexists _, _.
    split; [by rewrite <-surjective_pairing|]. unfold Settings.effective. destruct (stored sid s) as [x|]; cbn; (split; [|by split; [|intros []]]); [done|apply seeded_model].
  - pose proof (run_request op s n) as (r & Hr & Hout & Hf & Hs1). destruct (run o (handle _ _ _) s n) as [[[a s1] acts] n1]. cbn [fst snd] in *.
    specialize (IH s1 n1). destruct (run_all ops s1 n1) as [[l s2] n2]. destruct IH as (rs & Hrs & Hh & Hs2 & Hget).
    exists (r :: rs). split_and!; [by rewrite !fmap_cons, Hr, Hrs|by econstructor|intros k Hk; by rewrite Hs2, Hs1|exact Hget].
Qed.

End Session.
End SettingsProperties.

(** ** How often a call is asked for *)

Module WatchProperties.
Import AccessState AccessHint GateRules InboxRules.

Section Watch.
Context `{SerdeFile} (sid cid : string) (o : Oracle) (L : Z).
Context (Hlimit : forall n, (grant_reask_limit (config_at o n) <= L)%Z) (HL : (0 <= L <= u32_max)%Z).

Definition created (l : list Action) : nat := length (omap (λ a, match a with Emitted (Created r) => Some r | _ => None end) l).

Lemma created_app l l' : created (l ++ l') = created l + created l'.
Proof. unfold created. by rewrite omap_app, length_app. Qed.

(** The attempts of the call that are on record. *)
Definition attempts (s : Store) : Z :=
  match parse_attempt (default Null (s !! (ATTEMPTS_SCOPE, attempt_key sid cid))) with Some a => at_count a | None => 0%Z end.

(** Asks nothing and leaves the attempts alone. *)
Definition silent (l : list Action) : Prop :=
  created l = 0 /\ Forall (λ a, match a with Called c _ => touches c <> Some (ATTEMPTS_SCOPE, attempt_key sid cid) | Emitted _ => True end) l.

Lemma run_elsewhere {A} (p : Prog A) s n a : let '(_, s', l, _) := run o p s n in
  Forall (λ x, match x with Called c _ => touches c <> Some a | Emitted _ => True end) l -> s' !! a = s !! a.
Proof.
  revert s n. induction p as [x|c k IH|k IH|k IH|e k IH|k IH|k IH]; intros s n; cbn [run]; [done| |apply IH|apply IH| |apply IH|apply IH].
  - pose proof (perform_happens o n c s) as [took Hh]. destruct (perform o n c s) as [r s1]. cbn [fst snd] in Hh. specialize (IH r s1 (S n)).
    destruct (run o (k r) s1 (S n)) as [[[? s2] l] m]. intros [Hc Hl]%Forall_cons. rewrite IH by done. by eapply happens_elsewhere.
  - specialize (IH s n). destruct (run o k s n) as [[[? s2] l] m]. intros [_ Hl]%Forall_cons. by apply IH.
Qed.

Lemma attempts_same s s' : s' !! (ATTEMPTS_SCOPE, attempt_key sid cid) = s !! (ATTEMPTS_SCOPE, attempt_key sid cid) -> attempts s' = attempts s.
Proof. unfold attempts. by intros ->. Qed.

(** Every ask is counted, and the count ends at the limit. *)
Definition counted {A} (p : Prog A) : Prop := forall s n, let '(_, s', l, _) := run o p s n in
  (attempts s + Z.of_nat (created l) <= attempts s' <= Z.max (attempts s) L)%Z.

Lemma counted_silent {A} (p : Prog A) : always p (λ l _, silent l) -> counted p.
Proof.
  intros Hp s n. pose proof (run_always o p s n _ Hp) as [Hc Hl]. pose proof (run_elsewhere p s n (ATTEMPTS_SCOPE, attempt_key sid cid)) as He.
  destruct (run o p s n) as [[[a s'] l] m]. cbn [fst snd] in *. rewrite (attempts_same s s') by auto. rewrite Hc. lia.
Qed.

Lemma counted_bind {A B} (q : Prog B) (f : B -> Prog A) : always q (λ l _, silent l) -> (forall b, counted (f b)) -> counted (bind q f).
Proof.
  intros Hq Hf s n. rewrite run_seq. pose proof (run_always o q s n _ Hq) as [Hc Hl].
  pose proof (run_elsewhere q s n (ATTEMPTS_SCOPE, attempt_key sid cid)) as He. destruct (run o q s n) as [[[b s1] l1] m1]. cbn [fst snd] in *.
  specialize (Hf b s1 m1). destruct (run o (f b) s1 m1) as [[[a s2] l2] m2]. rewrite (attempts_same s s1) in Hf by auto.
  rewrite created_app, Hc. lia.
Qed.

Lemma counted_done {A} (a : A) : counted (Done a).
Proof. intros s n. cbn. lia. Qed.

Lemma silent_ask {A} c (f : Value -> A) : touches c <> Some (ATTEMPTS_SCOPE, attempt_key sid cid) -> always (ask c f) (λ l _, silent l).
Proof. intros Hc. apply always_ask; intros; (split; [done|]; by apply Forall_singleton). Qed.

Lemma silent_nil : silent [].
Proof. by split; [|constructor]. Qed.

Lemma silent_bind {A B} (q : Prog B) (f : B -> Prog A) : always q (λ l _, silent l) -> (forall b, always (f b) (λ l _, silent l)) ->
  always (bind q f) (λ l _, silent l).
Proof.
  intros Hq Hf. apply always_bind. eapply always_mono; [exact Hq|]. intros l1 b [K1 K2]. eapply always_mono; [apply Hf|].
  intros l2 a [K3 K4]. split; [rewrite created_app; lia|by apply Forall_app].
Qed.

Lemma silent_context sid' : always (fetch_session_context sid') (λ l _, silent l).
Proof. apply silent_bind; [by apply silent_ask|]. intros r. apply always_done, silent_nil. Qed.

Lemma silent_delete sid' cid' : always (delete_with_gate sid' cid') (λ l _, silent l).
Proof.
  apply silent_bind; [by apply silent_ask|]. intros [v|e]; [|apply always_done, silent_nil].
  apply silent_bind; [by apply silent_ask|]. intros r. apply always_done, silent_nil.
Qed.

(** The hold announces at most once, and does not count. *)
Lemma hold_asks_once i c a s n : let '(_, s', l, _) := run o (watch_hold i c a) s n in
  attempts s' = attempts s /\ created l <= 1.
Proof.
  assert (always (watch_hold i c a) (λ l _, created l <= 1 /\
    Forall (λ x, match x with Called c _ => touches c <> Some (ATTEMPTS_SCOPE, attempt_key sid cid) | Emitted _ => True end) l)) as Hw.
  { unfold watch_hold. apply always_bind. eapply always_mono; [apply silent_context|]. intros l ctx [Hc Hl]. apply always_now. intros now.
    apply always_bind, always_ask; intros; repeat case_match; try apply always_emit; apply always_done;
      (split; [rewrite !created_app, Hc; cbn; lia|]; apply Forall_app; split; [done|]; by repeat constructor). }
  pose proof (run_always o _ s n _ Hw) as [Hc Hl]. pose proof (run_elsewhere (watch_hold i c a) s n (ATTEMPTS_SCOPE, attempt_key sid cid)) as He.
  destruct (run o (watch_hold i c a) s n) as [[[x s'] l] m]. cbn [fst snd] in *. split; [by apply attempts_same, He|done].
Qed.

Lemma parse_written_attempt a : in_range 0 u32_max (at_count a) -> parse_attempt (to_value a) = Some a.
Proof.
  intros Ha. unfold parse_attempt. cbn [is_null to_value AttemptRecord_codec json_obj from_value]. codec_tac.
  get_req "session_id" (at_session a); [|done]. get_req "function_call_id" (at_call a); [|done]. get_req "turn_id" (at_turn a); [|done].
  get_req "count" (at_count a); [by destruct a|by apply dec_enc_u].
Qed.

Lemma attempts_range s : in_range 0 u32_max (attempts s).
Proof.
  assert (in_range 0 u32_max 0) as H0 by (split; discriminate).
  unfold attempts. destruct (parse_attempt _) as [a|] eqn:Ha; [|done]. unfold parse_attempt in Ha. destruct (is_null _); [done|].
  cbn [from_value AttemptRecord_codec] in Ha. unbind Ha. injection Ha as <-. cbn [at_count].
  match goal with Hd : req "count" _ _ = Some _ |- _ => unfold req in Hd; destruct (obj_get _ _) as [v|]; [|done]; destruct v as [| |[k|k|k]| | |]; try done; cbn in Hd; case_match eqn:Hk; [|done] end.
  simplify_eq. apply andb_true_iff in Hk as [?%Z.leb_le ?%Z.leb_le]. done.
Qed.

(** The counter is checked, raised and written before the call is asked for. *)
Lemma attempt_counted i c a : hi_session i = sid -> hc_id c = cid -> counted (attempt_and_hold i c a).
Proof.
  intros Hi Hc s n. unfold attempt_and_hold, check_and_bump, try_. rewrite Hi, Hc. cbn [run]. rewrite !run_seq, run_ask, perform_get.
  destruct (fault o (S n)); cbn [run fst snd]; [|cbn; lia..]. fold (attempts s). pose proof (attempts_range s) as [Hr1 Hr2]. unfold check_cap.
  specialize (Hlimit n). destruct (Z.ltb_spec (attempts s) (grant_reask_limit (config_at o n))) as [Hlt|Hge]; cbn [negb]; [|cbn; lia].
  assert ((attempts s + 1) `mod` 2 ^ 32 = attempts s + 1)%Z as Hmod by (apply Z.mod_small; unfold u32_max in *; lia). rewrite Hmod.
  set (rec := mk_attempt _ _ _ _). assert (forall s0, attempts (<[(ATTEMPTS_SCOPE, attempt_key sid cid) := to_value rec]> s0) = (attempts s + 1)%Z) as Hset.
  { intros s0. unfold attempts at 1. rewrite lookup_insert_eq. cbn [default id from_option]. rewrite parse_written_attempt; [done|]. split; cbn; unfold u32_max in *; lia. }
  rewrite !run_seq, run_ask. unfold perform at 1. destruct (fault o (S (S n))); cbn [serve fst snd run].
  - pose proof (hold_asks_once i c a (<[(ATTEMPTS_SCOPE, attempt_key sid cid) := to_value rec]> s) (S (S (S n)))) as Hh.
    destruct (run o (watch_hold i c a) _ _) as [[[x s'] l] m]. destruct Hh as [Hs Hl]. rewrite Hs, Hset, !created_app. cbn [created omap list_omap length]. lia.
  - cbn. lia.
  - rewrite Hset. cbn. lia.
Qed.

Lemma watch_counted i : match hi_call i with Some c => hi_session i = sid /\ hc_id c = cid | None => True end -> counted (filesystem_access_watch i).
Proof.
  intros Hi. unfold filesystem_access_watch. destruct (extract_hint i) as [|a|a]; [apply counted_done..|].
  unfold watch_evaluate. destruct (hi_call i) as [c|]; [|apply counted_done]. destruct Hi as [Hi Hc]. destruct (negb _); [apply counted_done|].
  apply counted_bind; [by apply silent_ask|]. intros [roots|e]; [|apply counted_done]. destruct (existsb _ _); [apply counted_done|].
  apply counted_bind; [unfold read_denied; apply silent_bind; [by apply silent_ask|intros r; apply always_done, silent_nil]|].
  intros denied. destruct (existsb _ _); [apply counted_done|]. unfold existing_and_hold.
  apply counted_bind; [by apply silent_ask|]. intros [[p|]|e]; [|by apply attempt_counted|apply counted_done].
  repeat case_match; try apply counted_done; try by apply attempt_counted.
  apply counted_bind; [apply silent_delete|]. intros [d|e]; [by apply attempt_counted|apply counted_done].
Qed.

(** What happens to the store before the [j]-th failure of the call: anything that leaves the count
    of its attempts alone. *)
Context (gap : nat -> Store -> Store).
Context (Hgap : forall j s, gap j s !! (ATTEMPTS_SCOPE, attempt_key sid cid) = s !! (ATTEMPTS_SCOPE, attempt_key sid cid)).

(** Failures of one call, one after the other. *)
Fixpoint watch_all (inputs : list HookInput) (j : nat) (s : Store) (n : nat) : Store * nat :=
  match inputs with
  | [] => (s, 0)
  | i :: rest =>
      let '(_, s1, l, n1) := run o (filesystem_access_watch i) (gap j s) n in
      let '(s2, asked) := watch_all rest (S j) s1 n1 in (s2, created l + asked)
  end.

(** C21: however often a call fails for want of a directory, one failure after the other, it is asked
    for at most as often as the limit of the configuration says, whatever calls of the worker fail
    on the way and whatever else is done between the failures, short of the purges that clear the
    count.  (Watches of one call that overlap may read the same count and ask once each.) *)
Theorem reasks_are_bounded inputs j s n :
  Forall (λ i, match hi_call i with Some c => hi_session i = sid /\ hc_id c = cid | None => True end) inputs ->
  let '(s', asked) := watch_all inputs j s n in (attempts s + Z.of_nat asked <= attempts s' <= Z.max (attempts s) L)%Z.
Proof.
  revert j s n. induction inputs as [|i inputs IH]; intros j s n Hall; cbn [watch_all]; [lia|]. apply Forall_cons in Hall as [Hi Hall].
  pose proof (watch_counted i Hi (gap j s) n) as Hw. rewrite (attempts_same s (gap j s)) in Hw by apply Hgap.
  destruct (run o (filesystem_access_watch i) (gap j s) n) as [[[x s1] l] n1]. specialize (IH (S j) s1 n1 Hall).
  destruct (watch_all inputs (S j) s1 n1) as [s2 asked]. lia.
Qed.

End Watch.
End WatchProperties.

(** ** A decision that is overtaken *)

Module RaceProperties.
Import InboxProperties.

Section Race.
Context (handler : nat -> Prog Answer -> Prop) (n : nat) (r : ResolveRequest) (ans : ResolveResponse).

Definition decided_key : string * string := (PENDING_SCOPE, pending_key (rq_session r) (rq_call r)).

(** The inbox shows [q] at the place the decision is about. *)
Definition shows (w : World Answer) (q : PendingApprovalRecord) : Prop := exists v, store w !! decided_key = Some v /\ parse_record v = Some q.

Definition events_of (l : list Moment) : list Event := omap (λ m, match m with MEvent _ e => Some e | MCall _ _ _ _ _ => None end) l.

(** The decision goes on alone to its answer, the place is empty, and what it announced on the way
    is that [d] was decided. *)
Definition ends_with (d : PendingApprovalRecord) (w : World Answer) : Prop := exists w' l t,
  rtc (step handler) w w' /\ threads w' !! n = Some (Done (AResolved (Ok ans))) /\ store w' !! decided_key = None /\
  history w' = history w ++ l /\ events_of l = [Resolved (resolved_event d (outcome_of r) (reason_of r) t)].

(** The tail of the decision once it knows what it took. *)
Lemma announcing_ends d w :
  threads w !! n = Some (Do (StateDelete PENDING_SCOPE (pending_key (rq_session r) (rq_call r)))
    (λ _, Now (λ t, Emit (Resolved (resolved_event d (outcome_of r) (reason_of r) t)) (Done (AResolved (Ok ans)))))) ->
  ends_with d w.
Proof.
  intros Hn.
  eexists _, _, 0%Z. split_and!.
  - eapply rtc_l; [eapply s_call, hap_served, ans_delete; exact Hn|]. eapply rtc_l; [apply s_now; apply lookup_insert_eq|].
    eapply rtc_l; [apply s_emit; apply lookup_insert_eq|]. apply rtc_refl.
  - apply lookup_insert_eq.
  - apply lookup_delete_eq.
  - cbn [history resume]. rewrite <- app_assoc. reflexivity.
  - reflexivity.
Qed.

(** The step at which a decision compares what is in the inbox with the record it was made about;
    behind it nothing is compared any more. *)
Lemma compares w p : threads w !! n = Some (answering AResolved (finish r p ans)) -> shows w p ->
  exists w1, step handler w w1 /\ store w1 = store w /\
    threads w1 !! n = Some (answering AResolved (deleted ←% delete_with_gate (rq_session r) (rq_call r);
      match deleted with
      | Ok (Some d) => Now (λ t, Emit (Resolved (resolved_event d (outcome_of r) (reason_of r) t)) (Done (Ok ans)))
      | _ => Done (Ok ans)
      end)).
Proof.
  intros Hn (v & Hv & Hp). eexists. split; [eapply s_call, hap_served, ans_get; exact Hn|]. split; [done|]. cbn [threads].
  rewrite lookup_insert_eq. fold decided_key. rewrite Hv. cbn [ask bind default id]. unfold id. rewrite Hp. by rewrite bool_decide_eq_true_2.
Qed.

(** The step at which a decision takes what is in the inbox, and marks the place. *)
Lemma marks w q : threads w !! n = Some (answering AResolved (deleted ←% delete_with_gate (rq_session r) (rq_call r);
      match deleted with
      | Ok (Some d) => Now (λ t, Emit (Resolved (resolved_event d (outcome_of r) (reason_of r) t)) (Done (Ok ans)))
      | _ => Done (Ok ans)
      end)) -> shows w q ->
  exists w1, step handler w w1 /\ history w1 = history w ++ [MCall n (StateSet PENDING_SCOPE decided_key.2 Null) (store w) (Ok (set_reply (store w !! decided_key) Null)) true] /\
    store w1 = <[decided_key := Null]> (store w) /\
    threads w1 !! n = Some (Do (StateDelete PENDING_SCOPE (pending_key (rq_session r) (rq_call r)))
      (λ _, Now (λ t, Emit (Resolved (resolved_event q (outcome_of r) (reason_of r) t)) (Done (AResolved (Ok ans)))))).
Proof.
  intros Hn (v & Hv & Hq). eexists. split; [eapply s_call, hap_served, ans_set; exact Hn|]. split; [done|]. split; [done|]. cbn [threads].
  rewrite lookup_insert_eq. fold decided_key. rewrite Hv. cbn [ask bind]. rewrite old_value_reply. cbn [default]. unfold id. by rewrite Hq.
Qed.

(** C22: a decision clears the record it was about without comparing again.  Once it has compared,
    whatever record [q] of the call is in the inbox when it goes on is taken and announced as
    decided, though the decision was never about it; once it has marked the place, whatever record
    is written there is deleted behind the mark and not announced at all. *)
Theorem follow_up_can_be_lost w p :
  threads w !! n = Some (answering AResolved (finish r p ans)) -> shows w p ->
  exists w1 w2, rtc (step handler) w w1 /\ rtc (step handler) w1 w2 /\
    (forall w' q, threads w' !! n = threads w1 !! n -> shows w' q -> ends_with q w') /\
    (forall w' q, threads w' !! n = threads w2 !! n -> shows w' q -> ends_with p w').
Proof.
  intros Hn Hp. destruct (compares w p Hn Hp) as (w1 & Hs1 & Hst & Hn1).
  assert (shows w1 p) as Hp1 by (unfold shows; by rewrite Hst).
  destruct (marks w1 p Hn1 Hp1) as (w2 & Hs2 & _ & _ & Hn2).
  exists w1, w2. split; [by apply rtc_once|]. split; [by apply rtc_once|]. split.
  - intros w' q Ht Hq. rewrite Hn1 in Ht. destruct (marks w' q Ht Hq) as (w3 & Hs3 & Hh & _ & Hn3).
    assert (ends_with q w3) as (w4 & l & t & Hr & Hd & He & Hl & Hev) by (by apply announcing_ends).
    eexists w4, (MCall _ _ _ _ _ :: l), t. split_and!; [by eapply rtc_l|done|done| |exact Hev]. rewrite Hl, Hh, <- app_assoc. reflexivity.
  - intros w' q Ht Hq. rewrite Hn2 in Ht. by apply announcing_ends.
Qed.
End Race.
End RaceProperties.
