(* ===== verification/GateExamples.v ===== *)
(** * Runs of the approval gate

    Module [Play] runs interleaved handlers from a list of moves.  [GateSamples] is a small inbox;
    [GateRaces] are interleavings in which a record or a denial is lost, and runs that apply the
    theorems of [GateInbox]. *)

From Stdlib Require Import Ascii ZArith Lia.
From stdpp Require Import relations.
From S2P Require Import Prelude Json Codec JsonText GateTypes GatePolicy GateConfig GateBus GateHandlers GateInbox GateProperties GateStores GateSessions Paging.
Import GateWire GateSettings Permissions GateProg GateState GateWorld Pending InboxProperties Handlers.

Module Play.

(** What happens next: a request arrives, a handler makes its next step, with what becomes of
    a call, the answer of another worker and the reading of the clock, or a handler has ended. *)
Inductive Move (A : Type) : Type :=
| Begin (n : nat) (p : Prog A)
| Next (n : nat) (f : Fault) (reply : Value) (now : Z)
| End (n : nat).
Arguments Begin {A}.
Arguments Next {A}.
Arguments End {A}.

Definition set_thread {A} (n : nat) (p : Prog A) (s : Store) (m : list Moment) (l : option nat) (w : World A) : World A :=
  mk_world s (config w) l (<[n := p]> (threads w)) (history w ++ m).

Definition play1 {A} (w : World A) (m : Move A) : option (World A) :=
  match m with
  | Begin n p => match threads w !! n with None => Some (resume n p w) | Some _ => None end
  | Next n f reply now =>
      match threads w !! n with
      | Some (Do c k) =>
          let '(v, s') := serve (mk_oracle (λ _ _ _, reply) (λ _, Fine) (λ _, now) (λ _, config w)) 0 c (store w) in
          let '(r, s1, took) := match f with Fine => (Ok v, s', true) | Lost e => (Err e, store w, false) | Late e => (Err e, s', true) end in
          Some (mk_world s1 (config w) (host_root_lock w) (<[n := k r]> (threads w)) (history w ++ [MCall n c (store w) r took]))
      | Some (Config k) => Some (resume n (k (config w)) w)
      | Some (Now k) => Some (resume n (k now) w)
      | Some (Emit e k) =>
          Some (mk_world (store w) (config w) (host_root_lock w) (<[n := k]> (threads w)) (history w ++ [MEvent n e]))
      | _ => None
      end
  | End n =>
      match threads w !! n with
      | Some (Done _) => Some (mk_world (store w) (config w) (host_root_lock w) (delete n (threads w)) (history w))
      | _ => None
      end
  end.

Fixpoint play {A} (w : World A) (l : list (Move A)) : option (World A) :=
  match l with [] => Some w | m :: l' => match play1 w m with Some w' => play w' l' | None => None end end.

Lemma play1_step {A} (handler : nat -> Prog A -> Prop) w m w' :
  match m with Begin n p => handler n p | _ => True end -> play1 w m = Some w' -> step handler w w'.
Proof.
  destruct m as [n p|n f reply now|n]; cbn [play1]; intros Hh.
  - destruct (threads w !! n) eqn:Hn; [done|]. intros [= <-]. by constructor.
  - destruct (threads w !! n) as [[a|c k|k|k|e k|k|k]|] eqn:Hn; try done.
    + pose proof (serve_answers (mk_oracle (λ _ _ _, reply) (λ _, Fine) (λ _, now) (λ _, config w)) 0 c (store w)) as Ha.
      destruct (serve _ _ _ _) as [v s']. cbn [fst snd] in Ha.
      destruct f; intros [= <-]; (eapply s_call; [exact Hn|]); [by constructor|apply hap_lost|by eapply hap_late].
    + intros [= <-]. by apply s_config.
    + intros [= <-]. by apply s_now.
    + intros [= <-]. by apply s_emit.
  - destruct (threads w !! n) as [[a|c k|k|k|e k|k|k]|] eqn:Hn; try done. intros [= <-]. by eapply s_end.
Qed.

Lemma play_reachable {A} (handler : nat -> Prog A -> Prop) s c l w :
  Forall (λ m, match m with Begin n p => handler n p | _ => True end) l -> play (started s c) l = Some w -> reachable handler s c w.
Proof.
  unfold reachable. generalize (started (A := A) s c). induction l as [|m l IH]; intros w0 Hl; cbn [play]; [by intros [= <-]|].
  apply Forall_cons in Hl as [Hm Hl]. destruct (play1 w0 m) as [w1|] eqn:Hp; [|done]. intros Hw.
  eapply rtc_l; [by eapply play1_step|by apply IH].
Qed.

End Play.

(** ** A small inbox *)

Module GateSamples.
Import Play.
#[export] Existing Instances SampleRegex.sample_regex SampleText.text SampleFile.text SampleRegex.sample_regex_laws SampleFile.laws.

Definition code (s : string) : string := s.
Definition decode_any (s : string) : option string := Some s.

(** Rules that let nothing through: every call is held. *)
Definition asking : WorkerConfig := mk_worker_config Manual [] 1.

(** A call of [shell::fs::read] in session [s], turn [t], waiting for a decision. *)
Definition waiting : PendingApprovalRecord :=
  mk_pending "s" "t" "c" "shell::fs::read" (Obj []) 1 None None None 0 None KFunction None.
Definition inbox_of (l : list PendingApprovalRecord) : Store :=
  list_to_map ((λ r : PendingApprovalRecord, ((PENDING_SCOPE, InboxRules.record_key r), to_value r)) <$> l).

Definition outside : AccessRequest := mk_access "/data" "/data/x" "S215".
Definition refusal (a : AccessRequest) : string :=
  "outside jail " +:+ AccessHint.ACCESS_REQUEST_MARKER
  +:+ file_text (json_obj [("v", enc_u 1); ("requested_root", Str (requested_root a)); ("attempted_path", Str (attempted_path a))]).

(** The call, before it runs and after it was refused a file. *)
Definition the_call : HookCall := mk_call "c" "shell::fs::read" (Obj []).
Definition before_call : HookInput := mk_hook "s" "t" 0 None (Some the_call) None.
Definition after_call (a : AccessRequest) : HookInput :=
  mk_hook "s" "t" 0 None (Some the_call) (Some (mk_hook_result [] true (Some (mk_hook_error (Some (access_code a)) (refusal a))))).

Definition run_request (r : Request) : Prog Answer := handle code decode_any r.
Definition begin (n : nat) (r : Request) : Move Answer := Begin n (run_request r).

(** [k] steps of one handler in which nothing fails. *)
Definition steps (n k : nat) : list (Move Answer) := replicate k (Next n Fine (Obj []) 7).

(** The world the moves lead to, from an inbox. *)
Definition after (l : list PendingApprovalRecord) (moves : list (Move Answer)) : World Answer :=
  default (started ∅ asking) (play (started (inbox_of l) asking) moves).

Definition the_handlers : nat -> Prog Answer -> Prop := gate_handler code decode_any.

Lemma after_reachable (handler : nat -> Prog Answer -> Prop) l moves :
  Forall (λ m, match m with Begin n p => handler n p | _ => True end) moves ->
  bool_decide (is_Some (play (started (inbox_of l) asking) moves)) = true -> reachable handler (inbox_of l) asking (after l moves).
Proof.
  intros Hl [w Hw]%bool_decide_eq_true. unfold after. rewrite Hw. cbn [default]. by eapply play_reachable.
Qed.

Ltac played :=
  apply after_reachable;
  [ repeat first [apply Forall_nil_2 | apply Forall_cons_2; [first [exact I | by eexists | eexists; split; [|reflexivity]; reflexivity]|]] | vm_compute; reflexivity ].

End GateSamples.

Module GateRaces.
Import Play GateSamples RaceProperties.

Definition allow_it : ResolveRequest := mk_resolve "s" "c" AllowIt None None.
Definition the_key : string := InboxRules.record_key waiting.

(** The decision is applied up to its [k]-th step; the call, which was released, is refused a
    file, and its record is written anew; then the decision clears the inbox. *)
Definition follow_up_during (k : nat) : list (Move Answer) :=
  [begin 1 (RResolve allow_it)] ++ steps 1 k ++ [begin 2 (RWatch (after_call outside))] ++ steps 2 10 ++ steps 1 (7 - k).

(** What is left of two records of a call: one announcement, though the other was held for
    a decision nobody can give any more. *)
Definition lost_one (s0 : Store) (w : World Answer) : Prop :=
  threads w !! 1 = Some (Done (AResolved (Ok (mk_resolve_response true None)))) /\
  threads w !! 2 = Some (Done (AHook Hold)) /\ ~ live (store w) the_key /\
  times the_key (written (history w)) + here (live s0 the_key) = 2 /\ times the_key (announced (history w)) = 1.

(** The race, played: a hold that is written behind the comparison, before the mark or before the
    deletion of the mark, disappears.  The call stays held, and the inbox does not show it. *)
Example follow_ups_lost_here :
  Forall (λ k, exists w, reachable the_handlers (inbox_of [waiting]) asking w /\ lost_one (inbox_of [waiting]) w) [3; 4].
Proof.
  apply Forall_cons; split; [exists (after [waiting] (follow_up_during 3))|apply Forall_singleton; exists (after [waiting] (follow_up_during 4))];
    (split; [played|]; unfold lost_one; split; [vm_compute; reflexivity|]; split; [vm_compute; reflexivity|];
     split; [apply (bool_decide_eq_false_1 (live _ _)); vm_compute; reflexivity|]; split; vm_compute; reflexivity).
Qed.

(** The world in which the harness has answered the decision. *)
Definition answered_decision : World Answer := after [waiting] ([begin 1 (RResolve allow_it)] ++ steps 1 2).

Lemma follow_up_can_be_lost_witness :
  reachable the_handlers (inbox_of [waiting]) asking answered_decision /\
  exists w1 w2, rtc (step the_handlers) answered_decision w1 /\ rtc (step the_handlers) w1 w2 /\
    (forall w' q, threads w' !! 1 = threads w1 !! 1 -> shows allow_it w' q -> ends_with the_handlers 1 allow_it (mk_resolve_response true None) q w') /\
    (forall w' q, threads w' !! 1 = threads w2 !! 1 -> shows allow_it w' q -> ends_with the_handlers 1 allow_it (mk_resolve_response true None) waiting w').
Proof.
  split; [unfold answered_decision; played|].
  apply (follow_up_can_be_lost the_handlers 1 allow_it (mk_resolve_response true None) answered_decision waiting).
  - reflexivity.
  - exists (to_value waiting). split; [vm_compute; reflexivity|vm_compute; reflexivity].
Defined.

(** *** Two denials *)

Definition asking_for (cid root : string) : PendingApprovalRecord :=
  mk_pending "s" "t" cid "shell::fs::read" (Obj []) 1 None None None 0 None KFilesystemAccess (Some (mk_access root (root +:+ "/x") "S215")).
Definition two_asks : list PendingApprovalRecord := [asking_for "a" "/a"; asking_for "b" "/b"].
Definition deny (cid : string) : ResolveRequest := mk_resolve "s" cid DenyIt None None.

Definition both_denied : list (Move Answer) :=
  [begin 1 (RResolve (deny "a")); begin 2 (RResolve (deny "b"))] ++ steps 1 2 ++ steps 2 2 ++ steps 1 7 ++ steps 2 7.

(** Two denials of one session that are recorded at the same time: both are answered, one is
    forgotten, and the directory is asked for again. *)
Theorem concurrent_denials_lose_one : exists w,
  reachable the_handlers (inbox_of two_asks) asking w /\
  (forall n, n = 1 \/ n = 2 -> threads w !! n = Some (Done (AResolved (Ok (mk_resolve_response true None))))) /\
  store w !! (AccessState.DENIED_SCOPE, "s") = Some (enc_str_list ["/b"]) /\
  (run (mk_oracle (λ _ _ _, Obj []) (λ _, Fine) (λ _, 9%Z) (λ _, asking))
     (filesystem_access_watch (after_call (mk_access "/a" "/a/x" "S215"))) (store w) 0).1.1.1 = Hold.
Proof.
  exists (after two_asks both_denied). split; [played|]. split; [|split; [vm_compute; reflexivity|vm_compute; reflexivity]]. intros n [-> | ->]; vm_compute; reflexivity.
Qed.

(** *** The bound on announcements, at work *)

Definition decided_twice : list (Move Answer) :=
  [begin 1 (RResolve allow_it); begin 2 (RResolve allow_it); begin 3 (RTurnCompleted "t")]
  ++ steps 1 3 ++ steps 2 3 ++ steps 3 3 ++ steps 1 2 ++ steps 2 2 ++ steps 3 2.

Lemma inbox_keyed l : keyed (inbox_of l).
Proof.
  induction l as [|r l IH]; [by intros k v q|]. intros k v q. unfold inbox_of. cbn [fmap list_fmap list_to_map foldr].
  rewrite lookup_insert. case_decide as Hk; [|apply IH]. injection Hk as <-. intros [= <-]. apply parse_written.
Qed.

Lemma resolved_at_most_once_per_record_witness :
  let w := after [waiting] decided_twice in
  times the_key (announced (history w)) = 1 /\
  times the_key (announced (history w)) <= times the_key (written (history w)) + here (live (inbox_of [waiting]) the_key).
Proof.
  split; [vm_compute; reflexivity|].
  apply (resolved_at_most_once_per_record code decode_any (inbox_of [waiting]) asking _ the_key (inbox_keyed _)). played.
Defined.

(** Two decisions and the end of the turn, to their ends: the second decision and the purge find
    nothing to take. *)
Definition decided : list (Move Answer) := decided_twice ++ steps 3 1 ++ [End 1; End 2; End 3].

(** A watch that takes a record of another turn to make room for its own, then the end of its turn:
    two records are taken, and only the one the end of the turn took is announced. *)
Definition stale : PendingApprovalRecord :=
  mk_pending "s" "before" "c" "shell::fs::read" (Obj []) 1 None None None 0 None KFunction None.
Definition replaced : list (Move Answer) :=
  [begin 1 (RWatch (after_call outside))] ++ steps 1 12 ++ [End 1; begin 2 (RTurnCompleted "t")] ++ steps 2 7 ++ [End 2].
Definition first_watches (n : nat) : bool := n =? 1.

Lemma every_taken_record_is_announced_witness :
  (let w := after [waiting] decided in announced (history w) = [the_key] /\ announced (history w) ≡ₚ acked (history w)) /\
  let w := after [stale] replaced in
  acked (history w) = [the_key; the_key] /\ announced (history w) = [the_key] /\
  announced (of_handlers (λ n, negb (first_watches n)) (history w)) ≡ₚ acked (of_handlers (λ n, negb (first_watches n)) (history w)).
Proof.
  split.
  - split; [vm_compute; reflexivity|].
    pose proof (every_taken_record_is_announced code decode_any (λ _, false) (inbox_of [waiting]) asking (after [waiting] decided) (inbox_keyed _)) as H.
    cbv zeta in H. rewrite !of_all_handlers in H. apply H; [played|vm_compute; reflexivity].
  - split; [vm_compute; reflexivity|]. split; [vm_compute; reflexivity|].
    apply (every_taken_record_is_announced code decode_any first_watches (inbox_of [stale]) asking (after [stale] replaced) (inbox_keyed _)); [played|vm_compute; reflexivity].
Defined.

End GateRaces.

(** ** The other theorems on concrete inputs *)

Module GateWitnesses.
Import GateSamples RunRules ScopeRules PurgeProperties ListProperties SettingsModel.

Definition calm : Oracle := mk_oracle (λ _ _ _, Obj []) (λ _, Fine) (λ _, 7%Z) (λ _, asking).

Lemma calm_healthy : healthy calm.
Proof. by intros n. Qed.

Lemma calm_clock n : GateWireRules.i64_ok (clock calm n).
Proof. split; discriminate. Qed.

Lemma calm_config n : config_at calm n = asking.
Proof. done. Qed.

(** A call that is held is in the inbox. *)
Definition blind : Oracle := mk_oracle (remote calm) (λ n, match n with 2 => Lost "timeout" | _ => Fine end) (clock calm) (config_at calm).

Lemma gate_never_holds_blind_witness :
  ((run calm (gate before_call) ∅ 0).1.1.1 = Hold /\
   exists c, hi_call before_call = Some c /\ GateProperties.shown before_call c (run calm (gate before_call) ∅ 0).1.2) /\
  exists reason, (run blind (gate before_call) ∅ 0).1.1.1 = Deny reason.
Proof.
  split.
  - assert ((run calm (gate before_call) ∅ 0).1.1.1 = Hold) as Hh by (vm_compute; reflexivity). split; [exact Hh|].
    destruct (run_always calm (gate before_call) ∅ 0 _ (GateProperties.gate_never_holds_blind before_call)) as [Hs _]. exact (Hs Hh).
  - destruct (run_always blind (gate before_call) ∅ 0 _ (GateProperties.gate_never_holds_blind before_call)) as (_ & Hr & _).
    apply (Hr (Called (StateGet Pending.PENDING_SCOPE "s/c") (Err "timeout"))).
    + vm_compute. right. left.
    + exists "timeout". left. eexists. reflexivity.
Defined.

(** A decision that is applied was delivered; one about a call that is not pending does nothing. *)
Lemma decision_reaches_the_harness_first_witness :
  (let '(a, _, l, _) := run calm (resolve GateRaces.allow_it) (inbox_of [waiting]) 0 in
   a = Ok (mk_resolve_response true None) /\
   exists found before payload v after, l = found :: before ++ Called (Remote GateProperties.resolve_function payload) (Ok v) :: after /\ GateProperties.quiet before) /\
  (let '(a, _, l, _) := run calm (resolve GateRaces.allow_it) ∅ 0 in
   a = Ok (mk_resolve_response false None) /\ exists found, l = [found]).
Proof.
  split.
  - pose proof (run_always calm (resolve GateRaces.allow_it) (inbox_of [waiting]) 0 _ (GateProperties.decision_reaches_the_harness_first GateRaces.allow_it)) as Hd.
    assert ((run calm (resolve GateRaces.allow_it) (inbox_of [waiting]) 0).1.1.1 = Ok (mk_resolve_response true None)) as Ha by (vm_compute; reflexivity).
    destruct (run calm (resolve GateRaces.allow_it) (inbox_of [waiting]) 0) as [[[a s'] l] m]. cbn [fst snd] in Ha, Hd. rewrite Ha in Hd.
    split; [exact Ha|]. destruct Hd as [(_ & _ & e & He)|(found & rest & -> & Hd)]; [discriminate He|].
    destruct found as [v|e]; [|destruct Hd as [_ Hd]; discriminate Hd].
    destruct (Pending.parse_record v) as [p|]; [|destruct Hd as [_ Hd]; discriminate Hd].
    destruct Hd as (before & payload & reply & after & -> & Hq & _ & Hr). destruct reply as [x|e]; [|destruct Hr as [Hr _]; discriminate Hr].
    eexists _, before, payload, x, after. split; [reflexivity|exact Hq].
  - pose proof (run_always calm (resolve GateRaces.allow_it) ∅ 0 _ (GateProperties.decision_reaches_the_harness_first GateRaces.allow_it)) as Hd.
    assert ((run calm (resolve GateRaces.allow_it) ∅ 0).1.1.1 = Ok (mk_resolve_response false None)) as Ha by (vm_compute; reflexivity).
    destruct (run calm (resolve GateRaces.allow_it) ∅ 0) as [[[a s'] l] m]. cbn [fst snd] in Ha, Hd. rewrite Ha in Hd.
    split; [exact Ha|]. destruct Hd as [(_ & _ & e & He)|(found & rest & -> & Hd)]; [discriminate He|].
    destruct found as [v|e]; [|destruct Hd as [_ Hd]; discriminate Hd].
    destruct (Pending.parse_record v) as [p|]; [|destruct Hd as [-> _]; eexists; reflexivity].
    destruct Hd as (before & payload & reply & after & _ & _ & _ & Hr). destruct reply as [x|e]; destruct Hr as [Hr _]; discriminate Hr.
Defined.


Definition waiting_in (sid turn cid : string) : PendingApprovalRecord :=
  mk_pending sid turn cid "shell::fs::read" (Obj []) 1 None None None 0 None KFunction None.
Definition three : list PendingApprovalRecord := [waiting_in "s" "t" "a"; waiting_in "s" "u" "b"; waiting_in "r" "t" "c"].

Lemma no_attempts l : keyed_in AccessState.ATTEMPTS_SCOPE AccessState.parse_attempt attempt_of (inbox_of l).
Proof.
  intros k v x. unfold inbox_of. intros Hv%elem_of_list_to_map_2. apply list_elem_of_fmap in Hv as (r & Hr & _). by injection Hr.
Qed.

(** Two of three calls belong to the turn. *)
Lemma turn_purge_clears_the_turn_witness :
  let '(_, s', acts, _) := run calm (on_turn_completed "t") (inbox_of three) 0 in
  record_at PENDING_SCOPE parse_record s' "s/a" = None /\ record_at PENDING_SCOPE parse_record s' "s/b" = Some (waiting_in "s" "u" "b") /\
  removes (of_turn "t" (inbox_of three)) (inbox_of three) s'.
Proof.
  pose proof (turn_purge_clears_the_turn calm calm_healthy "t" (inbox_of three) 0 (GateRaces.inbox_keyed three) (no_attempts three)) as Ht.
  assert (record_at PENDING_SCOPE parse_record (run calm (on_turn_completed "t") (inbox_of three) 0).1.1.2 "s/a" = None) as Ha by (vm_compute; reflexivity).
  assert (record_at PENDING_SCOPE parse_record (run calm (on_turn_completed "t") (inbox_of three) 0).1.1.2 "s/b" = Some (waiting_in "s" "u" "b")) as Hb by (vm_compute; reflexivity).
  destruct (run calm (on_turn_completed "t") (inbox_of three) 0) as [[[a s'] acts] m]. split; [exact Ha|]. split; [exact Hb|apply Ht].
Defined.

Lemma deleted_session_leaves_nothing_witness :
  let '(_, s', acts, _) := run calm (on_session_deleted "s") (inbox_of three) 0 in
  length (resolved_of acts) = 2 /\ removes (of_session "s" (inbox_of three)) (inbox_of three) s'.
Proof.
  pose proof (deleted_session_leaves_nothing calm calm_healthy "s" (inbox_of three) 0 eq_refl (GateRaces.inbox_keyed three) (no_attempts three)) as Ht.
  assert (length (resolved_of (run calm (on_session_deleted "s") (inbox_of three) 0).1.2) = 2) as Ha by (vm_compute; reflexivity).
  destruct (run calm (on_session_deleted "s") (inbox_of three) 0) as [[[a s'] acts] m]. split; [exact Ha|apply Ht].
Defined.

Definition two_at_a_time : ListPendingRequest := mk_list None None (Some 2%Z) None.

(** Three records in pages of two; here the encoding of cursors is the identity. *)
Lemma pending_pages_complete_witness :
  let l := listing two_at_a_time (inbox_of three) in
  length l = 3 /\ Paging.walk (fetch code decode_any calm (inbox_of three) 0 two_at_a_time) 4 None = Some l.
Proof.
  split; [vm_compute; reflexivity|].
  destruct (pending_pages_complete code decode_any (λ _, eq_refl) calm (inbox_of three) 0 two_at_a_time calm_healthy (GateRaces.inbox_keyed three)) as [Hw _].
  exact Hw.
Defined.

Definition changes : list Op := [Allow "shell::run"; SetMode Auto; Allow "shell::run"; Approve "fs::read"; Disallow "shell::run"].

(** The fourth call, which is the second write, takes effect and its answer is lost. *)
Definition shaky : Oracle := mk_oracle (remote calm) (λ n, match n with 7 => Late "timeout" | _ => Fine end) (clock calm) (config_at calm).

Lemma settings_refine_the_session_witness :
  let '(l, s', m) := SettingsProperties.run_all code decode_any shaky "s" changes ∅ 0 in
  length l = 5 /\ reply_of <$> l !! 1 = Some (Some Failed) /\
  exists x src, (run shaky (get_settings "s") s' m).1.1.1 = Ok (x, src) /\ model x = mk_model Auto ∅ {[ "fs::read" ]} /\ src = Stored.
Proof.
  assert (forall n, GateWireRules.i64_ok (clock shaky n)) as Hclock by (intros n; split; discriminate).
  pose proof (SettingsProperties.settings_refine_the_session code decode_any shaky Hclock "s" changes ∅ 0) as Ht.
  assert (length (SettingsProperties.run_all code decode_any shaky "s" changes ∅ 0).1.1 = 5) as Hl by (vm_compute; reflexivity).
  assert (reply_of <$> (SettingsProperties.run_all code decode_any shaky "s" changes ∅ 0).1.1 !! 1 = Some (Some Failed)) as Hf by (vm_compute; reflexivity).
  assert (cell "s" (SettingsProperties.run_all code decode_any shaky "s" changes ∅ 0).1.2 = Holds (mk_model Auto ∅ {[ "fs::read" ]})) as Hc by (vm_compute; reflexivity).
  assert (fault shaky (S (SettingsProperties.run_all code decode_any shaky "s" changes ∅ 0).2) = Fine) as Hfine by (vm_compute; reflexivity).
  destruct (SettingsProperties.run_all _ _ _ _ _ _ _) as [[l s'] m]. cbn [fst snd] in *. destruct Ht as (rs & _ & _ & _ & Hget).
  destruct (Hget eq_refl Hfine) as (x & src & Hx & Hm & Hsrc). rewrite Hc in Hm, Hsrc. split; [exact Hl|]. split; [exact Hf|].
  exists x, src. split; [exact Hx|]. split; [exact Hm|apply Hsrc; by eexists].
Defined.

(** Three failures of one call under a limit of one: one question, though its record is cleared in
    between. *)
Definition cleared (s : Store) : Store := delete (PENDING_SCOPE, pending_key "s" "c") s.

Lemma reasks_are_bounded_witness :
  let '(s', asked) := WatchProperties.watch_all calm (λ _, cleared) (replicate 3 (after_call outside)) 0 ∅ 0 in
  asked = 1 /\ (WatchProperties.attempts "s" "c" ∅ + Z.of_nat asked <= WatchProperties.attempts "s" "c" s' <= 1)%Z.
Proof.
  assert (forall n, (grant_reask_limit (config_at calm n) <= 1)%Z) as Hl by (intros n; reflexivity).
  assert (0 <= 1 <= u32_max)%Z as Hb by (split; discriminate).
  assert (Forall (λ i, match hi_call i with Some c => hi_session i = "s" /\ hc_id c = "c" | None => True end) (replicate 3 (after_call outside))) as Hi
    by (apply Forall_replicate; split; reflexivity).
  assert (forall (j : nat) s, cleared s !! (AccessState.ATTEMPTS_SCOPE, AccessState.attempt_key "s" "c") = s !! (AccessState.ATTEMPTS_SCOPE, AccessState.attempt_key "s" "c")) as Hg
    by (intros j s; by apply lookup_delete_ne).
  pose proof (WatchProperties.reasks_are_bounded "s" "c" calm 1 Hl Hb (λ _, cleared) Hg (replicate 3 (after_call outside)) 0 ∅ 0 Hi) as Ht.
  assert ((WatchProperties.watch_all calm (λ _, cleared) (replicate 3 (after_call outside)) 0 ∅ 0).2 = 1) as Ha by (vm_compute; reflexivity).
  destruct (WatchProperties.watch_all calm (λ _, cleared) (replicate 3 (after_call outside)) 0 ∅ 0) as [s' asked]. split; [exact Ha|exact Ht].
Defined.

End GateWitnesses.
